(* ===== verification/_CoqProject ===== *)
-Q . S2P
Prelude.v
GoStd.v
Ports.v
Inventory.v
PolicyDoc.v
Parse.v
Rules.v
Compile.v
Eval.v
Semantics.v
DecideSpec.v
Access.v
Tokens.v
Order.v
Stored.v
Edit.v
EditSpec.v
Rewrite.v
GoData.v
Journal.v
Node.v
Counters.v
ReportQueue.v
Meter.v
GoNet.v
RouteRule.v
Matching.v
Generations.v
Registry.v
GoEnc.v
StateErr.v
ConnProto.v
ConnMessages.v
Sessions.v
ConnExample.v
SessionsSpec.v
SessionLife.v
ClientSession.v
ClientSpec.v
Exchange.v
Handshake.v
Rotation.v
RotationCoord.v
RotationSpec.v
Carrier.v
Expected.v
AdmissionSpec.v
AdmissionPeer.v
Durable.v
DurableSpec.v
EdgeErr.v
Admit.v
AdmitSpec.v
Handover.v
HandoverWorld.v
HandoverRun.v
Edgeset.v
Schedule.v
Lifetime.v
Certs.v
CertsSpec.v
CertsRun.v
StrictJSON.v
Auth.v
AuthSpec.v
AuthWatch.v
Store.v
History.v
HistorySpec.v
HistorySessions.v
Terminal.v
WindowSizes.v
Sizing.v
Input.v
Fanout.v
FanoutSpec.v
Attach.v
FanoutWorld.v
FanoutViewers.v
Participants.v
