(* ===== verification/Prelude.v ===== *)
(** * Paperboat: a verification of the workspace access policy, the edge, the connector protocol and the host's terminals

    Paperboat connects machines, terminals and web previews of a workspace.  The parts that decide who
    reaches what, what is paid for, and what a shared terminal shows are modelled here from their Go sources.

    - The access policy, src/shared/policy: a policy file (JSON with comments) names groups, tags and rules.  It
      is parsed, compiled against the workspace inventory into a sorted list of grants, evaluated,
      reviewed as a difference of access, stored as rows that an SQL function of the server enforces, and edited
      and rewritten in place.
    - The edge, src/tunnel/internal: a node admits connectors and streams (node), uses each signed operation once
      (operation), counts bytes and reports them to the server (usage), and matches requests to routes, by
      generations of rules that are staged, promoted, fenced and drained (route); carriers are admitted and their streams
      authorized by what the server issued (datacarrier); a connector is admitted by a credential (admission), certificates are
      distributed and served by name (tlscert), credentials are verified against a snapshot of keys and revocations (auth, strictjson), what must survive a
      restart is saved in one file (store), and a new process takes the sockets and certificates over (handover).
    - The connector protocol, src/shared/connectorprotocol: a connector and the server agree on a version and
      capabilities, open a session that fences the one before, exchange configurations in two phases, keep the session alive, drain
      it, and rotate the credentials of a tunnel's connectors.
    - The terminal sessions of a host, src/cli/internal/hostruntime (history and session): the output of a terminal is kept as a bounded history in counted buffers, sent
      to every viewer through a ring, and resumed after a reconnection; input is written once; the viewers' window sizes decide the terminal's.
    - Parts that these share: retries, recovery, leases and the server's clock (src/shared), and the choice of the edges of a scope by
      the server (src/server/internal/edgeset).

    ** Files

    Prelude: notations, automation (the tactics [case_bool] and [to_prop], the hint database [pb]), sorting and
    list lemmas, 64-bit integers.  GoStd, GoData, GoNet: the parts of Go's standard library the code uses (strings, strconv,
    sort.Search, time, encoding/hex, unicode/utf8, net).  GoEnc: base64 and byte classes.  StateErr: the monad of methods that
    change an object and may fail.

    The policy package:
    - Ports (policy.go, compile.go, eval.go, parse.go): port ranges, merging, subtraction, their JSON form.
    - Inventory (inventory.go): members, machines, resources, and resolving their names.
    - PolicyDoc (policy.go): documents, actions, errors with JSON Pointers; collecting errors is the writer
      monad [W].
    - Parse (parse.go): the strict parser over the tree the hujson library returns.
    - Rules (rules.go, compile.go): subjects, targets and actions of one rule, the grant builder.
    - Compile (compile.go, rows.go): groups, tags, limits, the compiled policy, token scopes, stored rows.
    - Eval (eval.go): Decide, DecideToken, Enforced, the tests of a policy file, Validate.
    - Semantics, DecideSpec: what a rule says, read directly, and that Decide answers by it.
    - Access (diff.go): the review of access changes, WhoCan and WhatCan.  Tokens: scopes and Validate.
    - Order: the iteration order of maps.  Stored (migration 148): the SQL function over the stored rows.
    - Edit (edit.go, tags_edit.go) and Rewrite (rewrite.go): edits of the syntax tree and of references; EditSpec: what an
      edited file parses to.

    The edge:
    - Journal (operation/journal.go), Node (node/state.go, node/manager.go).
    - Counters, ReportQueue (usage/counter.go, usage/quota.go), Meter (usage/meter.go, sign.go, policy.go).
    - RouteRule, Matching (route/matching_rules.go and the rules of route/matcher.go), Generations (the
      GenerationRegistry of route/matcher.go), Registry (route/route.go).
    - Carrier (carrier_identity.go and data_stream.go of the connector protocol; Identity and the refusals of datacarrier),
      Expected (datacarrier/admission.go, superseded.go) with AdmissionSpec and AdmissionPeer, Durable
      (datacarrier/durable_admission.go) with DurableSpec.
    - EdgeErr (edgeerrors), Admit (admission/admission.go, runid.go) with AdmitSpec.
    - Handover (handover/sockets.go, protocol.go); HandoverWorld: the processes of a chain of handovers, their kernel sockets and the
      messages between them as a step relation; HandoverRun.
    - Certs (tlscert/registry.go, distribution.go, handover.go) with CertsSpec and CertsRun.
    - StrictJSON (strictjson), Auth (auth) with AuthSpec and AuthWatch; Store (store, and restoreState of cmd/paperboat-tunnel) with a file system that may crash.

    The connector protocol:
    - ConnProto (protocol.go), ConnMessages (authority.go): identifiers, errors, capabilities, messages and their checks.
    - Sessions (session.go) with SessionsSpec and SessionLife; ClientSession (client_session.go) with ClientSpec.
    - Exchange and Handshake: the two ends composed over a network that may lose, repeat and reorder messages.
    - Rotation (rotation.go), RotationCoord (rotation_coordinator.go) with RotationSpec.
    - ConnExample: a connector with which the witnesses are computed.

    The terminal sessions of a host:
    - History (history) with HistorySpec; HistorySessions: any number of histories that share buffers and pools.
    - Terminal (session/screen_continuation.go, terminal_modes.go): the unfinished end of the output, against a grammar of control functions and characters, and the modes it has set.
    - WindowSizes (window_size.go, active_writers.go): which window sets the size; Sizing (window_size_manager.go, resize and applyWindowSizeLocked
      of manager_input.go): having a changed size applied, as a step relation over flags and locks.  Input (input.go, the life cycle of state.go).
    - Fanout (fanout.go) with FanoutSpec, Attach (attachLocked of manager_attach.go).
    - FanoutWorld, FanoutViewers: a session's output and its viewers as a step relation; whoever publishes or attaches holds the session's
      lock, readers come in between.
    - Participants (manager_attach.go, resume.go, attachment_lease.go): who may use an attachment, and moving it to another connection.

    Shared parts and the server:
    - Schedule (backoff, reattach/recovery.go, serverclock, the polling delay of admission/lifetime.go), Lifetime
      (admission/lifetime.go, staging.go of src/shared).
    - Edgeset (edgeset/select.go, reconcile.go).

    ** How the code is modelled

    Strings are byte strings.  An int or uint64 is a number in Z; where the code could exceed its width the
    wrap-around or saturation is written out ([Int64], [UInt64], [UInt32]).  Maps are gmaps, and every
    [range] loop over one goes through [range site], an arbitrary enumeration of its entries, so that what
    is proved holds for every order.  A method that holds its lock is one step; where a method releases its lock
    and goes on (Drain, ActivateGeneration, Acquire, Replace of the admissions, the client's ApplySnapshot, Verify of the credentials, a write of input,
    a change of the window size) the parts are separate steps and the theorems are about every
    interleaving.  Pointers and channels are numbers into heaps that are part of the state.  Errors are values.

    What is not in the repository is a parameter with its documented behaviour: the Unicode tables and the iteration order of
    maps ([GoRuntime]), the hujson library ([HuJSON], [HuJSONWriter]), SHA-256 ([SHA256], only its length),
    signing and JSON of reports ([Signer]), IDNA ([IDNA]), net/url ([NetURL]), Ed25519 ([Ed25519]), the JSON of
    messages ([WireJSON], [RotationJSON], [AdmissionJSON], [HandoverJSON], [CredentialJSON], [StoreJSON]), the tokens of its decoder ([JSONDecoder]), X.509 and PEM ([X509]), case mapping and folding beyond ASCII ([GoUpper], [GoFold]).  [HuJSONLaws] states what EditSpec uses of the
    library's printing, and [RotationRecovery] what a recovery store of rotations promises to the coordinator, which the in-memory store satisfies.  Each has an instance for evaluation ([eval_runtime] and
    so on), with which the witnesses are computed.

    Recursion is structural throughout, except sort.Search, which halves an interval and gets its length as fuel
    ([search_loop_spec] shows it is enough), trimming spaces and decoding UTF-8, which get the length of the
    string, the fields of an IPv6 address, of which there are eight, writing bytes in pieces, which gets their number
    ([ConnProto.writeAll_ends]: every turn writes one or ends), reading a JSON value, which gets twice the number of tokens and one
    ([StrictJSON.Validate_exact] shows it is enough), the loops of the output: scanning gets the length of the data, inserting into a
    ring the length of the ring and one, dropping from a history the number of its events, and the search for the protocol error of a chain, which the source
    bounds by sixteen steps itself.

    ** What is proved

    - Policy: Decide answers exactly what the rules say, independently of the order of rules and maps; the sorted
      search finds what a linear one does; parsed files are well formed; the enforced grants, the review of
      changes, WhoCan, token scopes, the stored rows and the tests of a file all agree with Decide;
      stored references follow renames; port arithmetic is set arithmetic in normal form.
    - Operations and node: a credential is used once, the journal is bounded and restores; streams are counted per
      connector and generation, and draining neither admits anything nor misses the last close.
    - Usage: counters are absolute and saturate, restoring counts each partition once, the queue is a
      bounded list with one entry per counter, and no byte recorded for a scoped authority is lost between counter,
      queue, acknowledgement and pruning, if the clock goes forwards and a Record that prunes reads it in one delivery window.
    - Routes: the index chooses as a scan does, the choice is the unique most specific rule, an accepted generation is
      never ambiguous; in every interleaving the registry of generations is consistent, generations only advance,
      leases are given from the active one, drains and fences end exactly the streams they should; hosts
      have one owner and waiters are woken when the owner changes by Replace.
    - Carriers: only acknowledged admissions authorize a stream, a withdrawal takes effect at once, a successor's predecessor
      serves for a bounded time; the certificate of a peer selects one identity, or SHA-256 collides; the durable registry
      authorizes exactly the last accepted pull and never goes back to an older assignment; the reported refusal is the most specific.
    - Sessions: at most one session of a connector is live, whatever the calls; a configuration is active only after it was
      acknowledged and reported ready; the client prepares, commits and aborts in two phases; over any network both ends agree on
      what is active, and without losses the handshake ends in serving.
    - Rotation: an old credential is revoked only after all replacements are ready, across restarts; each target follows its state
      machine, never ahead of the record.
    - Admission: a connector is admitted only by a valid credential for the current state, and each credential makes one
      admission, however often and with whatever answers it is repeated.
    - Handover: over any number of handovers, also while processes that handed over still drain, no two processes accept on the same listener, and a process and its
      successor never read the same packet socket (processes further apart may: [HandoverRun.udp_read_twice]); the serving process accepts until its replacement is
      ready, and what it offered is what the replacement inherits.
    - Credentials: a credential that is admitted was, as far as the two readings of the snapshot show, signed by a trusted key for this edge and is not revoked; who waits for a
      revocation hears of it, over any sequence of calls; Validate accepts exactly one bounded value without repeated names.
    - State file: after crashes at any time an edge restarts with the last save that succeeded, or one attempted after it.
    - Certificates: what is served is active, current and for the name; a name stays served until its certificate is
      revoked or lapses; a handover keeps every active certificate.
    - Histories: what is replayed is the session's output from the number asked for, a buffer is not reused while anyone holds a reference to it,
      and a history keeps its bounds, with any number of sessions sharing the pools.
    - Viewers: each gets the session's output from where it attached, in order and without gaps, or is told that it fell behind; publishing what was appended never
      fails, and a reader does not wait while there is output queued for it, whatever other readers of the same viewer do, unless one of them took its signal
      ([FanoutViewers.wakeup_taken]).
    - Input, sizes, participants: a numbered write of input reaches the terminal once and in order however often it is sent, as far as writes are not interrupted; a change of
      the windows that is noticed is applied in the end if the process goes on and takes the size; a reconnecting window keeps control; a resume secret moves an attachment
      once, and one client cannot use another's attachment, nor lose it output.
    - Terminal output: what is kept beside a screen is what the output left unfinished, and no more; modes do not depend on how the
      output is cut into reads, if no cut sequence exceeds 64 bytes.
    - Shared parts: delays stay in their bounds and never wrap around, recovery keeps its budget, a lease runs its
      clean-up once and its watchers miss no end, a staged lease has one owner.
    - Edge sets: the choice keeps what it may and spreads over failure domains, it does not depend on the order of candidates
      and hardly on other candidates; reconciling settles, and visits every scope.

    Theorems that record where the code does not do what its comments say or mean:
    [Tokens.scope_without_ports_diverges], [Access.review_misses_host_deny], [Meter.straddling_record_restarts],
    [Registry.attach_move_unsignalled], [ClientSpec.closed_client_reopens], [ClientSpec.timed_out_client_leaks],
    [RotationSpec.resume_forgets_failure], [AdmissionPeer.wait_loses_wakeup], [AdmissionPeer.mark_twice_forgets],
    [AdmissionPeer.pending_over_maximum], [HandoverRun.handover_gap], [HandoverRun.listen_after_release],
    [Edgeset.silent_member_domain_unknown], [CertsRun.hostname_taken_over], [AuthWatch.lifetime_wraps], [FanoutSpec.control_pins_ring],
    [Input.gone_windows_fill_journal], [HandoverRun.udp_read_twice], [FanoutViewers.wakeup_taken], [Terminal.escape_after_escape],
    [Sizing.unnoticed_change_kept] and [Sizing.late_input_hides_change].

    ** What is not modelled

    The hujson parser and its formatting, the JSON schema (schema.go), telemetry of the route registry, HTTP handlers
    (node/health.go), the registration call of the node manager (a remote sink), the verification half of
    usage/sign.go, and the rest of the repository: the server's HTTP and database access (most of it generated), the command line client, the relay, the
    helper and the client libraries, which are network, process and screen input and output.  Of the host's sessions: the Attachment type of state.go, which only a test uses, the snapshots of answers,
    starting and stopping processes, and the manager of sessions on other machines.  Of the connector protocol: the JSON envelope of frames, streams and ingress decisions, and the consumer
    that dispatches frames to a client session.  Of datacarrier: the multiplexed connections, TLS listeners and telemetry.  Of handover: passing
    descriptors over a Unix socket and the loop that waits for replacements.  Of the shared leases: the HTTP polling around the delay.
    What could come next: frames and streams of the connector protocol, the certificate coordinator and the plan limits of the server. *)
From Stdlib Require Export Ascii.
From stdpp Require Export base tactics list gmap strings sorting.
From Stdlib Require Export ZArith Lia Sorted.
From Stdlib Require Import OrdersEx.

#[export] Set Default Goal Selector "!".
#[export] Set Warnings "-clear-no-such-hyp".

Declare Scope paperboat_scope.
Delimit Scope paperboat_scope with pb.
#[global] Open Scope string_scope.
#[global] Open Scope list_scope.
#[global] Open Scope paperboat_scope.

(** ** Automation *)

Create HintDb pb.

(** Appending to a string literal computes. *)
#[global] Arguments String.append !_ _ / : simpl nomatch.

(** Splits on every boolean test of the goal or of the hypotheses. *)
Ltac case_bool :=
  match goal with
  | |- context [if ?b then _ else _] =>
      match type of b with bool => destruct b eqn:? end
  | H : context [if ?b then _ else _] |- _ =>
      match type of b with bool => destruct b eqn:? end
  end.

(** Turns boolean tests into the propositions they decide. *)
Ltac to_prop :=
  repeat match goal with
  | H : (_ && _)%bool = true |- _ => apply andb_true_iff in H; destruct H
  | H : (_ || _)%bool = false |- _ => apply orb_false_iff in H; destruct H
  | H : (_ || _)%bool = true |- _ => apply orb_true_iff in H
  | H : (_ && _)%bool = false |- _ => apply andb_false_iff in H
  | H : negb _ = true |- _ => apply negb_true_iff in H
  | H : negb _ = false |- _ => apply negb_false_iff in H
  | H : bool_decide _ = true |- _ => apply bool_decide_eq_true in H
  | H : bool_decide _ = false |- _ => apply bool_decide_eq_false in H
  | H : String.eqb _ _ = true |- _ => apply String.eqb_eq in H
  | H : String.eqb _ _ = false |- _ => apply String.eqb_neq in H
  | H : Z.eqb _ _ = true |- _ => apply Z.eqb_eq in H
  | H : Z.eqb _ _ = false |- _ => apply Z.eqb_neq in H
  | H : Z.leb _ _ = true |- _ => apply Z.leb_le in H
  | H : Z.leb _ _ = false |- _ => apply Z.leb_gt in H
  | H : Z.ltb _ _ = true |- _ => apply Z.ltb_lt in H
  | H : Z.ltb _ _ = false |- _ => apply Z.ltb_ge in H
  end.

(** ** Machine integers

    Go's int and int64 are 64-bit two's complement numbers here; arithmetic
    wraps around. *)
Module Int64.
Definition min_value : Z := -9223372036854775808.
Definition max_value : Z := 9223372036854775807.

Definition wrap (n : Z) : Z := ((n + 2 ^ 63) mod 2 ^ 64 - 2 ^ 63)%Z.

Definition in_range (n : Z) : Prop := (min_value ≤ n ≤ max_value)%Z.

Lemma int64_wrap_id (n : Z) : in_range n → wrap n = n.
Proof.
  unfold in_range, wrap, min_value, max_value; intros.
  rewrite Z.mod_small; lia.
Qed.
End Int64.

Module UInt64.
Definition max_value : Z := 18446744073709551615.

Definition wrap (n : Z) : Z := (n mod 2 ^ 64)%Z.

Definition in_range (n : Z) : Prop := (0 ≤ n ≤ max_value)%Z.

Lemma uint64_wrap_id (n : Z) : in_range n → wrap n = n.
Proof. unfold in_range, wrap, max_value; intros. apply Z.mod_small; lia. Qed.
End UInt64.

(** ** Sorting

    Go's sort.SliceStable: a stable sort by a strict comparison. *)
Section sort_by.
Context {A : Type} (less : A → A → bool).

Fixpoint insert_by (x : A) (l : list A) : list A :=
  match l with
  | [] => [x]
  | y :: l' => if less y x then y :: insert_by x l' else x :: y :: l'
  end.

Definition sort_by (l : list A) : list A := foldr insert_by [] l.

Lemma insert_by_perm x l : insert_by x l ≡ₚ x :: l.
Proof.
  induction l as [|y l IH]; simpl; [done|].
  destruct (less y x); [|done]. rewrite IH. apply Permutation_swap.
Qed.

Lemma sort_by_perm l : sort_by l ≡ₚ l.
Proof. induction l as [|x l IH]; simpl; [done|]. by rewrite insert_by_perm, IH. Qed.

Lemma elem_of_sort_by x l : x ∈ sort_by l ↔ x ∈ l.
Proof. by rewrite sort_by_perm. Qed.

Lemma length_sort_by l : length (sort_by l) = length l.
Proof. by rewrite sort_by_perm. Qed.

Lemma sort_by_nil_inv l : sort_by l = [] → l = [].
Proof. intros H. apply Permutation_nil_r. by rewrite <-(sort_by_perm l), H. Qed.

(** [ge_of less] is the order the sort establishes: no later element is
    strictly smaller. *)
Definition not_after (x y : A) : Prop := less y x = false.

Class StrictWeakOrder : Prop := {
  swo_asym : ∀ x y, less x y = true → less y x = false;
  swo_trans : ∀ x y z, not_after x y → not_after y z → not_after x z;
}.

Context {HS : StrictWeakOrder}.

Lemma insert_by_sorted x l :
  StronglySorted not_after l → StronglySorted not_after (insert_by x l).
Proof.
  induction l as [|y l IH]; intros Hs; simpl; [by repeat constructor|].
  apply StronglySorted_inv in Hs as [Hs Hy].
  destruct (less y x) eqn:E.
  - constructor; [by apply IH|].
    rewrite insert_by_perm. constructor; [by apply swo_asym|done].
  - constructor; [by constructor|].
    constructor; [done|].
    eapply Forall_impl; [exact Hy|]. intros z Hz; by eapply swo_trans.
Qed.

Lemma sort_by_sorted l : StronglySorted not_after (sort_by l).
Proof. induction l; simpl; [constructor|]. by apply insert_by_sorted. Qed.

(** When no two different elements are equivalent, the sorted list does not
    depend on the order of the input: an unstable sort gives the same list. *)
Lemma sort_by_unique l1 l2 :
  (∀ x y, x ∈ l1 → y ∈ l2 → not_after x y → not_after y x → x = y) →
  l1 ≡ₚ l2 → sort_by l1 = sort_by l2.
Proof.
  intros Hanti Hp.
  apply (StronglySorted_unique_strong not_after); auto using sort_by_sorted.
  - intros x y Hx Hy. rewrite elem_of_sort_by in Hx, Hy. eauto.
  - by rewrite !sort_by_perm.
Qed.

(** Sorting a sorted list changes nothing. *)
Lemma sort_by_id l : StronglySorted not_after l → sort_by l = l.
Proof.
  induction 1 as [|x l Hs IH Hx]; simpl; [done|]. rewrite IH.
  destruct l as [|y l]; simpl; [done|].
  inversion Hx as [|? ? Hxy]; subst. by rewrite Hxy.
Qed.
End sort_by.

Arguments StrictWeakOrder {A} less.

(** ** The byte order of strings, Go's [<] on strings *)
Definition str_ltb (a b : string) : bool :=
  match String.compare a b with Lt => true | _ => false end.

Lemma str_ltb_lt a b : str_ltb a b = true ↔ String_as_OT.lt a b.
Proof.
  unfold str_ltb.
  assert (Hc : String_as_OT.compare a b = String.compare a b) by done.
  rewrite <-Hc.
  destruct (String_as_OT.compare_spec a b) as [->|H|H]; split; try done; intros H'.
  - by apply StrictOrder_Irreflexive in H'.
  - exfalso. eapply (StrictOrder_Irreflexive b). by transitivity a.
Qed.

Lemma str_ltb_trichotomy a b : str_ltb a b = true ∨ a = b ∨ str_ltb b a = true.
Proof.
  rewrite !str_ltb_lt.
  destruct (String_as_OT.compare_spec a b) as [->|H|H]; auto.
Qed.

Lemma str_ltb_irrefl a : str_ltb a a = false.
Proof.
  destruct (str_ltb a a) eqn:E; [|done].
  apply str_ltb_lt in E. by apply StrictOrder_Irreflexive in E.
Qed.

Lemma str_ltb_trans a b c : str_ltb a b = true → str_ltb b c = true → str_ltb a c = true.
Proof. rewrite !str_ltb_lt. intros; by transitivity b. Qed.

Lemma str_ltb_asym a b : str_ltb a b = true → str_ltb b a = false.
Proof.
  intros H. destruct (str_ltb b a) eqn:E; [|done].
  pose proof (str_ltb_trans _ _ _ H E) as Hc. by rewrite str_ltb_irrefl in Hc.
Qed.

#[export] Hint Resolve str_ltb_irrefl str_ltb_trans str_ltb_asym : pb.

(** ** Lexicographic comparison of string tuples: slices.Compare(a, b) < 0 *)
Fixpoint strs_ltb (a b : list string) : bool :=
  match a, b with
  | [], [] => false
  | [], _ :: _ => true
  | _ :: _, [] => false
  | x :: a', y :: b' =>
      if str_ltb x y then true else if str_ltb y x then false else strs_ltb a' b'
  end.

Lemma strs_ltb_irrefl a : strs_ltb a a = false.
Proof. induction a; simpl; [done|]. by rewrite str_ltb_irrefl. Qed.

Lemma strs_ltb_trichotomy a b : strs_ltb a b = true ∨ a = b ∨ strs_ltb b a = true.
Proof.
  revert b; induction a as [|x a IH]; intros [|y b]; simpl; auto.
  destruct (str_ltb_trichotomy x y) as [H|[->|H]].
  - by rewrite H; left.
  - rewrite str_ltb_irrefl. destruct (IH b) as [?|[->|?]]; auto.
  - rewrite H. right; right. done.
Qed.

Lemma strs_ltb_trans a b c : strs_ltb a b = true → strs_ltb b c = true → strs_ltb a c = true.
Proof.
  revert b c; induction a as [|x a IH]; intros [|y b] [|z c]; simpl; try done.
  destruct (str_ltb x y) eqn:Exy.
  { destruct (str_ltb y z) eqn:Eyz.
    { by rewrite (str_ltb_trans _ _ _ Exy Eyz). }
    destruct (str_ltb z y) eqn:Ezy; [done|].
    destruct (str_ltb_trichotomy y z) as [?|[->|?]]; [congruence| |congruence].
    by rewrite Exy. }
  destruct (str_ltb y x) eqn:Eyx; [done|].
  destruct (str_ltb_trichotomy x y) as [?|[->|?]]; [congruence| |congruence].
  destruct (str_ltb y z); [done|]. destruct (str_ltb z y); [done|]. eauto.
Qed.

Lemma strs_ltb_asym a b : strs_ltb a b = true → strs_ltb b a = false.
Proof.
  intros H. destruct (strs_ltb b a) eqn:E; [|done].
  pose proof (strs_ltb_trans _ _ _ H E) as Hc. by rewrite strs_ltb_irrefl in Hc.
Qed.

Lemma strs_ltb_antisym a b : strs_ltb a b = false → strs_ltb b a = false → a = b.
Proof. destruct (strs_ltb_trichotomy a b) as [?|[?|?]]; congruence. Qed.

(** Sorting by a string-tuple key. *)
Lemma key_less_swo {A} (key : A → list string) :
  StrictWeakOrder (λ x y, strs_ltb (key x) (key y)).
Proof.
  split.
  - intros x y; apply strs_ltb_asym.
  - unfold not_after; intros x y z H1 H2.
    destruct (strs_ltb (key z) (key x)) eqn:E; [|done].
    destruct (strs_ltb_trichotomy (key y) (key z)) as [?|[Heq|?]]; [| |congruence].
    + assert (strs_ltb (key y) (key x) = true) by eauto using strs_ltb_trans. congruence.
    + rewrite Heq in H1. congruence.
Qed.

Lemma Z_less_swo {A} (key : A → Z) : StrictWeakOrder (λ x y, (key x <? key y)%Z).
Proof. split; unfold not_after; intros; rewrite ?Z.ltb_lt, ?Z.ltb_ge in *; lia. Qed.

(** ** Lists *)

(** slices.Compact: drops repeats of the previous element. *)
Fixpoint compact {A} `{EqDecision A} (l : list A) : list A :=
  match l with
  | [] => []
  | x :: l' =>
      match l' with
      | [] => [x]
      | y :: _ => if decide (x = y) then compact l' else x :: compact l'
      end
  end.

Lemma elem_of_compact {A} `{EqDecision A} (z : A) l : z ∈ compact l ↔ z ∈ l.
Proof.
  induction l as [|x [|y l] IH]; [done|done|].
  change (compact (x :: y :: l)) with
    (if decide (x = y) then compact (y :: l) else x :: compact (y :: l)).
  case_decide; subst.
  - rewrite IH, !elem_of_cons. tauto.
  - rewrite elem_of_cons, IH. by rewrite !elem_of_cons.
Qed.

(** The elements that are not in [out] yet, added in order: the [seen] set
    idiom of the source. *)
Definition add_new {A} `{EqDecision A} (out : list A) (a : A) : list A :=
  if decide (a ∈ out) then out else out ++ [a].

Lemma elem_of_add_new {A} `{EqDecision A} (out : list A) a z :
  z ∈ add_new out a ↔ z ∈ out ∨ z = a.
Proof.
  unfold add_new. case_decide; [split; [auto|intros [? | ->]; done]|].
  by rewrite elem_of_app, list_elem_of_singleton.
Qed.

Definition add_all {A} `{EqDecision A} (out : list A) (l : list A) : list A :=
  foldl add_new out l.

Lemma elem_of_add_all {A} `{EqDecision A} (out l : list A) z :
  z ∈ add_all out l ↔ z ∈ out ∨ z ∈ l.
Proof.
  unfold add_all. revert out; induction l as [|a l IH]; intros out; simpl.
  - rewrite elem_of_nil. tauto.
  - rewrite IH, elem_of_add_new, elem_of_cons. tauto.
Qed.

Lemma bool_eq_iff (a b : bool) : (a = true ↔ b = true) → a = b.
Proof. destruct a, b; intuition congruence. Qed.

(** Indexing a list by a key, the last element with a key winning: the loops
    that fill a map. *)
Section index_by.
Context {A : Type} (key : A → string).

Definition index_by (m : gmap string A) (l : list A) : gmap string A :=
  foldl (λ acc a, <[key a := a]> acc) m l.

Lemma index_by_Some m l k v :
  index_by m l !! k = Some v → (v ∈ l ∧ key v = k) ∨ m !! k = Some v.
Proof.
  unfold index_by. revert m; induction l as [|a l IH]; intros m; simpl; [by right|].
  intros Hv. destruct (IH _ Hv) as [[? ?]|Hm]; [left; split; [by right|done]|].
  destruct (decide (key a = k)) as [<-|Hne].
  - rewrite lookup_insert_eq in Hm. simplify_eq. left. split; [left|done].
  - rewrite lookup_insert_ne in Hm by done. by right.
Qed.

Lemma index_by_is_Some m l k :
  is_Some (m !! k) ∨ (∃ v, v ∈ l ∧ key v = k) → is_Some (index_by m l !! k).
Proof.
  unfold index_by. revert m; induction l as [|a l IH]; intros m; simpl.
  - intros [?|(v & Hv & _)]; [done|]. by apply elem_of_nil in Hv.
  - intros Hor. apply IH. destruct (decide (key a = k)) as [<-|Hne].
    + left. rewrite lookup_insert_eq. eauto.
    + rewrite lookup_insert_ne by done. destruct Hor as [?|(v & Hv & Hk)]; [by left|].
      apply elem_of_cons in Hv as [->|Hv]; [done|]. right. eauto.
Qed.

Lemma index_by_None l k : index_by ∅ l !! k = None ↔ ∀ v, v ∈ l → key v ≠ k.
Proof.
  split.
  - intros Hn v Hv Hk. destruct (index_by_is_Some ∅ l k) as [? Hs]; [right; eauto|congruence].
  - intros Hall. destruct (index_by ∅ l !! k) as [v|] eqn:E; [|done].
    apply index_by_Some in E as [[Hv Hk]|E]; [by destruct (Hall v)|]. by rewrite lookup_empty in E.
Qed.

(** With distinct keys the index finds exactly the elements. *)
Lemma index_by_unique l k v :
  NoDup (key <$> l) → index_by ∅ l !! k = Some v ↔ v ∈ l ∧ key v = k.
Proof.
  intros Hnd. split.
  - intros E%index_by_Some. destruct E as [?|E]; [done|]. by rewrite lookup_empty in E.
  - intros [Hv Hk]. destruct (index_by_is_Some ∅ l k) as [w Hw]; [right; eauto|].
    rewrite Hw. apply index_by_Some in Hw as [[Hw Hk']|Hw]; [|by rewrite lookup_empty in Hw].
    f_equal. apply list_elem_of_lookup in Hv as [i Hi], Hw as [j Hj].
    assert (i = j) as ->; [|congruence].
    apply (NoDup_lookup (key <$> l) i j k); [done| |];
      rewrite list_lookup_fmap; rewrite ?Hi, ?Hj; simpl; by f_equal.
Qed.
End index_by.

(** ** More on lists *)

Lemma elem_of_option_list {A} (o : option A) (a : A) : a ∈ option_list o ↔ o = Some a.
Proof.
  destruct o; simpl; [rewrite list_elem_of_singleton; naive_solver|].
  rewrite elem_of_nil. naive_solver.
Qed.

Lemma foldl_bind {A B C} (f : B → C → B) (g : A → list C) l b :
  foldl f b (l ≫= g) = foldl (λ b a, foldl f b (g a)) b l.
Proof. revert b; induction l as [|a l IH]; intros b; simpl; [done|]. by rewrite foldl_app, IH. Qed.

Lemma foldl_ext {A B} (f g : B → A → B) l b :
  (∀ b a, f b a = g b a) → foldl f b l = foldl g b l.
Proof. intros Hfg. revert b; induction l as [|a l IH]; intros b; simpl; [done|]. by rewrite Hfg, IH. Qed.

Lemma foldl_map {A B C} (f : B → C → B) (h : A → C) l b :
  foldl f b (h <$> l) = foldl (λ b a, f b (h a)) b l.
Proof. revert b; induction l as [|a l IH]; intros b; simpl; [done|]. by rewrite IH. Qed.

Lemma Nat_ltb_swo : StrictWeakOrder Nat.ltb.
Proof. split; unfold not_after; intros *; rewrite ?Nat.ltb_lt, ?Nat.ltb_ge; lia. Qed.

#[export] Existing Instance Nat_ltb_swo.

(** A sorted list of distinct numbers is strictly ascending. *)
Lemma sort_nat_strict l : NoDup l → StronglySorted lt (sort_by Nat.ltb l).
Proof.
  intros Hnd. pose proof (sort_by_sorted Nat.ltb l) as Hs.
  rewrite <-(sort_by_perm Nat.ltb l) in Hnd.
  induction Hs as [|x l' Hs IH Hx]; [constructor|].
  apply NoDup_cons in Hnd as [Hn Hnd]. constructor; [auto|].
  apply Forall_forall. intros y Hy. rewrite Forall_forall in Hx. specialize (Hx y Hy).
  unfold not_after in Hx. apply Nat.ltb_ge in Hx.
  assert (x ≠ y) by congruence. lia.
Qed.

Lemma StronglySorted_lt_unique l1 l2 :
  StronglySorted lt l1 → StronglySorted lt l2 → (∀ x, x ∈ l1 ↔ x ∈ l2) → l1 = l2.
Proof.
  intros H1 H2 Heq.
  assert (Hnd : ∀ l, StronglySorted lt l → NoDup l).
  { induction 1 as [|x l Hs IH Hx]; constructor; [|done].
    intros Hin. rewrite Forall_forall in Hx. specialize (Hx x Hin). lia. }
  apply (StronglySorted_unique_strong lt); [intros; lia|done|done|].
  apply NoDup_Permutation; auto.
Qed.

Lemma StronglySorted_NoDup l : StronglySorted lt l → NoDup l.
Proof.
  induction 1 as [|x l Hs IH Hx]; constructor; [|done].
  intros Hin. rewrite Forall_forall in Hx. specialize (Hx x Hin). lia.
Qed.
