(* ===== verification/GoStd.v ===== *)
(** * The parts of Go's standard library the modelled packages use

    Strings are byte strings, as in Go.  What depends on Unicode tables
    (the slow path of strings.ToLower, strconv.Quote) and on the order in which
    the runtime iterates over a map is a parameter, the class [GoRuntime];
    everything else is defined and executable. *)
From stdpp Require Import pretty.
From S2P Require Import Prelude.

(** ** strings *)
Module strings.

Fixpoint strip_prefix (p s : string) : option string :=
  match p, s with
  | EmptyString, _ => Some s
  | String _ _, EmptyString => None
  | String a p', String b s' => if Ascii.eqb a b then strip_prefix p' s' else None
  end.

(** strings.CutPrefix(s, p) *)
Definition CutPrefix (s p : string) : string * bool :=
  match strip_prefix p s with Some r => (r, true) | None => (s, false) end.

Definition HasPrefix (s p : string) : bool :=
  match strip_prefix p s with Some _ => true | None => false end.

Definition TrimPrefix (s p : string) : string :=
  match strip_prefix p s with Some r => r | None => s end.

(** The first occurrence of [sep] splits [s]. *)
Fixpoint cut (s sep : string) : option (string * string) :=
  match strip_prefix sep s with
  | Some r => Some (EmptyString, r)
  | None =>
      match s with
      | EmptyString => None
      | String c s' =>
          match cut s' sep with
          | Some (a, b) => Some (String c a, b)
          | None => None
          end
      end
  end.

(** strings.Cut(s, sep) *)
Definition Cut (s sep : string) : string * string * bool :=
  match cut s sep with
  | Some (a, b) => (a, b, true)
  | None => (s, EmptyString, false)
  end.

Definition Contains (s sub : string) : bool :=
  match cut s sub with Some _ => true | None => false end.

(** strings.ReplaceAll(s, c, by) for a one-byte [c]. *)
Fixpoint ReplaceAll (s : string) (c : ascii) (by_ : string) : string :=
  match s with
  | EmptyString => EmptyString
  | String d s' =>
      if Ascii.eqb d c then by_ +:+ ReplaceAll s' c by_ else String d (ReplaceAll s' c by_)
  end.

Definition Join (l : list string) (sep : string) : string := String.concat sep l.

Definition is_ascii_byte (c : ascii) : bool := (N_of_ascii c <? 128)%N.

Fixpoint is_ascii (s : string) : bool :=
  match s with EmptyString => true | String c s' => is_ascii_byte c && is_ascii s' end.

Definition lower_byte (c : ascii) : ascii :=
  let n := N_of_ascii c in
  if ((65 <=? n) && (n <=? 90))%N then ascii_of_N (n + 32) else c.

Fixpoint ascii_lower (s : string) : string :=
  match s with EmptyString => EmptyString | String c s' => String (lower_byte c) (ascii_lower s') end.

Lemma strip_prefix_Some p s r : strip_prefix p s = Some r ↔ s = p +:+ r.
Proof.
  revert s; induction p as [|a p IH]; intros [|b s]; simpl; try (split; congruence).
  destruct (Ascii.eqb_spec a b) as [->|Hne]; [rewrite IH|]; split; intros; simplify_eq; done.
Qed.

Lemma strip_prefix_app p r : strip_prefix p (p +:+ r) = Some r.
Proof. by apply strip_prefix_Some. Qed.

Lemma HasPrefix_true s p : HasPrefix s p = true ↔ ∃ r, s = p +:+ r.
Proof.
  unfold HasPrefix. destruct (strip_prefix p s) as [r|] eqn:E.
  - apply strip_prefix_Some in E. split; eauto.
  - split; [done|]. intros [r ->]. by rewrite strip_prefix_app in E.
Qed.

Lemma CutPrefix_true s p r : CutPrefix s p = (r, true) ↔ s = p +:+ r.
Proof.
  unfold CutPrefix. rewrite <-strip_prefix_Some.
  destruct (strip_prefix p s); split; intros; by simplify_eq.
Qed.

Lemma cut_Some s sep a b : cut s sep = Some (a, b) → s = a +:+ sep +:+ b.
Proof.
  revert a; induction s as [|c s IH]; intros a; simpl.
  - destruct (strip_prefix sep EmptyString) as [r|] eqn:E; [|done].
    intros; simplify_eq/=. by apply strip_prefix_Some in E.
  - destruct (strip_prefix sep (String c s)) as [r|] eqn:E.
    + intros; simplify_eq/=. by apply strip_prefix_Some in E.
    + destruct (cut s sep) as [[a' b']|] eqn:E'; [|done].
      intros; simplify_eq/=. f_equal. by apply IH.
Qed.

(** A byte that does not occur in a string. *)
Fixpoint free_of (c : ascii) (s : string) : bool :=
  match s with EmptyString => true | String d s' => negb (Ascii.eqb d c) && free_of c s' end.

Lemma cut_char_app c a b :
  free_of c a = true → cut (a +:+ String c b) (String c EmptyString) = Some (a, b).
Proof.
  induction a as [|d a IH]; simpl; intros H.
  - by rewrite Ascii.eqb_refl.
  - apply andb_true_iff in H as [Hd Ha]. apply negb_true_iff, Ascii.eqb_neq in Hd.
    destruct (Ascii.eqb_spec c d) as [->|_]; [done|]. by rewrite IH.
Qed.

Lemma cut_char_free c s a b :
  cut s (String c EmptyString) = Some (a, b) → free_of c a = true.
Proof.
  revert a; induction s as [|d s IH]; intros a; simpl; [done|].
  destruct (Ascii.eqb_spec c d) as [->|Hne].
  - intros; by simplify_eq/=.
  - destruct (cut s _) as [[a' b']|] eqn:E; [|done]. intros; simplify_eq/=.
    rewrite (proj2 (Ascii.eqb_neq d c)) by congruence. simpl; eauto.
Qed.

Lemma cut_char_None c s : cut s (String c EmptyString) = None ↔ free_of c s = true.
Proof.
  induction s as [|d s IH]; simpl; [done|].
  destruct (Ascii.eqb_spec c d) as [->|Hne].
  - by rewrite Ascii.eqb_refl.
  - rewrite (proj2 (Ascii.eqb_neq d c)) by congruence. simpl.
    rewrite <-IH. by destruct (cut s _) as [[]|].
Qed.

Lemma ascii_lower_idemp s : ascii_lower (ascii_lower s) = ascii_lower s.
Proof.
  induction s as [|c s IH]; simpl; [done|]. f_equal; [|done].
  destruct c as [b0 b1 b2 b3 b4 b5 b6 b7].
  destruct b0, b1, b2, b3, b4, b5, b6, b7; reflexivity.
Qed.

Lemma app_assoc_str a b c : (a +:+ b) +:+ c = a +:+ (b +:+ c).
Proof. induction a; simpl; [done|]. by f_equal. Qed.

Lemma app_inj_l a b c : a +:+ b = a +:+ c → b = c.
Proof. induction a; simpl; [done|]. intros; simplify_eq; auto. Qed.

Lemma app_empty_r a : a +:+ EmptyString = a.
Proof. induction a; simpl; [done|]. by f_equal. Qed.
End strings.

(** ** strconv *)
Module strconv.

Definition digit (c : ascii) : option Z :=
  let n := Z.of_N (N_of_ascii c) in
  if ((48 <=? n) && (n <=? 57))%Z then Some (n - 48)%Z else None.

Fixpoint digits (acc : Z) (s : string) : option Z :=
  match s with
  | EmptyString => Some acc
  | String c s' =>
      match digit c with Some d => digits (acc * 10 + d)%Z s' | None => None end
  end.

Definition unsigned (s : string) : option Z :=
  match s with EmptyString => None | _ => digits 0 s end.

Definition in_int64 (n : Z) : bool :=
  ((Int64.min_value <=? n) && (n <=? Int64.max_value))%Z.

(** strconv.Atoi: an optional sign, then digits, in the range of int. *)
Definition Atoi (s : string) : option Z :=
  let r := match s with
           | String c s' =>
               if Ascii.eqb c "-" then Z.opp <$> unsigned s'
               else if Ascii.eqb c "+" then unsigned s'
               else unsigned s
           | EmptyString => None
           end in
  match r with
  | Some n => if in_int64 n then Some n else None
  | None => None
  end.

(** strconv.Itoa *)
Definition Itoa (n : Z) : string := pretty n.

Lemma digit_char (d : N) : (d < 10)%N → digit (pretty_N_char d) = Some (Z.of_N d).
Proof.
  intros H. assert (Hd : d ∈ [0; 1; 2; 3; 4; 5; 6; 7; 8; 9]%N)
    by (rewrite !elem_of_cons, elem_of_nil; lia).
  repeat (apply elem_of_cons in Hd as [->|Hd]; [reflexivity|]). by apply elem_of_nil in Hd.
Qed.

Lemma digits_pretty_N_go (x : N) (s : string) :
  digits 0 (pretty_N_go x s) = digits (Z.of_N x) s.
Proof.
  revert s; induction (N.lt_wf_0 x) as [x _ IH]; intros s.
  destruct (decide (x = 0)%N) as [->|Hx]; [by rewrite pretty_N_go_0|].
  assert (x `div` 10 < x)%N by (apply N.div_lt; lia).
  assert (x `mod` 10 < 10)%N by (apply N.mod_lt; lia).
  rewrite pretty_N_go_step by lia. rewrite IH by done.
  simpl. rewrite digit_char by done. f_equal.
  pose proof (N.div_mod x 10). lia.
Qed.

Lemma pretty_N_go_cons (x : N) (s : string) :
  (0 < x)%N → ∃ d s', (d < 10)%N ∧ pretty_N_go x s = String (pretty_N_char d) s'.
Proof.
  revert s; induction (N.lt_wf_0 x) as [x _ IH]; intros s Hx.
  rewrite pretty_N_go_step by lia.
  destruct (decide (x `div` 10 = 0)%N) as [E|E].
  - rewrite E, pretty_N_go_0. do 2 eexists; split; [|done]. apply N.mod_lt; lia.
  - apply IH; [apply N.div_lt; lia|by apply N.neq_0_lt_0].
Qed.

Lemma pretty_N_cons (x : N) :
  ∃ d s', (d < 10)%N ∧ pretty x = String (pretty_N_char d) s' ∧ unsigned (pretty x) = Some (Z.of_N x).
Proof.
  unfold pretty, pretty_N. case_decide as E; subst.
  - exists 0%N, EmptyString. done.
  - destruct (pretty_N_go_cons x EmptyString) as (d & s' & Hd & Heq); [lia|].
    exists d, s'. split_and!; [done|done|].
    pose proof (digits_pretty_N_go x EmptyString) as Hv. rewrite Heq in Hv |- *. done.
Qed.

Lemma Itoa_free (c : ascii) (n : Z) :
  (0 ≤ n)%Z → digit c = None → strings.free_of c (Itoa n) = true.
Proof.
  intros Hn Hd.
  assert (Hgo : ∀ x s, strings.free_of c s = true → strings.free_of c (pretty_N_go x s) = true).
  { intros x; induction (N.lt_wf_0 x) as [x _ IH]; intros s Hs.
    destruct (decide (x = 0)%N) as [->|Hx]; [by rewrite pretty_N_go_0|].
    rewrite pretty_N_go_step by lia. apply IH; [apply N.div_lt; lia|]. simpl.
    rewrite Hs, andb_true_r, negb_true_iff. apply Ascii.eqb_neq. intros <-.
    rewrite digit_char in Hd by (apply N.mod_lt; lia). done. }
  assert (H0 : strings.free_of c "0" = true).
  { change (strings.free_of c "0") with (negb (Ascii.eqb "0" c) && true).
    rewrite andb_true_r, negb_true_iff. apply Ascii.eqb_neq. by intros <-. }
  assert (HN : ∀ x : N, strings.free_of c (pretty x) = true).
  { intros x. unfold pretty, pretty_N. case_decide; [done|by apply Hgo]. }
  destruct n as [|p|p]; [done|apply (HN (Npos p))|lia].
Qed.

(** Printing a 64-bit number and reading it back gives the number. *)
Lemma Atoi_Itoa (n : Z) : Int64.in_range n → Atoi (Itoa n) = Some n.
Proof.
  intros Hr.
  assert (Hin : in_int64 n = true).
  { unfold in_int64. unfold Int64.in_range in Hr. apply andb_true_iff. lia. }
  assert (Hu : ∀ x : N, in_int64 (Z.of_N x) = true → Atoi (pretty x) = Some (Z.of_N x)).
  { intros x Hx. destruct (pretty_N_cons x) as (d & s' & Hd & Heq & Hv).
    unfold Atoi. rewrite Heq in *.
    assert (Hc : pretty_N_char d ≠ "-"%char ∧ pretty_N_char d ≠ "+"%char).
    { split; intros E; pose proof (digit_char d Hd) as Hdd; by rewrite E in Hdd. }
    destruct Hc as [Hc1 Hc2]. apply Ascii.eqb_neq in Hc1, Hc2. rewrite Hc1, Hc2, Hv, Hx. done. }
  destruct n as [|p|p]; [done|apply (Hu (Npos p)); done|].
  unfold Itoa, Atoi. change (pretty (Z.neg p)) with (String "-" (pretty (Npos p))).
  destruct (pretty_N_cons (Npos p)) as (d & s' & Hd & Heq & Hv).
  rewrite Ascii.eqb_refl, Hv. change (Z.opp <$> Some (Z.of_N (Npos p))) with (Some (Z.neg p)).
  cbn [from_option]. by rewrite Hin.
Qed.
End strconv.

(** ** sort *)
Module sort.

(** The loop of sort.Search: [i, j] shrinks around the first index where [f] holds. *)
Fixpoint search_loop (fuel : nat) (f : nat → bool) (i j : nat) : nat :=
  match fuel with
  | O => i
  | S fuel' =>
      if (i <? j)%nat then
        let h := ((i + j) / 2)%nat in
        if f h then search_loop fuel' f i h else search_loop fuel' f (S h) j
      else i
  end.

Definition Search (n : nat) (f : nat → bool) : nat := search_loop n f 0 n.

Lemma search_loop_spec fuel f i j :
  (j - i ≤ fuel)%nat → (i ≤ j)%nat →
  (∀ a b, (a ≤ b < j)%nat → f a = true → f b = true) →
  let r := search_loop fuel f i j in
  (i ≤ r ≤ j)%nat ∧ (∀ k, (i ≤ k < r)%nat → f k = false) ∧ (∀ k, (r ≤ k < j)%nat → f k = true).
Proof.
  revert i j; induction fuel as [|fuel IH]; intros i j Hf Hij Hm;
    cbn [search_loop]; cbn zeta.
  { split_and!; intros; lia. }
  destruct (Nat.ltb_spec i j) as [Hlt|Hge]; [|split_and!; intros; lia].
  assert (Hdiv : (i ≤ (i + j) / 2 < j)%nat).
  { split; [apply Nat.div_le_lower_bound; lia|apply Nat.Div0.div_lt_upper_bound; lia]. }
  remember ((i + j) / 2)%nat as h eqn:Eh. clear Eh.
  destruct (f h) eqn:Efh.
  - destruct (IH i h) as (H1 & H2 & H3); [lia|lia|intros; eapply Hm; [|eassumption]; lia|].
    split_and!; [lia|lia|done|].
    intros k Hk. destruct (decide (k < h)%nat); [apply H3; lia|].
    apply (Hm h k); [lia|done].
  - destruct (IH (S h) j) as (H1 & H2 & H3); [lia|lia|done|].
    split_and!; [lia|lia| |done].
    intros k Hk. destruct (decide (k < S h)%nat); [|apply H2; lia].
    destruct (f k) eqn:Efk; [|done].
    pose proof (Hm k h ltac:(lia) Efk). congruence.
Qed.

(** Search returns the first index in [0, n] where a monotone test holds. *)
Lemma Search_spec n f :
  (∀ a b, (a ≤ b < n)%nat → f a = true → f b = true) →
  (Search n f ≤ n)%nat ∧
  (∀ k, (k < Search n f)%nat → f k = false) ∧ (∀ k, (Search n f ≤ k < n)%nat → f k = true).
Proof.
  intros Hm. destruct (search_loop_spec n f 0 n) as (H1 & H2 & H3); [lia|lia|done|].
  unfold Search. split_and!; [lia|intros; apply H2; lia|done].
Qed.
End sort.

(** ** The runtime parameters *)

(** [unicode_ToLower] is strings.ToLower on a string that is not pure ASCII,
    [Quote] is strconv.Quote (the verb %q), and [range site m] is the order in
    which the [range] loop [site] visits the map [m]: the language only promises that
    every entry is visited once. *)
Class GoRuntime := {
  unicode_ToLower : string → string;
  Quote : string → string;
  range : nat → ∀ (K V : Type) `{Countable K}, gmap K V → list (K * V);
  range_perm : ∀ site (K V : Type) `{Countable K} (m : gmap K V),
    range site K V m ≡ₚ map_to_list m;
}.
Arguments range {_} site {K V _ _} m.
Arguments range_perm {_} site {K V _ _} m.

Section runtime.
Context `{GoRuntime}.

(** strings.ToLower: pure ASCII takes the fast path. *)
Definition ToLower (s : string) : string :=
  if strings.is_ascii s then strings.ascii_lower s else unicode_ToLower s.

Lemma elem_of_range site {K V} `{Countable K} (m : gmap K V) k v :
  (k, v) ∈ range site m ↔ m !! k = Some v.
Proof. by rewrite range_perm, elem_of_map_to_list. Qed.

Lemma NoDup_range site {K V} `{Countable K} (m : gmap K V) : NoDup (range site m).
Proof. rewrite range_perm. apply NoDup_map_to_list. Qed.

Lemma range_sites s1 s2 {K V} `{Countable K} (m : gmap K V) : range s1 m ≡ₚ range s2 m.
Proof. by rewrite !range_perm. Qed.
End runtime.

(** A concrete runtime, for evaluation: maps are visited in key order of the
    representation, quoting adds the quotation marks. *)
Definition dquote : string := String (Ascii.ascii_of_nat 34) EmptyString.

Definition eval_runtime : GoRuntime := {|
  unicode_ToLower := λ s, s;
  Quote := λ s, dquote +:+ s +:+ dquote;
  range := λ _ _ _ _ _ m, map_to_list m;
  range_perm := λ _ _ _ _ _ m, reflexivity _;
|}.
