(* ===== verification/Ports.v ===== *)
(** * Port ranges: shared/policy/policy.go (PortRange), parse.go
    (parsePortRange), compile.go (mergePorts, subtractPorts) and eval.go
    (portsContain)

    A list of ranges denotes the set of ports it covers.  The lemmas show
    that merging and subtracting compute union and difference of these sets, and
    that their results are in a normal form that the set determines. *)
From S2P Require Import Prelude GoStd.

(** ** Data *)

Record PortRange := mkPortRange { pFrom : Z; pTo : Z }.

#[export] Instance PortRange_eq_dec : EqDecision PortRange.
Proof. solve_decision. Defined.

Definition DefaultPrivatePorts : PortRange := mkPortRange 1024 65535.
Definition allPorts : list PortRange := [mkPortRange 1 65535].

(** ** Operations *)

Definition contains (p : PortRange) (port : Z) : bool :=
  ((pFrom p <=? port) && (port <=? pTo p))%Z.

Fixpoint portsContain (ps : list PortRange) (port : Z) : bool :=
  match ps with
  | [] => false
  | p :: ps' => if contains p port then true else portsContain ps' port
  end.

(** The loop of mergePorts; [last] is the last element of [out]. *)
Fixpoint merge_loop (last : PortRange) (ps : list PortRange) : list PortRange :=
  match ps with
  | [] => [last]
  | p :: ps' =>
      if (pFrom p <=? Int64.wrap (pTo last + 1))%Z
      then merge_loop (mkPortRange (pFrom last) (Z.max (pTo last) (pTo p))) ps'
      else last :: merge_loop p ps'
  end.

Definition from_less (a b : PortRange) : bool := (pFrom a <? pFrom b)%Z.

Definition mergePorts (ps : list PortRange) : list PortRange :=
  match sort_by from_less ps with
  | [] => []
  | p :: ps' => merge_loop p ps'
  end.

(** What the inner loop of subtractPorts appends for one range [p] when [d] is
    taken away. *)
Definition subtract_one (d p : PortRange) : list PortRange :=
  if (pTo d <? pFrom p)%Z || (pTo p <? pFrom d)%Z then [p]
  else (if (pFrom p <? pFrom d)%Z then [mkPortRange (pFrom p) (Int64.wrap (pFrom d - 1))] else [])
    ++ (if (pTo d <? pTo p)%Z then [mkPortRange (Int64.wrap (pTo d + 1)) (pTo p)] else []).

Definition subtractPorts (a b : list PortRange) : list PortRange :=
  foldl (λ out d, p ← out; subtract_one d p) (mergePorts a) (mergePorts b).

(** PortRange.String and PortRange.MarshalJSON *)
Definition PortRange_String (p : PortRange) : string :=
  if (pFrom p =? pTo p)%Z then strconv.Itoa (pFrom p)
  else strconv.Itoa (pFrom p) +:+ "-" +:+ strconv.Itoa (pTo p).

(** The JSON values a decoder hands to UnmarshalJSON: a number by its text, a
    string by its contents. *)
Inductive JSONValue :=
  | JNull
  | JNumber (text : string)
  | JString (s : string)
  | JOther.

Definition MarshalJSON (p : PortRange) : JSONValue :=
  if (pFrom p =? pTo p)%Z then JNumber (strconv.Itoa (pFrom p)) else JString (PortRange_String p).

Definition parsePortRange (s : string) : PortRange * bool :=
  let '(a, b, found) := strings.Cut s "-" in
  match strconv.Atoi a with
  | None => (mkPortRange 0 0, false)
  | Some from =>
      if negb found then (mkPortRange from from, true)
      else match strconv.Atoi b with
           | Some to_ => (mkPortRange from to_, true)
           | None => (mkPortRange from 0, false)
           end
  end.

(** json.Unmarshal into an int and into a string; null leaves the zero value. *)
Definition unmarshal_int (v : JSONValue) : option Z :=
  match v with JNull => Some 0%Z | JNumber t => strconv.Atoi t | _ => None end.

Definition unmarshal_string (v : JSONValue) : option string :=
  match v with JNull => Some EmptyString | JString s => Some s | _ => None end.

Inductive PortError := ErrPortSyntax | ErrPortBounds.

Definition in_port_bounds (p : PortRange) : bool :=
  negb ((pFrom p <? 1)%Z || (65535 <? pTo p)%Z || (pTo p <? pFrom p)%Z).

Definition UnmarshalJSON (v : JSONValue) : PortError + PortRange :=
  let check p := if in_port_bounds p then inr p else inl ErrPortBounds in
  match unmarshal_int v with
  | Some n => check (mkPortRange n n)
  | None =>
      match unmarshal_string v with
      | None => inl ErrPortSyntax
      | Some s =>
          let '(r, ok) := parsePortRange s in
          if ok then check r else inl ErrPortSyntax
      end
  end.

(** ** The set of ports *)

(** What every range of a parsed policy satisfies. *)
Definition port_ok (p : PortRange) : Prop := (1 ≤ pFrom p ∧ pFrom p ≤ pTo p ∧ pTo p ≤ 65535)%Z.

Definition covers (ps : list PortRange) (port : Z) : Prop :=
  ∃ p, p ∈ ps ∧ (pFrom p ≤ port ≤ pTo p)%Z.

(** Two lists that denote the same set of ports. *)
Definition same_ports (a b : list PortRange) : Prop := ∀ port, covers a port ↔ covers b port.
Infix "≈" := same_ports (at level 70) : paperboat_scope.

#[export] Instance same_ports_equivalence : Equivalence same_ports.
Proof.
  unfold same_ports. split.
  - by intros a port.
  - intros a b H port. by rewrite H.
  - intros a b c H1 H2 port. by rewrite H1.
Qed.

#[export] Instance covers_proper : Proper (same_ports ==> (=) ==> iff) covers.
Proof. intros a b Hab p ? <-. apply Hab. Qed.

Lemma portsContain_covers ps port : portsContain ps port = true ↔ covers ps port.
Proof.
  unfold covers. induction ps as [|p ps IH]; simpl.
  - split; [done|]. intros (p & Hp & _). by apply elem_of_nil in Hp.
  - unfold contains. destruct (_ && _)%bool eqn:E.
    + to_prop. split; [|done]. intros _. exists p. split; [left|lia].
    + rewrite IH. split.
      * intros (q & Hq & ?). exists q. split; [by right|done].
      * intros (q & Hq & Hr). apply elem_of_cons in Hq as [->|Hq]; [|eauto].
        to_prop. lia.
Qed.

#[export] Instance covers_dec ps port : Decision (covers ps port).
Proof.
  destruct (portsContain ps port) eqn:E; [left; by apply portsContain_covers|right].
  intros H%portsContain_covers. congruence.
Defined.

Lemma covers_nil port : covers [] port ↔ False.
Proof. unfold covers. split; [intros (p & Hp & _); by apply elem_of_nil in Hp|done]. Qed.

Lemma covers_cons p ps port :
  covers (p :: ps) port ↔ (pFrom p ≤ port ≤ pTo p)%Z ∨ covers ps port.
Proof.
  unfold covers. setoid_rewrite elem_of_cons. split.
  - intros (q & [->|Hq] & ?); eauto.
  - intros [?|(q & ? & ?)]; eauto.
Qed.

Lemma covers_app a b port : covers (a ++ b) port ↔ covers a port ∨ covers b port.
Proof.
  unfold covers. setoid_rewrite elem_of_app. split.
  - intros (q & [?|?] & ?); eauto.
  - intros [(q & ? & ?)|(q & ? & ?)]; eauto.
Qed.

#[export] Instance app_ports_proper : Proper (same_ports ==> same_ports ==> same_ports) (@app PortRange).
Proof. intros a a' Ha b b' Hb p. by rewrite !covers_app, (Ha p), (Hb p). Qed.

Lemma covers_perm a b : a ≡ₚ b → a ≈ b.
Proof. intros Hp port. unfold covers. by setoid_rewrite Hp. Qed.

Lemma port_ok_no_wrap p : port_ok p → Int64.wrap (pTo p + 1) = (pTo p + 1)%Z.
Proof. unfold port_ok. intros. apply Int64.int64_wrap_id. unfold Int64.in_range, Int64.min_value, Int64.max_value. lia. Qed.

Lemma port_ok_no_wrap_sub p : port_ok p → Int64.wrap (pFrom p - 1) = (pFrom p - 1)%Z.
Proof. unfold port_ok. intros. apply Int64.int64_wrap_id. unfold Int64.in_range, Int64.min_value, Int64.max_value. lia. Qed.

Lemma allPorts_ok : Forall port_ok allPorts.
Proof. repeat constructor; simpl; lia. Qed.

Lemma DefaultPrivatePorts_ok : port_ok DefaultPrivatePorts.
Proof. repeat constructor; simpl; lia. Qed.

#[export] Hint Resolve allPorts_ok DefaultPrivatePorts_ok : pb.

(** ** Merging *)

Lemma sort_from_ok ps : Forall port_ok ps → Forall port_ok (sort_by from_less ps).
Proof. by rewrite sort_by_perm. Qed.

Lemma from_less_swo : StrictWeakOrder from_less.
Proof. apply (Z_less_swo pFrom). Qed.

#[local] Existing Instance from_less_swo.

Lemma merge_loop_covers last ps port :
  port_ok last → Forall port_ok ps →
  StronglySorted (not_after from_less) (last :: ps) →
  covers (merge_loop last ps) port ↔ covers (last :: ps) port.
Proof.
  revert last; induction ps as [|p ps IH]; intros last Hl Hps Hs; simpl; [done|].
  apply Forall_cons in Hps as [Hp Hps].
  apply StronglySorted_inv in Hs as [Hs Hall]. apply Forall_cons in Hall as [Hlp Hall].
  unfold not_after, from_less in Hlp. to_prop.
  rewrite port_ok_no_wrap by done.
  destruct (Z.leb_spec (pFrom p) (pTo last + 1)) as [Hle|Hgt].
  - rewrite IH; [|unfold port_ok in *; simpl; lia|done|].
    + rewrite !covers_cons. simpl. unfold port_ok in *.
      destruct (decide (covers ps port)); [tauto|]. intuition lia.
    + apply StronglySorted_inv in Hs as [Hs _]. constructor; [done|].
      eapply Forall_impl; [exact Hall|]. done.
  - rewrite covers_cons, IH by done. by rewrite !covers_cons.
Qed.

(** mergePorts keeps the set of ports. *)
Lemma mergePorts_covers ps : Forall port_ok ps → mergePorts ps ≈ ps.
Proof.
  intros Hok port. unfold mergePorts.
  pose proof (sort_by_sorted from_less ps) as Hs.
  pose proof (sort_from_ok ps Hok) as Hok'.
  rewrite <-(covers_perm _ _ (sort_by_perm from_less ps) port).
  destruct (sort_by from_less ps) as [|p ps'] eqn:E; [done|].
  apply Forall_cons in Hok' as [? ?]. by apply merge_loop_covers.
Qed.

(** ** The normal form *)

(** A later range starts after a gap of at least one port. *)
Definition gap (p q : PortRange) : Prop := (pTo p + 1 < pFrom q)%Z.

Definition normalized (ps : list PortRange) : Prop :=
  Forall port_ok ps ∧ StronglySorted gap ps.

Lemma normalized_nil : normalized [].
Proof. split; constructor. Qed.

Lemma normalized_cons p ps :
  normalized (p :: ps) ↔ port_ok p ∧ Forall (gap p) ps ∧ normalized ps.
Proof.
  unfold normalized. rewrite Forall_cons. split.
  - intros [[? ?] Hs]. apply StronglySorted_inv in Hs as [? ?]. done.
  - intros (? & ? & ? & ?). split; [done|by constructor].
Qed.

#[export] Hint Resolve normalized_nil : pb.

Lemma merge_loop_normalized last ps :
  port_ok last → Forall port_ok ps →
  StronglySorted (not_after from_less) (last :: ps) →
  normalized (merge_loop last ps) ∧ Forall (λ q, pFrom last ≤ pFrom q)%Z (merge_loop last ps).
Proof.
  revert last; induction ps as [|p ps IH]; intros last Hl Hps Hs; simpl.
  { split; [|by repeat constructor]. apply normalized_cons. auto with pb. }
  apply Forall_cons in Hps as [Hp Hps].
  apply StronglySorted_inv in Hs as [Hs Hall]. apply Forall_cons in Hall as [Hlp Hall].
  unfold not_after, from_less in Hlp. to_prop.
  rewrite port_ok_no_wrap by done.
  destruct (Z.leb_spec (pFrom p) (pTo last + 1)) as [Hle|Hgt].
  - apply StronglySorted_inv in Hs as [Hs _].
    apply (IH (mkPortRange _ _)); [unfold port_ok in *; simpl; lia|done|by constructor].
  - destruct (IH p Hp Hps Hs) as [Hn Hf]. split.
    + apply normalized_cons. split_and!; [done| |done].
      eapply Forall_impl; [exact Hf|]. unfold gap; simpl; intros; lia.
    + constructor; [lia|]. eapply Forall_impl; [exact Hf|]. simpl; intros; lia.
Qed.

Lemma mergePorts_normalized ps : Forall port_ok ps → normalized (mergePorts ps).
Proof.
  intros Hok. unfold mergePorts.
  pose proof (sort_by_sorted from_less ps) as Hs.
  pose proof (sort_from_ok ps Hok) as Hok'.
  destruct (sort_by from_less ps) as [|p ps'] eqn:E; [auto with pb|].
  apply Forall_cons in Hok' as [? ?]. by apply merge_loop_normalized.
Qed.

Lemma normalized_ok ps : normalized ps → Forall port_ok ps.
Proof. by intros [? _]. Qed.

Lemma mergePorts_ok ps : Forall port_ok ps → Forall port_ok (mergePorts ps).
Proof. intros. by apply normalized_ok, mergePorts_normalized. Qed.

#[export] Hint Resolve mergePorts_normalized mergePorts_ok normalized_ok : pb.

Lemma Forall_gap_not_covers p ps port :
  Forall (gap p) ps → (port ≤ pTo p + 1)%Z → ¬ covers ps port.
Proof.
  intros Hg Hle (q & Hq & ?). rewrite Forall_forall in Hg.
  specialize (Hg q Hq). unfold gap in Hg. lia.
Qed.

(** The ranges of a normalized list are determined by the set it denotes. *)
Lemma normalized_unique a b : normalized a → normalized b → a ≈ b → a = b.
Proof.
  revert b; induction a as [|p a IH]; intros [|q b] Ha Hb Heq; [done| | |].
  - apply normalized_cons in Hb as (Hq & _). unfold port_ok in Hq.
    assert (covers [] (pFrom q)) as []%covers_nil.
    apply Heq, covers_cons. lia.
  - apply normalized_cons in Ha as (Hp & _). unfold port_ok in Hp.
    assert (covers [] (pFrom p)) as []%covers_nil.
    apply Heq, covers_cons. lia.
  - apply normalized_cons in Ha as (Hp & Hga & Ha).
    apply normalized_cons in Hb as (Hq & Hgb & Hb). unfold port_ok in Hp, Hq.
    assert (H : ∀ x, (pFrom p ≤ x ≤ pTo p)%Z ∨ covers a x ↔ (pFrom q ≤ x ≤ pTo q)%Z ∨ covers b x).
    { intros x. by rewrite <-!covers_cons. }
    pose proof (Forall_gap_not_covers p a) as Na. pose proof (Forall_gap_not_covers q b) as Nb.
    assert (Hab : ∀ x, covers a x → (pTo p + 1 < x)%Z).
    { intros x Hx. destruct (decide (x ≤ pTo p + 1)%Z); [exfalso; by apply (Na x)|lia]. }
    assert (Hbb : ∀ x, covers b x → (pTo q + 1 < x)%Z).
    { intros x Hx. destruct (decide (x ≤ pTo q + 1)%Z); [exfalso; by apply (Nb x)|lia]. }
    assert (Hf : pFrom p = pFrom q).
    { destruct (proj1 (H (pFrom p)) ltac:(lia)) as [?|?%Hbb];
      destruct (proj2 (H (pFrom q)) ltac:(lia)) as [?|?%Hab]; lia. }
    assert (Ht : pTo p = pTo q).
    { destruct (proj1 (H (pTo p)) ltac:(lia)) as [?|Hx1];
      destruct (proj2 (H (pTo q)) ltac:(lia)) as [?|Hx2]; [lia| | |].
      - destruct (proj2 (H (pTo p + 1)%Z)) as [?|?%Hab]; [left|lia|lia].
        apply Hab in Hx2. lia.
      - destruct (proj1 (H (pTo q + 1)%Z)) as [?|?%Hbb]; [left|lia|lia].
        apply Hbb in Hx1. lia.
      - apply Hab in Hx2. apply Hbb in Hx1. lia. }
    assert (p = q) as -> by (destruct p, q; simpl in *; congruence).
    f_equal. apply IH; [done..|]. intros x. split; intros Hx.
    + destruct (proj1 (H x) ltac:(auto)) as [?|?]; [|done]. apply Hab in Hx. lia.
    + destruct (proj2 (H x) ltac:(auto)) as [?|?]; [|done]. apply Hbb in Hx. lia.
Qed.

(** Merging depends only on the set of ports: any order of the ranges, any tie
    breaking of the sort and any grouping of merges give the same list. *)
Lemma mergePorts_unique a b :
  Forall port_ok a → Forall port_ok b → a ≈ b → mergePorts a = mergePorts b.
Proof.
  intros Ha Hb Hab. apply normalized_unique; [auto with pb..|].
  by rewrite !mergePorts_covers.
Qed.

Lemma mergePorts_id ps : normalized ps → mergePorts ps = ps.
Proof. intros H. apply normalized_unique; [auto with pb..|]. apply mergePorts_covers. auto with pb. Qed.

Lemma mergePorts_nil_inv ps : Forall port_ok ps → mergePorts ps = [] → ps = [].
Proof.
  intros Hok H. destruct ps as [|p ps]; [done|].
  apply Forall_cons in Hok as Hok'. destruct Hok' as [Hp _]. unfold port_ok in Hp.
  assert (covers (mergePorts (p :: ps)) (pFrom p)) as Hc.
  { apply mergePorts_covers; [done|]. apply covers_cons. lia. }
  by rewrite H, covers_nil in Hc.
Qed.

Lemma covers_exists ps : Forall port_ok ps → ps ≠ [] ↔ ∃ port, covers ps port.
Proof.
  intros Hok. split.
  - destruct ps as [|p ps]; [done|]. intros _. exists (pFrom p). apply covers_cons.
    apply Forall_cons in Hok as [Hp _]. unfold port_ok in Hp. lia.
  - intros [port H] ->. by apply covers_nil in H.
Qed.

Lemma covers_bounds ps port : Forall port_ok ps → covers ps port → (1 ≤ port ≤ 65535)%Z.
Proof.
  intros Hok (p & Hp & Hr). rewrite Forall_forall in Hok. specialize (Hok p Hp).
  unfold port_ok in Hok. lia.
Qed.

(** ** Subtracting *)

Lemma subtract_one_spec d p port :
  port_ok d → port_ok p →
  covers (subtract_one d p) port ↔
    (pFrom p ≤ port ≤ pTo p)%Z ∧ ¬ (pFrom d ≤ port ≤ pTo d)%Z.
Proof.
  intros Hd Hp. unfold subtract_one.
  rewrite port_ok_no_wrap, port_ok_no_wrap_sub by done. unfold port_ok in *.
  destruct (Z.ltb_spec (pTo d) (pFrom p)); simpl.
  { rewrite covers_cons, covers_nil. intuition lia. }
  destruct (Z.ltb_spec (pTo p) (pFrom d)); simpl.
  { rewrite covers_cons, covers_nil. intuition lia. }
  rewrite covers_app.
  destruct (Z.ltb_spec (pFrom p) (pFrom d)), (Z.ltb_spec (pTo d) (pTo p));
    rewrite ?covers_cons, ?covers_nil; simpl; intuition lia.
Qed.

(** What is left of [p] stays inside [p], and is normalized. *)
Lemma subtract_one_normalized d p :
  port_ok d → port_ok p →
  normalized (subtract_one d p) ∧
  Forall (λ q, pFrom p ≤ pFrom q ∧ pTo q ≤ pTo p)%Z (subtract_one d p).
Proof.
  intros Hd Hp. unfold subtract_one.
  rewrite port_ok_no_wrap, port_ok_no_wrap_sub by done.
  unfold normalized, gap, port_ok in *.
  destruct (Z.ltb_spec (pTo d) (pFrom p)); simpl; [repeat (constructor || split); simpl; lia|].
  destruct (Z.ltb_spec (pTo p) (pFrom d)); simpl; [repeat constructor; simpl; lia|].
  destruct (Z.ltb_spec (pFrom p) (pFrom d)), (Z.ltb_spec (pTo d) (pTo p));
    repeat constructor; simpl; lia.
Qed.

Lemma normalized_app a b :
  normalized a → normalized b → (∀ p q, p ∈ a → q ∈ b → gap p q) → normalized (a ++ b).
Proof.
  induction a as [|p a IH]; intros Ha Hb Hab; simpl; [done|].
  apply normalized_cons in Ha as (? & Hg & ?). apply normalized_cons. split_and!; [done| |].
  - apply Forall_app. split; [done|]. apply Forall_forall. intros q Hq. apply Hab; [left|done].
  - apply IH; [done..|]. intros p' q Hp Hq. apply Hab; [by right|done].
Qed.

Lemma subtract_step_normalized d out :
  port_ok d → normalized out → normalized (p ← out; subtract_one d p).
Proof.
  intros Hd. induction out as [|p out IH]; intros Hn; [auto with pb|].
  apply normalized_cons in Hn as (Hp & Hg & Hn).
  change (p ← p :: out; subtract_one d p) with (subtract_one d p ++ (p ← out; subtract_one d p)).
  destruct (subtract_one_normalized d p Hd Hp) as [Hs Hin].
  apply normalized_app; [done|by apply IH|].
  intros a b Ha Hb. rewrite Forall_forall in Hin. specialize (Hin a Ha) as [_ Hin].
  apply list_elem_of_bind in Hb as (q & Hb & Hq).
  rewrite Forall_forall in Hg. pose proof (Hg q Hq) as Hgq.
  assert (Hqok : port_ok q) by (apply normalized_ok in Hn; rewrite Forall_forall in Hn; auto).
  destruct (subtract_one_normalized d q Hd Hqok) as [_ Hinq].
  rewrite Forall_forall in Hinq. specialize (Hinq b Hb) as [Hinq _].
  unfold gap in *. lia.
Qed.

Lemma subtract_step_covers d out port :
  port_ok d → Forall port_ok out →
  covers (p ← out; subtract_one d p) port ↔ covers out port ∧ ¬ (pFrom d ≤ port ≤ pTo d)%Z.
Proof.
  intros Hd. induction out as [|p out IH]; intros Hok.
  { change (p ← []; subtract_one d p) with (@nil PortRange). rewrite covers_nil. tauto. }
  apply Forall_cons in Hok as [Hp Hok].
  change (p ← p :: out; subtract_one d p) with (subtract_one d p ++ (p ← out; subtract_one d p)).
  rewrite covers_app, covers_cons, IH, subtract_one_spec by done. tauto.
Qed.

Lemma subtract_fold ds out :
  Forall port_ok ds → normalized out →
  let r := foldl (λ out d, p ← out; subtract_one d p) out ds in
  normalized r ∧ ∀ port, covers r port ↔ covers out port ∧ ¬ covers ds port.
Proof.
  revert out; induction ds as [|d ds IH]; intros out Hok Hn; cbn [foldl]; cbn zeta.
  - split; [done|]. intros. rewrite covers_nil. tauto.
  - apply Forall_cons in Hok as [Hd Hok].
    destruct (IH (p ← out; subtract_one d p)) as [H1 H2];
      [done|by apply subtract_step_normalized|].
    split; [done|]. intros port.
    rewrite H2, subtract_step_covers, covers_cons by auto with pb. tauto.
Qed.

Lemma subtractPorts_normalized a b :
  Forall port_ok a → Forall port_ok b → normalized (subtractPorts a b).
Proof. intros. apply subtract_fold; auto with pb. Qed.

(** subtractPorts is set difference. *)
Lemma subtractPorts_covers a b port :
  Forall port_ok a → Forall port_ok b →
  covers (subtractPorts a b) port ↔ covers a port ∧ ¬ covers b port.
Proof.
  intros Ha Hb. unfold subtractPorts.
  destruct (subtract_fold (mergePorts b) (mergePorts a)) as [_ ->]; auto with pb.
  by rewrite !mergePorts_covers.
Qed.

#[export] Hint Resolve subtractPorts_normalized : pb.

Lemma subtractPorts_nil b : Forall port_ok b → subtractPorts (mergePorts []) b = [].
Proof.
  intros Hb. apply normalized_unique; [auto with pb..|]. intros port.
  rewrite subtractPorts_covers by auto with pb. change (mergePorts []) with (@nil PortRange).
  rewrite covers_nil. tauto.
Qed.

Lemma subtractPorts_proper a a' b b' :
  Forall port_ok a → Forall port_ok a' → Forall port_ok b → Forall port_ok b' →
  a ≈ a' → b ≈ b' → subtractPorts a b = subtractPorts a' b'.
Proof.
  intros ???? Ha Hb. apply normalized_unique; [auto with pb..|]. intros port.
  by rewrite !subtractPorts_covers, (Ha port), (Hb port).
Qed.

(** ** Reading and writing port ranges *)

Lemma in_port_bounds_ok p : in_port_bounds p = true ↔ port_ok p.
Proof.
  unfold in_port_bounds, port_ok. rewrite negb_true_iff, !orb_false_iff, !Z.ltb_ge. lia.
Qed.

Lemma port_in_int64 n : (1 ≤ n ≤ 65535)%Z → Int64.in_range n.
Proof. unfold Int64.in_range, Int64.min_value, Int64.max_value. lia. Qed.

Lemma Atoi_port n : (1 ≤ n ≤ 65535)%Z → strconv.Atoi (strconv.Itoa n) = Some n.
Proof. intros. by apply strconv.Atoi_Itoa, port_in_int64. Qed.

(** Reading the printed form of a range gives the range. *)
Lemma parsePortRange_String p : port_ok p → parsePortRange (PortRange_String p) = (p, true).
Proof.
  intros (H1 & H2 & H3). unfold parsePortRange, PortRange_String, strings.Cut.
  assert (Hf : strings.free_of "-" (strconv.Itoa (pFrom p)) = true)
    by (apply strconv.Itoa_free; [lia|done]).
  destruct (Z.eqb_spec (pFrom p) (pTo p)) as [Heq|Hne].
  - rewrite (proj2 (strings.cut_char_None _ _)) by done.
    rewrite Atoi_port by lia. destruct p as [f t]; simpl in *. by subst.
  - change ("-" +:+ strconv.Itoa (pTo p)) with (String "-" (strconv.Itoa (pTo p))).
    rewrite strings.cut_char_app by done. rewrite !Atoi_port by lia. by destruct p.
Qed.

(** A range written with MarshalJSON is read back by UnmarshalJSON as the
    same range, and UnmarshalJSON accepts no value outside the ports 1 to 65535 or with
    its ends swapped. *)
Theorem port_json_roundtrip :
  (∀ p, port_ok p → UnmarshalJSON (MarshalJSON p) = inr p) ∧
  (∀ v p, UnmarshalJSON v = inr p → port_ok p).
Proof.
  split.
  - intros p Hok. pose proof (proj2 (in_port_bounds_ok p) Hok) as Hb.
    pose proof (parsePortRange_String p Hok) as Hparse.
    unfold UnmarshalJSON, MarshalJSON. destruct Hok as (H1 & H2 & H3).
    destruct (Z.eqb_spec (pFrom p) (pTo p)) as [Heq|Hne]; simpl.
    + rewrite Atoi_port by lia. destruct p as [f t]; simpl in *. subst. by rewrite Hb.
    + by rewrite Hparse, Hb.
  - intros v p. unfold UnmarshalJSON. rewrite <-in_port_bounds_ok.
    repeat case_match; intros; simplify_eq; done.
Qed.

(** MergePorts returns the ports of its argument as ranges that are in
    ascending order, disjoint and not adjacent, and lists that cover the same ports merge to
    the same list, so neither the order of the ranges nor the ties of the unstable sort
    matter. *)
Theorem mergePorts_canonical (ps : list PortRange) (Hok : Forall port_ok ps) :
  mergePorts ps ≈ ps ∧ normalized (mergePorts ps) ∧
  ∀ qs, Forall port_ok qs → ps ≈ qs → mergePorts ps = mergePorts qs.
Proof.
  split_and!; auto using mergePorts_covers, mergePorts_unique with pb.
Qed.

Lemma mergePorts_canonical_witness :
  mergePorts [mkPortRange 80 90; mkPortRange 20 22; mkPortRange 91 91; mkPortRange 85 100]
    = [mkPortRange 20 22; mkPortRange 80 100] ∧
  normalized (mergePorts [mkPortRange 80 90; mkPortRange 20 22; mkPortRange 91 91; mkPortRange 85 100]).
Proof.
  split; [vm_compute; reflexivity|].
  apply (mergePorts_canonical
    [mkPortRange 80 90; mkPortRange 20 22; mkPortRange 91 91; mkPortRange 85 100]).
  repeat constructor; simpl; lia.
Defined.

(** SubtractPorts is set difference: a port is open after the subtraction
    exactly when the allowed ranges cover it and the denied ranges do not, and the result is
    again in the normal form of mergePorts. *)
Theorem subtractPorts_difference (a b : list PortRange)
    (Ha : Forall port_ok a) (Hb : Forall port_ok b) :
  normalized (subtractPorts a b) ∧
  ∀ port, portsContain (subtractPorts a b) port = portsContain a port && negb (portsContain b port).
Proof.
  split; [auto with pb|]. intros port. apply bool_eq_iff.
  rewrite andb_true_iff, negb_true_iff, <-not_true_iff_false, !portsContain_covers.
  by apply subtractPorts_covers.
Qed.

Lemma subtractPorts_difference_witness :
  subtractPorts [DefaultPrivatePorts] [mkPortRange 5432 5432]
    = [mkPortRange 1024 5431; mkPortRange 5433 65535] ∧
  portsContain (subtractPorts [DefaultPrivatePorts] [mkPortRange 5432 5432]) 5432 = false.
Proof.
  split; [vm_compute; reflexivity|].
  rewrite (proj2 (subtractPorts_difference [DefaultPrivatePorts] [mkPortRange 5432 5432]
    ltac:(repeat constructor; simpl; lia) ltac:(repeat constructor; simpl; lia))).
  reflexivity.
Defined.
