(* ===== verification/Inventory.v ===== *)
(** * The workspace inventory: shared/policy/inventory.go

    What a policy is compiled against, the index of it by the names a policy
    file uses, and the resolution of these names. *)
From S2P Require Import Prelude GoStd Ports.

(** ** Data *)

Record Member := mkMember { AccountID : string; Email : string; Role : string }.

Record Machine := mkMachine { mc_ID : string; mc_Alias : string; mc_PersonalOwner : string }.

Record Resource := mkResource {
  rs_Kind : string; rs_ID : string; rs_Name : string; rs_MachineID : string; rs_Owner : string;
}.

(** A nil list of ports is [None]: the code tells it from an empty one. *)
Record ScopeEntry := mkScopeEntry {
  sc_Dst : list string; sc_Allow : list string; sc_Ports : option (list PortRange);
}.

Record Token := mkToken { tk_ID : string; tk_Creator : string; tk_Scope : list ScopeEntry }.

Record Inventory := mkInventory {
  Team : bool;
  TeamID : string;
  Members : list Member;
  Machines : list Machine;
  Resources : list Resource;
  Tokens : list Token;
}.

Record Limits := mkLimits {
  MaxBytes : Z; MaxRules : Z; MaxTags : Z; MaxGroups : Z; MaxEntriesPerList : Z; MaxTests : Z;
}.

Record Target := mkTarget { tg_Kind : string; tg_ID : string }.

#[export] Instance Member_eq_dec : EqDecision Member.
Proof. solve_decision. Defined.
#[export] Instance Machine_eq_dec : EqDecision Machine.
Proof. solve_decision. Defined.
#[export] Instance Resource_eq_dec : EqDecision Resource.
Proof. solve_decision. Defined.
#[export] Instance Target_eq_dec : EqDecision Target.
Proof. solve_decision. Defined.
#[export] Instance Target_countable : Countable Target.
Proof.
  apply (inj_countable' (λ t, (tg_Kind t, tg_ID t)) (λ p, mkTarget p.1 p.2)). by intros [].
Defined.

(** The zero values that a failed map lookup yields. *)
Definition zeroMember : Member := mkMember "" "" "".
Definition zeroMachine : Machine := mkMachine "" "" "".
Definition zeroResource : Resource := mkResource "" "" "" "" "".
Definition zeroTarget : Target := mkTarget "" "".

(** The regular expression of tag and group names: a lowercase letter or digit, then
    up to 62 lowercase letters, digits, dots, underscores or hyphens. *)
Definition name_first (c : ascii) : bool :=
  let n := N_of_ascii c in
  ((97 <=? n) && (n <=? 122) || (48 <=? n) && (n <=? 57))%N.

Definition name_rest (c : ascii) : bool :=
  name_first c || Ascii.eqb c "." || Ascii.eqb c "_" || Ascii.eqb c "-".

Fixpoint all_bytes (f : ascii → bool) (s : string) : bool :=
  match s with EmptyString => true | String c s' => f c && all_bytes f s' end.

Definition ValidName (s : string) : bool :=
  match s with
  | EmptyString => false
  | String c s' => name_first c && all_bytes name_rest s' && (String.length s' <=? 62)%nat
  end.

Section index.
Context `{GoRuntime}.

(** ** The index *)

Record index := mkIndex {
  ix_inv : Inventory;
  byEmail : gmap string Member;
  byAccount : gmap string Member;
  byName : gmap string (list Machine);
  byMachineID : gmap string Machine;
  resources : gmap string Resource;
  resourceIDs : gmap string Resource;
}.

Definition qualified_in (accounts : gmap string Member) (m : Machine) : string :=
  match accounts !! mc_PersonalOwner m with
  | Some o =>
      if String.eqb (mc_PersonalOwner m) "" then ""
      else ToLower (Email o) +:+ "/" +:+ mc_Alias m
  | None => ""
  end.

Definition add_name (names : gmap string (list Machine)) (n : string) (m : Machine) :
    gmap string (list Machine) :=
  <[n := default [] (names !! n) ++ [m]]> names.

Definition add_machine_names (accounts : gmap string Member)
    (names : gmap string (list Machine)) (m : Machine) : gmap string (list Machine) :=
  let names := add_name names (mc_Alias m) m in
  let q := qualified_in accounts m in
  if String.eqb q "" then names else add_name names q m.

Definition resource_name (r : Resource) : string :=
  rs_Kind r +:+ ":" +:+ (if String.eqb (rs_Name r) "" then rs_ID r else rs_Name r).

Definition resource_key (kind id : string) : string := kind +:+ ":" +:+ id.

Definition newIndex (inv : Inventory) : index :=
  let emails := foldl (λ acc m, <[ToLower (Email m) := m]> acc) ∅ (Members inv) in
  let accounts := foldl (λ acc m, <[AccountID m := m]> acc) ∅ (Members inv) in
  {| ix_inv := inv;
     byEmail := emails;
     byAccount := accounts;
     byName := foldl (add_machine_names accounts) ∅ (Machines inv);
     byMachineID := foldl (λ acc m, <[mc_ID m := m]> acc) ∅ (Machines inv);
     resources := foldl (λ acc r, <[resource_name r := r]> acc) ∅ (Resources inv);
     resourceIDs := foldl (λ acc r, <[resource_key (rs_Kind r) (rs_ID r) := r]> acc) ∅ (Resources inv);
  |}.

(** ** Labels and resolution *)

Definition qualified (x : index) (m : Machine) : string := qualified_in (byAccount x) m.

Definition names_of (x : index) (name : string) : list Machine := default [] (byName x !! name).

Definition machineName (x : index) (m : Machine) : string :=
  if (1 <? length (names_of x (mc_Alias m)))%nat then
    let q := qualified x m in if String.eqb q "" then mc_Alias m else q
  else mc_Alias m.

Definition is_team_machine (m : Machine) : bool := String.eqb (mc_PersonalOwner m) "".

(** index.machine: the machine a name stands for, and "" or an error code. *)
Definition machine (x : index) (name : string) : Machine * string :=
  let name := let '(a, b, ok) := strings.Cut name "/" in
              if ok then ToLower a +:+ "/" +:+ b else name in
  let ms := names_of x name in
  let ms := if (1 <? length ms)%nat then
              let team := List.filter is_team_machine ms in
              if (length team =? 1)%nat then team else ms
            else ms in
  match ms with
  | [] => (zeroMachine, "unknown_machine")
  | [m] => (m, "")
  | _ => (zeroMachine, "ambiguous_machine")
  end.

Definition user (x : index) (s : string) : string * bool :=
  let '(email, ok) := strings.CutPrefix s "user:" in
  if negb ok then ("", false)
  else match byEmail x !! ToLower email with
       | Some m => (AccountID m, true)
       | None => ("", false)
       end.

Definition target (x : index) (s : string) : Target * bool :=
  let '(kind, name, _) := strings.Cut s ":" in
  if String.eqb kind "machine" then
    let '(m, code) := machine x name in
    (mkTarget "machine" (mc_ID m), String.eqb code "")
  else if String.eqb kind "preview" || String.eqb kind "tunnel" then
    match resources x !! s with
    | Some r => (mkTarget kind (rs_ID r), true)
    | None => (mkTarget kind "", false)
    end
  else if String.eqb kind "env" then
    (mkTarget "env" (TeamID (ix_inv x)), String.eqb name "team" && Team (ix_inv x))
  else (zeroTarget, false).

Definition userLabel (x : index) (account : string) : string :=
  match byAccount x !! account with
  | Some m => "user:" +:+ ToLower (Email m)
  | None => "account:" +:+ account
  end.

Definition targetLabel (x : index) (t : Target) : string :=
  let fallback := tg_Kind t +:+ ":" +:+ tg_ID t in
  if String.eqb (tg_Kind t) "machine" then
    match byMachineID x !! tg_ID t with
    | Some m => "machine:" +:+ machineName x m
    | None => fallback
    end
  else if String.eqb (tg_Kind t) "preview" || String.eqb (tg_Kind t) "tunnel" then
    match resourceIDs x !! resource_key (tg_Kind t) (tg_ID t) with
    | Some r => if String.eqb (rs_Name r) "" then fallback else tg_Kind t +:+ ":" +:+ rs_Name r
    | None => fallback
    end
  else if String.eqb (tg_Kind t) "env" then "env:team"
  else fallback.

(** Inventory.MachineName and Inventory.MachineNames *)
Definition MachineName (inv : Inventory) (id : string) : string :=
  let x := newIndex inv in
  machineName x (default zeroMachine (byMachineID x !! id)).

Definition MachineNames (inv : Inventory) : gmap string string :=
  let x := newIndex inv in
  foldl (λ out m, <[mc_ID m := machineName x m]> out) ∅ (Machines inv).

End index.

#[global] Arguments newIndex : simpl never.

(** ** The index finds what the inventory has *)

(** What the server guarantees of an inventory: accounts, e-mail addresses and
    machine IDs are unique, an alias is unique per owner (team-owned machines have
    the empty owner), the owner of a personal machine is a member; addresses are ASCII
    and neither addresses nor aliases contain a slash. *)
Record inventory_ok `{GoRuntime} (inv : Inventory) : Prop := {
  ok_accounts : NoDup (AccountID <$> Members inv);
  ok_emails : NoDup ((λ o : Member, ToLower (Email o)) <$> Members inv);
  ok_machine_ids : NoDup (mc_ID <$> Machines inv);
  ok_aliases : NoDup ((λ m, (mc_PersonalOwner m, mc_Alias m)) <$> Machines inv);
  ok_owners : Forall (λ m, mc_PersonalOwner m = "" ∨
                mc_PersonalOwner m ∈ AccountID <$> Members inv) (Machines inv);
  ok_alias_text : Forall (λ m, strings.free_of "/" (mc_Alias m) = true) (Machines inv);
  ok_email_text : Forall (λ m, strings.is_ascii (Email m) = true ∧
                    strings.free_of "/" (Email m) = true) (Members inv);
}.

Section index_lemmas.
Context `{GoRuntime}.
Implicit Types (inv : Inventory) (m : Machine).

(** The entries of one machine under a name. *)
Definition name_entries (accounts : gmap string Member) (n : string) (m : Machine) : list Machine :=
  (if String.eqb (mc_Alias m) n then [m] else []) ++
  (if negb (String.eqb (qualified_in accounts m) "") && String.eqb (qualified_in accounts m) n
   then [m] else []).

Lemma add_name_lookup names k m n :
  default [] (add_name names k m !! n) = default [] (names !! n) ++ (if String.eqb k n then [m] else []).
Proof.
  unfold add_name. destruct (String.eqb_spec k n) as [->|Hne].
  - by rewrite lookup_insert_eq.
  - rewrite lookup_insert_ne by done. by rewrite app_nil_r.
Qed.

Lemma byName_lookup accounts names l n :
  default [] (foldl (add_machine_names accounts) names l !! n) =
  default [] (names !! n) ++ mjoin (name_entries accounts n <$> l).
Proof.
  revert names; induction l as [|m l IH]; intros names; simpl; [by rewrite app_nil_r|].
  rewrite IH. unfold name_entries at 2, add_machine_names.
  destruct (String.eqb (qualified_in accounts m) "") eqn:E; simpl.
  - by rewrite add_name_lookup, app_nil_r, <-app_assoc.
  - by rewrite !add_name_lookup, <-!app_assoc.
Qed.

Lemma names_of_newIndex inv n :
  names_of (newIndex inv) n = mjoin (name_entries (byAccount (newIndex inv)) n <$> Machines inv).
Proof.
  unfold names_of.
  change (byName (newIndex inv)) with
    (foldl (add_machine_names (byAccount (newIndex inv))) ∅ (Machines inv)).
  by rewrite byName_lookup.
Qed.

Lemma elem_of_names_of inv n m :
  m ∈ names_of (newIndex inv) n ↔
  m ∈ Machines inv ∧ (mc_Alias m = n ∨ (qualified (newIndex inv) m = n ∧ n ≠ "")).
Proof.
  rewrite names_of_newIndex, list_elem_of_join. unfold qualified.
  generalize (byAccount (newIndex inv)) as accounts. intros accounts. split.
  - intros (l & Hm & Hl). apply list_elem_of_fmap in Hl as (m' & -> & Hm').
    unfold name_entries in Hm. apply elem_of_app in Hm as [Hm|Hm].
    + destruct (String.eqb_spec (mc_Alias m') n); [|by apply elem_of_nil in Hm].
      apply list_elem_of_singleton in Hm as ->. auto.
    + destruct (_ && _)%bool eqn:E; [|by apply elem_of_nil in Hm].
      apply list_elem_of_singleton in Hm as ->. to_prop. split; [done|]. right. by subst.
  - intros [Hm Hn]. exists (name_entries accounts n m).
    split; [|apply list_elem_of_fmap; eauto].
    unfold name_entries. apply elem_of_app. destruct Hn as [->|[Hq Hn]].
    + left. rewrite String.eqb_refl. left.
    + right. rewrite Hq, String.eqb_refl, (proj2 (String.eqb_neq n "")) by done. left.
Qed.

Lemma byAccount_unique inv a o :
  inventory_ok inv → byAccount (newIndex inv) !! a = Some o ↔ o ∈ Members inv ∧ AccountID o = a.
Proof. intros Hok. apply (index_by_unique AccountID). by destruct Hok. Qed.

Lemma byMachineID_unique inv id m :
  inventory_ok inv → byMachineID (newIndex inv) !! id = Some m ↔ m ∈ Machines inv ∧ mc_ID m = id.
Proof. intros Hok. apply (index_by_unique mc_ID). by destruct Hok. Qed.

Lemma byEmail_unique inv e o :
  inventory_ok inv → byEmail (newIndex inv) !! e = Some o ↔ o ∈ Members inv ∧ ToLower (Email o) = e.
Proof. intros Hok. apply (index_by_unique (λ o : Member, ToLower (Email o))). by destruct Hok. Qed.

(** ** Names resolve to the machine they were printed for *)

Lemma ascii_lower_free c s :
  strings.lower_byte c = c → (∀ d, strings.lower_byte d = c → d = c) →
  strings.free_of c s = true → strings.free_of c (strings.ascii_lower s) = true.
Proof.
  intros Hc Hinj. induction s as [|d s IH]; simpl; [done|].
  rewrite !andb_true_iff, !negb_true_iff, !Ascii.eqb_neq. intros [Hd Hs]. split; [|auto].
  intros Heq. apply Hd. by apply Hinj.
Qed.

Lemma lower_byte_slash d : strings.lower_byte d = "/"%char → d = "/"%char.
Proof.
  destruct d as [b0 b1 b2 b3 b4 b5 b6 b7].
  destruct b0, b1, b2, b3, b4, b5, b6, b7; vm_compute; congruence.
Qed.

Lemma ascii_lower_is_ascii s : strings.is_ascii s = true → strings.is_ascii (strings.ascii_lower s) = true.
Proof.
  induction s as [|d s IH]; simpl; [done|]. rewrite !andb_true_iff. intros [Hd Hs].
  split; [|auto]. revert Hd. destruct d as [b0 b1 b2 b3 b4 b5 b6 b7].
  destruct b0, b1, b2, b3, b4, b5, b6, b7; vm_compute; congruence.
Qed.

Lemma email_lower inv o :
  inventory_ok inv → o ∈ Members inv →
  strings.free_of "/" (ToLower (Email o)) = true ∧ ToLower (ToLower (Email o)) = ToLower (Email o).
Proof.
  intros Hok Ho. destruct Hok as [_ _ _ _ _ _ Ht]. rewrite Forall_forall in Ht.
  destruct (Ht o Ho) as [Ha Hf]. unfold ToLower. rewrite Ha. split.
  - by apply ascii_lower_free; [|apply lower_byte_slash|].
  - by rewrite ascii_lower_is_ascii, strings.ascii_lower_idemp.
Qed.

Lemma qualified_owner inv m :
  inventory_ok inv → m ∈ Machines inv → mc_PersonalOwner m ≠ "" →
  ∃ o, o ∈ Members inv ∧ AccountID o = mc_PersonalOwner m ∧
       qualified (newIndex inv) m = ToLower (Email o) +:+ "/" +:+ mc_Alias m.
Proof.
  intros Hok Hm Hne. pose proof (ok_owners _ Hok) as Ho. rewrite Forall_forall in Ho.
  destruct (Ho m Hm) as [|Hin]; [done|]. apply list_elem_of_fmap in Hin as (o & Ha & Hoin).
  exists o. split_and!; [done|done|]. unfold qualified, qualified_in.
  rewrite (proj2 (byAccount_unique inv _ o Hok)) by done.
  by rewrite (proj2 (String.eqb_neq _ _) Hne).
Qed.

Lemma qualified_shape inv m :
  inventory_ok inv → qualified (newIndex inv) m ≠ "" →
  ∃ o, o ∈ Members inv ∧ AccountID o = mc_PersonalOwner m ∧
       qualified (newIndex inv) m = ToLower (Email o) +:+ "/" +:+ mc_Alias m.
Proof.
  intros Hok Hne. unfold qualified, qualified_in in *.
  destruct (byAccount (newIndex inv) !! mc_PersonalOwner m) as [o|] eqn:E; [|done].
  apply byAccount_unique in E as [Ho Ha]; [|done].
  destruct (String.eqb (mc_PersonalOwner m) ""); [done|]. eauto.
Qed.

Lemma free_of_app_false c a b : strings.free_of c (a +:+ String c b) = false.
Proof. induction a as [|d a IH]; simpl; [by rewrite Ascii.eqb_refl|]. by rewrite IH, andb_false_r. Qed.

Lemma slash_split a b a' b' :
  strings.free_of "/" a = true → strings.free_of "/" a' = true →
  a +:+ "/" +:+ b = a' +:+ "/" +:+ b' → a = a' ∧ b = b'.
Proof.
  intros Ha Ha' Heq.
  pose proof (strings.cut_char_app "/" a b Ha) as H1.
  pose proof (strings.cut_char_app "/" a' b' Ha') as H2.
  simpl in Heq. rewrite Heq in H1. by simplify_eq.
Qed.

Lemma alias_not_qualified inv m m' :
  inventory_ok inv → m ∈ Machines inv →
  mc_Alias m = qualified (newIndex inv) m' → qualified (newIndex inv) m' = "".
Proof.
  intros Hok Hm Heq. destruct (decide (qualified (newIndex inv) m' = "")) as [|Hne]; [done|].
  destruct (qualified_shape inv m' Hok Hne) as (o & _ & _ & Hq).
  pose proof (ok_alias_text _ Hok) as Ht. rewrite Forall_forall in Ht. specialize (Ht m Hm).
  rewrite Heq, Hq in Ht. simpl in Ht. by rewrite free_of_app_false in Ht.
Qed.

Lemma machine_by_alias inv m m' :
  inventory_ok inv → m ∈ Machines inv → m' ∈ Machines inv →
  mc_PersonalOwner m = mc_PersonalOwner m' → mc_Alias m = mc_Alias m' → m = m'.
Proof.
  intros Hok Hm Hm' Ho Ha.
  apply list_elem_of_lookup in Hm as [i Hi], Hm' as [j Hj].
  assert (i = j) as ->; [|congruence].
  eapply (NoDup_lookup _ i j (mc_PersonalOwner m', mc_Alias m') (ok_aliases _ Hok));
    rewrite list_lookup_fmap; rewrite ?Hi, ?Hj; simpl; by rewrite ?Ho, ?Ha.
Qed.

Lemma name_entries_NoDup accounts n m :
  (mc_Alias m = qualified_in accounts m → qualified_in accounts m = "") →
  NoDup (name_entries accounts n m).
Proof.
  unfold name_entries. intros Hq.
  destruct (String.eqb_spec (mc_Alias m) n) as [<-|_]; simpl.
  - destruct (String.eqb_spec (qualified_in accounts m) "") as [|Hne]; simpl; [apply NoDup_singleton|].
    destruct (String.eqb_spec (qualified_in accounts m) (mc_Alias m)) as [Heq|];
      [|apply NoDup_singleton]. destruct Hne. by apply Hq.
  - destruct (_ && _)%bool; [apply NoDup_singleton|constructor].
Qed.

Lemma names_of_NoDup inv n : inventory_ok inv → NoDup (names_of (newIndex inv) n).
Proof.
  intros Hok. rewrite names_of_newIndex.
  assert (Hnd : NoDup (Machines inv)) by (eapply NoDup_fmap_1, ok_machine_ids, Hok).
  assert (Hsub : ∀ m, m ∈ Machines inv → m ∈ Machines inv) by done.
  revert Hsub Hnd. generalize (Machines inv) at 1 3 4 as l.
  induction l as [|m l IH]; intros Hsub Hnd; cbn [fmap list_fmap mjoin list_join]; [constructor|].
  apply NoDup_cons in Hnd as [Hm Hnd]. apply NoDup_app. split_and!.
  - apply name_entries_NoDup. apply alias_not_qualified; [done|]. apply Hsub. left.
  - intros m' Hm' Hin. apply list_elem_of_join in Hin as (l' & Hin & Hl').
    apply list_elem_of_fmap in Hl' as (m'' & -> & Hm'').
    assert (∀ a b, a ∈ name_entries (byAccount (newIndex inv)) n b → a = b) as Heq.
    { intros a b Hab. unfold name_entries in Hab. apply elem_of_app in Hab as [Hab|Hab];
        case_match; (by apply elem_of_nil in Hab) || (by apply list_elem_of_singleton in Hab). }
    apply Heq in Hm' as ->. apply Heq in Hin as ->. done.
  - apply IH; [|done]. intros m' Hm'. apply Hsub. by right.
Qed.

Lemma NoDup_singleton_list {A} (l : list A) (a : A) :
  NoDup l → a ∈ l → (∀ b, b ∈ l → b = a) → l = [a].
Proof.
  intros Hnd Ha Hall. destruct l as [|x [|y l]]; [by apply elem_of_nil in Ha| |].
  - f_equal. apply Hall. left.
  - assert (x = a) as -> by (apply Hall; left). assert (y = a) as -> by (apply Hall; right; left).
    apply NoDup_cons in Hnd as [Hn _]. destruct Hn. left.
Qed.

Lemma names_of_alias inv m m' :
  inventory_ok inv → m ∈ Machines inv → m' ∈ names_of (newIndex inv) (mc_Alias m) →
  m' ∈ Machines inv ∧ mc_Alias m' = mc_Alias m.
Proof.
  intros Hok Hm Hin. apply elem_of_names_of in Hin as [Hm' [?|[Hq Hne]]]; [done|].
  exfalso. apply Hne. rewrite <-Hq. by apply (alias_not_qualified inv m m').
Qed.

Lemma names_of_qualified inv m o :
  inventory_ok inv → m ∈ Machines inv → o ∈ Members inv → AccountID o = mc_PersonalOwner m →
  qualified (newIndex inv) m = ToLower (Email o) +:+ "/" +:+ mc_Alias m →
  names_of (newIndex inv) (qualified (newIndex inv) m) = [m].
Proof.
  intros Hok Hm Ho Ha Hq.
  assert (Hne : qualified (newIndex inv) m ≠ "") by (rewrite Hq; by destruct (ToLower (Email o))).
  apply NoDup_singleton_list; [by apply names_of_NoDup|apply elem_of_names_of; eauto|].
  intros m' Hin. apply elem_of_names_of in Hin as [Hm' [Hal|[Hq' _]]].
  - destruct Hne. by apply (alias_not_qualified inv m' m).
  - destruct (qualified_shape inv m' Hok) as (o' & Ho' & Ha' & Hs); [congruence|].
    rewrite Hs, Hq in Hq'. destruct (email_lower inv o Hok Ho) as [Hf _].
    destruct (email_lower inv o' Hok Ho') as [Hf' _].
    apply slash_split in Hq' as [He Hal]; [|done|done].
    assert (o' = o) as ->.
    { pose proof (proj2 (byEmail_unique inv (ToLower (Email o)) o Hok) (conj Ho eq_refl)) as H1.
      pose proof (proj2 (byEmail_unique inv (ToLower (Email o)) o' Hok) (conj Ho' He)) as H2.
      congruence. }
    apply (machine_by_alias inv); [done..|congruence|done].
Qed.

Lemma machine_of_list x name ms m :
  strings.cut name "/" = None ∨ (∃ a b, strings.cut name "/" = Some (a, b) ∧ ToLower a = a) →
  names_of x name = ms →
  (ms = [m] ∨ ((1 < length ms)%nat ∧ List.filter is_team_machine ms = [m])) →
  machine x name = (m, "").
Proof.
  intros Hcut Hms Hor. unfold machine.
  assert (Hn : (let '(a, b, ok) := strings.Cut name "/" in
                if ok then ToLower a +:+ "/" +:+ b else name) = name).
  { unfold strings.Cut. destruct Hcut as [->|(a & b & Hc & Hl)]; [done|].
    rewrite Hc, Hl. symmetry. by apply strings.cut_Some. }
  rewrite Hn, Hms. destruct Hor as [->|[Hlen Hf]]; [done|].
  apply Nat.ltb_lt in Hlen. by rewrite Hlen, Hf.
Qed.

Lemma machineName_resolves (inv : Inventory) (m : Machine) :
  inventory_ok inv → m ∈ Machines inv →
  machine (newIndex inv) (machineName (newIndex inv) m) = (m, "").
Proof.
  intros Hok Hm.
  set (x := newIndex inv).
  pose proof (ok_alias_text _ Hok) as Ht. rewrite Forall_forall in Ht. specialize (Ht m Hm).
  pose proof (proj2 (strings.cut_char_None "/" _) Ht) as Hcut.
  assert (Hself : m ∈ names_of x (mc_Alias m)) by (apply elem_of_names_of; auto).
  unfold machineName. destruct (Nat.ltb_spec 1 (length (names_of x (mc_Alias m)))) as [Hlt|Hge].
  - destruct (String.eqb_spec (qualified x m) "") as [Hq|Hq].
    + assert (Hteam : mc_PersonalOwner m = "").
      { destruct (decide (mc_PersonalOwner m = "")) as [|Hne]; [done|].
        destruct (qualified_owner inv m Hok Hm Hne) as (o & _ & _ & Hs).
        fold x in Hs. rewrite Hq in Hs. by destruct (ToLower (Email o)). }
      eapply machine_of_list; [by left|done|]. right. split; [done|].
      apply NoDup_singleton_list.
      * apply NoDup_ListNoDup, List.NoDup_filter, NoDup_ListNoDup. by apply names_of_NoDup.
      * apply list_elem_of_In, filter_In. split; [by apply list_elem_of_In|].
        unfold is_team_machine. by rewrite Hteam.
      * intros m' Hin. apply list_elem_of_In, filter_In in Hin as [Hin Ht'].
        apply list_elem_of_In in Hin. apply names_of_alias in Hin as [Hm' Ha']; [|done|done].
        unfold is_team_machine in Ht'. to_prop.
        apply (machine_by_alias inv); [done..|congruence|done].
    + destruct (qualified_shape inv m Hok Hq) as (o & Ho & Ha & Hs). fold x in Hs.
      destruct (email_lower inv o Hok Ho) as [Hf Hl].
      eapply machine_of_list; [right|by eapply names_of_qualified|by left].
      exists (ToLower (Email o)), (mc_Alias m). split; [|done].
      rewrite Hs. by apply strings.cut_char_app.
  - eapply machine_of_list; [by left|done|]. left.
    destruct (names_of x (mc_Alias m)) as [|m1 [|m2 l]]; [by apply elem_of_nil in Hself| |simpl in Hge; lia].
    apply list_elem_of_singleton in Hself. by subst.
Qed.

(** The policy-file name of a machine resolves to that machine: in an inventory with
    unique IDs, per-owner unique aliases and member owners, [machine] applied to
    [machineName] finds the machine itself, whether the name is the plain alias or the
    owner-qualified one. *)
Theorem machine_name_roundtrip (inv : Inventory) (m : Machine)
    (Hok : inventory_ok inv) (Hm : m ∈ Machines inv) :
  machine (newIndex inv) (machineName (newIndex inv) m) = (m, "").
Proof. by apply machineName_resolves. Qed.

End index_lemmas.

(** ** A concrete inventory *)

(** Two members, a team machine and two personal machines that share an alias. *)
Definition sample_inventory : Inventory := {|
  Team := true; TeamID := "team1";
  Members := [mkMember "acc-ana" "ana@example.test" "owner"; mkMember "acc-bo" "bo@example.test" "member"];
  Machines := [mkMachine "m1" "db1" ""; mkMachine "m2" "laptop" "acc-ana"; mkMachine "m3" "laptop" "acc-bo"];
  Resources := [mkResource "preview" "p1" "shop" "m1" "acc-ana"];
  Tokens := [];
|}.

Lemma sample_inventory_ok : inventory_ok (H := eval_runtime) sample_inventory.
Proof.
  split; try (apply (bool_decide_eq_true_1 _); vm_compute; reflexivity).
Qed.

Lemma machine_name_roundtrip_witness :
  machineName (H := eval_runtime) (newIndex (H := eval_runtime) sample_inventory)
    (mkMachine "m3" "laptop" "acc-bo") = "bo@example.test/laptop" ∧
  machine (H := eval_runtime) (newIndex (H := eval_runtime) sample_inventory)
    (machineName (H := eval_runtime) (newIndex (H := eval_runtime) sample_inventory)
      (mkMachine "m3" "laptop" "acc-bo")) = (mkMachine "m3" "laptop" "acc-bo", "").
Proof.
  split; [vm_compute; reflexivity|].
  apply (machine_name_roundtrip (H := eval_runtime) sample_inventory (mkMachine "m3" "laptop" "acc-bo")).
  - apply sample_inventory_ok.
  - apply list_elem_of_In. simpl. tauto.
Defined.
