(* ===== verification/PolicyDoc.v ===== *)
(** * Policy documents and their errors: shared/policy/policy.go

    The parsed file, the error list with its order, the collector that the
    parser and the compiler report to, and JSON Pointers. *)
From S2P Require Import Prelude GoStd Ports.

(** ** Actions *)

Definition ActionTerminal := "terminal".
Definition ActionExec := "exec".
Definition ActionManagedSSH := "managed_ssh".
Definition ActionFiles := "files".
Definition ActionPreviewManage := "preview_manage".
Definition ActionTunnelManage := "tunnel_manage".
Definition ActionPrivateAccess := "private_access".
Definition ActionInspect := "inspect".
Definition ActionReplay := "replay".
Definition ActionENVRead := "env_read".
Definition ActionENVWrite := "env_write".

Definition MachineCapabilities : list string :=
  [ActionTerminal; ActionExec; ActionManagedSSH; ActionFiles; ActionPreviewManage;
   ActionTunnelManage; ActionPrivateAccess].
Definition MachineActions : list string := MachineCapabilities ++ [ActionInspect; ActionReplay].
Definition ResourceActions : list string := [ActionInspect; ActionReplay].
Definition ENVActions : list string := [ActionENVRead; ActionENVWrite].

(** ** Documents *)

(** A nil [Deny] or [Ports] is [None]: the code tells it from an empty list. *)
Record Rule := mkRule {
  Src : list string;
  Dst : list string;
  Allow : list string;
  Deny : option (list string);
  Ports : option (list PortRange);
  Note : string;
}.

Definition zeroRule : Rule := mkRule [] [] [] None None "".

(** Rule.Actions: the action list and whether it is a deny rule. *)
Definition Actions (r : Rule) : list string * bool :=
  match Deny r with Some d => (d, true) | None => (Allow r, false) end.

Record PolicyTest := mkTest {
  t_Src : string; t_Dst : string; t_Allow : list string; t_Deny : list string;
}.

Definition zeroTest : PolicyTest := mkTest "" "" [] [].

Record Document := mkDocument {
  d_Schema : string;
  d_AllowPrivateAccess : option bool;
  d_Groups : gmap string (list string);
  d_Tags : gmap string (list string);
  d_Rules : list Rule;
  d_Tests : list PolicyTest;
}.

Definition emptyDocument : Document := mkDocument "" None ∅ ∅ [] [].

(** ** Errors *)

Record Error := mkError { Path : string; Code : string; Message : string }.

#[export] Instance Error_eq_dec : EqDecision Error.
Proof. solve_decision. Defined.

Definition error_key (e : Error) : list string := [Path e; Code e; Message e].

(** The comparison of Errors.sorted: by path, then code, then message. *)
Definition error_less (a b : Error) : bool :=
  if negb (String.eqb (Path a) (Path b)) then str_ltb (Path a) (Path b)
  else if negb (String.eqb (Code a) (Code b)) then str_ltb (Code a) (Code b)
  else str_ltb (Message a) (Message b).

Definition sorted (e : list Error) : list Error := sort_by error_less e.

Definition Error_String (e : Error) : string :=
  (if String.eqb (Path e) "" then "/" else Path e) +:+ ": " +:+ Code e +:+ ": " +:+ Message e.

(** Errors.Error: the first five errors, then a count. *)
Definition Errors_Error (e : list Error) : string :=
  match e with
  | [] => "policy is valid"
  | _ =>
      strings.Join
        ((Error_String <$> take 5 e) ++
         (if (5 <? length e)%nat
          then ["and " +:+ strconv.Itoa (Z.of_nat (length e) - 5) +:+ " more"] else [])) "; "
  end.

(** ** The collector

    Every checking function appends to the collector and returns a value: a
    writer monad.  [listen] gives the errors of a computation, which is how the code
    compares the length of the collector before and after. *)
Definition W (A : Type) : Type := A * list Error.

Definition ret {A} (a : A) : W A := (a, []).
Definition bind {A B} (m : W A) (f : A → W B) : W B :=
  let '(a, e1) := m in let '(b, e2) := f a in (b, e1 ++ e2).

Declare Scope collector_scope.
Delimit Scope collector_scope with collector.
Notation "x ← m ; k" := (bind m (λ x, k))
  (at level 20, m at level 100, k at level 200, only parsing) : collector_scope.
#[local] Open Scope collector_scope.

(** collector.add *)
Definition c_add (path code message : string) : W () := ((), [mkError path code message]).

Definition errs {A} (m : W A) : list Error := m.2.
Definition val {A} (m : W A) : A := m.1.

(** A loop over a list with its index and an accumulator. *)
Fixpoint for_range {A B} (i : nat) (l : list A) (acc : B) (body : nat → A → B → W B) : W B :=
  match l with
  | [] => ret acc
  | a :: l' => acc' ← body i a acc; for_range (S i) l' acc' body
  end.

(** ** JSON Pointers *)

Inductive part := PName (s : string) | PIndex (i : nat).

(** fmt.Sprint of a part. *)
Definition sprint (p : part) : string :=
  match p with PName s => s | PIndex i => strconv.Itoa (Z.of_nat i) end.

Definition escape (s : string) : string :=
  strings.ReplaceAll (strings.ReplaceAll s "~" "~0") "/" "~1".

Fixpoint pointer (base : string) (parts : list part) : string :=
  match parts with
  | [] => base
  | p :: parts' => pointer (base +:+ "/" +:+ escape (sprint p)) parts'
  end.

(** ** Lemmas *)

Lemma ltb_step x y (b : bool) :
  (if negb (String.eqb x y) then str_ltb x y else b) =
  (if str_ltb x y then true else if str_ltb y x then false else b).
Proof.
  destruct (String.eqb_spec x y) as [->|Hne]; simpl; [by rewrite str_ltb_irrefl|].
  destruct (str_ltb_trichotomy x y) as [Hl|[?|Hl]]; [by rewrite Hl|done|].
  by rewrite (str_ltb_asym _ _ Hl), Hl.
Qed.

Lemma error_less_key a b : error_less a b = strs_ltb (error_key a) (error_key b).
Proof.
  unfold error_less, error_key; simpl. rewrite !ltb_step.
  repeat case_match; congruence.
Qed.

#[export] Instance error_less_swo : StrictWeakOrder error_less.
Proof.
  destruct (key_less_swo error_key) as [Ha Ht]. unfold not_after in *.
  split; unfold not_after; intros *; rewrite !error_less_key; [apply Ha|apply Ht].
Qed.

(** Errors with the same key are the same error, so the sorted list does not
    depend on the order in which errors were found. *)
Lemma sorted_perm l1 l2 : l1 ≡ₚ l2 → sorted l1 = sorted l2.
Proof.
  apply (sort_by_unique error_less). unfold not_after. intros x y _ _. rewrite !error_less_key. intros H1 H2.
  pose proof (strs_ltb_antisym _ _ H1 H2) as Hk. unfold error_key in Hk.
  destruct x, y; simpl in *. congruence.
Qed.

Lemma sorted_nil_iff l : sorted l = [] ↔ l = [].
Proof. split; [apply sort_by_nil_inv|by intros ->]. Qed.

Lemma W_bind_errs {A B} (m : W A) (f : A → W B) : errs (bind m f) = errs m ++ errs (f (val m)).
Proof. destruct m as [a e]. unfold errs, bind; simpl. by destruct (f a). Qed.

Lemma W_bind_val {A B} (m : W A) (f : A → W B) : val (bind m f) = val (f (val m)).
Proof. destruct m as [a e]. unfold val, bind; simpl. by destruct (f a). Qed.

Lemma W_bind_ok {A B} (m : W A) (f : A → W B) :
  errs (bind m f) = [] ↔ errs m = [] ∧ errs (f (val m)) = [].
Proof. rewrite W_bind_errs. split; [apply app_nil|intros [-> ->]; done]. Qed.

(** Computes the value and the errors of a chain of checks. *)
Ltac wsimpl := rewrite ?W_bind_val, ?W_bind_errs; simpl.

Lemma W_let {A} (m : W A) : m = (val m, errs m).
Proof. by destruct m. Qed.

(** An invariant of the loop that holds of the prefix visited so far. *)
Lemma for_range_inv {A B} (body : nat → A → B → W B) (I : list A → B → Prop) l :
  ∀ pre acc,
  (∀ pre a b, I pre b → errs (body (length pre) a b) = [] → I (pre ++ [a]) (val (body (length pre) a b))) →
  I pre acc → errs (for_range (length pre) l acc body) = [] →
  I (pre ++ l) (val (for_range (length pre) l acc body)).
Proof.
  induction l as [|a l IH]; intros pre acc Hstep HI He; simpl in *; [by rewrite app_nil_r|].
  apply W_bind_ok in He as [He1 He2]. rewrite W_bind_val.
  specialize (IH (pre ++ [a]) (val (body (length pre) a acc)) Hstep).
  rewrite length_app, Nat.add_1_r, <-app_assoc in IH. apply IH; [|done].
  by apply Hstep.
Qed.

(** An invariant of the prefix visited so far that holds whatever is reported. *)
Lemma for_range_prefix {A B} (body : nat → A → B → W B) (I : list A → B → Prop) l :
  ∀ pre acc,
  (∀ pre a b, I pre b → I (pre ++ [a]) (val (body (length pre) a b))) →
  I pre acc → I (pre ++ l) (val (for_range (length pre) l acc body)).
Proof.
  induction l as [|a l IH]; intros pre acc Hstep HI; simpl in *; [by rewrite app_nil_r|].
  rewrite W_bind_val. specialize (IH (pre ++ [a]) (val (body (length pre) a acc)) Hstep).
  rewrite length_app, Nat.add_1_r, <-app_assoc in IH. by apply IH, Hstep.
Qed.

(** The same for a property that holds whatever is reported. *)
Lemma for_range_val {A B} (body : nat → A → B → W B) (P : B → Prop) l i acc :
  (∀ i a b, P b → P (val (body i a b))) → P acc → P (val (for_range i l acc body)).
Proof.
  intros Hstep. revert i acc; induction l as [|a l IH]; intros i acc HP; simpl; [done|].
  rewrite W_bind_val. apply IH. by apply Hstep.
Qed.

(** A loop reports nothing exactly when no body does. *)
Lemma for_range_ok {A B} (body : nat → A → B → W B) l i acc :
  errs (for_range i l acc body) = [] →
  ∀ j a, l !! j = Some a → ∃ b, errs (body (i + j)%nat a b) = [].
Proof.
  revert i acc; induction l as [|a l IH]; intros i acc He j c Hc; [done|].
  simpl in He. apply W_bind_ok in He as [He1 He2].
  destruct j as [|j]; simpl in Hc.
  - simplify_eq. rewrite Nat.add_0_r. eauto.
  - rewrite Nat.add_succ_r. by eapply (IH (S i)).
Qed.

(** *** Reading a pointer back *)

(** The reference tokens of a pointer (RFC 6901): split at slashes, then undo
    the escapes, one token at a time. *)
Fixpoint unescape (s : string) : string :=
  match s with
  | String "~" (String "0" s') => String "~" (unescape s')
  | String "~" (String "1" s') => String "/" (unescape s')
  | String c s' => String c (unescape s')
  | EmptyString => EmptyString
  end.

Fixpoint split_slash (s : string) : string * list string :=
  match s with
  | EmptyString => (EmptyString, [])
  | String c s' =>
      let '(a, l) := split_slash s' in
      if Ascii.eqb c "/" then (EmptyString, a :: l) else (String c a, l)
  end.

Definition pointer_tokens (s : string) : list string := unescape <$> (split_slash s).2.

Lemma escape_cons c s :
  escape (String c s) =
  (if Ascii.eqb c "~" then "~0" else if Ascii.eqb c "/" then "~1" else String c "") +:+ escape s.
Proof.
  unfold escape. cbn [strings.ReplaceAll].
  destruct (Ascii.eqb_spec c "~") as [->|Hne]; [done|].
  cbn [strings.ReplaceAll]. by destruct (Ascii.eqb c "/").
Qed.

Lemma escape_free s : strings.free_of "/" (escape s) = true.
Proof.
  induction s as [|c s IH]; [done|]. rewrite escape_cons.
  destruct (Ascii.eqb_spec c "~"); [by simpl|].
  destruct (Ascii.eqb_spec c "/"); [by simpl|].
  cbn [String.append strings.free_of]. rewrite IH.
  by rewrite (proj2 (Ascii.eqb_neq c "/")).
Qed.

Lemma unescape_other c s : c ≠ "~"%char → unescape (String c s) = String c (unescape s).
Proof.
  destruct c as [b0 b1 b2 b3 b4 b5 b6 b7].
  destruct b0, b1, b2, b3, b4, b5, b6, b7; try done; intros Hne; by destruct Hne.
Qed.

Lemma unescape_escape s : unescape (escape s) = s.
Proof.
  induction s as [|c s IH]; [done|]. rewrite escape_cons.
  destruct (Ascii.eqb_spec c "~") as [->|Hn]; [simpl; by f_equal|].
  destruct (Ascii.eqb_spec c "/") as [->|Hs]; [simpl; by f_equal|].
  cbn [String.append]. rewrite unescape_other by done. by f_equal.
Qed.

Lemma split_slash_free a : strings.free_of "/" a = true → split_slash a = (a, []).
Proof.
  induction a as [|c a IH]; [done|]. cbn [strings.free_of split_slash].
  rewrite andb_true_iff, negb_true_iff. intros [Hc Ha]. by rewrite (IH Ha), Hc.
Qed.

Lemma split_slash_app a b :
  split_slash (a +:+ String "/" b) =
  ((split_slash a).1, (split_slash a).2 ++ (split_slash b).1 :: (split_slash b).2).
Proof.
  induction a as [|c a IH]; cbn [String.append split_slash].
  - destruct (split_slash b) as [b1 bl]. by rewrite Ascii.eqb_refl.
  - rewrite IH. destruct (split_slash a) as [a1 al]. by destruct (Ascii.eqb c "/").
Qed.

Lemma pointer_tokens_from base parts :
  pointer_tokens (pointer base parts) = pointer_tokens base ++ (sprint <$> parts).
Proof.
  revert base; induction parts as [|p parts IH]; intros base; simpl; [by rewrite app_nil_r|].
  rewrite IH. unfold pointer_tokens. rewrite split_slash_app; simpl.
  rewrite (split_slash_free (escape (sprint p))) by apply escape_free.
  by rewrite fmap_app, <-app_assoc; simpl; rewrite unescape_escape.
Qed.

(** A path names its place in the file unambiguously: decoding a pointer by the
    rules of RFC 6901 gives back the names and indexes it was built from, whatever
    slashes and tildes they contain. *)
Theorem pointer_roundtrip (parts : list part) :
  pointer_tokens (pointer "" parts) = sprint <$> parts.
Proof. apply pointer_tokens_from. Qed.
