(* ===== verification/Parse.v ===== *)
(** * Reading a policy file: shared/policy/parse.go

    The HuJSON library is a parameter, the class [HuJSON]: its parser and the
    accessors of its literals.  The syntax tree has the shape the package walks:
    literals by their raw text, objects by their members in file order, lists by their
    elements, each with the comments and blanks around it ([Extra]).  Member names are
    literals, as the library guarantees. *)
From S2P Require Import Prelude GoStd Ports PolicyDoc.

(** ** The syntax tree *)

Record Extra := mkExtra { BeforeExtra : string; OtherExtra : string }.

#[local] Set Warnings "-register-all".
Inductive Value :=
  | VLiteral (x : Extra) (raw : string)
  | VObject (x : Extra) (members : list (string * Value))
  | VArray (x : Extra) (elements : list Value).

Class HuJSON := {
  hujson_Parse : string → string + Value;
  Literal_Kind : string → ascii;
  Literal_String : string → string;
  Literal_Bool : string → bool;
}.

(** A quoted name inside a message. *)
Definition q (s : string) : string := dquote +:+ s +:+ dquote.

#[local] Open Scope collector_scope.

Section parse.
Context `{GoRuntime} `{HuJSON}.

(** The kind byte of a string literal. *)
Definition string_kind : ascii := Ascii.ascii_of_nat 34.

Record member := mkMember' { m_name : string; m_value : Value }.

Definition object (path : string) (v : Value) : W (option (list (string * Value))) :=
  match v with
  | VObject _ ms => ret (Some ms)
  | _ => _ ← c_add path "wrong_type" "must be an object"; ret None
  end.

Definition members (path : string) (o : list (string * Value)) : W (list member) :=
  for_range 0 o [] (λ _ m out,
    let name := Literal_String m.1 in
    if decide (name ∈ m_name <$> out) then
      _ ← c_add (pointer path [PName name]) "duplicate_key"
            ("key " +:+ Quote name +:+ " appears more than once");
      ret out
    else ret (out ++ [mkMember' name m.2])).

Definition array (path : string) (v : Value) : W (option (list Value)) :=
  match v with
  | VArray _ es => ret (Some es)
  | _ => _ ← c_add path "wrong_type" "must be a list"; ret None
  end.

Definition str (path : string) (v : Value) : W (string * bool) :=
  let bad := _ ← c_add path "wrong_type" "must be a string"; ret ("", false) in
  match v with
  | VLiteral _ l => if Ascii.eqb (Literal_Kind l) string_kind then ret (Literal_String l, true) else bad
  | _ => bad
  end.

Definition boolean (path : string) (v : Value) : W (bool * bool) :=
  let bad := _ ← c_add path "wrong_type" "must be true or false"; ret (false, false) in
  match v with
  | VLiteral _ l =>
      if Ascii.eqb (Literal_Kind l) "t" || Ascii.eqb (Literal_Kind l) "f"
      then ret (Literal_Bool l, true) else bad
  | _ => bad
  end.

(** nil is [None]. *)
Definition stringList (path : string) (v : Value) : W (option (list string)) :=
  items ← array path v;
  match items with
  | None => ret None
  | Some items =>
      out ← for_range 0 items [] (λ i item out,
        r ← str (pointer path [PIndex i]) item;
        ret (if r.2 then out ++ [r.1] else out));
      ret (Some out)
  end.

Definition stringListMap (path : string) (v : Value) : W (gmap string (list string)) :=
  o ← object path v;
  match o with
  | None => ret ∅
  | Some o =>
      ms ← members path o;
      for_range 0 ms ∅ (λ _ m out,
        l ← stringList (pointer path [PName (m_name m)]) (m_value m);
        ret (<[m_name m := default [] l]> out))
  end.

Definition parsePorts (path : string) (v : Value) : W (option (list PortRange)) :=
  items ← array path v;
  match items with
  | None => ret None
  | Some items =>
      out ← for_range 0 items [] (λ i item out,
        let '(r, ok) :=
          match item with
          | VLiteral _ l =>
              if Ascii.eqb (Literal_Kind l) "0" then
                match strconv.Atoi l with
                | Some n => (mkPortRange n n, true)
                | None => (mkPortRange 0 0, false)
                end
              else if Ascii.eqb (Literal_Kind l) string_kind then parsePortRange (Literal_String l)
              else (mkPortRange 0 0, false)
          | _ => (mkPortRange 0 0, false)
          end in
        if negb ok || negb (in_port_bounds r) then
          _ ← c_add (pointer path [PIndex i]) "invalid_port"
                ("a port is a number from 1 to 65535 or a range like " +:+ q "8000-8100");
          ret out
        else ret (out ++ [r]));
      ret (Some out)
  end.

(** The switch of parseRules over the members of one rule. *)
Definition rule_member (p : string) (m : member) (r : Rule) : W Rule :=
  let fp := pointer p [PName (m_name m)] in
  let named n := String.eqb (m_name m) n in
  if named "src" then
    l ← stringList fp (m_value m);
    ret (mkRule (default [] l) (Dst r) (Allow r) (Deny r) (Ports r) (Note r))
  else if named "dst" then
    l ← stringList fp (m_value m);
    ret (mkRule (Src r) (default [] l) (Allow r) (Deny r) (Ports r) (Note r))
  else if named "allow" then
    l ← stringList fp (m_value m);
    ret (mkRule (Src r) (Dst r) (default [] l) (Deny r) (Ports r) (Note r))
  else if named "deny" then
    l ← stringList fp (m_value m);
    ret (mkRule (Src r) (Dst r) (Allow r) l (Ports r) (Note r))
  else if named "ports" then
    l ← parsePorts fp (m_value m);
    ret (mkRule (Src r) (Dst r) (Allow r) (Deny r) l (Note r))
  else if named "note" then
    s ← str fp (m_value m);
    ret (mkRule (Src r) (Dst r) (Allow r) (Deny r) (Ports r) s.1)
  else
    _ ← c_add fp "unknown_field"
          ("unknown field " +:+ Quote (m_name m) +:+ "; allowed: src, dst, allow, deny, ports, note");
    ret r.

(** [have name] of the source: a member with that name was seen. *)
Definition have (ms : list member) (name : string) : bool := bool_decide (name ∈ m_name <$> ms).

Definition require (p what : string) (ms : list member) (keys : list string) : W () :=
  for_range 0 keys () (λ _ k _,
    if have ms k then ret () else c_add (pointer p [PName k]) "required" (what +:+ Quote k)).

Definition parseRule (p : string) (item : Value) : W Rule :=
  o ← object p item;
  match o with
  | None => ret zeroRule
  | Some o =>
      ms ← members p o;
      r ← for_range 0 ms zeroRule (λ _ m r, rule_member p m r);
      _ ← require p "a rule needs " ms ["src"; "dst"];
      _ ← (if Bool.eqb (have ms "allow") (have ms "deny")
           then c_add p "allow_or_deny"
                  ("a rule has exactly one of " +:+ q "allow" +:+ " and " +:+ q "deny")
           else ret ());
      ret r
  end.

Definition parseRules (path : string) (v : Value) : W (list Rule) :=
  items ← array path v;
  match items with
  | None => ret []
  | Some items =>
      for_range 0 items [] (λ i item out, r ← parseRule (pointer path [PIndex i]) item; ret (out ++ [r]))
  end.

Definition test_member (p : string) (m : member) (t : PolicyTest) : W PolicyTest :=
  let fp := pointer p [PName (m_name m)] in
  let named n := String.eqb (m_name m) n in
  if named "src" then s ← str fp (m_value m); ret (mkTest s.1 (t_Dst t) (t_Allow t) (t_Deny t))
  else if named "dst" then s ← str fp (m_value m); ret (mkTest (t_Src t) s.1 (t_Allow t) (t_Deny t))
  else if named "allow" then
    l ← stringList fp (m_value m); ret (mkTest (t_Src t) (t_Dst t) (default [] l) (t_Deny t))
  else if named "deny" then
    l ← stringList fp (m_value m); ret (mkTest (t_Src t) (t_Dst t) (t_Allow t) (default [] l))
  else
    _ ← c_add fp "unknown_field"
          ("unknown field " +:+ Quote (m_name m) +:+ "; allowed: src, dst, allow, deny");
    ret t.

Definition parseTest (p : string) (item : Value) : W PolicyTest :=
  o ← object p item;
  match o with
  | None => ret zeroTest
  | Some o =>
      ms ← members p o;
      t ← for_range 0 ms zeroTest (λ _ m t, test_member p m t);
      _ ← require p "a test needs " ms ["src"; "dst"];
      _ ← (if negb (have ms "allow") && negb (have ms "deny")
           then c_add p "required" ("a test needs " +:+ q "allow" +:+ " or " +:+ q "deny")
           else ret ());
      ret t
  end.

Definition parseTests (path : string) (v : Value) : W (list PolicyTest) :=
  items ← array path v;
  match items with
  | None => ret []
  | Some items =>
      for_range 0 items [] (λ i item out, t ← parseTest (pointer path [PIndex i]) item; ret (out ++ [t]))
  end.

(** The switch of Parse over the members of the file. *)
Definition document_member (m : member) (d : Document) : W Document :=
  let p := pointer "" [PName (m_name m)] in
  let named n := String.eqb (m_name m) n in
  if named "$schema" then
    s ← str p (m_value m);
    ret (mkDocument s.1 (d_AllowPrivateAccess d) (d_Groups d) (d_Tags d) (d_Rules d) (d_Tests d))
  else if named "allow_private_access" then
    b ← boolean p (m_value m);
    ret (if b.2 then mkDocument (d_Schema d) (Some b.1) (d_Groups d) (d_Tags d) (d_Rules d) (d_Tests d)
          else d)
  else if named "groups" then
    g ← stringListMap p (m_value m);
    ret (mkDocument (d_Schema d) (d_AllowPrivateAccess d) g (d_Tags d) (d_Rules d) (d_Tests d))
  else if named "tags" then
    t ← stringListMap p (m_value m);
    ret (mkDocument (d_Schema d) (d_AllowPrivateAccess d) (d_Groups d) t (d_Rules d) (d_Tests d))
  else if named "rules" then
    r ← parseRules p (m_value m);
    ret (mkDocument (d_Schema d) (d_AllowPrivateAccess d) (d_Groups d) (d_Tags d) r (d_Tests d))
  else if named "tests" then
    t ← parseTests p (m_value m);
    ret (mkDocument (d_Schema d) (d_AllowPrivateAccess d) (d_Groups d) (d_Tags d) (d_Rules d) t)
  else
    _ ← c_add p "unknown_field"
          ("unknown field " +:+ Quote (m_name m) +:+
           "; allowed: $schema, allow_private_access, groups, tags, rules, tests");
    ret d.

Definition parse_value (v : Value) : W Document :=
  o ← object "" v;
  match o with
  | None => ret emptyDocument
  | Some o =>
      ms ← members "" o;
      for_range 0 ms emptyDocument (λ _ m d, document_member m d)
  end.

Definition syntaxMessage (err : string) : string :=
  "the file is not valid JSON or HuJSON: " +:+ strings.TrimPrefix err "hujson: ".

Definition Parse (src : string) : Document * list Error :=
  match hujson_Parse src with
  | inl err => (emptyDocument, [mkError "" "syntax" (syntaxMessage err)])
  | inr v => let r := parse_value v in (val r, sorted (errs r))
  end.

(** ** What an accepted file looks like *)

Definition names (o : list (string * Value)) : list string := (λ m, Literal_String m.1) <$> o.

Definition document_keys := ["$schema"; "allow_private_access"; "groups"; "tags"; "rules"; "tests"].
Definition rule_keys := ["src"; "dst"; "allow"; "deny"; "ports"; "note"].

(** An object whose keys are known and distinct. *)
Definition strict_object (keys : list string) (v : Value) : Prop :=
  ∃ x o, v = VObject x o ∧ NoDup (names o) ∧ (∀ n, n ∈ names o → n ∈ keys).

Definition has_key (k : string) (v : Value) : Prop := ∃ x o, v = VObject x o ∧ k ∈ names o.

(** A rule of an accepted file: its ports are in range and it allows or denies, not both. *)
Definition ports_ok (ps : option (list PortRange)) : Prop := Forall port_ok (default [] ps).

Definition rule_ok (r : Rule) : Prop :=
  ports_ok (Ports r) ∧ (∀ d, Deny r = Some d → Allow r = []).

Lemma members_ok path o :
  errs (members path o) = [] →
  NoDup (names o) ∧ val (members path o) = (λ m, mkMember' (Literal_String m.1) m.2) <$> o.
Proof.
  intros He. unfold members in *.
  refine (for_range_inv _ (λ pre out, NoDup (names pre) ∧
     out = (λ m, mkMember' (Literal_String m.1) m.2) <$> pre) o [] [] _ _ He);
    [|split; [constructor|done]].
  intros pre m out [Hnd ->] Hb. simpl in *. case_decide as Hin; [done|].
  unfold names. rewrite !fmap_app. split; [|done].
  rewrite <-list_fmap_compose in Hin. apply NoDup_app. split_and!; [done| |apply NoDup_singleton].
  intros n Hn Hs. apply list_elem_of_singleton in Hs as ->. by apply Hin.
Qed.

Lemma members_names o :
  m_name <$> ((λ m : string * Value, mkMember' (Literal_String m.1) m.2) <$> o) = names o.
Proof. unfold names. by rewrite <-list_fmap_compose. Qed.

Lemma parsePorts_ok path v : ports_ok (val (parsePorts path v)).
Proof.
  unfold parsePorts. rewrite W_bind_val. destruct (val (array path v)) as [items|]; [|constructor].
  rewrite W_bind_val. unfold ports_ok; simpl. apply for_range_val; [|constructor].
  intros i item out Hout.
  match goal with |- context [let '(r, ok) := ?e in _] => destruct e as [r ok] end.
  destruct (negb ok || negb (in_port_bounds r)) eqn:E; simpl; [done|].
  apply Forall_app. split; [done|]. repeat constructor; to_prop; by apply in_port_bounds_ok.
Qed.

Lemma rule_member_ports p m r : ports_ok (Ports r) → ports_ok (Ports (val (rule_member p m r))).
Proof.
  intros. unfold rule_member.
  repeat case_match; rewrite W_bind_val; simpl; try done. apply parsePorts_ok.
Qed.

Lemma rule_member_other p m r k :
  m_name m ≠ k →
  (k = "allow" → Allow (val (rule_member p m r)) = Allow r) ∧
  (k = "deny" → Deny (val (rule_member p m r)) = Deny r).
Proof.
  intros Hne. unfold rule_member.
  repeat case_match; to_prop; rewrite W_bind_val; simpl; split; intros; congruence.
Qed.

Lemma rule_member_key p m r : errs (rule_member p m r) = [] → m_name m ∈ rule_keys.
Proof.
  unfold rule_member, rule_keys. rewrite !elem_of_cons.
  repeat case_match; to_prop; [tauto..|]. by rewrite W_bind_errs.
Qed.

Lemma require_ok p what ms keys : errs (require p what ms keys) = [] → ∀ k, k ∈ keys → k ∈ m_name <$> ms.
Proof.
  intros He k Hk. apply list_elem_of_lookup in Hk as [j Hj].
  destruct (for_range_ok _ _ _ _ He j k Hj) as (u & Hb). unfold have in Hb.
  case_bool_decide; [done|]. done.
Qed.

(** Without an allow (deny) member the rule has no allow (deny) list. *)
Lemma rule_members_inv p ms :
  errs (for_range 0 ms zeroRule (λ _ m r, rule_member p m r)) = [] →
  let r := val (for_range 0 ms zeroRule (λ _ m r, rule_member p m r)) in
  ("allow" ∉ m_name <$> ms → Allow r = []) ∧ ("deny" ∉ m_name <$> ms → Deny r = None).
Proof.
  intros He.
  refine (for_range_inv (λ _ m r, rule_member p m r) (λ pre r,
    ("allow" ∉ m_name <$> pre → Allow r = []) ∧ ("deny" ∉ m_name <$> pre → Deny r = None))
    ms [] zeroRule _ _ He); [|done].
  intros pre m r [Ha Hd] _. rewrite !fmap_app, !not_elem_of_app; simpl.
  rewrite !list_elem_of_singleton. split; intros [Hn Hne].
  - rewrite (proj1 (rule_member_other p m r "allow" ltac:(done))) by done. auto.
  - rewrite (proj2 (rule_member_other p m r "deny" ltac:(done))) by done. auto.
Qed.

(** A rule of an accepted file, as written: known and distinct keys, a src, a dst and
    exactly one of allow and deny. *)
Definition accepted_rule (item : Value) : Prop :=
  strict_object rule_keys item ∧ has_key "src" item ∧ has_key "dst" item ∧
  (has_key "allow" item ↔ ¬ has_key "deny" item).

(** The result of a rule without errors. *)
Lemma parseRule_ok p item :
  errs (parseRule p item) = [] →
  accepted_rule item ∧ rule_ok (val (parseRule p item)).
Proof.
  unfold parseRule, accepted_rule. destruct item as [x l|x o|x es]; [done| |done].
  change (object p (VObject x o)) with (ret (Some o)).
  intros He. apply W_bind_ok in He as [_ He]. cbn [val ret fst] in He.
  rewrite !W_bind_ok in He. destruct He as (Hm & Hr & Hreq & Hex & _).
  destruct (members_ok p o Hm) as [Hnd Hval].
  assert (Hk : ∀ k, has_key k (VObject x o) ↔ k ∈ names o).
  { intros k. split; [|by exists x, o]. intros (? & ? & ? & ?). by simplify_eq. }
  rewrite Hval in Hr, Hreq, Hex. unfold have in Hex. rewrite members_names in Hex.
  pose proof (require_ok _ _ _ _ Hreq) as Hreq'. rewrite members_names in Hreq'.
  assert (Hxor : "allow" ∈ names o ↔ "deny" ∉ names o).
  { destruct (Bool.eqb _ _) eqn:E in Hex; [done|]. apply eqb_false_iff in E.
    destruct (decide ("allow" ∈ names o)), (decide ("deny" ∈ names o));
      rewrite ?bool_decide_true, ?bool_decide_false in E by done; intuition congruence. }
  rewrite !Hk. split_and!; [|by apply Hreq'; left|by apply Hreq'; right; left|done|].
  - exists x, o. split_and!; [done|done|]. intros n Hn.
    apply list_elem_of_fmap in Hn as (m & -> & Hmo). apply list_elem_of_lookup in Hmo as [j Hj].
    destruct (for_range_ok _ _ _ _ Hr j (mkMember' (Literal_String m.1) m.2)) as [r Hrm].
    { by rewrite list_lookup_fmap, Hj. }
    by apply rule_member_key in Hrm.
  - rewrite W_bind_val. cbn [val ret fst]. rewrite !W_bind_val, Hval. cbn [val ret fst]. split.
    + apply for_range_val; [|constructor]. intros. by apply rule_member_ports.
    + destruct (rule_members_inv p _ Hr) as [Ha Hd]. rewrite members_names in Ha, Hd.
      intros d Hdeny. apply Ha. intros Hin. apply Hxor in Hin. rewrite Hd in Hdeny by done. done.
Qed.

Definition accepted_rules (v : Value) : Prop := ∃ x items, v = VArray x items ∧ Forall accepted_rule items.

Lemma parseRules_ok path v :
  errs (parseRules path v) = [] → accepted_rules v ∧ Forall rule_ok (val (parseRules path v)).
Proof.
  unfold parseRules. destruct v as [x l|x o|x items]; [done|done|].
  intros He. apply W_bind_ok in He as [_ He]. cbn [val ret fst array] in He.
  rewrite W_bind_val. cbn [val ret fst array].
  destruct (for_range_inv (λ i item out, bind (parseRule (pointer path [PIndex i]) item)
              (λ r, ret (out ++ [r])))
            (λ pre out, Forall accepted_rule pre ∧ Forall rule_ok out) items [] [] ) as [Ha Hr];
    [|split; constructor|done|split; [by exists x, items|done]].
  intros pre item out [Hp Ho] Hb. apply W_bind_ok in Hb as [Hb _].
  apply parseRule_ok in Hb as [Hacc Hok]. rewrite W_bind_val. cbn [val ret fst].
  split; (apply Forall_app; split; [done|by apply Forall_singleton]).
Qed.

Lemma document_member_ok m d :
  errs (document_member m d) = [] → Forall rule_ok (d_Rules d) →
  Forall rule_ok (d_Rules (val (document_member m d))) ∧
  m_name m ∈ document_keys ∧ (m_name m = "rules" → accepted_rules (m_value m)).
Proof.
  unfold document_member, document_keys. intros He Hd. rewrite !elem_of_cons.
  repeat case_match; to_prop; apply W_bind_ok in He as [He He'];
    rewrite W_bind_val; cbn [val ret fst d_Rules]; try (split_and!; [done|tauto|congruence]).
  - case_match; split_and!; [done|tauto|congruence|done|tauto|congruence].
  - apply parseRules_ok in He as [? ?]. split_and!; [done|tauto|done].
  - done.
Qed.

Lemma parse_value_ok v :
  errs (parse_value v) = [] →
  strict_object document_keys v ∧ Forall rule_ok (d_Rules (val (parse_value v))) ∧
  ∀ x o k rv, v = VObject x o → (k, rv) ∈ o → Literal_String k = "rules" → accepted_rules rv.
Proof.
  unfold parse_value. destruct v as [x l|x o|x es]; [done| |done]. intros He.
  apply W_bind_ok in He as [_ He]. cbn [val ret fst object] in He.
  rewrite W_bind_ok in He. destruct He as [Hm Hd].
  rewrite W_bind_val. cbn [val ret fst object]. rewrite W_bind_val.
  destruct (members_ok "" o Hm) as [Hnd Hval]. rewrite Hval in Hd |- *.
  set (ms := (λ m, mkMember' (Literal_String m.1) m.2) <$> o) in *.
  destruct (for_range_inv (λ _ m d, document_member m d) (λ pre d,
     Forall rule_ok (d_Rules d) ∧ Forall (λ m, m_name m ∈ document_keys ∧
       (m_name m = "rules" → accepted_rules (m_value m))) pre) ms [] emptyDocument) as [Hr Hall];
    [|split; constructor|done|].
  { intros pre m d [Hd' Hp] Hb. destruct (document_member_ok m d Hb Hd') as (? & ? & ?).
    split; [done|]. apply Forall_app. split; [done|by apply Forall_singleton]. }
  unfold ms in Hall. rewrite app_nil_l, Forall_fmap, Forall_forall in Hall. split_and!; [|done|].
  - exists x, o. split_and!; [done|done|]. intros n Hn.
    apply list_elem_of_fmap in Hn as (m & -> & Hin). by apply (Hall m).
  - intros x' o' k rv Heq Hin Hk. simplify_eq. by apply (Hall (k, rv)).
Qed.

(** C40: Parse is strict: when it reports no error, the file is an object with known and
    distinct keys, every entry of rules is an object with known and distinct keys that has
    src, dst and exactly one of allow and deny, and every parsed rule has only ports from 1
    to 65535 and never both an allow and a deny list. *)
Theorem parse_strict (src : string) (d : Document) (Hp : Parse src = (d, [])) :
  ∃ v, hujson_Parse src = inr v ∧ strict_object document_keys v ∧
    (∀ x o k rv, v = VObject x o → (k, rv) ∈ o → Literal_String k = "rules" → accepted_rules rv) ∧
    Forall rule_ok (d_Rules d).
Proof.
  unfold Parse in Hp. destruct (hujson_Parse src) as [err|v]; [done|]. exists v.
  injection Hp as Hd He. rewrite sorted_nil_iff in He.
  destruct (parse_value_ok v He) as (? & ? & ?). by subst d.
Qed.

Lemma parse_rules_ok src d : Parse src = (d, []) → Forall rule_ok (d_Rules d).
Proof.
  unfold Parse. destruct (hujson_Parse src) as [err|v]; [done|].
  intros Hp. injection Hp as Hd He. rewrite sorted_nil_iff in He.
  destruct (parse_value_ok v He) as (? & ? & ?). by subst d.
Qed.

End parse.

(** ** A concrete file *)

(** Literals without escapes: a string is its text between quotes. *)
Definition simple_kind (l : string) : ascii :=
  match l with
  | String c _ => match strconv.digit c with Some _ => "0"%char | None => c end
  | EmptyString => "n"%char
  end.

Definition unquoted (l : string) : string := String.substring 1 (String.length l - 2) l.

Definition simple_string (l : string) : string :=
  if Ascii.eqb (simple_kind l) (Ascii.ascii_of_nat 34) then unquoted l else l.

Definition simple_hujson (v : Value) : HuJSON := {|
  hujson_Parse := λ _, inr v;
  Literal_Kind := simple_kind;
  Literal_String := simple_string;
  Literal_Bool := String.eqb "true";
|}.

Definition noExtra : Extra := mkExtra "" "".
Definition vstr (s : string) : Value := VLiteral noExtra (q s).
Definition vlist (l : list string) : Value := VArray noExtra (vstr <$> l).
Definition vobj (ms : list (string * Value)) : Value :=
  VObject noExtra ((λ m, (q m.1, m.2)) <$> ms).

Definition sample_file : Value :=
  vobj [("rules", VArray noExtra [
    vobj [("src", vlist ["*"]); ("dst", vlist ["machine:db1"]); ("allow", vlist ["private_access"]);
          ("ports", VArray noExtra [VLiteral noExtra "5432"; vstr "8000-8100"])]])].

Definition sample_document : Document :=
  mkDocument "" None ∅ ∅
    [mkRule ["*"] ["machine:db1"] ["private_access"] None
       (Some [mkPortRange 5432 5432; mkPortRange 8000 8100]) ""] [].

Lemma parse_strict_witness :
  Parse (H := eval_runtime) (H0 := simple_hujson sample_file) "" = (sample_document, []) ∧
  Forall rule_ok (d_Rules sample_document).
Proof.
  assert (Hp : Parse (H := eval_runtime) (H0 := simple_hujson sample_file) "" = (sample_document, []))
    by (vm_compute; reflexivity).
  split; [exact Hp|].
  destruct (parse_strict (H := eval_runtime) (H0 := simple_hujson sample_file) "" sample_document Hp)
    as (v & _ & _ & _ & Hr). exact Hr.
Defined.
