(* ===== verification/Rules.v ===== *)
(** * Checking and expanding rules: shared/policy/rules.go, and the grant builder and
    name resolution of compile.go *)
From S2P Require Import Prelude GoStd Ports Inventory PolicyDoc.
#[local] Open Scope collector_scope.

(** ** Grants *)

Record Grant := mkGrant {
  g_Account : string;
  g_Target : Target;
  g_Action : string;
  g_Ports : list PortRange;
  g_Rules : list nat;
}.

#[export] Instance Grant_eq_dec : EqDecision Grant.
Proof. solve_decision. Defined.

(** grantKey: account, target and action. *)
Abbreviation grantKey := (string * Target * string)%type.

Definition key_of (g : Grant) : grantKey := (g_Account g, g_Target g, g_Action g).

(** The builder is the map of grants by key. *)
Abbreviation builder := (gmap grantKey Grant).

Definition is_private (action : string) : bool := String.eqb action ActionPrivateAccess.

(** builder.add *)
Definition b_add (b : builder) (account : string) (t : Target) (action : string)
    (ports : list PortRange) (rule : nat) : builder :=
  let k := (account, t, action) in
  let g := default (mkGrant account t action [] []) (b !! k) in
  let rules := if decide (rule ∈ g_Rules g) then g_Rules g
               else sort_by Nat.ltb (g_Rules g ++ [rule]) in
  let ps := if is_private action then mergePorts (g_Ports g ++ ports) else g_Ports g in
  <[k := mkGrant (g_Account g) (g_Target g) (g_Action g) ps rules]> b.

(** grantLess *)
Definition grant_key (g : Grant) : list string :=
  [g_Account g; tg_Kind (g_Target g); tg_ID (g_Target g); g_Action g].

Definition grantLess (a b : Grant) : bool := strs_ltb (grant_key a) (grant_key b).

Section rules.
Context `{GoRuntime}.

(** builder.list *)
Definition b_list (b : builder) : list Grant := sort_by grantLess (snd <$> range 1 b).

(** ** Names *)

Definition machineError (path : string) (x : index) (name : string) : W string :=
  let '(_, code) := machine x name in
  if String.eqb code "unknown_machine" then
    _ ← c_add path code ("machine " +:+ Quote name +:+ " is not in this workspace"); ret code
  else if String.eqb code "ambiguous_machine" then
    _ ← c_add path code ("two machines are called " +:+ Quote name +:+
          "; write machine:<owner email>/" +:+ name); ret code
  else ret code.

Definition resolveUser (path : string) (x : index) (e what : string) : W (string * bool) :=
  if negb (strings.HasPrefix e "user:") then
    _ ← c_add path "invalid_subject" (what +:+ ", not " +:+ Quote e); ret ("", false)
  else
    let '(a, ok) := user x e in
    if ok then ret (a, true)
    else _ ← c_add path "unknown_user"
               (Quote (strings.TrimPrefix e "user:") +:+ " is not a member of this workspace");
         ret (a, false).

(** ** Roles *)

Definition Roles : list string := ["owner"; "admin"; "billing"; "auditor"; "member"].

Definition RoleMatches (name role : string) : bool :=
  String.eqb name "member" || String.eqb name role
  || (String.eqb name "admin" && String.eqb role "owner").

(** ** Subjects *)

(** The case analysis of ruleSubjects for one entry: the accounts it adds. *)
Definition subject_entry (x : index) (groups : gmap string (list string)) (ep e : string) :
    W (list string) :=
  let '(kind, name, _) := strings.Cut e ":" in
  if String.eqb e "*" then ret (AccountID <$> Members (ix_inv x))
  else if String.eqb kind "user" then
    r ← resolveUser ep x e "";
    ret (if r.2 then [r.1] else [])
  else if String.eqb kind "group" then
    match groups !! e with
    | Some members => ret members
    | None => _ ← c_add ep "unknown_group" ("group " +:+ Quote e +:+ " is not defined in " +:+ dquote +:+ "groups" +:+ dquote);
              ret []
    end
  else if String.eqb kind "role" then
    if negb (bool_decide (name ∈ Roles)) then
      _ ← c_add ep "unknown_role" "roles are role:owner, role:admin (owners and admins), role:billing, role:auditor and role:member (everyone)";
      ret []
    else ret (AccountID <$> List.filter (λ m, RoleMatches name (Role m)) (Members (ix_inv x)))
  else
    _ ← c_add ep "invalid_subject"
          (Quote e +:+ " is not a subject; use user:<email>, group:<name>, role:<owner|admin|billing|auditor|member> or *");
    ret [].

Definition ruleSubjects (x : index) (groups : gmap string (list string)) (p : string)
    (src : list string) : W (list string) :=
  for_range 0 src [] (λ i e out,
    l ← subject_entry x groups (pointer p [PIndex i]) e; ret (add_all out l)).

(** ** Targets *)

(** The case analysis of ruleTargets for one entry: its family and the targets it
    adds; [None] is the continue of the default case. *)
Definition target_entry (x : index) (tags : gmap string (list string)) (ep e : string) :
    W (option (string * list Target)) :=
  let '(kind, name, _) := strings.Cut e ":" in
  if String.eqb kind "machine" then
    if String.eqb name "*" then
      ret (Some ("machine", (λ m, mkTarget "machine" (mc_ID m)) <$> Machines (ix_inv x)))
    else
      code ← machineError ep x name;
      ret (Some ("machine", if String.eqb code "" then [mkTarget "machine" (mc_ID (machine x name).1)] else []))
  else if String.eqb kind "tag" then
    match tags !! e with
    | Some ids => ret (Some ("machine", mkTarget "machine" <$> ids))
    | None => _ ← c_add ep "unknown_tag" ("tag " +:+ Quote e +:+ " is not defined in " +:+ dquote +:+ "tags" +:+ dquote);
              ret (Some ("machine", []))
    end
  else if String.eqb kind "preview" || String.eqb kind "tunnel" then
    match resources x !! e with
    | Some r => ret (Some ("resource", [mkTarget kind (rs_ID r)]))
    | None => _ ← c_add ep ("unknown_" +:+ kind) (kind +:+ " " +:+ Quote name +:+ " is not in this workspace");
              ret (Some ("resource", []))
    end
  else if String.eqb kind "env" then
    if negb (Team (ix_inv x)) then
      _ ← c_add ep "team_only" "env:team exists only in a team workspace"; ret (Some ("env", []))
    else if negb (String.eqb name "team") then
      _ ← c_add ep "unknown_env_scope" "the ENV target is env:team"; ret (Some ("env", []))
    else ret (Some ("env", [mkTarget "env" (TeamID (ix_inv x))]))
  else
    _ ← c_add ep "invalid_target"
          (Quote e +:+ " is not a target; use machine:<alias>, machine:*, tag:<name>, preview:<name>, tunnel:<name> or env:team");
    ret None.

Definition ruleTargets (x : index) (tags : gmap string (list string)) (p : string)
    (dst : list string) : W (string * list Target) :=
  for_range 0 dst ("", []) (λ i e acc,
    let ep := pointer p [PIndex i] in
    r ← target_entry x tags ep e;
    match r with
    | None => ret acc
    | Some (f, ts) =>
        let out := add_all acc.2 ts in
        if String.eqb acc.1 "" then ret (f, out)
        else if negb (String.eqb f acc.1) then
          _ ← c_add ep "mixed_targets" "one rule's dst must be all machines/tags, all previews/tunnels, or env:team; split it into two rules";
          ret (acc.1, out)
        else ret (acc.1, out)
    end).

(** ** Actions *)

Definition family_actions (family : string) : list string :=
  if String.eqb family "machine" then MachineActions
  else if String.eqb family "resource" then ResourceActions
  else if String.eqb family "env" then ENVActions
  else [].

Definition action_entry (family ep a : string) : W (list string) :=
  let valid := family_actions family in
  if String.eqb a "*" && String.eqb family "machine" then ret MachineActions
  else if bool_decide (a ∈ valid) then ret [a]
  else if String.eqb family "" then ret []
  else if bool_decide (a ∈ MachineActions) || bool_decide (a ∈ ENVActions) || String.eqb a "*" then
    _ ← c_add ep "action_not_for_target"
          (Quote a +:+ " does not apply to these targets; they allow: " +:+ strings.Join valid ", ");
    ret []
  else
    _ ← c_add ep "unknown_action"
          ("unknown action " +:+ Quote a +:+ "; actions are " +:+ strings.Join MachineActions ", "
           +:+ ", " +:+ strings.Join ENVActions ", ");
    ret [].

Definition ruleActions (family p : string) (allow : list string) : W (list string) :=
  out ← for_range 0 allow [] (λ i a out,
    l ← action_entry family (pointer p [PIndex i]) a; ret (out ++ l));
  ret (compact (sort_by str_ltb out)).

(** ** Ports *)

Definition rulePorts (p : string) (actions : list string) (ports : option (list PortRange))
    (deny : bool) : W (list PortRange) :=
  match ports with
  | None => ret (if deny then allPorts else [DefaultPrivatePorts])
  | Some ports =>
      _ ← (if decide (actions = [ActionPrivateAccess]) then ret ()
           else c_add (pointer p [PName "ports"]) "ports_need_private_access"
                  ("ports apply only when the actions are exactly [" +:+ dquote +:+ "private_access" +:+ dquote +:+ "]"));
      _ ← (match ports with
           | [] => c_add (pointer p [PName "ports"]) "empty"
                     (dquote +:+ "ports" +:+ dquote +:+ " must list at least one port; leave it out for the default")
           | _ => ret ()
           end);
      ret (mergePorts ports)
  end.

(** ** One rule *)

(** The nested loops that add the grants of a rule (or of a scope entry). *)
Definition add_grants (b : builder) (accounts : list string) (targets : list Target)
    (actions : list string) (ports : list PortRange) (idx : nat) : builder :=
  foldl (λ b a, foldl (λ b t, foldl (λ b action, b_add b a t action ports idx) b actions) b targets)
    b accounts.

Definition check_empty (p name : string) (l : list string) : W () :=
  match l with
  | [] => c_add (pointer p [PName name]) "empty" (Quote name +:+ " must list at least one entry")
  | _ => ret ()
  end.

(** What compileRule computes before it adds grants: accounts, targets, actions and ports. *)
Definition rule_parts (x : index) (groups tags : gmap string (list string)) (p : string) (r : Rule) :
    W (list string * list Target * list string * list PortRange) :=
  let '(acts, denies) := Actions r in
  let field := if denies then "deny" else "allow" in
  _ ← check_empty p "src" (Src r);
  _ ← check_empty p "dst" (Dst r);
  _ ← check_empty p field acts;
  accounts ← ruleSubjects x groups (pointer p [PName "src"]) (Src r);
  ft ← ruleTargets x tags (pointer p [PName "dst"]) (Dst r);
  actions ← ruleActions ft.1 (pointer p [PName field]) acts;
  ports ← rulePorts p actions (Ports r) denies;
  ret (accounts, ft.2, actions, ports).

(** compileRule: the builders of allow and deny rules, updated when the rule is
    valid. *)
Definition compileRule (x : index) (groups tags : gmap string (list string)) (p : string)
    (idx : nat) (r : Rule) (ad : builder * builder) : W (builder * builder) :=
  let '(parts, es) := rule_parts x groups tags p r in
  match es with
  | _ :: _ => (ad, es)
  | [] =>
      let '(accounts, targets, actions, ports) := parts in
      let '(allow, deny) := ad in
      if (Actions r).2 then (allow, add_grants deny accounts targets actions ports idx, [])
      else (add_grants allow accounts targets actions ports idx, deny, [])
  end.

End rules.

(** ** What a builder holds

    A contribution is one call of [b_add].  A builder represents the
    contributions made to it: a grant per key, its rules in ascending order, and for
    private_access the union of the ports in normal form. *)
Abbreviation contrib := (grantKey * list PortRange * nat)%type.

Definition b_add_contrib (b : builder) (c : contrib) : builder :=
  let '(a, t, act, ps, i) := c in b_add b a t act ps i.

Definition contribs (accounts : list string) (targets : list Target) (actions : list string)
    (ps : list PortRange) (i : nat) : list contrib :=
  accounts ≫= λ a, targets ≫= λ t, (λ act, (a, t, act, ps, i)) <$> actions.

Lemma add_grants_contribs b accounts targets actions ps i :
  add_grants b accounts targets actions ps i =
  foldl b_add_contrib b (contribs accounts targets actions ps i).
Proof.
  unfold add_grants, contribs. rewrite foldl_bind. apply foldl_ext. intros b' a.
  rewrite foldl_bind. apply foldl_ext. intros b'' t. by rewrite foldl_map.
Qed.

Lemma elem_of_contribs accounts targets actions ps i k ps' j :
  (k, ps', j) ∈ contribs accounts targets actions ps i ↔
  k.1.1 ∈ accounts ∧ k.1.2 ∈ targets ∧ k.2 ∈ actions ∧ ps' = ps ∧ j = i.
Proof.
  unfold contribs. destruct k as [[a t] act]; simpl. rewrite list_elem_of_bind. split.
  - intros (a' & Ha & Hain). apply list_elem_of_bind in Ha as (t' & Ht & Htin).
    apply list_elem_of_fmap in Ht as (act' & Heq & Hact). by simplify_eq.
  - intros (Ha & Ht & Hact & -> & ->). exists a. split; [|done].
    apply list_elem_of_bind. exists t. split; [|done]. apply list_elem_of_fmap. eauto.
Qed.

Record grant_represents (cs : list contrib) (k : grantKey) (g : Grant) : Prop := {
  gr_key : key_of g = k;
  gr_some : ∃ ps i, (k, ps, i) ∈ cs;
  gr_sorted : StronglySorted lt (g_Rules g);
  gr_rules : ∀ i, i ∈ g_Rules g ↔ ∃ ps, (k, ps, i) ∈ cs;
  gr_ports : if is_private k.2
             then normalized (g_Ports g) ∧
                  ∀ p, covers (g_Ports g) p ↔ ∃ ps i, (k, ps, i) ∈ cs ∧ covers ps p
             else g_Ports g = [];
}.

Definition represents (b : builder) (cs : list contrib) : Prop :=
  ∀ k, match b !! k with
       | None => ∀ ps i, (k, ps, i) ∉ cs
       | Some g => grant_represents cs k g
       end.

Definition contribs_ok (cs : list contrib) : Prop := Forall (λ c, Forall port_ok c.1.2) cs.

Lemma represents_empty : represents ∅ [].
Proof. intros k. rewrite lookup_empty. intros ps i. apply not_elem_of_nil. Qed.

Lemma grant_represents_other cs k k' ps i g :
  k ≠ k' → grant_represents cs k g → grant_represents (cs ++ [(k', ps, i)]) k g.
Proof.
  intros Hne [Hkey (ps0 & i0 & Hin) Hs Hr Hp].
  assert (Heq : ∀ ps' j, (k, ps', j) ∈ cs ++ [(k', ps, i)] ↔ (k, ps', j) ∈ cs).
  { intros ps' j. rewrite elem_of_app, list_elem_of_singleton. split; [|auto].
    intros [?|?]; [done|congruence]. }
  split; [done| |done| |].
  - exists ps0, i0. by apply Heq.
  - intros j. rewrite Hr. by setoid_rewrite Heq.
  - destruct (is_private k.2); [|done]. split; [apply Hp|]. intros p. rewrite (proj2 Hp p).
    by setoid_rewrite Heq.
Qed.

(** The rules of a grant after one more contribution. *)
Lemma add_rule_spec (l : list nat) i :
  StronglySorted lt l →
  let l' := if decide (i ∈ l) then l else sort_by Nat.ltb (l ++ [i]) in
  StronglySorted lt l' ∧ ∀ j, j ∈ l' ↔ j ∈ l ∨ j = i.
Proof.
  intros Hs l'. unfold l'. case_decide as Hin.
  - split; [done|]. intros j. split; [auto|]. by intros [?| ->].
  - split.
    + apply sort_nat_strict, NoDup_app. split_and!; [by apply StronglySorted_NoDup| |apply NoDup_singleton].
      intros j Hj Hj'. apply list_elem_of_singleton in Hj' as ->. done.
    + intros j. by rewrite elem_of_sort_by, elem_of_app, list_elem_of_singleton.
Qed.

(** The ports of a grant after one more contribution. *)
Lemma add_ports_spec (old ps : list PortRange) :
  normalized old → Forall port_ok ps →
  normalized (mergePorts (old ++ ps)) ∧
  ∀ p, covers (mergePorts (old ++ ps)) p ↔ covers old p ∨ covers ps p.
Proof.
  intros Ho Hp. assert (Forall port_ok (old ++ ps)) by (apply Forall_app; auto with pb).
  split; [auto with pb|]. intros p. by rewrite mergePorts_covers, covers_app.
Qed.

Lemma represents_add b cs k ps i :
  represents b cs → Forall port_ok ps →
  represents (b_add_contrib b (k, ps, i)) (cs ++ [(k, ps, i)]).
Proof.
  intros Hb Hps k'. destruct k as [[a t] act]. unfold b_add_contrib, b_add.
  destruct (decide ((a, t, act) = k')) as [<-|Hne].
  2:{ rewrite lookup_insert_ne by done. specialize (Hb k'). destruct (b !! k') as [g|].
      - by apply grant_represents_other.
      - intros ps' j. rewrite elem_of_app, list_elem_of_singleton. intros [Hin|?]; [|congruence].
        by apply (Hb ps' j). }
  rewrite lookup_insert_eq. specialize (Hb (a, t, act)).
  destruct (b !! (a, t, act)) as [g|]; simpl.
  - destruct Hb as [Hkey Hex Hs Hr Hp].
    destruct (add_rule_spec (g_Rules g) i Hs) as [Hs' Hr'].
    split; simpl; [done| |done| |].
    + exists ps, i. apply elem_of_app. right. left.
    + intros j. rewrite Hr', Hr. setoid_rewrite elem_of_app. setoid_rewrite list_elem_of_singleton.
      split; [intros [(ps' & ?)| ->]; eauto|]. intros (ps' & [?|?]); [eauto|]. right. congruence.
    + simpl in Hp. destruct (is_private act); [|done]. destruct Hp as [Hn Hc].
      destruct (add_ports_spec (g_Ports g) ps Hn Hps) as [Hn' Hc']. split; [done|].
      intros p. rewrite Hc', Hc. setoid_rewrite elem_of_app. setoid_rewrite list_elem_of_singleton.
      split; [intros [(ps' & j & ? & ?)|?]; eauto 6|].
      intros (ps' & j & [?|?] & ?); [left; eauto|right]. by simplify_eq.
  - assert (Hone : ∀ ps' j, ((a, t, act), ps', j) ∈ cs ++ [((a, t, act), ps, i)] ↔ ps' = ps ∧ j = i).
    { intros ps' j. rewrite elem_of_app, list_elem_of_singleton. split.
      - intros [Hin|?]; [by destruct (Hb ps' j)|]. by simplify_eq.
      - intros [-> ->]. by right. }
    split; simpl.
    + done.
    + exists ps, i. by apply Hone.
    + repeat constructor.
    + intros j. setoid_rewrite Hone. rewrite list_elem_of_singleton. naive_solver.
    + destruct (is_private act); [|done]. destruct (add_ports_spec [] ps) as [Hn Hc]; [auto with pb|done|].
      split; [done|]. intros p. rewrite Hc, covers_nil. setoid_rewrite Hone. naive_solver.
Qed.

Lemma represents_adds b cs cs' :
  represents b cs → contribs_ok cs' → represents (foldl b_add_contrib b cs') (cs ++ cs').
Proof.
  revert b cs; induction cs' as [|c cs' IH]; intros b cs Hb Hok; simpl; [by rewrite app_nil_r|].
  apply Forall_cons in Hok as [Hc Hok]. destruct c as [[k ps] i].
  rewrite cons_middle, app_assoc. apply IH; [|done]. by apply represents_add.
Qed.

Lemma represents_add_grants b cs accounts targets actions ps i :
  represents b cs → Forall port_ok ps →
  represents (add_grants b accounts targets actions ps i)
    (cs ++ contribs accounts targets actions ps i).
Proof.
  intros Hb Hps. rewrite add_grants_contribs. apply represents_adds; [done|].
  apply Forall_forall. intros [[k ps'] j] Hin. apply elem_of_contribs in Hin. simpl.
  by destruct Hin as (_ & _ & _ & -> & _).
Qed.

(** ** The sorted list of grants *)

Lemma grant_key_inj (a b : Grant) : grant_key a = grant_key b ↔ key_of a = key_of b.
Proof.
  destruct a as [a1 [k1 i1] c1 p1 r1], b as [a2 [k2 i2] c2 p2 r2].
  unfold grant_key, key_of; simpl. split; intros; congruence.
Qed.

#[export] Instance grantLess_swo : StrictWeakOrder grantLess.
Proof. apply (key_less_swo grant_key). Qed.

(** Every list of grants of a compiled policy is strictly ascending in the key: at
    most one entry per account, target and action. *)
Definition grants_sorted (gs : list Grant) : Prop :=
  StronglySorted (λ a b, grantLess a b = true) gs.

Lemma grantLess_total a b : key_of a ≠ key_of b → grantLess b a = false → grantLess a b = true.
Proof.
  intros Hne Hlt. unfold grantLess in *.
  destruct (strs_ltb_trichotomy (grant_key a) (grant_key b)) as [?|[Heq|?]]; [done| |congruence].
  by apply grant_key_inj in Heq.
Qed.

Section builder_list.
Context `{GoRuntime}.

Lemma elem_of_b_list b g : g ∈ b_list b ↔ ∃ k, b !! k = Some g.
Proof.
  unfold b_list. rewrite elem_of_sort_by, list_elem_of_fmap. split.
  - intros ([k g'] & -> & Hin). apply elem_of_range in Hin. eauto.
  - intros (k & Hk). exists (k, g). split; [done|]. by apply elem_of_range.
Qed.

Definition keyed (b : builder) : Prop := ∀ k g, b !! k = Some g → key_of g = k.

Lemma represents_keyed b cs : represents b cs → keyed b.
Proof. intros Hb k g Hk. specialize (Hb k). rewrite Hk in Hb. apply Hb. Qed.

Lemma keyed_range_keys b site : keyed b → NoDup (key_of <$> (snd <$> range site b)).
Proof.
  intros Hk. rewrite range_perm.
  assert (Heq : key_of <$> (snd <$> map_to_list b) = fst <$> map_to_list b).
  { rewrite <-list_fmap_compose. apply list_fmap_ext. intros j [k g] Hj. simpl.
    apply Hk, elem_of_map_to_list. by eapply list_elem_of_lookup_2. }
  rewrite Heq. apply NoDup_fst_map_to_list.
Qed.

Lemma b_list_sorted b : keyed b → grants_sorted (b_list b).
Proof.
  intros Hk. pose proof (sort_by_sorted grantLess (snd <$> range 1 b)) as Hs.
  pose proof (keyed_range_keys b 1 Hk) as Hnd.
  rewrite <-(sort_by_perm grantLess (snd <$> range 1 b)) in Hnd.
  unfold b_list, grants_sorted. induction Hs as [|g l Hs IH Hg]; [constructor|].
  simpl in Hnd. apply NoDup_cons in Hnd as [Hn Hnd]. constructor; [auto|].
  apply Forall_forall. intros g' Hg'. rewrite Forall_forall in Hg.
  apply grantLess_total; [|by apply Hg].
  intros Heq. apply Hn. rewrite Heq. by apply list_elem_of_fmap_2.
Qed.

(** The list does not depend on the iteration order of the map. *)
Lemma b_list_order b site : keyed b → b_list b = sort_by grantLess (snd <$> range site b).
Proof.
  intros Hk. apply (sort_by_unique grantLess); [|by rewrite !range_perm].
  unfold not_after. intros g g' Hg Hg' H1 H2.
  pose proof (strs_ltb_antisym _ _ H1 H2) as Heq. apply grant_key_inj in Heq.
  apply list_elem_of_fmap in Hg as ([k1 ?] & -> & Hg), Hg' as ([k2 ?] & -> & Hg'). simpl in *.
  apply elem_of_range in Hg, Hg'. pose proof (Hk _ _ Hg). pose proof (Hk _ _ Hg'). congruence.
Qed.
End builder_list.
