(* ===== verification/Compile.v ===== *)
(** * Compiling a policy: shared/policy/compile.go and the row form of rows.go *)
From S2P Require Import Prelude GoStd Ports Inventory PolicyDoc Parse Rules.
#[local] Open Scope collector_scope.

(** ** Rows, the form the server stores *)

Record Row := mkRow {
  rw_Rule : nat;
  rw_Deny : bool;
  rw_SubjectKind : string;
  rw_SubjectID : string;
  rw_TargetKind : string;
  rw_TargetID : string;
  rw_Action : string;
  rw_Ports : list PortRange;
}.

(** A validated policy expanded against one inventory. *)
Record Compiled := mkCompiled {
  Allows : list Grant;
  Denies : list Grant;
  Grants : list Grant;
  AllowPrivateAccess : bool;
  Scopes : gmap string (list Grant);
  c_x : index;
  c_tags : gmap string (list string);
  c_groups : gmap string (list string);
  c_rows : list Row;
}.

(** ** Looking a grant up *)

Definition findGrant (gs : list Grant) (account : string) (t : Target) (action : string) : option Grant :=
  let want := mkGrant account t action [] [] in
  let i := sort.Search (length gs)
             (λ i, match gs !! i with Some g => negb (grantLess g want) | None => true end) in
  match gs !! i with
  | Some g =>
      if String.eqb (g_Account g) account && bool_decide (g_Target g = t) && String.eqb (g_Action g) action
      then Some g else None
  | None => None
  end.

(** ** Denied access taken from allowed access *)

Definition subtract_grant (denies : list Grant) (g : Grant) : option Grant :=
  match findGrant denies (g_Account g) (g_Target g) (g_Action g) with
  | None => Some g
  | Some d =>
      if negb (is_private (g_Action g)) then None
      else
        let ps := subtractPorts (g_Ports g) (g_Ports d) in
        match ps with
        | [] => None
        | _ => Some (mkGrant (g_Account g) (g_Target g) (g_Action g) ps (g_Rules g))
        end
  end.

Definition subtract (allows denies : list Grant) : list Grant := omap (subtract_grant denies) allows.

Section compile.
Context `{GoRuntime} `{HuJSON}.

(** ** Groups and tags *)

Definition compileGroup (x : index) (name : string) (entries : list string) : W (option (list string)) :=
  let p := pointer "/groups" [PName name] in
  let '(g, ok) := strings.CutPrefix name "group:" in
  if negb ok || negb (ValidName g) then
    _ ← c_add p "invalid_name" "a group is named group:<name> (lowercase letters, digits, '.', '_', '-')";
    ret None
  else
    accounts ← for_range 0 entries [] (λ i e out,
      r ← resolveUser (pointer p [PIndex i]) x e "a group holds user:<email> entries";
      ret (if r.2 then out ++ [r.1] else out));
    ret (Some accounts).

Definition compileTag (x : index) (name : string) (entries : list string) : W (option (list string)) :=
  let p := pointer "/tags" [PName name] in
  let '(t, ok) := strings.CutPrefix name "tag:" in
  if negb ok || negb (ValidName t) then
    _ ← c_add p "invalid_name" "a tag is named tag:<name> (lowercase letters, digits, '.', '_', '-')";
    ret None
  else
    machines ← for_range 0 entries [] (λ i e out,
      let ep := pointer p [PIndex i] in
      let '(alias, ok) := strings.CutPrefix e "machine:" in
      if negb ok || String.eqb alias "*" then
        _ ← c_add ep "not_allowed_in_tag" ("a tag holds machine:<alias> entries, not " +:+ Quote e);
        ret out
      else
        code ← machineError ep x alias;
        ret (if negb (String.eqb code "") then out else out ++ [mc_ID (machine x alias).1]));
    ret (Some machines).

(** The loop of compileGroups and compileTags: [one] compiles one entry of the map. *)
Definition compile_map (site : nat) (one : string → list string → W (option (list string)))
    (m : gmap string (list string)) : W (gmap string (list string)) :=
  for_range 0 (range site m) ∅ (λ _ kv out,
    r ← one kv.1 kv.2;
    ret (match r with Some l => <[kv.1 := l]> out | None => out end)).

Definition compileGroups (d : Document) (x : index) : W (gmap string (list string)) :=
  compile_map 2 (compileGroup x) (d_Groups d).

Definition compileTags (d : Document) (x : index) : W (gmap string (list string)) :=
  compile_map 3 (compileTag x) (d_Tags d).

(** ** Limits *)

Definition over (path : string) (n : nat) (max : Z) (what : string) : W () :=
  if ((0 <? max) && (max <? Z.of_nat n))%Z then
    c_add path "limit" (strconv.Itoa (Z.of_nat n) +:+ " " +:+ what +:+ "; the limit is " +:+ strconv.Itoa max)
  else ret ().

Definition checkLimits (d : Document) (l : Limits) : W () :=
  _ ← over "/rules" (length (d_Rules d)) (MaxRules l) "rules";
  _ ← over "/tags" (size (d_Tags d)) (MaxTags l) "tags";
  _ ← over "/groups" (size (d_Groups d)) (MaxGroups l) "groups";
  _ ← over "/tests" (length (d_Tests d)) (MaxTests l) "tests";
  _ ← for_range 0 (range 4 (d_Groups d)) () (λ _ kv _,
        over (pointer "/groups" [PName kv.1]) (length kv.2) (MaxEntriesPerList l) "entries");
  _ ← for_range 0 (range 5 (d_Tags d)) () (λ _ kv _,
        over (pointer "/tags" [PName kv.1]) (length kv.2) (MaxEntriesPerList l) "entries");
  for_range 0 (d_Rules d) () (λ i r _,
    _ ← over (pointer "/rules" [PIndex i; PName "src"]) (length (Src r)) (MaxEntriesPerList l) "entries";
    over (pointer "/rules" [PIndex i; PName "dst"]) (length (Dst r)) (MaxEntriesPerList l) "entries").

(** ** Rows *)

Definition expand_star (l : list string) : list string :=
  mjoin ((λ a, if String.eqb a "*" then MachineActions else [a]) <$> l).

Definition symbolicSubject (x : index) (s : string) : string * string :=
  if String.eqb s "*" then ("all", "")
  else
    let '(kind, name, _) := strings.Cut s ":" in
    if String.eqb kind "user" then ("account", (user x s).1)
    else if String.eqb kind "group" then ("group", s)
    else ("role", name).

Definition symbolicTarget (x : index) (d : string) : string * string :=
  if String.eqb d "machine:*" then ("all_machines", "")
  else if strings.HasPrefix d "tag:" then ("tag", d)
  else let t := (target x d).1 in (tg_Kind t, tg_ID t).

Definition row_ports (r : Rule) : list PortRange :=
  match Ports r with
  | Some ps => mergePorts ps
  | None => if (Actions r).2 then allPorts else [DefaultPrivatePorts]
  end.

Definition symbolicRows (x : index) (idx : nat) (r : Rule) : list Row :=
  let '(acts, deny) := Actions r in
  let actions := expand_star acts in
  mjoin ((λ s, mjoin ((λ d, (λ a,
    let '(sk, sid) := symbolicSubject x s in
    let '(tk, tid) := symbolicTarget x d in
    mkRow idx deny sk sid tk tid a (if is_private a then row_ports r else allPorts))
    <$> actions) <$> Dst r)) <$> Src r).

Definition sortRows (rows : list Row) : list Row :=
  sort_by (λ a b, (rw_Rule a <? rw_Rule b)%nat) rows.

(** ** Token scopes *)

Definition scope_parts (x : index) (tags : gmap string (list string)) (i : nat) (s : ScopeEntry) :
    W (list Target * list string * list PortRange) :=
  let p := pointer "" [PIndex i] in
  _ ← (match sc_Dst s, sc_Allow s with
       | _ :: _, _ :: _ => ret ()
       | _, _ => c_add p "empty" "a scope entry needs dst and allow"
       end);
  ft ← ruleTargets x tags (pointer p [PName "dst"]) (sc_Dst s);
  actions ← ruleActions ft.1 (pointer p [PName "allow"]) (sc_Allow s);
  ports ← rulePorts p actions (sc_Ports s) false;
  ret (ft.2, actions, ports).

Definition scope_builder (x : index) (tags : gmap string (list string)) (scope : list ScopeEntry) : W builder :=
  _ ← (match scope with
       | [] => c_add "" "empty" "a scope lists at least one {dst, allow} entry; leave the scope out for full access"
       | _ => ret ()
       end);
  for_range 0 scope ∅ (λ i s b,
    let '(parts, es) := scope_parts x tags i s in
    match es with
    | _ :: _ => (b, es)
    | [] => let '(targets, actions, ports) := parts in
            (add_grants b [""] targets actions ports i, [])
    end).

Definition compileScope (x : index) (tags : gmap string (list string)) (scope : list ScopeEntry) :
    list Grant * list Error :=
  let r := scope_builder x tags scope in (b_list (val r), sorted (errs r)).

Definition ValidateScope (c : Compiled) (scope : list ScopeEntry) : list Error :=
  (compileScope (c_x c) (c_tags c) scope).2.

(** ** Compile *)

(** The checks of Compile, in the order of the source: limits, groups, tags, the
    team switch, then every rule. *)
Definition compile_checks (d : Document) (inv : Inventory) (limits : Limits) (x : index) :
    W (gmap string (list string) * gmap string (list string) * (builder * builder)) :=
  _ ← checkLimits d limits;
  groups ← compileGroups d x;
  tags ← compileTags d x;
  _ ← (match d_AllowPrivateAccess d with
       | Some _ => if negb (Team inv) then
                     c_add "/allow_private_access" "team_only"
                       "allow_private_access is a team setting; in a personal workspace it is always on"
                   else ret ()
       | None => ret ()
       end);
  ad ← for_range 0 (d_Rules d) (∅, ∅) (λ i r ad,
         compileRule x groups tags (pointer "/rules" [PIndex i]) i r ad);
  ret (groups, tags, ad).

Definition emptyCompiled (x : index) : Compiled := mkCompiled [] [] [] false ∅ x ∅ ∅ [].

Definition Compile (d : Document) (inv : Inventory) (limits : Limits) : Compiled * list Error :=
  let x := newIndex inv in
  let '((groups, tags, (allow, deny)), es) := compile_checks d inv limits x in
  match es with
  | _ :: _ => (emptyCompiled x, sorted es)
  | [] =>
      let allows := b_list allow in
      let denies := b_list deny in
      ({| Allows := allows;
          Denies := denies;
          Grants := subtract allows denies;
          AllowPrivateAccess := negb (Team inv) || default false (d_AllowPrivateAccess d);
          Scopes := foldl (λ acc t, <[tk_ID t := (compileScope x tags (tk_Scope t)).1]> acc) ∅ (Tokens inv);
          c_x := x;
          c_tags := tags;
          c_groups := groups;
          c_rows := sortRows (mjoin (imap (symbolicRows x) (d_Rules d))) |}, [])
  end.

(** Compiled.Store: what the server writes for one policy version. *)
Record Stored := mkStored {
  st_Rows : list Row;
  st_Groups : gmap string (list string);
  st_Tags : gmap string (list string);
  st_AllowPrivateAccess : bool;
}.

Definition Store (c : Compiled) : Stored :=
  mkStored (c_rows c) (c_groups c) (c_tags c) (AllowPrivateAccess c).

(** ScopeRows *)
Definition ScopeRows (c : Compiled) (scope : list ScopeEntry) : list Row * list Error :=
  match ValidateScope c scope with
  | _ :: _ as es => ([], es)
  | [] =>
      (mjoin (imap (λ i e,
         let r := mkRule ["*"] (sc_Dst e) (sc_Allow e) None
                    (Some (default allPorts (sc_Ports e))) "" in
         (λ row, mkRow (rw_Rule row) (rw_Deny row) "token" "" (rw_TargetKind row) (rw_TargetID row)
                   (rw_Action row) (rw_Ports row)) <$> symbolicRows (c_x c) i r) scope), [])
  end.

Definition bytesLabel (n : Z) : string :=
  if (Z.rem n 1024 =? 0)%Z then strconv.Itoa (Z.quot n 1024) +:+ " KiB"
  else strconv.Itoa n +:+ " bytes".

End compile.

(** ** Binary search finds the grant of a key *)

Lemma grants_sorted_lookup gs i j a b :
  grants_sorted gs → gs !! i = Some a → gs !! j = Some b → (i < j)%nat → grantLess a b = true.
Proof.
  intros Hs. revert i j; induction Hs as [|g gs Hs IH Hg]; intros i j Ha Hb Hij; [done|].
  destruct j as [|j]; [lia|]. destruct i as [|i]; simpl in *.
  - simplify_eq. rewrite Forall_forall in Hg. apply Hg. by eapply list_elem_of_lookup_2.
  - apply (IH i j); [done..|lia].
Qed.

Lemma grantLess_key_l a b c : key_of a = key_of b → grantLess a c = grantLess b c.
Proof. intros Hk%grant_key_inj. unfold grantLess. by rewrite Hk. Qed.

Lemma grantLess_key_r a b c : key_of a = key_of b → grantLess c a = grantLess c b.
Proof. intros Hk%grant_key_inj. unfold grantLess. by rewrite Hk. Qed.

Lemma grantLess_irrefl a : grantLess a a = false.
Proof. apply strs_ltb_irrefl. Qed.

Lemma findGrant_key gs a t act g : findGrant gs a t act = Some g → g ∈ gs ∧ key_of g = (a, t, act).
Proof.
  unfold findGrant. destruct (gs !! _) as [g'|] eqn:E; [|done].
  destruct (_ && _)%bool eqn:Ec; [|done]. intros; simplify_eq. to_prop.
  split; [by eapply list_elem_of_lookup_2|]. unfold key_of. congruence.
Qed.

Lemma findGrant_spec gs a t act g :
  grants_sorted gs → findGrant gs a t act = Some g ↔ g ∈ gs ∧ key_of g = (a, t, act).
Proof.
  intros Hs. split; [apply findGrant_key|]. intros [Hin Hk].
  apply list_elem_of_lookup in Hin as [j Hj]. unfold findGrant.
  set (want := mkGrant a t act [] []).
  set (f := λ i, match gs !! i with Some g => negb (grantLess g want) | None => true end).
  assert (Hkw : key_of g = key_of want) by done.
  assert (Hlt : ∀ i g', gs !! i = Some g' → (i < j)%nat → f i = false).
  { intros i g' Hi Hij. unfold f. rewrite Hi, <-(grantLess_key_r g want g' Hkw).
    by rewrite (grants_sorted_lookup gs i j g' g). }
  assert (Hge : ∀ i, (j ≤ i)%nat → f i = true).
  { intros i Hij. unfold f. destruct (gs !! i) as [g'|] eqn:Hi; [|done].
    rewrite <-(grantLess_key_r g want g' Hkw), negb_true_iff.
    destruct (decide (i = j)) as [->|Hne].
    - simplify_eq. apply grantLess_irrefl.
    - apply strs_ltb_asym. eapply (grants_sorted_lookup gs j i); [done..|lia]. }
  assert (Hj' : (j < length gs)%nat) by (by eapply lookup_lt_Some).
  destruct (sort.Search_spec (length gs) f) as (H1 & H2 & H3).
  { intros i k Hik Hi. destruct (decide (i < j)%nat) as [Hlt'|Hge'].
    - destruct (lookup_lt_is_Some_2 gs i ltac:(lia)) as [g' Hg']. rewrite (Hlt i g') in Hi by done. done.
    - apply Hge. lia. }
  assert (Heq : sort.Search (length gs) f = j).
  { destruct (Nat.lt_trichotomy (sort.Search (length gs) f) j) as [Hc|[Hc|Hc]]; [|done|].
    - destruct (lookup_lt_is_Some_2 gs (sort.Search (length gs) f) ltac:(lia)) as [g' Hg'].
      specialize (H3 (sort.Search (length gs) f) ltac:(lia)). by rewrite (Hlt _ g') in H3.
    - specialize (H2 j Hc). rewrite Hge in H2 by lia. done. }
  rewrite Heq, Hj. unfold key_of in Hk. simplify_eq.
  by rewrite !String.eqb_refl, bool_decide_true.
Qed.

Section lookups.
Context `{GoRuntime}.

Lemma findGrant_b_list b a t act :
  keyed b → findGrant (b_list b) a t act = b !! (a, t, act).
Proof.
  intros Hk. pose proof (b_list_sorted b Hk) as Hs.
  destruct (b !! (a, t, act)) as [g|] eqn:E.
  - apply findGrant_spec; [done|]. split; [apply elem_of_b_list; eauto|by apply Hk].
  - destruct (findGrant _ _ _ _) as [g|] eqn:F; [|done].
    apply findGrant_spec in F as [Hin Hkey]; [|done].
    apply elem_of_b_list in Hin as (k & Hin). pose proof (Hk _ _ Hin). congruence.
Qed.

End lookups.

(** The binary search of findGrant is a lookup: in a strictly sorted grant list it
    returns exactly the entry with the asked account, target and action, and nothing when
    there is none. *)
Theorem findGrant_is_lookup (gs : list Grant) (a : string) (t : Target) (act : string)
    (Hs : grants_sorted gs) :
  findGrant gs a t act = List.find (λ g, bool_decide (key_of g = (a, t, act))) gs.
Proof.
  destruct (List.find _ gs) as [g|] eqn:E.
  - apply find_some in E as [Hin Hk]. to_prop. apply findGrant_spec; [done|].
    split; [by apply list_elem_of_In|done].
  - destruct (findGrant gs a t act) as [g|] eqn:F; [|done].
    apply findGrant_spec in F as [Hin Hk]; [|done].
    apply list_elem_of_In in Hin. apply (find_none _ _ E) in Hin. by to_prop.
Qed.

Lemma findGrant_is_lookup_witness :
  let gs := [mkGrant "a" (mkTarget "machine" "m1") "exec" [] [0%nat];
             mkGrant "a" (mkTarget "machine" "m1") "files" [] [2%nat];
             mkGrant "b" (mkTarget "env" "t") "env_read" [] [1%nat]] in
  findGrant gs "b" (mkTarget "env" "t") "env_read" =
    Some (mkGrant "b" (mkTarget "env" "t") "env_read" [] [1%nat]) ∧
  findGrant gs "a" (mkTarget "machine" "m2") "exec" = None.
Proof.
  intros gs. assert (Hs : grants_sorted gs) by (repeat constructor).
  split; rewrite (findGrant_is_lookup gs _ _ _ Hs); vm_compute; reflexivity.
Defined.
