(* ===== verification/Eval.v ===== *)
(** * Answering access questions: shared/policy/eval.go, and Validate of compile.go *)
From S2P Require Import Prelude GoStd Ports Inventory PolicyDoc Parse Rules Compile.
#[local] Open Scope collector_scope.

Record Decision := mkDecision { Allowed : bool; Reason : string; d_paths : list string }.

Definition denied (reason : string) (paths : list string) : Decision := mkDecision false reason paths.

(** Compiled.Enforced *)
Definition Enforced (c : Compiled) : list Grant :=
  if AllowPrivateAccess c then Grants c
  else List.filter (λ g, negb (is_private (g_Action g))) (Grants c).

(** Compiled.owns: the owner guardrail. *)
Definition owns (c : Compiled) (account : string) (t : Target) (action : string) : bool :=
  let inspector := String.eqb action ActionInspect || String.eqb action ActionReplay in
  let x := c_x c in
  if String.eqb (tg_Kind t) "machine" then
    match byMachineID x !! tg_ID t with
    | Some m => String.eqb (mc_PersonalOwner m) account && (negb (Team (ix_inv x)) || inspector)
    | None => false
    end
  else if String.eqb (tg_Kind t) "env" then
    match byAccount x !! account with
    | Some m => String.eqb (Role m) "owner"
                && (String.eqb action ActionENVRead || String.eqb action ActionENVWrite)
    | None => false
    end
  else if String.eqb (tg_Kind t) "preview" || String.eqb (tg_Kind t) "tunnel" then
    match resourceIDs x !! resource_key (tg_Kind t) (tg_ID t) with
    | None => false
    | Some r =>
        if negb inspector then false
        else
          let m := default zeroMachine (byMachineID x !! rs_MachineID r) in
          String.eqb (rs_Owner r) account
          || (negb (String.eqb (mc_PersonalOwner m) "") && String.eqb (mc_PersonalOwner m) account)
    end
  else false.

(** The machine a preview or tunnel runs on, as a target. *)
Definition host_target (x : index) (t : Target) : option Target :=
  if String.eqb (tg_Kind t) "preview" || String.eqb (tg_Kind t) "tunnel" then
    match resourceIDs x !! resource_key (tg_Kind t) (tg_ID t) with
    | Some r => Some (mkTarget "machine" (rs_MachineID r))
    | None => None
    end
  else None.

(** Compiled.matching *)
Definition matching (c : Compiled) (gs : list Grant) (account : string) (t : Target) (action : string) :
    list Grant :=
  (match findGrant gs account t action with Some g => [g] | None => [] end) ++
  (match host_target (c_x c) t with
   | Some h => match findGrant gs account h action with Some g => [g] | None => [] end
   | None => []
   end).

Definition ports (gs : list Grant) : list PortRange := mergePorts (mjoin (g_Ports <$> gs)).

Definition rulePaths (gs : list Grant) : list string :=
  (λ r, pointer "/rules" [PIndex r]) <$> compact (sort_by Nat.ltb (mjoin (g_Rules <$> gs))).

(** Compiled.Decide: owner guardrail, then an explicit deny, then an allow, else denied. *)
Definition Decide (c : Compiled) (account : string) (t : Target) (action : string) (port : Z) : Decision :=
  match byAccount (c_x c) !! account with
  | None => denied "unknown_subject" []
  | Some _ =>
      if owns c account t action then mkDecision true "owner" []
      else
        let allows := matching c (Allows c) account t action in
        let denies := matching c (Denies c) account t action in
        if negb (bool_decide (denies = [])) &&
           (negb (is_private action) || (negb (port =? 0)%Z && portsContain (ports denies) port))
        then denied "denied_by_rule" (rulePaths denies)
        else if bool_decide (allows = []) then denied "no_rule" []
        else
          let paths := rulePaths allows in
          let allow := mkDecision true "rule" paths in
          if is_private action then
            let open := subtractPorts (ports allows) (ports denies) in
            if negb (AllowPrivateAccess c) then denied "private_access_off" paths
            else if bool_decide (open = []) then denied "denied_by_rule" (rulePaths denies)
            else if negb (port =? 0)%Z && negb (portsContain open port)
            then denied "port_not_allowed" paths
            else allow
          else allow
  end.

(** Compiled.DecideToken *)
Definition DecideToken (c : Compiled) (token creator : string) (t : Target) (action : string) (port : Z) :
    Decision :=
  let d := Decide c creator t action port in
  match Scopes c !! token with
  | None => d
  | Some scope =>
      if negb (Allowed d) then d
      else
        let ins := matching c scope "" t action in
        if bool_decide (ins = []) ||
           (is_private action && negb (port =? 0)%Z && negb (portsContain (ports ins) port))
        then denied "outside_token_scope" []
        else d
  end.

(** testAction: an action with an optional port. *)
Definition testAction (a : string) : string * Z * bool :=
  let '(name, port, hasPort) := strings.Cut a ":" in
  let known := bool_decide (name ∈ MachineActions ++ ENVActions) in
  if negb hasPort then (name, 0%Z, known)
  else match strconv.Atoi port with
       | Some n => (name, n, known && is_private name && (1 <=? n)%Z && (n <=? 65535)%Z)
       | None => (name, 0%Z, false)
       end.

Definition describe (d : Decision) : string :=
  let rules := strings.Join (d_paths d) ", " in
  let reason r := String.eqb (Reason d) r in
  if reason "owner" then "allowed (owner)"
  else if reason "rule" then "allowed by " +:+ rules
  else if reason "no_rule" then "denied (no rule matches)"
  else if reason "port_not_allowed" then "denied (that port is not in " +:+ rules +:+ ")"
  else if reason "denied_by_rule" then "denied by " +:+ rules
  else if reason "private_access_off" then "denied (allow_private_access is false)"
  else "denied (" +:+ Reason d +:+ ")".

Section eval.
Context `{GoRuntime} `{HuJSON}.

(** The inner loop of RunTests over one list of a test. *)
Definition run_list (c : Compiled) (p : string) (t : PolicyTest) (s : string) (tg : Target)
    (field : string) (l : list string) (want : bool) : W () :=
  for_range 0 l () (λ j a _,
    let '(action, port, valid) := testAction a in
    let path := pointer p [PName field; PIndex j] in
    if negb valid then
      c_add path "unknown_action" ("unknown action " +:+ Quote a +:+ " (use private_access:<port> for one port)")
    else
      let got := Decide c s tg action port in
      if negb (Bool.eqb (Allowed got) want) then
        c_add path "test_failed"
          ("expected " +:+ t_Src t +:+ " to be " +:+ (if want then "allowed" else "denied") +:+ " " +:+ a
           +:+ " on " +:+ t_Dst t +:+ ", but the policy says " +:+ describe got)
      else ret ()).

Definition run_test (c : Compiled) (i : nat) (t : PolicyTest) : W () :=
  let p := pointer "/tests" [PIndex i] in
  let '(s, ok) := user (c_x c) (t_Src t) in
  let '(tg, tok) := target (c_x c) (t_Dst t) in
  _ ← (if ok then ret ()
       else c_add (pointer p [PName "src"]) "unknown_subject"
              (Quote (t_Src t) +:+ " is not a member of this workspace (a test names one user:<email>)"));
  _ ← (if tok then ret ()
       else c_add (pointer p [PName "dst"]) "unknown_target"
              (Quote (t_Dst t) +:+ " is not a machine, preview, tunnel or env:team of this workspace"));
  if negb ok || negb tok then ret ()
  else
    _ ← run_list c p t s tg "allow" (t_Allow t) true;
    run_list c p t s tg "deny" (t_Deny t) false.

Definition RunTests (d : Document) (c : Compiled) : list Error :=
  sorted (errs (for_range 0 (d_Tests d) () (λ i t _, run_test c i t))).

(** Validate: limits on the size, Parse, Compile, then the file's tests. *)
Definition Validate (src : string) (inv : Inventory) (limits : Limits) :
    Document * option Compiled * list Error :=
  if ((0 <? MaxBytes limits) && (MaxBytes limits <? Z.of_nat (String.length src)))%Z then
    (emptyDocument, None,
     [mkError "" "too_large" ("the policy file is larger than the limit of " +:+ bytesLabel (MaxBytes limits))])
  else
    let '(d, es) := Parse src in
    match es with
    | _ :: _ => (d, None, es)
    | [] =>
        let '(c, es) := Compile d inv limits in
        match es with
        | _ :: _ => (d, Some c, es)
        | [] => (d, Some c, RunTests d c)
        end
    end.

End eval.
