(* ===== verification/Semantics.v ===== *)
(** * What a policy means, and that compiling keeps it

    The abstract specification reads rules directly: which accounts a src
    entry names, which targets a dst entry names, which actions and ports a rule covers.
    A request is allowed when a rule that allows it applies and none that denies it does.
    The theorems show that Compile and Decide implement this meaning. *)
From S2P Require Import Prelude GoStd Ports Inventory PolicyDoc Parse Rules Compile Eval.

Section semantics.
Context `{GoRuntime}.

(** ** The specification *)

Definition subject_matches (x : index) (groups : gmap string (list string)) (e account : string) : Prop :=
  let '(kind, name, _) := strings.Cut e ":" in
  if String.eqb e "*" then account ∈ AccountID <$> Members (ix_inv x)
  else if String.eqb kind "user" then user x e = (account, true)
  else if String.eqb kind "group" then ∃ l, groups !! e = Some l ∧ account ∈ l
  else if String.eqb kind "role" then
    name ∈ Roles ∧ ∃ m, m ∈ Members (ix_inv x) ∧ AccountID m = account ∧ RoleMatches name (Role m) = true
  else False.

Definition target_matches (x : index) (tags : gmap string (list string)) (e : string) (t : Target) : Prop :=
  let '(kind, name, _) := strings.Cut e ":" in
  if String.eqb kind "machine" then
    if String.eqb name "*" then ∃ m, m ∈ Machines (ix_inv x) ∧ t = mkTarget "machine" (mc_ID m)
    else ∃ m, machine x name = (m, "") ∧ t = mkTarget "machine" (mc_ID m)
  else if String.eqb kind "tag" then
    ∃ ids id, tags !! e = Some ids ∧ id ∈ ids ∧ t = mkTarget "machine" id
  else if String.eqb kind "preview" || String.eqb kind "tunnel" then
    ∃ r, resources x !! e = Some r ∧ t = mkTarget kind (rs_ID r)
  else if String.eqb kind "env" then
    Team (ix_inv x) = true ∧ name = "team" ∧ t = mkTarget "env" (TeamID (ix_inv x))
  else False.

(** A rule speaks about an account, a target and an action. *)
Definition rule_applies (x : index) (groups tags : gmap string (list string)) (r : Rule)
    (account : string) (t : Target) (action : string) : Prop :=
  (∃ s, s ∈ Src r ∧ subject_matches x groups s account) ∧
  (∃ d, d ∈ Dst r ∧ target_matches x tags d t) ∧
  action ∈ expand_star (Actions r).1.

(** The family of a dst entry. *)
Definition entry_family (e : string) : string :=
  let '(kind, _, _) := strings.Cut e ":" in
  if String.eqb kind "machine" || String.eqb kind "tag" then "machine"
  else if String.eqb kind "preview" || String.eqb kind "tunnel" then "resource"
  else if String.eqb kind "env" then "env" else "".

(** ** Entries *)

Lemma for_range_elem {A B Z} (proj : B → list Z) (body : nat → A → B → W B) (P : A → Z → Prop) l i acc z :
  (∀ i a b z, z ∈ proj (val (body i a b)) ↔ z ∈ proj b ∨ P a z) →
  z ∈ proj (val (for_range i l acc body)) ↔ z ∈ proj acc ∨ ∃ a, a ∈ l ∧ P a z.
Proof.
  intros Hb. revert i acc; induction l as [|a l IH]; intros i acc; simpl.
  - split; [auto|]. intros [?|(a & Ha & _)]; [done|]. by apply elem_of_nil in Ha.
  - rewrite W_bind_val, IH, Hb. setoid_rewrite elem_of_cons. split.
    + intros [[?|?]|(a' & ? & ?)]; eauto.
    + intros [?|(a' & [->|?] & ?)]; eauto.
Qed.

Lemma machine_codes x name :
  (machine x name).2 = "" ∨ (machine x name).2 = "unknown_machine" ∨ (machine x name).2 = "ambiguous_machine".
Proof.
  unfold machine. destruct (strings.Cut name "/") as [[a b] ok].
  repeat (case_match; auto).
Qed.

Lemma machineError_val path x name : val (machineError path x name) = (machine x name).2.
Proof.
  unfold machineError. destruct (machine x name) as [m code] eqn:E.
  repeat case_match; by rewrite ?W_bind_val.
Qed.

Lemma machineError_ok path x name : errs (machineError path x name) = [] ↔ (machine x name).2 = "".
Proof.
  unfold machineError. pose proof (machine_codes x name) as Hc.
  destruct (machine x name) as [m code]; simpl in *.
  destruct Hc as [->|[->| ->]]; simpl; by rewrite ?W_bind_errs.
Qed.

Lemma resolveUser_val path x e what a :
  (val (resolveUser path x e what)).2 = true ∧ (val (resolveUser path x e what)).1 = a ↔ user x e = (a, true).
Proof.
  unfold resolveUser, user, strings.HasPrefix, strings.CutPrefix.
  destruct (strings.strip_prefix "user:" e) as [email|]; simpl.
  - destruct (byEmail x !! ToLower email) as [m|]; simpl; [|wsimpl]; naive_solver.
  - wsimpl. naive_solver.
Qed.

Lemma resolveUser_ok path x e what : errs (resolveUser path x e what) = [] → (user x e).2 = true.
Proof.
  unfold resolveUser, user, strings.HasPrefix, strings.CutPrefix.
  destruct (strings.strip_prefix "user:" e) as [email|]; simpl; [|by wsimpl].
  destruct (byEmail x !! ToLower email) as [m|]; simpl; [done|by wsimpl].
Qed.

Lemma elem_of_subject_entry x groups ep e a :
  a ∈ val (subject_entry x groups ep e) ↔ subject_matches x groups e a.
Proof.
  unfold subject_entry, subject_matches. destruct (strings.Cut e ":") as [[kind name] ok].
  destruct (String.eqb e "*"); [done|].
  destruct (String.eqb kind "user").
  { rewrite W_bind_val. rewrite <-(resolveUser_val ep x e "" a).
    destruct (val (resolveUser ep x e "")) as [a' ok']; simpl.
    destruct ok'; simpl; [rewrite list_elem_of_singleton|rewrite elem_of_nil]; naive_solver. }
  destruct (String.eqb kind "group").
  { destruct (groups !! e) as [l|]; [|wsimpl]; simpl;
      [|rewrite elem_of_nil]; naive_solver. }
  destruct (String.eqb kind "role").
  { case_bool_decide; simpl; [|wsimpl; rewrite elem_of_nil; tauto].
    rewrite list_elem_of_fmap. setoid_rewrite list_elem_of_In. setoid_rewrite filter_In.
    setoid_rewrite <-list_elem_of_In. naive_solver. }
  wsimpl. by rewrite elem_of_nil.
Qed.

Lemma elem_of_ruleSubjects x groups p src a :
  a ∈ val (ruleSubjects x groups p src) ↔ ∃ e, e ∈ src ∧ subject_matches x groups e a.
Proof.
  unfold ruleSubjects.
  etransitivity; [apply (for_range_elem id _ (subject_matches x groups))|rewrite elem_of_nil; tauto].
  intros i e out z. rewrite W_bind_val. simpl. by rewrite elem_of_add_all, elem_of_subject_entry.
Qed.

Lemma elem_of_target_entry x tags ep e t :
  t ∈ from_option snd [] (val (target_entry x tags ep e)) ↔ target_matches x tags e t.
Proof.
  unfold target_entry, target_matches. destruct (strings.Cut e ":") as [[kind name] ok].
  destruct (String.eqb kind "machine").
  { destruct (String.eqb name "*"); simpl; [rewrite list_elem_of_fmap; naive_solver|].
    wsimpl. rewrite machineError_val.
    destruct (machine x name) as [m code]; simpl.
    destruct (String.eqb_spec code "") as [->|Hne];
      [rewrite list_elem_of_singleton|rewrite elem_of_nil]; naive_solver. }
  destruct (String.eqb kind "tag").
  { destruct (tags !! e) as [ids|]; [|wsimpl]; simpl;
      [rewrite list_elem_of_fmap|rewrite elem_of_nil]; naive_solver. }
  destruct (String.eqb kind "preview" || String.eqb kind "tunnel").
  { destruct (resources x !! e) as [r|]; [|wsimpl]; simpl;
      [rewrite list_elem_of_singleton|rewrite elem_of_nil]; naive_solver. }
  destruct (String.eqb kind "env").
  { destruct (Team (ix_inv x)); simpl; [|wsimpl; rewrite elem_of_nil; naive_solver].
    destruct (String.eqb_spec name "team"); simpl;
      [rewrite list_elem_of_singleton|wsimpl; rewrite elem_of_nil]; naive_solver. }
  wsimpl. by rewrite elem_of_nil.
Qed.

Lemma elem_of_ruleTargets x tags p dst t :
  t ∈ (val (ruleTargets x tags p dst)).2 ↔ ∃ e, e ∈ dst ∧ target_matches x tags e t.
Proof.
  unfold ruleTargets.
  etransitivity; [apply (for_range_elem snd _ (target_matches x tags))|simpl; rewrite elem_of_nil; tauto].
  intros i e acc z. rewrite W_bind_val, <-(elem_of_target_entry x tags (pointer p [PIndex i])).
  destruct (val (target_entry x tags (pointer p [PIndex i]) e)) as [[f ts]|]; simpl.
  - repeat case_match; rewrite ?W_bind_val; simpl; by rewrite elem_of_add_all.
  - rewrite elem_of_nil. tauto.
Qed.

Lemma target_entry_family x tags ep e :
  errs (target_entry x tags ep e) = [] →
  entry_family e ≠ "" ∧ ∃ ts, val (target_entry x tags ep e) = Some (entry_family e, ts).
Proof.
  unfold target_entry, entry_family. destruct (strings.Cut e ":") as [[kind name] ok].
  destruct (String.eqb kind "machine"); simpl.
  { destruct (String.eqb name "*"); simpl; [eauto|]. rewrite W_bind_val. simpl. eauto. }
  destruct (String.eqb kind "tag"); simpl.
  { destruct (tags !! e); simpl; [eauto|]. by wsimpl. }
  destruct (String.eqb kind "preview" || String.eqb kind "tunnel").
  { destruct (resources x !! e); simpl; [eauto|]. by wsimpl. }
  destruct (String.eqb kind "env"); [|by wsimpl].
  destruct (Team (ix_inv x)); simpl; [|by wsimpl].
  destruct (String.eqb name "team"); simpl; [eauto|]. by wsimpl.
Qed.

(** All entries of a rule without errors are of the one family it reports. *)
Lemma ruleTargets_family x tags p dst :
  errs (ruleTargets x tags p dst) = [] →
  (∀ e, e ∈ dst → entry_family e = (val (ruleTargets x tags p dst)).1) ∧
  (dst ≠ [] → (val (ruleTargets x tags p dst)).1 ≠ "").
Proof.
  intros He. unfold ruleTargets in *.
  match goal with He : errs (for_range _ _ _ ?body) = [] |- _ =>
    destruct (for_range_inv body (λ pre acc,
      (∀ e, e ∈ pre → entry_family e = acc.1) ∧ (pre = [] → acc.1 = "") ∧ (pre ≠ [] → acc.1 ≠ ""))
      dst [] ("", [])) as (H1 & H2 & H3); [| |exact He|by split] end.
  2:{ split_and!; [|done|done]. intros e Hin. by apply elem_of_nil in Hin. }
  intros pre e [f out] (H1 & H2 & H3) Hb. simpl in *.
  apply W_bind_ok in Hb as [Hb1 Hb2]. rewrite W_bind_val.
  destruct (target_entry_family _ _ _ _ Hb1) as (Hne & ts & Hv). rewrite Hv in Hb2 |- *.
  assert (Hf : f = "" → pre = []).
  { intros Hf. destruct pre as [|e' pre]; [done|]. by destruct (H3 ltac:(done)). }
  destruct (String.eqb_spec f "") as [->|Hfne]; simpl.
  - rewrite (Hf eq_refl). split_and!; [|done|done].
    intros e' Hin. by apply list_elem_of_singleton in Hin as ->.
  - destruct (String.eqb_spec (entry_family e) f) as [Heq|]; simpl in *; [|done].
    split_and!; [|intros Hn; by destruct pre|done].
    intros e' [Hin|Hin]%elem_of_app; [by apply H1|]. by apply list_elem_of_singleton in Hin as ->.
Qed.

(** ** Actions and ports *)

Lemma elem_of_expand_star l a :
  a ∈ expand_star l ↔ ∃ b, b ∈ l ∧ (if String.eqb b "*" then a ∈ MachineActions else a = b).
Proof.
  unfold expand_star. rewrite list_elem_of_join. setoid_rewrite list_elem_of_fmap. split.
  - intros (l' & Ha & b & -> & Hb). exists b. split; [done|].
    destruct (String.eqb b "*"); [done|]. by apply list_elem_of_singleton.
  - intros (b & Hb & Ha). eexists. split; [|by exists b].
    destruct (String.eqb b "*"); [done|]. subst. left.
Qed.

Lemma action_entry_ok family ep b a :
  family ≠ "" → errs (action_entry family ep b) = [] →
  (a ∈ val (action_entry family ep b) ↔ if String.eqb b "*" then a ∈ MachineActions else a = b) ∧
  (a ∈ val (action_entry family ep b) → a ∈ family_actions family).
Proof.
  intros Hf. unfold action_entry.
  assert (Hstar : "*" ∉ family_actions family).
  { unfold family_actions. repeat case_match; apply (bool_decide_eq_true_1 _); vm_compute; reflexivity. }
  apply String.eqb_neq in Hf. rewrite Hf.
  destruct (String.eqb_spec b "*") as [->|Hb]; simpl.
  - destruct (String.eqb_spec family "machine") as [->|Hm]; simpl; [done|].
    rewrite bool_decide_false by done. simpl. by wsimpl.
  - case_bool_decide; simpl.
    + intros _. rewrite list_elem_of_singleton. naive_solver.
    + case_match; by wsimpl.
Qed.

Lemma ruleActions_ok family p acts a :
  family ≠ "" → errs (ruleActions family p acts) = [] →
  (a ∈ val (ruleActions family p acts) ↔ a ∈ expand_star acts) ∧
  (a ∈ val (ruleActions family p acts) → a ∈ family_actions family).
Proof.
  intros Hf He. unfold ruleActions in *. apply W_bind_ok in He as [He _].
  wsimpl. rewrite elem_of_compact, elem_of_sort_by, elem_of_expand_star.
  match goal with He : errs (for_range _ _ _ ?body) = [] |- _ =>
    destruct (for_range_inv body (λ pre out,
      (a ∈ out ↔ ∃ b, b ∈ pre ∧ (if String.eqb b "*" then a ∈ MachineActions else a = b)) ∧
      (a ∈ out → a ∈ family_actions family)) acts [] []) as [H1 H2]; [| |exact He|by split] end.
  - intros pre b out [H1 H2] Hb. apply W_bind_ok in Hb as [Hb _]. wsimpl.
    destruct (action_entry_ok family _ b a Hf Hb) as [H3 H4].
    split; [split|].
    + intros [Ho|Ha]%elem_of_app.
      * apply H1 in Ho as (b' & ? & ?). exists b'. split; [apply elem_of_app; auto|done].
      * apply H3 in Ha. exists b. split; [apply elem_of_app; right; left|done].
    + intros (b' & [Hin|Hin]%elem_of_app & Hy); apply elem_of_app; [left; apply H1; eauto|right].
      apply list_elem_of_singleton in Hin as ->. by apply H3.
    + intros [Ho|Ha]%elem_of_app; auto.
  - split; [|intros Hn; by apply elem_of_nil in Hn].
    rewrite elem_of_nil. split; [done|]. intros (b & Hb & _). by apply elem_of_nil in Hb.
Qed.

Lemma row_ports_ok r : ports_ok (Ports r) → Forall port_ok (row_ports r).
Proof.
  intros Hp. unfold row_ports, ports_ok in *. destruct (Ports r) as [ps|]; simpl in *.
  - by apply mergePorts_ok.
  - destruct (Actions r).2; [auto with pb|apply Forall_singleton; auto with pb].
Qed.

Lemma rulePorts_val p actions r : val (rulePorts p actions (Ports r) (Actions r).2) = row_ports r.
Proof.
  unfold rulePorts, row_ports. destruct (Ports r) as [ps|]; simpl; [|done].
  by rewrite !W_bind_val.
Qed.

(** ** One rule *)

Lemma rule_parts_ok x groups tags p r :
  errs (rule_parts x groups tags p r) = [] →
  let '(accounts, targets, actions, ps) := val (rule_parts x groups tags p r) in
  ps = row_ports r ∧
  (∀ a t act, a ∈ accounts ∧ t ∈ targets ∧ act ∈ actions ↔ rule_applies x groups tags r a t act) ∧
  (∀ d act, d ∈ Dst r → act ∈ expand_star (Actions r).1 → act ∈ family_actions (entry_family d)).
Proof.
  unfold rule_parts, rule_applies. pose proof (rulePorts_val p) as Hports.
  destruct (Actions r) as [acts denies] eqn:EA. cbn [fst snd].
  set (field := if denies then "deny" else "allow").
  rewrite !W_bind_ok, !W_bind_val. cbn [val ret fst].
  intros (_ & Hd & _ & _ & Ht & Ha & _).
  specialize (Hports (val (ruleActions (val (ruleTargets x tags (pointer p [PName "dst"]) (Dst r))).1
                (pointer p [PName field]) acts)) r). rewrite EA in Hports. cbn [snd] in Hports.
  assert (Hdst : Dst r ≠ []) by (intros Heq; unfold check_empty in Hd; by rewrite Heq in Hd).
  destruct (ruleTargets_family _ _ _ _ Ht) as [Hfam Hne]. specialize (Hne Hdst).
  split_and!; [done| |].
  - intros a t act. destruct (ruleActions_ok _ _ _ act Hne Ha) as [Hact _].
    by rewrite elem_of_ruleSubjects, elem_of_ruleTargets, Hact.
  - intros d act Hin Hact. rewrite (Hfam d Hin).
    destruct (ruleActions_ok _ _ _ act Hne Ha) as [H1 H2]. apply H2, H1, Hact.
Qed.

(** ** The whole file *)

(** Rule number [i] allows or denies ([deny]) the action at [port]; ports count only for
    private_access. *)
Definition rule_says (x : index) (groups tags : gmap string (list string)) (rules : list Rule)
    (deny : bool) (k : grantKey) (port : Z) (i : nat) : Prop :=
  ∃ r, rules !! i = Some r ∧ (Actions r).2 = deny ∧
       rule_applies x groups tags r k.1.1 k.1.2 k.2 ∧
       (is_private k.2 = true → covers (row_ports r) port).

(** The contributions of the rules of one kind. *)
Definition from_rules (x : index) (groups tags : gmap string (list string)) (rules : list Rule)
    (deny : bool) (cs : list contrib) : Prop :=
  ∀ k ps i, (k, ps, i) ∈ cs ↔
    ∃ r, rules !! i = Some r ∧ (Actions r).2 = deny ∧
         rule_applies x groups tags r k.1.1 k.1.2 k.2 ∧ ps = row_ports r.

Lemma from_rules_nil x groups tags deny : from_rules x groups tags [] deny [].
Proof. intros k ps i. rewrite elem_of_nil. split; [done|]. by intros (r & ? & _). Qed.

Lemma from_rules_skip x groups tags pre r deny cs :
  from_rules x groups tags pre deny cs → (Actions r).2 ≠ deny →
  from_rules x groups tags (pre ++ [r]) deny cs.
Proof.
  unfold from_rules. intros Hcs Hne k ps i. rewrite Hcs. split.
  - intros (r' & Hr & ?). exists r'. split; [by apply lookup_app_l_Some|done].
  - intros (r' & Hr & Hd & ?). exists r'. split; [|done].
    apply lookup_app_Some in Hr as [?|[_ Hr]]; [done|].
    apply list_lookup_singleton_Some in Hr as [_ ->]. done.
Qed.

Lemma from_rules_add x groups tags pre r deny cs accounts targets actions :
  from_rules x groups tags pre deny cs → (Actions r).2 = deny →
  (∀ a t act, a ∈ accounts ∧ t ∈ targets ∧ act ∈ actions ↔ rule_applies x groups tags r a t act) →
  from_rules x groups tags (pre ++ [r]) deny
    (cs ++ contribs accounts targets actions (row_ports r) (length pre)).
Proof.
  unfold from_rules. intros Hcs Hd Happ k ps i. rewrite elem_of_app, Hcs, elem_of_contribs. split.
  - intros [(r' & Hr & ?)|(Ha & Ht & Hact & -> & ->)].
    + exists r'. split; [by apply lookup_app_l_Some|done].
    + exists r. split_and!; [by rewrite lookup_app_r, Nat.sub_diag|done|by apply Happ|done].
  - intros (r' & Hr & Hd' & Ha & ->). apply lookup_app_Some in Hr as [Hr|[Hi Hr]].
    + left. exists r'. done.
    + apply list_lookup_singleton_Some in Hr as [Hi' ->]. right.
      apply Happ in Ha as (? & ? & ?). split_and!; [done..|lia].
Qed.

(** The loop over the rules: the builders hold what the rules say. *)
Lemma compile_rules_represents x groups tags rules :
  let body := λ i r ad, compileRule x groups tags (pointer "/rules" [PIndex i]) i r ad in
  Forall rule_ok rules → errs (for_range 0 rules (∅, ∅) body) = [] →
  ∃ csa csd,
    represents (val (for_range 0 rules (∅, ∅) body)).1 csa ∧
    represents (val (for_range 0 rules (∅, ∅) body)).2 csd ∧
    from_rules x groups tags rules false csa ∧ from_rules x groups tags rules true csd ∧
    Forall (λ r, ∃ p, errs (rule_parts x groups tags p r) = []) rules.
Proof.
  intros body Hok He.
  apply (for_range_inv body (λ pre ad, Forall rule_ok pre → ∃ csa csd,
     represents ad.1 csa ∧ represents ad.2 csd ∧
     from_rules x groups tags pre false csa ∧ from_rules x groups tags pre true csd ∧
     Forall (λ r, ∃ p, errs (rule_parts x groups tags p r) = []) pre)
    rules [] (∅, ∅)); [| |done|done].
  2:{ intros _. exists [], []. split_and!; auto using represents_empty, from_rules_nil. }
  intros pre r [allow deny] IH Hb Hpre. apply Forall_app in Hpre as [Hpre [[Hports _] _]%Forall_cons].
  destruct (IH Hpre) as (csa & csd & Ha & Hd & Hfa & Hfd & Hall). simpl in Ha, Hd.
  unfold body, compileRule in *.
  set (p := pointer "/rules" [PIndex (length pre)]) in *.
  pose proof (rule_parts_ok x groups tags p r) as Hparts.
  assert (Herr : errs (rule_parts x groups tags p r) = []).
  { destruct (rule_parts x groups tags p r) as [pt es]. by destruct es. }
  specialize (Hparts Herr). pose proof (row_ports_ok r Hports) as Hrp.
  destruct (rule_parts x groups tags p r) as [[[[accounts targets] actions] ps] es] eqn:E.
  simpl in Herr, Hparts. subst es. destruct Hparts as (-> & Happ & _).
  assert (Hall' : Forall (λ r, ∃ p, errs (rule_parts x groups tags p r) = []) (pre ++ [r])).
  { apply Forall_app. split; [done|]. apply Forall_singleton. exists p. by rewrite E. }
  destruct (Actions r).2 eqn:ED; simpl.
  - exists csa, (csd ++ contribs accounts targets actions (row_ports r) (length pre)).
    split_and!; [done|by apply represents_add_grants| | |done].
    + apply from_rules_skip; [done|congruence].
    + by apply from_rules_add.
  - exists (csa ++ contribs accounts targets actions (row_ports r) (length pre)), csd.
    split_and!; [by apply represents_add_grants|done| | |done].
    + by apply from_rules_add.
    + apply from_rules_skip; [done|congruence].
Qed.

(** What Compile returns when it reports no error. *)
Record compiled_ok (d : Document) (inv : Inventory) (c : Compiled) (allow deny : builder)
    (csa csd : list contrib) : Prop := {
  co_x : c_x c = newIndex inv;
  co_groups : c_groups c = val (compileGroups d (newIndex inv));
  co_tags : c_tags c = val (compileTags d (newIndex inv));
  co_allow : represents allow csa;
  co_deny : represents deny csd;
  co_allows : Allows c = b_list allow;
  co_denies : Denies c = b_list deny;
  co_grants : Grants c = subtract (b_list allow) (b_list deny);
  co_switch : AllowPrivateAccess c = negb (Team inv) || default false (d_AllowPrivateAccess d);
  co_scopes : Scopes c = foldl (λ acc t, <[tk_ID t := (compileScope (c_x c) (c_tags c) (tk_Scope t)).1]> acc)
                           ∅ (Tokens inv);
  co_rows : c_rows c = sortRows (mjoin (imap (symbolicRows (c_x c)) (d_Rules d)));
  co_from_allow : from_rules (c_x c) (c_groups c) (c_tags c) (d_Rules d) false csa;
  co_from_deny : from_rules (c_x c) (c_groups c) (c_tags c) (d_Rules d) true csd;
  co_rules_ok : Forall (λ r, ∃ p, errs (rule_parts (c_x c) (c_groups c) (c_tags c) p r) = []) (d_Rules d);
  co_ports_ok : Forall rule_ok (d_Rules d);
}.

Lemma Compile_ok d inv limits c :
  Compile d inv limits = (c, []) → Forall rule_ok (d_Rules d) →
  ∃ allow deny csa csd, compiled_ok d inv c allow deny csa csd.
Proof.
  unfold Compile. intros HC Hok.
  destruct (compile_checks d inv limits (newIndex inv)) as [[[groups tags] [allow deny]] es] eqn:E.
  destruct es as [|e es].
  2:{ assert (He : sorted (e :: es) = []) by congruence. by rewrite sorted_nil_iff in He. }
  injection HC as <-.
  assert (Hv : val (compile_checks d inv limits (newIndex inv)) = (groups, tags, (allow, deny))) by by rewrite E.
  assert (He : errs (compile_checks d inv limits (newIndex inv)) = []) by by rewrite E.
  unfold compile_checks in Hv, He. rewrite !W_bind_val in Hv. rewrite !W_bind_ok in He.
  destruct He as (_ & _ & _ & _ & He & _). cbn [val ret fst] in Hv. injection Hv as <- <- Hv.
  destruct (compile_rules_represents _ _ _ _ Hok He) as (csa & csd & Ha & Hd & Hfa & Hfd & Hall).
  match type of Ha with represents ?v.1 _ =>
    assert (Heq : v = (allow, deny)) by exact Hv; rewrite Heq in Ha, Hd end.
  exists allow, deny, csa, csd. by split.
Qed.

End semantics.
