(* ===== verification/DecideSpec.v ===== *)
(** * Decide implements the meaning of the policy *)
From S2P Require Import Prelude GoStd Ports Inventory PolicyDoc Parse Rules Compile Eval Semantics.

Section decide.
Context `{GoRuntime}.

(** The targets a question is about: the target itself and, for a preview or tunnel,
    the machine it runs on. *)
Definition asked (x : index) (t t' : Target) : Prop := t' = t ∨ host_target x t = Some t'.

(** Some rule of the file allows (denies) the action on the target, at the port for
    private_access. *)
Definition says (d : Document) (c : Compiled) (deny : bool) (account : string) (t : Target)
    (action : string) (port : Z) : Prop :=
  ∃ t' i, asked (c_x c) t t' ∧
    rule_says (c_x c) (c_groups c) (c_tags c) (d_Rules d) deny (account, t', action) port i.

(** The meaning of a question: the owner guardrail, else an allow and no deny; for
    private_access also the team switch, at the asked port, or at any port when 0 is asked. *)
Definition spec_allowed (d : Document) (c : Compiled) (account : string) (t : Target)
    (action : string) (port : Z) : Prop :=
  is_Some (byAccount (c_x c) !! account) ∧
  (owns c account t action = true ∨
   if is_private action then
     AllowPrivateAccess c = true ∧
     ∃ p, (port = 0%Z ∨ p = port) ∧ says d c false account t action p ∧ ¬ says d c true account t action p
   else says d c false account t action 0 ∧ ¬ says d c true account t action 0).

(** ** Lookups mean what the rules say *)

Lemma represents_some b cs x groups tags rules deny k :
  represents b cs → from_rules x groups tags rules deny cs → is_private k.2 = false →
  is_Some (b !! k) ↔ ∃ i, rule_says x groups tags rules deny k 0 i.
Proof.
  intros Hb Hcs Hp. specialize (Hb k). unfold rule_says. split.
  - intros [g Hg]. rewrite Hg in Hb. destruct (gr_some _ _ _ Hb) as (ps & i & Hin).
    apply Hcs in Hin as (r & ? & ? & ? & ?). exists i, r. split_and!; [done..|congruence].
  - intros (i & r & Hr & Hd & Ha & _). destruct (b !! k) as [g|]; [eauto|].
    destruct (Hb (row_ports r) i). apply Hcs. eauto.
Qed.

Lemma represents_ports b cs x groups tags rules deny k p :
  represents b cs → from_rules x groups tags rules deny cs → is_private k.2 = true →
  covers (from_option g_Ports [] (b !! k)) p ↔ ∃ i, rule_says x groups tags rules deny k p i.
Proof.
  intros Hb Hcs Hp. specialize (Hb k). unfold rule_says. destruct (b !! k) as [g|]; simpl.
  - pose proof (gr_ports _ _ _ Hb) as Hg. rewrite Hp in Hg. rewrite (proj2 Hg p). split.
    + intros (ps & i & Hin & Hc). apply Hcs in Hin as (r & ? & ? & ? & ->). eauto 10.
    + intros (i & r & ? & ? & ? & Hc). exists (row_ports r), i.
      split; [|by apply Hc]. apply Hcs. eauto.
  - rewrite covers_nil. split; [done|]. intros (i & r & Hr & Hd & Ha & _).
    apply (Hb (row_ports r) i), Hcs. eauto.
Qed.

Lemma represents_ports_ok b cs k g :
  represents b cs → b !! k = Some g → normalized (g_Ports g).
Proof.
  intros Hb Hk. specialize (Hb k). rewrite Hk in Hb. pose proof (gr_ports _ _ _ Hb) as Hg.
  destruct (is_private k.2); [apply Hg|]. rewrite Hg. auto with pb.
Qed.

(** ** Matching grants *)

(** [matching] over the list of a builder. *)
Lemma matching_b_list c b cs a t act :
  represents b cs →
  matching c (b_list b) a t act =
  option_list (b !! (a, t, act)) ++
  option_list (host_target (c_x c) t ≫= λ h, b !! (a, h, act)).
Proof.
  intros Hb. unfold matching. rewrite !findGrant_b_list by by eapply represents_keyed.
  destruct (host_target (c_x c) t) as [h|]; simpl; [|by destruct (b !! _)].
  rewrite findGrant_b_list by by eapply represents_keyed.
  by destruct (b !! (a, t, act)), (b !! (a, h, act)).
Qed.

Lemma elem_of_matching c b cs a t act g :
  represents b cs →
  g ∈ matching c (b_list b) a t act ↔ ∃ t', asked (c_x c) t t' ∧ b !! (a, t', act) = Some g.
Proof.
  intros Hb. rewrite (matching_b_list _ _ cs) by done. unfold asked.
  rewrite elem_of_app, !elem_of_option_list, bind_Some. naive_solver.
Qed.

Lemma matching_ports_ok c b cs a t act :
  represents b cs → Forall port_ok (mjoin (g_Ports <$> matching c (b_list b) a t act)).
Proof.
  intros Hb. apply Forall_forall. intros p Hp. apply list_elem_of_join in Hp as (ps & Hp & Hps).
  apply list_elem_of_fmap in Hps as (g & -> & Hg).
  apply (elem_of_matching c b cs) in Hg as (t' & _ & Hg); [|done].
  apply (represents_ports_ok b cs) in Hg; [|done]. apply normalized_ok in Hg.
  rewrite Forall_forall in Hg. auto.
Qed.

Lemma covers_join gs p : covers (mjoin (g_Ports <$> gs)) p ↔ ∃ g, g ∈ gs ∧ covers (g_Ports g) p.
Proof.
  unfold covers. setoid_rewrite list_elem_of_join. setoid_rewrite list_elem_of_fmap. split.
  - intros (r & (ps & Hr & g & -> & Hg) & Hp). eauto 6.
  - intros (g & Hg & r & Hr & Hp). eauto 10.
Qed.

Lemma ports_matching c b cs a t act p :
  represents b cs →
  covers (ports (matching c (b_list b) a t act)) p ↔
  ∃ t', asked (c_x c) t t' ∧ covers (from_option g_Ports [] (b !! (a, t', act))) p.
Proof.
  intros Hb. unfold ports. rewrite mergePorts_covers by by eapply matching_ports_ok.
  rewrite covers_join. setoid_rewrite (elem_of_matching c b cs); [|done]. split.
  - intros (g & (t' & Ht & Hg) & Hp). exists t'. by rewrite Hg.
  - intros (t' & Ht & Hp). destruct (b !! (a, t', act)) as [g|] eqn:E; simpl in Hp; [eauto 6|].
    by apply covers_nil in Hp.
Qed.

Lemma matching_nil c b cs a t act :
  represents b cs →
  matching c (b_list b) a t act ≠ [] ↔ ∃ t', asked (c_x c) t t' ∧ is_Some (b !! (a, t', act)).
Proof.
  intros Hb. split.
  - intros Hne. destruct (matching c (b_list b) a t act) as [|g l] eqn:E; [done|].
    assert (Hg : g ∈ matching c (b_list b) a t act) by (rewrite E; left).
    apply (elem_of_matching c b cs) in Hg as (t' & ? & ?); eauto.
  - intros (t' & Ht & [g Hg]) Hnil.
    assert (Hin : g ∈ matching c (b_list b) a t act) by (apply (elem_of_matching c b cs); eauto).
    rewrite Hnil in Hin. by apply elem_of_nil in Hin.
Qed.

(** ** The refinement *)

Section compiled.
Context {d : Document} {inv : Inventory} {c : Compiled}.
Context {allow deny : builder} {csa csd : list contrib}.
Context (Hc : compiled_ok d inv c allow deny csa csd).

Lemma allows_say a t act :
  is_private act = false → matching c (Allows c) a t act ≠ [] ↔ says d c false a t act 0.
Proof.
  intros Hp. rewrite (co_allows _ _ _ _ _ _ _ Hc), (matching_nil _ _ csa) by apply Hc.
  unfold says. split.
  - intros (t' & Ht & Hs). apply (represents_some _ csa (c_x c) (c_groups c) (c_tags c) (d_Rules d) false)
      in Hs as [i Hi]; [|apply Hc|apply Hc|done]. eauto.
  - intros (t' & i & Ht & Hi). exists t'. split; [done|].
    apply (represents_some _ csa (c_x c) (c_groups c) (c_tags c) (d_Rules d) false);
      [apply Hc|apply Hc|done|eauto].
Qed.

Lemma denies_say a t act :
  is_private act = false → matching c (Denies c) a t act ≠ [] ↔ says d c true a t act 0.
Proof.
  intros Hp. rewrite (co_denies _ _ _ _ _ _ _ Hc), (matching_nil _ _ csd) by apply Hc.
  unfold says. split.
  - intros (t' & Ht & Hs). apply (represents_some _ csd (c_x c) (c_groups c) (c_tags c) (d_Rules d) true)
      in Hs as [i Hi]; [|apply Hc|apply Hc|done]. eauto.
  - intros (t' & i & Ht & Hi). exists t'. split; [done|].
    apply (represents_some _ csd (c_x c) (c_groups c) (c_tags c) (d_Rules d) true);
      [apply Hc|apply Hc|done|eauto].
Qed.

Lemma allow_ports_say a t act p :
  is_private act = true → covers (ports (matching c (Allows c) a t act)) p ↔ says d c false a t act p.
Proof.
  intros Hp. rewrite (co_allows _ _ _ _ _ _ _ Hc), (ports_matching _ _ csa) by apply Hc.
  unfold says. setoid_rewrite (represents_ports _ csa (c_x c) (c_groups c) (c_tags c) (d_Rules d) false);
    [|apply Hc|apply Hc|done]. naive_solver.
Qed.

Lemma deny_ports_say a t act p :
  is_private act = true → covers (ports (matching c (Denies c) a t act)) p ↔ says d c true a t act p.
Proof.
  intros Hp. rewrite (co_denies _ _ _ _ _ _ _ Hc), (ports_matching _ _ csd) by apply Hc.
  unfold says. setoid_rewrite (represents_ports _ csd (c_x c) (c_groups c) (c_tags c) (d_Rules d) true);
    [|apply Hc|apply Hc|done]. naive_solver.
Qed.

Lemma allow_ports_ok a t act : Forall port_ok (ports (matching c (Allows c) a t act)).
Proof. rewrite (co_allows _ _ _ _ _ _ _ Hc). apply mergePorts_ok. eapply matching_ports_ok, Hc. Qed.

Lemma deny_ports_ok a t act : Forall port_ok (ports (matching c (Denies c) a t act)).
Proof. rewrite (co_denies _ _ _ _ _ _ _ Hc). apply mergePorts_ok. eapply matching_ports_ok, Hc. Qed.

(** The private_access part of Decide in one formula. *)
Lemma private_branch (allows denies : list Grant) (sw : bool) (port : Z) paths dpaths :
  Forall port_ok (ports allows) → Forall port_ok (ports denies) →
  let open := subtractPorts (ports allows) (ports denies) in
  Allowed (if negb (bool_decide (denies = [])) && (negb (port =? 0)%Z && portsContain (ports denies) port)
           then denied "denied_by_rule" dpaths
           else if bool_decide (allows = []) then denied "no_rule" []
           else if negb sw then denied "private_access_off" paths
           else if bool_decide (open = []) then denied "denied_by_rule" dpaths
           else if negb (port =? 0)%Z && negb (portsContain open port) then denied "port_not_allowed" paths
           else mkDecision true "rule" paths)
  = sw && (if (port =? 0)%Z then negb (bool_decide (open = [])) else portsContain open port).
Proof.
  intros Ha Hd open.
  assert (Ho : portsContain open port = portsContain (ports allows) port && negb (portsContain (ports denies) port)).
  { apply bool_eq_iff. rewrite andb_true_iff, negb_true_iff, <-not_true_iff_false, !portsContain_covers.
    by apply subtractPorts_covers. }
  assert (Hall : allows = [] → open = []) by (intros ->; apply subtractPorts_nil; done).
  destruct (Z.eqb port 0), sw, (portsContain (ports denies) port) eqn:E1, (portsContain open port) eqn:E2;
    simpl; repeat case_bool_decide; simpl; try done; exfalso; try (by auto); try congruence.
  all: simpl in Ho; rewrite ?andb_false_r, ?andb_true_r in Ho; try congruence.
  all: repeat match goal with Hn : _ = [] |- _ => first [rewrite (Hall Hn) in E2|rewrite Hn in E2] end; done.
Qed.

(** Decide, with the lookups of the grants named. *)
Lemma Decide_allowed account t act port :
  let allows := matching c (Allows c) account t act in
  let denies := matching c (Denies c) account t act in
  Allowed (Decide c account t act port) = true ↔
  is_Some (byAccount (c_x c) !! account) ∧
  (owns c account t act = true ∨
   if is_private act then
     AllowPrivateAccess c = true ∧
     ∃ p, (port = 0%Z ∨ p = port) ∧ covers (ports allows) p ∧ ¬ covers (ports denies) p
   else allows ≠ [] ∧ denies = []).
Proof.
  intros allows denies. unfold Decide. fold allows denies.
  destruct (byAccount (c_x c) !! account) as [m|]; [|split; [done|by intros [[? ?] _]]].
  destruct (owns c account t act); [split; [by eauto|done]|].
  pose proof (allow_ports_ok account t act) as Hoa. pose proof (deny_ports_ok account t act) as Hod.
  fold allows denies in Hoa, Hod.
  assert (Hs : ∀ P : Prop, is_Some (Some m) ∧ (false = true ∨ P) ↔ P) by (intros; naive_solver).
  rewrite Hs. clear Hs. destruct (is_private act) eqn:Ep; cbn [negb orb].
  - rewrite private_branch, andb_true_iff by done. f_equiv.
    setoid_rewrite <-(subtractPorts_covers (ports allows) (ports denies) _ Hoa Hod).
    destruct (Z.eqb_spec port 0) as [->|Hne].
    + rewrite negb_true_iff, bool_decide_eq_false, covers_exists by auto with pb. naive_solver.
    + rewrite portsContain_covers. naive_solver.
  - repeat case_bool_decide; simpl; naive_solver.
Qed.

Lemma Decide_spec account t act port :
  Allowed (Decide c account t act port) = true ↔ spec_allowed d c account t act port.
Proof.
  rewrite Decide_allowed. unfold spec_allowed.
  destruct (is_private act) eqn:Ep.
  - setoid_rewrite allow_ports_say; [|done]. by setoid_rewrite deny_ports_say.
  - rewrite <-allows_say, <-denies_say by done.
    destruct (matching c (Denies c) account t act); naive_solver.
Qed.
End compiled.

(** C1: Decide implements the meaning of the policy: for a policy that compiles without
    errors, a question is answered with allowed exactly when the account is a member and
    either the owner guardrail holds, or some allow rule covers the question and no deny rule
    does; private_access also needs the team switch and counts ports one by one. *)
Theorem decide_refines_spec (d : Document) (inv : Inventory) (limits : Limits) (c : Compiled)
    (HC : Compile d inv limits = (c, [])) (Hok : Forall rule_ok (d_Rules d)) :
  ∀ account t action port,
    Allowed (Decide c account t action port) = true ↔ spec_allowed d c account t action port.
Proof.
  destruct (Compile_ok d inv limits c HC Hok) as (allow & deny & csa & csd & Hc).
  intros. by apply (Decide_spec Hc).
Qed.

(** ** Errors differ only in their paths

    Checking the same rule at another place of the file gives the same values, and the
    same errors at other paths. *)
Definition what_of (e : Error) : string * string := (Code e, Message e).

Definition W_sim {A} (m m' : W A) : Prop := val m = val m' ∧ what_of <$> errs m = what_of <$> errs m'.

#[local] Instance W_sim_refl {A} : Reflexive (@W_sim A).
Proof. by intros m. Qed.

Lemma W_sim_nil {A} (m m' : W A) : W_sim m m' → errs m = [] → errs m' = [].
Proof. intros [_ He] Hn. rewrite Hn in He. symmetry in He. by apply fmap_nil_inv in He. Qed.

Lemma W_sim_add p p' code msg : W_sim (c_add p code msg) (c_add p' code msg).
Proof. done. Qed.

Lemma W_sim_bind {A B} (m m' : W A) (f f' : A → W B) :
  W_sim m m' → (∀ a, W_sim (f a) (f' a)) → W_sim (bind m f) (bind m' f').
Proof.
  intros [Hv He] Hf. destruct (Hf (val m)) as [Hfv Hfe]. split.
  - by rewrite !W_bind_val, <-Hv.
  - by rewrite !W_bind_errs, !fmap_app, <-Hv, He, Hfe.
Qed.

Lemma W_sim_for_range {A B} (body body' : nat → A → B → W B) l i j acc :
  (∀ i j a b, W_sim (body i a b) (body' j a b)) →
  W_sim (for_range i l acc body) (for_range j l acc body').
Proof.
  intros Hb. revert i j acc; induction l as [|a l IH]; intros i j acc; simpl; [done|].
  apply W_sim_bind; [done|]. intros; apply IH.
Qed.

(** Splits a checking function into its primitive steps. *)
Ltac wsim :=
  repeat first
    [ apply W_sim_refl | apply W_sim_add
    | apply W_sim_for_range; intros | apply W_sim_bind; [|intros]
    | case_match ].

Lemma resolveUser_sim p p' x e what : W_sim (resolveUser p x e what) (resolveUser p' x e what).
Proof. unfold resolveUser. wsim. Qed.

Lemma machineError_sim p p' x name : W_sim (machineError p x name) (machineError p' x name).
Proof. unfold machineError. wsim. Qed.

Lemma ruleSubjects_sim x groups p p' src : W_sim (ruleSubjects x groups p src) (ruleSubjects x groups p' src).
Proof.
  unfold ruleSubjects. apply W_sim_for_range. intros i j e out. apply W_sim_bind; [|done].
  unfold subject_entry. wsim. all: apply resolveUser_sim.
Qed.

Lemma ruleTargets_sim x tags p p' dst : W_sim (ruleTargets x tags p dst) (ruleTargets x tags p' dst).
Proof.
  unfold ruleTargets. apply W_sim_for_range. intros i j e acc. apply W_sim_bind.
  - unfold target_entry. wsim. all: apply machineError_sim.
  - intros r. wsim.
Qed.

Lemma ruleActions_sim family p p' acts : W_sim (ruleActions family p acts) (ruleActions family p' acts).
Proof. unfold ruleActions, action_entry. wsim. Qed.

Lemma rulePorts_sim p p' actions ps deny : W_sim (rulePorts p actions ps deny) (rulePorts p' actions ps deny).
Proof. unfold rulePorts. wsim. Qed.

Lemma rule_parts_sim x groups tags p p' r : W_sim (rule_parts x groups tags p r) (rule_parts x groups tags p' r).
Proof.
  unfold rule_parts, check_empty. destruct (Actions r) as [acts denies].
  do 3 (apply W_sim_bind; [wsim|intros _]).
  apply W_sim_bind; [apply ruleSubjects_sim|intros accounts].
  apply W_sim_bind; [apply ruleTargets_sim|intros ft].
  apply W_sim_bind; [apply ruleActions_sim|intros actions].
  apply W_sim_bind; [apply rulePorts_sim|done].
Qed.

(** ** The order of the rules *)

Definition with_rules (d : Document) (rs : list Rule) : Document :=
  mkDocument (d_Schema d) (d_AllowPrivateAccess d) (d_Groups d) (d_Tags d) rs (d_Tests d).

Lemma for_range_ok_iff {A B} (body : nat → A → B → W B) (P : A → Prop) l i acc :
  (∀ i a b, errs (body i a b) = [] ↔ P a) → errs (for_range i l acc body) = [] ↔ Forall P l.
Proof.
  intros Hb. revert i acc; induction l as [|a l IH]; intros i acc; simpl; [done|].
  by rewrite W_bind_ok, Forall_cons, Hb, IH.
Qed.

Lemma over_ok path n max what :
  errs (over path n max what) = [] ↔ ((0 <? max) && (max <? Z.of_nat n))%Z = false.
Proof. unfold over. by destruct (_ && _)%bool. Qed.

Lemma compileRule_errs x groups tags p i r ad :
  errs (compileRule x groups tags p i r ad) = [] ↔ errs (rule_parts x groups tags "" r) = [].
Proof.
  assert (He : errs (compileRule x groups tags p i r ad) = errs (rule_parts x groups tags p r)).
  { unfold compileRule. destruct (rule_parts x groups tags p r) as [[[[a t] ac] ps] [|e es]]; [|done].
    destruct ad, (Actions r).2; done. }
  rewrite He. split; apply W_sim_nil, rule_parts_sim.
Qed.

Lemma checkLimits_perm d rs l :
  rs ≡ₚ d_Rules d → errs (checkLimits d l) = [] → errs (checkLimits (with_rules d rs) l) = [].
Proof.
  intros Hp. unfold checkLimits. rewrite !W_bind_ok. cbn [d_Rules d_Tags d_Groups d_Tests with_rules].
  rewrite (Permutation_length Hp). intros (? & ? & ? & ? & ? & ? & Hr). split_and!; [done..|]. revert Hr.
  set (P := λ r, ((0 <? MaxEntriesPerList l) && (MaxEntriesPerList l <? Z.of_nat (length (Src r))))%Z = false ∧
                 ((0 <? MaxEntriesPerList l) && (MaxEntriesPerList l <? Z.of_nat (length (Dst r))))%Z = false).
  rewrite !(for_range_ok_iff _ P) by (intros; by rewrite W_bind_ok, !over_ok). by rewrite Hp.
Qed.

Lemma compile_checks_perm d rs inv limits x :
  rs ≡ₚ d_Rules d → errs (compile_checks d inv limits x) = [] →
  errs (compile_checks (with_rules d rs) inv limits x) = [].
Proof.
  intros Hp. unfold compile_checks. rewrite !W_bind_ok.
  intros (Hl & Hg & Ht & Hs & Hr & _).
  split_and!; [by apply checkLimits_perm|done|done|done| |done]. revert Hr.
  rewrite !(for_range_ok_iff _ (λ r, errs (rule_parts x (val (compileGroups d x)) (val (compileTags d x)) "" r) = []))
    by (intros; apply compileRule_errs).
  cbn [d_Rules with_rules]. by rewrite Hp.
Qed.

Lemma Compile_errs d inv limits :
  (∃ c, Compile d inv limits = (c, [])) ↔ errs (compile_checks d inv limits (newIndex inv)) = [].
Proof.
  unfold Compile.
  destruct (compile_checks d inv limits (newIndex inv)) as [[[groups tags] [allow deny]] [|e es]].
  - split; [done|]. eauto.
  - split; [|done]. intros [c HC]. assert (He : sorted (e :: es) = []) by congruence.
    by rewrite sorted_nil_iff in He.
Qed.

(** *** Two policies with the same rules in another order *)

(** Some rule of a kind applies, whatever its ports. *)
Definition applies (d : Document) (c : Compiled) (deny : bool) (account : string) (t : Target)
    (action : string) : Prop :=
  ∃ t' r, asked (c_x c) t t' ∧ r ∈ d_Rules d ∧ (Actions r).2 = deny ∧
    rule_applies (c_x c) (c_groups c) (c_tags c) r account t' action.

Lemma matching_applies (d : Document) (c : Compiled) (deny : bool) (b : builder) (cs : list contrib) a t act :
  represents b cs → from_rules (c_x c) (c_groups c) (c_tags c) (d_Rules d) deny cs →
  matching c (b_list b) a t act ≠ [] ↔ applies d c deny a t act.
Proof.
  intros Hb Hcs. rewrite (matching_nil _ _ cs) by done. unfold applies. split.
  - intros (t' & Ht & [g Hg]). specialize (Hb (a, t', act)). rewrite Hg in Hb.
    destruct (gr_some _ _ _ Hb) as (ps & i & Hin). apply Hcs in Hin as (r & Hr & ? & ? & _).
    exists t', r. split_and!; [done|by eapply list_elem_of_lookup_2|done|done].
  - intros (t' & r & Ht & Hr & Hd & Ha). exists t'. split; [done|].
    apply list_elem_of_lookup in Hr as [i Hi]. specialize (Hb (a, t', act)).
    destruct (b !! (a, t', act)) as [g|]; [eauto|]. destruct (Hb (row_ports r) i). apply Hcs. eauto.
Qed.

Lemma not_iff_compat_dec {A} (l l' : list A) : (l ≠ [] ↔ l' ≠ []) → (l = [] ↔ l' = []).
Proof. destruct l, l'; naive_solver. Qed.

(** What a decision depends on. *)
Lemma Decide_ext c c' a t act port :
  c_x c' = c_x c → AllowPrivateAccess c' = AllowPrivateAccess c →
  (matching c' (Allows c') a t act = [] ↔ matching c (Allows c) a t act = []) →
  (matching c' (Denies c') a t act = [] ↔ matching c (Denies c) a t act = []) →
  (is_private act = true →
     ports (matching c' (Allows c') a t act) = ports (matching c (Allows c) a t act) ∧
     ports (matching c' (Denies c') a t act) = ports (matching c (Denies c) a t act)) →
  Allowed (Decide c' a t act port) = Allowed (Decide c a t act port) ∧
  Reason (Decide c' a t act port) = Reason (Decide c a t act port).
Proof.
  intros Hx Hs Ha Hd Hp. unfold Decide.
  assert (Ho : owns c' a t act = owns c a t act) by (unfold owns; by rewrite Hx).
  rewrite Hx, Hs, Ho. rewrite (bool_decide_ext _ _ Ha), (bool_decide_ext _ _ Hd).
  destruct (byAccount (c_x c) !! a); [|done]. destruct (owns c a t act); [done|].
  destruct (is_private act); simpl; [destruct (Hp eq_refl) as [-> ->]|]; repeat case_match; done.
Qed.

(** Rule order never matters: if a policy compiles, the same policy with its rules in
    any other order compiles too, and every question gets the same answer for the same
    reason. *)
Theorem rule_order_irrelevant (d : Document) (rs : list Rule) (inv : Inventory) (limits : Limits)
    (c : Compiled) (HC : Compile d inv limits = (c, [])) (Hok : Forall rule_ok (d_Rules d))
    (Hperm : rs ≡ₚ d_Rules d) :
  ∃ c', Compile (with_rules d rs) inv limits = (c', []) ∧
    ∀ account t action port,
      Allowed (Decide c' account t action port) = Allowed (Decide c account t action port) ∧
      Reason (Decide c' account t action port) = Reason (Decide c account t action port).
Proof.
  assert (Hex : ∃ c', Compile (with_rules d rs) inv limits = (c', [])).
  { apply Compile_errs, compile_checks_perm; [done|]. apply Compile_errs. eauto. }
  destruct Hex as [c' HC']. exists c'. split; [done|]. intros account t act port.
  destruct (Compile_ok d inv limits c HC Hok) as (al & de & csa & csd & Hc).
  assert (Hok' : Forall rule_ok (d_Rules (with_rules d rs))) by (cbn; by rewrite Hperm).
  destruct (Compile_ok _ inv limits c' HC' Hok') as (al' & de' & csa' & csd' & Hc').
  assert (Hx : c_x c' = c_x c) by (rewrite (co_x _ _ _ _ _ _ _ Hc), (co_x _ _ _ _ _ _ _ Hc'); done).
  assert (Hg : c_groups c' = c_groups c)
    by (rewrite (co_groups _ _ _ _ _ _ _ Hc), (co_groups _ _ _ _ _ _ _ Hc'); done).
  assert (Ht : c_tags c' = c_tags c)
    by (rewrite (co_tags _ _ _ _ _ _ _ Hc), (co_tags _ _ _ _ _ _ _ Hc'); done).
  assert (Happ : ∀ deny, applies (with_rules d rs) c' deny account t act ↔ applies d c deny account t act).
  { intros deny. unfold applies. rewrite Hx, Hg, Ht. cbn [d_Rules with_rules]. by setoid_rewrite Hperm. }
  assert (Hsays : ∀ deny p, says (with_rules d rs) c' deny account t act p ↔ says d c deny account t act p).
  { intros deny p. unfold says, rule_says. rewrite Hx, Hg, Ht. cbn [d_Rules with_rules].
    split; intros (t' & i & Hask & r & Hr & Hrest);
      apply list_elem_of_lookup_2 in Hr; [rewrite Hperm in Hr|rewrite <-Hperm in Hr];
      apply list_elem_of_lookup in Hr as [j Hj]; eauto 10. }
  apply Decide_ext; [done| | | |].
  - by rewrite (co_switch _ _ _ _ _ _ _ Hc), (co_switch _ _ _ _ _ _ _ Hc').
  - apply not_iff_compat_dec.
    rewrite (co_allows _ _ _ _ _ _ _ Hc), (co_allows _ _ _ _ _ _ _ Hc').
    rewrite (matching_applies (with_rules d rs) c' false _ csa') by apply Hc'.
    rewrite (matching_applies d c false _ csa) by apply Hc. done.
  - apply not_iff_compat_dec.
    rewrite (co_denies _ _ _ _ _ _ _ Hc), (co_denies _ _ _ _ _ _ _ Hc').
    rewrite (matching_applies (with_rules d rs) c' true _ csd') by apply Hc'.
    rewrite (matching_applies d c true _ csd) by apply Hc. done.
  - intros Hp. split; apply normalized_unique;
      try (apply mergePorts_normalized;
           rewrite ?(co_allows _ _ _ _ _ _ _ Hc), ?(co_allows _ _ _ _ _ _ _ Hc'),
                   ?(co_denies _ _ _ _ _ _ _ Hc), ?(co_denies _ _ _ _ _ _ _ Hc');
           eapply matching_ports_ok; first [apply Hc|apply Hc']).
    + intros p. rewrite (allow_ports_say Hc), (allow_ports_say Hc') by done. apply Hsays.
    + intros p. rewrite (deny_ports_say Hc), (deny_ports_say Hc') by done. apply Hsays.
Qed.

End decide.

(** ** A concrete policy *)

Definition no_limits : Limits := mkLimits 0 0 0 0 0 0.

(** Every member may open terminals on the tagged machine, nobody may run commands there, and the
    on-call group reaches one port of it. *)
Definition sample_policy : Document := {|
  d_Schema := "";
  d_AllowPrivateAccess := Some true;
  d_Groups := {["group:oncall" := ["user:bo@example.test"]]};
  d_Tags := {["tag:prod" := ["machine:db1"]]};
  d_Rules := [
    mkRule ["role:member"] ["tag:prod"] ["terminal"; "exec"] None None "";
    mkRule ["*"] ["tag:prod"] [] (Some ["exec"]) None "";
    mkRule ["group:oncall"] ["machine:db1"] ["private_access"] None (Some [mkPortRange 5432 5432]) "";
    mkRule ["user:bo@example.test"] ["preview:shop"] ["inspect"] None None ""];
  d_Tests := [mkTest "user:bo@example.test" "machine:db1" ["terminal"; "private_access:5432"] ["exec"]];
|}.

Definition sample_compiled : Compiled :=
  (Compile (H := eval_runtime) sample_policy sample_inventory no_limits).1.

Lemma sample_compiles :
  Compile (H := eval_runtime) sample_policy sample_inventory no_limits = (sample_compiled, []).
Proof.
  unfold sample_compiled.
  assert (Hs : (Compile (H := eval_runtime) sample_policy sample_inventory no_limits).2 = [])
    by (vm_compute; reflexivity).
  rewrite <-Hs. apply surjective_pairing.
Qed.

Lemma sample_rules_ok : Forall rule_ok (d_Rules sample_policy).
Proof.
  repeat constructor; simpl; try lia; try (intros ? [=]); done.
Qed.

Lemma decide_refines_spec_witness :
  Allowed (Decide sample_compiled "acc-bo" (mkTarget "machine" "m1") "terminal" 0) = true ∧
  spec_allowed (H := eval_runtime) sample_policy sample_compiled "acc-bo" (mkTarget "machine" "m1") "terminal" 0.
Proof.
  split; [vm_compute; reflexivity|].
  apply (decide_refines_spec (H := eval_runtime) sample_policy sample_inventory no_limits sample_compiled).
  - exact sample_compiles.
  - exact sample_rules_ok.
  - vm_compute; reflexivity.
Defined.

Lemma rule_order_irrelevant_witness :
  ∃ c', Compile (H := eval_runtime) (with_rules sample_policy (reverse (d_Rules sample_policy)))
          sample_inventory no_limits = (c', []) ∧
    Reason (Decide c' "acc-bo" (mkTarget "machine" "m1") "exec" 0) = "denied_by_rule".
Proof.
  destruct (rule_order_irrelevant (H := eval_runtime) sample_policy (reverse (d_Rules sample_policy))
    sample_inventory no_limits sample_compiled sample_compiles sample_rules_ok (reverse_Permutation _))
    as (c' & HC' & Hq).
  exists c'. split; [exact HC'|].
  rewrite (proj2 (Hq "acc-bo" (mkTarget "machine" "m1") "exec" 0%Z)). vm_compute; reflexivity.
Defined.
