(* ===== verification/Access.v ===== *)
(** * Effective access and the access-change review: shared/policy/diff.go

    The definitions of diff.go, and what the stored grant list, token scopes and the
    file's own tests mean in terms of Decide. *)
From S2P Require Import Prelude GoStd Ports Inventory PolicyDoc Parse Rules Compile Eval Semantics DecideSpec.

(** ** Definitions *)

Record Access := mkAccess {
  a_Subject : string;
  a_Target : string;
  a_Action : string;
  a_Ports : string;
  a_Reason : string;
  a_Rules : list string;
}.

(** Change embeds Access. *)
Record Change := mkChange { ch_Change : string; ch_Access : Access }.

Fixpoint portsLabel_from (i : nat) (s : string) (ps : list PortRange) : string :=
  match ps with
  | [] => s
  | p :: ps' =>
      let s := if (0 <? i)%nat then s +:+ "," else s in
      portsLabel_from (S i) (s +:+ PortRange_String p) ps'
  end.

Definition portsLabel (ps : list PortRange) : string := portsLabel_from 0 "" ps.

Section access.
Context `{GoRuntime}.

(** Compiled.access *)
Definition access (c : Compiled) (g : Grant) : Access :=
  mkAccess (userLabel (c_x c) (g_Account g)) (targetLabel (c_x c) (g_Target g)) (g_Action g)
    (if is_private (g_Action g) then portsLabel (g_Ports g) else "") "rule" (rulePaths [g]).

(** Compiled.unowned *)
Definition unowned (c : Compiled) (gs : list Grant) : list Grant :=
  List.filter (λ g, negb (owns c (g_Account g) (g_Target g) (g_Action g))) gs.

Definition lost (c : Compiled) (g : Grant) : Change := mkChange "lost" (access c g).
Definition gained (c : Compiled) (g : Grant) : Change := mkChange "gained" (access c g).

(** The merge loop of Changes over what is left of both lists. *)
Fixpoint changes_loop (before after : Compiled) (b : list Grant) : list Grant → list Change :=
  fix go (a : list Grant) : list Change :=
    match b, a with
    | [], [] => []
    | x :: b', [] => lost before x :: changes_loop before after b' a
    | [], y :: a' => gained after y :: go a'
    | x :: b', y :: a' =>
        if grantLess x y then lost before x :: changes_loop before after b' a
        else if grantLess y x then gained after y :: go a'
        else
          (if negb (bool_decide (g_Ports x = g_Ports y)) then [lost before x; gained after y] else [])
          ++ changes_loop before after b' a'
    end.

Definition Changes (before after : Compiled) : list Change :=
  changes_loop before after (unowned before (Enforced before)) (unowned after (Enforced after)).

(** The open ports of a question: what the allow rules give less what the deny rules take. *)
Definition open_ports (c : Compiled) (account : string) (t : Target) (action : string) : list PortRange :=
  subtractPorts (ports (matching c (Allows c) account t action))
    (ports (matching c (Denies c) account t action)).

(** Compiled.WhoCan *)
Definition who_can (c : Compiled) (t : Target) (action : string) (m : Member) : option Access :=
  let d := Decide c (AccountID m) t action 0 in
  if negb (Allowed d) then None
  else Some (mkAccess (userLabel (c_x c) (AccountID m)) (targetLabel (c_x c) t) action
    (if is_private action && String.eqb (Reason d) "rule"
     then portsLabel (open_ports c (AccountID m) t action) else "")
    (Reason d) (d_paths d)).

Definition WhoCan (c : Compiled) (t : Target) (action : string) : list Access :=
  omap (who_can c t action) (Members (ix_inv (c_x c))).

(** Compiled.WhatCan *)
Definition owned_access (c : Compiled) (account : string) (m : Machine) : list Access :=
  let t := mkTarget "machine" (mc_ID m) in
  (λ action, mkAccess (userLabel (c_x c) account) (targetLabel (c_x c) t) action "" "owner" [])
  <$> List.filter (owns c account t) MachineActions.

Definition WhatCan (c : Compiled) (account : string) : list Access :=
  mjoin (owned_access c account <$> Machines (ix_inv (c_x c))) ++
  (access c <$> List.filter (λ g, String.eqb (g_Account g) account) (Enforced c)).

(** Compiled.User and Compiled.Target *)
Definition User (c : Compiled) (name : string) : string * bool := user (c_x c) name.
Definition Compiled_Target (c : Compiled) (name : string) : Target * bool := target (c_x c) name.

End access.

(** ** The merge of the review *)

(** The grant is still there, with the same ports. *)
Definition kept_in (gs : list Grant) (g : Grant) : Prop :=
  ∃ g', g' ∈ gs ∧ key_of g' = key_of g ∧ g_Ports g' = g_Ports g.

Lemma kept_in_nil g : ¬ kept_in [] g.
Proof. intros (g' & Hin & _). by apply elem_of_nil in Hin. Qed.

Lemma exists_cons (x : Grant) (b : list Grant) (P : Grant → Prop) :
  (∃ g, g ∈ x :: b ∧ P g) ↔ P x ∨ ∃ g, g ∈ b ∧ P g.
Proof.
  setoid_rewrite elem_of_cons. split.
  - intros (g & [->|?] & ?); eauto.
  - intros [?|(g & ? & ?)]; eauto.
Qed.

Lemma kept_in_cons y gs g :
  kept_in (y :: gs) g ↔ (key_of y = key_of g ∧ g_Ports y = g_Ports g) ∨ kept_in gs g.
Proof. apply exists_cons. Qed.

Lemma kept_in_cons_other y gs g : key_of y ≠ key_of g → kept_in (y :: gs) g ↔ kept_in gs g.
Proof. rewrite kept_in_cons. tauto. Qed.

Lemma sorted_tail y gs : grants_sorted (y :: gs) → grants_sorted gs.
Proof. intros Hs. by apply StronglySorted_inv in Hs as [? _]. Qed.

Lemma grantLess_same_key x y : grantLess x y = false → grantLess y x = false → key_of x = key_of y.
Proof. intros H1 H2. apply grant_key_inj. by apply strs_ltb_antisym. Qed.

Lemma grantLess_neq x y : grantLess x y = true → key_of x ≠ key_of y.
Proof. intros Hlt Hk. rewrite (grantLess_key_l x y) in Hlt by done. by rewrite grantLess_irrefl in Hlt. Qed.

Lemma sorted_head_fresh y gs g : grants_sorted (y :: gs) → g ∈ gs → key_of y ≠ key_of g.
Proof.
  intros Hs Hin. apply StronglySorted_inv in Hs as [_ Hy]. rewrite Forall_forall in Hy.
  by apply grantLess_neq, Hy.
Qed.

(** A key below the first of a sorted list is not in it. *)
Lemma sorted_below x y gs g : grants_sorted (y :: gs) → grantLess x y = true → g ∈ y :: gs → key_of x ≠ key_of g.
Proof.
  intros Hs Hlt Hg. apply grantLess_neq. apply elem_of_cons in Hg as [->|Hg]; [done|].
  apply StronglySorted_inv in Hs as [_ Hy]. rewrite Forall_forall in Hy.
  by apply (strs_ltb_trans _ (grant_key y)), Hy.
Qed.

Lemma sorted_below_not_kept x y gs : grants_sorted (y :: gs) → grantLess x y = true → ¬ kept_in (y :: gs) x.
Proof. intros Hs Hlt (g & Hg & Hk & _). by apply (sorted_below x y gs g). Qed.

(** The entries of one side of the review: those of [b] that [a] does not keep. *)
Definition only_in (b a : list Grant) (mk : Grant → Change) (ch : Change) : Prop :=
  ∃ g, g ∈ b ∧ ch = mk g ∧ ¬ kept_in a g.

Lemma only_in_nil_l a mk ch : only_in [] a mk ch ↔ False.
Proof. split; [|done]. intros (g & Hg & _). by apply elem_of_nil in Hg. Qed.

Lemma only_in_cons_l x b a mk ch :
  only_in (x :: b) a mk ch ↔ (ch = mk x ∧ ¬ kept_in a x) ∨ only_in b a mk ch.
Proof. apply exists_cons. Qed.

Lemma only_in_cons_r y b a mk ch :
  (∀ g, g ∈ b → key_of y ≠ key_of g) → only_in b (y :: a) mk ch ↔ only_in b a mk ch.
Proof.
  intros Hne. unfold only_in. split; intros (g & Hg & ? & Hk); exists g; split_and!; try done;
    specialize (Hne g Hg); by rewrite kept_in_cons_other in *.
Qed.

(** Equal heads: one is kept by the other exactly when the ports are the same. *)
Lemma kept_in_same_head x y a :
  grants_sorted (y :: a) → key_of x = key_of y → kept_in (y :: a) x ↔ g_Ports y = g_Ports x.
Proof.
  intros Hs Hk. rewrite kept_in_cons. split; [|by left].
  intros [[_ ?]|(g & Hg & Hkg & _)]; [done|].
  destruct (sorted_head_fresh y a g Hs Hg). congruence.
Qed.

#[export] Instance kept_in_dec gs g : base.Decision (kept_in gs g).
Proof.
  refine (cast_if (decide (Exists (λ g', key_of g' = key_of g ∧ g_Ports g' = g_Ports g) gs)));
    by rewrite Exists_exists in *.
Defined.

Section review.
Context `{GoRuntime}.

Lemma elem_of_changes_loop before after b a ch :
  grants_sorted b → grants_sorted a →
  ch ∈ changes_loop before after b a ↔ only_in b a (lost before) ch ∨ only_in a b (gained after) ch.
Proof.
  revert a; induction b as [|x b IHb]; intros a; induction a as [|y a IHa]; intros Hb Ha; simpl;
    pose proof kept_in_nil as Hnil.
  - rewrite elem_of_nil, !only_in_nil_l. tauto.
  - rewrite elem_of_cons, IHa by eauto using sorted_tail.
    rewrite !only_in_nil_l, only_in_cons_l. specialize (Hnil y). tauto.
  - rewrite elem_of_cons, IHb by eauto using sorted_tail.
    rewrite !only_in_nil_l, only_in_cons_l. specialize (Hnil x). tauto.
  - destruct (grantLess x y) eqn:Exy; [|destruct (grantLess y x) eqn:Eyx].
    + rewrite elem_of_cons, IHb by eauto using sorted_tail.
      rewrite (only_in_cons_r x), (only_in_cons_l x) by (intros g; by apply sorted_below).
      pose proof (sorted_below_not_kept x y a Ha Exy). tauto.
    + rewrite elem_of_cons, IHa by eauto using sorted_tail.
      rewrite (only_in_cons_r y (x :: b)), (only_in_cons_l y) by (intros g; by apply sorted_below).
      pose proof (sorted_below_not_kept y x b Hb Eyx). tauto.
    + pose proof (grantLess_same_key _ _ Exy Eyx) as Hk.
      rewrite elem_of_app, IHb by eauto using sorted_tail. rewrite !only_in_cons_l.
      rewrite (only_in_cons_r y b) by (intros g Hg; rewrite <-Hk; by apply (sorted_head_fresh x b)).
      rewrite (only_in_cons_r x a) by (intros g Hg; rewrite Hk; by apply (sorted_head_fresh y a)).
      rewrite !kept_in_same_head by done.
      case_bool_decide; simpl; rewrite ?elem_of_cons, ?elem_of_nil; naive_solver.
Qed.

(** ** The stored grants *)

Lemma elem_of_subtract allows denies g :
  g ∈ subtract allows denies ↔ ∃ g0, g0 ∈ allows ∧ subtract_grant denies g0 = Some g.
Proof. unfold subtract. apply list_elem_of_omap. Qed.

Lemma subtract_grant_key denies g0 g : subtract_grant denies g0 = Some g → key_of g = key_of g0.
Proof. unfold subtract_grant. intros. repeat case_match; by simplify_eq. Qed.

Lemma subtract_sorted allows denies : grants_sorted allows → grants_sorted (subtract allows denies).
Proof.
  unfold subtract. induction 1 as [|g l Hs IH Hg]; [constructor|]. simpl.
  destruct (subtract_grant denies g) as [g'|] eqn:E; [|done].
  constructor; [done|]. apply Forall_forall. intros h Hh.
  apply list_elem_of_omap in Hh as (h0 & Hh0 & Eh). rewrite Forall_forall in Hg.
  rewrite (grantLess_key_l g' g), (grantLess_key_r h h0) by by eapply subtract_grant_key.
  by apply Hg.
Qed.

Lemma filter_sorted f gs : grants_sorted gs → grants_sorted (List.filter f gs).
Proof.
  induction 1 as [|g l Hs IH Hg]; simpl; [constructor|]. destruct (f g); [|done].
  constructor; [done|]. apply Forall_forall. intros h Hh. apply list_elem_of_In, filter_In in Hh as [Hh _].
  rewrite Forall_forall in Hg. by apply Hg, list_elem_of_In.
Qed.

Section compiled.
Context {d : Document} {inv : Inventory} {c : Compiled}.
Context {allow deny : builder} {csa csd : list contrib}.
Context (Hc : compiled_ok d inv c allow deny csa csd).

Lemma enforced_sorted : grants_sorted (Enforced c).
Proof.
  assert (Hg : grants_sorted (Grants c)).
  { rewrite (co_grants _ _ _ _ _ _ _ Hc). apply subtract_sorted, b_list_sorted.
    eapply represents_keyed, Hc. }
  unfold Enforced. destruct (AllowPrivateAccess c); [done|by apply filter_sorted].
Qed.

Lemma elem_of_enforced g :
  g ∈ Enforced c ↔ g ∈ Grants c ∧ (is_private (g_Action g) = true → AllowPrivateAccess c = true).
Proof.
  unfold Enforced. destruct (AllowPrivateAccess c); [naive_solver|].
  rewrite list_elem_of_In, filter_In, <-list_elem_of_In, negb_true_iff.
  destruct (is_private (g_Action g)); naive_solver.
Qed.

(** A stored grant, by what the builders hold for its key. *)
Lemma elem_of_grants g :
  g ∈ Grants c ↔ ∃ g0, allow !! key_of g = Some g0 ∧ subtract_grant (b_list deny) g0 = Some g.
Proof.
  rewrite (co_grants _ _ _ _ _ _ _ Hc), elem_of_subtract.
  pose proof (represents_keyed _ _ (co_allow _ _ _ _ _ _ _ Hc)) as Hk. split.
  - intros (g0 & Hin & Hs). exists g0. split; [|done].
    apply elem_of_b_list in Hin as [k Hg0]. rewrite (subtract_grant_key _ _ _ Hs).
    by rewrite (Hk _ _ Hg0).
  - intros (g0 & Hg0 & Hs). exists g0. split; [apply elem_of_b_list; eauto|done].
Qed.

Lemma subtract_grant_lookup k g0 :
  allow !! k = Some g0 →
  subtract_grant (b_list deny) g0 =
  match deny !! k with
  | None => Some g0
  | Some h =>
      if negb (is_private k.2) then None
      else match subtractPorts (g_Ports g0) (g_Ports h) with
           | [] => None
           | ps => Some (mkGrant (g_Account g0) (g_Target g0) (g_Action g0) ps (g_Rules g0))
           end
  end.
Proof.
  intros Hg0. pose proof (represents_keyed _ _ (co_allow _ _ _ _ _ _ _ Hc) _ _ Hg0) as <-.
  unfold subtract_grant. rewrite findGrant_b_list by (eapply represents_keyed, Hc).
  unfold key_of. destruct (deny !! _); [|done]. by destruct (subtractPorts _ _).
Qed.

(** *** Machine and ENV questions are answered by the stored grants *)

Lemma matching_direct gs a t act :
  host_target (c_x c) t = None → matching c gs a t act = option_list (findGrant gs a t act).
Proof. intros Hh. unfold matching. rewrite Hh, app_nil_r. by destruct (findGrant gs a t act). Qed.

Lemma stored_ports a t act g0 :
  allow !! (a, t, act) = Some g0 → is_private act = true →
  (∀ p, covers (default [] (g_Ports <$> subtract_grant (b_list deny) g0)) p ↔
     covers (g_Ports g0) p ∧ ¬ covers (from_option g_Ports [] (deny !! (a, t, act))) p).
Proof.
  intros Hg0 Hp p. rewrite (subtract_grant_lookup _ _ Hg0). simpl. rewrite Hp; simpl.
  pose proof (represents_ports_ok _ _ _ _ (co_allow _ _ _ _ _ _ _ Hc) Hg0) as Hn0.
  destruct (deny !! (a, t, act)) as [h|] eqn:Eh; simpl; [|rewrite covers_nil; tauto].
  pose proof (represents_ports_ok _ _ _ _ (co_deny _ _ _ _ _ _ _ Hc) Eh) as Hnh.
  rewrite <-subtractPorts_covers by auto with pb. by destruct (subtractPorts (g_Ports g0) (g_Ports h)).
Qed.

(** Every rule of a compiled policy covers some port: an empty list is an error. *)
Lemma rule_ports_covers r : r ∈ d_Rules d → ∃ p, covers (row_ports r) p.
Proof.
  intros Hr. pose proof (co_rules_ok _ _ _ _ _ _ _ Hc) as Hall. pose proof (co_ports_ok _ _ _ _ _ _ _ Hc) as Hok.
  rewrite Forall_forall in Hall, Hok. destruct (Hall r Hr) as [q He]. destruct (Hok r Hr) as [Hp _].
  apply covers_exists; [by apply row_ports_ok|].
  unfold rule_parts in He. destruct (Actions r) as [acts dn] eqn:EA.
  rewrite !W_bind_ok in He. destruct He as (_ & _ & _ & _ & _ & _ & He & _).
  unfold rulePorts in He. unfold row_ports. rewrite EA. destruct (Ports r) as [[|p ps]|] eqn:EP; simpl.
  - rewrite !W_bind_ok in He. by destruct He as (_ & ? & _).
  - intros Hm. apply mergePorts_nil_inv in Hm; [done|exact Hp].
  - by destruct dn.
Qed.

Lemma allow_ports_covers k g0 : allow !! k = Some g0 → is_private k.2 = true → ∃ p, covers (g_Ports g0) p.
Proof.
  intros Hg0 Hp. pose proof (co_allow _ _ _ _ _ _ _ Hc k) as Hb. rewrite Hg0 in Hb.
  destruct (gr_some _ _ _ Hb) as (ps & i & Hin).
  pose proof (proj1 (co_from_allow _ _ _ _ _ _ _ Hc _ _ _) Hin) as (r & Hr & _ & _ & ->).
  destruct (rule_ports_covers r) as [p Hcov]; [by eapply list_elem_of_lookup_2|].
  exists p. pose proof (gr_ports _ _ _ Hb) as Hg. rewrite Hp in Hg. apply Hg. eauto.
Qed.

(** A stored private_access grant has an open port. *)
Lemma stored_covers k g0 g :
  allow !! k = Some g0 → is_private k.2 = true → subtract_grant (b_list deny) g0 = Some g →
  ∃ p, covers (g_Ports g) p.
Proof.
  intros Hg0 Hp Hs. rewrite (subtract_grant_lookup _ _ Hg0), Hp in Hs.
  destruct (deny !! k) as [h|] eqn:Eh; simplify_eq/=; [|by eapply allow_ports_covers].
  pose proof (represents_ports_ok _ _ _ _ (co_allow _ _ _ _ _ _ _ Hc) Hg0).
  pose proof (represents_ports_ok _ _ _ _ (co_deny _ _ _ _ _ _ _ Hc) Eh).
  assert (Hn : normalized (subtractPorts (g_Ports g0) (g_Ports h))) by auto with pb.
  destruct (subtractPorts (g_Ports g0) (g_Ports h)) as [|q qs]; simplify_eq/=.
  apply covers_exists; [by apply normalized_ok|done].
Qed.

Lemma asked_direct t t' : host_target (c_x c) t = None → asked (c_x c) t t' ↔ t' = t.
Proof. intros Hh. unfold asked. rewrite Hh. naive_solver. Qed.

Lemma direct_ports (b : builder) cs a t act p :
  represents b cs → host_target (c_x c) t = None →
  covers (ports (matching c (b_list b) a t act)) p ↔ covers (from_option g_Ports [] (b !! (a, t, act))) p.
Proof.
  intros Hb Hh. rewrite (ports_matching c b cs) by done. setoid_rewrite asked_direct; [|done].
  split; [by intros (t' & -> & ?)|eauto].
Qed.

(** The grant list the server stores, for one key. *)
Definition granted (gs : list Grant) (a : string) (t : Target) (act : string) (port : Z) : Prop :=
  ∃ g, g ∈ gs ∧ key_of g = (a, t, act) ∧
       (is_private act = true → port = 0%Z ∨ covers (g_Ports g) port).

(** private_access: some open port, the asked one or any. *)
Lemma granted_private a t act port :
  is_private act = true →
  granted (Enforced c) a t act port ↔
  AllowPrivateAccess c = true ∧
  ∃ p, (port = 0%Z ∨ p = port) ∧ covers (from_option g_Ports [] (allow !! (a, t, act))) p ∧
       ¬ covers (from_option g_Ports [] (deny !! (a, t, act))) p.
Proof.
  intros Hp. unfold granted. split.
  - intros (g & Hg & Hk & Hport). specialize (Hport Hp).
    apply elem_of_enforced in Hg as [Hg Hsw].
    assert (g_Action g = act) as Hact by (unfold key_of in Hk; congruence). rewrite Hact in Hsw.
    split; [by apply Hsw|]. apply elem_of_grants in Hg as (g0 & Hg0 & Hs). rewrite Hk in Hg0.
    pose proof (stored_ports a t act g0 Hg0 Hp) as Hst. rewrite Hs in Hst; simpl in Hst.
    rewrite Hg0; simpl. setoid_rewrite <-Hst.
    destruct Hport as [->|Hcov]; [|eauto].
    destruct (stored_covers _ _ _ Hg0 Hp Hs) as [p Hcov]. eauto.
  - intros (Hsw & p & Hport & Ha & Hd). destruct (allow !! (a, t, act)) as [g0|] eqn:Eg0; [|by apply covers_nil in Ha].
    pose proof (proj2 (stored_ports a t act g0 Eg0 Hp p) (conj Ha Hd)) as Hcov.
    destruct (subtract_grant (b_list deny) g0) as [g|] eqn:Es; simpl in Hcov; [|by apply covers_nil in Hcov].
    assert (Hk : key_of g = (a, t, act)).
    { rewrite (subtract_grant_key _ _ _ Es). by apply (represents_keyed _ _ (co_allow _ _ _ _ _ _ _ Hc)). }
    exists g. split_and!; [|done|intros _; destruct Hport as [? | ->]; auto].
    apply elem_of_enforced. split; [|done]. apply elem_of_grants. rewrite Hk. eauto.
Qed.

(** Other actions: allowed and not denied. *)
Lemma granted_plain a t act port :
  is_private act = false →
  granted (Enforced c) a t act port ↔ is_Some (allow !! (a, t, act)) ∧ deny !! (a, t, act) = None.
Proof.
  intros Hp. unfold granted. split.
  - intros (g & Hg & Hk & _). apply elem_of_enforced in Hg as [Hg _].
    apply elem_of_grants in Hg as (g0 & Hg0 & Hs). rewrite Hk in Hg0.
    rewrite (subtract_grant_lookup _ _ Hg0) in Hs. simpl in Hs. rewrite Hp in Hs.
    by destruct (deny !! (a, t, act)).
  - intros [[g0 Hg0] Hd]. exists g0.
    assert (Hk : key_of g0 = (a, t, act)) by by apply (represents_keyed _ _ (co_allow _ _ _ _ _ _ _ Hc)).
    assert (Hact : g_Action g0 = act) by (unfold key_of in Hk; congruence).
    split_and!; [|done|congruence]. apply elem_of_enforced. rewrite Hact. split; [|congruence].
    apply elem_of_grants. exists g0. rewrite Hk. split; [done|].
    by rewrite (subtract_grant_lookup _ _ Hg0), Hd.
Qed.

Lemma direct_nil (b : builder) cs a t act :
  represents b cs → host_target (c_x c) t = None →
  matching c (b_list b) a t act ≠ [] ↔ is_Some (b !! (a, t, act)).
Proof.
  intros Hb Hh. rewrite (matching_nil c b cs) by done. setoid_rewrite asked_direct; [|done].
  split; [by intros (t' & -> & ?)|eauto].
Qed.

Lemma enforced_decide a t act port :
  host_target (c_x c) t = None →
  Allowed (Decide c a t act port) = true ↔
  is_Some (byAccount (c_x c) !! a) ∧ (owns c a t act = true ∨ granted (Enforced c) a t act port).
Proof.
  intros Hh. rewrite (Decide_allowed Hc).
  rewrite (co_allows _ _ _ _ _ _ _ Hc), (co_denies _ _ _ _ _ _ _ Hc).
  destruct (is_private act) eqn:Hp.
  - rewrite granted_private by done.
    setoid_rewrite (direct_ports allow csa); [|apply Hc|done].
    setoid_rewrite (direct_ports deny csd); [|apply Hc|done]. done.
  - rewrite granted_plain by done. rewrite (direct_nil allow csa) by (apply Hc || done).
    pose proof (direct_nil deny csd a t act (co_deny _ _ _ _ _ _ _ Hc) Hh) as Hd.
    assert (matching c (b_list deny) a t act = [] ↔ deny !! (a, t, act) = None) as ->; [|done].
    rewrite eq_None_not_Some, <-Hd. destruct (matching c (b_list deny) a t act); naive_solver.
Qed.

End compiled.

(** The grant list the server stores and checks is right for machines and the team
    ENV: for a target that is not a preview or tunnel, Decide allows exactly what the owner
    guardrail gives or an entry of Enforced grants, for private_access at the asked port. *)
Theorem enforced_agrees (d : Document) (inv : Inventory) (limits : Limits) (c : Compiled)
    (HC : Compile d inv limits = (c, [])) (Hok : Forall rule_ok (d_Rules d)) :
  ∀ account t action port, host_target (c_x c) t = None →
    Allowed (Decide c account t action port) = true ↔
    is_Some (byAccount (c_x c) !! account) ∧
    (owns c account t action = true ∨ granted (Enforced c) account t action port).
Proof.
  destruct (Compile_ok d inv limits c HC Hok) as (allow & deny & csa & csd & Hc).
  intros. by apply (enforced_decide Hc).
Qed.

(** *** The review *)

Lemma elem_of_Changes d1 d2 inv1 inv2 l1 l2 before after :
  Compile d1 inv1 l1 = (before, []) → Forall rule_ok (d_Rules d1) →
  Compile d2 inv2 l2 = (after, []) → Forall rule_ok (d_Rules d2) →
  ∀ ch, ch ∈ Changes before after ↔
    only_in (unowned before (Enforced before)) (unowned after (Enforced after)) (lost before) ch ∨
    only_in (unowned after (Enforced after)) (unowned before (Enforced before)) (gained after) ch.
Proof.
  intros HC1 Hok1 HC2 Hok2 ch.
  destruct (Compile_ok d1 inv1 l1 before HC1 Hok1) as (al & dl & csa & csd & Hc1).
  destruct (Compile_ok d2 inv2 l2 after HC2 Hok2) as (al' & dl' & csa' & csd' & Hc2).
  apply elem_of_changes_loop; apply filter_sorted; [apply (enforced_sorted Hc1)|apply (enforced_sorted Hc2)].
Qed.

(** The access-change review lists the enforced access that differs, no more and no less: an
    entry of it is a grant of one policy, outside the owner guardrail, that the other policy does
    not give to the same account, target and action with the same ports; it is lost when the grant
    is of the old policy and gained when it is of the new one. *)
Theorem changes_exact (d1 d2 : Document) (inv1 inv2 : Inventory) (l1 l2 : Limits) (before after : Compiled)
    (HC1 : Compile d1 inv1 l1 = (before, [])) (Hok1 : Forall rule_ok (d_Rules d1))
    (HC2 : Compile d2 inv2 l2 = (after, [])) (Hok2 : Forall rule_ok (d_Rules d2)) :
  let b := unowned before (Enforced before) in
  let a := unowned after (Enforced after) in
  ∀ ch, ch ∈ Changes before after ↔
    (∃ g, g ∈ b ∧ ch = mkChange "lost" (access before g) ∧ ¬ kept_in a g) ∨
    (∃ g, g ∈ a ∧ ch = mkChange "gained" (access after g) ∧ ¬ kept_in b g).
Proof. by apply (elem_of_Changes d1 d2 inv1 inv2 l1 l2). Qed.

Lemma kept_in_granted before after a t act port :
  (∀ g, g ∈ unowned before (Enforced before) → kept_in (unowned after (Enforced after)) g) →
  owns before a t act = false → granted (Enforced before) a t act port → granted (Enforced after) a t act port.
Proof.
  intros Hkept Ho (g & Hg & Hk & Hp).
  destruct (Hkept g) as (g' & Hg' & Hk' & Hports).
  { apply list_elem_of_In, filter_In. split; [by apply list_elem_of_In|].
    unfold key_of in Hk. simplify_eq. by rewrite Ho. }
  apply list_elem_of_In, filter_In in Hg' as [Hg' _]. apply list_elem_of_In in Hg'.
  exists g'. rewrite Hports, Hk'. done.
Qed.

Lemma Changes_nil_kept (b a : list Grant) mk :
  (∀ ch, ¬ only_in b a mk ch) → ∀ g, g ∈ b → kept_in a g.
Proof.
  intros Hn g Hg. destruct (decide (kept_in a g)) as [|Hk]; [done|].
  destruct (Hn (mk g)). by exists g.
Qed.

(** An empty review means that no machine or ENV access changes: when Changes lists nothing
    between two policies compiled for one inventory, Decide answers every question about a target
    that is not a preview or tunnel alike under both, at every port. *)
Theorem empty_review_sound (d1 d2 : Document) (inv : Inventory) (l1 l2 : Limits) (before after : Compiled)
    (HC1 : Compile d1 inv l1 = (before, [])) (Hok1 : Forall rule_ok (d_Rules d1))
    (HC2 : Compile d2 inv l2 = (after, [])) (Hok2 : Forall rule_ok (d_Rules d2))
    (Hnil : Changes before after = []) :
  ∀ account t action port, host_target (c_x before) t = None →
    Allowed (Decide before account t action port) = Allowed (Decide after account t action port).
Proof.
  intros account t act port Hh.
  pose proof (elem_of_Changes d1 d2 inv inv l1 l2 before after HC1 Hok1 HC2 Hok2) as Hch.
  rewrite Hnil in Hch. setoid_rewrite elem_of_nil in Hch.
  assert (Hlost := Changes_nil_kept (unowned before (Enforced before))
            (unowned after (Enforced after)) (lost before) ltac:(intros ch ?; apply (Hch ch); auto)).
  assert (Hgained := Changes_nil_kept (unowned after (Enforced after))
            (unowned before (Enforced before)) (gained after) ltac:(intros ch ?; apply (Hch ch); auto)).
  destruct (Compile_ok d1 inv l1 before HC1 Hok1) as (al & dl & csa & csd & Hc1).
  destruct (Compile_ok d2 inv l2 after HC2 Hok2) as (al' & dl' & csa' & csd' & Hc2).
  assert (Hx : c_x after = c_x before) by (by rewrite (co_x _ _ _ _ _ _ _ Hc1), (co_x _ _ _ _ _ _ _ Hc2)).
  assert (Ho : owns after account t act = owns before account t act) by (unfold owns; by rewrite Hx).
  apply bool_eq_iff. rewrite (enforced_decide Hc1), (enforced_decide Hc2), Hx, Ho by congruence.
  destruct (owns before account t act) eqn:Eo; [naive_solver|].
  split; intros [? [?|Hg]]; try done; (split; [done|right]).
  - by apply (kept_in_granted before).
  - by apply (kept_in_granted after).
Qed.

(** *** Who can *)

Lemma Decide_rule_reason c a t act port :
  Reason (Decide c a t act port) = "rule" →
  is_Some (byAccount (c_x c) !! a) ∧ owns c a t act = false ∧ (is_private act = true → AllowPrivateAccess c = true).
Proof.
  unfold Decide. destruct (byAccount (c_x c) !! a); [|done]. destruct (owns c a t act); [done|].
  destruct (is_private act); simpl.
  - destruct (AllowPrivateAccess c); [by eauto|]. repeat case_match; done.
  - by eauto.
Qed.

Lemma open_ports_decide d inv c allow deny csa csd a t act port p :
  compiled_ok d inv c allow deny csa csd → is_private act = true → p ≠ 0%Z →
  Reason (Decide c a t act port) = "rule" →
  portsContain (open_ports c a t act) p = Allowed (Decide c a t act p).
Proof.
  intros Hc Hp Hne Hr. apply Decide_rule_reason in Hr as (Hm & Ho & Hsw).
  apply bool_eq_iff. rewrite (Decide_allowed Hc), Hp, Ho, portsContain_covers. unfold open_ports.
  rewrite subtractPorts_covers by (apply (allow_ports_ok Hc) || apply (deny_ports_ok Hc)).
  rewrite (Hsw Hp). split.
  - intros [? ?]. split; [done|]. right. split; [done|]. eauto.
  - intros (_ & [?|(_ & q & [?| ->] & ? & ?)]); done.
Qed.

(** WhoCan answers for the meaning of the policy: it lists, in the order of the members, exactly
    the members the rules or the owner guardrail allow the action on the target, and the ports it
    prints for private_access are exactly the ports at which Decide allows that member. *)
Theorem who_can_exact (d : Document) (inv : Inventory) (limits : Limits) (c : Compiled)
    (HC : Compile d inv limits = (c, [])) (Hok : Forall rule_ok (d_Rules d)) :
  ∀ t act,
    (∀ m, is_Some (who_can c t act m) ↔ spec_allowed d c (AccountID m) t act 0) ∧
    WhoCan c t act = omap (who_can c t act) (Members inv) ∧
    (∀ m a, who_can c t act m = Some a → is_private act = true → a_Reason a = "rule" →
       ∃ ps, a_Ports a = portsLabel ps ∧ normalized ps ∧
         ∀ p, p ≠ 0%Z → portsContain ps p = Allowed (Decide c (AccountID m) t act p)).
Proof.
  destruct (Compile_ok d inv limits c HC Hok) as (allow & deny & csa & csd & Hc). intros t act. split_and!.
  - intros m. rewrite <-(Decide_spec Hc). unfold who_can.
    destruct (Allowed (Decide c (AccountID m) t act 0)); simpl; [by eauto|].
    split; [by intros [? ?]|done].
  - unfold WhoCan. by rewrite (co_x _ _ _ _ _ _ _ Hc).
  - intros m a. unfold who_can. destruct (Allowed (Decide c (AccountID m) t act 0)); simpl; [|done].
    intros Ha Hp Hr. simplify_eq/=. rewrite Hp, Hr. simpl. eexists. split; [done|]. split.
    + apply subtractPorts_normalized; [apply (allow_ports_ok Hc)|apply (deny_ports_ok Hc)].
    + intros p Hne. by eapply open_ports_decide.
Qed.

End review.

(** ** Concrete policies *)

Lemma enforced_agrees_witness :
  Allowed (Decide sample_compiled "acc-bo" (mkTarget "machine" "m1") "private_access" 5432) = true ∧
  granted (Enforced sample_compiled) "acc-bo" (mkTarget "machine" "m1") "private_access" 5432.
Proof.
  assert (Hd : Allowed (Decide sample_compiled "acc-bo" (mkTarget "machine" "m1") "private_access" 5432) = true)
    by (vm_compute; reflexivity).
  split; [exact Hd|].
  apply (enforced_agrees (H := eval_runtime) sample_policy sample_inventory no_limits sample_compiled
    sample_compiles sample_rules_ok "acc-bo" (mkTarget "machine" "m1") "private_access" 5432%Z
    ltac:(vm_compute; reflexivity)) in Hd.
  destruct Hd as [_ [Ho|Hg]]; [vm_compute in Ho; discriminate Ho|exact Hg].
Defined.

Lemma who_can_exact_witness :
  a_Subject <$> WhoCan (H := eval_runtime) sample_compiled (mkTarget "machine" "m1") "private_access"
    = ["user:bo@example.test"] ∧
  spec_allowed (H := eval_runtime) sample_policy sample_compiled "acc-bo" (mkTarget "machine" "m1") "private_access" 0.
Proof.
  split; [vm_compute; reflexivity|].
  apply (proj1 (who_can_exact (H := eval_runtime) sample_policy sample_inventory no_limits sample_compiled
    sample_compiles sample_rules_ok (mkTarget "machine" "m1") "private_access")
    (mkMember "acc-bo" "bo@example.test" "member")).
  vm_compute. eauto.
Defined.

(** The sample policy with one rule more. *)
Definition sample_plus (r : Rule) : Document := with_rules sample_policy (d_Rules sample_policy ++ [r]).

Definition plus_compiled (r : Rule) : Compiled :=
  (Compile (H := eval_runtime) (sample_plus r) sample_inventory no_limits).1.

(** One port taken from on-call, and a rule that repeats what another rule gives. *)
Definition port_deny : Rule :=
  mkRule ["group:oncall"] ["machine:db1"] [] (Some ["private_access"]) (Some [mkPortRange 5432 5432]) "".
Definition repeated_allow : Rule := mkRule ["user:bo@example.test"] ["machine:db1"] ["terminal"] None None "".
(** Inspecting denied on the machine the preview runs on. *)
Definition host_deny : Rule := mkRule ["user:bo@example.test"] ["machine:db1"] [] (Some ["inspect"]) None "".

Ltac compiles_by_evaluation :=
  match goal with |- ?m = (?c, []) =>
    let Hs := fresh in assert (Hs : m.2 = []) by (vm_compute; reflexivity); rewrite <-Hs; apply surjective_pairing end.

Lemma port_deny_compiles :
  Compile (H := eval_runtime) (sample_plus port_deny) sample_inventory no_limits = (plus_compiled port_deny, []).
Proof. compiles_by_evaluation. Qed.

Lemma repeated_allow_compiles :
  Compile (H := eval_runtime) (sample_plus repeated_allow) sample_inventory no_limits
    = (plus_compiled repeated_allow, []).
Proof. compiles_by_evaluation. Qed.

Lemma host_deny_compiles :
  Compile (H := eval_runtime) (sample_plus host_deny) sample_inventory no_limits = (plus_compiled host_deny, []).
Proof. compiles_by_evaluation. Qed.

Lemma sample_plus_rules_ok r : rule_ok r → Forall rule_ok (d_Rules (sample_plus r)).
Proof. intros. apply Forall_app. split; [exact sample_rules_ok|by apply Forall_singleton]. Qed.

Lemma extra_rules_ok : rule_ok port_deny ∧ rule_ok repeated_allow.
Proof. by repeat constructor; simpl; try lia; try (intros ? [=]). Qed.

Lemma changes_exact_witness :
  Changes (H := eval_runtime) sample_compiled (plus_compiled port_deny) =
    [mkChange "lost" (mkAccess "user:bo@example.test" "machine:db1" "private_access" "5432" "rule" ["/rules/2"])] ∧
  mkChange "lost" (mkAccess "user:bo@example.test" "machine:db1" "private_access" "5432" "rule" ["/rules/2"])
    ∈ Changes (H := eval_runtime) sample_compiled (plus_compiled port_deny).
Proof.
  split; [vm_compute; reflexivity|].
  apply (changes_exact (H := eval_runtime) sample_policy (sample_plus port_deny) sample_inventory sample_inventory
    no_limits no_limits sample_compiled (plus_compiled port_deny) sample_compiles sample_rules_ok
    port_deny_compiles (sample_plus_rules_ok _ (proj1 extra_rules_ok))).
  left. exists (mkGrant "acc-bo" (mkTarget "machine" "m1") "private_access" [mkPortRange 5432 5432] [2%nat]).
  split; [apply (bool_decide_eq_true_1 _); vm_compute; reflexivity|].
  split; [vm_compute; reflexivity|].
  apply (bool_decide_eq_false_1 _). vm_compute. reflexivity.
Defined.

Lemma empty_review_sound_witness :
  Changes (H := eval_runtime) sample_compiled (plus_compiled repeated_allow) = [] ∧
  Allowed (Decide sample_compiled "acc-bo" (mkTarget "machine" "m1") "exec" 0) =
  Allowed (Decide (plus_compiled repeated_allow) "acc-bo" (mkTarget "machine" "m1") "exec" 0).
Proof.
  assert (Hn : Changes (H := eval_runtime) sample_compiled (plus_compiled repeated_allow) = [])
    by (vm_compute; reflexivity).
  split; [exact Hn|].
  apply (empty_review_sound (H := eval_runtime) sample_policy (sample_plus repeated_allow) sample_inventory
    no_limits no_limits sample_compiled (plus_compiled repeated_allow) sample_compiles sample_rules_ok
    repeated_allow_compiles (sample_plus_rules_ok _ (proj2 extra_rules_ok)) Hn).
  vm_compute. reflexivity.
Defined.

(** The review says nothing about a deny on the machine a preview runs on: bo loses the inspection of
    the preview, and Changes lists nothing. *)
Theorem review_misses_host_deny :
  Changes (H := eval_runtime) sample_compiled (plus_compiled host_deny) = [] ∧
  Decide sample_compiled "acc-bo" (mkTarget "preview" "p1") "inspect" 0 = mkDecision true "rule" ["/rules/3"] ∧
  Decide (plus_compiled host_deny) "acc-bo" (mkTarget "preview" "p1") "inspect" 0
    = mkDecision false "denied_by_rule" ["/rules/4"].
Proof. vm_compute. done. Qed.
