(* ===== verification/Tokens.v ===== *)
(** * API tokens and the file's own tests

    What the scope of a token means (compileScope, DecideToken), the divergence between
    compiled and stored scopes, and that a validated file passes its tests. *)
From S2P Require Import Prelude GoStd Ports Inventory PolicyDoc Parse Rules Compile Eval Semantics DecideSpec.

Section tokens.
Context `{GoRuntime}.

(** ** The meaning of a scope *)

Definition scope_ports (e : ScopeEntry) : list PortRange :=
  match sc_Ports e with Some ps => mergePorts ps | None => [DefaultPrivatePorts] end.

Definition scope_entry_applies (x : index) (tags : gmap string (list string)) (e : ScopeEntry)
    (t : Target) (act : string) : Prop :=
  (∃ dst, dst ∈ sc_Dst e ∧ target_matches x tags dst t) ∧ act ∈ expand_star (sc_Allow e).

(** A valid entry of the scope covers the target and action, at the port for
    private_access. *)
Definition scope_says (x : index) (tags : gmap string (list string)) (scope : list ScopeEntry)
    (t : Target) (act : string) (port : Z) : Prop :=
  ∃ i e, scope !! i = Some e ∧ errs (scope_parts x tags i e) = [] ∧
    scope_entry_applies x tags e t act ∧ (is_private act = true → port = 0%Z ∨ covers (scope_ports e) port).

Definition scope_contribs (x : index) (tags : gmap string (list string)) (scope : list ScopeEntry)
    (cs : list contrib) : Prop :=
  ∀ k ps i, (k, ps, i) ∈ cs ↔
    ∃ e, scope !! i = Some e ∧ errs (scope_parts x tags i e) = [] ∧ k.1.1 = "" ∧
         scope_entry_applies x tags e k.1.2 k.2 ∧ ps = scope_ports e.

Lemma scope_parts_ok x tags i e :
  errs (scope_parts x tags i e) = [] →
  let '(targets, actions, ps) := val (scope_parts x tags i e) in
  ps = scope_ports e ∧
  ∀ t act, t ∈ targets ∧ act ∈ actions ↔ scope_entry_applies x tags e t act.
Proof.
  unfold scope_parts, scope_entry_applies. rewrite !W_bind_ok, !W_bind_val. cbn [val ret fst].
  set (p := pointer "" [PIndex i]). intros (Hne & Ht & Ha & _).
  assert (Hdst : sc_Dst e ≠ []) by (intros Heq; by rewrite Heq in Hne).
  destruct (ruleTargets_family _ _ _ _ Ht) as [_ Hf]. specialize (Hf Hdst). split.
  - unfold rulePorts, scope_ports. destruct (sc_Ports e); [|done]. by rewrite !W_bind_val.
  - intros t act. destruct (ruleActions_ok _ _ _ act Hf Ha) as [Hact _].
    by rewrite elem_of_ruleTargets, Hact.
Qed.

Lemma scope_ports_ok e : ports_ok (sc_Ports e) → Forall port_ok (scope_ports e).
Proof.
  intros Hp. unfold scope_ports, ports_ok in *. destruct (sc_Ports e); simpl in *; [by apply mergePorts_ok|].
  apply Forall_singleton; auto with pb.
Qed.

Lemma scope_contribs_nil x tags : scope_contribs x tags [] [].
Proof. intros k ps i. rewrite elem_of_nil. split; [done|]. by intros (e & ? & _). Qed.

Lemma scope_contribs_skip x tags pre e cs :
  scope_contribs x tags pre cs → errs (scope_parts x tags (length pre) e) ≠ [] →
  scope_contribs x tags (pre ++ [e]) cs.
Proof.
  unfold scope_contribs. intros Hcs Hne k ps i. rewrite Hcs. split.
  - intros (e' & Hi & ?). exists e'. split; [by apply lookup_app_l_Some|done].
  - intros (e' & Hi & He & ?). exists e'. split; [|done].
    apply lookup_app_Some in Hi as [?|[Hle Hi]]; [done|].
    apply list_lookup_singleton_Some in Hi as [Hi ->]. assert (i = length pre) as -> by lia. done.
Qed.

Lemma scope_contribs_add x tags pre e cs targets actions :
  scope_contribs x tags pre cs → errs (scope_parts x tags (length pre) e) = [] →
  (∀ t act, t ∈ targets ∧ act ∈ actions ↔ scope_entry_applies x tags e t act) →
  scope_contribs x tags (pre ++ [e]) (cs ++ contribs [""] targets actions (scope_ports e) (length pre)).
Proof.
  unfold scope_contribs. intros Hcs He Happ k ps i.
  rewrite elem_of_app, Hcs, elem_of_contribs, list_elem_of_singleton. split.
  - intros [(e' & Hi & ?)|(Ha & Ht & Hact & -> & ->)].
    + exists e'. split; [by apply lookup_app_l_Some|done].
    + exists e. split_and!; [by rewrite lookup_app_r, Nat.sub_diag|done|done|by apply Happ|done].
  - intros (e' & Hi & He' & Ha & Hap & ->). apply lookup_app_Some in Hi as [Hi|[Hle Hi]]; [left; eauto 10|].
    apply list_lookup_singleton_Some in Hi as [Hi ->]. right.
    apply Happ in Hap as [? ?]. split_and!; [done..|lia].
Qed.

(** The scope of a token, entry by entry: an entry with an error adds nothing. *)
Lemma scope_builder_represents x tags scope :
  Forall (λ e, ports_ok (sc_Ports e)) scope →
  ∃ cs, represents (val (scope_builder x tags scope)) cs ∧ scope_contribs x tags scope cs.
Proof.
  intros Hok. unfold scope_builder. rewrite W_bind_val.
  match goal with |- context [for_range 0 scope ∅ ?body] =>
    refine (for_range_prefix body (λ pre b, Forall (λ e, ports_ok (sc_Ports e)) pre →
      ∃ cs, represents b cs ∧ scope_contribs x tags pre cs) scope [] ∅ _ _ Hok) end.
  2:{ intros _. exists []. split; [apply represents_empty|apply scope_contribs_nil]. }
  intros pre e b IH Hpre. apply Forall_app in Hpre as [Hpre [He _]%Forall_cons].
  destruct (IH Hpre) as (cs & Hb & Hcs).
  pose proof (scope_parts_ok x tags (length pre) e) as Hparts.
  destruct (scope_parts x tags (length pre) e) as [[[targets actions] ps] es] eqn:E.
  destruct es as [|er es]; simpl in *.
  - destruct (Hparts eq_refl) as [-> Happ]. exists (cs ++ contribs [""] targets actions (scope_ports e) (length pre)).
    split.
    + exact (represents_add_grants b cs [""] targets actions _ _ Hb (scope_ports_ok e He)).
    + apply scope_contribs_add; [done|by rewrite E|done].
  - exists cs. split; [done|]. apply scope_contribs_skip; [done|by rewrite E].
Qed.

(** ** DecideToken *)

Section compiled.
Context {d : Document} {inv : Inventory} {c : Compiled}.
Context {allow deny : builder} {csa csd : list contrib}.
Context (Hc : compiled_ok d inv c allow deny csa csd).

Lemma scopes_lookup (l : list Token) (f : Token → list Grant) (tk : Token) :
  NoDup (tk_ID <$> l) → tk ∈ l →
  foldl (λ acc t, <[tk_ID t := f t]> acc) (∅ : gmap string (list Grant)) l !! tk_ID tk = Some (f tk).
Proof.
  intros Hnd. induction l as [|t l IH] using rev_ind; intros Hin; [by apply elem_of_nil in Hin|].
  rewrite foldl_app; simpl. rewrite fmap_app in Hnd. apply NoDup_app in Hnd as (Hnd & Hdis & _).
  apply elem_of_app in Hin as [Hin|Hin].
  - rewrite lookup_insert_ne; [by apply IH|]. intros Heq.
    apply (Hdis (tk_ID tk)); [by apply list_elem_of_fmap_2|]. rewrite <-Heq. left.
  - apply list_elem_of_singleton in Hin as ->. by rewrite lookup_insert_eq.
Qed.

Lemma scopes_None (l : list Token) (f : Token → list Grant) (token : string) :
  token ∉ tk_ID <$> l →
  foldl (λ acc t, <[tk_ID t := f t]> acc) (∅ : gmap string (list Grant)) l !! token = None.
Proof.
  induction l as [|t l IH] using rev_ind; intros Hn; [done|].
  rewrite fmap_app, elem_of_app in Hn. cbn [fmap list_fmap] in Hn. rewrite list_elem_of_singleton in Hn.
  rewrite foldl_app; simpl. rewrite lookup_insert_ne by (intros Heq; apply Hn; auto).
  apply IH. auto.
Qed.

Section scope.
Context {scope : list ScopeEntry} {b : builder} {cs : list contrib}.
Context (Hb : represents b cs) (Hcs : scope_contribs (c_x c) (c_tags c) scope cs).

Lemma scope_some t act :
  is_Some (b !! ("", t, act)) ↔ ∃ i e, scope !! i = Some e ∧
    errs (scope_parts (c_x c) (c_tags c) i e) = [] ∧ scope_entry_applies (c_x c) (c_tags c) e t act.
Proof.
  pose proof (Hb ("", t, act)) as Hk. split.
  - intros [g Hg]. rewrite Hg in Hk. destruct (gr_some _ _ _ Hk) as (ps & i & Hin).
    apply Hcs in Hin as (e & ? & ? & _ & ? & _). eauto.
  - intros (i & e & Hi & He & Ha). destruct (b !! ("", t, act)); [eauto|].
    destruct (Hk (scope_ports e) i). apply Hcs. eauto 10.
Qed.

Lemma scope_cover t act port :
  is_private act = true →
  covers (from_option g_Ports [] (b !! ("", t, act))) port ↔ ∃ i e, scope !! i = Some e ∧
    errs (scope_parts (c_x c) (c_tags c) i e) = [] ∧ scope_entry_applies (c_x c) (c_tags c) e t act ∧
    covers (scope_ports e) port.
Proof.
  intros Ep. pose proof (Hb ("", t, act)) as Hk. destruct (b !! ("", t, act)) as [g|]; simpl.
  - pose proof (gr_ports _ _ _ Hk) as Hg. simpl in Hg. rewrite Ep in Hg. rewrite (proj2 Hg port). split.
    + intros (ps & i & Hin & ?). apply Hcs in Hin as (e & ? & ? & _ & ? & ->). eauto 10.
    + intros (i & e & ? & ? & ? & ?). exists (scope_ports e), i. split; [|done]. apply Hcs. eauto 10.
  - rewrite covers_nil. split; [done|]. intros (i & e & ? & ? & ? & _).
    apply (Hk (scope_ports e) i), Hcs. eauto 10.
Qed.

(** The check DecideToken makes, in terms of the entries. *)
Lemma scope_matching_says t act port :
  let ins := matching c (b_list b) "" t act in
  bool_decide (ins = []) || (is_private act && negb (port =? 0)%Z && negb (portsContain (ports ins) port)) = false ↔
  ∃ t', asked (c_x c) t t' ∧ scope_says (c_x c) (c_tags c) scope t' act port.
Proof.
  intros ins. unfold ins.
  rewrite orb_false_iff, bool_decide_eq_false, (matching_nil c b cs) by done.
  rewrite !andb_false_iff, !negb_false_iff, Z.eqb_eq, portsContain_covers, (ports_matching c b cs) by done.
  setoid_rewrite scope_some. unfold scope_says. destruct (is_private act) eqn:Ep.
  - setoid_rewrite scope_cover; [|done]. split.
    + intros [(t' & Ht & i & e & ? & ? & ?) [[?| ->]|(t'' & Ht'' & i' & e' & ? & ? & ? & ?)]]; [done| |].
      * exists t'. split; [done|]. exists i, e. eauto.
      * exists t''. split; [done|]. exists i', e'. eauto.
    + intros (t' & Ht & i & e & ? & ? & ? & Hp). specialize (Hp eq_refl).
      split; [by eauto 10|]. destruct Hp as [?|?]; [by eauto|]. eauto 10.
  - split.
    + intros [(t' & Ht & i & e & ? & ? & ?) _]. exists t'. split; [done|]. exists i, e. by split_and!.
    + intros (t' & Ht & i & e & ? & ? & ? & _). split; [by eauto 10|auto].
Qed.
End scope.

Lemma DecideToken_scoped tk creator t act port :
  NoDup (tk_ID <$> Tokens inv) → tk ∈ Tokens inv → Forall (λ e, ports_ok (sc_Ports e)) (tk_Scope tk) →
  Allowed (DecideToken c (tk_ID tk) creator t act port) = true ↔
  Allowed (Decide c creator t act port) = true ∧
  ∃ t', asked (c_x c) t t' ∧ scope_says (c_x c) (c_tags c) (tk_Scope tk) t' act port.
Proof.
  intros Hnd Htk Hports. unfold DecideToken.
  rewrite (co_scopes _ _ _ _ _ _ _ Hc).
  rewrite (scopes_lookup _ (λ t, (compileScope (c_x c) (c_tags c) (tk_Scope t)).1)) by done.
  destruct (scope_builder_represents (c_x c) (c_tags c) (tk_Scope tk) Hports) as (cs & Hb & Hcs).
  rewrite <-(scope_matching_says Hb Hcs). unfold compileScope. cbn [fst].
  destruct (Allowed (Decide c creator t act port)) eqn:EA; cbn [negb]; [|rewrite EA; naive_solver].
  case_bool; [|rewrite EA; naive_solver]. naive_solver.
Qed.

Lemma DecideToken_unscoped token creator t act port :
  token ∉ tk_ID <$> Tokens inv → DecideToken c token creator t act port = Decide c creator t act port.
Proof.
  intros Hn. unfold DecideToken. rewrite (co_scopes _ _ _ _ _ _ _ Hc).
  by rewrite (scopes_None _ (λ t, (compileScope (c_x c) (c_tags c) (tk_Scope t)).1)).
Qed.
End compiled.

(** A token never does more than its creator, and a scoped token only what its scope lists:
    without a scope DecideToken answers as Decide does for the creator; with one it allows exactly
    what Decide allows and some valid entry of the scope covers, where an entry on a machine also
    covers the previews and tunnels that run on it, and an entry with an error covers nothing. *)
Theorem token_scope_narrows (d : Document) (inv : Inventory) (limits : Limits) (c : Compiled)
    (HC : Compile d inv limits = (c, [])) (Hok : Forall rule_ok (d_Rules d))
    (Hids : NoDup (tk_ID <$> Tokens inv)) :
  (∀ token creator t act port, token ∉ tk_ID <$> Tokens inv →
     DecideToken c token creator t act port = Decide c creator t act port) ∧
  (∀ tk creator t act port, tk ∈ Tokens inv → Forall (λ e, ports_ok (sc_Ports e)) (tk_Scope tk) →
     Allowed (DecideToken c (tk_ID tk) creator t act port) = true ↔
     Allowed (Decide c creator t act port) = true ∧
     ∃ t', asked (c_x c) t t' ∧ scope_says (c_x c) (c_tags c) (tk_Scope tk) t' act port).
Proof.
  destruct (Compile_ok d inv limits c HC Hok) as (allow & deny & csa & csd & Hc). split.
  - intros. by apply (DecideToken_unscoped Hc).
  - intros. by apply (DecideToken_scoped Hc).
Qed.

(** ** The tests of the file *)

Context `{HuJSON}.

(** An entry of a test is answered as the test says. *)
Definition test_entry_ok (c : Compiled) (s : string) (tg : Target) (want : bool) (a : string) : Prop :=
  let '(action, port, valid) := testAction a in
  valid = true ∧ Allowed (Decide c s tg action port) = want.

Lemma run_list_ok c p t s tg field l want :
  errs (run_list c p t s tg field l want) = [] → Forall (test_entry_ok c s tg want) l.
Proof.
  intros He. apply Forall_forall. intros a Ha. apply list_elem_of_lookup in Ha as [j Hj].
  destruct (for_range_ok _ _ _ _ He j a Hj) as ([] & Hb). unfold test_entry_ok.
  destruct (testAction a) as [[action port] valid]. destruct valid; simpl in Hb; [|done].
  destruct (Bool.eqb (Allowed (Decide c s tg action port)) want) eqn:E; simpl in Hb; [|done].
  by apply eqb_prop in E.
Qed.

Lemma run_test_ok c i t :
  errs (run_test c i t) = [] →
  ∃ s tg, user (c_x c) (t_Src t) = (s, true) ∧ target (c_x c) (t_Dst t) = (tg, true) ∧
    Forall (test_entry_ok c s tg true) (t_Allow t) ∧ Forall (test_entry_ok c s tg false) (t_Deny t).
Proof.
  unfold run_test. destruct (user (c_x c) (t_Src t)) as [s ok], (target (c_x c) (t_Dst t)) as [tg tok].
  rewrite !W_bind_ok. intros (H1 & H2 & H3). destruct ok; [|done]. destruct tok; [|done].
  simpl in H3. rewrite W_bind_ok in H3. destruct H3 as [H3 H4].
  exists s, tg. split_and!; [done|done|by eapply run_list_ok|by eapply run_list_ok].
Qed.

(** Validate is sound: when it reports no error, the file was parsed, compiled and is within the
    size limit, and each of its tests holds: its subject and target resolve in the workspace and each
    entry is answered, by the meaning of the rules, as the test says. *)
Theorem validate_sound (src : string) (inv : Inventory) (limits : Limits) (d : Document) (oc : option Compiled)
    (Hv : Validate src inv limits = (d, oc, [])) :
  ∃ c, oc = Some c ∧ Parse src = (d, []) ∧ Compile d inv limits = (c, []) ∧
    ((0 < MaxBytes limits)%Z → (Z.of_nat (String.length src) ≤ MaxBytes limits)%Z) ∧
    ∀ t, t ∈ d_Tests d → ∃ s tg,
      user (c_x c) (t_Src t) = (s, true) ∧ target (c_x c) (t_Dst t) = (tg, true) ∧
      (∀ a, a ∈ t_Allow t → let '(action, port, valid) := testAction a in
              valid = true ∧ spec_allowed d c s tg action port) ∧
      (∀ a, a ∈ t_Deny t → let '(action, port, valid) := testAction a in
              valid = true ∧ ¬ spec_allowed d c s tg action port).
Proof.
  unfold Validate in Hv. destruct (_ && _)%bool eqn:Esize; [done|].
  destruct (Parse src) as [d' es] eqn:EP. destruct es; [|done].
  destruct (Compile d' inv limits) as [c es] eqn:EC. destruct es; [|done].
  injection Hv as -> <- Hr. exists c. pose proof (parse_rules_ok src d EP) as Hok.
  destruct (Compile_ok d inv limits c EC Hok) as (allow & deny & csa & csd & Hc).
  split_and!; [done..| |].
  { intros Hpos. to_prop. destruct Esize; to_prop; lia. }
  intros t Ht. apply list_elem_of_lookup in Ht as [i Hi].
  unfold RunTests in Hr. rewrite sorted_nil_iff in Hr.
  destruct (for_range_ok _ _ _ _ Hr i t Hi) as ([] & Hb). apply run_test_ok in Hb as (s & tg & Hs & Htg & Ha & Hd).
  rewrite Forall_forall in Ha, Hd. unfold test_entry_ok in *.
  exists s, tg. split_and!; [done|done| |]; intros a Hin.
  - specialize (Ha a Hin). destruct (testAction a) as [[action port] valid]. destruct Ha as [-> Ha].
    split; [done|]. by apply (Decide_spec Hc).
  - specialize (Hd a Hin). destruct (testAction a) as [[action port] valid]. destruct Hd as [-> Hd].
    split; [done|]. rewrite <-(Decide_spec Hc), Hd. done.
Qed.

End tokens.

(** ** A concrete token *)

(** A CI token that may reach the private ports of one machine, its ports left out. *)
Definition ci_token : Token :=
  mkToken "tok-ci" "acc-bo" [mkScopeEntry ["machine:db1"] ["private_access"] None].

Definition token_inventory : Inventory := {|
  Team := true; TeamID := "team1";
  Members := Members sample_inventory; Machines := Machines sample_inventory;
  Resources := Resources sample_inventory; Tokens := [ci_token];
|}.

Definition token_policy : Document := {|
  d_Schema := ""; d_AllowPrivateAccess := Some true; d_Groups := ∅; d_Tags := ∅;
  d_Rules := [mkRule ["role:member"] ["machine:db1"] ["private_access"] None
                (Some [mkPortRange 22 22; mkPortRange 5432 5432]) ""];
  d_Tests := [];
|}.

Definition token_compiled : Compiled :=
  (Compile (H := eval_runtime) token_policy token_inventory no_limits).1.

Lemma token_compiles :
  Compile (H := eval_runtime) token_policy token_inventory no_limits = (token_compiled, []).
Proof.
  unfold token_compiled.
  assert (Hs : (Compile (H := eval_runtime) token_policy token_inventory no_limits).2 = [])
    by (vm_compute; reflexivity).
  rewrite <-Hs. apply surjective_pairing.
Qed.

Lemma token_rules_ok : Forall rule_ok (d_Rules token_policy).
Proof. repeat constructor; simpl; try lia; try (intros ? [=]); done. Qed.

Lemma token_scope_narrows_witness :
  Allowed (DecideToken token_compiled "tok-ci" "acc-bo" (mkTarget "machine" "m1") "private_access" 5432) = true ∧
  Allowed (Decide token_compiled "acc-bo" (mkTarget "machine" "m1") "private_access" 5432) = true.
Proof.
  assert (Hd : Allowed (DecideToken token_compiled "tok-ci" "acc-bo" (mkTarget "machine" "m1") "private_access" 5432) = true)
    by (vm_compute; reflexivity).
  split; [exact Hd|].
  apply (proj2 (token_scope_narrows (H := eval_runtime) token_policy token_inventory no_limits token_compiled
           token_compiles token_rules_ok ltac:(apply (bool_decide_eq_true_1 _); vm_compute; reflexivity))
           ci_token "acc-bo" (mkTarget "machine" "m1") "private_access" 5432%Z) in Hd;
    [exact (proj1 Hd)|left|repeat constructor].
Defined.

(** The stored form of a scope entry without ports covers every port, as the comment of ScopeRows
    says, while DecideToken gives it the default ports 1024 to 65535: the creator may reach port 22,
    the stored row covers it, and DecideToken refuses it. *)
Theorem scope_without_ports_diverges :
  Allowed (Decide token_compiled "acc-bo" (mkTarget "machine" "m1") "private_access" 22) = true ∧
  DecideToken token_compiled "tok-ci" "acc-bo" (mkTarget "machine" "m1") "private_access" 22 =
    mkDecision false "outside_token_scope" [] ∧
  ScopeRows (H := eval_runtime) token_compiled (tk_Scope ci_token) =
    ([mkRow 0 false "token" "" "machine" "m1" "private_access" [mkPortRange 1 65535]], []).
Proof. vm_compute. done. Qed.

(** A file with a test, as the library parses it. *)
Definition tested_file : Value :=
  vobj [("rules", VArray noExtra [
          vobj [("src", vlist ["user:bo@example.test"]); ("dst", vlist ["machine:db1"]); ("allow", vlist ["terminal"])]]);
        ("tests", VArray noExtra [
          vobj [("src", vstr "user:bo@example.test"); ("dst", vstr "machine:db1");
                ("allow", vlist ["terminal"]); ("deny", vlist ["exec"])]])].

Lemma validate_sound_witness :
  ∃ d oc, Validate (H := eval_runtime) (H0 := simple_hujson tested_file) "" sample_inventory no_limits = (d, oc, []) ∧
    length (d_Tests d) = 1%nat ∧
    ∃ c, oc = Some c ∧ Compile (H := eval_runtime) d sample_inventory no_limits = (c, []).
Proof.
  assert (Hv : (Validate (H := eval_runtime) (H0 := simple_hujson tested_file) "" sample_inventory no_limits).2 = [])
    by (vm_compute; reflexivity).
  assert (Hl : length (d_Tests (Validate (H := eval_runtime) (H0 := simple_hujson tested_file) ""
                 sample_inventory no_limits).1.1) = 1%nat) by (vm_compute; reflexivity).
  destruct (Validate (H := eval_runtime) (H0 := simple_hujson tested_file) "" sample_inventory no_limits)
    as [[d oc] es] eqn:E. simpl in Hv, Hl. subst es. exists d, oc. split; [done|]. split; [exact Hl|].
  destruct (validate_sound (H := eval_runtime) (H0 := simple_hujson tested_file) "" sample_inventory no_limits d oc E)
    as (c & Hc & _ & HC & _). eauto.
Defined.
