(* ===== verification/Order.v ===== *)
(** * The order of map iteration never shows

    Go visits the entries of a map in an unspecified order.  Compile ranges over maps of groups,
    tags and grants; its result, errors included, is the same for every order. *)
From S2P Require Import Prelude GoStd Ports Inventory PolicyDoc Parse Rules Compile Eval Semantics DecideSpec.

(** The same runtime with another order of iteration. *)
Definition with_range (R : GoRuntime)
    (rng : nat → ∀ (K V : Type) `{Countable K}, gmap K V → list (K * V))
    (Hrng : ∀ site (K V : Type) `{Countable K} (m : gmap K V), rng site K V m ≡ₚ map_to_list m) :
    GoRuntime :=
  {| unicode_ToLower := @unicode_ToLower R; Quote := @Quote R; range := rng; range_perm := Hrng |}.

(** ** Loops over a map *)

(** A loop whose errors do not depend on the index or the accumulator. *)
Lemma for_range_errs_perm {A B} (body : nat → A → B → W B) (es : A → list Error) l l' i j acc acc' :
  (∀ i a b, errs (body i a b) = es a) → l ≡ₚ l' →
  errs (for_range i l acc body) ≡ₚ errs (for_range j l' acc' body).
Proof.
  intros Hb Hp.
  assert (Hall : ∀ l i acc, errs (for_range i l acc body) = l ≫= es).
  { clear -Hb. induction l as [|a l IH]; intros i acc; simpl; [done|].
    by rewrite W_bind_errs, Hb, IH. }
  rewrite !Hall. by rewrite Hp.
Qed.

(** The map built by a loop over the entries of a map. *)
Lemma for_range_map_val {A} (f : string → A → option A) (body : nat → string * A → gmap string A → W (gmap string A))
    (l : list (string * A)) i acc :
  (∀ i kv out, val (body i kv out) = match f kv.1 kv.2 with Some v => <[kv.1 := v]> out | None => out end) →
  NoDup l.*1 →
  ∀ k, val (for_range i l acc body) !! k =
    match ((list_to_map l : gmap string A) !! k) ≫= f k with Some v => Some v | None => acc !! k end.
Proof.
  intros Hb. revert i acc; induction l as [|[k' a] l IH]; intros i acc Hnd k; simpl; [done|].
  rewrite fmap_cons in Hnd. apply NoDup_cons in Hnd as [Hn Hnd]. simpl in Hn.
  rewrite W_bind_val, IH, Hb by done. simpl. destruct (decide (k' = k)) as [<-|Hk].
  - rewrite (not_elem_of_list_to_map_1 l k'), lookup_insert_eq by done. simpl.
    destruct (f k' a); [by rewrite lookup_insert_eq|done].
  - rewrite lookup_insert_ne by done. destruct (_ ≫= f k); [done|].
    destruct (f k' a); [by rewrite lookup_insert_ne|done].
Qed.

Lemma range_list_to_map `{GoRuntime} {A} site (m : gmap string A) :
  list_to_map (range site m) = m ∧ NoDup (range site m).*1.
Proof.
  assert (Hnd : NoDup (range site m).*1) by (rewrite range_perm; apply NoDup_fst_map_to_list).
  split; [|done]. rewrite <-(list_to_map_to_list m) at 2. by apply list_to_map_proper; [|apply range_perm].
Qed.

(** ** Sorted grants *)

Lemma b_add_keyed b a t act ps i : keyed b → keyed (b_add b a t act ps i).
Proof.
  intros Hb k g. unfold b_add. destruct (decide ((a, t, act) = k)) as [<-|Hne].
  - rewrite lookup_insert_eq. intros [= <-]. destruct (b !! (a, t, act)) as [g|] eqn:E; simpl; [|done].
    exact (Hb _ _ E).
  - rewrite lookup_insert_ne by done. apply Hb.
Qed.

Lemma add_grants_keyed b accounts targets actions ps i :
  keyed b → keyed (add_grants b accounts targets actions ps i).
Proof.
  intros Hb. rewrite add_grants_contribs. generalize (contribs accounts targets actions ps i).
  intros cs. revert b Hb. induction cs as [|[[[[a t] act] ps'] j] cs IH]; intros b Hb; simpl; [done|].
  by apply IH, b_add_keyed.
Qed.

Lemma keyed_empty : keyed ∅.
Proof. intros k g. by rewrite lookup_empty. Qed.

Lemma b_list_runtime (R R' : GoRuntime) (b : builder) : keyed b → b_list (H := R) b = b_list (H := R') b.
Proof.
  intros Hk. apply (sort_by_unique grantLess); [|by rewrite !range_perm].
  unfold not_after. intros g g' Hg Hg' H1 H2. pose proof (grant_key_inj g g') as [Hinj _].
  specialize (Hinj (strs_ltb_antisym _ _ H2 H1)).
  apply list_elem_of_fmap in Hg as ([k1 ?] & -> & Hg), Hg' as ([k2 ?] & -> & Hg'). simpl in *.
  apply elem_of_range in Hg, Hg'. pose proof (Hk _ _ Hg). pose proof (Hk _ _ Hg'). congruence.
Qed.

Lemma compile_rules_keyed `{GoRuntime} x groups tags rules i ad :
  keyed ad.1 → keyed ad.2 →
  let r := val (for_range i rules ad (λ i r ad, compileRule x groups tags (pointer "/rules" [PIndex i]) i r ad)) in
  keyed r.1 ∧ keyed r.2.
Proof.
  intros Ha Hd. apply (for_range_val _ (λ ad : builder * builder, keyed ad.1 ∧ keyed ad.2)); [|done].
  clear. intros i r [allow deny] [Ha Hd]. simpl in *. unfold compileRule.
  destruct (rule_parts _ _ _ _ _) as [[[[accounts targets] actions] ps] [|e es]]; [|done].
  destruct (Actions r).2; split; simpl; auto using add_grants_keyed.
Qed.

Lemma compile_checks_keyed `{GoRuntime} d inv limits :
  let r := val (compile_checks d inv limits (newIndex inv)) in keyed r.2.1 ∧ keyed r.2.2.
Proof.
  unfold compile_checks. rewrite !W_bind_val. cbn [val ret fst snd].
  apply (compile_rules_keyed (newIndex inv) (val (compileGroups d (newIndex inv)))
    (val (compileTags d (newIndex inv))) (d_Rules d) 0 (∅, ∅)); apply keyed_empty.
Qed.

Lemma scope_builder_keyed `{GoRuntime} x tags scope : keyed (val (scope_builder x tags scope)).
Proof.
  unfold scope_builder. rewrite W_bind_val. apply (for_range_val _ keyed); [|apply keyed_empty].
  intros i s b Hb. destruct (scope_parts x tags i s) as [[[targets actions] ps] [|e es]]; [|done].
  by apply (add_grants_keyed b [""] targets actions ps i).
Qed.

(** ** Two runtimes *)

Section order.
Context (R : GoRuntime).
Context (rng : nat → ∀ (K V : Type) `{Countable K}, gmap K V → list (K * V)).
Context (Hrng : ∀ site (K V : Type) (E : EqDecision K) (C : Countable K) (m : gmap K V),
           rng site K V E C m ≡ₚ map_to_list m).
Let R' : GoRuntime := with_range R rng Hrng.

Lemma range_runtime {A} site (m : gmap string A) :
  range (GoRuntime := R) site m ≡ₚ range (GoRuntime := R') site m.
Proof. by rewrite !range_perm. Qed.

Lemma compile_map_runtime site (one : string → list string → W (option (list string))) m :
  val (compile_map (H := R) site one m) = val (compile_map (H := R') site one m) ∧
  errs (compile_map (H := R) site one m) ≡ₚ errs (compile_map (H := R') site one m).
Proof.
  unfold compile_map. split.
  - apply map_eq. intros k.
    destruct (range_list_to_map (H := R) site m) as [H1 H2], (range_list_to_map (H := R') site m) as [H3 H4].
    rewrite !(for_range_map_val (λ k a, val (one k a))), H1, H3; [done| |done| |done];
      intros; by rewrite W_bind_val.
  - apply (for_range_errs_perm _ (λ kv, errs (one kv.1 kv.2))); [|apply range_runtime].
    intros. rewrite W_bind_errs. by rewrite app_nil_r.
Qed.

Lemma checkLimits_runtime d l : errs (checkLimits (H := R) d l) ≡ₚ errs (checkLimits (H := R') d l).
Proof.
  unfold checkLimits. rewrite !W_bind_errs. do 4 apply Permutation_app_head.
  apply Permutation_app; [|apply Permutation_app_tail].
  - apply (for_range_errs_perm _ (λ kv, errs (over (pointer "/groups" [PName kv.1]) (length kv.2)
      (MaxEntriesPerList l) "entries"))); [done|apply range_runtime].
  - apply (for_range_errs_perm _ (λ kv, errs (over (pointer "/tags" [PName kv.1]) (length kv.2)
      (MaxEntriesPerList l) "entries"))); [done|apply range_runtime].
Qed.

Lemma compile_checks_runtime d inv limits :
  let m := compile_checks (H := R) d inv limits (newIndex (H := R) inv) in
  let m' := compile_checks (H := R') d inv limits (newIndex (H := R') inv) in
  val m = val m' ∧ errs m ≡ₚ errs m'.
Proof.
  intros m m'. unfold m, m', compile_checks.
  change (newIndex (H := R') inv) with (newIndex (H := R) inv). set (x := newIndex (H := R) inv).
  destruct (compile_map_runtime 2 (compileGroup (H := R) x) (d_Groups d)) as [Hgv Hge].
  destruct (compile_map_runtime 3 (compileTag (H := R) x) (d_Tags d)) as [Htv Hte].
  rewrite !W_bind_val, !W_bind_errs.
  change (compileGroups (H := R) d x) with (compile_map (H := R) 2 (compileGroup (H := R) x) (d_Groups d)).
  change (compileGroups (H := R') d x) with (compile_map (H := R') 2 (compileGroup (H := R) x) (d_Groups d)).
  change (compileTags (H := R) d x) with (compile_map (H := R) 3 (compileTag (H := R) x) (d_Tags d)).
  change (compileTags (H := R') d x) with (compile_map (H := R') 3 (compileTag (H := R) x) (d_Tags d)).
  rewrite <-Hgv, <-Htv. split; [done|]. rewrite Hge, Hte, checkLimits_runtime. done.
Qed.

Lemma compileScope_runtime x tags scope :
  compileScope (H := R) x tags scope = compileScope (H := R') x tags scope.
Proof.
  unfold compileScope. f_equal.
  rewrite (b_list_runtime R R') by apply scope_builder_keyed. done.
Qed.

End order.

(** The order in which Go visits maps never shows: with any other iteration order Compile
    returns the same policy, grant for grant and scope for scope, and the same list of errors. *)
Theorem map_order_irrelevant (R : GoRuntime)
    (rng : nat → ∀ (K V : Type) (E : EqDecision K) (C : Countable K), gmap K V → list (K * V))
    (Hrng : ∀ site (K V : Type) (E : EqDecision K) (C : Countable K) (m : gmap K V),
              rng site K V E C m ≡ₚ map_to_list m) :
  ∀ d inv limits,
    Compile (H := with_range R rng Hrng) d inv limits = Compile (H := R) d inv limits.
Proof.
  intros d inv limits. unfold Compile.
  destruct (compile_checks_runtime R rng Hrng d inv limits) as [Hv He].
  destruct (compile_checks (H := R) d inv limits (newIndex (H := R) inv)) as [[[groups tags] [allow deny]] es] eqn:E1.
  destruct (compile_checks (H := with_range R rng Hrng) d inv limits (newIndex (H := with_range R rng Hrng) inv))
    as [[[groups' tags'] [allow' deny']] es'] eqn:E2.
  simpl in Hv, He. injection Hv as <- <- <- <-.
  destruct es as [|e es].
  - assert (es' = []) as -> by (by apply Permutation_nil_r).
    pose proof (compile_checks_keyed (H := R) d inv limits) as Hkeyed. rewrite E1 in Hkeyed. simpl in Hkeyed.
    destruct Hkeyed as [Ha Hd]. f_equal.
    rewrite !(b_list_runtime (with_range R rng Hrng) R) by done. f_equal.
    apply foldl_ext. intros acc t. f_equal. symmetry.
    by rewrite (compileScope_runtime R rng Hrng).
  - destruct es' as [|e' es']; [by apply Permutation_nil_r in He|].
    f_equal. symmetry. by apply sorted_perm.
Qed.

(** Iteration in the opposite order. *)
Definition reversed_range : nat → ∀ (K V : Type) (E : EqDecision K) (C : Countable K), gmap K V → list (K * V) :=
  λ _ K V E C m, reverse (map_to_list m).

Lemma reversed_range_perm (site : nat) (K V : Type) (E : EqDecision K) (C : Countable K) (m : gmap K V) :
  reversed_range site K V E C m ≡ₚ map_to_list m.
Proof. apply reverse_Permutation. Qed.

Lemma map_order_irrelevant_witness :
  Compile (H := with_range eval_runtime reversed_range reversed_range_perm)
    sample_policy sample_inventory no_limits = (sample_compiled, []).
Proof.
  rewrite (map_order_irrelevant eval_runtime reversed_range reversed_range_perm
    sample_policy sample_inventory no_limits).
  exact sample_compiles.
Defined.
