(* ===== verification/Stored.v ===== *)
(** * Stored rows are enforced with the meaning of Decide

    The server stores the symbolic rows of a policy (Compiled.Store) and checks requests on
    machines with the SQL function workspace_policy_rule_ports
    (server/internal/db/migrations/148_policy_rule_ports_indexed.sql).  That function is modelled
    here clause by clause, on the stored rows, groups and tags; a multirange is the set of the ports
    it contains. *)
From S2P Require Import Prelude GoStd Ports Inventory PolicyDoc Parse Rules Compile Eval Semantics DecideSpec.

(** ** The SQL function *)

(** The CTE [targeted]: the target test of one row. *)
Definition sql_targeted (st : Stored) (machine capability : string) (r : Row) : bool :=
  String.eqb (rw_Action r) capability &&
  (String.eqb (rw_TargetKind r) "machine" && String.eqb (rw_TargetID r) machine
   || String.eqb (rw_TargetKind r) "all_machines"
   || String.eqb (rw_TargetKind r) "tag" && bool_decide (machine ∈ default [] (st_Tags st !! rw_TargetID r))).

(** The CTE [matching]: the subject test, [role] being the role of the actor. *)
Definition sql_subject (st : Stored) (actor role : string) (r : Row) : bool :=
  String.eqb (rw_SubjectKind r) "all"
  || String.eqb (rw_SubjectKind r) "account" && String.eqb (rw_SubjectID r) actor
  || String.eqb (rw_SubjectKind r) "role" &&
       (String.eqb (rw_SubjectID r) "member" || String.eqb (rw_SubjectID r) role
        || String.eqb (rw_SubjectID r) "admin" && String.eqb role "owner")
  || String.eqb (rw_SubjectKind r) "group" && bool_decide (actor ∈ default [] (st_Groups st !! rw_SubjectID r)).

Definition sql_matching (st : Stored) (actor role machine capability : string) (deny : bool) : list Row :=
  List.filter (λ r, Bool.eqb (rw_Deny r) deny && sql_targeted st machine capability r && sql_subject st actor role r)
    (st_Rows st).

(** range_agg of the matching rows of one kind contains the port. *)
Definition sql_range_agg (rows : list Row) (port : Z) : bool :=
  List.existsb (λ r, portsContain (rw_Ports r) port) rows.

(** The result of workspace_policy_rule_ports contains the port. *)
Definition workspace_policy_rule_ports (st : Stored) (actor role machine capability : string) (port : Z) : bool :=
  sql_range_agg (sql_matching st actor role machine capability false) port
  && negb (sql_range_agg (sql_matching st actor role machine capability true) port).

(** ** Rows and entries *)

Section stored.
Context `{GoRuntime}.

Lemma for_range_entry {A B} (entry : nat → A → W B) {C} (k : B → C → C) l acc :
  errs (for_range 0 l acc (λ i a c, bind (entry i a) (λ b, ret (k b c)))) = [] →
  ∀ a, a ∈ l → ∃ i, errs (entry i a) = [].
Proof.
  intros He a Ha. apply list_elem_of_lookup in Ha as [j Hj].
  destruct (for_range_ok _ _ _ _ He j a Hj) as (c & Hb). apply W_bind_ok in Hb as [Hb _]. eauto.
Qed.

Definition valid_subject (x : index) (groups : gmap string (list string)) (s : string) : Prop :=
  ∃ ep, errs (subject_entry x groups ep s) = [].
Definition valid_target (x : index) (tags : gmap string (list string)) (d : string) : Prop :=
  ∃ ep, errs (target_entry x tags ep d) = [].

Lemma rule_parts_valid x groups tags p r :
  errs (rule_parts x groups tags p r) = [] →
  (∀ s, s ∈ Src r → valid_subject x groups s) ∧ (∀ d, d ∈ Dst r → valid_target x tags d).
Proof.
  unfold rule_parts. destruct (Actions r) as [acts dn]. rewrite !W_bind_ok.
  intros (_ & _ & _ & Hs & Ht & _). split.
  - intros s Hin. destruct (for_range_entry (λ i e, subject_entry x groups
      (pointer (pointer p [PName "src"]) [PIndex i]) e) (λ l out, add_all out l) _ _ Hs s Hin) as [i Hi].
    by eexists.
  - intros d Hin. apply list_elem_of_lookup in Hin as [j Hj].
    destruct (for_range_ok _ _ _ _ Ht j d Hj) as (c & Hb). apply W_bind_ok in Hb as [Hb _]. by eexists.
Qed.

Section one_member.
Context {x : index} {groups tags : gmap string (list string)} {st : Stored}.
Context (Hgroups : st_Groups st = groups) (Htags : st_Tags st = tags).
Context (m : Member) (Hm : m ∈ Members (ix_inv x)).
Context (Haccounts : NoDup (AccountID <$> Members (ix_inv x))).

Lemma member_unique m' : m' ∈ Members (ix_inv x) → AccountID m' = AccountID m → m' = m.
Proof.
  intros Hm' Heq. apply list_elem_of_lookup in Hm as [i Hi], Hm' as [j Hj].
  assert (i = j) as ->; [|congruence].
  apply (NoDup_lookup _ i j (AccountID m) Haccounts); rewrite list_lookup_fmap, ?Hi, ?Hj; simpl; by f_equal.
Qed.

Lemma symbolicSubject_matches s idx dn tk tid a ps :
  valid_subject x groups s →
  let '(sk, sid) := symbolicSubject x s in
  sql_subject st (AccountID m) (Role m) (mkRow idx dn sk sid tk tid a ps) = true ↔
  subject_matches x groups s (AccountID m).
Proof.
  intros [ep He]. unfold symbolicSubject. unfold subject_entry in He. unfold subject_matches.
  unfold sql_subject. destruct (strings.Cut s ":") as [[kind name] ok].
  destruct (String.eqb s "*"); cbn -[String.eqb].
  { split; [|done]. intros _. apply list_elem_of_fmap. by exists m. }
  destruct (String.eqb kind "user"); cbn -[String.eqb].
  { apply W_bind_ok in He as [He _]. apply resolveUser_ok in He.
    destruct (user x s) as [acc ok']. simpl in He. subst. simpl. rewrite !orb_false_r, String.eqb_eq. naive_solver. }
  destruct (String.eqb kind "group"); cbn -[String.eqb].
  { simpl. rewrite bool_decide_eq_true, Hgroups. destruct (groups !! s) as [l|]; simpl; [naive_solver|].
    rewrite elem_of_nil. naive_solver. }
  destruct (String.eqb kind "role"); [|by rewrite W_bind_errs in He].
  case_bool_decide as Hr; [|done]. simpl. rewrite orb_false_r.
  change (RoleMatches name (Role m) = true ↔
    name ∈ Roles ∧ ∃ m', m' ∈ Members (ix_inv x) ∧ AccountID m' = AccountID m ∧ RoleMatches name (Role m') = true).
  split; [by eauto 10|]. intros (_ & m' & Hm' & Heq & Hmatch). by rewrite <-(member_unique m').
Qed.

Context (mc : Machine) (Hmc : mc ∈ Machines (ix_inv x)).

Lemma cut_colon_star d : d = "machine:*" ↔ strings.Cut d ":" = ("machine", "*", true).
Proof.
  split; [by intros ->|]. unfold strings.Cut.
  destruct (strings.cut d ":") as [[k n]|] eqn:E; [|done].
  intros [= -> ->]. by apply strings.cut_Some in E.
Qed.

Lemma cut_colon_tag d : strings.HasPrefix d "tag:" = true ↔ (strings.Cut d ":").1.1 = "tag" ∧ (strings.Cut d ":").2 = true.
Proof.
  rewrite strings.HasPrefix_true. unfold strings.Cut. split.
  - by intros [r ->].
  - destruct (strings.cut d ":") as [[k n]|] eqn:E; simpl; [|by intros [_ ?]].
    intros [-> _]. apply strings.cut_Some in E. by exists n.
Qed.

Context (Htagkeys : ∀ k, is_Some (tags !! k) → strings.HasPrefix k "tag:" = true).

Lemma cut_not_found d kind name : strings.Cut d ":" = (kind, name, false) → name = "".
Proof. unfold strings.Cut. destruct (strings.cut d ":") as [[? ?]|]; intros; by simplify_eq. Qed.

Lemma symbolicTarget_matches d idx dn sk sid a cap ps :
  valid_target x tags d →
  let '(tk, tid) := symbolicTarget x d in
  sql_targeted st (mc_ID mc) cap (mkRow idx dn sk sid tk tid a ps) = true ↔
  a = cap ∧ target_matches x tags d (mkTarget "machine" (mc_ID mc)).
Proof.
  intros [ep He]. unfold symbolicTarget.
  pose proof (cut_colon_star d) as Hstar. pose proof (cut_colon_tag d) as Htag.
  unfold target_entry in He. unfold target_matches, target, sql_targeted.
  destruct (strings.Cut d ":") as [[kind name] ok] eqn:Ecut. cbn [fst snd] in *.
  destruct (String.eqb_spec d "machine:*") as [Hd|Hd]; cbn -[String.eqb strings.HasPrefix].
  { apply Hstar in Hd. simplify_eq. simpl. rewrite andb_true_r, String.eqb_eq. naive_solver. }
  destruct (strings.HasPrefix d "tag:") eqn:Hp; cbn -[String.eqb strings.HasPrefix].
  { destruct (proj1 Htag eq_refl) as [-> ->]. simpl. rewrite andb_true_iff, String.eqb_eq, bool_decide_eq_true, Htags.
    destruct (tags !! d) as [l|]; simpl; [naive_solver|]. rewrite elem_of_nil. naive_solver. }
  destruct (String.eqb_spec kind "machine") as [->|Hk]; cbn -[String.eqb].
  { destruct (String.eqb_spec name "*") as [->|Hn].
    { destruct ok; [by destruct Hd; apply Hstar|]. by apply cut_not_found in Ecut. }
    apply W_bind_ok in He as [He _]. apply machineError_ok in He.
    destruct (machine x name) as [m' code]. simpl in He |- *. subst.
    rewrite !orb_false_r, andb_true_iff, !String.eqb_eq. split.
    - intros [-> Heq]. split; [done|]. exists m'. by rewrite Heq.
    - intros (-> & m0 & ? & ?). by simplify_eq. }
  destruct (String.eqb_spec kind "tag") as [->|Hk'].
  { exfalso. destruct (tags !! d) eqn:E; [|by rewrite W_bind_errs in He].
    rewrite Htagkeys in Hp; [done|by eauto]. }
  destruct (String.eqb kind "preview" || String.eqb kind "tunnel") eqn:Er.
  { assert (kind ≠ "all_machines") by (intros ->; done).
    destruct (resources x !! d) as [r|]; simpl;
      rewrite !(proj2 (String.eqb_neq kind _)) by done; simpl; rewrite andb_false_r; naive_solver. }
  destruct (String.eqb kind "env"); simpl; rewrite andb_false_r; naive_solver.
Qed.

End one_member.

(** ** The whole policy *)

Lemma elem_of_symbolicRows x idx r row :
  row ∈ symbolicRows x idx r ↔
  ∃ s d a, s ∈ Src r ∧ d ∈ Dst r ∧ a ∈ expand_star (Actions r).1 ∧
    row = mkRow idx (Actions r).2 (symbolicSubject x s).1 (symbolicSubject x s).2
            (symbolicTarget x d).1 (symbolicTarget x d).2 a (if is_private a then row_ports r else allPorts).
Proof.
  unfold symbolicRows. destruct (Actions r) as [acts dn]. cbn [fst snd].
  rewrite list_elem_of_join. setoid_rewrite list_elem_of_fmap. split.
  - intros (l & Hrow & s & -> & Hs). apply list_elem_of_join in Hrow as (l & Hrow & Hl).
    apply list_elem_of_fmap in Hl as (d & -> & Hd). apply list_elem_of_fmap in Hrow as (a & Hrow & Ha).
    exists s, d, a. destruct (symbolicSubject x s), (symbolicTarget x d). done.
  - intros (s & d & a & Hs & Hd & Ha & ->). eexists. split; [|by exists s].
    apply list_elem_of_join. eexists. split; [|apply list_elem_of_fmap; by exists d].
    apply list_elem_of_fmap. exists a. destruct (symbolicSubject x s), (symbolicTarget x d). done.
Qed.

Lemma compileTags_keys d x k :
  is_Some (val (compileTags d x) !! k) → strings.HasPrefix k "tag:" = true.
Proof.
  unfold compileTags, compile_map. revert k.
  apply (for_range_val _ (λ out : gmap string (list string),
    ∀ k, is_Some (out !! k) → strings.HasPrefix k "tag:" = true)); [|intros k; rewrite lookup_empty; by intros [? ?]].
  intros i [name entries] out Hout k. rewrite W_bind_val. cbn [val ret fst].
  unfold compileTag. cbn [fst snd]. destruct (strings.CutPrefix name "tag:") as [t ok] eqn:Ec.
  destruct ok; cbn [negb orb]; [|rewrite W_bind_val; apply Hout].
  destruct (ValidName t); cbn [negb]; [|rewrite W_bind_val; apply Hout].
  rewrite W_bind_val. cbn [val ret fst].
  destruct (decide (name = k)) as [->|Hne]; [|rewrite lookup_insert_ne by done; apply Hout].
  intros _. apply strings.HasPrefix_true. apply strings.CutPrefix_true in Ec. eauto.
Qed.

Lemma byAccount_member inv m : m ∈ Members inv → is_Some (byAccount (newIndex inv) !! AccountID m).
Proof. intros Hm. apply (index_by_is_Some AccountID). right. eauto. Qed.

Lemma existsb_elem {A} (f : A → bool) l : List.existsb f l = true ↔ ∃ a, a ∈ l ∧ f a = true.
Proof. rewrite existsb_exists. by setoid_rewrite list_elem_of_In. Qed.

Section compiled.
Context {d : Document} {inv : Inventory} {c : Compiled}.
Context {allow deny : builder} {csa csd : list contrib}.
Context (Hc : compiled_ok d inv c allow deny csa csd).
Context (m : Member) (Hm : m ∈ Members inv) (Haccounts : NoDup (AccountID <$> Members inv)).
Context (mc : Machine) (Hmc : mc ∈ Machines inv).

Lemma elem_of_rows row :
  row ∈ c_rows c ↔ ∃ i r, d_Rules d !! i = Some r ∧ row ∈ symbolicRows (c_x c) i r.
Proof.
  rewrite (co_rows _ _ _ _ _ _ _ Hc). unfold sortRows. rewrite elem_of_sort_by, list_elem_of_join.
  split.
  - intros (l & Hrow & Hl). apply list_elem_of_lookup in Hl as [i Hi].
    rewrite list_lookup_imap in Hi. destruct (d_Rules d !! i) as [r|] eqn:E; simplify_eq/=. eauto.
  - intros (i & r & Hr & Hrow). exists (symbolicRows (c_x c) i r). split; [done|].
    apply (list_elem_of_lookup_2 _ i). by rewrite list_lookup_imap, Hr.
Qed.

Lemma inv_of_index : ix_inv (c_x c) = inv.
Proof. by rewrite (co_x _ _ _ _ _ _ _ Hc). Qed.

(** The tests of the SQL function on the row of a rule, one src entry and one dst entry. *)
Lemma row_matches r s t i dn a cap ps :
  r ∈ d_Rules d → s ∈ Src r → t ∈ Dst r →
  let row := mkRow i dn (symbolicSubject (c_x c) s).1 (symbolicSubject (c_x c) s).2
               (symbolicTarget (c_x c) t).1 (symbolicTarget (c_x c) t).2 a ps in
  sql_targeted (Store c) (mc_ID mc) cap row = true ∧ sql_subject (Store c) (AccountID m) (Role m) row = true ↔
  a = cap ∧ subject_matches (c_x c) (c_groups c) s (AccountID m) ∧
  target_matches (c_x c) (c_tags c) t (mkTarget "machine" (mc_ID mc)).
Proof.
  intros Hr Hs Ht. pose proof (co_rules_ok _ _ _ _ _ _ _ Hc) as Hvalid. rewrite Forall_forall in Hvalid.
  destruct (Hvalid r Hr) as [p Hp]. destruct (rule_parts_valid _ _ _ _ _ Hp) as [Hsub Htgt].
  pose proof inv_of_index as Hinv.
  pose proof (symbolicSubject_matches (x := c_x c) (st := Store c) (groups := c_groups c) eq_refl m
    ltac:(by rewrite Hinv) ltac:(by rewrite Hinv) s i dn (symbolicTarget (c_x c) t).1
    (symbolicTarget (c_x c) t).2 a ps (Hsub s Hs)) as HS.
  pose proof (symbolicTarget_matches (x := c_x c) (st := Store c) (tags := c_tags c) eq_refl mc
    ltac:(by rewrite Hinv) ltac:(rewrite (co_tags _ _ _ _ _ _ _ Hc); apply compileTags_keys) t i dn
    (symbolicSubject (c_x c) s).1 (symbolicSubject (c_x c) s).2 a cap ps (Htgt t Ht)) as HT.
  destruct (symbolicSubject (c_x c) s), (symbolicTarget (c_x c) t). cbn [fst snd] in *.
  rewrite HS, HT. tauto.
Qed.

Lemma stored_ports_cover r a port :
  (1 ≤ port ≤ 65535)%Z →
  portsContain (if is_private a then row_ports r else allPorts) port = true ↔
  (is_private a = true → covers (row_ports r) port).
Proof.
  intros Hport. rewrite portsContain_covers. destruct (is_private a); [naive_solver|].
  split; [done|]. intros _. apply covers_cons. simpl. lia.
Qed.

(** The rows of one kind that match cover a port exactly when a rule says so. *)
Lemma sql_says dn cap port :
  (1 ≤ port ≤ 65535)%Z →
  sql_range_agg (sql_matching (Store c) (AccountID m) (Role m) (mc_ID mc) cap dn) port = true ↔
  says d c dn (AccountID m) (mkTarget "machine" (mc_ID mc)) cap port.
Proof.
  intros Hport. unfold sql_range_agg, sql_matching. rewrite existsb_elem.
  setoid_rewrite list_elem_of_In. setoid_rewrite filter_In. setoid_rewrite <-list_elem_of_In.
  setoid_rewrite elem_of_rows. setoid_rewrite elem_of_symbolicRows.
  unfold says, asked, rule_says, rule_applies. cbn [fst snd]. split.
  - intros (row & ((i & r & Hr & s & t & a & Hs & Ht & Ha & ->) & Hmatch) & Hp).
    cbn [rw_Deny rw_Ports] in *. rewrite !andb_true_iff in Hmatch. destruct Hmatch as [[Hd HT] HS].
    apply eqb_prop in Hd.
    destruct (proj1 (row_matches r s t i (Actions r).2 a cap _ ltac:(by eapply list_elem_of_lookup_2) Hs Ht)
      (conj HT HS)) as (<- & Hsm & Htm).
    exists (mkTarget "machine" (mc_ID mc)), i. split; [by left|]. exists r.
    split_and!; [done|done|by eauto|by eauto|done|]. by apply stored_ports_cover.
  - intros (t' & i & [->|Hh] & r & Hr & Hdn & ((s & Hs & Hsm) & (t & Ht & Htm) & Ha) & Hp); [|done].
    eexists. split; [split; [exists i, r; split; [done|]; exists s, t, cap; by split_and!|]|
      by apply stored_ports_cover].
    cbn [rw_Deny]. rewrite Hdn, eqb_reflx, andb_true_l, andb_true_iff.
    apply (row_matches r); [by eapply list_elem_of_lookup_2|done..].
Qed.

Lemma says_any_port dn a t cap p q :
  is_private cap = false → says d c dn a t cap p ↔ says d c dn a t cap q.
Proof.
  intros Hp. unfold says, rule_says. cbn [fst snd]. rewrite Hp.
  split; intros (t' & i & Ht & r & ? & ? & ? & _); exists t', i; (split; [done|]); exists r; by split_and!.
Qed.

Lemma stored_decide cap port :
  (1 ≤ port ≤ 65535)%Z → owns c (AccountID m) (mkTarget "machine" (mc_ID mc)) cap = false →
  (is_private cap = true → AllowPrivateAccess c = true) →
  workspace_policy_rule_ports (Store c) (AccountID m) (Role m) (mc_ID mc) cap port =
  Allowed (Decide c (AccountID m) (mkTarget "machine" (mc_ID mc)) cap port).
Proof.
  intros Hport Ho Hsw. apply bool_eq_iff. rewrite (Decide_spec Hc). unfold workspace_policy_rule_ports.
  rewrite andb_true_iff, negb_true_iff, <-not_true_iff_false, !sql_says by done.
  unfold spec_allowed. rewrite Ho.
  assert (Hmem : is_Some (byAccount (c_x c) !! AccountID m))
    by (rewrite (co_x _ _ _ _ _ _ _ Hc); by apply byAccount_member).
  destruct (is_private cap) eqn:Hp.
  - rewrite Hsw by done. split; [intros [? ?]; split; [done|]; right; split; [done|]; eauto|].
    intros (_ & [?|(_ & q & [?| ->] & ? & ?)]); [done|lia|done].
  - rewrite !(says_any_port _ _ _ _ port 0) by done. naive_solver.
Qed.

End compiled.

(** C4: the rows the server stores are enforced with the meaning of Decide: for a member and a machine of
    the workspace, outside the owner guardrail and with private access switched on where it is asked, the
    ports of workspace_policy_rule_ports contain a port exactly when Decide allows the action at it; for the
    other actions they contain every port or none. *)
Theorem stored_rows_agree (d : Document) (inv : Inventory) (limits : Limits) (c : Compiled)
    (HC : Compile d inv limits = (c, [])) (Hok : Forall rule_ok (d_Rules d))
    (Haccounts : NoDup (AccountID <$> Members inv)) :
  ∀ m mc cap port, m ∈ Members inv → mc ∈ Machines inv → (1 ≤ port ≤ 65535)%Z →
    owns c (AccountID m) (mkTarget "machine" (mc_ID mc)) cap = false →
    (is_private cap = true → AllowPrivateAccess c = true) →
    workspace_policy_rule_ports (Store c) (AccountID m) (Role m) (mc_ID mc) cap port =
    Allowed (Decide c (AccountID m) (mkTarget "machine" (mc_ID mc)) cap port).
Proof.
  destruct (Compile_ok d inv limits c HC Hok) as (allow & deny & csa & csd & Hc).
  intros. by apply (stored_decide Hc).
Qed.

End stored.

Lemma stored_rows_agree_witness :
  workspace_policy_rule_ports (Store sample_compiled) "acc-bo" "member" "m1" "private_access" 5432 = true ∧
  workspace_policy_rule_ports (Store sample_compiled) "acc-bo" "member" "m1" "exec" 1 = false.
Proof.
  split.
  - rewrite (stored_rows_agree (H := eval_runtime) sample_policy sample_inventory no_limits sample_compiled
      sample_compiles sample_rules_ok (ok_accounts _ sample_inventory_ok)
      (mkMember "acc-bo" "bo@example.test" "member") (mkMachine "m1" "db1" ""));
      [vm_compute; reflexivity|right; left|left|lia|vm_compute; reflexivity|vm_compute; reflexivity].
  - vm_compute. reflexivity.
Defined.
