(* ===== verification/Edit.v ===== *)
(** * Editing a policy file in place: shared/policy/edit.go, rewrite.go and tags_edit.go

    The functions work on the syntax tree, so that comments and the rules they do not own stay as they
    are.  What they use of the HuJSON library beyond parsing is the class [HuJSONWriter]. *)
From S2P Require Import Prelude GoStd Ports Inventory PolicyDoc Parse Rules Compile Eval.

Class HuJSONWriter := {
  hujson_String : string → string;
  hujson_Bool : bool → string;
  hujson_Standardize : string → string + string;
  Pack : Value → string;
  Format : Value → Value;
}.

(** The error of an edit: of the library, or of the policy. *)
Inductive EditError := ErrSyntax (err : string) | ErrPolicy (es : list Error).

Definition extra_of (v : Value) : Extra :=
  match v with VLiteral x _ | VObject x _ | VArray x _ => x end.

Definition set_extra (v : Value) (x : Extra) : Value :=
  match v with VLiteral _ l => VLiteral x l | VObject _ ms => VObject x ms | VArray _ es => VArray x es end.

(** ** Simple rules *)

Record SimpleRule := mkSimpleRule { sr_Subject : string; sr_Target : string; sr_Allow : list string }.

#[export] Instance SimpleRule_eq_dec : EqDecision SimpleRule.
Proof. solve_decision. Defined.

(** len(s) >= 6 and s[:5] == "user:". *)
Definition is_user_subject (s : string) : bool :=
  (6 <=? String.length s)%nat && String.eqb (String.substring 0 5 s) "user:".

(** The actions a simple rule on a target may allow; [None] is a target that simple rules never have. *)
Definition simple_actions (dst : string) : option (list string) :=
  let '(kind, _, _) := strings.Cut dst ":" in
  if String.eqb dst "env:team" then Some ENVActions
  else if String.eqb kind "preview" || String.eqb kind "tunnel" then Some ResourceActions
  else if negb (String.eqb kind "machine") || String.eqb dst "machine:*" || String.eqb dst "machine:" then None
  else Some MachineCapabilities.

Definition simple (r : Rule) : option SimpleRule :=
  match Src r, Dst r, Deny r, Ports r, Allow r with
  | [src], [dst], None, None, _ :: _ =>
      if negb (String.eqb (Note r) "") then None
      else if negb (String.eqb src "role:member") && negb (is_user_subject src) then None
      else match simple_actions dst with
           | None => None
           | Some actions =>
               if forallb (λ a, bool_decide (a ∈ actions)) (Allow r)
               then Some (mkSimpleRule src dst (sort_by str_ltb (Allow r)))
               else None
           end
  | _, _, _, _, _ => None
  end.

Definition SimpleRules (d : Document) : list SimpleRule := omap simple (d_Rules d).

Section edit.
Context `{GoRuntime} `{HuJSON} `{HuJSONWriter}.

(** literal: the text of a string literal, else the empty string. *)
Definition literal_raw (l : string) : string :=
  if Ascii.eqb (Literal_Kind l) string_kind then Literal_String l else "".

Definition literal (v : Value) : string := match v with VLiteral _ l => literal_raw l | _ => "" end.

Definition string_value (s : string) : Value := VLiteral (mkExtra "" "") (hujson_String s).

Definition stringArray (items : list string) : Value := VArray (mkExtra "" "") (string_value <$> items).

(** objectMember: the position of the first member with the name. *)
Fixpoint objectMember (ms : list (string * Value)) (name : string) : option nat :=
  match ms with
  | [] => None
  | m :: ms' => if String.eqb (literal_raw m.1) name then Some 0%nat else S <$> objectMember ms' name
  end.

(** Writing through the pointer objectMember returns. *)
Definition set_member (ms : list (string * Value)) (i : nat) (f : Value → Value) : list (string * Value) :=
  alter (λ m, (m.1, f m.2)) i ms.

(** ** The team switch *)

Definition set_switch (ms : list (string * Value)) (on : bool) : list (string * Value) :=
  match objectMember ms "allow_private_access" with
  | Some i => set_member ms i (λ v, VLiteral (extra_of v) (hujson_Bool on))
  | None => (hujson_String "allow_private_access", VLiteral (mkExtra "" "") (hujson_Bool on)) :: ms
  end.

Definition not_an_object : EditError := ErrPolicy [mkError "" "wrong_type" "must be an object"].

Definition SetAllowPrivateAccess (src : string) (on : bool) : EditError + string :=
  match hujson_Parse src with
  | inl err => inl (ErrSyntax err)
  | inr (VObject x ms) => inr (Pack (Format (VObject x (set_switch ms on))))
  | inr _ => inl not_an_object
  end.

(** ** Setting a simple rule *)

(** The rule an element of the list stands for: it is printed, made plain JSON and parsed in a file of
    its own; the zero rule when that fails.  [None] is the panic of indexing an empty list. *)
Definition element_rule (e : Value) : option Rule :=
  match hujson_Standardize (Pack e) with
  | inl _ => Some zeroRule
  | inr b =>
      let '(d, es) := Parse ("{" +:+ q "rules" +:+ ":[" +:+ b +:+ "]}") in
      match es with [] => head (d_Rules d) | _ => Some zeroRule end
  end.

(** The rule is one the edit replaces. *)
Definition replaced (subject target : string) (r : Rule) : bool :=
  match simple r with
  | Some s => String.eqb (sr_Subject s) subject && String.eqb (sr_Target s) target
  | None => false
  end.

Fixpoint keep_elements (subject target : string) (es : list Value) : option (list Value) :=
  match es with
  | [] => Some []
  | e :: es' =>
      match element_rule e with
      | None => None
      | Some r =>
          kept ← keep_elements subject target es';
          Some (if replaced subject target r then kept else e :: kept)
      end
  end.

Definition simple_rule_value (subject target : string) (actions : list string) : Value :=
  VObject (mkExtra "" "")
    [(hujson_String "src", stringArray [subject]);
     (hujson_String "dst", stringArray [target]);
     (hujson_String "allow", stringArray (compact (sort_by str_ltb actions)))].

(** SetSimpleRule; the outer [None] is a panic. *)
Definition SetSimpleRule (src subject target : string) (actions : list string) : option (EditError + string) :=
  match hujson_Parse src with
  | inl err => Some (inl (ErrSyntax err))
  | inr (VObject x ms) =>
      let found := objectMember ms "rules" in
      match found, actions with
      | None, [] => Some (inr src)
      | _, _ =>
          let ms := match found with
                    | Some _ => ms
                    | None => ms ++ [(hujson_String "rules", VArray (mkExtra "" "") [])]
                    end in
          let i := default (length ms - 1)%nat found in
          match ms !! i with
          | Some (_, VArray ax es) =>
              kept ← keep_elements subject target es;
              let es' := kept ++ (match actions with [] => [] | _ => [simple_rule_value subject target actions] end) in
              Some (inr (Pack (Format (VObject x (set_member ms i (λ _, VArray ax es'))))))
          | _ => Some (inl (ErrPolicy [mkError "/rules" "wrong_type" "must be a list"]))
          end
      end
  | inr _ => Some (inl not_an_object)
  end.

(** ** Machine tags *)

(** MachineTags; range site 6. *)
Definition MachineTags (d : Document) (machine : string) : list string :=
  sort_by str_ltb
    (fst <$> List.filter (λ kv, bool_decide (machine ∈ kv.2)) (range 6 (d_Tags d))).

(** tagReferences *)
Definition tagReferences (src : string) : list string :=
  let '(d, es) := Parse src in
  match es with
  | _ :: _ => []
  | [] => mjoin ((λ r, Src r ++ Dst r) <$> d_Rules d) ++ mjoin ((λ t, [t_Src t; t_Dst t]) <$> d_Tests d)
  end.

(** The loop over the entries of one tag: the kept elements, and whether the machine was among them. *)
Fixpoint tag_elements (machine : string) (wanted has : bool) (es : list Value) : list Value * bool :=
  match es with
  | [] => ([], has)
  | e :: es' =>
      if String.eqb (literal e) machine then
        if negb wanted || has then tag_elements machine wanted has es'
        else let '(l, h) := tag_elements machine wanted true es' in (e :: l, h)
      else let '(l, h) := tag_elements machine wanted has es' in (e :: l, h)
  end.

(** The loop over the members of the tags object: the members kept and what is left of [want]. *)
Fixpoint tag_members (machine : string) (referenced : list string) (want : gset string)
    (ms : list (string * Value)) : list (string * Value) * gset string :=
  match ms with
  | [] => ([], want)
  | (raw, v) :: ms' =>
      let name := literal_raw raw in
      match v with
      | VArray x es =>
          let wanted := bool_decide (name ∈ want) in
          let '(elements, has) := tag_elements machine wanted false es in
          let elements := if wanted && negb has then elements ++ [string_value machine] else elements in
          let '(kept, want') := tag_members machine referenced (want ∖ {[name]}) ms' in
          if bool_decide (elements = []) && negb (bool_decide (name ∈ referenced)) then (kept, want')
          else ((raw, VArray x elements) :: kept, want')
      | _ =>
          let '(kept, want') := tag_members machine referenced want ms' in ((raw, v) :: kept, want')
      end
  end.

Definition edit_tags (machine : string) (referenced tags : list string) (ms : list (string * Value)) :
    list (string * Value) :=
  let '(kept, want) := tag_members machine referenced (list_to_set tags) ms in
  kept ++ ((λ name, (hujson_String name, stringArray [machine])) <$> sort_by str_ltb (elements want)).

Definition SetMachineTags (src machine : string) (tags : list string) : EditError + string :=
  match hujson_Parse src with
  | inl err => inl (ErrSyntax err)
  | inr (VObject x ms) =>
      let referenced := tagReferences src in
      let found := objectMember ms "tags" in
      match found, tags with
      | None, [] => inr src
      | _, _ =>
          let ms := match found with
                    | Some _ => ms
                    | None => ms ++ [(hujson_String "tags", VObject (mkExtra "" "") [])]
                    end in
          let i := default (length ms - 1)%nat found in
          match ms !! i with
          | Some (_, VObject tx tms) =>
              inr (Pack (Format (VObject x (set_member ms i (λ _, VObject tx (edit_tags machine referenced tags tms))))))
          | _ => inl (ErrPolicy [mkError "/tags" "wrong_type" "must be an object"])
          end
      end
  | inr _ => inl not_an_object
  end.

End edit.
