(* ===== verification/EditSpec.v ===== *)
(** * The meaning of an edit of a policy file

    An edit works on the syntax tree and prints it; reading the file back gives the document with exactly the
    edited part changed.  What is used of the HuJSON library is that printing a tree and parsing it gives a tree
    that says the same ([HuJSONLaws]): the formatter may move comments and blanks and quote a string anew. *)
From S2P Require Import Prelude GoStd Ports PolicyDoc Parse Edit.

#[local] Set Warnings "-register-all".

(** ** Trees that say the same *)

Lemma ret_bind {A B} (a : A) (f : A → W B) : bind (ret a) f = f a.
Proof. simpl. by destruct (f a). Qed.

Lemma bind_ext {A B} (m : W A) (f g : A → W B) : (∀ a, f a = g a) → bind m f = bind m g.
Proof. intros Hfg. destruct m as [a e]. simpl. by rewrite Hfg. Qed.

Lemma bind_same {A A' B} (m : W A) (m' : W A') (f : A → W B) (g : A' → W B) :
  errs m = errs m' → f (val m) = g (val m') → bind m f = bind m' g.
Proof. destruct m, m'; simpl. by intros -> ->. Qed.

Lemma bind_same_head {A B} (m m' : W A) (f g : A → W B) : m = m' → (∀ a, f a = g a) → bind m f = bind m' g.
Proof. intros ->. apply bind_ext. Qed.

Lemma for_range_index {A B} (f : A → B → W B) l : ∀ i j acc, for_range i l acc (λ _, f) = for_range j l acc (λ _, f).
Proof. induction l as [|a l IH]; intros i j acc; [done|]. cbn [for_range]. apply bind_ext. intros b. apply IH. Qed.

Section same.
Context `{GoRuntime} `{HuJSON}.

(** The same literal, a string perhaps with other escapes. *)
Definition same_literal (l l' : string) : Prop :=
  Literal_Kind l = Literal_Kind l' ∧ (if Ascii.eqb (Literal_Kind l) string_kind then Literal_String l = Literal_String l' else l = l').

Inductive same : Value → Value → Prop :=
  | SameLiteral x x' l l' : same_literal l l' → same (VLiteral x l) (VLiteral x' l')
  | SameObject x x' ms ms' :
      Forall2 (λ m m', Literal_String m.1 = Literal_String m'.1 ∧ same m.2 m'.2) ms ms' → same (VObject x ms) (VObject x' ms')
  | SameArray x x' es es' : Forall2 same es es' → same (VArray x es) (VArray x' es').

Definition sameM (m m' : member) : Prop := m_name m = m_name m' ∧ same (m_value m) (m_value m').

Lemma for_range_rel {A A' B B'} (R : A → A' → Prop) (Q : B → B' → Prop) (f : nat → A → B → W B) (g : nat → A' → B' → W B') l l' :
  Forall2 R l l' →
  (∀ i a a' b b', R a a' → Q b b' → Q (val (f i a b)) (val (g i a' b')) ∧ errs (f i a b) = errs (g i a' b')) →
  ∀ i b b', Q b b' →
  Q (val (for_range i l b f)) (val (for_range i l' b' g)) ∧ errs (for_range i l b f) = errs (for_range i l' b' g).
Proof.
  intros HR Hfg. induction HR as [|a a' l l' Ha _ IH]; intros i b b' Hb; [done|].
  cbn [for_range]. rewrite !W_bind_val, !W_bind_errs. destruct (Hfg i a a' b b' Ha Hb) as [Hv ->].
  destruct (IH (S i) _ _ Hv) as [Hv' ->]. done.
Qed.

Lemma for_range_same {A A' B} (R : A → A' → Prop) (f : nat → A → B → W B) (g : nat → A' → B → W B) l l' i acc :
  Forall2 R l l' → (∀ i a a' b, R a a' → f i a b = g i a' b) → for_range i l acc f = for_range i l' acc g.
Proof.
  intros HR Hfg. revert i acc. induction HR as [|a a' l l' Ha _ IH]; intros i acc; [done|].
  cbn [for_range]. rewrite (Hfg _ _ _ _ Ha). apply bind_ext. intros b. apply IH.
Qed.

Lemma str_same path v v' : same v v' → str path v = str path v'.
Proof. destruct 1 as [x x' l l' [Hk Hl]| |]; [|done..]. unfold str. rewrite <-Hk. by destruct (Ascii.eqb _ _); [rewrite Hl|]. Qed.

Lemma literal_bool l l' : same_literal l l' → Ascii.eqb (Literal_Kind l) string_kind = false → l = l'.
Proof. intros [_ Hl] Hk. by rewrite Hk in Hl. Qed.

Lemma boolean_same path v v' : same v v' → boolean path v = boolean path v'.
Proof.
  destruct 1 as [x x' l l' Hl| |]; [|done..]. unfold boolean. rewrite <-(proj1 Hl).
  destruct (Ascii.eqb (Literal_Kind l) string_kind) eqn:Ek; [|by rewrite <-(literal_bool l l')].
  apply Ascii.eqb_eq in Ek. by rewrite Ek.
Qed.

Lemma stringList_same path v v' : same v v' → stringList path v = stringList path v'.
Proof.
  destruct 1 as [| |x x' es es' Hes]; [done|done|]. unfold stringList. cbn [array]. rewrite !ret_bind.
  apply bind_same_head; [|done]. apply (for_range_same same); [done|]. intros i a a' b Ha. by rewrite (str_same _ _ _ Ha).
Qed.

Lemma parsePorts_same path v v' : same v v' → parsePorts path v = parsePorts path v'.
Proof.
  destruct 1 as [| |x x' es es' Hes]; [done|done|]. unfold parsePorts. cbn [array]. rewrite !ret_bind.
  apply bind_same_head; [|done]. apply (for_range_same same); [done|]. intros i a a' b Ha.
  destruct Ha as [y y' l l' Hl| |]; [|done..]. rewrite <-(proj1 Hl).
  destruct (Ascii.eqb (Literal_Kind l) string_kind) eqn:Ek; [|by rewrite <-(literal_bool l l')].
  destruct Hl as [_ Hl]. rewrite Ek in Hl. rewrite Hl. apply Ascii.eqb_eq in Ek. by rewrite Ek.
Qed.

Lemma names_same ms ms' : Forall2 sameM ms ms' → m_name <$> ms = m_name <$> ms'.
Proof. induction 1 as [|m m' ms ms' [Hn _] _ IH]; [done|]. rewrite !fmap_cons, Hn. by f_equal. Qed.

Lemma members_same path o o' :
  Forall2 (λ m m', Literal_String m.1 = Literal_String m'.1 ∧ same m.2 m'.2) o o' →
  Forall2 sameM (val (members path o)) (val (members path o')) ∧ errs (members path o) = errs (members path o').
Proof.
  intros Ho. unfold members. apply (for_range_rel _ (Forall2 sameM) _ _ _ _ Ho); [|constructor].
  intros i m m' out out' [Hn Hv] Hout. cbv beta zeta. rewrite Hn, (names_same _ _ Hout).
  case_decide; [done|]. split; [|done]. apply Forall2_app; [done|]. by repeat constructor.
Qed.

(** Reading the members of two objects that say the same. *)
Lemma members_loop_same {B} path o o' (f : member → B → W B) acc :
  Forall2 (λ m m', Literal_String m.1 = Literal_String m'.1 ∧ same m.2 m'.2) o o' →
  (∀ m m' b, sameM m m' → f m b = f m' b) →
  for_range 0 (val (members path o)) acc (λ _, f) = for_range 0 (val (members path o')) acc (λ _, f).
Proof. intros Ho Hf. apply (for_range_same sameM); [by apply members_same|]. intros; by apply Hf. Qed.

Lemma stringListMap_same path v v' : same v v' → stringListMap path v = stringListMap path v'.
Proof.
  destruct 1 as [|x x' ms ms' Hms|]; [done| |done]. unfold stringListMap. cbn [object]. rewrite !ret_bind.
  apply bind_same; [by apply members_same|]. apply (members_loop_same _ _ _ (λ m out, _) _ Hms).
  intros m m' b [Hn Hv]. by rewrite Hn, (stringList_same _ _ _ Hv).
Qed.

Lemma rule_member_same p m m' r : sameM m m' → rule_member p m r = rule_member p m' r.
Proof.
  intros [Hn Hv]. unfold rule_member.
  by rewrite Hn, (stringList_same _ _ _ Hv), (parsePorts_same _ _ _ Hv), (str_same _ _ _ Hv).
Qed.

Lemma test_member_same p m m' t : sameM m m' → test_member p m t = test_member p m' t.
Proof. intros [Hn Hv]. unfold test_member. by rewrite Hn, (stringList_same _ _ _ Hv), !(str_same _ _ _ Hv). Qed.

Lemma have_same ms ms' name : Forall2 sameM ms ms' → have ms name = have ms' name.
Proof. intros Hms. unfold have. by rewrite (names_same _ _ Hms). Qed.

Lemma require_same p what ms ms' keys : Forall2 sameM ms ms' → require p what ms keys = require p what ms' keys.
Proof.
  intros Hms. unfold require. apply (for_range_same eq); [by apply Forall_Forall2_diag, Forall_true|].
  intros i k ? b <-. by rewrite (have_same _ _ _ Hms).
Qed.

Lemma parseRule_same p v v' : same v v' → parseRule p v = parseRule p v'.
Proof.
  destruct 1 as [|x x' ms ms' Hms|]; [done| |done]. unfold parseRule. cbn [object]. rewrite !ret_bind.
  destruct (members_same p _ _ Hms) as [HM HE]. apply bind_same; [done|]. apply bind_same_head.
  - apply (members_loop_same p _ _ (rule_member p) _ Hms). intros; by apply rule_member_same.
  - intros r. by rewrite (require_same _ _ _ _ _ HM), !(have_same _ _ _ HM).
Qed.

Lemma parseTest_same p v v' : same v v' → parseTest p v = parseTest p v'.
Proof.
  destruct 1 as [|x x' ms ms' Hms|]; [done| |done]. unfold parseTest. cbn [object]. rewrite !ret_bind.
  destruct (members_same p _ _ Hms) as [HM HE]. apply bind_same; [done|]. apply bind_same_head.
  - apply (members_loop_same p _ _ (test_member p) _ Hms). intros; by apply test_member_same.
  - intros r. by rewrite (require_same _ _ _ _ _ HM), !(have_same _ _ _ HM).
Qed.

Lemma parseRules_same path v v' : same v v' → parseRules path v = parseRules path v'.
Proof.
  destruct 1 as [| |x x' es es' Hes]; [done|done|]. unfold parseRules. cbn [array]. rewrite !ret_bind.
  apply (for_range_same same); [done|]. intros i a a' b Ha. by rewrite (parseRule_same _ _ _ Ha).
Qed.

Lemma parseTests_same path v v' : same v v' → parseTests path v = parseTests path v'.
Proof.
  destruct 1 as [| |x x' es es' Hes]; [done|done|]. unfold parseTests. cbn [array]. rewrite !ret_bind.
  apply (for_range_same same); [done|]. intros i a a' b Ha. by rewrite (parseTest_same _ _ _ Ha).
Qed.

Lemma document_member_same m m' d : sameM m m' → document_member m d = document_member m' d.
Proof.
  intros [Hn Hv]. unfold document_member.
  by rewrite Hn, (str_same _ _ _ Hv), (boolean_same _ _ _ Hv), !(stringListMap_same _ _ _ Hv), (parseRules_same _ _ _ Hv),
    (parseTests_same _ _ _ Hv).
Qed.

(** Trees that say the same are the same policy file, with the same errors. *)
Lemma parse_value_same v v' : same v v' → parse_value v = parse_value v'.
Proof.
  destruct 1 as [|x x' ms ms' Hms|]; [done| |done]. unfold parse_value. cbn [object]. rewrite !ret_bind.
  destruct (members_same "" _ _ Hms) as [HM HE]. apply bind_same; [done|].
  apply (members_loop_same "" _ _ document_member _ Hms). intros; by apply document_member_same.
Qed.
End same.

(** ** What the library promises *)

Section valid.
Variables (name_ok lit_ok : string → Prop) (extra_ok : Extra → Prop).

(** The literals, the names of members, and the comments and blanks of a tree are valid. *)
Fixpoint valid_value (v : Value) : Prop :=
  match v with
  | VLiteral x l => extra_ok x ∧ lit_ok l
  | VObject x ms => extra_ok x ∧ foldr (λ m acc, (name_ok m.1 ∧ valid_value m.2) ∧ acc) True ms
  | VArray x es => extra_ok x ∧ foldr (λ e acc, valid_value e ∧ acc) True es
  end.

Lemma valid_object x ms :
  valid_value (VObject x ms) ↔ extra_ok x ∧ Forall (λ m, name_ok m.1 ∧ valid_value m.2) ms.
Proof. cbn [valid_value]. apply and_iff_compat_l. induction ms as [|m ms IH]; simpl; [by split|]. by rewrite Forall_cons, <-IH. Qed.

Lemma valid_extra_of v : valid_value v → extra_ok (extra_of v).
Proof. by destruct v; intros [? _]. Qed.
End valid.

(** The parser yields valid trees; a valid tree that is formatted and printed is parsed as a tree that says the
    same; the literals the library writes for an ASCII string and for a truth value are valid and are read back. *)
Class HuJSONLaws `{HuJSON} `{HuJSONWriter} := {
  valid_literal : string → Prop;
  valid_extra : Extra → Prop;
  valid_name l := valid_literal l ∧ Literal_Kind l = string_kind;
  valid_tree := valid_value valid_name valid_literal valid_extra;
  no_extra : valid_extra (mkExtra "" "");
  parse_valid : ∀ src v, hujson_Parse src = inr v → valid_tree v;
  write_parse : ∀ v, valid_tree v → ∃ v', hujson_Parse (Pack (Format v)) = inr v' ∧ same v v';
  string_literal : ∀ s, strings.is_ascii s = true → valid_name (hujson_String s) ∧ Literal_String (hujson_String s) = s;
  bool_literal : ∀ b, valid_literal (hujson_Bool b) ∧ Literal_Kind (hujson_Bool b) = (if b then "t"%char else "f"%char) ∧
    Literal_Bool (hujson_Bool b) = b;
}.

(** The document with the team switch set. *)
Definition with_switch (d : Document) (on : bool) : Document :=
  mkDocument (d_Schema d) (Some on) (d_Groups d) (d_Tags d) (d_Rules d) (d_Tests d).

Definition switch_name : string := "allow_private_access".

Section edits.
Context `{GoRuntime} `{HL : HuJSONLaws}.

Definition to_member (m : string * Value) : member := mkMember' (Literal_String m.1) m.2.

Lemma members_nodup path o : NoDup (names o) → members path o = (to_member <$> o, []).
Proof.
  intros Hnd. unfold members. set (body := λ (_ : nat) (m : string * Value) (out : list member), _).
  enough (Hgen : ∀ rest i done_, done_ ++ rest = o → for_range i rest (to_member <$> done_) body = (to_member <$> o, []))
    by exact (Hgen o 0%nat [] eq_refl).
  induction rest as [|m rest IH]; intros i done_ Heq; [simpl; by rewrite <-Heq, app_nil_r|].
  cbn [for_range]. unfold body at 1. rewrite decide_False.
  - cbn [bind ret]. assert (Happ : (to_member <$> done_) ++ [mkMember' (Literal_String m.1) m.2] = to_member <$> (done_ ++ [m]))
      by (by rewrite fmap_app). rewrite Happ, IH by (by rewrite <-app_assoc). done.
  - rewrite <-list_fmap_compose. intros Hin. rewrite <-Heq in Hnd. unfold names in Hnd. rewrite fmap_app, fmap_cons in Hnd.
    apply NoDup_app in Hnd as (_ & Hdis & _). apply (Hdis _ Hin). left.
Qed.

(** A member other than the switch neither sees nor changes the switch. *)
Lemma document_member_switch m d on :
  m_name m ≠ switch_name →
  document_member m (with_switch d on) = (with_switch (val (document_member m d)) on, errs (document_member m d)).
Proof.
  intros Hne. unfold document_member. apply String.eqb_neq in Hne. unfold switch_name in Hne. rewrite Hne.
  repeat (match goal with |- context [if String.eqb (m_name m) ?k then _ else _] => destruct (String.eqb (m_name m) k) end);
    try done;
    match goal with |- context [bind ?w _] => destruct w as [y e]; simpl; done end.
Qed.

Lemma document_members_switch ms : ∀ i d on,
  (∀ m, m ∈ ms → m_name m ≠ switch_name) →
  for_range i ms (with_switch d on) (λ _ m d, document_member m d) =
  (with_switch (val (for_range i ms d (λ _ m d, document_member m d))) on, errs (for_range i ms d (λ _ m d, document_member m d))).
Proof.
  induction ms as [|m ms IH]; intros i d on Hne; [done|]. cbn [for_range].
  rewrite document_member_switch by (apply Hne; left).
  destruct (document_member m d) as [d1 e1]. cbn [bind val errs fst snd].
  rewrite IH by (intros; apply Hne; by right). by destruct (for_range (S i) ms d1 _).
Qed.

Lemma switch_member v d (on : bool) :
  Literal_Kind v = (if on then "t"%char else "f"%char) → Literal_Bool v = on → ∀ x,
  document_member (mkMember' switch_name (VLiteral x v)) d = (with_switch d on, []).
Proof. intros Hk Hb x. unfold document_member, switch_name. simpl. unfold boolean. rewrite Hk, Hb. by destruct on. Qed.

Lemma for_range_app {A B} (body : nat → A → B → W B) l1 l2 i acc :
  for_range i (l1 ++ l2) acc body = bind (for_range i l1 acc body) (λ acc', for_range (i + length l1) l2 acc' body).
Proof.
  revert i acc; induction l1 as [|a l1 IH]; intros i acc; simpl.
  - rewrite Nat.add_0_r. by destruct (for_range i l2 acc body).
  - destruct (body i a acc) as [b e]. simpl. rewrite IH, Nat.add_succ_r. destruct (for_range (S i) l1 b body) as [b' e']. simpl.
    destruct (for_range (S (i + length l1)) l2 b' body) as [b'' e'']. by rewrite app_assoc.
Qed.

Lemma objectMember_Some ms name i :
  objectMember ms name = Some i → ∃ pre m post, ms = pre ++ m :: post ∧ i = length pre ∧ literal_raw m.1 = name.
Proof.
  revert i; induction ms as [|m ms IH]; intros i; simpl; [done|].
  destruct (String.eqb_spec (literal_raw m.1) name) as [Heq|_].
  - intros [= <-]. by exists [], m, ms.
  - destruct (objectMember ms name) as [j|]; [|done]. intros [= <-].
    destruct (IH j eq_refl) as (pre & m' & post & -> & -> & ?). by exists (m :: pre), m', post.
Qed.

Lemma objectMember_None ms name m : objectMember ms name = None → m ∈ ms → literal_raw m.1 ≠ name.
Proof.
  induction ms as [|m' ms IH]; simpl; intros Hn Hin; [by apply elem_of_nil in Hin|].
  destruct (String.eqb_spec (literal_raw m'.1) name) as [|Hne]; [done|].
  destruct (objectMember ms name) eqn:E; [done|]. apply elem_of_cons in Hin as [->|Hin]; auto.
Qed.

Lemma literal_raw_string l : Literal_Kind l = string_kind → literal_raw l = Literal_String l.
Proof. unfold literal_raw. intros ->. by rewrite Ascii.eqb_refl. Qed.

Lemma switch_accepted v d :
  errs (document_member (mkMember' switch_name v) d) = [] →
  ∃ b, document_member (mkMember' switch_name v) d = (with_switch d b, []).
Proof.
  unfold document_member, switch_name. simpl. unfold boolean.
  destruct v as [x l|x o|x es]; [|done..]. destruct (_ || _)%bool; [|done]. by eexists.
Qed.

Lemma list_alter_middle {A} (f : A → A) pre x post : alter f (length pre) (pre ++ x :: post) = pre ++ f x :: post.
Proof. induction pre as [|a pre IH]; [done|]. simpl. by f_equal. Qed.

Lemma parse_object x ms :
  parse_value (VObject x ms) = bind (members "" ms) (λ l, for_range 0 l emptyDocument (λ _ m d, document_member m d)).
Proof. unfold parse_value, bind. simpl. destruct (members "" ms) as [l e]. by destruct (for_range 0 l emptyDocument _). Qed.

(** The members of an edited file, read back. *)
Lemma set_switch_parse ms on d x :
  Forall (λ m : string * Value, Literal_Kind m.1 = string_kind) ms →
  parse_value (VObject x ms) = (d, []) → parse_value (VObject x (set_switch ms on)) = (with_switch d on, []).
Proof.
  intros Hkinds Hp. destruct (string_literal switch_name eq_refl) as [[_ Hsk] Hss]. destruct (bool_literal on) as (_ & Hbk & Hbb).
  rewrite parse_object in Hp |- *.
  assert (Hnd : NoDup (names ms)).
  { apply members_ok with "". apply (f_equal errs) in Hp. rewrite W_bind_errs in Hp. by apply app_nil in Hp as [-> _]. }
  rewrite members_nodup in Hp by done. cbn [bind] in Hp.
  unfold set_switch. change "allow_private_access" with switch_name.
  assert (Hraw : ∀ m, m ∈ ms → literal_raw m.1 = Literal_String m.1).
  { intros m Hm. rewrite Forall_forall in Hkinds. by apply literal_raw_string, Hkinds. }
  destruct (objectMember ms switch_name) as [i|] eqn:Eo.
  - apply objectMember_Some in Eo as (pre & [n v] & post & -> & -> & Hname).
    rewrite Hraw in Hname by (apply elem_of_app; right; left). simpl in Hname.
    assert (Hset : set_member (pre ++ (n, v) :: post) (length pre) (λ v, VLiteral (extra_of v) (hujson_Bool on)) =
      pre ++ (n, VLiteral (extra_of v) (hujson_Bool on)) :: post).
    { unfold set_member. by rewrite list_alter_middle. }
    rewrite Hset.
    assert (Hnames : names (pre ++ (n, VLiteral (extra_of v) (hujson_Bool on)) :: post) = names (pre ++ (n, v) :: post))
      by (unfold names; by rewrite !fmap_app).
    rewrite members_nodup by (by rewrite Hnames). cbn [bind]. rewrite fmap_app, fmap_cons, for_range_app in Hp |- *.
    assert (Hpost : ∀ m, m ∈ to_member <$> post → m_name m ≠ switch_name).
    { intros m Hm. apply list_elem_of_fmap in Hm as (m' & -> & Hm). simpl. intros Heq.
      unfold names in Hnd. rewrite fmap_app, fmap_cons in Hnd. apply NoDup_app in Hnd as (_ & _ & Hnd). apply NoDup_cons in Hnd as [Hnin _].
      apply Hnin. simpl. rewrite Hname, <-Heq. by apply (list_elem_of_fmap_2 (λ m, Literal_String m.1)). }
    destruct (for_range 0 (to_member <$> pre) emptyDocument _) as [d1 e1]. cbn [bind for_range] in Hp |- *.
    assert (Hm : to_member (n, VLiteral (extra_of v) (hujson_Bool on)) = mkMember' switch_name (VLiteral (extra_of v) (hujson_Bool on)))
      by (unfold to_member; simpl; by rewrite Hname).
    rewrite Hm, (switch_member _ d1 on Hbk Hbb). cbn [bind].
    assert (Hold : ∃ b, document_member (to_member (n, v)) d1 = (with_switch d1 b, [])).
    { unfold to_member. cbn [fst snd]. rewrite Hname. apply switch_accepted. unfold to_member in Hp. cbn [fst snd] in Hp.
      rewrite Hname in Hp. destruct (document_member (mkMember' switch_name v) d1) as [d' e']. cbn [bind] in Hp.
      destruct (for_range _ _ d' _) as [d'' e'']. injection Hp as _ Hp. apply app_nil in Hp as [_ Hp]. by apply app_nil in Hp as [-> _]. }
    destruct Hold as [b Hold]. rewrite Hold in Hp. cbn [bind] in Hp.
    rewrite document_members_switch in Hp |- * by done.
    destruct (for_range _ (to_member <$> post) d1 _) as [d2 e2]. simpl in Hp |- *. by injection Hp as <- ->.
  - assert (Hnone : ∀ m, m ∈ to_member <$> ms → m_name m ≠ switch_name).
    { intros m Hm. apply list_elem_of_fmap in Hm as (m' & -> & Hm). simpl. rewrite <-Hraw by done. by eapply objectMember_None. }
    rewrite members_nodup.
    + cbn [bind]. rewrite fmap_cons. cbn [for_range].
      assert (Hm : to_member (hujson_String switch_name, VLiteral (mkExtra "" "") (hujson_Bool on)) =
        mkMember' switch_name (VLiteral (mkExtra "" "") (hujson_Bool on))) by (unfold to_member; simpl; by rewrite Hss).
      rewrite Hm, (switch_member _ emptyDocument on Hbk Hbb). cbn [bind].
      rewrite document_members_switch by done.
      assert (Hidx : for_range 1 (to_member <$> ms) emptyDocument (λ _ m d, document_member m d) =
        for_range 0 (to_member <$> ms) emptyDocument (λ _ m d, document_member m d)) by (apply (for_range_index document_member)).
      rewrite Hidx. destruct (for_range 0 (to_member <$> ms) emptyDocument _) as [d2 e2]. simpl in Hp |- *. by injection Hp as <- ->.
    + unfold names. rewrite fmap_cons. cbn [fst]. rewrite Hss. apply NoDup_cons. split; [|done]. intros Hin.
      apply list_elem_of_fmap in Hin as (m & Heq & Hm). apply (Hnone (to_member m)); [by apply list_elem_of_fmap_2|]. by symmetry.
Qed.

Lemma set_switch_valid ms on :
  Forall (λ m, valid_name m.1 ∧ valid_tree m.2) ms →
  Forall (λ m, valid_name m.1 ∧ valid_tree m.2) (set_switch ms on).
Proof.
  intros Hms. destruct (string_literal switch_name eq_refl) as [Hsv _]. destruct (bool_literal on) as (Hbv & _ & _).
  unfold set_switch. change "allow_private_access" with switch_name. destruct (objectMember ms switch_name) as [i|] eqn:Eo.
  - apply objectMember_Some in Eo as (pre & [n v] & post & -> & -> & _).
    unfold set_member. rewrite list_alter_middle. simpl.
    apply Forall_app in Hms as [Hpre [[Hn Hv] Hpost]%Forall_cons]. apply Forall_app. split; [done|]. constructor; [|done].
    split; [done|]. split; [|done]. by eapply valid_extra_of.
  - constructor; [|done]. split; [done|]. split; [apply no_extra|done].
Qed.

(** Setting the team switch changes the switch and nothing else: for every file the parser accepts, the edit
    succeeds, and the edited file is accepted again as the same document (groups, tags, rules, tests,
    schema) with allow_private_access set to the new value, whether the file had the switch or not. *)
Theorem switch_edit_exact (src : string) (d : Document) (on : bool) (Hp : Parse src = (d, [])) :
  ∃ src', SetAllowPrivateAccess src on = inr src' ∧ Parse src' = (with_switch d on, []).
Proof.
  unfold Parse in Hp. unfold SetAllowPrivateAccess. destruct (hujson_Parse src) as [err|v] eqn:Ev; [done|].
  pose proof (parse_valid _ _ Ev) as Hv. destruct (parse_value v) as [d0 e0] eqn:Epv. simpl in Hp.
  injection Hp as -> He. pose proof (proj1 (sorted_nil_iff e0) He) as ->.
  destruct v as [x l|x ms|x es]; [by unfold parse_value in Epv; simpl in Epv| |by unfold parse_value in Epv; simpl in Epv].
  unfold valid_tree in Hv. rewrite valid_object in Hv. destruct Hv as [Hx Hv].
  destruct (write_parse (VObject x (set_switch ms on))) as (v' & Hv' & Her).
  { apply valid_object. split; [done|]. by apply set_switch_valid. }
  eexists. split; [done|]. unfold Parse. rewrite Hv', <-(parse_value_same _ _ Her).
  rewrite (set_switch_parse ms on d x); [done| |done].
  apply (Forall_impl _ _ _ Hv). by intros m [[_ ?] _].
Qed.
End edits.

(** ** A concrete library *)

Section value_induction.
Variable P : Value → Prop.
Hypothesis P_literal : ∀ x l, P (VLiteral x l).
Hypothesis P_object : ∀ x ms, Forall (λ m, P m.2) ms → P (VObject x ms).
Hypothesis P_array : ∀ x es, Forall P es → P (VArray x es).

Fixpoint Value_nested (v : Value) : P v :=
  match v with
  | VLiteral x l => P_literal x l
  | VObject x ms =>
      P_object x ms ((fix go ms := match ms return Forall (λ m, P m.2) ms with
                      | [] => Forall_nil_2 _
                      | m :: ms' => Forall_cons_2 _ m ms' (Value_nested m.2) (go ms')
                      end) ms)
  | VArray x es =>
      P_array x es ((fix go es := match es return Forall P es with
                     | [] => Forall_nil_2 _
                     | e :: es' => Forall_cons_2 _ e es' (Value_nested e) (go es')
                     end) es)
  end.
End value_induction.

Lemma same_refl `{HuJSON} v : same v v.
Proof.
  induction v as [x l|x ms IH|x es IH] using Value_nested; constructor.
  - split; [done|]. by destruct (Ascii.eqb _ _).
  - apply Forall_Forall2_diag. eapply Forall_impl; [exact IH|]. done.
  - by apply Forall_Forall2_diag.
Qed.

(** A tree as text: the code of the tree, in binary. *)
Fixpoint to_tree (v : Value) : gen_tree string :=
  let node n x ts := GenNode n (GenLeaf (BeforeExtra x) :: GenLeaf (OtherExtra x) :: ts) in
  match v with
  | VLiteral x l => node 0%nat x [GenLeaf l]
  | VObject x ms => node 1%nat x (List.map (λ m, GenNode 0 [GenLeaf m.1; to_tree m.2]) ms)
  | VArray x es => node 2%nat x (List.map to_tree es)
  end.

Fixpoint of_tree (t : gen_tree string) : Value :=
  match t with
  | GenNode 0 [GenLeaf b; GenLeaf o; GenLeaf l] => VLiteral (mkExtra b o) l
  | GenNode 1 (GenLeaf b :: GenLeaf o :: ts) =>
      VObject (mkExtra b o)
        (List.map (λ t, match t with GenNode _ [GenLeaf n; t'] => (n, of_tree t') | _ => ("", VLiteral (mkExtra "" "") "") end) ts)
  | GenNode 2 (GenLeaf b :: GenLeaf o :: ts) => VArray (mkExtra b o) (List.map of_tree ts)
  | _ => VLiteral (mkExtra "" "") ""
  end.

Lemma of_to_tree v : of_tree (to_tree v) = v.
Proof.
  induction v as [[b o] l|[b o] ms IH|[b o] es IH] using Value_nested; [done|simpl..]; f_equal; rewrite List.map_map.
  - induction IH as [|[n v] ms Hm _ IH]; [done|]. simpl in *. by rewrite Hm, IH.
  - induction IH as [|e es He _ IH]; [done|]. simpl. by rewrite He, IH.
Qed.

Fixpoint bits (p : positive) : string :=
  match p with xH => "" | xO p => String "0" (bits p) | xI p => String "1" (bits p) end.

Fixpoint of_bits (s : string) : positive :=
  match s with EmptyString => xH | String c s => if Ascii.eqb c "0" then xO (of_bits s) else xI (of_bits s) end.

Lemma of_bits_bits p : of_bits (bits p) = p.
Proof. induction p as [p IH|p IH|]; simpl; by rewrite ?IH. Qed.

(** The names of the members are strings. *)
Fixpoint names_ok (v : Value) : bool :=
  match v with
  | VLiteral _ _ => true
  | VObject _ ms => forallb (λ m, Ascii.eqb (simple_kind m.1) string_kind && names_ok m.2) ms
  | VArray _ es => forallb names_ok es
  end.

#[local] Instance code_hujson : HuJSON := {|
  hujson_Parse src :=
    match decode (of_bits src) with
    | Some t => if names_ok (of_tree t) then inr (of_tree t) else inl "hujson: a name is not a string"
    | None => inl "hujson: not a tree"
    end;
  Literal_Kind := simple_kind;
  Literal_String := simple_string;
  Literal_Bool := String.eqb "true";
|}.

#[local] Instance code_writer : HuJSONWriter := {|
  hujson_String := q;
  hujson_Bool b := if b then "true" else "false";
  hujson_Standardize := inr;
  Pack v := bits (encode (to_tree v));
  Format v := v;
|}.

Lemma names_ok_valid v :
  names_ok v = true ↔ valid_value (λ l, True ∧ simple_kind l = string_kind) (λ _, True) (λ _, True) v.
Proof.
  induction v as [x l|x ms IH|x es IH] using Value_nested; [done|simpl..].
  - induction IH as [|m ms Hm _ IH]; simpl; [done|]. rewrite !andb_true_iff, Hm, Ascii.eqb_eq, IH. naive_solver.
  - induction IH as [|e es He _ IH]; simpl; [done|]. rewrite andb_true_iff, He, IH. naive_solver.
Qed.

Lemma substring_app_l s t : String.substring 0 (String.length s) (s +:+ t) = s.
Proof. induction s as [|c s IH]; simpl; [by destruct t|]. by rewrite IH. Qed.

Lemma unquoted_q s : unquoted (q s) = s.
Proof.
  unfold unquoted, q. change dquote with (String (Ascii.ascii_of_nat 34) "").
  assert (Hl : ∀ t, String.length (s +:+ t) = (String.length s + String.length t)%nat)
    by (intros t; induction s as [|c s IH]; simpl; [done|by rewrite IH]).
  simpl. rewrite Hl. simpl. replace (String.length s + 1 - 1)%nat with (String.length s) by lia. apply substring_app_l.
Qed.

#[local] Instance code_laws : HuJSONLaws.
Proof.
  refine (Build_HuJSONLaws _ _ (λ _, True) (λ _, True) _ _ _ _ _); [done| | | |].
  - intros src v Hv. simpl in Hv. destruct (decode (of_bits src)) as [t|]; [|done].
    destruct (names_ok (of_tree t)) eqn:En; [|done]. injection Hv as <-. by apply names_ok_valid.
  - intros v Hv. exists v. split; [|apply same_refl]. simpl. rewrite of_bits_bits, decode_encode, of_to_tree.
    by rewrite (proj2 (names_ok_valid v) Hv).
  - intros s _. split; [done|]. apply unquoted_q.
  - by intros [].
Defined.

(** A file with a group, a rule and no switch. *)
Definition switch_sample : Value :=
  vobj [("groups", vobj [("ops", vlist ["ann@example.com"])]);
        ("rules", VArray (mkExtra "" "") [vobj [("src", vlist ["group:ops"]); ("dst", vlist ["machine:db1"]);
                                     ("allow", vlist ["private_access"])]])].

Definition switch_sample_document : Document :=
  mkDocument "" None {[ "ops" := ["ann@example.com"] ]} ∅
    [mkRule ["group:ops"] ["machine:db1"] ["private_access"] None None ""] [].

Lemma switch_edit_exact_witness :
  ∃ src', SetAllowPrivateAccess (Pack switch_sample) false = inr src' ∧
    Parse (H := eval_runtime) src' = (with_switch switch_sample_document false, []).
Proof.
  apply (switch_edit_exact (H := eval_runtime) (Pack switch_sample) switch_sample_document false).
  vm_compute. reflexivity.
Defined.
