(* ===== verification/Rewrite.v ===== *)
(** * Rewriting the references of a policy file: shared/policy/rewrite.go

    Stored files name machines, members, previews and tunnels by ID; Internalize and Externalize
    translate between IDs and the names of the moment. *)
From S2P Require Import Prelude GoStd Ports Inventory PolicyDoc Parse Rules Compile Eval Edit.

(** A tree under rewriting.  The set [dropped] of the rewriter holds objects by their pointer: it is
    a mark on the object here. *)
#[local] Set Warnings "-register-all".
Inductive MValue :=
  | MLiteral (x : Extra) (raw : string)
  | MObject (x : Extra) (dropped : bool) (members : list (string * MValue))
  | MArray (x : Extra) (elements : list MValue).

Fixpoint unmark (v : MValue) : Value :=
  match v with
  | MLiteral x l => VLiteral x l
  | MObject x _ ms => VObject x ((fix go ms := match ms with [] => [] | (n, w) :: ms' => (n, unmark w) :: go ms' end) ms)
  | MArray x es => VArray x ((fix go es := match es with [] => [] | w :: es' => unmark w :: go es' end) es)
  end.

Definition m_extra (v : MValue) : Extra := match v with MLiteral x _ | MObject x _ _ | MArray x _ => x end.

Definition m_set_extra (v : MValue) (x : Extra) : MValue :=
  match v with MLiteral _ l => MLiteral x l | MObject _ d ms => MObject x d ms | MArray _ es => MArray x es end.

(** kept[0].BeforeExtra = lead *)
Definition set_lead (lead : string) (es : list MValue) : list MValue :=
  match es with [] => [] | e :: es' => m_set_extra e (mkExtra lead (OtherExtra (m_extra e))) :: es' end.

(** The keys whose strings are not references. *)
Definition opaque_keys : list string := ["note"; "$schema"; "allow"; "deny"; "ports"].

Section rewrite.
Context `{GoRuntime} `{HuJSON} `{HuJSONWriter}.
Context (fn : string → string * bool).

(** rewriter.apply: the literal, whether to keep it, whether it changed. *)
Definition rw_apply (x : Extra) (l : string) : MValue * bool * bool :=
  if negb (Ascii.eqb (Literal_Kind l) string_kind) then (MLiteral x l, true, false)
  else
    let '(to, keep) := fn (Literal_String l) in
    if negb keep then (MLiteral x l, false, true)
    else if negb (String.eqb to (Literal_String l)) then (MLiteral x (hujson_String to), true, true)
    else (MLiteral x l, true, false).

(** rewriter.value *)
Fixpoint rw_value (v : Value) (refs : bool) : MValue * bool * bool :=
  match v with
  | VLiteral x l => if refs then rw_apply x l else (MLiteral x l, true, false)
  | VObject x ms =>
      let '(ms', dropped, changed) :=
        (fix go (ms : list (string * Value)) : list (string * MValue) * bool * bool :=
           match ms with
           | [] => ([], false, false)
           | (n, w) :: ms' =>
               let inner := refs && negb (bool_decide (literal_raw n ∈ opaque_keys)) in
               let '(w', keep, c) := rw_value w inner in
               let '(rest, d, c') := go ms' in
               ((n, w') :: rest, negb keep || d, c || c')
           end) ms in
      (MObject x dropped ms', true, changed)
  | VArray x es =>
      let lead := match es with [] => "" | e :: _ => BeforeExtra (extra_of e) end in
      let '(kept, changed) :=
        (fix go (es : list Value) : list MValue * bool :=
           match es with
           | [] => ([], false)
           | e :: es' =>
               let '(e', keep, c) := rw_value e refs in
               let '(rest, c') := go es' in
               ((if keep then e' :: rest else rest), c || c')
           end) es in
      (MArray x (set_lead lead kept), true, changed)
  end.

(** rewriter.incomplete *)
Definition incomplete (e : MValue) : bool :=
  match e with
  | MObject _ dropped ms =>
      dropped ||
      existsb (λ m, (String.eqb (literal_raw m.1) "src" || String.eqb (literal_raw m.1) "dst") &&
                    match m.2 with MArray _ [] => true | _ => false end) ms
  | _ => false
  end.

(** rewriter.dropIncomplete: the list and whether an element was deleted. *)
Definition dropIncomplete (v : MValue) : MValue * bool :=
  match v with
  | MArray x es => (MArray x (List.filter (λ e, negb (incomplete e)) es), existsb incomplete es)
  | _ => (v, false)
  end.

(** The loop of RewriteFunc over the members of the file. *)
Fixpoint drop_members (ms : list (string * MValue)) : list (string * MValue) * bool :=
  match ms with
  | [] => ([], false)
  | (n, w) :: ms' =>
      let '(w', c) := if String.eqb (literal_raw n) "rules" || String.eqb (literal_raw n) "tests"
                      then dropIncomplete w else (w, false) in
      let '(rest, c') := drop_members ms' in ((n, w') :: rest, c || c')
  end.

Definition rewrite_value (v : Value) : Value * bool :=
  let '(mv, _, changed) := rw_value v true in
  match mv with
  | MObject x d ms => let '(ms', c) := drop_members ms in (unmark (MObject x d ms'), changed || c)
  | _ => (unmark mv, changed)
  end.

(** RewriteFunc: the error of the library, or the new file and whether it changed. *)
Definition RewriteFunc (src : string) : string + (string * bool) :=
  match hujson_Parse src with
  | inl err => inl err
  | inr v =>
      let '(v', changed) := rewrite_value v in
      if changed then inr (Pack v', true) else inr (src, false)
  end.

End rewrite.

Section names.
Context `{GoRuntime} `{HuJSON} `{HuJSONWriter}.

(** The function Rewrite passes. *)
Definition rename_remove (rename : gmap string string) (remove : gset string) (s : string) : string * bool :=
  if bool_decide (s ∈ remove) then (s, false)
  else match rename !! s with Some to => (to, true) | None => (s, true) end.

Definition Rewrite (src : string) (rename : gmap string string) (remove : gset string) :
    string + (string * bool) :=
  RewriteFunc (rename_remove rename remove) src.

(** The function Internalize passes: three tests in order, each falling through to the next. *)
Definition internalize_ref (x : index) (s : string) : string * bool :=
  let by_resource :=
    match resources x !! s with
    | Some r => (rs_Kind r +:+ ":#" +:+ rs_ID r, true)
    | None => (s, true)
    end in
  let by_user :=
    if strings.HasPrefix s "user:" && negb (strings.HasPrefix s "user:#") then
      let '(a, ok) := user x s in if ok then ("user:#" +:+ a, true) else by_resource
    else by_resource in
  let '(name, ok) := strings.CutPrefix s "machine:" in
  if ok && negb (String.eqb name "*") && negb (strings.HasPrefix name "#") then
    let '(m, code) := machine x name in
    if String.eqb code "" then ("machine:#" +:+ mc_ID m, true) else by_user
  else by_user.

Definition Internalize (src : string) (inv : Inventory) : string + string :=
  match RewriteFunc (internalize_ref (newIndex inv)) src with
  | inl err => inl err
  | inr (out, _) => inr out
  end.

(** The function Externalize passes.  A failed lookup yields the zero value. *)
Definition externalize_ref (x : index) (s : string) : string * bool :=
  let '(id, ok) := strings.CutPrefix s "machine:#" in
  if ok then
    let found := byMachineID x !! id in
    ("machine:" +:+ machineName x (default zeroMachine found), bool_decide (is_Some found))
  else
    let '(id, ok) := strings.CutPrefix s "user:#" in
    if ok then
      let found := byAccount x !! id in
      ("user:" +:+ ToLower (Email (default zeroMember found)), bool_decide (is_Some found))
    else
      let '(kind, id, ok) := strings.Cut s ":#" in
      if ok && (String.eqb kind "preview" || String.eqb kind "tunnel") then
        (targetLabel x (mkTarget kind id), bool_decide (is_Some (resourceIDs x !! resource_key kind id)))
      else (s, true).

Definition Externalize (src : string) (inv : Inventory) : string + string :=
  match RewriteFunc (externalize_ref (newIndex inv)) src with
  | inl err => inl err
  | inr (out, _) => inr out
  end.

End names.

(** ** Stored references survive renames *)

Section stable.
Context `{GoRuntime}.

Lemma internalize_machine x name m :
  machine x name = (m, "") → name ≠ "*" → strings.HasPrefix name "#" = false →
  internalize_ref x ("machine:" +:+ name) = ("machine:#" +:+ mc_ID m, true).
Proof.
  intros Hm Hn Hp. unfold internalize_ref.
  rewrite (proj2 (strings.CutPrefix_true ("machine:" +:+ name) "machine:" name)) by done.
  by rewrite (proj2 (String.eqb_neq name "*")), Hp, Hm.
Qed.

Lemma internalize_user x email a :
  user x ("user:" +:+ email) = (a, true) → strings.HasPrefix email "#" = false →
  internalize_ref x ("user:" +:+ email) = ("user:#" +:+ a, true).
Proof.
  intros Hu Hp. unfold internalize_ref. simpl.
  assert (strings.HasPrefix (String "u" (String "s" (String "e" (String "r" (String ":" email))))) "user:#" = false) as ->.
  { destruct (strings.HasPrefix _ "user:#") eqn:E; [|done]. apply strings.HasPrefix_true in E as [r Hr].
    rewrite <-Hp. symmetry. apply strings.HasPrefix_true. exists r. by simplify_eq/=. }
  simpl. simpl in Hu. by rewrite Hu.
Qed.

Lemma externalize_machine x id m :
  byMachineID x !! id = Some m →
  externalize_ref x ("machine:#" +:+ id) = ("machine:" +:+ machineName x m, true).
Proof.
  intros Hm. unfold externalize_ref.
  rewrite (proj2 (strings.CutPrefix_true ("machine:#" +:+ id) "machine:#" id)) by done.
  by rewrite Hm.
Qed.

Lemma externalize_machine_gone x id :
  byMachineID x !! id = None → (externalize_ref x ("machine:#" +:+ id)).2 = false.
Proof.
  intros Hm. unfold externalize_ref.
  rewrite (proj2 (strings.CutPrefix_true ("machine:#" +:+ id) "machine:#" id)) by done.
  by rewrite Hm.
Qed.

Lemma externalize_user x a o :
  byAccount x !! a = Some o → externalize_ref x ("user:#" +:+ a) = ("user:" +:+ ToLower (Email o), true).
Proof. intros Ho. unfold externalize_ref. simpl. by rewrite Ho. Qed.

Lemma externalize_user_gone x a : byAccount x !! a = None → (externalize_ref x ("user:#" +:+ a)).2 = false.
Proof. intros Ho. unfold externalize_ref. simpl. by rewrite Ho. Qed.

Lemma user_by_email inv o :
  inventory_ok inv → o ∈ Members inv → user (newIndex inv) ("user:" +:+ ToLower (Email o)) = (AccountID o, true).
Proof.
  intros Hok Ho. unfold user. rewrite (proj2 (strings.CutPrefix_true _ "user:" (ToLower (Email o)))) by done. simpl.
  destruct (email_lower inv o Hok Ho) as [_ Hl]. rewrite Hl.
  by rewrite (proj2 (byEmail_unique inv (ToLower (Email o)) o Hok)).
Qed.

(** Stored references follow renames and never go to another object: a machine name that resolves
    is stored by ID, and reading the stored reference back in any later inventory gives a name that
    resolves to the machine with that ID there, or drops the reference when that machine is gone; the same
    holds for members by account. *)
Theorem stored_references_stable (inv1 inv2 : Inventory) (Hok1 : inventory_ok inv1) (Hok2 : inventory_ok inv2) :
  let x1 := newIndex inv1 in
  let x2 := newIndex inv2 in
  (∀ name m, machine x1 name = (m, "") → name ≠ "*" → strings.HasPrefix name "#" = false →
     ∃ ref, internalize_ref x1 ("machine:" +:+ name) = (ref, true) ∧
       (∀ m2, m2 ∈ Machines inv2 → mc_ID m2 = mc_ID m →
          ∃ name2, externalize_ref x2 ref = ("machine:" +:+ name2, true) ∧ machine x2 name2 = (m2, "")) ∧
       (mc_ID m ∉ mc_ID <$> Machines inv2 → (externalize_ref x2 ref).2 = false)) ∧
  (∀ email a, user x1 ("user:" +:+ email) = (a, true) → strings.HasPrefix email "#" = false →
     ∃ ref, internalize_ref x1 ("user:" +:+ email) = (ref, true) ∧
       (∀ o2, o2 ∈ Members inv2 → AccountID o2 = a →
          ∃ name2, externalize_ref x2 ref = (name2, true) ∧ user x2 name2 = (a, true)) ∧
       (a ∉ AccountID <$> Members inv2 → (externalize_ref x2 ref).2 = false)).
Proof.
  intros x1 x2. split.
  - intros name m Hm Hn Hp. eexists. split; [by apply internalize_machine|]. split.
    + intros m2 Hm2 Hid. exists (machineName x2 m2). split; [|by apply machineName_resolves].
      apply externalize_machine. by apply byMachineID_unique.
    + intros Hgone. apply externalize_machine_gone. apply (index_by_None mc_ID).
      intros m' Hm' Heq. apply Hgone. rewrite <-Heq. by apply list_elem_of_fmap_2.
  - intros email a Hu Hp. eexists. split; [by apply internalize_user|]. split.
    + intros o2 Ho2 Ha. eexists. split; [apply externalize_user; by apply byAccount_unique|].
      rewrite <-Ha. by apply user_by_email.
    + intros Hgone. apply externalize_user_gone. apply (index_by_None AccountID).
      intros o Ho Heq. apply Hgone. rewrite <-Heq. by apply list_elem_of_fmap_2.
Qed.
End stable.

(** bo's laptop renamed, ana's gone. *)
Definition renamed_inventory : Inventory := {|
  Team := true; TeamID := "team1";
  Members := Members sample_inventory;
  Machines := [mkMachine "m1" "db1" ""; mkMachine "m3" "travel" "acc-bo"];
  Resources := Resources sample_inventory;
  Tokens := [];
|}.

Lemma renamed_inventory_ok : inventory_ok (H := eval_runtime) renamed_inventory.
Proof. split; try (apply (bool_decide_eq_true_1 _); vm_compute; reflexivity). Qed.

Lemma stored_references_stable_witness :
  ∃ ref name2, internalize_ref (H := eval_runtime) (newIndex (H := eval_runtime) sample_inventory)
                 "machine:bo@example.test/laptop" = (ref, true) ∧
    externalize_ref (H := eval_runtime) (newIndex (H := eval_runtime) renamed_inventory) ref
      = ("machine:" +:+ name2, true) ∧
    machine (H := eval_runtime) (newIndex (H := eval_runtime) renamed_inventory) name2
      = (mkMachine "m3" "travel" "acc-bo", "").
Proof.
  destruct (proj1 (stored_references_stable (H := eval_runtime) sample_inventory renamed_inventory
    sample_inventory_ok renamed_inventory_ok) "bo@example.test/laptop" (mkMachine "m3" "laptop" "acc-bo"))
    as (ref & Hi & Hk & _); [vm_compute; reflexivity|discriminate|vm_compute; reflexivity|].
  destruct (Hk (mkMachine "m3" "travel" "acc-bo")) as (name2 & He & Hm); [right; left|reflexivity|].
  exists ref, name2. split; [exact Hi|]. split; [exact He|exact Hm].
Defined.
