(* ===== verification/GoData.v ===== *)
(** * More of Go's standard library: time, encoding/hex and 32-bit counters

    A time is a number of nanoseconds since the Unix epoch; the zero value of time.Time is the
    start of year 1. *)
From S2P Require Import Prelude GoStd.

(** ** time *)
Module time.
Abbreviation Time := Z.
Abbreviation Duration := Z.

Definition zero : Time := (-62135596800 * 1000000000)%Z.
Definition Unix (sec nsec : Z) : Time := (sec * 1000000000 + nsec)%Z.

Definition After (t u : Time) : bool := (u <? t)%Z.
Definition Before (t u : Time) : bool := (t <? u)%Z.
Definition IsZero (t : Time) : bool := (t =? zero)%Z.

Definition Second : Duration := 1000000000%Z.
Definition Hour : Duration := (3600 * Second)%Z.

(** t.Sub(u), which saturates at the range of a Duration. *)
Definition Sub (t u : Time) : Duration := Z.max Int64.min_value (Z.min Int64.max_value (t - u)%Z).

(** t.Unix(): whole seconds, rounded down. *)
Definition UnixSeconds (t : Time) : Z := (t / 1000000000)%Z.
End time.

(** ** uint32 *)
Module UInt32.
Definition max_value : Z := 4294967295.
Definition wrap (n : Z) : Z := (n mod 2 ^ 32)%Z.
Definition in_range (n : Z) : Prop := (0 ≤ n ≤ max_value)%Z.

Lemma uint32_wrap_id (n : Z) : in_range n → wrap n = n.
Proof. unfold in_range, wrap, max_value; intros. apply Z.mod_small; lia. Qed.
End UInt32.

(** ** encoding/hex *)
Module hex.

Definition nibble (n : N) : ascii := ascii_of_N (if (n <? 10)%N then 48 + n else 87 + n)%N.

Fixpoint EncodeToString (s : string) : string :=
  match s with
  | EmptyString => EmptyString
  | String c s' => String (nibble (N_of_ascii c / 16)) (String (nibble (N_of_ascii c mod 16)) (EncodeToString s'))
  end.

Definition from_nibble (c : ascii) : option N :=
  let n := N_of_ascii c in
  if ((48 <=? n) && (n <=? 57))%N then Some (n - 48)%N
  else if ((97 <=? n) && (n <=? 102))%N then Some (n - 87)%N
  else if ((65 <=? n) && (n <=? 70))%N then Some (n - 55)%N
  else None.

(** hex.DecodeString: [None] is an error (a bad digit or an odd length). *)
Fixpoint DecodeString (s : string) : option string :=
  match s with
  | EmptyString => Some EmptyString
  | String a (String b s') =>
      h ← from_nibble a; l ← from_nibble b; r ← DecodeString s';
      Some (String (ascii_of_N (16 * h + l)) r)
  | String _ EmptyString => None
  end.

Lemma Decode_byte c :
  (h ← from_nibble (nibble (N_of_ascii c / 16)); l ← from_nibble (nibble (N_of_ascii c mod 16));
   Some (ascii_of_N (16 * h + l))) = Some c.
Proof.
  destruct c as [b0 b1 b2 b3 b4 b5 b6 b7].
  destruct b0, b1, b2, b3, b4, b5, b6, b7; reflexivity.
Qed.

Lemma Decode_Encode s : DecodeString (EncodeToString s) = Some s.
Proof.
  induction s as [|c s IH]; [done|]. cbn [EncodeToString DecodeString]. rewrite IH.
  pose proof (Decode_byte c) as Hc.
  destruct (from_nibble (nibble (N_of_ascii c / 16))) as [h|]; [|done]. simpl in Hc |- *.
  destruct (from_nibble (nibble (N_of_ascii c mod 16))) as [l|]; [|done]. simpl in Hc |- *.
  by simplify_eq.
Qed.
End hex.

(** ** crypto/sha256 *)

(** sha256.Sum256: 32 bytes. *)
Class SHA256 := {
  Sum256 : string → string;
  Sum256_length : ∀ s, String.length (Sum256 s) = 32%nat;
}.

(** A stand-in of the right length: the first bytes of the text, padded. *)
Fixpoint pad (n : nat) (s : string) : string :=
  match n with
  | O => EmptyString
  | S n' => match s with EmptyString => String "0" (pad n' EmptyString) | String c s' => String c (pad n' s') end
  end.

Lemma pad_length n s : String.length (pad n s) = n.
Proof. revert s; induction n; intros [|c s]; simpl; by f_equal. Qed.

Definition eval_sha256 : SHA256 := {| Sum256 := pad 32; Sum256_length := pad_length 32 |}.
