(* ===== verification/Journal.v ===== *)
(** * The operation journal of the edge: tunnel/internal/operation/journal.go

    A journal binds single-use credential IDs (JTIs) and operation IDs to the decision made for
    them.  Every operation runs under the journal's lock, so it is one step; an entry is never
    changed after it is created, so the pointers the two maps share are values here.  Byte
    slices are byte strings. *)
From S2P Require Import Prelude GoStd GoData.

Definition maxDocumentBytes : Z := 1048576.

Inductive JournalError := ErrInvalid | ErrReplay | ErrFull.

Record Request := mkRequest {
  rq_OperationID : string;
  rq_JTI : string;
  rq_Canonical : string;
  rq_Decision : string;
  rq_RetainUntil : time.Time;
}.

Record Outcome := mkOutcome { o_Decision : string; o_Duplicate : bool }.

Record Record_ := mkRecord {
  rc_OperationID : string;
  rc_JTI : string;
  rc_RequestHash : string;
  rc_Decision : string;
  rc_RetainUntil : time.Time;
}.

Record entry := mkEntry {
  e_operationID : string;
  e_jti : string;
  e_requestHash : string;
  e_decision : string;
  e_retainUntil : time.Time;
}.

#[export] Instance entry_eq_dec : EqDecision entry.
Proof. solve_decision. Defined.

Record Journal := mkJournal {
  maxEntries : Z;
  byOperation : gmap string entry;
  byJTI : gmap string entry;
}.

Definition longer_than (s : string) (n : Z) : bool := (n <? Z.of_nat (String.length s))%Z.

Section journal.
Context `{GoRuntime} `{SHA256}.

Definition NewJournal (max : Z) : JournalError + Journal :=
  if (max <? 1)%Z then inl ErrInvalid else inr (mkJournal max ∅ ∅).

Definition duplicate (existing : entry) (request : Request) (hash : string) : JournalError + Outcome :=
  if negb (String.eqb (e_operationID existing) (rq_OperationID request))
     || negb (String.eqb (e_jti existing) (rq_JTI request))
     || negb (String.eqb (e_requestHash existing) hash)
  then inl ErrReplay
  else inr (mkOutcome (e_decision existing) true).

Definition insert_entry (j : Journal) (e : entry) : Journal :=
  mkJournal (maxEntries j) (<[e_operationID e := e]> (byOperation j)) (<[e_jti e := e]> (byJTI j)).

(** The first guard of Consume. *)
Definition request_invalid (now : time.Time) (request : Request) : bool :=
  String.eqb (rq_OperationID request) "" || String.eqb (rq_JTI request) ""
  || (String.length (rq_Canonical request) =? 0)%nat || longer_than (rq_Canonical request) maxDocumentBytes
  || longer_than (rq_Decision request) maxDocumentBytes || negb (time.After (rq_RetainUntil request) now).

Definition Consume (j : Journal) (now : time.Time) (request : Request) : Journal * (JournalError + Outcome) :=
  if request_invalid now request then (j, inl ErrInvalid)
  else
    let hash := Sum256 (rq_Canonical request) in
    match byOperation j !! rq_OperationID request with
    | Some existing => (j, duplicate existing request hash)
    | None =>
        match byJTI j !! rq_JTI request with
        | Some existing => (j, duplicate existing request hash)
        | None =>
            if (maxEntries j <=? Z.of_nat (size (byOperation j)))%Z then (j, inl ErrFull)
            else
              let created := mkEntry (rq_OperationID request) (rq_JTI request) hash (rq_Decision request)
                               (rq_RetainUntil request) in
              (insert_entry j created, inr (mkOutcome (e_decision created) false))
        end
    end.

(** RemoveExpired; range site 7.  The loop deletes only the entry it visits. *)
Definition RemoveExpired (j : Journal) (now : time.Time) : Journal * nat :=
  foldl (λ acc kv,
    let '(j, removed) := acc in
    if time.Before now (e_retainUntil kv.2) then acc
    else (mkJournal (maxEntries j) (delete kv.1 (byOperation j)) (delete (e_jti kv.2) (byJTI j)), S removed))
    (j, 0%nat) (range 7 (byOperation j)).

Definition Len (j : Journal) : nat := size (byOperation j).

Definition record_of (e : entry) : Record_ :=
  mkRecord (e_operationID e) (e_jti e) (hex.EncodeToString (e_requestHash e)) (e_decision e) (e_retainUntil e).

Definition record_less (a b : Record_) : bool := str_ltb (rc_OperationID a) (rc_OperationID b).

(** Snapshot; range site 8. *)
Definition Snapshot (j : Journal) : list Record_ :=
  sort_by record_less ((λ kv, record_of kv.2) <$> range 8 (byOperation j)).

(** One iteration of Restore. *)
Definition restore_record (j : Journal) (r : Record_) : JournalError + Journal :=
  if String.eqb (rc_OperationID r) "" || String.eqb (rc_JTI r) "" || longer_than (rc_Decision r) maxDocumentBytes
     || negb (time.After (rc_RetainUntil r) (time.Unix 0 0))
  then inl ErrInvalid
  else match hex.DecodeString (rc_RequestHash r) with
       | None => inl ErrInvalid
       | Some raw =>
           if negb (String.length raw =? 32)%nat then inl ErrInvalid
           else if bool_decide (is_Some (byOperation j !! rc_OperationID r))
                   || bool_decide (is_Some (byJTI j !! rc_JTI r))
                   || (maxEntries j <=? Z.of_nat (size (byOperation j)))%Z
           then inl ErrInvalid
           else inr (insert_entry j (mkEntry (rc_OperationID r) (rc_JTI r) raw (rc_Decision r) (rc_RetainUntil r)))
       end.

Fixpoint restore_loop (j : Journal) (records : list Record_) : JournalError + Journal :=
  match records with
  | [] => inr j
  | r :: records' =>
      match restore_record j r with inl e => inl e | inr j' => restore_loop j' records' end
  end.

Definition Restore (records : list Record_) (max : Z) : JournalError + Journal :=
  match NewJournal max with inl e => inl e | inr j => restore_loop j records end.

(** ** The invariant *)

Definition valid_entry (e : entry) : Prop :=
  e_operationID e ≠ "" ∧ e_jti e ≠ "" ∧ longer_than (e_decision e) maxDocumentBytes = false ∧
  String.length (e_requestHash e) = 32%nat.

(** The two maps hold the same entries, each under its own operation ID and JTI, and no more than
    the limit. *)
Record journal_ok (j : Journal) : Prop := {
  jo_operation : ∀ k e, byOperation j !! k = Some e → e_operationID e = k ∧ byJTI j !! e_jti e = Some e;
  jo_jti : ∀ k e, byJTI j !! k = Some e → e_jti e = k ∧ byOperation j !! e_operationID e = Some e;
  jo_valid : ∀ k e, byOperation j !! k = Some e → valid_entry e;
  jo_size : (Z.of_nat (size (byOperation j)) ≤ maxEntries j)%Z;
}.

Lemma insert_entry_ok j e :
  journal_ok j → valid_entry e → byOperation j !! e_operationID e = None → byJTI j !! e_jti e = None →
  (Z.of_nat (size (byOperation j)) < maxEntries j)%Z → journal_ok (insert_entry j e).
Proof.
  intros [Hop Hjti Hv Hs] He Hno Hnj Hlt. split; simpl.
  - intros k e'. rewrite lookup_insert_Some. intros [[<- <-]|[Hne Hk]]; [by rewrite lookup_insert_eq|].
    destruct (Hop _ _ Hk) as [? Hj]. split; [done|]. rewrite lookup_insert_ne; [done|congruence].
  - intros k e'. rewrite lookup_insert_Some. intros [[<- <-]|[Hne Hk]]; [by rewrite lookup_insert_eq|].
    destruct (Hjti _ _ Hk) as [? Ho]. split; [done|]. rewrite lookup_insert_ne; [done|congruence].
  - intros k e'. rewrite lookup_insert_Some. intros [[<- <-]|[Hne Hk]]; eauto.
  - rewrite map_size_insert_None by done. lia.
Qed.

Lemma request_entry_valid now r :
  request_invalid now r = false →
  valid_entry (mkEntry (rq_OperationID r) (rq_JTI r) (Sum256 (rq_Canonical r)) (rq_Decision r) (rq_RetainUntil r)).
Proof.
  unfold request_invalid. intros Hr. to_prop. unfold valid_entry; simpl. split_and!; try done. apply Sum256_length.
Qed.

Lemma Consume_ok j now r : journal_ok j → journal_ok (Consume j now r).1.
Proof.
  intros Hj. unfold Consume. destruct (request_invalid now r) eqn:Er; [done|].
  destruct (byOperation j !! rq_OperationID r) eqn:Eo; [done|].
  destruct (byJTI j !! rq_JTI r) eqn:Ej; [done|].
  destruct (Z.leb_spec (maxEntries j) (Z.of_nat (size (byOperation j)))); [done|].
  apply insert_entry_ok; [done|by eapply request_entry_valid|done..].
Qed.

(** ** Expiry *)

Definition live (now : time.Time) (e : entry) : bool := time.Before now (e_retainUntil e).

Lemma foldl_delete_lookup {A} (m : gmap string A) ks k :
  foldl (λ m k, delete k m) m ks !! k = if decide (k ∈ ks) then None else m !! k.
Proof.
  revert m; induction ks as [|k' ks IH]; intros m; cbn [foldl].
  - case_decide as Hin; [by apply elem_of_nil in Hin|done].
  - rewrite IH. destruct (decide (k' = k)) as [->|Hne].
    + rewrite lookup_delete_eq. repeat case_decide; rewrite ?elem_of_cons in *; naive_solver.
    + rewrite lookup_delete_ne by done. repeat case_decide; rewrite ?elem_of_cons in *; naive_solver.
Qed.

Definition expired_in (now : time.Time) (l : list (string * entry)) : list (string * entry) :=
  List.filter (λ kv, negb (live now kv.2)) l.

Lemma RemoveExpired_unfold j now :
  RemoveExpired j now =
  (mkJournal (maxEntries j)
     (foldl (λ m k, delete k m) (byOperation j) (fst <$> expired_in now (range 7 (byOperation j))))
     (foldl (λ m k, delete k m) (byJTI j) ((λ kv, e_jti kv.2) <$> expired_in now (range 7 (byOperation j)))),
   length (expired_in now (range 7 (byOperation j)))).
Proof.
  unfold RemoveExpired. generalize (range 7 (byOperation j)). intros l.
  rewrite <-(Nat.add_0_l (length (expired_in now l))). generalize 0%nat. revert j.
  induction l as [|[k e] l IH]; intros [mx ops jtis] n; simpl; [by rewrite Nat.add_0_r|].
  unfold live. destruct (time.Before now (e_retainUntil e)); simpl.
  - by rewrite IH.
  - rewrite IH. simpl. by rewrite Nat.add_succ_r.
Qed.

Lemma elem_of_expired j now k e :
  (k, e) ∈ expired_in now (range 7 (byOperation j)) ↔ byOperation j !! k = Some e ∧ live now e = false.
Proof.
  unfold expired_in. rewrite list_elem_of_In, filter_In, <-list_elem_of_In, elem_of_range. simpl.
  by rewrite negb_true_iff.
Qed.

Lemma RemoveExpired_operation j now k :
  byOperation (RemoveExpired j now).1 !! k = (e ← byOperation j !! k; if live now e then Some e else None).
Proof.
  rewrite RemoveExpired_unfold. simpl. rewrite foldl_delete_lookup. case_decide as Hin.
  - apply list_elem_of_fmap in Hin as ([k' e] & -> & Hin). apply elem_of_expired in Hin as [Hk Hl].
    simpl. rewrite Hk. simpl. by rewrite Hl.
  - destruct (byOperation j !! k) as [e|] eqn:E; simpl; [|done].
    destruct (live now e) eqn:El; [done|]. destruct Hin.
    apply list_elem_of_fmap. exists (k, e). split; [done|]. by apply elem_of_expired.
Qed.

Lemma RemoveExpired_jti j now k :
  journal_ok j →
  byJTI (RemoveExpired j now).1 !! k = (e ← byJTI j !! k; if live now e then Some e else None).
Proof.
  intros Hj. rewrite RemoveExpired_unfold. simpl. rewrite foldl_delete_lookup. case_decide as Hin.
  - apply list_elem_of_fmap in Hin as ([k' e] & -> & Hin). apply elem_of_expired in Hin as [Hk Hl].
    simpl. destruct (jo_operation _ Hj _ _ Hk) as [_ Hjti]. rewrite Hjti. simpl. by rewrite Hl.
  - destruct (byJTI j !! k) as [e|] eqn:E; simpl; [|done].
    destruct (live now e) eqn:El; [done|]. destruct Hin.
    destruct (jo_jti _ Hj _ _ E) as [Hk Ho].
    apply list_elem_of_fmap. exists (e_operationID e, e). split; [done|]. by apply elem_of_expired.
Qed.

Lemma RemoveExpired_ok j now : journal_ok j → journal_ok (RemoveExpired j now).1.
Proof.
  intros Hj. pose proof Hj as [Hop Hjti Hv Hs].
  assert (Hlive : ∀ m (k : string) e, (e ← m !! k; if live now e then Some e else None) = Some e ↔
            (m : gmap string entry) !! k = Some e ∧ live now e = true).
  { intros m k e. destruct (m !! k) as [e'|]; simpl; [|by split; [|intros [? _]]].
    destruct (live now e') eqn:E; split; [by intros [= <-]|by intros [? _]|done|intros [[= <-] ?]; congruence]. }
  split.
  - intros k e. rewrite RemoveExpired_operation, Hlive. intros [Hk Hl]. destruct (Hop _ _ Hk) as [? Hj'].
    split; [done|]. rewrite RemoveExpired_jti by done. by apply Hlive.
  - intros k e. rewrite RemoveExpired_jti by done. rewrite Hlive. intros [Hk Hl]. destruct (Hjti _ _ Hk) as [? Ho].
    split; [done|]. rewrite RemoveExpired_operation. by apply Hlive.
  - intros k e. rewrite RemoveExpired_operation, Hlive. intros [Hk _]. eauto.
  - assert (Hsub : byOperation (RemoveExpired j now).1 ⊆ byOperation j).
    { apply map_subseteq_spec. intros k e. rewrite RemoveExpired_operation, Hlive. by intros [? _]. }
    apply map_subseteq_size in Hsub. rewrite RemoveExpired_unfold in Hsub |- *. simpl in *. lia.
Qed.

(** ** Restoring *)

Lemma restore_record_ok j r j' : journal_ok j → restore_record j r = inr j' → journal_ok j' ∧ maxEntries j' = maxEntries j.
Proof.
  intros Hj. unfold restore_record.
  match goal with |- (if ?b then _ else _) = _ → _ => destruct b eqn:E1; [done|] end.
  destruct (hex.DecodeString (rc_RequestHash r)) as [raw|]; [|done].
  destruct (Nat.eqb_spec (String.length raw) 32) as [Hlen|]; cbn [negb]; [|done].
  match goal with |- (if ?b then _ else _) = _ → _ => destruct b eqn:E2; [done|] end.
  intros [= <-]. split; [|done].
  apply orb_false_iff in E2 as [E2 Hsize]. apply orb_false_iff in E2 as [Ho Hjti].
  apply bool_decide_eq_false in Ho, Hjti. apply Z.leb_gt in Hsize. to_prop.
  apply insert_entry_ok; simpl; [done|split_and!; done|by apply eq_None_not_Some..|done].
Qed.

Lemma restore_loop_ok records : ∀ j j',
  journal_ok j → restore_loop j records = inr j' → journal_ok j' ∧ maxEntries j' = maxEntries j.
Proof.
  induction records as [|r records IH]; intros j j' Hj; simpl; [by intros [= <-]|].
  destruct (restore_record j r) as [|j1] eqn:E; [done|]. intros Hr.
  destruct (restore_record_ok _ _ _ Hj E) as [Hj1 Hm]. destruct (IH _ _ Hj1 Hr) as [? Hm']. split; [done|congruence].
Qed.

Lemma new_journal_ok max j : NewJournal max = inr j → journal_ok j ∧ maxEntries j = max.
Proof.
  unfold NewJournal. destruct (Z.ltb_spec max 1); [done|]. intros [= <-]. split; [|done].
  split; simpl; [intros k e Hk; by rewrite lookup_empty in Hk..|]. rewrite map_size_empty. lia.
Qed.

(** The journal stays consistent and bounded: a new or restored journal, and a journal after any
    Consume or RemoveExpired, holds the same entries in both maps, each under its own operation ID and
    JTI, and never more than its limit. *)
Theorem journal_invariant :
  (∀ max j, NewJournal max = inr j → journal_ok j) ∧
  (∀ records max j, Restore records max = inr j → journal_ok j ∧ (Z.of_nat (Len j) ≤ max)%Z) ∧
  (∀ j now r, journal_ok j → journal_ok (Consume j now r).1) ∧
  (∀ j now, journal_ok j → journal_ok (RemoveExpired j now).1).
Proof.
  split_and!.
  - intros max j Hn. by apply new_journal_ok in Hn as [? _].
  - intros records max j. unfold Restore. destruct (NewJournal max) as [|j0] eqn:E; [done|]. intros Hr.
    apply new_journal_ok in E as [Hj0 Hm]. apply restore_loop_ok in Hr as [Hj Hm']; [|done].
    split; [done|]. rewrite <-Hm, <-Hm'. apply Hj.
  - intros. by apply Consume_ok.
  - intros. by apply RemoveExpired_ok.
Qed.

(** ** Single use *)

(** The operations that change a journal. *)
Inductive op := OConsume (now : time.Time) (r : Request) | ORemoveExpired (now : time.Time).

Definition step (j : Journal) (o : op) : Journal :=
  match o with OConsume now r => (Consume j now r).1 | ORemoveExpired now => (RemoveExpired j now).1 end.

Definition run (j : Journal) (ops : list op) : Journal := foldl step j ops.

Lemma step_ok j o : journal_ok j → journal_ok (step j o).
Proof. destruct o; [apply Consume_ok|apply RemoveExpired_ok]. Qed.

Lemma run_ok j ops : journal_ok j → journal_ok (run j ops).
Proof. unfold run. revert j; induction ops as [|o ops IH]; intros j Hj; simpl; [done|]. by apply IH, step_ok. Qed.

(** No cleanup of the sequence runs at or after the time. *)
Definition before_expiry (until : time.Time) (o : op) : Prop :=
  match o with OConsume _ _ => True | ORemoveExpired now => (now < until)%Z end.

Lemma step_keeps j o e :
  journal_ok j → byOperation j !! e_operationID e = Some e → before_expiry (e_retainUntil e) o →
  byOperation (step j o) !! e_operationID e = Some e.
Proof.
  intros Hj He Ho. destruct o as [now r|now]; simpl in *.
  - unfold Consume. repeat (case_match; simpl; try done). rewrite lookup_insert_ne; [done|congruence].
  - rewrite RemoveExpired_operation, He. simpl. unfold live, time.Before.
    by rewrite (proj2 (Z.ltb_lt _ _) Ho).
Qed.

Lemma run_keeps j ops e :
  journal_ok j → byOperation j !! e_operationID e = Some e → Forall (before_expiry (e_retainUntil e)) ops →
  byOperation (run j ops) !! e_operationID e = Some e.
Proof.
  unfold run. revert j; induction ops as [|o ops IH]; intros j Hj He Hall; simpl; [done|].
  apply Forall_cons in Hall as [Ho Hall]. apply IH; [by apply step_ok|by apply step_keeps|done].
Qed.

(** What Consume answers when an entry with the operation ID or the JTI of the request exists. *)
Lemma Consume_existing j now r e :
  journal_ok j → byOperation j !! e_operationID e = Some e →
  rq_OperationID r = e_operationID e ∨ rq_JTI r = e_jti e →
  Consume j now r =
  (j, if request_invalid now r then inl ErrInvalid else duplicate e r (Sum256 (rq_Canonical r))).
Proof.
  intros Hj He Hor. unfold Consume. destruct (request_invalid now r); [done|].
  destruct (jo_operation _ Hj _ _ He) as [_ Hjti].
  destruct (byOperation j !! rq_OperationID r) as [e'|] eqn:Eo.
  - destruct (decide (e' = e)) as [->|Hne]; [done|].
    destruct (jo_operation _ Hj _ _ Eo) as [Ho' Hjti'].
    assert (rq_OperationID r ≠ e_operationID e) by (intros Heq; rewrite Heq in Eo; congruence).
    destruct Hor as [?|Hj2]; [done|].
    assert (e_jti e' ≠ rq_JTI r) by (intros Heq; rewrite Heq, Hj2 in Hjti'; congruence).
    unfold duplicate. rewrite (proj2 (String.eqb_neq (e_jti e') _)) by done.
    rewrite (proj2 (String.eqb_neq (e_operationID e) _)) by done. by rewrite orb_true_r.
  - destruct Hor as [Heq|Heq]; [rewrite Heq in Eo; congruence|]. by rewrite Heq, Hjti.
Qed.

Lemma Consume_fresh j now r j' d :
  Consume j now r = (j', inr (mkOutcome d false)) →
  d = rq_Decision r ∧
  byOperation j' !! rq_OperationID r =
    Some (mkEntry (rq_OperationID r) (rq_JTI r) (Sum256 (rq_Canonical r)) (rq_Decision r) (rq_RetainUntil r)).
Proof.
  unfold Consume, duplicate. repeat (case_match; simpl; try done). intros [= <- <-]. simpl.
  by rewrite lookup_insert_eq.
Qed.

(** C6: a credential is used once: after a request was accepted as new, and whatever happens to the
    journal before the time it asked to be retained until, a request with its JTI or its operation ID
    changes nothing; it is answered with the first decision, marked as a duplicate, when operation ID, JTI
    and the hash of the canonical request are all the same, and refused as a replay otherwise. *)
Theorem journal_single_use (j j1 : Journal) (now : time.Time) (r1 : Request) (d : string) (ops : list op)
    (Hj : journal_ok j) (Hfirst : Consume j now r1 = (j1, inr (mkOutcome d false)))
    (Hops : Forall (before_expiry (rq_RetainUntil r1)) ops) :
  let j2 := run j1 ops in
  ∀ now2 r2, rq_OperationID r2 = rq_OperationID r1 ∨ rq_JTI r2 = rq_JTI r1 →
    Consume j2 now2 r2 =
    (j2, if request_invalid now2 r2 then inl ErrInvalid
         else if String.eqb (rq_OperationID r1) (rq_OperationID r2) && String.eqb (rq_JTI r1) (rq_JTI r2)
                 && String.eqb (Sum256 (rq_Canonical r1)) (Sum256 (rq_Canonical r2))
         then inr (mkOutcome (rq_Decision r1) true)
         else inl ErrReplay).
Proof.
  intros j2 now2 r2 Hor. destruct (Consume_fresh _ _ _ _ _ Hfirst) as [_ He].
  assert (Hj1 : journal_ok j1) by (pose proof (Consume_ok j now r1 Hj) as Hj1; by rewrite Hfirst in Hj1).
  set (e := mkEntry (rq_OperationID r1) (rq_JTI r1) (Sum256 (rq_Canonical r1)) (rq_Decision r1) (rq_RetainUntil r1)) in *.
  pose proof (run_keeps j1 ops e Hj1 He Hops) as Hkept.
  rewrite (Consume_existing j2 now2 r2 e); [|by apply run_ok|done|done].
  unfold duplicate. simpl. destruct (request_invalid now2 r2); [done|].
  destruct (String.eqb (rq_OperationID r1) (rq_OperationID r2)), (String.eqb (rq_JTI r1) (rq_JTI r2)),
    (String.eqb (Sum256 (rq_Canonical r1)) (Sum256 (rq_Canonical r2))); done.
Qed.

(** ** Snapshot and restore *)

Lemma restore_record_entry j e :
  valid_entry e → time.After (e_retainUntil e) (time.Unix 0 0) = true →
  byOperation j !! e_operationID e = None → byJTI j !! e_jti e = None →
  (Z.of_nat (size (byOperation j)) < maxEntries j)%Z →
  restore_record j (record_of e) = inr (insert_entry j e).
Proof.
  intros (Ho & Hj & Hd & Hl) Ht Hno Hnj Hs. unfold restore_record, record_of. simpl.
  rewrite (proj2 (String.eqb_neq _ _) Ho), (proj2 (String.eqb_neq _ _) Hj), Hd. simpl.
  rewrite Ht; simpl. rewrite hex.Decode_Encode, Hl, Hno, Hnj. simpl.
  rewrite (proj2 (Z.leb_gt _ _) Hs). by destruct e.
Qed.

Lemma restore_loop_entries es : ∀ j,
  Forall (λ e, valid_entry e ∧ time.After (e_retainUntil e) (time.Unix 0 0) = true) es →
  NoDup (e_operationID <$> es) → NoDup (e_jti <$> es) →
  (∀ e, e ∈ es → byOperation j !! e_operationID e = None ∧ byJTI j !! e_jti e = None) →
  (Z.of_nat (size (byOperation j) + length es) ≤ maxEntries j)%Z →
  restore_loop j (record_of <$> es) = inr (foldl insert_entry j es).
Proof.
  induction es as [|e es IH]; intros j Hv Hno Hnj Hfresh Hs; simpl; [done|].
  apply Forall_cons in Hv as [[Hv Ht] Hall]. apply NoDup_cons in Hno as [Hno' Hno], Hnj as [Hnj' Hnj].
  destruct (Hfresh e) as [Hfo Hfj]; [left|]. simpl in Hs.
  rewrite restore_record_entry by (done || lia). apply IH; [done..| |].
  - intros e' He'. destruct (Hfresh e') as [Ho Hj]; [by right|]. simpl.
    rewrite !lookup_insert_ne; [done| |]; intros Heq; [apply Hnj'|apply Hno']; rewrite Heq; by apply list_elem_of_fmap_2.
  - simpl. rewrite map_size_insert_None by done. lia.
Qed.

Lemma foldl_insert_entry j es :
  foldl insert_entry j es =
  mkJournal (maxEntries j) (index_by e_operationID (byOperation j) es) (index_by e_jti (byJTI j) es).
Proof. revert j; induction es as [|e es IH]; intros [mx ops jtis]; simpl; [done|]. by rewrite IH. Qed.

Lemma elem_of_entries j (e : entry) : journal_ok j → e ∈ (map_to_list (byOperation j)).*2 ↔ byOperation j !! e_operationID e = Some e.
Proof.
  intros Hj. rewrite list_elem_of_fmap. split.
  - intros ([k e'] & -> & Hin). apply elem_of_map_to_list in Hin. destruct (jo_operation _ Hj _ _ Hin) as [Hk _].
    simpl. by rewrite Hk.
  - intros He. exists (e_operationID e, e). split; [done|]. by apply elem_of_map_to_list.
Qed.

(** Mapping the entries of a consistent journal to a key that determines them. *)
Lemma entries_NoDup j {B} (f : entry → B) :
  journal_ok j →
  (∀ e e', byOperation j !! e_operationID e = Some e → byOperation j !! e_operationID e' = Some e' → f e = f e' → e = e') →
  NoDup (f <$> (map_to_list (byOperation j)).*2).
Proof.
  intros Hj Hinj.
  assert (Hnd : NoDup (map_to_list (byOperation j)).*2).
  { apply (NoDup_fmap_1 e_operationID).
    assert (Heq : e_operationID <$> (map_to_list (byOperation j)).*2 = (map_to_list (byOperation j)).*1).
    { rewrite <-list_fmap_compose. apply list_fmap_ext. intros i [k e] Hi. simpl.
      apply list_elem_of_lookup_2, elem_of_map_to_list in Hi. by apply (jo_operation _ Hj). }
    rewrite Heq. apply NoDup_fst_map_to_list. }
  apply NoDup_fmap_2_strong; [|done].
  intros e e' He He' Hf. rewrite elem_of_entries in He, He' by done. by apply Hinj.
Qed.

(** A snapshot restores the journal: for a consistent journal whose entries are retained past the Unix
    epoch, Restore of Snapshot gives back the same journal, whatever order the maps are visited in. *)
Theorem snapshot_roundtrip (j : Journal) (Hj : journal_ok j) (Hmax : (1 ≤ maxEntries j)%Z)
    (Hretain : ∀ k e, byOperation j !! k = Some e → (0 < e_retainUntil e)%Z) :
  Restore (Snapshot j) (maxEntries j) = inr j.
Proof.
  unfold Restore, NewJournal. rewrite (proj2 (Z.ltb_ge _ _) Hmax).
  assert (Hperm : Snapshot j ≡ₚ record_of <$> (map_to_list (byOperation j)).*2).
  { unfold Snapshot. rewrite sort_by_perm, range_perm, <-list_fmap_compose. done. }
  apply Permutation_map_inv in Hperm as (es & -> & Hes).
  assert (Hin : ∀ e, e ∈ es ↔ byOperation j !! e_operationID e = Some e)
    by (intros e; rewrite <-Hes; by apply elem_of_entries).
  assert (Hops : NoDup (e_operationID <$> es)).
  { rewrite <-Hes. apply entries_NoDup; [done|]. intros e e' He He' Heq. rewrite Heq in He. congruence. }
  assert (Hjtis : NoDup (e_jti <$> es)).
  { rewrite <-Hes. apply entries_NoDup; [done|]. intros e e' He He' Heq.
    apply (jo_operation _ Hj) in He as [_ He], He' as [_ He']. rewrite Heq in He. congruence. }
  change (map record_of es) with (record_of <$> es).
  rewrite restore_loop_entries; [|apply Forall_forall|done|done|done|].
  - f_equal. rewrite foldl_insert_entry. simpl. destruct j as [mx ops jtis]. f_equal; apply map_eq; intros k;
      apply option_eq; intros e; rewrite index_by_unique by done; rewrite Hin; simpl.
    + split; [intros [? <-]; done|]. intros Hk. destruct (jo_operation _ Hj _ _ Hk) as [He _]. simpl in He. by rewrite He.
    + split; [|intros Hk; by destruct (jo_jti _ Hj _ _ Hk) as [He Ho]].
      intros [Hk <-]. by destruct (jo_operation _ Hj _ _ Hk).
  - intros e He. apply Hin in He. split; [by eapply (jo_valid _ Hj)|].
    apply Z.ltb_lt. change (time.Unix 0 0) with 0%Z. by eapply Hretain.
  - simpl. rewrite map_size_empty. pose proof (jo_size _ Hj) as Hs.
    assert (length es = size (byOperation j)) as ->; [|lia].
    rewrite <-Hes, length_fmap. apply length_map_to_list.
Qed.

End journal.

(** ** A concrete journal *)

Definition sample_request : Request := mkRequest "op-1" "jti-1" "canonical request" "admit" 1000.
Definition stolen_request : Request := mkRequest "op-2" "jti-1" "another request" "admit" 9000.

Definition sample_journal : Journal := (Consume (H0 := eval_sha256) (mkJournal 2 ∅ ∅) 10 sample_request).1.

Lemma empty_journal_ok max : (0 ≤ max)%Z → journal_ok (mkJournal max ∅ ∅).
Proof. intros. split; simpl; [intros k e Hk; by rewrite lookup_empty in Hk..|]. rewrite map_size_empty. lia. Qed.

Lemma journal_single_use_witness :
  let j2 := run (H := eval_runtime) (H0 := eval_sha256) sample_journal [ORemoveExpired 500] in
  Consume (H0 := eval_sha256) j2 600 stolen_request = (j2, inl ErrReplay) ∧
  Consume (H0 := eval_sha256) j2 600 sample_request = (j2, inr (mkOutcome "admit" true)).
Proof.
  intros j2. split.
  - refine (journal_single_use (H := eval_runtime) (H0 := eval_sha256) (mkJournal 2 ∅ ∅) sample_journal 10
      sample_request "admit" [ORemoveExpired 500] _ _ _ 600%Z stolen_request _);
      [apply empty_journal_ok; lia|vm_compute; reflexivity|repeat constructor; simpl; lia|right; reflexivity].
  - refine (journal_single_use (H := eval_runtime) (H0 := eval_sha256) (mkJournal 2 ∅ ∅) sample_journal 10
      sample_request "admit" [ORemoveExpired 500] _ _ _ 600%Z sample_request _);
      [apply empty_journal_ok; lia|vm_compute; reflexivity|repeat constructor; simpl; lia|left; reflexivity].
Defined.

Lemma snapshot_roundtrip_witness :
  length (Snapshot (H := eval_runtime) sample_journal) = 1%nat ∧
  Restore (Snapshot (H := eval_runtime) sample_journal) 2 = inr sample_journal.
Proof.
  split; [vm_compute; reflexivity|].
  apply (snapshot_roundtrip (H := eval_runtime) sample_journal).
  - apply (Consume_ok (H0 := eval_sha256)), empty_journal_ok. lia.
  - vm_compute. discriminate.
  - intros k e He. unfold sample_journal in He. vm_compute in He.
    apply (map_Forall_lookup_1 (λ _ e, (0 < e_retainUntil e)%Z) (byOperation sample_journal) k e); [|exact He].
    apply (bool_decide_eq_true_1 _). vm_compute. reflexivity.
Defined.
