(* ===== verification/Node.v ===== *)
(** * The edge node: tunnel/internal/node (state.go and manager.go)

    The phase of a node, the connectors it owns and their streams, and draining.  Each method
    runs under its lock and is one step; Drain waits between steps and is a process of its own.  A
    channel that is only ever closed is a flag; closing it twice panics. *)
From S2P Require Import Prelude GoStd GoData.

(** ** The state of a node *)

Inductive Phase := Starting | Ready | Draining | Stopped.

#[export] Instance Phase_eq_dec : EqDecision Phase.
Proof. solve_decision. Defined.

Record Snapshot := mkSnapshot {
  s_NodeID : string;
  s_Phase : Phase;
  s_Live : bool;
  s_Ready : bool;
  s_DrainDeadline : time.Time;
}.

Record State := mkState { snapshot : Snapshot; readied : bool }.

Definition New (nodeID : string) : State := mkState (mkSnapshot nodeID Starting true false time.zero) false.

(** close of the channel [readied]; [None] is the panic of closing it again. *)
Definition close_readied (s : Snapshot) (closed : bool) : option State :=
  if closed then None else Some (mkState s true).

(** State.MarkReady; the outer [None] is a panic. *)
Definition MarkReady (s : State) : option (State * bool) :=
  let p := snapshot s in
  if decide (s_Phase p ≠ Starting) then Some (s, false)
  else s' ← close_readied (mkSnapshot (s_NodeID p) Ready (s_Live p) true (s_DrainDeadline p)) (readied s);
       Some (s', true).

Definition BeginDrain (s : State) (deadline : time.Time) : State * bool :=
  let p := snapshot s in
  if decide (s_Phase p = Draining ∨ s_Phase p = Stopped) then (s, false)
  else (mkState (mkSnapshot (s_NodeID p) Draining (s_Live p) false deadline) (readied s), true).

Definition SetControlAvailable (s : State) (available : bool) : State * bool :=
  let p := snapshot s in
  if decide (s_Phase p ≠ Ready) then (s, false)
  else (mkState (mkSnapshot (s_NodeID p) (s_Phase p) (s_Live p) available (s_DrainDeadline p)) (readied s), true).

Definition MarkStopped (s : State) : State :=
  let p := snapshot s in
  mkState (mkSnapshot (s_NodeID p) Stopped false false (s_DrainDeadline p)) (readied s).

(** ** Connectors *)

Inductive NodeError := ErrNotReady | ErrCapacity | ErrUnknown | ErrDraining.

Record connector := mkConnector {
  generation : Z;
  streams : Z;
  retired : gmap Z Z;
}.

Record Manager := mkManager {
  m_state : State;
  capacity : Z;
  connectors : gmap string connector;
  wake : nat;  (** the number of channels closed so far; the current one is open *)
}.

(** A method returns the manager and nil or an error. *)
Abbreviation result := (Manager * option NodeError)%type.

Definition NewManager (state : option State) (cap : Z) : NodeError + Manager :=
  match state with
  | None => inl ErrCapacity
  | Some s => if (cap =? 0)%Z then inl ErrCapacity else inr (mkManager s cap ∅ 0)
  end.

Definition phase (m : Manager) : Phase := s_Phase (snapshot (m_state m)).

Definition set_connectors (m : Manager) (cs : gmap string connector) : Manager :=
  mkManager (m_state m) (capacity m) cs (wake m).

(** Manager.signalLocked *)
Definition signalLocked (m : Manager) : Manager :=
  mkManager (m_state m) (capacity m) (connectors m) (S (wake m)).

Definition AdmitConnector (m : Manager) (id : string) (gen : Z) : result :=
  if String.eqb id "" || (gen =? 0)%Z then (m, Some ErrUnknown)
  else if decide (phase m ≠ Ready) then (m, Some ErrNotReady)
  else match connectors m !! id with
       | Some _ => (m, None)
       | None =>
           if (capacity m <=? UInt32.wrap (Z.of_nat (size (connectors m))))%Z then (m, Some ErrCapacity)
           else (set_connectors m (<[id := mkConnector gen 0 ∅]> (connectors m)), None)
       end.

(** The connector under a new generation: open streams move to [retired]. *)
Definition retire (c : connector) (gen : Z) : connector :=
  mkConnector gen 0
    (if (streams c =? 0)%Z then retired c
     else <[generation c := UInt32.wrap (default 0 (retired c !! generation c) + streams c)%Z]> (retired c)).

Definition ReplaceConnector (m : Manager) (id : string) (gen : Z) : result :=
  if String.eqb id "" || (gen =? 0)%Z then (m, Some ErrUnknown)
  else if decide (phase m ≠ Ready) then (m, Some ErrNotReady)
  else match connectors m !! id with
       | None => (m, Some ErrUnknown)
       | Some current =>
           if (gen <=? generation current)%Z then (m, Some ErrUnknown)
           else (set_connectors m (<[id := retire current gen]> (connectors m)), None)
       end.

Definition RemoveConnector (m : Manager) (id : string) : result :=
  match connectors m !! id with
  | None => (m, Some ErrUnknown)
  | Some current =>
      if negb (streams current =? 0)%Z || negb (size (retired current) =? 0)%nat then (m, Some ErrDraining)
      else (signalLocked (set_connectors m (delete id (connectors m))), None)
  end.

Definition OpenStream (m : Manager) (id : string) (gen : Z) : result :=
  if decide (phase m ≠ Ready) then (m, Some ErrDraining)
  else match connectors m !! id with
       | None => (m, Some ErrUnknown)
       | Some current =>
           if negb (generation current =? gen)%Z then (m, Some ErrUnknown)
           else if (streams current =? UInt32.max_value)%Z then (m, Some ErrCapacity)
           else (set_connectors m
                   (<[id := mkConnector (generation current) (streams current + 1) (retired current)]> (connectors m)), None)
       end.

(** The connector after one of its streams is closed; [None] when there is none. *)
Definition close_one (c : connector) (gen : Z) : option connector :=
  let r := default 0%Z (retired c !! gen) in
  if (generation c =? gen)%Z && (0 <? streams c)%Z then Some (mkConnector (generation c) (streams c - 1) (retired c))
  else if (0 <? r)%Z then
    Some (mkConnector (generation c) (streams c)
            (if (r - 1 =? 0)%Z then delete gen (<[gen := (r - 1)%Z]> (retired c)) else <[gen := (r - 1)%Z]> (retired c)))
  else None.

Definition CloseStream (m : Manager) (id : string) (gen : Z) : result :=
  match connectors m !! id with
  | None => (m, Some ErrUnknown)
  | Some current =>
      match close_one current gen with
      | None => (m, Some ErrUnknown)
      | Some c => (signalLocked (set_connectors m (<[id := c]> (connectors m))), None)
      end
  end.

Definition saturatingAddUint32 (current value : Z) : Z :=
  if (UInt32.max_value - current <? value)%Z then UInt32.max_value else (current + value)%Z.

Record ConnectorSnapshot := mkConnectorSnapshot { cs_ID : string; cs_Generation : Z; cs_Streams : Z }.

Record ManagerSnapshot := mkManagerSnapshot {
  ms_Connectors : list ConnectorSnapshot;
  ms_Streams : Z;
  ms_Capacity : Z;
  ms_Draining : bool;
}.

Section node.
Context `{GoRuntime}.

(** Manager.totalStreamsLocked; range sites 9 and 10. *)
Definition totalStreamsLocked (m : Manager) : Z :=
  foldl (λ total kc,
    foldl (λ total gs, saturatingAddUint32 total gs.2) (saturatingAddUint32 total (streams kc.2))
      (range 10 (retired kc.2)))
    0%Z (range 9 (connectors m)).

(** Manager.Snapshot; range sites 11 and 12. *)
Definition Manager_Snapshot (m : Manager) : ManagerSnapshot :=
  let '(cs, total) :=
    foldl (λ acc kc,
      let '(cs, total) := acc in
      foldl (λ acc gs, (acc.1 ++ [mkConnectorSnapshot kc.1 gs.1 gs.2], saturatingAddUint32 acc.2 gs.2))
        (cs ++ [mkConnectorSnapshot kc.1 (generation kc.2) (streams kc.2)], saturatingAddUint32 total (streams kc.2))
        (range 12 (retired kc.2)))
      ([], 0%Z) (range 11 (connectors m)) in
  mkManagerSnapshot cs total (capacity m) (bool_decide (phase m = Draining)).

(** control.NodeObservation, as Observation fills it. *)
Record NodeObservation := mkNodeObservation {
  no_NodeID : string; no_ProcessEpoch : string; no_Ready : bool; no_Draining : bool;
  no_ActiveStreams : Z; no_At : time.Time;
}.

Definition Observation (m : Manager) (nodeID processEpoch : string) (at_ : time.Time) : NodeObservation :=
  mkNodeObservation nodeID processEpoch (bool_decide (phase m = Ready)) (bool_decide (phase m = Draining))
    (ms_Streams (Manager_Snapshot m)) at_.

(** ** Drain

    Where a call of Drain is: before its first step, at the top of the loop, in the select with the wake
    channel it read, or returned. *)
Inductive drain_pc := DrainCalled (deadline : time.Time) | DrainCheck | DrainWait (ch : nat) | DrainDone (forced : bool).

(** Both the expired timer and the cancelled context drop every connector. *)
Definition force (m : Manager) : Manager := signalLocked (set_connectors m ∅).

Inductive drain_step : Manager → drain_pc → Manager → drain_pc → Prop :=
  | step_begin m deadline :
      drain_step m (DrainCalled deadline)
        (mkManager (BeginDrain (m_state m) deadline).1 (capacity m) (connectors m) (wake m)) DrainCheck
  | step_empty m : totalStreamsLocked m = 0%Z → drain_step m DrainCheck m (DrainDone false)
  | step_wait m : totalStreamsLocked m ≠ 0%Z → drain_step m DrainCheck m (DrainWait (wake m))
  | step_wake m ch : (ch < wake m)%nat → drain_step m (DrainWait ch) m DrainCheck
  | step_force m ch : drain_step m (DrainWait ch) (force m) (DrainDone true).

(** ** Operations and the invariant *)

Inductive op :=
  | NMarkReady | NBeginDrain (deadline : time.Time) | NSetControlAvailable (available : bool) | NMarkStopped
  | NAdmit (id : string) (gen : Z) | NReplace (id : string) (gen : Z) | NRemove (id : string)
  | NOpen (id : string) (gen : Z) | NClose (id : string) (gen : Z).

Definition set_state (m : Manager) (s : State) : Manager := mkManager s (capacity m) (connectors m) (wake m).

(** One call; [None] is a panic. *)
Definition op_step (m : Manager) (o : op) : option Manager :=
  match o with
  | NMarkReady => r ← MarkReady (m_state m); Some (set_state m r.1)
  | NBeginDrain deadline => Some (set_state m (BeginDrain (m_state m) deadline).1)
  | NSetControlAvailable b => Some (set_state m (SetControlAvailable (m_state m) b).1)
  | NMarkStopped => Some (set_state m (MarkStopped (m_state m)))
  | NAdmit id gen => Some (AdmitConnector m id gen).1
  | NReplace id gen => Some (ReplaceConnector m id gen).1
  | NRemove id => Some (RemoveConnector m id).1
  | NOpen id gen => Some (OpenStream m id gen).1
  | NClose id gen => Some (CloseStream m id gen).1
  end.

(** Generations are unsigned. *)
Definition op_ok (o : op) : Prop :=
  match o with NAdmit _ gen | NReplace _ gen | NOpen _ gen | NClose _ gen => (0 ≤ gen)%Z | _ => True end.

Record state_ok (s : State) : Prop := {
  so_ready : s_Ready (snapshot s) = true → s_Phase (snapshot s) = Ready;
  so_live : s_Live (snapshot s) = true ↔ s_Phase (snapshot s) ≠ Stopped;
  so_readied : s_Phase (snapshot s) = Starting → readied s = false;
}.

Record connector_ok (c : connector) : Prop := {
  cn_generation : (0 < generation c)%Z;
  cn_streams : UInt32.in_range (streams c);
  cn_retired : ∀ g n, retired c !! g = Some n → (0 < g < generation c)%Z ∧ (0 < n ≤ UInt32.max_value)%Z;
}.

Record manager_ok (m : Manager) : Prop := {
  mo_state : state_ok (m_state m);
  mo_connectors : ∀ id c, connectors m !! id = Some c → id ≠ "" ∧ connector_ok c;
  mo_size : (Z.of_nat (size (connectors m)) ≤ capacity m)%Z;
  mo_capacity : (capacity m ≤ UInt32.max_value)%Z;
}.

Definition rank (p : Phase) : nat := match p with Starting => 0 | Ready => 1 | Draining => 2 | Stopped => 3 end.

Lemma MarkReady_ok s : state_ok s → ∃ r, MarkReady s = Some r ∧ state_ok r.1 ∧
  (rank (s_Phase (snapshot s)) ≤ rank (s_Phase (snapshot r.1)))%nat.
Proof.
  intros [Hr Hl Hc]. unfold MarkReady. case_decide as Hp; [eexists; split; [done|]; by split|].
 unfold close_readied. rewrite Hc by done. simpl. eexists. split; [done|].
  split; [|simpl; rewrite Hp; simpl; lia]. split; simpl; [done| |done]. rewrite Hl, Hp. split; done.
Qed.

Lemma BeginDrain_ok s d : state_ok s → state_ok (BeginDrain s d).1 ∧
  (rank (s_Phase (snapshot s)) ≤ rank (s_Phase (snapshot (BeginDrain s d).1)))%nat.
Proof.
  intros [Hr Hl Hc]. unfold BeginDrain. case_decide as Hp; [by split|]. simpl.
  assert (rank (s_Phase (snapshot s)) ≤ 2)%nat by (destruct (s_Phase (snapshot s)); simpl; naive_solver lia).
  split; [|done]. split; simpl; [done| |done]. rewrite Hl. split; [done|]. naive_solver.
Qed.

Lemma SetControlAvailable_ok s b : state_ok s → state_ok (SetControlAvailable s b).1 ∧
  s_Phase (snapshot (SetControlAvailable s b).1) = s_Phase (snapshot s).
Proof.
  intros [Hr Hl Hc]. unfold SetControlAvailable. case_decide as Hp; [by split|].
  simpl. split; [|done]. by split.
Qed.

Lemma MarkStopped_ok s : state_ok s → state_ok (MarkStopped s).
Proof. intros [Hr Hl Hc]. by split. Qed.

Lemma set_state_ok m s : manager_ok m → state_ok s → manager_ok (set_state m s).
Proof. intros [? ? ? ?] Hs. by split. Qed.

Lemma size_insert_same {A} (m : gmap string A) k a b : m !! k = Some a → size (<[k := b]> m) = size m.
Proof. intros Hk. apply map_size_insert_Some. by exists a. Qed.

(** Replacing the connector of an ID by a good one. *)
Lemma update_connector_ok m id c c' :
  manager_ok m → connectors m !! id = Some c → connector_ok c' →
  manager_ok (set_connectors m (<[id := c']> (connectors m))).
Proof.
  intros [Hs Hc Hn Hcap] Hid Hok. split; simpl; [done| |by rewrite (size_insert_same _ _ _ _ Hid)|done].
  intros id' c2. rewrite lookup_insert_Some. intros [[<- <-]|[_ ?]]; [|eauto].
  split; [by apply (Hc id c)|done].
Qed.

Lemma signalLocked_ok m : manager_ok m → manager_ok (signalLocked m).
Proof. intros [? ? ? ?]. by split. Qed.

Lemma retire_ok c gen : connector_ok c → (generation c < gen)%Z → connector_ok (retire c gen).
Proof.
  intros [Hg [Hs0 Hs1] Hr] Hlt. unfold retire. split; simpl; [lia|done|].
  intros g n. destruct (Z.eqb_spec (streams c) 0) as [|Hne]; [intros Hgn; destruct (Hr g n Hgn); lia|].
  rewrite lookup_insert_Some. intros [[<- <-]|[_ Hgn]]; [|destruct (Hr g n Hgn); lia].
  destruct (retired c !! generation c) as [n|] eqn:E; [destruct (Hr _ _ E); lia|]. simpl.
  rewrite UInt32.uint32_wrap_id by (split; lia). lia.
Qed.

Lemma close_one_ok c gen c' : connector_ok c → close_one c gen = Some c' → connector_ok c'.
Proof.
  intros [Hg [Hs0 Hs1] Hr]. unfold close_one.
  destruct (_ && _)%bool eqn:E1.
  - intros [= <-]. to_prop. split; simpl; [done|unfold UInt32.in_range; lia|done].
  - destruct (retired c !! gen) as [n|] eqn:En; simpl; [|done].
    destruct (Hr _ _ En) as [Hgen Hn]. destruct (Z.ltb_spec 0 n); [|done]. intros [= <-].
    split; simpl; [done|by split|]. intros g k.
    destruct (Z.eqb_spec (n - 1) 0).
    + rewrite lookup_delete_Some, lookup_insert_Some. intros [Hne [[? _]|[_ ?]]]; [done|eauto].
    + rewrite lookup_insert_Some. intros [[<- <-]|[_ ?]]; [lia|eauto].
Qed.

Lemma Admit_ok m id gen : manager_ok m → (0 ≤ gen)%Z → manager_ok (AdmitConnector m id gen).1.
Proof.
  intros Hm Hgen. unfold AdmitConnector. destruct (_ || _)%bool eqn:E; [done|]. to_prop.
  case_decide; [done|]. destruct (connectors m !! id) eqn:Ei; [done|].
  destruct Hm as [Hs Hc Hn Hcap].
  rewrite UInt32.uint32_wrap_id by (split; lia).
  destruct (Z.leb_spec (capacity m) (Z.of_nat (size (connectors m)))); [by split|].
  split; simpl; [done| |rewrite map_size_insert_None by done; lia|done].
  intros id' c. rewrite lookup_insert_Some. intros [[<- <-]|[_ ?]]; [|eauto].
  split; [done|]. split; simpl; [lia|done|]. intros g n Hgn. by rewrite lookup_empty in Hgn.
Qed.

Lemma Replace_ok m id gen : manager_ok m → (0 ≤ gen)%Z → manager_ok (ReplaceConnector m id gen).1.
Proof.
  intros Hm Hgen. unfold ReplaceConnector. destruct (_ || _)%bool; [done|]. case_decide; [done|].
  destruct (connectors m !! id) as [c|] eqn:Ei; [|done].
  destruct (Z.leb_spec gen (generation c)); [done|].
  eapply update_connector_ok; [done|done|]. apply retire_ok; [by apply (mo_connectors _ Hm id)|lia].
Qed.

Lemma Remove_ok m id : manager_ok m → manager_ok (RemoveConnector m id).1.
Proof.
  intros Hm. unfold RemoveConnector. destruct (connectors m !! id) as [c|] eqn:Ei; [|done].
  destruct (_ || _)%bool; [done|]. apply signalLocked_ok. destruct Hm as [Hs Hc Hn Hcap].
  split; simpl; [done| | |done].
  - intros id' c'. rewrite lookup_delete_Some. intros [_ ?]. eauto.
  - rewrite map_size_delete_Some by eauto. lia.
Qed.

Lemma Open_ok m id gen : manager_ok m → manager_ok (OpenStream m id gen).1.
Proof.
  intros Hm. unfold OpenStream. case_decide; [done|]. destruct (connectors m !! id) as [c|] eqn:Ei; [|done].
  destruct (negb _); [done|]. destruct (Z.eqb_spec (streams c) UInt32.max_value) as [|Hne]; [done|].
  eapply update_connector_ok; [done|done|]. destruct (mo_connectors _ Hm _ _ Ei) as [_ [Hg Hs Hr]].
  split; simpl; [done| |done]. unfold UInt32.in_range in *. lia.
Qed.

Lemma Close_ok m id gen : manager_ok m → manager_ok (CloseStream m id gen).1.
Proof.
  intros Hm. unfold CloseStream. destruct (connectors m !! id) as [c|] eqn:Ei; [|done].
  destruct (close_one c gen) as [c'|] eqn:Ec; [|done]. apply signalLocked_ok.
  eapply update_connector_ok; [done|done|]. eapply close_one_ok; [by apply (mo_connectors _ Hm id)|done].
Qed.

Lemma op_step_ok m o : manager_ok m → op_ok o → ∃ m', op_step m o = Some m' ∧ manager_ok m'.
Proof.
  intros Hm Ho. destruct o; simpl in *; try (eexists; split; [reflexivity|]).
  - destruct (MarkReady_ok (m_state m) (mo_state _ Hm)) as (r & -> & Hr & _). simpl. eexists. split; [done|].
    by apply set_state_ok.
  - apply set_state_ok; [done|]. apply BeginDrain_ok, Hm.
  - apply set_state_ok; [done|]. apply SetControlAvailable_ok, Hm.
  - apply set_state_ok; [done|]. apply MarkStopped_ok, Hm.
  - by apply Admit_ok.
  - by apply Replace_ok.
  - by apply Remove_ok.
  - by apply Open_ok.
  - by apply Close_ok.
Qed.

(** Connector operations leave the state alone. *)
Lemma connector_op_state m o m' :
  op_step m o = Some m' →
  match o with
  | NAdmit _ _ | NReplace _ _ | NRemove _ | NOpen _ _ | NClose _ _ => m_state m' = m_state m
  | _ => connectors m' = connectors m ∧ wake m' = wake m
  end.
Proof.
  destruct o; simpl; [destruct (MarkReady (m_state m)); simpl; [|done]|..]; intros [= <-]; try done.
  - unfold AdmitConnector. by repeat (case_match; simpl).
  - unfold ReplaceConnector. by repeat (case_match; simpl).
  - unfold RemoveConnector. by repeat (case_match; simpl).
  - unfold OpenStream. by repeat (case_match; simpl).
  - unfold CloseStream. by repeat (case_match; simpl).
Qed.

Lemma op_step_phase m o m' :
  manager_ok m → op_step m o = Some m' → (rank (phase m) ≤ rank (phase m'))%nat.
Proof.
  intros Hm Hs. pose proof (connector_op_state _ _ _ Hs) as Hst. unfold phase.
  destruct o; simpl in *; try (rewrite Hst; done); simplify_eq; simpl.
  - destruct (MarkReady_ok (m_state m) (mo_state _ Hm)) as (r & Hr & _ & Hle). rewrite Hr in Hs. by simplify_eq/=.
  - apply BeginDrain_ok, Hm.
  - destruct (SetControlAvailable_ok (m_state m) available (mo_state _ Hm)) as [_ ->]. done.
  - destruct (s_Phase (snapshot (m_state m))); simpl; lia.
Qed.

Lemma new_manager_ok nodeID cap :
  (0 < cap ≤ UInt32.max_value)%Z → ∃ m, NewManager (Some (New nodeID)) cap = inr m ∧ manager_ok m.
Proof.
  intros Hcap. unfold NewManager. rewrite (proj2 (Z.eqb_neq cap 0)) by lia. eexists. split; [done|].
  split; simpl; [by split|intros id c Hid; by rewrite lookup_empty in Hid|rewrite map_size_empty; lia|lia].
Qed.

(** A node never panics and stays consistent: from a new node on, every call keeps the invariant
    (the ready flag only in phase ready, live until stopped, at most capacity connectors, stream counters
    within 32 bits and retired generations below the current one), closes the ready channel at most once,
    and never takes the phase back. *)
Theorem node_invariant :
  (∀ nodeID cap, (0 < cap ≤ UInt32.max_value)%Z →
     ∃ m, NewManager (Some (New nodeID)) cap = inr m ∧ manager_ok m) ∧
  (∀ m o, manager_ok m → op_ok o →
     ∃ m', op_step m o = Some m' ∧ manager_ok m' ∧ (rank (phase m) ≤ rank (phase m'))%nat).
Proof.
  split; [exact new_manager_ok|]. intros m o Hm Ho. destruct (op_step_ok m o Hm Ho) as (m' & Hs & Hm').
  exists m'. split_and!; [done|done|by eapply op_step_phase].
Qed.

(** ** Streams by generation *)

(** The number of open streams of a connector under a generation. *)
Definition connector_open (c : connector) (gen : Z) : Z :=
  if (generation c =? gen)%Z then streams c else default 0%Z (retired c !! gen).

Definition open (m : Manager) (id : string) (gen : Z) : Z :=
  match connectors m !! id with Some c => connector_open c gen | None => 0%Z end.

Lemma open_update m id c c' id' gen :
  connectors m !! id = Some c →
  open (set_connectors m (<[id := c']> (connectors m))) id' gen =
  if decide (id' = id) then connector_open c' gen else open m id' gen.
Proof.
  intros Hid. unfold open. simpl. case_decide as Hd; subst; [by rewrite lookup_insert_eq|].
  by rewrite lookup_insert_ne.
Qed.

Lemma retire_open c gen g : connector_ok c → (generation c < gen)%Z → connector_open (retire c gen) g = connector_open c g.
Proof.
  intros [Hg [Hs0 Hs1] Hr] Hlt. unfold connector_open, retire; simpl.
  assert (Hnew : ∀ g, (generation c ≤ g)%Z → retired c !! g = None).
  { intros g' Hle. destruct (retired c !! g') eqn:E; [|done]. destruct (Hr _ _ E). lia. }
  destruct (Z.eqb_spec gen g) as [<-|Hne].
  - rewrite (proj2 (Z.eqb_neq (generation c) gen)) by lia. rewrite Hnew by lia. done.
  - destruct (Z.eqb_spec (streams c) 0) as [Hz|Hz].
    + destruct (Z.eqb_spec (generation c) g) as [<-|]; [rewrite Hnew by lia; by rewrite Hz|done].
    + destruct (Z.eqb_spec (generation c) g) as [<-|Hg'].
      * rewrite lookup_insert_eq, Hnew by lia. simpl. by apply UInt32.uint32_wrap_id.
      * by rewrite lookup_insert_ne.
Qed.

Lemma close_one_open c gen :
  connector_ok c →
  match close_one c gen with
  | None => connector_open c gen = 0%Z
  | Some c' => (0 < connector_open c gen)%Z ∧
      ∀ g, connector_open c' g = (connector_open c g - (if decide (g = gen) then 1 else 0))%Z
  end.
Proof.
  intros [Hg [Hs0 Hs1] Hr]. unfold close_one, connector_open.
  destruct (Z.eqb_spec (generation c) gen) as [<-|Hne]; cbn [andb].
  - assert (Hn : retired c !! generation c = None).
    { destruct (retired c !! generation c) eqn:E; [|done]. destruct (Hr _ _ E). lia. }
    destruct (Z.ltb_spec 0 (streams c)); simpl.
    + split; [lia|]. intros g. case_decide as Hd; [subst; by rewrite Z.eqb_refl|].
      rewrite (proj2 (Z.eqb_neq (generation c) g)) by done. lia.
    + rewrite Hn. simpl. lia.
  - destruct (retired c !! gen) as [n|] eqn:En; simpl; [|done]. destruct (Hr _ _ En) as [_ Hn].
    rewrite (proj2 (Z.ltb_lt 0 n)) by lia. simpl. split; [lia|]. intros g.
    destruct (Z.eqb_spec (generation c) g) as [<-|Hg']; [rewrite decide_False by done; lia|].
    destruct (decide (g = gen)) as [->|Hd].
    + rewrite En. simpl. destruct (Z.eqb_spec (n - 1) 0) as [He|He]; simpl.
      * rewrite lookup_delete_eq. simpl. lia.
      * rewrite lookup_insert_eq. done.
    + destruct (Z.eqb_spec (n - 1) 0); rewrite ?lookup_delete_ne, lookup_insert_ne by done; lia.
Qed.

Lemma open_signal m id gen : open (signalLocked m) id gen = open m id gen.
Proof. done. Qed.

Lemma OpenStream_open m id gen :
  let '(m', err) := OpenStream m id gen in
  (err ≠ None → m' = m) ∧
  (err = None → phase m = Ready ∧
     ∀ id' g, open m' id' g = (open m id' g + if decide (id' = id ∧ g = gen) then 1 else 0)%Z).
Proof.
  unfold OpenStream. case_decide as Hp; [done|].
  destruct (connectors m !! id) as [c|] eqn:Ei; [|done].
  destruct (Z.eqb_spec (generation c) gen) as [<-|]; simpl; [|done].
  destruct (Z.eqb_spec (streams c) UInt32.max_value); [done|]. split; [done|]. intros _. split; [done|].
  intros id' g. rewrite (open_update _ _ _ _ _ _ Ei).
  destruct (decide (id' = id)) as [->|Hne]; [|rewrite decide_False by naive_solver; lia].
  unfold open. rewrite Ei. unfold connector_open. simpl.
  destruct (Z.eqb_spec (generation c) g) as [<-|Hg]; [by rewrite decide_True|].
  rewrite decide_False by naive_solver. lia.
Qed.

Lemma CloseStream_open m id gen :
  manager_ok m →
  let '(m', err) := CloseStream m id gen in
  (err = None ↔ (0 < open m id gen)%Z) ∧ (err ≠ None → m' = m) ∧
  (err = None → ∀ id' g, open m' id' g = (open m id' g - if decide (id' = id ∧ g = gen) then 1 else 0)%Z).
Proof.
  intros Hm. unfold CloseStream. unfold open at 1.
  destruct (connectors m !! id) as [c|] eqn:Ei; [|split_and!; done || (split; [done|lia])].
  pose proof (close_one_open c gen (proj2 (mo_connectors _ Hm _ _ Ei))) as Hc.
  destruct (close_one c gen) as [c'|]; [|split_and!; done || (split; [done|lia])].
  destruct Hc as [Hpos Hc]. split_and!; [done|done|]. intros _ id' g.
  rewrite open_signal, (open_update _ _ _ _ _ _ Ei).
  destruct (decide (id' = id)) as [->|Hne]; [|rewrite (decide_False (P := id' = id ∧ g = gen)) by naive_solver; lia].
  unfold open. rewrite Ei, Hc. destruct (decide (g = gen)); [rewrite decide_True by done|rewrite decide_False by naive_solver]; done.
Qed.

Lemma connector_ops_open m id gen id' g :
  manager_ok m →
  open (ReplaceConnector m id gen).1 id' g = open m id' g ∧
  open (AdmitConnector m id gen).1 id' g = open m id' g ∧ open (RemoveConnector m id).1 id' g = open m id' g.
Proof.
  intros Hm. split_and!.
  + unfold ReplaceConnector. destruct (_ || _)%bool; [done|]. case_decide; [done|].
    destruct (connectors m !! id) as [c|] eqn:Ei; [|done].
    destruct (Z.leb_spec gen (generation c)); [done|]. cbn [fst]. rewrite (open_update _ _ _ _ _ _ Ei).
    case_decide as Hd; [subst|done]. rewrite retire_open; [|by apply (mo_connectors _ Hm id)|done].
    unfold open. by rewrite Ei.
  + unfold AdmitConnector. destruct (_ || _)%bool; [done|]. case_decide; [done|].
    destruct (connectors m !! id) as [c|] eqn:Ei; [done|]. destruct (_ <=? _)%Z; [done|].
    unfold open. simpl. destruct (decide (id = id')) as [<-|Hne]; [|by rewrite lookup_insert_ne].
    rewrite lookup_insert_eq, Ei. unfold connector_open. simpl. by destruct (gen =? g)%Z.
  + unfold RemoveConnector. destruct (connectors m !! id) as [c|] eqn:Ei; [|done].
    destruct (_ || _)%bool eqn:E; [done|]. unfold open. simpl.
    destruct (decide (id = id')) as [<-|Hne]; [|by rewrite lookup_delete_ne].
    rewrite lookup_delete_eq, Ei. to_prop. apply Nat.eqb_eq, map_size_empty_iff in H1.
    unfold connector_open. rewrite H1, H0, lookup_empty. by destruct (generation c =? g)%Z.
Qed.

(** Streams are counted per connector and generation: OpenStream adds one stream to the current
    generation of a connector and only in phase ready, CloseStream takes one from the generation it was opened
    under and succeeds exactly when that generation has one open, and neither replacing a connector by a
    newer generation nor admitting or removing one changes any count; a failed call changes nothing. *)
Theorem stream_accounting (m : Manager) (Hm : manager_ok m) :
  (∀ id gen, let '(m', err) := OpenStream m id gen in
     (err ≠ None → m' = m) ∧
     (err = None → phase m = Ready ∧ ∀ id' g, open m' id' g = (open m id' g + if decide (id' = id ∧ g = gen) then 1 else 0)%Z)) ∧
  (∀ id gen, let '(m', err) := CloseStream m id gen in
     (err = None ↔ (0 < open m id gen)%Z) ∧ (err ≠ None → m' = m) ∧
     (err = None → ∀ id' g, open m' id' g = (open m id' g - if decide (id' = id ∧ g = gen) then 1 else 0)%Z)) ∧
  (∀ id gen id' g, open (ReplaceConnector m id gen).1 id' g = open m id' g ∧
     open (AdmitConnector m id gen).1 id' g = open m id' g ∧ open (RemoveConnector m id).1 id' g = open m id' g).
Proof.
  split_and!; intros; [apply OpenStream_open|by apply CloseStream_open|by apply connector_ops_open].
Qed.

(** ** Draining *)

Lemma saturatingAdd_spec a b :
  UInt32.in_range a → UInt32.in_range b →
  UInt32.in_range (saturatingAddUint32 a b) ∧ (saturatingAddUint32 a b = 0 ↔ a = 0 ∧ b = 0)%Z.
Proof.
  unfold UInt32.in_range, saturatingAddUint32, UInt32.max_value. intros Ha Hb.
  destruct (Z.ltb_spec (4294967295 - a) b); lia.
Qed.

(** A saturating sum over a loop is zero exactly when every term is. *)
Lemma saturating_fold {A} (f : Z → A → Z) (zero : A → Prop) l total :
  (∀ t a, a ∈ l → UInt32.in_range t → UInt32.in_range (f t a) ∧ (f t a = 0%Z ↔ t = 0%Z ∧ zero a)) →
  UInt32.in_range total →
  UInt32.in_range (foldl f total l) ∧ (foldl f total l = 0%Z ↔ total = 0%Z ∧ ∀ a, a ∈ l → zero a).
Proof.
  revert total; induction l as [|a l IH]; intros total Hf Ht; simpl.
  - split; [done|]. split; [|by intros [? _]]. intros ->. split; [done|]. intros a Ha. by apply elem_of_nil in Ha.
  - destruct (Hf total a) as [H1 H2]; [left|done|].
    destruct (IH (f total a)) as [H3 H4]; [intros; apply Hf; [by right|done]|done|].
    split; [done|]. rewrite H4, H2. setoid_rewrite elem_of_cons. split.
    + intros [[? ?] ?]. split; [done|]. by intros ? [->|?]; auto.
    + intros [? Hall]. split_and!; auto.
Qed.

Lemma total_zero m :
  manager_ok m → totalStreamsLocked m = 0%Z ↔ ∀ id g, open m id g = 0%Z.
Proof.
  intros Hm. unfold totalStreamsLocked.
  destruct (saturating_fold
    (λ total kc, foldl (λ total gs, saturatingAddUint32 total gs.2) (saturatingAddUint32 total (streams kc.2))
                   (range 10 (retired kc.2)))
    (λ kc : string * connector, streams kc.2 = 0%Z ∧ ∀ gs, gs ∈ range 10 (retired kc.2) → gs.2 = 0%Z)
    (range 9 (connectors m)) 0%Z) as [_ Hz].
  - intros t [id c] Hin Ht. apply elem_of_range in Hin. destruct (mo_connectors _ Hm _ _ Hin) as [_ [Hg Hs Hr]]. simpl.
    destruct (saturatingAdd_spec t (streams c) Ht Hs) as [H1 H2].
    destruct (saturating_fold (λ total (gs : Z * Z), saturatingAddUint32 total gs.2) (λ gs, gs.2 = 0%Z)
      (range 10 (retired c)) (saturatingAddUint32 t (streams c))) as [H3 H4].
    + intros t' [g n] Hgn Ht'. apply elem_of_range in Hgn. destruct (Hr _ _ Hgn). simpl.
      apply saturatingAdd_spec; [done|]. split; lia.
    + done.
    + split; [done|]. rewrite H4, H2. tauto.
  - done.
  - rewrite Hz. split.
    + intros [_ Hall] id g. unfold open. destruct (connectors m !! id) as [c|] eqn:Ei; [|done].
      destruct (Hall (id, c)) as [Hs Hr]; [by apply elem_of_range|]. unfold connector_open. simpl in *.
      destruct (generation c =? g)%Z; [done|]. destruct (retired c !! g) as [n|] eqn:Eg; [|done]. simpl.
      apply (Hr (g, n)). by apply elem_of_range.
    + intros Hopen. split; [done|]. intros [id c] Hin. apply elem_of_range in Hin.
      destruct (mo_connectors _ Hm _ _ Hin) as [_ [Hg Hs Hr]]. simpl. split.
      * specialize (Hopen id (generation c)). unfold open, connector_open in Hopen.
        by rewrite Hin, Z.eqb_refl in Hopen.
      * intros [g n] Hgn. apply elem_of_range in Hgn. destruct (Hr _ _ Hgn) as [Hlt _].
        specialize (Hopen id g). unfold open, connector_open in Hopen.
        rewrite Hin, (proj2 (Z.eqb_neq (generation c) g)), Hgn in Hopen by lia. done.
Qed.

Lemma open_nonneg m id g : manager_ok m → (0 ≤ open m id g)%Z.
Proof.
  intros Hm. unfold open. destruct (connectors m !! id) as [c|] eqn:Ei; [|done].
  destruct (mo_connectors _ Hm _ _ Ei) as [_ [Hg [Hs _] Hr]]. unfold connector_open.
  destruct (generation c =? g)%Z; [done|]. destruct (retired c !! g) as [n|] eqn:E; [|done].
  destruct (Hr _ _ E). simpl. lia.
Qed.

(** Some stream of the node is open. *)
Definition busy (m : Manager) : Prop := ∃ id g, (0 < open m id g)%Z.

Definition idle (c : connector) : Prop := streams c = 0%Z ∧ retired c = ∅.

Lemma not_idle_busy m : manager_ok m → totalStreamsLocked m ≠ 0%Z → busy m.
Proof.
  intros Hm Hne. destruct (decide (map_Forall (λ _, idle) (connectors m))) as [Hall|Hn].
  - destruct Hne. apply total_zero; [done|]. intros id g. unfold open.
    destruct (connectors m !! id) as [c|] eqn:Ei; [|done]. destruct (Hall id c Ei) as [Hs Hr].
    unfold connector_open. rewrite Hr, Hs, lookup_empty. by destruct (generation c =? g)%Z.
  - apply map_not_Forall in Hn as (id & c & Hid & Hni); [|apply _].
    destruct (mo_connectors _ Hm _ _ Hid) as [_ [Hg [Hs _] Hr]].
    destruct (decide (streams c = 0%Z)) as [Hz|Hz].
    + destruct (map_choose (retired c)) as (g & n & Hgn); [intros Hempty; by destruct Hni|].
      destruct (Hr _ _ Hgn). exists id, g. unfold open, connector_open.
      rewrite Hid, (proj2 (Z.eqb_neq (generation c) g)), Hgn by lia. simpl. lia.
    + exists id, (generation c). unfold open, connector_open. rewrite Hid, Z.eqb_refl. lia.
Qed.

(** No new stream, connector or generation is admitted. *)
Definition fenced (m : Manager) : Prop := (2 ≤ rank (phase m))%nat.

Lemma fenced_refuses m id gen :
  fenced m →
  phase m ≠ Ready ∧ (AdmitConnector m id gen).1 = m ∧ (AdmitConnector m id gen).2 ≠ None ∧
  (ReplaceConnector m id gen).1 = m ∧ (ReplaceConnector m id gen).2 ≠ None ∧
  (OpenStream m id gen).1 = m ∧ (OpenStream m id gen).2 ≠ None.
Proof.
  intros Hf. assert (Hp : phase m ≠ Ready) by (intros Hp; unfold fenced in Hf; rewrite Hp in Hf; simpl in Hf; lia).
  unfold AdmitConnector, ReplaceConnector, OpenStream. rewrite !(decide_True (P := phase m ≠ Ready)) by done.
  destruct (_ || _)%bool; done.
Qed.

(** While the node is fenced every change of the connectors is signalled. *)
Lemma fenced_step m o m' :
  fenced m → op_step m o = Some m' → (connectors m' = connectors m ∧ wake m' = wake m) ∨ (wake m < wake m')%nat.
Proof.
  intros Hf Hs. pose proof (connector_op_state _ _ _ Hs) as Hst.
  destruct o; try (by left); simpl in Hs; simplify_eq.
  - destruct (fenced_refuses m id gen Hf) as (_ & -> & _). by left.
  - destruct (fenced_refuses m id gen Hf) as (_ & _ & _ & -> & _). by left.
  - unfold RemoveConnector. destruct (connectors m !! id); [|by left].
    destruct (_ || _)%bool; [by left|right; simpl; lia].
  - destruct (fenced_refuses m id gen Hf) as (_ & _ & _ & _ & _ & -> & _). by left.
  - unfold CloseStream. destruct (connectors m !! id); [|by left].
    destruct (close_one c gen); [right; simpl; lia|by left].
Qed.

(** The interleavings of one call of Drain with any other calls. *)
Inductive reach (m0 : Manager) (deadline : time.Time) : Manager → drain_pc → Prop :=
  | reach_start : reach m0 deadline m0 (DrainCalled deadline)
  | reach_op m pc o m' : reach m0 deadline m pc → op_ok o → op_step m o = Some m' → reach m0 deadline m' pc
  | reach_drain m pc m' pc' : reach m0 deadline m pc → drain_step m pc m' pc' → reach m0 deadline m' pc'.

Definition drain_inv (m : Manager) (pc : drain_pc) : Prop :=
  manager_ok m ∧
  match pc with
  | DrainCalled _ => True
  | DrainCheck | DrainDone _ => fenced m
  | DrainWait ch => fenced m ∧ (ch ≤ wake m)%nat ∧ (ch = wake m → busy m)
  end.

Lemma force_ok m : manager_ok m → manager_ok (force m).
Proof.
  intros [Hs Hc Hn Hcap]. apply signalLocked_ok. split; simpl; [done| |rewrite map_size_empty; simpl; lia|done].
  intros id c Hid. by rewrite lookup_empty in Hid.
Qed.

Lemma drain_step_inv m pc m' pc' : drain_inv m pc → drain_step m pc m' pc' → drain_inv m' pc'.
Proof.
  intros [Hm Hpc] Hs. destruct Hs; unfold drain_inv.
  - split; [apply (set_state_ok m); [done|apply BeginDrain_ok, Hm]|].
    unfold fenced, phase. simpl. unfold BeginDrain. case_decide as Hp; simpl; [|lia].
    destruct Hp as [-> | ->]; simpl; lia.
  - done.
  - split_and!; [done..|]. intros _. by apply not_idle_busy.
  - by destruct Hpc as [? _].
  - destruct Hpc as [Hf _]. split; [by apply force_ok|exact Hf].
Qed.

Lemma reach_inv m0 deadline m pc : manager_ok m0 → reach m0 deadline m pc → drain_inv m pc.
Proof.
  intros Hm0. induction 1 as [|m pc o m' Hr IH Ho Hs|m pc m' pc' Hr IH Hs]; [by split| |by eapply drain_step_inv].
  destruct IH as [Hm Hpc]. destruct (op_step_ok m o Hm Ho) as (m'' & Hs' & Hm'). simplify_eq.
  pose proof (op_step_phase _ _ _ Hm Hs) as Hrank. split; [done|].
  assert (Hf : fenced m → fenced m') by (unfold fenced; lia).
  destruct pc as [d| |ch|forced]; [done|by apply Hf| |by apply Hf].
  destruct Hpc as (Hfm & Hle & Hbusy). split_and!; [by apply Hf| |].
  - destruct (fenced_step m o m' Hfm Hs) as [[_ ->]|?]; lia.
  - intros Heq. destruct (fenced_step m o m' Hfm Hs) as [[Hc Hw]|?]; [|lia].
    destruct (Hbusy ltac:(lia)) as (id & g & Hopen). exists id, g. unfold open in *. by rewrite Hc.
Qed.

(** C7: draining fences the node and misses nothing: in every interleaving of Drain with other calls, once it
    has begun no stream is opened and no connector or generation is admitted; while it waits, either the
    channel it waits on has been closed or some stream is still open, so the last close always wakes it; and
    when it returns no stream is open, with the connectors untouched unless it was forced. *)
Theorem drain_correct (m0 : Manager) (deadline : time.Time) (m : Manager) (pc : drain_pc)
    (Hm0 : manager_ok m0) (Hr : reach m0 deadline m pc) :
  (pc ≠ DrainCalled deadline → ∀ id gen,
     (AdmitConnector m id gen).1 = m ∧ (AdmitConnector m id gen).2 ≠ None ∧
     (ReplaceConnector m id gen).1 = m ∧ (ReplaceConnector m id gen).2 ≠ None ∧
     (OpenStream m id gen).1 = m ∧ (OpenStream m id gen).2 ≠ None) ∧
  (∀ ch, pc = DrainWait ch → (ch < wake m)%nat ∨ busy m) ∧
  (∀ m' forced, drain_step m pc m' (DrainDone forced) →
     (∀ id g, open m' id g = 0%Z) ∧ (forced = false → m' = m)).
Proof.
  pose proof (reach_inv _ _ _ _ Hm0 Hr) as [Hm Hpc]. split_and!.
  - intros Hne id gen. assert (Hf : fenced m).
    { destruct pc as [d| |ch|forced]; [|done|apply Hpc|done]. exfalso.
      assert (d = deadline) as ->; [|done].
      clear -Hr. remember (DrainCalled d) as pc eqn:Epc.
      induction Hr as [|m pc o m' Hr IH Ho Hs|m pc m' pc' Hr IH Hs]; [by simplify_eq|by apply IH|].
      subst. inversion Hs. }
    by destruct (fenced_refuses m id gen Hf) as (_ & ?).
  - intros ch ->. destruct Hpc as (_ & Hle & Hbusy). destruct (decide (ch = wake m)); [right; auto|left; lia].
  - intros m' forced Hs. inversion Hs; subst.
    + split; [|done]. by apply total_zero.
    + split; [|done]. intros id g. unfold open. simpl. by rewrite lookup_empty.
Qed.

End node.

(** ** A concrete node *)

Definition ready_manager : Manager :=
  mkManager (mkState (mkSnapshot "edge-1" Ready true true time.zero) true) 4
    {["conn-1" := mkConnector 3 1 {[2%Z := 1%Z]}]} 0.

Lemma ready_manager_ok : manager_ok ready_manager.
Proof.
  split; simpl.
  - by split.
  - intros id c Hid. apply lookup_singleton_Some in Hid as [<- <-]. split; [done|].
    split; simpl; [lia|unfold UInt32.in_range, UInt32.max_value; lia|].
    intros g n Hgn. apply lookup_singleton_Some in Hgn as [<- <-]. unfold UInt32.max_value. lia.
  - rewrite map_size_singleton. lia.
  - unfold UInt32.max_value. lia.
Qed.

Lemma stream_accounting_witness :
  (CloseStream ready_manager "conn-1" 2).2 = None ∧
  open (CloseStream ready_manager "conn-1" 2).1 "conn-1" 2 = 0%Z ∧
  open (CloseStream ready_manager "conn-1" 2).1 "conn-1" 3 = 1%Z.
Proof.
  pose proof (proj1 (proj2 (stream_accounting ready_manager ready_manager_ok)) "conn-1" 2%Z) as Hc.
  destruct (CloseStream ready_manager "conn-1" 2) as [m' err] eqn:E.
  destruct Hc as (Hiff & _ & Heff).
  assert (Herr : err = None) by (apply Hiff; vm_compute; reflexivity).
  split; [exact Herr|]. split; rewrite (Heff Herr); vm_compute; reflexivity.
Defined.

Lemma drain_correct_witness :
  let m := mkManager (BeginDrain (m_state ready_manager) 99).1 4 (connectors ready_manager) 0 in
  totalStreamsLocked (H := eval_runtime) m = 2%Z ∧
  (OpenStream m "conn-1" 3).2 ≠ None.
Proof.
  intros m. split; [vm_compute; reflexivity|].
  assert (Hr : reach (H := eval_runtime) ready_manager 99 m DrainCheck).
  { eapply reach_drain; [apply reach_start|]. apply (step_begin (H := eval_runtime) ready_manager 99). }
  destruct (proj1 (drain_correct (H := eval_runtime) ready_manager 99 m DrainCheck ready_manager_ok Hr) ltac:(discriminate)
    "conn-1" 3%Z) as (_ & _ & _ & _ & _ & Ho).
  exact Ho.
Defined.
