(* ===== verification/Counters.v ===== *)
(** * Usage counters of the edge: tunnel/internal/usage/counter.go, the part on Counters

    Absolute byte counters per authority, node, epoch, environment, route and direction.  The
    revision of a route is metadata of a counter, not part of its identity. *)
From S2P Require Import Prelude GoStd GoData.

Record Key := mkKey {
  Authority : string;
  Node : string;
  Epoch : string;
  Environment : string;
  Route : string;
  Direction : string;
  Revision : Z;
}.

#[export] Instance Key_eq_dec : EqDecision Key.
Proof. solve_decision. Defined.

#[export] Instance Key_countable : Countable Key.
Proof.
  apply (inj_countable' (λ k, (Authority k, Node k, Epoch k, Environment k, Route k, Direction k, Revision k))
    (λ t, let '(a, n, e, v, r, d, i) := t in mkKey a n e v r d i)).
  by intros [].
Defined.

Definition zeroKey : Key := mkKey "" "" "" "" "" "" 0.

Definition counterIdentity (k : Key) : Key :=
  mkKey (Authority k) (Node k) (Epoch k) (Environment k) (Route k) (Direction k) 0.

Record CounterRecord := mkCounterRecord { c_ObservedAt : time.Time; c_Key : Key; c_Bytes : Z }.

Definition zeroRecord : CounterRecord := mkCounterRecord time.zero zeroKey 0.

#[export] Instance CounterRecord_eq_dec : EqDecision CounterRecord.
Proof. solve_decision. Defined.

Record Counters := mkCounters {
  values : gmap Key CounterRecord;
  restoredBaseline : gmap Key Z;
}.

Definition NewCounters : Counters := mkCounters ∅ ∅.

Definition set_values (c : Counters) (vs : gmap Key CounterRecord) : Counters := mkCounters vs (restoredBaseline c).

(** The new value of a counter: a saturating sum, or the larger absolute. *)
Definition update_bytes (old bytes : Z) (add : bool) : Z :=
  if add then (if (UInt64.max_value - old <? bytes)%Z then UInt64.max_value else old + bytes)%Z
  else (if (old <? bytes)%Z then bytes else old).

(** Counters.update *)
Definition update (c : Counters) (k : Key) (bytes : Z) (add : bool) (at_ : time.Time) : Counters * (Z * Z) :=
  let identity := counterIdentity k in
  let record := default zeroRecord (values c !! identity) in
  let previous := c_Bytes record in
  let key := if (Revision (c_Key record) <=? Revision k)%Z then k else c_Key record in
  let total := update_bytes previous bytes add in
  (set_values c (<[identity := mkCounterRecord at_ key total]> (values c)), (total, UInt64.wrap (total - previous))).

(** Add, Observe, Reconcile and addAt, the current time given. *)
Definition Add (c : Counters) (k : Key) (bytes : Z) (now : time.Time) : Counters * Z :=
  let '(c', (total, _)) := update c k bytes true now in (c', total).
Definition Observe (c : Counters) (k : Key) (absolute : Z) (now : time.Time) : Counters * Z :=
  let '(c', (total, _)) := update c k absolute false now in (c', total).
Definition Reconcile (c : Counters) (k : Key) (absolute : Z) (now : time.Time) : Counters * Z :=
  let '(c', (_, delta)) := update c k absolute false now in (c', delta).
Definition addAt (c : Counters) (k : Key) (n : Z) (at_ : time.Time) : Counters := (update c k n true at_).1.

Definition Get (c : Counters) (k : Key) : Z := c_Bytes (default zeroRecord (values c !! counterIdentity k)).

(** Counters.baseline *)
Definition baseline (c : Counters) (record : CounterRecord) : Z :=
  default (c_Bytes record) (restoredBaseline c !! counterIdentity (c_Key record)).

(** Counters.canAdd *)
Definition canAdd (c : Counters) (keys : list Key) (limit : Z) : bool :=
  let count := foldl (λ n k, if decide (is_Some (values c !! counterIdentity k)) then n else (n + 1)%Z)
                 (Z.of_nat (size (values c))) keys in
  (count <=? limit)%Z.

(** The record keys RestoreCounters accepts. *)
Definition key_valid (k : Key) : bool :=
  negb (String.eqb (Node k) "" || String.eqb (Epoch k) "" || String.eqb (Environment k) "" || String.eqb (Route k) ""
        || negb (String.eqb (Direction k) "ingress") && negb (String.eqb (Direction k) "egress")).

(** The first loop of RestoreCounters: the partitions, and when each identity was last observed. *)
Definition restore_partition (acc : gmap Key Z * gmap Key time.Time) (record : CounterRecord) :
    gmap Key Z * gmap Key time.Time :=
  let '(partitions, observed) := acc in
  let k := c_Key record in
  if negb (key_valid k) then acc
  else
    let observed :=
      if time.After (c_ObservedAt record) (default time.zero (observed !! counterIdentity k))
      then <[counterIdentity k := c_ObservedAt record]> observed else observed in
    let partitions :=
      if (default 0 (partitions !! k) <? c_Bytes record)%Z then <[k := c_Bytes record]> partitions else partitions in
    (partitions, observed).

(** The second loop: one partition is added, and the largest partition of an identity is its baseline. *)
Definition restore_add (now : time.Time) (c : Counters) (kb : Key * Z) : Counters :=
  let c := (Add c kb.1 kb.2 now).1 in
  let identity := counterIdentity kb.1 in
  if (default 0 (restoredBaseline c !! identity) <? kb.2)%Z
  then mkCounters (values c) (<[identity := kb.2]> (restoredBaseline c)) else c.

(** The third loop: the observation times. *)
Definition restore_observed (observed : gmap Key time.Time) (vs : gmap Key CounterRecord) (kr : Key * CounterRecord) :
    gmap Key CounterRecord :=
  let at_ := default time.zero (observed !! kr.1) in
  if negb (time.IsZero at_) then <[kr.1 := mkCounterRecord at_ (c_Key kr.2) (c_Bytes kr.2)]> vs else vs.

Section counters.
Context `{GoRuntime}.

(** Counters.Snapshot; range site 13. *)
Definition Snapshot (c : Counters) : list CounterRecord := snd <$> range 13 (values c).

(** RestoreCounters, at the current time; range sites 14 and 15. *)
Definition RestoreCounters (records : list CounterRecord) (now : time.Time) : Counters :=
  let '(partitions, observed) := foldl restore_partition (∅, ∅) records in
  let c := foldl (restore_add now) NewCounters (range 14 partitions) in
  set_values c (foldl (restore_observed observed) (values c) (range 15 (values c))).

(** ** The invariant *)

Record counters_ok (c : Counters) : Prop := {
  ct_identity : ∀ id r, values c !! id = Some r → counterIdentity (c_Key r) = id;
  ct_bytes : ∀ id r, values c !! id = Some r → UInt64.in_range (c_Bytes r);
}.

Lemma counterIdentity_idemp k : counterIdentity (counterIdentity k) = counterIdentity k.
Proof. done. Qed.

Lemma update_bytes_range old bytes add :
  UInt64.in_range old → UInt64.in_range bytes →
  UInt64.in_range (update_bytes old bytes add) ∧ (old ≤ update_bytes old bytes add)%Z ∧
  update_bytes old bytes add = if add then Z.min UInt64.max_value (old + bytes) else Z.max old bytes.
Proof.
  unfold UInt64.in_range, update_bytes, UInt64.max_value. intros Ho Hb.
  destruct add; [destruct (Z.ltb_spec (18446744073709551615 - old) bytes)|destruct (Z.ltb_spec old bytes)]; lia.
Qed.

Lemma lookup_range c id : counters_ok c → UInt64.in_range (c_Bytes (default zeroRecord (values c !! id))).
Proof.
  intros Hc. destruct (values c !! id) as [r|] eqn:E; simpl; [by apply (ct_bytes _ Hc id)|].
  unfold UInt64.in_range, UInt64.max_value. lia.
Qed.

Lemma update_key_identity c k :
  counters_ok c → (0 ≤ Revision k)%Z →
  counterIdentity (if (Revision (c_Key (default zeroRecord (values c !! counterIdentity k))) <=? Revision k)%Z
                   then k else c_Key (default zeroRecord (values c !! counterIdentity k))) = counterIdentity k.
Proof.
  intros Hc Hr. case_bool; [done|]. destruct (values c !! counterIdentity k) as [r|] eqn:E; simpl in *.
  - by apply (ct_identity _ Hc).
  - to_prop. simpl in *. lia.
Qed.

Lemma update_ok c k bytes add at_ :
  counters_ok c → (0 ≤ Revision k)%Z → UInt64.in_range bytes → counters_ok (update c k bytes add at_).1.
Proof.
  intros Hc Hr Hb. pose proof (lookup_range c (counterIdentity k) Hc) as Hold.
  pose proof (update_key_identity c k Hc Hr) as Hid.
  destruct (update_bytes_range _ bytes add Hold Hb) as [Hrange _].
  split; intros id r; simpl; rewrite lookup_insert_Some; (intros [[<- <-]|[_ Hlook]]; [simpl|by eapply Hc]); done.
Qed.

Lemma Get_update c k bytes add at_ k' :
  Get (update c k bytes add at_).1 k' =
  if decide (counterIdentity k' = counterIdentity k) then update_bytes (Get c k) bytes add else Get c k'.
Proof.
  unfold Get. simpl. case_decide as Hd.
  - rewrite Hd, lookup_insert_eq. done.
  - by rewrite lookup_insert_ne by done.
Qed.

(** Counters are absolute and shared by all revisions of a route: adding bytes under any revision adds them
    to the one counter of the identity, saturating at 64 bits; observing an absolute value never lowers it, and
    the delta Reconcile reports is exactly the growth; no other counter changes, and the revision a counter
    carries never goes back. *)
Theorem counters_absolute (c : Counters) (k : Key) (bytes : Z) (at_ : time.Time)
    (Hc : counters_ok c) (Hr : (0 ≤ Revision k)%Z) (Hb : UInt64.in_range bytes) :
  (∀ k', Get (Add c k bytes at_).1 k' =
     if decide (counterIdentity k' = counterIdentity k) then Z.min UInt64.max_value (Get c k + bytes) else Get c k') ∧
  (∀ k', Get (Observe c k bytes at_).1 k' =
     if decide (counterIdentity k' = counterIdentity k) then Z.max (Get c k) bytes else Get c k') ∧
  (Reconcile c k bytes at_).2 = (Get (Reconcile c k bytes at_).1 k - Get c k)%Z ∧
  (∀ add r, values c !! counterIdentity k = Some r → ∃ r',
     values (update c k bytes add at_).1 !! counterIdentity k = Some r' ∧
     Revision (c_Key r') = Z.max (Revision (c_Key r)) (Revision k)).
Proof.
  pose proof (lookup_range c (counterIdentity k) Hc) as Hold.
  destruct (update_bytes_range _ bytes true Hold Hb) as (_ & _ & Hadd).
  destruct (update_bytes_range _ bytes false Hold Hb) as (Hrng & Hle & Hobs).
  split_and!.
  - intros k'. change (Add c k bytes at_).1 with (update c k bytes true at_).1. rewrite Get_update.
    unfold Get at 1. rewrite Hadd. done.
  - intros k'. change (Observe c k bytes at_).1 with (update c k bytes false at_).1. rewrite Get_update.
    unfold Get at 1. rewrite Hobs. done.
  - change (Reconcile c k bytes at_).1 with (update c k bytes false at_).1. rewrite Get_update, decide_True by done.
    apply UInt64.uint64_wrap_id. unfold UInt64.in_range in *. unfold Get. lia.
  - intros add r Hlook. eexists. simpl. rewrite lookup_insert_eq. split; [done|]. simpl. rewrite Hlook. simpl.
    destruct (Z.leb_spec (Revision (c_Key r)) (Revision k)); simpl; lia.
Qed.

(** ** Restoring *)

Definition record_ok (r : CounterRecord) : Prop := UInt64.in_range (c_Bytes r) ∧ (0 ≤ Revision (c_Key r))%Z.

(** The largest value a valid record holds for a key. *)
Definition part_max (records : list CounterRecord) (k : Key) : Z :=
  foldr Z.max 0%Z (c_Bytes <$> List.filter (λ r, key_valid (c_Key r) && bool_decide (c_Key r = k)) records).

Lemma part_max_app records r k :
  UInt64.in_range (c_Bytes r) →
  part_max (records ++ [r]) k =
  if key_valid (c_Key r) && bool_decide (c_Key r = k) then Z.max (part_max records k) (c_Bytes r) else part_max records k.
Proof.
  intros [Hb _]. unfold part_max. rewrite List.filter_app, fmap_app, foldr_app. simpl.
  destruct (_ && _)%bool; simpl; [|done].
  induction (c_Bytes <$> _) as [|b l IH]; simpl; lia.
Qed.

Record partitions_ok (records : list CounterRecord) (partitions : gmap Key Z) : Prop := {
  pt_value : ∀ k, default 0%Z (partitions !! k) = part_max records k;
  pt_entry : ∀ k b, partitions !! k = Some b → (0 < b)%Z ∧ UInt64.in_range b ∧ (0 ≤ Revision k)%Z ∧ key_valid k = true;
}.

Lemma restore_partitions_ok records :
  Forall record_ok records → partitions_ok records (foldl restore_partition (∅, ∅) records).1.
Proof.
  induction records as [|r records IH] using rev_ind; intros Hok.
  { split; simpl; [intros k; by rewrite lookup_empty|]. intros k b Hk. by rewrite lookup_empty in Hk. }
  apply Forall_app in Hok as [Hok [[Hb Hr] _]%Forall_cons]. destruct (IH Hok) as [Hv He].
  rewrite foldl_app. simpl. destruct (foldl restore_partition (∅, ∅) records) as [partitions observed]. simpl in *.
  unfold restore_partition. destruct (key_valid (c_Key r)) eqn:Ev; simpl.
  - split.
    + intros k. rewrite part_max_app, Ev by done. simpl. rewrite <-Hv.
      case_bool_decide as Hk; [subst k|]; destruct (Z.ltb_spec (default 0 (partitions !! c_Key r)) (c_Bytes r))%Z;
        rewrite ?lookup_insert_eq, ?lookup_insert_ne by done; simpl; rewrite ?Hv in *; try lia; done.
    + intros k b. destruct (Z.ltb_spec (default 0 (partitions !! c_Key r)) (c_Bytes r))%Z as [Hlt|]; [|apply He].
      rewrite lookup_insert_Some. intros [[<- <-]|[_ ?]]; [|by apply He]. split_and!; [|done..].
      destruct (partitions !! c_Key r) as [b|] eqn:E; simpl in Hlt; [destruct (He _ _ E); lia|lia].
  - split; [|done]. intros k. rewrite part_max_app, Ev by done. apply Hv.
Qed.

Definition sum_Z (l : list Z) : Z := foldr Z.add 0%Z l.

(** The bytes of the partitions of one identity. *)
Definition identity_bytes (id : Key) (l : list (Key * Z)) : Z :=
  sum_Z (snd <$> List.filter (λ kb, bool_decide (counterIdentity kb.1 = id)) l).

Lemma identity_bytes_cons id k b l :
  identity_bytes id ((k, b) :: l) = ((if decide (counterIdentity k = id) then b else 0) + identity_bytes id l)%Z.
Proof.
  unfold identity_bytes. cbn [List.filter fst]. case_decide as Hd; [rewrite bool_decide_true by done|rewrite bool_decide_false by done]; done.
Qed.

Lemma identity_bytes_perm id l l' : l ≡ₚ l' → identity_bytes id l = identity_bytes id l'.
Proof.
  induction 1 as [|[k b] l l' _ IH|[k b] [k' b'] l|]; rewrite ?identity_bytes_cons; [done|by rewrite IH|lia|congruence].
Qed.

Lemma sum_Z_app a b : sum_Z (a ++ b) = (sum_Z a + sum_Z b)%Z.
Proof. unfold sum_Z. induction a; simpl; lia. Qed.

Lemma sum_Z_perm a b : a ≡ₚ b → sum_Z a = sum_Z b.
Proof. unfold sum_Z. induction 1; simpl; lia. Qed.

(** Terms that are zero may be left out of a sum over distinct keys. *)
Lemma sum_Z_subset {A} `{EqDecision A} (f : A → Z) ks1 ks2 :
  NoDup ks1 → NoDup ks2 → (∀ k, k ∈ ks1 → k ∈ ks2) → (∀ k, k ∈ ks2 → k ∉ ks1 → f k = 0%Z) →
  sum_Z (f <$> ks1) = sum_Z (f <$> ks2).
Proof.
  intros H1 H2 Hsub Hz.
  assert (Hp : ks2 ≡ₚ ks1 ++ filter (λ k, k ∉ ks1) ks2).
  { apply NoDup_Permutation; [done| |].
    - apply NoDup_app. split_and!; [done| |by apply NoDup_filter].
      intros k Hk Hf. by apply list_elem_of_filter in Hf as [? _].
    - intros k. rewrite elem_of_app, list_elem_of_filter. destruct (decide (k ∈ ks1)); naive_solver. }
  assert (Hs : sum_Z (f <$> ks2) = sum_Z (f <$> (ks1 ++ filter (λ k, k ∉ ks1) ks2)))
    by (apply sum_Z_perm; by rewrite <-Hp).
  rewrite Hs, fmap_app, sum_Z_app.
  assert (Hzero : sum_Z (f <$> filter (λ k, k ∉ ks1) ks2) = 0%Z); [|lia].
  assert (Hall : ∀ k, k ∈ filter (λ k, k ∉ ks1) ks2 → f k = 0%Z)
    by (intros k Hk; apply list_elem_of_filter in Hk as [? ?]; auto).
  revert Hall. generalize (filter (λ k, k ∉ ks1) ks2). clear.
  induction l as [|k l IH]; intros Hall; [done|]. rewrite fmap_cons. unfold sum_Z in *. simpl.
  rewrite Hall by left. rewrite IH; [done|]. intros; apply Hall. by right.
Qed.

Lemma restore_add_ok now c k b :
  counters_ok c → (0 ≤ Revision k)%Z → UInt64.in_range b →
  counters_ok (restore_add now c (k, b)) ∧
  (∀ k', Get (restore_add now c (k, b)) k' =
     if decide (counterIdentity k' = counterIdentity k) then Z.min UInt64.max_value (Get c k + b) else Get c k').
Proof.
  intros Hc Hr Hb. pose proof (update_ok c k b true now Hc Hr Hb) as Hok.
  destruct (update_bytes_range _ b true (lookup_range c (counterIdentity k) Hc) Hb) as (_ & _ & Hadd).
  assert (Hvals : values (restore_add now c (k, b)) = values (update c k b true now).1).
  { unfold restore_add. by destruct (_ <? _)%Z. }
  split.
  - destruct Hok as [H1 H2]. split; rewrite Hvals; [apply H1|apply H2].
  - intros k'. unfold Get at 1. rewrite Hvals. change (Get (update c k b true now).1 k' =
      if decide (counterIdentity k' = counterIdentity k) then Z.min UInt64.max_value (Get c k + b) else Get c k').
    rewrite Get_update. unfold Get at 1. by rewrite Hadd.
Qed.

Lemma restore_adds_Get now l c :
  counters_ok c → Forall (λ kb : Key * Z, (0 ≤ Revision kb.1)%Z ∧ UInt64.in_range kb.2) l →
  counters_ok (foldl (restore_add now) c l) ∧
  ∀ k, Get (foldl (restore_add now) c l) k =
       Z.min UInt64.max_value (Get c k + identity_bytes (counterIdentity k) l) ∧ (0 ≤ identity_bytes (counterIdentity k) l)%Z.
Proof.
  revert c; induction l as [|[k b] l IH]; intros c Hc Hl; simpl.
  - split; [done|]. intros k. pose proof (lookup_range c (counterIdentity k) Hc) as [? ?].
    unfold identity_bytes, Get in *. simpl. lia.
  - apply Forall_cons in Hl as [[Hr Hb] Hl]. simpl in *. destruct (restore_add_ok now c k b Hc Hr Hb) as [Hc' HG].
    destruct (IH _ Hc' Hl) as [Hfin HGet]. split; [done|]. intros k'. destruct (HGet k') as [Hg Hpos].
    rewrite Hg, HG, identity_bytes_cons.
    destruct (decide (counterIdentity k' = counterIdentity k)) as [He|Hne].
    + rewrite decide_True by done. unfold Get. rewrite He in Hpos |- *. unfold UInt64.in_range in Hb. lia.
    + rewrite decide_False by congruence. done.
Qed.

Lemma restore_observed_bytes observed vs l k :
  (∀ kr, kr ∈ l → vs !! kr.1 = Some kr.2) →
  c_Bytes <$> (foldl (restore_observed observed) vs l !! k) = c_Bytes <$> (vs !! k).
Proof.
  revert vs; induction l as [|[id r] l IH] using rev_ind; intros vs Hl; [done|].
  rewrite foldl_app. simpl. unfold restore_observed at 1. simpl.
  assert (Hrest : ∀ kr, kr ∈ l → vs !! kr.1 = Some kr.2) by (intros; apply Hl, elem_of_app; by left).
  destruct (negb _); [|by apply IH].
  destruct (decide (id = k)) as [->|Hne]; [|rewrite lookup_insert_ne by done; by apply IH].
  rewrite lookup_insert_eq. simpl. pose proof (Hl (k, r)) as Hk. simpl in Hk. rewrite Hk; [done|].
  apply elem_of_app. right. left.
Qed.

Lemma Get_RestoreCounters records now k :
  Forall record_ok records →
  Get (RestoreCounters records now) k =
  Z.min UInt64.max_value (identity_bytes (counterIdentity k) (map_to_list (foldl restore_partition (∅, ∅) records).1)).
Proof.
  intros Hok. unfold RestoreCounters. pose proof (restore_partitions_ok records Hok) as [_ He].
  destruct (foldl restore_partition (∅, ∅) records) as [partitions observed]. simpl in *.
  assert (Hl : Forall (λ kb : Key * Z, (0 ≤ Revision kb.1)%Z ∧ UInt64.in_range kb.2) (range 14 partitions)).
  { apply Forall_forall. intros [k' b] Hin. apply elem_of_range in Hin. by destruct (He _ _ Hin) as (_ & ? & ? & _). }
  assert (Hnew : counters_ok NewCounters) by (split; intros id r Hr; simpl in Hr; by rewrite lookup_empty in Hr).
  destruct (restore_adds_Get now (range 14 partitions) NewCounters Hnew Hl) as [Hc HGet].
  destruct (HGet k) as [Hg _]. set (c := foldl (restore_add now) NewCounters (range 14 partitions)) in *.
  assert (Hsame : Get (set_values c (foldl (restore_observed observed) (values c) (range 15 (values c)))) k = Get c k).
  { unfold Get. simpl. pose proof (restore_observed_bytes observed (values c) (range 15 (values c)) (counterIdentity k)
      ltac:(intros [id r] Hin; by apply elem_of_range in Hin)) as Hb.
    destruct (foldl _ _ _ !! counterIdentity k), (values c !! counterIdentity k); simpl in *; congruence. }
  rewrite Hsame, Hg. unfold Get at 1. simpl. rewrite lookup_empty. simpl. f_equal.
  apply identity_bytes_perm, range_perm.
Qed.

(** The distinct keys of the valid records of an identity. *)
Definition partition_keys (records : list CounterRecord) (id : Key) : list Key :=
  remove_dups (List.filter (λ k, key_valid k && bool_decide (counterIdentity k = id)) (c_Key <$> records)).

Lemma elem_of_partition_keys records id k :
  k ∈ partition_keys records id ↔ (∃ r, r ∈ records ∧ c_Key r = k) ∧ key_valid k = true ∧ counterIdentity k = id.
Proof.
  unfold partition_keys. rewrite elem_of_remove_dups, list_elem_of_In, filter_In, <-list_elem_of_In.
  rewrite list_elem_of_fmap, andb_true_iff, bool_decide_eq_true. naive_solver.
Qed.

Lemma part_max_absent records k : (¬ ∃ r, r ∈ records ∧ c_Key r = k) → part_max records k = 0%Z.
Proof.
  intros Hn. unfold part_max.
  assert (Hf : List.filter (λ r, key_valid (c_Key r) && bool_decide (c_Key r = k)) records = []); [|by rewrite Hf].
  induction records as [|r records IH]; simpl; [done|].
  rewrite bool_decide_false, andb_false_r.
  - apply IH. intros (r' & Hr' & ?). apply Hn. exists r'. split; [by right|done].
  - intros Hk. apply Hn. exists r. split; [left|done].
Qed.

Lemma filter_NoDup_fst {A B} (p : A * B → bool) (l : list (A * B)) : NoDup l.*1 → NoDup (List.filter p l).*1.
Proof.
  induction l as [|a l IH]; simpl; [done|]. intros [Hn Hnd]%NoDup_cons. destruct (p a); simpl; [|by apply IH].
  apply NoDup_cons. split; [|by apply IH]. intros Hin. apply Hn.
  apply list_elem_of_fmap in Hin as (b & -> & Hb). apply list_elem_of_In, filter_In in Hb as [Hb _].
  apply list_elem_of_fmap_2. by apply list_elem_of_In.
Qed.

Lemma identity_bytes_keys records partitions id :
  partitions_ok records partitions →
  identity_bytes id (map_to_list partitions) = sum_Z (part_max records <$> partition_keys records id).
Proof.
  intros [Hv He].
  set (kept := List.filter (λ kb : Key * Z, bool_decide (counterIdentity kb.1 = id)) (map_to_list partitions)).
  assert (Hkept : ∀ k b, (k, b) ∈ kept ↔ partitions !! k = Some b ∧ counterIdentity k = id).
  { intros k b. unfold kept. rewrite list_elem_of_In, filter_In, <-list_elem_of_In, elem_of_map_to_list. simpl.
    by rewrite bool_decide_eq_true. }
  assert (Hvals : snd <$> kept = part_max records <$> kept.*1).
  { rewrite <-list_fmap_compose. apply list_fmap_ext. intros i [k b] Hi. simpl.
    apply list_elem_of_lookup_2, Hkept in Hi as [Hk _]. by rewrite <-Hv, Hk. }
  unfold identity_bytes. fold kept. rewrite Hvals. apply sum_Z_subset.
  - apply filter_NoDup_fst, NoDup_fst_map_to_list.
  - apply NoDup_remove_dups.
  - intros k Hk. apply list_elem_of_fmap in Hk as ([k' b] & -> & Hk). apply Hkept in Hk as [Hk Hid]. simpl.
    destruct (He _ _ Hk) as (Hpos & _ & _ & Hval). apply elem_of_partition_keys. split_and!; [|done|done].
    destruct (decide (Exists (λ r, c_Key r = k') records)) as [Hex|Hnx]; [by rewrite Exists_exists in Hex|].
    exfalso. specialize (Hv k'). rewrite Hk, part_max_absent in Hv; [simpl in Hv; lia|].
    intros Hex. by rewrite Exists_exists in Hnx.
  - intros k Hk Hn. apply elem_of_partition_keys in Hk as (_ & _ & Hid). rewrite <-Hv.
    destruct (partitions !! k) as [b|] eqn:E; [|done]. destruct Hn.
    apply list_elem_of_fmap. exists (k, b). split; [done|]. by apply Hkept.
Qed.

(** Restoring counts every durable partition once: for each counter identity the restored total is the sum,
    saturating at 64 bits, over the distinct keys (revisions) of its valid records, of the largest value
    recorded for that key; repeated records count once, invalid records not at all, and neither the order of the
    records nor of the maps matters. *)
Theorem restore_sums_partitions (records : list CounterRecord) (now : time.Time) (Hok : Forall record_ok records) :
  ∀ k, Get (RestoreCounters records now) k =
    Z.min UInt64.max_value (sum_Z (part_max records <$> partition_keys records (counterIdentity k))).
Proof.
  intros k. rewrite Get_RestoreCounters by done. f_equal. by apply identity_bytes_keys, restore_partitions_ok.
Qed.
End counters.

(** ** Concrete counters *)

Definition sample_key (revision : Z) : Key := mkKey "auth" "edge" "epoch" "env" "route" "ingress" revision.

Definition sample_records : list CounterRecord :=
  [mkCounterRecord 5 (sample_key 1) 100; mkCounterRecord 6 (sample_key 1) 70; mkCounterRecord 7 (sample_key 2) 20;
   mkCounterRecord 8 (mkKey "auth" "" "epoch" "env" "route" "ingress" 1) 999].

Lemma sample_records_ok : Forall record_ok sample_records.
Proof. repeat constructor; simpl; unfold UInt64.max_value; lia. Qed.

Lemma restore_sums_partitions_witness :
  Get (RestoreCounters (H := eval_runtime) sample_records 9) (sample_key 7) = 120%Z.
Proof.
  rewrite (restore_sums_partitions (H := eval_runtime) sample_records 9 sample_records_ok). vm_compute. reflexivity.
Defined.

Lemma counters_absolute_witness :
  counters_ok (mkCounters {[counterIdentity (sample_key 0) := mkCounterRecord 5 (sample_key 1) 100]} ∅) ∧
  Get (Add (mkCounters {[counterIdentity (sample_key 0) := mkCounterRecord 5 (sample_key 1) 100]} ∅) (sample_key 3) 30 9).1
    (sample_key 0) = 130%Z.
Proof.
  assert (Hc : counters_ok (mkCounters {[counterIdentity (sample_key 0) := mkCounterRecord 5 (sample_key 1) 100]} ∅)).
  { split; intros id r Hr; cbn [values] in Hr; apply lookup_singleton_Some in Hr as [<- <-]; [done|].
    unfold UInt64.in_range, UInt64.max_value. simpl. lia. }
  split; [exact Hc|].
  rewrite (proj1 (counters_absolute _ (sample_key 3) 30 9 Hc ltac:(simpl; lia)
    ltac:(unfold UInt64.in_range, UInt64.max_value; lia))). vm_compute. reflexivity.
Defined.
