(* ===== verification/ReportQueue.v ===== *)
(** * The queue of usage reports: tunnel/internal/usage/counter.go (Queue) and quota.go

    A bounded queue of signed reports, first in first out, in which a newer absolute value of a counter
    replaces the pending one.  [order] lists the pending operation IDs, [bytes] the payload bytes held. *)
From S2P Require Import Prelude GoStd GoData Counters.

Record Report := mkReport {
  r_OperationID : string;
  r_Key : Key;
  r_Bytes : Z;
  r_Start : time.Time;  (** Interval[0] *)
  r_End : time.Time;    (** Interval[1] *)
  r_Payload : string;
}.

#[export] Instance Report_eq_dec : EqDecision Report.
Proof. solve_decision. Defined.

Inductive QueueError := ErrQueueFull.

(** An observer of a lease; the callback is named by a number. *)
Record quotaObserver := mkObserver { qo_authority : string; qo_admittedAt : time.Time; qo_cancel : nat }.

(** Observers are held by pointer: by a fresh number here. *)
Record Queue := mkQueue {
  quotaObservers : gmap nat quotaObserver;
  maxReports : Z;
  maxBytes : Z;
  bytes : Z;
  pending : gmap string Report;
  order : list string;
}.

Definition NewQueue (maxR maxB : Z) : QueueError + Queue :=
  if ((maxR <? 1) || (maxB <? 1))%Z then inl ErrQueueFull else inr (mkQueue ∅ maxR maxB 0 ∅ []).

Definition plen (r : Report) : Z := Z.of_nat (String.length (r_Payload r)).

Definition set_pending (q : Queue) (b : Z) (p : gmap string Report) (o : list string) : Queue :=
  mkQueue (quotaObservers q) (maxReports q) (maxBytes q) b p o.

(** The first guard of Enqueue and EnqueueLatest. *)
Definition report_refused (q : Queue) (r : Report) : bool :=
  String.eqb (r_OperationID r) "" || (plen r =? 0)%Z || (maxBytes q <? plen r)%Z.

(** The part both have in common: the report goes to the end, if it fits. *)
Definition push (q : Queue) (r : Report) : Queue * option QueueError :=
  if ((maxReports q <=? Z.of_nat (size (pending q))) || (maxBytes q - plen r <? bytes q))%Z then (q, Some ErrQueueFull)
  else (set_pending q (bytes q + plen r) (<[r_OperationID r := r]> (pending q)) (order q ++ [r_OperationID r]), None).

Definition same_report (a b : Report) : bool :=
  bool_decide (r_Key a = r_Key b) && (r_Bytes a =? r_Bytes b)%Z && String.eqb (r_Payload a) (r_Payload b).

Definition Enqueue (q : Queue) (r : Report) : Queue * option QueueError :=
  if report_refused q r then (q, Some ErrQueueFull)
  else match pending q !! r_OperationID r with
       | Some existing => if same_report existing r then (q, None) else (q, Some ErrQueueFull)
       | None => push q r
       end.

(** The first occurrence of an ID in the order is replaced. *)
Fixpoint replace_first (id new : string) (l : list string) : list string :=
  match l with
  | [] => []
  | x :: l' => if String.eqb x id then new :: l' else x :: replace_first id new l'
  end.

(** The first occurrence is removed. *)
Fixpoint remove_first (id : string) (l : list string) : list string :=
  match l with
  | [] => []
  | x :: l' => if String.eqb x id then l' else x :: remove_first id l'
  end.

Definition identity (r : Report) : Key := counterIdentity (r_Key r).

Section queue.
Context `{GoRuntime}.

(** EnqueueLatest; range site 16.  The loop returns at the first pending report of the identity. *)
Definition EnqueueLatest (q : Queue) (r : Report) : Queue * option QueueError :=
  if report_refused q r then (q, Some ErrQueueFull)
  else match List.find (λ kr, bool_decide (identity kr.2 = identity r)) (range 16 (pending q)) with
       | Some (id, current) =>
           if (r_Bytes r <=? r_Bytes current)%Z then (q, None)
           else
             let base := (bytes q - plen current)%Z in
             if ((base <? 0) || (maxBytes q - plen r <? base))%Z then (q, Some ErrQueueFull)
             else (set_pending q (base + plen r) (<[r_OperationID r := r]> (delete id (pending q)))
                     (replace_first id (r_OperationID r) (order q)), None)
       | None => push q r
       end.

(** The pending reports in order: what Next, Stats and Snapshot walk over. *)
Definition in_order (q : Queue) : list Report := omap (λ id, pending q !! id) (order q).

Definition Next (q : Queue) : option Report := head (in_order q).

Definition Ack (q : Queue) (operationID : string) : Queue * bool :=
  match pending q !! operationID with
  | None => (q, false)
  | Some report =>
      (set_pending q (bytes q - plen report) (delete operationID (pending q)) (remove_first operationID (order q)), true)
  end.

Definition Queue_Len (q : Queue) : nat := size (pending q).

Record QueueStats := mkQueueStats {
  qs_Reports : nat; qs_Bytes : Z; qs_MaxReports : Z; qs_MaxBytes : Z; qs_OldestAt : time.Time;
}.

Definition Stats (q : Queue) : QueueStats :=
  let oldest := foldl (λ oldest r,
    let at_ := if time.IsZero (r_Start r) then r_End r else r_Start r in
    if time.IsZero oldest || negb (time.IsZero at_) && time.Before at_ oldest then at_ else oldest)
    time.zero (in_order q) in
  mkQueueStats (size (pending q)) (bytes q) (maxReports q) (maxBytes q) oldest.

(** HasKey; range site 17. *)
Definition HasKey (q : Queue) (key : Key) : bool :=
  existsb (λ kr, bool_decide (identity kr.2 = counterIdentity key)) (range 17 (pending q)).

(** Snapshot of a queue: its pending reports in order. *)
Definition QueueState (q : Queue) : list Report := in_order q.

Fixpoint restore_reports (q : Queue) (reports : list Report) : QueueError + Queue :=
  match reports with
  | [] => inr q
  | r :: reports' =>
      match Enqueue q r with
      | (_, Some e) => inl e
      | (q', None) => restore_reports q' reports'
      end
  end.

Definition RestoreQueue (reports : list Report) (maxR maxB : Z) : QueueError + Queue :=
  match NewQueue maxR maxB with inl e => inl e | inr q => restore_reports q reports end.

(** ** Quota observers *)

(** SubscribeQuota: the queue, and the number that unsubscribes. *)
Definition SubscribeQuota (q : Queue) (authority : string) (admittedAt : time.Time) (cancel : nat) : Queue * nat :=
  let p := fresh (dom (quotaObservers q)) in
  (mkQueue (<[p := mkObserver authority admittedAt cancel]> (quotaObservers q)) (maxReports q) (maxBytes q)
     (bytes q) (pending q) (order q), p).

Definition Unsubscribe (q : Queue) (p : nat) : Queue :=
  mkQueue (delete p (quotaObservers q)) (maxReports q) (maxBytes q) (bytes q) (pending q) (order q).

(** ExhaustAuthority: the callbacks it runs; range site 18. *)
Definition ExhaustAuthority (q : Queue) (authority : string) (observedAt : time.Time) : list nat :=
  (λ po, qo_cancel po.2) <$>
    List.filter (λ po, String.eqb (qo_authority po.2) authority && negb (time.After (qo_admittedAt po.2) observedAt))
      (range 18 (quotaObservers q)).

(** ** The invariant *)

Definition payload_bytes (m : gmap string Report) : Z := sum_Z ((λ kr, plen kr.2) <$> map_to_list m).

Record queue_ok (q : Queue) : Prop := {
  qk_nodup : NoDup (order q);
  qk_order : ∀ id, id ∈ order q ↔ is_Some (pending q !! id);
  qk_ids : ∀ id r, pending q !! id = Some r → r_OperationID r = id ∧ id ≠ "" ∧ (0 < plen r)%Z;
  qk_bytes : bytes q = payload_bytes (pending q);
  qk_max : (bytes q ≤ maxBytes q)%Z;
  qk_size : (Z.of_nat (size (pending q)) ≤ maxReports q)%Z;
}.

(** At most one pending report per counter. *)
Definition queue_unique (q : Queue) : Prop :=
  ∀ id1 id2 r1 r2, pending q !! id1 = Some r1 → pending q !! id2 = Some r2 → identity r1 = identity r2 → id1 = id2.

(** A pending report with the operation ID of [r] is of the same counter: IDs are digests of key and value. *)
Definition ids_agree (q : Queue) (r : Report) : Prop :=
  ∀ r', pending q !! r_OperationID r = Some r' → identity r' = identity r.

Lemma payload_bytes_insert m id r :
  m !! id = None → payload_bytes (<[id := r]> m) = (plen r + payload_bytes m)%Z.
Proof.
  intros Hn. unfold payload_bytes.
  rewrite (sum_Z_perm _ ((λ kr : string * Report, plen kr.2) <$> ((id, r) :: map_to_list m))); [done|].
  by rewrite map_to_list_insert.
Qed.

Lemma payload_bytes_delete m id r :
  m !! id = Some r → payload_bytes (delete id m) = (payload_bytes m - plen r)%Z.
Proof.
  intros Hm. rewrite <-(insert_delete_id m id r Hm) at 2.
  rewrite payload_bytes_insert by apply lookup_delete_eq. lia.
Qed.

Lemma plen_nonneg r : (0 ≤ plen r)%Z.
Proof. unfold plen. lia. Qed.

Lemma payload_bytes_nonneg m : (0 ≤ payload_bytes m)%Z.
Proof.
  induction m as [|id r m Hn IH] using map_ind; [done|].
  rewrite payload_bytes_insert by done. pose proof (plen_nonneg r). lia.
Qed.

Lemma push_ok q r :
  queue_ok q → report_refused q r = false → pending q !! r_OperationID r = None → queue_ok (push q r).1.
Proof.
  intros [Hnd Ho Hi Hb Hm Hs] Hr Hn. unfold push. destruct (_ || _)%bool eqn:E; [by split|].
  unfold report_refused in Hr. to_prop. pose proof (plen_nonneg r).
  assert (Hnotin : r_OperationID r ∉ order q) by (rewrite Ho, Hn; by intros [? ?]).
  split; simpl.
  - apply NoDup_app. split_and!; [done| |apply NoDup_singleton].
    intros x Hx Hx'. apply list_elem_of_singleton in Hx' as ->. done.
  - intros id. rewrite elem_of_app, list_elem_of_singleton, Ho, lookup_insert_is_Some.
    destruct (decide (id = r_OperationID r)); naive_solver.
  - intros id r'. rewrite lookup_insert_Some. intros [[<- <-]|[_ ?]]; [|by apply Hi]. split_and!; [done|done|lia].
  - rewrite payload_bytes_insert by done. lia.
  - lia.
  - rewrite map_size_insert_None by done. lia.
Qed.

Lemma Enqueue_ok q r : queue_ok q → queue_ok (Enqueue q r).1.
Proof.
  intros Hq. unfold Enqueue. destruct (report_refused q r) eqn:Er; [done|].
  destruct (pending q !! r_OperationID r) eqn:E; [by destruct (same_report _ r)|]. by apply push_ok.
Qed.

Lemma remove_first_NoDup id l : NoDup l → remove_first id l = filter (λ x, x ≠ id) l.
Proof.
  induction l as [|x l IH]; simpl; [done|]. intros [Hn Hnd]%NoDup_cons.
  destruct (String.eqb_spec x id) as [->|Hne].
  - rewrite filter_cons_False by auto. clear -Hn. induction l as [|y l IH]; [done|].
    rewrite not_elem_of_cons in Hn. destruct Hn as [Hy Hn]. rewrite filter_cons_True by auto. by rewrite <-IH.
  - rewrite filter_cons_True by done. by rewrite IH.
Qed.

Lemma Ack_ok q id : queue_ok q → queue_ok (Ack q id).1.
Proof.
  intros [Hnd Ho Hi Hb Hm Hs]. unfold Ack. destruct (pending q !! id) as [r|] eqn:E; [|by split].
  pose proof (plen_nonneg r). simpl. rewrite remove_first_NoDup by done.
  split; simpl.
  - by apply NoDup_filter.
  - intros x. rewrite list_elem_of_filter, Ho, lookup_delete_is_Some. naive_solver.
  - intros x r'. rewrite lookup_delete_Some. intros [_ ?]. by apply Hi.
  - rewrite (payload_bytes_delete _ _ _ E). lia.
  - lia.
  - rewrite map_size_delete_Some by eauto. lia.
Qed.

(** ** The queue as a list *)

Lemma elem_of_in_order q r : queue_ok q → r ∈ in_order q ↔ pending q !! r_OperationID r = Some r.
Proof.
  intros Hq. unfold in_order. rewrite list_elem_of_omap. split.
  - intros (id & _ & Hr). by destruct (qk_ids _ Hq _ _ Hr) as [-> _].
  - intros Hr. exists (r_OperationID r). split; [|done]. apply (qk_order _ Hq). eauto.
Qed.

Lemma omap_ext_in {A B} (f g : A → option B) (l : list A) :
  (∀ a, a ∈ l → f a = g a) → omap f l = omap g l.
Proof.
  induction l as [|a l IH]; intros Hfg; [done|]. simpl. rewrite Hfg by left.
  destruct (g a); [f_equal|]; apply IH; intros; apply Hfg; by right.
Qed.

Lemma filter_all_in {A} (P : A → Prop) `{∀ x, base.Decision (P x)} (l : list A) :
  (∀ a, a ∈ l → P a) → filter P l = l.
Proof.
  induction l as [|a l IH]; intros HP; [done|]. rewrite filter_cons_True by (apply HP; left).
  f_equal. apply IH. intros; apply HP. by right.
Qed.

Lemma in_order_ids q : queue_ok q → r_OperationID <$> in_order q = order q.
Proof.
  intros Hq. unfold in_order.
  assert (Hall : ∀ id, id ∈ order q → ∃ r, pending q !! id = Some r ∧ r_OperationID r = id).
  { intros id Hid. apply (qk_order _ Hq) in Hid as [r Hr]. exists r. split; [done|]. by apply (qk_ids _ Hq). }
  induction (order q) as [|id l IH]; simpl; [done|].
  destruct (Hall id) as (r & Hr & Hid); [left|]. rewrite Hr. simpl. rewrite Hid. f_equal. apply IH.
  intros; apply Hall. by right.
Qed.

Lemma length_in_order q : queue_ok q → length (in_order q) = size (pending q).
Proof.
  intros Hq. rewrite <-(length_fmap r_OperationID), in_order_ids by done.
  assert (Hp : order q ≡ₚ (map_to_list (pending q)).*1).
  { apply NoDup_Permutation; [apply Hq|apply NoDup_fst_map_to_list|]. intros id. rewrite (qk_order _ Hq), list_elem_of_fmap.
    split; [intros [r Hr]; exists (id, r); split; [done|]; by apply elem_of_map_to_list|].
    intros ([k r] & -> & Hin). apply elem_of_map_to_list in Hin. eauto. }
  rewrite Hp, length_fmap. apply length_map_to_list.
Qed.

Lemma in_order_push q r :
  queue_ok q → pending q !! r_OperationID r = None → (push q r).2 = None → in_order (push q r).1 = in_order q ++ [r].
Proof.
  intros Hq Hn. unfold push. destruct (_ || _)%bool; [done|]. intros _. unfold in_order. simpl.
  rewrite omap_app. simpl. rewrite lookup_insert_eq. f_equal.
  assert (Hnot : r_OperationID r ∉ order q) by (rewrite (qk_order _ Hq), Hn; by intros [? ?]).
  apply omap_ext_in. intros id Hid. apply lookup_insert_ne. congruence.
Qed.

Lemma in_order_Ack q id :
  queue_ok q → in_order (Ack q id).1 = filter (λ r, r_OperationID r ≠ id) (in_order q).
Proof.
  intros Hq. unfold Ack. destruct (pending q !! id) as [r|] eqn:E; simpl.
  - unfold in_order. simpl. rewrite remove_first_NoDup by apply Hq.
    assert (Hids : ∀ x r', pending q !! x = Some r' → r_OperationID r' = x) by (intros; by apply (qk_ids _ Hq)).
    clear -Hids. induction (order q) as [|x l IH]; [done|].
    destruct (decide (x = id)) as [->|Hne].
    + rewrite filter_cons_False by auto. simpl. destruct (pending q !! id) as [r'|] eqn:E; [|done].
      rewrite filter_cons_False; [done|]. pose proof (Hids _ _ E). naive_solver.
    + rewrite filter_cons_True by done. simpl. rewrite lookup_delete_ne by done.
      destruct (pending q !! x) as [r'|] eqn:E; [|done].
      rewrite filter_cons_True by (rewrite (Hids _ _ E); done). f_equal. exact IH.
  - symmetry. apply filter_all_in. intros r Hr Hid. apply elem_of_in_order in Hr; [|done]. congruence.
Qed.

Lemma HasKey_true q key :
  HasKey q key = true ↔ ∃ op r, pending q !! op = Some r ∧ identity r = counterIdentity key.
Proof.
  unfold HasKey. rewrite existsb_exists. split.
  - intros ([op r] & Hin & Hb). apply list_elem_of_In, elem_of_range in Hin. apply bool_decide_eq_true in Hb. eauto.
  - intros (op & r & Hr & Hid). exists (op, r). split; [|by apply bool_decide_eq_true].
    by apply list_elem_of_In, elem_of_range.
Qed.

(** ** Coalescing *)

Lemma replace_first_NoDup id new l : NoDup l → replace_first id new l = (λ y, if decide (y = id) then new else y) <$> l.
Proof.
  induction l as [|x l IH]; intros Hnd; [done|]. apply NoDup_cons in Hnd as [Hn Hnd]. simpl.
  destruct (String.eqb_spec x id) as [->|Hne].
  - rewrite decide_True by done. f_equal. rewrite <-(list_fmap_id l) at 1. apply list_fmap_ext.
    intros i y Hy. rewrite decide_False; [done|]. intros ->. apply Hn. by eapply list_elem_of_lookup_2.
  - rewrite decide_False by done. f_equal. by apply IH.
Qed.

Section latest.
Context {q : Queue} {r : Report}.
Context (Hq : queue_ok q) (Hu : queue_unique q) (Ha : ids_agree q r).

Lemma find_identity :
  match List.find (λ kr, bool_decide (identity kr.2 = identity r)) (range 16 (pending q)) with
  | Some (id, current) => pending q !! id = Some current ∧ identity current = identity r
  | None => (∀ id r', pending q !! id = Some r' → identity r' ≠ identity r) ∧ pending q !! r_OperationID r = None
  end.
Proof.
  destruct (List.find _ _) as [[id current]|] eqn:E.
  - apply find_some in E as [Hin He]. apply list_elem_of_In, elem_of_range in Hin. by to_prop.
  - assert (Hnone : ∀ id r', pending q !! id = Some r' → identity r' ≠ identity r).
    { intros id r' Hr' Heq.
      assert (Hin : In (id, r') (range 16 (pending q))) by (apply list_elem_of_In; by apply elem_of_range).
      apply (find_none _ _ E) in Hin. simpl in Hin. by apply bool_decide_eq_false in Hin. }
    split; [done|]. destruct (pending q !! r_OperationID r) as [r'|] eqn:Er; [|done].
    destruct (Hnone _ _ Er). by apply Ha.
Qed.

Context {id : string} {current : Report}.
Context (Hid : pending q !! id = Some current) (Hident : identity current = identity r).

(** The new operation ID is the replaced one or not pending. *)
Lemma new_id_fresh y x : pending q !! y = Some x → y = r_OperationID r → y = id.
Proof.
  intros Hy ->. apply (Hu _ _ x current Hy Hid). rewrite Hident. by apply Ha.
Qed.

Lemma new_id_absent : delete id (pending q) !! r_OperationID r = None.
Proof.
  apply lookup_delete_None. destruct (pending q !! r_OperationID r) as [x|] eqn:E; [left|by right].
  symmetry. by apply (new_id_fresh _ x).
Qed.

Definition replaced_queue : Queue :=
  set_pending q (bytes q - plen current + plen r) (<[r_OperationID r := r]> (delete id (pending q)))
    (replace_first id (r_OperationID r) (order q)).

Lemma elem_of_replaced_order x :
  x ∈ replace_first id (r_OperationID r) (order q) ↔ x = r_OperationID r ∨ (x ∈ order q ∧ x ≠ id).
Proof.
  rewrite replace_first_NoDup by apply Hq. rewrite list_elem_of_fmap. split.
  - intros (y & -> & Hy). case_decide; [by left|by right].
  - intros [->|[Hx Hne]].
    + exists id. rewrite decide_True by done. split; [done|]. apply (qk_order _ Hq). eauto.
    + exists x. by rewrite decide_False.
Qed.

Lemma replaced_ok : report_refused q r = false → (bytes q - plen current ≤ maxBytes q - plen r)%Z → queue_ok replaced_queue.
Proof.
  intros Hr Hmax. pose proof new_id_absent as Habs. pose proof Hq as [Hnd Ho Hi Hb Hm Hs]. split; simpl.
  - rewrite replace_first_NoDup by done. apply NoDup_fmap_2_strong; [|done].
    intros x y Hx Hy. apply Ho in Hx as [rx Hx], Hy as [ry Hy].
    repeat case_decide; intros Heq; subst; try done; exfalso.
    + match goal with Hn : _ ≠ id |- _ => apply Hn; symmetry in Heq || idtac end.
      by apply (new_id_fresh (r_OperationID r) ry).
    + match goal with Hn : _ ≠ id |- _ => apply Hn end. by apply (new_id_fresh (r_OperationID r) rx).
  - intros x. rewrite elem_of_replaced_order, lookup_insert_is_Some, lookup_delete_is_Some, Ho.
    destruct (decide (x = r_OperationID r)); naive_solver.
  - intros x r'. rewrite lookup_insert_Some, lookup_delete_Some.
    intros [[<- <-]|[_ [_ ?]]]; [|by apply Hi]. unfold report_refused in Hr. to_prop.
    pose proof (plen_nonneg r). split_and!; [done|done|lia].
  - rewrite payload_bytes_insert by done. rewrite (payload_bytes_delete _ _ _ Hid). lia.
  - lia.
  - rewrite map_size_insert_None by done. rewrite map_size_delete_Some by eauto.
    assert (size (pending q) ≠ 0%nat) by (intros Hz; apply map_size_empty_iff in Hz; rewrite Hz, lookup_empty in Hid; done). lia.
Qed.

Lemma replaced_unique : queue_unique replaced_queue.
Proof.
  intros id1 id2 r1 r2. simpl. rewrite !lookup_insert_Some, !lookup_delete_Some.
  intros [[<- <-]|(_ & Hn1 & H1)] [[<- <-]|(_ & Hn2 & H2)] Heq; [done| | |by eapply Hu].
  - destruct Hn2. apply (Hu _ _ current r2 Hid H2). congruence.
  - destruct Hn1. apply (Hu _ _ current r1 Hid H1). congruence.
Qed.

Lemma in_order_replaced :
  in_order replaced_queue = (λ x, if decide (r_OperationID x = id) then r else x) <$> in_order q.
Proof.
  unfold in_order. simpl. rewrite replace_first_NoDup by apply Hq.
  assert (Hall : ∀ y, y ∈ order q → is_Some (pending q !! y)) by (intros; by apply (qk_order _ Hq)).
  induction (order q) as [|y l IH]; [done|]. simpl.
  destruct (Hall y) as [x Hx]; [left|]. destruct (qk_ids _ Hq _ _ Hx) as [Hxid _].
  rewrite Hx. simpl. rewrite Hxid. case_decide as Hy.
  - rewrite lookup_insert_eq. f_equal. apply IH. intros; apply Hall. by right.
  - rewrite lookup_insert_ne by (intros Heq; apply Hy; by apply (new_id_fresh y x)).
    rewrite lookup_delete_ne by done. rewrite Hx. f_equal. apply IH. intros; apply Hall. by right.
Qed.

End latest.

(** The list a queue stands for, when the newest absolute value of a counter is kept: in place when one is
    pending, else at the end. *)
Definition latest (r : Report) (l : list Report) : list Report :=
  if decide (identity r ∈ identity <$> l)
  then (λ x, if decide (identity x = identity r ∧ (r_Bytes x < r_Bytes r)%Z) then r else x) <$> l
  else l ++ [r].

Lemma elem_of_identities q r :
  queue_ok q → identity r ∈ identity <$> in_order q ↔ ∃ id x, pending q !! id = Some x ∧ identity x = identity r.
Proof.
  intros Hq. rewrite list_elem_of_fmap. split.
  - intros (x & Hx & Hin). apply elem_of_in_order in Hin; eauto.
  - intros (id & x & Hx & Hid). exists x. split; [done|]. apply elem_of_in_order; [done|].
    by destruct (qk_ids _ Hq _ _ Hx) as [-> _].
Qed.

Lemma push_unique q r :
  queue_unique q → (∀ id r', pending q !! id = Some r' → identity r' ≠ identity r) → queue_unique (push q r).1.
Proof.
  intros Hu Hn. unfold push. destruct (_ || _)%bool; [done|]. intros id1 id2 r1 r2. simpl.
  rewrite !lookup_insert_Some. intros [[<- <-]|[_ H1]] [[<- <-]|[_ H2]] Heq; [done| | |by eapply Hu].
  - by destruct (Hn _ _ H2).
  - by destruct (Hn _ _ H1).
Qed.

Lemma EnqueueLatest_spec q r :
  queue_ok q → queue_unique q → ids_agree q r →
  queue_ok (EnqueueLatest q r).1 ∧ queue_unique (EnqueueLatest q r).1 ∧
  ((EnqueueLatest q r).2 = None → in_order (EnqueueLatest q r).1 = latest r (in_order q)) ∧
  ((EnqueueLatest q r).2 ≠ None → (EnqueueLatest q r).1 = q).
Proof.
  intros Hq Hu Ha. unfold EnqueueLatest. destruct (report_refused q r) eqn:Er; [done|].
  pose proof (find_identity (r := r) Ha) as Hf.
  destruct (List.find _ _) as [[id current]|].
  - destruct Hf as [Hid Hident].
    assert (Hin : identity r ∈ identity <$> in_order q) by (apply elem_of_identities; eauto).
    destruct (Z.leb_spec (r_Bytes r) (r_Bytes current)) as [Hle|Hlt].
    + split_and!; [done|done| |done]. intros _. unfold latest. rewrite decide_True by done. cbn [fst].
      rewrite <-(list_fmap_id (in_order q)) at 1. apply list_fmap_ext. intros i x Hx.
      apply list_elem_of_lookup_2, elem_of_in_order in Hx; [|done].
      rewrite decide_False; [done|]. intros [Hxi Hxb].
      assert (r_OperationID x = id) by (apply (Hu _ _ x current); [done|done|congruence]). simplify_eq. lia.
    + destruct (_ || _)%bool eqn:Eb; [done|]. to_prop.
      split_and!; [apply (replaced_ok Hq Hu Ha Hid Hident Er); lia|by apply (replaced_unique Hu Hid Hident)| |done].
      intros _. etransitivity; [exact (in_order_replaced Hq Hu Ha Hid Hident)|]. unfold latest. rewrite decide_True by done.
      apply list_fmap_ext. intros i x Hx. apply list_elem_of_lookup_2, elem_of_in_order in Hx; [|done].
      destruct (decide (r_OperationID x = id)) as [Heq|Hne].
      * rewrite decide_True; [done|]. rewrite Heq in Hx. assert (x = current) as -> by congruence. split; [done|lia].
      * rewrite decide_False; [done|]. intros [Hxi _]. apply Hne. apply (Hu _ _ x current); [done|done|congruence].
  - destruct Hf as [Hn Habs]. split_and!; [by apply push_ok|by apply push_unique| |].
    + intros Hok. rewrite in_order_push by done. unfold latest. rewrite decide_False; [done|].
      intros Hin. apply elem_of_identities in Hin as (id & x & Hx & Hi); [|done]. by apply (Hn _ _ Hx).
    + unfold push. by destruct (_ || _)%bool.
Qed.

Lemma in_order_bytes q : queue_ok q → sum_Z (plen <$> in_order q) = bytes q.
Proof.
  intros Hq. rewrite (qk_bytes _ Hq). unfold payload_bytes.
  assert (Hp : in_order q ≡ₚ snd <$> map_to_list (pending q));
    [|by rewrite (sum_Z_perm _ _ (fmap_Permutation plen _ _ Hp)), <-list_fmap_compose].
  apply NoDup_Permutation.
  + apply (NoDup_fmap_1 r_OperationID). rewrite in_order_ids by done. apply Hq.
  + apply (NoDup_fmap_1 r_OperationID).
    rewrite <-list_fmap_compose. erewrite list_fmap_ext; [apply (NoDup_fst_map_to_list (pending q))|].
    intros i [id r] Hi. simpl. apply list_elem_of_lookup_2, elem_of_map_to_list in Hi. by apply (qk_ids _ Hq).
  + intros r. rewrite elem_of_in_order, list_elem_of_fmap by done. split.
    * intros Hr. exists (r_OperationID r, r). split; [done|]. by apply elem_of_map_to_list.
    * intros ([id r'] & -> & Hin). apply elem_of_map_to_list in Hin. simpl. by destruct (qk_ids _ Hq _ _ Hin) as [-> _].
Qed.

(** The report queue is the list of its reports: Next is the head, Enqueue of a new operation ID adds at the
    end, EnqueueLatest keeps the place of a counter that is pending and only ever replaces its value by a larger
    one, Ack removes exactly the acknowledged report; refused reports change nothing.  Every call keeps the queue
    within its limits of reports and bytes, with one entry per operation ID and counter. *)
Theorem queue_refines_list (q : Queue) (Hq : queue_ok q) (Hu : queue_unique q) :
  Next q = head (in_order q) ∧
  (∀ r, queue_ok (Enqueue q r).1 ∧
     ((Enqueue q r).2 = None → pending q !! r_OperationID r = None → in_order (Enqueue q r).1 = in_order q ++ [r]) ∧
     ((Enqueue q r).2 ≠ None → (Enqueue q r).1 = q)) ∧
  (∀ r, ids_agree q r → queue_ok (EnqueueLatest q r).1 ∧ queue_unique (EnqueueLatest q r).1 ∧
     ((EnqueueLatest q r).2 = None → in_order (EnqueueLatest q r).1 = latest r (in_order q)) ∧
     ((EnqueueLatest q r).2 ≠ None → (EnqueueLatest q r).1 = q)) ∧
  (∀ id, queue_ok (Ack q id).1 ∧ ((Ack q id).2 = true ↔ id ∈ r_OperationID <$> in_order q) ∧
     in_order (Ack q id).1 = filter (λ r, r_OperationID r ≠ id) (in_order q)) ∧
  (Z.of_nat (length (in_order q)) ≤ maxReports q)%Z ∧ (sum_Z (plen <$> in_order q) ≤ maxBytes q)%Z.
Proof.
  split; [done|]. split_and!.
  - intros r. split_and!; [by apply Enqueue_ok| |].
    + unfold Enqueue. destruct (report_refused q r); [done|]. intros He Hn. rewrite Hn in *. by apply in_order_push.
    + unfold Enqueue, push. repeat (case_match; try done).
  - intros r Ha. by apply EnqueueLatest_spec.
  - intros id. split_and!; [by apply Ack_ok| |by apply in_order_Ack].
    rewrite in_order_ids, (qk_order _ Hq) by done. unfold Ack. destruct (pending q !! id) as [r|]; simpl; split; [by eauto|done|done|by intros [? ?]].
  - rewrite length_in_order by done. apply Hq.
  - rewrite in_order_bytes by done. apply Hq.
Qed.

(** ** Restoring *)

Definition pushed (q : Queue) (r : Report) : Queue :=
  set_pending q (bytes q + plen r) (<[r_OperationID r := r]> (pending q)) (order q ++ [r_OperationID r]).

Lemma restore_reports_fit l : ∀ q,
  (∀ r, r ∈ l → r_OperationID r ≠ "" ∧ (0 < plen r)%Z ∧ pending q !! r_OperationID r = None) →
  NoDup (r_OperationID <$> l) → (0 ≤ bytes q)%Z →
  (Z.of_nat (size (pending q) + length l) ≤ maxReports q)%Z → (bytes q + sum_Z (plen <$> l) ≤ maxBytes q)%Z →
  restore_reports q l = inr (foldl pushed q l).
Proof.
  induction l as [|r l IH]; intros q Hl Hnd Hpos Hn Hb; [done|].
  rewrite fmap_cons in Hnd. apply NoDup_cons in Hnd as [Hr Hnd]. destruct (Hl r) as (Hid & Hp & Habs); [left|].
  assert (Hsum : (0 ≤ sum_Z (plen <$> l))%Z).
  { clear. unfold sum_Z. induction l as [|r l IH]; [done|]. rewrite fmap_cons. simpl. pose proof (plen_nonneg r). lia. }
  rewrite fmap_cons in Hb. change (sum_Z (plen r :: (plen <$> l))) with (plen r + sum_Z (plen <$> l))%Z in Hb. simpl in Hn.
  assert (He : Enqueue q r = (pushed q r, None)).
  { unfold Enqueue, report_refused, push. rewrite Habs, (proj2 (String.eqb_neq _ _) Hid).
    rewrite (proj2 (Z.eqb_neq (plen r) 0)), (proj2 (Z.ltb_ge (maxBytes q) (plen r))) by lia. simpl.
    rewrite (proj2 (Z.leb_gt _ _)), (proj2 (Z.ltb_ge _ _)) by lia. done. }
  cbn [restore_reports foldl]. rewrite He. apply IH; simpl; [|done|lia| |lia].
  - intros r' Hr'. destruct (Hl r') as (? & ? & Hn'); [by right|]. split_and!; [done|done|].
    rewrite lookup_insert_ne; [done|]. intros Heq. apply Hr. rewrite Heq. by apply list_elem_of_fmap_2.
  - rewrite map_size_insert_None by done. lia.
Qed.

Lemma foldl_pushed l q :
  foldl pushed q l =
  set_pending q (bytes q + sum_Z (plen <$> l)) (index_by r_OperationID (pending q) l) (order q ++ (r_OperationID <$> l)).
Proof.
  revert q; induction l as [|r l IH]; intros [os mr mb b p o]; unfold set_pending; simpl.
  - by rewrite Z.add_0_r, app_nil_r.
  - rewrite IH. unfold set_pending. simpl. by rewrite <-app_assoc, Z.add_assoc.
Qed.

(** A saved queue restores: rebuilding the queue from its snapshot under the same limits gives the same reports,
    in the same order and with the same byte count (without the quota observers, which belong to live leases). *)
Theorem queue_roundtrip (q : Queue) (Hq : queue_ok q) (Hr : (1 ≤ maxReports q)%Z) (Hb : (1 ≤ maxBytes q)%Z) :
  RestoreQueue (QueueState q) (maxReports q) (maxBytes q) =
  inr (mkQueue ∅ (maxReports q) (maxBytes q) (bytes q) (pending q) (order q)).
Proof.
  unfold RestoreQueue, NewQueue, QueueState.
  rewrite (proj2 (Z.ltb_ge (maxReports q) 1)), (proj2 (Z.ltb_ge (maxBytes q) 1)) by lia. simpl.
  assert (Hnd : NoDup (r_OperationID <$> in_order q)) by (rewrite in_order_ids by done; apply Hq).
  rewrite restore_reports_fit; simpl; [|intros r Hin|done|lia| |].
  - rewrite foldl_pushed. unfold set_pending. simpl. f_equal. f_equal; [by apply in_order_bytes| |by apply in_order_ids].
    apply map_eq. intros id. apply option_eq. intros r. rewrite index_by_unique by done.
    rewrite elem_of_in_order by done. split; [by intros [? <-]|]. intros Hid.
    by destruct (qk_ids _ Hq _ _ Hid) as [-> _].
  - apply elem_of_in_order in Hin; [|done]. destruct (qk_ids _ Hq _ _ Hin) as (? & ? & ?). by rewrite lookup_empty.
  - rewrite map_size_empty, length_in_order by done. apply Hq.
  - rewrite in_order_bytes by done. apply Hq.
Qed.

End queue.

(** ** A concrete queue *)

Definition sample_report (id : string) (direction : string) (n : Z) : Report :=
  mkReport id (mkKey "" "edge" "epoch" "env" "route" direction 1) n 1 2 "payload".

Definition sample_queue : Queue :=
  mkQueue ∅ 4 100 14 {["a" := sample_report "a" "ingress" 10; "b" := sample_report "b" "egress" 5]} ["a"; "b"].

Ltac decide_now := apply (bool_decide_eq_true_1 _); vm_compute; reflexivity.

Lemma sample_queue_ok : queue_ok sample_queue ∧ queue_unique sample_queue.
Proof.
  assert (Hall : ∀ id r, pending sample_queue !! id = Some r →
            (id = "a" ∧ r = sample_report "a" "ingress" 10) ∨ (id = "b" ∧ r = sample_report "b" "egress" 5)).
  { intros id r Hr. apply (map_Forall_lookup_1 (λ id r, (id = "a" ∧ r = sample_report "a" "ingress" 10) ∨
      (id = "b" ∧ r = sample_report "b" "egress" 5)) (pending sample_queue) id r); [decide_now|exact Hr]. }
  split.
  - split.
    + decide_now.
    + intros id. simpl. rewrite !elem_of_cons, elem_of_nil. split.
      * intros [->|[->|[]]]; by eexists.
      * intros [r Hr]. destruct (Hall id r Hr) as [[-> _]|[-> _]]; auto.
    + intros id r Hr. by destruct (Hall id r Hr) as [[-> ->]|[-> ->]].
    + vm_compute. reflexivity.
    + vm_compute. discriminate.
    + vm_compute. discriminate.
  - intros id1 id2 r1 r2 H1 H2 Hi.
    destruct (Hall _ _ H1) as [[-> ->]|[-> ->]], (Hall _ _ H2) as [[-> ->]|[-> ->]]; done.
Qed.

Lemma queue_refines_list_witness :
  r_OperationID <$> in_order (EnqueueLatest (H := eval_runtime) sample_queue (sample_report "c" "ingress" 30)).1 = ["c"; "b"] ∧
  in_order (EnqueueLatest (H := eval_runtime) sample_queue (sample_report "c" "ingress" 30)).1 =
    [sample_report "c" "ingress" 30; sample_report "b" "egress" 5].
Proof.
  split; [vm_compute; reflexivity|].
  destruct (proj1 (proj2 (proj2 (queue_refines_list (H := eval_runtime) sample_queue (proj1 sample_queue_ok) (proj2 sample_queue_ok))))
    (sample_report "c" "ingress" 30)) as (_ & _ & Hl & _).
  - intros r' Hr'. vm_compute in Hr'. discriminate Hr'.
  - rewrite Hl; vm_compute; reflexivity.
Defined.

Lemma queue_roundtrip_witness :
  RestoreQueue (QueueState sample_queue) 4 100 = inr sample_queue.
Proof. apply (queue_roundtrip sample_queue (proj1 sample_queue_ok)); vm_compute; discriminate. Defined.
