(* ===== verification/Meter.v ===== *)
(** * Metering: tunnel/internal/usage/meter.go, sign.go (making a report) and policy.go

    The meter counts the bytes of streams, turns counters that grew into signed reports, and forgets
    a counter only when it is old and delivered.  The clock, the outcome of Persist and the signature are
    parameters.  A method runs under the meter's lock and is one step. *)
From stdpp Require Import pretty.
From S2P Require Import Prelude GoStd GoData Counters ReportQueue Journal.

(** DeliveryWindow = 7 * 24 * time.Hour *)
Definition DeliveryWindow : time.Duration := (7 * 24 * time.Hour)%Z.

Inductive MeterError := ErrMeterInvalid | ErrMeterQueueFull | ErrSignature | ErrPersist | ErrMarshal.

Record SignedDocument := mkSignedDocument {
  sd_OperationID : string;
  sd_Key : Key;
  sd_Bytes : Z;
  sd_Start : time.Time;
  sd_End : time.Time;
}.

(** encoding/json and crypto/ed25519: the envelope of a document, [None] when it cannot be marshalled (it is
    never empty), and the canonical form of a key and value. *)
Class Signer := {
  sign_envelope : string → string → SignedDocument → option string;
  sign_envelope_nonempty : ∀ kid key d e, sign_envelope kid key d = Some e → e ≠ "";
  marshal_key : Key → Z → string;
}.

Record Meter := mkMeter {
  mt_Node : string;
  mt_Epoch : string;
  mt_Counters : Counters;
  mt_Queue : Queue;
  mt_KeyID : string;
  mt_PrivateKey : string;
  mt_start : gmap Key time.Time;
  mt_last : gmap Key Z;
}.

Definition set_meter (m : Meter) (c : Counters) (q : Queue) (start : gmap Key time.Time) (last : gmap Key Z) : Meter :=
  mkMeter (mt_Node m) (mt_Epoch m) c q (mt_KeyID m) (mt_PrivateKey m) start last.

Definition PrivateKeySize : nat := 64.

Section meter.
Context `{GoRuntime} `{SHA256} `{Signer}.

(** validateDocument *)
Definition validateDocument (d : SignedDocument) : bool :=
  let k := sd_Key d in
  negb (String.eqb (sd_OperationID d) "" || String.eqb (Node k) "" || String.eqb (Epoch k) ""
        || String.eqb (Environment k) "" || String.eqb (Route k) "" || (Revision k =? 0)%Z
        || negb (String.eqb (Direction k) "ingress") && negb (String.eqb (Direction k) "egress")
        || time.IsZero (sd_Start d) || time.Before (sd_End d) (sd_Start d)).

Definition NewSignedReport (keyID private : string) (d : SignedDocument) : MeterError + Report :=
  if String.eqb keyID "" || (128 <? String.length keyID)%nat || negb (String.length private =? PrivateKeySize)%nat
  then inl ErrSignature
  else if negb (validateDocument d) then inl ErrSignature
  else match sign_envelope keyID private d with
       | None => inl ErrMarshal
       | Some envelope => inr (mkReport (sd_OperationID d) (sd_Key d) (sd_Bytes d) (sd_Start d) (sd_End d) envelope)
       end.

(** meterOperationID: the first 16 bytes of the digest of the canonical form. *)
Definition meterOperationID (key : Key) (absolute : Z) : string :=
  "usage_" +:+ hex.EncodeToString (String.substring 0 16 (Sum256 (marshal_key key absolute))).

(** ** Record *)

(** Counters.pruneDelivered; range site 19.  The loop deletes only the counter it visits. *)
Definition deliverable (now : time.Time) (q : Queue) (reported : gmap Key Z) (kr : Key * CounterRecord) : bool :=
  negb (time.IsZero (c_ObservedAt kr.2)) && (DeliveryWindow <? time.Sub now (c_ObservedAt kr.2))%Z
  && (c_Bytes kr.2 <=? default 0 (reported !! kr.1))%Z && negb (HasKey q kr.1).

Definition pruneDelivered (c : Counters) (now : time.Time) (q : Queue) (reported : gmap Key Z) : Counters * list Key :=
  foldl (λ acc kr,
    let '(c, removed) := acc in
    if deliverable now q reported kr
    then (mkCounters (delete kr.1 (values c)) (delete kr.1 (restoredBaseline c)), removed ++ [kr.1])
    else acc) (c, []) (range 19 (values c)).

(** The epoch of a counter: scoped counters rotate by delivery window. *)
Definition epoch_at (epoch authority : string) (now : time.Time) : string :=
  if String.eqb authority "" then epoch
  else epoch +:+ ":" +:+ strconv.Itoa (Z.quot (time.UnixSeconds now) (Z.quot DeliveryWindow time.Second)).

Definition meter_epoch (m : Meter) : string → time.Time → string := epoch_at (mt_Epoch m).

Definition meter_key (m : Meter) (environment route : string) (revision : Z) (direction authority : string)
    (now : time.Time) : Key :=
  mkKey authority (mt_Node m) (meter_epoch m authority now) environment route direction revision.

(** The guard of Record (a meter always has its counters, queue and Persist here). *)
Definition record_invalid (m : Meter) (environment route : string) (revision : Z) : bool :=
  String.eqb (mt_Node m) "" || String.eqb (mt_Epoch m) "" || String.eqb environment "" || String.eqb route ""
  || (revision =? 0)%Z || String.eqb (mt_KeyID m) "" || negb (String.length (mt_PrivateKey m) =? PrivateKeySize)%nat.

Definition delete_keys {A} (m : gmap Key A) (ks : list Key) : gmap Key A := foldl (λ m k, delete k m) m ks.

(** The meter after the pruning Record does when there is no room. *)
Definition make_room (m : Meter) (now : time.Time) (keys : list Key) : Meter :=
  if canAdd (mt_Counters m) keys (maxReports (mt_Queue m)) then m
  else
    let '(c, removed) := pruneDelivered (mt_Counters m) now (mt_Queue m) (mt_last m) in
    set_meter m c (mt_Queue m) (delete_keys (mt_start m) removed) (delete_keys (mt_last m) removed).

(** The clock is read for the epoch, for pruning, and for each counter: [tEpoch], [tPrune], [tIn], [tOut]. *)
Record Readings := mkReadings { tEpoch : time.Time; tPrune : time.Time; tIn : time.Time; tOut : time.Time }.

Definition record_keys (key : Z → string → Key) (revision ingress egress : Z) : list Key :=
  (if (ingress =? 0)%Z then [] else [key revision "ingress"]) ++ (if (egress =? 0)%Z then [] else [key revision "egress"]).

Definition Meter_Record (m : Meter) (ts : Readings) (environment route : string) (revision ingress egress : Z)
    (authority : string) : Meter * option MeterError :=
  if record_invalid m environment route revision then (m, Some ErrMeterInvalid)
  else
    let key := λ revision direction, meter_key m environment route revision direction authority (tEpoch ts) in
    let keys := record_keys key 0 ingress egress in
    let m := make_room m (tPrune ts) keys in
    if negb (canAdd (mt_Counters m) keys (maxReports (mt_Queue m))) then (m, Some ErrMeterQueueFull)
    else
      let c := mt_Counters m in
      let c := if (ingress =? 0)%Z then c else addAt c (key revision "ingress") ingress (tIn ts) in
      let c := if (egress =? 0)%Z then c else addAt c (key revision "egress") egress (tOut ts) in
      (set_meter m c (mt_Queue m) (mt_start m) (mt_last m), None).

(** ** Flush *)

(** One iteration of the loop of Flush. *)
Definition flush_record (m : Meter) (now : time.Time) (record : CounterRecord) : Meter * option MeterError :=
  let id := counterIdentity (c_Key record) in
  if ((c_Bytes record =? 0) || (c_Bytes record <=? default 0 (mt_last m !! id)))%Z then (m, None)
  else
    let end_ := if time.IsZero (c_ObservedAt record) then now else c_ObservedAt record in
    let start0 := default time.zero (mt_start m !! id) in
    let start := if time.IsZero start0 || time.After start0 end_ then end_ else start0 in
    let operationID := meterOperationID (c_Key record) (c_Bytes record) in
    match NewSignedReport (mt_KeyID m) (mt_PrivateKey m)
            (mkSignedDocument operationID (c_Key record) (c_Bytes record) start end_) with
    | inl err => (m, Some err)
    | inr report =>
        match EnqueueLatest (mt_Queue m) report with
        | (_, Some _) => (m, Some ErrMeterQueueFull)
        | (q, None) => (set_meter m (mt_Counters m) q (<[id := end_]> (mt_start m)) (<[id := c_Bytes record]> (mt_last m)), None)
        end
    end.

Fixpoint flush_loop (m : Meter) (now : time.Time) (records : list CounterRecord) : Meter * option MeterError :=
  match records with
  | [] => (m, None)
  | r :: records' =>
      match flush_record m now r with
      | (m', Some err) => (m', Some err)
      | (m', None) => flush_loop m' now records'
      end
  end.

(** Flush, at the current time, with the outcome of Persist. *)
Definition Flush (m : Meter) (now : time.Time) (persist : option MeterError) : Meter * option MeterError :=
  match flush_loop m now (Counters.Snapshot (mt_Counters m)) with
  | (m', Some err) => (m', Some err)
  | (m', None) => (m', persist)
  end.

(** RestoreBaseline: what was durable is taken as reported, up to the largest partition. *)
Definition RestoreBaseline (m : Meter) (now : time.Time) (persist : option MeterError) : Meter * option MeterError :=
  let records := Counters.Snapshot (mt_Counters m) in
  let '(last, correction) :=
    foldl (λ acc record,
      let b := baseline (mt_Counters m) record in
      (<[counterIdentity (c_Key record) := b]> acc.1, acc.2 || (b <? c_Bytes record)%Z))
      (mt_last m, false) records in
  let m := set_meter m (mt_Counters m) (mt_Queue m) (mt_start m) last in
  if correction then Flush m now persist else (m, None).

(** ** Nothing that was counted is lost

    [acked] is what the server has acknowledged for each counter: a ghost of the proof. *)

(** A pending report covers the value of a counter. *)
Definition reported (q : Queue) (id : Key) (n : Z) : Prop :=
  ∃ op r, pending q !! op = Some r ∧ identity r = id ∧ (n ≤ r_Bytes r)%Z.

Definition acked_bytes (acked : gmap Key Z) (id : Key) : Z := default 0%Z (acked !! id).

Definition covered (acked : gmap Key Z) (q : Queue) (id : Key) (n : Z) : Prop :=
  (n ≤ acked_bytes acked id)%Z ∨ reported q id n.

(** Acknowledging a pending report. *)
Definition acknowledge (m : Meter) (acked : gmap Key Z) (op : string) : Meter * gmap Key Z :=
  match pending (mt_Queue m) !! op with
  | None => (m, acked)
  | Some r => (set_meter m (mt_Counters m) (Ack (mt_Queue m) op).1 (mt_start m) (mt_last m),
               <[identity r := Z.max (acked_bytes acked (identity r)) (r_Bytes r)]> acked)
  end.

(** [used] holds of the keys and values that are ever reported.  Operation IDs are truncated digests, so
    two counters could share one; the values in use are assumed not to. *)
Context (used : Key → Z → Prop).

Definition no_collisions : Prop := ∀ k a k' a',
  used k a → used k' a' → meterOperationID k a = meterOperationID k' a' → counterIdentity k = counterIdentity k'.

Record meter_ok (m : Meter) (acked : gmap Key Z) : Prop := {
  mi_counters : counters_ok (mt_Counters m);
  mi_queue : queue_ok (mt_Queue m);
  mi_unique : queue_unique (mt_Queue m);
  mi_ids : ∀ op r, pending (mt_Queue m) !! op = Some r →
    op = meterOperationID (r_Key r) (r_Bytes r) ∧ used (r_Key r) (r_Bytes r);
  mi_last : ∀ id n, mt_last m !! id = Some n → covered acked (mt_Queue m) id n;
}.

Context (Hdigest : no_collisions).

Lemma reported_in_order q id n :
  queue_ok q → reported q id n ↔ ∃ r, r ∈ in_order q ∧ identity r = id ∧ (n ≤ r_Bytes r)%Z.
Proof.
  intros Hq. split.
  - intros (op & r & Hr & ? & ?). exists r. split; [|done]. apply elem_of_in_order; [done|].
    by destruct (qk_ids _ Hq _ _ Hr) as [-> _].
  - intros (r & Hr & ? & ?). apply elem_of_in_order in Hr; [|done]. by exists (r_OperationID r), r.
Qed.

Lemma elem_of_latest r l x : x ∈ latest r l → x = r ∨ x ∈ l.
Proof.
  unfold latest. case_decide; [rewrite list_elem_of_fmap; intros (y & -> & Hy); case_decide; auto|].
  rewrite elem_of_app, list_elem_of_singleton. tauto.
Qed.

Lemma latest_keeps r l x : x ∈ l → ∃ y, y ∈ latest r l ∧ identity y = identity x ∧ (r_Bytes x ≤ r_Bytes y)%Z.
Proof.
  intros Hx. unfold latest. case_decide.
  - exists (if decide (identity x = identity r ∧ (r_Bytes x < r_Bytes r)%Z) then r else x). split.
    + apply list_elem_of_fmap. by exists x.
    + case_decide as Hd; [destruct Hd; split; [done|lia]|split; [done|lia]].
  - exists x. split; [apply elem_of_app; by left|]. split; [done|lia].
Qed.

Lemma latest_has r l : ∃ y, y ∈ latest r l ∧ identity y = identity r ∧ (r_Bytes r ≤ r_Bytes y)%Z.
Proof.
  unfold latest. case_decide as Hin.
  - apply list_elem_of_fmap in Hin as (x & Hx & Hin).
    exists (if decide (identity x = identity r ∧ (r_Bytes x < r_Bytes r)%Z) then r else x).
    split; [apply list_elem_of_fmap; by exists x|].
    case_decide as Hd; [split; [done|lia]|]. split; [done|]. apply Znot_gt_le. intros Hgt. apply Hd. split; [done|lia].
  - exists r. split; [apply elem_of_app; right; left|]. split; [done|lia].
Qed.

Lemma flush_report_ids m acked k a q' r :
  meter_ok m acked → used k a → r_OperationID r = meterOperationID k a → identity r = counterIdentity k →
  r_Key r = k → r_Bytes r = a →
  EnqueueLatest (mt_Queue m) r = (q', None) →
  queue_ok q' ∧ queue_unique q' ∧ in_order q' = latest r (in_order (mt_Queue m)) ∧
  (∀ op x, pending q' !! op = Some x → op = meterOperationID (r_Key x) (r_Bytes x) ∧ used (r_Key x) (r_Bytes x)).
Proof.
  intros [_ Hq Hu Hids _] Hused Hop Hident Hk Hb He.
  assert (Ha : ids_agree (mt_Queue m) r).
  { intros r' Hr'. rewrite Hop in Hr'. apply Hids in Hr' as [Hr' Hr'u]. rewrite Hident. symmetry. by eapply Hdigest. }
  pose proof (EnqueueLatest_spec _ _ Hq Hu Ha) as (Hq' & Hu' & Hio & _). rewrite He in Hq', Hu', Hio. simpl in *.
  specialize (Hio eq_refl). split_and!; [done..|]. intros op x Hx.
  destruct (qk_ids _ Hq' _ _ Hx) as [Hxid _].
  assert (Hin : x ∈ in_order q') by (apply elem_of_in_order; [done|by rewrite Hxid]).
  rewrite Hio in Hin. apply elem_of_latest in Hin as [->|Hin]; [by rewrite <-Hxid, Hk, Hb|].
  apply elem_of_in_order in Hin; [|done]. apply Hids in Hin. by rewrite <-Hxid.
Qed.

Lemma NewSignedReport_fields kid key d r :
  NewSignedReport kid key d = inr r →
  r_OperationID r = sd_OperationID d ∧ r_Key r = sd_Key d ∧ r_Bytes r = sd_Bytes d.
Proof. unfold NewSignedReport. repeat (case_match; try done). by intros [= <-]. Qed.

Lemma covered_mono acked q q' id n :
  (∀ id n, reported q id n → reported q' id n) → covered acked q id n → covered acked q' id n.
Proof. intros Hm [?|?]; [by left|right; auto]. Qed.

Lemma flush_record_spec m acked now r m' err :
  meter_ok m acked → used (c_Key r) (c_Bytes r) → flush_record m now r = (m', err) →
  meter_ok m' acked ∧ mt_Counters m' = mt_Counters m ∧
  (∀ id n, covered acked (mt_Queue m) id n → covered acked (mt_Queue m') id n) ∧
  (err = None → UInt64.in_range (c_Bytes r) → (0 ≤ acked_bytes acked (counterIdentity (c_Key r)))%Z →
     covered acked (mt_Queue m') (counterIdentity (c_Key r)) (c_Bytes r)).
Proof.
  intros Hm Hused. unfold flush_record. set (id := counterIdentity (c_Key r)).
  destruct (_ || _)%bool eqn:Eskip.
  { intros [= <- <-]. split_and!; [done..|]. intros _ [Hr0 _] Hack.
    apply orb_true_iff in Eskip as [Hz|Hle]; to_prop; [left; lia|].
    destruct (mt_last m !! id) as [n|] eqn:El; simpl in Hle; [|left; lia].
    destruct (mi_last _ _ Hm _ _ El) as [?|(op & x & ? & ? & ?)]; [left; lia|].
    right. exists op, x. split_and!; [done|done|lia]. }
  destruct (NewSignedReport _ _ _) as [e|report] eqn:Es; [by intros [= <- <-]|].
  apply NewSignedReport_fields in Es as (Hop & Hkey & Hb). simpl in Hop, Hkey, Hb.
  destruct (EnqueueLatest (mt_Queue m) report) as [q' [e|]] eqn:Ee; [by intros [= <- <-]|].
  intros [= <- <-]. simpl.
  assert (Hident : identity report = counterIdentity (c_Key r)) by (unfold identity; by rewrite Hkey).
  destruct (flush_report_ids m acked _ _ q' report Hm Hused Hop Hident Hkey Hb Ee) as (Hq' & Hu' & Hio & Hids').
  pose proof (mi_queue _ _ Hm) as Hq.
  assert (Hmono : ∀ id n, reported (mt_Queue m) id n → reported q' id n).
  { intros id' n. rewrite !reported_in_order, Hio by done. intros (x & Hx & Hxi & Hxn).
    destruct (latest_keeps report _ x Hx) as (y & ? & ? & ?). exists y. split_and!; [done|congruence|lia]. }
  assert (Hnew : reported q' id (c_Bytes r)).
  { rewrite reported_in_order, Hio by done. destruct (latest_has report (in_order (mt_Queue m))) as (y & ? & ? & ?).
    exists y. split_and!; [done|unfold id; congruence|lia]. }
  split_and!; [|done|intros; by eapply covered_mono|by right].
  split; simpl; [apply Hm|done|done|done|]. intros id' n. rewrite lookup_insert_Some.
  intros [[<- <-]|[_ Hl]]; [by right|]. eapply covered_mono; [done|]. by eapply (mi_last _ _ Hm).
Qed.

Lemma flush_loop_spec acked now records : ∀ m m' err,
  meter_ok m acked → (∀ r, r ∈ records → used (c_Key r) (c_Bytes r)) → flush_loop m now records = (m', err) →
  meter_ok m' acked ∧ mt_Counters m' = mt_Counters m ∧
  (∀ id n, covered acked (mt_Queue m) id n → covered acked (mt_Queue m') id n) ∧
  (err = None → ∀ r, r ∈ records → UInt64.in_range (c_Bytes r) →
     (0 ≤ acked_bytes acked (counterIdentity (c_Key r)))%Z →
     covered acked (mt_Queue m') (counterIdentity (c_Key r)) (c_Bytes r)).
Proof.
  induction records as [|r records IH]; intros m m' err Hm Hused; simpl.
  - intros [= <- <-]. split_and!; [done..|]. intros _ r Hr. by apply elem_of_nil in Hr.
  - destruct (flush_record m now r) as [m1 [e|]] eqn:Er.
    + intros [= <- <-]. destruct (flush_record_spec _ _ _ _ _ _ Hm (Hused r ltac:(left)) Er) as (? & ? & ? & _). by split_and!.
    + destruct (flush_record_spec _ _ _ _ _ _ Hm (Hused r ltac:(left)) Er) as (Hm1 & Hc1 & Hmono1 & Hcov1). intros Hl.
      destruct (IH _ _ _ Hm1 (λ x Hx, Hused x ltac:(by right)) Hl) as (Hm' & Hc' & Hmono' & Hcov').
      split_and!; [done|congruence|auto|]. intros He x Hx Hrange Hack. apply elem_of_cons in Hx as [->|Hx]; [|by apply Hcov'].
      apply Hmono'. by apply Hcov1.
Qed.

(** ** Pruning *)

Lemma lookup_delete_keys {A} (ks : list Key) : ∀ (m : gmap Key A) id,
  delete_keys m ks !! id = if decide (id ∈ ks) then None else m !! id.
Proof.
  unfold delete_keys. induction ks as [|k ks IH]; intros m id; [by rewrite decide_False by apply not_elem_of_nil|].
  cbn [foldl]. rewrite IH. destruct (decide (id = k)) as [->|Hne].
  - rewrite (decide_True (P := k ∈ k :: ks)) by left. case_decide; [done|apply lookup_delete_eq].
  - rewrite lookup_delete_ne by done. apply decide_ext. rewrite elem_of_cons. naive_solver.
Qed.

Lemma pruneDelivered_keys now q last l : ∀ c removed,
  foldl (λ acc kr, let '(c, removed) := acc in
      if deliverable now q last kr
      then (mkCounters (delete kr.1 (values c)) (delete kr.1 (restoredBaseline c)), removed ++ [kr.1])
      else acc) (c, removed) l =
  let ks := fst <$> List.filter (deliverable now q last) l in
  (mkCounters (delete_keys (values c) ks) (delete_keys (restoredBaseline c) ks), removed ++ ks).
Proof.
  induction l as [|kr l IH]; intros c removed; [destruct c; simpl; by rewrite app_nil_r|].
  cbn [foldl List.filter]. destruct (deliverable now q last kr); [|apply IH].
  rewrite IH. cbv zeta. rewrite fmap_cons. by rewrite <-app_assoc.
Qed.

(** The counters pruning removes: old, reported and with no pending report. *)
Definition prunable (m : Meter) (now : time.Time) : list Key :=
  fst <$> List.filter (deliverable now (mt_Queue m) (mt_last m)) (range 19 (values (mt_Counters m))).

Lemma elem_of_prunable m now id :
  id ∈ prunable m now ↔
  ∃ r, values (mt_Counters m) !! id = Some r ∧ deliverable now (mt_Queue m) (mt_last m) (id, r) = true.
Proof.
  unfold prunable. rewrite list_elem_of_fmap. split.
  - intros ([k r] & -> & Hin). apply list_elem_of_In, filter_In in Hin as [Hin Hd].
    exists r. split; [|done]. by apply list_elem_of_In, elem_of_range in Hin.
  - intros (r & Hr & Hd). exists (id, r). split; [done|]. apply list_elem_of_In, filter_In.
    split; [|done]. by apply list_elem_of_In, elem_of_range.
Qed.

Lemma make_room_spec m now keys :
  make_room m now keys = m ∨
  make_room m now keys =
    set_meter m (mkCounters (delete_keys (values (mt_Counters m)) (prunable m now))
                   (delete_keys (restoredBaseline (mt_Counters m)) (prunable m now)))
      (mt_Queue m) (delete_keys (mt_start m) (prunable m now)) (delete_keys (mt_last m) (prunable m now)).
Proof.
  unfold make_room. destruct (canAdd _ _ _); [by left|right].
  unfold pruneDelivered. rewrite pruneDelivered_keys. done.
Qed.

(** A counter is pruned only when the server has acknowledged its whole value. *)
Lemma prunable_acked m acked now id r :
  meter_ok m acked → values (mt_Counters m) !! id = Some r → id ∈ prunable m now →
  (0 ≤ acked_bytes acked id)%Z →
  (c_Bytes r ≤ acked_bytes acked id)%Z ∧ (c_ObservedAt r + DeliveryWindow < now)%Z.
Proof.
  intros Hm Hr Hp Hnn. apply elem_of_prunable in Hp as (r' & Hr' & Hd). rewrite Hr in Hr'. injection Hr' as <-.
  unfold deliverable in Hd. simpl in Hd. to_prop. split.
  - destruct (mt_last m !! id) as [n|] eqn:El; simpl in *; [|lia].
    destruct (mi_last _ _ Hm _ _ El) as [?|(op & x & Hx & Hid & _)]; [lia|exfalso].
    match goal with Hk : HasKey _ _ = false |- _ => apply not_true_iff_false in Hk; apply Hk end.
    apply HasKey_true. exists op, x. split; [done|]. rewrite Hid, <-(ct_identity _ (mi_counters _ _ Hm) _ _ Hr). done.
  - unfold time.Sub in *. unfold DeliveryWindow, time.Hour, time.Second, Int64.min_value, Int64.max_value in *. lia.
Qed.

(** ** Windows *)

Definition window (t : time.Time) : Z := Z.quot (time.UnixSeconds t) (Z.quot DeliveryWindow time.Second).

Lemma window_mono t u : (0 ≤ t ≤ u)%Z → (0 ≤ window t ≤ window u)%Z.
Proof.
  intros [Ht Htu]. unfold window, time.UnixSeconds. change (Z.quot DeliveryWindow time.Second) with 604800%Z.
  assert (0 ≤ t / 1000000000 ≤ u / 1000000000)%Z by (split; [apply Z.div_pos; lia|apply Z.div_le_mono; lia]).
  rewrite !Z.quot_div_nonneg by lia. split; [apply Z.div_pos; lia|apply Z.div_le_mono; lia].
Qed.

(** After a delivery window the window has changed. *)
Lemma window_rotates t u : (0 ≤ t)%Z → (t + DeliveryWindow < u)%Z → (window t < window u)%Z.
Proof.
  intros Ht Htu. unfold window, time.UnixSeconds. change (Z.quot DeliveryWindow time.Second) with 604800%Z.
  assert (Hd : (t / 1000000000 + 604800 ≤ u / 1000000000)%Z).
  { rewrite <-Z.div_add by lia. apply Z.div_le_mono; [lia|]. change DeliveryWindow with 604800000000000%Z in Htu. lia. }
  assert (0 ≤ t / 1000000000)%Z by (apply Z.div_pos; lia).
  rewrite !Z.quot_div_nonneg by lia.
  assert (((t / 1000000000 + 1 * 604800) / 604800 ≤ u / 1000000000 / 604800)%Z) by (apply Z.div_le_mono; lia).
  rewrite Z.div_add in * by lia. lia.
Qed.

Lemma meter_epoch_window m authority t u :
  authority ≠ "" → meter_epoch m authority t = meter_epoch m authority u → window t = window u.
Proof.
  intros Ha. unfold meter_epoch, epoch_at. destruct (String.eqb_spec authority "") as [|_]; [done|].
  fold (window t) (window u). intros He. apply (inj (String.append (mt_Epoch m))) in He. 
  apply (inj (String.append ":")) in He. unfold strconv.Itoa in He. by apply pretty_Z_inj in He.
Qed.

(** ** Runs *)

Inductive MeterOp :=
  | MRecord (ts : Readings) (environment route : string) (revision ingress egress : Z) (authority : string)
  | MFlush (now : time.Time) (persist : option MeterError)
  | MAck (operationID : string).

(** What is counted of a counter: the bytes of the successful Records, saturating. *)
Abbreviation Ledger := (gmap Key Z).

Definition counted_bytes (counted : Ledger) (id : Key) : Z := default 0%Z (counted !! id).

Definition count (counted : Ledger) (k : Key) (n : Z) : Ledger :=
  <[counterIdentity k := Z.min UInt64.max_value (counted_bytes counted (counterIdentity k) + n)]> counted.

Record MeterRun := mkMeterRun { mr_meter : Meter; mr_acked : Ledger; mr_counted : Ledger; mr_now : time.Time }.

(** What a Record counts when it returns nil. *)
Definition count_record (m : Meter) (counted : Ledger) (ts : Readings) environment route revision ingress egress authority : Ledger :=
  let key := λ direction, meter_key m environment route revision direction authority (tEpoch ts) in
  let counted := if (ingress =? 0)%Z then counted else count counted (key "ingress") ingress in
  if (egress =? 0)%Z then counted else count counted (key "egress") egress.

(** A Record finds room for its counters without pruning. *)
Definition record_fits (m : Meter) (ts : Readings) environment route ingress egress authority : bool :=
  canAdd (mt_Counters m) (record_keys (λ revision direction, meter_key m environment route revision direction authority (tEpoch ts)) 0 ingress egress)
    (maxReports (mt_Queue m)).

(** Time does not run backwards, and starts after 1970.  A Record that has to prune reads the epoch and prunes in the same window. *)
Definition op_ok (s : MeterRun) (o : MeterOp) : Prop :=
  match o with
  | MRecord ts environment route revision ingress egress authority =>
      (mr_now s ≤ tEpoch ts ≤ tPrune ts ∧ tPrune ts ≤ tIn ts ≤ tOut ts)%Z ∧
      (record_fits (mr_meter s) ts environment route ingress egress authority = true ∨ window (tEpoch ts) = window (tPrune ts)) ∧
      UInt64.in_range revision ∧ UInt64.in_range ingress ∧ UInt64.in_range egress
  | MFlush now _ => (mr_now s ≤ now)%Z ∧
      ∀ r, r ∈ Counters.Snapshot (mt_Counters (mr_meter s)) → used (c_Key r) (c_Bytes r)
  | MAck _ => True
  end.

Definition meter_step (s : MeterRun) (o : MeterOp) : MeterRun :=
  match o with
  | MRecord ts environment route revision ingress egress authority =>
      let '(m', err) := Meter_Record (mr_meter s) ts environment route revision ingress egress authority in
      mkMeterRun m' (mr_acked s)
        (match err with
         | None => count_record (mr_meter s) (mr_counted s) ts environment route revision ingress egress authority
         | Some _ => mr_counted s
         end) (tOut ts)
  | MFlush now persist => mkMeterRun (Flush (mr_meter s) now persist).1 (mr_acked s) (mr_counted s) now
  | MAck op => let '(m', acked') := acknowledge (mr_meter s) (mr_acked s) op in mkMeterRun m' acked' (mr_counted s) (mr_now s)
  end.

(** A process starts with the restored counters and queue, under an epoch of its own, and what it takes as reported was acknowledged or is pending. *)
Record restored_ok (epoch : string) (c : Counters) (q : Queue) (acked : Ledger) : Prop := {
  rs_counters : counters_ok c;
  rs_queue : queue_ok q;
  rs_unique : queue_unique q;
  rs_ids : ∀ op r, pending q !! op = Some r → op = meterOperationID (r_Key r) (r_Bytes r) ∧ used (r_Key r) (r_Bytes r);
  rs_acked : ∀ id, (0 ≤ acked_bytes acked id)%Z;
  rs_baseline : ∀ id r, values c !! id = Some r → covered acked q id (baseline c r);
  rs_used : ∀ id r, values c !! id = Some r → used (c_Key r) (c_Bytes r);
  rs_epoch : ∀ id t, is_Some (values c !! id) ∨ (0 < acked_bytes acked id)%Z → Epoch id ≠ epoch_at epoch (Authority id) t;
}.

Inductive meter_reach : MeterRun → Prop :=
  | mr_start node epoch kid key c q acked now persist :
      restored_ok epoch c q acked → (0 ≤ now)%Z →
      meter_reach (mkMeterRun (RestoreBaseline (mkMeter node epoch c q kid key ∅ ∅) now persist).1 acked (c_Bytes <$> values c) now)
  | mr_next s o : meter_reach s → op_ok s o → meter_reach (meter_step s o).

(** Where the bytes of a scoped counter are: in the counter, or acknowledged in a window that is over. *)
Definition scoped_ok (m : Meter) (acked counted : Ledger) (now : time.Time) (id : Key) : Prop :=
  match values (mt_Counters m) !! id with
  | Some r => c_Bytes r = counted_bytes counted id ∧
      ∀ t, (0 ≤ t)%Z → Epoch id = meter_epoch m (Authority id) t → (0 ≤ c_ObservedAt r)%Z ∧ (window t ≤ window (c_ObservedAt r))%Z
  | None => counted_bytes counted id = 0%Z ∨
      (counted_bytes counted id ≤ acked_bytes acked id)%Z ∧
      ∀ t, (0 ≤ t)%Z → Epoch id = meter_epoch m (Authority id) t → (window t < window now)%Z
  end.

Record run_ok (s : MeterRun) : Prop := {
  ro_meter : meter_ok (mr_meter s) (mr_acked s);
  ro_acked : ∀ id, (0 ≤ acked_bytes (mr_acked s) id)%Z;
  ro_now : (0 ≤ mr_now s)%Z;
  ro_scoped : ∀ id, Authority id ≠ "" → scoped_ok (mr_meter s) (mr_acked s) (mr_counted s) (mr_now s) id;
}.

Lemma scoped_later m acked counted now now' id :
  (0 ≤ now ≤ now')%Z → scoped_ok m acked counted now id → scoped_ok m acked counted now' id.
Proof.
  intros Hn. unfold scoped_ok. destruct (values _ !! id).
  - done.
  - intros [?|[? Ht]]; [by left|right]. split; [done|]. intros t Ht0 He. specialize (Ht t Ht0 He).
    pose proof (window_mono now now' Hn). lia.
Qed.

(** Bytes are added to the one counter of their key, from what is counted. *)
Lemma scoped_add m acked counted now k n at_ id :
  counters_ok (mt_Counters m) → (0 ≤ Revision k)%Z → UInt64.in_range n →
  (∃ t, (0 ≤ t ≤ at_)%Z ∧ (window now ≤ window t)%Z ∧ Epoch k = meter_epoch m (Authority k) t) →
  Authority id ≠ "" →
  scoped_ok m acked counted now id →
  scoped_ok (set_meter m (addAt (mt_Counters m) k n at_) (mt_Queue m) (mt_start m) (mt_last m)) acked (count counted k n) now id.
Proof.
  intros Hc Hr Hn (t & Ht & Hw & He) Ha Hs. unfold scoped_ok, addAt, count, update.
  cbn [fst values set_values mt_Counters set_meter].
  destruct (decide (counterIdentity k = id)) as [<-|Hne].
  - rewrite lookup_insert_eq. unfold counted_bytes at 1. rewrite lookup_insert_eq.
    cbn [default c_Bytes c_ObservedAt]. split; [|intros t' _ He'; split; [lia|]; change (Epoch k = meter_epoch m (Authority k) t') in He'; rewrite He in He';
      apply meter_epoch_window in He' as <-; [by apply window_mono|done]].
    pose proof (lookup_range _ (counterIdentity k) Hc) as Hold.
    destruct (update_bytes_range _ n true Hold Hn) as (_ & _ & ->). f_equal. f_equal. unfold scoped_ok in Hs.
    destruct (values (mt_Counters m) !! counterIdentity k) as [r|]; simpl; [destruct Hs as [-> _]; done|].
    destruct Hs as [->|[_ Hw']]; [done|]. specialize (Hw' t ltac:(lia) He). lia.
  - unfold scoped_ok in Hs. rewrite lookup_insert_ne by done.
    assert (Hsame : ∀ b, counted_bytes (<[counterIdentity k := b]> counted) id = counted_bytes counted id)
      by (intros b; unfold counted_bytes; by rewrite lookup_insert_ne).
    rewrite !Hsame. exact Hs.
Qed.

Lemma add_meter_ok m acked k n at_ :
  meter_ok m acked → (0 ≤ Revision k)%Z → UInt64.in_range n →
  meter_ok (set_meter m (addAt (mt_Counters m) k n at_) (mt_Queue m) (mt_start m) (mt_last m)) acked.
Proof. intros [Hc Hq Hu Hi Hl] Hr Hn. split; simpl; [by apply update_ok|done..]. Qed.

Lemma prune_run_ok m acked counted now now' keys :
  run_ok (mkMeterRun m acked counted now) → (now ≤ now')%Z → run_ok (mkMeterRun (make_room m now' keys) acked counted now').
Proof.
  intros [Hm Hack Hnow Hs] Hle. simpl in *.
  destruct (make_room_spec m now' keys) as [->| ->].
  { split; simpl; [done..|lia|]. intros id Ha. apply (scoped_later _ _ _ now); [lia|auto]. }
  pose proof Hm as [[Hci Hcb] Hq Hu Hi Hl].
  assert (Hsub : ∀ A (mp : gmap Key A) id x, delete_keys mp (prunable m now') !! id = Some x → mp !! id = Some x).
  { intros A mp id x. rewrite lookup_delete_keys. by case_decide. }
  split; simpl; [|done|lia|].
  - split; simpl; [split; intros id r Hr; simpl in Hr; apply Hsub in Hr; eauto|done..|].
    intros id n Hn. apply Hsub in Hn. eauto.
  - intros id Ha. specialize (Hs id Ha). unfold scoped_ok in *. simpl. rewrite lookup_delete_keys.
    destruct (decide (id ∈ prunable m now')) as [Hin|Hnin].
    + pose proof Hin as (r & Hr & _)%elem_of_prunable. rewrite Hr in Hs.
      destruct (prunable_acked m acked now' id r Hm Hr Hin (Hack id)) as [Hle' Hold].
      destruct Hs as (Hb & Ht). right. split; [lia|]. intros t Ht0 He. destruct (Ht t Ht0 He) as [Hobs Hwin].
      pose proof (window_rotates (c_ObservedAt r) now' Hobs Hold). lia.
    + pose proof (scoped_later m acked counted now now' id ltac:(lia)) as Hlater. unfold scoped_ok in Hlater. by apply Hlater.
Qed.

(** Adding the bytes of one direction, if any. *)
Lemma add_run_ok m acked counted now k n at_ t :
  run_ok (mkMeterRun m acked counted now) → (0 ≤ Revision k)%Z → UInt64.in_range n →
  (0 ≤ t ≤ at_)%Z → (window now ≤ window t)%Z → Epoch k = meter_epoch m (Authority k) t →
  run_ok (mkMeterRun (set_meter m (if (n =? 0)%Z then mt_Counters m else addAt (mt_Counters m) k n at_)
                        (mt_Queue m) (mt_start m) (mt_last m)) acked
            (if (n =? 0)%Z then counted else count counted k n) now).
Proof.
  intros [Hm Hack Hnow Hs] Hr Hn Ht Hw He. simpl in *. destruct (n =? 0)%Z; [by destruct m|].
  split; simpl; [by apply add_meter_ok|done|done|]. intros id Ha.
  apply scoped_add; [apply Hm|done|done| |done|by apply Hs]. by exists t.
Qed.

Lemma run_later m acked counted now now' :
  run_ok (mkMeterRun m acked counted now) → (now ≤ now')%Z → run_ok (mkMeterRun m acked counted now').
Proof.
  intros [? ? Hn Hsc] Hle. simpl in *. split; simpl; [done..|lia|]. intros id Ha. apply (scoped_later _ _ _ now); [lia|auto].
Qed.

Lemma record_run_ok s ts environment route revision ingress egress authority :
  run_ok s → op_ok s (MRecord ts environment route revision ingress egress authority) →
  run_ok (meter_step s (MRecord ts environment route revision ingress egress authority)).
Proof.
  intros Hs ((Ht1 & Ht2) & Hw & Hrev & Hin & Hout). destruct s as [m acked counted now]. simpl in *.
  unfold Meter_Record. destruct (record_invalid _ _ _ _); [apply (run_later _ _ _ now); [done|lia]|].
  set (key := λ revision direction, meter_key m environment route revision direction authority (tEpoch ts)).
  cbv zeta. set (m1 := make_room m (tPrune ts) _).
  pose proof (ro_now _ Hs) as Hnow. simpl in Hnow.
  assert (Hm1 : ∃ now1, (0 ≤ now1 ≤ tPrune ts)%Z ∧ (window now1 ≤ window (tEpoch ts))%Z ∧ run_ok (mkMeterRun m1 acked counted now1)).
  { destruct Hw as [Hfit|Hw].
    - exists (tEpoch ts). split_and!; [lia|lia|done|]. apply (run_later _ _ _ now); [|lia]. unfold m1, make_room.
      unfold record_fits in Hfit. simpl in Hfit. unfold key. by rewrite Hfit.
    - exists (tPrune ts). split_and!; [lia..|]. apply (prune_run_ok _ _ _ now); [done|lia]. }
  destruct Hm1 as (now1 & Hnow1 & Hw1 & Hm1).
  assert (Hep : ∀ t, meter_epoch m1 authority t = meter_epoch m authority t).
  { intros t. unfold m1. destruct (make_room_spec m (tPrune ts) (record_keys key 0 ingress egress)) as [->| ->]; done. }
  destruct (negb _); [apply (run_later _ _ _ now1); [done|lia]|].
  apply (run_later _ _ _ now1); [|lia].
  pose proof (add_run_ok _ _ _ _ (key revision "ingress") ingress (tIn ts) (tEpoch ts) Hm1 (proj1 Hrev) Hin
    ltac:(lia) ltac:(lia) (eq_sym (Hep _))) as Hm2.
  pose proof (add_run_ok _ _ _ _ (key revision "egress") egress (tOut ts) (tEpoch ts) Hm2 (proj1 Hrev) Hout
    ltac:(lia) ltac:(lia) (eq_sym (Hep _))) as Hm3.
  exact Hm3.
Qed.

Lemma flush_loop_epoch now records : ∀ m, mt_Epoch (flush_loop m now records).1 = mt_Epoch m.
Proof.
  induction records as [|r records IH]; intros m; simpl; [done|].
  assert (Hone : mt_Epoch (flush_record m now r).1 = mt_Epoch m).
  { unfold flush_record. repeat case_match; done. }
  destruct (flush_record m now r) as [m1 [e|]]; simpl in *; [done|]. by rewrite IH.
Qed.

Lemma flush_run_ok s now persist :
  run_ok s → op_ok s (MFlush now persist) → run_ok (meter_step s (MFlush now persist)).
Proof.
  intros Hs [Hnow Hused]. destruct s as [m acked counted now0]. simpl in *. apply (run_later _ _ _ now0); [|done].
  unfold Flush. pose proof (flush_loop_epoch now (Counters.Snapshot (mt_Counters m)) m) as Hep.
  destruct (flush_loop m now _) as [m' err] eqn:Ef.
  destruct (flush_loop_spec _ _ _ _ _ _ (ro_meter _ Hs) Hused Ef) as (Hm' & Hc' & _).
  destruct Hs as [_ ? ? Hsc]. simpl in *.
  assert (run_ok (mkMeterRun m' acked counted now0)) by
    (split; simpl; [done..|]; intros id Ha; specialize (Hsc id Ha); unfold scoped_ok, meter_epoch in *; by rewrite Hc', Hep).
  by destruct err.
Qed.

Lemma ack_run_ok s op : run_ok s → run_ok (meter_step s (MAck op)).
Proof.
  intros [Hm Hack Hnow Hs]. destruct s as [m acked counted now]. simpl in *. unfold acknowledge.
  destruct (pending (mt_Queue m) !! op) as [r|] eqn:Er; [|done].
  set (acked' := <[identity r := _]> acked).
  assert (Hmono : ∀ id, (acked_bytes acked id ≤ acked_bytes acked' id)%Z).
  { intros id. unfold acked_bytes at 2, acked'. destruct (decide (identity r = id)) as [<-|];
      [rewrite lookup_insert_eq; simpl; lia|rewrite lookup_insert_ne by done; done]. }
  assert (Hsub : ∀ o x, pending (Ack (mt_Queue m) op).1 !! o = Some x → pending (mt_Queue m) !! o = Some x).
  { intros o x. unfold Ack. rewrite Er. simpl. by intros [_ ?]%lookup_delete_Some. }
  destruct Hm as [Hc Hq Hu Hi Hl]. split; simpl; [split; simpl|..].
  - done.
  - by apply Ack_ok.
  - intros id1 id2 r1 r2 H1' H2'. apply Hu; by apply Hsub.
  - intros o x Hx. by apply Hi, Hsub.
  - intros id n Hn. destruct (Hl id n Hn) as [?|(o & x & Hx & Hid & Hle)]; [left; specialize (Hmono id); lia|].
    destruct (decide (o = op)) as [->|Hne].
    + left. rewrite Er in Hx. injection Hx as <-. unfold acked_bytes, acked'. rewrite Hid, lookup_insert_eq. simpl. lia.
    + right. exists o, x. split_and!; [|done..]. unfold Ack. rewrite Er. simpl. by rewrite lookup_delete_ne.
  - intros id. specialize (Hmono id). specialize (Hack id). lia.
  - done.
  - intros id Ha. specialize (Hs id Ha). unfold scoped_ok in *. simpl.
    destruct (values (mt_Counters m) !! id); [done|]. destruct Hs as [?|[? ?]]; [by left|right].
    specialize (Hmono id). split; [lia|done].
Qed.

Lemma baseline_fold (b : CounterRecord → Z) records : ∀ (last : gmap Key Z) correction id n,
  (foldl (λ acc record, (<[counterIdentity (c_Key record) := b record]> acc.1, acc.2 || (b record <? c_Bytes record)%Z))
    (last, correction) records).1 !! id = Some n →
  last !! id = Some n ∨ ∃ r, r ∈ records ∧ counterIdentity (c_Key r) = id ∧ b r = n.
Proof.
  induction records as [|r records IH]; intros last correction id n; simpl; [by left|].
  intros [Hl|(r' & ? & ? & ?)]%IH; [|right; exists r'; split_and!; [by right|done..]].
  apply lookup_insert_Some in Hl as [[? ?]|[_ ?]]; [right; exists r; split_and!; [left|done..]|by left].
Qed.

Lemma restored_run_ok node epoch kid key c q acked now persist :
  restored_ok epoch c q acked → (0 ≤ now)%Z →
  run_ok (mkMeterRun (RestoreBaseline (mkMeter node epoch c q kid key ∅ ∅) now persist).1 acked (c_Bytes <$> values c) now).
Proof.
  intros [Hc Hq Hu Hids Hack Hbase Hused Hep] Hn. unfold RestoreBaseline. simpl.
  destruct (foldl _ _ _) as [last correction] eqn:Ef.
  set (m := set_meter _ _ _ _ last).
  assert (Hm : meter_ok m acked).
  { split; simpl; [done..|]. intros id n Hl. pose proof (baseline_fold (baseline c) (Counters.Snapshot c) ∅ false id n) as Hb.
    rewrite Ef in Hb. destruct (Hb Hl) as [?|(r & Hr & <- & <-)]; [by rewrite lookup_empty in *|].
    apply list_elem_of_fmap in Hr as ([k r'] & -> & Hr). apply elem_of_range in Hr. simpl.
    rewrite (ct_identity _ Hc _ _ Hr). by apply Hbase. }
  assert (Hrun : run_ok (mkMeterRun m acked (c_Bytes <$> values c) now)).
  { split; [done..|]. intros id Ha. unfold scoped_ok, counted_bytes. simpl. rewrite lookup_fmap.
    destruct (values c !! id) as [r|] eqn:Er; simpl; [|by left]. split; [done|].
    intros t _ He. exfalso. apply (Hep id t); [rewrite Er; eauto|done]. }
  destruct correction; [|done].
  apply (flush_run_ok (mkMeterRun m acked (c_Bytes <$> values c) now) now persist Hrun). split; [done|].
  intros r Hr. apply list_elem_of_fmap in Hr as ([k r'] & -> & Hr). apply elem_of_range in Hr. by apply (Hused k).
Qed.

Lemma meter_reach_ok s : meter_reach s → run_ok s.
Proof.
  induction 1 as [|s o Hr IH Ho]; [by apply restored_run_ok|].
  destruct o; [by apply record_run_ok|by apply flush_run_ok|by apply ack_run_ok].
Qed.

(** C3: no metered byte of a scoped authority is lost.  In every run of a meter (it starts with the counters and the queue that were restored, under a fresh epoch; streams record bytes, the
    meter flushes, the server acknowledges reports in any order, and counters are pruned to make room), the counter of a
    scoped identity holds exactly the bytes recorded for it, saturating at 64 bits; a counter that was dropped
    had its whole value acknowledged, and is not started again; and when Flush returns nil, every byte
    recorded is acknowledged or in a pending report of that counter.  Assumed: the clock does not run backwards; a Record that has to prune does not read the clock in one delivery window for the epoch and in the
    next for pruning (straddling_record_restarts shows what happens then); what RestoreBaseline takes as reported was acknowledged or is pending; and the shortened digests of the reports that are made
    do not collide. *)
Theorem usage_not_lost (s : MeterRun) (Hs : meter_reach s) (id : Key) (Ha : Authority id ≠ "") :
  (∀ r, values (mt_Counters (mr_meter s)) !! id = Some r → c_Bytes r = counted_bytes (mr_counted s) id) ∧
  (values (mt_Counters (mr_meter s)) !! id = None →
     (counted_bytes (mr_counted s) id ≤ acked_bytes (mr_acked s) id)%Z ∧
     (counted_bytes (mr_counted s) id ≠ 0%Z → ∀ t, (mr_now s ≤ t)%Z → Epoch id ≠ meter_epoch (mr_meter s) (Authority id) t)) ∧
  (∀ now persist, op_ok s (MFlush now persist) → (Flush (mr_meter s) now persist).2 = None →
     covered (mr_acked s) (mt_Queue (Flush (mr_meter s) now persist).1) id (counted_bytes (mr_counted s) id)).
Proof.
  apply meter_reach_ok in Hs as [Hm Hack Hnow Hsc]. specialize (Hsc id Ha). unfold scoped_ok in Hsc.
  split_and!.
  - intros r Hr. rewrite Hr in Hsc. by destruct Hsc.
  - intros Hr. rewrite Hr in Hsc. specialize (Hack id). destruct Hsc as [->|[? Hw]]; [done|]. split; [done|].
    intros _ t Ht He. pose proof (window_mono _ _ (conj Hnow Ht)). specialize (Hw t ltac:(lia) He). lia.
  - intros now persist [_ Hused] Hf. unfold Flush in *.
    destruct (flush_loop (mr_meter s) now _) as [m' err] eqn:Ef. destruct err; [done|]. simpl in *.
    destruct (flush_loop_spec _ _ _ _ _ _ Hm Hused Ef) as (_ & _ & _ & Hcov).
    destruct (values (mt_Counters (mr_meter s)) !! id) as [r|] eqn:Er.
    + destruct Hsc as [<- _]. pose proof (ct_identity _ (mi_counters _ _ Hm) _ _ Er) as Hid.
      rewrite <-Hid. apply Hcov; [done| |by apply (ct_bytes _ (mi_counters _ _ Hm) id)|apply Hack].
      unfold Counters.Snapshot. apply list_elem_of_fmap. exists (id, r). split; [done|]. by apply elem_of_range.
    + left. specialize (Hack id). destruct Hsc as [->|[? _]]; done.
Qed.

End meter.

(** ** Concrete meters *)

Definition eval_signer : Signer := {|
  sign_envelope _ _ _ := Some "signed";
  sign_envelope_nonempty := λ _ _ _ e H, eq_ind "signed" (λ e, e ≠ "") (λ H', ltac:(discriminate H')) e (f_equal (default "") H);
  marshal_key k a := Route k +:+ ":" +:+ Direction k +:+ ":" +:+ strconv.Itoa a
|}.

Definition sample_meter : Meter :=
  mkMeter "edge" "epoch" NewCounters (mkQueue ∅ 2 100 0 ∅ []) "kid" (pad 64 "key") ∅ ∅.

Definition base : time.Time := (3000 * DeliveryWindow)%Z.

Definition eval_step := meter_step (H := eval_runtime) (H0 := eval_sha256) (H1 := eval_signer).
Definition eval_reach := meter_reach (H := eval_runtime) (H0 := eval_sha256) (H1 := eval_signer).

Definition at_time (t : time.Time) : Readings := mkReadings t t t t.

Definition sample_record (t : time.Time) (n : Z) : MeterOp := MRecord (at_time t) "env" "route" 1 n 0 "auth".

(** The counter of a process before, whose report is still pending. *)
Definition old_key : Key := mkKey "auth" "edge" "before:7" "env" "route" "ingress" 0.
Definition old_report : Report :=
  mkReport (meterOperationID (H0 := eval_sha256) (H1 := eval_signer) old_key 40) old_key 40 base base "signed".
Definition restored_counters : Counters := mkCounters {[old_key := mkCounterRecord base old_key 40]} ∅.
Definition restored_queue : Queue := mkQueue ∅ 4 100 6 {[r_OperationID old_report := old_report]} [r_OperationID old_report].

Definition sample_meter' : Meter :=
  (RestoreBaseline (H := eval_runtime) (H0 := eval_sha256) (H1 := eval_signer)
    (mkMeter "edge" "epoch" restored_counters restored_queue "kid" (pad 64 "key") ∅ ∅) base None).1.

Definition sample_run : MeterRun :=
  eval_step (eval_step (mkMeterRun sample_meter' ∅ (c_Bytes <$> values restored_counters) base) (sample_record (base + 1) 100)) (sample_record (base + 2) 20).

Definition sample_counter : Key := meter_key sample_meter "env" "route" 0 "ingress" "auth" (base + 1).

Definition sample_key : Key := meter_key sample_meter "env" "route" 1 "ingress" "auth" (base + 1).

Definition sample_used (k : Key) (a : Z) : Prop := (k, a) = (sample_key, 120%Z) ∨ (k, a) = (old_key, 40%Z).

Lemma sample_digests : no_collisions (H0 := eval_sha256) (H1 := eval_signer) sample_used.
Proof. intros k a k' a' [[= -> ->]|[= -> ->]] [[= -> ->]|[= -> ->]] He; try done; vm_compute in He; discriminate He. Qed.

Lemma restored_counter id r : values restored_counters !! id = Some r → id = old_key ∧ r = mkCounterRecord base old_key 40.
Proof. intros Hr. unfold restored_counters in Hr. cbn [values] in Hr. by apply lookup_singleton_Some in Hr as [<- <-]. Qed.

Lemma restored_report id r : pending restored_queue !! id = Some r → id = r_OperationID old_report ∧ r = old_report.
Proof. intros Hr. unfold restored_queue in Hr. cbn [pending] in Hr. by apply lookup_singleton_Some in Hr as [<- <-]. Qed.

Lemma sample_restored : restored_ok (H0 := eval_sha256) (H1 := eval_signer) sample_used "epoch" restored_counters restored_queue ∅.
Proof.
  split.
  - split; intros id r [-> ->]%restored_counter; [done|]. split; vm_compute; discriminate.
  - split; [apply NoDup_singleton| |intros id r [-> ->]%restored_report; split_and!; [done|by vm_compute..]|by vm_compute..].
    intros id. unfold restored_queue. cbn [order pending]. rewrite list_elem_of_singleton, lookup_singleton_is_Some. naive_solver.
  - by intros id1 id2 r1 r2 [-> ->]%restored_report [-> ->]%restored_report _.
  - intros op r [-> ->]%restored_report. split; [done|by right].
  - intros id. by vm_compute.
  - intros id r [-> ->]%restored_counter. right. exists (r_OperationID old_report), old_report.
    split_and!; [apply lookup_singleton_eq|done|by vm_compute].
  - intros id r [-> ->]%restored_counter. by right.
  - intros id t [[r [-> ->]%restored_counter]|Hz]; [|by vm_compute in Hz].
    assert (Hfresh : ∀ x, "before:7" ≠ "epoch" +:+ x) by (intros x; discriminate). apply Hfresh.
Qed.

Lemma sample_run_reach : eval_reach sample_used sample_run.
Proof.
  apply mr_next; [apply mr_next; [apply mr_start; [exact sample_restored|by vm_compute]|]|];
    (split; [split; vm_compute; split; discriminate|]; split; [left; vm_compute; reflexivity|];
     unfold UInt64.in_range; split_and!; vm_compute; discriminate).
Qed.

Lemma usage_not_lost_witness :
  covered ∅ (mt_Queue (Flush (H := eval_runtime) (H0 := eval_sha256) (H1 := eval_signer) (mr_meter sample_run) (base + 3) None).1)
    sample_counter 120.
Proof.
  change 120%Z with (counted_bytes (mr_counted sample_run) sample_counter).
  refine (proj2 (proj2 (usage_not_lost (H := eval_runtime) (H0 := eval_sha256) (H1 := eval_signer) sample_used sample_digests sample_run
    sample_run_reach sample_counter _)) (base + 3)%Z None _ _).
  - discriminate.
  - split; [vm_compute; discriminate|]. intros r Hr. vm_compute in Hr.
    apply elem_of_cons in Hr as [->|Hr]; [|apply list_elem_of_singleton in Hr as ->]; vm_compute; auto.
  - vm_compute. reflexivity.
Defined.

(** The clock is read separately for the epoch and for pruning.  When a Record straddles a window boundary, it can prune
    an old, delivered counter and start it again under the epoch it had read before: the counter then holds less than
    the server has acknowledged, and the bytes recorded are not reported as growth. *)
Definition straddling_ops : list MeterOp :=
  [sample_record (base + 1) 100; MRecord (at_time (base + 1)) "env" "other" 1 7 0 "auth"; MFlush (base + 2) None;
   MAck (meterOperationID (H0 := eval_sha256) (H1 := eval_signer) (mkKey "auth" "edge" (Epoch sample_counter) "env" "route" "ingress" 1) 100);
   MAck (meterOperationID (H0 := eval_sha256) (H1 := eval_signer) (mkKey "auth" "edge" (Epoch sample_counter) "env" "other" "ingress" 1) 7);
   MRecord (mkReadings (base + DeliveryWindow - 1) (base + DeliveryWindow + 2) (base + DeliveryWindow + 3)
     (base + DeliveryWindow + 4)) "env" "route" 1 30 5 "auth"].

Lemma straddling_record_restarts :
  let s := foldl eval_step (mkMeterRun sample_meter ∅ ∅ base) straddling_ops in
  counted_bytes (mr_counted s) sample_counter = 130%Z ∧ acked_bytes (mr_acked s) sample_counter = 100%Z ∧
  Get (mt_Counters (mr_meter s)) sample_counter = 30%Z.
Proof. vm_compute. done. Qed.
