(* ===== verification/GoNet.v ===== *)
(** * The parts of strings, unicode/utf8 and net the route packages use

    golang.org/x/net/idna is not part of the repository: [IDNA] is a parameter. *)
From S2P Require Import Prelude GoStd.

Module str.

Fixpoint rev_app (s acc : string) : string :=
  match s with EmptyString => acc | String c s' => rev_app s' (String c acc) end.
Definition rev (s : string) : string := rev_app s EmptyString.

(** strings.HasSuffix, TrimSuffix and CutSuffix: the same at the other end. *)
Definition strip_suffix (s p : string) : option string := rev <$> strings.strip_prefix (rev p) (rev s).
Definition HasSuffix (s p : string) : bool := match strip_suffix s p with Some _ => true | None => false end.
Definition TrimSuffix (s p : string) : string := default s (strip_suffix s p).
Definition CutSuffix (s p : string) : string * bool :=
  match strip_suffix s p with Some r => (r, true) | None => (s, false) end.

(** The bytes of a string. *)
Fixpoint bytes (s : string) : list ascii :=
  match s with EmptyString => [] | String c s' => c :: bytes s' end.

(** strings.ContainsAny(s, chars) for ASCII characters. *)
Definition ContainsAny (s : string) (chars : list N) : bool :=
  existsb (λ c, existsb (N.eqb (N_of_ascii c)) chars) (bytes s).

(** strings.Count(s, c) and strings.Split(s, c) for a one-byte separator. *)
Fixpoint Count (s : string) (c : ascii) : Z :=
  match s with EmptyString => 0 | String d s' => (if Ascii.eqb d c then 1 else 0) + Count s' c end%Z.

Fixpoint Split (s : string) (c : ascii) : list string :=
  match s with
  | EmptyString => [EmptyString]
  | String d s' =>
      if Ascii.eqb d c then EmptyString :: Split s' c
      else match Split s' c with
           | [] => [String d EmptyString]
           | a :: l => String d a :: l
           end
  end.

(** The encodings of the runes unicode.IsSpace accepts. *)
Definition of_bytes (l : list N) : string := foldr (λ n s, String (ascii_of_N n) s) EmptyString l.

Definition spaces : list string := of_bytes <$>
  ([[9]; [10]; [11]; [12]; [13]; [32]; [194; 133]; [194; 160]; [225; 154; 128]]
   ++ ((λ n, [226; 128; n]) <$> [128; 129; 130; 131; 132; 133; 134; 135; 136; 137; 138; 168; 169; 175])
   ++ [[226; 129; 159]; [227; 128; 128]])%N.

(** Leading patterns are dropped as long as there are any. *)
Fixpoint drop_any (fuel : nat) (pats : list string) (s : string) : string :=
  match fuel with
  | O => s
  | S fuel' =>
      match head (omap (λ p, strings.strip_prefix p s) pats) with
      | Some s' => drop_any fuel' pats s'
      | None => s
      end
  end.

(** strings.TrimSpace; every step drops a byte, so the length is enough fuel. *)
Definition TrimSpace (s : string) : string :=
  let s := drop_any (String.length s) spaces s in
  rev (drop_any (String.length s) (rev <$> spaces) (rev s)).

Lemma rev_app_app s acc : rev_app s acc = rev s +:+ acc.
Proof.
  unfold rev. revert acc; induction s as [|c s IH]; intros acc; simpl; [done|].
  rewrite IH, (IH (String c "")), strings.app_assoc_str. done.
Qed.

Lemma rev_cons c s : rev (String c s) = rev s +:+ String c EmptyString.
Proof. unfold rev. simpl. by rewrite rev_app_app. Qed.

Lemma str_rev_app a b : rev (a +:+ b) = rev b +:+ rev a.
Proof.
  induction a as [|c a IH]; simpl; [by rewrite strings.app_empty_r|].
  by rewrite !rev_cons, IH, strings.app_assoc_str.
Qed.

Lemma str_rev_involutive s : rev (rev s) = s.
Proof. induction s as [|c s IH]; [done|]. by rewrite rev_cons, str_rev_app, IH. Qed.

Lemma strip_suffix_Some s p r : strip_suffix s p = Some r ↔ s = r +:+ p.
Proof.
  unfold strip_suffix. destruct (strings.strip_prefix (rev p) (rev s)) as [x|] eqn:E; simpl.
  - apply strings.strip_prefix_Some in E. apply (f_equal rev) in E.
    rewrite str_rev_app, !str_rev_involutive in E. split; [by intros [= <-]|]. intros ->. f_equal.
    assert (Hl : rev x +:+ p = r +:+ p) by done. apply (f_equal rev) in Hl. rewrite !str_rev_app in Hl.
    apply strings.app_inj_l in Hl. apply (f_equal rev) in Hl. by rewrite !str_rev_involutive in Hl.
  - split; [done|]. intros ->. by rewrite str_rev_app, strings.strip_prefix_app in E.
Qed.

Lemma HasSuffix_true s p : HasSuffix s p = true ↔ ∃ r, s = r +:+ p.
Proof.
  unfold HasSuffix. destruct (strip_suffix s p) as [r|] eqn:E.
  - apply strip_suffix_Some in E. split; eauto.
  - split; [done|]. intros [r Hr]. apply strip_suffix_Some in Hr. congruence.
Qed.

Lemma TrimSuffix_app r p : TrimSuffix (r +:+ p) p = r.
Proof. unfold TrimSuffix. by rewrite (proj2 (strip_suffix_Some _ p r)). Qed.

Lemma str_length_app a b : String.length (a +:+ b) = (String.length a + String.length b)%nat.
Proof. induction a; simpl; [done|]. by f_equal. Qed.

(** A string does not contain a byte exactly when it is free of it. *)
Lemma Contains_char s c : strings.Contains s (String c EmptyString) = negb (strings.free_of c s).
Proof.
  unfold strings.Contains. destruct (strings.cut s _) eqn:E.
  - destruct (strings.free_of c s) eqn:Ef; [|done]. apply strings.cut_char_None in Ef. congruence.
  - apply strings.cut_char_None in E. by rewrite E.
Qed.
End str.

(** ** unicode/utf8 *)
Module utf8.

Definition cont (lo hi : N) (c : ascii) : bool := ((lo <=? N_of_ascii c) && (N_of_ascii c <=? hi))%N.

(** utf8.ValidString, over the bytes; each step takes one rune. *)
Fixpoint valid (fuel : nat) (l : list ascii) : bool :=
  match fuel, l with
  | _, [] => true
  | O, _ => false
  | S fuel', a :: l1 =>
      let n := N_of_ascii a in
      if (n <? 128)%N then valid fuel' l1
      else if ((194 <=? n) && (n <=? 223))%N then
        match l1 with b :: l2 => cont 128 191 b && valid fuel' l2 | _ => false end
      else if ((224 <=? n) && (n <=? 239))%N then
        match l1 with
        | b :: c :: l2 =>
            cont (if (n =? 224)%N then 160 else 128) (if (n =? 237)%N then 159 else 191) b && cont 128 191 c && valid fuel' l2
        | _ => false
        end
      else if ((240 <=? n) && (n <=? 244))%N then
        match l1 with
        | b :: c :: d :: l2 =>
            cont (if (n =? 240)%N then 144 else 128) (if (n =? 244)%N then 143 else 191) b
            && cont 128 191 c && cont 128 191 d && valid fuel' l2
        | _ => false
        end
      else false
  end.

Definition ValidString (s : string) : bool := valid (String.length s) (str.bytes s).
End utf8.

(** ** net *)
Module net.

(** One field of an IPv4 address: a number up to 255 without leading zeros. *)
Definition ipv4_field (s : string) : bool :=
  match strconv.unsigned s with
  | Some n => ((n <=? 255)%Z && (String.length s <=? 3)%nat && (String.eqb s "0" || negb (strings.HasPrefix s "0")))%bool
  | None => false
  end.

Definition parseIPv4 (s : string) : bool :=
  let fields := str.Split s "." in (length fields =? 4)%nat && forallb ipv4_field fields.

Fixpoint hex_prefix (s : string) : nat :=
  match s with
  | String c s' =>
      let n := N_of_ascii (strings.lower_byte c) in
      if (((48 <=? n) && (n <=? 57)) || ((97 <=? n) && (n <=? 102)))%N then S (hex_prefix s') else O
  | EmptyString => O
  end.

Definition drop (n : nat) (s : string) : string := String.substring n (String.length s - n) s.

(** The loop of parseIPv6 over the 16-bit fields: [i] bytes are filled, [ellipsis] tells whether a
    double colon was seen.  Eight fields are the most, so eight rounds of fuel are enough. *)
Fixpoint ipv6_fields (fuel : nat) (i : nat) (ellipsis : bool) (s : string) : bool :=
  let finish i ellipsis s := String.eqb s "" && (if (i <? 16)%nat then ellipsis else negb ellipsis) in
  match fuel with
  | O => finish i ellipsis s
  | S fuel' =>
      if negb (i <? 16)%nat then finish i ellipsis s
      else
        let off := hex_prefix s in
        if (4 <? off)%nat || (off =? 0)%nat then false
        else
          let rest := drop off s in
          if strings.HasPrefix rest "." then
            if negb ellipsis && negb (i =? 12)%nat || (16 <? i + 4)%nat then false
            else parseIPv4 s && finish (i + 4)%nat ellipsis ""
          else
            let i := (i + 2)%nat in
            match rest with
            | EmptyString => finish i ellipsis ""
            | String c rest' =>
                if negb (Ascii.eqb c ":") || String.eqb rest' "" then false
                else match rest' with
                     | String ":" rest'' =>
                         if ellipsis then false
                         else if String.eqb rest'' "" then finish i true "" else ipv6_fields fuel' i true rest''
                     | _ => ipv6_fields fuel' i ellipsis rest'
                     end
            end
  end.

(** parseIPv6 without a zone: net.ParseIP refuses zones. *)
Definition parseIPv6 (s : string) : bool :=
  if strings.Contains s "%" then false
  else match s with
       | String ":" (String ":" s') => String.eqb s' "" || ipv6_fields 8 0 true s'
       | _ => ipv6_fields 8 0 false s
       end.

(** The first of the bytes that tell the kinds of address apart. *)
Fixpoint first_special (s : string) : option ascii :=
  match s with
  | EmptyString => None
  | String c s' => if Ascii.eqb c "." || Ascii.eqb c ":" || Ascii.eqb c "%" then Some c else first_special s'
  end.

(** net.ParseIP(s) != nil *)
Definition ParseIP (s : string) : bool :=
  match first_special s with
  | Some c => if Ascii.eqb c "." then parseIPv4 s else if Ascii.eqb c ":" then parseIPv6 s else false
  | None => false
  end.

(** The text before and after the last occurrence of a byte. *)
Definition last_cut (s : string) (c : ascii) : option (string * string) :=
  match strings.cut (str.rev s) (String c EmptyString) with
  | Some (b, a) => Some (str.rev a, str.rev b)
  | None => None
  end.

(** net.SplitHostPort: [None] is an error. *)
Definition SplitHostPort (hostport : string) : option (string * string) :=
  match last_cut hostport ":" with
  | None => None
  | Some (before, port) =>
      match hostport with
      | String "[" inner =>
          match strings.cut inner "]" with
          | None => None
          | Some (host, after) =>
              if String.eqb after (":" +:+ port) then
                if strings.Contains inner "[" || strings.Contains after "]" then None else Some (host, port)
              else None
          end
      | _ =>
          if strings.Contains before ":" || strings.Contains hostport "[" || strings.Contains hostport "]" then None
          else Some (before, port)
      end
  end.
End net.

(** golang.org/x/net/idna: idna.Lookup.ToASCII, [None] when it fails. *)
Class IDNA := { ToASCII : string → option string }.

(** For evaluation: names that are ASCII already. *)
Definition eval_idna : IDNA := {| ToASCII s := if strings.is_ascii s then Some (strings.ascii_lower s) else None |}.

(** The models on documented examples. *)
Example ParseIP_examples :
  (net.ParseIP <$> ["192.0.2.1"; "192.0.2.01"; "256.1.1.1"; "1.2.3"; "2001:db8::68"; "::ffff:192.0.2.1"; "::"; "::1"; "1::2::3";
                    "fe80::1%eth0"; "example.com"; "1:2:3:4:5:6:7:8"; "1:2:3:4:5:6:7:8:9"; "1:2:3:4:5:6:7::"; "12345::"]) =
  [true; false; false; false; true; true; true; true; false; false; false; true; false; true; false].
Proof. vm_compute. reflexivity. Qed.

Example SplitHostPort_examples :
  (net.SplitHostPort <$> ["example.com:443"; "[::1]:80"; "example.com"; "::1"; "[::1]"; "a:"; "[a]b:80"]) =
  [Some ("example.com", "443"); Some ("::1", "80"); None; None; None; Some ("a", ""); None].
Proof. vm_compute. reflexivity. Qed.

Example TrimSpace_example : str.TrimSpace (String "009" (" a b " +:+ str.of_bytes [226; 128; 138]%N)) = "a b".
Proof. vm_compute. reflexivity. Qed.
