(* ===== verification/RouteRule.v ===== *)
(** * Routes of the edge: the data of tunnel/internal/route and the normal form of a rule

    route.go (Attachment, host names), matcher.go (RouteRule, normalizeRule) and matching_rules.go
    (normalizeMatchHost, normalizeRequestPath, attachmentToRule). *)
From S2P Require Import Prelude GoStd GoNet.

(** Kinds are strings, as in the code. *)
Abbreviation Kind := string.
Definition HelperHTTPSWSS : Kind := "runtime_https_wss".
Definition PreviewHTTPSWSS : Kind := "preview_public_https_wss".
Definition TunnelHTTPSWSS : Kind := "tunnel_http_wss".
Definition TunnelTCP : Kind := "tunnel_tcp".
Definition TunnelTLS : Kind := "tunnel_tls".
Definition TunnelPrivateTCP : Kind := "tunnel_private_tcp".

Definition MatchExact := "exact".
Definition MatchManagedExact := "managed_exact".
Definition MatchOneLabelWildcard := "one_label_wildcard".
Definition MatchCatchAll := "catch_all".

Inductive RouteError :=
  | ErrConflict | ErrInvalid | ErrStale
  | ErrNoMatch | ErrMatchConflict | ErrGenerationStale | ErrGenerationNotReady | ErrGenerationConflict
  | ErrGenerationClosed | ErrDrainTimeout | ErrStreamOverloaded | ErrContext | ErrReady.

Record Attachment := mkAttachment {
  at_ID : string;
  at_Revision : Z;
  at_Environment : string;
  at_Node : string;
  at_Generation : Z;
  at_ConfigGeneration : Z;
  at_Kind : Kind;
  at_Host : string;
  at_Target : string;
  at_MatchType : string;
  at_WildcardSuffix : string;
  at_PathPrefix : string;
  at_Priority : Z;
  at_Protocol : string;
  at_OriginScheme : string;
  at_PreserveHost : bool;
  at_HostOverride : string;
  at_DesiredState : string;
  at_PreviewState : string;
  at_PreviewReason : string;
}.

#[export] Instance Attachment_eq_dec : EqDecision Attachment.
Proof. solve_decision. Defined.

Record RouteRule := mkRouteRule {
  rr_ID : string;
  rr_Revision : Z;
  rr_Generation : Z;
  rr_RouteID : string;
  rr_RouteGeneration : Z;
  rr_AssignmentID : string;
  rr_AssignmentGeneration : Z;
  rr_ResourceKind : string;
  rr_SessionGeneration : Z;
  rr_Environment : string;
  rr_AccountID : string;
  rr_HostID : string;
  rr_MachineIdentityPublicKey : string;
  rr_MachineIdentityThumbprint : string;
  rr_TunnelID : string;
  rr_ResourceID : string;
  rr_ConnectorID : string;
  rr_ConnectorSessionID : string;
  rr_ConnectorProcessGeneration : Z;
  rr_ConfigGeneration : Z;
  rr_ConfigContentHash : string;
  rr_ViewerPolicyGeneration : Z;
  rr_Node : string;
  rr_EdgeProcessEpoch : string;
  rr_EdgeFailureDomain : string;
  rr_Kind : Kind;
  rr_MatchType : string;
  rr_Hostname : string;
  rr_WildcardSuffix : string;
  rr_PathPrefix : string;
  rr_Priority : Z;
  rr_Target : string;
  rr_Protocol : string;
  rr_PublicTCPListenerID : string;
  rr_PublicTCPPort : Z;
  rr_OriginScheme : string;
  rr_AccessMode : string;
  rr_PreserveHost : bool;
  rr_HostOverride : string;
  rr_DesiredState : string;
  rr_ObservedState : string;
  rr_Reason : string;
}.

#[export] Instance RouteRule_eq_dec : EqDecision RouteRule.
Proof. solve_decision. Defined.

Record RouteMatch := mkRouteMatch { rm_Rule : RouteRule; rm_Host : string; rm_Path : string; rm_Generation : Z }.

Record RouteIdentity := mkRouteIdentity { ri_AccountID : string; ri_TunnelID : string; ri_RouteID : string }.

(** A rule with other values in the fields normalizeRule sets. *)
Definition with_normal (r : RouteRule) (Generation : Z) (MatchType Hostname WildcardSuffix PathPrefix OriginScheme DesiredState : string) : RouteRule :=
    mkRouteRule (rr_ID r) (rr_Revision r) Generation (rr_RouteID r) (rr_RouteGeneration r) (rr_AssignmentID r)
    (rr_AssignmentGeneration r) (rr_ResourceKind r) (rr_SessionGeneration r) (rr_Environment r) (rr_AccountID r)
    (rr_HostID r) (rr_MachineIdentityPublicKey r) (rr_MachineIdentityThumbprint r) (rr_TunnelID r) (rr_ResourceID r)
    (rr_ConnectorID r) (rr_ConnectorSessionID r) (rr_ConnectorProcessGeneration r) (rr_ConfigGeneration r)
    (rr_ConfigContentHash r) (rr_ViewerPolicyGeneration r) (rr_Node r) (rr_EdgeProcessEpoch r) (rr_EdgeFailureDomain
    r) (rr_Kind r) MatchType Hostname WildcardSuffix PathPrefix (rr_Priority r) (rr_Target r) (rr_Protocol r)
    (rr_PublicTCPListenerID r) (rr_PublicTCPPort r) OriginScheme (rr_AccessMode r) (rr_PreserveHost r)
    (rr_HostOverride r) DesiredState (rr_ObservedState r) (rr_Reason r).

(** An attachment with another host, and without its preview state. *)
Definition with_host (a : Attachment) (Host : string) : Attachment :=
    mkAttachment (at_ID a) (at_Revision a) (at_Environment a) (at_Node a) (at_Generation a) (at_ConfigGeneration a)
    (at_Kind a) Host (at_Target a) (at_MatchType a) (at_WildcardSuffix a) (at_PathPrefix a) (at_Priority a)
    (at_Protocol a) (at_OriginScheme a) (at_PreserveHost a) (at_HostOverride a) (at_DesiredState a) (at_PreviewState
    a) (at_PreviewReason a).

Definition without_preview (a : Attachment) : Attachment :=
    mkAttachment (at_ID a) (at_Revision a) (at_Environment a) (at_Node a) (at_Generation a) (at_ConfigGeneration a)
    (at_Kind a) (at_Host a) (at_Target a) (at_MatchType a) (at_WildcardSuffix a) (at_PathPrefix a) (at_Priority a)
    (at_Protocol a) (at_OriginScheme a) (at_PreserveHost a) (at_HostOverride a) (at_DesiredState a) "" "".

Section rules.
Context `{GoRuntime} `{IDNA}.

Definition normalizeHost (host : string) : string := ToLower (str.TrimSuffix (str.TrimSpace host) ".").

(** The loop over the labels of a name, on bytes: a rune that is not ASCII is refused in either view. *)
Definition label_char (c : ascii) : bool :=
  let n := N_of_ascii c in
  ((n =? 45) || (97 <=? n) && (n <=? 122) || (48 <=? n) && (n <=? 57))%N.

Definition label_ends_ok (label : string) : bool :=
  negb (String.eqb label "" || (63 <? String.length label)%nat || strings.HasPrefix label "-" || str.HasSuffix label "-").

Definition ValidTunnelHostname (host : string) : bool :=
  if String.eqb host "" || negb (String.eqb host (normalizeHost host)) || (253 <? String.length host)%nat || net.ParseIP host
  then false
  else
    let labels := str.Split host "." in
    if (length labels <? 2)%nat then false
    else forallb (λ label, label_ends_ok label && forallb label_char (str.bytes label)) labels.

(** The host is one label directly below the domain. *)
Definition one_label_below (host domain : string) : bool :=
  let '(prefix, matches) := str.CutSuffix host ("." +:+ domain) in
  matches && negb (String.eqb prefix "") && negb (strings.Contains prefix ".").

Definition ValidManagedTunnelHostname (host baseDomain : string) : bool :=
  let baseDomain := normalizeHost baseDomain in
  if negb (ValidTunnelHostname host) || String.eqb baseDomain "" then false
  else one_label_below host baseDomain.

Definition cr_lf_nul : list N := [13; 10; 0]%N.

(** normalizeMatchHost *)
Definition normalizeMatchHost (host : string) : RouteError + string :=
  let host := str.TrimSpace host in
  if String.eqb host "" || str.ContainsAny host (cr_lf_nul ++ [32; 47; 63]%N) then inl ErrInvalid
  else
    match (match net.SplitHostPort host with
           | Some (parsed, _) => Some parsed
           | None => if (0 <? str.Count host ":")%Z then None else Some host
           end) with
    | None => inl ErrInvalid
    | Some host =>
        let host := str.TrimSuffix host "." in
        if String.eqb host "" || net.ParseIP host then inl ErrInvalid
        else if negb (utf8.ValidString host) then inl ErrInvalid
        else match ToASCII host with
             | None => inl ErrInvalid
             | Some a =>
                 if String.eqb a "" || (253 <? String.length a)%nat || strings.Contains a ".." then inl ErrInvalid
                 else if negb (forallb label_ends_ok (str.Split a ".")) then inl ErrInvalid
                 else inr (ToLower a)
             end
    end.

(** normalizeRequestPath *)
Definition normalizeRequestPath (requestPath : string) : RouteError + string :=
  if String.eqb requestPath "" then inr "/"
  else if negb (strings.HasPrefix requestPath "/") || str.ContainsAny requestPath (cr_lf_nul ++ [63; 35]%N)
          || strings.Contains requestPath "//" then inl ErrInvalid
  else if existsb (λ segment, String.eqb segment "." || String.eqb segment "..") (str.Split requestPath "/") then inl ErrInvalid
  else inr (if (1 <? String.length requestPath)%nat then str.TrimSuffix requestPath "/" else requestPath).

(** The host part of normalizeRule: the Hostname and WildcardSuffix of the result, for a match type. *)
Definition normalize_hosts (rule : RouteRule) (matchType : string) : RouteError + (string * string) :=
  if String.eqb matchType MatchExact || String.eqb matchType MatchManagedExact then
    if String.eqb (rr_Hostname rule) "" && negb (String.eqb (rr_WildcardSuffix rule) "") then inl ErrInvalid
    else if strings.Contains (rr_Hostname rule) "*" || strings.Contains (rr_WildcardSuffix rule) "*" then inl ErrInvalid
    else match normalizeMatchHost (rr_Hostname rule) with
         | inl _ => inl ErrInvalid
         | inr host =>
             if String.eqb host "" || net.ParseIP host then inl ErrInvalid
             else if String.eqb matchType MatchManagedExact && String.eqb (rr_Kind rule) TunnelHTTPSWSS
                     && negb (ValidTunnelHostname host) then inl ErrInvalid
             else inr (host, "")
         end
  else if String.eqb matchType MatchOneLabelWildcard then
    let suffix :=
      if String.eqb (rr_WildcardSuffix rule) "" && strings.HasPrefix (rr_Hostname rule) "*."
      then strings.TrimPrefix (rr_Hostname rule) "*." else rr_WildcardSuffix rule in
    if String.eqb suffix "" || strings.Contains suffix "*" then inl ErrInvalid
    else match normalizeMatchHost suffix with
         | inl _ => inl ErrInvalid
         | inr suffix =>
             if String.eqb suffix "" || net.ParseIP suffix || negb (strings.Contains suffix ".") then inl ErrInvalid
             else inr ("", suffix)
         end
  else if String.eqb matchType MatchCatchAll then
    if negb (String.eqb (rr_WildcardSuffix rule) "") || strings.Contains (rr_Hostname rule) "*" then inl ErrInvalid
    else if String.eqb (rr_Hostname rule) "" then inr ("", rr_WildcardSuffix rule)
    else match normalizeMatchHost (rr_Hostname rule) with
         | inl _ => inl ErrInvalid
         | inr host => inr (host, rr_WildcardSuffix rule)
         end
  else inl ErrInvalid.

Definition desired_states : list string :=
  ["active"; "ready"; "degraded"; "offline"; "registering"; "disabled"; "deleted"; "expired"; "removed"].

Definition in_list (s : string) (l : list string) : bool := existsb (String.eqb s) l.

(** The target of a rule in normal form. *)
Definition target_valid (rule : RouteRule) : bool :=
  if String.eqb (rr_Target rule) "" || str.ContainsAny (rr_Target rule) cr_lf_nul then false
  else if String.eqb (rr_Kind rule) TunnelHTTPSWSS then negb (str.ContainsAny (rr_Target rule) [32; 9; 63; 35]%N)
  else if String.eqb (rr_OriginScheme rule) "unix"
       then strings.HasPrefix (rr_Target rule) "/" && negb (str.ContainsAny (rr_Target rule) [63; 35]%N)
  else if negb (String.eqb (rr_OriginScheme rule) "")
       then match net.SplitHostPort (rr_Target rule) with Some _ => true | None => false end
  else true.

Definition normalizeRule (generation : Z) (rule : RouteRule) : RouteError + RouteRule :=
  if String.eqb (rr_ID rule) "" || str.ContainsAny (rr_ID rule) cr_lf_nul then inl ErrInvalid
  else
    let gen := if (rr_Generation rule =? 0)%Z then generation else rr_Generation rule in
    if negb (gen =? generation)%Z then inl ErrInvalid
    else if negb (in_list (rr_Kind rule) [HelperHTTPSWSS; PreviewHTTPSWSS; TunnelHTTPSWSS]) then inl ErrInvalid
    else
      let matchType := ToLower (str.TrimSpace (rr_MatchType rule)) in
      let matchType := if String.eqb matchType "" then MatchExact else matchType in
      match normalize_hosts rule matchType with
      | inl e => inl e
      | inr (hostname, suffix) =>
          match normalizeRequestPath (rr_PathPrefix rule) with
          | inl _ => inl ErrInvalid
          | inr pathPrefix =>
              let desired := if String.eqb (rr_DesiredState rule) "" then "active" else rr_DesiredState rule in
              if negb (in_list desired desired_states) then inl ErrInvalid
              else if negb (String.eqb (rr_HostOverride rule) "")
                      && str.ContainsAny (rr_HostOverride rule) (cr_lf_nul ++ [47; 63; 35; 32; 9]%N) then inl ErrInvalid
              else
                let scheme := if String.eqb (rr_OriginScheme rule) "" then "" else ToLower (rr_OriginScheme rule) in
                if negb (String.eqb (rr_OriginScheme rule) "") && negb (in_list scheme ["http"; "https"; "h2c"; "unix"])
                then inl ErrInvalid
                else
                  let normalized := with_normal rule gen matchType hostname suffix pathPrefix scheme desired in
                  if target_valid normalized then inr normalized else inl ErrInvalid
          end
      end.

(** attachmentToRule; an attachment has none of the assignment fields of a rule. *)
Definition attachmentToRule (a : Attachment) : RouteRule :=
  let generation := if (at_ConfigGeneration a =? 0)%Z then at_Generation a else at_ConfigGeneration a in
  let matchType := if String.eqb (at_MatchType a) "" then MatchExact else at_MatchType a in
  let wildcard := String.eqb matchType MatchOneLabelWildcard && String.eqb (at_WildcardSuffix a) "" in
  let wildcardSuffix := if wildcard then strings.TrimPrefix (at_Host a) "*." else at_WildcardSuffix a in
  let hostname := if wildcard then "" else at_Host a in
    mkRouteRule (at_ID a) (at_Revision a) (generation) "" 0 "" 0 "" 0 (at_Environment a) "" "" "" "" "" "" "" "" 0 0
    "" 0 (at_Node a) "" "" (at_Kind a) (matchType) (hostname) (wildcardSuffix) (at_PathPrefix a) (at_Priority a)
    (at_Target a) (at_Protocol a) "" 0 (at_OriginScheme a) "" (at_PreserveHost a) (at_HostOverride a)
    (at_DesiredState a) (at_PreviewState a) (at_PreviewReason a).

Definition sameRoute (a b : Attachment) : bool := bool_decide (without_preview a = without_preview b).

End rules.

(** A rule with few fields set, the others at their zero values. *)
Definition basic_rule (ID Kind MatchType Hostname WildcardSuffix PathPrefix Target : string) : RouteRule :=
    mkRouteRule ID 0 0 "" 0 "" 0 "" 0 "" "" "" "" "" "" "" "" "" 0 0 "" 0 "" "" "" Kind MatchType Hostname
    WildcardSuffix PathPrefix 0 Target "" "" 0 "" "" false "" "" "" "".
