(* ===== verification/Matching.v ===== *)
(** * Choosing a rule for a request: tunnel/internal/route/matching_rules.go, and the overlap
      check of a generation, normalizeRules of matcher.go

    A request is served by the most specific rule that matches it: by the kind of host match, the
    labels of a wildcard, the length of the path prefix and the priority. *)
From S2P Require Import Prelude GoStd GoNet RouteRule.

Record routeCandidate := mkCandidate { rc_rule : RouteRule; hostClass : Z; suffixLabels : Z }.

Definition routeAccepting (rule : RouteRule) : bool :=
  negb (in_list (rr_DesiredState rule) ["disabled"; "deleted"; "expired"; "removed"]).

(** hostMatch: the class of the match, the labels of the suffix, and whether the host matches. *)
Definition hostMatch (rule : RouteRule) (host : string) : Z * Z * bool :=
  let t := rr_MatchType rule in
  if String.eqb t MatchExact || String.eqb t MatchManagedExact then (3, 0, String.eqb host (rr_Hostname rule))%Z
  else if String.eqb t MatchOneLabelWildcard then
    let suffix := "." +:+ rr_WildcardSuffix rule in
    if String.eqb host (rr_WildcardSuffix rule) || negb (str.HasSuffix host suffix) then (0, 0, false)%Z
    else
      let prefix := str.TrimSuffix host suffix in
      if String.eqb prefix "" || strings.Contains prefix "." then (0, 0, false)%Z
      else (2, str.Count (rr_WildcardSuffix rule) "." + 1, true)%Z
  else if String.eqb t MatchCatchAll then
    if negb (String.eqb (rr_Hostname rule) "") then (3, 0, String.eqb (rr_Hostname rule) host)%Z else (1, 0, true)%Z
  else (0, 0, false)%Z.

Definition pathMatches (prefix requestPath : string) : bool :=
  if String.eqb prefix "/" then true
  else String.eqb requestPath prefix || strings.HasPrefix requestPath (prefix +:+ "/").

Definition compareInt (left right : Z) : Z :=
  if (left <? right)%Z then (-1)%Z else if (right <? left)%Z then 1%Z else 0%Z.

Definition path_len (c : routeCandidate) : Z := Z.of_nat (String.length (rr_PathPrefix (rc_rule c))).

Definition compareCandidates (left right : routeCandidate) : Z :=
  if negb (hostClass left =? hostClass right)%Z then compareInt (hostClass left) (hostClass right)
  else if negb (suffixLabels left =? suffixLabels right)%Z then compareInt (suffixLabels left) (suffixLabels right)
  else if negb (path_len left =? path_len right)%Z then compareInt (path_len left) (path_len right)
  else if negb (rr_Priority (rc_rule left) =? rr_Priority (rc_rule right))%Z then
    if (rr_Priority (rc_rule left) <? rr_Priority (rc_rule right))%Z then 1%Z else (-1)%Z
  else 0%Z.

Definition compareHostCandidates (left right : routeCandidate) : Z :=
  if negb (hostClass left =? hostClass right)%Z then compareInt (hostClass left) (hostClass right)
  else if negb (suffixLabels left =? suffixLabels right)%Z then compareInt (suffixLabels left) (suffixLabels right)
  else if negb (rr_Priority (rc_rule left) =? rr_Priority (rc_rule right))%Z then
    if (rr_Priority (rc_rule left) <? rr_Priority (rc_rule right))%Z then 1%Z else (-1)%Z
  else 0%Z.

(** ** The index *)

Record ruleIndex := mkIndex { byHost : gmap string (list nat); bySuffix : gmap string (list nat); always : list nat }.

Definition lookup_list (m : gmap string (list nat)) (k : string) : list nat := default [] (m !! k).

(** One rule goes to one bucket, or to none. *)
Definition index_add (x : ruleIndex) (ir : nat * RouteRule) : ruleIndex :=
  let '(i, rule) := ir in
  let t := rr_MatchType rule in
  if String.eqb t MatchExact || String.eqb t MatchManagedExact
     || String.eqb t MatchCatchAll && negb (String.eqb (rr_Hostname rule) "")
  then mkIndex (<[rr_Hostname rule := lookup_list (byHost x) (rr_Hostname rule) ++ [i]]> (byHost x)) (bySuffix x) (always x)
  else if String.eqb t MatchOneLabelWildcard
  then mkIndex (byHost x) (<[rr_WildcardSuffix rule := lookup_list (bySuffix x) (rr_WildcardSuffix rule) ++ [i]]> (bySuffix x)) (always x)
  else if String.eqb t MatchCatchAll then mkIndex (byHost x) (bySuffix x) (always x ++ [i])
  else x.

Definition positions (rules : list RouteRule) : list (nat * RouteRule) := imap pair rules.

Definition newRuleIndex (rules : list RouteRule) : ruleIndex := foldl index_add (mkIndex ∅ ∅ []) (positions rules).

Definition candidates (x : ruleIndex) (host : string) : list nat :=
  let '(_, suffix, ok) := strings.Cut host "." in
  sort_by Nat.ltb (lookup_list (byHost x) host ++ (if ok : bool then lookup_list (bySuffix x) suffix else []) ++ always x).

(** ** The choice *)

(** The loop of chooseRuleFrom from the best candidate so far. *)
Fixpoint choose_loop (best : option routeCandidate) (order : list RouteRule) (host requestPath : string) : RouteError + RouteRule :=
  match order with
  | [] => match best with Some b => inr (rc_rule b) | None => inl ErrNoMatch end
  | rule :: order' =>
      if negb (routeAccepting rule) then choose_loop best order' host requestPath
      else
        let '(class, labels, ok) := hostMatch rule host in
        if negb ok || negb (pathMatches (rr_PathPrefix rule) requestPath) then choose_loop best order' host requestPath
        else
          let candidate := mkCandidate rule class labels in
          match best with
          | None => choose_loop (Some candidate) order' host requestPath
          | Some b =>
              let comparison := compareCandidates candidate b in
              if (0 <? comparison)%Z then choose_loop (Some candidate) order' host requestPath
              else if (comparison =? 0)%Z then inl ErrMatchConflict
              else choose_loop best order' host requestPath
          end
  end.

(** Every position of an index of [rules] is a position of [rules]. *)
Definition chooseRuleFrom (rules : list RouteRule) (index : option ruleIndex) (host requestPath : string) : RouteError + RouteRule :=
  let order := match index with
               | None => rules
               | Some x => omap (λ i, rules !! i) (candidates x host)
               end in
  choose_loop None order host requestPath.

Definition chooseRule (rules : list RouteRule) (host requestPath : string) : RouteError + RouteRule :=
  chooseRuleFrom rules None host requestPath.

Definition choose_host_step (host : string) (best : option routeCandidate) (rule : RouteRule) : option routeCandidate :=
  if negb (routeAccepting rule) then best
  else
    let '(class, labels, ok) := hostMatch rule host in
    if negb ok then best
    else
      let candidate := mkCandidate rule class labels in
      match best with
      | None => Some candidate
      | Some b => if (0 <? compareHostCandidates candidate b)%Z then Some candidate else best
      end.

Definition chooseHostRule (rules : list RouteRule) (host : string) : option RouteRule :=
  rc_rule <$> foldl (choose_host_step host) None rules.

Definition httpsHostnameMatch (rule : RouteRule) (host : string) : bool :=
  if negb (routeAccepting rule) || in_list (rr_Kind rule) [TunnelTCP; TunnelTLS; TunnelPrivateTCP] then false
  else if String.eqb (rr_MatchType rule) MatchCatchAll then String.eqb (rr_Hostname rule) host
  else snd (hostMatch rule host).

(** ** The overlap check *)

Definition isExactMatchType (t : string) : bool := String.eqb t MatchExact || String.eqb t MatchManagedExact.

Definition exactFallsUnderWildcard (host suffix : string) : bool :=
  if String.eqb host suffix || negb (str.HasSuffix host ("." +:+ suffix)) then false
  else negb (strings.Contains (str.TrimSuffix host ("." +:+ suffix)) ".").

Definition catchAllHostsOverlap (left right : RouteRule) : bool :=
  let swap := negb (String.eqb (rr_MatchType left) MatchCatchAll) in
  let l := if swap then right else left in
  let r := if swap then left else right in
  if String.eqb (rr_Hostname l) "" then true
  else if String.eqb (rr_MatchType r) MatchCatchAll
       then String.eqb (rr_Hostname r) "" || String.eqb (rr_Hostname r) (rr_Hostname l)
  else snd (hostMatch r (rr_Hostname l)).

Definition hostsOverlap (left right : RouteRule) : bool :=
  let tl := rr_MatchType left in let tr := rr_MatchType right in
  if String.eqb tl MatchCatchAll || String.eqb tr MatchCatchAll then catchAllHostsOverlap left right
  else if isExactMatchType tl && isExactMatchType tr then String.eqb (rr_Hostname left) (rr_Hostname right)
  else if String.eqb tl MatchOneLabelWildcard && String.eqb tr MatchOneLabelWildcard
       then String.eqb (rr_WildcardSuffix left) (rr_WildcardSuffix right)
  else if isExactMatchType tl && String.eqb tr MatchOneLabelWildcard
       then exactFallsUnderWildcard (rr_Hostname left) (rr_WildcardSuffix right)
  else if isExactMatchType tr && String.eqb tl MatchOneLabelWildcard
       then exactFallsUnderWildcard (rr_Hostname right) (rr_WildcardSuffix left)
  else false.

Definition rulesOverlap (left right : RouteRule) : bool :=
  if negb (hostsOverlap left right) then false
  else pathMatches (rr_PathPrefix left) (rr_PathPrefix right) || pathMatches (rr_PathPrefix right) (rr_PathPrefix left).

Definition overlapHost (rule : RouteRule) : string :=
  let t := rr_MatchType rule in
  if isExactMatchType t then rr_Hostname rule
  else if String.eqb t MatchOneLabelWildcard then "edge." +:+ rr_WildcardSuffix rule
  else if String.eqb t MatchCatchAll && negb (String.eqb (rr_Hostname rule) "") then rr_Hostname rule
  else "edge.example.test".

Definition overlap_candidate (rule : RouteRule) : routeCandidate :=
  let '(class, labels, _) := hostMatch rule (overlapHost rule) in mkCandidate rule class labels.

(** The body of the two nested loops of normalizeRules. *)
Definition ambiguous (left right : RouteRule) : bool :=
  rulesOverlap left right && (compareCandidates (overlap_candidate left) (overlap_candidate right) =? 0)%Z.

Fixpoint ambiguous_pair (rules : list RouteRule) : bool :=
  match rules with
  | [] => false
  | rule :: rest => existsb (ambiguous rule) rest || ambiguous_pair rest
  end.

Section normalize.
Context `{GoRuntime} `{IDNA}.

(** The first loop: normal forms, with distinct IDs. *)
Fixpoint normalize_loop (generation : Z) (seen : gset string) (rules : list RouteRule) : RouteError + list RouteRule :=
  match rules with
  | [] => inr []
  | rule :: rules' =>
      match normalizeRule generation rule with
      | inl e => inl e
      | inr normalized =>
          if decide (rr_ID normalized ∈ seen) then inl ErrMatchConflict
          else match normalize_loop generation ({[rr_ID normalized]} ∪ seen) rules' with
               | inl e => inl e
               | inr l => inr (normalized :: l)
               end
      end
  end.

Definition normalizeRules (generation : Z) (rules : list RouteRule) (maximum : Z) : RouteError + list RouteRule :=
  if (maximum <? Z.of_nat (length rules))%Z then inl ErrInvalid
  else match normalize_loop generation ∅ rules with
       | inl e => inl e
       | inr result =>
           let result := sort_by (λ a b, str_ltb (rr_ID a) (rr_ID b)) result in
           if ambiguous_pair result then inl ErrMatchConflict else inr result
       end.
End normalize.

(** ** What a rule matches *)

Definition matches (host requestPath : string) (rule : RouteRule) : bool :=
  routeAccepting rule && snd (hostMatch rule host) && pathMatches (rr_PathPrefix rule) requestPath.

Definition candidate_for (host : string) (rule : RouteRule) : routeCandidate :=
  let '(class, labels, _) := hostMatch rule host in mkCandidate rule class labels.

Definition beats (left right : routeCandidate) : Prop := compareCandidates left right = 1%Z.

(** The three ways a rule matches a host. *)
Inductive host_match (rule : RouteRule) (host : string) : Z → Z → Prop :=
  | hm_named : isExactMatchType (rr_MatchType rule) = true ∨ (rr_MatchType rule = MatchCatchAll ∧ rr_Hostname rule ≠ "") →
      host = rr_Hostname rule → host_match rule host 3 0
  | hm_wildcard label : rr_MatchType rule = MatchOneLabelWildcard → label ≠ "" → strings.free_of "." label = true →
      host = label +:+ "." +:+ rr_WildcardSuffix rule → host_match rule host 2 (str.Count (rr_WildcardSuffix rule) "." + 1)
  | hm_any : rr_MatchType rule = MatchCatchAll → rr_Hostname rule = "" → host_match rule host 1 0.

Lemma longer_ne a b : a ≠ "" → a +:+ b ≠ b.
Proof.
  intros Ha Heq. apply (f_equal String.length) in Heq. rewrite str.str_length_app in Heq. destruct a; [done|simpl in Heq; lia].
Qed.

Lemma wildcard_label host suffix :
  String.eqb host suffix || negb (str.HasSuffix host ("." +:+ suffix)) = false ∧
  String.eqb (str.TrimSuffix host ("." +:+ suffix)) "" || strings.Contains (str.TrimSuffix host ("." +:+ suffix)) "." = false ↔
  ∃ label, label ≠ "" ∧ strings.free_of "." label = true ∧ host = label +:+ "." +:+ suffix.
Proof.
  rewrite str.Contains_char. split.
  - intros [H1 H2]. to_prop. match goal with Hs : str.HasSuffix _ _ = true |- _ => apply str.HasSuffix_true in Hs as [label ->] end.
    rewrite str.TrimSuffix_app in *. exists label. split_and!; [done| |done]. by destruct (strings.free_of "." label).
  - intros (label & Hne & Hf & ->). rewrite str.TrimSuffix_app, Hf.
    rewrite (proj2 (str.HasSuffix_true _ _)) by (by exists label). rewrite (proj2 (String.eqb_neq label "")) by done.
    rewrite (proj2 (String.eqb_neq _ suffix)); [done|].
    rewrite <-strings.app_assoc_str. apply longer_ne. by destruct label.
Qed.

Lemma hostMatch_true rule host class labels :
  hostMatch rule host = (class, labels, true) ↔ host_match rule host class labels.
Proof.
  unfold hostMatch. split.
  - destruct (_ || _)%bool eqn:Ee.
    { intros [= <- <- Hh]. apply String.eqb_eq in Hh. apply hm_named; [by left|done]. }
    case_match eqn:Ew; [|case_match eqn:Ec; [|done]]; to_prop.
    + destruct (_ || _)%bool eqn:E1; [done|]. destruct (String.eqb (str.TrimSuffix _ _) "" || _)%bool eqn:E2; [done|].
      intros [= <- <-]. destruct (proj1 (wildcard_label host (rr_WildcardSuffix rule)) (conj E1 E2)) as (label & ? & ? & ?).
      by apply (hm_wildcard _ _ label).
    + case_match eqn:Eh; to_prop; [intros [= <- <- Hh]; to_prop; apply hm_named; auto|]. intros [= <- <-]. by apply hm_any.
  - destruct 1 as [[He|[He Hn]] ->|label He Hne Hf Hh|He Hn].
    + unfold isExactMatchType in He. by rewrite He, String.eqb_refl.
    + rewrite He. simpl. rewrite (proj2 (String.eqb_neq _ "")) by done. simpl. by rewrite String.eqb_refl.
    + rewrite He. destruct (proj2 (wildcard_label host (rr_WildcardSuffix rule))) as [E1 E2]; [by exists label|].
      cbn [String.eqb]. unfold MatchOneLabelWildcard, MatchExact, MatchManagedExact in *.
      change (String.eqb "one_label_wildcard" "exact" || String.eqb "one_label_wildcard" "managed_exact")%bool with false.
      rewrite String.eqb_refl. cbv iota zeta. by rewrite E1, E2.
    + rewrite He, Hn. done.
Qed.

(** ** The most specific rule *)

Lemma compareInt_cases l r :
  (compareInt l r = 1 ∧ r < l)%Z ∨ (compareInt l r = -1 ∧ l < r)%Z ∨ (compareInt l r = 0 ∧ l = r)%Z.
Proof. unfold compareInt. destruct (Z.ltb_spec l r), (Z.ltb_spec r l); lia. Qed.

(** The order as a lexicographic one. *)
Lemma compareCandidates_cases l r :
  let pl := rr_Priority (rc_rule l) in let pr := rr_Priority (rc_rule r) in
  let gt := (hostClass r < hostClass l ∨ hostClass l = hostClass r ∧ (suffixLabels r < suffixLabels l ∨
    suffixLabels l = suffixLabels r ∧ (path_len r < path_len l ∨ path_len l = path_len r ∧ pl < pr)))%Z in
  let eq := (hostClass l = hostClass r ∧ suffixLabels l = suffixLabels r ∧ path_len l = path_len r ∧ pl = pr)%Z in
  (compareCandidates l r = 1%Z ∧ gt) ∨ (compareCandidates l r = 0%Z ∧ eq) ∨ (compareCandidates l r = (-1)%Z ∧ ¬ gt ∧ ¬ eq).
Proof.
  cbv zeta. unfold compareCandidates.
  destruct (Z.eqb_spec (hostClass l) (hostClass r)) as [->|]; simpl;
    [|destruct (compareInt_cases (hostClass l) (hostClass r)) as [[-> ?]|[[-> ?]|[-> ?]]]; lia].
  destruct (Z.eqb_spec (suffixLabels l) (suffixLabels r)) as [->|]; simpl;
    [|destruct (compareInt_cases (suffixLabels l) (suffixLabels r)) as [[-> ?]|[[-> ?]|[-> ?]]]; lia].
  destruct (Z.eqb_spec (path_len l) (path_len r)) as [->|]; simpl;
    [|destruct (compareInt_cases (path_len l) (path_len r)) as [[-> ?]|[[-> ?]|[-> ?]]]; lia].
  destruct (Z.eqb_spec (rr_Priority (rc_rule l)) (rr_Priority (rc_rule r))) as [->|]; simpl; [lia|].
  destruct (Z.ltb_spec (rr_Priority (rc_rule l)) (rr_Priority (rc_rule r))); lia.
Qed.

Lemma beats_trans a b c : beats a b → beats b c → beats a c.
Proof.
  unfold beats. pose proof (compareCandidates_cases a b). pose proof (compareCandidates_cases b c).
  pose proof (compareCandidates_cases a c). cbv zeta in *. lia.
Qed.

Lemma beats_flip a b : compareCandidates a b = (-1)%Z → beats b a.
Proof.
  unfold beats. pose proof (compareCandidates_cases a b). pose proof (compareCandidates_cases b a). cbv zeta in *. lia.
Qed.

Lemma compare_range a b : compareCandidates a b = 1%Z ∨ compareCandidates a b = 0%Z ∨ compareCandidates a b = (-1)%Z.
Proof. pose proof (compareCandidates_cases a b). cbv zeta in *. lia. Qed.

Lemma rc_candidate_for host rule : rc_rule (candidate_for host rule) = rule.
Proof. unfold candidate_for. by destruct (hostMatch rule host) as [[? ?] ?]. Qed.

(** One round of the loop. *)
Lemma choose_loop_cons best rule order host path :
  choose_loop best (rule :: order) host path =
  if matches host path rule then
    match best with
    | None => choose_loop (Some (candidate_for host rule)) order host path
    | Some b => if (0 <? compareCandidates (candidate_for host rule) b)%Z then choose_loop (Some (candidate_for host rule)) order host path
                else if (compareCandidates (candidate_for host rule) b =? 0)%Z then inl ErrMatchConflict
                else choose_loop best order host path
    end
  else choose_loop best order host path.
Proof.
  unfold matches, candidate_for. cbn [choose_loop]. destruct (routeAccepting rule); [|done]. simpl.
  destruct (hostMatch rule host) as [[class labels] ok]. simpl. destruct ok; simpl; [|done].
  by destruct (pathMatches (rr_PathPrefix rule) path).
Qed.

(** The rules that do not match may be left out. *)
Lemma choose_loop_filter p best order host path :
  (∀ rule, matches host path rule = true → p rule = true) →
  choose_loop best (List.filter p order) host path = choose_loop best order host path.
Proof.
  intros Hp. revert best; induction order as [|rule order IH]; intros best; [done|].
  cbn [List.filter]. rewrite (choose_loop_cons best rule order).
  destruct (p rule) eqn:E.
  - rewrite choose_loop_cons. repeat case_match; auto.
  - destruct (matches host path rule) eqn:Em; [by rewrite Hp in E|]. apply IH.
Qed.

(** What the loop has found among the rules [before]: a best candidate that beats every other match. *)
Definition best_of (host path : string) (before : list RouteRule) (best : option routeCandidate) : Prop :=
  match best with
  | None => ∀ rule, rule ∈ before → matches host path rule = false
  | Some b => ∃ i, before !! i = Some (rc_rule b) ∧ matches host path (rc_rule b) = true ∧ b = candidate_for host (rc_rule b) ∧
      ∀ j rule, before !! j = Some rule → j ≠ i → matches host path rule = true → beats b (candidate_for host rule)
  end.

Definition tie (host path : string) (rules : list RouteRule) : Prop :=
  ∃ i j a b, i ≠ j ∧ rules !! i = Some a ∧ rules !! j = Some b ∧ matches host path a = true ∧ matches host path b = true ∧
    compareCandidates (candidate_for host a) (candidate_for host b) = 0%Z.

Lemma best_of_skip host path before best rule :
  best_of host path before best → matches host path rule = false → best_of host path (before ++ [rule]) best.
Proof.
  destruct best as [b|]; simpl.
  - intros (i & Hi & Hm & Hb & Hall) Hr. exists i. split_and!; [by apply lookup_app_l_Some|done|done|].
    intros j r Hj Hne Hmr. apply lookup_snoc_Some in Hj as [[_ Hj]|[_ <-]]; [eauto|congruence].
  - intros Hall Hr r. rewrite elem_of_app, list_elem_of_singleton. intros [?| ->]; auto.
Qed.

Lemma best_of_replace host path before best rule :
  best_of host path before best → matches host path rule = true →
  (∀ b, best = Some b → beats (candidate_for host rule) b) →
  best_of host path (before ++ [rule]) (Some (candidate_for host rule)).
Proof.
  intros Hb Hm Hbeat. exists (length before). rewrite rc_candidate_for.
  split_and!; [by apply list_lookup_middle|done|done|].
  intros j r Hj Hne Hmr. apply lookup_snoc_Some in Hj as [[_ Hj]|[-> _]]; [|done].
  destruct best as [b|]; simpl in Hb.
  - destruct Hb as (i & Hi & _ & Hbc & Hall). specialize (Hbeat b eq_refl).
    destruct (decide (j = i)) as [->|]; [|by eapply beats_trans; [|eauto]].
    rewrite Hi in Hj. injection Hj as <-. by rewrite <-Hbc.
  - apply list_elem_of_lookup_2 in Hj. apply Hb in Hj. congruence.
Qed.

Lemma best_of_keep host path before b rule :
  best_of host path before (Some b) → matches host path rule = true → beats b (candidate_for host rule) →
  best_of host path (before ++ [rule]) (Some b).
Proof.
  intros (i & Hi & Hmb & Hbc & Hall) Hm Hbeat. exists i. split_and!; [by apply lookup_app_l_Some|done|done|].
  intros j r Hj Hne Hmr. apply lookup_snoc_Some in Hj as [[_ Hj]|[_ <-]]; eauto.
Qed.

Lemma choose_loop_spec host path order : ∀ before best,
  best_of host path before best →
  match choose_loop best order host path with
  | inr r => best_of host path (before ++ order) (Some (candidate_for host r))
  | inl ErrNoMatch => ∀ rule, rule ∈ before ++ order → matches host path rule = false
  | inl ErrMatchConflict => tie host path (before ++ order)
  | inl _ => False
  end.
Proof.
  induction order as [|rule order IH]; intros before best Hb.
  { rewrite app_nil_r. simpl. destruct best as [b|]; [|done].
    pose proof Hb as (_ & _ & _ & Hbc & _). by rewrite <-Hbc. }
  rewrite choose_loop_cons. pose proof (λ b, IH (before ++ [rule]) b) as IH'.
  assert (Heq : before ++ rule :: order = (before ++ [rule]) ++ order) by (by rewrite <-app_assoc).
  destruct (matches host path rule) eqn:Em; [|rewrite Heq; apply IH'; by apply best_of_skip].
  destruct best as [b|]; [|rewrite Heq; apply IH'; by eapply best_of_replace].
  destruct (compare_range (candidate_for host rule) b) as [Hc|[Hc|Hc]]; rewrite Hc; simpl.
  - rewrite Heq. apply IH'. eapply best_of_replace; [done|done|]. by intros ? [= <-].
  - destruct Hb as (i & Hi & Hmb & Hbc & _). exists (length before), i, rule, (rc_rule b).
    split_and!; [|by apply list_lookup_middle|by apply lookup_app_l_Some|done|done|by rewrite <-Hbc].
    apply lookup_lt_Some in Hi. lia.
  - rewrite Heq. apply IH'. apply best_of_keep; [done|done|by apply beats_flip].
Qed.

Lemma chooseRule_spec rules host path :
  match chooseRule rules host path with
  | inr r => ∃ i, rules !! i = Some r ∧ matches host path r = true ∧
      ∀ j r', rules !! j = Some r' → j ≠ i → matches host path r' = true → beats (candidate_for host r) (candidate_for host r')
  | inl ErrNoMatch => ∀ r, r ∈ rules → matches host path r = false
  | inl ErrMatchConflict => tie host path rules
  | inl _ => False
  end.
Proof.
  unfold chooseRule, chooseRuleFrom. pose proof (choose_loop_spec host path rules [] None) as Hs. simpl in Hs.
  specialize (Hs ltac:(intros rule Hr; by apply elem_of_nil in Hr)).
  destruct (choose_loop None rules host path) as [e|r]; [done|].
  destruct Hs as (i & Hi & Hm & _ & Hall). rewrite rc_candidate_for in Hi, Hm. exists i. by split_and!.
Qed.

(** A request is served by the unique most specific rule: chooseRule returns a rule only when it accepts and
    matches the host and path and is strictly more specific (host class, wildcard labels, path prefix,
    priority) than every other matching rule; it reports no match exactly when no rule matches, and
    a conflict only when two matching rules are equally specific. *)
Theorem choose_most_specific (rules : list RouteRule) (host path : string) :
  match chooseRule rules host path with
  | inr r => ∃ i, rules !! i = Some r ∧ matches host path r = true ∧
      ∀ j r', rules !! j = Some r' → j ≠ i → matches host path r' = true → beats (candidate_for host r) (candidate_for host r')
  | inl ErrNoMatch => ∀ r, r ∈ rules → matches host path r = false
  | inl ErrMatchConflict => tie host path rules
  | inl _ => False
  end.
Proof. apply chooseRule_spec. Qed.

(** ** The index finds every matching rule *)

(** The bucket of a rule, as index_add chooses it. *)
Inductive Bucket := BHost (h : string) | BSuffix (s : string) | BAlways | BNone.

#[export] Instance Bucket_eq_dec : EqDecision Bucket.
Proof. solve_decision. Defined.

Definition bucket (rule : RouteRule) : Bucket :=
  let t := rr_MatchType rule in
  if String.eqb t MatchExact || String.eqb t MatchManagedExact
     || String.eqb t MatchCatchAll && negb (String.eqb (rr_Hostname rule) "") then BHost (rr_Hostname rule)
  else if String.eqb t MatchOneLabelWildcard then BSuffix (rr_WildcardSuffix rule)
  else if String.eqb t MatchCatchAll then BAlways
  else BNone.

Definition in_bucket (b : Bucket) (ps : list (nat * RouteRule)) : list nat :=
  fst <$> List.filter (λ ir, bool_decide (bucket ir.2 = b)) ps.

Lemma in_bucket_snoc b ps i rule :
  in_bucket b (ps ++ [(i, rule)]) = in_bucket b ps ++ (if decide (bucket rule = b) then [i] else []).
Proof.
  unfold in_bucket. rewrite List.filter_app, fmap_app. f_equal. cbn [List.filter snd].
  case_decide; [rewrite bool_decide_true by done|rewrite bool_decide_false by done]; done.
Qed.

Lemma lookup_list_insert m k l k' :
  lookup_list (<[k := l]> m) k' = if decide (k = k') then l else lookup_list m k'.
Proof. unfold lookup_list. case_decide; subst; [by rewrite lookup_insert_eq|by rewrite lookup_insert_ne]. Qed.

Lemma index_buckets ps :
  let x := foldl index_add (mkIndex ∅ ∅ []) ps in
  (∀ h, lookup_list (byHost x) h = in_bucket (BHost h) ps) ∧
  (∀ s, lookup_list (bySuffix x) s = in_bucket (BSuffix s) ps) ∧ always x = in_bucket BAlways ps.
Proof.
  induction ps as [|[i rule] ps IH] using rev_ind; [by split_and!|].
  rewrite foldl_app. simpl. destruct IH as (IH1 & IH2 & IH3).
  set (x := foldl index_add (mkIndex ∅ ∅ []) ps) in *. unfold index_add. fold (bucket rule).
  assert (Hb : bucket rule = bucket rule) by done. revert Hb. unfold bucket at 1.
  destruct (_ || _ || _)%bool; [|destruct (String.eqb (rr_MatchType rule) MatchOneLabelWildcard);
    [|destruct (String.eqb (rr_MatchType rule) MatchCatchAll)]]; intros Hb; simpl;
    (split_and!; [intros h|intros s|]); rewrite in_bucket_snoc, <-Hb, ?lookup_list_insert, ?IH1, ?IH2, ?IH3;
    repeat case_decide; simplify_eq; rewrite ?app_nil_r; done.
Qed.

(** The buckets that are looked at for a host. *)
Definition looked_at (host : string) (b : Bucket) : bool :=
  match b with
  | BHost h => String.eqb h host
  | BSuffix s => bool_decide (strings.Cut host "." = (fst (fst (strings.Cut host ".")), s, true))
  | BAlways => true
  | BNone => false
  end.

Lemma positions_lookup rules i rule : (i, rule) ∈ positions rules ↔ rules !! i = Some rule.
Proof.
  unfold positions. rewrite list_elem_of_lookup. split.
  - intros (j & Hj). rewrite list_lookup_imap in Hj. destruct (rules !! j) eqn:E; [|done]. simpl in Hj. by simplify_eq.
  - intros Hi. exists i. by rewrite list_lookup_imap, Hi.
Qed.

Lemma positions_sorted rules (p : nat * RouteRule → bool) : StronglySorted lt (fst <$> List.filter p (positions rules)).
Proof.
  unfold positions.
  assert (Hgen : ∀ n, StronglySorted lt (fst <$> List.filter p (imap (λ i r, ((n + i)%nat, r)) rules)) ∧
    Forall (λ i, (n ≤ i)%nat) (fst <$> List.filter p (imap (λ i r, ((n + i)%nat, r)) rules))).
  { induction rules as [|r rules IH]; intros n; [split; constructor|].
    rewrite imap_cons. cbn [List.filter]. destruct (IH (S n)) as [Hs Hf].
    assert (Heq : imap ((λ i r0, ((n + i)%nat, r0)) ∘ S) rules = imap (λ i r0, ((S n + i)%nat, r0)) rules).
    { apply imap_ext. intros i r0 _. simpl. f_equal. lia. }
    rewrite Heq, Nat.add_0_r. destruct (p (n, r)); simpl; split.
    - constructor; [done|]. eapply Forall_impl; [exact Hf|]. simpl. lia.
    - constructor; [lia|]. eapply Forall_impl; [exact Hf|]. simpl. lia.
    - done.
    - eapply Forall_impl; [exact Hf|]. simpl. lia. }
  destruct (Hgen 0%nat) as [Hs _]. exact Hs.
Qed.

Lemma elem_of_in_bucket b rules i : i ∈ in_bucket b (positions rules) ↔ ∃ rule, rules !! i = Some rule ∧ bucket rule = b.
Proof.
  unfold in_bucket. rewrite list_elem_of_fmap. split.
  - intros ([j rule] & -> & Hin). apply list_elem_of_In, filter_In in Hin as [Hin Hb].
    apply list_elem_of_In, positions_lookup in Hin. apply bool_decide_eq_true in Hb. eauto.
  - intros (rule & Hi & Hb). exists (i, rule). split; [done|]. apply list_elem_of_In, filter_In.
    split; [by apply list_elem_of_In, positions_lookup|by apply bool_decide_eq_true].
Qed.

Lemma candidates_spec rules host :
  candidates (newRuleIndex rules) host =
  fst <$> List.filter (λ ir, looked_at host (bucket ir.2)) (positions rules).
Proof.
  destruct (index_buckets (positions rules)) as (H1 & H2 & H3).
  unfold candidates, newRuleIndex. destruct (strings.Cut host ".") as [[a suffix] ok] eqn:Ec.
  rewrite H1, H2, H3.
  set (l := in_bucket (BHost host) (positions rules) ++ _).
  assert (Hl : ∀ i, i ∈ l ↔ ∃ rule, rules !! i = Some rule ∧ looked_at host (bucket rule) = true).
  { intros i. unfold l. rewrite !elem_of_app. 
    assert (Hsuf : i ∈ (if ok then in_bucket (BSuffix suffix) (positions rules) else []) ↔
      ∃ rule, rules !! i = Some rule ∧ bucket rule = BSuffix suffix ∧ ok = true).
    { destruct ok; [rewrite elem_of_in_bucket; naive_solver|]. rewrite elem_of_nil. naive_solver. }
    rewrite Hsuf, !elem_of_in_bucket. split.
    - intros [(r & ? & Hb)|[(r & ? & Hb & Hok)|(r & ? & Hb)]]; exists r; (split; [done|]); rewrite Hb; simpl.
      + apply String.eqb_refl.
      + apply bool_decide_eq_true. rewrite Ec. simpl. by rewrite Hok.
      + done.
    - intros (r & Hr & Hb). destruct (bucket r) as [h|s| |] eqn:Er; simpl in Hb; [| | |done].
      + apply String.eqb_eq in Hb as ->. left. eauto.
      + apply bool_decide_eq_true in Hb. rewrite Ec in Hb. simpl in Hb. simplify_eq. right; left. eauto.
      + right; right. eauto. }
  apply StronglySorted_lt_unique.
  - apply sort_nat_strict. unfold l.
    assert (Hnd : ∀ b, NoDup (in_bucket b (positions rules)))
      by (intros b; apply StronglySorted_NoDup, positions_sorted).
    assert (Hdis : ∀ b1 b2 i, i ∈ in_bucket b1 (positions rules) → i ∈ in_bucket b2 (positions rules) → b1 = b2).
    { intros b1 b2 i. rewrite !elem_of_in_bucket. intros (r & ? & ?) (r' & ? & ?). congruence. }
    apply NoDup_app. split_and!; [apply Hnd| |apply NoDup_app; split_and!; [destruct ok; [apply Hnd|apply NoDup_nil_2]| |apply Hnd]].
    + intros i Hi. rewrite elem_of_app. intros [Hi2|Hi2].
      * destruct ok; [by specialize (Hdis _ _ _ Hi Hi2)|by apply elem_of_nil in Hi2].
      * by specialize (Hdis _ _ _ Hi Hi2).
    + intros i Hi Hi2. destruct ok; [by specialize (Hdis _ _ _ Hi Hi2)|by apply elem_of_nil in Hi].
  - apply positions_sorted.
  - intros i. rewrite elem_of_sort_by, Hl, list_elem_of_fmap. split.
    + intros (r & Hr & Hb). exists (i, r). split; [done|]. apply list_elem_of_In, filter_In.
      split; [by apply list_elem_of_In, positions_lookup|done].
    + intros ([j r] & -> & Hin). apply list_elem_of_In, filter_In in Hin as [Hin Hb].
      apply list_elem_of_In, positions_lookup in Hin. eauto.
Qed.

Lemma candidate_rules rules host :
  omap (λ i, rules !! i) (candidates (newRuleIndex rules) host) =
  List.filter (λ rule, looked_at host (bucket rule)) rules.
Proof.
  rewrite candidates_spec.
  assert (Hsnd : List.filter (λ rule, looked_at host (bucket rule)) rules =
    snd <$> List.filter (λ ir : nat * RouteRule, looked_at host (bucket ir.2)) (positions rules)).
  { unfold positions. generalize (@pair nat RouteRule) (λ (i : nat) (r : RouteRule), eq_refl : snd (i, r) = r).
    intros f Hf. revert f Hf. induction rules as [|r rules IH]; intros f Hf; [done|].
    rewrite imap_cons. cbn [List.filter]. rewrite Hf.
    assert (Hrest := IH (f ∘ S) (λ i r, Hf (S i) r)).
    destruct (looked_at host (bucket r)); [rewrite fmap_cons, Hf; by f_equal|done]. }
  rewrite Hsnd. clear Hsnd.
  assert (Hall : ∀ ir, ir ∈ List.filter (λ ir : nat * RouteRule, looked_at host (bucket ir.2)) (positions rules) →
    rules !! ir.1 = Some ir.2).
  { intros [i r] Hin. apply list_elem_of_In, filter_In in Hin as [Hin _]. by apply list_elem_of_In, positions_lookup in Hin. }
  induction (List.filter _ (positions rules)) as [|ir l IH]; [done|].
  rewrite !fmap_cons. simpl. rewrite (Hall ir) by left. f_equal. apply IH. intros; apply Hall. by right.
Qed.

(** A matching rule is in a bucket the host looks at. *)
Lemma matches_looked_at host path rule : matches host path rule = true → looked_at host (bucket rule) = true.
Proof.
  unfold matches. intros Hm. to_prop. destruct (hostMatch rule host) as [[class labels] ok] eqn:Eh. simpl in *. subst ok.
  apply hostMatch_true in Eh. unfold bucket.
  destruct Eh as [[He|[He Hn]] Hh|label He Hne Hf Hh|He Hn].
  - unfold isExactMatchType in He. rewrite He. simpl. rewrite Hh. apply String.eqb_refl.
  - rewrite He. simpl. rewrite (proj2 (String.eqb_neq _ "")) by done. simpl. rewrite Hh. apply String.eqb_refl.
  - rewrite He. simpl. apply bool_decide_eq_true. unfold strings.Cut.
    change (label +:+ "." +:+ rr_WildcardSuffix rule) with (label +:+ String "." (rr_WildcardSuffix rule)) in Hh.
    by rewrite Hh, strings.cut_char_app.
  - rewrite He, Hn. done.
Qed.

Lemma choose_index rules host path :
  chooseRuleFrom rules (Some (newRuleIndex rules)) host path = chooseRule rules host path.
Proof.
  unfold chooseRule, chooseRuleFrom. rewrite candidate_rules. apply choose_loop_filter.
  intros rule. apply matches_looked_at.
Qed.

(** Matching through the index is matching: for every set of rules, host and path, choosing among the few
    rules the index lists for the host gives the same rule, or the same error, as choosing among all of them. *)
Theorem index_agrees (rules : list RouteRule) (host path : string) :
  chooseRuleFrom rules (Some (newRuleIndex rules)) host path = chooseRule rules host path.
Proof. apply choose_index. Qed.

(** ** A generation that was accepted is never ambiguous *)

Lemma same_length_prefix a b x y : a +:+ x = b +:+ y → String.length a = String.length b → a = b.
Proof.
  revert b; induction a as [|c a IH]; intros [|d b]; simpl; [done..|]. intros [= -> Heq] [= Hl]. f_equal. by apply IH.
Qed.

Lemma pathMatches_prefix prefix path : strings.HasPrefix path "/" = true → pathMatches prefix path = true → ∃ r, path = prefix +:+ r.
Proof.
  unfold pathMatches. intros Hp. destruct (String.eqb_spec prefix "/") as [->|_]; [by apply strings.HasPrefix_true in Hp|].
  intros [Heq|Hpre]%orb_true_iff.
  - apply String.eqb_eq in Heq as ->. exists "". by rewrite strings.app_empty_r.
  - apply strings.HasPrefix_true in Hpre as [r ->]. exists ("/" +:+ r). by rewrite strings.app_assoc_str.
Qed.

Lemma pathMatches_refl p : pathMatches p p = true.
Proof. unfold pathMatches. destruct (String.eqb p "/"); [done|]. by rewrite String.eqb_refl. Qed.

Lemma overlap_host_match rule host class labels :
  host_match rule host class labels → host_match rule (overlapHost rule) class labels.
Proof.
  unfold overlapHost. destruct 1 as [[He|[He Hn]] Hh|label He Hne Hf Hh|He Hn].
  - rewrite He. apply hm_named; auto.
  - rewrite He. simpl. rewrite (proj2 (String.eqb_neq _ "")) by done. apply hm_named; auto.
  - rewrite He. simpl. by apply (hm_wildcard _ _ "edge").
  - rewrite He, Hn. simpl. by apply hm_any.
Qed.

Lemma candidate_host_match rule host class labels :
  host_match rule host class labels →
  candidate_for host rule = mkCandidate rule class labels ∧ overlap_candidate rule = mkCandidate rule class labels.
Proof.
  intros Hm. pose proof (overlap_host_match _ _ _ _ Hm) as Ho.
  apply hostMatch_true in Hm, Ho. unfold candidate_for, overlap_candidate. by rewrite Hm, Ho.
Qed.

Lemma exact_not_catch_all t : isExactMatchType t = true → String.eqb t MatchCatchAll = false.
Proof. unfold isExactMatchType. intros [Ht|Ht]%orb_true_iff; apply String.eqb_eq in Ht as ->; done. Qed.

Lemma host_match_true rule host class labels : host_match rule host class labels → snd (hostMatch rule host) = true.
Proof. intros Hm. apply hostMatch_true in Hm. by rewrite Hm. Qed.

Lemma hosts_overlap a b host class labels :
  host_match a host class labels → host_match b host class labels → hostsOverlap a b = true.
Proof.
  intros Ha Hb. pose proof (host_match_true _ _ _ _ Ha) as Sa. pose proof (host_match_true _ _ _ _ Hb) as Sb.
  unfold hostsOverlap, catchAllHostsOverlap. remember class as ca eqn:Hc in Ha. remember labels as la eqn:Hl in Ha.
  destruct Ha as [[Ea|[Ea Na]] Ha|label Ea Na Fa Ha|Ea Na]; destruct Hb as [[Eb|[Eb Nb]] Hb|label' Eb Nb Fb Hb|Eb Nb]; try done.
  - rewrite (exact_not_catch_all _ Ea), (exact_not_catch_all _ Eb), Ea, Eb. simpl. apply String.eqb_eq. congruence.
  - rewrite (exact_not_catch_all _ Ea), Eb. simpl. rewrite (exact_not_catch_all _ Ea), <-Hb, Sa. by destruct (String.eqb host "").
  - rewrite Ea, (exact_not_catch_all _ Eb). simpl. rewrite <-Ha, Sb, (exact_not_catch_all _ Eb). by destruct (String.eqb host "").
  - rewrite Ea, Eb. simpl. rewrite Eb, <-Ha, <-Hb, ?String.eqb_refl, orb_true_r. by destruct (String.eqb host "").
  - rewrite Ea, Eb. simpl. apply String.eqb_eq.
    change (label +:+ "." +:+ rr_WildcardSuffix a) with (label +:+ String "." (rr_WildcardSuffix a)) in Ha.
    change (label' +:+ "." +:+ rr_WildcardSuffix b) with (label' +:+ String "." (rr_WildcardSuffix b)) in Hb.
    pose proof (strings.cut_char_app "." label (rr_WildcardSuffix a) Fa) as C1.
    pose proof (strings.cut_char_app "." label' (rr_WildcardSuffix b) Fb) as C2. rewrite <-Ha in C1. rewrite <-Hb in C2. congruence.
  - rewrite Ea, Eb. simpl. by rewrite Na.
Qed.

Lemma tie_ambiguous host path a b :
  strings.HasPrefix path "/" = true → matches host path a = true → matches host path b = true →
  compareCandidates (candidate_for host a) (candidate_for host b) = 0%Z → ambiguous a b = true.
Proof.
  unfold matches. intros Hp Ha Hb Hc. to_prop.
  destruct (hostMatch a host) as [[ca la] ?] eqn:Ea, (hostMatch b host) as [[cb lb] ?] eqn:Eb. simpl in *. subst.
  apply hostMatch_true in Ea, Eb.
  destruct (candidate_host_match _ _ _ _ Ea) as [Fa Oa], (candidate_host_match _ _ _ _ Eb) as [Fb Ob].
  unfold ambiguous, rulesOverlap. rewrite Oa, Ob. rewrite Fa, Fb in Hc. rewrite Hc, andb_true_r.
  pose proof (compareCandidates_cases (mkCandidate a ca la) (mkCandidate b cb lb)) as Hcase. cbv zeta in Hcase.
  destruct Hcase as [[? _]|[(_ & Hcl & Hla & Hlen & _)|[? _]]]; [lia| |lia]. simpl in Hcl, Hla. subst.
  rewrite (hosts_overlap a b host cb lb) by done. simpl.
  repeat match goal with Hm : pathMatches _ path = true |- _ => apply (pathMatches_prefix _ _ Hp) in Hm as [? Hm] end.
  assert (Heq : rr_PathPrefix a = rr_PathPrefix b).
  { unfold path_len in Hlen. simpl in Hlen. eapply same_length_prefix; [|apply Nat2Z.inj; exact Hlen].
    match goal with H1 : path = rr_PathPrefix a +:+ _, H2 : path = rr_PathPrefix b +:+ _ |- _ => rewrite <-H1; exact H2 end. }
  by rewrite Heq, pathMatches_refl.
Qed.

Lemma ambiguous_pair_false rules i j a b :
  ambiguous_pair rules = false → (i < j)%nat → rules !! i = Some a → rules !! j = Some b → ambiguous a b = false.
Proof.
  revert i j; induction rules as [|r rules IH]; intros i j Hf Hlt Hi Hj; [done|].
  simpl in Hf. to_prop. destruct j as [|j]; [lia|]. simpl in Hj. destruct i as [|i]; simpl in Hi.
  - injection Hi as ->. apply not_true_iff_false. intros Ht.
    assert (Hex : existsb (ambiguous a) rules = true) by (apply existsb_exists; exists b; split; [|done];
      apply list_elem_of_In; by eapply list_elem_of_lookup_2). congruence.
  - apply (IH i j); [done|lia|done|done].
Qed.

Lemma no_tie rules host path :
  ambiguous_pair rules = false → strings.HasPrefix path "/" = true → ¬ tie host path rules.
Proof.
  intros Hf Hp (i & j & a & b & Hne & Hi & Hj & Ha & Hb & Hc).
  assert (Hc' : compareCandidates (candidate_for host b) (candidate_for host a) = 0%Z).
  { pose proof (compareCandidates_cases (candidate_for host a) (candidate_for host b)).
    pose proof (compareCandidates_cases (candidate_for host b) (candidate_for host a)). cbv zeta in *. lia. }
  destruct (decide (i < j)%nat) as [Hlt|Hge].
  - pose proof (tie_ambiguous _ _ _ _ Hp Ha Hb Hc). pose proof (ambiguous_pair_false _ _ _ _ _ Hf Hlt Hi Hj). congruence.
  - pose proof (tie_ambiguous _ _ _ _ Hp Hb Ha Hc'). pose proof (ambiguous_pair_false _ j i _ _ Hf ltac:(lia) Hj Hi). congruence.
Qed.

Lemma normalized_path_slash p path : normalizeRequestPath p = inr path → strings.HasPrefix path "/" = true.
Proof.
  unfold normalizeRequestPath. destruct (String.eqb p ""); [by intros [= <-]|].
  destruct (strings.HasPrefix p "/") eqn:Hp; [|done]. cbn [negb orb].
  do 2 (match goal with |- (if ?b then _ else _) = _ → _ => destruct b; [done|] end). intros [= <-].
  destruct (1 <? String.length p)%nat eqn:El; [|done]. apply Nat.ltb_lt in El.
  apply strings.HasPrefix_true in Hp as [rest ->]. unfold str.TrimSuffix.
  destruct (str.strip_suffix ("/" +:+ rest) "/") as [r|] eqn:Es; [|done]. cbn [default].
  apply str.strip_suffix_Some in Es. apply strings.HasPrefix_true. destruct r as [|d r]; simpl in *.
  - injection Es as ->. simpl in El. lia.
  - injection Es as <- _. by exists r.
Qed.

Section normalized.
Context `{GoRuntime} `{IDNA}.

Lemma normalize_loop_ids generation seen rules l :
  normalize_loop generation seen rules = inr l → NoDup (rr_ID <$> l) ∧ ∀ r, r ∈ l → rr_ID r ∉ seen.
Proof.
  revert seen l; induction rules as [|rule rules IH]; intros seen l; simpl.
  - intros [= <-]. split; [apply NoDup_nil_2|]. intros r Hr. by apply elem_of_nil in Hr.
  - destruct (normalizeRule generation rule) as [|r]; [done|]. destruct (decide _) as [|Hn]; [done|].
    destruct (normalize_loop _ _ rules) as [|l'] eqn:E; [done|]. intros [= <-].
    destruct (IH _ _ E) as [Hnd Hseen]. split.
    + simpl. apply NoDup_cons. split; [|done]. intros Hin. apply list_elem_of_fmap in Hin as (x & Hx & Hin).
      apply Hseen in Hin. apply Hin. rewrite <-Hx. set_solver.
    + intros x Hx. apply elem_of_cons in Hx as [->|Hx]; [done|]. apply Hseen in Hx. set_solver.
Qed.

(** C8: a generation that StageGeneration accepts is never ambiguous: once normalizeRules has accepted a
    set of rules, their IDs are distinct and no request, whatever its host and path, finds two equally
    specific rules, though the check only compares the rules pairwise at one host each. *)
Theorem normalized_unambiguous (generation : Z) (rules result : list RouteRule) (maximum : Z)
    (Hn : normalizeRules generation rules maximum = inr result) :
  NoDup (rr_ID <$> result) ∧
  ∀ host requestPath path, normalizeRequestPath requestPath = inr path → chooseRule result host path ≠ inl ErrMatchConflict.
Proof.
  unfold normalizeRules in Hn. case_match; [done|]. destruct (normalize_loop _ _ rules) as [|l] eqn:El; [done|].
  destruct (ambiguous_pair _) eqn:Ea; [done|]. injection Hn as <-.
  destruct (normalize_loop_ids _ _ _ _ El) as [Hnd _]. split; [by rewrite sort_by_perm|].
  intros host requestPath path Hp Hc. apply normalized_path_slash in Hp.
  apply (no_tie _ host path Ea Hp).
  pose proof (chooseRule_spec (sort_by (λ a b, str_ltb (rr_ID a) (rr_ID b)) l) host path) as Hs. by rewrite Hc in Hs.
Qed.

(** TLS names are never granted by a catch-all: a rule answers for a TLS host name only when it is accepting,
    not a raw TCP or TLS route, and names the host itself, or is a wildcard exactly one label above it. *)
Theorem https_names_exact (rule : RouteRule) (host : string) (Hhost : host ≠ "") :
  httpsHostnameMatch rule host = true ↔
  routeAccepting rule = true ∧ in_list (rr_Kind rule) [TunnelTCP; TunnelTLS; TunnelPrivateTCP] = false ∧
  ((isExactMatchType (rr_MatchType rule) = true ∨ rr_MatchType rule = MatchCatchAll) ∧ rr_Hostname rule = host ∨
   rr_MatchType rule = MatchOneLabelWildcard ∧
     ∃ label, label ≠ "" ∧ strings.free_of "." label = true ∧ host = label +:+ "." +:+ rr_WildcardSuffix rule).
Proof.
  unfold httpsHostnameMatch. destruct (routeAccepting rule); cbn [negb orb]; [|split; [done|by intros (? & _)]].
  destruct (in_list (rr_Kind rule) [TunnelTCP; TunnelTLS; TunnelPrivateTCP]); cbn [negb orb]; [split; [done|by intros (_ & ? & _)]|].
  destruct (String.eqb_spec (rr_MatchType rule) MatchCatchAll) as [Ec|Ec].
  - rewrite String.eqb_eq. split; [by intros; split_and!; [..|left; auto]|].
    intros (_ & _ & [[_ ?]|[Ew _]]); [done|]. by rewrite Ec in Ew.
  - assert (Hs : snd (hostMatch rule host) = true ↔ ∃ c l, host_match rule host c l).
    { destruct (hostMatch rule host) as [[c l] []] eqn:Eh; simpl.
      - split; [|done]. intros _. exists c, l. by apply hostMatch_true.
      - split; [done|]. intros (c' & l' & Hm). apply hostMatch_true in Hm. congruence. }
    rewrite Hs. split.
    + intros (c & l & Hm). split_and!; [done..|]. destruct Hm as [[He|[He _]] Hh|label He Hne Hf Hh|He Hn]; [left; auto|done|right; eauto|done].
    + intros (_ & _ & [[[He|He] Hh]|[He (label & ? & ? & ?)]]); [|done|].
      * exists 3%Z, 0%Z. apply hm_named; [by left|done].
      * eexists 2%Z, _. by apply (hm_wildcard _ _ label).
Qed.
End normalized.

(** ** Concrete rules *)

Definition sample_rules : list RouteRule :=
  [basic_rule "web" TunnelHTTPSWSS "exact" "App.Example.com" "" "" "binding-1";
   basic_rule "api" TunnelHTTPSWSS "exact" "app.example.com" "" "/api/" "binding-2";
   basic_rule "wild" PreviewHTTPSWSS "one_label_wildcard" "*.example.com" "" "/" "127.0.0.1:80"].

Definition sample_generation : list RouteRule :=
  match normalizeRules (H := eval_runtime) (H0 := eval_idna) 7 sample_rules 10 with inr l => l | inl _ => [] end.

Example sample_choices :
  (λ hp, match chooseRule sample_generation hp.1 hp.2 with inr r => rr_ID r | inl _ => "none" end) <$>
    [("app.example.com", "/api/v1"); ("app.example.com", "/apix"); ("x.example.com", "/"); ("a.b.example.com", "/")] =
  ["api"; "web"; "wild"; "none"].
Proof. vm_compute. reflexivity. Qed.

Lemma normalized_unambiguous_witness :
  length sample_generation = 3%nat ∧ chooseRule sample_generation "app.example.com" "/api/v1" ≠ inl ErrMatchConflict.
Proof.
  split; [vm_compute; reflexivity|].
  refine (proj2 (normalized_unambiguous (H := eval_runtime) (H0 := eval_idna) 7 sample_rules sample_generation 10 _)
    "app.example.com" "/api/v1/" "/api/v1" _); vm_compute; reflexivity.
Defined.

Lemma https_names_exact_witness :
  httpsHostnameMatch (basic_rule "any" TunnelHTTPSWSS MatchCatchAll "" "" "/" "binding") "app.example.com" ≠ true.
Proof.
  intros Hm. apply https_names_exact in Hm as (_ & _ & [[_ Hh]|[Hw _]]); [discriminate Hh|discriminate Hw|discriminate].
Defined.
