(* ===== verification/Generations.v ===== *)
(** * Route generations and stream leases: GenerationRegistry of tunnel/internal/route/matcher.go

    A complete set of rules is staged, marked ready and promoted; requests lease a stream of the active generation,
    and the streams of a replaced generation drain.  Generations and leases are held by pointer: by numbers, in the
    heaps [states] and [leases].  A step is what happens under the registry's lock; telemetry
    changes nothing here and is left out.  The lease's watcher closes it when its request or its generation is
    cancelled, which is a Close at some later time. *)
From S2P Require Import Prelude GoStd GoNet RouteRule Matching.

Record generationState := mkGeneration {
  gs_generation : Z;
  gs_rules : list RouteRule;
  gs_index : ruleIndex;
  gs_ready : bool;
  gs_accepting : bool;
  gs_streams : Z;
  gs_leases : gset nat;
  gs_drained : bool;    (** the channel drained is closed *)
  gs_cancelled : bool;  (** the context is cancelled *)
}.

Record StreamLease := mkLease {
  sl_state : nat;
  sl_match : RouteMatch;
  sl_done : bool;  (** the channel done is closed: Close has run *)
}.

Record GenerationRegistry := mkRegistry {
  maximumRoutes : Z;
  maximumStreams : Z;
  active : option nat;
  gr_pending : option nat;
  closed : bool;
  states : gmap nat generationState;
  leases : gmap nat StreamLease;
}.

Definition DefaultMaximumRoutes : Z := 4096.
Definition DefaultMaximumStreams : Z := 16384.

Definition NewGenerationRegistryWithOptions (maxRoutes maxStreams : Z) : RouteError + GenerationRegistry :=
  let maxRoutes := if (maxRoutes <=? 0)%Z then DefaultMaximumRoutes else maxRoutes in
  if (maxStreams <? 0)%Z then inl ErrInvalid
  else inr (mkRegistry maxRoutes (if (maxStreams =? 0)%Z then DefaultMaximumStreams else maxStreams) None None false ∅ ∅).

Definition newGenerationState (generation : Z) (rules : list RouteRule) : generationState :=
  mkGeneration generation rules (newRuleIndex rules) false false 0 ∅ false false.

(** ** Updates of the heaps *)

Definition set_ready (s : generationState) : generationState :=
  mkGeneration (gs_generation s) (gs_rules s) (gs_index s) true (gs_accepting s) (gs_streams s) (gs_leases s) (gs_drained s) (gs_cancelled s).
Definition set_accepting (b : bool) (s : generationState) : generationState :=
  mkGeneration (gs_generation s) (gs_rules s) (gs_index s) (gs_ready s) b (gs_streams s) (gs_leases s) (gs_drained s) (gs_cancelled s).
Definition set_leases (n : Z) (ls : gset nat) (s : generationState) : generationState :=
  mkGeneration (gs_generation s) (gs_rules s) (gs_index s) (gs_ready s) (gs_accepting s) n ls (gs_drained s) (gs_cancelled s).
Definition cancel (s : generationState) : generationState :=
  mkGeneration (gs_generation s) (gs_rules s) (gs_index s) (gs_ready s) (gs_accepting s) (gs_streams s) (gs_leases s) (gs_drained s) true.
(** markDrained, which is guarded by a sync.Once. *)
Definition markDrained (s : generationState) : generationState :=
  if gs_drained s then s
  else mkGeneration (gs_generation s) (gs_rules s) (gs_index s) (gs_ready s) (gs_accepting s) (gs_streams s) (gs_leases s) true true.

Definition upd (g : GenerationRegistry) (p : nat) (f : generationState → generationState) : GenerationRegistry :=
  mkRegistry (maximumRoutes g) (maximumStreams g) (active g) (gr_pending g) (closed g) (alter f p (states g)) (leases g).
Definition upd_opt (g : GenerationRegistry) (p : option nat) (f : generationState → generationState) : GenerationRegistry :=
  match p with Some p => upd g p f | None => g end.
Definition set_slots (g : GenerationRegistry) (a p : option nat) : GenerationRegistry :=
  mkRegistry (maximumRoutes g) (maximumStreams g) a p (closed g) (states g) (leases g).
Definition set_closed (g : GenerationRegistry) : GenerationRegistry :=
  mkRegistry (maximumRoutes g) (maximumStreams g) (active g) (gr_pending g) true (states g) (leases g).
Definition set_heaps (g : GenerationRegistry) (ss : gmap nat generationState) (ls : gmap nat StreamLease) : GenerationRegistry :=
  mkRegistry (maximumRoutes g) (maximumStreams g) (active g) (gr_pending g) (closed g) ss ls.

Definition state_at (g : GenerationRegistry) (p : option nat) : option generationState := p ≫= λ p, states g !! p.
Definition generation_of (g : GenerationRegistry) (p : option nat) : option Z := gs_generation <$> state_at g p.

Definition GenResult : Type := GenerationRegistry * (RouteError + unit).
Definition ok (g : GenerationRegistry) : GenResult := (g, inr tt).
Definition fail (g : GenerationRegistry) (e : RouteError) : GenResult := (g, inl e).

Section generations.
Context `{GoRuntime} `{IDNA}.

(** ** Staging *)

(** The pending generation, if any, is cancelled and replaced by a new one. *)
Definition stage_new (g : GenerationRegistry) (generation : Z) (rules : list RouteRule) : GenerationRegistry :=
  let g := upd_opt g (gr_pending g) cancel in
  let p := fresh (dom (states g)) in
  set_slots (set_heaps g (<[p := newGenerationState generation rules]> (states g)) (leases g)) (active g) (Some p).

Definition StageGeneration (g : GenerationRegistry) (generation : Z) (rules : list RouteRule) : GenResult :=
  if (generation =? 0)%Z then fail g ErrInvalid
  else match normalizeRules generation rules (maximumRoutes g) with
  | inl e => fail g e
  | inr normalized =>
      if closed g then fail g ErrGenerationClosed
      else
        let pend :=
          match state_at g (gr_pending g) with
          | None => ok (stage_new g generation normalized)
          | Some s =>
              if (generation <? gs_generation s)%Z then fail g ErrGenerationStale
              else if (generation =? gs_generation s)%Z then
                if bool_decide (gs_rules s = normalized) then ok g else fail g ErrGenerationConflict
              else ok (stage_new g generation normalized)
          end in
        match state_at g (active g) with
        | None => pend
        | Some s =>
            if (generation <? gs_generation s)%Z then fail g ErrGenerationStale
            else if (generation =? gs_generation s)%Z then
              if bool_decide (gs_rules s = normalized) then ok g else fail g ErrGenerationConflict
            else pend
        end
  end.

Definition is_generation (o : option Z) (n : Z) : bool := match o with Some m => (m =? n)%Z | None => false end.
Definition before (n : Z) (o : option Z) : bool := match o with Some m => (n <? m)%Z | None => false end.
Definition not_after_gen (n : Z) (o : option Z) : bool := match o with Some m => (n <=? m)%Z | None => false end.

Definition MarkGenerationReady (g : GenerationRegistry) (generation : Z) : GenResult :=
  let act := generation_of g (active g) in let pend := generation_of g (gr_pending g) in
  if closed g then fail g ErrGenerationClosed
  else if is_generation act generation then ok g
  else if negb (is_generation pend generation) then
    if before generation pend || not_after_gen generation act then fail g ErrGenerationStale else fail g ErrGenerationNotReady
  else ok (upd_opt g (gr_pending g) set_ready).

Definition discardPending (g : GenerationRegistry) (generation : Z) : GenerationRegistry :=
  if is_generation (generation_of g (gr_pending g)) generation
  then set_slots (upd_opt g (gr_pending g) cancel) (active g) None else g.

(** ** Leases *)

(** release *)
Definition release (g : GenerationRegistry) (p lease : nat) : GenerationRegistry :=
  match states g !! p with
  | None => g
  | Some s =>
      let streams := if (0 <? gs_streams s)%Z then (gs_streams s - 1)%Z else gs_streams s in
      let g := upd g p (set_leases streams (gs_leases s ∖ {[lease]})) in
      if negb (gs_accepting s) && (streams =? 0)%Z then upd g p markDrained else g
  end.

(** StreamLease.Close, guarded by a sync.Once. *)
Definition CloseLease (g : GenerationRegistry) (lease : nat) : GenerationRegistry :=
  match leases g !! lease with
  | None => g
  | Some l =>
      if sl_done l then g
      else
        let g := release g (sl_state l) lease in
        set_heaps g (states g) (<[lease := mkLease (sl_state l) (sl_match l) true]> (leases g))
  end.

Definition close_all (g : GenerationRegistry) (ls : list nat) : GenerationRegistry := foldl CloseLease g ls.

(** streamSurvives *)
Definition same_stream (candidate rule : RouteRule) : bool :=
  String.eqb (rr_RouteID candidate) (rr_RouteID rule) && String.eqb (rr_AccountID candidate) (rr_AccountID rule)
  && String.eqb (rr_TunnelID candidate) (rr_TunnelID rule) && String.eqb (rr_HostID candidate) (rr_HostID rule)
  && String.eqb (rr_ConnectorID candidate) (rr_ConnectorID rule)
  && String.eqb (rr_MachineIdentityThumbprint candidate) (rr_MachineIdentityThumbprint rule)
  && String.eqb (rr_AccessMode candidate) (rr_AccessMode rule)
  && (rr_ViewerPolicyGeneration candidate =? rr_ViewerPolicyGeneration rule)%Z
  && String.eqb (rr_DesiredState candidate) (rr_DesiredState rule) && String.eqb (rr_Kind candidate) (rr_Kind rule)
  && String.eqb (rr_Target candidate) (rr_Target rule).

Definition streamSurvives (rule : RouteRule) (next : list RouteRule) : bool :=
  match List.find (λ candidate, String.eqb (rr_ID candidate) (rr_ID rule)) next with
  | Some candidate => same_stream candidate rule
  | None => false
  end.

Definition lease_rule (g : GenerationRegistry) (lease : nat) : option RouteRule :=
  (λ l, rm_Rule (sl_match l)) <$> leases g !! lease.

(** The leases of a generation whose rule satisfies [p], in the order the set is ranged over; range site 20. *)
Definition leases_where (g : GenerationRegistry) (s : generationState) (p : RouteRule → bool) : list nat :=
  List.filter (λ lease, match lease_rule g lease with Some r => p r | None => false end)
    (fst <$> range 20 (set_to_map (λ l, (l, tt)) (gs_leases s) : gmap nat unit)).

Definition forceDrain (g : GenerationRegistry) (old : nat) (next : list RouteRule) : GenerationRegistry * Z :=
  match states g !! old with
  | None => (g, 0%Z)
  | Some s =>
      let cancelled := leases_where g s (λ r, negb (streamSurvives r next)) in
      (close_all g cancelled, Z.of_nat (length cancelled))
  end.

(** ** Activation *)

(** The promotion both forms of activation do: the old generation stops accepting. *)
Definition promote (g : GenerationRegistry) (new : nat) : GenerationRegistry :=
  let g' := upd_opt (upd g new (set_accepting true)) (active g) (set_accepting false) in
  set_slots g' (Some new) None.

Definition streams_of (g : GenerationRegistry) (p : nat) : Z := default 0%Z (gs_streams <$> states g !! p).

(** What ActivateGeneration does before it waits: done, or waiting for the old generation to drain.  Signalling that a generation is drained and closing the leases that are cut off, which the code does after it has unlocked, are part of the
    locked step here, as in [release] and [ActivateGenerationFencedRoutes]: between the two, the code has a drained generation whose waiter was not told yet and leases that are no longer counted but still open. *)
Inductive Activation := ADone | AWait (old new : nat).

Definition ActivateGeneration (g : GenerationRegistry) (generation : Z) : GenerationRegistry * (RouteError + Activation) :=
  let act := generation_of g (active g) in let pend := state_at g (gr_pending g) in
  if closed g then (g, inl ErrGenerationClosed)
  else if is_generation act generation && bool_decide (gr_pending g = None) then (g, inr ADone)
  else match gr_pending g, pend with
  | Some new, Some s =>
      if negb (gs_generation s =? generation)%Z then
        if before generation act || (generation <? gs_generation s)%Z then (g, inl ErrGenerationStale)
        else (g, inl ErrGenerationNotReady)
      else if negb (gs_ready s) then (g, inl ErrGenerationNotReady)
      else
        let g' := promote g new in
        match active g with
        | None => (g', inr ADone)
        | Some old =>
            if (streams_of g' old =? 0)%Z then (upd g' old markDrained, inr ADone)
            else (g', inr (AWait old new))
        end
  | _, _ => if before generation act then (g, inl ErrGenerationStale) else (g, inl ErrGenerationNotReady)
  end.

(** How the wait ends: the old generation drained, the context of the call was done, or the timer fired. *)
Inductive DrainOutcome := Drained | ContextDone | TimerFired.

Definition finish_drain (g : GenerationRegistry) (old new : nat) (o : DrainOutcome) : GenResult :=
  match o with
  | Drained => ok g
  | ContextDone => fail (upd g old cancel) ErrContext
  | TimerFired =>
      let '(g', cancelled) := forceDrain g old (default [] (gs_rules <$> states g !! new)) in
      if (cancelled =? 0)%Z then ok g' else fail g' ErrDrainTimeout
  end.

Definition matchesRouteIdentity (rule : RouteRule) (i : RouteIdentity) : bool :=
  let routeID := if String.eqb (rr_RouteID rule) "" then rr_ID rule else rr_RouteID rule in
  negb (String.eqb (ri_RouteID i) "") && String.eqb routeID (ri_RouteID i)
  && String.eqb (rr_AccountID rule) (ri_AccountID i) && String.eqb (rr_TunnelID rule) (ri_TunnelID i).

Definition fenced_by (identities : list RouteIdentity) (rule : RouteRule) : bool := existsb (matchesRouteIdentity rule) identities.

(** ActivateGenerationFencedRoutes; [ctxErr] tells whether the context of the call is done. *)
Definition ActivateGenerationFencedRoutes (g : GenerationRegistry) (ctxErr : bool) (generation : Z)
    (identities : list RouteIdentity) : GenResult :=
  let act := generation_of g (active g) in
  if bool_decide (identities = []) then fail g ErrInvalid
  else if ctxErr then fail g ErrContext
  else if closed g then fail g ErrGenerationClosed
  else if is_generation act generation && bool_decide (gr_pending g = None) then ok g
  else match gr_pending g, state_at g (gr_pending g) with
  | Some new, Some s =>
      if negb (gs_generation s =? generation)%Z || negb (gs_ready s) then fail g ErrGenerationNotReady
      else if not_after_gen generation act then fail g ErrGenerationStale
      else
        let g' := promote g new in
        match active g with
        | None => ok g'
        | Some old =>
            let fenced := match states g !! old with Some so => leases_where g so (fenced_by identities) | None => [] end in
            let g' := close_all g' fenced in
            ok (if (streams_of g' old =? 0)%Z then upd g' old markDrained else g')
        end
  | _, _ => fail g ErrGenerationNotReady
  end.

(** ApplyGeneration up to its wait; [ready] is what the callback returns on the rules in normal form. *)
Definition ApplyGeneration (g : GenerationRegistry) (generation : Z) (rules : list RouteRule)
    (ready : list RouteRule → bool) : GenerationRegistry * (RouteError + Activation) :=
  match StageGeneration g generation rules with
  | (g, inl e) => (g, inl e)
  | (g, inr _) =>
      match normalizeRules generation rules (maximumRoutes g) with
      | inl e => (g, inl e)
      | inr normalized =>
          if negb (ready normalized) then (discardPending g generation, inl ErrReady)
          else match MarkGenerationReady g generation with
               | (g, inl e) => (g, inl e)
               | (g, inr _) => ActivateGeneration g generation
               end
      end
  end.

(** ** Requests *)

Definition accepting_state (g : GenerationRegistry) : option (nat * generationState) :=
  match active g with
  | Some p => match states g !! p with Some s => if gs_accepting s then Some (p, s) else None | None => None end
  | None => None
  end.

(** The request in normal form. *)
Definition request (host requestPath : string) : option (string * string) :=
  match normalizeMatchHost host, normalizeRequestPath requestPath with
  | inr h, inr p => Some (h, p)
  | _, _ => None
  end.

Definition Match (g : GenerationRegistry) (host requestPath : string) : RouteError + RouteMatch :=
  match request host requestPath with
  | None => inl ErrNoMatch
  | Some (h, p) =>
      match accepting_state g with
      | None => inl ErrNoMatch
      | Some (_, s) =>
          match chooseRuleFrom (gs_rules s) (Some (gs_index s)) h p with
          | inl e => inl e
          | inr rule => inr (mkRouteMatch rule h p (gs_generation s))
          end
      end
  end.

(** The second half of Acquire, under the exclusive lock: [chosen] is the generation the rule was chosen from. *)
Inductive Acquisition := Retry | Refused (e : RouteError) | Leased (lease : nat) (m : RouteMatch).

Definition acquire_commit (g : GenerationRegistry) (chosen : nat) (rule : RouteRule) (h p : string) : GenerationRegistry * Acquisition :=
  match accepting_state g with
  | Some (a, s) =>
      if negb (a =? chosen)%nat then (g, Retry)
      else if (maximumStreams g <=? gs_streams s)%Z then (g, Refused ErrStreamOverloaded)
      else
        let lease := fresh (dom (leases g)) in
        let m := mkRouteMatch rule h p (gs_generation s) in
        let g := upd g a (set_leases (gs_streams s + 1) ({[lease]} ∪ gs_leases s)) in
        (set_heaps g (states g) (<[lease := mkLease a m false]> (leases g)), Leased lease m)
  | None => (g, Retry)
  end.

(** Acquire when no other step comes between its halves. *)
Definition Acquire (g : GenerationRegistry) (host requestPath : string) : GenerationRegistry * Acquisition :=
  match request host requestPath with
  | None => (g, Refused ErrNoMatch)
  | Some (h, p) =>
      match accepting_state g with
      | None => (g, Refused ErrNoMatch)
      | Some (chosen, s) =>
          match chooseRuleFrom (gs_rules s) (Some (gs_index s)) h p with
          | inl e => (g, Refused e)
          | inr rule => acquire_commit g chosen rule h p
          end
      end
  end.

Definition RouteState (g : GenerationRegistry) (host : string) : option (string * string * string) :=
  match normalizeMatchHost host with
  | inl _ => None
  | inr h =>
      '(_, s) ← accepting_state g;
      rule ← chooseHostRule (gs_rules s) h;
      Some (rr_Kind rule, if String.eqb (rr_ObservedState rule) "" then "ready" else rr_ObservedState rule, rr_Reason rule)
  end.

Definition HasActiveGeneration (g : GenerationRegistry) : bool := match accepting_state g with Some _ => true | None => false end.
Definition Generation (g : GenerationRegistry) : Z := default 0%Z ((λ ps, gs_generation ps.2) <$> accepting_state g).
Definition Snapshot (g : GenerationRegistry) : option (Z * list RouteRule) :=
  (λ ps, (gs_generation ps.2, gs_rules ps.2)) <$> accepting_state g.

Definition httpsRules (g : GenerationRegistry) (host : string) : list RouteRule :=
  match normalizeMatchHost host, Snapshot g with
  | inr h, Some (_, rules) => List.filter (λ rule, httpsHostnameMatch rule h) rules
  | _, _ => []
  end.

Definition HasHTTPSHostname (g : GenerationRegistry) (host : string) : bool := negb (length (httpsRules g host) =? 0)%nat.

Definition Close (g : GenerationRegistry) : GenerationRegistry :=
  if closed g then g
  else upd_opt (upd_opt (set_closed g) (gr_pending g) cancel) (active g) (λ s, markDrained (cancel s)).

(** ** The invariant *)

Definition open_lease (ls : gmap nat StreamLease) (p lease : nat) : Prop :=
  ∃ l, ls !! lease = Some l ∧ sl_state l = p ∧ sl_done l = false.

(** What holds of the generation at [p]; [skip] is a generation whose end of draining is still to be marked. *)
Record state_ok (g : GenerationRegistry) (skip : option nat) (p : nat) (s : generationState) : Prop := {
  so_accepting : gs_accepting s = true ↔ active g = Some p;
  so_ready : gs_accepting s = true → gs_ready s = true;
  so_index : gs_index s = newRuleIndex (gs_rules s);
  so_rules : ambiguous_pair (gs_rules s) = false;
  so_streams : gs_streams s = Z.of_nat (size (gs_leases s));
  so_max : (gs_streams s ≤ maximumStreams g)%Z;
  so_pending : gr_pending g = Some p → gs_accepting s = false ∧ gs_leases s = ∅ ∧ gs_drained s = false;
  so_cancelled : gs_accepting s = false → gr_pending g ≠ Some p → skip ≠ Some p → gs_leases s = ∅ → gs_cancelled s = true;
  so_once : gs_drained s = true → gs_cancelled s = true;
  so_drained : closed g = false → gs_drained s = true → gs_accepting s = false ∧ gs_leases s = ∅;
  so_leases : ∀ lease, lease ∈ gs_leases s ↔ open_lease (leases g) p lease;
}.

(** A lease was given for the rule chosen from the generation it is counted in. *)
Definition lease_ok (g : GenerationRegistry) (l : StreamLease) : Prop :=
  ∃ s, states g !! sl_state l = Some s ∧ rm_Generation (sl_match l) = gs_generation s ∧
       chooseRule (gs_rules s) (rm_Host (sl_match l)) (rm_Path (sl_match l)) = inr (rm_Rule (sl_match l)).

Record gen_ok (skip : option nat) (g : GenerationRegistry) : Prop := {
  go_active : ∀ p, active g = Some p → is_Some (states g !! p);
  go_pending : ∀ p, gr_pending g = Some p → ∃ s, states g !! p = Some s ∧
    ∀ n, generation_of g (active g) = Some n → (n < gs_generation s)%Z;
  go_states : ∀ p s, states g !! p = Some s → state_ok g skip p s;
  go_leases : ∀ lease l, leases g !! lease = Some l → lease_ok g l;
}.

(** An update that keeps the number and the rules of a generation. *)
Definition keeps (f : generationState → generationState) : Prop :=
  ∀ s, gs_generation (f s) = gs_generation s ∧ gs_rules (f s) = gs_rules s.

Lemma lookup_upd g p f q : states (upd g p f) !! q = if decide (p = q) then f <$> states g !! q else states g !! q.
Proof. simpl. case_decide; subst; [apply lookup_alter_eq|by apply lookup_alter_ne]. Qed.

Lemma upd_generation g p f q : keeps f → generation_of (upd g p f) q = generation_of g q.
Proof.
  intros Hk. unfold generation_of, state_at. destruct q as [q|]; [|done]. cbn [mbind option_bind]. rewrite lookup_upd.
  case_decide; [|done]. destruct (states g !! q) as [s|]; [|done]. simpl. f_equal. apply Hk.
Qed.

Lemma upd_lease_ok g p f l : keeps f → lease_ok g l → lease_ok (upd g p f) l.
Proof.
  intros Hk (s & Hs & Hg & Hc). unfold lease_ok. rewrite lookup_upd. case_decide.
  - exists (f s). rewrite Hs. destruct (Hk s) as [-> ->]. done.
  - by exists s.
Qed.

(** One generation changes; the new invariant of [skip'] is to be shown for it alone. *)
Lemma upd_ok skip skip' g p f :
  gen_ok skip g → keeps f → (∀ q, skip = Some q → q = p ∨ skip' = Some q) →
  (∀ s, states g !! p = Some s → state_ok g skip p s → state_ok g skip' p (f s)) →
  gen_ok skip' (upd g p f).
Proof.
  intros [Ha Hp Hs Hl] Hk Hskip Hf. split.
  - intros q Hq. rewrite lookup_upd. destruct (Ha q Hq) as [s E]. rewrite E. case_decide; simpl; eauto.
  - intros q Hq. rewrite upd_generation by done. destruct (Hp q Hq) as (s & E & Hn). rewrite lookup_upd, E.
    case_decide; simpl; [|by exists s]. exists (f s). split; [done|]. destruct (Hk s) as [-> _]. done.
  - intros q s. rewrite lookup_upd. case_decide as Hpq.
    + subst q. destruct (states g !! p) as [s0|] eqn:E; [|done]. simpl. intros [= <-].
      destruct (Hf s0 eq_refl (Hs _ _ E)). by split.
    + intros E. destruct (Hs _ _ E). split; try done. intros Hacc Hpend Hsk Hle.
      match goal with Hc : gs_accepting s = false → _ |- _ => apply Hc end; [done|done| |done].
      intros Heq. destruct (Hskip q Heq); [by subst|done].
  - intros lease l E. apply upd_lease_ok; eauto.
Qed.

Lemma cancel_ok skip g p : gen_ok skip g → gen_ok skip (upd g p cancel).
Proof. intros Hg. eapply upd_ok; [done|done|auto|]. intros s _ []. by split. Qed.

Lemma ready_ok skip g p : gen_ok skip g → gen_ok skip (upd g p set_ready).
Proof. intros Hg. eapply upd_ok; [done|done|auto|]. intros s _ []. by split. Qed.

Lemma markDrained_keeps : keeps markDrained.
Proof. intros s. unfold markDrained. by destruct (gs_drained s). Qed.

(** Marking the end of draining, when no lease is left. *)
Lemma drained_ok skip g p :
  gen_ok skip g → (skip = None ∨ skip = Some p) → gr_pending g ≠ Some p →
  (∀ s, states g !! p = Some s → gs_accepting s = false ∧ gs_leases s = ∅) →
  gen_ok None (upd g p markDrained).
Proof.
  intros Hg Hskip Hpend Hd. eapply upd_ok; [done|apply markDrained_keeps|destruct Hskip; naive_solver|]. intros s Es Hs.
  destruct (Hd s Es) as (Hacc & Hle). destruct Hs. unfold markDrained. destruct (gs_drained s) eqn:Edr; split; simpl; auto; done.
Qed.

(** An empty generation that is not accepting has been marked. *)
Lemma unskip g p :
  gen_ok (Some p) g → (∀ s, states g !! p = Some s → gs_leases s ≠ ∅) → gen_ok None g.
Proof.
  intros [Ha Hp Hs Hl] Hne. split; [done|done| |done]. intros q s E. destruct (Hs _ _ E). split; try done.
  intros Hacc Hpend _ Hle. match goal with Hc : gs_accepting s = false → _ |- _ => apply Hc end; [done|done| |done].
  intros [= <-]. by apply (Hne s).
Qed.

(** ** Each step keeps the invariant *)

Lemma drop_pending_ok skip g :
  gen_ok skip g → (∀ p s, gr_pending g = Some p → states g !! p = Some s → gs_cancelled s = true) →
  gen_ok skip (set_slots g (active g) None).
Proof.
  intros [Ha Hp Hs Hl] Hc. split; [done|done| |done]. intros p s E. destruct (Hs _ _ E) as [? ? ? ? ? ? ? Hcan ? ? ?].
  split; try done. intros Hacc _ Hsk Hle. destruct (decide (gr_pending g = Some p)) as [Hpp|Hpp]; [by eapply Hc|auto].
Qed.

Lemma upd_opt_cancel_ok skip g o : gen_ok skip g → gen_ok skip (upd_opt g o cancel).
Proof. destruct o; [apply cancel_ok|done]. Qed.

Lemma upd_opt_slots g o f : active (upd_opt g o f) = active g ∧ gr_pending (upd_opt g o f) = gr_pending g ∧
  closed (upd_opt g o f) = closed g ∧ leases (upd_opt g o f) = leases g.
Proof. by destruct o. Qed.

(** Cancelling the pending generation and forgetting it. *)
Lemma discard_ok skip g : gen_ok skip g → gen_ok skip (set_slots (upd_opt g (gr_pending g) cancel) (active g) None).
Proof.
  intros Hg. destruct (upd_opt_slots g (gr_pending g) cancel) as (Ha & Hp & _ & _).
  pose proof (drop_pending_ok skip _ (upd_opt_cancel_ok skip g (gr_pending g) Hg)) as Hd. rewrite Ha in Hd. apply Hd.
  intros p s Hpp. rewrite Hp in Hpp. rewrite Hpp. cbn [upd_opt]. rewrite lookup_upd, decide_True by done.
  destruct (states g !! p); [|done]. by intros [= <-].
Qed.

(** A new pending generation, when there is none. *)
Lemma add_pending_ok g p s :
  gen_ok None g → gr_pending g = None → states g !! p = None →
  gs_index s = newRuleIndex (gs_rules s) → ambiguous_pair (gs_rules s) = false →
  gs_accepting s = false → gs_streams s = 0%Z → gs_leases s = ∅ → gs_drained s = false → (0 ≤ maximumStreams g)%Z →
  (∀ n, generation_of g (active g) = Some n → (n < gs_generation s)%Z) →
  gen_ok None (set_slots (set_heaps g (<[p := s]> (states g)) (leases g)) (active g) (Some p)).
Proof.
  intros [Ha Hp Hs Hl] Hnone Hfresh Hidx Hamb Hacc Hst Hle Hdr Hmax Hgen.
  assert (Hother : ∀ q, is_Some (states g !! q) → <[p := s]> (states g) !! q = states g !! q).
  { intros q [x Hx]. apply lookup_insert_ne. congruence. }
  assert (Hap : active g ≠ Some p) by (intros Hap; destruct (Ha p Hap); congruence).
  split; simpl.
  - intros q Hq. rewrite Hother; auto.
  - intros q [= <-]. exists s. rewrite lookup_insert_eq. split; [done|]. intros n Hn. apply Hgen.
    unfold generation_of, state_at in *. destruct (active g) as [a|] eqn:Ea; [|done]. simpl in *.
    by rewrite Hother in Hn by auto.
  - intros q x. rewrite lookup_insert_Some. intros [[<- <-]|[Hne E]].
    + split; simpl.
      * rewrite Hacc. split; [done|congruence].
      * congruence.
      * done.
      * done.
      * by rewrite Hst, Hle, size_empty.
      * by rewrite Hst.
      * done.
      * done.
      * congruence.
      * congruence.
      * intros lease. rewrite Hle. split; [by intros ?%elem_of_empty|]. intros (l & Hll & <- & _).
        destruct (Hl _ _ Hll) as (x & Hx & _). congruence.
    + destruct (Hs _ _ E). split; simpl; try done; [congruence|]. rewrite Hnone in *. intros ? ? ?. auto.
  - intros lease l E. destruct (Hl _ _ E) as (x & Hx & Hr). exists x. simpl. rewrite Hother by eauto. done.
Qed.

Lemma stage_new_ok g generation rules :
  gen_ok None g → ambiguous_pair rules = false → (0 ≤ maximumStreams g)%Z →
  (∀ n, generation_of g (active g) = Some n → (n < generation)%Z) →
  gen_ok None (stage_new g generation rules).
Proof.
  intros Hg Hamb Hmax Hgen. pose proof (discard_ok None g Hg) as Hd. unfold stage_new.
  set (g1 := upd_opt g (gr_pending g) cancel) in *.
  destruct (upd_opt_slots g (gr_pending g) cancel) as (Ha & Hp & Hc & Hl). fold g1 in Ha, Hp, Hc, Hl.
  pose proof (add_pending_ok (set_slots g1 (active g) None) (fresh (dom (states g1))) (newGenerationState generation rules) Hd
    eq_refl) as Hadd. simpl in Hadd. rewrite <-Ha in Hadd. apply Hadd; try done.
  - apply not_elem_of_dom, is_fresh.
  - unfold g1. by destruct (gr_pending g).
  - intros n Hn. apply Hgen. rewrite <-Hn, Ha. unfold g1. destruct (gr_pending g) as [q|]; [|done].
    symmetry. by apply (upd_generation g q cancel).
Qed.

(** Promotion: the end of draining of the old generation is still to be marked. *)
Lemma promote_ok g new s :
  gen_ok None g → gr_pending g = Some new → states g !! new = Some s → gs_ready s = true →
  gen_ok (active g) (promote g new) ∧ active (promote g new) = Some new ∧ gr_pending (promote g new) = None ∧
  leases (promote g new) = leases g.
Proof.
  intros [Ha Hp Hs Hl] Hpend Hnew Hready.
  assert (Hne : active g ≠ Some new).
  { intros Heq. destruct (Hs _ _ Hnew) as [Hacc _ _ _ _ _ Hsp _ _ _ _]. destruct (Hsp Hpend) as (Hf & _ & _).
    rewrite (proj2 Hacc Heq) in Hf. done. }
  assert (Hlook : ∀ q, states (promote g new) !! q =
    if decide (q = new) then set_accepting true <$> states g !! q
    else if decide (active g = Some q) then set_accepting false <$> states g !! q else states g !! q).
  { intros q. unfold promote. simpl. destruct (active g) as [old|] eqn:Ea; cbn [upd_opt].
    - rewrite lookup_upd. simpl.
      destruct (decide (old = q)) as [->|Hoq]; [rewrite (decide_False (P := q = new)) by congruence;
        rewrite (decide_True (P := Some q = Some q)) by done; by rewrite lookup_alter_ne by congruence|].
      destruct (decide (q = new)) as [->|]; [by rewrite lookup_alter_eq|].
      rewrite decide_False by congruence. by rewrite lookup_alter_ne.
    - rewrite lookup_upd. destruct (decide (new = q)) as [->|]; [by rewrite decide_True|].
      by rewrite !decide_False. }
  assert (Hleases : leases (promote g new) = leases g) by (unfold promote; simpl; by destruct (active g)).
  assert (Hclosed : closed (promote g new) = closed g) by (unfold promote; simpl; by destruct (active g)).
  assert (Hmax : maximumStreams (promote g new) = maximumStreams g) by (unfold promote; simpl; by destruct (active g)).
  split_and!; [|done|done|done]. split.
  - intros q [= <-]. rewrite Hlook, decide_True by done. rewrite Hnew. simpl. eauto.
  - done.
  - intros q x. rewrite Hlook. intros Hx.
    assert (Hex : ∃ s0 b, states g !! q = Some s0 ∧ x = set_accepting b s0 ∧ (b = true ↔ q = new)).
    { destruct (decide (q = new)) as [->|Hq].
      - rewrite Hnew in Hx |- *. simpl in Hx. injection Hx as <-. exists s, true. done.
      - destruct (decide (active g = Some q)) as [Haq|Haq].
        + destruct (states g !! q) as [s0|]; [|done]. simpl in Hx. injection Hx as <-. exists s0, false. done.
        + exists x, (gs_accepting x). split_and!; [done|by destruct x|].
          destruct (Hs _ _ Hx) as [Hacc _ _ _ _ _ _ _ _ _ _]. rewrite Hacc. split; congruence. }
    destruct Hex as (s0 & b & E & -> & Hb). destruct (Hs _ _ E) as [Hacc Hrd Hix Hru Hst Hmx Hpe Hca Hon Hdr Hle].
    split; rewrite ?Hleases, ?Hclosed, ?Hmax; simpl; try done.
    + rewrite Hb. split; congruence.
    + intros ->. destruct (proj1 Hb eq_refl). congruence.
    + intros -> _ Hsk Hempty. apply Hca; [|rewrite Hpend; intros [= ->]; discriminate (proj2 Hb eq_refl)|done|done].
      apply not_true_iff_false. rewrite Hacc. intros Hac. done.
    + intros Hcl Hd. destruct (Hdr Hcl Hd) as [Hf He]. split; [|done].
      apply not_true_iff_false. rewrite Hb. intros ->. destruct (Hpe Hpend) as (_ & _ & Hnd). congruence.
  - intros lease l. rewrite Hleases. intros E. destruct (Hl _ _ E) as (x & Hx & Hr). unfold lease_ok. rewrite Hlook.
    destruct (decide (sl_state l = new)) as [Heq|]; [|destruct (decide (active g = Some (sl_state l)))]; rewrite Hx; simpl;
      [by exists (set_accepting true x)|by exists (set_accepting false x)|by exists x].
Qed.

(** A generation and the leases change together; the leases of other generations do not. *)
Lemma heaps_ok skip g p s s' ls :
  gen_ok skip g → states g !! p = Some s → gs_generation s' = gs_generation s → gs_rules s' = gs_rules s →
  (∀ q x, q ≠ p → open_lease ls q x ↔ open_lease (leases g) q x) →
  (∀ x l, ls !! x = Some l → lease_ok g l) →
  state_ok (set_heaps g (states g) ls) skip p s' →
  gen_ok skip (set_heaps g (<[p := s']> (states g)) ls).
Proof.
  intros [Ha Hp Hs Hl] E Hg Hr Hopen Hls Hok.
  assert (Hlook : ∀ q x, states g !! q = Some x → ∃ y, <[p := s']> (states g) !! q = Some y ∧
    gs_generation y = gs_generation x ∧ gs_rules y = gs_rules x).
  { intros q x Hx. destruct (decide (p = q)) as [<-|]; [|by exists x; rewrite lookup_insert_ne].
    exists s'. rewrite lookup_insert_eq. by replace x with s by congruence. }
  assert (Hgen : ∀ q, generation_of (set_heaps g (<[p := s']> (states g)) ls) q = generation_of g q).
  { intros [q|]; [|done]. unfold generation_of, state_at. simpl. destruct (decide (p = q)) as [<-|].
    - by rewrite lookup_insert_eq, E; simpl; f_equal.
    - by rewrite lookup_insert_ne. }
  split.
  - intros q Hq. destruct (Ha q Hq) as [x Hx]. destruct (Hlook _ _ Hx) as (y & Hy & _). simpl. eauto.
  - intros q Hq. destruct (Hp q Hq) as (x & Hx & Hn). destruct (Hlook _ _ Hx) as (y & Hy & Hgy & _).
    exists y. split; [done|]. change (active (set_heaps g (<[p:=s']> (states g)) ls)) with (active g). rewrite Hgen, Hgy. done.
  - intros q x. simpl. rewrite lookup_insert_Some. intros [[<- <-]|[Hne Hx]]; [destruct Hok; by split|].
    destruct (Hs _ _ Hx). split; simpl; try done. intros lease. rewrite Hopen by done. auto.
  - intros x l Hx. destruct (Hls _ _ Hx) as (y & Hy & Hgy & Hc). destruct (Hlook _ _ Hy) as (z & Hz & Hgz & Hrz).
    exists z. simpl. by rewrite Hz, Hgz, Hrz.
Qed.

(** The state of a generation after one of its leases is released. *)
Definition released (s : generationState) (lease : nat) : generationState :=
  let streams := if (0 <? gs_streams s)%Z then (gs_streams s - 1)%Z else gs_streams s in
  let s' := set_leases streams (gs_leases s ∖ {[lease]}) s in
  if negb (gs_accepting s) && (streams =? 0)%Z then markDrained s' else s'.

Lemma release_states g p lease s :
  states g !! p = Some s → release g p lease = set_heaps g (<[p := released s lease]> (states g)) (leases g).
Proof.
  intros E. unfold release, released, upd, set_heaps. rewrite E. simpl.
  destruct (negb _ && _); simpl; f_equal; apply map_eq; intros q; (destruct (decide (p = q)) as [<-|];
    [rewrite !lookup_alter_eq, lookup_insert_eq, E; done|by rewrite !lookup_alter_ne, lookup_insert_ne by done]).
Qed.

Lemma CloseLease_eq g lease l s :
  leases g !! lease = Some l → sl_done l = false → states g !! sl_state l = Some s →
  CloseLease g lease =
  set_heaps g (<[sl_state l := released s lease]> (states g)) (<[lease := mkLease (sl_state l) (sl_match l) true]> (leases g)).
Proof. intros El Ed Es. unfold CloseLease. rewrite El, Ed. by rewrite (release_states _ _ _ _ Es). Qed.

Lemma released_fields s lease :
  gs_generation (released s lease) = gs_generation s ∧ gs_rules (released s lease) = gs_rules s ∧
  gs_index (released s lease) = gs_index s ∧ gs_ready (released s lease) = gs_ready s ∧
  gs_accepting (released s lease) = gs_accepting s ∧ gs_leases (released s lease) = gs_leases s ∖ {[lease]} ∧
  gs_streams (released s lease) = (if (0 <? gs_streams s)%Z then (gs_streams s - 1)%Z else gs_streams s).
Proof. unfold released, markDrained. destruct (negb _ && _); simpl; [destruct (gs_drained s)|]; done. Qed.

Lemma CloseLease_ok skip g lease : gen_ok skip g → gen_ok skip (CloseLease g lease).
Proof.
  intros Hg. unfold CloseLease. destruct (leases g !! lease) as [l|] eqn:El; [|done]. destruct (sl_done l) eqn:Ed; [done|].
  pose proof Hg as [Ha Hp Hs Hl]. destruct (Hl _ _ El) as (s & Es & Hgen & Hch).
  pose proof (CloseLease_eq g lease l s El Ed Es) as Heq. unfold CloseLease in Heq. rewrite El, Ed in Heq. rewrite Heq. clear Heq.
  destruct (released_fields s lease) as (F1 & F2 & F3 & F4 & F5 & F6 & F7).
  destruct (Hs _ _ Es) as [Hacc Hrd Hix Hru Hst Hmx Hpe Hca Hon Hdr Hle].
  assert (Hin : lease ∈ gs_leases s) by (apply Hle; by exists l).
  assert (Hsize : size (gs_leases s ∖ {[lease]}) = (size (gs_leases s) - 1)%nat)
    by (rewrite size_difference by set_solver; by rewrite size_singleton).
  assert (Hpos : (0 < size (gs_leases s))%nat).
  { destruct (decide (size (gs_leases s) = 0)%nat) as [Hz|]; [apply size_empty_inv in Hz; set_solver|lia]. }
  assert (Hstreams : gs_streams (released s lease) = Z.of_nat (size (gs_leases s ∖ {[lease]}))).
  { rewrite F7, Hst, Hsize. destruct (Z.ltb_spec 0 (Z.of_nat (size (gs_leases s)))); lia. }
  assert (Hother : ∀ q x, (q, x) ≠ (sl_state l, lease) →
    open_lease (<[lease := mkLease (sl_state l) (sl_match l) true]> (leases g)) q x ↔ open_lease (leases g) q x).
  { intros q x Hne. unfold open_lease. destruct (decide (lease = x)) as [<-|Hnx].
    - rewrite lookup_insert_eq, El. split; [by intros (y & [= <-] & _ & Hd)|]. intros (y & [= <-] & Hq & _). congruence.
    - by rewrite lookup_insert_ne. }
  apply (heaps_ok skip g _ s); [done..| | |].
  - intros q x Hq. apply Hother. congruence.
  - intros x y. rewrite lookup_insert_Some. intros [[<- <-]|[_ Hx]]; [by exists s|eauto].
  - assert (Hnp : gr_pending g ≠ Some (sl_state l)).
    { intros Hpp. destruct (Hpe Hpp) as (_ & Hz & _). set_solver. }
    split; simpl; rewrite ?F3, ?F4, ?F5, ?F2; try done.
    + by rewrite F6.
    + rewrite Hstreams, Hsize. rewrite Hst in Hmx. lia.
    + intros Hf _ _ Hz. rewrite F6 in Hz. unfold released. rewrite Hf.
      assert (Hs0 : gs_streams (released s lease) = 0%Z) by (by rewrite Hstreams, Hz, size_empty).
      rewrite F7 in Hs0. rewrite Hs0. simpl. unfold markDrained. simpl. destruct (gs_drained s) eqn:Edr; [|done]. auto.
    + intros Hd. unfold released, markDrained in *. repeat case_match; simpl in *; auto.
    + intros Hcl Hd. rewrite F6. unfold released in Hd.
      destruct (negb (gs_accepting s)) eqn:Ena; simpl in Hd.
      * apply negb_true_iff in Ena. split; [done|]. rewrite F7 in Hstreams.
        destruct (Z.eqb_spec (if (0 <? gs_streams s)%Z then (gs_streams s - 1)%Z else gs_streams s) 0) as [Hz|Hz].
        -- apply leibniz_equiv, size_empty_iff. lia.
        -- simpl in Hd. destruct (Hdr Hcl Hd) as [_ He]. set_solver.
      * destruct (Hdr Hcl Hd) as [Hf _]. rewrite Hf in Ena. done.
    + intros x. rewrite F6, elem_of_difference, elem_of_singleton. destruct (decide (x = lease)) as [->|Hx].
      * split; [naive_solver|]. intros (y & Hy & _ & Hd). rewrite lookup_insert_eq in Hy. by injection Hy as <-.
      * rewrite Hother by congruence. rewrite Hle. naive_solver.
Qed.

Lemma close_all_ok skip ls : ∀ g, gen_ok skip g → gen_ok skip (close_all g ls).
Proof. unfold close_all. induction ls as [|l ls IH]; intros g Hg; [done|]. simpl. apply IH. by apply CloseLease_ok. Qed.

Lemma accepting_state_Some g p s :
  accepting_state g = Some (p, s) ↔ active g = Some p ∧ states g !! p = Some s ∧ gs_accepting s = true.
Proof.
  unfold accepting_state. destruct (active g) as [a|]; [|naive_solver].
  destruct (states g !! a) as [x|] eqn:E; [|split; [done|intros ([= ->] & ? & _); congruence]].
  destruct (gs_accepting x) eqn:Ex; split; try done.
  - by intros [= <- <-].
  - intros ([= ->] & ? & _). congruence.
  - intros ([= ->] & ? & ?). congruence.
Qed.

Lemma acquire_commit_ok g chosen rule h p s :
  gen_ok None g → states g !! chosen = Some s → chooseRule (gs_rules s) h p = inr rule →
  gen_ok None (acquire_commit g chosen rule h p).1.
Proof.
  intros Hg Es Hch. unfold acquire_commit. destruct (accepting_state g) as [[a x]|] eqn:Ea; [|done].
  apply accepting_state_Some in Ea as (Hact & Ex & Hacc). destruct (Nat.eqb_spec a chosen) as [->|]; simpl; [|done].
  assert (x = s) as -> by congruence. destruct (Z.leb_spec (maximumStreams g) (gs_streams s)) as [|Hlt]; [done|]. simpl.
  set (lease := fresh (dom (leases g))). set (m := mkRouteMatch rule h p (gs_generation s)).
  assert (Hfresh : leases g !! lease = None) by (apply not_elem_of_dom, is_fresh).
  set (s' := set_leases (gs_streams s + 1) ({[lease]} ∪ gs_leases s) s).
  assert (Heq : alter (set_leases (gs_streams s + 1) ({[lease]} ∪ gs_leases s)) chosen (states g) = <[chosen := s']> (states g)).
  { apply map_eq. intros q. destruct (decide (chosen = q)) as [<-|]; [by rewrite lookup_alter_eq, lookup_insert_eq, Es|
      by rewrite lookup_alter_ne, lookup_insert_ne]. }
  unfold set_heaps, upd. simpl. rewrite Heq.
  pose proof Hg as [_ _ Hs Hl]. destruct (Hs _ _ Es) as [Hac Hrd Hix Hru Hst Hmx Hpe Hca Hon Hdr Hle].
  assert (Hnin : lease ∉ gs_leases s) by (rewrite Hle; intros (l & Hll & _); congruence).
  assert (Hopen : ∀ q x, open_lease (<[lease := mkLease chosen m false]> (leases g)) q x ↔
    (x = lease ∧ q = chosen) ∨ open_lease (leases g) q x).
  { intros q x. unfold open_lease. destruct (decide (lease = x)) as [<-|Hne].
    - rewrite lookup_insert_eq, Hfresh. naive_solver.
    - rewrite lookup_insert_ne by done. naive_solver. }
  apply (heaps_ok None g chosen s s'); [done..| | |].
  - intros q x Hq. rewrite Hopen. naive_solver.
  - intros x l. rewrite lookup_insert_Some. intros [[<- <-]|[_ Hx]]; [by exists s|eauto].
  - split; simpl; try done.
    + rewrite size_union by set_solver. rewrite size_singleton, Hst. lia.
    + lia.
    + intros Hpp. destruct (Hpe Hpp) as [Hf _]. congruence.
    + intros Hf. congruence.
    + intros Hcl Hd. destruct (Hdr Hcl Hd) as [Hf _]. congruence.
    + intros x. rewrite elem_of_union, elem_of_singleton, Hopen, Hle. naive_solver.
Qed.

(** ** Runs *)

Lemma normalizeRules_ok generation rules maximum result :
  normalizeRules generation rules maximum = inr result → ambiguous_pair result = false.
Proof.
  unfold normalizeRules. case_match; [done|]. destruct (normalize_loop _ _ rules); [done|].
  destruct (ambiguous_pair _) eqn:E; [done|]. by intros [= <-].
Qed.

Lemma StageGeneration_ok g generation rules :
  gen_ok None g → (0 ≤ maximumStreams g)%Z → gen_ok None (StageGeneration g generation rules).1.
Proof.
  intros Hg Hmax. unfold StageGeneration. destruct (generation =? 0)%Z; [done|].
  destruct (normalizeRules _ rules _) as [|normalized] eqn:En; [done|]. apply normalizeRules_ok in En.
  destruct (closed g); [done|].
  assert (Hnew : (∀ n, generation_of g (active g) = Some n → (n < generation)%Z) → gen_ok None (stage_new g generation normalized))
    by (intros; by apply stage_new_ok).
  unfold generation_of in Hnew.
  destruct (state_at g (active g)) as [s|] eqn:Ea.
  - destruct (Z.ltb_spec generation (gs_generation s)); [done|].
    destruct (Z.eqb_spec generation (gs_generation s)); [by case_bool_decide|].
    assert (Hn : gen_ok None (stage_new g generation normalized)) by (apply Hnew; simpl; intros ? [= <-]; lia).
    destruct (state_at g (gr_pending g)); [|done]. repeat case_match; done.
  - assert (Hn : gen_ok None (stage_new g generation normalized)) by (by apply Hnew).
    destruct (state_at g (gr_pending g)); [|done]. repeat case_match; done.
Qed.

Lemma MarkGenerationReady_ok g generation : gen_ok None g → gen_ok None (MarkGenerationReady g generation).1.
Proof.
  intros Hg. unfold MarkGenerationReady. repeat case_match; try done. simpl.
  destruct (gr_pending g); [by apply ready_ok|done].
Qed.

Lemma discardPending_ok g generation : gen_ok None g → gen_ok None (discardPending g generation).
Proof. intros Hg. unfold discardPending. case_match; [by apply discard_ok|done]. Qed.

(** After a promotion the old generation, if it has no leases, is marked as drained. *)
Lemma finish_promotion g old :
  gen_ok (Some old) g → active g ≠ Some old → gr_pending g ≠ Some old →
  gen_ok None (if (streams_of g old =? 0)%Z then upd g old markDrained else g).
Proof.
  intros Hg Hact Hpend. pose proof Hg as [_ _ Hs _]. unfold streams_of. destruct (states g !! old) as [s|] eqn:E; simpl.
  - destruct (Hs _ _ E) as [Hac Hrd Hix Hru Hst Hmx Hpe Hca Hon Hdr Hle].
    destruct (Z.eqb_spec (gs_streams s) 0) as [Hz|Hz].
    + apply (drained_ok (Some old)); [done|by right|done|]. intros x Hx. rewrite E in Hx. injection Hx as <-. split.
      * apply not_true_iff_false. rewrite Hac. done.
      * apply leibniz_equiv, size_empty_iff. lia.
    + apply (unskip g old); [done|]. intros x Hx He. rewrite E in Hx. injection Hx as <-. rewrite He, size_empty in Hst. lia.
  - apply (drained_ok (Some old)); [done|by right|done|]. intros x Hx. congruence.
Qed.

Lemma ActivateGeneration_ok g generation : gen_ok None g → gen_ok None (ActivateGeneration g generation).1.
Proof.
  intros Hg. unfold ActivateGeneration. destruct (closed g); [done|]. destruct (_ && _)%bool; [done|].
  destruct (gr_pending g) as [new|] eqn:Ep; [|by repeat case_match].
  destruct (state_at g (Some new)) as [s|] eqn:Es; [|by repeat case_match]. simpl in Es.
  destruct (negb (gs_generation s =? generation)%Z); [by repeat case_match|].
  destruct (gs_ready s) eqn:Er; [|done]. simpl.
  destruct (promote_ok g new s Hg Ep Es Er) as (Hpr & Ha' & Hp' & _).
  destruct (active g) as [old|] eqn:Ea; [|done].
  assert (Hne : old ≠ new).
  { intros ->. pose proof Hg as [_ _ Hs _]. destruct (Hs _ _ Es) as [Hac _ _ _ _ _ Hpe _ _ _ _].
    destruct (Hpe Ep) as [Hf _]. rewrite (proj2 Hac Ea) in Hf. done. }
  pose proof (finish_promotion (promote g new) old Hpr ltac:(congruence) ltac:(congruence)) as Hfin.
  by destruct (streams_of (promote g new) old =? 0)%Z.
Qed.

Lemma forceDrain_ok g old next : gen_ok None g → gen_ok None (forceDrain g old next).1.
Proof. intros Hg. unfold forceDrain. destruct (states g !! old); [|done]. by apply close_all_ok. Qed.

Lemma finish_drain_ok g old new o : gen_ok None g → gen_ok None (finish_drain g old new o).1.
Proof.
  intros Hg. destruct o; simpl; [done|by apply cancel_ok|].
  pose proof (forceDrain_ok g old (default [] (gs_rules <$> states g !! new)) Hg) as Hf.
  destruct (forceDrain g old _) as [g' n]. by case_match.
Qed.

(** Closing leases leaves the slots alone. *)
Lemma CloseLease_slots g lease : active (CloseLease g lease) = active g ∧ gr_pending (CloseLease g lease) = gr_pending g.
Proof. unfold CloseLease, release. repeat case_match; done. Qed.

Lemma close_all_slots ls : ∀ g, active (close_all g ls) = active g ∧ gr_pending (close_all g ls) = gr_pending g.
Proof.
  unfold close_all. induction ls as [|l ls IH]; intros g; [done|]. simpl. destruct (IH (CloseLease g l)) as [-> ->]. apply CloseLease_slots.
Qed.

Lemma fenced_ok g ctxErr generation identities :
  gen_ok None g → gen_ok None (ActivateGenerationFencedRoutes g ctxErr generation identities).1.
Proof.
  intros Hg. unfold ActivateGenerationFencedRoutes. destruct (bool_decide _); [done|]. destruct ctxErr; [done|].
  destruct (closed g); [done|]. destruct (_ && _)%bool; [done|].
  destruct (gr_pending g) as [new|] eqn:Ep; [|done].
  destruct (state_at g (Some new)) as [s|] eqn:Es; [|done]. simpl in Es.
  destruct (_ || _)%bool eqn:Eready; [done|]. to_prop. destruct (not_after_gen _ _); [done|].
  destruct (promote_ok g new s Hg Ep Es) as (Hpr & Ha' & Hp' & _); [done|].
  destruct (active g) as [old|] eqn:Ea; [|done].
  assert (Hne : old ≠ new).
  { intros ->. pose proof Hg as [_ _ Hs _]. destruct (Hs _ _ Es) as [Hac _ _ _ _ _ Hpe _ _ _ _].
    destruct (Hpe Ep) as [Hf _]. rewrite (proj2 Hac Ea) in Hf. done. }
  cbv zeta. set (fenced := match states g !! old with Some so => _ | None => [] end).
  destruct (close_all_slots fenced (promote g new)) as [Ha2 Hp2].
  apply (finish_promotion (close_all (promote g new) fenced) old); [by apply close_all_ok|congruence|congruence].
Qed.

Lemma CloseRegistry_ok g : gen_ok None g → gen_ok None (Close g).
Proof.
  intros Hg. unfold Close. destruct (closed g); [done|].
  assert (H1 : gen_ok None (set_closed g)).
  { destruct Hg as [Ha Hp Hs Hl]. split; [done..| |done]. intros p s E. destruct (Hs _ _ E). by split. }
  pose proof (upd_opt_cancel_ok None _ (gr_pending g) H1) as H2.
  destruct (upd_opt_slots (set_closed g) (gr_pending g) cancel) as (Ha & Hp & Hc & Hl).
  change (active (set_closed g)) with (active g) in Ha.
  destruct (active g) as [a|] eqn:Eact; [|done]. cbn [upd_opt]. eapply upd_ok; [exact H2| |done|].
  - intros s. apply (markDrained_keeps (cancel s)).
  - intros s Es Hs. destruct Hs as [Hac Hrd Hix Hru Hst Hmx Hpe Hca Hon Hdr Hle]. unfold markDrained. simpl.
    assert (Hpf : gr_pending (upd_opt (set_closed g) (gr_pending g) cancel) ≠ Some a).
    { intros Hpp. destruct (Hpe Hpp) as [Hf _]. rewrite (proj2 Hac Ha) in Hf. done. }
    rewrite Hc in Hdr. destruct (gs_drained s); split; simpl; try done; by rewrite Hc.
Qed.

Inductive GenOp :=
  | OStage (generation : Z) (rules : list RouteRule)
  | OReady (generation : Z)
  | ODiscard (generation : Z)
  | OActivate (generation : Z)
  | OFinish (old new : nat) (o : DrainOutcome)
  | OFenced (ctxErr : bool) (generation : Z) (identities : list RouteIdentity)
  | OCommit (chosen : nat) (rule : RouteRule) (h p : string)
  | OCloseLease (lease : nat)
  | OClose.

(** A rule is committed that was chosen from a generation, at some earlier time: its rules do not change. *)
Definition gen_allowed (g : GenerationRegistry) (o : GenOp) : Prop :=
  match o with
  | OCommit chosen rule h p => ∃ s, states g !! chosen = Some s ∧ chooseRuleFrom (gs_rules s) (Some (gs_index s)) h p = inr rule
  | _ => True
  end.

Definition gen_step (g : GenerationRegistry) (o : GenOp) : GenerationRegistry :=
  match o with
  | OStage n rules => (StageGeneration g n rules).1
  | OReady n => (MarkGenerationReady g n).1
  | ODiscard n => discardPending g n
  | OActivate n => (ActivateGeneration g n).1
  | OFinish old new o => (finish_drain g old new o).1
  | OFenced c n ids => (ActivateGenerationFencedRoutes g c n ids).1
  | OCommit chosen rule h p => (acquire_commit g chosen rule h p).1
  | OCloseLease lease => CloseLease g lease
  | OClose => Close g
  end.

Inductive gen_reach : GenerationRegistry → Prop :=
  | gr_new maxRoutes maxStreams g : NewGenerationRegistryWithOptions maxRoutes maxStreams = inr g → gen_reach g
  | gr_step g o : gen_reach g → gen_allowed g o → gen_reach (gen_step g o).

Lemma new_registry_ok maxRoutes maxStreams g :
  NewGenerationRegistryWithOptions maxRoutes maxStreams = inr g → gen_ok None g ∧ (0 < maximumStreams g)%Z.
Proof.
  unfold NewGenerationRegistryWithOptions. destruct (Z.ltb_spec maxStreams 0); [done|]. intros [= <-]. split.
  - split; simpl; [done|done|intros p s E; by rewrite lookup_empty in E|intros x l E; by rewrite lookup_empty in E].
  - simpl. destruct (Z.eqb_spec maxStreams 0); [done|lia].
Qed.

Lemma upd_opt_max g o f : maximumStreams (upd_opt g o f) = maximumStreams g.
Proof. by destruct o. Qed.

Lemma close_all_max ls : ∀ g, maximumStreams (close_all g ls) = maximumStreams g.
Proof.
  unfold close_all. induction ls as [|l ls IH]; intros g; [done|]. simpl. rewrite IH.
  unfold CloseLease, release. repeat case_match; done.
Qed.

Lemma gen_step_max g o : maximumStreams (gen_step g o) = maximumStreams g.
Proof.
  destruct o; simpl.
  - unfold StageGeneration, stage_new. repeat case_match; simpl; rewrite ?upd_opt_max; done.
  - unfold MarkGenerationReady. repeat case_match; simpl; rewrite ?upd_opt_max; done.
  - unfold discardPending. case_match; simpl; rewrite ?upd_opt_max; done.
  - unfold ActivateGeneration, promote. repeat case_match; simpl; rewrite ?upd_opt_max; done.
  - unfold finish_drain, forceDrain. destruct o; simpl; [done..|]. destruct (states g !! old); simpl; [|done].
    case_match; simpl; by rewrite close_all_max.
  - unfold ActivateGenerationFencedRoutes, promote. repeat case_match; simpl; rewrite ?upd_opt_max, ?close_all_max; simpl;
      rewrite ?upd_opt_max; done.
  - unfold acquire_commit. repeat case_match; done.
  - apply (close_all_max [lease]).
  - unfold Close. case_match; [done|]. by rewrite !upd_opt_max.
Qed.

Lemma gen_step_ok g o : gen_ok None g → (0 < maximumStreams g)%Z → gen_allowed g o → gen_ok None (gen_step g o).
Proof.
  intros Hg Hmax Ho. destruct o; simpl.
  - apply StageGeneration_ok; [done|lia].
  - by apply MarkGenerationReady_ok.
  - by apply discardPending_ok.
  - by apply ActivateGeneration_ok.
  - by apply finish_drain_ok.
  - by apply fenced_ok.
  - destruct Ho as (s & Es & Hc). apply (acquire_commit_ok _ _ _ _ _ s); [done|done|].
    by rewrite (so_index _ _ _ _ (go_states _ _ Hg _ _ Es)), choose_index in Hc.
  - by apply CloseLease_ok.
  - by apply CloseRegistry_ok.
Qed.

Lemma gen_reach_ok g : gen_reach g → gen_ok None g ∧ (0 < maximumStreams g)%Z.
Proof.
  induction 1 as [maxR maxS g Hn|g o _ [IH Hmax] Ho]; [by eapply new_registry_ok|].
  split; [by apply gen_step_ok|by rewrite gen_step_max].
Qed.

(** C2: the registry of generations is always consistent: whatever the order in which generations are staged, marked
    ready, promoted, fenced, drained and closed and streams acquired and released, only the active generation
    accepts streams; the stream count of every generation is the number of its open leases and never exceeds the
    limit; every lease carries the rule its own generation chooses for the request; a replaced generation without streams
    has its context cancelled; and, until the registry is closed, a drained generation has no open stream. *)
Theorem generation_invariant (g : GenerationRegistry) (Hg : gen_reach g) :
  (∀ p s, states g !! p = Some s →
     (gs_accepting s = true ↔ active g = Some p) ∧
     (∀ lease, lease ∈ gs_leases s ↔ open_lease (leases g) p lease) ∧
     gs_streams s = Z.of_nat (size (gs_leases s)) ∧ (gs_streams s ≤ maximumStreams g)%Z ∧
     (gs_accepting s = false → gr_pending g ≠ Some p → gs_leases s = ∅ → gs_cancelled s = true) ∧
     (closed g = false → gs_drained s = true → gs_accepting s = false ∧ gs_leases s = ∅)) ∧
  (∀ lease l, leases g !! lease = Some l → lease_ok g l) ∧
  (∀ p, gr_pending g = Some p → ∃ s, states g !! p = Some s ∧
     ∀ n, generation_of g (active g) = Some n → (n < gs_generation s)%Z).
Proof.
  apply gen_reach_ok in Hg as [[_ Hp Hs Hl] _]. split_and!; [|done|done].
  intros p s E. destruct (Hs _ _ E) as [Hac Hrd Hix Hru Hst Hmx Hpe Hca Hon Hdr Hle]. split_and!; try done. auto.
Qed.

(** ** Promotion *)

(** Generations keep their number and rules. *)
Definition grows (g g' : GenerationRegistry) : Prop :=
  ∀ p s, states g !! p = Some s → ∃ s', states g' !! p = Some s' ∧ gs_generation s' = gs_generation s ∧ gs_rules s' = gs_rules s.

#[local] Instance grows_preorder : PreOrder grows.
Proof.
  split; [intros g p s E; by exists s|]. intros g1 g2 g3 H12 H23 p s E.
  destruct (H12 p s E) as (s2 & E2 & ? & ?). destruct (H23 p s2 E2) as (s3 & ? & ? & ?). exists s3. split_and!; congruence.
Qed.

Lemma grows_upd g p f : keeps f → grows g (upd g p f).
Proof.
  intros Hk q s E. rewrite lookup_upd, E. case_decide; simpl; [|by exists s]. exists (f s). by destruct (Hk s).
Qed.

Lemma grows_upd_opt g o f : keeps f → grows g (upd_opt g o f).
Proof. destruct o; [apply grows_upd|reflexivity]. Qed.

Lemma CloseLease_grows g lease : grows g (CloseLease g lease).
Proof.
  unfold CloseLease. destruct (leases g !! lease) as [l|]; [|reflexivity]. destruct (sl_done l); [reflexivity|].
  intros p s E. simpl. unfold release. destruct (states g !! sl_state l) as [x|] eqn:Ex; [|by exists s].
  assert (Hk : keeps (set_leases (if (0 <? gs_streams x)%Z then (gs_streams x - 1)%Z else gs_streams x) (gs_leases x ∖ {[lease]})))
    by done.
  destruct (negb _ && _); simpl; [|exact (grows_upd g _ _ Hk p s E)].
  exact (transitivity (R := grows) (grows_upd g (sl_state l) _ Hk) (grows_upd _ (sl_state l) _ markDrained_keeps) p s E).
Qed.

Lemma close_all_grows ls : ∀ g, grows g (close_all g ls).
Proof.
  unfold close_all. induction ls as [|l ls IH]; intros g; [reflexivity|]. simpl. etrans; [apply CloseLease_grows|apply IH].
Qed.

Lemma promote_grows g new : grows g (promote g new).
Proof.
  unfold promote. etrans; [apply (grows_upd g new (set_accepting true)); done|]. 
  etrans; [apply (grows_upd_opt _ (active g) (set_accepting false)); done|]. by intros p s E; exists s.
Qed.

(** A step keeps the active generation, or promotes the pending one, which is ready. *)
Definition advances (g g' : GenerationRegistry) : Prop :=
  grows g g' ∧ (active g' = active g ∨
    ∃ p s, gr_pending g = Some p ∧ states g !! p = Some s ∧ gs_ready s = true ∧ active g' = Some p).

Lemma advances_same g g' : grows g g' → active g' = active g → advances g g'.
Proof. intros. split; auto. Qed.

Lemma stage_new_grows g n rules : grows g (stage_new g n rules).
Proof.
  unfold stage_new. etrans; [apply (grows_upd_opt g (gr_pending g) cancel); done|].
  set (g1 := upd_opt g (gr_pending g) cancel). intros p s E. exists s. simpl. rewrite lookup_insert_ne; [done|].
  intros Heq. assert (Hf : fresh (dom (states g1)) ∉ dom (states g1)) by apply is_fresh.
  apply Hf. rewrite Heq. apply elem_of_dom. eauto.
Qed.

Lemma gen_step_advances g o : advances g (gen_step g o).
Proof.
  destruct o; simpl.
  - assert (Hn : advances g g) by (by apply advances_same; [reflexivity|]).
    assert (Hs : ∀ rs, advances g (stage_new g generation rs)).
    { intros rs. apply advances_same; [apply stage_new_grows|]. unfold stage_new. simpl. apply upd_opt_slots. }
    unfold StageGeneration. repeat case_match; simpl; auto.
  - unfold MarkGenerationReady. repeat case_match; simpl; apply advances_same; try reflexivity;
      [by apply grows_upd_opt|apply upd_opt_slots].
  - unfold discardPending. case_match; apply advances_same; try reflexivity.
    etrans; [apply (grows_upd_opt g (gr_pending g) cancel); done|]. by intros p s E; exists s.
  - unfold ActivateGeneration. assert (Hn : advances g g) by (by apply advances_same; [reflexivity|]).
    destruct (closed g); [done|]. destruct (_ && _)%bool; [done|].
    destruct (gr_pending g) as [new|] eqn:Ep; [|by repeat case_match].
    destruct (state_at g (Some new)) as [s|] eqn:Es; [|by repeat case_match]. simpl in Es.
    destruct (negb (gs_generation s =? generation)%Z); [by repeat case_match|].
    destruct (gs_ready s) eqn:Er; [|done]. simpl.
    destruct (active g) as [old|]; [destruct (streams_of _ old =? 0)%Z|]; (split; [|right; by exists new, s]); simpl.
    + etrans; [apply promote_grows|apply grows_upd, markDrained_keeps].
    + apply promote_grows.
    + apply promote_grows.
  - destruct o; simpl; [by apply advances_same; [reflexivity|]|by apply advances_same; [apply grows_upd|]|].
    unfold forceDrain. destruct (states g !! old); simpl; [|by apply advances_same; [reflexivity|]].
    case_match; simpl; (apply advances_same; [apply close_all_grows|apply close_all_slots]).
  - unfold ActivateGenerationFencedRoutes. assert (Hn : advances g g) by (by apply advances_same; [reflexivity|]).
    destruct (bool_decide _); [done|]. destruct ctxErr; [done|]. destruct (closed g); [done|]. destruct (_ && _)%bool; [done|].
    destruct (gr_pending g) as [new|] eqn:Ep; [|done].
    destruct (state_at g (Some new)) as [s|] eqn:Es; [|done]. simpl in Es.
    destruct (_ || _)%bool eqn:Eready; [done|]. to_prop. destruct (not_after_gen _ _); [done|].
    destruct (active g) as [old|]; [|split; [apply promote_grows|right; by exists new, s]].
    cbv zeta. set (fenced := match states g !! old with Some so => _ | None => [] end). simpl.
    assert (Hgr : grows g (close_all (promote g new) fenced)) by (etrans; [apply promote_grows|apply close_all_grows]).
    assert (Hact : active (close_all (promote g new) fenced) = Some new) by (by destruct (close_all_slots fenced (promote g new)) as [-> _]).
    destruct (streams_of _ old =? 0)%Z; (split; [|right; by exists new, s]); [|done].
    etrans; [exact Hgr|apply grows_upd, markDrained_keeps].
  - unfold acquire_commit. destruct (accepting_state g) as [[a x]|]; [|by apply advances_same; [reflexivity|]].
    repeat case_match; simpl; apply advances_same; try reflexivity.
    etrans; [apply (grows_upd g a (set_leases (gs_streams x + 1) ({[fresh (dom (leases g))]} ∪ gs_leases x))); done|].
    by intros q s E; exists s.
  - apply advances_same; [apply CloseLease_grows|apply CloseLease_slots].
  - unfold Close. case_match; [by apply advances_same; [reflexivity|]|]. apply advances_same.
    + etrans; [|apply (grows_upd_opt _ (active g) (λ s, markDrained (cancel s))); intros s; apply (markDrained_keeps (cancel s))].
      etrans; [|apply (grows_upd_opt _ (gr_pending g) cancel); done]. by intros q s E; exists s.
    + destruct (upd_opt_slots (upd_opt (set_closed g) (gr_pending g) cancel) (active g) (λ s, markDrained (cancel s))) as [-> _].
      apply (upd_opt_slots (set_closed g)).
Qed.

(** C10: generations only move forward: no step gives a generation other rules or another number, once there is
    an active generation there always is one, its number never goes down, and it changes only to a
    strictly newer generation that was staged and marked ready. *)
Theorem generations_advance (g : GenerationRegistry) (o : GenOp) (Hg : gen_reach g) :
  grows g (gen_step g o) ∧
  (∀ n, generation_of g (active g) = Some n → ∃ n', generation_of (gen_step g o) (active (gen_step g o)) = Some n' ∧ (n ≤ n')%Z ∧
     (active (gen_step g o) ≠ active g → (n < n')%Z)) ∧
  (active (gen_step g o) ≠ active g → ∃ p s, gr_pending g = Some p ∧ states g !! p = Some s ∧ gs_ready s = true ∧
     active (gen_step g o) = Some p).
Proof.
  apply gen_reach_ok in Hg as [[Ha Hp _ _] _]. destruct (gen_step_advances g o) as [Hgr Hact]. split_and!; [done| |naive_solver].
  intros n Hn. unfold generation_of, state_at in Hn. destruct (active g) as [a|] eqn:Ea; [|done]. simpl in Hn.
  destruct (states g !! a) as [sa|] eqn:Esa; [|done]. simpl in Hn. injection Hn as <-.
  destruct Hact as [Hsame|(p & s & Hpe & Es & _ & Hp')].
  - rewrite Hsame. destruct (Hgr _ _ Esa) as (s' & E' & Hg' & _). exists (gs_generation s').
    unfold generation_of, state_at. simpl. rewrite E'. split_and!; [done|lia|done].
  - rewrite Hp'. destruct (Hgr _ _ Es) as (s' & E' & Hg' & _). exists (gs_generation s').
    destruct (Hp p Hpe) as (s1 & Es1 & Hlt). assert (s1 = s) as -> by congruence.
    assert (Hlt' : (gs_generation sa < gs_generation s)%Z) by (apply Hlt; unfold generation_of, state_at; simpl; by rewrite Esa).
    unfold generation_of, state_at. simpl. rewrite E'. split_and!; [done|lia|lia].
Qed.

(** ** Requests *)

(** C5: requests are served by the active generation: Match answers with the unique most specific matching rule of the
    active generation (looked up through its index), and refuses only when the request is malformed, there is no
    active generation or no rule matches: an accepted generation never fails a request as ambiguous. *)
Theorem match_serves (g : GenerationRegistry) (host requestPath : string) (Hg : gen_reach g) :
  match Match g host requestPath with
  | inr m => ∃ p s i, active g = Some p ∧ states g !! p = Some s ∧ rm_Generation m = gs_generation s ∧
      request host requestPath = Some (rm_Host m, rm_Path m) ∧ gs_rules s !! i = Some (rm_Rule m) ∧
      matches (rm_Host m) (rm_Path m) (rm_Rule m) = true ∧
      ∀ j r', gs_rules s !! j = Some r' → j ≠ i → matches (rm_Host m) (rm_Path m) r' = true →
        beats (candidate_for (rm_Host m) (rm_Rule m)) (candidate_for (rm_Host m) r')
  | inl e => e = ErrNoMatch ∧
      (request host requestPath = None ∨ accepting_state g = None ∨
       ∃ h p s, request host requestPath = Some (h, p) ∧ state_at g (active g) = Some s ∧
         ∀ r, r ∈ gs_rules s → matches h p r = false)
  end.
Proof.
  apply gen_reach_ok in Hg as [[_ _ Hs _] _]. unfold Match.
  destruct (request host requestPath) as [[h p]|] eqn:Er; [|auto].
  destruct (accepting_state g) as [[a s]|] eqn:Ea; [|auto].
  apply accepting_state_Some in Ea as (Hact & Es & _). destruct (Hs _ _ Es) as [_ _ Hix Hru _ _ _ _ _ _ _].
  rewrite Hix, choose_index. pose proof (chooseRule_spec (gs_rules s) h p) as Hc.
  assert (Hslash : strings.HasPrefix p "/" = true).
  { unfold request in Er. destruct (normalizeMatchHost host); [done|]. destruct (normalizeRequestPath requestPath) eqn:Ep; [done|].
    injection Er as _ <-. by eapply normalized_path_slash. }
  destruct (chooseRule (gs_rules s) h p) as [e|r].
  - destruct e; try done; [|by destruct (no_tie _ _ _ Hru Hslash Hc)].
    split; [done|]. right; right. exists h, p, s. by rewrite Hact.
  - simpl. destruct Hc as (i & Hi & Hm & Hall). exists a, s, i. by split_and!.
Qed.

(** C9: a stream is only ever leased from the active generation: when a rule was chosen from a generation and the
    registry moved on before the stream was counted, Acquire starts over and nothing changes; otherwise
    it either counts exactly one new open lease, carrying the rule the active generation chooses, or
    refuses because the generation is at its limit of streams. *)
Theorem leases_current (g : GenerationRegistry) (chosen : nat) (rule : RouteRule) (h p : string)
    (Hg : gen_reach g) (Ho : gen_allowed g (OCommit chosen rule h p)) :
  match acquire_commit g chosen rule h p with
  | (g', Retry) => g' = g ∧ active g ≠ Some chosen
  | (g', Refused e) => g' = g ∧ e = ErrStreamOverloaded ∧ active g = Some chosen ∧ streams_of g chosen = maximumStreams g
  | (g', Leased lease m) =>
      active g = Some chosen ∧ leases g !! lease = None ∧ (streams_of g chosen < maximumStreams g)%Z ∧
      (∃ s, states g !! chosen = Some s ∧ chooseRule (gs_rules s) h p = inr (rm_Rule m) ∧ rm_Generation m = gs_generation s) ∧
      ∀ q x, open_lease (leases g') q x ↔ open_lease (leases g) q x ∨ q = chosen ∧ x = lease
  end.
Proof.
  apply gen_reach_ok in Hg as [[Ha _ Hs _] _]. destruct Ho as (s & Es & Hc).
  destruct (Hs _ _ Es) as [Hac _ Hix _ _ Hmx _ _ _ _ _]. rewrite Hix, choose_index in Hc.
  unfold acquire_commit. destruct (accepting_state g) as [[a x]|] eqn:Eacc.
  - apply accepting_state_Some in Eacc as (Hact & Ex & Hax).
    destruct (Nat.eqb_spec a chosen) as [->|Hne]; simpl; [|split; [done|congruence]].
    assert (x = s) as -> by congruence. unfold streams_of. rewrite Es. simpl.
    destruct (Z.leb_spec (maximumStreams g) (gs_streams s)); simpl; [split_and!; [done|done|done|lia]|].
    assert (Hfresh : leases g !! fresh (dom (leases g)) = None) by (apply not_elem_of_dom, is_fresh).
    split_and!; [done|done|lia|by exists s|]. intros q y. unfold open_lease.
    destruct (decide (fresh (dom (leases g)) = y)) as [<-|Hny].
    + rewrite lookup_insert_eq, Hfresh. naive_solver.
    + rewrite lookup_insert_ne by done. naive_solver.
  - simpl. split; [done|]. intros Hact. assert (Hx : accepting_state g = Some (chosen, s)); [|congruence].
    apply accepting_state_Some. split_and!; [done|done|by apply Hac].
Qed.

(** ** Draining and fencing *)

Lemma elem_of_leases_where g s f x :
  x ∈ leases_where g s f ↔ x ∈ gs_leases s ∧ ∃ r, lease_rule g x = Some r ∧ f r = true.
Proof.
  unfold leases_where. rewrite list_elem_of_In, filter_In, <-list_elem_of_In, list_elem_of_fmap. 
  assert (Hr : (∃ y : nat * unit, x = y.1 ∧ y ∈ range 20 (set_to_map (λ l, (l, tt)) (gs_leases s) : gmap nat unit)) ↔ x ∈ gs_leases s).
  { split.
    - intros ([y []] & -> & Hy). apply elem_of_range, lookup_set_to_map in Hy; [|done]. by destruct Hy as (z & ? & [= <-]).
    - intros Hx. exists (x, tt). split; [done|]. apply elem_of_range, lookup_set_to_map; [done|]. by exists x. }
  rewrite Hr. destruct (lease_rule g x) as [r|]; naive_solver.
Qed.

Lemma CloseLease_leases g lease q x :
  (∀ l, leases g !! lease = Some l → is_Some (states g !! sl_state l)) →
  open_lease (leases (CloseLease g lease)) q x ↔ open_lease (leases g) q x ∧ x ≠ lease.
Proof.
  intros Hst. unfold CloseLease. destruct (leases g !! lease) as [l|] eqn:El.
  - destruct (sl_done l) eqn:Ed.
    + split; [|naive_solver]. intros Ho. split; [done|]. intros ->. destruct Ho as (y & Hy & _ & Hf). congruence.
    + simpl. assert (Hl : leases (release g (sl_state l) lease) = leases g) by (unfold release; repeat case_match; done).
      rewrite Hl. unfold open_lease. destruct (decide (lease = x)) as [<-|Hne].
      * rewrite lookup_insert_eq. split; [by intros (y & [= <-] & _ & Hf)|naive_solver].
      * rewrite lookup_insert_ne by done. naive_solver.
  - split; [|naive_solver]. intros Ho. split; [done|]. intros ->. destruct Ho as (y & Hy & _). congruence.
Qed.

Lemma close_all_leases skip ls : ∀ g, gen_ok skip g → ∀ q x,
  open_lease (leases (close_all g ls)) q x ↔ open_lease (leases g) q x ∧ x ∉ ls.
Proof.
  unfold close_all. induction ls as [|l ls IH]; intros g Hg q x; simpl.
  - split; [|naive_solver]. intros Ho. split; [done|apply not_elem_of_nil].
  - rewrite IH by by apply CloseLease_ok. rewrite CloseLease_leases, not_elem_of_cons; [naive_solver|].
    intros y Hy. destruct (go_leases _ _ Hg _ _ Hy) as (s & Hs & _). eauto.
Qed.

(** A drain that times out ends exactly the streams that are no longer authorised: forceDrain closes the open
    leases of the old generation whose route is not kept by the next rules (same route, connector and access
    policy), leaves every other stream of every generation open, and returns 0 exactly when it ended none. *)
Theorem drain_spares_unchanged (g : GenerationRegistry) (old : nat) (next : list RouteRule) (Hg : gen_reach g) :
  let g' := (forceDrain g old next).1 in
  let ended q x := q = old ∧ ∃ r, lease_rule g x = Some r ∧ streamSurvives r next = false in
  (∀ q x, open_lease (leases g') q x ↔ open_lease (leases g) q x ∧ ¬ ended q x) ∧
  ((forceDrain g old next).2 = 0%Z ↔ ∀ x, open_lease (leases g) old x → ¬ ended old x).
Proof.
  apply gen_reach_ok in Hg as [Hg _]. pose proof Hg as [_ _ Hs Hl]. unfold forceDrain.
  assert (Hrule : ∀ q x, open_lease (leases g) q x → ∃ r, lease_rule g x = Some r).
  { intros q x (l & Hll & _). exists (rm_Rule (sl_match l)). unfold lease_rule. by rewrite Hll. }
  destruct (states g !! old) as [s|] eqn:Es; simpl.
  - destruct (Hs _ _ Es) as [_ _ _ _ _ _ _ _ _ _ Hle].
    assert (Hend : ∀ q x, open_lease (leases g) q x →
      x ∈ leases_where g s (λ r, negb (streamSurvives r next)) ↔ q = old ∧ ∃ r, lease_rule g x = Some r ∧ streamSurvives r next = false).
    { intros q x Ho. rewrite elem_of_leases_where, Hle. setoid_rewrite negb_true_iff. split; [|naive_solver].
      intros [Ho2 Hr]. split; [|done]. destruct Ho as (l & Hll & <- & _), Ho2 as (l' & Hll' & <- & _). congruence. }
    split.
    + intros q x. rewrite (close_all_leases None) by done. split; intros [Ho Hx]; (split; [done|]);
        intros He; apply Hx; by apply (Hend q x Ho).
    + split.
      * intros Hz x Ho He. apply (Hend _ _ Ho) in He. destruct (leases_where _ _ _); [by apply elem_of_nil in He|done].
      * intros Hall. destruct (leases_where g s _) as [|x xs] eqn:Ew; [done|exfalso].
        assert (Hx : x ∈ leases_where g s (λ r, negb (streamSurvives r next))) by (rewrite Ew; left).
        pose proof Hx as [Hin _]%elem_of_leases_where. apply Hle in Hin. apply (Hall x Hin). apply (Hend old x Hin). left.
  - assert (Hno : ∀ x, ¬ open_lease (leases g) old x).
    { intros x (l & Hll & <- & _). destruct (Hl _ _ Hll) as (y & Hy & _). congruence. }
    split; [|split; [intros _ x Ho; by destruct (Hno x)|done]]. intros q x. split; [|naive_solver].
    intros Ho. split; [done|]. intros [-> _]. by destruct (Hno x).
Qed.

(** A policy fence is immediate and exact: when ActivateGenerationFencedRoutes promotes a ready generation, the new
    generation is active and the old one accepts nothing, and the streams it ends are exactly the old
    generation's streams on the fenced routes (by account, tunnel and route), all others staying open. *)
Theorem fence_exact (g : GenerationRegistry) (new : nat) (s so : generationState) (old : nat) (identities : list RouteIdentity)
    (Hg : gen_reach g) (Hpend : gr_pending g = Some new) (Hnew : states g !! new = Some s) (Hready : gs_ready s = true)
    (Hact : active g = Some old) (Hold : states g !! old = Some so) (Hclosed : closed g = false) (Hids : identities ≠ []) :
  let '(g', res) := ActivateGenerationFencedRoutes g false (gs_generation s) identities in
  res = inr tt ∧ active g' = Some new ∧ gr_pending g' = None ∧
  (∀ q x, open_lease (leases g') q x ↔ open_lease (leases g) q x ∧
     ¬ (q = old ∧ ∃ r, lease_rule g x = Some r ∧ fenced_by identities r = true)).
Proof.
  apply gen_reach_ok in Hg as [Hg _]. pose proof Hg as [_ Hp Hs Hl].
  destruct (Hp new Hpend) as (s1 & Es1 & Hlt). assert (s1 = s) as -> by congruence.
  assert (Hgo : generation_of g (active g) = Some (gs_generation so)) by (unfold generation_of, state_at; rewrite Hact; simpl; by rewrite Hold).
  specialize (Hlt _ Hgo). unfold ActivateGenerationFencedRoutes.
  rewrite bool_decide_false by done. rewrite Hclosed, Hgo, Hpend. cbn [is_generation not_after_gen state_at mbind option_bind].
  rewrite (bool_decide_false (Some new = None)) by done. rewrite andb_false_r, Hnew, Z.eqb_refl, Hready. cbn [negb orb].
  destruct (Z.leb_spec (gs_generation s) (gs_generation so)); [lia|]. rewrite Hact, Hold.
  destruct (promote_ok g new s Hg Hpend Hnew Hready) as (Hpr & Ha' & Hp' & Hls).
  set (fenced := leases_where g so (fenced_by identities)).
  destruct (close_all_slots fenced (promote g new)) as [Ha2 Hp2].
  assert (Hopen : ∀ q x, open_lease (leases (close_all (promote g new) fenced)) q x ↔ open_lease (leases g) q x ∧
     ¬ (q = old ∧ ∃ r, lease_rule g x = Some r ∧ fenced_by identities r = true)).
  { intros q x. rewrite (close_all_leases (active g)) by done. rewrite Hls. unfold fenced.
    destruct (Hs _ _ Hold) as [_ _ _ _ _ _ _ _ _ _ Hle].
    split; intros [Ho Hx]; (split; [done|]); rewrite elem_of_leases_where, Hle in *.
    - intros [-> Hr]. by apply Hx.
    - intros [Ho2 Hr]. apply Hx. split; [|done]. destruct Ho as (l & Hll & <- & _), Ho2 as (l' & Hll' & <- & _). congruence. }
  cbn [ok]. destruct (streams_of _ old =? 0)%Z; simpl; (split_and!; [done|congruence|congruence|exact Hopen]).
Qed.

End generations.

(** ** A concrete registry: two generations, one stream *)

Definition eval_gen_step := gen_step (H := eval_runtime) (H0 := eval_idna).
Definition eval_gen_reach := gen_reach (H := eval_runtime) (H0 := eval_idna).

Definition web_rule : RouteRule :=
  match chooseRule sample_generation "app.example.com" "/" with inr r => r | inl _ => basic_rule "" "" "" "" "" "" "" end.

Definition activated : GenerationRegistry :=
  eval_gen_step (eval_gen_step (eval_gen_step (mkRegistry 10 2 None None false ∅ ∅) (OStage 7 sample_rules)) (OReady 7)) (OActivate 7).

Definition leased : GenerationRegistry := eval_gen_step activated (OCommit 0 web_rule "app.example.com" "/").

Definition restaged : GenerationRegistry :=
  eval_gen_step (eval_gen_step leased (OStage 8 [basic_rule "api" TunnelHTTPSWSS "exact" "app.example.com" "" "/api/" "binding-2"]))
    (OReady 8).

Lemma activated_reach : eval_gen_reach activated.
Proof. do 3 (apply gr_step; [|exact I]). apply (gr_new 10 2). reflexivity. Qed.

Lemma activated_allowed : gen_allowed activated (OCommit 0 web_rule "app.example.com" "/").
Proof. eexists. split; vm_compute; reflexivity. Qed.

Lemma leased_reach : eval_gen_reach leased.
Proof. apply gr_step; [exact activated_reach|exact activated_allowed]. Qed.

Lemma restaged_reach : eval_gen_reach restaged.
Proof. do 2 (apply gr_step; [|exact I]). exact leased_reach. Qed.

Lemma generation_invariant_witness :
  ∃ s, states leased !! 0%nat = Some s ∧ gs_streams s = 1%Z ∧ (gs_accepting s = true ↔ active leased = Some 0%nat).
Proof.
  eexists. split; [vm_compute; reflexivity|]. split; [vm_compute; reflexivity|].
  apply (proj1 (generation_invariant (H := eval_runtime) (H0 := eval_idna) leased leased_reach) 0%nat). vm_compute. reflexivity.
Defined.

Lemma generations_advance_witness :
  active (eval_gen_step restaged (OActivate 8)) = Some 1%nat ∧ grows restaged (eval_gen_step restaged (OActivate 8)).
Proof.
  split; [vm_compute; reflexivity|].
  exact (proj1 (generations_advance (H := eval_runtime) (H0 := eval_idna) restaged (OActivate 8) restaged_reach)).
Defined.

Lemma match_serves_witness :
  ∃ m, Match (H := eval_runtime) (H0 := eval_idna) activated "App.example.com:443" "/api/v1" = inr m ∧ rr_ID (rm_Rule m) = "api" ∧
  matches (rm_Host m) (rm_Path m) (rm_Rule m) = true.
Proof.
  pose proof (match_serves (H := eval_runtime) (H0 := eval_idna) activated "App.example.com:443" "/api/v1" activated_reach) as Hm.
  destruct (Match (H := eval_runtime) (H0 := eval_idna) activated "App.example.com:443" "/api/v1") as [e|m] eqn:E;
    [vm_compute in E; discriminate E|].
  exists m. destruct Hm as (p & s & i & _ & _ & _ & _ & _ & Hmm & _). split_and!; [reflexivity| |exact Hmm].
  vm_compute in E. injection E as <-. reflexivity.
Defined.

Lemma leases_current_witness :
  ∃ lease m, (acquire_commit activated 0 web_rule "app.example.com" "/").2 = Leased lease m ∧ leases activated !! lease = None.
Proof.
  pose proof (leases_current (H := eval_runtime) (H0 := eval_idna) activated 0 web_rule "app.example.com" "/" activated_reach
    activated_allowed) as Hm.
  destruct (acquire_commit activated 0 web_rule "app.example.com" "/") as [g' a] eqn:E.
  destruct a as [|e|lease m]; [vm_compute in E; discriminate E..|].
  exists lease, m. split; [reflexivity|]. apply Hm.
Defined.

Lemma drain_spares_unchanged_witness :
  (forceDrain (H := eval_runtime) leased 0 []).2 = 1%Z ∧
  ¬ open_lease (leases (forceDrain (H := eval_runtime) leased 0 []).1) 0 0.
Proof.
  split; [vm_compute; reflexivity|]. intros Ho.
  apply (proj1 (drain_spares_unchanged (H := eval_runtime) (H0 := eval_idna) leased 0 [] leased_reach)) in Ho as [_ Hn].
  apply Hn. split; [reflexivity|]. exists web_rule. split; vm_compute; reflexivity.
Defined.

Lemma fence_exact_witness :
  let '(g', res) := ActivateGenerationFencedRoutes (H := eval_runtime) restaged false 8 [mkRouteIdentity "" "" "web"] in
  res = inr tt ∧ active g' = Some 1%nat ∧ ¬ open_lease (leases g') 0 0.
Proof.
  destruct (states restaged !! 1%nat) as [s|] eqn:Es; [|vm_compute in Es; discriminate Es].
  destruct (states restaged !! 0%nat) as [so|] eqn:Eo; [|vm_compute in Eo; discriminate Eo].
  assert (Hs : (λ s, (gs_generation s, gs_ready s)) <$> states restaged !! 1%nat = Some (8%Z, true)) by (vm_compute; reflexivity).
  rewrite Es in Hs. injection Hs as Hs8 Hsr.
  pose proof (fence_exact (H := eval_runtime) (H0 := eval_idna) restaged 1 s so 0 [mkRouteIdentity "" "" "web"] restaged_reach
    ltac:(vm_compute; reflexivity) Es Hsr ltac:(vm_compute; reflexivity) Eo ltac:(vm_compute; reflexivity) ltac:(discriminate)) as Hf.
  rewrite Hs8 in Hf. destruct (ActivateGenerationFencedRoutes _ _ _ _) as [g' res].
  destruct Hf as (Hr & Ha & _ & Hopen). split_and!; [exact Hr|exact Ha|]. intros Ho. apply Hopen in Ho as [_ Hn].
  apply Hn. split; [reflexivity|]. exists web_rule. split; vm_compute; reflexivity.
Defined.
