(* ===== verification/Registry.v ===== *)
(** * The registry of route attachments: Registry of tunnel/internal/route/route.go

    Attachments by ID, the owner of every host, and a channel per host that is closed when the owner may have
    changed.  Channels are numbers; [closedChans] are the closed ones.  Before a complete generation is
    active, requests are matched against the attachments. *)
From S2P Require Import Prelude GoStd GoNet RouteRule Matching Generations.

Record Registry := mkReg {
  previewBaseDomain : string;
  runtimeBaseDomain : string;
  byID : gmap string Attachment;
  ownerOf : gmap string string;  (** byHost *)
  changed : gmap string nat;
  closedChans : gset nat;
  nextChan : nat;                (** channels are made in order *)
  matcher : Generations.GenerationRegistry;
}.

Definition set_routes (r : Registry) (ids : gmap string Attachment) (hosts : gmap string string) : Registry :=
  mkReg (previewBaseDomain r) (runtimeBaseDomain r) ids hosts (changed r) (closedChans r) (nextChan r) (matcher r).

Definition set_chans (r : Registry) (ch : gmap string nat) (cl : gset nat) (n : nat) : Registry :=
  mkReg (previewBaseDomain r) (runtimeBaseDomain r) (byID r) (ownerOf r) ch cl n (matcher r).

Section registry.
Context `{GoRuntime} `{IDNA}.

Definition NewRegistryWithOptions (preview runtime : string) (maxStreams : Z) : RouteError + Registry :=
  match Generations.NewGenerationRegistryWithOptions 0 maxStreams with
  | inl e => inl e
  | inr m => inr (mkReg (normalizeHost preview) (normalizeHost runtime) ∅ ∅ ∅ ∅ 0 m)
  end.

(** changedLocked: the channel of a host, made when there is none. *)
Definition changedLocked (r : Registry) (host : string) : Registry * nat :=
  match changed r !! host with
  | Some c => (r, c)
  | None => (set_chans r (<[host := nextChan r]> (changed r)) (closedChans r) (S (nextChan r)), nextChan r)
  end.

Definition Changed (r : Registry) (host : string) : Registry * nat := changedLocked r (normalizeHost host).

Definition signalChangedLocked (r : Registry) (host : string) : Registry :=
  let '(r, c) := changedLocked r host in
  set_chans r (<[host := nextChan r]> (changed r)) ({[c]} ∪ closedChans r) (S (nextChan r)).

Definition attach_invalid (r : Registry) (a : Attachment) : bool :=
  String.eqb (at_ID a) "" || (at_Revision a =? 0)%Z || String.eqb (at_Environment a) "" || String.eqb (at_Node a) ""
  || (at_Generation a =? 0)%Z || String.eqb (at_Host a) "" || String.eqb (at_Target a) ""
  || negb (String.eqb (at_Kind a) HelperHTTPSWSS) && negb (String.eqb (at_Kind a) PreviewHTTPSWSS).

Definition expectedDomain (r : Registry) (a : Attachment) : string :=
  if String.eqb (at_Kind a) HelperHTTPSWSS then runtimeBaseDomain r else previewBaseDomain r.

(** An older revision, or other content under the same one. *)
Definition stale (current a : Attachment) : bool :=
  (at_Revision a <? at_Revision current)%Z || (at_Revision a =? at_Revision current)%Z && negb (sameRoute current a).

Definition Attach (r : Registry) (a : Attachment) : Registry * (RouteError + Attachment) :=
  let a := with_host a (normalizeHost (at_Host a)) in
  if attach_invalid r a then (r, inl ErrInvalid)
  else if String.eqb (expectedDomain r a) "" || negb (one_label_below (at_Host a) (expectedDomain r a)) then (r, inl ErrInvalid)
  else
    let install :=
      if match ownerOf r !! at_Host a with Some owner => negb (String.eqb owner (at_ID a)) | None => false end then (r, inl ErrConflict)
      else
        let hosts := match byID r !! at_ID a with Some current => delete (at_Host current) (ownerOf r) | None => ownerOf r end in
        (signalChangedLocked (set_routes r (<[at_ID a := a]> (byID r)) (<[at_Host a := at_ID a]> hosts)) (at_Host a), inr a) in
    match byID r !! at_ID a with
    | Some current => if bool_decide (current = a) then (r, inr current) else if stale current a then (r, inl ErrStale) else install
    | None => install
    end.

Definition Detach (r : Registry) (id : string) (revision : Z) : Registry * option RouteError :=
  match byID r !! id with
  | None => (r, None)
  | Some a =>
      if negb (revision =? at_Revision a)%Z then (r, Some ErrStale)
      else (signalChangedLocked (set_routes r (delete id (byID r)) (delete (at_Host a) (ownerOf r))) (at_Host a), None)
  end.

Definition Get (r : Registry) (id : string) : option Attachment := byID r !! id.

Definition Owns (r : Registry) (a : Attachment) : bool :=
  match byID r !! at_ID a with Some current => sameRoute current a | None => false end.

Definition RouteState (r : Registry) (host : string) : option (string * string * string) :=
  if Generations.HasActiveGeneration (matcher r) then Generations.RouteState (matcher r) host
  else id ← ownerOf r !! normalizeHost host;
       a ← byID r !! id;
       Some (at_Kind a, at_PreviewState a, at_PreviewReason a).

(** The attachments as rules in normal form; range site 21. *)
Fixpoint attachment_rules (l : list Attachment) : RouteError + list RouteRule :=
  match l with
  | [] => inr []
  | a :: l' =>
      let rule := attachmentToRule a in
      match normalizeRule (rr_Generation rule) rule with
      | inl e => inl e
      | inr normalized => match attachment_rules l' with inl e => inl e | inr rules => inr (normalized :: rules) end
      end
  end.

Definition Match (r : Registry) (host requestPath : string) : RouteError + RouteMatch :=
  if Generations.HasActiveGeneration (matcher r) then Generations.Match (matcher r) host requestPath
  else match attachment_rules (snd <$> range 21 (byID r)) with
  | inl e => inl e
  | inr rules =>
      match Generations.request host requestPath with
      | None => inl ErrNoMatch
      | Some (h, p) =>
          match chooseRule rules h p with
          | inl e => inl e
          | inr rule => inr (mkRouteMatch rule h p (rr_Generation rule))
          end
      end
  end.

Definition HasHTTPSHostname (r : Registry) (host : string) : bool :=
  if Generations.HasActiveGeneration (matcher r) then Generations.HasHTTPSHostname (matcher r) host
  else match normalizeMatchHost host with
  | inl _ => false
  | inr h =>
      existsb (λ ka, let rule := attachmentToRule ka.2 in
                     match normalizeRule (rr_Generation rule) rule with
                     | inr normalized => httpsHostnameMatch normalized h
                     | inl _ => false
                     end) (range 22 (byID r))
  end.

Definition Snapshot (r : Registry) : list Attachment :=
  sort_by (λ a b, str_ltb (at_ID a) (at_ID b)) (snd <$> range 23 (byID r)).

(** ** Replace *)

Fixpoint attach_all (r : Registry) (l : list Attachment) : RouteError + Registry :=
  match l with
  | [] => inr r
  | a :: l' => match Attach r a with (_, inl e) => inl e | (r', inr _) => attach_all r' l' end
  end.

(** The next registry has its own matcher, which Replace does not keep. *)
Definition emptied (r : Registry) : Registry :=
  mkReg (normalizeHost (previewBaseDomain r)) (normalizeHost (runtimeBaseDomain r)) ∅ ∅ ∅ ∅ 0 (matcher r).

Definition route_changed (r next : Registry) (host id : string) : bool :=
  match ownerOf next !! host with
  | None => true
  | Some nextID =>
      negb (String.eqb nextID id)
      || match byID r !! id, byID next !! nextID with Some a, Some b => negb (sameRoute a b) | _, _ => true end
  end.

(** The hosts to signal; range sites 24 to 26. *)
Definition changedHosts (r next : Registry) : gset string :=
  list_to_set ((fst <$> List.filter (λ hi, route_changed r next hi.1 hi.2) (range 24 (ownerOf r))) ++
               (fst <$> List.filter (λ hi, bool_decide (ownerOf r !! hi.1 = None)) (range 25 (ownerOf next)))).

Definition replace_stale (r next : Registry) : bool :=
  existsb (λ ic, match byID next !! ic.1 with Some replacement => stale ic.2 replacement | None => false end) (range 26 (byID r)).

Definition signal_all (r : Registry) (hosts : list string) : Registry := foldl signalChangedLocked r hosts.

Definition Replace (r : Registry) (attachments : list Attachment) : Registry * option RouteError :=
  match attach_all (emptied r) attachments with
  | inl e => (r, Some e)
  | inr next =>
      if replace_stale r next then (r, Some ErrStale)
      else (signal_all (set_routes r (byID next) (ownerOf next))
              (fst <$> range 27 (set_to_map (λ h, (h, tt)) (changedHosts r next) : gmap string unit)), None)
  end.

(** ** The invariant *)

Record reg_ok (r : Registry) : Prop := {
  rk_id : ∀ id a, byID r !! id = Some a → at_ID a = id ∧ ownerOf r !! at_Host a = Some id;
  rk_host : ∀ h id, ownerOf r !! h = Some id → ∃ a, byID r !! id = Some a ∧ at_Host a = h;
  rk_open : ∀ h c, changed r !! h = Some c → ¬ c ∈ closedChans r ∧ (c < nextChan r)%nat;
  rk_distinct : ∀ h h' c, changed r !! h = Some c → changed r !! h' = Some c → h = h';
  rk_closed : ∀ c, c ∈ closedChans r → (c < nextChan r)%nat;
}.

(** Only the channels changed, or only the routes. *)
Definition same_routes (r r' : Registry) : Prop := byID r' = byID r ∧ ownerOf r' = ownerOf r.

Lemma changedLocked_ok r h : reg_ok r → reg_ok (changedLocked r h).1.
Proof.
  intros [Hi Ho Hop Hd Hc]. unfold changedLocked. destruct (changed r !! h) as [c|] eqn:E; [by split|].
  split; simpl; [done|done| | |].
  - intros h' c. rewrite lookup_insert_Some. intros [[<- <-]|[_ Hh]].
    + split; [|lia]. intros Hin. specialize (Hc _ Hin). lia.
    + destruct (Hop _ _ Hh). split; [done|lia].
  - intros h1 h2 c. rewrite !lookup_insert_Some. intros [[<- <-]|[_ Hh1]] [[<- ?]|[_ Hh2]]; [done| | |by eapply Hd].
    + destruct (Hop _ _ Hh2). lia.
    + destruct (Hop _ _ Hh1). lia.
  - intros c Hin. specialize (Hc c Hin). lia.
Qed.

Lemma changedLocked_spec r h :
  changed (changedLocked r h).1 !! h = Some (changedLocked r h).2 ∧ closedChans (changedLocked r h).1 = closedChans r ∧
  (∀ c, changed r !! h = Some c → changedLocked r h = (r, c)) ∧
  (∀ h', h' ≠ h → changed (changedLocked r h).1 !! h' = changed r !! h') ∧
  (nextChan r ≤ nextChan (changedLocked r h).1)%nat ∧ same_routes r (changedLocked r h).1.
Proof.
  unfold changedLocked, same_routes. destruct (changed r !! h) as [c|] eqn:E; simpl.
  - split_and!; try done. by intros ? [= <-].
  - split_and!; [apply lookup_insert_eq|done|done|intros; by apply lookup_insert_ne|lia|done|done].
Qed.

Lemma signal_ok r h : reg_ok r → reg_ok (signalChangedLocked r h).
Proof.
  intros Hr. pose proof (changedLocked_ok r h Hr) as Hok. destruct (changedLocked_spec r h) as (Hc & _).
  unfold signalChangedLocked. destruct (changedLocked r h) as [r1 c]. simpl in *.
  destruct Hok as [Hi Ho Hop Hd Hcl]. destruct (Hop _ _ Hc) as [Hnc Hlt]. split; simpl; [done|done| | |].
  - intros h' c'. rewrite lookup_insert_Some. intros [[<- <-]|[Hne Hh]].
    + split; [|lia]. intros [Heq%elem_of_singleton|Hin]%elem_of_union; [lia|]. specialize (Hcl _ Hin). lia.
    + destruct (Hop _ _ Hh). split; [|lia]. intros [Heq%elem_of_singleton|Hin]%elem_of_union; [|done].
      apply Hne. subst. by eapply Hd.
  - intros h1 h2 c'. rewrite !lookup_insert_Some. intros [[<- <-]|[_ Hh1]] [[<- ?]|[_ Hh2]]; [done| | |by eapply Hd].
    + destruct (Hop _ _ Hh2). lia.
    + destruct (Hop _ _ Hh1). lia.
  - intros c' [Heq%elem_of_singleton|Hin]%elem_of_union; [lia|]. specialize (Hcl _ Hin). lia.
Qed.

(** Signalling a host closes the channel its waiters hold and no other. *)
Lemma signal_spec r h c h' :
  reg_ok r → changed r !! h' = Some c →
  (c ∈ closedChans (signalChangedLocked r h) ↔ h' = h) ∧ (h' ≠ h → changed (signalChangedLocked r h) !! h' = Some c).
Proof.
  intros Hr Hc. pose proof (changedLocked_ok r h Hr) as Hok.
  destruct (changedLocked_spec r h) as (Hch & Hcl & Hsame & Hother & _).
  destruct (rk_open _ Hr _ _ Hc) as [Hnc _].
  unfold signalChangedLocked. destruct (changedLocked r h) as [r1 c1] eqn:E. simpl in *. rewrite Hcl. split.
  - rewrite elem_of_union, elem_of_singleton. split.
    + intros [->|?]; [|done]. destruct (decide (h' = h)) as [|Hne]; [done|].
      apply (rk_distinct _ Hok h' h c1); [by rewrite Hother|done].
    + intros ->. left. specialize (Hsame _ Hc). by simplify_eq.
  - intros Hne. rewrite lookup_insert_ne by done. by rewrite Hother.
Qed.

Lemma signal_routes r h : same_routes r (signalChangedLocked r h).
Proof.
  destruct (changedLocked_spec r h) as (_ & _ & _ & _ & _ & Hs). unfold signalChangedLocked, same_routes in *.
  by destruct (changedLocked r h).
Qed.

(** Once closed, a channel stays closed. *)
Lemma signal_closed r h : closedChans r ⊆ closedChans (signalChangedLocked r h).
Proof.
  destruct (changedLocked_spec r h) as (_ & Hcl & _). unfold signalChangedLocked.
  destruct (changedLocked r h) as [r1 c]. simpl in *. rewrite Hcl. set_solver.
Qed.

(** ** Attach and Detach *)

(** The route [a] takes over its host. *)
Definition installed (r : Registry) (a : Attachment) : Registry :=
  set_routes r (<[at_ID a := a]> (byID r))
    (<[at_Host a := at_ID a]> (match byID r !! at_ID a with Some current => delete (at_Host current) (ownerOf r) | None => ownerOf r end)).

Lemma installed_owner r a h id :
  reg_ok r → (∀ owner, ownerOf r !! at_Host a = Some owner → owner = at_ID a) →
  ownerOf (installed r a) !! h = Some id ↔ (if decide (id = at_ID a) then h = at_Host a else ownerOf r !! h = Some id).
Proof.
  intros [Hi Ho _ _ _] Hfree. simpl. rewrite lookup_insert_Some.
  assert (Hdel : ∀ h, h ≠ at_Host a →
    match byID r !! at_ID a with Some current => delete (at_Host current) (ownerOf r) | None => ownerOf r end !! h = Some id ↔
    ownerOf r !! h = Some id ∧ id ≠ at_ID a).
  { intros h' Hne. destruct (byID r !! at_ID a) as [cur|] eqn:E.
    - rewrite lookup_delete_Some. split.
      + intros [Hnc Hh]. split; [done|]. intros ->. destruct (Ho _ _ Hh) as (x & Hx & Hxh). congruence.
      + intros [Hh Hid]. split; [|done]. intros <-. destruct (Hi _ _ E) as [_ Hc]. congruence.
    - split; [|by intros []]. intros Hh. split; [done|]. intros ->. destruct (Ho _ _ Hh) as (x & Hx & _). congruence. }
  case_decide as Hid.
  - subst id. split; [|by intros ->; left]. intros [[? _]|[Hne Hh]]; [done|]. apply Hdel in Hh; [|done]. by destruct Hh.
  - split.
    + intros [[_ ?]|[Hne Hh]]; [congruence|]. apply Hdel in Hh; [|done]. by destruct Hh.
    + intros Hh. right. assert (at_Host a ≠ h) by (intros <-; apply Hid; by apply Hfree). split; [done|]. by apply Hdel.
Qed.

Lemma installed_ok r a :
  reg_ok r → (∀ owner, ownerOf r !! at_Host a = Some owner → owner = at_ID a) → reg_ok (installed r a).
Proof.
  intros Hr Hfree. pose proof (λ h id, installed_owner r a h id Hr Hfree) as Hown. pose proof Hr as [Hi Ho Hop Hd Hc].
  split; [| |done|done|done].
  - intros id x. change (byID (installed r a)) with (<[at_ID a := a]> (byID r)). rewrite lookup_insert_Some, Hown.
    intros [[<- <-]|[Hne Hx]]; [by rewrite decide_True|]. rewrite decide_False by done. by apply Hi.
  - intros h id. rewrite Hown. change (byID (installed r a)) with (<[at_ID a := a]> (byID r)). case_decide as Hid.
    + intros ->. subst id. exists a. by rewrite lookup_insert_eq.
    + rewrite lookup_insert_ne by done. apply Ho.
Qed.

(** What Attach does, case by case. *)
Lemma Attach_cases r a :
  let b := with_host a (normalizeHost (at_Host a)) in
  (∃ e, Attach r a = (r, inl e)) ∨
  (byID r !! at_ID a = Some b ∧ Attach r a = (r, inr b)) ∨
  (Attach r a = (signalChangedLocked (installed r b) (at_Host b), inr b) ∧
   (∀ owner, ownerOf r !! at_Host b = Some owner → owner = at_ID b) ∧
   (∀ current, byID r !! at_ID b = Some current → stale current b = false)).
Proof.
  unfold Attach. cbv zeta. set (b := with_host a (normalizeHost (at_Host a))). change (at_ID a) with (at_ID b).
  destruct (attach_invalid r b); [left; eauto|]. destruct (_ || _)%bool; [left; eauto|].
  assert (Hinst : ∀ (Hst : ∀ current, byID r !! at_ID b = Some current → stale current b = false),
    let res := if match ownerOf r !! at_Host b with Some owner => negb (String.eqb owner (at_ID b)) | None => false end
      then (r, inl ErrConflict) else (signalChangedLocked (installed r b) (at_Host b), inr b) in
    (∃ e, res = (r, inl e)) ∨ (byID r !! at_ID b = Some b ∧ res = (r, inr b)) ∨
    (res = (signalChangedLocked (installed r b) (at_Host b), inr b) ∧
     (∀ owner, ownerOf r !! at_Host b = Some owner → owner = at_ID b) ∧
     (∀ current, byID r !! at_ID b = Some current → stale current b = false))).
  { intros Hst. cbv zeta. destruct (ownerOf r !! at_Host b) as [owner|]; [|right; right; by split_and!].
    destruct (String.eqb_spec owner (at_ID b)) as [->|]; simpl; [|left; eauto]. right; right. split_and!; [done| |done]. by intros ? [= <-]. }
  unfold installed in Hinst |- *. destruct (byID r !! at_ID b) as [cur|] eqn:E; [|by apply Hinst].
  case_bool_decide as Hcur; [right; left; by subst|]. destruct (stale cur b) eqn:Est; [left; eauto|].
  apply Hinst. by intros ? [= <-].
Qed.

Lemma Attach_ok r a : reg_ok r → reg_ok (Attach r a).1.
Proof.
  intros Hr. destruct (Attach_cases r a) as [[e ->]|[[_ ->]|(-> & Hfree & _)]]; [done|done|].
  simpl. by apply signal_ok, installed_ok.
Qed.

Lemma Detach_ok r id revision : reg_ok r → reg_ok (Detach r id revision).1.
Proof.
  intros Hr. unfold Detach. destruct (byID r !! id) as [a|] eqn:E; [|done]. destruct (negb _); [done|]. apply signal_ok.
  pose proof Hr as [Hi Ho Hop Hd Hc]. destruct (Hi _ _ E) as [Hid Hown]. split; simpl; [| |done|done|done].
  - intros id' x [Hne Hx]%lookup_delete_Some. destruct (Hi _ _ Hx) as [? Hx']. split; [done|].
    rewrite lookup_delete_ne; [done|]. intros Heq. rewrite Heq in Hown. congruence.
  - intros h id' [Hne Hh]%lookup_delete_Some. destruct (Ho _ _ Hh) as (x & Hx & Hxh). exists x. split; [|done].
    rewrite lookup_delete_ne; [done|]. intros ->. congruence.
Qed.

(** ** Replace *)

Lemma emptied_ok r : reg_ok (emptied r).
Proof. split; simpl; intros *; rewrite ?lookup_empty; done. Qed.

Lemma attach_all_ok l : ∀ r next, reg_ok r → attach_all r l = inr next → reg_ok next.
Proof.
  induction l as [|a l IH]; intros r next Hr; simpl; [by intros [= <-]|].
  pose proof (Attach_ok r a Hr) as Ha. destruct (Attach r a) as [r1 [e|x]]; [done|]. by apply IH.
Qed.

Lemma signal_all_ok hosts : ∀ r, reg_ok r → reg_ok (signal_all r hosts).
Proof. unfold signal_all. induction hosts as [|h hosts IH]; intros r Hr; [done|]. simpl. apply IH. by apply signal_ok. Qed.

Lemma signal_all_routes hosts : ∀ r, same_routes r (signal_all r hosts).
Proof.
  unfold signal_all. induction hosts as [|h hosts IH]; intros r; [done|]. simpl.
  destruct (signal_routes r h) as [E1 E2], (IH (signalChangedLocked r h)) as [E3 E4]. split; congruence.
Qed.

Lemma signal_all_closed hosts : ∀ r, closedChans r ⊆ closedChans (signal_all r hosts).
Proof.
  unfold signal_all. induction hosts as [|h hosts IH]; intros r; [done|]. simpl. etrans; [apply signal_closed|apply IH].
Qed.

Lemma signal_all_spec hosts : ∀ r h c,
  reg_ok r → changed r !! h = Some c → (c ∈ closedChans (signal_all r hosts) ↔ h ∈ hosts).
Proof.
  induction hosts as [|x hosts IH]; intros r h c Hr Hc.
  - rewrite elem_of_nil. split; [|done]. intros Hin. by destruct (rk_open _ Hr _ _ Hc).
  - change (signal_all r (x :: hosts)) with (signal_all (signalChangedLocked r x) hosts).
    destruct (signal_spec r x c h Hr Hc) as [Hcl Hkeep]. destruct (decide (h = x)) as [->|Hne].
    + split; [intros _; left|]. intros _. apply signal_all_closed. by apply Hcl.
    + rewrite (IH _ h c); [|by apply signal_ok|by apply Hkeep]. rewrite elem_of_cons. naive_solver.
Qed.

(** The route that serves a host, without its preview state. *)
Definition route_at (r : Registry) (h : string) : option Attachment :=
  id ← ownerOf r !! h; without_preview <$> byID r !! id.

Lemma route_changed_spec r next h id :
  reg_ok r → reg_ok next → ownerOf r !! h = Some id → (route_changed r next h id = true ↔ route_at r h ≠ route_at next h).
Proof.
  intros Hr Hn Hh. unfold route_changed, route_at. rewrite Hh. simpl.
  destruct (rk_host _ Hr _ _ Hh) as (a & Ha & _). rewrite Ha. simpl.
  destruct (ownerOf next !! h) as [nid|] eqn:En; simpl; [|done].
  destruct (rk_host _ Hn _ _ En) as (b & Hb & _). rewrite Hb. simpl. unfold sameRoute.
  destruct (String.eqb_spec nid id) as [->|Hne]; simpl.
  - rewrite negb_true_iff, bool_decide_eq_false. split; congruence.
  - split; [|done]. intros _ Heq. apply (inj Some) in Heq. apply (f_equal at_ID) in Heq. simpl in Heq.
    destruct (rk_id _ Hr _ _ Ha) as [? _], (rk_id _ Hn _ _ Hb) as [? _]. congruence.
Qed.

Lemma elem_of_changedHosts r next h :
  reg_ok r → reg_ok next → (h ∈ changedHosts r next ↔ route_at r h ≠ route_at next h).
Proof.
  intros Hr Hn. unfold changedHosts. rewrite elem_of_list_to_set, elem_of_app, !list_elem_of_fmap. split.
  - intros [([h' id] & -> & Hin)|([h' id] & -> & Hin)]; apply list_elem_of_In, filter_In in Hin as [Hin Hb];
      apply list_elem_of_In, elem_of_range in Hin; simpl in *.
    + by apply (route_changed_spec r next h' id).
    + apply bool_decide_eq_true in Hb. unfold route_at. rewrite Hb, Hin. simpl.
      destruct (rk_host _ Hn _ _ Hin) as (b & Hb' & _). by rewrite Hb'.
  - intros Hne. destruct (ownerOf r !! h) as [id|] eqn:E.
    + left. exists (h, id). split; [done|]. apply list_elem_of_In, filter_In.
      split; [by apply list_elem_of_In, elem_of_range|by apply (route_changed_spec r next h id)].
    + right. unfold route_at in Hne. rewrite E in Hne. simpl in Hne.
      destruct (ownerOf next !! h) as [id|] eqn:En; [|done]. exists (h, id). split; [done|]. apply list_elem_of_In, filter_In.
      split; [by apply list_elem_of_In, elem_of_range|by apply bool_decide_eq_true].
Qed.

Lemma replace_stale_false r next id a b :
  replace_stale r next = false → byID r !! id = Some a → byID next !! id = Some b → (at_Revision a ≤ at_Revision b)%Z.
Proof.
  intros Hf Ha Hb. apply Z.nlt_ge. intros Hlt.
  assert (Ht : replace_stale r next = true); [|congruence]. unfold replace_stale. apply existsb_exists. exists (id, a).
  split; [by apply list_elem_of_In, elem_of_range|]. simpl. rewrite Hb. unfold stale.
  rewrite (proj2 (Z.ltb_lt _ _) Hlt). done.
Qed.

Lemma replaced_routes_ok r next : reg_ok r → reg_ok next → reg_ok (set_routes r (byID next) (ownerOf next)).
Proof. intros [_ _ Hop Hd Hc] [Hi Ho _ _ _]. by split. Qed.

Lemma ReplaceRoutes_ok r l : reg_ok r → reg_ok (Replace r l).1.
Proof.
  intros Hr. unfold Replace. destruct (attach_all (emptied r) l) as [|next] eqn:E; [done|].
  destruct (replace_stale r next); [done|]. simpl. apply signal_all_ok, replaced_routes_ok; [done|].
  eapply attach_all_ok; [apply emptied_ok|done].
Qed.

(** ** Runs *)

Inductive RegOp :=
  | RAttach (a : Attachment) | RDetach (id : string) (revision : Z) | RReplace (l : list Attachment) | RChanged (host : string).

Definition reg_step (r : Registry) (o : RegOp) : Registry :=
  match o with
  | RAttach a => (Attach r a).1
  | RDetach id revision => (Detach r id revision).1
  | RReplace l => (Replace r l).1
  | RChanged host => (Changed r host).1
  end.

Inductive reg_reach : Registry → Prop :=
  | rr_new preview runtime maxStreams r : NewRegistryWithOptions preview runtime maxStreams = inr r → reg_reach r
  | rr_step r o : reg_reach r → reg_reach (reg_step r o).

Lemma reg_reach_ok r : reg_reach r → reg_ok r.
Proof.
  induction 1 as [preview runtime maxS r Hn|r o _ IH].
  - unfold NewRegistryWithOptions in Hn. destruct (NewGenerationRegistryWithOptions 0 maxS) as [|m]; [done|]. injection Hn as <-.
    split; simpl; intros *; rewrite ?lookup_empty; done.
  - destruct o; simpl; [by apply Attach_ok|by apply Detach_ok|by apply ReplaceRoutes_ok|by apply changedLocked_ok].
Qed.

(** A host has one owner: in every reachable registry the routes by ID and the owners by host are each other's
    inverse, so two routes never serve the same host; and the channel a host hands out to waiters is
    open. *)
Theorem registry_invariant (r : Registry) (Hr : reg_reach r) :
  (∀ h id, ownerOf r !! h = Some id ↔ ∃ a, byID r !! id = Some a ∧ at_Host a = h) ∧
  (∀ id a, byID r !! id = Some a → at_ID a = id) ∧
  (∀ id1 id2 a1 a2, byID r !! id1 = Some a1 → byID r !! id2 = Some a2 → at_Host a1 = at_Host a2 → id1 = id2) ∧
  (∀ h, ¬ (Changed r h).2 ∈ closedChans (Changed r h).1).
Proof.
  apply reg_reach_ok in Hr. pose proof Hr as [Hi Ho _ _ _]. split_and!.
  - intros h id. split; [apply Ho|]. intros (a & Ha & <-). by apply Hi.
  - intros id a Ha. by apply Hi.
  - intros id1 id2 a1 a2 H1' H2' Heq. destruct (Hi _ _ H1') as [_ E1], (Hi _ _ H2') as [_ E2]. rewrite Heq in E1. congruence.
  - intros h. pose proof (changedLocked_ok r (normalizeHost h) Hr) as Hok.
    destruct (changedLocked_spec r (normalizeHost h)) as (Hc & _). by destruct (rk_open _ Hok _ _ Hc).
Qed.

(** Attach is guarded and complete: an error leaves the registry as it was; a success leaves exactly the
    attached route under its ID, with its normalised host owned by it and nothing else changed in the
    owners except the host the route had before; the revision of a route never goes down, and whoever
    waits on the host of a newly installed route is woken. *)
Theorem attach_exact (r : Registry) (a : Attachment) (Hr : reg_reach r) :
  match Attach r a with
  | (r', inl _) => r' = r
  | (r', inr b) =>
      b = with_host a (normalizeHost (at_Host a)) ∧ byID r' = <[at_ID b := b]> (byID r) ∧
      (∀ h id, ownerOf r' !! h = Some id ↔ if decide (id = at_ID b) then h = at_Host b else ownerOf r !! h = Some id) ∧
      (∀ current, byID r !! at_ID b = Some current → (at_Revision current ≤ at_Revision b)%Z) ∧
      (r' = r ∨ ∀ c, changed r !! at_Host b = Some c → c ∈ closedChans r')
  end.
Proof.
  apply reg_reach_ok in Hr. destruct (Attach_cases r a) as [[e ->]|[[Hcur ->]|(-> & Hfree & Hst)]]; [done| |].
  - set (b := with_host a (normalizeHost (at_Host a))) in *. change (at_ID a) with (at_ID b) in Hcur.
    destruct (rk_id _ Hr _ _ Hcur) as [_ Hown]. split_and!; [done|by rewrite insert_id| | |by left].
    + intros h id. case_decide as Hid; [subst id|done]. split; [|by intros ->].
      intros Hh. destruct (rk_host _ Hr _ _ Hh) as (x & Hx & Hxh). congruence.
    + intros current Hc. rewrite Hcur in Hc. by injection Hc as <-.
  - set (b := with_host a (normalizeHost (at_Host a))) in *. pose proof (installed_ok r b Hr Hfree) as Hok.
    destruct (signal_routes (installed r b) (at_Host b)) as [Eid Eown]. split_and!; [done|by rewrite Eid| | |right].
    + intros h id. rewrite Eown. by apply installed_owner.
    + intros current Hc. specialize (Hst _ Hc). unfold stale in Hst. to_prop. lia.
    + intros c Hc. destruct (signal_spec (installed r b) (at_Host b) c (at_Host b) Hok Hc) as [Hcl _]. by apply Hcl.
Qed.

(** Replace is atomic and wakes exactly the waiters of changed hosts: on an error nothing changes; on success
    the registry holds exactly the routes of the new snapshot, no route went back to an older revision, and the channel a waiter
    holds for a host is closed if and only if the route that serves the host is another one than before (other than in
    its preview state). *)
Theorem replace_atomic (r : Registry) (l : list Attachment) (Hr : reg_reach r) :
  match Replace r l with
  | (r', Some _) => r' = r
  | (r', None) => ∃ next, attach_all (emptied r) l = inr next ∧ byID r' = byID next ∧ ownerOf r' = ownerOf next ∧
      (∀ id a b, byID r !! id = Some a → byID r' !! id = Some b → (at_Revision a ≤ at_Revision b)%Z) ∧
      (∀ h c, changed r !! h = Some c → (c ∈ closedChans r' ↔ route_at r h ≠ route_at r' h))
  end.
Proof.
  apply reg_reach_ok in Hr. unfold Replace. destruct (attach_all (emptied r) l) as [|next] eqn:E; [done|].
  destruct (replace_stale r next) eqn:Est; [done|].
  pose proof (attach_all_ok _ _ _ (emptied_ok r) E) as Hn. pose proof (replaced_routes_ok r next Hr Hn) as Hrep.
  set (hosts := fst <$> _). destruct (signal_all_routes hosts (set_routes r (byID next) (ownerOf next))) as [Eid Eown].
  simpl in Eid, Eown. exists next. split_and!; [done|done|done| |].
  - intros id a b Ha Hb. rewrite Eid in Hb. by eapply replace_stale_false.
  - intros h c Hc. rewrite (signal_all_spec hosts _ h c Hrep Hc).
    assert (Hroute : route_at (signal_all (set_routes r (byID next) (ownerOf next)) hosts) h = route_at next h)
      by (unfold route_at; by rewrite Eid, Eown).
    rewrite Hroute, <-elem_of_changedHosts by done. unfold hosts. rewrite list_elem_of_fmap. split.
    + intros ([h' []] & -> & Hin). apply elem_of_range, lookup_set_to_map in Hin; [|done]. by destruct Hin as (x & ? & [= <-]).
    + intros Hin. exists (h, tt). split; [done|]. apply elem_of_range, lookup_set_to_map; [done|]. by exists h.
Qed.
End registry.

(** ** Concrete registries *)

Definition sample_attachment (id : string) (revision : Z) (host : string) : Attachment :=
  mkAttachment id revision "env" "edge" 1 0 PreviewHTTPSWSS host "127.0.0.1:80" "" "" "" 0 "" "" false "" "" "" "".

Definition empty_registry : Registry :=
  match NewRegistryWithOptions (H := eval_runtime) "preview.test" "runtime.test" 0 with
  | inr r => r
  | inl _ => mkReg "" "" ∅ ∅ ∅ ∅ 0 (mkRegistry 0 0 None None false ∅ ∅)
  end.

Definition eval_reg_step := reg_step (H := eval_runtime).

Definition waiting_registry : Registry :=
  eval_reg_step (eval_reg_step empty_registry (RAttach (sample_attachment "r1" 1 "A.preview.test"))) (RChanged "a.preview.test").

Lemma waiting_reach : reg_reach (H := eval_runtime) waiting_registry.
Proof. do 2 apply rr_step. by apply (rr_new "preview.test" "runtime.test" 0). Qed.

Lemma registry_invariant_witness :
  ownerOf waiting_registry !! "a.preview.test" = Some "r1" ∧
  ∃ a, byID waiting_registry !! "r1" = Some a ∧ at_Host a = "a.preview.test".
Proof.
  split; [vm_compute; reflexivity|].
  apply (proj1 (registry_invariant (H := eval_runtime) waiting_registry waiting_reach)). vm_compute. reflexivity.
Defined.

Lemma attach_exact_witness :
  ∃ r' b, Attach (H := eval_runtime) waiting_registry (sample_attachment "r1" 2 "a.preview.test") = (r', inr b) ∧
    byID r' = <[at_ID b := b]> (byID waiting_registry).
Proof.
  pose proof (attach_exact (H := eval_runtime) waiting_registry (sample_attachment "r1" 2 "a.preview.test") waiting_reach) as Ha.
  destruct (Attach (H := eval_runtime) waiting_registry (sample_attachment "r1" 2 "a.preview.test")) as [r' [e|b]] eqn:E;
    [vm_compute in E; discriminate E|].
  exists r', b. split; [reflexivity|]. apply Ha.
Defined.

Lemma replace_atomic_witness :
  ∃ c, changed waiting_registry !! "a.preview.test" = Some c ∧
    c ∈ closedChans (Replace (H := eval_runtime) waiting_registry [sample_attachment "r2" 1 "a.preview.test"]).1.
Proof.
  pose proof (replace_atomic (H := eval_runtime) waiting_registry [sample_attachment "r2" 1 "a.preview.test"] waiting_reach) as Hp.
  destruct (changed waiting_registry !! "a.preview.test") as [c|] eqn:Ec; [|vm_compute in Ec; discriminate Ec].
  exists c. split; [reflexivity|].
  assert (Hroutes : route_at waiting_registry "a.preview.test" ≠
    route_at (Replace (H := eval_runtime) waiting_registry [sample_attachment "r2" 1 "a.preview.test"]).1 "a.preview.test")
    by (vm_compute; discriminate).
  destruct (Replace (H := eval_runtime) waiting_registry [sample_attachment "r2" 1 "a.preview.test"]) as [r' [e|]] eqn:E;
    [vm_compute in E; discriminate E|].
  destruct Hp as (next & _ & _ & _ & _ & Hch). apply (Hch _ _ Ec). exact Hroutes.
Defined.

(** When Attach moves a route to another host, the host it leaves is no longer served but its waiters are not woken:
    only the new host is signalled. *)
Lemma attach_move_unsignalled :
  let '(r', res) := Attach (H := eval_runtime) waiting_registry (sample_attachment "r1" 2 "b.preview.test") in
  res = inr (sample_attachment "r1" 2 "b.preview.test") ∧
  route_at waiting_registry "a.preview.test" ≠ None ∧ route_at r' "a.preview.test" = None ∧
  changed r' !! "a.preview.test" = changed waiting_registry !! "a.preview.test" ∧
  match changed waiting_registry !! "a.preview.test" with Some c => bool_decide (c ∈ closedChans r') = false | None => False end.
Proof. vm_compute. split_and!; try reflexivity. discriminate. Qed.
