(* ===== verification/GoEnc.v ===== *)
(** * base64.RawURLEncoding and the byte classes of the package's regular expressions *)
From S2P Require Import Prelude GoStd GoNet.

(** ** Byte classes *)

Definition between (lo hi : N) (c : ascii) : bool := ((lo <=? N_of_ascii c) && (N_of_ascii c <=? hi))%N.
Definition is_lower : ascii → bool := between 97 122.
Definition is_upper : ascii → bool := between 65 90.
Definition is_digit : ascii → bool := between 48 57.
Definition is_alnum (c : ascii) : bool := is_lower c || is_upper c || is_digit c.
Definition one_of (chars : string) (c : ascii) : bool := existsb (Ascii.eqb c) (str.bytes chars).
Definition is_hex (c : ascii) : bool := is_digit c || between 97 102 c.

(** [f]* over the whole string. *)
Definition all_bytes (f : ascii → bool) (s : string) : bool := forallb f (str.bytes s).

Definition len (s : string) : Z := Z.of_nat (String.length s).

(** ** encoding/base64 *)

#[local] Ltac Zify.zify_post_hook ::= Z.to_euclidean_division_equations.

Module base64.

Definition char_of (n : N) : ascii :=
  if (n <? 26)%N then ascii_of_N (65 + n)
  else if (n <? 52)%N then ascii_of_N (71 + n)
  else if (n <? 62)%N then ascii_of_N (n - 4)
  else if (n =? 62)%N then "-"%char else "_"%char.

Definition sextet (c : ascii) : option N :=
  let n := N_of_ascii c in
  if is_upper c then Some (n - 65)%N
  else if is_lower c then Some (n - 71)%N
  else if is_digit c then Some (n + 4)%N
  else if Ascii.eqb c "-" then Some 62%N
  else if Ascii.eqb c "_" then Some 63%N
  else None.

Definition put (l : list N) (rest : string) : string := foldr (λ n s, String (char_of n) s) rest l.

Fixpoint EncodeToString (s : string) : string :=
  match s with
  | EmptyString => EmptyString
  | String a EmptyString => let a := N_of_ascii a in put [a / 4; (a mod 4) * 16]%N EmptyString
  | String a (String b EmptyString) =>
      let a := N_of_ascii a in let b := N_of_ascii b in
      put [a / 4; (a mod 4) * 16 + b / 16; (b mod 16) * 4]%N EmptyString
  | String a (String b (String c s')) =>
      let a := N_of_ascii a in let b := N_of_ascii b in let c := N_of_ascii c in
      put [a / 4; (a mod 4) * 16 + b / 16; (b mod 16) * 4 + c / 64; c mod 64]%N (EncodeToString s')
  end.

(** The groups of four; the unused bits of the last one are zero (Strict). *)
Fixpoint groups (l : list N) : option string :=
  match l with
  | [] => Some EmptyString
  | [_] => None
  | [a; b] => if (b mod 16 =? 0)%N then Some (String (ascii_of_N (a * 4 + b / 16)) EmptyString) else None
  | [a; b; c] =>
      if (c mod 4 =? 0)%N
      then Some (String (ascii_of_N (a * 4 + b / 16)) (String (ascii_of_N ((b mod 16) * 16 + c / 4)) EmptyString))
      else None
  | a :: b :: c :: d :: l' =>
      r ← groups l';
      Some (String (ascii_of_N (a * 4 + b / 16)) (String (ascii_of_N ((b mod 16) * 16 + c / 4))
        (String (ascii_of_N ((c mod 4) * 64 + d)) r)))
  end.

(** base64.RawURLEncoding.Strict().DecodeString: line breaks are skipped; [None] is an error. *)
Definition DecodeString (s : string) : option string :=
  mapM sextet (List.filter (λ c, negb (one_of (str.of_bytes [13; 10]%N) c)) (str.bytes s)) ≫= groups.

Lemma sextet_char n : (n < 64)%N → sextet (char_of n) = Some n ∧ one_of (str.of_bytes [13; 10]%N) (char_of n) = false.
Proof.
  intros Hn. assert (Hall : forallb (λ k, bool_decide (sextet (char_of k) = Some k) && negb (one_of (str.of_bytes [13; 10]%N) (char_of k)))
    (N.of_nat <$> seq 0 64) = true) by reflexivity.
  rewrite forallb_forall in Hall. specialize (Hall n). rewrite andb_true_iff, bool_decide_eq_true, negb_true_iff in Hall.
  apply Hall. apply list_elem_of_In, list_elem_of_fmap. exists (N.to_nat n). rewrite elem_of_seq. split; lia.
Qed.

(** What the decoder reads of encoded text. *)
Definition sextets (s : string) : option (list N) :=
  mapM sextet (List.filter (λ c, negb (one_of (str.of_bytes [13; 10]%N) c)) (str.bytes s)).

Lemma sextets_put l rest r :
  Forall (λ n, n < 64)%N l → sextets rest = Some r → sextets (put l rest) = Some (l ++ r).
Proof.
  intros Hl Hr. induction Hl as [|n l Hn _ IH]; [done|]. unfold sextets in *. cbn [put foldr str.bytes List.filter].
  destruct (sextet_char n Hn) as [Hs Hc]. rewrite Hc. cbn [negb mapM]. fold (put l rest). rewrite Hs, IH. done.
Qed.

Lemma byte_bound c : (N_of_ascii c < 256)%N.
Proof. apply N_ascii_bounded. Qed.

Lemma three_bytes (P : string → Prop) :
  P EmptyString → (∀ a, P (String a EmptyString)) → (∀ a b, P (String a (String b EmptyString))) →
  (∀ a b c s, P s → P (String a (String b (String c s)))) → ∀ s, P s.
Proof.
  intros H0 H1 H2 H3. assert (Hgen : ∀ n s, (String.length s ≤ n)%nat → P s).
  { induction n as [|n IH]; intros [|a [|b [|c s]]] Hn; simpl in Hn; auto; try lia. apply H3, IH. lia. }
  intros s. by apply (Hgen (String.length s)).
Qed.

Ltac small_sextets := cbv zeta; repeat (apply Forall_cons_2; [cbv beta; lia|]); apply Forall_nil_2.

(** Decoding gives back what was encoded. *)
Lemma base64_Decode_Encode s : DecodeString (EncodeToString s) = Some s.
Proof.
  enough (Hex : ∃ l, sextets (EncodeToString s) = Some l ∧ groups l = Some s).
  { destruct Hex as (l & Hl & Hg). unfold DecodeString. unfold sextets in Hl. by rewrite Hl. }
  assert (Hb : ∀ x, ascii_of_N (N_of_ascii x) = x) by apply ascii_N_embedding.
  induction s as [|a|a b|a b c s IH] using three_bytes; cbn [EncodeToString].
  - by exists [].
  - pose proof (byte_bound a). eexists. split; [apply sextets_put; [|reflexivity]; small_sextets|].
    cbn [app groups]. match goal with |- context [(?x =? 0)%N] => replace (x =? 0)%N with true by (symmetry; apply N.eqb_eq; lia) end.
    replace (_ * 4 + _)%N with (N_of_ascii a) by lia. by rewrite Hb.
  - pose proof (byte_bound a). pose proof (byte_bound b).
    eexists. split; [apply sextets_put; [|reflexivity]; small_sextets|].
    cbn [app groups]. match goal with |- context [(?x =? 0)%N] => replace (x =? 0)%N with true by (symmetry; apply N.eqb_eq; lia) end.
    replace (_ * 4 + _)%N with (N_of_ascii a) by lia. replace (_ * 16 + _)%N with (N_of_ascii b) by lia. by rewrite !Hb.
  - pose proof (byte_bound a). pose proof (byte_bound b). pose proof (byte_bound c). destruct IH as (l & Hl & Hg).
    eexists. split; [apply sextets_put; [|exact Hl]; small_sextets|].
    cbn [app groups]. rewrite Hg. simpl.
    replace (_ * 4 + _)%N with (N_of_ascii a) by lia. replace (_ * 16 + _)%N with (N_of_ascii b) by lia.
    replace (_ * 64 + _)%N with (N_of_ascii c) by lia. by rewrite !Hb.
Qed.
End base64.
