(* ===== verification/StateErr.v ===== *)
(** * Methods that change an object and may fail

    A Go method on an object with a lock is a function of the object's state and returns the new state with
    a result or an error.  As in Go, what was changed before an error is returned stays changed. *)
From S2P Require Import Prelude.

Definition M (S E A : Type) : Type := S → S * (E + A).

Section monad.
Context {S E : Type}.

Definition mret {A} (a : A) : M S E A := λ s, (s, inr a).
Definition mfail {A} (e : E) : M S E A := λ s, (s, inl e).
Definition mthen {A B} (m : M S E A) (f : A → M S E B) : M S E B :=
  λ s, match m s with (s', inr a) => f a s' | (s', inl e) => (s', inl e) end.
Definition mget : M S E S := λ s, (s, inr s).
Definition mset (f : S → S) : M S E () := λ s, (f s, inr ()).

(** if cond { return err } *)
Definition fail_if (cond : bool) (e : E) : M S E () := if cond then mfail e else mret ().

(** if err := check; err != nil { return err } *)
Definition check (o : option E) : M S E () := match o with Some e => mfail e | None => mret () end.
End monad.

(** The same method with another kind of error. *)
Definition map_error {S E E' A} (f : E → E') (m : M S E A) : M S E' A :=
  λ s, match m s with (s', inl e) => (s', inl (f e)) | (s', inr a) => (s', inr a) end.

Declare Scope go_scope.
Delimit Scope go_scope with go.
Notation "x ← m ; k" := (mthen m (λ x, k))
  (at level 20, m at level 100, k at level 200, only parsing) : go_scope.
Notation "m ;; k" := (mthen m (λ _, k)) (at level 100, k at level 200, right associativity, only parsing) : go_scope.

(** The state and the outcome of a call. *)
Definition state_of {S E A} (r : S * (E + A)) : S := r.1.
Definition result_of {S E A} (r : S * (E + A)) : E + A := r.2.

Section laws.
Context {S E : Type}.
Implicit Types s : S.

Lemma mthen_inv {A B} (m : M S E A) (f : A → M S E B) s s' r :
  mthen m f s = (s', r) →
  (∃ e, m s = (s', inl e) ∧ r = inl e) ∨ (∃ a s1, m s = (s1, inr a) ∧ f a s1 = (s', r)).
Proof.
  unfold mthen. destruct (m s) as [s1 [e|a]]; intros Heq; [left|right]; [|by eauto].
  injection Heq as -> <-. by eauto.
Qed.

Lemma fail_if_inv c (e : E) s s' r :
  fail_if c e s = (s', r) → s' = s ∧ ((c = true ∧ r = inl e) ∨ (c = false ∧ r = inr ())).
Proof. unfold fail_if, mfail, mret. destruct c; intros [= <- <-]; auto. Qed.

Lemma check_inv (o : option E) s s' r :
  check o s = (s', r) → s' = s ∧ ((∃ e, o = Some e ∧ r = inl e) ∨ (o = None ∧ r = inr ())).
Proof. unfold check, mfail, mret. destruct o; intros [= <- <-]; eauto. Qed.

(** A property of the state that a method keeps, whatever it returns. *)
Definition keeps {A} (I : S → Prop) (m : M S E A) : Prop := ∀ s, I s → I (state_of (m s)).

Lemma keeps_ret {A} I (a : A) : keeps I (mret a).
Proof. by intros s. Qed.

Lemma keeps_fail {A} I (e : E) : keeps I (mfail (A := A) e).
Proof. by intros s. Qed.

Lemma keeps_then {A B} I (m : M S E A) (f : A → M S E B) :
  keeps I m → (∀ a, keeps I (f a)) → keeps I (mthen m f).
Proof.
  intros Hm Hf s Hs. unfold mthen. pose proof (Hm s Hs) as H1. destruct (m s) as [s' [e|a]]; [done|]. by apply Hf.
Qed.

Lemma keeps_if {A} I (c : bool) (m1 m2 : M S E A) : keeps I m1 → keeps I m2 → keeps I (if c then m1 else m2).
Proof. by destruct c; intros. Qed.

Lemma keeps_fail_if I c (e : E) : keeps I (fail_if c e).
Proof. by destruct c; intros s Hs. Qed.

Lemma keeps_check I (o : option E) : keeps I (check o).
Proof. by destruct o; intros s Hs. Qed.

Lemma keeps_get I : keeps I (mget (E := E)).
Proof. by intros s. Qed.

Lemma keeps_set I f : (∀ s, I s → I (f s)) → keeps I (mset (E := E) f).
Proof. intros Hf s Hs. by apply Hf. Qed.
End laws.

Lemma keeps_map_error {S E E' A} (h : E → E') (I : S → Prop) (m : M S E A) : keeps I m → keeps (I : S → Prop) (map_error h m).
Proof. intros Hm s Hs. unfold map_error. pose proof (Hm s Hs) as H1. by destruct (m s) as [s' [e|a]]. Qed.


#[export] Hint Resolve keeps_ret keeps_fail keeps_then keeps_if keeps_fail_if keeps_check keeps_get keeps_map_error : pb.

(** The result of a call that succeeds, for calls that are evaluated. *)
Definition result {E A} (d : A) (x : E + A) : A := match x with inr a => a | inl _ => d end.
Definition succeeds {E A} (x : E + A) : bool := match x with inr _ => true | inl _ => false end.

Lemma result_inr {E A} (d : A) (x : E + A) : succeeds x = true → x = inr (result d x).
Proof. by destruct x. Qed.

Definition returns_nil {R E} (x : R * option E) : bool := match x.2 with None => true | Some _ => false end.

Lemma returned {R E} (x : R * option E) : returns_nil x = true → x = (x.1, None).
Proof. by destruct x as [? []]. Qed.

(** Takes one test of a call apart. *)
Ltac step_call :=
  match goal with
  | H : mthen _ _ _ = (_, _) |- _ =>
      apply mthen_inv in H as [(? & H & ?)|(? & ? & ? & H)]
  | H : fail_if _ _ _ = (_, _) |- _ =>
      apply fail_if_inv in H as [-> [[? H]|[? H]]]; try discriminate H
  | H : check _ _ = (_, _) |- _ =>
      apply check_inv in H as [-> [(? & ? & H)|[? H]]]; try discriminate H
  | H : mget _ = (_, _) |- _ => unfold mget in H; injection H as <- H
  | H : mset _ _ = (_, _) |- _ => unfold mset in H; injection H as <- H
  | H : mret _ _ = (_, _) |- _ => unfold mret in H; injection H as <- H
  | H : mfail _ _ = (_, _) |- _ => unfold mfail in H; injection H as <- H
  end.
