(* ===== verification/ConnProto.v ===== *)
(** * The connector protocol: src/shared/connectorprotocol/protocol.go

    Identifiers, error codes, capabilities, versions, identity keys, proofs and the framing of messages.
    crypto/ed25519, net/url and encoding/json are used through the classes [Ed25519], [NetURL] and [WireJSON]. *)
From S2P Require Import Prelude GoStd GoData GoNet GoEnc.

Definition ProtocolName : string := "paperboat.connector".
Definition ProtocolVersion : string := "1.0".

Definition MaxSnapshotBytes : Z := 4194304.
Definition MaxFrameBytes : Z := (MaxSnapshotBytes + 65536)%Z.
Definition MaxDeltaBytes : Z := 1048576.
Definition MaxCapabilities : Z := 64.
Definition MaxCapabilityBytes : Z := 128.
Definition MaxIdentifierBytes : Z := 128.
Definition MaxCredentialRef : Z := 512.
Definition MaxProofBytes : Z := 16384.
Definition MaxNonceBytes : Z := 128.
Definition MaxReasonMessage : Z := 512.
Definition MaxJSONDepth : nat := 64.
Definition MaxClockSkew : Z := (120 * time.Second)%Z.
Definition DefaultLease : Z := (45 * time.Second)%Z.
Definition DefaultHeartbeat : Z := (5 * time.Second)%Z.
Definition DefaultApplyTimeout : Z := (15 * time.Second)%Z.
Definition DefaultAbortTimeout : Z := (5 * time.Second)%Z.
Definition MaxLease : Z := (24 * time.Hour)%Z.
Definition Millisecond : Z := 1000000.

(** ** The regular expressions *)

(** ^[A-Za-z0-9][A-Za-z0-9._:-]{0,127}$ *)
Definition identifierPattern (s : string) : bool :=
  match s with
  | String c s' => is_alnum c && all_bytes (λ c, is_alnum c || one_of "._:-" c) s' && (len s' <=? 127)%Z
  | EmptyString => false
  end.

(** ^[a-z][a-z0-9_.-]{1,127}$ *)
Definition capabilityPattern (s : string) : bool :=
  match s with
  | String c s' => is_lower c && all_bytes (λ c, is_lower c || is_digit c || one_of "_.-" c) s' && (1 <=? len s')%Z && (len s' <=? 127)%Z
  | EmptyString => false
  end.

(** ^[0-9]+\.[0-9]+$ *)
Definition versionPattern (s : string) : bool :=
  match str.Split s "." with
  | [a; b] => (1 <=? len a)%Z && all_bytes is_digit a && (1 <=? len b)%Z && all_bytes is_digit b
  | _ => false
  end.

(** ^sha256:[0-9a-f]{64}$ *)
Definition ValidContentHash (s : string) : bool :=
  match strings.strip_prefix "sha256:" s with Some r => (len r =? 64)%Z && all_bytes is_hex r | None => false end.

(** ^[A-Za-z0-9_-]{43}$ *)
Definition identityThumbprintPattern (s : string) : bool :=
  (len s =? 43)%Z && all_bytes (λ c, is_alnum c || one_of "_-" c) s.

(** ^ed25519:[A-Za-z0-9_-]{43}$ *)
Definition identityKeyIDPattern (s : string) : bool :=
  match strings.strip_prefix "ed25519:" s with Some r => identityThumbprintPattern r | None => false end.

(** ** Codes, reasons and errors *)

Definition CodeInvalidInput := "invalid_input".
Definition CodeMalformedFrame := "malformed_frame".
Definition CodeFrameTooLarge := "frame_too_large".
Definition CodeProtocolIncompatible := "protocol_incompatible".
Definition CodeCapabilityMissing := "capability_missing".
Definition CodeAuthenticationFailed := "authentication_failed".
Definition CodeCredentialExpired := "credential_expired".
Definition CodeIdentityMismatch := "identity_mismatch".
Definition CodeSessionConflict := "session_conflict".
Definition CodeSessionClosed := "session_closed".
Definition CodeLeaseExpired := "lease_expired".
Definition CodeHeartbeatTimeout := "heartbeat_timeout".
Definition CodeSnapshotRequired := "snapshot_required".
Definition CodeGenerationGap := "generation_gap".
Definition CodeStaleGeneration := "stale_generation".
Definition CodeContentHashMismatch := "content_hash_mismatch".
Definition CodeSnapshotRejected := "snapshot_rejected".
Definition CodeDeltaRejected := "delta_rejected".
Definition CodeNotReady := "not_ready".
Definition CodeCanceled := "canceled".
Definition CodeStaleSession := "stale_session".
Definition CodeUnsupportedMessage := "unsupported_message".
Definition CodeDrainRejected := "drain_rejected".
Definition CodeDrainTimeout := "drain_timeout".
Definition CodeCredentialRotationRejected := "credential_rotation_rejected".
Definition CodeCredentialRotationNotReady := "credential_rotation_not_ready".
Definition CodeCredentialRotationFailed := "credential_rotation_failed".

Definition Codes : list string :=
  [CodeInvalidInput; CodeMalformedFrame; CodeFrameTooLarge; CodeProtocolIncompatible; CodeCapabilityMissing;
   CodeAuthenticationFailed; CodeCredentialExpired; CodeIdentityMismatch; CodeSessionConflict; CodeSessionClosed;
   CodeLeaseExpired; CodeHeartbeatTimeout; CodeSnapshotRequired; CodeGenerationGap; CodeStaleGeneration;
   CodeContentHashMismatch; CodeSnapshotRejected; CodeDeltaRejected; CodeNotReady; CodeCanceled; CodeStaleSession;
   CodeUnsupportedMessage; CodeDrainRejected; CodeDrainTimeout; CodeCredentialRotationRejected;
   CodeCredentialRotationNotReady; CodeCredentialRotationFailed].

Definition ValidCode (code : string) : bool := bool_decide (code ∈ Codes).

Definition ReasonProtocolMismatch := "protocol_mismatch".
Definition ReasonCapabilityMissing := "capability_missing".
Definition ReasonMalformed := "malformed_message".
Definition ReasonAuthentication := "authentication_failed".
Definition ReasonCredentialExpired := "credential_expired".
Definition ReasonLeaseExpired := "lease_expired".
Definition ReasonHeartbeatTimeout := "heartbeat_timeout".
Definition ReasonSessionReplaced := "session_replaced".
Definition ReasonStaleGeneration := "stale_generation".
Definition ReasonSnapshotRejected := "snapshot_rejected".
Definition ReasonGenerationGap := "generation_gap".
Definition ReasonCredentialRotation := "credential_rotation".
Definition ReasonCanceled := "canceled".
Definition ReasonServerShutdown := "server_shutdown".
Definition ReasonProtocolClosed := "protocol_closed".

Definition Reasons : list string :=
  [ReasonProtocolMismatch; ReasonCapabilityMissing; ReasonMalformed; ReasonAuthentication; ReasonCredentialExpired;
   ReasonLeaseExpired; ReasonHeartbeatTimeout; ReasonSessionReplaced; ReasonStaleGeneration; ReasonSnapshotRejected;
   ReasonGenerationGap; ReasonCredentialRotation; ReasonCanceled; ReasonServerShutdown; ReasonProtocolClosed].

Definition ValidDisconnectReason (reason : string) : bool := bool_decide (reason ∈ Reasons).

(** An error of the package, a joined or wrapped one, or one of another package. *)
#[local] Set Warnings "-register-all".
Inductive error :=
  | Typed (Code Reason : string) (Retryable : bool) (Cause : option error)
  | Joined (es : list error)
  | Wrapped (msg : string) (e : error)
  | Foreign (msg : string).

(** CodeError(base, reason, retryable, cause), for a base error by its code; the base itself has no reason. *)
Definition CodeError (code reason : string) (retryable : bool) (cause : option error) : error :=
  Typed code reason retryable cause.
Definition Base (code : string) : error := Typed code "" false None.

Definition ErrInvalidInput := Base CodeInvalidInput.
Definition ErrMalformedFrame := Base CodeMalformedFrame.
Definition ErrFrameTooLarge := Base CodeFrameTooLarge.
Definition ErrCapabilityMissing := Base CodeCapabilityMissing.
Definition ErrAuthenticationFailed := Base CodeAuthenticationFailed.
Definition ErrIdentityMismatch := Base CodeIdentityMismatch.
Definition ErrSnapshotRejected := Base CodeSnapshotRejected.
Definition ErrUnsupportedMessage := Base CodeUnsupportedMessage.
Definition ErrContentHashMismatch := Base CodeContentHashMismatch.

(** The loop of protocolError: [remaining] errors may still be looked at. *)
Fixpoint protocolError_loop (remaining : nat) (pending : list (option error)) : option error :=
  match remaining, pending with
  | O, _ | _, [] => None
  | S remaining', current :: pending =>
      match current with
      | None => protocolError_loop remaining' pending
      | Some (Typed code reason retryable cause) =>
          if ValidCode code then Some (Typed code reason retryable cause)
          else protocolError_loop remaining' (cause :: pending)
      | Some (Joined children) =>
          let capacity := (remaining' - length pending)%nat in
          protocolError_loop remaining' ((Some <$> take capacity children) ++ pending)
      | Some (Wrapped _ e) => protocolError_loop remaining' (Some e :: pending)
      | Some (Foreign _) => protocolError_loop remaining' pending
      end
  end.

Definition protocolError (err : option error) : option error := protocolError_loop 16 [err].

Definition code_of (e : error) : string := match e with Typed code _ _ _ => code | _ => "" end.
Definition reason_of (e : error) : string := match e with Typed _ reason _ _ => reason | _ => "" end.

Definition CodeOf (err : option error) : string := match protocolError err with Some e => code_of e | None => "" end.

Definition ReasonOf (err : option error) : string :=
  match protocolError err with
  | Some e => if ValidDisconnectReason (reason_of e) then reason_of e else ""
  | None => ""
  end.

(** errors.Join: nil errors are dropped. *)
Definition errors_Join (l : list (option error)) : option error :=
  match omap id l with [] => None | es => Some (Joined es) end.

(** ** Identifiers, references, proofs and keys *)

Definition ValidateIdentifier (value : string) : option error :=
  if negb (identifierPattern value) || (MaxIdentifierBytes <? len value)%Z then Some ErrInvalidInput else None.

(** The test [ValidateIdentifier(x) != nil]. *)
Definition bad (o : option error) : bool := match o with Some _ => true | None => false end.
Definition bad_id (value : string) : bool := bad (ValidateIdentifier value).

Definition trimmed (value : string) : bool := String.eqb (str.TrimSpace value) value.
Definition has_line_break (value : string) : bool := str.ContainsAny value [13; 10]%N.

(** What is used of a parsed URL. *)
Record URL := mkURL {
  Scheme : string; Opaque : string; HasUser : bool; Host : string; Path : string; RawQuery : string; Fragment : string;
  Hostname : string; Port : string; QueryKeys : list string;
}.

(** net/url.Parse; [None] is an error. *)
Class NetURL := { url_Parse : string → option URL }.

(** crypto/ed25519. *)
Class Ed25519 := { ed25519_Verify : string → string → string → bool }.

Definition PublicKeySize : Z := 32.

Section keys.
Context `{NetURL} `{SHA256}.

Definition credentialSchemes : list string := ["keychain"; "credential-manager"; "secret-service"; "protected-file"; "tpm"].

Definition ValidateCredentialReference (value : string) : option error :=
  if (len value =? 0)%Z || (MaxCredentialRef <? len value)%Z || negb (trimmed value) || has_line_break value
  then Some ErrInvalidInput
  else match url_Parse value with
       | None => Some ErrInvalidInput
       | Some parsed =>
           if String.eqb (Scheme parsed) "" || negb (String.eqb (Host parsed) "paperboat") || HasUser parsed
              || negb (String.eqb (Opaque parsed) "") || negb (String.eqb (RawQuery parsed) "")
              || negb (String.eqb (Fragment parsed) "") || String.eqb (Path parsed) ""
           then Some ErrInvalidInput
           else if bool_decide (Scheme parsed ∈ credentialSchemes) then None else Some ErrInvalidInput
       end.

Definition ValidateProof (value : string) : option error :=
  if (len value <? 32)%Z || (MaxProofBytes <? len value)%Z || negb (trimmed value) || has_line_break value
  then Some ErrInvalidInput else None.

Definition SignProofPayload (payload : string) (sign : string → string) : error + string :=
  if (len payload =? 0)%Z || (MaxProofBytes <? len payload)%Z then inl ErrInvalidInput
  else let signature := sign payload in
       if (len signature =? 0)%Z || (MaxProofBytes <? len signature)%Z then inl ErrInvalidInput
       else inr (base64.EncodeToString signature).

Definition DecodeProof (signedProof : string) : error + string :=
  if bad (ValidateProof signedProof) then inl ErrAuthenticationFailed
  else match base64.DecodeString signedProof with
       | None => inl ErrAuthenticationFailed
       | Some signature =>
           if (len signature =? 0)%Z || (MaxProofBytes <? len signature)%Z then inl ErrAuthenticationFailed
           else inr signature
       end.

Definition VerifyProofPayload (payload signedProof : string) (verify : string → string → bool) : option error :=
  if (len payload =? 0)%Z then Some ErrAuthenticationFailed
  else match DecodeProof signedProof with
       | inl _ => Some ErrAuthenticationFailed
       | inr signature => if verify payload signature then None else Some ErrAuthenticationFailed
       end.

Definition ValidateIdentityKey (keyID thumbprint : string) : option error :=
  if negb (identityKeyIDPattern keyID) || negb (identityThumbprintPattern thumbprint)
     || negb (String.eqb (strings.TrimPrefix keyID "ed25519:") thumbprint)
  then Some ErrInvalidInput else None.

Definition dq : string := str.of_bytes [34]%N.

Definition IdentityThumbprint (publicKey : string) : error + string :=
  if negb (len publicKey =? PublicKeySize)%Z then inl ErrInvalidInput
  else inr (base64.EncodeToString (Sum256
    ("{" +:+ dq +:+ "crv" +:+ dq +:+ ":" +:+ dq +:+ "Ed25519" +:+ dq +:+ "," +:+ dq +:+ "kty" +:+ dq +:+ ":" +:+ dq +:+ "OKP" +:+ dq
     +:+ "," +:+ dq +:+ "x" +:+ dq +:+ ":" +:+ dq +:+ base64.EncodeToString publicKey +:+ dq +:+ "}"))).

Definition IdentityKeyID (publicKey : string) : error + string :=
  match IdentityThumbprint publicKey with inl e => inl e | inr t => inr ("ed25519:" +:+ t) end.

(** DecodeRotationPublicKey of rotation_coordinator.go. *)
Definition DecodeRotationPublicKey (value : string) : error + string :=
  match base64.DecodeString value with
  | None => inl ErrInvalidInput
  | Some decoded =>
      if negb (len decoded =? PublicKeySize)%Z || negb (String.eqb (base64.EncodeToString decoded) value)
      then inl ErrInvalidInput else inr decoded
  end.
End keys.

(** ** Capabilities *)

Definition CapabilitySnapshot := "config.snapshot.v1".
Definition CapabilityDelta := "config.delta.v1".
Definition CapabilityAck := "config.ack.v1".
Definition CapabilityHeartbeat := "session.heartbeat.v1".
Definition CapabilityRenewal := "auth.renew.v1".
Definition CapabilityDrain := "connector.drain.v1".
Definition CapabilityCredentialRotation := "credential.rotate.v1".

Definition requiredCapabilities : list string :=
  [CapabilitySnapshot; CapabilityDelta; CapabilityAck; CapabilityHeartbeat; CapabilityRenewal].

Definition ProductionCapabilities : list string :=
  requiredCapabilities ++ [CapabilityDrain; CapabilityCredentialRotation].

(** The loop over the values, which collects [seen]. *)
Fixpoint capabilities_loop (seen : list string) (values : list string) : option error :=
  match values with
  | [] => None
  | value :: values' =>
      if (MaxCapabilityBytes <? len value)%Z || negb (capabilityPattern value) then Some ErrInvalidInput
      else if decide (value ∈ seen) then Some ErrInvalidInput
      else capabilities_loop (value :: seen) values'
  end.

Definition ValidateCapabilities (values : list string) : option error :=
  if (Z.of_nat (length values) =? 0)%Z || (MaxCapabilities <? Z.of_nat (length values))%Z then Some ErrCapabilityMissing
  else match capabilities_loop [] values with
       | Some e => Some e
       | None =>
           if forallb (λ required, bool_decide (required ∈ values)) requiredCapabilities then None
           else Some (CodeError CodeCapabilityMissing ReasonCapabilityMissing false None)
       end.

Definition NegotiateCapabilities (offered supported : list string) : error + list string :=
  match ValidateCapabilities offered with
  | Some e => inl e
  | None =>
      match ValidateCapabilities supported with
      | Some e => inl e
      | None =>
          let selected := List.filter (λ value, bool_decide (value ∈ supported)) offered in
          match ValidateCapabilities selected with
          | Some e => inl (CodeError CodeCapabilityMissing ReasonCapabilityMissing false (Some e))
          | None => inr selected
          end
      end
  end.

Definition HasCapability (values : list string) (capability : string) : bool := bool_decide (capability ∈ values).

(** ** Versions *)

Definition parseVersion (value : string) : option (Z * Z) :=
  match str.Split value "." with
  | [a; b] =>
      if String.eqb a "" || String.eqb b "" then None
      else match strconv.Atoi a, strconv.Atoi b with
           | Some major, Some minor =>
               if (major <? 0)%Z || (minor <? 0)%Z || negb (String.eqb (strconv.Itoa major) a) || negb (String.eqb (strconv.Itoa minor) b)
               then None else Some (major, minor)
           | _, _ => None
           end
  | _ => None
  end.

Definition version_error : error := CodeError CodeProtocolIncompatible ReasonProtocolMismatch false None.

Definition NegotiateVersion (minVersion maxVersion : string) : error + string :=
  if negb (versionPattern minVersion) || negb (versionPattern maxVersion) then inl version_error
  else match parseVersion maxVersion, parseVersion ProtocolVersion, parseVersion minVersion with
       | Some (maxMajor, maxMinor), Some (selectedMajor, selectedMinor), Some (minMajor, minMinor) =>
           if (maxMajor <? minMajor)%Z || (selectedMajor <? minMajor)%Z || (maxMajor <? selectedMajor)%Z
              || (minMajor =? selectedMajor)%Z && (selectedMinor <? minMinor)%Z
              || (maxMajor =? selectedMajor)%Z && (maxMinor <? selectedMinor)%Z
           then inl version_error else inr ProtocolVersion
       | _, _, _ => inl version_error
       end.

(** ** Writing bytes *)

(** writeAll: [write data] is what one call of the writer returns, the number of bytes and an error.  Every
    call that does not end the loop takes at least one byte, so the length is enough fuel. *)
Section write_all.
Context {S : Type} (write : S → string → S * (Z * option error)).

Definition ErrShortWrite : error := Foreign "short write".

Definition drop_bytes (n : Z) (data : string) : string :=
  String.substring (Z.to_nat n) (String.length data - Z.to_nat n) data.

(** [None] is the loop out of fuel. *)
Fixpoint writeAll (fuel : nat) (w : S) (data : string) : option (S * option error) :=
  match data with
  | EmptyString => Some (w, None)
  | _ =>
      match fuel with
      | O => None
      | Datatypes.S fuel' =>
          let '(w', (n, err)) := write w data in
          match err with
          | Some e => Some (w', Some e)
          | None =>
              if (n <=? 0)%Z || (len data <? n)%Z then Some (w', Some ErrShortWrite)
              else writeAll fuel' w' (drop_bytes n data)
          end
      end
  end.
End write_all.

(** ** What these functions do *)

(** Negotiation keeps the offered capabilities that are supported, in the offered order, and never fewer than
    the required ones. *)
Lemma capabilities_loop_ok seen values :
  capabilities_loop seen values = None →
  NoDup values ∧ Forall (λ v, (v ∉ seen) ∧ capabilityPattern v = true) values.
Proof.
  revert seen; induction values as [|v values IH]; intros seen; simpl; [split; constructor|].
  case_bool; [done|]. to_prop. destruct (decide (v ∈ seen)); [done|]. intros [Hnd Hall]%IH.
  split; constructor; [|done|done|].
  - intros Hin. rewrite Forall_forall in Hall. destruct (Hall v Hin) as [Hn _]. apply Hn. left.
  - eapply Forall_impl; [exact Hall|]. intros w [Hw Hp]. split; [|done]. intros Hin. apply Hw. by right.
Qed.

Lemma ValidateCapabilities_ok values :
  ValidateCapabilities values = None →
  NoDup values ∧ values ≠ [] ∧ Forall (λ v, capabilityPattern v = true) values ∧ (∀ r, r ∈ requiredCapabilities → r ∈ values).
Proof.
  unfold ValidateCapabilities. case_bool; [done|]. destruct (capabilities_loop [] values) eqn:El; [done|].
  apply capabilities_loop_ok in El as [Hnd Hall]. case_bool; [|done]. intros _. split_and!; [done| | |].
  - intros ->. done.
  - eapply Forall_impl; [exact Hall|]. by intros v [_ ?].
  - intros r Hr. rewrite forallb_forall in Heqb0. apply list_elem_of_In, Heqb0 in Hr. by apply bool_decide_eq_true in Hr.
Qed.

Lemma NegotiateCapabilities_ok offered supported selected :
  NegotiateCapabilities offered supported = inr selected →
  ValidateCapabilities selected = None ∧ (∀ c, c ∈ selected ↔ c ∈ offered ∧ c ∈ supported).
Proof.
  unfold NegotiateCapabilities. destruct (ValidateCapabilities offered); [done|]. destruct (ValidateCapabilities supported); [done|].
  destruct (ValidateCapabilities (List.filter _ offered)) eqn:Ev; [done|]. intros [= <-]. split; [done|].
  intros c. rewrite !list_elem_of_In, filter_In, bool_decide_eq_true, list_elem_of_In. done.
Qed.

(** The version is accepted exactly when it lies in the offered interval, in the order of (major, minor). *)
Definition version_le (a b : Z * Z) : Prop := (a.1 < b.1 ∨ a.1 = b.1 ∧ a.2 ≤ b.2)%Z.

Lemma NegotiateVersion_ok minVersion maxVersion lo hi :
  versionPattern minVersion = true → versionPattern maxVersion = true →
  parseVersion minVersion = Some lo → parseVersion maxVersion = Some hi →
  NegotiateVersion minVersion maxVersion = inr ProtocolVersion ↔ version_le lo (1, 0)%Z ∧ version_le (1, 0)%Z hi.
Proof.
  intros Hpmin Hpmax Hlo Hhi. unfold NegotiateVersion. rewrite Hpmin, Hpmax, Hlo, Hhi. simpl negb. cbn [orb].
  change (parseVersion ProtocolVersion) with (Some (1, 0)%Z). destruct lo as [a b], hi as [c d]. unfold version_le. simpl.
  case_bool; to_prop; split; try done; intros; lia.
Qed.

(** writeAll ends: the length of the data is enough fuel, for every writer. *)
Lemma length_drop_bytes n data :
  (0 < n ≤ len data)%Z → String.length (drop_bytes n data) = (String.length data - Z.to_nat n)%nat.
Proof.
  unfold len, drop_bytes. intros Hn.
  assert (Hs : ∀ m k s, (m + k ≤ String.length s)%nat → String.length (String.substring m k s) = k).
  { induction m as [|m IHm]; intros k s; revert k.
    - induction s as [|c s IHs]; intros [|k] Hk; simpl in *; try lia. f_equal. apply (IHs k). lia.
    - intros k Hk. destruct s as [|c s]; simpl in *; [lia|]. apply IHm. lia. }
  apply Hs. lia.
Qed.

Lemma take_drop_bytes n data :
  (0 < n ≤ len data)%Z → String.substring 0 (Z.to_nat n) data +:+ drop_bytes n data = data.
Proof.
  unfold len, drop_bytes. intros Hn. assert (Hs : ∀ m s, (m ≤ String.length s)%nat →
    String.substring 0 m s +:+ String.substring m (String.length s - m) s = s).
  { induction m as [|m IHm]; intros [|c s] Hm; simpl in *; try done; try lia.
    - f_equal. clear. induction s as [|c s IHs]; simpl; [done|]. by f_equal.
    - f_equal. apply IHm. lia. }
  apply Hs. lia.
Qed.

Section write_all_ends.
Context {S : Type} (write : S → string → S * (Z * option error)) (written : S → string).

(** The contract of io.Writer: a call without an error has written the bytes it reports. *)
Hypothesis write_ok : ∀ w data w' n,
  write w data = (w', (n, None)) → (0 ≤ n ≤ len data)%Z → written w' = written w +:+ String.substring 0 (Z.to_nat n) data.

Lemma writeAll_loop fuel w data :
  (String.length data ≤ fuel)%nat →
  ∃ w' err, writeAll write fuel w data = Some (w', err) ∧ (err = None → written w' = written w +:+ data).
Proof.
  revert w data; induction fuel as [|fuel IH]; intros w [|c data] Hlen; simpl in Hlen; try lia.
  1,2: eexists _, None; split; [done|]; intros _; by rewrite strings.app_empty_r.
  cbn [writeAll]. destruct (write w (String c data)) as [w' [n [e|]]] eqn:Ew; [by eexists _, _|].
  case_bool; [by eexists _, _|]. to_prop.
  assert (Hn : (0 < n ≤ len (String c data))%Z) by lia.
  destruct (IH w' (drop_bytes n (String c data))) as (w2 & err & Heq & Hw).
  { rewrite length_drop_bytes by done. simpl. lia. }
  exists w2, err. split; [done|]. intros He. rewrite (Hw He), (write_ok _ _ _ _ Ew) by lia.
  by rewrite strings.app_assoc_str, take_drop_bytes.
Qed.
End write_all_ends.

(** Writing a frame ends and writes everything: for every writer that keeps the contract of io.Writer, the
    loop of writeAll returns after at most as many calls as there are bytes, and when it returns no error the
    writer has received exactly the data, once and in order. *)
Theorem writeAll_ends {S} (write : S → string → S * (Z * option error)) (written : S → string) w data
    (write_ok : ∀ w data w' n, write w data = (w', (n, None)) → (0 ≤ n ≤ len data)%Z →
      written w' = written w +:+ String.substring 0 (Z.to_nat n) data) :
  ∃ w' err, writeAll write (String.length data) w data = Some (w', err) ∧ (err = None → written w' = written w +:+ data).
Proof. by apply writeAll_loop. Qed.

(** A writer that takes two bytes at a time. *)
Definition two_bytes (w data : string) : string * (Z * option error) :=
  let n := Z.min 2 (len data) in (w +:+ String.substring 0 (Z.to_nat n) data, (n, None)).

Lemma writeAll_ends_witness :
  ∃ w' err, writeAll two_bytes 5 "" "hello" = Some (w', err) ∧ (err = None → w' = "hello").
Proof.
  apply (writeAll_ends two_bytes id "" "hello"). intros w data w' n Hw _. unfold two_bytes in Hw. by injection Hw as <- <-.
Defined.

(** ** The error of a chain *)

(** The first error of the package with a known code, depth first. *)
Fixpoint first_typed (e : error) : option error :=
  match e with
  | Typed code reason retryable cause =>
      if ValidCode code then Some e
      else match cause with Some c => first_typed c | None => None end
  | Joined es => foldr (λ e acc, match first_typed e with Some t => Some t | None => acc end) None es
  | Wrapped _ e => first_typed e
  | Foreign _ => None
  end.

(** The errors of a chain, with a nil cause counted. *)
Fixpoint chain_size (e : error) : nat :=
  match e with
  | Typed _ _ _ cause => S (match cause with Some c => chain_size c | None => 1 end)
  | Joined es => S (foldr (λ e n, chain_size e + n)%nat 0%nat es)
  | Wrapped _ e => S (chain_size e)
  | Foreign _ => 1
  end.

Definition pending_size (l : list (option error)) : nat :=
  foldr (λ o n, (match o with Some e => chain_size e | None => 1 end) + n)%nat 0%nat l.

Definition pending_first (l : list (option error)) : option error :=
  foldr (λ o acc, match o ≫= first_typed with Some t => Some t | None => acc end) None l.

Lemma pending_size_app l1 l2 : pending_size (l1 ++ l2) = (pending_size l1 + pending_size l2)%nat.
Proof. induction l1 as [|o l1 IH]; simpl; [done|]. rewrite IH. lia. Qed.

Lemma pending_first_app l1 l2 :
  pending_first (l1 ++ l2) = match pending_first l1 with Some t => Some t | None => pending_first l2 end.
Proof. induction l1 as [|o l1 IH]; simpl; [done|]. rewrite IH. by destruct (o ≫= first_typed). Qed.

Lemma pending_children es :
  pending_size (Some <$> es) = foldr (λ e n, chain_size e + n)%nat 0%nat es ∧
  pending_first (Some <$> es) = foldr (λ e acc, match first_typed e with Some t => Some t | None => acc end) None es.
Proof.
  induction es as [|e es [IH1 IH2]]; [done|]. rewrite fmap_cons. unfold pending_size, pending_first in *. cbn [foldr].
  rewrite IH1, IH2. done.
Qed.

Lemma chain_size_pos e : (1 ≤ chain_size e)%nat.
Proof. destruct e; simpl; lia. Qed.

Lemma pending_size_length l : (length l ≤ pending_size l)%nat.
Proof. induction l as [|[e|] l IH]; simpl; [lia| |lia]. pose proof (chain_size_pos e). lia. Qed.

Lemma protocolError_loop_ok n pending :
  (pending_size pending ≤ n)%nat → protocolError_loop n pending = pending_first pending.
Proof.
  revert pending; induction n as [|n IH]; intros [|[e|] pending] Hn; simpl in Hn; try done.
  - pose proof (chain_size_pos e). lia.
  - lia.
  - destruct e as [code reason retryable cause|es|msg e|msg]; cbn [protocolError_loop].
    + unfold pending_first. simpl. destruct (ValidCode code) eqn:Ev; [done|].
      rewrite IH by (destruct cause; simpl in *; lia). by destruct cause.
    + simpl in Hn. destruct (pending_children es) as [Hs Hf].
      rewrite take_ge by (pose proof (pending_size_length (Some <$> es)) as Hl; pose proof (pending_size_length pending);
        rewrite length_fmap in Hl; lia).
      rewrite IH by (rewrite pending_size_app; lia). by rewrite pending_first_app, Hf.
    + rewrite IH by (simpl in *; lia). done.
    + rewrite IH by (simpl in *; lia). done.
  - cbn [protocolError_loop]. rewrite IH by lia. done.
Qed.

(** The code of an error is found: for every chain of at most sixteen errors (wrapped, joined or
    nested), protocolError returns the first error of the package with a known code, depth first, and nothing when
    there is none; longer chains end after sixteen errors all the same. *)
Theorem protocolError_finds (e : error) (Hsize : (chain_size e ≤ 16)%nat) : protocolError (Some e) = first_typed e.
Proof. unfold protocolError. rewrite protocolError_loop_ok by (simpl; lia). simpl. by destruct (first_typed e). Qed.

Lemma protocolError_finds_witness :
  protocolError (Some (Wrapped "accept" (Joined [Foreign "eof"; Typed "unknown" "" false (Some ErrAuthenticationFailed)]))) =
  Some ErrAuthenticationFailed.
Proof. rewrite (protocolError_finds _); [reflexivity|]. simpl. lia. Defined.
