(* ===== verification/ConnMessages.v ===== *)
(** * The messages of the connector protocol: src/shared/connectorprotocol/authority.go

    Each message is a record with the fields of the struct and the checks of its Validate methods.  A time.Time
    is a number of nanoseconds, an unset one [time.zero].  encoding/json is the class [WireJSON]. *)
From S2P Require Import Prelude GoStd GoData GoNet GoEnc ConnProto.

#[local] Set Warnings "-register-all".

(** ** JSON values *)

Inductive JSON :=
  | JNull
  | JBool (b : bool)
  | JNumber (n : string)
  | JString (s : string)
  | JArray (l : list JSON)
  | JObject (ms : list (string * JSON)).

(** ** The records *)

Record wireConfigRoute := mkWireConfigRoute {
  wr_ID : string; wr_Name : string; wr_Protocol : string; wr_MatchType : string; wr_MatchHostname : string;
  wr_WildcardSuffix : string; wr_PathPrefix : option string; wr_OriginScheme : string; wr_OriginAddress : string;
  wr_PreserveHost : bool; wr_HostOverride : option string; wr_TLSVerification : string;
  wr_TLSServerName : option string; wr_CAReference : option string; wr_MTLSCredentialReference : option string;
  wr_ConnectTimeoutMs : Z; wr_IdleTimeoutMs : Z; wr_MaxConcurrentStreams : Z; wr_DesiredState : string;
}.

#[export] Instance wireConfigRoute_eq_dec : EqDecision wireConfigRoute.
Proof. solve_decision. Defined.

Record wireConfigSnapshot := mkWireConfigSnapshot {
  ws_Schema : string; ws_Kind : string; ws_TunnelID : string; ws_Generation : Z; ws_Name : string;
  ws_DesiredState : string; ws_AccessMode : string; ws_StableEndpointID : string; ws_StableEndpoint : string;
  ws_ExpiresAt : option Z; ws_Routes : list wireConfigRoute;
}.

#[export] Instance wireConfigSnapshot_eq_dec : EqDecision wireConfigSnapshot.
Proof. solve_decision. Defined.

Record AuthRequest := mkAuthRequest {
  ar_AccountID : string; ar_TunnelID : string; ar_ConnectorID : string; ar_HostID : string;
  ar_IdentityKeyID : string; ar_IdentityKeyThumbprint : string; ar_ProcessGeneration : Z;
  ar_CredentialGeneration : Z; ar_Nonce : string; ar_SignedProof : string; ar_IssuedAt : Z; ar_ExpiresAt : Z;
}.

#[export] Instance AuthRequest_eq_dec : EqDecision AuthRequest.
Proof. solve_decision. Defined.

Record AuthResult := mkAuthResult {
  au_AccountID : string; au_TunnelID : string; au_ConnectorID : string; au_SessionID : string; au_HostID : string;
  au_IdentityKeyID : string; au_IdentityKeyThumbprint : string; au_ProcessGeneration : Z;
  au_CredentialGeneration : Z; au_CredentialExpiresAt : Z; au_LeaseExpiresAt : Z;
}.

#[export] Instance AuthResult_eq_dec : EqDecision AuthResult.
Proof. solve_decision. Defined.

Record RenewalRequest := mkRenewalRequest {
  rn_SessionID : string; rn_AccountID : string; rn_TunnelID : string; rn_ConnectorID : string; rn_HostID : string;
  rn_IdentityKeyID : string; rn_IdentityKeyThumbprint : string; rn_ProcessGeneration : Z;
  rn_CredentialGeneration : Z; rn_Nonce : string; rn_SignedProof : string; rn_RequestedAt : Z;
}.

#[export] Instance RenewalRequest_eq_dec : EqDecision RenewalRequest.
Proof. solve_decision. Defined.

Record Lease := mkLease {
  ls_SessionID : string; ls_ExpiresAt : Z; ls_HeartbeatIntervalMS : Z;
}.

#[export] Instance Lease_eq_dec : EqDecision Lease.
Proof. solve_decision. Defined.

Record Hello := mkHello {
  he_Protocol : string; he_MinVersion : string; he_MaxVersion : string; he_AccountID : string; he_TunnelID : string;
  he_ConnectorID : string; he_HostID : string; he_ProcessGeneration : Z; he_Capabilities : list string;
  he_Auth : AuthRequest;
}.

#[export] Instance Hello_eq_dec : EqDecision Hello.
Proof. solve_decision. Defined.

Record Welcome := mkWelcome {
  we_Protocol : string; we_Version : string; we_SessionID : string; we_Capabilities : list string; we_Lease : Lease;
  we_RequiresSnapshot : bool; we_ServerTime : Z;
}.

#[export] Instance Welcome_eq_dec : EqDecision Welcome.
Proof. solve_decision. Defined.

Record Snapshot := mkSnapshot {
  sn_AccountID : string; sn_TunnelID : string; sn_ConnectorID : string; sn_SessionID : string;
  sn_ProcessGeneration : Z; sn_Generation : Z; sn_ContentHash : string; sn_Payload : string; sn_validated : bool;
}.

#[export] Instance Snapshot_eq_dec : EqDecision Snapshot.
Proof. solve_decision. Defined.

Record Delta := mkDelta {
  de_AccountID : string; de_TunnelID : string; de_ConnectorID : string; de_SessionID : string;
  de_ProcessGeneration : Z; de_PreviousGeneration : Z; de_Generation : Z; de_PreviousContentHash : string;
  de_ContentHash : string; de_Payload : string;
}.

#[export] Instance Delta_eq_dec : EqDecision Delta.
Proof. solve_decision. Defined.

Record Ack := mkAck {
  ak_AccountID : string; ak_TunnelID : string; ak_ConnectorID : string; ak_SessionID : string;
  ak_ProcessGeneration : Z; ak_Kind : string; ak_Status : string; ak_Generation : Z; ak_ContentHash : string;
  ak_Code : string;
}.

#[export] Instance Ack_eq_dec : EqDecision Ack.
Proof. solve_decision. Defined.

Record Readiness := mkReadiness {
  rd_AccountID : string; rd_SessionID : string; rd_TunnelID : string; rd_ConnectorID : string;
  rd_ProcessGeneration : Z; rd_Generation : Z; rd_ContentHash : string; rd_EdgeReady : bool; rd_RouteReady : bool;
  rd_OriginReady : bool;
}.

#[export] Instance Readiness_eq_dec : EqDecision Readiness.
Proof. solve_decision. Defined.

Record Heartbeat := mkHeartbeat {
  hb_AccountID : string; hb_SessionID : string; hb_TunnelID : string; hb_ConnectorID : string;
  hb_ProcessGeneration : Z; hb_LastAppliedGeneration : Z; hb_LastAppliedHash : string; hb_SentAt : Z;
}.

#[export] Instance Heartbeat_eq_dec : EqDecision Heartbeat.
Proof. solve_decision. Defined.

Record HeartbeatAck := mkHeartbeatAck {
  ha_AccountID : string; ha_TunnelID : string; ha_ConnectorID : string; ha_SessionID : string;
  ha_ProcessGeneration : Z; ha_LeaseExpiresAt : Z; ha_ServerTime : Z;
}.

#[export] Instance HeartbeatAck_eq_dec : EqDecision HeartbeatAck.
Proof. solve_decision. Defined.

Record Drain := mkDrain {
  dr_AccountID : string; dr_TunnelID : string; dr_ConnectorID : string; dr_SessionID : string;
  dr_ProcessGeneration : Z; dr_DrainID : string; dr_Generation : Z; dr_ContentHash : string; dr_Deadline : Z;
  dr_StopNewStreams : bool; dr_ForceAfterDeadline : bool;
}.

#[export] Instance Drain_eq_dec : EqDecision Drain.
Proof. solve_decision. Defined.

Record DrainAck := mkDrainAck {
  da_AccountID : string; da_TunnelID : string; da_ConnectorID : string; da_SessionID : string;
  da_ProcessGeneration : Z; da_DrainID : string; da_Generation : Z; da_ContentHash : string; da_Status : string;
  da_ActiveStreams : Z; da_ForcedClose : bool; da_Code : string;
}.

#[export] Instance DrainAck_eq_dec : EqDecision DrainAck.
Proof. solve_decision. Defined.

Record Disconnect := mkDisconnect {
  di_AccountID : string; di_TunnelID : string; di_ConnectorID : string; di_SessionID : string;
  di_ProcessGeneration : Z; di_Reason : string; di_Retryable : bool; di_Message : string;
}.

#[export] Instance Disconnect_eq_dec : EqDecision Disconnect.
Proof. solve_decision. Defined.

Record Reject := mkReject {
  rj_AccountID : string; rj_TunnelID : string; rj_ConnectorID : string; rj_SessionID : string;
  rj_ProcessGeneration : Z; rj_Code : string; rj_Reason : string; rj_Retryable : bool; rj_Message : string;
}.

#[export] Instance Reject_eq_dec : EqDecision Reject.
Proof. solve_decision. Defined.

(** encoding/json: the value a decoder reads from a text that holds nothing else ([None] is a syntax error or more
    data), the text of a decoded value, and decoding into wireConfigSnapshot with unknown fields refused. *)
Class WireJSON := {
  json_Decode : string → option JSON;
  json_Marshal : JSON → option string;
  json_Snapshot : string → option wireConfigSnapshot;
}.

(** strings.ToUpper on a string that is not pure ASCII. *)
Class GoUpper := { unicode_ToUpper : string → string }.

Definition any_bad_id (values : list string) : bool := existsb bad_id values.

Definition bad_nonce (nonce : string) : bool :=
  (len nonce <? 16)%Z || (MaxNonceBytes <? len nonce)%Z || negb (trimmed nonce) || has_line_break nonce.

Definition Minute : Z := (60 * time.Second)%Z.

(** A clock that is given: !now.IsZero(). *)
Definition clocked (now : Z) : bool := negb (time.IsZero now).

(** ** Canonical payloads *)

(** Every name is given once and nothing is nested deeper than allowed (rejectDuplicateKeys and the depth of decodeValue);
    [depth] levels are left. *)
Fixpoint json_well_formed (depth : nat) (v : JSON) : bool :=
  match depth with
  | O => false
  | S depth' =>
      match v with
      | JObject ms => bool_decide (NoDup (fst <$> ms)) && forallb (λ m, json_well_formed depth' m.2) ms
      | JArray l => forallb (json_well_formed depth') l
      | _ => true
      end
  end.

Definition secretKeys : list string :=
  ["accesstoken"; "apikey"; "authorization"; "clientsecret"; "cookie"; "headers"; "password"; "privatekey"; "refreshtoken";
   "requestbody"; "requestheaders"; "responsebody"; "responseheaders"; "secret"; "sessiontoken"; "setcookie"; "token"].

Definition secretQueryKeys : list string :=
  ["accesstoken"; "apikey"; "authorization"; "clientsecret"; "password"; "refreshtoken"; "secret"; "sessiontoken"; "token"].

Definition ascii_upper_byte (c : ascii) : ascii := if is_lower c then ascii_of_N (N_of_ascii c - 32) else c.

Fixpoint ascii_upper (s : string) : string :=
  match s with EmptyString => EmptyString | String c s' => String (ascii_upper_byte c) (ascii_upper s') end.

Fixpoint without_bytes (f : ascii → bool) (s : string) : string :=
  match s with EmptyString => EmptyString | String c s' => if f c then without_bytes f s' else String c (without_bytes f s') end.

Section payloads.
Context `{GoRuntime} `{GoUpper} `{NetURL} `{SHA256} `{WireJSON}.

Definition ToUpper (s : string) : string := if strings.is_ascii s then ascii_upper s else unicode_ToUpper s.

Definition normalizedKey (key : string) : string := without_bytes (one_of "_- ") (ToLower key).

Definition secret_string (value : string) : bool :=
  let upper := ToUpper (str.TrimSpace value) in
  strings.HasPrefix upper "BEARER " || strings.Contains upper "BEGIN PRIVATE KEY" ||
  match url_Parse value with
  | Some parsed =>
      negb (String.eqb (Scheme parsed) "") &&
      (HasUser parsed || existsb (λ key, bool_decide (normalizedKey key ∈ secretQueryKeys)) (QueryKeys parsed))
  | None => false
  end.

(** rejectSecretFields: whether something secret is found; every find is the same error. *)
Fixpoint has_secret (v : JSON) : bool :=
  match v with
  | JObject ms => existsb (λ m, bool_decide (normalizedKey m.1 ∈ secretKeys) || has_secret m.2) ms
  | JArray l => existsb has_secret l
  | JString s => secret_string s
  | _ => false
  end.

Definition canonicalJSON (data : string) (limit : Z) : error + string :=
  if (len data =? 0)%Z || (limit <? len data)%Z then inl ErrInvalidInput
  else match json_Decode data with
       | None => inl ErrInvalidInput
       | Some value =>
           if negb (json_well_formed (S MaxJSONDepth) value) then inl ErrInvalidInput
           else if has_secret value then inl ErrInvalidInput
           else match json_Marshal value with
                | None => inl ErrInvalidInput
                | Some encoded => if (limit <? len encoded)%Z then inl ErrInvalidInput else inr encoded
                end
       end.

(** ** The configuration in a payload *)

Definition wireHostnamePattern (value : string) : bool :=
  negb ((len value =? 0)%Z || (253 <? len value)%Z)
  && all_bytes (λ c, is_lower c || is_digit c || one_of ".-" c) value
  && negb (strings.HasPrefix value "-") && negb (str.HasSuffix value "-").

Definition validWireStableEndpoint (value : string) : bool :=
  if (len value <? 9)%Z || (264 <? len value)%Z || negb (trimmed value) then false
  else match url_Parse value with
       | None => false
       | Some parsed =>
           negb (negb (String.eqb (Scheme parsed) "https") || HasUser parsed || negb (String.eqb (Opaque parsed) "")
             || negb (String.eqb (Path parsed) "") || negb (String.eqb (RawQuery parsed) "") || negb (String.eqb (Fragment parsed) "")
             || negb (String.eqb (Port parsed) "") || String.eqb (Host parsed) "" || negb (String.eqb (Host parsed) (ToLower (Host parsed)))
             || negb (wireHostnamePattern (Host parsed)))
       end.

Definition hex_run (n : Z) (s : string) : bool := (len s =? n)%Z && all_bytes is_hex s.

(** ^endpoint_[0-9a-f]{8}-[0-9a-f]{4}-4[0-9a-f]{3}-[89ab][0-9a-f]{3}-[0-9a-f]{12}$ *)
Definition stableEndpointIDPattern (s : string) : bool :=
  match strings.strip_prefix "endpoint_" s with
  | None => false
  | Some r =>
      match str.Split r "-" with
      | [a; b; String v c; String w d; e] =>
          hex_run 8 a && hex_run 4 b && Ascii.eqb v "4" && hex_run 3 c && one_of "89ab" w && hex_run 3 d && hex_run 12 e
      | _ => false
      end
  end.

Definition bad_text (max : Z) (s : string) : bool := negb (trimmed s) || (len s =? 0)%Z || (max <? len s)%Z.

Definition is_set {A} (o : option A) : bool := match o with Some _ => true | None => false end.

(** The switch over the protocol of a route. *)
Definition route_protocol_ok (r : wireConfigRoute) : bool :=
  if String.eqb (wr_Protocol r) "http" then negb (String.eqb (wr_OriginScheme r) "tcp")
  else if String.eqb (wr_Protocol r) "tcp_private" then String.eqb (wr_OriginScheme r) "tcp"
  else if String.eqb (wr_Protocol r) "tcp" then
    String.eqb (wr_OriginScheme r) "tcp" && String.eqb (wr_MatchType r) "managed_exact" && negb (is_set (wr_PathPrefix r))
  else if String.eqb (wr_Protocol r) "tls" then
    String.eqb (wr_OriginScheme r) "tcp" && String.eqb (wr_MatchType r) "managed_exact" && negb (String.eqb (wr_MatchHostname r) "")
    && String.eqb (wr_WildcardSuffix r) "" && negb (is_set (wr_PathPrefix r)) && negb (wr_PreserveHost r) && negb (is_set (wr_HostOverride r))
  else false.

(** The switch over the kind of match. *)
Definition route_match_ok (r : wireConfigRoute) : bool :=
  if bool_decide (wr_MatchType r ∈ ["managed_exact"; "exact"]) then
    negb (String.eqb (wr_MatchHostname r) "") && String.eqb (wr_WildcardSuffix r) "" && wireHostnamePattern (wr_MatchHostname r)
  else if String.eqb (wr_MatchType r) "one_label_wildcard" then
    String.eqb (wr_MatchHostname r) "" && negb (String.eqb (wr_WildcardSuffix r) "") && wireHostnamePattern (wr_WildcardSuffix r)
  else if String.eqb (wr_MatchType r) "catch_all" then
    String.eqb (wr_MatchHostname r) "" && String.eqb (wr_WildcardSuffix r) ""
  else false.

Definition validateWireConfigRoute (r : wireConfigRoute) : option error :=
  if bad_id (wr_ID r) || bad_text 80 (wr_Name r) || bad_text 512 (wr_OriginAddress r)
     || str.ContainsAny (wr_OriginAddress r) [13; 10; 64]%N
     || negb (route_protocol_ok r) || negb (route_match_ok r)
     || negb (bool_decide (wr_OriginScheme r ∈ ["http"; "https"; "h2c"; "unix"; "tcp"]))
     || negb (bool_decide (wr_TLSVerification r ∈ ["not_applicable"; "system"; "custom_ca"; "mutual_tls"; "insecure_development"]))
     || negb (String.eqb (wr_OriginScheme r) "https") && negb (String.eqb (wr_TLSVerification r) "not_applicable")
     || match wr_PathPrefix r with
        | Some p => (len p =? 0)%Z || (512 <? len p)%Z || negb (strings.HasPrefix p "/") || has_line_break p
        | None => false
        end
     || match wr_HostOverride r with Some h => (len h =? 0)%Z || (253 <? len h)%Z || negb (trimmed h) | None => false end
     || match wr_TLSServerName r with
        | Some h => (len h =? 0)%Z || (253 <? len h)%Z || negb (trimmed h) || has_line_break h
        | None => false
        end
     || existsb (λ reference, match reference with Some v => bad (ValidateCredentialReference v) | None => false end)
          [wr_CAReference r; wr_MTLSCredentialReference r]
     || (wr_ConnectTimeoutMs r <? 100)%Z || (120000 <? wr_ConnectTimeoutMs r)%Z || (wr_IdleTimeoutMs r <? 1000)%Z
     || (3600000 <? wr_IdleTimeoutMs r)%Z || (wr_MaxConcurrentStreams r <? 1)%Z || (100000 <? wr_MaxConcurrentStreams r)%Z
     || negb (bool_decide (wr_DesiredState r ∈ ["active"; "disabled"; "deleted"]))
  then Some ErrInvalidInput else None.

Definition snapshotFields : list string :=
  ["schema"; "kind"; "tunnel_id"; "generation"; "name"; "desired_state"; "access_mode"; "stable_endpoint_id"; "stable_endpoint";
   "expires_at"; "routes"].

Definition routeFields : list string :=
  ["id"; "name"; "protocol"; "match_type"; "path_prefix"; "origin_scheme"; "origin_address"; "preserve_host"; "host_override";
   "tls_verification"; "tls_server_name"; "ca_reference"; "mtls_credential_reference"; "connect_timeout_ms"; "idle_timeout_ms";
   "max_concurrent_streams"; "desired_state"].

(** json.Unmarshal into a map of raw messages: the last value of a name counts. *)
Definition object_fields (v : JSON) : option (gmap string JSON) :=
  match v with JObject ms => Some (foldl (λ m kv, <[kv.1 := kv.2]> m) ∅ ms) | _ => None end.

Definition has_fields (fields : gmap string JSON) (names : list string) : bool :=
  forallb (λ name, is_set (fields !! name)) names.

(** One turn of the loop over the routes. *)
Definition route_rejected (access : string) (raw : JSON) (route : wireConfigRoute) : bool :=
  match object_fields raw with
  | None => true
  | Some fields =>
      negb (has_fields fields routeFields)
      || bool_decide (wr_Protocol route ∈ ["tls"; "tcp"]) && negb (String.eqb access "public")
      || bad (validateWireConfigRoute route)
  end.

(** The raw routes; null is the empty list. *)
Definition raw_routes (fields : gmap string JSON) : option (list JSON) :=
  match fields !! "routes" with Some (JArray l) => Some l | Some JNull => Some [] | _ => None end.

Definition ValidateConfigSnapshotPayload (payload tunnelID : string) (generation : Z) : option error :=
  match json_Decode payload ≫= object_fields with
  | None => Some ErrSnapshotRejected
  | Some fields =>
      if negb (has_fields fields snapshotFields) then Some (Wrapped "snapshot field is required" ErrSnapshotRejected)
      else match json_Snapshot payload with
           | None => Some (Wrapped "snapshot shape" ErrSnapshotRejected)
           | Some s =>
               if negb (String.eqb (ws_Schema s) "paperboat.preview-tunnel/v1") || negb (String.eqb (ws_Kind s) "tunnel_config_snapshot")
                  || negb (String.eqb (ws_TunnelID s) tunnelID) || negb (ws_Generation s =? generation)%Z || bad_text 80 (ws_Name s)
                  || negb (bool_decide (ws_DesiredState s ∈ ["active"; "paused"; "deleted"]))
                  || negb (bool_decide (ws_AccessMode s ∈ ["public"; "private"; "team"]))
                  || match fields !! "routes" with Some JNull => true | _ => false end
                  || negb (stableEndpointIDPattern (ws_StableEndpointID s)) || negb (validWireStableEndpoint (ws_StableEndpoint s))
               then Some ErrSnapshotRejected
               else match raw_routes fields with
                    | None => Some ErrSnapshotRejected
                    | Some raws =>
                        if negb (length raws =? length (ws_Routes s))%nat then Some ErrSnapshotRejected
                        else if existsb (λ p, route_rejected (ws_AccessMode s) p.1 p.2) (combine raws (ws_Routes s))
                        then Some (Wrapped "route" ErrSnapshotRejected) else None
                    end
           end
  end.

Definition content_hash (payload : string) : string := "sha256:" +:+ hex.EncodeToString (Sum256 payload).

(** ** Snapshots and deltas *)

Definition NewSnapshot (tunnelID : string) (generation : Z) (payload : string) : error + Snapshot :=
  if bad_id tunnelID || (generation =? 0)%Z || (len payload =? 0)%Z || (MaxSnapshotBytes <? len payload)%Z then inl ErrInvalidInput
  else match canonicalJSON payload MaxSnapshotBytes with
       | inl e => inl e
       | inr canonical =>
           match ValidateConfigSnapshotPayload canonical tunnelID generation with
           | Some e => inl e
           | None => inr (mkSnapshot "" tunnelID "" "" 0 generation (content_hash canonical) canonical false)
           end
       end.

Definition Snapshot_Validate (s : Snapshot) : option error :=
  if bad_id (sn_TunnelID s) || negb (String.eqb (sn_AccountID s) "") && bad_id (sn_AccountID s)
     || negb (String.eqb (sn_SessionID s) "") && bad_id (sn_SessionID s) || (sn_Generation s =? 0)%Z
     || negb (ValidContentHash (sn_ContentHash s)) || (len (sn_Payload s) =? 0)%Z || (MaxSnapshotBytes <? len (sn_Payload s))%Z
  then Some ErrInvalidInput
  else match canonicalJSON (sn_Payload s) MaxSnapshotBytes with
       | inl e => Some (CodeError CodeContentHashMismatch ReasonSnapshotRejected false (Some e))
       | inr canonical =>
           if negb (String.eqb canonical (sn_Payload s)) then Some (CodeError CodeContentHashMismatch ReasonSnapshotRejected false None)
           else if negb (String.eqb (sn_ContentHash s) (content_hash canonical))
           then Some (CodeError CodeContentHashMismatch ReasonSnapshotRejected false None)
           else match ValidateConfigSnapshotPayload canonical (sn_TunnelID s) (sn_Generation s) with
                | Some e => Some (CodeError CodeSnapshotRejected ReasonSnapshotRejected false (Some e))
                | None => None
                end
       end.

Definition Snapshot_validateBinding (s : Snapshot) : option error :=
  if any_bad_id [sn_AccountID s; sn_ConnectorID s; sn_SessionID s] || (sn_ProcessGeneration s =? 0)%Z then Some ErrInvalidInput else None.

Definition Snapshot_ValidateBound (s : Snapshot) : option error :=
  if sn_validated s then None
  else match Snapshot_validateBinding s with Some e => Some e | None => Snapshot_Validate s end.

Definition Delta_Validate (d : Delta) : option error :=
  if bad_id (de_TunnelID d) || negb (String.eqb (de_AccountID d) "") && bad_id (de_AccountID d)
     || negb (String.eqb (de_SessionID d) "") && bad_id (de_SessionID d) || negb (ValidContentHash (de_PreviousContentHash d))
     || negb (ValidContentHash (de_ContentHash d)) || (len (de_Payload d) =? 0)%Z || (MaxDeltaBytes <? len (de_Payload d))%Z
  then Some ErrInvalidInput
  else if (de_PreviousGeneration d =? 0)%Z || negb (de_Generation d =? UInt64.wrap (de_PreviousGeneration d + 1))%Z
  then Some (CodeError CodeGenerationGap ReasonGenerationGap true None)
  else match canonicalJSON (de_Payload d) MaxDeltaBytes with
       | inl e => Some (CodeError CodeContentHashMismatch ReasonGenerationGap false (Some e))
       | inr canonical =>
           if negb (String.eqb canonical (de_Payload d)) then Some (CodeError CodeContentHashMismatch ReasonGenerationGap false None)
           else if negb (String.eqb (de_ContentHash d) (content_hash canonical))
           then Some (CodeError CodeContentHashMismatch ReasonGenerationGap false None)
           else match ValidateConfigSnapshotPayload canonical (de_TunnelID d) (de_Generation d) with
                | Some e => Some (CodeError CodeDeltaRejected ReasonGenerationGap false (Some e))
                | None => None
                end
       end.

Definition Delta_ValidateBound (d : Delta) : option error :=
  if any_bad_id [de_AccountID d; de_ConnectorID d; de_SessionID d] || (de_ProcessGeneration d =? 0)%Z then Some ErrInvalidInput
  else Delta_Validate d.

Definition NewDelta (tunnelID : string) (previous : Snapshot) (generation : Z) (payload : string) : error + Delta :=
  match Snapshot_Validate previous with
  | Some e => inl (CodeError CodeGenerationGap ReasonGenerationGap false (Some e))
  | None =>
      if negb (generation =? UInt64.wrap (sn_Generation previous + 1))%Z then inl (CodeError CodeGenerationGap ReasonGenerationGap false None)
      else match NewSnapshot tunnelID generation payload with
           | inl e => inl e
           | inr snapshot =>
               inr (mkDelta "" tunnelID "" "" 0 (sn_Generation previous) generation (sn_ContentHash previous) (sn_ContentHash snapshot)
                 (sn_Payload snapshot))
           end
  end.
End payloads.

(** ** Authentication *)

Section auth.

Definition AuthRequest_validate (a : AuthRequest) (now : Z) (requireProof : bool) : option error :=
  if any_bad_id [ar_AccountID a; ar_TunnelID a; ar_ConnectorID a; ar_HostID a]
     || bad (ValidateIdentityKey (ar_IdentityKeyID a) (ar_IdentityKeyThumbprint a))
  then Some ErrInvalidInput
  else if bad_nonce (ar_Nonce a) || (ar_ProcessGeneration a =? 0)%Z || (ar_CredentialGeneration a =? 0)%Z
          || time.IsZero (ar_IssuedAt a) || time.IsZero (ar_ExpiresAt a) || negb (time.After (ar_ExpiresAt a) (ar_IssuedAt a))
          || (15 * Minute <? time.Sub (ar_ExpiresAt a) (ar_IssuedAt a))%Z || requireProof && bad (ValidateProof (ar_SignedProof a))
  then Some ErrInvalidInput
  else if clocked now && (time.After (ar_IssuedAt a) (now + MaxClockSkew) || (MaxClockSkew <? time.Sub now (ar_IssuedAt a))%Z
                          || negb (time.After (ar_ExpiresAt a) now))
  then Some (CodeError CodeCredentialExpired ReasonCredentialExpired true None)
  else None.

Definition AuthRequest_Validate (a : AuthRequest) (now : Z) : option error := AuthRequest_validate a now true.

Definition AuthResult_Validate (a : AuthResult) (now : Z) : option error :=
  if any_bad_id [au_AccountID a; au_TunnelID a; au_ConnectorID a; au_HostID a] then Some ErrAuthenticationFailed
  else if negb (String.eqb (au_SessionID a) "") && bad_id (au_SessionID a) then Some ErrAuthenticationFailed
  else if bad (ValidateIdentityKey (au_IdentityKeyID a) (au_IdentityKeyThumbprint a)) || (au_ProcessGeneration a =? 0)%Z
          || (au_CredentialGeneration a =? 0)%Z || time.IsZero (au_CredentialExpiresAt a) || time.IsZero (au_LeaseExpiresAt a)
          || time.After (au_LeaseExpiresAt a) (au_CredentialExpiresAt a)
  then Some ErrAuthenticationFailed
  else if clocked now && (negb (time.After (au_CredentialExpiresAt a) now) || negb (time.After (au_LeaseExpiresAt a) now)
                          || (MaxLease <? time.Sub (au_LeaseExpiresAt a) now)%Z)
  then Some ErrAuthenticationFailed
  else None.

Definition AuthResult_ValidateBound (a : AuthResult) : option error :=
  if bad (AuthResult_Validate a time.zero) || bad_id (au_SessionID a) then Some ErrAuthenticationFailed else None.

Definition RenewalRequest_validate (r : RenewalRequest) (requireProof : bool) : option error :=
  if any_bad_id [rn_SessionID r; rn_AccountID r; rn_TunnelID r; rn_ConnectorID r; rn_HostID r]
     || bad (ValidateIdentityKey (rn_IdentityKeyID r) (rn_IdentityKeyThumbprint r)) || (rn_ProcessGeneration r =? 0)%Z
     || (rn_CredentialGeneration r =? 0)%Z || bad_nonce (rn_Nonce r) || time.IsZero (rn_RequestedAt r)
     || requireProof && bad (ValidateProof (rn_SignedProof r))
  then Some ErrInvalidInput else None.

Definition RenewalRequest_Validate (r : RenewalRequest) : option error := RenewalRequest_validate r true.

Definition RenewalRequest_ValidateAt (r : RenewalRequest) (now : Z) : option error :=
  match RenewalRequest_validate r true with
  | Some e => Some e
  | None =>
      if clocked now && (time.After (rn_RequestedAt r) (now + MaxClockSkew) || (MaxClockSkew <? time.Sub now (rn_RequestedAt r))%Z)
      then Some (CodeError CodeAuthenticationFailed ReasonAuthentication false None) else None
  end.

(** time.Duration(ms) * time.Millisecond *)
Definition heartbeat_interval (l : Lease) : Z := (ls_HeartbeatIntervalMS l * Millisecond)%Z.

Definition Lease_Validate (l : Lease) (now : Z) : option error :=
  if bad_id (ls_SessionID l) || time.IsZero (ls_ExpiresAt l) || (ls_HeartbeatIntervalMS l =? 0)%Z then Some ErrInvalidInput
  else if clocked now && (negb (time.After (ls_ExpiresAt l) now) || (MaxLease <? time.Sub (ls_ExpiresAt l) now)%Z
                          || (time.Sub (ls_ExpiresAt l) now <=? heartbeat_interval l)%Z)
  then Some ErrInvalidInput else None.

Definition Hello_Validate (h : Hello) (now : Z) : option error :=
  if negb (String.eqb (he_Protocol h) ProtocolName) || String.eqb (he_MinVersion h) "" || String.eqb (he_MaxVersion h) ""
     || any_bad_id [he_AccountID h; he_TunnelID h; he_ConnectorID h; he_HostID h] || (he_ProcessGeneration h =? 0)%Z
  then Some ErrInvalidInput
  else match NegotiateVersion (he_MinVersion h) (he_MaxVersion h) with
       | inl e => Some e
       | inr _ =>
           match ValidateCapabilities (he_Capabilities h) with
           | Some e => Some e
           | None =>
               let a := he_Auth h in
               if negb (String.eqb (ar_AccountID a) (he_AccountID h)) || negb (String.eqb (ar_TunnelID a) (he_TunnelID h))
                  || negb (String.eqb (ar_ConnectorID a) (he_ConnectorID h)) || negb (String.eqb (ar_HostID a) (he_HostID h))
                  || negb (ar_ProcessGeneration a =? he_ProcessGeneration h)%Z
               then Some (CodeError CodeIdentityMismatch ReasonAuthentication false None)
               else AuthRequest_Validate a now
           end
       end.

Definition Welcome_Validate (w : Welcome) (now : Z) : option error :=
  if negb (String.eqb (we_Protocol w) ProtocolName) || negb (String.eqb (we_Version w) ProtocolVersion) || bad_id (we_SessionID w)
     || negb (we_RequiresSnapshot w) || bad (ValidateCapabilities (we_Capabilities w)) || time.IsZero (we_ServerTime w)
     || negb (String.eqb (ls_SessionID (we_Lease w)) (we_SessionID w))
  then Some ErrInvalidInput
  else Lease_Validate (we_Lease w) now.
End auth.

(** ** Acknowledgements, readiness, heartbeats and drains *)

Definition AckSnapshot := "snapshot".
Definition AckDelta := "delta".
Definition AckReady := "ready".
Definition AckRenewal := "auth_renew".
Definition AckKinds : list string := [AckSnapshot; AckDelta; AckReady; AckRenewal].

Definition AckApplied := "applied".
Definition AckDuplicate := "duplicate".
Definition AckRejected := "rejected".
Definition AckSnapshotRequired := "snapshot_required".
Definition AckStatuses : list string := [AckApplied; AckDuplicate; AckRejected; AckSnapshotRequired].

Definition Ack_Validate (a : Ack) : option error :=
  if any_bad_id [ak_AccountID a; ak_TunnelID a; ak_ConnectorID a; ak_SessionID a] || (ak_ProcessGeneration a =? 0)%Z
     || negb (bool_decide (ak_Kind a ∈ AckKinds)) || negb (bool_decide (ak_Status a ∈ AckStatuses)) || (ak_Generation a =? 0)%Z
     || negb (ValidContentHash (ak_ContentHash a))
  then Some ErrInvalidInput
  else if String.eqb (ak_Status a) AckRejected && (String.eqb (ak_Code a) "" || negb (ValidCode (ak_Code a)))
          || negb (String.eqb (ak_Status a) AckRejected) && negb (String.eqb (ak_Code a) "")
  then Some ErrInvalidInput else None.

Definition Readiness_Validate (r : Readiness) : option error :=
  if any_bad_id [rd_AccountID r; rd_SessionID r; rd_TunnelID r; rd_ConnectorID r] || (rd_ProcessGeneration r =? 0)%Z
     || (rd_Generation r =? 0)%Z || negb (ValidContentHash (rd_ContentHash r))
  then Some ErrInvalidInput else None.

Definition Heartbeat_Validate (h : Heartbeat) : option error :=
  if any_bad_id [hb_AccountID h; hb_SessionID h; hb_TunnelID h; hb_ConnectorID h] || (hb_ProcessGeneration h =? 0)%Z
     || (hb_LastAppliedGeneration h =? 0)%Z || negb (ValidContentHash (hb_LastAppliedHash h)) || time.IsZero (hb_SentAt h)
  then Some ErrInvalidInput else None.

Definition HeartbeatAck_Validate (h : HeartbeatAck) (now : Z) : option error :=
  if any_bad_id [ha_AccountID h; ha_TunnelID h; ha_ConnectorID h; ha_SessionID h] || (ha_ProcessGeneration h =? 0)%Z
     || time.IsZero (ha_LeaseExpiresAt h) || negb (time.After (ha_LeaseExpiresAt h) now) || time.IsZero (ha_ServerTime h)
  then Some ErrInvalidInput else None.

Definition DrainAccepted := "accepted".
Definition DrainProgress := "progress".
Definition DrainCompleted := "completed".
Definition DrainForced := "forced_close".
Definition DrainRejected := "rejected".

Definition MaxActiveStreams : Z := 1048576.

Definition Drain_Validate (d : Drain) (now : Z) : option error :=
  if any_bad_id [dr_AccountID d; dr_TunnelID d; dr_ConnectorID d; dr_SessionID d; dr_DrainID d] || (dr_ProcessGeneration d =? 0)%Z
     || (dr_Generation d =? 0)%Z || negb (ValidContentHash (dr_ContentHash d)) || time.IsZero (dr_Deadline d) || negb (dr_StopNewStreams d)
  then Some ErrInvalidInput
  else if clocked now && (negb (time.After (dr_Deadline d) now) || (MaxLease <? time.Sub (dr_Deadline d) now)%Z)
  then Some ErrInvalidInput else None.

(** The switch over the status. *)
Definition drain_status_ok (a : DrainAck) : bool :=
  if bool_decide (da_Status a ∈ [DrainAccepted; DrainProgress]) then negb (da_ForcedClose a) && String.eqb (da_Code a) ""
  else if String.eqb (da_Status a) DrainCompleted then
    (da_ActiveStreams a =? 0)%Z && negb (da_ForcedClose a) && String.eqb (da_Code a) ""
  else if String.eqb (da_Status a) DrainForced then
    da_ForcedClose a && String.eqb (da_Code a) CodeDrainTimeout && (da_ActiveStreams a =? 0)%Z
  else if String.eqb (da_Status a) DrainRejected then negb (da_ForcedClose a) && String.eqb (da_Code a) CodeDrainRejected
  else false.

Definition DrainAck_Validate (a : DrainAck) : option error :=
  if any_bad_id [da_AccountID a; da_TunnelID a; da_ConnectorID a; da_SessionID a; da_DrainID a] || (da_ProcessGeneration a =? 0)%Z
     || (da_Generation a =? 0)%Z || negb (ValidContentHash (da_ContentHash a)) || (MaxActiveStreams <? da_ActiveStreams a)%Z
  then Some ErrInvalidInput
  else if negb (drain_status_ok a) then Some ErrInvalidInput
  else if negb (String.eqb (da_Code a) "") && negb (ValidCode (da_Code a)) then Some ErrInvalidInput
  else None.

Definition Disconnect_Validate (d : Disconnect) : option error :=
  if any_bad_id [di_AccountID d; di_TunnelID d; di_ConnectorID d; di_SessionID d] || (di_ProcessGeneration d =? 0)%Z
     || negb (ValidDisconnectReason (di_Reason d)) || (MaxReasonMessage <? len (di_Message d))%Z
  then Some ErrInvalidInput else None.

Definition Reject_Validate (r : Reject) : option error :=
  if any_bad_id [rj_AccountID r; rj_TunnelID r; rj_ConnectorID r; rj_SessionID r] || (rj_ProcessGeneration r =? 0)%Z
     || negb (ValidCode (rj_Code r)) || negb (ValidDisconnectReason (rj_Reason r)) || (MaxReasonMessage <? len (rj_Message r))%Z
  then Some ErrInvalidInput else None.

(** Identity fields of a message that are equal to those of a session. *)
Definition bound_to (account tunnel connector session : string) (process : Z) (account' tunnel' connector' session' : string) (process' : Z) : bool :=
  String.eqb account account' && String.eqb tunnel tunnel' && String.eqb connector connector' && String.eqb session session'
  && (process =? process')%Z.
