(* ===== verification/Sessions.v ===== *)
(** * Server sessions: src/shared/connectorprotocol/session.go

    The registry of live sessions, one per connector, and the session the server keeps of a connector process.  A
    method is one step on the pair of the registry and the session; Renew, which calls the authenticator
    without its lock, is two.  The clock, the context, the authenticator, the source of snapshots and of session
    identifiers are arguments: what they return in one call. *)
From S2P Require Import Prelude GoStd GoData GoNet GoEnc StateErr ConnProto ConnMessages.

#[local] Open Scope go_scope.

Inductive SessionState :=
  | SessionNew | SessionAwaitingSnapshot | SessionAwaitingReady | SessionReady | SessionDraining | SessionClosed.

#[export] Instance SessionState_eq_dec : EqDecision SessionState.
Proof. solve_decision. Defined.

Record SessionRef := mkSessionRef {
  sr_TunnelID : string; sr_ConnectorID : string; sr_SessionID : string; sr_ProcessGeneration : Z;
}.

#[export] Instance SessionRef_eq_dec : EqDecision SessionRef.
Proof. solve_decision. Defined.

(** A context: [None] is nil, [Some e] one whose Err() is [e]. *)
Definition Context : Type := option (option error).

(** if ctx == nil *)
Definition no_ctx (ctx : Context) : bool := match ctx with None => true | Some _ => false end.

(** if err := ctx.Err(); err != nil { return CodeError(ErrCanceled, ReasonCanceled, true, err) } *)
Definition canceled (ctx : Context) : option error :=
  match ctx with Some (Some e) => Some (CodeError CodeCanceled ReasonCanceled true (Some e)) | _ => None end.

(** ** The registry of live sessions *)

Definition SessionRegistry : Type := gmap string SessionRef.

Definition SessionRef_Validate (r : SessionRef) : option error :=
  if any_bad_id [sr_TunnelID r; sr_ConnectorID r; sr_SessionID r] || (sr_ProcessGeneration r =? 0)%Z then Some ErrInvalidInput else None.

(** Attach returns the session it replaced. *)
Definition Attach (reg : SessionRegistry) (ref : SessionRef) : SessionRegistry * (error + option SessionRef) :=
  if bad (SessionRef_Validate ref) then (reg, inl ErrInvalidInput)
  else match reg !! sr_ConnectorID ref with
       | Some previous =>
           if negb (String.eqb (sr_TunnelID previous) (sr_TunnelID ref)) then
             (reg, inl (CodeError CodeIdentityMismatch ReasonAuthentication false None))
           else if (sr_ProcessGeneration ref <=? sr_ProcessGeneration previous)%Z then
             (reg, inl (CodeError CodeSessionConflict ReasonStaleGeneration false None))
           else (<[sr_ConnectorID ref := ref]> reg, inr (Some previous))
       | None => (<[sr_ConnectorID ref := ref]> reg, inr None)
       end.

Definition Registry_Disconnect (reg : SessionRegistry) (ref : SessionRef) (reason : string) : SessionRegistry * option error :=
  if bad (SessionRef_Validate ref) || negb (ValidDisconnectReason reason) then (reg, Some ErrInvalidInput)
  else match reg !! sr_ConnectorID ref with
       | None => (reg, None)
       | Some current =>
           if decide (current = ref) then (delete (sr_ConnectorID ref) reg, None)
           else (reg, Some (CodeError CodeStaleSession ReasonStaleGeneration false None))
       end.

Definition Registry_Active (reg : SessionRegistry) (connectorID : string) : option SessionRef :=
  if bad_id connectorID then None else reg !! connectorID.

(** ** Sessions *)

Record ServerSession := mkServerSession {
  ss_ref : SessionRef; ss_auth : AuthResult; ss_lease : Lease; ss_welcome : Welcome;
  ss_pendingSnapshot : option Snapshot; ss_pendingDelta : option Delta; ss_active : Snapshot; ss_hasActive : bool;
  ss_candidate : Snapshot; ss_hasCandidate : bool; ss_readyGeneration : Z; ss_needsSnapshot : bool;
  ss_state : SessionState; ss_lastHeartbeat : Z; ss_lastHeartbeatSentAt : Z; ss_drain : option Drain;
  ss_drainStatus : string; ss_drainCode : string; ss_drainCompleted : bool; ss_disconnectReason : string;
}.

Definition with_ref (v : SessionRef) (s : ServerSession) : ServerSession := mkServerSession v (ss_auth s) (ss_lease s) (ss_welcome s) (ss_pendingSnapshot s) (ss_pendingDelta s) (ss_active s) (ss_hasActive s) (ss_candidate s) (ss_hasCandidate s) (ss_readyGeneration s) (ss_needsSnapshot s) (ss_state s) (ss_lastHeartbeat s) (ss_lastHeartbeatSentAt s) (ss_drain s) (ss_drainStatus s) (ss_drainCode s) (ss_drainCompleted s) (ss_disconnectReason s).
Definition with_auth (v : AuthResult) (s : ServerSession) : ServerSession := mkServerSession (ss_ref s) v (ss_lease s) (ss_welcome s) (ss_pendingSnapshot s) (ss_pendingDelta s) (ss_active s) (ss_hasActive s) (ss_candidate s) (ss_hasCandidate s) (ss_readyGeneration s) (ss_needsSnapshot s) (ss_state s) (ss_lastHeartbeat s) (ss_lastHeartbeatSentAt s) (ss_drain s) (ss_drainStatus s) (ss_drainCode s) (ss_drainCompleted s) (ss_disconnectReason s).
Definition with_lease (v : Lease) (s : ServerSession) : ServerSession := mkServerSession (ss_ref s) (ss_auth s) v (ss_welcome s) (ss_pendingSnapshot s) (ss_pendingDelta s) (ss_active s) (ss_hasActive s) (ss_candidate s) (ss_hasCandidate s) (ss_readyGeneration s) (ss_needsSnapshot s) (ss_state s) (ss_lastHeartbeat s) (ss_lastHeartbeatSentAt s) (ss_drain s) (ss_drainStatus s) (ss_drainCode s) (ss_drainCompleted s) (ss_disconnectReason s).
Definition with_welcome (v : Welcome) (s : ServerSession) : ServerSession := mkServerSession (ss_ref s) (ss_auth s) (ss_lease s) v (ss_pendingSnapshot s) (ss_pendingDelta s) (ss_active s) (ss_hasActive s) (ss_candidate s) (ss_hasCandidate s) (ss_readyGeneration s) (ss_needsSnapshot s) (ss_state s) (ss_lastHeartbeat s) (ss_lastHeartbeatSentAt s) (ss_drain s) (ss_drainStatus s) (ss_drainCode s) (ss_drainCompleted s) (ss_disconnectReason s).
Definition with_pendingSnapshot (v : option Snapshot) (s : ServerSession) : ServerSession := mkServerSession (ss_ref s) (ss_auth s) (ss_lease s) (ss_welcome s) v (ss_pendingDelta s) (ss_active s) (ss_hasActive s) (ss_candidate s) (ss_hasCandidate s) (ss_readyGeneration s) (ss_needsSnapshot s) (ss_state s) (ss_lastHeartbeat s) (ss_lastHeartbeatSentAt s) (ss_drain s) (ss_drainStatus s) (ss_drainCode s) (ss_drainCompleted s) (ss_disconnectReason s).
Definition with_pendingDelta (v : option Delta) (s : ServerSession) : ServerSession := mkServerSession (ss_ref s) (ss_auth s) (ss_lease s) (ss_welcome s) (ss_pendingSnapshot s) v (ss_active s) (ss_hasActive s) (ss_candidate s) (ss_hasCandidate s) (ss_readyGeneration s) (ss_needsSnapshot s) (ss_state s) (ss_lastHeartbeat s) (ss_lastHeartbeatSentAt s) (ss_drain s) (ss_drainStatus s) (ss_drainCode s) (ss_drainCompleted s) (ss_disconnectReason s).
Definition with_active (v : Snapshot) (s : ServerSession) : ServerSession := mkServerSession (ss_ref s) (ss_auth s) (ss_lease s) (ss_welcome s) (ss_pendingSnapshot s) (ss_pendingDelta s) v (ss_hasActive s) (ss_candidate s) (ss_hasCandidate s) (ss_readyGeneration s) (ss_needsSnapshot s) (ss_state s) (ss_lastHeartbeat s) (ss_lastHeartbeatSentAt s) (ss_drain s) (ss_drainStatus s) (ss_drainCode s) (ss_drainCompleted s) (ss_disconnectReason s).
Definition with_hasActive (v : bool) (s : ServerSession) : ServerSession := mkServerSession (ss_ref s) (ss_auth s) (ss_lease s) (ss_welcome s) (ss_pendingSnapshot s) (ss_pendingDelta s) (ss_active s) v (ss_candidate s) (ss_hasCandidate s) (ss_readyGeneration s) (ss_needsSnapshot s) (ss_state s) (ss_lastHeartbeat s) (ss_lastHeartbeatSentAt s) (ss_drain s) (ss_drainStatus s) (ss_drainCode s) (ss_drainCompleted s) (ss_disconnectReason s).
Definition with_candidate (v : Snapshot) (s : ServerSession) : ServerSession := mkServerSession (ss_ref s) (ss_auth s) (ss_lease s) (ss_welcome s) (ss_pendingSnapshot s) (ss_pendingDelta s) (ss_active s) (ss_hasActive s) v (ss_hasCandidate s) (ss_readyGeneration s) (ss_needsSnapshot s) (ss_state s) (ss_lastHeartbeat s) (ss_lastHeartbeatSentAt s) (ss_drain s) (ss_drainStatus s) (ss_drainCode s) (ss_drainCompleted s) (ss_disconnectReason s).
Definition with_hasCandidate (v : bool) (s : ServerSession) : ServerSession := mkServerSession (ss_ref s) (ss_auth s) (ss_lease s) (ss_welcome s) (ss_pendingSnapshot s) (ss_pendingDelta s) (ss_active s) (ss_hasActive s) (ss_candidate s) v (ss_readyGeneration s) (ss_needsSnapshot s) (ss_state s) (ss_lastHeartbeat s) (ss_lastHeartbeatSentAt s) (ss_drain s) (ss_drainStatus s) (ss_drainCode s) (ss_drainCompleted s) (ss_disconnectReason s).
Definition with_readyGeneration (v : Z) (s : ServerSession) : ServerSession := mkServerSession (ss_ref s) (ss_auth s) (ss_lease s) (ss_welcome s) (ss_pendingSnapshot s) (ss_pendingDelta s) (ss_active s) (ss_hasActive s) (ss_candidate s) (ss_hasCandidate s) v (ss_needsSnapshot s) (ss_state s) (ss_lastHeartbeat s) (ss_lastHeartbeatSentAt s) (ss_drain s) (ss_drainStatus s) (ss_drainCode s) (ss_drainCompleted s) (ss_disconnectReason s).
Definition with_needsSnapshot (v : bool) (s : ServerSession) : ServerSession := mkServerSession (ss_ref s) (ss_auth s) (ss_lease s) (ss_welcome s) (ss_pendingSnapshot s) (ss_pendingDelta s) (ss_active s) (ss_hasActive s) (ss_candidate s) (ss_hasCandidate s) (ss_readyGeneration s) v (ss_state s) (ss_lastHeartbeat s) (ss_lastHeartbeatSentAt s) (ss_drain s) (ss_drainStatus s) (ss_drainCode s) (ss_drainCompleted s) (ss_disconnectReason s).
Definition with_state (v : SessionState) (s : ServerSession) : ServerSession := mkServerSession (ss_ref s) (ss_auth s) (ss_lease s) (ss_welcome s) (ss_pendingSnapshot s) (ss_pendingDelta s) (ss_active s) (ss_hasActive s) (ss_candidate s) (ss_hasCandidate s) (ss_readyGeneration s) (ss_needsSnapshot s) v (ss_lastHeartbeat s) (ss_lastHeartbeatSentAt s) (ss_drain s) (ss_drainStatus s) (ss_drainCode s) (ss_drainCompleted s) (ss_disconnectReason s).
Definition with_lastHeartbeat (v : Z) (s : ServerSession) : ServerSession := mkServerSession (ss_ref s) (ss_auth s) (ss_lease s) (ss_welcome s) (ss_pendingSnapshot s) (ss_pendingDelta s) (ss_active s) (ss_hasActive s) (ss_candidate s) (ss_hasCandidate s) (ss_readyGeneration s) (ss_needsSnapshot s) (ss_state s) v (ss_lastHeartbeatSentAt s) (ss_drain s) (ss_drainStatus s) (ss_drainCode s) (ss_drainCompleted s) (ss_disconnectReason s).
Definition with_lastHeartbeatSentAt (v : Z) (s : ServerSession) : ServerSession := mkServerSession (ss_ref s) (ss_auth s) (ss_lease s) (ss_welcome s) (ss_pendingSnapshot s) (ss_pendingDelta s) (ss_active s) (ss_hasActive s) (ss_candidate s) (ss_hasCandidate s) (ss_readyGeneration s) (ss_needsSnapshot s) (ss_state s) (ss_lastHeartbeat s) v (ss_drain s) (ss_drainStatus s) (ss_drainCode s) (ss_drainCompleted s) (ss_disconnectReason s).
Definition with_drain (v : option Drain) (s : ServerSession) : ServerSession := mkServerSession (ss_ref s) (ss_auth s) (ss_lease s) (ss_welcome s) (ss_pendingSnapshot s) (ss_pendingDelta s) (ss_active s) (ss_hasActive s) (ss_candidate s) (ss_hasCandidate s) (ss_readyGeneration s) (ss_needsSnapshot s) (ss_state s) (ss_lastHeartbeat s) (ss_lastHeartbeatSentAt s) v (ss_drainStatus s) (ss_drainCode s) (ss_drainCompleted s) (ss_disconnectReason s).
Definition with_drainStatus (v : string) (s : ServerSession) : ServerSession := mkServerSession (ss_ref s) (ss_auth s) (ss_lease s) (ss_welcome s) (ss_pendingSnapshot s) (ss_pendingDelta s) (ss_active s) (ss_hasActive s) (ss_candidate s) (ss_hasCandidate s) (ss_readyGeneration s) (ss_needsSnapshot s) (ss_state s) (ss_lastHeartbeat s) (ss_lastHeartbeatSentAt s) (ss_drain s) v (ss_drainCode s) (ss_drainCompleted s) (ss_disconnectReason s).
Definition with_drainCode (v : string) (s : ServerSession) : ServerSession := mkServerSession (ss_ref s) (ss_auth s) (ss_lease s) (ss_welcome s) (ss_pendingSnapshot s) (ss_pendingDelta s) (ss_active s) (ss_hasActive s) (ss_candidate s) (ss_hasCandidate s) (ss_readyGeneration s) (ss_needsSnapshot s) (ss_state s) (ss_lastHeartbeat s) (ss_lastHeartbeatSentAt s) (ss_drain s) (ss_drainStatus s) v (ss_drainCompleted s) (ss_disconnectReason s).
Definition with_drainCompleted (v : bool) (s : ServerSession) : ServerSession := mkServerSession (ss_ref s) (ss_auth s) (ss_lease s) (ss_welcome s) (ss_pendingSnapshot s) (ss_pendingDelta s) (ss_active s) (ss_hasActive s) (ss_candidate s) (ss_hasCandidate s) (ss_readyGeneration s) (ss_needsSnapshot s) (ss_state s) (ss_lastHeartbeat s) (ss_lastHeartbeatSentAt s) (ss_drain s) (ss_drainStatus s) (ss_drainCode s) v (ss_disconnectReason s).
Definition with_disconnectReason (v : string) (s : ServerSession) : ServerSession := mkServerSession (ss_ref s) (ss_auth s) (ss_lease s) (ss_welcome s) (ss_pendingSnapshot s) (ss_pendingDelta s) (ss_active s) (ss_hasActive s) (ss_candidate s) (ss_hasCandidate s) (ss_readyGeneration s) (ss_needsSnapshot s) (ss_state s) (ss_lastHeartbeat s) (ss_lastHeartbeatSentAt s) (ss_drain s) (ss_drainStatus s) (ss_drainCode s) (ss_drainCompleted s) v.
Arguments with_ref _ _ /.
Arguments with_auth _ _ /.
Arguments with_lease _ _ /.
Arguments with_welcome _ _ /.
Arguments with_pendingSnapshot _ _ /.
Arguments with_pendingDelta _ _ /.
Arguments with_active _ _ /.
Arguments with_hasActive _ _ /.
Arguments with_candidate _ _ /.
Arguments with_hasCandidate _ _ /.
Arguments with_readyGeneration _ _ /.
Arguments with_needsSnapshot _ _ /.
Arguments with_state _ _ /.
Arguments with_lastHeartbeat _ _ /.
Arguments with_lastHeartbeatSentAt _ _ /.
Arguments with_drain _ _ /.
Arguments with_drainStatus _ _ /.
Arguments with_drainCode _ _ /.
Arguments with_drainCompleted _ _ /.
Arguments with_disconnectReason _ _ /.

(** The configuration of a server. *)
Record ServerConfig := mkServerConfig { cf_Capabilities : list string; cf_LeaseDuration : Z; cf_HeartbeatInterval : Z }.

(** NewServer: the defaults and the checks. *)
Definition NewServer (c : ServerConfig) : error + ServerConfig :=
  let c := mkServerConfig (cf_Capabilities c) (if (cf_LeaseDuration c =? 0)%Z then DefaultLease else cf_LeaseDuration c)
    (if (cf_HeartbeatInterval c =? 0)%Z then DefaultHeartbeat else cf_HeartbeatInterval c) in
  if (cf_LeaseDuration c <=? 0)%Z || (MaxLease <? cf_LeaseDuration c)%Z || (cf_HeartbeatInterval c <=? 0)%Z
     || (cf_LeaseDuration c <=? Int64.wrap (cf_HeartbeatInterval c * 2))%Z || bad (ValidateCapabilities (cf_Capabilities c))
  then inl ErrInvalidInput else inr c.

(** The state the methods of one session work on: the registry and the session. *)
Definition Srv : Type := SessionRegistry * ServerSession.
Definition SM (A : Type) : Type := M Srv error A.

Definition update (f : ServerSession → ServerSession) : SM () := mset (λ w, (w.1, f w.2)).
Definition session : SM ServerSession := w ← mget; mret w.2.

Definition zeroSnapshot : Snapshot := mkSnapshot "" "" "" "" 0 0 "" "" false.

(** BindSnapshot; a payload is a value here, so copying it is not visible. *)
Definition BindSnapshot (s : Snapshot) (accountID connectorID sessionID : string) (processGeneration : Z) : Snapshot :=
  mkSnapshot accountID (sn_TunnelID s) connectorID sessionID processGeneration (sn_Generation s) (sn_ContentHash s) (sn_Payload s) (sn_validated s).

(** *** closeLocked and ensureActiveLocked *)

Definition close_session (reason : string) (w : Srv) : Srv :=
  if decide (ss_state w.2 = SessionClosed) then w
  else ((Registry_Disconnect w.1 (ss_ref w.2) reason).1, with_disconnectReason reason (with_state SessionClosed w.2)).

Definition closeLocked (reason : string) : SM () := mset (close_session reason).

Definition current_ref (w : Srv) : bool :=
  match Registry_Active w.1 (sr_ConnectorID (ss_ref w.2)) with Some current => bool_decide (current = ss_ref w.2) | None => false end.

Definition heartbeat_late (now lastHeartbeat : Z) (l : Lease) : bool :=
  negb (time.IsZero lastHeartbeat) && (2 * heartbeat_interval l <? time.Sub now lastHeartbeat)%Z.

Definition ensureActiveLocked (now : Z) : SM () :=
  w ← mget;
  fail_if (bool_decide (ss_state w.2 = SessionClosed)) (CodeError CodeSessionClosed (ss_disconnectReason w.2) false None);;
  if negb (current_ref w) then
    closeLocked ReasonSessionReplaced;;
    mfail (CodeError CodeStaleSession ReasonSessionReplaced false None)
  else if heartbeat_late now (ss_lastHeartbeat w.2) (ss_lease w.2) then
    closeLocked ReasonHeartbeatTimeout;;
    mfail (CodeError CodeHeartbeatTimeout ReasonHeartbeatTimeout true None)
  else mret ().

Definition matchesIdentity (s : ServerSession) (accountID tunnelID connectorID sessionID : string) (processGeneration : Z) : bool :=
  bound_to accountID tunnelID connectorID sessionID processGeneration
    (au_AccountID (ss_auth s)) (sr_TunnelID (ss_ref s)) (sr_ConnectorID (ss_ref s)) (sr_SessionID (ss_ref s)) (sr_ProcessGeneration (ss_ref s)).

(** s.hasActive && s.readyGeneration == s.active.Generation *)
Definition active_ready (s : ServerSession) : bool := ss_hasActive s && (ss_readyGeneration s =? sn_Generation (ss_active s))%Z.

Definition restoreStateLocked (s : ServerSession) : ServerSession :=
  with_state (if active_ready s && negb (ss_needsSnapshot s) then SessionReady else SessionAwaitingSnapshot) s.

Definition makeAckLocked (s : ServerSession) (kind status : string) (snapshot : Snapshot) : Ack :=
  mkAck (au_AccountID (ss_auth s)) (sr_TunnelID (ss_ref s)) (sr_ConnectorID (ss_ref s)) (sr_SessionID (ss_ref s))
    (sr_ProcessGeneration (ss_ref s)) kind status (sn_Generation snapshot) (sn_ContentHash snapshot) "".

(** *** HandleAck *)

(** The acknowledgement is of what is offered. *)
Definition acks (ack : Ack) (kind : string) (generation : Z) (hash : string) : bool :=
  String.eqb (ak_Kind ack) kind && (ak_Generation ack =? generation)%Z && String.eqb (ak_ContentHash ack) hash.

(** The connector asks for a snapshot: the state falls back. *)
Definition refuse (s : ServerSession) : ServerSession := restoreStateLocked (with_needsSnapshot true s).

Definition stage (candidate : Snapshot) (s : ServerSession) : ServerSession :=
  let s := with_hasCandidate true (with_candidate candidate s) in
  if active_ready s then s else with_state SessionAwaitingReady s.

Definition delta_candidate (s : ServerSession) (d : Delta) : Snapshot :=
  mkSnapshot (au_AccountID (ss_auth s)) (de_TunnelID d) (sr_ConnectorID (ss_ref s)) (sr_SessionID (ss_ref s))
    (sr_ProcessGeneration (ss_ref s)) (de_Generation d) (de_ContentHash d) (de_Payload d) false.

Definition ack_snapshot (ack : Ack) (pending : Snapshot) : SM () :=
  fail_if (negb (acks ack AckSnapshot (sn_Generation pending) (sn_ContentHash pending)))
    (CodeError CodeSnapshotRejected ReasonSnapshotRejected false None);;
  if String.eqb (ak_Status ack) AckSnapshotRequired || String.eqb (ak_Status ack) AckRejected then
    update (λ s, refuse (with_pendingSnapshot None s));;
    mfail (if String.eqb (ak_Status ack) AckSnapshotRequired then CodeError CodeSnapshotRequired ReasonGenerationGap true None
           else CodeError CodeSnapshotRejected ReasonSnapshotRejected false None)
  else update (λ s, stage pending (with_needsSnapshot false (with_pendingSnapshot None s))).

Definition ack_delta (ack : Ack) (pending : Delta) : SM () :=
  fail_if (negb (acks ack AckDelta (de_Generation pending) (de_ContentHash pending)))
    (CodeError CodeDeltaRejected ReasonGenerationGap false None);;
  update (with_pendingDelta None);;
  if String.eqb (ak_Status ack) AckSnapshotRequired then
    update refuse;; mfail (CodeError CodeSnapshotRequired ReasonGenerationGap true None)
  else if String.eqb (ak_Status ack) AckRejected then
    update refuse;; mfail (CodeError CodeDeltaRejected ReasonSnapshotRejected false None)
  else
    s ← session;
    fail_if (ss_hasActive s && (negb (de_PreviousGeneration pending =? sn_Generation (ss_active s))%Z
                                || negb (String.eqb (de_PreviousContentHash pending) (sn_ContentHash (ss_active s)))))
      (CodeError CodeGenerationGap ReasonGenerationGap true None);;
    update (λ s, stage (delta_candidate s pending) s).

Definition stale_generation : error := CodeError CodeStaleGeneration ReasonStaleGeneration false None.
Definition identity_mismatch : error := CodeError CodeIdentityMismatch ReasonAuthentication false None.

Definition HandleAck (ctx : Context) (now : Z) (ack : Ack) : SM () :=
  fail_if (no_ctx ctx) ErrInvalidInput;;
  check (Ack_Validate ack);;
  ensureActiveLocked now;;
  s ← session;
  fail_if (negb (matchesIdentity s (ak_AccountID ack) (ak_TunnelID ack) (ak_ConnectorID ack) (ak_SessionID ack) (ak_ProcessGeneration ack)))
    identity_mismatch;;
  match ss_pendingSnapshot s, ss_pendingDelta s with
  | Some pending, _ => ack_snapshot ack pending
  | None, Some pending => ack_delta ack pending
  | None, None =>
      if String.eqb (ak_Status ack) AckDuplicate then
        fail_if (negb (ss_hasCandidate s) && negb (ss_hasActive s)) stale_generation;;
        let current := if ss_hasCandidate s then ss_candidate s else ss_active s in
        fail_if (negb (ak_Generation ack =? sn_Generation current)%Z || negb (String.eqb (ak_ContentHash ack) (sn_ContentHash current)))
          stale_generation
      else mfail (CodeError CodeInvalidInput ReasonMalformed false None)
  end.

Definition CanPersistNegativeAck (s : ServerSession) (ack : Ack) : bool :=
  (String.eqb (ak_Status ack) AckRejected || String.eqb (ak_Status ack) AckSnapshotRequired)
  && negb (bad (Ack_Validate ack))
  && matchesIdentity s (ak_AccountID ack) (ak_TunnelID ack) (ak_ConnectorID ack) (ak_SessionID ack) (ak_ProcessGeneration ack)
  && match ss_pendingSnapshot s, ss_pendingDelta s with
     | Some p, _ => acks ack AckSnapshot (sn_Generation p) (sn_ContentHash p)
     | None, Some p => acks ack AckDelta (de_Generation p) (de_ContentHash p)
     | None, None => false
     end.

(** *** Readiness *)

(** The generation and the hash are those of a snapshot. *)
Definition names_snapshot (generation : Z) (hash : string) (s : Snapshot) : bool :=
  (generation =? sn_Generation s)%Z && String.eqb hash (sn_ContentHash s).

Definition promote (generation : Z) (s : ServerSession) : ServerSession :=
  let s := if ss_hasCandidate s
           then with_hasCandidate false (with_candidate zeroSnapshot (with_hasActive true (with_active (ss_candidate s) s)))
           else s in
  with_state SessionReady (with_readyGeneration generation (with_needsSnapshot false s)).

Definition HandleReadiness (ctx : Context) (now : Z) (r : Readiness) : SM Ack :=
  fail_if (no_ctx ctx) ErrInvalidInput;;
  check (Readiness_Validate r);;
  ensureActiveLocked now;;
  s ← session;
  fail_if (negb (matchesIdentity s (rd_AccountID r) (rd_TunnelID r) (rd_ConnectorID r) (rd_SessionID r) (rd_ProcessGeneration r)))
    identity_mismatch;;
  fail_if (if ss_hasCandidate s then negb (names_snapshot (rd_Generation r) (rd_ContentHash r) (ss_candidate s))
           else negb (ss_hasActive s) || negb (names_snapshot (rd_Generation r) (rd_ContentHash r) (ss_active s)))
    stale_generation;;
  fail_if (negb (rd_EdgeReady r) || negb (rd_RouteReady r) || negb (rd_OriginReady r))
    (CodeError CodeNotReady ReasonSnapshotRejected true None);;
  update (promote (rd_Generation r));;
  mret (makeAckLocked s AckReady AckApplied (mkSnapshot "" "" "" "" 0 (rd_Generation r) (rd_ContentHash r) "" false)).

(** *** Offering configurations *)

(** A field of an offered snapshot that is set and is not that of the session. *)
Definition other_identity (s : ServerSession) (accountID connectorID sessionID : string) (processGeneration : Z) : bool :=
  negb (String.eqb accountID "") && negb (String.eqb accountID (au_AccountID (ss_auth s)))
  || negb (String.eqb connectorID "") && negb (String.eqb connectorID (sr_ConnectorID (ss_ref s)))
  || negb (String.eqb sessionID "") && negb (String.eqb sessionID (sr_SessionID (ss_ref s)))
  || negb (processGeneration =? 0)%Z && negb (processGeneration =? sr_ProcessGeneration (ss_ref s))%Z.

(** The snapshot of a generation the session already has: the hash decides. *)
Definition same_generation (snapshot known : Snapshot) : SM () :=
  fail_if (negb (String.eqb (sn_ContentHash snapshot) (sn_ContentHash known)))
    (CodeError CodeContentHashMismatch ReasonSnapshotRejected false None).

Section offers.
Context `{GoRuntime} `{GoUpper} `{NetURL} `{SHA256} `{WireJSON}.

Definition OfferSnapshot (ctx : Context) (now : Z) (snapshot : Snapshot) : SM () :=
  fail_if (no_ctx ctx) ErrInvalidInput;;
  check (match Snapshot_Validate snapshot with
         | Some e => Some (CodeError CodeSnapshotRejected ReasonSnapshotRejected false (Some e))
         | None => None
         end);;
  ensureActiveLocked now;;
  s ← session;
  fail_if (negb (String.eqb (sn_TunnelID snapshot) (sr_TunnelID (ss_ref s)))) identity_mismatch;;
  fail_if (other_identity s (sn_AccountID snapshot) (sn_ConnectorID snapshot) (sn_SessionID snapshot) (sn_ProcessGeneration snapshot))
    identity_mismatch;;
  fail_if (ss_hasActive s && (sn_Generation snapshot <? sn_Generation (ss_active s))%Z) stale_generation;;
  if ss_hasCandidate s && (sn_Generation snapshot =? sn_Generation (ss_candidate s))%Z then same_generation snapshot (ss_candidate s)
  else if ss_hasActive s && (sn_Generation snapshot =? sn_Generation (ss_active s))%Z then same_generation snapshot (ss_active s)
  else
    let offer :=
      update (λ s,
        let s := with_pendingSnapshot (Some (BindSnapshot snapshot (au_AccountID (ss_auth s)) (sr_ConnectorID (ss_ref s))
          (sr_SessionID (ss_ref s)) (sr_ProcessGeneration (ss_ref s)))) (with_pendingDelta None s) in
        if ss_hasActive s then s else with_state SessionAwaitingSnapshot s) in
    match ss_pendingSnapshot s with
    | Some p => if (sn_Generation snapshot =? sn_Generation p)%Z then same_generation snapshot p else offer
    | None => offer
    end.

Definition OfferDelta (ctx : Context) (now : Z) (delta : Delta) : SM () :=
  fail_if (no_ctx ctx) ErrInvalidInput;;
  check (match Delta_Validate delta with
         | Some e => Some (CodeError CodeDeltaRejected ReasonGenerationGap false (Some e))
         | None => None
         end);;
  ensureActiveLocked now;;
  s ← session;
  fail_if (negb (active_ready s) || ss_needsSnapshot s) (CodeError CodeNotReady ReasonSnapshotRejected true None);;
  fail_if (is_set (ss_pendingSnapshot s) || is_set (ss_pendingDelta s) || ss_hasCandidate s)
    (CodeError CodeGenerationGap ReasonGenerationGap true None);;
  fail_if (negb (String.eqb (de_TunnelID delta) (sr_TunnelID (ss_ref s)))
           || other_identity s (de_AccountID delta) (de_ConnectorID delta) (de_SessionID delta) (de_ProcessGeneration delta)
           || negb (de_PreviousGeneration delta =? sn_Generation (ss_active s))%Z
           || negb (String.eqb (de_PreviousContentHash delta) (sn_ContentHash (ss_active s))))
    (CodeError CodeGenerationGap ReasonGenerationGap true None);;
  update (with_pendingDelta (Some (mkDelta (au_AccountID (ss_auth s)) (de_TunnelID delta) (sr_ConnectorID (ss_ref s)) (sr_SessionID (ss_ref s))
    (sr_ProcessGeneration (ss_ref s)) (de_PreviousGeneration delta) (de_Generation delta) (de_PreviousContentHash delta) (de_ContentHash delta)
    (de_Payload delta)))).
End offers.

(** *** Heartbeats *)

Definition snapshot_required : error := CodeError CodeSnapshotRequired ReasonGenerationGap true None.

Definition withdraw_ready (s : ServerSession) : ServerSession :=
  if ss_hasActive s then with_state SessionAwaitingSnapshot (with_readyGeneration 0 (with_needsSnapshot true s)) else s.

Definition HandleHeartbeat (cfg : ServerConfig) (ctx : Context) (now : Z) (h : Heartbeat) : SM HeartbeatAck :=
  fail_if (no_ctx ctx) ErrInvalidInput;;
  check (Heartbeat_Validate h);;
  ensureActiveLocked now;;
  s ← session;
  fail_if (negb (matchesIdentity s (hb_AccountID h) (hb_TunnelID h) (hb_ConnectorID h) (hb_SessionID h) (hb_ProcessGeneration h)))
    identity_mismatch;;
  fail_if (time.After (hb_SentAt h) (now + MaxClockSkew)) (CodeError CodeInvalidInput ReasonMalformed false None);;
  fail_if (time.Before (hb_SentAt h) (now - MaxClockSkew)) (CodeError CodeHeartbeatTimeout ReasonHeartbeatTimeout true None);;
  fail_if (negb (time.IsZero (ss_lastHeartbeatSentAt s)) && negb (time.After (hb_SentAt h) (ss_lastHeartbeatSentAt s)))
    (CodeError CodeStaleSession ReasonStaleGeneration false None);;
  match (if ss_hasActive s then Some (ss_active s) else if ss_hasCandidate s then Some (ss_candidate s) else ss_pendingSnapshot s) with
  | None => mfail snapshot_required
  | Some expected =>
      if negb (names_snapshot (hb_LastAppliedGeneration h) (hb_LastAppliedHash h) expected) then
        update withdraw_ready;; mfail snapshot_required
      else
        let leaseExpiry := (now + cf_LeaseDuration cfg)%Z in
        update (λ s, with_lease (mkLease (ls_SessionID (ss_lease s)) leaseExpiry (ls_HeartbeatIntervalMS (ss_lease s)))
          (with_lastHeartbeat now (with_lastHeartbeatSentAt (hb_SentAt h) s)));;
        mret (mkHeartbeatAck (au_AccountID (ss_auth s)) (sr_TunnelID (ss_ref s)) (sr_ConnectorID (ss_ref s)) (sr_SessionID (ss_ref s))
          (sr_ProcessGeneration (ss_ref s)) leaseExpiry now)
  end.

(** *** Draining *)

Definition BeginDrain (ctx : Context) (now now2 : Z) (drainID : string) (deadline : Z) (forceAfterDeadline : bool) : SM Drain :=
  fail_if (no_ctx ctx) ErrInvalidInput;;
  check (canceled ctx);;
  ensureActiveLocked now;;
  s ← session;
  fail_if (negb (HasCapability (we_Capabilities (ss_welcome s)) CapabilityDrain))
    (CodeError CodeCapabilityMissing ReasonCapabilityMissing false None);;
  match ss_drain s with
  | Some d =>
      if String.eqb (dr_DrainID d) drainID then mret d else mfail (CodeError CodeSessionConflict ReasonStaleGeneration true None)
  | None =>
      fail_if (negb (ss_hasActive s) || ss_needsSnapshot s || negb (ss_readyGeneration s =? sn_Generation (ss_active s))%Z
               || negb (bool_decide (ss_state s = SessionReady)))
        (CodeError CodeNotReady ReasonSnapshotRejected true None);;
      let request := mkDrain (au_AccountID (ss_auth s)) (sr_TunnelID (ss_ref s)) (sr_ConnectorID (ss_ref s)) (sr_SessionID (ss_ref s))
        (sr_ProcessGeneration (ss_ref s)) drainID (sn_Generation (ss_active s)) (sn_ContentHash (ss_active s)) deadline true forceAfterDeadline in
      check (Drain_Validate request now2);;
      update (λ s, with_state SessionDraining (with_drainCompleted false (with_drainCode "" (with_drainStatus DrainAccepted
        (with_drain (Some request) s)))));;
      mret request
  end.

Definition HandleDrainAck (ctx : Context) (now : Z) (a : DrainAck) : SM () :=
  fail_if (no_ctx ctx) ErrInvalidInput;;
  check (canceled ctx);;
  check (DrainAck_Validate a);;
  ensureActiveLocked now;;
  s ← session;
  fail_if (negb (matchesIdentity s (da_AccountID a) (da_TunnelID a) (da_ConnectorID a) (da_SessionID a) (da_ProcessGeneration a)))
    identity_mismatch;;
  match ss_drain s with
  | None => mfail (CodeError CodeStaleSession ReasonStaleGeneration false None)
  | Some d =>
      fail_if (negb (String.eqb (da_DrainID a) (dr_DrainID d))) (CodeError CodeStaleSession ReasonStaleGeneration false None);;
      fail_if (negb (da_Generation a =? dr_Generation d)%Z || negb (String.eqb (da_ContentHash a) (dr_ContentHash d)))
        (CodeError CodeContentHashMismatch ReasonSnapshotRejected false None);;
      if ss_drainCompleted s then
        fail_if (negb (String.eqb (da_Status a) (ss_drainStatus s) && String.eqb (da_Code a) (ss_drainCode s))) stale_generation
      else
        update (λ s, with_drainCode (da_Code a) (with_drainStatus (da_Status a) s));;
        if bool_decide (da_Status a ∈ [DrainAccepted; DrainProgress]) then mret ()
        else if bool_decide (da_Status a ∈ [DrainCompleted; DrainForced]) then update (with_drainCompleted true)
        else if String.eqb (da_Status a) DrainRejected then
          update (λ s, restoreStateLocked (with_drainCompleted true s));;
          mfail (CodeError CodeDrainRejected ReasonSnapshotRejected false None)
        else mfail ErrInvalidInput
  end.

Definition CanPersistNegativeDrainAck (s : ServerSession) (a : DrainAck) : bool :=
  String.eqb (da_Status a) DrainRejected && negb (bad (DrainAck_Validate a)) &&
  match ss_drain s with
  | None => false
  | Some d =>
      matchesIdentity s (da_AccountID a) (da_TunnelID a) (da_ConnectorID a) (da_SessionID a) (da_ProcessGeneration a)
      && String.eqb (da_DrainID a) (dr_DrainID d) && (da_Generation a =? dr_Generation d)%Z && String.eqb (da_ContentHash a) (dr_ContentHash d)
  end.

(** *** Renewal *)

(** The part of Renew before the authenticator is called: what it was authenticated as, and the clock. *)
Definition Renew_begin (ctx : Context) (now : Z) (r : RenewalRequest) : SM (AuthResult * SessionRef) :=
  fail_if (no_ctx ctx) ErrInvalidInput;;
  check (RenewalRequest_ValidateAt r now);;
  ensureActiveLocked now;;
  s ← session;
  let expected := ss_auth s in let ref := ss_ref s in
  fail_if (negb (String.eqb (rn_SessionID r) (sr_SessionID ref)) || negb (String.eqb (rn_AccountID r) (au_AccountID expected))
           || negb (String.eqb (rn_TunnelID r) (sr_TunnelID ref)) || negb (String.eqb (rn_ConnectorID r) (sr_ConnectorID ref))
           || negb (String.eqb (rn_HostID r) (au_HostID expected)) || negb (String.eqb (rn_IdentityKeyID r) (au_IdentityKeyID expected))
           || negb (String.eqb (rn_IdentityKeyThumbprint r) (au_IdentityKeyThumbprint expected))
           || negb (rn_ProcessGeneration r =? sr_ProcessGeneration ref)%Z
           || negb (rn_CredentialGeneration r =? au_CredentialGeneration expected)%Z)
    identity_mismatch;;
  mret (expected, ref).

(** What the authenticator returned is not for this session. *)
Definition renewal_mismatch (expected : AuthResult) (ref : SessionRef) (result : AuthResult) : bool :=
  negb (String.eqb (au_AccountID result) (au_AccountID expected)) || negb (String.eqb (au_TunnelID result) (sr_TunnelID ref))
  || negb (String.eqb (au_ConnectorID result) (sr_ConnectorID ref))
  || negb (String.eqb (au_SessionID result) "") && negb (String.eqb (au_SessionID result) (sr_SessionID ref))
  || negb (String.eqb (au_HostID result) (au_HostID expected)) || negb (String.eqb (au_IdentityKeyID result) (au_IdentityKeyID expected))
  || negb (String.eqb (au_IdentityKeyThumbprint result) (au_IdentityKeyThumbprint expected))
  || negb (au_ProcessGeneration result =? sr_ProcessGeneration ref)%Z
  || (au_CredentialGeneration result <? au_CredentialGeneration expected)%Z.

Definition with_session_id (result : AuthResult) (sessionID : string) : AuthResult :=
  mkAuthResult (au_AccountID result) (au_TunnelID result) (au_ConnectorID result) sessionID (au_HostID result) (au_IdentityKeyID result)
    (au_IdentityKeyThumbprint result) (au_ProcessGeneration result) (au_CredentialGeneration result) (au_CredentialExpiresAt result)
    (au_LeaseExpiresAt result).

(** The part after it; [now] is the clock of the first part. *)
Definition Renew_finish (cfg : ServerConfig) (now now2 : Z) (expected : AuthResult) (ref : SessionRef) (answer : error + AuthResult) : SM AuthResult :=
  match answer with
  | inl e => mfail (CodeError CodeCredentialExpired ReasonCredentialExpired true (Some e))
  | inr result =>
      check (match AuthResult_Validate result now with
             | Some e => Some (CodeError CodeAuthenticationFailed ReasonAuthentication false (Some e))
             | None => if renewal_mismatch expected ref result
                       then Some (CodeError CodeAuthenticationFailed ReasonAuthentication false (Some ErrIdentityMismatch)) else None
             end);;
      ensureActiveLocked now2;;
      s ← session;
      fail_if (negb (bool_decide (ss_auth s = expected)) || negb (bool_decide (ss_ref s = ref)))
        (CodeError CodeSessionConflict ReasonStaleGeneration true None);;
      let result := with_session_id result (sr_SessionID ref) in
      update (λ s, with_lastHeartbeat now (with_lease (mkLease (ls_SessionID (ss_lease s))
        (Z.min (au_LeaseExpiresAt result) (now + cf_LeaseDuration cfg)) (ls_HeartbeatIntervalMS (ss_lease s))) (with_auth result s)));;
      mret result
  end.

(** *** Closing and looking *)

Definition Close (reason : string) : SM () :=
  fail_if (negb (ValidDisconnectReason reason)) ErrInvalidInput;; closeLocked reason.

Definition CheckLease (now : Z) : SM () := ensureActiveLocked now.

Definition retryable_reason (reason : string) : bool :=
  bool_decide (reason ∈ [ReasonLeaseExpired; ReasonHeartbeatTimeout; ReasonCredentialExpired; ReasonSessionReplaced]).

Definition session_Disconnect (s : ServerSession) : Disconnect :=
  let reason := if String.eqb (ss_disconnectReason s) "" then ReasonProtocolClosed else ss_disconnectReason s in
  mkDisconnect (au_AccountID (ss_auth s)) (sr_TunnelID (ss_ref s)) (sr_ConnectorID (ss_ref s)) (sr_SessionID (ss_ref s))
    (sr_ProcessGeneration (ss_ref s)) reason (retryable_reason reason) "".

(** Current: the active snapshot, whether it is served, and the generation that was reported ready. *)
Definition Current (s : ServerSession) : option (Snapshot * bool * Z) :=
  if ss_hasActive s then
    Some (ss_active s, bool_decide (ss_state s = SessionReady) && negb (ss_needsSnapshot s) && (ss_readyGeneration s =? sn_Generation (ss_active s))%Z,
          ss_readyGeneration s)
  else None.

Definition Candidate (s : ServerSession) : option Snapshot := if ss_hasCandidate s then Some (ss_candidate s) else None.

Definition configGeneration (s : ServerSession) : Z :=
  if ss_hasCandidate s then sn_Generation (ss_candidate s)
  else if ss_hasActive s then sn_Generation (ss_active s)
  else match ss_pendingSnapshot s, ss_pendingDelta s with Some p, _ => sn_Generation p | None, Some p => de_Generation p | None, None => 0 end.

(** ** Accepting a connector process *)

Section accept.
Context `{GoRuntime} `{GoUpper} `{NetURL} `{SHA256} `{WireJSON}.

(** The identity the authenticator returned is not the one that was claimed. *)
Definition accept_mismatch (hello : Hello) (auth : AuthResult) : bool :=
  negb (String.eqb (au_AccountID auth) (he_AccountID hello)) || negb (String.eqb (au_TunnelID auth) (he_TunnelID hello))
  || negb (String.eqb (au_ConnectorID auth) (he_ConnectorID hello)) || negb (String.eqb (au_HostID auth) (he_HostID hello))
  || negb (String.eqb (au_IdentityKeyID auth) (ar_IdentityKeyID (he_Auth hello)))
  || negb (String.eqb (au_IdentityKeyThumbprint auth) (ar_IdentityKeyThumbprint (he_Auth hello)))
  || negb (au_ProcessGeneration auth =? he_ProcessGeneration hello)%Z.

(** What Accept asks of others: the authenticator, the source of snapshots and the source of session identifiers. *)
Record Peers := mkPeers { pr_auth : error + AuthResult; pr_snapshot : error + Snapshot; pr_sessionID : string * option error }.

Definition auth_failed (cause : option error) : error := CodeError CodeAuthenticationFailed ReasonAuthentication false cause.

(** The checks of Accept, in order: the negotiated version and capabilities, the identity, the first snapshot, the
    session identifier and its lease. *)
Definition accept_checks (cfg : ServerConfig) (now : Z) (p : Peers) (hello : Hello)
    : error + (string * list string * AuthResult * Snapshot * Lease) :=
  match Hello_Validate hello now with Some e => inl e | None =>
  match NegotiateVersion (he_MinVersion hello) (he_MaxVersion hello) with inl e => inl e | inr version =>
  match NegotiateCapabilities (he_Capabilities hello) (cf_Capabilities cfg) with inl e => inl e | inr capabilities =>
  match pr_auth p with inl e => inl (auth_failed (Some e)) | inr auth =>
  match AuthResult_Validate auth now with Some e => inl (auth_failed (Some (Joined [e; Foreign "authenticator returned invalid identity data"]))) | None =>
  if accept_mismatch hello auth then inl (auth_failed (Some (Joined [ErrIdentityMismatch; Foreign "authenticator returned invalid identity data"]))) else
  match pr_snapshot p with inl e => inl (CodeError CodeSnapshotRejected ReasonSnapshotRejected true (Some e)) | inr snapshot =>
  match Snapshot_Validate snapshot with
  | Some e => inl (CodeError CodeSnapshotRejected ReasonSnapshotRejected false (Some (Joined [e; Foreign "snapshot source returned invalid snapshot data"])))
  | None =>
  if negb (String.eqb (sn_TunnelID snapshot) (he_TunnelID hello)) then
    inl (CodeError CodeSnapshotRejected ReasonSnapshotRejected false (Some (Joined [ErrIdentityMismatch; Foreign "snapshot source returned invalid snapshot data"])))
  else
  let '(sessionID, err) := pr_sessionID p in
  if is_set err || bad_id sessionID then
    inl (CodeError CodeSessionConflict ReasonAuthentication true
      (if bad_id sessionID then errors_Join [err; Some (Foreign "session identifier provider returned invalid identifier")] else err))
  else
  let lease := mkLease sessionID (Z.min (au_LeaseExpiresAt auth) (now + cf_LeaseDuration cfg))
    (UInt32.wrap (cf_HeartbeatInterval cfg / Millisecond)) in
  match Lease_Validate lease now with Some e => inl (auth_failed (Some e)) | None => inr (version, capabilities, auth, snapshot, lease)
  end end end end end end end end.

Definition Accept (cfg : ServerConfig) (ctx : Context) (now : Z) (p : Peers) (hello : Hello) (reg : SessionRegistry)
    : SessionRegistry * (error + (ServerSession * Welcome * Snapshot)) :=
  if no_ctx ctx then (reg, inl ErrInvalidInput)
  else match accept_checks cfg now p hello with
       | inl e => (reg, inl e)
       | inr (version, capabilities, auth, snapshot, lease) =>
           let sessionID := ls_SessionID lease in
           let ref := mkSessionRef (he_TunnelID hello) (he_ConnectorID hello) sessionID (he_ProcessGeneration hello) in
           match Attach reg ref with
           | (reg, inl e) => (reg, inl e)
           | (reg, inr _) =>
               let welcome := mkWelcome ProtocolName version sessionID capabilities lease true now in
               let snapshot := BindSnapshot snapshot (he_AccountID hello) (he_ConnectorID hello) sessionID (he_ProcessGeneration hello) in
               (reg, inr (mkServerSession ref auth lease welcome (Some snapshot) None zeroSnapshot false zeroSnapshot false 0 false
                 SessionAwaitingSnapshot now time.zero None "" "" false "", welcome, snapshot))
           end
       end.
End accept.
