(* ===== verification/ConnExample.v ===== *)
(** * A connector process and its server, for evaluation

    Instances of the parameters of the connector protocol with which the definitions compute, and a connector that
    asks to be accepted: the witnesses of the sessions are computed with them. *)
From S2P Require Import Prelude GoStd GoData GoNet GoEnc StateErr ConnProto ConnMessages Sessions.

(** A payload is a decimal number here, the generation of its configuration. *)
Definition ex_fields (payload : string) : list (string * JSON) :=
  ((λ name, (name, JNull)) <$> List.filter (λ name, negb (bool_decide (name ∈ ["generation"; "routes"]))) snapshotFields)
  ++ [("generation", JNumber payload); ("routes", JArray [])].

Definition ex_text (v : JSON) : option string :=
  match v with
  | JObject ms => match list_find (λ m, m.1 = "generation") ms with Some (_, (_, JNumber n)) => Some n | _ => None end
  | _ => None
  end.

Definition ex_endpoint : string := "https://tunnel.example".

Definition ex_config (payload : string) : wireConfigSnapshot :=
  mkWireConfigSnapshot "paperboat.preview-tunnel/v1" "tunnel_config_snapshot" "tunnel_1" (default 0%Z (strconv.Atoi payload)) "demo" "active" "public"
    "endpoint_01234567-89ab-4def-8123-456789abcdef" ex_endpoint None [].

#[export] Instance ex_json : WireJSON := {|
  json_Decode := λ s, Some (JObject (ex_fields s));
  json_Marshal := ex_text;
  json_Snapshot := λ s, Some (ex_config s);
|}.

Definition ex_reference : string := "keychain://paperboat/connector_1".

#[export] Instance ex_url : NetURL := {|
  url_Parse := λ s,
    if decide (s = ex_endpoint) then Some (mkURL "https" "" false "tunnel.example" "" "" "" "tunnel.example" "" [])
    else if decide (s = ex_reference) then Some (mkURL "keychain" "" false "paperboat" "/connector_1" "" "" "paperboat" "" [])
    else None;
|}.

#[export] Instance ex_upper : GoUpper := {| unicode_ToUpper := λ s, s |}.
#[export] Existing Instance eval_runtime.
#[export] Existing Instance eval_sha256.

(** ** A connector that asks to be accepted *)

Definition ex_now : Z := (1700000000 * time.Second)%Z.
Definition ex_thumbprint : string := "0123456789abcdefghijklmnopqrstuvwxyzABCDEFG".
Definition ex_key : string := "ed25519:" +:+ ex_thumbprint.
Definition ex_proof : string := "proof-proof-proof-proof-proof-proof".

Definition ex_hello (process : Z) : Hello :=
  mkHello ProtocolName "1.0" "1.0" "account_1" "tunnel_1" "connector_1" "host_1" process ProductionCapabilities
    (mkAuthRequest "account_1" "tunnel_1" "connector_1" "host_1" ex_key ex_thumbprint process 1 "nonce-nonce-nonce-1" ex_proof
      ex_now (ex_now + 60 * time.Second)).

Definition ex_auth (process : Z) : AuthResult :=
  mkAuthResult "account_1" "tunnel_1" "connector_1" "" "host_1" ex_key ex_thumbprint process 1
    (ex_now + time.Hour) (ex_now + time.Hour).

Definition ex_payload (generation : Z) : string := strconv.Itoa generation.

Definition ex_snapshot (generation : Z) : Snapshot :=
  match NewSnapshot "tunnel_1" generation (ex_payload generation) with inr s => s | inl _ => zeroSnapshot end.

Definition ex_peers (process : Z) (generation : Z) (sessionID : string) : Peers :=
  mkPeers (inr (ex_auth process)) (inr (ex_snapshot generation)) (sessionID, None).

Definition ex_server : ServerConfig := mkServerConfig ProductionCapabilities DefaultLease DefaultHeartbeat.
Definition ex_ctx : Context := Some None.

(** The process is accepted. *)
Definition ex_accept (process : Z) (generation : Z) (sessionID : string) (reg : SessionRegistry)
    : SessionRegistry * (error + (ServerSession * Welcome * Snapshot)) :=
  Accept ex_server ex_ctx ex_now (ex_peers process generation sessionID) (ex_hello process) reg.

(** What it is given: its reference, the welcome, the first configuration and the session the server keeps. *)
Definition ex_ref (process : Z) (sessionID : string) : SessionRef := mkSessionRef "tunnel_1" "connector_1" sessionID process.

Definition ex_welcome (sessionID : string) : Welcome :=
  mkWelcome ProtocolName ProtocolVersion sessionID ProductionCapabilities (mkLease sessionID (ex_now + DefaultLease) 5000) true ex_now.

Definition ex_first (process : Z) (generation : Z) (sessionID : string) : Snapshot :=
  BindSnapshot (ex_snapshot generation) "account_1" "connector_1" sessionID process.

Definition ex_session (process : Z) (generation : Z) (sessionID : string) : ServerSession :=
  mkServerSession (ex_ref process sessionID) (ex_auth process) (we_Lease (ex_welcome sessionID)) (ex_welcome sessionID)
    (Some (ex_first process generation sessionID)) None zeroSnapshot false zeroSnapshot false 0 false
    SessionAwaitingSnapshot ex_now time.zero None "" "" false "".

Definition ex_registry (process : Z) (sessionID : string) : SessionRegistry := {[ "connector_1" := ex_ref process sessionID ]}.

Lemma ex_accepted :
  ex_accept 1 3 "session_1" ∅ =
  (ex_registry 1 "session_1", inr (ex_session 1 3 "session_1", ex_welcome "session_1", ex_first 1 3 "session_1")).
Proof. vm_compute. reflexivity. Qed.

(** The same connector comes back as a later process. *)
Lemma ex_replaced :
  ex_accept 2 4 "session_2" (ex_registry 1 "session_1") =
  (ex_registry 2 "session_2", inr (ex_session 2 4 "session_2", ex_welcome "session_2", ex_first 2 4 "session_2")).
Proof. vm_compute. reflexivity. Qed.
