(* ===== verification/SessionsSpec.v ===== *)
(** * What a server session guarantees

    The registry names one session per connector and a stale session can neither close nor outlive its successor;
    a session is ready only with a generation that was acknowledged and reported ready. *)
From S2P Require Import Prelude GoStd GoData GoNet GoEnc StateErr ConnProto ConnMessages Sessions.

(** ** Taking a call apart *)

Lemma session_inv w w' (r : error + ServerSession) : session w = (w', r) → w' = w ∧ r = inr w.2.
Proof. unfold session, mthen, mget, mret. by intros [= <- <-]. Qed.

Lemma update_inv f w w' (r : error + ()) : update f w = (w', r) → w' = (w.1, f w.2) ∧ r = inr ().
Proof. unfold update, mset. by intros [= <- <-]. Qed.

Lemma ensure_inv now w w' r :
  ensureActiveLocked now w = (w', r) →
  (r = inr () ∧ w' = w ∧ ss_state w.2 ≠ SessionClosed ∧ current_ref w = true ∧ heartbeat_late now (ss_lastHeartbeat w.2) (ss_lease w.2) = false) ∨
  (∃ e, r = inl e ∧ (w' = w ∨ ∃ reason, ValidDisconnectReason reason = true ∧ w' = close_session reason w)).
Proof.
  unfold ensureActiveLocked, mthen, mget, fail_if, mfail, mret, closeLocked, mset. simpl.
  case_bool_decide as Hcl; [intros [= <- <-]; eauto|]. destruct (current_ref w) eqn:Ec; simpl.
  - destruct (heartbeat_late _ _ _) eqn:El; intros [= <- <-]; [|by eauto 8].
    right. eexists. split; [done|]. right. by exists ReasonHeartbeatTimeout.
  - intros [= <- <-]. right. eexists. split; [done|]. right. by exists ReasonSessionReplaced.
Qed.

Ltac step_session :=
  match goal with
  | H : session _ = (_, _) |- _ => apply session_inv in H as [-> H]; try (injection H as H; subst)
  | H : update _ _ = (_, _) |- _ => apply update_inv in H as [-> H]; try discriminate H
  | H : ensureActiveLocked _ _ = (_, _) |- _ =>
      apply ensure_inv in H as [(H & -> & ? & ? & ?)|(? & H & [->|(? & ? & ->)])]; try discriminate H
  | _ => step_call
  end; simplify_eq/=.

(** Splits the remaining tests of a call. *)
Ltac split_call :=
  repeat first
    [ step_session
    | match goal with
      | H : (if ?c then _ else _) _ = (_, _) |- _ => destruct c eqn:?
      | H : (match ?o with _ => _ end) _ = (_, _) |- _ => destruct o eqn:?
      end ].

(** ** The invariant of a session *)

(** The identity fields are those of the session. *)
Definition bound (s : ServerSession) (account tunnel connector sessionID : string) (process : Z) : Prop :=
  account = au_AccountID (ss_auth s) ∧ tunnel = sr_TunnelID (ss_ref s) ∧ connector = sr_ConnectorID (ss_ref s) ∧
  sessionID = sr_SessionID (ss_ref s) ∧ process = sr_ProcessGeneration (ss_ref s).

Definition snapshot_bound (s : ServerSession) (x : Snapshot) : Prop :=
  bound s (sn_AccountID x) (sn_TunnelID x) (sn_ConnectorID x) (sn_SessionID x) (sn_ProcessGeneration x).

Definition delta_bound (s : ServerSession) (x : Delta) : Prop :=
  bound s (de_AccountID x) (de_TunnelID x) (de_ConnectorID x) (de_SessionID x) (de_ProcessGeneration x).

Record session_ok (s : ServerSession) : Prop := {
  ok_ready : ss_state s = SessionReady → ss_hasActive s = true ∧ ss_readyGeneration s = sn_Generation (ss_active s) ∧ ss_needsSnapshot s = false;
  ok_active : ss_hasActive s = true → snapshot_bound s (ss_active s);
  ok_candidate : ss_hasCandidate s = true → snapshot_bound s (ss_candidate s);
  ok_pending : ∀ p, ss_pendingSnapshot s = Some p → snapshot_bound s p;
  ok_delta : ∀ p, ss_pendingDelta s = Some p → delta_bound s p;
  ok_drain : ∀ d, ss_drain s = Some d → bound s (dr_AccountID d) (dr_TunnelID d) (dr_ConnectorID d) (dr_SessionID d) (dr_ProcessGeneration d);
  ok_auth : au_TunnelID (ss_auth s) = sr_TunnelID (ss_ref s) ∧ au_ConnectorID (ss_auth s) = sr_ConnectorID (ss_ref s) ∧
    au_ProcessGeneration (ss_auth s) = sr_ProcessGeneration (ss_ref s);
}.

Ltac solve_ok :=
  match goal with Hok : session_ok _ |- _ => destruct Hok; constructor end;
  unfold refuse, restoreStateLocked, active_ready, snapshot_bound, delta_bound, bound in *; simpl in *;
  intros; repeat case_bool; to_prop; simplify_eq; try done; eauto; try naive_solver.

Lemma close_ok reason w : session_ok w.2 → session_ok (close_session reason w).2.
Proof. intros Hok. unfold close_session. destruct (decide _); [done|]. simpl. solve_ok. Qed.

#[export] Hint Resolve close_ok : pb.

(** A method keeps the invariant of its session. *)
Definition keeps_ok {A} (m : SM A) : Prop := ∀ w w' r, m w = (w', r) → session_ok w.2 → session_ok w'.2.

Lemma restore_ok s : session_ok s → session_ok (restoreStateLocked s).
Proof. intros Hok. solve_ok. Qed.

Lemma refuse_ok s : session_ok s → session_ok (refuse s).
Proof. intros Hok. solve_ok. Qed.

Lemma stage_ok x s : snapshot_bound s x → session_ok s → session_ok (stage x s).
Proof. intros Hx Hok. unfold stage. case_bool; solve_ok. Qed.

Lemma ack_snapshot_ok ack p w w' r :
  ack_snapshot ack p w = (w', r) → ss_pendingSnapshot w.2 = Some p → session_ok w.2 → session_ok w'.2.
Proof.
  intros H Hp Hok. unfold ack_snapshot in H. split_call; auto with pb.
  - apply refuse_ok. solve_ok.
  - apply stage_ok; [by apply (ok_pending _ Hok)|]. solve_ok.
Qed.

Lemma ack_delta_ok ack p w w' r :
  ack_delta ack p w = (w', r) → ss_pendingDelta w.2 = Some p → session_ok w.2 → session_ok w'.2.
Proof.
  intros H Hp Hok. unfold ack_delta in H. assert (Hok' : session_ok (with_pendingDelta None w.2)) by (clear H; solve_ok).
  split_call; auto using refuse_ok.
  apply stage_ok; [|done]. destruct (ok_delta _ Hok _ Hp) as (? & ? & ? & ? & ?). by unfold snapshot_bound, bound.
Qed.

Lemma HandleAck_ok ctx now ack : keeps_ok (HandleAck ctx now ack).
Proof.
  intros w w' r H Hok. unfold HandleAck in H.
  split_call; eauto using ack_snapshot_ok, ack_delta_ok with pb.
Qed.

Lemma HandleReadiness_ok ctx now x : keeps_ok (HandleReadiness ctx now x).
Proof.
  intros w w' r H Hok. unfold HandleReadiness in H. split_call; auto with pb.
  unfold promote, names_snapshot in *. destruct (ss_hasCandidate w.2) eqn:Ec; to_prop; solve_ok.
Qed.

Section offers.
Context `{GoRuntime} `{GoUpper} `{NetURL} `{SHA256} `{WireJSON}.

Lemma OfferSnapshot_ok ctx now x : keeps_ok (OfferSnapshot ctx now x).
Proof.
  intros w w' r Hc Hok. unfold OfferSnapshot, same_generation in Hc. split_call; auto with pb; to_prop; solve_ok.
Qed.

Lemma OfferDelta_ok ctx now x : keeps_ok (OfferDelta ctx now x).
Proof. intros w w' r Hc Hok. unfold OfferDelta in Hc. split_call; auto with pb. to_prop. solve_ok. Qed.
End offers.

Lemma HandleHeartbeat_ok cfg ctx now h : keeps_ok (HandleHeartbeat cfg ctx now h).
Proof.
  intros w w' r Hc Hok. unfold HandleHeartbeat in Hc. split_call; auto with pb; unfold withdraw_ready;
    try (case_bool; [|done]); solve_ok.
Qed.

Lemma session_BeginDrain_ok ctx now now2 id deadline force : keeps_ok (BeginDrain ctx now now2 id deadline force).
Proof. intros w w' r Hc Hok. unfold BeginDrain in Hc. split_call; auto with pb; solve_ok. Qed.

Lemma HandleDrainAck_ok ctx now a : keeps_ok (HandleDrainAck ctx now a).
Proof. intros w w' r Hc Hok. unfold HandleDrainAck in Hc. split_call; auto with pb; solve_ok. Qed.

Lemma Renew_begin_ok ctx now x : keeps_ok (Renew_begin ctx now x).
Proof. intros w w' r Hc Hok. unfold Renew_begin in Hc. split_call; auto with pb. Qed.

Lemma auth_ok a l n s :
  au_AccountID a = au_AccountID (ss_auth s) → au_TunnelID a = sr_TunnelID (ss_ref s) → au_ConnectorID a = sr_ConnectorID (ss_ref s) →
  au_ProcessGeneration a = sr_ProcessGeneration (ss_ref s) → session_ok s → session_ok (with_lastHeartbeat n (with_lease l (with_auth a s))).
Proof.
  intros Ha Ht Hc Hp Hok. destruct Hok. constructor; unfold snapshot_bound, delta_bound, bound in *; simpl in *; rewrite ?Ha; auto.
Qed.

Lemma Renew_finish_ok cfg now now2 expected ref answer : keeps_ok (Renew_finish cfg now now2 expected ref answer).
Proof.
  intros w w' r Hc Hok. unfold Renew_finish in Hc. split_call; auto with pb.
  destruct (AuthResult_Validate _ _); [done|]. destruct (renewal_mismatch _ _ _) eqn:Em; [done|].
  unfold renewal_mismatch in Em. to_prop. subst. by apply auth_ok.
Qed.

Lemma session_Close_ok reason : keeps_ok (Close reason).
Proof. intros w w' r Hc Hok. unfold Close, closeLocked in Hc. split_call; auto with pb. Qed.

Lemma CheckLease_ok now : keeps_ok (CheckLease now).
Proof. intros w w' r Hc Hok. unfold CheckLease in Hc. split_call; auto with pb. Qed.

(** ** All methods of a session *)

Inductive Method :=
  | MAck (ctx : Context) (now : Z) (ack : Ack)
  | MReadiness (ctx : Context) (now : Z) (r : Readiness)
  | MOfferSnapshot (ctx : Context) (now : Z) (x : Snapshot)
  | MOfferDelta (ctx : Context) (now : Z) (x : Delta)
  | MHeartbeat (ctx : Context) (now : Z) (h : Heartbeat)
  | MBeginDrain (ctx : Context) (now now2 : Z) (id : string) (deadline : Z) (force : bool)
  | MDrainAck (ctx : Context) (now : Z) (a : DrainAck)
  | MRenewBegin (ctx : Context) (now : Z) (r : RenewalRequest)
  | MRenewFinish (now now2 : Z) (expected : AuthResult) (ref : SessionRef) (answer : error + AuthResult)
  | MCheckLease (now : Z)
  | MClose (reason : string).

(** Whether the call succeeded. *)
Definition outcome {A} (m : SM A) (w : Srv) : Srv * bool :=
  match m w with (w', inr _) => (w', true) | (w', inl _) => (w', false) end.

Section system.
Context `{GoRuntime} `{GoUpper} `{NetURL} `{SHA256} `{WireJSON}.

Definition invoke (cfg : ServerConfig) (m : Method) : Srv → Srv * bool :=
  match m with
  | MAck ctx now ack => outcome (HandleAck ctx now ack)
  | MReadiness ctx now r => outcome (HandleReadiness ctx now r)
  | MOfferSnapshot ctx now x => outcome (OfferSnapshot ctx now x)
  | MOfferDelta ctx now x => outcome (OfferDelta ctx now x)
  | MHeartbeat ctx now h => outcome (HandleHeartbeat cfg ctx now h)
  | MBeginDrain ctx now now2 id deadline force => outcome (BeginDrain ctx now now2 id deadline force)
  | MDrainAck ctx now a => outcome (HandleDrainAck ctx now a)
  | MRenewBegin ctx now r => outcome (Renew_begin ctx now r)
  | MRenewFinish now now2 expected ref answer => outcome (Renew_finish cfg now now2 expected ref answer)
  | MCheckLease now => outcome (CheckLease now)
  | MClose reason => outcome (Close reason)
  end.

Lemma outcome_inv {A} (m : SM A) w w' ok :
  outcome m w = (w', ok) → ∃ r, m w = (w', r) ∧ ok = match r with inr _ => true | inl _ => false end.
Proof. unfold outcome. destruct (m w) as [w1 [e|a]]; intros [= <- <-]; eauto. Qed.

Lemma invoke_ok cfg m w w' ok : invoke cfg m w = (w', ok) → session_ok w.2 → session_ok w'.2.
Proof.
  destruct m; cbn [invoke]; intros Hc Hok; apply outcome_inv in Hc as (res & Hc & _).
  all: solve [ eapply HandleAck_ok; eassumption
    | eapply HandleReadiness_ok; eassumption
    | eapply OfferSnapshot_ok; eassumption
    | eapply OfferDelta_ok; eassumption
    | eapply HandleHeartbeat_ok; eassumption
    | eapply session_BeginDrain_ok; eassumption
    | eapply HandleDrainAck_ok; eassumption
    | eapply Renew_begin_ok; eassumption
    | eapply Renew_finish_ok; eassumption
    | eapply CheckLease_ok; eassumption
    | eapply session_Close_ok; eassumption ].
Qed.

(** What a method does beyond its session: its reference stays, and the registry at most loses it.  A session that is not
    the current one of its connector only fails. *)
Definition tame (w w' : Srv) : Prop :=
  ss_ref w'.2 = ss_ref w.2 ∧
  (w'.1 = w.1 ∧ (ss_state w'.2 = SessionClosed → ss_state w.2 = SessionClosed ∨ w.1 !! sr_ConnectorID (ss_ref w.2) ≠ Some (ss_ref w.2) ∨
                   bad (SessionRef_Validate (ss_ref w.2)) = true) ∨
   w.1 !! sr_ConnectorID (ss_ref w.2) = Some (ss_ref w.2) ∧ w'.1 = delete (sr_ConnectorID (ss_ref w.2)) w.1 ∧ ss_state w'.2 = SessionClosed).

Lemma tame_refl w : tame w w.
Proof. split; [done|]. left. split; [done|]. intros ?. by left. Qed.

Lemma tame_update w f :
  ss_ref (f w.2) = ss_ref w.2 → (ss_state (f w.2) = SessionClosed → ss_state w.2 = SessionClosed) → tame w (w.1, f w.2).
Proof. intros Href Hst. split; [done|]. left. split; [done|]. intros ?. left. auto. Qed.

Lemma close_tame reason w : ValidDisconnectReason reason = true → tame w (close_session reason w).
Proof.
  intros Hr. unfold close_session. destruct (decide _) as [|Hne]; [apply tame_refl|]. split; [done|].
  unfold Registry_Disconnect. rewrite Hr. simpl. destruct (bad (SessionRef_Validate _)) eqn:Ev; simpl; [left; auto|].
  destruct (w.1 !! _) as [cur|] eqn:El; simpl; [|left; split; [done|]; intros _; right; left; congruence].
  destruct (decide (cur = _)) as [->|Hc]; simpl; [right; auto|]. left. split; [done|]. intros _. right. left. congruence.
Qed.

Ltac solve_tame :=
  first [ apply tame_refl | by apply close_tame
        | unfold tame, stage, refuse, restoreStateLocked, promote, withdraw_ready; simpl; repeat case_bool; simpl;
          (split; [reflexivity|]); left; (split; [reflexivity|]); intros; by auto ].

Lemma invoke_tame cfg m w w' ok : invoke cfg m w = (w', ok) → tame w w'.
Proof.
  destruct m; cbn [invoke]; intros Hc; apply outcome_inv in Hc as (res & Hc & _).
  - unfold HandleAck, ack_snapshot, ack_delta in Hc. split_call; solve_tame.
  - unfold HandleReadiness in Hc. split_call; solve_tame.
  - unfold OfferSnapshot, same_generation in Hc. split_call; solve_tame.
  - unfold OfferDelta in Hc. split_call; solve_tame.
  - unfold HandleHeartbeat in Hc. split_call; solve_tame.
  - unfold BeginDrain in Hc. split_call; solve_tame.
  - unfold HandleDrainAck in Hc. split_call; solve_tame.
  - unfold Renew_begin in Hc. split_call; solve_tame.
  - unfold Renew_finish in Hc. split_call; solve_tame.
  - unfold CheckLease in Hc. split_call; solve_tame.
  - unfold Close, closeLocked in Hc. split_call; to_prop; solve_tame.
Qed.

(** Only Close succeeds on a session that is closed or is not the current one of its connector. *)
Lemma invoke_fails cfg m w w' ok :
  invoke cfg m w = (w', ok) → (∀ reason, m ≠ MClose reason) → ss_state w.2 = SessionClosed ∨ current_ref w = false → ok = false.
Proof.
  destruct m; cbn [invoke]; intros Hc Hm Hs; apply outcome_inv in Hc as (res & Hc & ->).
  1: unfold HandleAck in Hc. 2: unfold HandleReadiness in Hc. 3: unfold OfferSnapshot in Hc. 4: unfold OfferDelta in Hc.
  5: unfold HandleHeartbeat in Hc. 6: unfold BeginDrain in Hc. 7: unfold HandleDrainAck in Hc. 8: unfold Renew_begin in Hc.
  9: unfold Renew_finish in Hc; destruct answer. 11: unfold CheckLease in Hc.
  12: by destruct (Hm reason).
  all: repeat step_session; try done; destruct Hs; congruence.
Qed.
End system.

(** ** Accepting *)

Section accepting.
Context `{GoRuntime} `{GoUpper} `{NetURL} `{SHA256} `{WireJSON}.

Lemma Attach_inv reg ref reg' replaced :
  Attach reg ref = (reg', inr replaced) →
  bad (SessionRef_Validate ref) = false ∧ reg' = <[sr_ConnectorID ref := ref]> reg ∧ replaced = reg !! sr_ConnectorID ref ∧
  (∀ previous, reg !! sr_ConnectorID ref = Some previous →
    sr_TunnelID previous = sr_TunnelID ref ∧ (sr_ProcessGeneration previous < sr_ProcessGeneration ref)%Z).
Proof.
  unfold Attach. case_bool; [done|]. destruct (reg !! sr_ConnectorID ref) as [previous|] eqn:El.
  - repeat case_bool; try done. intros [= <- <-]. to_prop. split_and!; try done. intros ? [= <-]. split; [done|lia].
  - intros [= <- <-]. by split_and!.
Qed.

(** What accept_checks established. *)
Lemma accept_checks_inv cfg now p hello version capabilities auth snapshot lease :
  accept_checks cfg now p hello = inr (version, capabilities, auth, snapshot, lease) →
  Hello_Validate hello now = None ∧ NegotiateVersion (he_MinVersion hello) (he_MaxVersion hello) = inr version ∧
  NegotiateCapabilities (he_Capabilities hello) (cf_Capabilities cfg) = inr capabilities ∧ pr_auth p = inr auth ∧
  AuthResult_Validate auth now = None ∧ accept_mismatch hello auth = false ∧ pr_snapshot p = inr snapshot ∧
  Snapshot_Validate snapshot = None ∧ sn_TunnelID snapshot = he_TunnelID hello ∧ Lease_Validate lease now = None ∧
  lease = mkLease (pr_sessionID p).1 (Z.min (au_LeaseExpiresAt auth) (now + cf_LeaseDuration cfg)) (UInt32.wrap (cf_HeartbeatInterval cfg / Millisecond)).
Proof.
  unfold accept_checks. destruct (Hello_Validate hello now); [done|]. destruct (NegotiateVersion _ _); [done|].
  destruct (NegotiateCapabilities _ _); [done|]. destruct (pr_auth p) as [|a]; [done|]. destruct (AuthResult_Validate a now) eqn:Ea; [done|].
  destruct (accept_mismatch hello a) eqn:Em; [done|]. destruct (pr_snapshot p) as [|x]; [done|]. destruct (Snapshot_Validate x) eqn:Ex; [done|].
  destruct (String.eqb_spec (sn_TunnelID x) (he_TunnelID hello)) as [Ht|]; [|done]. simpl.
  destruct (pr_sessionID p) as [id err]. case_bool; [done|]. destruct (Lease_Validate _ now) eqn:El; [done|].
  intros [= <- <- <- <- <-]. by split_and!.
Qed.

Lemma Accept_inv cfg ctx now p hello reg reg' s welcome snapshot :
  Accept cfg ctx now p hello reg = (reg', inr (s, welcome, snapshot)) →
  session_ok s ∧ ss_state s = SessionAwaitingSnapshot ∧ ss_pendingSnapshot s = Some snapshot ∧ ss_welcome s = welcome ∧
  bad (SessionRef_Validate (ss_ref s)) = false ∧ reg' = <[sr_ConnectorID (ss_ref s) := ss_ref s]> reg ∧
  (∀ previous, reg !! sr_ConnectorID (ss_ref s) = Some previous → (sr_ProcessGeneration previous < sr_ProcessGeneration (ss_ref s))%Z).
Proof.
  unfold Accept. case_bool; [done|]. destruct (accept_checks _ _ _ _) as [|[[[[version caps] auth] x] lease]] eqn:Ec; [done|].
  apply accept_checks_inv in Ec as (_ & _ & _ & _ & _ & Hm & _ & _ & Ht & _ & _).
  destruct (Attach reg _) as [reg1 [e|replaced]] eqn:Ea; [done|]. apply Attach_inv in Ea as (Hv & -> & _ & Hprev).
  intros [= <- <- <- <-]. unfold accept_mismatch in Hm. to_prop. split_and!; try done; [|intros ? Hp; by apply Hprev].
  constructor; unfold snapshot_bound, bound; simpl; try done; try congruence.
  intros ? [= <-]. simpl. by split_and!.
Qed.

(** ** The server with all its sessions *)

Record System := mkSystem { sy_registry : SessionRegistry; sy_sessions : gmap nat ServerSession; sy_used : gset string }.

(** A process is accepted under a session identifier that was never used, or a method of a session is called. *)
Inductive sys_step (cfg : ServerConfig) (y : System) : System → Prop :=
  | sys_accept i ctx now p hello reg s welcome snapshot :
      Accept cfg ctx now p hello (sy_registry y) = (reg, inr (s, welcome, snapshot)) →
      sy_sessions y !! i = None → sr_SessionID (ss_ref s) ∉ sy_used y →
      sys_step cfg y (mkSystem reg (<[i := s]> (sy_sessions y)) ({[ sr_SessionID (ss_ref s) ]} ∪ sy_used y))
  | sys_call i s m reg s' ok :
      sy_sessions y !! i = Some s → invoke cfg m (sy_registry y, s) = ((reg, s'), ok) →
      sys_step cfg y (mkSystem reg (<[i := s']> (sy_sessions y)) (sy_used y)).

Definition empty_system : System := mkSystem ∅ ∅ ∅.

Definition sys_reach (cfg : ServerConfig) (y : System) : Prop := rtc (sys_step cfg) empty_system y.

Record sys_ok (y : System) : Prop := {
  sy_session_ok : ∀ i s, sy_sessions y !! i = Some s → session_ok s ∧ sr_SessionID (ss_ref s) ∈ sy_used y ∧ bad (SessionRef_Validate (ss_ref s)) = false;
  sy_distinct : ∀ i j s t, sy_sessions y !! i = Some s → sy_sessions y !! j = Some t → sr_SessionID (ss_ref s) = sr_SessionID (ss_ref t) → i = j;
  sy_live : ∀ c r, sy_registry y !! c = Some r →
    sr_ConnectorID r = c ∧ ∃ i s, sy_sessions y !! i = Some s ∧ ss_ref s = r ∧ ss_state s ≠ SessionClosed;
}.

Lemma sys_step_ok cfg y y' : sys_step cfg y y' → sys_ok y → sys_ok y'.
Proof.
  intros Hstep [Hs Hd Hl]. destruct Hstep as [i ctx now p hello reg s welcome snapshot Ha Hi Hfresh|i s m reg s' ok Hi Hc].
  - apply Accept_inv in Ha as (Hok & Hst & _ & _ & Hv & -> & _). constructor; simpl.
    + intros j t [[<- <-]|[Hne Hj]]%lookup_insert_Some; [split_and!; [done|set_solver|done]|].
      destruct (Hs j t Hj) as (? & ? & ?). split_and!; [done|set_solver|done].
    + intros j k t u [[<- <-]|[Hne Hj]]%lookup_insert_Some [[<- <-]|[Hne' Hk]]%lookup_insert_Some Heq; [done| | |by eapply Hd].
      * destruct (Hs k u Hk) as (_ & Hu & _). by rewrite <-Heq in Hu.
      * destruct (Hs j t Hj) as (_ & Hu & _). by rewrite Heq in Hu.
    + intros c r [[<- <-]|[Hne Hr]]%lookup_insert_Some.
      * split; [done|]. exists i, s. rewrite lookup_insert_eq, Hst. done.
      * destruct (Hl c r Hr) as [Hc (j & t & Hj & Ht & Hop)]. split; [done|]. exists j, t.
        rewrite lookup_insert_ne; [done|]. intros <-. congruence.
  - pose proof (invoke_ok _ _ _ _ _ Hc) as Hok. apply invoke_tame in Hc as [Href Hreg]. simpl in *.
    destruct (Hs i s Hi) as (Hsok & Hu & Hv). constructor; simpl.
    + intros j t [[<- <-]|[Hne Hj]]%lookup_insert_Some; [|by apply (Hs j)]. rewrite Href. auto.
    + intros j k t u [[<- <-]|[Hne Hj]]%lookup_insert_Some [[<- <-]|[Hne' Hk]]%lookup_insert_Some Heq; [done| | |by eapply Hd].
      * rewrite Href in Heq. by eapply Hd.
      * rewrite Href in Heq. by eapply Hd.
    + intros c r Hr. assert (Hr0 : sy_registry y !! c = Some r).
      { destruct Hreg as [[-> _]|(_ & -> & _)]; [done|]. by apply lookup_delete_Some in Hr as [_ ?]. }
      destruct (Hl c r Hr0) as [Hcn (j & t & Hj & Ht & Hop)]. split; [done|].
      destruct (decide (i = j)) as [<-|Hne]; [|exists j, t; by rewrite lookup_insert_ne].
      assert (t = s) as -> by congruence. exists i, s'. rewrite lookup_insert_eq. split_and!; [done|congruence|]. intros Hcl.
      destruct Hreg as [[_ Hopen]|(_ & -> & _)].
      * destruct (Hopen Hcl) as [?|[Hn|Hb]]; [done| |congruence]. apply Hn. congruence.
      * apply lookup_delete_Some in Hr as [Hne _]. congruence.
Qed.

Lemma sys_reach_ok cfg y : sys_reach cfg y → sys_ok y.
Proof.
  intros Hr. unfold sys_reach in Hr. apply rtc_ind_r with (P := sys_ok) in Hr; [done| |].
  - by constructor.
  - intros a b _ Hab. by apply (sys_step_ok cfg a b).
Qed.
End accepting.
