(* ===== verification/SessionLife.v ===== *)
(** * The life of a server session

    A stale session is fenced off, and a configuration becomes active only after it was offered, acknowledged and
    reported ready, in this order. *)
From S2P Require Import Prelude GoStd GoData GoNet GoEnc StateErr ConnProto ConnMessages Sessions SessionsSpec ConnExample.

(** ** Fencing *)

Section fencing.
Context `{GoRuntime} `{GoUpper} `{NetURL} `{SHA256} `{WireJSON}.

(** The registry names the session. *)
Definition current (y : System) (s : ServerSession) : Prop := sy_registry y !! sr_ConnectorID (ss_ref s) = Some (ss_ref s).

Lemma current_ref_true reg s :
  bad (SessionRef_Validate (ss_ref s)) = false → current_ref (reg, s) = true ↔ reg !! sr_ConnectorID (ss_ref s) = Some (ss_ref s).
Proof.
  intros Hv. unfold current_ref, Registry_Active. simpl. destruct (bad_id (sr_ConnectorID (ss_ref s))) eqn:Eb.
  - unfold SessionRef_Validate in Hv. cbn [any_bad_id existsb] in Hv. rewrite Eb in Hv. by rewrite orb_true_r in Hv.
  - destruct (reg !! _) as [r|]; [|done]. rewrite bool_decide_eq_true. naive_solver.
Qed.

(** A step gives a session neither another reference nor back its place. *)
Lemma step_not_current cfg y y' i s s' :
  sys_ok y → sys_step cfg y y' → sy_sessions y !! i = Some s → sy_sessions y' !! i = Some s' → ¬ current y s → ¬ current y' s'.
Proof.
  intros Hok Hstep Hi Hi' Hn. destruct Hstep as [j ctx now p hello reg t welcome snapshot Ha Hj Hfresh|j t m reg t' ok Hj Hc]; simpl in Hi'.
  - apply Accept_inv in Ha as (_ & _ & _ & _ & _ & -> & _). unfold current. simpl.
    rewrite lookup_insert_ne in Hi' by congruence. simplify_eq. intros [[_ Hr]|[_ Hr]]%lookup_insert_Some; [|done].
    apply Hfresh. rewrite Hr. by apply (sy_session_ok _ Hok) in Hi as (_ & ? & _).
  - apply invoke_tame in Hc as [Href Hreg]. simpl in *. unfold current in *. simpl.
    assert (Heq : ss_ref s' = ss_ref s).
    { destruct (decide (j = i)) as [->|Hne]; [rewrite lookup_insert_eq in Hi'|rewrite lookup_insert_ne in Hi' by done]; congruence. }
    rewrite Heq. destruct Hreg as [[-> _]|(_ & -> & _)]; [done|]. intros [_ Hr]%lookup_delete_Some. done.
Qed.

Lemma step_keeps_session cfg y y' i s : sys_step cfg y y' → sy_sessions y !! i = Some s → ∃ s', sy_sessions y' !! i = Some s'.
Proof.
  intros [j|j t] Hi; simpl; destruct (decide (j = i)) as [->|Hne];
    rewrite ?lookup_insert_eq, ?(lookup_insert_ne _ _ _ _ Hne); eauto.
Qed.

Lemma steps_not_current cfg y y' i s :
  rtc (sys_step cfg) y y' → sys_ok y → sy_sessions y !! i = Some s → ¬ current y s →
  ∃ s', sy_sessions y' !! i = Some s' ∧ ¬ current y' s' ∧ sys_ok y'.
Proof.
  intros Hr. revert s. induction Hr as [y|y y1 y2 Hstep _ IH]; intros s Hok Hi Hn; [by eauto|].
  destruct (step_keeps_session _ _ _ _ _ Hstep Hi) as [s1 Hi1].
  eapply IH; eauto using sys_step_ok, step_not_current.
Qed.

(** C13: a connector has one session: of two sessions of a connector the registry names at most one.  One that it no longer names
    (it was replaced by a process of a higher generation, or closed) never gets its place back, whatever happens; each of
    its methods but Close then fails, and none of them changes the registry, so a stale session cannot close its successor. *)
Theorem sessions_fenced cfg y (Hreach : sys_reach cfg y) :
  (∀ i j s t, sy_sessions y !! i = Some s → sy_sessions y !! j = Some t → current y s → current y t →
     sr_ConnectorID (ss_ref s) = sr_ConnectorID (ss_ref t) → i = j) ∧
  (∀ i s y', sy_sessions y !! i = Some s → ¬ current y s → rtc (sys_step cfg) y y' →
     ∃ s', sy_sessions y' !! i = Some s' ∧ ¬ current y' s' ∧
       ∀ m reg s2 ok, invoke cfg m (sy_registry y', s') = ((reg, s2), ok) →
         reg = sy_registry y' ∧ ((∀ reason, m ≠ MClose reason) → ok = false)).
Proof.
  pose proof (sys_reach_ok _ _ Hreach) as Hok. split.
  - intros i j s t Hi Hj Hs Ht Hc. apply (sy_distinct _ Hok i j s t Hi Hj). unfold current in *. rewrite Hc in Hs. congruence.
  - intros i s y' Hi Hn Hr. destruct (steps_not_current _ _ _ _ _ Hr Hok Hi Hn) as (s' & Hi' & Hn' & Hok').
    exists s'. split_and!; [done..|]. intros m reg s2 ok Hc. split.
    + apply invoke_tame in Hc as [_ Hreg]. simpl in Hreg. destruct Hreg as [[? _]|(Hcur & _)]; [done|]. by destruct Hn'.
    + intros Hm. apply (invoke_fails _ _ _ _ _ Hc Hm). right. apply not_true_iff_false. rewrite current_ref_true; [done|].
      by apply (sy_session_ok _ Hok') in Hi' as (_ & _ & ?).
Qed.
End fencing.

(** ** The life of one session *)

(** The generation and the hash of a configuration. *)
Definition Version : Type := Z * string.
Definition version_of (x : Snapshot) : Version := (sn_Generation x, sn_ContentHash x).
Definition delta_version (x : Delta) : Version := (de_Generation x, de_ContentHash x).

(** The calls of a session, the latest first, each with whether it succeeded. *)
Definition History : Type := list (Method * bool).

(** The configuration was offered: it is the first one, or an offer of it succeeded. *)
Definition offered (first : Snapshot) (h : History) (v : Version) : Prop :=
  v = version_of first ∨
  (∃ ctx now x, (MOfferSnapshot ctx now x, true) ∈ h ∧ version_of x = v) ∨
  (∃ ctx now x, (MOfferDelta ctx now x, true) ∈ h ∧ delta_version x = v).

(** Then its acknowledgement was taken. *)
Definition acknowledged (first : Snapshot) (h : History) (v : Version) : Prop :=
  ∃ later ctx now a earlier, h = later ++ (MAck ctx now a, true) :: earlier ∧ (ak_Generation a, ak_ContentHash a) = v ∧
    ak_Status a ≠ AckRejected ∧ ak_Status a ≠ AckSnapshotRequired ∧ offered first earlier v.

(** Then edge, routes and origin were reported ready for it. *)
Definition reported (first : Snapshot) (h : History) (v : Version) : Prop :=
  ∃ later ctx now r earlier, h = later ++ (MReadiness ctx now r, true) :: earlier ∧ (rd_Generation r, rd_ContentHash r) = v ∧
    rd_EdgeReady r = true ∧ rd_RouteReady r = true ∧ rd_OriginReady r = true ∧ acknowledged first earlier v.

Lemma offered_cons first c h v : offered first h v → offered first (c :: h) v.
Proof.
  intros [?|[(ctx & now & x & Hin & Hv)|(ctx & now & x & Hin & Hv)]]; [by left|right; left|right; right]; exists ctx, now, x; set_solver.
Qed.

Lemma acknowledged_cons first c h v : acknowledged first h v → acknowledged first (c :: h) v.
Proof. intros (later & ctx & now & a & earlier & -> & Hrest). by exists (c :: later), ctx, now, a, earlier. Qed.

Lemma reported_cons first c h v : reported first h v → reported first (c :: h) v.
Proof. intros (later & ctx & now & r & earlier & -> & Hrest). by exists (c :: later), ctx, now, r, earlier. Qed.

#[export] Hint Resolve offered_cons acknowledged_cons reported_cons : pb.

Record history_ok (first : Snapshot) (h : History) (s : ServerSession) : Prop := {
  hi_pending : ∀ p, ss_pendingSnapshot s = Some p → offered first h (version_of p);
  hi_delta : ∀ p, ss_pendingDelta s = Some p → offered first h (delta_version p);
  hi_candidate : ss_hasCandidate s = true → acknowledged first h (version_of (ss_candidate s));
  hi_active : ss_hasActive s = true → reported first h (version_of (ss_active s));
}.

Ltac solve_history :=
  match goal with Hh : history_ok _ _ _ |- _ => destruct Hh; constructor end;
  unfold refuse, restoreStateLocked, stage, withdraw_ready in *; repeat case_bool; simpl in *; intros; simplify_eq; auto with pb.

Lemma history_later first c h s : history_ok first h s → history_ok first (c :: h) s.
Proof. intros Hh. solve_history. Qed.

Lemma history_close first h reason w : history_ok first h w.2 → history_ok first h (close_session reason w).2.
Proof. intros Hh. unfold close_session. destruct (decide _); [done|]. solve_history. Qed.

#[export] Hint Resolve history_later history_close : pb.

(** What a failed call, or one that changes nothing of the configurations, does to the history. *)
Definition same_configs (s s' : ServerSession) : Prop :=
  (ss_pendingSnapshot s' = ss_pendingSnapshot s ∨ ss_pendingSnapshot s' = None) ∧
  (ss_pendingDelta s' = ss_pendingDelta s ∨ ss_pendingDelta s' = None) ∧
  ss_hasCandidate s' = ss_hasCandidate s ∧ ss_candidate s' = ss_candidate s ∧
  ss_hasActive s' = ss_hasActive s ∧ ss_active s' = ss_active s.

Lemma same_configs_ok first h s s' : same_configs s s' → history_ok first h s → history_ok first h s'.
Proof.
  intros (Hp & Hd & Hc & Hc' & Ha & Ha') [H1 H2 H3 H4]. constructor; rewrite ?Hc, ?Hc', ?Ha, ?Ha'; auto.
  - intros p Hs. apply H1. destruct Hp; congruence.
  - intros p Hs. apply H2. destruct Hd; congruence.
Qed.

Lemma same_configs_refl s : same_configs s s.
Proof. unfold same_configs. split_and!; auto. Qed.

Lemma same_close reason w : same_configs w.2 (close_session reason w).2.
Proof. unfold close_session. destruct (decide _); [apply same_configs_refl|]. unfold same_configs. simpl. split_and!; auto. Qed.

#[export] Hint Resolve same_configs_refl same_close : pb.

Ltac solve_same :=
  unfold same_configs, refuse, restoreStateLocked, withdraw_ready; simpl; repeat case_bool; simpl;
  split_and!; auto.

(** An offer that succeeds is in the history. *)
Lemma offered_now first ctx now x h : offered first ((MOfferSnapshot ctx now x, true) :: h) (version_of x).
Proof. right. left. exists ctx, now, x. split; [constructor|done]. Qed.

Lemma offered_delta_now first ctx now x h : offered first ((MOfferDelta ctx now x, true) :: h) (delta_version x).
Proof. right. right. exists ctx, now, x. split; [constructor|done]. Qed.

Lemma acknowledged_now first ctx now a kind g hash h :
  acks a kind g hash = true → ak_Status a ≠ AckRejected → ak_Status a ≠ AckSnapshotRequired → offered first h (g, hash) →
  acknowledged first ((MAck ctx now a, true) :: h) (g, hash).
Proof.
  unfold acks. intros Ha Hr Hs Ho. to_prop. subst. by exists [], ctx, now, a, h.
Qed.

Definition ok_of {A} (r : error + A) : bool := match r with inr _ => true | inl _ => false end.

Lemma stage_history first h h' x s :
  (∀ v, offered first h v → offered first h' v) → (∀ v, reported first h v → reported first h' v) → acknowledged first h' (version_of x) →
  history_ok first h s → history_ok first h' (stage x s).
Proof. intros Ho Hr Hx [H1 H2 H3 H4]. unfold stage. case_bool; constructor; simpl; auto. Qed.

Lemma ack_history first h ctx now a w w' r :
  HandleAck ctx now a w = (w', r) → history_ok first h w.2 → history_ok first ((MAck ctx now a, ok_of r) :: h) w'.2.
Proof.
  intros Hc Hh. unfold HandleAck, ack_snapshot, ack_delta in Hc. split_call;
    try solve [ eapply same_configs_ok; [|by apply history_later]; first [solve [auto with pb]|solve_same] ]; to_prop.
  - eapply stage_history; [apply offered_cons|apply reported_cons| |].
    + eapply acknowledged_now; eauto. by apply (hi_pending _ _ _ Hh).
    + eapply same_configs_ok; [|done]. solve_same.
  - eapply stage_history; [apply offered_cons|apply reported_cons| |].
    + eapply acknowledged_now; eauto. by apply (hi_delta _ _ _ Hh).
    + eapply same_configs_ok; [|done]. solve_same.
Qed.

Lemma readiness_history first h ctx now x w w' r :
  HandleReadiness ctx now x w = (w', r) → history_ok first h w.2 → history_ok first ((MReadiness ctx now x, ok_of r) :: h) w'.2.
Proof.
  intros Hc Hh. unfold HandleReadiness in Hc. split_call;
    try solve [ eapply same_configs_ok; [|by apply history_later]; solve [auto with pb] ].
  unfold promote, names_snapshot in *. destruct (ss_hasCandidate w.2) eqn:Ec; to_prop; destruct Hh; constructor; simpl; auto with pb; try done.
  intros _. exists [], ctx, now, x, h. split_and!; try done; [|by apply hi_candidate0]. unfold version_of. congruence.
Qed.

Section life.
Context `{GoRuntime} `{GoUpper} `{NetURL} `{SHA256} `{WireJSON}.

Lemma offer_history first h ctx now x w w' r :
  OfferSnapshot ctx now x w = (w', r) → history_ok first h w.2 → history_ok first ((MOfferSnapshot ctx now x, ok_of r) :: h) w'.2.
Proof.
  intros Hc Hh. unfold OfferSnapshot, same_generation in Hc. split_call;
    try solve [ eapply same_configs_ok; [|by apply history_later]; solve [auto with pb] ].
  all: destruct Hh; case_bool; constructor; simpl; auto with pb; try done; intros ? [= <-]; exact (offered_now first ctx now x h).
Qed.

Lemma delta_history first h ctx now x w w' r :
  OfferDelta ctx now x w = (w', r) → history_ok first h w.2 → history_ok first ((MOfferDelta ctx now x, ok_of r) :: h) w'.2.
Proof.
  intros Hc Hh. unfold OfferDelta in Hc. split_call;
    try solve [ eapply same_configs_ok; [|by apply history_later]; solve [auto with pb] ].
  destruct Hh; constructor; simpl; auto with pb. intros ? [= <-]. exact (offered_delta_now first ctx now x h).
Qed.

(** A method that is not about configurations. *)
Lemma other_history {A} (m : SM A) c first h w w' r :
  (∀ w w' r, m w = (w', r) → same_configs w.2 w'.2) → m w = (w', r) → history_ok first h w.2 → history_ok first (c :: h) w'.2.
Proof. intros Hm Hc Hh. eapply same_configs_ok; [by eapply Hm|by apply history_later]. Qed.

Lemma invoke_history cfg first h m w w' ok :
  invoke cfg m w = (w', ok) → history_ok first h w.2 → history_ok first ((m, ok) :: h) w'.2.
Proof.
  destruct m; cbn [invoke]; intros Hc Hh; apply outcome_inv in Hc as (res & Hc & ->); fold (ok_of res).
  1-4: eauto using ack_history, readiness_history, offer_history, delta_history.
  all: eapply other_history; [|exact Hc|exact Hh]; clear; intros w w' res Hc.
  - unfold HandleHeartbeat in Hc. split_call; first [solve [auto with pb]|solve_same].
  - unfold BeginDrain in Hc. split_call; first [solve [auto with pb]|solve_same].
  - unfold HandleDrainAck in Hc. split_call; first [solve [auto with pb]|solve_same].
  - unfold Renew_begin in Hc. split_call; first [solve [auto with pb]|solve_same].
  - unfold Renew_finish in Hc. split_call; first [solve [auto with pb]|solve_same].
  - unfold CheckLease in Hc. split_call; first [solve [auto with pb]|solve_same].
  - unfold Close, closeLocked in Hc. split_call; first [solve [auto with pb]|solve_same].
Qed.

(** A session from its acceptance on; between two calls the registry may be changed by others. *)
Inductive lives (cfg : ServerConfig) (first : Snapshot) : History → ServerSession → Prop :=
  | lives_accept ctx now p hello reg reg' s welcome :
      Accept cfg ctx now p hello reg = (reg', inr (s, welcome, first)) → lives cfg first [] s
  | lives_call h s m reg reg' s' ok :
      lives cfg first h s → invoke cfg m (reg, s) = ((reg', s'), ok) → lives cfg first ((m, ok) :: h) s'.

Lemma Accept_history cfg ctx now p hello reg reg' s welcome first :
  Accept cfg ctx now p hello reg = (reg', inr (s, welcome, first)) → history_ok first [] s.
Proof.
  unfold Accept. case_bool; [done|]. destruct (accept_checks _ _ _ _) as [|[[[[version caps] auth] x] lease]]; [done|].
  destruct (Attach reg _) as [reg1 [e|replaced]]; [done|]. intros [= <- <- <- <-]. constructor; simpl; try done.
  intros ? [= <-]. by left.
Qed.

Lemma lives_ok cfg first h s : lives cfg first h s → session_ok s ∧ history_ok first h s.
Proof.
  induction 1 as [ctx now p hello reg reg' s welcome Ha|h s m reg reg' s' ok _ [IH1 IH2] Hc].
  - split; [by apply Accept_inv in Ha as (? & _)|by eapply Accept_history].
  - split; [by eapply (invoke_ok _ _ (reg, s) (reg', s'))|by eapply (invoke_history _ _ _ _ (reg, s) (reg', s'))].
Qed.

(** The life of a configuration: in every session, from its acceptance on and whatever is called with whatever
    registry, the configuration that is served belongs to the identity of the session and was, in this order and each
    by a call that succeeded, offered to the connector, acknowledged by it as applied, and reported ready
    at edge, routes and origin, each naming its generation and its hash; the session is in the ready state only with a
    configuration, the latest one reported ready. *)
Theorem configuration_life cfg first h s (Hlife : lives cfg first h s) :
  (ss_state s = SessionReady → ∃ x g, Current s = Some (x, true, g)) ∧
  (∀ x served g, Current s = Some (x, served, g) → reported first h (version_of x) ∧ snapshot_bound s x ∧ (served = true → g = sn_Generation x)) ∧
  (∀ x, Candidate s = Some x → acknowledged first h (version_of x) ∧ snapshot_bound s x).
Proof.
  destruct (lives_ok _ _ _ _ Hlife) as [Hok Hh]. unfold Current, Candidate. split_and!.
  - intros Hr. destruct (ok_ready _ Hok Hr) as (-> & Hg & ->). rewrite bool_decide_true by done. eexists _, _.
    apply Z.eqb_eq in Hg. by rewrite Hg.
  - intros x served g. destruct (ss_hasActive s) eqn:Ea; [|done]. intros [= <- <- <-].
    split_and!; [by apply (hi_active _ _ _ Hh)|by apply (ok_active _ Hok)|]. intros Hs. to_prop. done.
  - intros x. destruct (ss_hasCandidate s) eqn:Ec; [|done]. intros [= <-].
    split; [by apply (hi_candidate _ _ _ Hh)|by apply (ok_candidate _ Hok)].
Qed.
End life.

(** ** Two processes of one connector *)

Definition ex_one : System := mkSystem (ex_registry 1 "session_1") {[ 0%nat := ex_session 1 3 "session_1" ]} {[ "session_1" ]}.

Definition ex_two : System :=
  mkSystem (ex_registry 2 "session_2") {[ 1%nat := ex_session 2 4 "session_2"; 0%nat := ex_session 1 3 "session_1" ]} {[ "session_2"; "session_1" ]}.

Lemma ex_reach_two : sys_reach ex_server ex_two.
Proof.
  apply rtc_l with ex_one.
  - replace ex_one with (mkSystem (ex_registry 1 "session_1") (<[0%nat := ex_session 1 3 "session_1"]> ∅)
      ({[ sr_SessionID (ss_ref (ex_session 1 3 "session_1")) ]} ∪ ∅)) by (unfold ex_one; f_equal; set_solver).
    eapply (sys_accept _ empty_system); [exact ex_accepted|done|set_solver].
  - apply rtc_once. eapply (sys_accept _ ex_one 1%nat); [exact ex_replaced|done|]. simpl. set_solver.
Qed.

Lemma sessions_fenced_witness :
  ∃ s, sy_sessions ex_two !! 0%nat = Some s ∧ ¬ current ex_two s ∧
    ∀ m reg s2 ok, invoke ex_server m (sy_registry ex_two, s) = ((reg, s2), ok) →
      reg = sy_registry ex_two ∧ ((∀ reason, m ≠ MClose reason) → ok = false).
Proof.
  apply (proj2 (sessions_fenced ex_server ex_two ex_reach_two) 0%nat (ex_session 1 3 "session_1")); [reflexivity| |apply rtc_refl].
  vm_compute. congruence.
Defined.

(** ** A configuration becomes active *)

Definition ex_ack : Ack :=
  mkAck "account_1" "tunnel_1" "connector_1" "session_1" 1 AckSnapshot AckApplied 3 (sn_ContentHash (ex_snapshot 3)) "".

Definition ex_ready : Readiness :=
  mkReadiness "account_1" "session_1" "tunnel_1" "connector_1" 1 3 (sn_ContentHash (ex_snapshot 3)) true true true.

Definition ex_acked : ServerSession :=
  (invoke ex_server (MAck ex_ctx ex_now ex_ack) (ex_registry 1 "session_1", ex_session 1 3 "session_1")).1.2.

Definition ex_serving : ServerSession :=
  (invoke ex_server (MReadiness ex_ctx ex_now ex_ready) (ex_registry 1 "session_1", ex_acked)).1.2.

Definition ex_history : History := [(MReadiness ex_ctx ex_now ex_ready, true); (MAck ex_ctx ex_now ex_ack, true)].

Lemma ex_lives : lives ex_server (ex_first 1 3 "session_1") ex_history ex_serving.
Proof.
  eapply (lives_call _ _ _ ex_acked _ (ex_registry 1 "session_1") (ex_registry 1 "session_1"));
    [|vm_compute; reflexivity].
  eapply (lives_call _ _ _ (ex_session 1 3 "session_1") _ (ex_registry 1 "session_1") (ex_registry 1 "session_1"));
    [|vm_compute; reflexivity].
  eapply lives_accept. exact ex_accepted.
Qed.

Lemma configuration_life_witness :
  ss_state ex_serving = SessionReady ∧ reported (ex_first 1 3 "session_1") ex_history (version_of (ex_first 1 3 "session_1")).
Proof.
  split; [reflexivity|].
  destruct (configuration_life ex_server _ _ _ ex_lives) as (_ & Hserved & _).
  destruct (Hserved (ex_first 1 3 "session_1") true 3%Z) as [Hrep _]; [vm_compute; reflexivity|exact Hrep].
Defined.
