(* ===== verification/ClientSession.v ===== *)
(** * Client sessions: src/shared/connectorprotocol/client_session.go

    The session a connector process keeps with the server.  A configuration is staged by the applier (prepared), and
    activated only when the edge, the routes and the origins are ready.  A prepared configuration is a number; the calls the
    session makes of the applier are recorded in order.  ApplySnapshot, ApplyDelta and MarkReadyContext call
    the applier without the lock, so each is two steps with the call between them; HandleDrain is three.  The clock, the
    contexts and what the applier and the drainer return are arguments. *)
From S2P Require Import Prelude GoStd GoData GoNet GoEnc StateErr ConnProto ConnMessages Sessions.

#[local] Open Scope go_scope.

Record ClientSession := mkClientSession {
  cs_hello : Hello; cs_welcome : Welcome; cs_state : SessionState; cs_lease : Lease; cs_auth : AuthRequest;
  cs_active : Snapshot; cs_hasActive : bool; cs_candidate : Snapshot; cs_hasCandidate : bool;
  cs_prepared : option nat; cs_needsSnapshot : bool; cs_readyGeneration : Z; cs_lastHeartbeatAck : Z;
  cs_drain : option Drain; cs_drainStatus : string; cs_drainCode : string; cs_drainCompleted : bool;
  cs_activeStreams : Z; cs_disconnectReason : string;
}.

Definition set_hello (v : Hello) (s : ClientSession) : ClientSession := mkClientSession v (cs_welcome s) (cs_state s) (cs_lease s) (cs_auth s) (cs_active s) (cs_hasActive s) (cs_candidate s) (cs_hasCandidate s) (cs_prepared s) (cs_needsSnapshot s) (cs_readyGeneration s) (cs_lastHeartbeatAck s) (cs_drain s) (cs_drainStatus s) (cs_drainCode s) (cs_drainCompleted s) (cs_activeStreams s) (cs_disconnectReason s).
Definition set_welcome (v : Welcome) (s : ClientSession) : ClientSession := mkClientSession (cs_hello s) v (cs_state s) (cs_lease s) (cs_auth s) (cs_active s) (cs_hasActive s) (cs_candidate s) (cs_hasCandidate s) (cs_prepared s) (cs_needsSnapshot s) (cs_readyGeneration s) (cs_lastHeartbeatAck s) (cs_drain s) (cs_drainStatus s) (cs_drainCode s) (cs_drainCompleted s) (cs_activeStreams s) (cs_disconnectReason s).
Definition set_state (v : SessionState) (s : ClientSession) : ClientSession := mkClientSession (cs_hello s) (cs_welcome s) v (cs_lease s) (cs_auth s) (cs_active s) (cs_hasActive s) (cs_candidate s) (cs_hasCandidate s) (cs_prepared s) (cs_needsSnapshot s) (cs_readyGeneration s) (cs_lastHeartbeatAck s) (cs_drain s) (cs_drainStatus s) (cs_drainCode s) (cs_drainCompleted s) (cs_activeStreams s) (cs_disconnectReason s).
Definition set_lease (v : Lease) (s : ClientSession) : ClientSession := mkClientSession (cs_hello s) (cs_welcome s) (cs_state s) v (cs_auth s) (cs_active s) (cs_hasActive s) (cs_candidate s) (cs_hasCandidate s) (cs_prepared s) (cs_needsSnapshot s) (cs_readyGeneration s) (cs_lastHeartbeatAck s) (cs_drain s) (cs_drainStatus s) (cs_drainCode s) (cs_drainCompleted s) (cs_activeStreams s) (cs_disconnectReason s).
Definition set_auth (v : AuthRequest) (s : ClientSession) : ClientSession := mkClientSession (cs_hello s) (cs_welcome s) (cs_state s) (cs_lease s) v (cs_active s) (cs_hasActive s) (cs_candidate s) (cs_hasCandidate s) (cs_prepared s) (cs_needsSnapshot s) (cs_readyGeneration s) (cs_lastHeartbeatAck s) (cs_drain s) (cs_drainStatus s) (cs_drainCode s) (cs_drainCompleted s) (cs_activeStreams s) (cs_disconnectReason s).
Definition set_active (v : Snapshot) (s : ClientSession) : ClientSession := mkClientSession (cs_hello s) (cs_welcome s) (cs_state s) (cs_lease s) (cs_auth s) v (cs_hasActive s) (cs_candidate s) (cs_hasCandidate s) (cs_prepared s) (cs_needsSnapshot s) (cs_readyGeneration s) (cs_lastHeartbeatAck s) (cs_drain s) (cs_drainStatus s) (cs_drainCode s) (cs_drainCompleted s) (cs_activeStreams s) (cs_disconnectReason s).
Definition set_hasActive (v : bool) (s : ClientSession) : ClientSession := mkClientSession (cs_hello s) (cs_welcome s) (cs_state s) (cs_lease s) (cs_auth s) (cs_active s) v (cs_candidate s) (cs_hasCandidate s) (cs_prepared s) (cs_needsSnapshot s) (cs_readyGeneration s) (cs_lastHeartbeatAck s) (cs_drain s) (cs_drainStatus s) (cs_drainCode s) (cs_drainCompleted s) (cs_activeStreams s) (cs_disconnectReason s).
Definition set_candidate (v : Snapshot) (s : ClientSession) : ClientSession := mkClientSession (cs_hello s) (cs_welcome s) (cs_state s) (cs_lease s) (cs_auth s) (cs_active s) (cs_hasActive s) v (cs_hasCandidate s) (cs_prepared s) (cs_needsSnapshot s) (cs_readyGeneration s) (cs_lastHeartbeatAck s) (cs_drain s) (cs_drainStatus s) (cs_drainCode s) (cs_drainCompleted s) (cs_activeStreams s) (cs_disconnectReason s).
Definition set_hasCandidate (v : bool) (s : ClientSession) : ClientSession := mkClientSession (cs_hello s) (cs_welcome s) (cs_state s) (cs_lease s) (cs_auth s) (cs_active s) (cs_hasActive s) (cs_candidate s) v (cs_prepared s) (cs_needsSnapshot s) (cs_readyGeneration s) (cs_lastHeartbeatAck s) (cs_drain s) (cs_drainStatus s) (cs_drainCode s) (cs_drainCompleted s) (cs_activeStreams s) (cs_disconnectReason s).
Definition set_prepared (v : option nat) (s : ClientSession) : ClientSession := mkClientSession (cs_hello s) (cs_welcome s) (cs_state s) (cs_lease s) (cs_auth s) (cs_active s) (cs_hasActive s) (cs_candidate s) (cs_hasCandidate s) v (cs_needsSnapshot s) (cs_readyGeneration s) (cs_lastHeartbeatAck s) (cs_drain s) (cs_drainStatus s) (cs_drainCode s) (cs_drainCompleted s) (cs_activeStreams s) (cs_disconnectReason s).
Definition set_needsSnapshot (v : bool) (s : ClientSession) : ClientSession := mkClientSession (cs_hello s) (cs_welcome s) (cs_state s) (cs_lease s) (cs_auth s) (cs_active s) (cs_hasActive s) (cs_candidate s) (cs_hasCandidate s) (cs_prepared s) v (cs_readyGeneration s) (cs_lastHeartbeatAck s) (cs_drain s) (cs_drainStatus s) (cs_drainCode s) (cs_drainCompleted s) (cs_activeStreams s) (cs_disconnectReason s).
Definition set_readyGeneration (v : Z) (s : ClientSession) : ClientSession := mkClientSession (cs_hello s) (cs_welcome s) (cs_state s) (cs_lease s) (cs_auth s) (cs_active s) (cs_hasActive s) (cs_candidate s) (cs_hasCandidate s) (cs_prepared s) (cs_needsSnapshot s) v (cs_lastHeartbeatAck s) (cs_drain s) (cs_drainStatus s) (cs_drainCode s) (cs_drainCompleted s) (cs_activeStreams s) (cs_disconnectReason s).
Definition set_lastHeartbeatAck (v : Z) (s : ClientSession) : ClientSession := mkClientSession (cs_hello s) (cs_welcome s) (cs_state s) (cs_lease s) (cs_auth s) (cs_active s) (cs_hasActive s) (cs_candidate s) (cs_hasCandidate s) (cs_prepared s) (cs_needsSnapshot s) (cs_readyGeneration s) v (cs_drain s) (cs_drainStatus s) (cs_drainCode s) (cs_drainCompleted s) (cs_activeStreams s) (cs_disconnectReason s).
Definition set_drain (v : option Drain) (s : ClientSession) : ClientSession := mkClientSession (cs_hello s) (cs_welcome s) (cs_state s) (cs_lease s) (cs_auth s) (cs_active s) (cs_hasActive s) (cs_candidate s) (cs_hasCandidate s) (cs_prepared s) (cs_needsSnapshot s) (cs_readyGeneration s) (cs_lastHeartbeatAck s) v (cs_drainStatus s) (cs_drainCode s) (cs_drainCompleted s) (cs_activeStreams s) (cs_disconnectReason s).
Definition set_drainStatus (v : string) (s : ClientSession) : ClientSession := mkClientSession (cs_hello s) (cs_welcome s) (cs_state s) (cs_lease s) (cs_auth s) (cs_active s) (cs_hasActive s) (cs_candidate s) (cs_hasCandidate s) (cs_prepared s) (cs_needsSnapshot s) (cs_readyGeneration s) (cs_lastHeartbeatAck s) (cs_drain s) v (cs_drainCode s) (cs_drainCompleted s) (cs_activeStreams s) (cs_disconnectReason s).
Definition set_drainCode (v : string) (s : ClientSession) : ClientSession := mkClientSession (cs_hello s) (cs_welcome s) (cs_state s) (cs_lease s) (cs_auth s) (cs_active s) (cs_hasActive s) (cs_candidate s) (cs_hasCandidate s) (cs_prepared s) (cs_needsSnapshot s) (cs_readyGeneration s) (cs_lastHeartbeatAck s) (cs_drain s) (cs_drainStatus s) v (cs_drainCompleted s) (cs_activeStreams s) (cs_disconnectReason s).
Definition set_drainCompleted (v : bool) (s : ClientSession) : ClientSession := mkClientSession (cs_hello s) (cs_welcome s) (cs_state s) (cs_lease s) (cs_auth s) (cs_active s) (cs_hasActive s) (cs_candidate s) (cs_hasCandidate s) (cs_prepared s) (cs_needsSnapshot s) (cs_readyGeneration s) (cs_lastHeartbeatAck s) (cs_drain s) (cs_drainStatus s) (cs_drainCode s) v (cs_activeStreams s) (cs_disconnectReason s).
Definition set_activeStreams (v : Z) (s : ClientSession) : ClientSession := mkClientSession (cs_hello s) (cs_welcome s) (cs_state s) (cs_lease s) (cs_auth s) (cs_active s) (cs_hasActive s) (cs_candidate s) (cs_hasCandidate s) (cs_prepared s) (cs_needsSnapshot s) (cs_readyGeneration s) (cs_lastHeartbeatAck s) (cs_drain s) (cs_drainStatus s) (cs_drainCode s) (cs_drainCompleted s) v (cs_disconnectReason s).
Definition set_disconnectReason (v : string) (s : ClientSession) : ClientSession := mkClientSession (cs_hello s) (cs_welcome s) (cs_state s) (cs_lease s) (cs_auth s) (cs_active s) (cs_hasActive s) (cs_candidate s) (cs_hasCandidate s) (cs_prepared s) (cs_needsSnapshot s) (cs_readyGeneration s) (cs_lastHeartbeatAck s) (cs_drain s) (cs_drainStatus s) (cs_drainCode s) (cs_drainCompleted s) (cs_activeStreams s) v.
Arguments set_hello _ _ /.
Arguments set_welcome _ _ /.
Arguments set_state _ _ /.
Arguments set_lease _ _ /.
Arguments set_auth _ _ /.
Arguments set_active _ _ /.
Arguments set_hasActive _ _ /.
Arguments set_candidate _ _ /.
Arguments set_hasCandidate _ _ /.
Arguments set_prepared _ _ /.
Arguments set_needsSnapshot _ _ /.
Arguments set_readyGeneration _ _ /.
Arguments set_lastHeartbeatAck _ _ /.
Arguments set_drain _ _ /.
Arguments set_drainStatus _ _ /.
Arguments set_drainCode _ _ /.
Arguments set_drainCompleted _ _ /.
Arguments set_activeStreams _ _ /.
Arguments set_disconnectReason _ _ /.

(** ** The applier *)

(** What the session did with prepared configurations, the latest first. *)
Inductive Call := Prepared (h : nat) | Activated (h : nat) | Aborted (h : nat).

#[export] Instance Call_eq_dec : EqDecision Call.
Proof. solve_decision. Defined.

Definition Cli : Type := ClientSession * list Call.
Definition CM (E A : Type) : Type := M Cli E A.

Section ops.
Context {E : Type}.

Definition change (f : ClientSession → ClientSession) : CM E () := mset (λ w, (f w.1, w.2)).
Definition client : CM E ClientSession := w ← mget; mret w.1.
Definition call (c : Call) : CM E () := mset (λ w, (w.1, c :: w.2)).

(** abortPrepared: nothing to do for nil. *)
Definition abortPrepared (prepared : option nat) : CM E () :=
  match prepared with Some h => call (Aborted h) | None => mret () end.
End ops.

(** joinCleanup *)
Definition joinCleanup (primary cleanup : option error) : option error :=
  match cleanup with
  | None => primary
  | Some c => let c := Wrapped "abort prepared configuration" c in
      match primary with None => Some c | Some _ => errors_Join [primary; Some c] end
  end.

(** The outcome of a call to the applier: the prepared configuration, the error, the error of the bounded context, the error
    of the caller's context, and what Abort returns should it be called. *)
Record Staging := mkStaging {
  sg_prepared : option nat; sg_err : option error; sg_prepareErr : option error; sg_ctxErr : option error; sg_abortErr : option error;
}.

(** ** The beginning of a session *)

Definition zeroWelcome : Welcome := mkWelcome "" "" "" [] (mkLease "" time.zero 0) false time.zero.

(** NewClientSession; the defaults of the applier, the drainer and the clock are the caller's here. *)
Definition NewClientSession (hello : Hello) (applyTimeout abortTimeout : Z) (now : Z) : error + ClientSession :=
  let applyTimeout := if (applyTimeout =? 0)%Z then DefaultApplyTimeout else applyTimeout in
  let abortTimeout := if (abortTimeout =? 0)%Z then DefaultAbortTimeout else abortTimeout in
  if (applyTimeout <=? 0)%Z || (MaxLease <? applyTimeout)%Z || (abortTimeout <=? 0)%Z || (MaxLease <? abortTimeout)%Z then inl ErrInvalidInput
  else match Hello_Validate hello now with
       | Some e => inl e
       | None => inr (mkClientSession hello zeroWelcome SessionNew (mkLease "" time.zero 0) (he_Auth hello) zeroSnapshot false zeroSnapshot
           false None false 0 time.zero None "" "" false 0 "")
       end.

Definition AcceptWelcome (now now2 : Z) (w : Welcome) : CM error () :=
  check (Welcome_Validate w now);;
  c ← client;
  fail_if (negb (bool_decide (cs_state c = SessionNew))) (CodeError CodeSessionConflict ReasonProtocolClosed false None);;
  fail_if (negb (String.eqb (we_Version w) ProtocolVersion) || negb (String.eqb (we_Protocol w) ProtocolName))
    (CodeError CodeProtocolIncompatible ReasonProtocolMismatch false None);;
  check (match NegotiateVersion (he_MinVersion (cs_hello c)) (he_MaxVersion (cs_hello c)) with inl e => Some e | inr _ => None end);;
  check (match NegotiateCapabilities (he_Capabilities (cs_hello c)) (we_Capabilities w) with inl e => Some e | inr _ => None end);;
  change (λ c, set_lastHeartbeatAck now2 (set_state SessionAwaitingSnapshot (set_lease (we_Lease w) (set_welcome w c)))).

(** ensureActiveLocked *)
Definition client_active (now : Z) : CM error () :=
  c ← client;
  fail_if (bool_decide (cs_state c = SessionClosed)) (CodeError CodeSessionClosed (cs_disconnectReason c) false None);;
  fail_if (bool_decide (cs_state c = SessionNew)) (CodeError CodeSessionConflict ReasonProtocolClosed false None);;
  if heartbeat_late now (cs_lastHeartbeatAck c) (cs_lease c) then
    change (λ c, set_disconnectReason ReasonHeartbeatTimeout (set_state SessionClosed c));;
    mfail (CodeError CodeHeartbeatTimeout ReasonHeartbeatTimeout true None)
  else mret ().

(** ensureActiveReadLocked *)
Definition client_active_read (c : ClientSession) : option error :=
  if bool_decide (cs_state c = SessionClosed) then Some (CodeError CodeSessionClosed (cs_disconnectReason c) false None)
  else if bool_decide (cs_state c = SessionNew) then Some (CodeError CodeSessionConflict ReasonProtocolClosed false None)
  else None.

(** ** Applying configurations *)

Definition zeroAck : Ack := mkAck "" "" "" "" 0 "" "" 0 "" "".
Definition AckErr : Type := Ack * error.

(** return Ack{}, err *)
Definition no_ack {A} (m : CM error A) : CM AckErr A := map_error (λ e, (zeroAck, e)) m.

Definition client_ack (c : ClientSession) (kind status : string) (generation : Z) (hash : string) : Ack :=
  mkAck (he_AccountID (cs_hello c)) (he_TunnelID (cs_hello c)) (he_ConnectorID (cs_hello c)) (we_SessionID (cs_welcome c))
    (he_ProcessGeneration (cs_hello c)) kind status generation hash "".

Definition RejectionAck (c : ClientSession) (kind : string) (generation : Z) (contentHash code : string) : Ack :=
  mkAck (he_AccountID (cs_hello c)) (he_TunnelID (cs_hello c)) (he_ConnectorID (cs_hello c)) (we_SessionID (cs_welcome c))
    (he_ProcessGeneration (cs_hello c)) kind AckRejected generation contentHash code.

(** The message is not for this session. *)
Definition not_bound (c : ClientSession) (account tunnel connector session : string) (process : Z) : bool :=
  negb (bound_to account tunnel connector session process (he_AccountID (cs_hello c)) (he_TunnelID (cs_hello c))
    (he_ConnectorID (cs_hello c)) (we_SessionID (cs_welcome c)) (he_ProcessGeneration (cs_hello c))).

(** What the first part decided: an acknowledgement to send, or that the applier is asked. *)
Inductive Applying := Answered (ack : Ack) | Preparing.

Section apply.
Context `{GoRuntime} `{GoUpper} `{NetURL} `{SHA256} `{WireJSON}.

Definition ApplySnapshot_begin (ctx : Context) (now : Z) (snapshot : Snapshot) : CM AckErr Applying :=
  no_ack (fail_if (no_ctx ctx) ErrInvalidInput);;
  no_ack (check (match Snapshot_Validate snapshot with
    | Some e => Some (CodeError CodeSnapshotRejected ReasonSnapshotRejected false (Some e)) | None => None end));;
  no_ack (client_active now);;
  c ← client;
  no_ack (fail_if (negb (String.eqb (sn_TunnelID snapshot) (he_TunnelID (cs_hello c)))) identity_mismatch);;
  no_ack (fail_if (bad (Snapshot_ValidateBound snapshot)
    || not_bound c (sn_AccountID snapshot) (sn_TunnelID snapshot) (sn_ConnectorID snapshot) (sn_SessionID snapshot) (sn_ProcessGeneration snapshot))
    identity_mismatch);;
  let current := if cs_hasCandidate c then cs_candidate c else cs_active c in
  if (cs_hasActive c || cs_hasCandidate c) && (sn_Generation snapshot <? sn_Generation current)%Z then no_ack (mfail stale_generation)
  else if (cs_hasActive c || cs_hasCandidate c) && (sn_Generation snapshot =? sn_Generation current)%Z then
    if String.eqb (sn_ContentHash snapshot) (sn_ContentHash current)
    then mret (Answered (client_ack c AckSnapshot AckDuplicate (sn_Generation snapshot) (sn_ContentHash snapshot)))
    else no_ack (mfail (CodeError CodeContentHashMismatch ReasonSnapshotRejected false None))
  else no_ack (check (canceled ctx));; mret Preparing.

(** What is done when the applier did not prepare: the errors, after aborting what it returned. *)
Definition staging_failed (code : string) (r : Staging) : option error :=
  match sg_err r with
  | Some err =>
      let abortErr := if is_set (sg_prepared r) then sg_abortErr r else None in
      match (match sg_ctxErr r with Some e => Some e | None => sg_prepareErr r end) with
      | Some cause => Some (CodeError CodeCanceled ReasonCanceled true (joinCleanup (errors_Join [Some cause; Some err]) abortErr))
      | None => Some (CodeError code ReasonSnapshotRejected false (joinCleanup (Some err) abortErr))
      end
  | None =>
      match sg_prepareErr r with
      | Some e => Some (CodeError CodeCanceled ReasonCanceled true
          (joinCleanup (Some e) (if is_set (sg_prepared r) then sg_abortErr r else None)))
      | None =>
          match sg_prepared r with
          | None => Some (CodeError code ReasonSnapshotRejected false (Some (Foreign "applier returned nil prepared configuration")))
          | Some _ => None
          end
      end
  end.

(** abortAndJoin *)
Definition abortAndJoin {A} (primary : error) (r : Staging) : CM AckErr A :=
  abortPrepared (sg_prepared r);;
  mfail (zeroAck, default primary (joinCleanup (Some primary) (if is_set (sg_prepared r) then sg_abortErr r else None))).

(** The second part: the applier has answered. *)
Definition apply_commit (code : string) (now : Z) (r : Staging) (stage : ClientSession → ClientSession) (ack : ClientSession → Ack) : CM AckErr Ack :=
  match sg_prepared r with Some h => call (Prepared h) | None => mret () end;;
  match staging_failed code r with
  | Some e => abortPrepared (sg_prepared r);; mfail (zeroAck, e)
  | None =>
      λ w, match client_active now w with
      | (w', inl e) => abortAndJoin e r w'
      | (w', inr _) =>
          (c ← client;
           if cs_hasCandidate c && is_set (cs_prepared c) then abortAndJoin (CodeError CodeGenerationGap ReasonGenerationGap true None) r
           else change (λ c, set_state SessionAwaitingReady (set_readyGeneration 0 (set_prepared (sg_prepared r) (set_hasCandidate true (stage c)))));;
                c ← client; mret (ack c)) w'
      end
  end.

Definition snapshot_candidate (c : ClientSession) (snapshot : Snapshot) : Snapshot :=
  BindSnapshot snapshot (he_AccountID (cs_hello c)) (he_ConnectorID (cs_hello c)) (we_SessionID (cs_welcome c)) (he_ProcessGeneration (cs_hello c)).

Definition ApplySnapshot_commit (now : Z) (snapshot : Snapshot) (r : Staging) : CM AckErr Ack :=
  apply_commit CodeSnapshotRejected now r
    (λ c, set_needsSnapshot false (set_candidate (snapshot_candidate c snapshot) c))
    (λ c, client_ack c AckSnapshot AckApplied (sn_Generation snapshot) (sn_ContentHash snapshot)).

(** A delta that does not follow the active snapshot: a snapshot is asked for. *)
Definition ask_snapshot (c : ClientSession) (delta : Delta) (e : error) : AckErr :=
  (client_ack c AckDelta AckSnapshotRequired (de_Generation delta) (de_ContentHash delta), e).

Definition generation_gap : error := CodeError CodeGenerationGap ReasonGenerationGap true None.

Definition ApplyDelta_begin (ctx : Context) (now : Z) (delta : Delta) : CM AckErr () :=
  no_ack (fail_if (no_ctx ctx) ErrInvalidInput);;
  no_ack (check (match Delta_Validate delta with
    | Some e => Some (CodeError CodeDeltaRejected ReasonGenerationGap false (Some e)) | None => None end));;
  no_ack (client_active now);;
  c ← client;
  no_ack (fail_if (bad (Delta_ValidateBound delta)
    || not_bound c (de_AccountID delta) (de_TunnelID delta) (de_ConnectorID delta) (de_SessionID delta) (de_ProcessGeneration delta))
    identity_mismatch);;
  fail_if (negb (cs_hasActive c) || cs_needsSnapshot c || cs_hasCandidate c) (ask_snapshot c delta snapshot_required);;
  (if (de_PreviousGeneration delta =? sn_Generation (cs_active c))%Z && String.eqb (de_PreviousContentHash delta) (sn_ContentHash (cs_active c)) then
     if negb (de_Generation delta =? UInt64.wrap (sn_Generation (cs_active c) + 1))%Z then
       change (set_needsSnapshot true);; mfail (ask_snapshot c delta generation_gap)
     else mret ()
   else if (de_Generation delta <=? sn_Generation (cs_active c))%Z then no_ack (mfail stale_generation)
   else change (set_needsSnapshot true);; mfail (ask_snapshot c delta generation_gap));;
  no_ack (check (canceled ctx)).

Definition delta_staged (c : ClientSession) (delta : Delta) : Snapshot :=
  mkSnapshot (he_AccountID (cs_hello c)) (de_TunnelID delta) (he_ConnectorID (cs_hello c)) (we_SessionID (cs_welcome c))
    (he_ProcessGeneration (cs_hello c)) (de_Generation delta) (de_ContentHash delta) (de_Payload delta) false.

Definition ApplyDelta_commit (now : Z) (delta : Delta) (r : Staging) : CM AckErr Ack :=
  apply_commit CodeDeltaRejected now r (λ c, set_candidate (delta_staged c delta) c)
    (λ c, client_ack c AckDelta AckApplied (de_Generation delta) (de_ContentHash delta)).

(** ApplySnapshot and ApplyDelta with nothing between their parts. *)
Definition ApplySnapshot (ctx : Context) (now now2 : Z) (snapshot : Snapshot) (r : Staging) : CM AckErr Ack :=
  a ← ApplySnapshot_begin ctx now snapshot;
  match a with Answered ack => mret ack | Preparing => ApplySnapshot_commit now2 snapshot r end.

Definition ApplyDelta (ctx : Context) (now now2 : Z) (delta : Delta) (r : Staging) : CM AckErr Ack :=
  ApplyDelta_begin ctx now delta;; ApplyDelta_commit now2 delta r.
End apply.

(** restoreStateLocked *)
Definition client_restore (c : ClientSession) : ClientSession :=
  set_state (if cs_hasActive c && (cs_readyGeneration c =? sn_Generation (cs_active c))%Z && negb (cs_needsSnapshot c) then SessionReady
             else if cs_hasCandidate c then SessionAwaitingReady else SessionAwaitingSnapshot) c.

(** ** Readiness *)

Definition zeroReadiness : Readiness := mkReadiness "" "" "" "" 0 0 "" false false false.

Definition readiness_of (c : ClientSession) (edge route origin : bool) : Readiness :=
  mkReadiness (he_AccountID (cs_hello c)) (we_SessionID (cs_welcome c)) (he_TunnelID (cs_hello c)) (he_ConnectorID (cs_hello c))
    (he_ProcessGeneration (cs_hello c)) (sn_Generation (cs_candidate c)) (sn_ContentHash (cs_candidate c)) edge route origin.

Definition ReadyErr : Type := Readiness * error.

(** The first part of MarkReadyContext: the readiness to report and the configuration to activate. *)
Definition MarkReady_begin (ctx : Context) (now : Z) (edge route origin : bool) : CM ReadyErr (Readiness * nat * Snapshot) :=
  let bare {A} (m : CM error A) : CM ReadyErr A := map_error (λ e, (zeroReadiness, e)) m in
  bare (fail_if (no_ctx ctx) ErrInvalidInput);;
  bare (client_active now);;
  c ← client;
  bare (fail_if (negb (cs_hasCandidate c)) snapshot_required);;
  let readiness := readiness_of c edge route origin in
  fail_if (negb edge || negb route || negb origin) (readiness, CodeError CodeNotReady ReasonSnapshotRejected true None);;
  check (match canceled ctx with Some e => Some (readiness, e) | None => None end);;
  match cs_prepared c with
  | None => mfail (readiness, CodeError CodeSnapshotRejected ReasonSnapshotRejected false (Some (Foreign "missing prepared configuration")))
  | Some h => mret (readiness, h, cs_candidate c)
  end.

(** The candidate is still the one that was activated. *)
Definition same_candidate (c : ClientSession) (candidate : Snapshot) : bool :=
  cs_hasCandidate c && names_snapshot (sn_Generation candidate) (sn_ContentHash candidate) (cs_candidate c).

Definition drop_candidate (c : ClientSession) : ClientSession :=
  client_restore (set_needsSnapshot true (set_prepared None (set_hasCandidate false (set_candidate zeroSnapshot c)))).

Definition client_promote (c : ClientSession) : ClientSession :=
  set_state SessionReady (set_readyGeneration (sn_Generation (cs_candidate c)) (set_needsSnapshot false (set_prepared None
    (set_hasCandidate false (set_candidate zeroSnapshot (set_hasActive true (set_active (cs_candidate c) c))))))).

(** The second part: [err] is what Activate returned, [ctxErr] the error of the context then, [abortErr] what Abort returns. *)
Definition MarkReady_commit (now : Z) (readiness : Readiness) (h : nat) (candidate : Snapshot) (err ctxErr abortErr : option error) : CM ReadyErr Readiness :=
  match err with
  | Some e =>
      call (Aborted h);;
      change (λ c, if same_candidate c candidate then drop_candidate c else c);;
      match ctxErr with
      | Some ce => mfail (readiness, CodeError CodeCanceled ReasonCanceled true (joinCleanup (errors_Join [Some ce; Some e]) abortErr))
      | None => mfail (readiness, CodeError CodeSnapshotRejected ReasonSnapshotRejected false (joinCleanup (Some e) abortErr))
      end
  | None =>
      call (Activated h);;
      map_error (λ e, (readiness, e)) (client_active now);;
      c ← client;
      fail_if (negb (same_candidate c candidate)) (readiness, CodeError CodeSessionConflict ReasonStaleGeneration true None);;
      change client_promote;;
      mret readiness
  end.

Definition MarkReadyContext (ctx : Context) (now now2 : Z) (edge route origin : bool) (err ctxErr abortErr : option error) : CM ReadyErr Readiness :=
  r ← MarkReady_begin ctx now edge route origin;
  let '(readiness, h, candidate) := r in MarkReady_commit now2 readiness h candidate err ctxErr abortErr.

(** ** Heartbeats and renewals *)

(** currentCandidateLocked *)
Definition currentCandidate (c : ClientSession) : option Snapshot :=
  if cs_hasActive c then Some (cs_active c) else if cs_hasCandidate c then Some (cs_candidate c) else None.

Definition Client_Heartbeat (now clock : Z) : CM error Heartbeat :=
  let now := if time.IsZero now then clock else now in
  client_active now;;
  c ← client;
  match currentCandidate c with
  | None => mfail snapshot_required
  | Some current =>
      mret (mkHeartbeat (he_AccountID (cs_hello c)) (we_SessionID (cs_welcome c)) (he_TunnelID (cs_hello c)) (he_ConnectorID (cs_hello c))
        (he_ProcessGeneration (cs_hello c)) (sn_Generation current) (sn_ContentHash current) now)
  end.

Definition AcceptHeartbeatAck (now : Z) (a : HeartbeatAck) : CM error () :=
  check (HeartbeatAck_Validate a now);;
  client_active now;;
  c ← client;
  fail_if (not_bound c (ha_AccountID a) (ha_TunnelID a) (ha_ConnectorID a) (ha_SessionID a) (ha_ProcessGeneration a)) identity_mismatch;;
  change (λ c, set_lastHeartbeatAck now (set_lease (mkLease (ls_SessionID (cs_lease c)) (ha_LeaseExpiresAt a) (ls_HeartbeatIntervalMS (cs_lease c))) c)).

Definition client_RenewalRequest (c : ClientSession) (now clock : Z) (nonce signedProof : string) : error + RenewalRequest :=
  let now := if time.IsZero now then clock else now in
  match client_active_read c with
  | Some e => inl e
  | None =>
      let a := cs_auth c in
      let request := mkRenewalRequest (we_SessionID (cs_welcome c)) (ar_AccountID a) (ar_TunnelID a) (ar_ConnectorID a) (ar_HostID a)
        (ar_IdentityKeyID a) (ar_IdentityKeyThumbprint a) (he_ProcessGeneration (cs_hello c)) (ar_CredentialGeneration a) nonce signedProof now in
      match RenewalRequest_Validate request with Some e => inl e | None => inr request end
  end.

Definition ApplyRenewal (now : Z) (r : AuthResult) : CM error () :=
  check (AuthResult_ValidateBound r);;
  client_active now;;
  c ← client;
  let a := cs_auth c in
  fail_if (negb (String.eqb (au_AccountID r) (ar_AccountID a)) || negb (String.eqb (au_TunnelID r) (ar_TunnelID a))
           || negb (String.eqb (au_ConnectorID r) (ar_ConnectorID a)) || negb (String.eqb (au_SessionID r) (we_SessionID (cs_welcome c)))
           || negb (String.eqb (au_HostID r) (ar_HostID a)) || negb (String.eqb (au_IdentityKeyID r) (ar_IdentityKeyID a))
           || negb (String.eqb (au_IdentityKeyThumbprint r) (ar_IdentityKeyThumbprint a))
           || negb (au_ProcessGeneration r =? he_ProcessGeneration (cs_hello c))%Z
           || (au_CredentialGeneration r <? ar_CredentialGeneration a)%Z)
    identity_mismatch;;
  fail_if (time.Before (au_CredentialExpiresAt r) (ar_ExpiresAt a) || time.Before (au_LeaseExpiresAt r) (ls_ExpiresAt (cs_lease c)))
    (CodeError CodeSessionConflict ReasonAuthentication false None);;
  if (au_CredentialGeneration r =? ar_CredentialGeneration a)%Z && (au_CredentialExpiresAt r =? ar_ExpiresAt a)%Z
     && (au_LeaseExpiresAt r =? ls_ExpiresAt (cs_lease c))%Z then mret ()
  else change (λ c, set_lastHeartbeatAck now (set_lease (mkLease (ls_SessionID (cs_lease c)) (au_LeaseExpiresAt r) (ls_HeartbeatIntervalMS (cs_lease c)))
         (set_auth (mkAuthRequest (au_AccountID r) (au_TunnelID r) (au_ConnectorID r) (au_HostID r) (au_IdentityKeyID r) (au_IdentityKeyThumbprint r)
           (au_ProcessGeneration r) (au_CredentialGeneration r) "" "" now (au_CredentialExpiresAt r)) c))).

(** ** Draining *)

Definition zeroDrainAck : DrainAck := mkDrainAck "" "" "" "" 0 "" 0 "" "" 0 false "".
Definition DrainErr : Type := DrainAck * error.

Definition makeDrainAckLocked (c : ClientSession) (d : Drain) (status : string) (activeStreams : Z) (forced : bool) (code : string) : DrainAck :=
  mkDrainAck (he_AccountID (cs_hello c)) (he_TunnelID (cs_hello c)) (he_ConnectorID (cs_hello c)) (we_SessionID (cs_welcome c))
    (he_ProcessGeneration (cs_hello c)) (dr_DrainID d) (dr_Generation d) (dr_ContentHash d) status activeStreams forced code.

Definition reject_drain (c : ClientSession) (d : Drain) (activeStreams : Z) (e : error) : DrainErr :=
  (makeDrainAckLocked c d DrainRejected activeStreams false CodeDrainRejected, e).

(** HandleDrain up to the call of StopNewStreams: [Some ack] when the drain was already known. *)
Definition HandleDrain_begin (ctx : Context) (now : Z) (d : Drain) : CM DrainErr (option DrainAck) :=
  let bare {A} (m : CM error A) : CM DrainErr A := map_error (λ e, (zeroDrainAck, e)) m in
  bare (fail_if (no_ctx ctx) ErrInvalidInput);;
  bare (check (canceled ctx));;
  bare (check (Drain_Validate d now));;
  bare (client_active now);;
  c ← client;
  bare (fail_if (negb (HasCapability (we_Capabilities (cs_welcome c)) CapabilityDrain)) (CodeError CodeCapabilityMissing ReasonCapabilityMissing false None));;
  fail_if (not_bound c (dr_AccountID d) (dr_TunnelID d) (dr_ConnectorID d) (dr_SessionID d) (dr_ProcessGeneration d)) (reject_drain c d 0 identity_mismatch);;
  match cs_drain c with
  | Some known =>
      fail_if (negb (String.eqb (dr_DrainID d) (dr_DrainID known)))
        (reject_drain c d (cs_activeStreams c) (CodeError CodeSessionConflict ReasonStaleGeneration true None));;
      fail_if (negb (dr_Generation d =? dr_Generation known)%Z || negb (String.eqb (dr_ContentHash d) (dr_ContentHash known)))
        (reject_drain c d (cs_activeStreams c) (CodeError CodeContentHashMismatch ReasonSnapshotRejected false None));;
      mret (Some (makeDrainAckLocked c d (cs_drainStatus c) (cs_activeStreams c) (String.eqb (cs_drainStatus c) DrainForced) (cs_drainCode c)))
  | None =>
      fail_if (negb (cs_hasActive c) || cs_needsSnapshot c || negb (cs_readyGeneration c =? sn_Generation (cs_active c))%Z)
        (reject_drain c d 0 (CodeError CodeNotReady ReasonSnapshotRejected true None));;
      fail_if (negb (names_snapshot (dr_Generation d) (dr_ContentHash d) (cs_active c)))
        (reject_drain c d 0 (CodeError CodeStaleGeneration ReasonStaleGeneration true None));;
      change (λ c, set_state SessionDraining (set_activeStreams 0 (set_drainCompleted false (set_drainCode "" (set_drainStatus DrainAccepted
        (set_drain (Some d) c))))));;
      mret None
  end.

(** The drain is still the one that was begun. *)
Definition same_drain (c : ClientSession) (d : Drain) : bool :=
  match cs_drain c with Some known => String.eqb (dr_DrainID known) (dr_DrainID d) | None => false end.

Definition drain_refused (d : Drain) (c : ClientSession) : ClientSession :=
  if same_drain c d then client_restore (set_drainCompleted true (set_drainCode CodeDrainRejected (set_drainStatus DrainRejected c))) else c.

(** HandleDrain when StopNewStreams fails. *)
Definition HandleDrain_stop_failed (d : Drain) (stopErr : error) : CM DrainErr DrainAck :=
  change (drain_refused d);;
  c ← client;
  mfail (reject_drain c d (cs_activeStreams c) (CodeError CodeDrainRejected ReasonSnapshotRejected true (Some stopErr))).

(** HandleDrain once the streams are stopped and counted. *)
Definition HandleDrain_count (d : Drain) (activeStreams : Z) (countErr : option error) : CM DrainErr DrainAck :=
  if is_set countErr || (MaxActiveStreams <? activeStreams)%Z then
    change (drain_refused d);;
    c ← client;
    mfail (reject_drain c d 0 (CodeError CodeDrainRejected ReasonSnapshotRejected true
      (match countErr with Some e => Some e | None => Some ErrInvalidInput end)))
  else
    c ← client;
    fail_if (negb (same_drain c d)) (reject_drain c d activeStreams (CodeError CodeStaleSession ReasonStaleGeneration false None));;
    change (set_activeStreams activeStreams);;
    mret (makeDrainAckLocked c d DrainAccepted activeStreams false "").

Definition Client_DrainProgress (ctx : Context) (now : Z) (activeStreams : Z) (forcedClose : bool) : CM DrainErr DrainAck :=
  let bare {A} (m : CM error A) : CM DrainErr A := map_error (λ e, (zeroDrainAck, e)) m in
  bare (fail_if (no_ctx ctx) ErrInvalidInput);;
  bare (fail_if (MaxActiveStreams <? activeStreams)%Z ErrInvalidInput);;
  bare (check (canceled ctx));;
  bare (client_active now);;
  c ← client;
  match cs_drain c with
  | None => bare (mfail (CodeError CodeSessionConflict ReasonStaleGeneration false None))
  | Some d =>
      change (set_activeStreams activeStreams);;
      if cs_drainCompleted c then
        mret (makeDrainAckLocked c d (cs_drainStatus c) activeStreams (String.eqb (cs_drainStatus c) DrainForced) (cs_drainCode c))
      else if forcedClose then
        bare (fail_if (negb (activeStreams =? 0)%Z)
          (CodeError CodeInvalidInput ReasonSnapshotRejected false (Some (Foreign "forced drain must have zero active streams"))));;
        change (λ c, set_drainCompleted true (set_drainCode CodeDrainTimeout (set_drainStatus DrainForced c)));;
        mret (makeDrainAckLocked c d DrainForced 0 true CodeDrainTimeout)
      else if (activeStreams =? 0)%Z then
        change (λ c, set_drainCompleted true (set_drainCode "" (set_drainStatus DrainCompleted c)));;
        mret (makeDrainAckLocked c d DrainCompleted 0 false "")
      else if negb (time.Before now (dr_Deadline d)) then
        mfail (makeDrainAckLocked c d DrainProgress activeStreams false "", CodeError CodeDrainTimeout ReasonHeartbeatTimeout true None)
      else
        change (λ c, set_drainCode "" (set_drainStatus DrainProgress c));;
        mret (makeDrainAckLocked c d DrainProgress activeStreams false "")
  end.

(** CompleteDrain after its first look at the session: [None] is to go on and ask the drainer. *)
Definition CompleteDrain_begin (c : ClientSession) : option (error + DrainAck) :=
  match cs_drain c with
  | None => Some (inl (CodeError CodeSessionConflict ReasonStaleGeneration false None))
  | Some d =>
      if cs_drainCompleted c then
        Some (inr (makeDrainAckLocked c d (cs_drainStatus c) (cs_activeStreams c) (String.eqb (cs_drainStatus c) DrainForced) (cs_drainCode c)))
      else None
  end.

(** Then: [answer] is what ForceClose (with no streams left) or ActiveStreams returned. *)
Definition CompleteDrain_finish (ctx : Context) (now : Z) (force : bool) (answer : error + Z) : CM DrainErr DrainAck :=
  match answer with
  | inl e => mfail (zeroDrainAck, CodeError CodeDrainRejected ReasonSnapshotRejected true (Some e))
  | inr active => if force then Client_DrainProgress ctx now 0 true else Client_DrainProgress ctx now active false
  end.

(** ** Closing *)

Definition Client_Close (reason : string) (abortErr : option error) : CM error () :=
  fail_if (negb (ValidDisconnectReason reason)) ErrInvalidInput;;
  c ← client;
  if decide (cs_state c = SessionClosed) then mret ()
  else
    change (λ c, set_hasCandidate false (set_candidate zeroSnapshot (set_prepared None (set_disconnectReason reason (set_state SessionClosed c)))));;
    abortPrepared (cs_prepared c);;
    match (if is_set (cs_prepared c) then abortErr else None) with
    | Some e => mfail (CodeError CodeSnapshotRejected ReasonSnapshotRejected false (joinCleanup None (Some e)))
    | None => mret ()
    end.

Definition client_Disconnect (c : ClientSession) : Disconnect :=
  let reason := if String.eqb (cs_disconnectReason c) "" then ReasonProtocolClosed else cs_disconnectReason c in
  mkDisconnect (he_AccountID (cs_hello c)) (he_TunnelID (cs_hello c)) (he_ConnectorID (cs_hello c)) (we_SessionID (cs_welcome c))
    (he_ProcessGeneration (cs_hello c)) reason (retryable_reason reason) "".
