(* ===== verification/ClientSpec.v ===== *)
(** * What a client session guarantees

    The mutex applyMu keeps ApplySnapshot, ApplyDelta, MarkReadyContext and Close apart, and each of them releases the lock of
    the session while the applier works: a client is a step relation in which everything else may happen in between. *)
From S2P Require Import Prelude GoStd GoData GoNet GoEnc StateErr ConnProto ConnMessages Sessions ClientSession ConnExample.

#[local] Open Scope go_scope.

(** ** Taking a call apart *)

Section inversion.
Context {E : Type}.

Lemma client_inv w w' (r : E + ClientSession) : client w = (w', r) → w' = w ∧ r = inr w.1.
Proof. unfold client, mthen, mget, mret. by intros [= <- <-]. Qed.

Lemma change_inv f w w' (r : E + ()) : change f w = (w', r) → w' = (f w.1, w.2) ∧ r = inr ().
Proof. unfold change, mset. by intros [= <- <-]. Qed.

Lemma call_inv c w w' (r : E + ()) : call c w = (w', r) → w' = (w.1, c :: w.2) ∧ r = inr ().
Proof. unfold call, mset. by intros [= <- <-]. Qed.

Lemma abort_inv o w w' (r : E + ()) :
  abortPrepared o w = (w', r) → w' = (w.1, match o with Some h => Aborted h :: w.2 | None => w.2 end) ∧ r = inr ().
Proof. destruct o; [apply call_inv|]. destruct w. unfold abortPrepared, mret. by intros [= <- <-]. Qed.
End inversion.

Lemma map_error_inv {S E E' A} (f : E → E') (m : M S E A) s s' r :
  map_error f m s = (s', r) → ∃ r0, m s = (s', r0) ∧ r = match r0 with inl e => inl (f e) | inr a => inr a end.
Proof. unfold map_error. destruct (m s) as [s1 [e|a]]; intros [= <- <-]; eauto. Qed.

(** The session is closed for want of heartbeats. *)
Definition timed_out (c : ClientSession) : ClientSession := set_disconnectReason ReasonHeartbeatTimeout (set_state SessionClosed c).

(** Nothing is accepted: the session is closed, or was never welcomed. *)
Definition ended (c : ClientSession) : Prop := cs_state c = SessionClosed ∨ cs_state c = SessionNew.

Lemma client_active_inv now w w' r :
  client_active now w = (w', r) →
  (r = inr () ∧ w' = w ∧ cs_state w.1 ≠ SessionClosed ∧ cs_state w.1 ≠ SessionNew) ∨
  (∃ e, r = inl e ∧ (w' = w ∧ ended w.1 ∨ w' = (timed_out w.1, w.2))).
Proof.
  unfold ended, client_active, mthen, client, mget, mret, fail_if, mfail, change, mset, timed_out. simpl.
  repeat case_bool; simpl; intros [= <- <-]; to_prop; eauto 8.
Qed.

Ltac step_client :=
  match goal with
  | H : client _ = (_, _) |- _ => apply client_inv in H as [-> H]; try (injection H as H; subst)
  | H : change _ _ = (_, _) |- _ => apply change_inv in H as [-> H]; try discriminate H
  | H : call _ _ = (_, _) |- _ => apply call_inv in H as [-> H]; try discriminate H
  | H : abortPrepared _ _ = (_, _) |- _ => apply abort_inv in H as [-> H]; try discriminate H
  | H : client_active _ _ = (_, _) |- _ =>
      apply client_active_inv in H as [(H & -> & ? & ?)|(? & H & [[-> ?]| ->])]; try discriminate H
  | H : no_ack _ _ = (_, _) |- _ => unfold no_ack in H
  | H : map_error _ _ _ = (_, _) |- _ => apply map_error_inv in H as ([?|?] & H & ?)
  | _ => step_call
  end; simplify_eq/=.

Ltac split_client :=
  repeat first
    [ step_client
    | match goal with
      | H : (if ?c then _ else _) _ = (_, _) |- _ => destruct c eqn:?
      | H : (match ?o with _ => _ end) _ = (_, _) |- _ => destruct o eqn:?
      end ].

(** ** Steps that leave the configurations alone *)

(** The configurations of a session, what is prepared and what was done. *)
Definition core (w : Cli) : bool * Snapshot * bool * Snapshot * option nat * list Call :=
  (cs_hasActive w.1, cs_active w.1, cs_hasCandidate w.1, cs_candidate w.1, cs_prepared w.1, w.2).

Definition same_core {E A} (m : CM E A) : Prop := ∀ w w' r, m w = (w', r) → core w' = core w.

Ltac solve_core := intros w w' r Hm; unfold core, drain_refused, client_restore, timed_out in *; split_client; repeat case_bool; reflexivity.

Lemma AcceptWelcome_core now now2 x : same_core (AcceptWelcome now now2 x).
Proof. unfold AcceptWelcome. solve_core. Qed.

Lemma client_active_core now : same_core (client_active now).
Proof. solve_core. Qed.

Lemma Client_Heartbeat_core now clock : same_core (Client_Heartbeat now clock).
Proof. unfold Client_Heartbeat. solve_core. Qed.

Lemma AcceptHeartbeatAck_core now a : same_core (AcceptHeartbeatAck now a).
Proof. unfold AcceptHeartbeatAck. solve_core. Qed.

Lemma ApplyRenewal_core now a : same_core (ApplyRenewal now a).
Proof. unfold ApplyRenewal. solve_core. Qed.

Lemma HandleDrain_begin_core ctx now d : same_core (HandleDrain_begin ctx now d).
Proof. unfold HandleDrain_begin. solve_core. Qed.

Lemma HandleDrain_stop_failed_core d e : same_core (HandleDrain_stop_failed d e).
Proof. unfold HandleDrain_stop_failed. solve_core. Qed.

Lemma HandleDrain_count_core d n e : same_core (HandleDrain_count d n e).
Proof. unfold HandleDrain_count. solve_core. Qed.

Lemma Client_DrainProgress_core ctx now n forced : same_core (Client_DrainProgress ctx now n forced).
Proof. unfold Client_DrainProgress. solve_core. Qed.

(** ** The client as a step relation *)

(** Who holds applyMu: nobody, an apply whose applier works, or MarkReadyContext whose configuration is being activated. *)
Inductive Task :=
  | Idle
  | ApplyingSnapshot (x : Snapshot)
  | ApplyingDelta (x : Delta)
  | Activating (readiness : Readiness) (h : nat) (candidate : Snapshot).

Record Client := mkClient { cl_state : Cli; cl_task : Task }.

Section steps.
Context `{GoRuntime} `{GoUpper} `{NetURL} `{SHA256} `{WireJSON}.

(** A method that does not take applyMu. *)
Inductive free_call (w w' : Cli) : Prop :=
  | free_welcome now now2 x r : AcceptWelcome now now2 x w = (w', r) → free_call w w'
  | free_lease now r : client_active now w = (w', r) → free_call w w'
  | free_heartbeat now clock r : Client_Heartbeat now clock w = (w', r) → free_call w w'
  | free_heartbeat_ack now a r : AcceptHeartbeatAck now a w = (w', r) → free_call w w'
  | free_renewal now a r : ApplyRenewal now a w = (w', r) → free_call w w'
  | free_drain ctx now d r : HandleDrain_begin ctx now d w = (w', r) → free_call w w'
  | free_drain_failed d e r : HandleDrain_stop_failed d e w = (w', r) → free_call w w'
  | free_drain_count d n e r : HandleDrain_count d n e w = (w', r) → free_call w w'
  | free_drain_progress ctx now n forced r : Client_DrainProgress ctx now n forced w = (w', r) → free_call w w'.

(** The applier hands out a configuration it never handed out before. *)
Definition fresh (r : Staging) (log : list Call) : Prop := ∀ h, sg_prepared r = Some h → Prepared h ∉ log.

Inductive client_step : Client → Client → Prop :=
  | step_free w w' t : free_call w w' → client_step (mkClient w t) (mkClient w' t)
  | step_snapshot ctx now x w w' r :
      ApplySnapshot_begin ctx now x w = (w', r) →
      client_step (mkClient w Idle) (mkClient w' (match r with inr Preparing => ApplyingSnapshot x | _ => Idle end))
  | step_snapshot_commit now x a w w' r :
      fresh a w.2 → ApplySnapshot_commit now x a w = (w', r) →
      client_step (mkClient w (ApplyingSnapshot x)) (mkClient w' Idle)
  | step_delta ctx now x w w' r :
      (0 ≤ de_PreviousGeneration x < UInt64.max_value)%Z → ApplyDelta_begin ctx now x w = (w', r) →
      client_step (mkClient w Idle) (mkClient w' (match r with inr _ => ApplyingDelta x | _ => Idle end))
  | step_delta_commit now x a w w' r :
      fresh a w.2 → ApplyDelta_commit now x a w = (w', r) →
      client_step (mkClient w (ApplyingDelta x)) (mkClient w' Idle)
  | step_ready ctx now edge route origin w w' r :
      MarkReady_begin ctx now edge route origin w = (w', r) →
      client_step (mkClient w Idle) (mkClient w' (match r with inr (x, h, c) => Activating x h c | _ => Idle end))
  | step_ready_commit now x h c err ctxErr abortErr w w' r :
      MarkReady_commit now x h c err ctxErr abortErr w = (w', r) →
      client_step (mkClient w (Activating x h c)) (mkClient w' Idle)
  | step_close reason abortErr w w' r :
      Client_Close reason abortErr w = (w', r) → client_step (mkClient w Idle) (mkClient w' Idle).

(** *** The invariant *)

(** The generation is later than the active one. *)
Definition later (w : Cli) (generation : Z) : Prop := cs_hasActive w.1 = true → (sn_Generation (cs_active w.1) < generation)%Z.

Definition task_ok (w : Cli) (t : Task) : Prop :=
  match t with
  | Idle => True
  | ApplyingSnapshot x => later w (sn_Generation x)
  | ApplyingDelta x => later w (de_Generation x)
  | Activating x h c =>
      cs_hasCandidate w.1 = true ∧ cs_candidate w.1 = c ∧ cs_prepared w.1 = Some h ∧
      (rd_Generation x, rd_ContentHash x) = (sn_Generation c, sn_ContentHash c) ∧
      rd_EdgeReady x = true ∧ rd_RouteReady x = true ∧ rd_OriginReady x = true
  end.

(** Everything prepared is held, was activated or was aborted; what is held, activated or aborted was prepared. *)
Record log_ok (w : Cli) : Prop := {
  lo_settled : ∀ h, Prepared h ∈ w.2 → cs_prepared w.1 = Some h ∨ Activated h ∈ w.2 ∨ Aborted h ∈ w.2;
  lo_held : ∀ h, cs_prepared w.1 = Some h → Prepared h ∈ w.2;
  lo_done : ∀ h, Activated h ∈ w.2 ∨ Aborted h ∈ w.2 → Prepared h ∈ w.2;
}.

Record client_ok (k : Client) : Prop := {
  ck_candidate : cs_hasCandidate (cl_state k).1 = is_set (cs_prepared (cl_state k).1);
  ck_later : cs_hasCandidate (cl_state k).1 = true → later (cl_state k) (sn_Generation (cs_candidate (cl_state k).1));
  ck_log : log_ok (cl_state k);
  ck_task : task_ok (cl_state k) (cl_task k);
}.

Lemma free_core w w' : free_call w w' → core w' = core w.
Proof.
  destruct 1.
  - by eapply AcceptWelcome_core.
  - by eapply client_active_core.
  - by eapply Client_Heartbeat_core.
  - by eapply AcceptHeartbeatAck_core.
  - by eapply ApplyRenewal_core.
  - by eapply HandleDrain_begin_core.
  - by eapply HandleDrain_stop_failed_core.
  - by eapply HandleDrain_count_core.
  - by eapply Client_DrainProgress_core.
Qed.

(** The invariant is about the core only. *)
Lemma core_ok w w' t : core w' = core w → client_ok (mkClient w t) → client_ok (mkClient w' t).
Proof.
  destruct w as [c l], w' as [c' l']. unfold core. simpl. intros [= Ha Ha' Hc Hc' Hp Hl] [Kc Kl Kg Kt]. subst l'.
  constructor; simpl in *.
  - by rewrite Hc, Hp.
  - unfold later in *. simpl in *. by rewrite Hc, Hc', Ha, Ha'.
  - destruct Kg as [Hs Hh Hd]. constructor; simpl in *; rewrite ?Hp; done.
  - destruct t; unfold task_ok, later in *; simpl in *; by rewrite ?Ha, ?Ha', ?Hc, ?Hc', ?Hp.
Qed.

Lemma task_change w t t' : client_ok (mkClient w t) → task_ok w t' → client_ok (mkClient w t').
Proof. intros [Kc Kl Kg Kt] Ht. by constructor. Qed.

Lemma ApplySnapshot_begin_inv ctx now x w w' r :
  ApplySnapshot_begin ctx now x w = (w', r) →
  core w' = core w ∧
  (r = inr Preparing → (cs_hasCandidate w.1 = true → sn_Generation (cs_candidate w.1) < sn_Generation x)%Z ∧
     (cs_hasCandidate w.1 = false → later w (sn_Generation x))).
Proof.
  unfold ApplySnapshot_begin, later, core, timed_out. intros Hm. split_client; try done. all: split; [done|]; intros _; split; intros Hc.
  all: rewrite ?Hc, ?orb_true_r, ?orb_false_r, ?andb_true_l in *; try intros Ha; rewrite ?Ha in *; simpl in *; to_prop; lia.
Qed.

Lemma ApplyDelta_begin_inv ctx now x w w' r :
  ApplyDelta_begin ctx now x w = (w', r) →
  core w' = core w ∧ (r = inr () → cs_hasCandidate w.1 = false ∧ de_PreviousGeneration x = sn_Generation (cs_active w.1) ∧
    de_Generation x = UInt64.wrap (de_PreviousGeneration x + 1)).
Proof.
  unfold ApplyDelta_begin, core, timed_out. intros Hm. split_client; try done; to_prop; split; try done; intros; split_and!; congruence.
Qed.

Lemma MarkReady_begin_inv ctx now edge route origin w w' r :
  MarkReady_begin ctx now edge route origin w = (w', r) →
  core w' = core w ∧ (∀ x h c, r = inr (x, h, c) → task_ok w (Activating x h c)).
Proof.
  unfold MarkReady_begin, core, timed_out. intros Hm. split_client; (split; [congruence|]); intros x0 h0 c0 Hr; try discriminate Hr.
  injection Hr as <- <- <-. unfold readiness_of. simpl. to_prop. split_and!; try done; destruct edge, route, origin; done.
Qed.

(** What apply_commit does: the prepared configuration is aborted, or it becomes the candidate. *)
Lemma apply_commit_inv code now a stage ack w w' r :
  apply_commit code now a stage ack w = (w', r) →
  (∃ e, r = inl e ∧ (w'.1 = w.1 ∨ w'.1 = timed_out w.1) ∧
     w'.2 = match sg_prepared a with Some h => Aborted h :: Prepared h :: w.2 | None => w.2 end) ∨
  (∃ h, sg_prepared a = Some h ∧ w'.2 = Prepared h :: w.2 ∧ (cs_hasCandidate w.1 && is_set (cs_prepared w.1)) = false ∧
     w'.1 = set_state SessionAwaitingReady (set_readyGeneration 0 (set_prepared (Some h) (set_hasCandidate true (stage w.1)))) ∧
     cs_state w.1 ≠ SessionClosed ∧ r = inr (ack w'.1)).
Proof.
  unfold apply_commit, abortAndJoin. intros Hm. apply mthen_inv in Hm as [(e & Hm & ->)|(u & w1 & Hp & Hm)].
  { destruct (sg_prepared a); split_client. }
  assert (Hw1 : w1 = (w.1, match sg_prepared a with Some h => Prepared h :: w.2 | None => w.2 end)).
  { destruct (sg_prepared a), w; split_client; done. }
  subst w1. clear Hp. destruct (staging_failed code a) eqn:Ef.
  { split_client. left. eexists. split_and!; [done|by left|]. by destruct (sg_prepared a). }
  destruct (client_active now _) as [w2 [e|u']] eqn:Ea.
  - left. split_client; eexists; (split_and!; [done|by auto|]); by destruct (sg_prepared a).
  - split_client.
    + left. eexists. split_and!; [done|by left|]. by destruct (sg_prepared a).
    + right. unfold staging_failed in Ef. destruct (sg_err a) eqn:?; [by repeat case_match|]. destruct (sg_prepareErr a); [done|].
      destruct (sg_prepared a) as [h|]; [|done]. by exists h.
Qed.
(** *** The log *)

Lemma log_same c c' l : cs_prepared c' = cs_prepared c → log_ok (c, l) → log_ok (c', l).
Proof. intros Hp [Ls Lh Ld]. constructor; simpl in *; rewrite ?Hp; done. Qed.

Lemma log_dropped c l h : log_ok (c, l) → log_ok (c, Aborted h :: Prepared h :: l).
Proof.
  intros [Ls Lh Ld]. constructor; simpl in *.
  - intros k. rewrite !elem_of_cons. intros [?|[[= ->]|Hk]]; [done|auto|]. destruct (Ls k Hk) as [?|[?|?]]; auto.
  - intros k Hk. rewrite !elem_of_cons. auto.
  - intros k. rewrite !elem_of_cons. intros [[?|[?|?]]|[[= ->]|[?|?]]]; try done; auto.
Qed.

Lemma log_staged c c' l h :
  cs_prepared c = None → cs_prepared c' = Some h → log_ok (c, l) → log_ok (c', Prepared h :: l).
Proof.
  intros Hn Hs [Ls Lh Ld]. constructor; simpl in *; rewrite ?Hs.
  - intros k. rewrite !elem_of_cons. intros [[= ->]|Hk]; [auto|]. destruct (Ls k Hk) as [?|[?|?]]; [congruence|auto..].
  - intros k [= <-]. constructor.
  - intros k. rewrite !elem_of_cons. intros [[?|?]|[?|?]]; try done; auto.
Qed.

(** The held configuration is activated or aborted, and may be let go of. *)
Lemma log_settled c c' l h e :
  cs_prepared c = Some h → e = Activated h ∨ e = Aborted h → cs_prepared c' = Some h ∨ cs_prepared c' = None →
  log_ok (c, l) → log_ok (c', e :: l).
Proof.
  intros Hs He Hc' [Ls Lh Ld]. constructor; simpl in *.
  - intros k. rewrite !elem_of_cons. intros [?|Hk]; [destruct He; congruence|].
    destruct (Ls k Hk) as [Hk'|[?|?]]; auto. assert (k = h) as -> by congruence. destruct He; subst; auto.
  - intros k Hk. rewrite elem_of_cons. right. apply Lh. destruct Hc'; congruence.
  - intros k. rewrite !elem_of_cons. intros [[?|?]|[?|?]]; right; try (apply Ld; by auto); apply Lh; destruct He; congruence.
Qed.

(** *** Every step keeps the invariant *)

Lemma apply_commit_ok code now a stage ack w w' r t g :
  (∀ c, sn_Generation (cs_candidate (stage c)) = g ∧ cs_hasActive (stage c) = cs_hasActive c ∧ cs_active (stage c) = cs_active c) →
  client_ok (mkClient w t) → later w g → apply_commit code now a stage ack w = (w', r) → client_ok (mkClient w' Idle).
Proof.
  intros Hst Hok Hl Hm. destruct w as [c l], w' as [c' l'].
  apply apply_commit_inv in Hm. simpl in Hm. destruct Hm as [(e & _ & Hc & ->)|(h & Hp & -> & Hn & -> & _)].
  - apply (task_change _ t); [|done]. assert (Hok' : client_ok (mkClient (c', l) t)) by (destruct Hc as [->| ->]; by eapply (core_ok (c, l))).
    clear Hok Hc. destruct (sg_prepared a) as [h|]; [|done]. destruct Hok' as [Kc Kl Kg Kt]. constructor; simpl in *; try done.
    by apply log_dropped.
  - destruct (Hst c) as (Hg & Ha & Ha'). destruct Hok as [Kc Kl Kg Kt]. simpl in *. constructor; simpl; try done.
    + intros _. unfold later in *. simpl in *. by rewrite Hg, Ha, Ha'.
    + eapply log_staged; [|reflexivity|exact Kg]. destruct (cs_prepared c); [|done]. rewrite Kc in Hn. done.
Qed.

Lemma MarkReady_commit_ok now x h c err ctxErr abortErr w w' r :
  MarkReady_commit now x h c err ctxErr abortErr w = (w', r) → client_ok (mkClient w (Activating x h c)) → client_ok (mkClient w' Idle).
Proof.
  intros Hm [Kc Kl Kg (Hc & Hcand & Hp & _)]. destruct w as [s l]. simpl in *. unfold MarkReady_commit in Hm.
  assert (Hsame : same_candidate s c = true).
  { unfold same_candidate, names_snapshot. by rewrite Hc, Hcand, Z.eqb_refl, String.eqb_refl. }
  split_client; rewrite ?Hsame in *; try done; constructor; simpl; try done; try (eapply log_settled; eauto; fail).
  all: unfold later; simpl; try done.
Qed.

Lemma Client_Close_ok reason abortErr w w' r :
  Client_Close reason abortErr w = (w', r) → client_ok (mkClient w Idle) → client_ok (mkClient w' Idle).
Proof.
  intros Hm Hok. unfold Client_Close in Hm. split_client; try done; destruct Hok as [Kc Kl Kg Kt]; destruct w as [c l]; simpl in *;
    constructor; simpl; try done; destruct (cs_prepared c) as [h|] eqn:Ep; try (eapply log_settled; eauto; fail); (eapply log_same; [|exact Kg]; simpl; congruence).
Qed.

Lemma client_step_ok k k' : client_step k k' → client_ok k → client_ok k'.
Proof.
  destruct 1 as [w w' t Hf|ctx now x w w' r Hm|now x a w w' r Hf Hm|ctx now x w w' r Hx Hm|now x a w w' r Hf Hm|
    ctx now edge route origin w w' r Hm|now x h c err ctxErr abortErr w w' r Hm|reason abortErr w w' r Hm]; intros Hok.
  - by eapply core_ok, Hok; apply free_core.
  - apply ApplySnapshot_begin_inv in Hm as [Hcore Hr]. eapply (core_ok w); [done|]. apply (task_change _ Idle); [done|].
    destruct r as [e|[a|]]; [done..|]. destruct (Hr eq_refl) as [H1c H2c]. unfold task_ok.
    destruct (cs_hasCandidate w.1) eqn:Ec; [|by apply H2c]. intros Ha. pose proof (ck_later _ Hok Ec Ha). specialize (H1c eq_refl). simpl in *. lia.
  - eapply (apply_commit_ok _ _ _ _ _ _ _ _ _ (sn_Generation x)); [| |apply (ck_task _ Hok)|exact Hm]; done.
  - apply ApplyDelta_begin_inv in Hm as [Hcore Hr]. eapply (core_ok w); [done|]. apply (task_change _ Idle); [done|].
    destruct r as [e|[]]; [done|]. destruct (Hr eq_refl) as (Hc & Hprev & Hg). unfold task_ok, later. intros Ha.
    rewrite Hg, <-Hprev. unfold UInt64.wrap, UInt64.max_value in *. rewrite Z.mod_small; lia.
  - eapply (apply_commit_ok _ _ _ _ _ _ _ _ _ (de_Generation x)); [| |apply (ck_task _ Hok)|exact Hm]; done.
  - apply MarkReady_begin_inv in Hm as [Hcore Hr]. eapply (core_ok w); [done|]. apply (task_change _ Idle); [done|].
    destruct r as [e|[[x h] c]]; [done|]. by apply Hr.
  - by eapply MarkReady_commit_ok.
  - by eapply Client_Close_ok.
Qed.
(** *** What a step does to the active configuration *)

(** The active configuration and the log of activations stay, or the candidate was activated and took its place. *)
Definition activation (k k' : Client) : Prop :=
  ∃ x h c, cl_task k = Activating x h c ∧ (cl_state k').2 = Activated h :: (cl_state k).2 ∧
    rd_EdgeReady x = true ∧ rd_RouteReady x = true ∧ rd_OriginReady x = true ∧
    cs_hasCandidate (cl_state k).1 = true ∧ cs_candidate (cl_state k).1 = c ∧ Prepared h ∈ (cl_state k).2.

Definition same_active (k k' : Client) : Prop :=
  cs_hasActive (cl_state k').1 = cs_hasActive (cl_state k).1 ∧ cs_active (cl_state k').1 = cs_active (cl_state k).1.

Definition now_active (k' : Client) (c : Snapshot) : Prop :=
  cs_hasActive (cl_state k').1 = true ∧ cs_active (cl_state k').1 = c ∧ cs_state (cl_state k').1 = SessionReady.

Definition activations (k : Client) : list Call := List.filter (λ e, match e with Activated _ => true | _ => false end) (cl_state k).2.

Lemma core_active w w' t t' : core w' = core w → same_active (mkClient w t) (mkClient w' t') ∧ activations (mkClient w' t') = activations (mkClient w t).
Proof. unfold core, same_active, activations. destruct w, w'. simpl. by intros [= -> -> _ _ _ ->]. Qed.

Lemma apply_commit_active code now a stage ack w w' r t t' :
  (∀ c, cs_hasActive (stage c) = cs_hasActive c ∧ cs_active (stage c) = cs_active c) →
  apply_commit code now a stage ack w = (w', r) → same_active (mkClient w t) (mkClient w' t') ∧ activations (mkClient w' t') = activations (mkClient w t).
Proof.
  intros Hst Hm. destruct w as [c l], w' as [c' l']. apply apply_commit_inv in Hm. unfold same_active, activations. simpl in *.
  destruct Hm as [(e & _ & Hc & ->)|(h & Hp & -> & Hn & -> & _)].
  - split; [by destruct Hc as [->| ->]|]. by destruct (sg_prepared a).
  - by destruct (Hst c) as [-> ->].
Qed.

Lemma client_step_active k k' :
  client_step k k' → client_ok k →
  same_active k k' ∧ activations k' = activations k ∨
  activation k k' ∧ (same_active k k' ∧ ended (cl_state k').1 ∨ now_active k' (cs_candidate (cl_state k).1)).
Proof.
  destruct 1 as [w w' t Hf|ctx now x w w' r Hm|now x a w w' r Hf Hm|ctx now x w w' r Hx Hm|now x a w w' r Hf Hm|
    ctx now edge route origin w w' r Hm|now x h c err ctxErr abortErr w w' r Hm|reason abortErr w w' r Hm]; intros Hok.
  - left. by apply core_active, free_core.
  - left. apply ApplySnapshot_begin_inv in Hm as [? _]. by apply core_active.
  - left. eapply apply_commit_active; [|exact Hm]. done.
  - left. apply ApplyDelta_begin_inv in Hm as [? _]. by apply core_active.
  - left. eapply apply_commit_active; [|exact Hm]. done.
  - left. apply MarkReady_begin_inv in Hm as [? _]. by apply core_active.
  - destruct Hok as [Kc Kl Kg (Hc & Hcand & Hp & _ & He & Hr & Ho)]. destruct w as [s l]. simpl in *. unfold MarkReady_commit in Hm.
    assert (Hsame : same_candidate s c = true).
    { unfold same_candidate, names_snapshot. by rewrite Hc, Hcand, Z.eqb_refl, String.eqb_refl. }
    assert (Hin : Prepared h ∈ l) by by apply (lo_held _ Kg).
    destruct err as [e|].
    + left. split_client; by rewrite Hsame.
    + right. split; [exists x, h, c; split_client; by split_and!|]. split_client; rewrite ?Hsame in *; try done;
        first [ left; split; [done|unfold ended in *; simpl; by auto] | right; by split_and! ].
  - left. unfold Client_Close in Hm. split_client; try done; destruct (cs_prepared w.1); done.
Qed.
(** A step never goes back to an earlier generation. *)
Definition advances (k k' : Client) : Prop :=
  cs_hasActive (cl_state k).1 = true →
  cs_hasActive (cl_state k').1 = true ∧ (sn_Generation (cs_active (cl_state k).1) ≤ sn_Generation (cs_active (cl_state k').1))%Z.

Lemma client_step_advances k k' : client_step k k' → client_ok k → advances k k'.
Proof.
  intros Hstep Hok Ha. destruct (client_step_active _ _ Hstep Hok) as [[[-> ->] _]|[(x & h & c & _ & _ & _ & _ & _ & Hc & _) [[[-> ->] _]|(-> & -> & _)]]];
    try (split; [done|lia]). split; [done|]. pose proof (ck_later _ Hok Hc Ha). lia.
Qed.

Lemma client_steps_advance k k' : rtc client_step k k' → client_ok k → advances k k' ∧ client_ok k'.
Proof.
  induction 1 as [k|k k1 k2 Hstep _ IH]; intros Hok; [split; [intros ?; split; [done|lia]|done]|].
  pose proof (client_step_ok _ _ Hstep Hok) as Hok1. destruct (IH Hok1) as [Hadv Hok2]. split; [|done].
  intros Ha. destruct (client_step_advances _ _ Hstep Hok Ha) as [Ha1 Hle]. destruct (Hadv Ha1). split; [done|lia].
Qed.

(** The clients that can be reached from a new one. *)
Definition client_reach (hello : Hello) (k : Client) : Prop :=
  ∃ applyTimeout abortTimeout now c, NewClientSession hello applyTimeout abortTimeout now = inr c ∧ rtc client_step (mkClient (c, []) Idle) k.

Lemma client_reach_ok hello k : client_reach hello k → client_ok k.
Proof.
  intros (applyTimeout & abortTimeout & now & c & Hnew & Hr). eapply client_steps_advance; [exact Hr|].
  unfold NewClientSession in Hnew. case_bool; [done|]. destruct (Hello_Validate hello now); [done|]. injection Hnew as <-.
  constructor; simpl; try done. constructor; simpl; try done; set_solver.
Qed.

(** C14: a configuration is changed in two phases: in every client session, with heartbeats, renewals and drains
    interleaved at will, a candidate is there exactly when a prepared configuration is held; whatever the applier prepared is held,
    was activated or was aborted; the candidate is later than the active configuration, which never goes back to an earlier
    generation.  A step that activates does so after edge, routes and origin were all ready, and activates the candidate that was
    prepared; the active configuration changes only then, and to that candidate. *)
Theorem client_two_phase hello k (Hreach : client_reach hello k) :
  cs_hasCandidate (cl_state k).1 = is_set (cs_prepared (cl_state k).1) ∧
  (cs_hasCandidate (cl_state k).1 = true → later (cl_state k) (sn_Generation (cs_candidate (cl_state k).1))) ∧
  (∀ h, Prepared h ∈ (cl_state k).2 → cs_prepared (cl_state k).1 = Some h ∨ Activated h ∈ (cl_state k).2 ∨ Aborted h ∈ (cl_state k).2) ∧
  (∀ k', rtc client_step k k' → advances k k') ∧
  (∀ k', client_step k k' → activations k' ≠ activations k ∨ ¬ same_active k k' →
     activation k k' ∧ (same_active k k' ∧ ended (cl_state k').1 ∨ now_active k' (cs_candidate (cl_state k).1))).
Proof.
  pose proof (client_reach_ok _ _ Hreach) as Hok. split_and!.
  - apply (ck_candidate _ Hok).
  - apply (ck_later _ Hok).
  - apply (lo_settled _ (ck_log _ Hok)).
  - intros k' Hr. by apply client_steps_advance.
  - intros k' Hstep Hne. destruct (client_step_active _ _ Hstep Hok) as [[Hs Ha]|Hact]; [|done]. destruct Hne; [congruence|done].
Qed.
End steps.

(** ** A client at work *)

Definition ex_hello1 : Hello := ex_hello 1.

Definition run_cli {E A} (m : CM E A) (w : Cli) : Cli := (m w).1.

Definition ex_new : Cli := (match NewClientSession ex_hello1 0 0 ex_now with inr c => c | inl _ => mkClientSession ex_hello1 zeroWelcome SessionClosed
  (mkLease "" time.zero 0) (he_Auth ex_hello1) zeroSnapshot false zeroSnapshot false None false 0 time.zero None "" "" false 0 "" end, []).

Definition ex_welcomed : Cli := run_cli (AcceptWelcome ex_now ex_now (ex_welcome "session_1")) ex_new.

(** The applier prepares the configuration [h]. *)
Definition ex_staging (h : nat) : Staging := mkStaging (Some h) None None None None.

Definition ex_staged : Cli := run_cli (ApplySnapshot_commit ex_now (ex_first 1 3 "session_1") (ex_staging 7)) ex_welcomed.
Definition ex_readiness : Readiness := readiness_of ex_staged.1 true true true.
Definition ex_active : Cli := run_cli (MarkReady_commit ex_now ex_readiness 7 (cs_candidate ex_staged.1) None None None) ex_staged.

Definition ex_drain : Drain :=
  mkDrain "account_1" "tunnel_1" "connector_1" "session_1" 1 "drain_1" 3 (sn_ContentHash (ex_snapshot 3)) (ex_now + 60 * time.Second) true true.

Lemma ex_reach_new : client_reach ex_hello1 (mkClient ex_new Idle).
Proof. exists 0%Z, 0%Z, ex_now, ex_new.1. split; [vm_compute; reflexivity|apply rtc_refl]. Qed.

Lemma client_reach_step hello k k' : client_reach hello k → client_step k k' → client_reach hello k'.
Proof.
  intros (a & b & now & c & Hnew & Hr) Hstep. exists a, b, now, c. split; [done|]. by eapply rtc_r.
Qed.

Lemma ex_reach_welcomed : client_reach ex_hello1 (mkClient ex_welcomed Idle).
Proof.
  eapply client_reach_step; [exact ex_reach_new|]. apply step_free.
  apply (free_welcome _ ex_welcomed ex_now ex_now (ex_welcome "session_1") (inr ())). vm_compute. reflexivity.
Qed.

Lemma ex_step_begin : client_step (mkClient ex_welcomed Idle) (mkClient ex_welcomed (ApplyingSnapshot (ex_first 1 3 "session_1"))).
Proof. apply (step_snapshot ex_ctx ex_now (ex_first 1 3 "session_1") _ ex_welcomed (inr Preparing)). vm_compute. reflexivity. Qed.

Lemma ex_step_staged : client_step (mkClient ex_welcomed (ApplyingSnapshot (ex_first 1 3 "session_1"))) (mkClient ex_staged Idle).
Proof.
  eapply (step_snapshot_commit ex_now _ (ex_staging 7)); [|vm_compute; reflexivity]. intros h _ Hin. vm_compute in Hin. by inversion Hin.
Qed.

Lemma ex_step_ready : client_step (mkClient ex_staged Idle) (mkClient ex_staged (Activating ex_readiness 7 (cs_candidate ex_staged.1))).
Proof. apply (step_ready ex_ctx ex_now true true true _ ex_staged (inr (ex_readiness, 7%nat, cs_candidate ex_staged.1))). vm_compute. reflexivity. Qed.

Lemma ex_reach_staged : client_reach ex_hello1 (mkClient ex_staged Idle).
Proof. eauto using client_reach_step, ex_reach_welcomed, ex_step_begin, ex_step_staged. Qed.

Lemma ex_reach_activating :
  client_reach ex_hello1 (mkClient ex_staged (Activating ex_readiness 7 (cs_candidate ex_staged.1))).
Proof. eauto using client_reach_step, ex_reach_staged, ex_step_ready. Qed.

Lemma ex_step_active :
  client_step (mkClient ex_staged (Activating ex_readiness 7 (cs_candidate ex_staged.1))) (mkClient ex_active Idle).
Proof. eapply (step_ready_commit ex_now _ _ _ None None None). vm_compute. reflexivity. Qed.

Lemma client_two_phase_witness :
  now_active (mkClient ex_active Idle) (ex_first 1 3 "session_1").
Proof.
  destruct (client_two_phase ex_hello1 _ ex_reach_activating) as (_ & _ & _ & _ & Hact).
  destruct (Hact _ ex_step_active) as [_ [[_ Hend]|Hnow]]; [left; vm_compute; discriminate| |exact Hnow].
  exfalso. destruct Hend as [Hend|Hend]; vm_compute in Hend; discriminate Hend.
Defined.

(** ** Two flaws *)

(** A session that is closed while StopNewStreams runs is opened again when it fails: restoreStateLocked does not look at the state. *)
Theorem closed_client_reopens :
  ∃ k k', client_reach ex_hello1 k ∧ cs_state (cl_state k).1 = SessionClosed ∧ cs_disconnectReason (cl_state k).1 = ReasonServerShutdown ∧
    client_step k k' ∧ cs_state (cl_state k').1 = SessionReady.
Proof.
  set (draining := run_cli (HandleDrain_begin ex_ctx ex_now ex_drain) ex_active).
  set (closed := run_cli (Client_Close ReasonServerShutdown None) draining).
  exists (mkClient closed Idle), (mkClient (run_cli (HandleDrain_stop_failed ex_drain (Foreign "timeout")) closed) Idle). split_and!.
  - eapply client_reach_step; [eapply client_reach_step; [eapply client_reach_step; [exact ex_reach_activating|exact ex_step_active]|]|].
    + apply step_free. eapply (free_drain _ draining ex_ctx ex_now ex_drain). vm_compute. reflexivity.
    + eapply (step_close ReasonServerShutdown None). vm_compute. reflexivity.
  - vm_compute. reflexivity.
  - vm_compute. reflexivity.
  - apply step_free. eapply (free_drain_failed _ _ ex_drain (Foreign "timeout")). vm_compute. reflexivity.
  - vm_compute. reflexivity.
Qed.

(** When the session times out with a prepared configuration, Close reports success and never aborts it. *)
Theorem timed_out_client_leaks :
  ∃ k h, client_reach ex_hello1 k ∧ cs_prepared (cl_state k).1 = Some h ∧
    Client_Close ReasonServerShutdown None (cl_state k) = (cl_state k, inr ()) ∧
    (Aborted h ∉ (cl_state k).2) ∧ (Activated h ∉ (cl_state k).2).
Proof.
  set (late := run_cli (client_active (ex_now + time.Hour)) ex_staged).
  exists (mkClient late Idle), 7%nat. split_and!.
  - eapply client_reach_step; [exact ex_reach_staged|]. apply step_free. eapply (free_lease _ late (ex_now + time.Hour)). vm_compute. reflexivity.
  - vm_compute. reflexivity.
  - vm_compute. reflexivity.
  - intros Hin. vm_compute in Hin. by repeat (inversion Hin; clear Hin; subst; rename select (_ ∈ _) into Hin).
  - intros Hin. vm_compute in Hin. by repeat (inversion Hin; clear Hin; subst; rename select (_ ∈ _) into Hin).
Qed.
