(* ===== verification/Exchange.v ===== *)
(** * A connector and its server: the two sessions together

    Both ends of one session, with a network between them that may lose, repeat, delay and reorder messages and that carries
    those of other sessions too.  What the server serves was activated by the connector, what the connector activates was
    offered by the server, and when nothing fails the handshake ends with both serving the same configuration. *)
From S2P Require Import Prelude GoStd GoData GoNet GoEnc StateErr ConnProto ConnMessages Sessions ClientSession ConnExample.
From S2P Require Import SessionsSpec SessionLife ClientSpec.

#[local] Open Scope go_scope.

(** ** The welcome of a client stays *)

(** The session was welcomed, as [sessionID]. *)
Definition welcomed (sessionID : string) (w : Cli) : Prop := cs_state w.1 ≠ SessionNew ∧ we_SessionID (cs_welcome w.1) = sessionID.

Definition keeps_welcome {E A} (m : CM E A) : Prop := ∀ id w w' r, m w = (w', r) → welcomed id w → welcomed id w'.

Ltac solve_welcome :=
  intros id w w' r Hm [Hs Hw]; unfold welcomed, drain_refused, client_restore, timed_out, drop_candidate, client_promote in *; split_client;
  repeat case_bool; split_client; simpl in *; to_prop; try done; split; simpl; try done; repeat case_bool; done.

Section welcomes.
Context `{GoRuntime} `{GoUpper} `{NetURL} `{SHA256} `{WireJSON}.

Lemma AcceptWelcome_keeps now now2 x : keeps_welcome (AcceptWelcome now now2 x).
Proof. unfold AcceptWelcome. solve_welcome. Qed.
Lemma client_active_keeps now : keeps_welcome (client_active now).
Proof. solve_welcome. Qed.
Lemma Client_Heartbeat_keeps now clock : keeps_welcome (Client_Heartbeat now clock).
Proof. unfold Client_Heartbeat. solve_welcome. Qed.
Lemma AcceptHeartbeatAck_keeps now a : keeps_welcome (AcceptHeartbeatAck now a).
Proof. unfold AcceptHeartbeatAck. solve_welcome. Qed.
Lemma ApplyRenewal_keeps now a : keeps_welcome (ApplyRenewal now a).
Proof. unfold ApplyRenewal. solve_welcome. Qed.
Lemma HandleDrain_begin_keeps ctx now d : keeps_welcome (HandleDrain_begin ctx now d).
Proof. unfold HandleDrain_begin. solve_welcome. Qed.
Lemma HandleDrain_stop_failed_keeps d e : keeps_welcome (HandleDrain_stop_failed d e).
Proof. unfold HandleDrain_stop_failed. solve_welcome. Qed.
Lemma HandleDrain_count_keeps d n e : keeps_welcome (HandleDrain_count d n e).
Proof. unfold HandleDrain_count. solve_welcome. Qed.
Lemma Client_DrainProgress_keeps ctx now n forced : keeps_welcome (Client_DrainProgress ctx now n forced).
Proof. unfold Client_DrainProgress. solve_welcome. Qed.
Lemma ApplySnapshot_begin_keeps ctx now x : keeps_welcome (ApplySnapshot_begin ctx now x).
Proof. unfold ApplySnapshot_begin. solve_welcome. Qed.
Lemma ApplyDelta_begin_keeps ctx now x : keeps_welcome (ApplyDelta_begin ctx now x).
Proof. unfold ApplyDelta_begin. solve_welcome. Qed.
Lemma MarkReady_begin_keeps ctx now edge route origin : keeps_welcome (MarkReady_begin ctx now edge route origin).
Proof. unfold MarkReady_begin. solve_welcome. Qed.
Lemma MarkReady_commit_keeps now x h c err ctxErr abortErr : keeps_welcome (MarkReady_commit now x h c err ctxErr abortErr).
Proof. unfold MarkReady_commit. solve_welcome. Qed.
Lemma Client_Close_keeps reason abortErr : keeps_welcome (Client_Close reason abortErr).
Proof. unfold Client_Close. solve_welcome. Qed.

Lemma apply_commit_keeps code now a stage ack :
  (∀ c, cs_welcome (stage c) = cs_welcome c) → keeps_welcome (apply_commit code now a stage ack).
Proof.
  intros Hst id w w' r Hm [Hs Hw]. destruct (apply_commit_inv _ _ _ _ _ _ _ _ Hm) as [(e & _ & [Hc|Hc] & _)|(h & _ & _ & _ & Hc & _)];
    unfold welcomed; rewrite Hc; simpl; rewrite ?Hst; done.
Qed.

Lemma free_keeps w w' id : free_call w w' → welcomed id w → welcomed id w'.
Proof.
  destruct 1.
  - by eapply AcceptWelcome_keeps.
  - by eapply client_active_keeps.
  - by eapply Client_Heartbeat_keeps.
  - by eapply AcceptHeartbeatAck_keeps.
  - by eapply ApplyRenewal_keeps.
  - by eapply HandleDrain_begin_keeps.
  - by eapply HandleDrain_stop_failed_keeps.
  - by eapply HandleDrain_count_keeps.
  - by eapply Client_DrainProgress_keeps.
Qed.

Lemma client_step_keeps k k' id : client_step k k' → welcomed id (cl_state k) → welcomed id (cl_state k').
Proof.
  destruct 1; simpl; try (by apply free_keeps); intros Hw.
  - by eapply ApplySnapshot_begin_keeps.
  - match goal with Hm : _ _ _ _ _ = _ |- _ => by refine (apply_commit_keeps _ _ _ _ _ _ _ _ _ _ Hm Hw) end.
  - by eapply ApplyDelta_begin_keeps.
  - match goal with Hm : _ _ _ _ _ = _ |- _ => by refine (apply_commit_keeps _ _ _ _ _ _ _ _ _ _ Hm Hw) end.
  - by eapply MarkReady_begin_keeps.
  - by eapply MarkReady_commit_keeps.
  - by eapply Client_Close_keeps.
Qed.
End welcomes.

(** ** Both ends and what is known of the network *)

(** The server session, the client, the reports of readiness the client returned, the configurations it had active
    and those the server offered. *)
Record Exchange := mkExchange {
  xc_server : ServerSession; xc_client : Client; xc_reports : list Readiness; xc_activated : list Version; xc_offered : list Version;
}.

(** The configuration the client serves. *)
Definition serving (k : Client) : list Version :=
  if cs_hasActive (cl_state k).1 then [version_of (cs_active (cl_state k).1)] else [].

(** What the server waits to see acknowledged. *)
Definition offering (s : ServerSession) : list Version :=
  match ss_pendingSnapshot s with Some p => [version_of p] | None => [] end ++
  match ss_pendingDelta s with Some p => [delta_version p] | None => [] end.

(** A message that says it is of this session was sent in it; everything else may be made up. *)
Definition authentic_call (e : Exchange) (m : Method) : Prop :=
  match m with
  | MReadiness _ _ r => rd_SessionID r = sr_SessionID (ss_ref (xc_server e)) → r ∈ xc_reports e
  | _ => True
  end.

Definition authentic_task (e : Exchange) (t : Task) : Prop :=
  match t with
  | ApplyingSnapshot x => sn_SessionID x = sr_SessionID (ss_ref (xc_server e)) → version_of x ∈ xc_offered e
  | ApplyingDelta x => de_SessionID x = sr_SessionID (ss_ref (xc_server e)) → delta_version x ∈ xc_offered e
  | _ => True
  end.

Section exchange.
Context `{GoRuntime} `{GoUpper} `{NetURL} `{SHA256} `{WireJSON}.

Inductive exchange_step (cfg : ServerConfig) (e : Exchange) : Exchange → Prop :=
  | xc_call m reg reg' s ok :
      authentic_call e m → invoke cfg m (reg, xc_server e) = ((reg', s), ok) →
      exchange_step cfg e (mkExchange s (xc_client e) (xc_reports e) (xc_activated e) (offering s ++ xc_offered e))
  | xc_step k :
      client_step (xc_client e) k → authentic_task e (cl_task k) →
      exchange_step cfg e (mkExchange (xc_server e) k (xc_reports e) (serving k ++ xc_activated e) (xc_offered e))
  | xc_ready now x h c err ctxErr abortErr w w' r :
      xc_client e = mkClient w (Activating x h c) → MarkReady_commit now x h c err ctxErr abortErr w = (w', inr r) →
      exchange_step cfg e (mkExchange (xc_server e) (mkClient w' Idle) (r :: xc_reports e) (serving (mkClient w' Idle) ++ xc_activated e) (xc_offered e)).

(** The session as it is accepted, with a client that took the welcome. *)
Definition exchange_start (cfg : ServerConfig) (e : Exchange) : Prop :=
  ∃ ctx now p hello reg reg' s welcome snapshot k,
    Accept cfg ctx now p hello reg = (reg', inr (s, welcome, snapshot)) ∧
    client_reach hello k ∧ cl_task k = Idle ∧ cs_hasActive (cl_state k).1 = false ∧ cs_hasCandidate (cl_state k).1 = false ∧
    welcomed (sr_SessionID (ss_ref s)) (cl_state k) ∧ e = mkExchange s k [] [] [version_of snapshot].

Definition task_version (t : Task) : list Version :=
  match t with ApplyingSnapshot x => [version_of x] | ApplyingDelta x => [delta_version x] | _ => [] end.

Record exchange_ok (e : Exchange) : Prop := {
  eo_client : client_ok (xc_client e);
  eo_welcomed : welcomed (sr_SessionID (ss_ref (xc_server e))) (cl_state (xc_client e));
  eo_reports : ∀ r, r ∈ xc_reports e → (rd_Generation r, rd_ContentHash r) ∈ xc_activated e;
  eo_serving : ss_hasActive (xc_server e) = true → version_of (ss_active (xc_server e)) ∈ xc_activated e;
  eo_offering : offering (xc_server e) ⊆ xc_offered e;
  eo_task : task_version (cl_task (xc_client e)) ⊆ xc_offered e;
  eo_candidate : cs_hasCandidate (cl_state (xc_client e)).1 = true → version_of (cs_candidate (cl_state (xc_client e)).1) ∈ xc_offered e;
  eo_active : serving (xc_client e) ⊆ xc_activated e;
  eo_activated : xc_activated e ⊆ xc_offered e;
}.

(** The active configuration of a server session changes only by a report of readiness in its name. *)
Definition active_stays (w w' : Srv) : Prop := ss_hasActive w'.2 = ss_hasActive w.2 ∧ ss_active w'.2 = ss_active w.2.

Ltac solve_active :=
  split_call; unfold active_stays, stage, refuse, restoreStateLocked, withdraw_ready, close_session; repeat case_decide; repeat case_bool; done.

Lemma readiness_active ctx now x w w' r :
  HandleReadiness ctx now x w = (w', r) →
  active_stays w w' ∨ version_of (ss_active w'.2) = (rd_Generation x, rd_ContentHash x) ∧ rd_SessionID x = sr_SessionID (ss_ref w.2).
Proof.
  intros Hc. unfold HandleReadiness in Hc. split_call; try (by left); try (left; unfold active_stays, close_session; by case_decide).
  unfold promote, names_snapshot, matchesIdentity, bound_to in *. destruct (ss_hasCandidate w.2) eqn:Ec; [right|by left].
  to_prop. split; [|done]. unfold version_of. simpl. congruence.
Qed.

Lemma invoke_active cfg m w w' ok :
  invoke cfg m w = (w', ok) →
  active_stays w w' ∨
  (∃ ctx now r, m = MReadiness ctx now r ∧ version_of (ss_active w'.2) = (rd_Generation r, rd_ContentHash r) ∧
     rd_SessionID r = sr_SessionID (ss_ref w.2)).
Proof.
  intros Hc. destruct m; cbn [invoke] in Hc; apply outcome_inv in Hc as (res & Hc & _).
  2: { destruct (readiness_active _ _ _ _ _ _ Hc) as [?|[? ?]]; [by left|right; by eexists _, _, _]. }
  all: left.
  - unfold HandleAck, ack_snapshot, ack_delta in Hc. solve_active.
  - unfold OfferSnapshot, same_generation in Hc. solve_active.
  - unfold OfferDelta in Hc. solve_active.
  - unfold HandleHeartbeat in Hc. solve_active.
  - unfold BeginDrain in Hc. solve_active.
  - unfold HandleDrainAck in Hc. solve_active.
  - unfold Renew_begin in Hc. solve_active.
  - unfold Renew_finish in Hc. solve_active.
  - unfold CheckLease in Hc. solve_active.
  - unfold Close, closeLocked in Hc. solve_active.
Qed.

(** *** Steps of the client *)

Lemma ApplySnapshot_begin_session ctx now x w w' :
  ApplySnapshot_begin ctx now x w = (w', inr Preparing) → sn_SessionID x = we_SessionID (cs_welcome w.1).
Proof. unfold ApplySnapshot_begin, not_bound, bound_to. intros Hm. split_client; to_prop; done. Qed.

Lemma ApplyDelta_begin_session ctx now x w w' u :
  ApplyDelta_begin ctx now x w = (w', inr u) → de_SessionID x = we_SessionID (cs_welcome w.1).
Proof. unfold ApplyDelta_begin, not_bound, bound_to. intros Hm. split_client; to_prop; done. Qed.

(** What an apply works on was there before, or belongs to the session the client was welcomed to. *)
Lemma client_step_task k k' id :
  client_step k k' → welcomed id (cl_state k) →
  cl_task k' = cl_task k ∨
  match cl_task k' with ApplyingSnapshot x => sn_SessionID x = id | ApplyingDelta x => de_SessionID x = id | _ => True end.
Proof.
  destruct 1 as [w w' t Hf|ctx now x w w' r Hm| |ctx now x w w' r Hx Hm| |ctx now edge route origin w w' r Hm| |]; simpl; intros [_ <-]; auto.
  - right. destruct r as [e|[a|]]; try done. by apply ApplySnapshot_begin_session in Hm.
  - right. destruct r as [e|u]; try done. by apply ApplyDelta_begin_session in Hm.
  - right. by destruct r as [e|[[x h] c]].
Qed.

Lemma apply_commit_candidate code now a stage ack w w' r v :
  (∀ c, version_of (cs_candidate (stage c)) = v) → apply_commit code now a stage ack w = (w', r) → cs_hasCandidate w'.1 = true →
  cs_hasCandidate w.1 = true ∧ cs_candidate w'.1 = cs_candidate w.1 ∨ version_of (cs_candidate w'.1) = v.
Proof.
  intros Hst Hm Hc. destruct (apply_commit_inv _ _ _ _ _ _ _ _ Hm) as [(e & _ & [Hw|Hw] & _)|(h & _ & _ & _ & Hw & _)];
    rewrite Hw in *; simpl in *; auto.
Qed.

Lemma client_step_candidate k k' :
  client_step k k' → client_ok k → cs_hasCandidate (cl_state k').1 = true →
  cs_hasCandidate (cl_state k).1 = true ∧ cs_candidate (cl_state k').1 = cs_candidate (cl_state k).1 ∨
  version_of (cs_candidate (cl_state k').1) ∈ task_version (cl_task k).
Proof.
  assert (Hcore : ∀ w w', core w' = core w → cs_hasCandidate w'.1 = true → cs_hasCandidate w.1 = true ∧ cs_candidate w'.1 = cs_candidate w.1).
  { intros [c l] [c' l']. unfold core. simpl. intros [= _ _ -> -> _ _]. done. }
  destruct 1 as [w w' t Hf|ctx now x w w' r Hm|now x a w w' r Hf Hm|ctx now x w w' r Hx Hm|now x a w w' r Hf Hm|
    ctx now edge route origin w w' r Hm|now x h c err ctxErr abortErr w w' r Hm|reason abortErr w w' r Hm]; intros Hok Hc; simpl in *.
  - left. by eapply Hcore, Hc; apply free_core.
  - left. apply ApplySnapshot_begin_inv in Hm as [? _]. by eapply Hcore.
  - eapply (apply_commit_candidate _ _ _ _ _ _ _ _ (version_of x)) in Hm as [?|Hv]; [by left|right; rewrite Hv; constructor|done|done].
  - left. apply ApplyDelta_begin_inv in Hm as [? _]. by eapply Hcore.
  - eapply (apply_commit_candidate _ _ _ _ _ _ _ _ (delta_version x)) in Hm as [?|Hv]; [by left|right; rewrite Hv; constructor|done|done].
  - left. apply MarkReady_begin_inv in Hm as [? _]. by eapply Hcore.
  - left. destruct Hok as [_ _ _ (Hc0 & _)]. unfold MarkReady_commit in Hm.
    split_client; try done; destruct (same_candidate w.1 c); done.
  - left. unfold Client_Close in Hm. split_client; done.
Qed.

(** A report the client returns names what it has just activated. *)
Lemma MarkReady_commit_report now x h c err ctxErr abortErr w w' r :
  MarkReady_commit now x h c err ctxErr abortErr w = (w', inr r) → task_ok w (Activating x h c) →
  (rd_Generation r, rd_ContentHash r) ∈ serving (mkClient w' Idle).
Proof.
  unfold MarkReady_commit. intros Hm (_ & Hc & _ & Hv & _). split_client. unfold serving, version_of. simpl.
  apply list_elem_of_singleton. congruence.
Qed.

Lemma serving_step k k' offers :
  client_step k k' → client_ok k → serving k ⊆ offers →
  (cs_hasCandidate (cl_state k).1 = true → version_of (cs_candidate (cl_state k).1) ∈ offers) → serving k' ⊆ offers.
Proof.
  intros Hstep Hok Hs Hc. destruct (client_step_active _ _ Hstep Hok) as [[[Ha Ha'] _]|[(x & h & c & _ & _ & _ & _ & _ & Hcand & _) [[[Ha Ha'] _]|(Ha & Ha' & _)]]].
  1,2: unfold serving in *; by rewrite Ha, Ha'.
  unfold serving. rewrite Ha, Ha'. intros v Hv. apply list_elem_of_singleton in Hv as ->. by apply Hc.
Qed.

Lemma exchange_client_ok e k rs :
  exchange_ok e → client_step (xc_client e) k → authentic_task e (cl_task k) →
  (∀ r, r ∈ rs → (rd_Generation r, rd_ContentHash r) ∈ serving k ++ xc_activated e) →
  exchange_ok (mkExchange (xc_server e) k rs (serving k ++ xc_activated e) (xc_offered e)).
Proof.
  intros [Ec Ew Er Es Eo Et Ecd Ea Eac] Hstep Ht Hrs. assert (Hserv : serving k ⊆ xc_offered e).
  { eapply serving_step; [done..| |done]. set_solver. }
  constructor; simpl; try done.
  - by eapply client_step_ok.
  - by eapply client_step_keeps.
  - set_solver.
  - destruct (client_step_task _ _ _ Hstep Ew) as [->|Hid]; [done|]. unfold authentic_task in Ht.
    destruct (cl_task k); simpl; set_solver.
  - intros Hc. destruct (client_step_candidate _ _ Hstep Ec Hc) as [[Hc0 ->]|Hin]; [by apply Ecd|by apply Et].
  - set_solver.
  - set_solver.
Qed.

Lemma exchange_step_ok cfg e e' : exchange_step cfg e e' → exchange_ok e → exchange_ok e'.
Proof.
  intros Hstep Hok. pose proof Hok as [Ec Ew Er Es Eo Et Ecd Ea Eac].
  destruct Hstep as [m reg reg' s ok Hm Hc|k Hk Ht|now x h c err ctxErr abortErr w w' r Hcl Hm].
  - pose proof (invoke_tame _ _ _ _ _ Hc) as [Href _]. simpl in Href. constructor; simpl; rewrite ?Href; try done.
    2: intros v Hv; apply elem_of_app; by left.
    2,4: intros v Hv; apply elem_of_app; right; auto.
    2: intros Hcand; apply elem_of_app; right; auto.
    destruct (invoke_active _ _ _ _ _ Hc) as [[Ha Ha']|(ctx & now & r & -> & Hv & Hid)]; simpl in *.
    + by rewrite Ha, Ha'.
    + intros _. rewrite Hv. by apply Er, Hm.
  - apply exchange_client_ok; try done. set_solver.
  - apply exchange_client_ok; try done.
    + rewrite Hcl. by eapply step_ready_commit.
    + intros r0. rewrite elem_of_cons, elem_of_app. intros [->|Hin]; [left|right; by apply Er].
      rewrite Hcl in Ec. eapply MarkReady_commit_report; [exact Hm|exact (ck_task _ Ec)].
Qed.

Lemma exchange_start_ok cfg e : exchange_start cfg e → exchange_ok e.
Proof.
  intros (ctx & now & p & hello & reg & reg' & s & welcome & snapshot & k & Ha & Hk & Ht & Hact & Hcand & Hw & ->).
  pose proof (Accept_inv _ _ _ _ _ _ _ _ _ _ Ha) as (_ & _ & Hp & _).
  assert (Hs : ss_hasActive s = false ∧ ss_pendingDelta s = None).
  { unfold Accept in Ha. repeat case_match; simplify_eq; done. }
  constructor; simpl; try done; unfold offering, serving; rewrite ?Hp, ?Ht, ?Hact; try set_solver.
  - by apply client_reach_ok in Hk.
  - by destruct Hs as [-> _].
  - destruct Hs as [_ ->]. set_solver.
  - by rewrite Hcand.
Qed.

(** C11: the two ends of a session agree: whatever the network loses, repeats, delays or reorders, and whatever it carries of
    other sessions, a configuration the server serves was activated by the connector, and whatever the connector activated
    was offered by the server in this session, by generation and hash; only messages in the name of this session are assumed
    to be sent in it. *)
Theorem exchange_agrees cfg e0 e (Hstart : exchange_start cfg e0) (Hsteps : rtc (exchange_step cfg) e0 e) :
  (∀ x served g, Current (xc_server e) = Some (x, served, g) → version_of x ∈ xc_activated e) ∧
  (∀ v, v ∈ serving (xc_client e) → v ∈ xc_activated e) ∧
  (∀ v, v ∈ xc_activated e → v ∈ xc_offered e).
Proof.
  assert (Hok : exchange_ok e).
  { apply exchange_start_ok in Hstart. clear -Hstart Hsteps. induction Hsteps; [done|]. apply IHHsteps. by eapply exchange_step_ok. }
  split_and!.
  - intros x served g. unfold Current. destruct (ss_hasActive _) eqn:Ea; [|done]. intros [= <- _ _]. by apply (eo_serving _ Hok).
  - apply (eo_active _ Hok).
  - apply (eo_activated _ Hok).
Qed.
End exchange.

(** ** A run of both ends *)

Definition ex_start : Exchange :=
  mkExchange (ex_session 1 3 "session_1") (mkClient ex_welcomed Idle) [] [] [version_of (ex_first 1 3 "session_1")].

Lemma ex_started : exchange_start ex_server ex_start.
Proof.
  exists ex_ctx, ex_now, (ex_peers 1 3 "session_1"), ex_hello1, ∅, (ex_registry 1 "session_1"), (ex_session 1 3 "session_1"), (ex_welcome "session_1"),
    (ex_first 1 3 "session_1"), (mkClient ex_welcomed Idle).
  split_and!; [exact ex_accepted|exact ex_reach_welcomed|reflexivity..|split; [vm_compute; discriminate|reflexivity]|reflexivity].
Qed.

Definition ex_version : Version := version_of (ex_first 1 3 "session_1").

Definition ex_end : Exchange :=
  mkExchange ex_serving (mkClient ex_active Idle) [ex_ready] [ex_version] [ex_version].

Lemma ex_run : rtc (exchange_step ex_server) ex_start ex_end.
Proof.
  eapply rtc_l; [eapply xc_step; [exact ex_step_begin|intros _; constructor]|].
  eapply rtc_l; [eapply xc_step; [exact ex_step_staged|exact I]|].
  eapply rtc_l; [eapply xc_step; [exact ex_step_ready|exact I]|].
  eapply rtc_l; [eapply (xc_ready _ _ ex_now _ _ _ None None None _ ex_active ex_readiness); [reflexivity|vm_compute; reflexivity]|].
  eapply rtc_l; [eapply (xc_call _ _ (MAck ex_ctx ex_now ex_ack) (ex_registry 1 "session_1") (ex_registry 1 "session_1") ex_acked); [exact I|vm_compute; reflexivity]|].
  eapply rtc_l; [eapply (xc_call _ _ (MReadiness ex_ctx ex_now ex_ready) (ex_registry 1 "session_1") (ex_registry 1 "session_1") ex_serving);
    [intros _; constructor|vm_compute; reflexivity]|].
  apply rtc_refl.
Qed.

Lemma exchange_agrees_witness : Current (xc_server ex_end) = Some (ex_first 1 3 "session_1", true, 3%Z) ∧ ex_version ∈ xc_activated ex_end.
Proof.
  split; [vm_compute; reflexivity|].
  destruct (exchange_agrees ex_server ex_start ex_end ex_started ex_run) as [Hserved _].
  apply (Hserved (ex_first 1 3 "session_1") true 3%Z). vm_compute. reflexivity.
Defined.
