(* ===== verification/Handshake.v ===== *)
(** * The handshake ends

    An accepted process whose configuration is prepared and activated without an error ends up ready at both ends, with
    the same configuration, after one round of each message. *)
From S2P Require Import Prelude GoStd GoData GoNet GoEnc StateErr ConnProto ConnMessages Sessions ClientSession ConnExample.
From S2P Require Import SessionsSpec SessionLife ClientSpec.

#[local] Open Scope go_scope.

(** ** What an accepted session looks like *)

Lemma bad_false o : bad o = false ↔ o = None.
Proof. by destruct o. Qed.

Section accepted.
Context `{GoRuntime} `{GoUpper} `{NetURL} `{SHA256} `{WireJSON}.

Lemma Accept_explicit cfg ctx now p hello reg reg' s welcome snapshot :
  Accept cfg ctx now p hello reg = (reg', inr (s, welcome, snapshot)) →
  ∃ caps auth x lease,
    accept_checks cfg now p hello = inr (ProtocolVersion, caps, auth, x, lease) ∧
    welcome = mkWelcome ProtocolName ProtocolVersion (ls_SessionID lease) caps lease true now ∧
    snapshot = BindSnapshot x (he_AccountID hello) (he_ConnectorID hello) (ls_SessionID lease) (he_ProcessGeneration hello) ∧
    s = mkServerSession (mkSessionRef (he_TunnelID hello) (he_ConnectorID hello) (ls_SessionID lease) (he_ProcessGeneration hello)) auth lease
      welcome (Some snapshot) None zeroSnapshot false zeroSnapshot false 0 false SessionAwaitingSnapshot now time.zero None "" "" false "" ∧
    reg' = <[he_ConnectorID hello := ss_ref s]> reg.
Proof.
  unfold Accept. case_bool; [done|]. destruct (accept_checks _ _ _ _) as [|[[[[version caps] auth] x] lease]] eqn:Ec; [done|].
  destruct (Attach reg _) as [reg1 [e|replaced]] eqn:Ea; [done|]. apply Attach_inv in Ea as (_ & -> & _).
  intros [= <- <- <- <-]. exists caps, auth, x, lease.
  assert (version = ProtocolVersion) as ->; [|done].
  apply accept_checks_inv in Ec as (_ & Hv & _). unfold NegotiateVersion in Hv. repeat case_match; simplify_eq; done.
Qed.

(** A client that offered the capabilities agrees to those the server chose. *)
Lemma NegotiateCapabilities_again offered supported caps :
  NegotiateCapabilities offered supported = inr caps → NegotiateCapabilities offered caps = inr caps.
Proof.
  unfold NegotiateCapabilities. destruct (ValidateCapabilities offered) eqn:Eo; [done|]. destruct (ValidateCapabilities supported); [done|].
  destruct (ValidateCapabilities (List.filter _ offered)) eqn:Ev; [done|]. intros [= <-]. rewrite Ev.
  assert (Hf : List.filter (λ c, bool_decide (c ∈ List.filter (λ c, bool_decide (c ∈ supported)) offered)) offered =
    List.filter (λ c, bool_decide (c ∈ supported)) offered).
  { apply List.filter_ext_in. intros c Hc. apply bool_decide_ext. rewrite list_elem_of_In, filter_In, bool_decide_eq_true. naive_solver. }
  by rewrite Hf, Ev.
Qed.

(** A valid snapshot stays valid when it is bound to a session. *)
Lemma BindSnapshot_valid x account connector session process :
  Snapshot_Validate x = None → bad_id account = false → bad_id session = false →
  Snapshot_Validate (BindSnapshot x account connector session process) = None.
Proof.
  unfold Snapshot_Validate. simpl. intros Hx Ha Hs. rewrite Ha, Hs, !andb_false_r, !orb_false_r.
  match type of Hx with (if ?c then _ else _) = _ => destruct c eqn:Ec; [done|] end.
  repeat (apply orb_false_iff in Ec as [Ec ?]). repeat match goal with Hb : ?b = false |- context [?b] => rewrite Hb end. exact Hx.
Qed.
End accepted.

(** ** One call after the other *)

Ltac run_call := unfold mthen, mget, mset, mret, mfail, fail_if, check, client, change, call, session, update, no_ack, map_error; simpl.

(** A context that is not done. *)
Definition live : Context := Some None.

(** The client is open and its server was heard of. *)
Definition client_live (now : Z) (c : ClientSession) : Prop :=
  cs_state c ≠ SessionClosed ∧ cs_state c ≠ SessionNew ∧ heartbeat_late now (cs_lastHeartbeatAck c) (cs_lease c) = false.

Lemma client_active_run now w : client_live now w.1 → client_active now w = (w, inr ()).
Proof.
  intros (Hc & Hn & Hl). unfold client_active. run_call. rewrite !bool_decide_false by done. by rewrite Hl.
Qed.

(** The server session is the current one and its connector was heard of. *)
Definition server_live (now : Z) (w : Srv) : Prop :=
  ss_state w.2 ≠ SessionClosed ∧ current_ref w = true ∧ heartbeat_late now (ss_lastHeartbeat w.2) (ss_lease w.2) = false.

Lemma ensure_run now w : server_live now w → ensureActiveLocked now w = (w, inr ()).
Proof.
  intros (Hc & Hn & Hl). unfold ensureActiveLocked. run_call. rewrite bool_decide_false by done. rewrite Hn. simpl. by rewrite Hl.
Qed.

Lemma AcceptWelcome_run now now2 x w version caps :
  Welcome_Validate x now = None → cs_state w.1 = SessionNew → we_Version x = ProtocolVersion → we_Protocol x = ProtocolName →
  NegotiateVersion (he_MinVersion (cs_hello w.1)) (he_MaxVersion (cs_hello w.1)) = inr version →
  NegotiateCapabilities (he_Capabilities (cs_hello w.1)) (we_Capabilities x) = inr caps →
  AcceptWelcome now now2 x w =
    ((set_lastHeartbeatAck now2 (set_state SessionAwaitingSnapshot (set_lease (we_Lease x) (set_welcome x w.1))), w.2), inr ()).
Proof.
  intros Hx Hs Hv Hp Hn Hcap. unfold AcceptWelcome. run_call.
  rewrite Hx. simpl. rewrite bool_decide_true by done. simpl. rewrite Hv, Hp. simpl. rewrite Hn. simpl. rewrite Hcap. reflexivity.
Qed.

(** The applier prepares [h], without an error. *)
Definition prepares (h : nat) : Staging := mkStaging (Some h) None None None None.

(** The client with a staged configuration. *)
Definition staged_client (c : ClientSession) (x : Snapshot) (h : nat) : ClientSession :=
  set_state SessionAwaitingReady (set_readyGeneration 0 (set_prepared (Some h) (set_hasCandidate true
    (set_needsSnapshot false (set_candidate (snapshot_candidate c x) c))))).

Section run.
Context `{GoRuntime} `{GoUpper} `{NetURL} `{SHA256} `{WireJSON}.

Lemma ApplySnapshot_run now now2 x h w :
  Snapshot_Validate x = None → Snapshot_ValidateBound x = None → client_live now w.1 → client_live now2 w.1 →
  not_bound w.1 (sn_AccountID x) (sn_TunnelID x) (sn_ConnectorID x) (sn_SessionID x) (sn_ProcessGeneration x) = false →
  cs_hasActive w.1 = false → cs_hasCandidate w.1 = false →
  ApplySnapshot live now now2 x (prepares h) w =
    ((staged_client w.1 x h, Prepared h :: w.2), inr (client_ack w.1 AckSnapshot AckApplied (sn_Generation x) (sn_ContentHash x))).
Proof.
  intros Hx Hxb Hl Hl2 Hb Ha Hc. unfold ApplySnapshot, ApplySnapshot_begin, ApplySnapshot_commit, apply_commit. run_call.
  rewrite Hx. simpl. rewrite client_active_run by done. simpl.
  assert (Ht : (sn_TunnelID x =? he_TunnelID (cs_hello w.1)) = true).
  { unfold not_bound, bound_to in Hb. to_prop. by apply String.eqb_eq. }
  rewrite Ht. simpl. rewrite Hxb, Hb. simpl. rewrite Ha, Hc. simpl. rewrite client_active_run by done. simpl. rewrite Hc. done.
Qed.

(** The client that serves its candidate. *)
Lemma MarkReady_run now now2 h w :
  client_live now w.1 → client_live now2 w.1 → cs_hasCandidate w.1 = true → cs_prepared w.1 = Some h →
  MarkReadyContext live now now2 true true true None None None w =
    ((client_promote w.1, Activated h :: w.2), inr (readiness_of w.1 true true true)).
Proof.
  intros Hl Hl2 Hc Hp. unfold MarkReadyContext, MarkReady_begin, MarkReady_commit. run_call. rewrite client_active_run by done. simpl.
  rewrite Hc. simpl. rewrite Hp. simpl. rewrite client_active_run by done. simpl.
  unfold same_candidate, names_snapshot. by rewrite Hc, Z.eqb_refl, String.eqb_refl.
Qed.
End run.

Lemma HandleAck_run now a p w :
  Ack_Validate a = None → server_live now w → ss_pendingSnapshot w.2 = Some p →
  matchesIdentity w.2 (ak_AccountID a) (ak_TunnelID a) (ak_ConnectorID a) (ak_SessionID a) (ak_ProcessGeneration a) = true →
  acks a AckSnapshot (sn_Generation p) (sn_ContentHash p) = true → ak_Status a = AckApplied →
  HandleAck live now a w = ((w.1, stage p (with_needsSnapshot false (with_pendingSnapshot None w.2))), inr ()).
Proof.
  intros Ha Hl Hp Hm Hk Hs. unfold HandleAck, ack_snapshot. run_call. rewrite Ha. simpl. rewrite ensure_run by done. simpl.
  rewrite Hm. simpl. rewrite Hp. simpl. rewrite Hk. simpl. by rewrite Hs.
Qed.

Lemma HandleReadiness_run now x w :
  Readiness_Validate x = None → server_live now w →
  matchesIdentity w.2 (rd_AccountID x) (rd_TunnelID x) (rd_ConnectorID x) (rd_SessionID x) (rd_ProcessGeneration x) = true →
  ss_hasCandidate w.2 = true → names_snapshot (rd_Generation x) (rd_ContentHash x) (ss_candidate w.2) = true →
  rd_EdgeReady x = true → rd_RouteReady x = true → rd_OriginReady x = true →
  ∃ a, HandleReadiness live now x w = ((w.1, promote (rd_Generation x) w.2), inr a).
Proof.
  intros Hx Hl Hm Hc Hn He Hr Ho. eexists. unfold HandleReadiness. run_call. rewrite Hx. simpl. rewrite ensure_run by done. simpl.
  rewrite Hm. simpl. rewrite Hc, Hn. simpl. rewrite He, Hr, Ho. reflexivity.
Qed.

(** ** The whole handshake *)

Section handshake.
Context `{GoRuntime} `{GoUpper} `{NetURL} `{SHA256} `{WireJSON}.

(** The identifiers of an accepted session are well formed, and so is its first configuration. *)
Lemma accepted_valid cfg now p hello caps auth x lease :
  accept_checks cfg now p hello = inr (ProtocolVersion, caps, auth, x, lease) →
  any_bad_id [he_AccountID hello; he_TunnelID hello; he_ConnectorID hello; ls_SessionID lease] = false ∧ he_ProcessGeneration hello ≠ 0%Z ∧
  sn_TunnelID x = he_TunnelID hello ∧ au_AccountID auth = he_AccountID hello ∧ Snapshot_Validate x = None ∧
  sn_Generation x ≠ 0%Z ∧ ValidContentHash (sn_ContentHash x) = true.
Proof.
  intros (Hh & _ & _ & _ & _ & Hm & _ & Hx & Ht & Hl & _)%accept_checks_inv. unfold Hello_Validate in Hh.
  match type of Hh with (if ?c then _ else _) = _ => destruct c eqn:Eh; [done|] end. clear Hh.
  unfold Lease_Validate in Hl. match type of Hl with (if ?c then _ else _) = _ => destruct c eqn:El; [done|] end. clear Hl.
  pose proof Hx as Hx'. unfold Snapshot_Validate in Hx'. match type of Hx' with (if ?c then _ else _) = _ => destruct c eqn:Ex; [done|] end. clear Hx'.
  unfold accept_mismatch in Hm. cbn [any_bad_id existsb] in *. to_prop. split_and!; try done. by rewrite !orb_false_iff.
Qed.

(** The welcome is one the client takes. *)
Lemma welcome_valid now t caps lease supported offered :
  clocked now = true → bad_id (ls_SessionID lease) = false → NegotiateCapabilities offered supported = inr caps → Lease_Validate lease t = None →
  Welcome_Validate (mkWelcome ProtocolName ProtocolVersion (ls_SessionID lease) caps lease true now) t = None.
Proof.
  intros Hn Hid Hcap Hl. apply NegotiateCapabilities_ok in Hcap as [Hcap _]. unfold Welcome_Validate. simpl.
  unfold clocked in Hn. apply negb_true_iff in Hn. by rewrite Hid, Hcap, Hn, String.eqb_refl.
Qed.

(** The client of the process, once it was welcomed. *)
Definition welcomed_client (hello : Hello) (welcome : Welcome) (t : Z) : ClientSession :=
  mkClientSession hello welcome SessionAwaitingSnapshot (we_Lease welcome) (he_Auth hello) zeroSnapshot false zeroSnapshot false None false 0 t
    None "" "" false 0 "".

Lemma NewClientSession_welcomed hello applyTimeout abortTimeout t c welcome version caps :
  NewClientSession hello applyTimeout abortTimeout t = inr c → Welcome_Validate welcome t = None →
  we_Version welcome = ProtocolVersion → we_Protocol welcome = ProtocolName →
  NegotiateVersion (he_MinVersion hello) (he_MaxVersion hello) = inr version → NegotiateCapabilities (he_Capabilities hello) (we_Capabilities welcome) = inr caps →
  AcceptWelcome t t welcome (c, []) = ((welcomed_client hello welcome t, []), inr ()).
Proof.
  intros Hnew Hw Hv Hp Hn Hc. unfold NewClientSession in Hnew. match type of Hnew with (if ?q then _ else _) = _ => destruct q; [done|] end.
  destruct (Hello_Validate hello t); [done|]. injection Hnew as <-. by erewrite AcceptWelcome_run.
Qed.

(** The client stages and activates a configuration that is bound to its session. *)
Lemma client_half hello welcome t x h t1 t2 t3 t4 :
  (∀ t', t' ∈ [t1; t2; t3; t4] → heartbeat_late t' t (we_Lease welcome) = false) → Snapshot_Validate x = None → Snapshot_ValidateBound x = None →
  x = BindSnapshot x (he_AccountID hello) (he_ConnectorID hello) (we_SessionID welcome) (he_ProcessGeneration hello) →
  sn_TunnelID x = he_TunnelID hello →
  let c := welcomed_client hello welcome t in
  let w := (staged_client c x h, [Prepared h]) in
  ApplySnapshot live t1 t2 x (prepares h) (c, []) = (w, inr (client_ack c AckSnapshot AckApplied (sn_Generation x) (sn_ContentHash x))) ∧
  MarkReadyContext live t3 t4 true true true None None None w =
    ((client_promote w.1, [Activated h; Prepared h]), inr (readiness_of w.1 true true true)) ∧
  cs_candidate w.1 = x.
Proof.
  intros Ht Hx Hxb Hbind Htun c w.
  assert (Hl : ∀ t', t' ∈ [t1; t2; t3; t4] → client_live t' c ∧ client_live t' w.1) by (intros t' Hin; split; (split_and!; try done; by apply Ht)).
  split_and!.
  - apply ApplySnapshot_run; try done; try (apply Hl; set_solver). unfold not_bound, bound_to. rewrite Hbind. simpl.
    by rewrite Htun, !String.eqb_refl, Z.eqb_refl.
  - apply MarkReady_run; try done; apply Hl; set_solver.
  - done.
Qed.

(** The server takes the acknowledgement and the report of readiness of what it offered. *)
Lemma server_half s reg x u1 u2 ack report :
  server_live u1 (reg, s) → server_live u2 (reg, s) → ss_pendingSnapshot s = Some x → ss_hasActive s = false → ss_pendingDelta s = None →
  Ack_Validate ack = None → Readiness_Validate report = None →
  matchesIdentity s (ak_AccountID ack) (ak_TunnelID ack) (ak_ConnectorID ack) (ak_SessionID ack) (ak_ProcessGeneration ack) = true →
  matchesIdentity s (rd_AccountID report) (rd_TunnelID report) (rd_ConnectorID report) (rd_SessionID report) (rd_ProcessGeneration report) = true →
  acks ack AckSnapshot (sn_Generation x) (sn_ContentHash x) = true → ak_Status ack = AckApplied →
  names_snapshot (rd_Generation report) (rd_ContentHash report) x = true →
  rd_EdgeReady report = true → rd_RouteReady report = true → rd_OriginReady report = true →
  ∃ s1 s2 reply,
    HandleAck live u1 ack (reg, s) = ((reg, s1), inr ()) ∧ HandleReadiness live u2 report (reg, s1) = ((reg, s2), inr reply) ∧
    ss_state s2 = SessionReady ∧ Current s2 = Some (x, true, sn_Generation x).
Proof.
  intros Hl1 Hl2 Hp Ha Hd Hav Hrv Him Hir Hk Hs Hn He Hr Ho.
  set (s1 := stage x (with_needsSnapshot false (with_pendingSnapshot None s))).
  assert (Hs1 : s1 = with_state SessionAwaitingReady (with_hasCandidate true (with_candidate x (with_needsSnapshot false (with_pendingSnapshot None s))))).
  { unfold s1, stage, active_ready. simpl. by rewrite Ha. }
  destruct (HandleReadiness_run u2 report (reg, s1)) as [reply Hrep]; try done; try (by rewrite Hs1).
  { destruct Hl2 as (Hop & Hcur & Hlate). rewrite Hs1. by split_and!. }
  exists s1, (promote (rd_Generation report) s1), reply. split_and!; try done; [by apply HandleAck_run|].
  unfold Current, promote. rewrite Hs1. simpl. apply andb_true_iff in Hn as [Hg%Z.eqb_eq _]. by rewrite Hg, Z.eqb_refl.
Qed.

(** C12: the handshake ends with both ends ready: when a process is accepted, its client takes the welcome, the applier prepares and
    activates the first configuration without an error and no heartbeat is overdue, then each call of one
    round (ApplySnapshot, HandleAck, MarkReadyContext, HandleReadiness) succeeds, the client and the server session are both
    in the ready state, and both serve exactly the configuration that was offered, which was prepared and activated once. *)
Theorem handshake_serves cfg now p hello reg reg' s welcome snapshot applyTimeout abortTimeout c t t1 t2 t3 t4 u1 u2 h
    (Haccept : Accept cfg live now p hello reg = (reg', inr (s, welcome, snapshot))) (Hclock : clocked now = true)
    (Hnew : NewClientSession hello applyTimeout abortTimeout t = inr c) (Hlease : Lease_Validate (we_Lease welcome) t = None)
    (Hclient : ∀ t', t' ∈ [t1; t2; t3; t4] → heartbeat_late t' t (we_Lease welcome) = false)
    (Hserver : ∀ u, u ∈ [u1; u2] → heartbeat_late u now (we_Lease welcome) = false) :
  ∃ w1 w2 w3 ack report s1 s2 reply,
    AcceptWelcome t t welcome (c, []) = (w1, inr ()) ∧
    ApplySnapshot live t1 t2 snapshot (prepares h) w1 = (w2, inr ack) ∧
    HandleAck live u1 ack (reg', s) = ((reg', s1), inr ()) ∧
    MarkReadyContext live t3 t4 true true true None None None w2 = (w3, inr report) ∧
    HandleReadiness live u2 report (reg', s1) = ((reg', s2), inr reply) ∧
    ss_state s2 = SessionReady ∧ Current s2 = Some (snapshot, true, sn_Generation snapshot) ∧
    cs_state w3.1 = SessionReady ∧ cs_hasActive w3.1 = true ∧ cs_active w3.1 = snapshot ∧ w3.2 = [Activated h; Prepared h].
Proof.
  pose proof (Accept_inv _ _ _ _ _ _ _ _ _ _ Haccept) as (_ & _ & _ & _ & Hvalid & _ & _).
  apply Accept_explicit in Haccept as (caps & auth & x & lease & Hc & -> & -> & -> & ->). simpl in Hvalid.
  pose proof (accepted_valid _ _ _ _ _ _ _ _ Hc) as (Hids & Hproc & Htun & Hacc & Hx & Hgen & Hhash).
  apply accept_checks_inv in Hc as (_ & Hv & Hcaps & _). apply Z.eqb_neq in Hproc, Hgen.
  pose proof Hids as Hall. cbn [any_bad_id existsb] in Hids. rewrite !orb_false_iff in Hids. destruct Hids as (Hid1 & Hid2 & Hid3 & Hid4 & _).
  set (x' := BindSnapshot x (he_AccountID hello) (he_ConnectorID hello) (ls_SessionID lease) (he_ProcessGeneration hello)) in *.
  assert (Hx' : Snapshot_Validate x' = None) by by apply BindSnapshot_valid.
  assert (Hb' : Snapshot_ValidateBound x' = None).
  { unfold Snapshot_ValidateBound, Snapshot_validateBinding, x'. simpl. destruct (sn_validated x); [done|].
    rewrite Hid1, Hid3, Hid4, Hproc. done. }
  set (welcome := mkWelcome _ _ _ _ _ _ _) in *.
  destruct (client_half hello welcome t x' h t1 t2 t3 t4) as (Happly & Hready & Hcand); try done.
  match goal with |- context [HandleAck live u1 _ (?r, ?s0)] => set (s := s0) in *; set (reg' := r) in * end.
  assert (Hlive : ∀ u, u ∈ [u1; u2] → server_live u (reg', s)).
  { intros u Hu. split_and!; [done| |by apply Hserver]. apply current_ref_true; [done|]. apply lookup_insert_eq. }
  destruct (server_half s reg' x' u1 u2 (client_ack (welcomed_client hello welcome t) AckSnapshot AckApplied (sn_Generation x') (sn_ContentHash x'))
    (readiness_of (staged_client (welcomed_client hello welcome t) x' h) true true true)) as (s1 & s2 & reply & Hack & Hrep & Hst & Hcur);
    try done; try (apply Hlive; set_solver).
  1,2: unfold Ack_Validate, Readiness_Validate; simpl; by rewrite Hid1, Hid2, Hid3, Hid4, Hproc, Hgen, Hhash.
  1,2: unfold matchesIdentity, bound_to; simpl; by rewrite Hacc, !String.eqb_refl, Z.eqb_refl.
  1,2: unfold acks, names_snapshot; simpl; by rewrite !String.eqb_refl, Z.eqb_refl.
  eexists _, _, _, _, _, s1, s2, reply. split_and!; try exact Happly; try exact Hready; try done.
  eapply NewClientSession_welcomed; [exact Hnew|by eapply welcome_valid|done|done|exact Hv|by eapply NegotiateCapabilities_again].
Qed.
End handshake.

Lemma handshake_serves_witness :
  ∃ w1 w2 w3 ack report s1 s2 reply,
    AcceptWelcome ex_now ex_now (ex_welcome "session_1") (ex_new.1, []) = (w1, inr ()) ∧
    ApplySnapshot live ex_now ex_now (ex_first 1 3 "session_1") (prepares 7) w1 = (w2, inr ack) ∧
    HandleAck live ex_now ack (ex_registry 1 "session_1", ex_session 1 3 "session_1") = ((ex_registry 1 "session_1", s1), inr ()) ∧
    MarkReadyContext live ex_now ex_now true true true None None None w2 = (w3, inr report) ∧
    HandleReadiness live ex_now report (ex_registry 1 "session_1", s1) = ((ex_registry 1 "session_1", s2), inr reply) ∧
    ss_state s2 = SessionReady ∧ Current s2 = Some (ex_first 1 3 "session_1", true, 3%Z) ∧
    cs_state w3.1 = SessionReady ∧ cs_hasActive w3.1 = true ∧ cs_active w3.1 = ex_first 1 3 "session_1" ∧ w3.2 = [Activated 7; Prepared 7].
Proof.
  apply (handshake_serves ex_server ex_now (ex_peers 1 3 "session_1") ex_hello1 ∅ (ex_registry 1 "session_1") (ex_session 1 3 "session_1")
    (ex_welcome "session_1") (ex_first 1 3 "session_1") 0 0 ex_new.1 ex_now ex_now ex_now ex_now ex_now ex_now ex_now 7).
  - exact ex_accepted.
  - reflexivity.
  - vm_compute. reflexivity.
  - vm_compute. reflexivity.
  - intros t' Ht. assert (t' = ex_now) as -> by set_solver. vm_compute. reflexivity.
  - intros u Hu. assert (u = ex_now) as -> by set_solver. vm_compute. reflexivity.
Defined.
