(* ===== verification/Rotation.v ===== *)
(** * Credential rotation: src/shared/connectorprotocol/rotation.go

    The plan of a rotation and its messages, with their checks.  Times are instants; the source compares two of
    them with == and the others with Equal. *)
From S2P Require Import Prelude GoStd GoData GoNet GoEnc ConnProto ConnMessages.

Definition MaxRotationTargets : Z := 256.
Definition MaxRotationMessage : Z := 512.
Definition MaxRotationCredentialLifetime : Z := (5 * 365 * 24 * time.Hour)%Z.

(** ** Records *)

Inductive RotationTargetState :=
  | RotationTargetPending | RotationTargetChallenged | RotationTargetInstalled | RotationTargetReady | RotationTargetRevoking
  | RotationTargetRevoked | RotationTargetFailed
  | OtherTargetState (s : string).

#[export] Instance RotationTargetState_eq_dec : EqDecision RotationTargetState.
Proof. solve_decision. Defined.

Definition ValidRotationTargetState (state : RotationTargetState) : bool :=
  match state with OtherTargetState _ => false | _ => true end.

Record RotationTarget := mkRotationTarget {
  rt_ConnectorID : string; rt_HostID : string; rt_OldCredentialGeneration : Z; rt_NewCredentialGeneration : Z;
}.

#[export] Instance RotationTarget_eq_dec : EqDecision RotationTarget.
Proof. solve_decision. Defined.

Record RotationPlan := mkRotationPlan {
  rp_AccountID : string; rp_TunnelID : string; rp_OperationID : string; rp_TargetSetHash : string;
  rp_Targets : list RotationTarget;
}.

#[export] Instance RotationPlan_eq_dec : EqDecision RotationPlan.
Proof. solve_decision. Defined.

Record rotationPlanDocument := mkRotationPlanDocument {
  rpd_Protocol : string; rpd_Version : string; rpd_AccountID : string; rpd_TunnelID : string;
  rpd_OperationID : string; rpd_Targets : list RotationTarget;
}.

#[export] Instance rotationPlanDocument_eq_dec : EqDecision rotationPlanDocument.
Proof. solve_decision. Defined.

Record CredentialRotationChallenge := mkCredentialRotationChallenge {
  rc_AccountID : string; rc_TunnelID : string; rc_OperationID : string; rc_ConnectorID : string; rc_HostID : string;
  rc_SessionID : string; rc_ProcessGeneration : Z; rc_TargetSetHash : string; rc_Target : RotationTarget;
  rc_OldCredentialGeneration : Z; rc_NewCredentialGeneration : Z; rc_OldIdentityKeyID : string;
  rc_OldIdentityKeyThumbprint : string; rc_ChallengeNonce : string; rc_IssuedAt : Z; rc_ExpiresAt : Z;
  rc_OverlapUntil : Z; rc_NewCredentialValidUntil : Z;
}.

#[export] Instance CredentialRotationChallenge_eq_dec : EqDecision CredentialRotationChallenge.
Proof. solve_decision. Defined.

Record CredentialRotationProof := mkCredentialRotationProof {
  pf_AccountID : string; pf_TunnelID : string; pf_OperationID : string; pf_ConnectorID : string; pf_HostID : string;
  pf_SessionID : string; pf_ProcessGeneration : Z; pf_TargetSetHash : string; pf_OldCredentialGeneration : Z;
  pf_NewCredentialGeneration : Z; pf_OldIdentityKeyID : string; pf_OldIdentityKeyThumbprint : string;
  pf_NewIdentityKeyID : string; pf_NewIdentityKeyThumbprint : string; pf_NewPublicKey : string;
  pf_NewCredentialReference : string; pf_ChallengeNonce : string; pf_IssuedAt : Z; pf_NewCredentialValidUntil : Z;
  pf_OldSignedProof : string; pf_NewSignedProof : string;
}.

#[export] Instance CredentialRotationProof_eq_dec : EqDecision CredentialRotationProof.
Proof. solve_decision. Defined.

Record rotationProofTranscript := mkRotationProofTranscript {
  rx_Domain : string; rx_Protocol : string; rx_Version : string; rx_AccountID : string; rx_TunnelID : string;
  rx_OperationID : string; rx_ConnectorID : string; rx_HostID : string; rx_SessionID : string;
  rx_ProcessGeneration : Z; rx_TargetSetHash : string; rx_OldCredentialGeneration : Z;
  rx_NewCredentialGeneration : Z; rx_OldIdentityKeyID : string; rx_OldIdentityKeyThumbprint : string;
  rx_NewIdentityKeyID : string; rx_NewIdentityKeyThumbprint : string; rx_NewPublicKey : string;
  rx_NewCredentialReference : string; rx_ChallengeNonce : string; rx_IssuedAt : Z; rx_NewCredentialValidUntil : Z;
}.

#[export] Instance rotationProofTranscript_eq_dec : EqDecision rotationProofTranscript.
Proof. solve_decision. Defined.

Record CredentialRotationInstall := mkCredentialRotationInstall {
  it_AccountID : string; it_TunnelID : string; it_OperationID : string; it_ConnectorID : string; it_HostID : string;
  it_SessionID : string; it_ProcessGeneration : Z; it_TargetSetHash : string; it_OldCredentialGeneration : Z;
  it_NewCredentialGeneration : Z; it_NewIdentityKeyID : string; it_NewIdentityKeyThumbprint : string;
  it_NewPublicKey : string; it_NewCredentialReference : string; it_ChallengeNonce : string; it_OverlapUntil : Z;
  it_NewCredentialValidUntil : Z; it_ReplacementProcessGeneration : Z;
}.

#[export] Instance CredentialRotationInstall_eq_dec : EqDecision CredentialRotationInstall.
Proof. solve_decision. Defined.

Record CredentialRotationReady := mkCredentialRotationReady {
  rr_AccountID : string; rr_TunnelID : string; rr_OperationID : string; rr_ConnectorID : string; rr_HostID : string;
  rr_SessionID : string; rr_PreviousSessionID : string; rr_ProcessGeneration : Z; rr_TargetSetHash : string;
  rr_OldCredentialGeneration : Z; rr_NewCredentialGeneration : Z; rr_NewIdentityKeyID : string;
  rr_NewIdentityKeyThumbprint : string; rr_NewPublicKey : string; rr_NewCredentialReference : string;
  rr_NewCredentialValidUntil : Z; rr_ConfigGeneration : Z; rr_ConfigContentHash : string; rr_EdgeReady : bool;
  rr_RouteReady : bool; rr_OriginReady : bool; rr_ReadyAt : Z;
}.

#[export] Instance CredentialRotationReady_eq_dec : EqDecision CredentialRotationReady.
Proof. solve_decision. Defined.

Record CredentialRotationRevoke := mkCredentialRotationRevoke {
  rv_AccountID : string; rv_TunnelID : string; rv_OperationID : string; rv_ConnectorID : string; rv_HostID : string;
  rv_SessionID : string; rv_ProcessGeneration : Z; rv_TargetSetHash : string; rv_OldCredentialGeneration : Z;
  rv_NewCredentialGeneration : Z; rv_RevokeNonce : string; rv_IssuedAt : Z; rv_Deadline : Z;
}.

#[export] Instance CredentialRotationRevoke_eq_dec : EqDecision CredentialRotationRevoke.
Proof. solve_decision. Defined.

Record CredentialRotationAck := mkCredentialRotationAck {
  ra_AccountID : string; ra_TunnelID : string; ra_OperationID : string; ra_ConnectorID : string; ra_HostID : string;
  ra_SessionID : string; ra_ProcessGeneration : Z; ra_TargetSetHash : string; ra_OldCredentialGeneration : Z;
  ra_NewCredentialGeneration : Z; ra_Status : string; ra_Code : string; ra_Message : string;
}.

#[export] Instance CredentialRotationAck_eq_dec : EqDecision CredentialRotationAck.
Proof. solve_decision. Defined.

Record RotationTargetSummary := mkRotationTargetSummary {
  ts_Target : RotationTarget; ts_State : RotationTargetState; ts_Code : string;
}.

#[export] Instance RotationTargetSummary_eq_dec : EqDecision RotationTargetSummary.
Proof. solve_decision. Defined.

Record RotationSummary := mkRotationSummary {
  su_AccountID : string; su_TunnelID : string; su_OperationID : string; su_TargetSetHash : string;
  su_Status : string; su_Targets : list RotationTargetSummary; su_CompletedAt : Z;
}.

#[export] Instance RotationSummary_eq_dec : EqDecision RotationSummary.
Proof. solve_decision. Defined.

Record RotationResumeTarget := mkRotationResumeTarget {
  ro_Target : RotationTarget; ro_State : RotationTargetState; ro_Code : string; ro_OverlapUntil : Z;
  ro_NewCredentialValidUntil : Z; ro_Challenge : CredentialRotationChallenge; ro_Proof : CredentialRotationProof;
  ro_Install : CredentialRotationInstall; ro_Ready : CredentialRotationReady; ro_Revoke : CredentialRotationRevoke;
}.

#[export] Instance RotationResumeTarget_eq_dec : EqDecision RotationResumeTarget.
Proof. solve_decision. Defined.

Record RotationResume := mkRotationResume {
  re_Plan : RotationPlan; re_Started : bool; re_FinishedAt : Z; re_Targets : list RotationResumeTarget;
}.

#[export] Instance RotationResume_eq_dec : EqDecision RotationResume.
Proof. solve_decision. Defined.

Record rotationTargetState := mkRotationTargetState {
  tg_target : RotationTarget; tg_state : RotationTargetState; tg_code : string;
  tg_challenge : CredentialRotationChallenge; tg_proof : CredentialRotationProof;
  tg_install : CredentialRotationInstall; tg_ready : CredentialRotationReady; tg_revoke : CredentialRotationRevoke;
}.

#[export] Instance rotationTargetState_eq_dec : EqDecision rotationTargetState.
Proof. solve_decision. Defined.

(** The zero values, which stand for what is not there yet. *)
Definition zeroTarget : RotationTarget := mkRotationTarget "" "" 0 0.
Definition zeroChallenge : CredentialRotationChallenge := mkCredentialRotationChallenge "" "" "" "" "" "" 0 "" zeroTarget 0 0 "" "" "" time.zero time.zero time.zero time.zero.
Definition zeroProof : CredentialRotationProof := mkCredentialRotationProof "" "" "" "" "" "" 0 "" 0 0 "" "" "" "" "" "" "" time.zero time.zero "" "".
Definition zeroInstall : CredentialRotationInstall := mkCredentialRotationInstall "" "" "" "" "" "" 0 "" 0 0 "" "" "" "" "" time.zero time.zero 0.
Definition zeroReady : CredentialRotationReady := mkCredentialRotationReady "" "" "" "" "" "" "" 0 "" 0 0 "" "" "" "" time.zero 0 "" false false false time.zero.
Definition zeroRevoke : CredentialRotationRevoke := mkCredentialRotationRevoke "" "" "" "" "" "" 0 "" 0 0 "" time.zero time.zero.

(** encoding/json.Marshal of the two documents that are hashed and signed; [None] is an error. *)
Class RotationJSON := {
  json_Plan : rotationPlanDocument → option string;
  json_Transcript : rotationProofTranscript → option string;
}.

(** ** Plans *)

(** new == old + 1, on uint64 *)
Definition next_generation (old new : Z) : bool := (new =? UInt64.wrap (old + 1))%Z.

Definition RotationTarget_Validate (t : RotationTarget) : option error :=
  if any_bad_id [rt_ConnectorID t; rt_HostID t] || (rt_OldCredentialGeneration t =? 0)%Z
     || negb (next_generation (rt_OldCredentialGeneration t) (rt_NewCredentialGeneration t))
  then Some ErrInvalidInput else None.

(** The loop over the targets; [previous] is the one before. *)
Fixpoint plan_targets_loop (previous : option RotationTarget) (seen : list string) (targets : list RotationTarget) : option error :=
  match targets with
  | [] => None
  | target :: targets' =>
      match RotationTarget_Validate target with
      | Some e => Some e
      | None =>
          if match previous with Some p => negb (str_ltb (rt_ConnectorID p) (rt_ConnectorID target)) | None => false end then Some ErrInvalidInput
          else if decide (rt_ConnectorID target ∈ seen) then Some ErrInvalidInput
          else plan_targets_loop (Some target) (rt_ConnectorID target :: seen) targets'
      end
  end.

Definition validateRotationPlanFields (p : RotationPlan) : option error :=
  if any_bad_id [rp_AccountID p; rp_TunnelID p; rp_OperationID p]
     || negb (ValidContentHash (rp_TargetSetHash p)) && negb (String.eqb (rp_TargetSetHash p) "")
     || (Z.of_nat (length (rp_Targets p)) =? 0)%Z || (MaxRotationTargets <? Z.of_nat (length (rp_Targets p)))%Z
  then Some ErrInvalidInput
  else plan_targets_loop None [] (rp_Targets p).

Section plans.
Context `{SHA256} `{RotationJSON}.

Definition json_failed : error := Foreign "json: unsupported value".

Definition rotationPlanHash (plan : RotationPlan) : error + string :=
  match json_Plan (mkRotationPlanDocument ProtocolName ProtocolVersion (rp_AccountID plan) (rp_TunnelID plan) (rp_OperationID plan) (rp_Targets plan)) with
  | None => inl json_failed
  | Some payload => inr (content_hash payload)
  end.

(** The targets are sorted by their connectors, which differ in every plan that is accepted. *)
Definition NewRotationPlan (accountID tunnelID operationID : string) (targets : list RotationTarget) : error + RotationPlan :=
  let plan := mkRotationPlan accountID tunnelID operationID "" (sort_by (λ a b, str_ltb (rt_ConnectorID a) (rt_ConnectorID b)) targets) in
  match validateRotationPlanFields plan with
  | Some e => inl e
  | None =>
      match rotationPlanHash plan with
      | inl e => inl e
      | inr digest => inr (mkRotationPlan accountID tunnelID operationID digest (rp_Targets plan))
      end
  end.

Definition RotationPlan_Validate (p : RotationPlan) : option error :=
  match validateRotationPlanFields p with
  | Some e => Some e
  | None =>
      match rotationPlanHash p with
      | inl e => Some e
      | inr expected =>
          if negb (String.eqb (rp_TargetSetHash p) expected) then Some (CodeError CodeContentHashMismatch ReasonSnapshotRejected false None) else None
      end
  end.
End plans.

Definition RotationPlan_Target (p : RotationPlan) (connectorID : string) : option RotationTarget :=
  List.find (λ t, String.eqb (rt_ConnectorID t) connectorID) (rp_Targets p).

(** ** Messages *)

Definition validRotationNonce (value : string) : bool :=
  (16 <=? len value)%Z && (len value <=? MaxNonceBytes)%Z && trimmed value && negb (has_line_break value).

Definition CredentialRotationChallenge_Validate (c : CredentialRotationChallenge) (now : Z) : option error :=
  if any_bad_id [rc_AccountID c; rc_TunnelID c; rc_OperationID c; rc_ConnectorID c; rc_HostID c; rc_SessionID c]
     || (rc_ProcessGeneration c =? 0)%Z || negb (ValidContentHash (rc_TargetSetHash c)) || (rc_OldCredentialGeneration c =? 0)%Z
     || negb (next_generation (rc_OldCredentialGeneration c) (rc_NewCredentialGeneration c))
     || bad (ValidateIdentityKey (rc_OldIdentityKeyID c) (rc_OldIdentityKeyThumbprint c)) || negb (validRotationNonce (rc_ChallengeNonce c))
     || time.IsZero (rc_IssuedAt c) || time.IsZero (rc_ExpiresAt c) || time.IsZero (rc_OverlapUntil c) || time.IsZero (rc_NewCredentialValidUntil c)
     || negb (time.After (rc_ExpiresAt c) (rc_IssuedAt c)) || negb (time.After (rc_OverlapUntil c) (rc_ExpiresAt c))
     || negb (time.After (rc_NewCredentialValidUntil c) (rc_OverlapUntil c)) || (15 * Minute <? time.Sub (rc_ExpiresAt c) (rc_IssuedAt c))%Z
     || (MaxLease <? time.Sub (rc_OverlapUntil c) (rc_IssuedAt c))%Z
     || (MaxRotationCredentialLifetime <? time.Sub (rc_NewCredentialValidUntil c) (rc_IssuedAt c))%Z
  then Some ErrInvalidInput
  else if bad (RotationTarget_Validate (rc_Target c)) || negb (String.eqb (rt_ConnectorID (rc_Target c)) (rc_ConnectorID c))
          || negb (String.eqb (rt_HostID (rc_Target c)) (rc_HostID c))
          || negb (rt_OldCredentialGeneration (rc_Target c) =? rc_OldCredentialGeneration c)%Z
          || negb (rt_NewCredentialGeneration (rc_Target c) =? rc_NewCredentialGeneration c)%Z
  then Some (CodeError CodeIdentityMismatch ReasonAuthentication false None)
  else if clocked now && (time.After (rc_IssuedAt c) (now + MaxClockSkew) || (MaxClockSkew <? time.Sub now (rc_IssuedAt c))%Z
                          || negb (time.After (rc_ExpiresAt c) now) || negb (time.After (rc_OverlapUntil c) now))
  then Some (CodeError CodeCredentialExpired ReasonCredentialExpired true None)
  else None.

Section messages.
Context `{NetURL} `{SHA256} `{RotationJSON} `{Ed25519}.

(** The public key is the one of the thumbprint; [mismatch] is the error when it is not. *)
Definition key_matches (publicKey thumbprint : string) (mismatch : error) : option error :=
  match DecodeRotationPublicKey publicKey with
  | inl e => Some e
  | inr key =>
      match IdentityThumbprint key with
      | inl _ => Some mismatch
      | inr t => if negb (String.eqb t thumbprint) then Some mismatch else None
      end
  end.

Definition CredentialRotationProof_validate (p : CredentialRotationProof) : option error :=
  if any_bad_id [pf_AccountID p; pf_TunnelID p; pf_OperationID p; pf_ConnectorID p; pf_HostID p; pf_SessionID p]
     || (pf_ProcessGeneration p =? 0)%Z || negb (ValidContentHash (pf_TargetSetHash p)) || (pf_OldCredentialGeneration p =? 0)%Z
     || negb (next_generation (pf_OldCredentialGeneration p) (pf_NewCredentialGeneration p))
     || bad (ValidateIdentityKey (pf_OldIdentityKeyID p) (pf_OldIdentityKeyThumbprint p))
     || bad (ValidateIdentityKey (pf_NewIdentityKeyID p) (pf_NewIdentityKeyThumbprint p))
     || String.eqb (pf_OldIdentityKeyID p) (pf_NewIdentityKeyID p) || negb (validRotationNonce (pf_ChallengeNonce p))
     || time.IsZero (pf_IssuedAt p) || time.IsZero (pf_NewCredentialValidUntil p) || bad (ValidateCredentialReference (pf_NewCredentialReference p))
     || negb (time.After (pf_NewCredentialValidUntil p) (pf_IssuedAt p))
     || (MaxRotationCredentialLifetime <? time.Sub (pf_NewCredentialValidUntil p) (pf_IssuedAt p))%Z
  then Some ErrInvalidInput
  else key_matches (pf_NewPublicKey p) (pf_NewIdentityKeyThumbprint p) (CodeError CodeIdentityMismatch ReasonAuthentication false None).

Definition CredentialRotationProof_Validate (p : CredentialRotationProof) (now : Z) : option error :=
  match CredentialRotationProof_validate p with
  | Some e => Some e
  | None =>
      if bad (ValidateProof (pf_OldSignedProof p)) || bad (ValidateProof (pf_NewSignedProof p)) then Some ErrInvalidInput
      else if clocked now && (time.After (pf_IssuedAt p) (now + MaxClockSkew) || (MaxClockSkew <? time.Sub now (pf_IssuedAt p))%Z)
      then Some (CodeError CodeAuthenticationFailed ReasonAuthentication false None) else None
  end.

Definition CredentialRotationProofPayload (p : CredentialRotationProof) : error + string :=
  match CredentialRotationProof_validate p with
  | Some e => inl e
  | None =>
      match json_Transcript (mkRotationProofTranscript "paperboat.connector.credential-rotation.v1" ProtocolName ProtocolVersion
        (pf_AccountID p) (pf_TunnelID p) (pf_OperationID p) (pf_ConnectorID p) (pf_HostID p) (pf_SessionID p) (pf_ProcessGeneration p)
        (pf_TargetSetHash p) (pf_OldCredentialGeneration p) (pf_NewCredentialGeneration p) (pf_OldIdentityKeyID p) (pf_OldIdentityKeyThumbprint p)
        (pf_NewIdentityKeyID p) (pf_NewIdentityKeyThumbprint p) (pf_NewPublicKey p) (pf_NewCredentialReference p) (pf_ChallengeNonce p)
        (pf_IssuedAt p) (pf_NewCredentialValidUntil p)) with
      | None => inl json_failed
      | Some payload => inr payload
      end
  end.

Definition with_signatures (p : CredentialRotationProof) (old new : string) : CredentialRotationProof :=
  mkCredentialRotationProof (pf_AccountID p) (pf_TunnelID p) (pf_OperationID p) (pf_ConnectorID p) (pf_HostID p) (pf_SessionID p)
    (pf_ProcessGeneration p) (pf_TargetSetHash p) (pf_OldCredentialGeneration p) (pf_NewCredentialGeneration p) (pf_OldIdentityKeyID p)
    (pf_OldIdentityKeyThumbprint p) (pf_NewIdentityKeyID p) (pf_NewIdentityKeyThumbprint p) (pf_NewPublicKey p) (pf_NewCredentialReference p)
    (pf_ChallengeNonce p) (pf_IssuedAt p) (pf_NewCredentialValidUntil p) old new.

Definition SignCredentialRotationProof (p : CredentialRotationProof) (oldSign newSign : string → string) : error + CredentialRotationProof :=
  match CredentialRotationProofPayload p with
  | inl e => inl e
  | inr payload =>
      match SignProofPayload payload oldSign with
      | inl e => inl e
      | inr old =>
          match SignProofPayload payload newSign with
          | inl e => inl e
          | inr new =>
              let p := with_signatures p old new in
              match CredentialRotationProof_Validate p time.zero with Some e => inl e | None => inr p end
          end
      end
  end.

(** [verifyOld] is the callback: the proof, the payload and the signature. *)
Definition VerifyCredentialRotationProofAt (p : CredentialRotationProof) (verifyOld : CredentialRotationProof → string → string → option error) (now : Z)
    : option error :=
  match CredentialRotationProof_Validate p now with Some e => Some e | None =>
  match CredentialRotationProofPayload p with inl e => Some e | inr payload =>
  match DecodeProof (pf_OldSignedProof p) with inl e => Some e | inr oldSignature =>
  match verifyOld p payload oldSignature with
  | Some e => Some (CodeError CodeAuthenticationFailed ReasonAuthentication false (Some e))
  | None =>
  match DecodeProof (pf_NewSignedProof p) with inl e => Some e | inr newSignature =>
  match DecodeRotationPublicKey (pf_NewPublicKey p) with
  | inl _ => Some (CodeError CodeAuthenticationFailed ReasonAuthentication false None)
  | inr publicKey =>
      if ed25519_Verify publicKey payload newSignature then None else Some (CodeError CodeAuthenticationFailed ReasonAuthentication false None)
  end end end end end end.

Definition CredentialRotationInstall_Validate (i : CredentialRotationInstall) (now : Z) : option error :=
  if any_bad_id [it_AccountID i; it_TunnelID i; it_OperationID i; it_ConnectorID i; it_HostID i; it_SessionID i]
     || (it_ProcessGeneration i =? 0)%Z || (it_ReplacementProcessGeneration i <=? it_ProcessGeneration i)%Z
     || negb (ValidContentHash (it_TargetSetHash i)) || (it_OldCredentialGeneration i =? 0)%Z
     || negb (next_generation (it_OldCredentialGeneration i) (it_NewCredentialGeneration i))
     || bad (ValidateIdentityKey (it_NewIdentityKeyID i) (it_NewIdentityKeyThumbprint i))
     || bad (ValidateCredentialReference (it_NewCredentialReference i)) || negb (validRotationNonce (it_ChallengeNonce i))
     || time.IsZero (it_OverlapUntil i) || time.IsZero (it_NewCredentialValidUntil i)
     || negb (time.After (it_NewCredentialValidUntil i) (it_OverlapUntil i))
     || (MaxRotationCredentialLifetime <? time.Sub (it_NewCredentialValidUntil i) (it_OverlapUntil i))%Z
  then Some ErrInvalidInput
  else match key_matches (it_NewPublicKey i) (it_NewIdentityKeyThumbprint i) ErrIdentityMismatch with
       | Some e => Some e
       | None => if clocked now && negb (time.After (it_OverlapUntil i) now)
                 then Some (CodeError CodeCredentialExpired ReasonCredentialExpired true None) else None
       end.

Definition CredentialRotationReady_Validate (r : CredentialRotationReady) (now : Z) : option error :=
  if any_bad_id [rr_AccountID r; rr_TunnelID r; rr_OperationID r; rr_ConnectorID r; rr_HostID r; rr_SessionID r; rr_PreviousSessionID r]
     || (rr_ProcessGeneration r =? 0)%Z || negb (ValidContentHash (rr_TargetSetHash r)) || (rr_OldCredentialGeneration r =? 0)%Z
     || negb (next_generation (rr_OldCredentialGeneration r) (rr_NewCredentialGeneration r))
     || bad (ValidateIdentityKey (rr_NewIdentityKeyID r) (rr_NewIdentityKeyThumbprint r))
     || bad (ValidateCredentialReference (rr_NewCredentialReference r)) || time.IsZero (rr_NewCredentialValidUntil r)
     || (rr_ConfigGeneration r =? 0)%Z || negb (ValidContentHash (rr_ConfigContentHash r)) || time.IsZero (rr_ReadyAt r)
  then Some ErrInvalidInput
  else match key_matches (rr_NewPublicKey r) (rr_NewIdentityKeyThumbprint r) ErrIdentityMismatch with
       | Some e => Some e
       | None =>
           if negb (rr_EdgeReady r) || negb (rr_RouteReady r) || negb (rr_OriginReady r)
           then Some (CodeError CodeCredentialRotationNotReady ReasonSnapshotRejected true None)
           else if clocked now && (negb (time.After (rr_NewCredentialValidUntil r) now) || time.Before (rr_ReadyAt r) (now - MaxClockSkew)
                                   || time.After (rr_ReadyAt r) (now + MaxClockSkew))
           then (if negb (time.After (rr_NewCredentialValidUntil r) now)
                 then Some (CodeError CodeCredentialExpired ReasonCredentialExpired true None) else Some ErrInvalidInput)
           else None
       end.
End messages.

Definition CredentialRotationRevoke_Validate (r : CredentialRotationRevoke) (now : Z) : option error :=
  if any_bad_id [rv_AccountID r; rv_TunnelID r; rv_OperationID r; rv_ConnectorID r; rv_HostID r; rv_SessionID r]
     || (rv_ProcessGeneration r =? 0)%Z || negb (ValidContentHash (rv_TargetSetHash r)) || (rv_OldCredentialGeneration r =? 0)%Z
     || negb (next_generation (rv_OldCredentialGeneration r) (rv_NewCredentialGeneration r)) || negb (validRotationNonce (rv_RevokeNonce r))
     || time.IsZero (rv_IssuedAt r) || time.IsZero (rv_Deadline r) || negb (time.After (rv_Deadline r) (rv_IssuedAt r))
     || (DefaultAbortTimeout * 2 <? time.Sub (rv_Deadline r) (rv_IssuedAt r))%Z
  then Some ErrInvalidInput
  else if clocked now && (time.After (rv_IssuedAt r) (now + MaxClockSkew) || negb (time.After (rv_Deadline r) now))
  then Some (CodeError CodeCredentialExpired ReasonCredentialExpired true None)
  else None.

Definition RotationAckProofAccepted := "proof_accepted".
Definition RotationAckInstalled := "installed".
Definition RotationAckReady := "ready".
Definition RotationAckRevoked := "revoked".
Definition RotationAckRejected := "rejected".
Definition RotationAckFailed := "failed".

Definition CredentialRotationAck_Validate (a : CredentialRotationAck) : option error :=
  if any_bad_id [ra_AccountID a; ra_TunnelID a; ra_OperationID a; ra_ConnectorID a; ra_HostID a; ra_SessionID a]
     || (ra_ProcessGeneration a =? 0)%Z || negb (ValidContentHash (ra_TargetSetHash a)) || (ra_OldCredentialGeneration a =? 0)%Z
     || negb (next_generation (ra_OldCredentialGeneration a) (ra_NewCredentialGeneration a)) || (MaxRotationMessage <? len (ra_Message a))%Z
  then Some ErrInvalidInput
  else if bool_decide (ra_Status a ∈ [RotationAckProofAccepted; RotationAckInstalled; RotationAckReady; RotationAckRevoked]) then
    (if negb (String.eqb (ra_Code a) "") then Some ErrInvalidInput else None)
  else if bool_decide (ra_Status a ∈ [RotationAckRejected; RotationAckFailed]) then
    (if String.eqb (ra_Code a) "" || negb (ValidCode (ra_Code a)) then Some ErrInvalidInput else None)
  else Some ErrInvalidInput.

Definition RotationAggregatePending := "pending".
Definition RotationAggregateSucceeded := "succeeded".
Definition RotationAggregateFailed := "failed".

(** The checks stay folded. *)
Arguments RotationTarget_Validate : simpl never.
Arguments RotationPlan_Validate {_ _} : simpl never.
Arguments CredentialRotationChallenge_Validate : simpl never.
Arguments CredentialRotationProof_Validate {_ _} : simpl never.
Arguments VerifyCredentialRotationProofAt {_ _ _ _} : simpl never.
Arguments CredentialRotationInstall_Validate {_ _} : simpl never.
Arguments CredentialRotationReady_Validate {_ _} : simpl never.
Arguments CredentialRotationRevoke_Validate : simpl never.
Arguments CredentialRotationAck_Validate : simpl never.
