(* ===== verification/RotationCoord.v ===== *)
(** * The coordinator of a credential rotation: src/shared/connectorprotocol/rotation_coordinator.go

    The coordinator with the durable record it writes.  What a call to the store answered is an argument; a
    write that succeeds is appended to the record, the latest first.  The record is that of MemoryRotationPersistence,
    whose LoadCredentialRotation is the last definition. *)
From S2P Require Import Prelude GoStd GoData GoNet GoEnc StateErr ConnProto ConnMessages Sessions Rotation.

#[local] Open Scope go_scope.

Definition put_target (v : RotationTarget) (s : rotationTargetState) : rotationTargetState := mkRotationTargetState v (tg_state s) (tg_code s) (tg_challenge s) (tg_proof s) (tg_install s) (tg_ready s) (tg_revoke s).
Definition put_state (v : RotationTargetState) (s : rotationTargetState) : rotationTargetState := mkRotationTargetState (tg_target s) v (tg_code s) (tg_challenge s) (tg_proof s) (tg_install s) (tg_ready s) (tg_revoke s).
Definition put_code (v : string) (s : rotationTargetState) : rotationTargetState := mkRotationTargetState (tg_target s) (tg_state s) v (tg_challenge s) (tg_proof s) (tg_install s) (tg_ready s) (tg_revoke s).
Definition put_challenge (v : CredentialRotationChallenge) (s : rotationTargetState) : rotationTargetState := mkRotationTargetState (tg_target s) (tg_state s) (tg_code s) v (tg_proof s) (tg_install s) (tg_ready s) (tg_revoke s).
Definition put_proof (v : CredentialRotationProof) (s : rotationTargetState) : rotationTargetState := mkRotationTargetState (tg_target s) (tg_state s) (tg_code s) (tg_challenge s) v (tg_install s) (tg_ready s) (tg_revoke s).
Definition put_install (v : CredentialRotationInstall) (s : rotationTargetState) : rotationTargetState := mkRotationTargetState (tg_target s) (tg_state s) (tg_code s) (tg_challenge s) (tg_proof s) v (tg_ready s) (tg_revoke s).
Definition put_ready (v : CredentialRotationReady) (s : rotationTargetState) : rotationTargetState := mkRotationTargetState (tg_target s) (tg_state s) (tg_code s) (tg_challenge s) (tg_proof s) (tg_install s) v (tg_revoke s).
Definition put_revoke (v : CredentialRotationRevoke) (s : rotationTargetState) : rotationTargetState := mkRotationTargetState (tg_target s) (tg_state s) (tg_code s) (tg_challenge s) (tg_proof s) (tg_install s) (tg_ready s) v.
Arguments put_target _ _ /.
Arguments put_state _ _ /.
Arguments put_code _ _ /.
Arguments put_challenge _ _ /.
Arguments put_proof _ _ /.
Arguments put_install _ _ /.
Arguments put_ready _ _ /.
Arguments put_revoke _ _ /.

Record RotationCoordinator := mkRotationCoordinator {
  rk_plan : RotationPlan; rk_started : bool; rk_finished : Z; rk_targets : gmap string rotationTargetState;
}.

(** What was written durably. *)
Inductive Write :=
  | Begun (plan : RotationPlan)
  | Challenged (c : CredentialRotationChallenge)
  | Proven (c : CredentialRotationChallenge) (p : CredentialRotationProof) (i : CredentialRotationInstall)
  | Readied (r : CredentialRotationReady)
  | Revoked (r : CredentialRotationRevoke)
  | Concluded (a : CredentialRotationAck) (s : RotationSummary).

Definition Rot : Type := RotationCoordinator * list Write.
Definition RM (E A : Type) : Type := M Rot E A.

Section coordinator.
Context `{NetURL} `{SHA256} `{RotationJSON} `{Ed25519}.

Definition pending_target (t : RotationTarget) : rotationTargetState :=
  mkRotationTargetState t RotationTargetPending "" zeroChallenge zeroProof zeroInstall zeroReady zeroRevoke.

Definition NewRotationCoordinator (plan : RotationPlan) : error + RotationCoordinator :=
  match RotationPlan_Validate plan with
  | Some _ => inl ErrInvalidInput
  | None => inr (mkRotationCoordinator plan false time.zero
      (foldl (λ m t, <[rt_ConnectorID t := pending_target t]> m) ∅ (rp_Targets plan)))
  end.

(** *** Reading and writing *)

Section ops.
Context {E : Type}.
Definition coordinator : RM E RotationCoordinator := w ← mget; mret w.1.
Definition save_target (connectorID : string) (t : rotationTargetState) : RM E () :=
  mset (λ w, (mkRotationCoordinator (rk_plan w.1) (rk_started w.1) (rk_finished w.1) (<[connectorID := t]> (rk_targets w.1)), w.2)).
Definition put_finished (now : Z) : RM E () :=
  mset (λ w, (mkRotationCoordinator (rk_plan w.1) (rk_started w.1) now (rk_targets w.1), w.2)).
Definition wrote (x : Write) : RM E () := mset (λ w, (w.1, x :: w.2)).
End ops.

Definition failed_target (code : string) (t : rotationTargetState) : rotationTargetState := put_code code (put_state RotationTargetFailed t).

Definition rotation_failed (e : error) : error := CodeError CodeCredentialRotationFailed ReasonCredentialRotation false (Some e).

(** *** Summaries *)

(** The state of a target of the plan; every one has one. *)
Definition target_of (c : RotationCoordinator) (connectorID : string) : rotationTargetState :=
  default (pending_target zeroTarget) (rk_targets c !! connectorID).

Definition summaryLocked (c : RotationCoordinator) : RotationSummary :=
  let states := (λ t, (t, target_of c (rt_ConnectorID t))) <$> rp_Targets (rk_plan c) in
  let failed := existsb (λ p, bool_decide (tg_state p.2 = RotationTargetFailed)) states in
  let succeeded := forallb (λ p, bool_decide (tg_state p.2 = RotationTargetRevoked)) states in
  mkRotationSummary (rp_AccountID (rk_plan c)) (rp_TunnelID (rk_plan c)) (rp_OperationID (rk_plan c)) (rp_TargetSetHash (rk_plan c))
    (if failed then RotationAggregateFailed else if succeeded then RotationAggregateSucceeded else RotationAggregatePending)
    ((λ p, mkRotationTargetSummary p.1 (tg_state p.2) (tg_code p.2)) <$> states)
    (if negb failed && succeeded then rk_finished c else time.zero).

Definition ready_state (s : RotationTargetState) : bool :=
  bool_decide (s ∈ [RotationTargetReady; RotationTargetRevoking; RotationTargetRevoked]).

(** The order in which the map is visited does not matter for the answer. *)
Definition allReadyLocked (c : RotationCoordinator) : bool := forallb (λ kv, ready_state (tg_state kv.2)) (map_to_list (rk_targets c)).

Definition failureAckLocked (c : RotationCoordinator) (t : rotationTargetState) (code : string) : CredentialRotationAck :=
  let '(sessionID, processGeneration) :=
    if negb (String.eqb (rv_SessionID (tg_revoke t)) "") then (rv_SessionID (tg_revoke t), rv_ProcessGeneration (tg_revoke t))
    else if negb (String.eqb (rr_SessionID (tg_ready t)) "") then (rr_SessionID (tg_ready t), rr_ProcessGeneration (tg_ready t))
    else (rc_SessionID (tg_challenge t), rc_ProcessGeneration (tg_challenge t)) in
  mkCredentialRotationAck (rp_AccountID (rk_plan c)) (rp_TunnelID (rk_plan c)) (rp_OperationID (rk_plan c)) (rt_ConnectorID (tg_target t))
    (rt_HostID (tg_target t)) sessionID processGeneration (rp_TargetSetHash (rk_plan c)) (rt_OldCredentialGeneration (tg_target t))
    (rt_NewCredentialGeneration (tg_target t)) RotationAckFailed code "".

(** *** Start *)

Definition Start (ctx : Context) (begun : option error) : RM error () :=
  fail_if (no_ctx ctx) ErrInvalidInput;;
  check (canceled ctx);;
  c ← coordinator;
  if rk_started c then mret ()
  else match begun with
       | Some e => mfail (rotation_failed e)
       | None =>
           wrote (Begun (rk_plan c));;
           mset (λ w, (mkRotationCoordinator (rk_plan w.1) true (rk_finished w.1) (rk_targets w.1), w.2))
       end.

(** *** Challenges *)

Definition ChallengeWithCredentialExpiry (ctx : Context) (now : Z) (connectorID sessionID : string) (processGeneration : Z)
    (oldIdentityKeyID oldIdentityKeyThumbprint nonce : string) (issuedAt expiresAt overlapUntil credentialValidUntil : Z)
    (authorized stored : option error) : RM error CredentialRotationChallenge :=
  fail_if (no_ctx ctx) ErrInvalidInput;;
  check (canceled ctx);;
  c ← coordinator;
  fail_if (negb (rk_started c)) ErrInvalidInput;;
  match rk_targets c !! connectorID with
  | None => mfail identity_mismatch
  | Some t =>
      fail_if (negb (bool_decide (tg_state t = RotationTargetPending))
               && (negb (bool_decide (tg_state t = RotationTargetChallenged)) || time.IsZero (rc_ExpiresAt (tg_challenge t))
                   || time.After (rc_ExpiresAt (tg_challenge t)) now))
        (CodeError CodeSessionConflict ReasonStaleGeneration true None);;
      let target := tg_target t in
      let challenge := mkCredentialRotationChallenge (rp_AccountID (rk_plan c)) (rp_TunnelID (rk_plan c)) (rp_OperationID (rk_plan c)) connectorID
        (rt_HostID target) sessionID processGeneration (rp_TargetSetHash (rk_plan c)) target (rt_OldCredentialGeneration target)
        (rt_NewCredentialGeneration target) oldIdentityKeyID oldIdentityKeyThumbprint nonce issuedAt expiresAt overlapUntil credentialValidUntil in
      check (CredentialRotationChallenge_Validate challenge now);;
      check authorized;;
      match stored with
      | Some e => mfail (rotation_failed e)
      | None =>
          wrote (Challenged challenge);;
          save_target connectorID (put_state RotationTargetChallenged (put_challenge challenge t));;
          mret challenge
      end
  end.

(** Challenge, with the credential valid for a year after the overlap. *)
Definition Challenge (ctx : Context) (now : Z) (connectorID sessionID : string) (processGeneration : Z)
    (oldIdentityKeyID oldIdentityKeyThumbprint nonce : string) (issuedAt expiresAt overlapUntil : Z) (authorized stored : option error)
    : RM error CredentialRotationChallenge :=
  ChallengeWithCredentialExpiry ctx now connectorID sessionID processGeneration oldIdentityKeyID oldIdentityKeyThumbprint nonce issuedAt expiresAt
    overlapUntil (overlapUntil + 365 * 24 * time.Hour) authorized stored.

(** *** Proofs *)

Definition RotationProofMatchesChallenge (proof : CredentialRotationProof) (challenge : CredentialRotationChallenge) (target : RotationTarget) : bool :=
  String.eqb (pf_AccountID proof) (rc_AccountID challenge) && String.eqb (pf_TunnelID proof) (rc_TunnelID challenge)
  && String.eqb (pf_OperationID proof) (rc_OperationID challenge) && String.eqb (pf_ConnectorID proof) (rc_ConnectorID challenge)
  && String.eqb (pf_HostID proof) (rc_HostID challenge) && String.eqb (pf_SessionID proof) (rc_SessionID challenge)
  && (pf_ProcessGeneration proof =? rc_ProcessGeneration challenge)%Z && String.eqb (pf_TargetSetHash proof) (rc_TargetSetHash challenge)
  && (pf_OldCredentialGeneration proof =? rt_OldCredentialGeneration target)%Z
  && (pf_NewCredentialGeneration proof =? rt_NewCredentialGeneration target)%Z
  && String.eqb (pf_OldIdentityKeyID proof) (rc_OldIdentityKeyID challenge)
  && String.eqb (pf_OldIdentityKeyThumbprint proof) (rc_OldIdentityKeyThumbprint challenge)
  && String.eqb (pf_ChallengeNonce proof) (rc_ChallengeNonce challenge)
  && (pf_NewCredentialValidUntil proof =? rc_NewCredentialValidUntil challenge)%Z
  && negb (time.Before (pf_IssuedAt proof) (rc_IssuedAt challenge)) && negb (time.After (pf_IssuedAt proof) (rc_ExpiresAt challenge)).

Definition rotationAckForInstall (i : CredentialRotationInstall) : CredentialRotationAck :=
  mkCredentialRotationAck (it_AccountID i) (it_TunnelID i) (it_OperationID i) (it_ConnectorID i) (it_HostID i) (it_SessionID i)
    (it_ProcessGeneration i) (it_TargetSetHash i) (it_OldCredentialGeneration i) (it_NewCredentialGeneration i) RotationAckInstalled "" "".

Definition install_of (plan : RotationPlan) (challenge : CredentialRotationChallenge) (p : CredentialRotationProof) : CredentialRotationInstall :=
  mkCredentialRotationInstall (rp_AccountID plan) (rp_TunnelID plan) (rp_OperationID plan) (pf_ConnectorID p) (pf_HostID p) (pf_SessionID p)
    (pf_ProcessGeneration p) (rp_TargetSetHash plan) (pf_OldCredentialGeneration p) (pf_NewCredentialGeneration p) (pf_NewIdentityKeyID p)
    (pf_NewIdentityKeyThumbprint p) (pf_NewPublicKey p) (pf_NewCredentialReference p) (pf_ChallengeNonce p) (rc_OverlapUntil challenge)
    (pf_NewCredentialValidUntil p) (UInt64.wrap (pf_ProcessGeneration p + 1)).

Definition AcceptProof (verify : CredentialRotationProof → string → string → option error) (ctx : Context) (now : Z) (proof : CredentialRotationProof)
    (stored : option error) : RM error (CredentialRotationInstall * CredentialRotationAck) :=
  fail_if (no_ctx ctx) ErrInvalidInput;;
  check (canceled ctx);;
  check (CredentialRotationProof_Validate proof now);;
  c ← coordinator;
  match rk_targets c !! pf_ConnectorID proof with
  | None => mfail stale_generation
  | Some t =>
      fail_if (negb (bool_decide (tg_state t = RotationTargetChallenged))) stale_generation;;
      fail_if (negb (RotationProofMatchesChallenge proof (tg_challenge t) (tg_target t))) identity_mismatch;;
      check (VerifyCredentialRotationProofAt proof verify now);;
      let install := install_of (rk_plan c) (tg_challenge t) proof in
      check (CredentialRotationInstall_Validate install now);;
      match stored with
      | Some e => save_target (pf_ConnectorID proof) (failed_target CodeCredentialRotationFailed t);; mfail (rotation_failed e)
      | None =>
          wrote (Proven (tg_challenge t) proof install);;
          save_target (pf_ConnectorID proof) (put_state RotationTargetInstalled (put_install install (put_proof proof t)));;
          mret (install, rotationAckForInstall install)
      end
  end.

(** *** Readiness *)

Definition zeroRotationAck : CredentialRotationAck := mkCredentialRotationAck "" "" "" "" "" "" 0 "" 0 0 "" "" "".

Definition ready_ack (r : CredentialRotationReady) (status code : string) : CredentialRotationAck :=
  mkCredentialRotationAck (rr_AccountID r) (rr_TunnelID r) (rr_OperationID r) (rr_ConnectorID r) (rr_HostID r) (rr_SessionID r)
    (rr_ProcessGeneration r) (rr_TargetSetHash r) (rr_OldCredentialGeneration r) (rr_NewCredentialGeneration r) status code "".

Definition rotationRejectedAck (r : CredentialRotationReady) (code : string) : CredentialRotationAck := ready_ack r RotationAckRejected code.

(** The report is not of the replacement that was installed. *)
Definition ready_mismatch (plan : RotationPlan) (install : CredentialRotationInstall) (r : CredentialRotationReady) : bool :=
  negb (String.eqb (rr_AccountID r) (rp_AccountID plan)) || negb (String.eqb (rr_TunnelID r) (rp_TunnelID plan))
  || negb (String.eqb (rr_OperationID r) (rp_OperationID plan)) || negb (String.eqb (rr_ConnectorID r) (it_ConnectorID install))
  || negb (String.eqb (rr_HostID r) (it_HostID install)) || negb (String.eqb (rr_TargetSetHash r) (rp_TargetSetHash plan))
  || String.eqb (rr_SessionID r) (it_SessionID install) || negb (String.eqb (rr_PreviousSessionID r) (it_SessionID install))
  || (rr_ProcessGeneration r <? it_ReplacementProcessGeneration install)%Z
  || negb (rr_OldCredentialGeneration r =? it_OldCredentialGeneration install)%Z
  || negb (rr_NewCredentialGeneration r =? it_NewCredentialGeneration install)%Z
  || negb (String.eqb (rr_NewIdentityKeyID r) (it_NewIdentityKeyID install))
  || negb (String.eqb (rr_NewIdentityKeyThumbprint r) (it_NewIdentityKeyThumbprint install))
  || negb (String.eqb (rr_NewPublicKey r) (it_NewPublicKey install))
  || negb (String.eqb (rr_NewCredentialReference r) (it_NewCredentialReference install))
  || negb (rr_NewCredentialValidUntil r =? it_NewCredentialValidUntil install)%Z.

Definition MarkReady (ctx : Context) (now : Z) (r : CredentialRotationReady) (stored : option error)
    : RM (CredentialRotationAck * error) CredentialRotationAck :=
  let bare {A} (m : RM error A) : RM (CredentialRotationAck * error) A := map_error (λ e, (zeroRotationAck, e)) m in
  bare (fail_if (no_ctx ctx) ErrInvalidInput);;
  bare (check (canceled ctx));;
  check (match CredentialRotationReady_Validate r now with
         | Some e => Some (rotationRejectedAck r CodeCredentialRotationNotReady, e) | None => None end);;
  c ← coordinator;
  match rk_targets c !! rr_ConnectorID r with
  | None => bare (mfail stale_generation)
  | Some t =>
      bare (fail_if (negb (bool_decide (tg_state t = RotationTargetInstalled))) stale_generation);;
      bare (fail_if (ready_mismatch (rk_plan c) (tg_install t) r) identity_mismatch);;
      match stored with
      | Some e => save_target (rr_ConnectorID r) (failed_target CodeCredentialRotationFailed t);; bare (mfail (rotation_failed e))
      | None =>
          wrote (Readied r);;
          save_target (rr_ConnectorID r) (put_state RotationTargetReady (put_ready r t));;
          mret (ready_ack r RotationAckReady "")
      end
  end.

(** *** Revoking the old credentials *)

Definition Revoke (ctx : Context) (now : Z) (connectorID : string) (nonce : error + string) (stored : option error) : RM error CredentialRotationRevoke :=
  fail_if (no_ctx ctx) ErrInvalidInput;;
  check (canceled ctx);;
  c ← coordinator;
  match rk_targets c !! connectorID with
  | None => mfail identity_mismatch
  | Some t =>
      fail_if (String.eqb (su_Status (summaryLocked c)) RotationAggregateFailed)
        (CodeError CodeCredentialRotationFailed ReasonCredentialRotation false None);;
      fail_if (negb (allReadyLocked c)) (CodeError CodeCredentialRotationNotReady ReasonSnapshotRejected true None);;
      if decide (tg_state t = RotationTargetRevoking) then mret (tg_revoke t)
      else
        fail_if (negb (bool_decide (tg_state t = RotationTargetReady))) stale_generation;;
        match nonce with
        | inl e => mfail e
        | inr revokeNonce =>
            let revoke := mkCredentialRotationRevoke (rp_AccountID (rk_plan c)) (rp_TunnelID (rk_plan c)) (rp_OperationID (rk_plan c)) connectorID
              (rt_HostID (tg_target t)) (rr_SessionID (tg_ready t)) (rr_ProcessGeneration (tg_ready t)) (rp_TargetSetHash (rk_plan c))
              (rt_OldCredentialGeneration (tg_target t)) (rt_NewCredentialGeneration (tg_target t)) revokeNonce now (now + DefaultAbortTimeout) in
            check (CredentialRotationRevoke_Validate revoke now);;
            match stored with
            | Some e => save_target connectorID (failed_target CodeCredentialRotationFailed t);; mfail (rotation_failed e)
            | None =>
                wrote (Revoked revoke);;
                save_target connectorID (put_state RotationTargetRevoking (put_revoke revoke t));;
                mret revoke
            end
        end
  end.

(** *** Acknowledgements and failures *)

Definition zeroSummary : RotationSummary := mkRotationSummary "" "" "" "" "" [] time.zero.
Definition SumErr : Type := RotationSummary * error.

Definition rotationNegativeAckMatches (t : rotationTargetState) (a : CredentialRotationAck) : bool :=
  let '(sessionID, processGeneration) :=
    match tg_state t with
    | RotationTargetChallenged | RotationTargetInstalled => (rc_SessionID (tg_challenge t), rc_ProcessGeneration (tg_challenge t))
    | RotationTargetReady => (rr_SessionID (tg_ready t), rr_ProcessGeneration (tg_ready t))
    | RotationTargetRevoking => (rv_SessionID (tg_revoke t), rv_ProcessGeneration (tg_revoke t))
    | _ => ("", 0%Z)
    end in
  negb (String.eqb sessionID "") && (0 <? processGeneration)%Z && String.eqb (ra_SessionID a) sessionID
  && (ra_ProcessGeneration a =? processGeneration)%Z.

Definition ack_mismatch (plan : RotationPlan) (t : rotationTargetState) (a : CredentialRotationAck) : bool :=
  negb (String.eqb (ra_AccountID a) (rp_AccountID plan)) || negb (String.eqb (ra_TunnelID a) (rp_TunnelID plan))
  || negb (String.eqb (ra_OperationID a) (rp_OperationID plan)) || negb (String.eqb (ra_TargetSetHash a) (rp_TargetSetHash plan))
  || negb (String.eqb (ra_HostID a) (rt_HostID (tg_target t))) || negb (ra_OldCredentialGeneration a =? rt_OldCredentialGeneration (tg_target t))%Z
  || negb (ra_NewCredentialGeneration a =? rt_NewCredentialGeneration (tg_target t))%Z.

Definition for_session (a : CredentialRotationAck) (sessionID : string) (processGeneration : Z) : bool :=
  String.eqb (ra_SessionID a) sessionID && (ra_ProcessGeneration a =? processGeneration)%Z.

Definition zero_sum {A} (m : RM error A) : RM SumErr A := map_error (λ e, (zeroSummary, e)) m.

(** A target fails: the failure is undone when it cannot be recorded. *)
Definition conclude_failure (connectorID : string) (t : rotationTargetState) (code : string) (a : CredentialRotationAck) (stored : option error)
    (failure : error → error) : RM SumErr RotationSummary :=
  save_target connectorID (failed_target code t);;
  c ← coordinator;
  let summary := summaryLocked c in
  match stored with
  | Some e =>
      save_target connectorID t;;
      c ← coordinator;
      mfail (summaryLocked c, failure e)
  | None =>
      wrote (Concluded a summary);;
      mfail (summary, CodeError CodeCredentialRotationFailed ReasonCredentialRotation false (Some (Foreign code)))
  end.

Definition with_completed (s : RotationSummary) (at_ : Z) : RotationSummary :=
  mkRotationSummary (su_AccountID s) (su_TunnelID s) (su_OperationID s) (su_TargetSetHash s) (su_Status s) (su_Targets s) at_.

(** The old credential of the target is revoked. *)
Definition conclude_revoked (now : Z) (connectorID : string) (t : rotationTargetState) (a : CredentialRotationAck) (stored : option error)
    : RM SumErr RotationSummary :=
  let revoked := put_state RotationTargetRevoked t in
  save_target connectorID revoked;;
  c ← coordinator;
  let summary := summaryLocked c in
  let done := String.eqb (su_Status summary) RotationAggregateSucceeded in
  (if done then put_finished now else mret ());;
  let summary := if done then with_completed summary now else summary in
  match stored with
  | Some e =>
      save_target connectorID (failed_target CodeCredentialRotationFailed revoked);;
      c ← coordinator;
      mfail (summaryLocked c, rotation_failed e)
  | None => wrote (Concluded a summary);; mret summary
  end.

Definition Rotation_HandleAck (ctx : Context) (now : Z) (a : CredentialRotationAck) (stored : option error) : RM SumErr RotationSummary :=
  zero_sum (fail_if (no_ctx ctx) ErrInvalidInput);;
  zero_sum (check (CredentialRotationAck_Validate a));;
  zero_sum (check (canceled ctx));;
  c ← coordinator;
  match rk_targets c !! ra_ConnectorID a with
  | None => zero_sum (mfail identity_mismatch)
  | Some t =>
      zero_sum (fail_if (ack_mismatch (rk_plan c) t a) identity_mismatch);;
      if bool_decide (tg_state t = RotationTargetRevoked) || bool_decide (tg_state t = RotationTargetFailed) then
        mfail (summaryLocked c, stale_generation)
      else if String.eqb (ra_Status a) RotationAckRejected || String.eqb (ra_Status a) RotationAckFailed then
        zero_sum (fail_if (negb (rotationNegativeAckMatches t a)) identity_mismatch);;
        conclude_failure (ra_ConnectorID a) t (ra_Code a) a stored
          (λ e, CodeError CodeCredentialRotationFailed ReasonCredentialRotation false (Some (Joined [Base CodeCredentialRotationFailed; e])))
      else if String.eqb (ra_Status a) RotationAckInstalled then
        zero_sum (fail_if (negb (bool_decide (tg_state t = RotationTargetInstalled))
          || negb (for_session a (it_SessionID (tg_install t)) (it_ProcessGeneration (tg_install t)))) stale_generation);;
        mret (summaryLocked c)
      else if String.eqb (ra_Status a) RotationAckReady then
        zero_sum (fail_if (negb (bool_decide (tg_state t = RotationTargetReady))
          || negb (for_session a (rr_SessionID (tg_ready t)) (rr_ProcessGeneration (tg_ready t)))) stale_generation);;
        mret (summaryLocked c)
      else
        zero_sum (fail_if (negb (String.eqb (ra_Status a) RotationAckRevoked) || negb (bool_decide (tg_state t = RotationTargetRevoking))
          || negb (for_session a (rv_SessionID (tg_revoke t)) (rv_ProcessGeneration (tg_revoke t)))) stale_generation);;
        conclude_revoked now (ra_ConnectorID a) t a stored
  end.

Definition Rotation_Fail (ctx : Context) (connectorID code : string) (stored : option error) : RM SumErr RotationSummary :=
  zero_sum (fail_if (no_ctx ctx || negb (ValidCode code) || String.eqb code "") ErrInvalidInput);;
  c ← coordinator;
  match rk_targets c !! connectorID with
  | None => zero_sum (mfail identity_mismatch)
  | Some t =>
      if decide (tg_state t = RotationTargetRevoked) then mfail (summaryLocked c, stale_generation)
      else if decide (tg_state t = RotationTargetFailed) then
        mfail (summaryLocked c, CodeError CodeCredentialRotationFailed ReasonCredentialRotation false (Some (Foreign (tg_code t))))
      else conclude_failure connectorID t code (failureAckLocked c (failed_target code t) code) stored rotation_failed
  end.

(** *** Resuming after a restart *)

(** The message belongs to the plan and the target. *)
Definition of_plan (plan : RotationPlan) (t : RotationTarget) (account tunnel operation hash connector host : string) : bool :=
  String.eqb account (rp_AccountID plan) && String.eqb tunnel (rp_TunnelID plan) && String.eqb operation (rp_OperationID plan)
  && String.eqb hash (rp_TargetSetHash plan) && String.eqb connector (rt_ConnectorID t) && String.eqb host (rt_HostID t).

Definition resume_challenge_bad (plan : RotationPlan) (r : RotationResumeTarget) : bool :=
  let c := ro_Challenge r in
  bad (CredentialRotationChallenge_Validate c time.zero)
  || negb (of_plan plan (ro_Target r) (rc_AccountID c) (rc_TunnelID c) (rc_OperationID c) (rc_TargetSetHash c) (rc_ConnectorID c) (rc_HostID c))
  || negb (bool_decide (rc_Target c = ro_Target r)).

Definition resume_install_bad (plan : RotationPlan) (r : RotationResumeTarget) : bool :=
  let i := ro_Install r in let c := ro_Challenge r in
  bad (CredentialRotationInstall_Validate i time.zero)
  || negb (of_plan plan (ro_Target r) (it_AccountID i) (it_TunnelID i) (it_OperationID i) (it_TargetSetHash i) (it_ConnectorID i) (it_HostID i))
  || negb (String.eqb (it_SessionID i) (rc_SessionID c)) || negb (it_ProcessGeneration i =? rc_ProcessGeneration c)%Z
  || negb (it_OldCredentialGeneration i =? rt_OldCredentialGeneration (ro_Target r))%Z
  || negb (it_NewCredentialGeneration i =? rt_NewCredentialGeneration (ro_Target r))%Z
  || negb (String.eqb (it_ChallengeNonce i) (rc_ChallengeNonce c)).

Definition resume_ready_bad (plan : RotationPlan) (r : RotationResumeTarget) : bool :=
  let y := ro_Ready r in let i := ro_Install r in
  bad (CredentialRotationReady_Validate y time.zero)
  || negb (of_plan plan (ro_Target r) (rr_AccountID y) (rr_TunnelID y) (rr_OperationID y) (rr_TargetSetHash y) (rr_ConnectorID y) (rr_HostID y))
  || negb (String.eqb (rr_PreviousSessionID y) (it_SessionID i)) || String.eqb (rr_SessionID y) (it_SessionID i)
  || (rr_ProcessGeneration y <? it_ReplacementProcessGeneration i)%Z
  || negb (rr_OldCredentialGeneration y =? rt_OldCredentialGeneration (ro_Target r))%Z
  || negb (rr_NewCredentialGeneration y =? rt_NewCredentialGeneration (ro_Target r))%Z
  || negb (String.eqb (rr_NewIdentityKeyID y) (it_NewIdentityKeyID i))
  || negb (String.eqb (rr_NewIdentityKeyThumbprint y) (it_NewIdentityKeyThumbprint i))
  || negb (String.eqb (rr_NewPublicKey y) (it_NewPublicKey i)) || negb (String.eqb (rr_NewCredentialReference y) (it_NewCredentialReference i))
  || negb (rr_NewCredentialValidUntil y =? it_NewCredentialValidUntil i)%Z.

Definition resume_revoke_bad (plan : RotationPlan) (r : RotationResumeTarget) : bool :=
  let v := ro_Revoke r in let y := ro_Ready r in
  let sameReadySession := (rv_ProcessGeneration v =? rr_ProcessGeneration y)%Z && String.eqb (rv_SessionID v) (rr_SessionID y) in
  let reboundSession := (rr_ProcessGeneration y <? rv_ProcessGeneration v)%Z && negb (String.eqb (rv_SessionID v) (rr_SessionID y)) in
  bad (CredentialRotationRevoke_Validate v time.zero)
  || negb (of_plan plan (ro_Target r) (rv_AccountID v) (rv_TunnelID v) (rv_OperationID v) (rv_TargetSetHash v) (rv_ConnectorID v) (rv_HostID v))
  || negb sameReadySession && negb reboundSession
  || negb (rv_OldCredentialGeneration v =? rt_OldCredentialGeneration (ro_Target r))%Z
  || negb (rv_NewCredentialGeneration v =? rt_NewCredentialGeneration (ro_Target r))%Z.

Definition present (sessionID : string) : bool := negb (String.eqb sessionID "").

(** The phase and what is recorded of it. *)
Definition phase_bad (state : RotationTargetState) (challenge install ready revoke : bool) : bool :=
  match state with
  | RotationTargetPending => challenge || install || ready || revoke
  | RotationTargetChallenged => negb challenge || install || ready || revoke
  | RotationTargetInstalled => negb install || ready || revoke
  | RotationTargetReady => negb ready || revoke
  | RotationTargetRevoking | RotationTargetRevoked => negb revoke
  | _ => false
  end.

Definition validateRotationResumeTarget (plan : RotationPlan) (r : RotationResumeTarget) : option error :=
  match RotationTarget_Validate (ro_Target r) with Some e => Some e | None =>
  if negb (bool_decide (RotationPlan_Target plan (rt_ConnectorID (ro_Target r)) = Some (ro_Target r))) then Some ErrIdentityMismatch
  else if negb (ValidRotationTargetState (ro_State r)) then Some ErrInvalidInput
  else if bool_decide (ro_State r = RotationTargetFailed) && (String.eqb (ro_Code r) "" || negb (ValidCode (ro_Code r))) then Some ErrInvalidInput
  else if negb (bool_decide (ro_State r = RotationTargetFailed)) && negb (String.eqb (ro_Code r) "") then Some ErrInvalidInput
  else if negb (eqb (time.IsZero (ro_OverlapUntil r)) (time.IsZero (ro_NewCredentialValidUntil r)))
          || negb (time.IsZero (ro_OverlapUntil r)) && negb (time.After (ro_NewCredentialValidUntil r) (ro_OverlapUntil r)) then Some ErrInvalidInput
  else
  let challenge := present (rc_SessionID (ro_Challenge r)) in
  let install := present (it_SessionID (ro_Install r)) in
  let ready := present (rr_SessionID (ro_Ready r)) in
  let revoke := present (rv_SessionID (ro_Revoke r)) in
  if negb challenge && (install || ready || revoke) then Some ErrInvalidInput
  else if negb install && (ready || revoke) then Some ErrInvalidInput
  else if negb ready && revoke then Some ErrInvalidInput
  else if challenge && resume_challenge_bad plan r then Some ErrIdentityMismatch
  else if install && resume_install_bad plan r then Some ErrIdentityMismatch
  else if ready && resume_ready_bad plan r then Some ErrIdentityMismatch
  else if revoke && resume_revoke_bad plan r then Some ErrIdentityMismatch
  else if phase_bad (ro_State r) challenge install ready revoke then Some ErrInvalidInput
  else None
  end.

(** The loop that checks the recovered targets against those of the coordinator. *)
Fixpoint resume_targets_loop (c : RotationCoordinator) (seen : list string) (recovered : list RotationResumeTarget) : bool :=
  match recovered with
  | [] => true
  | r :: recovered' =>
      let id := rt_ConnectorID (ro_Target r) in
      if decide (id ∈ seen) then false
      else match rk_targets c !! id with
           | None => false
           | Some t =>
               if negb (bool_decide (tg_target t = ro_Target r)) || negb (ValidRotationTargetState (ro_State r))
                  || bad (validateRotationResumeTarget (rk_plan c) r)
               then false else resume_targets_loop c (id :: seen) recovered'
           end
  end.

Definition resume_target (t : rotationTargetState) (r : RotationResumeTarget) : rotationTargetState :=
  mkRotationTargetState (tg_target t) (ro_State r) (ro_Code r) (ro_Challenge r) (ro_Proof r) (ro_Install r) (ro_Ready r) (ro_Revoke r).

Definition resume_mismatch (what : string) : error := CodeError CodeIdentityMismatch ReasonCredentialRotation false (Some (Foreign what)).

(** The time at which the operation ended; [None] when it does not fit the states. *)
Definition resume_finished (now : Z) (loaded : RotationResume) : option Z :=
  if time.IsZero (re_FinishedAt loaded) then Some time.zero
  else
    let failed := existsb (λ r, bool_decide (ro_State r = RotationTargetFailed)) (re_Targets loaded) in
    let allRevoked := forallb (λ r, bool_decide (ro_State r = RotationTargetRevoked)) (re_Targets loaded) in
    if negb failed && negb allRevoked then None
    else if time.After (re_FinishedAt loaded) (now + MaxClockSkew) then None
    else Some (re_FinishedAt loaded).

(** [load] is what the recovery store answers; [None] is a store that does not support it. *)
Definition Resume (ctx : Context) (now : Z) (load : option (error + RotationResume)) : RM error () :=
  fail_if (no_ctx ctx) ErrInvalidInput;;
  check (canceled ctx);;
  c ← coordinator;
  match load with
  | None => mfail (CodeError CodeUnsupportedMessage ReasonCredentialRotation false (Some (Foreign "rotation persistence does not support recovery")))
  | Some (inl e) => mfail (CodeError CodeCredentialRotationFailed ReasonCredentialRotation true (Some e))
  | Some (inr loaded) =>
      fail_if (negb (re_Started loaded) || negb (String.eqb (rp_AccountID (re_Plan loaded)) (rp_AccountID (rk_plan c)))
               || negb (String.eqb (rp_TunnelID (re_Plan loaded)) (rp_TunnelID (rk_plan c)))
               || negb (String.eqb (rp_OperationID (re_Plan loaded)) (rp_OperationID (rk_plan c)))
               || negb (String.eqb (rp_TargetSetHash (re_Plan loaded)) (rp_TargetSetHash (rk_plan c)))
               || bad (RotationPlan_Validate (re_Plan loaded)))
        (resume_mismatch "rotation recovery plan mismatch");;
      if rk_started c then mret ()
      else
        fail_if (negb (length (re_Targets loaded) =? size (rk_targets c))%nat) (resume_mismatch "rotation recovery target count mismatch");;
        fail_if (negb (resume_targets_loop c [] (re_Targets loaded))) (resume_mismatch "rotation recovery target or phase mismatch");;
        match resume_finished now loaded with
        | None => mfail (resume_mismatch "rotation recovery finished timestamp")
        | Some finished =>
            mset (λ w, (mkRotationCoordinator (rk_plan w.1) true finished
              (foldl (λ m r, let id := rt_ConnectorID (ro_Target r) in
                match m !! id with Some t => <[id := resume_target t r]> m | None => m end) (rk_targets w.1) (re_Targets loaded)), w.2))
        end
  end.

(** ** MemoryRotationPersistence: the record itself *)

Definition same_plan (a b : RotationPlan) : bool :=
  String.eqb (rp_AccountID a) (rp_AccountID b) && String.eqb (rp_TunnelID a) (rp_TunnelID b) && String.eqb (rp_TargetSetHash a) (rp_TargetSetHash b)
  && (length (rp_Targets a) =? length (rp_Targets b))%nat.

(** The plan that was begun under the operation; the record is newest first, so the first one is the last found. *)
Definition begun_plan (log : list Write) (operationID : string) : option RotationPlan :=
  last (omap (λ w, match w with Begun p => if String.eqb (rp_OperationID p) operationID then Some p else None | _ => None end) log).

(** BeginCredentialRotation: the error, and whether the plan is appended. *)
Definition BeginCredentialRotation (failure : option error) (log : list Write) (plan : RotationPlan) : option error :=
  match failure with
  | Some e => Some e
  | None => match begun_plan log (rp_OperationID plan) with
            | Some started => if same_plan started plan then None else Some ErrContentHashMismatch
            | None => None
            end
  end.

Definition ErrRotationNotFound : error := Foreign "credential rotation operation is not available".

(** The last element of the record that [f] picks. *)
Definition latest {A} (f : Write → option A) (log : list Write) : option A := head (omap f log).

Definition entry_pending (t : RotationTarget) : RotationResumeTarget :=
  mkRotationResumeTarget t RotationTargetPending "" time.zero time.zero zeroChallenge zeroProof zeroInstall zeroReady zeroRevoke.

Definition mine (operation connector : string) (operation' connector' : string) : bool := String.eqb operation' operation && String.eqb connector' connector.

(** The state of the target in the last recorded result that names it. *)
Definition concluded_state (op connector : string) (log : list Write) : option (RotationTargetState * string) :=
  latest (λ w, match w with
    | Concluded _ s => if String.eqb (su_OperationID s) op
        then last (omap (λ t, if String.eqb (rt_ConnectorID (ts_Target t)) connector then Some (ts_State t, ts_Code t) else None) (su_Targets s)) else None
    | _ => None end) log.

Definition load_target (op : string) (log : list Write) (t : RotationTarget) : RotationResumeTarget :=
  let id := rt_ConnectorID t in
  let challenge := latest (λ w, match w with Challenged c => if mine op id (rc_OperationID c) (rc_ConnectorID c) then Some c else None | _ => None end) log in
  let proven := latest (λ w, match w with Proven _ p i => if mine op id (pf_OperationID p) (pf_ConnectorID p) then Some (p, i) else None | _ => None end) log in
  let readied := latest (λ w, match w with Readied r => if mine op id (rr_OperationID r) (rr_ConnectorID r) then Some r else None | _ => None end) log in
  let revoked := latest (λ w, match w with Revoked r => if mine op id (rv_OperationID r) (rv_ConnectorID r) then Some r else None | _ => None end) log in
  let '(state, code) :=
    match revoked with
    | Some _ => default (RotationTargetRevoking, "") (concluded_state op id log)
    | None =>
        (if is_set readied then RotationTargetReady else if is_set proven then RotationTargetInstalled
         else if is_set challenge then RotationTargetChallenged else RotationTargetPending, "")
    end in
  mkRotationResumeTarget t state code (default time.zero (rc_OverlapUntil <$> challenge)) (default time.zero (rc_NewCredentialValidUntil <$> challenge))
    (default zeroChallenge challenge) (default zeroProof (fst <$> proven)) (default zeroInstall (snd <$> proven)) (default zeroReady readied)
    (default zeroRevoke revoked).

Definition finished_at (op : string) (log : list Write) : Z :=
  default time.zero (latest (λ w, match w with
    | Concluded _ s => if String.eqb (su_OperationID s) op && String.eqb (su_Status s) RotationAggregateSucceeded then Some (su_CompletedAt s) else None
    | _ => None end) log).

Definition LoadCredentialRotation (failure : option error) (log : list Write) (plan : RotationPlan) : error + RotationResume :=
  match failure with
  | Some e => inl e
  | None =>
      match begun_plan log (rp_OperationID plan) with
      | None => inl ErrRotationNotFound
      | Some started =>
          if negb (same_plan started plan) then inl ErrContentHashMismatch
          else inr (mkRotationResume started true (finished_at (rp_OperationID plan) log) (load_target (rp_OperationID plan) log <$> rp_Targets started))
      end
  end.
End coordinator.

Arguments RotationProofMatchesChallenge : simpl never.
Arguments install_of : simpl never.
Arguments ready_mismatch : simpl never.
Arguments ack_mismatch : simpl never.
Arguments rotationNegativeAckMatches : simpl never.
Arguments summaryLocked : simpl never.
Arguments allReadyLocked : simpl never.
Arguments failureAckLocked : simpl never.
Arguments validateRotationResumeTarget {_ _} : simpl never.
