(* ===== verification/RotationSpec.v ===== *)
(** * What a rotation guarantees

    The durable record of a rotation is in order, across restarts: old credentials are revoked only after every replacement
    was proven, installed and reported ready.  A recovery store is an interface, [RotationRecovery], of which
    MemoryRotationPersistence is an instance. *)
From S2P Require Import Prelude GoStd GoData GoNet GoEnc StateErr ConnProto ConnMessages Sessions Rotation RotationCoord ConnExample.

(** ** Taking a call apart *)

Section inversion.
Context {E : Type}.

Lemma coordinator_inv w w' (r : E + RotationCoordinator) : coordinator w = (w', r) → w' = w ∧ r = inr w.1.
Proof. unfold coordinator, mthen, mget, mret. by intros [= <- <-]. Qed.

(** The coordinator with another state of a target. *)
Definition with_target (k : string) (t : rotationTargetState) (c : RotationCoordinator) : RotationCoordinator :=
  mkRotationCoordinator (rk_plan c) (rk_started c) (rk_finished c) (<[k := t]> (rk_targets c)).

Lemma save_inv k t w w' (r : E + ()) : save_target k t w = (w', r) → w' = (with_target k t w.1, w.2) ∧ r = inr ().
Proof. unfold save_target, mset. by intros [= <- <-]. Qed.

Lemma wrote_inv x w w' (r : E + ()) : wrote x w = (w', r) → w' = (w.1, x :: w.2) ∧ r = inr ().
Proof. unfold wrote, mset. by intros [= <- <-]. Qed.

Lemma finished_inv now w w' (r : E + ()) :
  put_finished now w = (w', r) → w' = (mkRotationCoordinator (rk_plan w.1) (rk_started w.1) now (rk_targets w.1), w.2) ∧ r = inr ().
Proof. unfold put_finished, mset. by intros [= <- <-]. Qed.
End inversion.

Lemma lift_error_inv {S E E' A} (f : E → E') (m : M S E A) s s' r :
  map_error f m s = (s', r) → ∃ r0, m s = (s', r0) ∧ r = match r0 with inl e => inl (f e) | inr a => inr a end.
Proof. unfold map_error. destruct (m s) as [s1 [e|a]]; intros [= <- <-]; eauto. Qed.

Ltac step_rotation :=
  match goal with
  | H : coordinator _ = (_, _) |- _ => apply coordinator_inv in H as [-> H]; try (injection H as H; subst)
  | H : save_target _ _ _ = (_, _) |- _ => apply save_inv in H as [-> H]; try discriminate H
  | H : wrote _ _ = (_, _) |- _ => apply wrote_inv in H as [-> H]; try discriminate H
  | H : put_finished _ _ = (_, _) |- _ => apply finished_inv in H as [-> H]; try discriminate H
  | H : zero_sum _ _ = (_, _) |- _ => unfold zero_sum in H
  | H : map_error _ _ _ = (_, _) |- _ => apply lift_error_inv in H as ([?|?] & H & ?)
  | _ => step_call
  end; cbn [fst snd] in *; simplify_eq.

Ltac split_rotation :=
  repeat first
    [ step_rotation
    | match goal with
      | H : (if ?c then _ else _) _ = (_, _) |- _ => destruct c eqn:?
      | H : (match ?o with _ => _ end) _ = (_, _) |- _ => destruct o eqn:?
      end ].

(** ** The order of the record *)

Section rotation.
Context `{NetURL} `{SHA256} `{RotationJSON} `{Ed25519}.
Context (plan : RotationPlan) (verify : CredentialRotationProof → string → string → option error).

(** The connector acknowledged that its old credential is revoked. *)
Definition acknowledged (log : list Write) (k : string) : Prop :=
  ∃ a s, Concluded a s ∈ log ∧ ra_ConnectorID a = k ∧ ra_Status a = RotationAckRevoked.

(** What must be in the record before an entry. *)
Definition entry_ok (earlier : list Write) (x0 : Write) : Prop :=
  match x0 with
  | Begun _ => True
  | Challenged c => CredentialRotationChallenge_Validate c time.zero = None ∧ rc_Target c ∈ rp_Targets plan
  | Proven c p i =>
      Challenged c ∈ earlier ∧ RotationProofMatchesChallenge p c (rc_Target c) = true ∧ i = install_of plan c p ∧
      ∃ now, VerifyCredentialRotationProofAt p verify now = None
  | Readied r =>
      rr_EdgeReady r = true ∧ rr_RouteReady r = true ∧ rr_OriginReady r = true ∧
      ∃ c p i, Proven c p i ∈ earlier ∧ ready_mismatch plan i r = false
  | Revoked _ => ∀ t, t ∈ rp_Targets plan → ∃ r, Readied r ∈ earlier ∧ rr_ConnectorID r = rt_ConnectorID t
  | Concluded a s =>
      (ra_Status a = RotationAckRevoked → ∃ v, Revoked v ∈ earlier ∧ rv_ConnectorID v = ra_ConnectorID a ∧
         for_session a (rv_SessionID v) (rv_ProcessGeneration v) = true) ∧
      (∀ x, x ∈ su_Targets s → ts_State x = RotationTargetRevoked → acknowledged (x0 :: earlier) (rt_ConnectorID (ts_Target x))) ∧
      (su_Status s = RotationAggregateSucceeded → ∀ t, t ∈ rp_Targets plan → acknowledged (x0 :: earlier) (rt_ConnectorID t))
  end.

Fixpoint record_ok (log : list Write) : Prop :=
  match log with [] => True | x :: earlier => entry_ok earlier x ∧ record_ok earlier end.

(** ** Targets and the record *)

(** What the state of a target says about the record. *)
Record target_ok (log : list Write) (k : string) (t : rotationTargetState) : Prop := {
  to_key : rt_ConnectorID (tg_target t) = k ∧ tg_target t ∈ rp_Targets plan;
  to_challenged : tg_state t = RotationTargetChallenged → Challenged (tg_challenge t) ∈ log ∧ rc_Target (tg_challenge t) = tg_target t;
  to_installed : tg_state t = RotationTargetInstalled → ∃ c p, Proven c p (tg_install t) ∈ log;
  to_ready : ready_state (tg_state t) = true → Readied (tg_ready t) ∈ log ∧ rr_ConnectorID (tg_ready t) = k;
  to_revoked : tg_state t = RotationTargetRevoking ∨ tg_state t = RotationTargetRevoked → Revoked (tg_revoke t) ∈ log ∧ rv_ConnectorID (tg_revoke t) = k;
  to_acked : tg_state t = RotationTargetRevoked → acknowledged log k;
}.

Record rotation_ok (w : Rot) : Prop := {
  rk_same_plan : rk_plan w.1 = plan;
  rk_record : record_ok w.2;
  rk_known : ∀ k t, rk_targets w.1 !! k = Some t → target_ok w.2 k t;
  rk_all : ∀ t, t ∈ rp_Targets plan → ∃ s, rk_targets w.1 !! rt_ConnectorID t = Some s;
}.

Lemma acknowledged_mono log log' k : log ⊆ log' → acknowledged log k → acknowledged log' k.
Proof. intros Hl (a & s & Hin & ? & ?). exists a, s. split_and!; auto. Qed.

Lemma recorded_cons x log k : acknowledged log k → acknowledged (x :: log) k.
Proof. apply acknowledged_mono. by apply list_subseteq_cons. Qed.

(** An entry of the record was in order when it was written. *)
Lemma record_entry log x : record_ok log → x ∈ log → ∃ earlier, x :: earlier ⊆ log ∧ entry_ok earlier x.
Proof.
  induction log as [|y log IH]; [by intros _ Hx%elem_of_nil|]. intros [Hy Hlog] [->|Hx]%elem_of_cons.
  - by exists log.
  - destruct (IH Hlog Hx) as (earlier & Hsub & ?). exists earlier. split; [|done]. etrans; [exact Hsub|]. by apply list_subseteq_cons.
Qed.

Lemma target_ok_cons x log k t : target_ok log k t → target_ok (x :: log) k t.
Proof.
  intros [K1 K2 K3 K4 K5 K6]. constructor; [done|..].
  - intros Hs. destruct (K2 Hs). split; [by constructor|done].
  - intros Hs. destruct (K3 Hs) as (c & p & Hin). exists c, p. by constructor.
  - intros Hs. destruct (K4 Hs). split; [by constructor|done].
  - intros Hs. destruct (K5 Hs). split; [by constructor|done].
  - intros Hs. by apply recorded_cons, K6.
Qed.

(** A target that failed says nothing about the record. *)
Lemma failed_target_ok log k t code : target_ok log k t → target_ok log k (failed_target code t).
Proof. intros [K1 _ _ _ _ _]. constructor; simpl; try done. by intros [?|?]. Qed.

Lemma save_ok k t c log :
  rotation_ok (c, log) → target_ok log k t → rotation_ok (with_target k t c, log).
Proof.
  intros [Rp Rr Rk Ra] Ht. constructor; simpl in *; try done.
  - intros k' t' [[<- <-]|[_ Hk']]%lookup_insert_Some; [done|by apply Rk].
  - intros t' Hin. destruct (decide (k = rt_ConnectorID t')) as [->|Hne]; [rewrite lookup_insert_eq; eauto|].
    rewrite lookup_insert_ne by done. by apply Ra.
Qed.

Lemma wrote_ok x c log : rotation_ok (c, log) → entry_ok log x → rotation_ok (c, x :: log).
Proof.
  intros [Rp Rr Rk Ra] Hx. constructor; simpl in *; try done. intros k t Hk. by apply target_ok_cons, Rk.
Qed.

Lemma finished_ok now c log :
  rotation_ok (c, log) → rotation_ok (mkRotationCoordinator (rk_plan c) (rk_started c) now (rk_targets c), log).
Proof. intros [Rp Rr Rk Ra]. by constructor. Qed.

(** ** The steps *)

Lemma Start_ok ctx begun w w' r : Start ctx begun w = (w', r) → rotation_ok w → rotation_ok w'.
Proof.
  intros Hm Hok. unfold Start in Hm. split_rotation; try done. destruct w as [c log]. simpl.
  apply (wrote_ok (Begun (rk_plan c))) in Hok; [|done]. destruct Hok as [Rp Rr Rk Ra]. by constructor.
Qed.

Lemma challenge_unclocked c now : CredentialRotationChallenge_Validate c now = None → CredentialRotationChallenge_Validate c time.zero = None.
Proof.
  unfold CredentialRotationChallenge_Validate. replace (clocked time.zero) with false by reflexivity.
  match goal with |- (if ?a then _ else if ?b then _ else _) = None → _ => destruct a; [done|]; destruct b; [done|] end. done.
Qed.

Lemma Challenge_ok ctx now k id process key thumb nonce issued expires overlap valid auth stored w w' r :
  ChallengeWithCredentialExpiry ctx now k id process key thumb nonce issued expires overlap valid auth stored w = (w', r) →
  rotation_ok w → rotation_ok w'.
Proof.
  intros Hm Hok. unfold ChallengeWithCredentialExpiry in Hm. split_rotation; try done. destruct w as [c log]. cbn [fst snd] in *.
  rename select (rk_targets c !! k = Some _) into Hk. rename select (CredentialRotationChallenge_Validate _ _ = None) into Hv.
  pose proof (rk_known _ Hok _ _ Hk) as Ht. pose proof (to_key _ _ _ Ht) as [Hkey Hin]. apply challenge_unclocked in Hv.
  apply (save_ok k); [apply wrote_ok; done|]. constructor; cbn; try done.
  - intros _. split; [constructor|done].
  - by intros [?|?].
Qed.

Lemma AcceptProof_ok ctx now proof stored w w' r :
  AcceptProof verify ctx now proof stored w = (w', r) → rotation_ok w → rotation_ok w'.
Proof.
  intros Hm Hok. unfold AcceptProof in Hm. split_rotation; try done; destruct w as [c log]; cbn [fst snd] in *.
  all: rename select (rk_targets c !! _ = Some _) into Hk; pose proof (rk_known _ Hok _ _ Hk) as Ht.
  { apply save_ok; [done|]. by apply failed_target_ok. }
  to_prop. pose proof (to_challenged _ _ _ Ht) as Hch. destruct Hch as [Hch Htarget]; [done|].
  pose proof (rk_same_plan _ Hok) as Hplan. simpl in Hplan.
  apply save_ok; [apply wrote_ok; [done|]|].
  - simpl. rewrite Hplan, Htarget. split_and!; try done. by eexists.
  - constructor; cbn; try done; [apply (to_key _ _ _ Ht)| |by intros [?|?]]. intros _. eexists _, _. constructor.
Qed.

Lemma ready_flags r now :
  CredentialRotationReady_Validate r now = None → rr_EdgeReady r = true ∧ rr_RouteReady r = true ∧ rr_OriginReady r = true.
Proof.
  unfold CredentialRotationReady_Validate.
  match goal with |- (if ?a then _ else _) = None → _ => destruct a; [done|] end. destruct (key_matches _ _ _); [done|].
  destruct (rr_EdgeReady r), (rr_RouteReady r), (rr_OriginReady r); try done.
Qed.

Lemma rotation_MarkReady_ok ctx now x stored w w' r : MarkReady ctx now x stored w = (w', r) → rotation_ok w → rotation_ok w'.
Proof.
  intros Hm Hok. unfold MarkReady in Hm. split_rotation; try done; destruct w as [c log]; cbn [fst snd] in *.
  all: rename select (rk_targets c !! _ = Some _) into Hk; pose proof (rk_known _ Hok _ _ Hk) as Ht; to_prop.
  { apply save_ok; [done|]. by apply failed_target_ok. }
  destruct (CredentialRotationReady_Validate x now) eqn:Ev; [done|]. pose proof (rk_same_plan _ Hok) as Hplan. cbn in Hplan.
  destruct (to_installed _ _ _ Ht) as (ch & p & Hin); [done|].
  apply save_ok; [apply wrote_ok; [done|]|].
  - cbn. destruct (ready_flags _ _ Ev) as (? & ? & ?). split_and!; try done. exists ch, p. eexists. split; [exact Hin|]. by rewrite <-Hplan.
  - constructor; cbn; try done; [apply (to_key _ _ _ Ht)| |by intros [?|?]]. intros _. split; [constructor|done].
Qed.

(** When everything is ready, every target was reported ready. *)
Lemma all_ready_recorded c log :
  rotation_ok (c, log) → allReadyLocked c = true → ∀ t, t ∈ rp_Targets plan → ∃ r, Readied r ∈ log ∧ rr_ConnectorID r = rt_ConnectorID t.
Proof.
  intros Hok Hall t Hin. destruct (rk_all _ Hok t Hin) as [s Hs]. cbn in Hs.
  unfold allReadyLocked in Hall. rewrite forallb_forall in Hall.
  specialize (Hall (rt_ConnectorID t, s)). destruct (to_ready _ _ _ (rk_known _ Hok _ _ Hs)) as [? ?]; [|by eauto].
  apply Hall, list_elem_of_In, elem_of_map_to_list, Hs.
Qed.

Lemma Revoke_ok ctx now k nonce stored w w' r : Revoke ctx now k nonce stored w = (w', r) → rotation_ok w → rotation_ok w'.
Proof.
  intros Hm Hok. unfold Revoke in Hm. split_rotation; try done; destruct w as [c log]; cbn [fst snd] in *.
  all: rename select (rk_targets c !! _ = Some _) into Hk; pose proof (rk_known _ Hok _ _ Hk) as Ht; to_prop.
  { apply save_ok; [done|]. by apply failed_target_ok. }
  destruct (to_ready _ _ _ Ht) as [Hr Hrk]; [rename select (tg_state _ = RotationTargetReady) into Hs; by rewrite Hs|].
  apply save_ok; [apply wrote_ok; [done|]|].
  - cbn. by apply (all_ready_recorded c).
  - constructor; cbn; try done; [apply (to_key _ _ _ Ht)|..].
    + intros _. split; [by constructor|done].
    + intros _. split; [constructor|done].
Qed.

(** *** Failures and conclusions *)

(** A summary repeats the states of the targets, and succeeds only when every target is revoked. *)
Lemma summary_succeeded c :
  su_Status (summaryLocked c) = RotationAggregateSucceeded →
  ∀ t, t ∈ rp_Targets (rk_plan c) → tg_state (target_of c (rt_ConnectorID t)) = RotationTargetRevoked.
Proof.
  unfold summaryLocked. cbn. destruct (existsb _ _); [done|]. destruct (forallb _ _) eqn:Ef; [|done]. intros _ t Hin.
  rewrite forallb_forall in Ef. specialize (Ef (t, target_of c (rt_ConnectorID t))). cbn in Ef. rewrite bool_decide_eq_true in Ef.
  apply Ef. apply list_elem_of_In, list_elem_of_fmap. eauto.
Qed.

Lemma summary_targets c x :
  x ∈ su_Targets (summaryLocked c) → ts_Target x ∈ rp_Targets (rk_plan c) ∧ ts_State x = tg_state (target_of c (rt_ConnectorID (ts_Target x))).
Proof.
  unfold summaryLocked. cbn. rewrite list_elem_of_fmap. intros (p & -> & Hp). apply list_elem_of_fmap in Hp as (t & -> & Ht). by split.
Qed.

Lemma concluded_ok c log a s at_ :
  rk_plan c = plan → s = summaryLocked c ∨ s = with_completed (summaryLocked c) at_ →
  (ra_Status a = RotationAckRevoked → ∃ v, Revoked v ∈ log ∧ rv_ConnectorID v = ra_ConnectorID a ∧
     for_session a (rv_SessionID v) (rv_ProcessGeneration v) = true) →
  (∀ t, t ∈ rp_Targets plan → tg_state (target_of c (rt_ConnectorID t)) = RotationTargetRevoked →
     acknowledged (Concluded a s :: log) (rt_ConnectorID t)) →
  entry_ok log (Concluded a s).
Proof.
  intros Hplan Hs Ha Hall. split_and!; [exact Ha|..].
  - intros x Hx Hst. assert (Hx' : x ∈ su_Targets (summaryLocked c)) by (by destruct Hs; subst).
    apply summary_targets in Hx' as [Hin Heq]. rewrite Hplan in Hin. apply Hall; [done|congruence].
  - intros Hst t Hin. assert (Hst' : su_Status (summaryLocked c) = RotationAggregateSucceeded) by (by destruct Hs; subst).
    apply Hall; [done|]. apply summary_succeeded; [done|congruence].
Qed.

(** A target that is revoked was acknowledged. *)
Lemma revoked_acked c log t :
  rotation_ok (c, log) → t ∈ rp_Targets plan → tg_state (target_of c (rt_ConnectorID t)) = RotationTargetRevoked →
  acknowledged log (rt_ConnectorID t).
Proof.
  intros Hok Hin. destruct (rk_all _ Hok t Hin) as [x Hx]. cbn in Hx. unfold target_of. rewrite Hx. cbn.
  apply (to_acked _ _ _ (rk_known _ Hok _ _ Hx)).
Qed.

Lemma conclude_failure_ok k t code a stored failure w w' r :
  conclude_failure k t code a stored failure w = (w', r) → ra_Status a ≠ RotationAckRevoked → target_ok w.2 k t → rotation_ok w → rotation_ok w'.
Proof.
  intros Hm Ha Ht Hok. unfold conclude_failure in Hm. destruct w as [c log].
  assert (Hf : rotation_ok (with_target k (failed_target code t) c, log)) by (apply save_ok; [done|by apply failed_target_ok]).
  split_rotation; [by apply save_ok|]. apply wrote_ok; [done|]. eapply (concluded_ok _ _ _ _ time.zero); [apply (rk_same_plan _ Hf)|by left|done|].
  intros x Hin Hx. by apply recorded_cons, (revoked_acked _ _ _ Hf).
Qed.

Lemma target_of_with k t c k' : target_of (with_target k t c) k' = if decide (k = k') then t else target_of c k'.
Proof. unfold target_of, with_target. cbn. case_decide; [subst; by rewrite lookup_insert_eq|by rewrite lookup_insert_ne]. Qed.

(** The acknowledgement is recorded together with what it shows. *)
Lemma acked_ok k t c log a s at_ :
  rotation_ok (c, log) → target_ok log k t → tg_state t = RotationTargetRevoking → ra_Status a = RotationAckRevoked → ra_ConnectorID a = k →
  for_session a (rv_SessionID (tg_revoke t)) (rv_ProcessGeneration (tg_revoke t)) = true →
  ∀ c', c' = with_target k (put_state RotationTargetRevoked t) c ∨ c' = mkRotationCoordinator (rk_plan c) (rk_started c) at_ (<[k := put_state RotationTargetRevoked t]> (rk_targets c)) →
  s = summaryLocked (with_target k (put_state RotationTargetRevoked t) c) ∨ s = with_completed (summaryLocked (with_target k (put_state RotationTargetRevoked t) c)) at_ →
  rotation_ok (c', Concluded a s :: log).
Proof.
  intros Hok Ht Hs Ha Hk Hsess c' Hc' Hsum. destruct (to_revoked _ _ _ Ht) as [Hrev Hrk]; [by left|].
  assert (He : entry_ok log (Concluded a s)).
  { apply (concluded_ok (with_target k (put_state RotationTargetRevoked t) c) _ _ _ at_); [exact (rk_same_plan _ Hok)|exact Hsum|intros _; eexists; split_and!; [exact Hrev|congruence|done]|].
    intros x Hin. rewrite target_of_with. case_decide as Hd; [intros _; exists a, s; split_and!; [constructor|congruence|done]|].
    intros Hx. by apply recorded_cons, (revoked_acked c). }
  assert (Hsaved : rotation_ok (with_target k (put_state RotationTargetRevoked t) c, Concluded a s :: log)).
  { apply save_ok; [by apply wrote_ok|]. constructor; cbn; try done; [apply (to_key _ _ _ Ht)|intros _; apply (target_ok_cons (Concluded a s)) in Ht; apply (to_ready _ _ _ Ht); by rewrite Hs|
      intros _; split; [by constructor|done]|intros _; exists a, s; split_and!; [constructor|done|done]]. }
  destruct Hc' as [->| ->]; [done|]. exact (finished_ok at_ _ _ Hsaved).
Qed.

Lemma conclude_revoked_ok now k t a stored w w' r :
  conclude_revoked now k t a stored w = (w', r) → target_ok w.2 k t → tg_state t = RotationTargetRevoking → ra_Status a = RotationAckRevoked →
  ra_ConnectorID a = k → for_session a (rv_SessionID (tg_revoke t)) (rv_ProcessGeneration (tg_revoke t)) = true → rotation_ok w → rotation_ok w'.
Proof.
  intros Hm Ht Hs Ha Hk Hsess Hok. unfold conclude_revoked in Hm. destruct w as [c log]. cbn [fst snd] in *.
  assert (Hf : target_ok log k (failed_target CodeCredentialRotationFailed (put_state RotationTargetRevoked t))).
  { constructor; cbn; try done; [apply (to_key _ _ _ Ht)|by intros [?|?]]. }
  split_rotation.
  1,3: unfold with_target; cbn; rewrite insert_insert_eq; first [exact (save_ok _ _ _ _ Hok Hf)|exact (finished_ok now _ _ (save_ok _ _ _ _ Hok Hf))].
  all: eapply (acked_ok _ _ _ _ _ _ now Hok Ht Hs Ha eq_refl Hsess); auto.
Qed.

Lemma HandleAck_rotation_ok ctx now a stored w w' r : Rotation_HandleAck ctx now a stored w = (w', r) → rotation_ok w → rotation_ok w'.
Proof.
  intros Hm Hok. unfold Rotation_HandleAck in Hm. split_rotation; try done.
  all: rename select (rk_targets w.1 !! _ = Some _) into Hk; pose proof (rk_known _ Hok _ _ Hk) as Ht.
  - rename select (String.eqb _ _ || String.eqb _ _ = true) into Hstatus.
    eapply conclude_failure_ok; [eassumption| |eassumption..]. intros Hr. by rewrite Hr in Hstatus.
  - to_prop. eapply conclude_revoked_ok; try eassumption; done.
Qed.

Lemma Fail_rotation_ok ctx k code stored w w' r : Rotation_Fail ctx k code stored w = (w', r) → rotation_ok w → rotation_ok w'.
Proof.
  intros Hm Hok. unfold Rotation_Fail in Hm. split_rotation; try done.
  rename select (rk_targets w.1 !! _ = Some _) into Hk. pose proof (rk_known _ Hok _ _ Hk) as Ht.
  eapply conclude_failure_ok; [eassumption| |eassumption..]. unfold failureAckLocked. by repeat case_match.
Qed.
(** *** Resuming *)

(** A recovered target says nothing that is not in the record. *)
Record faithful (log : list Write) (r : RotationResumeTarget) : Prop := {
  fa_challenge : present (rc_SessionID (ro_Challenge r)) = true → Challenged (ro_Challenge r) ∈ log;
  fa_install : present (it_SessionID (ro_Install r)) = true → ∃ c, Proven c (ro_Proof r) (ro_Install r) ∈ log;
  fa_ready : present (rr_SessionID (ro_Ready r)) = true → Readied (ro_Ready r) ∈ log;
  fa_revoke : present (rv_SessionID (ro_Revoke r)) = true → Revoked (ro_Revoke r) ∈ log;
  fa_revoked : ro_State r = RotationTargetRevoked → ∃ a s x, Concluded a s ∈ log ∧ x ∈ su_Targets s ∧ ts_State x = RotationTargetRevoked ∧
    rt_ConnectorID (ts_Target x) = rt_ConnectorID (ro_Target r);
}.

(** What validateRotationResumeTarget establishes of a phase. *)
Lemma resumed_phase r :
  validateRotationResumeTarget plan r = None →
  (ro_State r = RotationTargetChallenged → present (rc_SessionID (ro_Challenge r)) = true ∧ rc_Target (ro_Challenge r) = ro_Target r) ∧
  (ro_State r = RotationTargetInstalled → present (it_SessionID (ro_Install r)) = true) ∧
  (ready_state (ro_State r) = true → present (rr_SessionID (ro_Ready r)) = true ∧ rr_ConnectorID (ro_Ready r) = rt_ConnectorID (ro_Target r)) ∧
  (ro_State r = RotationTargetRevoking ∨ ro_State r = RotationTargetRevoked →
     present (rv_SessionID (ro_Revoke r)) = true ∧ rv_ConnectorID (ro_Revoke r) = rt_ConnectorID (ro_Target r)).
Proof.
  unfold validateRotationResumeTarget. destruct (RotationTarget_Validate _); [done|].
  do 5 (match goal with |- (if ?a then _ else _) = None → _ => destruct a; [done|] end). cbv zeta.
  destruct (present (rc_SessionID _)) eqn:Ec, (present (it_SessionID _)) eqn:Ei, (present (rr_SessionID _)) eqn:Er, (present (rv_SessionID _)) eqn:Ev; cbn;
    try done.
  all: repeat match goal with |- (if ?a then _ else _) = None → _ => destruct a eqn:?; [done|] end; intros _.
  all: unfold resume_challenge_bad, resume_ready_bad, resume_revoke_bad, of_plan in *; to_prop.
  all: split_and!; try (intros Hs; rewrite ?Hs in *; cbn in *; done); intros Hs; destruct (ro_State r); try done; try (by destruct Hs);
    split; try done; to_prop; try done.
Qed.

Lemma resume_target_ok log k t r :
  record_ok log → target_ok log k t → tg_target t = ro_Target r → validateRotationResumeTarget plan r = None → faithful log r → target_ok log k (resume_target t r).
Proof.
  intros Hlog Ht Heq Hv [Fc Fi Fr Fv Fd]. destruct (resumed_phase _ Hv) as (P1 & P2 & P3 & P4). destruct (to_key _ _ _ Ht) as [Hk Hin].
  rewrite <-Heq, Hk in P3, P4. rewrite <-Heq in P1. constructor; cbn; try done.
  - intros Hs. destruct (P1 Hs). auto.
  - intros Hs. destruct (Fi (P2 Hs)). eauto.
  - intros Hs. destruct (P3 Hs). auto.
  - intros Hs. destruct (P4 Hs). auto.
  - intros Hs. destruct (Fd Hs) as (a & s & x & Hin' & Hx & Hxs & Hxc). destruct (record_entry _ _ Hlog Hin') as (earlier & Hsub & _ & He & _).
    rewrite <-Hk, Heq, <-Hxc. eapply acknowledged_mono; [exact Hsub|]. by apply He.
Qed.

Lemma resume_loop_inv c seen rs :
  resume_targets_loop c seen rs = true →
  ∀ r, r ∈ rs → ∃ t, rk_targets c !! rt_ConnectorID (ro_Target r) = Some t ∧ tg_target t = ro_Target r ∧ validateRotationResumeTarget (rk_plan c) r = None.
Proof.
  revert seen; induction rs as [|r rs IH]; intros seen; cbn [resume_targets_loop]; [intros _ r Hr; inversion Hr|].
  destruct (decide _); [done|]. destruct (rk_targets c !! _) as [t|] eqn:Et; [|done].
  match goal with |- (if ?a then _ else _) = _ → _ => destruct a eqn:Ea; [done|] end. intros Hrs x. rewrite elem_of_cons. intros [->|Hx]; [|by eapply IH].
  to_prop. exists t. split_and!; try done. by destruct (validateRotationResumeTarget (rk_plan c) r).
Qed.

(** The map of targets after the last loop of Resume. *)
Lemma resume_map_ok c log rs (m : gmap string rotationTargetState) :
  record_ok log → (∀ r, r ∈ rs → (∃ t, rk_targets c !! rt_ConnectorID (ro_Target r) = Some t ∧ tg_target t = ro_Target r) ∧
     validateRotationResumeTarget plan r = None ∧ faithful log r) →
  (∀ k t, m !! k = Some t → target_ok log k t ∧ ∃ t0, rk_targets c !! k = Some t0 ∧ tg_target t = tg_target t0) →
  let m' := foldl (λ m r, let id := rt_ConnectorID (ro_Target r) in match m !! id with Some t => <[id := resume_target t r]> m | None => m end) m rs in
  (∀ k t, m' !! k = Some t → target_ok log k t) ∧ (∀ k, is_Some (m !! k) → is_Some (m' !! k)).
Proof.
  intros Hlog. revert m; induction rs as [|r rs IH]; intros m Hrs Hm; cbn [foldl]; [split; [intros k t Hk; by apply Hm|done]|]. cbv zeta.
  destruct (Hrs r) as ((t0 & Ht0 & Heq) & Hv & Hf); [constructor|].
  destruct (m !! rt_ConnectorID (ro_Target r)) as [t|] eqn:Et; [|apply IH; [intros x Hx; apply Hrs; by constructor|done]].
  destruct (IH (<[rt_ConnectorID (ro_Target r) := resume_target t r]> m)) as [IH1 IH2].
  - intros x Hx. apply Hrs. by constructor.
  - intros k t' [[<- <-]|[_ Hk]]%lookup_insert_Some; [|by apply Hm]. destruct (Hm _ _ Et) as [Hok (t1 & Ht1 & Heq1)].
    split; [|by exists t1]. apply resume_target_ok; try done. congruence.
  - split; [exact IH1|]. intros k Hk. apply IH2. destruct (decide (k = rt_ConnectorID (ro_Target r))) as [->|Hne];
      [rewrite lookup_insert_eq; eauto|by rewrite lookup_insert_ne].
Qed.

Lemma Resume_ok ctx now load w w' r :
  Resume ctx now load w = (w', r) → (∀ loaded, load = Some (inr loaded) → ∀ x, x ∈ re_Targets loaded → faithful w.2 x) →
  rotation_ok w → rotation_ok w'.
Proof.
  intros Hm Hf Hok. unfold Resume in Hm. split_rotation; try done. destruct w as [c log]. cbn [fst snd] in *.
  destruct Hok as [Rp Rr Rk Ra]. cbn [fst snd] in *. rename select (negb (resume_targets_loop _ _ _) = false) into Hl. apply negb_false_iff in Hl.
  destruct (resume_map_ok c log (re_Targets r0) (rk_targets c)) as [Hall Hdom]; [done|..].
  - intros x Hx. destruct (resume_loop_inv _ _ _ Hl x Hx) as (t & Ht & Heq & Hv). rewrite Rp in Hv. split_and!; eauto.
  - intros k t Hk. split; [by apply Rk|eauto].
  - constructor; cbn; try done. intros t Hin. apply (Hdom (rt_ConnectorID t)). destruct (Ra t Hin) as [s ->]. eauto.
Qed.
(** A new coordinator of the plan, with nothing started. *)
Lemma New_ok c log : NewRotationCoordinator plan = inr c → record_ok log → rotation_ok (c, log).
Proof.
  unfold NewRotationCoordinator. destruct (RotationPlan_Validate plan) eqn:Ep; [done|]. intros [= <-] Hlog.
  assert (Hm : ∀ ts (m : gmap string rotationTargetState),
    let m' := foldl (λ m t, <[rt_ConnectorID t := pending_target t]> m) m ts in
    (∀ k s, m' !! k = Some s → m !! k = Some s ∨ ∃ t, t ∈ ts ∧ k = rt_ConnectorID t ∧ s = pending_target t) ∧
    (∀ k, is_Some (m !! k) → is_Some (m' !! k)) ∧ (∀ t, t ∈ ts → is_Some (m' !! rt_ConnectorID t))).
  { intros ts. induction ts as [|t ts IH]; intros m; cbn [foldl]; [split_and!; [by left|done|intros t Ht; inversion Ht]|].
    destruct (IH (<[rt_ConnectorID t := pending_target t]> m)) as (I1 & I2 & I3). cbv zeta in *. split_and!.
    - intros k s Hk. destruct (I1 k s Hk) as [[[<- <-]|[_ ?]]%lookup_insert_Some|(x & Hx & ? & ?)]; [right|by left|right].
      + exists t. split_and!; [constructor|done|done].
      + exists x. split_and!; [by constructor|done|done].
    - intros k Hk. apply I2. destruct (decide (k = rt_ConnectorID t)) as [->|Hne]; [rewrite lookup_insert_eq; eauto|by rewrite lookup_insert_ne].
    - intros x. rewrite elem_of_cons. intros [->|Hx]; [|by apply I3]. apply I2. rewrite lookup_insert_eq. eauto. }
  destruct (Hm (rp_Targets plan) ∅) as (M1 & _ & M3). constructor; cbn; try done.
  intros k s Hk. destruct (M1 k s Hk) as [Hno|(t & Ht & -> & ->)]; [by rewrite lookup_empty in Hno|].
  constructor; cbn; try done. by intros [?|?].
Qed.
End rotation.

(** ** Recovery stores *)

(** What a recovery store promises: it loads nothing that was not recorded. *)
Class RotationRecovery := {
  load_rotation : list Write → RotationPlan → error + RotationResume;
  load_faithful : ∀ log plan loaded, load_rotation log plan = inr loaded → ∀ r, r ∈ re_Targets loaded → faithful log r;
}.

Lemma latest_in {A} (f : Write → option A) log a : latest f log = Some a → ∃ w, w ∈ log ∧ f w = Some a.
Proof.
  unfold latest. intros Hh. assert (Hin : a ∈ omap f log) by (destruct (omap f log); [done|injection Hh as ->; constructor]).
  by apply list_elem_of_omap in Hin.
Qed.

Lemma load_target_faithful op log t : faithful log (load_target op log t).
Proof.
  unfold load_target. cbv zeta. lazymatch goal with |- faithful _ (let '(_, _) := ?p in _) => destruct p as [state code] eqn:Est end. constructor; cbn; [clear Est|clear Est|clear Est|clear Est|].
  - destruct (latest _ log) as [c|] eqn:E; [|done]. intros _. apply latest_in in E as ([] & Hin & Hf); try done. by case_bool; simplify_eq.
  - destruct (latest _ log) as [[p i]|] eqn:E; [|done]. intros _. apply latest_in in E as ([] & Hin & Hf); try done. case_bool; simplify_eq. eauto.
  - destruct (latest _ log) as [c|] eqn:E; [|done]. intros _. apply latest_in in E as ([] & Hin & Hf); try done. by case_bool; simplify_eq.
  - destruct (latest _ log) as [c|] eqn:E; [|done]. intros _. apply latest_in in E as ([] & Hin & Hf); try done. by case_bool; simplify_eq.
  - intros ->. destruct (latest _ log); [|simpl in Est; repeat case_match; congruence]. destruct (concluded_state _ _ log) as [[st co]|] eqn:E; [|done]. simpl in Est.
    injection Est as -> ->. apply latest_in in E as ([] & Hin & Hf); try done. case_match; [|done].
    apply last_Some_elem_of, list_elem_of_omap in Hf as (x & Hx & Hf). destruct (String.eqb_spec (rt_ConnectorID (ts_Target x)) (rt_ConnectorID t)); [|done].
    injection Hf as Hst _. eauto 10.
Qed.

(** MemoryRotationPersistence keeps the promise. *)
#[export, refine] Instance memory_recovery : RotationRecovery := {| load_rotation := LoadCredentialRotation None |}.
Proof.
  intros log plan loaded. unfold LoadCredentialRotation. destruct (begun_plan _ _) as [started|]; [|done]. case_bool; [done|].
  intros [= <-] r. cbn. rewrite list_elem_of_fmap. intros (t & -> & _). apply load_target_faithful.
Defined.

(** ** Runs with restarts *)

Section runs.
Context `{NetURL} `{SHA256} `{RotationJSON} `{Ed25519} `{RotationRecovery}.
Context (plan : RotationPlan) (verify : CredentialRotationProof → string → string → option error).

(** A method of the coordinator. *)
Inductive rotation_call (w w' : Rot) : Prop :=
  | call_start ctx begun r : Start ctx begun w = (w', r) → rotation_call w w'
  | call_challenge ctx now k id process key thumb nonce issued expires overlap valid auth stored r :
      ChallengeWithCredentialExpiry ctx now k id process key thumb nonce issued expires overlap valid auth stored w = (w', r) → rotation_call w w'
  | call_proof ctx now proof stored r : AcceptProof verify ctx now proof stored w = (w', r) → rotation_call w w'
  | call_ready ctx now x stored r : MarkReady ctx now x stored w = (w', r) → rotation_call w w'
  | call_revoke ctx now k nonce stored r : Revoke ctx now k nonce stored w = (w', r) → rotation_call w w'
  | call_ack ctx now a stored r : Rotation_HandleAck ctx now a stored w = (w', r) → rotation_call w w'
  | call_fail ctx k code stored r : Rotation_Fail ctx k code stored w = (w', r) → rotation_call w w'.

(** A call, a restart, which forgets everything but the record, or resuming from it. *)
Inductive rotation_step (w w' : Rot) : Prop :=
  | rot_call : rotation_call w w' → rotation_step w w'
  | rot_restart c : NewRotationCoordinator plan = inr c → w' = (c, w.2) → rotation_step w w'
  | rot_resume ctx now r : Resume ctx now (Some (load_rotation w.2 (rk_plan w.1))) w = (w', r) → rotation_step w w'.

Definition rotation_reach (w : Rot) : Prop := ∃ c, NewRotationCoordinator plan = inr c ∧ rtc rotation_step (c, []) w.

Lemma rotation_step_ok w w' : rotation_step w w' → rotation_ok plan verify w → rotation_ok plan verify w'.
Proof.
  intros [Hc|c Hnew ->|ctx now r Hm] Hok.
  - destruct Hc; eauto using Start_ok, Challenge_ok, AcceptProof_ok, rotation_MarkReady_ok, Revoke_ok, HandleAck_rotation_ok, Fail_rotation_ok.
  - apply New_ok; [done|]. apply (rk_record _ _ _ Hok).
  - eapply Resume_ok; [exact Hm| |done]. intros loaded [= Hl]. by eapply load_faithful.
Qed.

Lemma record_split log : record_ok plan verify log → ∀ later x earlier, log = later ++ x :: earlier → entry_ok plan verify earlier x.
Proof.
  intros Hlog later x earlier ->. induction later as [|y later IH]; cbn in Hlog; [apply Hlog|]. apply IH, Hlog.
Qed.

(** C15: the record of a rotation is in order, across restarts and resumption from any faithful recovery store:
    a replacement is installed only for a proof that both keys signed over a challenge that was recorded; it is reported ready
    only when it is the installed one and edge, routes and origin are ready; an old credential is
    revoked only after the replacements of all targets of the plan were reported ready; an acknowledgement of a revocation is recorded only from the session
    and process that were told to revoke; and the rotation is recorded as succeeded, or a target as revoked, only when the connectors concerned (all of the plan, or that one) have
    acknowledged, in the record, that their old credentials are revoked. *)
Theorem rotation_in_order w (Hreach : rotation_reach w) :
  ∀ later x earlier, w.2 = later ++ x :: earlier → entry_ok plan verify earlier x.
Proof.
  apply record_split. destruct Hreach as (c & Hnew & Hr).
  assert (Hok : rotation_ok plan verify (c, [])) by by apply New_ok. clear Hnew.
  induction Hr as [w|w w1 w2 Hstep _ IH]; [by apply (rk_record _ _ _ Hok)|]. apply IH. by eapply rotation_step_ok.
Qed.
End runs.

(** ** Phases *)

(** The arrows of the state machine of a target. *)
Definition phase_next (s s' : RotationTargetState) : bool :=
  match s, s' with
  | RotationTargetPending, RotationTargetChallenged | RotationTargetChallenged, RotationTargetChallenged
  | RotationTargetChallenged, RotationTargetInstalled | RotationTargetInstalled, RotationTargetReady
  | RotationTargetReady, RotationTargetRevoking | RotationTargetRevoking, RotationTargetRevoked => true
  | RotationTargetRevoked, _ | RotationTargetFailed, _ => false
  | _, RotationTargetFailed => true
  | _, _ => false
  end.

(** The entry that records that the target reached a phase. *)
Definition records (k : string) (s : RotationTargetState) (x : Write) : Prop :=
  match s, x with
  | RotationTargetChallenged, Challenged c => rc_ConnectorID c = k
  | RotationTargetInstalled, Proven _ p _ => pf_ConnectorID p = k
  | RotationTargetReady, Readied r => rr_ConnectorID r = k
  | RotationTargetRevoking, Revoked v => rv_ConnectorID v = k
  | RotationTargetRevoked, Concluded a _ => ra_ConnectorID a = k
  | _, _ => False
  end.

(** One target moved along an arrow, with its entry, or failed; or none did. *)
Definition moved (w w' : Rot) : Prop :=
  rk_targets w'.1 = rk_targets w.1 ∨
  ∃ k t t', rk_targets w.1 !! k = Some t ∧ rk_targets w'.1 = <[k := t']> (rk_targets w.1) ∧ tg_target t' = tg_target t ∧
    (t' = t ∨ phase_next (tg_state t) (tg_state t') = true ∧
      (tg_state t' = RotationTargetFailed ∨ ∃ x, w'.2 = x :: w.2 ∧ records k (tg_state t') x)).

Lemma moved_one w w' k t t' log :
  rk_targets w.1 !! k = Some t → rk_targets w'.1 = <[k := t']> (rk_targets w.1) → tg_target t' = tg_target t →
  phase_next (tg_state t) (tg_state t') = true → w'.2 = log →
  tg_state t' = RotationTargetFailed ∨ (∃ x, log = x :: w.2 ∧ records k (tg_state t') x) → moved w w'.
Proof. intros Hk Hm Ht Hp <- Hx. right. exists k, t, t'. split_and!; auto. Qed.

Ltac solve_moved Hk :=
  eapply (moved_one _ _ _ _ _ _ Hk);
  [ cbn; rewrite ?insert_insert_eq; reflexivity | reflexivity | cbn | reflexivity
  | first [left; reflexivity | right; eexists; split; [reflexivity|cbn; reflexivity]] ].

Lemma conclude_failure_moved k t code a stored failure w w' r :
  conclude_failure k t code a stored failure w = (w', r) → rk_targets w.1 !! k = Some t → phase_next (tg_state t) RotationTargetFailed = true → moved w w'.
Proof.
  intros Hm Hk Hp. unfold conclude_failure in Hm. split_rotation; [|solve_moved Hk; exact Hp].
  left. cbn. by rewrite insert_insert_eq, insert_id.
Qed.

Lemma conclude_revoked_moved now a t stored w w' r :
  conclude_revoked now (ra_ConnectorID a) t a stored w = (w', r) → rk_targets w.1 !! ra_ConnectorID a = Some t →
  tg_state t = RotationTargetRevoking → moved w w'.
Proof.
  intros Hm Hk Hs. unfold conclude_revoked in Hm. split_rotation; solve_moved Hk; by rewrite Hs.
Qed.

Section phases.
Context `{NetURL} `{SHA256} `{RotationJSON} `{Ed25519}.
Context (verify : CredentialRotationProof → string → string → option error).

Lemma live_fails s :
  (bool_decide (s = RotationTargetRevoked) || bool_decide (s = RotationTargetFailed)) = false → ValidRotationTargetState s = true →
  phase_next s RotationTargetFailed = true.
Proof. destruct s; cbn; try done. Qed.

Lemma rotation_call_moved w w' :
  rotation_call verify w w' → (∀ k t, rk_targets w.1 !! k = Some t → ValidRotationTargetState (tg_state t) = true) → moved w w'.
Proof.
  intros Hc Hvalid.
  destruct Hc as [ctx begun r Hm|ctx now k id process key thumb nonce issued expires overlap valid auth stored r Hm|ctx now proof stored r Hm|
    ctx now x stored r Hm|ctx now k nonce stored r Hm|ctx now a stored r Hm|ctx k code stored r Hm].
  - left. unfold Start in Hm. split_rotation; done.
  - unfold ChallengeWithCredentialExpiry in Hm. split_rotation; try (by left). rename select (rk_targets w.1 !! k = Some _) into Hk. solve_moved Hk.
    rename select (_ && _ = false) into Hs. destruct (tg_state _); cbn in *; try done; by apply orb_true_iff in Hs.
  - unfold AcceptProof in Hm. split_rotation; try (by left); rename select (rk_targets w.1 !! _ = Some _) into Hk; to_prop;
      rename select (tg_state _ = _) into Hs; solve_moved Hk; by rewrite Hs.
  - unfold MarkReady in Hm. split_rotation; try (by left); rename select (rk_targets w.1 !! _ = Some _) into Hk; to_prop;
      rename select (tg_state _ = _) into Hs; solve_moved Hk; by rewrite Hs.
  - unfold Revoke in Hm. split_rotation; try (by left); rename select (rk_targets w.1 !! _ = Some _) into Hk; to_prop;
      rename select (tg_state _ = RotationTargetReady) into Hs; solve_moved Hk; by rewrite Hs.
  - unfold Rotation_HandleAck in Hm. split_rotation; try (by left); rename select (rk_targets w.1 !! _ = Some _) into Hk.
    + eapply conclude_failure_moved; [exact Hm|exact Hk|]. apply live_fails; [done|by eapply Hvalid].
    + to_prop. by eapply conclude_revoked_moved.
  - unfold Rotation_Fail in Hm. split_rotation; try (by left); rename select (rk_targets w.1 !! _ = Some _) into Hk.
    eapply conclude_failure_moved; [exact Hm|exact Hk|]. apply live_fails; [|by eapply Hvalid]. by rewrite !bool_decide_false.
Qed.

(** The states are those of the state machine. *)
Definition states_valid (w : Rot) : Prop := ∀ k t, rk_targets w.1 !! k = Some t → ValidRotationTargetState (tg_state t) = true.

Lemma moved_valid w w' : moved w w' → states_valid w → states_valid w'.
Proof.
  intros [Hm|(k & t & t' & Hk & Hm & _ & Ht)] Hv k0 t0; rewrite Hm; [by apply Hv|].
  intros [[<- <-]|[_ Hk0]]%lookup_insert_Some; [|by eapply Hv]. destruct Ht as [->|[Hp _]]; [by eapply Hv|].
  by destruct (tg_state t), (tg_state t').
Qed.

Lemma New_valid plan c log : NewRotationCoordinator plan = inr c → states_valid (c, log).
Proof.
  unfold NewRotationCoordinator. destruct (RotationPlan_Validate plan); [done|]. intros [= <-]. unfold states_valid. cbn.
  assert (Hm : ∀ ts (m : gmap string rotationTargetState), (∀ k t, m !! k = Some t → ValidRotationTargetState (tg_state t) = true) →
    ∀ k t, foldl (λ m t, <[rt_ConnectorID t := pending_target t]> m) m ts !! k = Some t → ValidRotationTargetState (tg_state t) = true).
  { intros ts. induction ts as [|x ts IH]; intros m Hm; cbn [foldl]; [done|]. apply IH.
    intros k t [[<- <-]|[_ Hk]]%lookup_insert_Some; [done|by eapply Hm]. }
  apply Hm. intros k t Hk. by rewrite lookup_empty in Hk.
Qed.

Lemma Resume_valid ctx now load w w' r : Resume ctx now load w = (w', r) → states_valid w → states_valid w'.
Proof.
  intros Hm Hv. unfold Resume in Hm. split_rotation; try done. unfold states_valid. cbn [fst rk_targets].
  rename select (negb (resume_targets_loop _ _ _) = false) into Hl. apply negb_false_iff in Hl.
  assert (Hrs : ∀ x, x ∈ re_Targets r0 → ValidRotationTargetState (ro_State x) = true).
  { intros x Hx. destruct (resume_loop_inv _ _ _ Hl x Hx) as (t & _ & _ & Hval). unfold validateRotationResumeTarget in Hval.
    destruct (RotationTarget_Validate _); [done|]. destruct (negb (bool_decide _)); [done|]. by destruct (ValidRotationTargetState _). }
  revert Hv. unfold states_valid. generalize (rk_targets w.1). clear Hl. revert Hrs. generalize (re_Targets r0). clear. intros rs Hrs.
  induction rs as [|x rs IH]; intros m Hv; cbn [foldl]; [done|]. apply IH; [intros y Hy; apply Hrs; by constructor|].
  cbv zeta. destruct (m !! _) as [t|] eqn:Et; [|done]. intros k t' [[<- <-]|[_ Hk]]%lookup_insert_Some; [|by eapply Hv].
  cbn. apply Hrs. constructor.
Qed.
End phases.

Section phases_of_runs.
Context `{NetURL} `{SHA256} `{RotationJSON} `{Ed25519} `{RotationRecovery}.
Context (plan : RotationPlan) (verify : CredentialRotationProof → string → string → option error).

Lemma rotation_reach_valid w : rotation_reach plan verify w → states_valid w.
Proof.
  intros (c & Hnew & Hr). assert (Hv : states_valid (c, [])) by by eapply New_valid. clear Hnew.
  induction Hr as [w|w w1 w2 Hstep _ IH]; [done|]. apply IH. destruct Hstep as [Hc|c' Hnew ->|ctx now r Hm].
  - eapply moved_valid; [by eapply rotation_call_moved|done].
  - by eapply New_valid.
  - by eapply Resume_valid.
Qed.

(** Each target follows its state machine, and never ahead of the record: whatever is called, a target stays as it is, takes
    the next of the phases pending, challenged, installed, ready, revoking, revoked (an expired challenge may be
    repeated) in the same step in which that phase is written to the record, or fails; a target that is
    revoked or failed stays so, and no call touches another target. *)
Theorem rotation_phases w w' (Hreach : rotation_reach plan verify w) (Hcall : rotation_call verify w w') :
  ∀ k t, rk_targets w.1 !! k = Some t →
  ∃ t', rk_targets w'.1 !! k = Some t' ∧ tg_target t' = tg_target t ∧
    (t' = t ∨ phase_next (tg_state t) (tg_state t') = true ∧
      (tg_state t' = RotationTargetFailed ∨ ∃ x, w'.2 = x :: w.2 ∧ records k (tg_state t') x)).
Proof.
  pose proof (rotation_call_moved _ _ _ Hcall (rotation_reach_valid _ Hreach)) as Hmoved. intros k t Hk.
  destruct Hmoved as [Hm|(k0 & t0 & t' & Hk0 & Hm & Ht & Hp)]; rewrite Hm; [by eauto|].
  destruct (decide (k0 = k)) as [->|Hne]; [|rewrite lookup_insert_ne by done; by eauto].
  rewrite lookup_insert_eq. assert (t0 = t) as -> by congruence. eauto.
Qed.
End phases_of_runs.

(** ** A rotation of one connector *)

#[export] Instance ex_rotation_json : RotationJSON := {| json_Plan := λ d, Some (rpd_OperationID d); json_Transcript := λ t, Some (rx_ChallengeNonce t) |}.

(** A signature is the text that was signed, with the key in front. *)
#[export] Instance ex_ed25519 : Ed25519 := {| ed25519_Verify := λ key payload signature, String.eqb signature (key +:+ payload) |}.

Definition ex_targets : list RotationTarget := [mkRotationTarget "connector_1" "host_1" 1 2].
Definition ex_plan : RotationPlan :=
  match NewRotationPlan "account_1" "tunnel_1" "operation_1" ex_targets with inr p => p | inl _ => mkRotationPlan "" "" "" "" [] end.
Definition ex_coordinator : RotationCoordinator :=
  match NewRotationCoordinator ex_plan with inr c => c | inl _ => mkRotationCoordinator ex_plan false 0 ∅ end.
Definition ex_verify (p : CredentialRotationProof) (payload signature : string) : option error := None.

Definition ex_public : string := "abcdefghijklmnopqrstuvwxyz012345".
Definition ex_new_thumbprint : string := match IdentityThumbprint ex_public with inr t => t | inl _ => "" end.
Definition ex_valid_until : Z := (ex_now + 100 * time.Hour)%Z.

Definition run_rot {E A} (m : RM E A) (w : Rot) : Rot := (m w).1.

Definition ex_r1 : Rot := run_rot (Start ex_ctx None) (ex_coordinator, []).
Definition ex_r2 : Rot := run_rot (ChallengeWithCredentialExpiry ex_ctx ex_now "connector_1" "session_1" 1 ex_key ex_thumbprint "nonce-nonce-nonce-1"
  ex_now (ex_now + 60 * time.Second) (ex_now + time.Hour) ex_valid_until None None) ex_r1.

Definition ex_unsigned : CredentialRotationProof :=
  mkCredentialRotationProof "account_1" "tunnel_1" "operation_1" "connector_1" "host_1" "session_1" 1 (rp_TargetSetHash ex_plan) 1 2 ex_key ex_thumbprint
    ("ed25519:" +:+ ex_new_thumbprint) ex_new_thumbprint (base64.EncodeToString ex_public) ex_reference "nonce-nonce-nonce-1" ex_now ex_valid_until "" "".
Definition ex_rotation_proof : CredentialRotationProof :=
  match SignCredentialRotationProof ex_unsigned (λ s, "old key of the connector" +:+ s) (λ s, ex_public +:+ s) with inr p => p | inl _ => ex_unsigned end.
Definition ex_r3 : Rot := run_rot (AcceptProof ex_verify ex_ctx ex_now ex_rotation_proof None) ex_r2.

Definition ex_rotation_ready : CredentialRotationReady :=
  mkCredentialRotationReady "account_1" "tunnel_1" "operation_1" "connector_1" "host_1" "session_2" "session_1" 2 (rp_TargetSetHash ex_plan) 1 2
    ("ed25519:" +:+ ex_new_thumbprint) ex_new_thumbprint (base64.EncodeToString ex_public) ex_reference ex_valid_until 3
    (sn_ContentHash (ex_snapshot 3)) true true true ex_now.
Definition ex_r4 : Rot := run_rot (MarkReady ex_ctx ex_now ex_rotation_ready None) ex_r3.
Definition ex_r5 : Rot := run_rot (Revoke ex_ctx ex_now "connector_1" (inr "rotation-revoke_1") None) ex_r4.

Lemma ex_rotation_reach4 : rotation_reach ex_plan ex_verify ex_r4.
Proof.
  exists ex_coordinator. split; [vm_compute; reflexivity|].
  eapply rtc_l; [apply rot_call; eapply (call_start _ _ ex_r1 ex_ctx None); vm_compute; reflexivity|].
  eapply rtc_l; [apply rot_call; eapply (call_challenge _ _ ex_r2 ex_ctx ex_now "connector_1" "session_1" 1 ex_key ex_thumbprint "nonce-nonce-nonce-1"
    ex_now (ex_now + 60 * time.Second) (ex_now + time.Hour) ex_valid_until None None); vm_compute; reflexivity|].
  eapply rtc_l; [apply rot_call; eapply (call_proof _ _ ex_r3 ex_ctx ex_now ex_rotation_proof None); vm_compute; reflexivity|].
  eapply rtc_l; [apply rot_call; eapply (call_ready _ _ ex_r4 ex_ctx ex_now ex_rotation_ready None); vm_compute; reflexivity|].
  apply rtc_refl.
Qed.

Lemma ex_call_revoke : rotation_call ex_verify ex_r4 ex_r5.
Proof. eapply (call_revoke _ _ _ ex_ctx ex_now "connector_1" (inr "rotation-revoke_1") None). vm_compute. reflexivity. Qed.

Lemma ex_rotation_reach5 : rotation_reach ex_plan ex_verify ex_r5.
Proof.
  destruct ex_rotation_reach4 as (c & Hnew & Hr). exists c. split; [exact Hnew|]. eapply rtc_r; [exact Hr|]. apply rot_call, ex_call_revoke.
Qed.

Definition ex_revoked_ack : CredentialRotationAck :=
  let v := tg_revoke (target_of ex_r5.1 "connector_1") in
  mkCredentialRotationAck "account_1" "tunnel_1" "operation_1" "connector_1" "host_1" (rv_SessionID v) (rv_ProcessGeneration v) (rp_TargetSetHash ex_plan) 1 2
    RotationAckRevoked "" "".
Definition ex_r6 : Rot := run_rot (Rotation_HandleAck ex_ctx ex_now ex_revoked_ack None) ex_r5.

Lemma ex_rotation_reach6 : rotation_reach ex_plan ex_verify ex_r6.
Proof.
  destruct ex_rotation_reach5 as (c & Hnew & Hr). exists c. split; [exact Hnew|]. eapply rtc_r; [exact Hr|]. apply rot_call.
  eapply (call_ack _ _ _ ex_ctx ex_now ex_revoked_ack None). vm_compute. reflexivity.
Qed.

Lemma ex_concluded : ∃ s, ex_r6.2 = Concluded ex_revoked_ack s :: ex_r5.2 ∧ su_Status s = RotationAggregateSucceeded.
Proof. eexists. split; vm_compute; reflexivity. Qed.

Lemma rotation_in_order_witness :
  ∃ s, ex_r6.2 = Concluded ex_revoked_ack s :: ex_r5.2 ∧ ∀ t, t ∈ rp_Targets ex_plan → acknowledged (Concluded ex_revoked_ack s :: ex_r5.2) (rt_ConnectorID t).
Proof.
  destruct ex_concluded as (s & Hr & Hs). exists s. split; [exact Hr|].
  pose proof (rotation_in_order ex_plan ex_verify ex_r6 ex_rotation_reach6 [] (Concluded ex_revoked_ack s) ex_r5.2 Hr) as (_ & _ & Hall). exact (Hall Hs).
Defined.

Lemma rotation_phases_witness :
  ∃ t', rk_targets ex_r5.1 !! "connector_1" = Some t' ∧ tg_target t' = tg_target (target_of ex_r4.1 "connector_1") ∧
    (t' = target_of ex_r4.1 "connector_1" ∨ phase_next RotationTargetReady (tg_state t') = true ∧
      (tg_state t' = RotationTargetFailed ∨ ∃ x, ex_r5.2 = x :: ex_r4.2 ∧ records "connector_1" (tg_state t') x)).
Proof.
  apply (rotation_phases ex_plan ex_verify ex_r4 ex_r5 ex_rotation_reach4 ex_call_revoke "connector_1" (target_of ex_r4.1 "connector_1")).
  vm_compute. reflexivity.
Defined.

(** ** A flaw of the memory store *)

Definition ex_failed : Rot := run_rot (Rotation_Fail ex_ctx "connector_1" CodeCredentialRotationFailed None) ex_r2.

(** A recorded failure is not loaded again: the rotation that was reported as failed is pending after a restart, because results are
    looked at only for targets whose revocation was recorded. *)
Theorem resume_forgets_failure :
  rotation_reach ex_plan ex_verify ex_failed ∧ su_Status (summaryLocked ex_failed.1) = RotationAggregateFailed ∧
  ∃ w, Resume ex_ctx ex_now (Some (LoadCredentialRotation None ex_failed.2 ex_plan)) (ex_coordinator, ex_failed.2) = (w, inr ()) ∧
    su_Status (summaryLocked w.1) = RotationAggregatePending.
Proof.
  split_and!.
  - exists ex_coordinator. split; [vm_compute; reflexivity|].
    eapply rtc_l; [apply rot_call; eapply (call_start _ _ ex_r1 ex_ctx None); vm_compute; reflexivity|].
    eapply rtc_l; [apply rot_call; eapply (call_challenge _ _ ex_r2 ex_ctx ex_now "connector_1" "session_1" 1 ex_key ex_thumbprint "nonce-nonce-nonce-1"
      ex_now (ex_now + 60 * time.Second) (ex_now + time.Hour) ex_valid_until None None); vm_compute; reflexivity|].
    eapply rtc_l; [apply rot_call; eapply (call_fail _ _ ex_failed ex_ctx "connector_1" CodeCredentialRotationFailed None); vm_compute; reflexivity|].
    apply rtc_refl.
  - vm_compute. reflexivity.
  - eexists. split; vm_compute; reflexivity.
Qed.
