(* ===== verification/Carrier.v ===== *)
(** * The identity of a data carrier

    Models src/shared/connectorprotocol/carrier_identity.go (the identity a carrier's certificate carries),
    the admission preface of data_stream.go, and of src/tunnel/internal/datacarrier the Identity of
    carrier.go, the errors of the package and refusal.go.

    encoding/json writes the binding field by field; its strings are identifiers, which need no escapes, so the text is
    written out here.  The URI of a certificate is the text its String method gives. *)
From stdpp Require Import pretty.
From S2P Require Import Prelude GoStd GoData GoNet GoEnc ConnProto Sessions.

Definition CarrierIdentityURNPrefix : string := "urn:paperboat:connector-v1:carrier:".
Definition MinOpaqueEpochBytes : Z := 8.
Definition MaxOpaqueEpochBytes : Z := 128.
Definition ErrCarrierIdentityBinding : error := Foreign "invalid connector carrier identity binding".

Definition ValidateOpaqueEpoch (value : string) : option error :=
  if (len value <? MinOpaqueEpochBytes)%Z || (MaxOpaqueEpochBytes <? len value)%Z then Some ErrInvalidInput
  else if all_bytes (λ c, is_lower c || is_upper c || is_digit c || one_of "-_" c) value then None else Some ErrInvalidInput.

Record CarrierIdentityBinding := mkCarrierIdentityBinding {
  cb_AccountID : string; cb_HostID : string; cb_TunnelID : string; cb_ConnectorID : string; cb_SessionID : string;
  cb_ProcessGeneration : Z; cb_ConfigGeneration : Z; cb_EdgeProcessEpoch : string;
}.

#[export] Instance CarrierIdentityBinding_eq_dec : EqDecision CarrierIdentityBinding.
Proof. solve_decision. Defined.

Definition CarrierIdentityBinding_Validate (b : CarrierIdentityBinding) : option error :=
  if bad_id (cb_AccountID b) || bad_id (cb_HostID b) || bad_id (cb_TunnelID b) || bad_id (cb_ConnectorID b)
     || bad_id (cb_SessionID b) || (cb_ProcessGeneration b =? 0)%Z || (cb_ConfigGeneration b =? 0)%Z
     || bad (ValidateOpaqueEpoch (cb_EdgeProcessEpoch b))
  then Some ErrCarrierIdentityBinding else None.

(** A member of the JSON object, and its value. *)
Definition json_key (name : string) : string := dq +:+ name +:+ dq +:+ ":".
Definition json_text (value : string) : string := dq +:+ value +:+ dq.

(** json.Marshal of a valid binding. *)
Definition binding_json (b : CarrierIdentityBinding) : string :=
  "{" +:+ json_key "account_id" +:+ json_text (cb_AccountID b)
  +:+ "," +:+ json_key "host_id" +:+ json_text (cb_HostID b)
  +:+ "," +:+ json_key "tunnel_id" +:+ json_text (cb_TunnelID b)
  +:+ "," +:+ json_key "connector_id" +:+ json_text (cb_ConnectorID b)
  +:+ "," +:+ json_key "session_id" +:+ json_text (cb_SessionID b)
  +:+ "," +:+ json_key "process_generation" +:+ strconv.Itoa (cb_ProcessGeneration b)
  +:+ "," +:+ json_key "config_generation" +:+ strconv.Itoa (cb_ConfigGeneration b)
  +:+ "," +:+ json_key "edge_process_epoch" +:+ json_text (cb_EdgeProcessEpoch b) +:+ "}".

Section urn.
Context `{SHA256}.

(** The text of the URI; url.Parse accepts it and String gives it back. *)
Definition CarrierIdentityURN (binding : CarrierIdentityBinding) : error + string :=
  match CarrierIdentityBinding_Validate binding with
  | Some e => inl e
  | None => inr (CarrierIdentityURNPrefix +:+ base64.EncodeToString (Sum256 (binding_json binding)))
  end.

(** A nil URI of the certificate is [None]. *)
Definition MatchCarrierIdentityURN (uris : list (option string)) (binding : CarrierIdentityBinding) : option error :=
  match CarrierIdentityURN binding with
  | inl e => Some e
  | inr want =>
      match uris with
      | [Some uri] => if String.eqb uri want then None else Some ErrCarrierIdentityBinding
      | _ => Some ErrCarrierIdentityBinding
      end
  end.
End urn.

(** ** Streams: data_stream.go *)

Record StreamOpen := mkStreamOpen {
  so_Protocol : string; so_Version : string; so_AccountID : string; so_TunnelID : string; so_ConnectorID : string;
  so_SessionID : string; so_ProcessGeneration : Z; so_Generation : Z; so_RouteID : string; so_RequestID : string; so_Kind : string;
}.

#[export] Instance StreamOpen_eq_dec : EqDecision StreamOpen.
Proof. solve_decision. Defined.

Definition PrivateAccessHTTP : string := "private_access_http".
Definition PrivateAccessTCP : string := "private_access_tcp".
Definition InspectorHTTP : string := "inspector_http".
Definition BrowserTerminalOutput : string := "browser_terminal_output".
Definition Goaway : string := "goaway".

Definition validStreamKind (kind : string) : bool :=
  bool_decide (kind ∈ ["connector_ready"; "tcp_public"; "http_browser"; "http"; "https"; "h2c"; "websocket"; "sse"; "grpc"; "tcp_private";
    PrivateAccessHTTP; PrivateAccessTCP; InspectorHTTP; BrowserTerminalOutput; Goaway]).

Definition StreamOpen_Validate (s : StreamOpen) : option error :=
  if negb (String.eqb (so_Protocol s) ProtocolName) || negb (String.eqb (so_Version s) ProtocolVersion)
     || bad_id (so_AccountID s) || bad_id (so_TunnelID s) || bad_id (so_ConnectorID s) || bad_id (so_SessionID s)
     || bad_id (so_RouteID s) || bad_id (so_RequestID s) || (so_ProcessGeneration s =? 0)%Z || (so_Generation s =? 0)%Z
  then Some ErrInvalidInput
  else if (len (so_Kind s) =? 0)%Z || (MaxIdentifierBytes <? len (so_Kind s))%Z || negb (validStreamKind (so_Kind s))
  then Some ErrInvalidInput else None.

(** ** Errors of the data carrier *)

Inductive CarrierRefusal := RefusalNoAdmissions | RefusalUnknownMachine | RefusalNoLiveAdmission | RefusalStaleIdentity.

#[export] Instance CarrierRefusal_eq_dec : EqDecision CarrierRefusal.
Proof. solve_decision. Defined.

(** The number of the constant; larger ones are more specific. *)
Definition refusal_rank (r : CarrierRefusal) : Z :=
  match r with RefusalNoAdmissions => 1 | RefusalUnknownMachine => 2 | RefusalNoLiveAdmission => 3 | RefusalStaleIdentity => 4 end.

Definition RefusalCode (r : CarrierRefusal) : string :=
  match r with
  | RefusalNoAdmissions => "no_admissions"
  | RefusalUnknownMachine => "unknown_machine"
  | RefusalNoLiveAdmission => "no_live_admission"
  | RefusalStaleIdentity => "stale_identity"
  end.

(** [Sentinel] is errors.New, [Detail] is fmt.Errorf("%w: text"), [Causes] an error whose Unwrap returns several
    (fmt.Errorf("%w: %w"), carrierFailure, errors.Join), [Refused] a CarrierRefusal, [Protocol] an error of connectorprotocol or a context. *)
#[local] Set Warnings "-register-all".
Inductive CarrierError :=
  | Sentinel (msg : string)
  | Detail (e : CarrierError) (text : string)
  | Causes (es : list CarrierError)
  | Refused (r : CarrierRefusal)
  | Protocol (e : error).

Definition ErrInvalidConfig := Sentinel "invalid data carrier configuration".
Definition ErrCarrierClosed := Sentinel "data carrier closed".
Definition ErrCarrierDraining := Sentinel "data carrier draining".
Definition ErrStreamIdentityMismatch := Sentinel "data carrier stream identity mismatch".
Definition ErrRouteDenied := Sentinel "data carrier route denied".
Definition errCarrierTLSHandshake := Sentinel "data carrier TLS handshake failed".

(** carrierFailure{sentinel, cause} *)
Definition carrierFailure (sentinel cause : CarrierError) : CarrierError := Causes [sentinel; cause].

(** errors.As(err, &reason): the first refusal in the tree of causes. *)
Fixpoint as_refusal (e : CarrierError) : option CarrierRefusal :=
  match e with
  | Sentinel _ | Protocol _ => None
  | Detail e _ => as_refusal e
  | Causes es => (fix first l := match l with [] => None | e :: l' => match as_refusal e with Some r => Some r | None => first l' end end) es
  | Refused r => Some r
  end.

(** errors.Is(err, errors.New(msg)) *)
Fixpoint is_sentinel (msg : string) (e : CarrierError) : bool :=
  match e with
  | Sentinel m => String.eqb m msg
  | Refused _ | Protocol _ => false
  | Detail e _ => is_sentinel msg e
  | Causes es => (fix any l := match l with [] => false | e :: l' => is_sentinel msg e || any l' end) es
  end.

Definition FailureReason (e : CarrierError) : string :=
  match as_refusal e with
  | Some reason => RefusalCode reason
  | None => if is_sentinel "data carrier TLS handshake failed" e then "tls_handshake" else "carrier"
  end.

Definition refusal (any keyKnown live : bool) : CarrierRefusal :=
  if negb any then RefusalNoAdmissions
  else if negb keyKnown then RefusalUnknownMachine
  else if negb live then RefusalNoLiveAdmission else RefusalStaleIdentity.

(** ** Identity *)

Record Identity := mkIdentity {
  id_AccountID : string; id_HostID : string; id_TunnelID : string; id_ConnectorID : string; id_SessionID : string;
  id_ProcessGeneration : Z; id_Generation : Z;
}.

#[export] Instance Identity_eq_dec : EqDecision Identity.
Proof. solve_decision. Defined.

(** An identity is a key of a map. *)
#[export] Instance Identity_countable : Countable Identity.
Proof.
  refine (inj_countable' (λ i, (id_AccountID i, id_HostID i, id_TunnelID i, id_ConnectorID i, id_SessionID i, id_ProcessGeneration i, id_Generation i))
    (λ '(a, h, t, c, s, p, g), mkIdentity a h t c s p g) _). by intros [].
Defined.

Definition zeroIdentity : Identity := mkIdentity "" "" "" "" "" 0 0.

Definition Identity_Validate (i : Identity) : option CarrierError :=
  if bad_id (id_AccountID i) || bad_id (id_HostID i) || bad_id (id_TunnelID i) || bad_id (id_ConnectorID i) || bad_id (id_SessionID i)
     || (id_ProcessGeneration i =? 0)%Z || (id_Generation i =? 0)%Z
  then Some ErrInvalidConfig else None.

Definition valid_identity (i : Identity) : bool := match Identity_Validate i with None => true | Some _ => false end.

Definition Identity_matches (i : Identity) (open : StreamOpen) : bool :=
  String.eqb (so_AccountID open) (id_AccountID i) && String.eqb (so_TunnelID open) (id_TunnelID i)
  && String.eqb (so_ConnectorID open) (id_ConnectorID i) && String.eqb (so_SessionID open) (id_SessionID i)
  && (so_ProcessGeneration open =? id_ProcessGeneration i)%Z && (so_Generation open =? id_Generation i)%Z.

(** The binding of the identity to a process of the edge. *)
Definition binding_of (i : Identity) (epoch : string) : CarrierIdentityBinding :=
  mkCarrierIdentityBinding (id_AccountID i) (id_HostID i) (id_TunnelID i) (id_ConnectorID i) (id_SessionID i)
    (id_ProcessGeneration i) (id_Generation i) epoch.

(** What is used of a peer's certificate: its key when that is an ed25519.PublicKey, and its URIs. *)
Record Certificate := mkCertificate { PublicKey : option string; URIs : list (option string) }.

(** tls.ConnectionState.PeerCertificates; a nil certificate is [None]. *)
Definition PeerCertificates : Type := list (option Certificate).

(** The one certificate of the peer and its key. *)
Definition peer_key (peers : PeerCertificates) : option (Certificate * string) :=
  match peers with
  | [Some certificate] =>
      match PublicKey certificate with
      | Some key => if (len key =? PublicKeySize)%Z then Some (certificate, key) else None
      | None => None
      end
  | _ => None
  end.

(** ** Texts made of identifiers and numbers *)

(** The text up to the first separator is determined. *)
Lemma separated_inj c a b a' b' :
  strings.free_of c a = true → strings.free_of c a' = true → a +:+ String c b = a' +:+ String c b' → a = a' ∧ b = b'.
Proof.
  intros Ha Ha' Heq. pose proof (strings.cut_char_app c a b Ha) as H1. rewrite Heq, (strings.cut_char_app c a' b' Ha') in H1. by simplify_eq.
Qed.

Lemma all_bytes_free f c v : all_bytes f v = true → f c = false → strings.free_of c v = true.
Proof.
  unfold all_bytes. intros Hv Hc. induction v as [|d v IH]; [done|]. simpl in *. apply andb_true_iff in Hv as [Hd Hv].
  rewrite IH, andb_true_r by done. apply negb_true_iff. destruct (Ascii.eqb_spec d c) as [->|]; [congruence|done].
Qed.

Lemma identifier_free c v : bad_id v = false → is_alnum c || one_of "._:-" c = false → strings.free_of c v = true.
Proof.
  unfold bad_id, ValidateIdentifier. intros Hv Hc. destruct (identifierPattern v) eqn:Hp; [|done].
  destruct v as [|d v]; [done|]. cbn [identifierPattern] in Hp. rewrite !andb_true_iff in Hp. destruct Hp as [[Hd Hall] _].
  cbn [strings.free_of]. rewrite (all_bytes_free _ c v Hall Hc), andb_true_r. apply negb_true_iff.
  destruct (Ascii.eqb_spec d c) as [->|]; [|done]. by rewrite Hd in Hc.
Qed.

Lemma valid_identity_ids i : valid_identity i = true →
  bad_id (id_AccountID i) = false ∧ bad_id (id_HostID i) = false ∧ bad_id (id_TunnelID i) = false ∧ bad_id (id_ConnectorID i) = false ∧
  bad_id (id_SessionID i) = false ∧ id_ProcessGeneration i ≠ 0%Z ∧ id_Generation i ≠ 0%Z.
Proof.
  unfold valid_identity, Identity_Validate. destruct (_ || _) eqn:Hb; [done|]. intros _. rewrite !orb_false_iff, !Z.eqb_neq in Hb. tauto.
Qed.

Lemma Itoa_inj n n' : strconv.Itoa n = strconv.Itoa n' → n = n'.
Proof. apply (inj pretty). Qed.

Lemma quote_not_in_epoch v : bad (ValidateOpaqueEpoch v) = false → strings.free_of (Ascii.ascii_of_nat 34) v = true.
Proof.
  unfold ValidateOpaqueEpoch. destruct (_ || _); [done|]. destruct (all_bytes _ v) eqn:Hv; [|done]. intros _. by apply (all_bytes_free _ _ _ Hv).
Qed.

Lemma String_tail c x y : String c x = String c y → x = y.
Proof. congruence. Qed.

(** Compares two texts up to the first place where they may differ. *)
Ltac same_text Heq :=
  repeat match type of Heq with
  | String ?c _ = String ?c _ => apply String_tail in Heq
  end.

(** Takes off the first field of two texts, up to the separator. *)
Ltac same_field Heq H :=
  same_text Heq;
  match type of Heq with
  | _ +:+ String ?c _ = _ +:+ String ?c _ => apply (separated_inj c) in Heq as [H Heq]
  end.

Lemma binding_valid b : CarrierIdentityBinding_Validate b = None →
  bad_id (cb_AccountID b) = false ∧ bad_id (cb_HostID b) = false ∧ bad_id (cb_TunnelID b) = false ∧ bad_id (cb_ConnectorID b) = false ∧
  bad_id (cb_SessionID b) = false ∧ bad (ValidateOpaqueEpoch (cb_EdgeProcessEpoch b)) = false.
Proof. unfold CarrierIdentityBinding_Validate. destruct (_ || _) eqn:Hb; [done|]. intros _. rewrite !orb_false_iff in Hb. tauto. Qed.

(** The transcript determines the binding. *)
Lemma binding_json_inj b b' :
  CarrierIdentityBinding_Validate b = None → CarrierIdentityBinding_Validate b' = None →
  UInt64.in_range (cb_ProcessGeneration b) → UInt64.in_range (cb_ProcessGeneration b') →
  UInt64.in_range (cb_ConfigGeneration b) → UInt64.in_range (cb_ConfigGeneration b') →
  binding_json b = binding_json b' → b = b'.
Proof.
  intros (Ha & Hh & Ht & Hc & Hs & He)%binding_valid (Ha' & Hh' & Ht' & Hc' & Hs' & He')%binding_valid Hp Hp' Hg Hg' Heq.
  unfold binding_json, json_key, json_text, dq, str.of_bytes in Heq. cbn [foldr] in Heq. rewrite !strings.app_assoc_str in Heq. cbn [String.append] in Heq.
  same_field Heq H1; [|by apply identifier_free..]. same_field Heq H2; [|by apply identifier_free..].
  same_field Heq H3; [|by apply identifier_free..]. same_field Heq H4; [|by apply identifier_free..].
  same_field Heq H5; [|by apply identifier_free..].
  same_field Heq H6; [|apply strconv.Itoa_free; [by unfold UInt64.in_range in *; lia|done]..].
  same_field Heq H7; [|apply strconv.Itoa_free; [by unfold UInt64.in_range in *; lia|done]..].
  same_field Heq H8; [|by apply quote_not_in_epoch..].
  apply Itoa_inj in H6, H7. destruct b, b'. simpl in *. by subst.
Qed.
