(* ===== verification/Expected.v ===== *)
(** * The expected admissions of an edge

    Models src/tunnel/internal/datacarrier/admission.go and superseded.go: the registry of the admissions the server
    issued for previews, runtime carriers and endpoint routes, which binds the certificate of a carrier to an identity
    and authorizes its streams.

    Times are UTC, so == and Equal agree on them.  A text that holds the name a map iteration met first is given without the name.
    The channel that Changed returns is a number: publishLocked closes the current one and makes the next. *)
From S2P Require Import Prelude GoStd GoData GoNet GoEnc ConnProto Sessions StateErr Carrier.

Definition PreviewCarrierSchema : string := "paperboat.preview-tunnel/v1".
Definition PreviewCarrierKind : string := "preview_carrier_attachment".
Definition PreviewCarrierRoute : string := "preview_public_https_wss".
Definition PreviewCarrierPrivateRoute : string := "preview_private_https_wss".
Definition PreviewCarrierAccessPublic : string := "public".
Definition PreviewCarrierAccessPrivate : string := "private".
Definition PreviewCarrierAccessTeam : string := "team".
Definition maxExpectedAdmissions : Z := 4096.

(** src/shared/runtimeattachment *)
Definition runtime_Schema : string := "paperboat.runtime-carrier/v1".
Definition runtime_RouteKind : string := "runtime_https_wss".
Definition EndpointPublicRouteKind : string := "preview_public_https_wss".
Definition EndpointRestrictedRouteKind : string := "preview_private_https_wss".
Definition DrainLimit : Z := (6 * time.Hour)%Z.

Definition ErrAdmissionNotExpected := Sentinel "data carrier admission is not expected".
Definition ErrAdmissionExpired := Sentinel "data carrier admission is expired".
Definition ErrAdmissionConflict := Sentinel "data carrier admission conflicts with current state".

Record ExpectedAdmission := mkExpectedAdmission {
  ad_Schema : string; ad_Kind : string; ad_EdgeNodeID : string; ad_PreviewID : string; ad_OperationID : string;
  ad_OwnerMachineID : string; ad_OwnerSessionID : string; ad_Identity : Identity; ad_InstallationGeneration : Z;
  ad_LeaseGeneration : Z; ad_ConfigGeneration : Z; ad_ConfigContentHash : string; ad_RouteID : string;
  ad_EdgeProcessEpoch : string; ad_EdgeCarrierServerSPKISHA256 : string;
  ad_EdgeCarrierServerCertificateChainPEM : string; ad_AccessMode : string; ad_RouteKind : string;
  ad_Hostname : string; ad_RouteRevision : Z; ad_AttachmentGeneration : Z; ad_Endpoint : string; ad_ExpiresAt : Z;
  ad_MachineIdentityPublicKey : string; ad_MachineIdentityThumbprint : string; ad_Admitted : bool;
}.

#[export] Instance ExpectedAdmission_eq_dec : EqDecision ExpectedAdmission.
Proof. solve_decision. Defined.

Definition zeroAdmission : ExpectedAdmission :=
  mkExpectedAdmission "" "" "" "" "" "" "" zeroIdentity 0 0 0 "" "" "" "" "" "" "" "" 0 0 "" time.zero "" "" false.

(** admission.Admitted = v and admission.ExpiresAt = v *)
Definition set_Admitted (v : bool) (a : ExpectedAdmission) : ExpectedAdmission :=
  mkExpectedAdmission (ad_Schema a) (ad_Kind a) (ad_EdgeNodeID a) (ad_PreviewID a) (ad_OperationID a) (ad_OwnerMachineID a) (ad_OwnerSessionID a)
    (ad_Identity a) (ad_InstallationGeneration a) (ad_LeaseGeneration a) (ad_ConfigGeneration a) (ad_ConfigContentHash a) (ad_RouteID a)
    (ad_EdgeProcessEpoch a) (ad_EdgeCarrierServerSPKISHA256 a) (ad_EdgeCarrierServerCertificateChainPEM a) (ad_AccessMode a) (ad_RouteKind a)
    (ad_Hostname a) (ad_RouteRevision a) (ad_AttachmentGeneration a) (ad_Endpoint a) (ad_ExpiresAt a) (ad_MachineIdentityPublicKey a)
    (ad_MachineIdentityThumbprint a) v.
Definition set_ExpiresAt (v : Z) (a : ExpectedAdmission) : ExpectedAdmission :=
  mkExpectedAdmission (ad_Schema a) (ad_Kind a) (ad_EdgeNodeID a) (ad_PreviewID a) (ad_OperationID a) (ad_OwnerMachineID a) (ad_OwnerSessionID a)
    (ad_Identity a) (ad_InstallationGeneration a) (ad_LeaseGeneration a) (ad_ConfigGeneration a) (ad_ConfigContentHash a) (ad_RouteID a)
    (ad_EdgeProcessEpoch a) (ad_EdgeCarrierServerSPKISHA256 a) (ad_EdgeCarrierServerCertificateChainPEM a) (ad_AccessMode a) (ad_RouteKind a)
    (ad_Hostname a) (ad_RouteRevision a) (ad_AttachmentGeneration a) (ad_Endpoint a) v (ad_MachineIdentityPublicKey a)
    (ad_MachineIdentityThumbprint a) (ad_Admitted a).

Definition restrictedPreviewAccess (mode : string) : bool :=
  String.eqb mode PreviewCarrierAccessPrivate || String.eqb mode PreviewCarrierAccessTeam.

Definition EndpointRoute (a : ExpectedAdmission) : bool :=
  String.eqb (ad_Schema a) runtime_Schema && String.eqb (ad_Kind a) ""
  && (String.eqb (ad_RouteKind a) EndpointPublicRouteKind || String.eqb (ad_RouteKind a) EndpointRestrictedRouteKind).

Definition runtimeRoute (a : ExpectedAdmission) : bool :=
  String.eqb (ad_Schema a) runtime_Schema && String.eqb (ad_Kind a) "" && String.eqb (ad_RouteKind a) runtime_RouteKind.

(** a.OperationID + "\x00" + a.RouteID *)
Definition NUL : string := str.of_bytes [0]%N.
Definition key (a : ExpectedAdmission) : string := ad_OperationID a +:+ NUL +:+ ad_RouteID a.

Definition identityEqual (a other : ExpectedAdmission) : bool :=
  bool_decide (ad_Identity a = ad_Identity other)
  && String.eqb (ad_MachineIdentityPublicKey a) (ad_MachineIdentityPublicKey other)
  && String.eqb (ad_MachineIdentityThumbprint a) (ad_MachineIdentityThumbprint other).

Definition exactEqual (a other : ExpectedAdmission) : bool :=
  String.eqb (ad_Schema a) (ad_Schema other) && String.eqb (ad_Kind a) (ad_Kind other)
  && String.eqb (ad_EdgeNodeID a) (ad_EdgeNodeID other) && String.eqb (ad_EdgeProcessEpoch a) (ad_EdgeProcessEpoch other)
  && String.eqb (ad_EdgeCarrierServerSPKISHA256 a) (ad_EdgeCarrierServerSPKISHA256 other)
  && String.eqb (ad_EdgeCarrierServerCertificateChainPEM a) (ad_EdgeCarrierServerCertificateChainPEM other)
  && String.eqb (ad_PreviewID a) (ad_PreviewID other) && String.eqb (ad_OperationID a) (ad_OperationID other)
  && String.eqb (ad_OwnerMachineID a) (ad_OwnerMachineID other) && String.eqb (ad_OwnerSessionID a) (ad_OwnerSessionID other)
  && bool_decide (ad_Identity a = ad_Identity other)
  && (ad_InstallationGeneration a =? ad_InstallationGeneration other)%Z && (ad_LeaseGeneration a =? ad_LeaseGeneration other)%Z
  && (ad_ConfigGeneration a =? ad_ConfigGeneration other)%Z && String.eqb (ad_ConfigContentHash a) (ad_ConfigContentHash other)
  && String.eqb (ad_RouteID a) (ad_RouteID other) && String.eqb (ad_AccessMode a) (ad_AccessMode other)
  && String.eqb (ad_RouteKind a) (ad_RouteKind other) && String.eqb (ad_Hostname a) (ad_Hostname other)
  && (ad_RouteRevision a =? ad_RouteRevision other)%Z && (ad_AttachmentGeneration a =? ad_AttachmentGeneration other)%Z
  && String.eqb (ad_Endpoint a) (ad_Endpoint other) && (ad_ExpiresAt a =? ad_ExpiresAt other)%Z
  && String.eqb (ad_MachineIdentityPublicKey a) (ad_MachineIdentityPublicKey other)
  && String.eqb (ad_MachineIdentityThumbprint a) (ad_MachineIdentityThumbprint other).

(** ** Validation *)

(** strings.EqualFold; two strings of ASCII letters differ at most in case, others are compared by the runtime's folding. *)
Class GoFold := { unicode_EqualFold : string → string → bool }.

Section validation.
Context `{GoRuntime} `{GoFold} `{NetURL} `{SHA256}.

Definition EqualFold (s t : string) : bool :=
  if strings.is_ascii s && strings.is_ascii t then String.eqb (strings.ascii_lower s) (strings.ascii_lower t) else unicode_EqualFold s t.

Definition not_expected (text : string) : CarrierError := Detail ErrAdmissionNotExpected text.
Definition conflict (text : string) : CarrierError := Detail ErrAdmissionConflict text.

Definition decodeMachinePublicKey (value thumbprint : string) : CarrierError + string :=
  match base64.DecodeString value with
  | None => inl (not_expected "machine public key is invalid")
  | Some k =>
      if negb (len k =? PublicKeySize)%Z then inl (not_expected "machine public key is invalid")
      else if negb (String.eqb thumbprint ("sha256:" +:+ base64.EncodeToString (Sum256 k)))
      then inl (conflict "machine key thumbprint does not match") else inr k
  end.

Definition host_label (label : string) : bool :=
  match label with
  | EmptyString => false
  | String c _ =>
      (len label <=? 63)%Z && negb (Ascii.eqb c "-") && negb (str.HasSuffix label "-")
      && all_bytes (λ c, Ascii.eqb c "-" || is_lower c || is_digit c) label
  end.

Definition validAdmissionHost (value : string) : bool :=
  let value := ToLower (str.TrimSuffix (str.TrimSpace value) ".") in
  negb (String.eqb value "") && (len value <=? 253)%Z
  && negb (str.ContainsAny value [47; 58; 64; 91; 93; 32; 9; 13; 10]%N) && forallb host_label (str.Split value ".").

Definition validateAdmissionEndpoint (value hostname : string) : option CarrierError :=
  match url_Parse value with
  | Some parsed =>
      if negb (String.eqb (Scheme parsed) "https") && negb (String.eqb (Scheme parsed) "http") || String.eqb (Host parsed) ""
         || HasUser parsed || negb (String.eqb (RawQuery parsed) "") || negb (String.eqb (Fragment parsed) "")
         || negb (EqualFold (str.TrimSuffix (Hostname parsed) ".") (str.TrimSuffix hostname "."))
      then Some (not_expected "endpoint does not bind the admitted hostname") else None
  | None => Some (not_expected "endpoint does not bind the admitted hostname")
  end.

Definition validAdmissionContentHash (value : string) : bool :=
  (len value =? 71)%Z && strings.HasPrefix value "sha256:" && all_bytes is_hex (strings.TrimPrefix value "sha256:").

Definition spki_pin_valid (pin : string) : bool :=
  (len pin =? 71)%Z && strings.HasPrefix pin "sha256:"
  && match hex.DecodeString (strings.TrimPrefix pin "sha256:") with Some decoded => (len decoded =? 32)%Z | None => false end.

(** The identifiers that are checked, by the kind of the admission. *)
Definition admission_identifiers (a : ExpectedAdmission) (runtime endpoint : bool) : list string :=
  if runtime then [ad_RouteID a]
  else if endpoint then [ad_RouteID a; ad_PreviewID a]
  else [ad_PreviewID a; ad_OperationID a; ad_RouteID a; ad_OwnerMachineID a; ad_OwnerSessionID a].

(** The first of the checks that fails; each is [(failed, error)]. *)
Fixpoint first_failed (l : list (bool * CarrierError)) : option CarrierError :=
  match l with [] => None | (failed, e) :: l' => if failed then Some e else first_failed l' end.

Definition admission_checks (a : ExpectedAdmission) (nodeID : string) (runtime endpoint : bool) : list (bool * CarrierError) :=
  [(negb runtime && negb endpoint && (negb (String.eqb (ad_Schema a) PreviewCarrierSchema) || negb (String.eqb (ad_Kind a) PreviewCarrierKind)),
    not_expected "schema or kind is invalid");
   (endpoint && ((ad_InstallationGeneration a =? 0)%Z || negb (String.eqb (ad_OperationID a) (ad_RouteID a)) || negb (String.eqb (ad_OwnerMachineID a) "")
      || negb (String.eqb (ad_OwnerSessionID a) "") || negb (ad_LeaseGeneration a =? 0)%Z), not_expected "endpoint route binding is invalid");
   (String.eqb nodeID "" || negb (String.eqb (ad_EdgeNodeID a) nodeID) || bad_id (ad_EdgeNodeID a) || bad (ValidateOpaqueEpoch (ad_EdgeProcessEpoch a)),
    not_expected "edge node binding is invalid");
   (runtime && ((ad_InstallationGeneration a =? 0)%Z || negb (String.eqb (ad_AccessMode a) "") || negb (String.eqb (ad_PreviewID a) "")
      || negb (String.eqb (ad_OperationID a) "") || negb (String.eqb (ad_OwnerMachineID a) "") || negb (String.eqb (ad_OwnerSessionID a) "")
      || negb (ad_LeaseGeneration a =? 0)%Z), ErrAdmissionNotExpected);
   (existsb (λ value, String.eqb value "" || bad_id value) (admission_identifiers a runtime endpoint), not_expected "%s is invalid");
   (negb (valid_identity (ad_Identity a)), not_expected "carrier identity is invalid");
   (negb runtime && negb endpoint && negb (String.eqb (id_HostID (ad_Identity a)) (ad_OwnerMachineID a)), conflict "host and owner machine differ");
   (negb runtime && negb endpoint && (ad_LeaseGeneration a =? 0)%Z || (ad_ConfigGeneration a =? 0)%Z || (ad_RouteRevision a =? 0)%Z
      || (ad_AttachmentGeneration a =? 0)%Z, not_expected "generations must be positive");
   (negb runtime && negb (String.eqb (ad_AccessMode a) PreviewCarrierAccessPublic) && negb (restrictedPreviewAccess (ad_AccessMode a)),
    not_expected "access mode is invalid");
   (negb (String.eqb (ad_RouteKind a) (if runtime then runtime_RouteKind else if restrictedPreviewAccess (ad_AccessMode a)
      then PreviewCarrierPrivateRoute else PreviewCarrierRoute)) || negb (validAdmissionHost (ad_Hostname a)), not_expected "route binding is invalid")].

Definition Validate (a : ExpectedAdmission) (now : Z) (nodeID : string) : option CarrierError :=
  let runtime := runtimeRoute a in
  let endpoint := EndpointRoute a in
  match first_failed (admission_checks a nodeID runtime endpoint) with
  | Some e => Some e
  | None =>
      match validateAdmissionEndpoint (ad_Endpoint a) (ad_Hostname a) with
      | Some e => Some e
      | None =>
          match first_failed
            [(negb (validAdmissionContentHash (ad_ConfigContentHash a)), not_expected "config content hash is invalid");
             (negb (spki_pin_valid (ad_EdgeCarrierServerSPKISHA256 a)), not_expected "edge carrier SPKI pin is invalid");
             ((len (ad_EdgeCarrierServerCertificateChainPEM a) =? 0)%Z || (65536 <? len (ad_EdgeCarrierServerCertificateChainPEM a))%Z,
              not_expected "edge carrier certificate chain is invalid");
             (time.IsZero (ad_ExpiresAt a) || negb (time.After (ad_ExpiresAt a) now), ErrAdmissionExpired)] with
          | Some e => Some e
          | None =>
              match decodeMachinePublicKey (ad_MachineIdentityPublicKey a) (ad_MachineIdentityThumbprint a) with
              | inl e => Some e
              | inr _ => None
              end
          end
      end
  end.
End validation.

(** ** The registry *)

Record ExpectedAdmissionRegistry := mkExpectedAdmissionRegistry {
  er_nodeID : string; er_maximum : Z; er_processEpoch : string; er_closed : bool;
  er_byKey : gmap string ExpectedAdmission; er_pending : gmap string ExpectedAdmission;
  er_byIdentity : gmap Identity (list ExpectedAdmission);
  er_superseded : gmap string ExpectedAdmission; er_supersededByIdentity : gmap Identity (list ExpectedAdmission);
  er_changed : nat;
}.

Definition NewExpectedAdmissionRegistry (nodeID processEpoch : string) (maximumAdmissions : Z) : CarrierError + ExpectedAdmissionRegistry :=
  let maximum := if (maximumAdmissions =? 0)%Z then maxExpectedAdmissions else maximumAdmissions in
  if bad_id nodeID || bad (ValidateOpaqueEpoch processEpoch) || (maximum <? 1)%Z || (maxExpectedAdmissions <? maximum)%Z
  then inl ErrInvalidConfig
  else inr (mkExpectedAdmissionRegistry nodeID maximum processEpoch false ∅ ∅ ∅ ∅ ∅ 0).

(** The maps that publishLocked does not make. *)
Definition with_maps (r : ExpectedAdmissionRegistry) (closed : bool) (byKey pending superseded : gmap string ExpectedAdmission) : ExpectedAdmissionRegistry :=
  mkExpectedAdmissionRegistry (er_nodeID r) (er_maximum r) (er_processEpoch r) closed byKey pending (er_byIdentity r)
    superseded (er_supersededByIdentity r) (er_changed r).

(** byIdentity[admission.Identity] = append(byIdentity[admission.Identity], admission) *)
Definition index_add (m : gmap Identity (list ExpectedAdmission)) (a : ExpectedAdmission) : gmap Identity (list ExpectedAdmission) :=
  <[ad_Identity a := default [] (m !! ad_Identity a) ++ [a]]> m.

Definition key_less (a b : ExpectedAdmission) : bool := str_ltb (key a) (key b).

Definition supersededGrace : Z := (30 * time.Second)%Z.

(** Whether [successor] is a newer attachment of the same machine and route. *)
Definition takes_over (successor old : ExpectedAdmission) : bool :=
  ad_Admitted old && (EndpointRoute old && EndpointRoute successor || runtimeRoute old && runtimeRoute successor)
  && negb (bool_decide (ad_Identity successor = ad_Identity old))
  && String.eqb (id_AccountID (ad_Identity successor)) (id_AccountID (ad_Identity old))
  && String.eqb (id_HostID (ad_Identity successor)) (id_HostID (ad_Identity old))
  && String.eqb (ad_Hostname successor) (ad_Hostname old)
  && (ad_AttachmentGeneration old <? ad_AttachmentGeneration successor)%Z.

(** What is left of the time of an admission that is replaced. *)
Definition shortened (old : ExpectedAdmission) (fresh : bool) (now : Z) : ExpectedAdmission :=
  if fresh && runtimeRoute old then set_ExpiresAt (now + DrainLimit)%Z old
  else if fresh && time.After (ad_ExpiresAt old) (now + supersededGrace)%Z then set_ExpiresAt (now + supersededGrace)%Z old
  else old.

(** keep := func(key string, old ExpectedAdmission, fresh bool) *)
Definition keep (successors : gmap string ExpectedAdmission) (now : Z) (k : string) (old : ExpectedAdmission) (fresh : bool)
    (out : gmap string ExpectedAdmission) : gmap string ExpectedAdmission :=
  match successors !! ad_RouteID old with
  | Some successor =>
      if negb (takes_over successor old) then out
      else let old := shortened old fresh now in if time.Before now (ad_ExpiresAt old) then <[k := old]> out else out
  | None => out
  end.

Record PrivateAccessDecision := mkPrivateAccessDecision {
  pd_Allowed : bool; pd_ExpiresAt : Z; pd_ResourceID : string; pd_RouteID : string; pd_OperationID : string;
  pd_CarrierSessionID : string; pd_RouteGeneration : Z; pd_ProcessGeneration : Z; pd_ConfigGeneration : Z;
  pd_Protocol : string;
}.

(** What AuthorizeStream reads of its context: Err, and the decision WithPrivateAccessDecision put there. *)
Record AccessContext := mkAccessContext { ac_ctx : Context; ac_decision : option PrivateAccessDecision }.

Definition decision_matches (d : PrivateAccessDecision) (a : ExpectedAdmission) (now : Z) : bool :=
  pd_Allowed d && negb (time.IsZero (pd_ExpiresAt d)) && time.After (pd_ExpiresAt d) now
  && String.eqb (pd_ResourceID d) (ad_PreviewID a) && String.eqb (pd_RouteID d) (ad_RouteID a)
  && String.eqb (pd_OperationID d) (ad_OperationID a) && String.eqb (pd_CarrierSessionID d) (id_SessionID (ad_Identity a))
  && (pd_RouteGeneration d =? ad_RouteRevision a)%Z && (pd_ProcessGeneration d =? id_ProcessGeneration (ad_Identity a))%Z
  && (pd_ConfigGeneration d =? id_Generation (ad_Identity a))%Z
  && (String.eqb (pd_Protocol d) "http" || String.eqb (pd_Protocol d) "tcp").

Section registry.
Context `{GoRuntime} `{GoFold} `{NetURL} `{SHA256}.

Definition publishLocked (r : ExpectedAdmissionRegistry) : ExpectedAdmissionRegistry :=
  let byIdentity := foldl index_add ∅ (List.filter ad_Admitted ((range 31 (er_byKey r)).*2)) in
  mkExpectedAdmissionRegistry (er_nodeID r) (er_maximum r) (er_processEpoch r) (er_closed r) (er_byKey r) (er_pending r)
    (sort_by key_less <$> byIdentity) (er_superseded r) (foldl index_add ∅ ((range 32 (er_superseded r)).*2)) (S (er_changed r)).

Definition supersededBy (prior held next : gmap string ExpectedAdmission) (now : Z) : gmap string ExpectedAdmission :=
  let successors := foldl (λ m kv, <[ad_RouteID kv.2 := kv.2]> m) ∅ (range 33 next) in
  let out := foldl (λ out kv, keep successors now kv.1 kv.2 false out) ∅ (range 34 held) in
  foldl (λ out kv,
    match next !! kv.1 with
    | Some current =>
        if bool_decide (ad_Identity current = ad_Identity kv.2) then out
        else keep successors now (kv.1 +:+ NUL +:+ id_SessionID (ad_Identity kv.2)) kv.2 true out
    | None => keep successors now (kv.1 +:+ NUL +:+ id_SessionID (ad_Identity kv.2)) kv.2 true out
    end) out (range 35 prior).

Definition EM (A : Type) : Type := M ExpectedAdmissionRegistry CarrierError A.

(** The loop over a pull that makes the map of its admissions; [before] and [after] are what the caller
    does to an admission before and after it is validated. *)
Fixpoint pulled (r : ExpectedAdmissionRegistry) (now : Z) (before after : ExpectedAdmission → ExpectedAdmission)
    (next : gmap string ExpectedAdmission) (admissions : list ExpectedAdmission) : CarrierError + gmap string ExpectedAdmission :=
  match admissions with
  | [] => inr next
  | admission :: rest =>
      let admission := before admission in
      match Validate admission now (er_nodeID r) with
      | Some e => inl e
      | None =>
          if negb (String.eqb (ad_EdgeProcessEpoch admission) (er_processEpoch r)) then inl (conflict "edge process epoch is stale")
          else
            let admission := after admission in
            match next !! key admission with
            | Some _ => inl (conflict "duplicate operation and route")
            | None => pulled r now before after (<[key admission := admission]> next) rest
            end
      end
  end.

(** An admission that is unchanged keeps its acknowledgement. *)
Definition carry_over (prior : gmap string ExpectedAdmission) (a : ExpectedAdmission) : ExpectedAdmission :=
  match prior !! key a with
  | Some old =>
      if identityEqual old a && (ad_AttachmentGeneration old =? ad_AttachmentGeneration a)%Z
         && (ad_LeaseGeneration old =? ad_LeaseGeneration a)%Z && (ad_RouteRevision old =? ad_RouteRevision a)%Z
      then set_Admitted (ad_Admitted old) a else a
  | None => a
  end.

(** The first part of Replace, over the admissions it read under the read lock; [r] gives only the fixed fields. *)
Definition Replace_read (r : ExpectedAdmissionRegistry) (prior : gmap string ExpectedAdmission) (admissions : list ExpectedAdmission) (now : Z)
    : CarrierError + gmap string ExpectedAdmission :=
  if (er_maximum r <? Z.of_nat (length admissions))%Z then inl (conflict "too many admissions")
  else pulled r now id (carry_over prior) ∅ admissions.

(** The second part, under the lock. *)
Definition Replace_write (prior next : gmap string ExpectedAdmission) (now : Z) (r : ExpectedAdmissionRegistry)
    : ExpectedAdmissionRegistry * option CarrierError :=
  if er_closed r then (r, Some ErrCarrierClosed)
  else (publishLocked (with_maps r (er_closed r) next ∅ (supersededBy prior (er_superseded r) next now)), None).

(** Replace, when nothing happens between the two parts. *)
Definition Replace (admissions : list ExpectedAdmission) (now : Z) (r : ExpectedAdmissionRegistry) : ExpectedAdmissionRegistry * option CarrierError :=
  match Replace_read r (er_byKey r) admissions now with
  | inl e => (r, Some e)
  | inr next => Replace_write (er_byKey r) next now r
  end.

Definition install_one (byKey : gmap string ExpectedAdmission) (kv : string * ExpectedAdmission) : gmap string ExpectedAdmission :=
  match byKey !! kv.1 with
  | Some current => if ad_Admitted current then byKey else <[kv.1 := kv.2]> byKey
  | None => <[kv.1 := kv.2]> byKey
  end.

Definition InstallPending (admissions : list ExpectedAdmission) (now : Z) (r : ExpectedAdmissionRegistry) : ExpectedAdmissionRegistry * option CarrierError :=
  if (er_maximum r <? Z.of_nat (length admissions))%Z then (r, Some (conflict "too many admissions"))
  else match pulled r now (set_Admitted false) id ∅ admissions with
       | inl e => (r, Some e)
       | inr next =>
           if er_closed r then (r, Some ErrCarrierClosed)
           else (publishLocked (with_maps r (er_closed r) (foldl install_one (er_byKey r) (range 36 next)) next (er_superseded r)), None)
       end.

(** One turn of the second loop of MarkAdmitted; a key that is not pending any more reads as the zero admission. *)
Definition admit_one (m : gmap string ExpectedAdmission * gmap string ExpectedAdmission) (a : ExpectedAdmission) :=
  (<[key a := set_Admitted true (default zeroAdmission (m.2 !! key a))]> m.1, delete (key a) m.2).

Definition MarkAdmitted (admissions : list ExpectedAdmission) (r : ExpectedAdmissionRegistry) : ExpectedAdmissionRegistry * option CarrierError :=
  if er_closed r then (r, Some ErrCarrierClosed)
  else if negb (forallb (λ a, match er_pending r !! key a with Some current => exactEqual current a | None => false end) admissions)
  then (r, Some ErrAdmissionConflict)
  else let m := foldl admit_one (er_byKey r, er_pending r) admissions in
       (publishLocked (with_maps r (er_closed r) m.1 m.2 (er_superseded r)), None).

Definition Commit (admissions : list ExpectedAdmission) (r : ExpectedAdmissionRegistry) : ExpectedAdmissionRegistry * option CarrierError :=
  if negb (forallb ad_Admitted admissions) then (r, Some ErrAdmissionConflict)
  else let next := foldl (λ m a, <[key a := a]> m) (∅ : gmap string ExpectedAdmission) admissions in
       if er_closed r then (r, Some ErrCarrierClosed)
       else if negb (forallb (λ kv, match er_byKey r !! kv.1 with Some current => ad_Admitted current && exactEqual current kv.2 | None => false end) (range 37 next))
       then (r, Some ErrAdmissionConflict)
       else (publishLocked (with_maps r (er_closed r) next ∅ (er_superseded r)), None).

Definition Upsert (admission : ExpectedAdmission) (now : Z) (r : ExpectedAdmissionRegistry) : ExpectedAdmissionRegistry * option CarrierError :=
  match Validate admission now (er_nodeID r) with
  | Some e => (r, Some e)
  | None =>
      if negb (String.eqb (ad_EdgeProcessEpoch admission) (er_processEpoch r)) then (r, Some (conflict "edge process epoch is stale"))
      else if er_closed r then (r, Some ErrCarrierClosed)
      else
        let install := publishLocked (with_maps r (er_closed r) (<[key admission := admission]> (er_byKey r)) (er_pending r) (er_superseded r)) in
        match er_byKey r !! key admission with
        | Some current =>
            if bool_decide (current = admission) then (r, None)
            else if (ad_AttachmentGeneration admission <? ad_AttachmentGeneration current)%Z then (r, Some (conflict "attachment generation regressed"))
            else (install, None)
        | None =>
            if (er_maximum r <=? Z.of_nat (size (er_byKey r)))%Z then (r, Some (conflict "admission capacity reached"))
            else (install, None)
        end
  end.

Definition Remove (admission : ExpectedAdmission) (r : ExpectedAdmissionRegistry) : ExpectedAdmissionRegistry * option CarrierError :=
  match er_byKey r !! key admission with
  | None => (r, None)
  | Some current =>
      if negb (exactEqual current admission) then (r, Some ErrAdmissionConflict)
      else (publishLocked (with_maps r (er_closed r) (delete (key admission) (er_byKey r)) (er_pending r) (er_superseded r)), None)
  end.

Definition Close (r : ExpectedAdmissionRegistry) : ExpectedAdmissionRegistry :=
  if er_closed r then r else publishLocked (with_maps r true (er_byKey r) (er_pending r) (er_superseded r)).

Definition Expects (r : ExpectedAdmissionRegistry) (host : string) (now : Z) : bool :=
  negb (String.eqb host "") && existsb (λ kv, String.eqb (ad_Hostname kv.2) host && time.Before now (ad_ExpiresAt kv.2)) (range 38 (er_byKey r)).

Definition snapshot_less (a b : ExpectedAdmission) : bool :=
  if negb (String.eqb (ad_OperationID a) (ad_OperationID b)) then str_ltb (ad_OperationID a) (ad_OperationID b)
  else str_ltb (ad_RouteID a) (ad_RouteID b).
Definition Snapshot (r : ExpectedAdmissionRegistry) : list ExpectedAdmission := sort_by snapshot_less ((range 39 (er_byKey r)).*2).

(** The admissions under an identity that were superseded and still stand. *)
Definition still_held (r : ExpectedAdmissionRegistry) (identity : Identity) (now : Z) : list ExpectedAdmission :=
  List.filter (λ a, time.Before now (ad_ExpiresAt a)) (default [] (er_supersededByIdentity r !! identity)).

Definition ForIdentity (r : ExpectedAdmissionRegistry) (identity : Identity) (now : Z) : list ExpectedAdmission :=
  default [] (er_byIdentity r !! identity) ++ still_held r identity now.

Definition Superseded (r : ExpectedAdmissionRegistry) (identity : Identity) (routeID : string) (now : Z) : bool :=
  existsb (λ a, String.eqb (ad_RouteID a) routeID && time.Before now (ad_ExpiresAt a)) (default [] (er_supersededByIdentity r !! identity)).

(** One turn of the loop of WaitForIdentity: it looks for admissions under one read lock, ... *)
Definition Wait_look (r : ExpectedAdmissionRegistry) (identity : Identity) (now : Z) : option (list ExpectedAdmission) :=
  match ForIdentity r identity now with [] => None | admissions => Some admissions end.

(** ... and takes the channel to wait on under another. *)
Definition Wait_channel (r : ExpectedAdmissionRegistry) : CarrierError + nat :=
  if er_closed r then inl ErrCarrierClosed else inr (er_changed r).

(** Whether a channel that Changed returned is closed. *)
Definition channel_closed (r : ExpectedAdmissionRegistry) (channel : nat) : bool := (channel <? er_changed r)%nat.

(** ** Binding and authorization *)

(** The loop of PeerBinding: the identity found so far, and whether the key is known and one of its admissions live. *)
Fixpoint peer_scan (encoded thumbprint : string) (uris : list (option string)) (now : Z)
    (found : option Identity) (keyKnown live : bool) (l : list ExpectedAdmission) : CarrierError + (option Identity * bool * bool) :=
  match l with
  | [] => inr (found, keyKnown, live)
  | a :: l' =>
      if negb (String.eqb (ad_MachineIdentityPublicKey a) encoded) || negb (String.eqb (ad_MachineIdentityThumbprint a) thumbprint)
      then peer_scan encoded thumbprint uris now found keyKnown live l'
      else if negb (ad_Admitted a) || negb (time.After (ad_ExpiresAt a) now)
      then peer_scan encoded thumbprint uris now found true live l'
      else if bad (MatchCarrierIdentityURN uris (binding_of (ad_Identity a) (ad_EdgeProcessEpoch a)))
      then peer_scan encoded thumbprint uris now found true true l'
      else match found with
           | None => peer_scan encoded thumbprint uris now (Some (ad_Identity a)) true true l'
           | Some bound =>
               if bool_decide (bound = ad_Identity a) then peer_scan encoded thumbprint uris now found true true l'
               else inl (conflict "certificate matches multiple carrier identities")
           end
  end.

Definition PeerBinding (r : ExpectedAdmissionRegistry) (now : Z) (peers : PeerCertificates) : CarrierError + Identity :=
  match peer_key peers with
  | None => inl ErrAdmissionNotExpected
  | Some (certificate, publicKey) =>
      if er_closed r then inl ErrCarrierClosed
      else match peer_scan (base64.EncodeToString publicKey) ("sha256:" +:+ base64.EncodeToString (Sum256 publicKey)) (URIs certificate) now
                   None false false ((range 40 (er_byKey r)).*2) with
           | inl e => inl e
           | inr (Some bound, _, _) => inr bound
           | inr (None, keyKnown, live) =>
               inl (Causes [ErrAdmissionNotExpected; Refused (refusal (negb (bool_decide (er_byKey r = ∅))) keyKnown live)])
           end
  end.

(** The first candidate for the route decides. *)
Fixpoint authorize_among (identity : Identity) (open : StreamOpen) (decision : option PrivateAccessDecision) (now : Z)
    (candidates : list ExpectedAdmission) : option CarrierError :=
  match candidates with
  | [] => Some ErrAdmissionNotExpected
  | a :: rest =>
      if ad_Admitted a && bool_decide (ad_Identity a = identity) && String.eqb (ad_RouteID a) (so_RouteID open)
      then if restrictedPreviewAccess (ad_AccessMode a)
           then match decision with
                | Some d => if decision_matches d a now then None else Some ErrRouteDenied
                | None => Some ErrRouteDenied
                end
           else None
      else authorize_among identity open decision now rest
  end.

Definition AuthorizeStream (r : ExpectedAdmissionRegistry) (ctx : AccessContext) (now : Z) (identity : Identity) (open : StreamOpen) : option CarrierError :=
  match ac_ctx ctx with
  | None => Some ErrInvalidConfig
  | Some (Some e) => Some (Protocol e)
  | Some None =>
      if negb (valid_identity identity) || negb (Identity_matches identity open) then Some ErrStreamIdentityMismatch
      else if er_closed r then Some ErrCarrierClosed
      else authorize_among identity open (ac_decision ctx) now
             (default [] (er_byIdentity r !! identity) ++ still_held r identity now)
  end.
End registry.

Arguments Validate : simpl never.
Arguments publishLocked : simpl never.
Arguments supersededBy : simpl never.
