(* ===== verification/AdmissionSpec.v ===== *)
(** * What the expected admissions authorize

    The registry of Expected.v under any sequence of calls: its index agrees with its admissions, only acknowledged admissions
    authorize a stream, a withdrawal takes effect at once, and the certificate of a peer selects one identity. *)
From S2P Require Import Prelude GoStd GoData GoNet GoEnc ConnProto Sessions StateErr Carrier Expected.

(** ** The index *)

Definition of_identity (i : Identity) (l : list ExpectedAdmission) : list ExpectedAdmission :=
  List.filter (λ a, bool_decide (ad_Identity a = i)) l.

Lemma elem_of_filter_bool {A} (f : A → bool) l a : a ∈ List.filter f l ↔ a ∈ l ∧ f a = true.
Proof. rewrite !list_elem_of_In. apply filter_In. Qed.

Lemma elem_of_of_identity i l a : a ∈ of_identity i l ↔ a ∈ l ∧ ad_Identity a = i.
Proof. unfold of_identity. by rewrite elem_of_filter_bool, bool_decide_eq_true. Qed.

Lemma index_lookup l m i : default [] (foldl index_add m l !! i) = default [] (m !! i) ++ of_identity i l.
Proof.
  revert m. induction l as [|a l IH]; intros m; simpl; [by rewrite app_nil_r|]. rewrite IH. unfold index_add, of_identity. simpl.
  destruct (decide (ad_Identity a = i)) as [<-|Hne].
  - rewrite lookup_insert_eq, bool_decide_true by done. simpl. by rewrite <-app_assoc.
  - by rewrite lookup_insert_ne, bool_decide_false.
Qed.

Definition values {A} (m : gmap string A) : list A := (map_to_list m).*2.

Lemma elem_of_values {A} (m : gmap string A) a : a ∈ values m ↔ ∃ k, m !! k = Some a.
Proof.
  unfold values. rewrite list_elem_of_fmap. split.
  - intros ([k b] & -> & Hin). exists k. by apply elem_of_map_to_list.
  - intros [k Hk]. exists (k, a). by rewrite elem_of_map_to_list.
Qed.

(** A loop that fills a map: what holds of the entries before it and of every entry a turn adds holds of the entries after it. *)
Lemma foldl_entries {A B} (f : gmap string A → B → gmap string A) (P : string → A → Prop) l m :
  (∀ k a, m !! k = Some a → P k a) → (∀ m x k a, x ∈ l → f m x !! k = Some a → m !! k = Some a ∨ P k a) →
  ∀ k a, foldl f m l !! k = Some a → P k a.
Proof.
  revert m. induction l as [|x l IH]; intros m Hm Hf; simpl; [done|]. apply IH.
  - intros k a [Hk|HP]%Hf; [by apply Hm|done|by left].
  - intros m' y k a Hy. apply Hf. by right.
Qed.

Section spec.
Context `{GoRuntime} `{GoFold} `{NetURL} `{SHA256}.

Lemma range_values site {A} (m : gmap string A) : (range site m).*2 ≡ₚ values m.
Proof. unfold values. by rewrite range_perm. Qed.

Lemma elem_of_range_values site {A} (m : gmap string A) a : a ∈ (range site m).*2 ↔ ∃ k, m !! k = Some a.
Proof. by rewrite range_values, elem_of_values. Qed.

Definition index_ok (r : ExpectedAdmissionRegistry) : Prop :=
  (∀ i, default [] (er_byIdentity r !! i) = sort_by key_less (of_identity i (List.filter ad_Admitted ((range 31 (er_byKey r)).*2)))) ∧
  (∀ i, default [] (er_supersededByIdentity r !! i) = of_identity i ((range 32 (er_superseded r)).*2)).

Lemma publishLocked_index r : index_ok (publishLocked r).
Proof.
  unfold publishLocked. split; intros i; cbn [er_byIdentity er_byKey er_supersededByIdentity er_superseded].
  - rewrite lookup_fmap. pose proof (index_lookup (List.filter ad_Admitted ((range 31 (er_byKey r)).*2)) ∅ i) as Hl.
    rewrite lookup_empty in Hl. simpl in Hl. rewrite <-Hl. by destruct (foldl index_add ∅ _ !! i).
  - by rewrite index_lookup, lookup_empty.
Qed.

Lemma publishLocked_fields r :
  er_nodeID (publishLocked r) = er_nodeID r ∧ er_processEpoch (publishLocked r) = er_processEpoch r ∧ er_closed (publishLocked r) = er_closed r ∧
  er_byKey (publishLocked r) = er_byKey r ∧ er_pending (publishLocked r) = er_pending r ∧ er_superseded (publishLocked r) = er_superseded r.
Proof. done. Qed.

Lemma elem_of_byIdentity r i a : index_ok r → a ∈ default [] (er_byIdentity r !! i) ↔ ad_Admitted a = true ∧ ad_Identity a = i ∧ ∃ k, er_byKey r !! k = Some a.
Proof. intros [Hi _]. rewrite Hi, elem_of_sort_by, elem_of_of_identity, elem_of_filter_bool, elem_of_range_values. naive_solver. Qed.

Lemma elem_of_still_held r i now a : index_ok r →
  a ∈ still_held r i now ↔ ad_Identity a = i ∧ (now < ad_ExpiresAt a)%Z ∧ ∃ k, er_superseded r !! k = Some a.
Proof.
  intros [_ Hi]. unfold still_held, time.Before. rewrite elem_of_filter_bool, Hi, elem_of_of_identity, elem_of_range_values, Z.ltb_lt. naive_solver.
Qed.

(** ** Authorization *)

Lemma authorize_among_Some i open d now l : authorize_among i open d now l = None →
  ∃ a, a ∈ l ∧ ad_Admitted a = true ∧ ad_Identity a = i ∧ ad_RouteID a = so_RouteID open ∧
    (restrictedPreviewAccess (ad_AccessMode a) = true → ∃ x, d = Some x ∧ decision_matches x a now = true).
Proof.
  induction l as [|a l IH]; cbn [authorize_among]; [done|]. destruct (_ && _) eqn:Hm.
  - rewrite !andb_true_iff, bool_decide_eq_true, String.eqb_eq in Hm. destruct Hm as [[Ha Hi] Hr].
    intros Hres. exists a. split_and!; [by left|done..|]. intros Hx. rewrite Hx in Hres. destruct d as [x|]; [|done].
    destruct (decision_matches x a now) eqn:E; [by eauto|done].
  - intros Hres. destruct (IH Hres) as (b & Hb & Hrest). exists b. split; [by right|done].
Qed.

(** What makes the call succeed, in terms of the admissions of the registry. *)
Lemma AuthorizeStream_None r ctx now i open : index_ok r → AuthorizeStream r ctx now i open = None →
  ac_ctx ctx = Some None ∧ valid_identity i = true ∧ er_closed r = false ∧
  ∃ k a, (er_byKey r !! k = Some a ∨ er_superseded r !! k = Some a ∧ (now < ad_ExpiresAt a)%Z) ∧
    ad_Admitted a = true ∧ ad_Identity a = i ∧ ad_RouteID a = so_RouteID open ∧
    (restrictedPreviewAccess (ad_AccessMode a) = true → ∃ d, ac_decision ctx = Some d ∧ decision_matches d a now = true).
Proof.
  intros Hok. unfold AuthorizeStream. destruct (ac_ctx ctx) as [[e|]|]; [done| |done].
  destruct (valid_identity i); [|done]. simpl. destruct (Identity_matches i open); [|done]. simpl.
  destruct (er_closed r); [done|]. intros (a & Ha & Hrest)%authorize_among_Some. split_and!; [done..|].
  rewrite elem_of_app, elem_of_byIdentity, elem_of_still_held in Ha by done.
  destruct Ha as [(Hadm & Hid & k & Hk)|(Hid & Hexp & k & Hk)]; exists k, a; (split; [by eauto|done]).
Qed.

(** ** What a pull makes *)

Lemma pulled_spec r now before after next admissions next' :
  pulled r now before after next admissions = inr next' →
  ∀ k a, next' !! k = Some a → next !! k = Some a ∨
    ∃ b, b ∈ admissions ∧ Validate (before b) now (er_nodeID r) = None ∧ ad_EdgeProcessEpoch (before b) = er_processEpoch r ∧
      a = after (before b) ∧ k = key a.
Proof.
  revert next. induction admissions as [|b rest IH]; intros next; cbn [pulled]; [naive_solver|].
  destruct (Validate _ _ _) eqn:Hv; [done|]. destruct (String.eqb_spec (ad_EdgeProcessEpoch (before b)) (er_processEpoch r)) as [He|]; [|done]. simpl.
  destruct (next !! _); [done|]. intros Hres k a Hk. destruct (IH _ Hres k a Hk) as [Hin|(c & Hc & Hrest)].
  - destruct (decide (k = key (after (before b)))) as [->|Hne]; [|rewrite lookup_insert_ne in Hin by done; by left].
    rewrite lookup_insert_eq in Hin. simplify_eq. right. exists b. split_and!; [by left|done..].
  - right. exists c. split; [by right|done].
Qed.

(** ** Succession *)

Lemma keep_lookup succ now k old fresh out k' a : keep succ now k old fresh out !! k' = Some a →
  out !! k' = Some a ∨
  ∃ successor, succ !! ad_RouteID old = Some successor ∧ takes_over successor old = true ∧ a = shortened old fresh now ∧ (now < ad_ExpiresAt a)%Z.
Proof.
  unfold keep. destruct (succ !! _) as [s|] eqn:Hs; [|by left]. destruct (takes_over s old) eqn:Ht; [|by left]. simpl.
  unfold time.Before. destruct (Z.ltb_spec now (ad_ExpiresAt (shortened old fresh now))); [|by left].
  destruct (decide (k = k')) as [->|]; [|rewrite lookup_insert_ne by done; by left]. rewrite lookup_insert_eq. naive_solver.
Qed.

(** An admission that is held after a replacement: it was current or held before, and a newer attachment of the same machine
    has its route. *)
Definition held_by (prior held next : gmap string ExpectedAdmission) (now : Z) (a : ExpectedAdmission) : Prop :=
  ∃ old fresh successor, a = shortened old fresh now ∧ (now < ad_ExpiresAt a)%Z ∧ takes_over successor old = true ∧
    ad_RouteID successor = ad_RouteID old ∧ (∃ k, next !! k = Some successor) ∧ ∃ k, (if fresh : bool then prior else held) !! k = Some old.

Lemma supersededBy_held prior held next now k a : supersededBy prior held next now !! k = Some a → held_by prior held next now a.
Proof.
  unfold supersededBy. set (succ := foldl _ ∅ (range 33 next)).
  assert (Hsucc : ∀ route s, succ !! route = Some s → ad_RouteID s = route ∧ ∃ k', next !! k' = Some s).
  { apply foldl_entries; [by intros ??; rewrite lookup_empty|]. intros m [k' s] route a' Hin. simpl.
    destruct (decide (ad_RouteID s = route)) as [<-|]; [|rewrite lookup_insert_ne by done; by left].
    rewrite lookup_insert_eq. intros [= <-]. right. split; [done|]. exists k'. by apply (elem_of_range 33). }
  assert (Hkeep : ∀ fresh k0 old, (if fresh : bool then prior else held) !! k0 = Some old → ∀ m k1 k2 b,
    keep succ now k1 old fresh m !! k2 = Some b → m !! k2 = Some b ∨ held_by prior held next now b).
  { intros fresh k0 old Hold m k1 k2 b [Hb|(s & Hs & Ht & Hb & Hexp)]%keep_lookup; [by left|right].
    destruct (Hsucc _ _ Hs) as [Hr Hn]. exists old, fresh, s. naive_solver. }
  apply (foldl_entries _ (λ _, held_by prior held next now)).
  - apply foldl_entries; [by intros ??; rewrite lookup_empty|]. intros m [k0 old] k1 b Hin%elem_of_range. by apply (Hkeep false k0).
  - intros m [k0 old] k1 b Hin%elem_of_range. simpl. destruct (next !! k0) as [c|]; [|by apply (Hkeep true k0)].
    case_bool_decide; [by left|by apply (Hkeep true k0)].
Qed.

(** ** Well-formed admissions *)

Definition NULc : ascii := ascii_of_N 0.

(** What validation leaves of an admission whatever its clock, and the range of its machine integers. *)
Record wf (epoch : string) (a : ExpectedAdmission) : Prop := {
  wf_identity : valid_identity (ad_Identity a) = true;
  wf_route : bad_id (ad_RouteID a) = false;
  wf_operation : strings.free_of NULc (ad_OperationID a) = true;
  wf_epoch : ad_EdgeProcessEpoch a = epoch ∧ bad (ValidateOpaqueEpoch epoch) = false;
  wf_range : UInt64.in_range (id_ProcessGeneration (ad_Identity a)) ∧ UInt64.in_range (id_Generation (ad_Identity a));
}.

(** An admission as a Go value: its generations are uint64. *)
Definition typed (a : ExpectedAdmission) : Prop :=
  UInt64.in_range (id_ProcessGeneration (ad_Identity a)) ∧ UInt64.in_range (id_Generation (ad_Identity a)).

Lemma first_failed_None l : first_failed l = None → Forall (λ x, x.1 = false) l.
Proof. induction l as [|[f e] l IH]; simpl; [constructor|]. destruct f; [done|]. intros. constructor; auto. Qed.

Lemma identifier_NUL v : bad_id v = false → strings.free_of NULc v = true.
Proof. intros Hv. by apply identifier_free. Qed.

Lemma Validate_wf a now node epoch : Validate a now node = None → typed a → ad_EdgeProcessEpoch a = epoch → wf epoch a.
Proof.
  unfold Validate. destruct (first_failed (admission_checks _ _ _ _)) eqn:Hc; [done|]. intros _ Ht He.
  apply first_failed_None in Hc. unfold admission_checks in Hc.
  do 6 (let Hx := fresh "Hc" in apply Forall_cons in Hc as [Hx Hc]; simpl in Hx). clear Hc.
  rewrite orb_false_iff in Hc2. destruct Hc2 as [_ Hep]. apply negb_false_iff in Hc5.
  assert (Hids : ∀ v, v ∈ admission_identifiers a (runtimeRoute a) (EndpointRoute a) → bad_id v = false).
  { intros v Hv. destruct (bad_id v) eqn:Hb; [|done]. rewrite <-Hc4. symmetry. apply existsb_exists. exists v.
    by rewrite <-list_elem_of_In, Hb, orb_true_r. }
  assert (Hroute : bad_id (ad_RouteID a) = false).
  { apply Hids. unfold admission_identifiers. destruct (runtimeRoute a), (EndpointRoute a); rewrite !elem_of_cons; auto. }
  split; [done|done| |by subst|done].
  destruct (runtimeRoute a) eqn:Hr; [|destruct (EndpointRoute a) eqn:Hend].
  - simpl in Hc3. rewrite !orb_false_iff in Hc3. destruct Hc3 as [[[[_ Ho] _] _] _]. apply negb_false_iff, String.eqb_eq in Ho. by rewrite Ho.
  - simpl in Hc1. rewrite !orb_false_iff in Hc1. destruct Hc1 as [[[[_ Ho] _] _] _]. apply negb_false_iff, String.eqb_eq in Ho. rewrite Ho. by apply identifier_NUL.
  - apply identifier_NUL, Hids. unfold admission_identifiers. rewrite !elem_of_cons. auto.
Qed.

(** The key determines the operation and the route. *)
Lemma key_inj epoch epoch' a b : wf epoch a → wf epoch' b → key a = key b → ad_OperationID a = ad_OperationID b ∧ ad_RouteID a = ad_RouteID b.
Proof. intros Ha Hb. unfold key, NUL. intros Hk. by apply separated_inj in Hk; [|apply wf_operation in Ha, Hb..]. Qed.

(** What an acknowledgement is for: the admission up to what a pull may change without another one. *)
Record same_binding (a b : ExpectedAdmission) : Prop := {
  sb_identity : ad_Identity a = ad_Identity b;
  sb_route : ad_OperationID a = ad_OperationID b ∧ ad_RouteID a = ad_RouteID b;
  sb_machine : ad_MachineIdentityPublicKey a = ad_MachineIdentityPublicKey b ∧ ad_MachineIdentityThumbprint a = ad_MachineIdentityThumbprint b;
  sb_generations : ad_AttachmentGeneration a = ad_AttachmentGeneration b ∧ ad_LeaseGeneration a = ad_LeaseGeneration b ∧ ad_RouteRevision a = ad_RouteRevision b;
}.

Lemma same_binding_refl a : same_binding a a.
Proof. by split. Qed.

Lemma same_binding_trans a b c : same_binding a b → same_binding b c → same_binding a c.
Proof. intros [] []. split; intuition congruence. Qed.

Lemma same_binding_Admitted v a b : same_binding a b → same_binding (set_Admitted v a) b.
Proof. intros [????]. by split. Qed.

Lemma same_binding_ExpiresAt v a b : same_binding a b → same_binding (set_ExpiresAt v a) b.
Proof. intros [????]. by split. Qed.

Lemma exactEqual_eq a b : exactEqual a b = true → set_Admitted (ad_Admitted b) a = b.
Proof.
  unfold exactEqual. rewrite !andb_true_iff, !String.eqb_eq, !Z.eqb_eq, bool_decide_eq_true.
  destruct a, b. unfold set_Admitted. cbn. intros. destruct_and!. by subst.
Qed.

(** ** Worlds *)

(** A pull that was installed: when, over which admissions, and which it has. *)
Record Replacement := mkReplacement { rl_at : Z; rl_prior : gmap string ExpectedAdmission; rl_next : gmap string ExpectedAdmission }.

(** The registry with what happened to it: the admissions that were acknowledged, the maps of admissions it had, and the pulls that replaced them. *)
Record World := mkWorld {
  w_reg : ExpectedAdmissionRegistry; w_acked : list ExpectedAdmission; w_seen : list (gmap string ExpectedAdmission); w_replaced : list Replacement;
}.

Definition acked (w : World) (a : ExpectedAdmission) : Prop := ∃ b, b ∈ w_acked w ∧ same_binding a b.

Definition limit (a : ExpectedAdmission) : Z := if runtimeRoute a then DrainLimit else supersededGrace.

(** [successor] is a newer attachment of the same machine for the same route. *)
Definition newer_attachment (successor old : ExpectedAdmission) : Prop :=
  ad_RouteID successor = ad_RouteID old ∧ id_AccountID (ad_Identity successor) = id_AccountID (ad_Identity old) ∧
  id_HostID (ad_Identity successor) = id_HostID (ad_Identity old) ∧ ad_Hostname successor = ad_Hostname old ∧
  (ad_AttachmentGeneration old < ad_AttachmentGeneration successor)%Z ∧ ad_Identity successor ≠ ad_Identity old ∧ ad_Admitted old = true ∧
  (EndpointRoute old = true ∧ EndpointRoute successor = true ∨ runtimeRoute old = true ∧ runtimeRoute successor = true).

(** The admission was current until the pull at [t] replaced it by a newer attachment, and does not stand longer than its limit from then, nor, except for a runtime
    carrier's, longer than it would have. *)
Definition replaced_at (w : World) (a : ExpectedAdmission) (t : Z) : Prop :=
  ∃ prior next k old k' successor, mkReplacement t prior next ∈ w_replaced w ∧ prior !! k = Some old ∧ same_binding a old ∧
    next !! k' = Some successor ∧ newer_attachment successor old ∧
    (ad_ExpiresAt a ≤ t + limit a)%Z ∧ (runtimeRoute a = false → (ad_ExpiresAt a ≤ ad_ExpiresAt old)%Z).

(** The admission that MarkAdmitted leaves under a key it is given twice. *)
Definition ghost : ExpectedAdmission := set_Admitted true zeroAdmission.

Definition entry_ok (w : World) (k : string) (a : ExpectedAdmission) : Prop :=
  a = ghost ∨ key a = k ∧ wf (er_processEpoch (w_reg w)) a ∧ (ad_Admitted a = true → acked w a).

Record world_ok (w : World) : Prop := {
  wo_index : index_ok (w_reg w);
  wo_seen : ∀ m, m ∈ er_byKey (w_reg w) :: w_seen w → ∀ k a, m !! k = Some a → entry_ok w k a;
  wo_pending : ∀ k a, er_pending (w_reg w) !! k = Some a → key a = k ∧ wf (er_processEpoch (w_reg w)) a ∧ ad_Admitted a = false;
  wo_superseded : ∀ k a, er_superseded (w_reg w) !! k = Some a → wf (er_processEpoch (w_reg w)) a ∧ ad_Admitted a = true ∧ acked w a ∧
    ∃ t, replaced_at w a t;
}.

Definition acknowledged_by (res : option CarrierError) (l : list ExpectedAdmission) (w : World) : list ExpectedAdmission :=
  match res with None => List.filter ad_Admitted l ++ w_acked w | Some _ => w_acked w end.

(** The calls.  Replace read an earlier state of the registry; a call that fails is a step too. *)
Inductive admission_step : World → World → Prop :=
  | step_Replace w prior l now next r' res : prior ∈ er_byKey (w_reg w) :: w_seen w → Forall typed l →
      Replace_read (w_reg w) prior l now = inr next → Replace_write prior next now (w_reg w) = (r', res) →
      admission_step w (mkWorld r' (acknowledged_by res l w) (er_byKey (w_reg w) :: w_seen w)
        (match res with None => mkReplacement now prior next :: w_replaced w | Some _ => w_replaced w end))
  | step_InstallPending w l now r' res : Forall typed l → InstallPending l now (w_reg w) = (r', res) →
      admission_step w (mkWorld r' (w_acked w) (er_byKey (w_reg w) :: w_seen w) (w_replaced w))
  | step_MarkAdmitted w l r' res : Forall typed l → MarkAdmitted l (w_reg w) = (r', res) →
      admission_step w (mkWorld r' (acknowledged_by res (set_Admitted true <$> l) w) (er_byKey (w_reg w) :: w_seen w) (w_replaced w))
  | step_Commit w l r' res : Commit l (w_reg w) = (r', res) →
      admission_step w (mkWorld r' (w_acked w) (er_byKey (w_reg w) :: w_seen w) (w_replaced w))
  | step_Upsert w a now r' res : typed a → Upsert a now (w_reg w) = (r', res) →
      admission_step w (mkWorld r' (acknowledged_by res [a] w) (er_byKey (w_reg w) :: w_seen w) (w_replaced w))
  | step_Remove w a r' res : Remove a (w_reg w) = (r', res) →
      admission_step w (mkWorld r' (w_acked w) (er_byKey (w_reg w) :: w_seen w) (w_replaced w))
  | step_Close w : admission_step w (mkWorld (Close (w_reg w)) (w_acked w) (er_byKey (w_reg w) :: w_seen w) (w_replaced w)).

Definition admission_reach (w : World) : Prop :=
  ∃ node epoch maximum r, NewExpectedAdmissionRegistry node epoch maximum = inr r ∧ rtc admission_step (mkWorld r [] [] []) w.

(** ** The invariant *)

Definition grown (w w' : World) : Prop :=
  er_processEpoch (w_reg w') = er_processEpoch (w_reg w) ∧ w_acked w ⊆ w_acked w' ∧ w_replaced w ⊆ w_replaced w' ∧
  w_seen w' = er_byKey (w_reg w) :: w_seen w.

Lemma acked_grown w w' a : grown w w' → acked w a → acked w' a.
Proof. intros (_ & Ha & _) (b & Hb & Hs). exists b. auto. Qed.

Lemma entry_ok_grown w w' k a : grown w w' → entry_ok w k a → entry_ok w' k a.
Proof.
  intros Hg [->|(Hk & Hwf & Ha)]; [by left|right]. split_and!; [done|by rewrite (proj1 Hg)|]. intros Hadm. eapply acked_grown; eauto.
Qed.

Lemma replaced_grown w w' a t : grown w w' → replaced_at w a t → replaced_at w' a t.
Proof. intros (_ & _ & Hr & _) (prior & next & k & old & k' & s & Hin & Hrest). exists prior, next, k, old, k', s. auto. Qed.

Lemma superseded_ok_grown w w' k a : grown w w' → world_ok w → er_superseded (w_reg w) !! k = Some a →
  wf (er_processEpoch (w_reg w)) a ∧ ad_Admitted a = true ∧ acked w' a ∧ ∃ t, replaced_at w' a t.
Proof.
  intros Hg Hok Hk. destruct (wo_superseded _ Hok k a Hk) as (Hwf & Ha & Hack & t & Ht).
  split_and!; [done|done|by eapply acked_grown|]. exists t. by eapply replaced_grown.
Qed.

(** A step that keeps the registry. *)
Lemma world_ok_kept w w' : grown w w' → w_reg w' = w_reg w → world_ok w → world_ok w'.
Proof.
  intros Hg Hr Hok. split; rewrite ?Hr.
  - apply Hok.
  - intros m Hm k a Hk. apply (entry_ok_grown w w' k a Hg). apply (wo_seen _ Hok m); [|done].
    rewrite (proj2 (proj2 (proj2 Hg))) in Hm. set_solver.
  - apply Hok.
  - intros k a Hk. eapply superseded_ok_grown; eauto.
Qed.

(** A step that publishes new maps. *)
Lemma world_ok_published w w' closed byKey pending superseded : grown w w' →
  w_reg w' = publishLocked (with_maps (w_reg w) closed byKey pending superseded) → world_ok w →
  (∀ k a, byKey !! k = Some a → entry_ok w' k a) →
  (∀ k a, pending !! k = Some a → key a = k ∧ wf (er_processEpoch (w_reg w)) a ∧ ad_Admitted a = false) →
  (∀ k a, superseded !! k = Some a → wf (er_processEpoch (w_reg w)) a ∧ ad_Admitted a = true ∧ acked w' a ∧
    ∃ t, replaced_at w' a t) →
  world_ok w'.
Proof.
  intros Hg Hr Hok Hkey Hpend Hsup. split; rewrite ?Hr.
  - apply publishLocked_index.
  - intros m Hm k a Hk. apply elem_of_cons in Hm as [->|Hm]; [by apply Hkey|].
    apply (entry_ok_grown w w' k a Hg). apply (wo_seen _ Hok m); [|done]. by rewrite (proj2 (proj2 (proj2 Hg))) in Hm.
  - done.
  - done.
Qed.

Lemma acknowledged_by_grows res l w : w_acked w ⊆ acknowledged_by res l w.
Proof. destruct res; simpl; set_solver. Qed.

Lemma set_Admitted_self a : set_Admitted (ad_Admitted a) a = a.
Proof. by destruct a. Qed.

Lemma wf_Admitted v epoch a : wf epoch a → wf epoch (set_Admitted v a).
Proof. intros []. by split. Qed.

Lemma wf_ExpiresAt v epoch a : wf epoch a → wf epoch (set_ExpiresAt v a).
Proof. intros []. by split. Qed.

Lemma wf_shortened epoch old fresh now : wf epoch old → wf epoch (shortened old fresh now).
Proof. intros Hwf. unfold shortened. repeat case_match; auto using wf_ExpiresAt. Qed.

Lemma shortened_binding old fresh now : same_binding (shortened old fresh now) old.
Proof. unfold shortened. repeat case_match; auto using same_binding_ExpiresAt, same_binding_refl. Qed.

Lemma shortened_Admitted old fresh now : ad_Admitted (shortened old fresh now) = ad_Admitted old.
Proof. unfold shortened. by repeat case_match. Qed.

Lemma shortened_limit old fresh now : limit (shortened old fresh now) = limit old.
Proof. unfold shortened. by repeat case_match. Qed.

(** A fresh one is held for the limit at most. *)
Lemma shortened_expiry old now : (ad_ExpiresAt (shortened old true now) ≤ now + limit old)%Z.
Proof.
  unfold shortened, limit, time.After. simpl. destruct (runtimeRoute old); [done|].
  destruct (Z.ltb_spec (now + supersededGrace) (ad_ExpiresAt old)); simpl; lia.
Qed.

Lemma takes_over_old successor old : takes_over successor old = true →
  ad_Admitted old = true ∧ old ≠ ghost ∧ id_AccountID (ad_Identity successor) = id_AccountID (ad_Identity old) ∧
  id_HostID (ad_Identity successor) = id_HostID (ad_Identity old) ∧ (ad_AttachmentGeneration old < ad_AttachmentGeneration successor)%Z.
Proof.
  unfold takes_over. rewrite !andb_true_iff, !String.eqb_eq, Z.ltb_lt. intros ((((((Ha & Hk) & _) & Hacc) & Hh) & _) & Hg).
  split_and!; try done. intros ->. by vm_compute in Hk.
Qed.

Lemma takes_over_newer successor old : takes_over successor old = true → ad_RouteID successor = ad_RouteID old → newer_attachment successor old.
Proof.
  unfold takes_over, newer_attachment. rewrite !andb_true_iff, !orb_true_iff, !andb_true_iff, !String.eqb_eq, Z.ltb_lt, negb_true_iff, bool_decide_eq_false.
  tauto.
Qed.

Lemma shortened_runtime old fresh now : runtimeRoute (shortened old fresh now) = runtimeRoute old.
Proof. unfold shortened. by repeat case_match. Qed.

(** Nothing but a runtime carrier's admission is prolonged. *)
Lemma shortened_earlier old fresh now : runtimeRoute old = false → (ad_ExpiresAt (shortened old fresh now) ≤ ad_ExpiresAt old)%Z.
Proof.
  intros Hr. unfold shortened, time.After. rewrite Hr, andb_false_r. destruct fresh; simpl; [|done].
  destruct (Z.ltb_spec (now + supersededGrace) (ad_ExpiresAt old)); simpl; lia.
Qed.

Lemma carry_over_Admitted prior a : ad_Admitted (carry_over prior a) = true →
  ad_Admitted a = true ∨ ∃ old, prior !! key a = Some old ∧ ad_Admitted old = true ∧ identityEqual old a = true ∧
    ad_AttachmentGeneration old = ad_AttachmentGeneration a ∧ ad_LeaseGeneration old = ad_LeaseGeneration a ∧ ad_RouteRevision old = ad_RouteRevision a.
Proof.
  unfold carry_over. destruct (prior !! key a) as [old|]; [|by left]. destruct (_ && _) eqn:Hc; [|by left].
  rewrite !andb_true_iff, !Z.eqb_eq in Hc. simpl. intros Ha. right. exists old. tauto.
Qed.

Lemma carry_over_cases prior a : ∃ v, carry_over prior a = set_Admitted v a.
Proof. unfold carry_over. repeat case_match; try (by eexists); exists (ad_Admitted a); by rewrite set_Admitted_self. Qed.

Lemma valid_not_zero epoch a : wf epoch a → ad_Identity a ≠ zeroIdentity.
Proof. intros Hwf Hz. pose proof (wf_identity _ _ Hwf) as Hv. by rewrite Hz in Hv. Qed.

(** What Replace makes of a pull over an earlier map of the registry. *)
Lemma replaced_entry_ok w w' prior l now next k a : world_ok w → grown w w' → prior ∈ er_byKey (w_reg w) :: w_seen w → Forall typed l →
  List.filter ad_Admitted l ⊆ w_acked w' → Replace_read (w_reg w) prior l now = inr next → next !! k = Some a → entry_ok w' k a.
Proof.
  intros Hok Hg Hprior Hl Hacked. unfold Replace_read. destruct (_ <? _)%Z; [done|]. intros Hp Hk.
  destruct (pulled_spec _ _ _ _ _ _ _ Hp k a Hk) as [He|(b & Hb & Hv & Hep & -> & ->)]; [by rewrite lookup_empty in He|]. simpl in *.
  rewrite Forall_forall in Hl. pose proof (Validate_wf _ _ _ _ Hv (Hl _ Hb) Hep) as Hwf.
  right. split_and!; [done|rewrite (proj1 Hg); destruct (carry_over_cases prior b) as [v ->]; by apply wf_Admitted|].
  destruct (carry_over_cases prior b) as [v Hc]. intros [Ha|(old & Hold & Ha & Hie & Hgen)]%carry_over_Admitted; rewrite Hc.
  - exists b. split; [apply Hacked; by apply elem_of_filter_bool|apply same_binding_Admitted, same_binding_refl].
  - unfold identityEqual in Hie. rewrite !andb_true_iff, bool_decide_eq_true, !String.eqb_eq in Hie. destruct Hie as [[Hi Hpk] Hth].
    destruct (wo_seen _ Hok prior Hprior _ _ Hold) as [->|(Hkey & Hwfo & Hack)].
    + destruct (valid_not_zero _ _ Hwf). by rewrite <-Hi.
    + destruct (acked_grown w w' old Hg (Hack Ha)) as (c & Hc' & Hs). exists c. split; [done|].
      apply same_binding_Admitted. eapply same_binding_trans; [|exact Hs]. destruct Hgen as (? & ? & ?).
      destruct (key_inj _ _ _ _ Hwfo Hwf Hkey). by split.
Qed.

Lemma replaced_superseded_ok w w' prior next now k a : world_ok w → grown w w' → prior ∈ er_byKey (w_reg w) :: w_seen w →
  mkReplacement now prior next ∈ w_replaced w' → supersededBy prior (er_superseded (w_reg w)) next now !! k = Some a →
  wf (er_processEpoch (w_reg w)) a ∧ ad_Admitted a = true ∧ acked w' a ∧ ∃ t, replaced_at w' a t.
Proof.
  intros Hok Hg Hprior Hnow (old & fresh & s & -> & _ & Ht & Hroute & (ks & Hs) & k0 & Hold)%supersededBy_held.
  pose proof (takes_over_newer _ _ Ht Hroute) as Hnew. destruct (takes_over_old _ _ Ht) as (Ha & Hng & _). rewrite shortened_Admitted.
  destruct fresh; [|by eapply superseded_ok_grown].
  destruct (wo_seen _ Hok prior Hprior _ _ Hold) as [->|(_ & Hwf & Hack)]; [done|].
  destruct (acked_grown w w' old Hg (Hack Ha)) as (b & Hb & Hsb). split_and!; [by apply wf_shortened|done| |].
  - exists b. split; [done|]. eapply same_binding_trans; [apply shortened_binding|done].
  - exists now, prior, next, k0, old, ks, s. rewrite shortened_limit, shortened_runtime.
    split_and!; try done; [apply shortened_binding|apply shortened_expiry|apply shortened_earlier].
Qed.

Lemma step_Replace_ok w prior l now next r' res : world_ok w → prior ∈ er_byKey (w_reg w) :: w_seen w → Forall typed l →
  Replace_read (w_reg w) prior l now = inr next → Replace_write prior next now (w_reg w) = (r', res) →
  world_ok (mkWorld r' (acknowledged_by res l w) (er_byKey (w_reg w) :: w_seen w)
    (match res with None => mkReplacement now prior next :: w_replaced w | Some _ => w_replaced w end)).
Proof.
  intros Hok Hprior Hl Hread. unfold Replace_write. destruct (er_closed (w_reg w)); intros [= <- <-]; simpl.
  - apply (world_ok_kept w); [|done|done]. split_and!; simpl; [done|done|set_solver|done].
  - set (w' := mkWorld _ _ _ _). assert (Hg : grown w w') by (split_and!; simpl; [done|set_solver|set_solver|done]).
    apply (world_ok_published w w' false next ∅ (supersededBy prior (er_superseded (w_reg w)) next now)); try done.
    + intros k a. eapply replaced_entry_ok; [done|done|exact Hprior|done| |done]. simpl. set_solver.
    + intros k a Hk. eapply replaced_superseded_ok; eauto. simpl. left.
Qed.

Lemma pending_entry_ok w l now next k a : Forall typed l → pulled (w_reg w) now (set_Admitted false) id ∅ l = inr next → next !! k = Some a →
  key a = k ∧ wf (er_processEpoch (w_reg w)) a ∧ ad_Admitted a = false.
Proof.
  intros Hl Hp Hk. destruct (pulled_spec _ _ _ _ _ _ _ Hp k a Hk) as [He|(b & Hb & Hv & Hep & -> & ->)]; [by rewrite lookup_empty in He|].
  rewrite Forall_forall in Hl. split_and!; [done|by eapply Validate_wf; eauto; apply (Hl _ Hb)|done].
Qed.

Lemma step_InstallPending_ok w l now r' res : world_ok w → Forall typed l → InstallPending l now (w_reg w) = (r', res) →
  world_ok (mkWorld r' (w_acked w) (er_byKey (w_reg w) :: w_seen w) (w_replaced w)).
Proof.
  intros Hok Hl Hcall. set (w' := mkWorld _ _ _ _).
  assert (Hg : er_processEpoch r' = er_processEpoch (w_reg w) → grown w w') by (intros He; by split_and!).
  unfold InstallPending in Hcall. destruct (_ <? _)%Z; [simplify_eq; apply (world_ok_kept w); by auto|].
  destruct (pulled _ _ _ _ _ _) as [e|next] eqn:Hp; [simplify_eq; apply (world_ok_kept w); by auto|].
  destruct (er_closed (w_reg w)); [simplify_eq; apply (world_ok_kept w); by auto|]. injection Hcall as <- <-.
  assert (Hg' : grown w w') by by apply Hg.
  eapply (world_ok_published w w'); [done|reflexivity|done| |by intros k a; eapply pending_entry_ok|by intros k a; eapply superseded_ok_grown; eauto].
  apply foldl_entries; [intros k a Hk; apply (entry_ok_grown w w' k a Hg'); by apply (wo_seen _ Hok _ (list_elem_of_here _ _))|].
  intros m [k0 b] k a Hin%elem_of_range Hk. destruct (pending_entry_ok w l now next k0 b Hl Hp Hin) as (Hkey & Hwf & Ha).
  assert (Hnew : entry_ok w' k0 b) by (right; split_and!; [done|done|congruence]).
  unfold install_one in Hk. simpl in Hk.
  assert (Hins : <[k0 := b]> m !! k = Some a → m !! k = Some a ∨ entry_ok w' k a).
  { destruct (decide (k0 = k)) as [<-|]; [rewrite lookup_insert_eq; intros [= <-]; by right|rewrite lookup_insert_ne by done; by left]. }
  destruct (m !! k0) as [c|]; [destruct (ad_Admitted c); [by left|]|]; by apply Hins.
Qed.

Lemma admit_all_ok w' (pending0 : gmap string ExpectedAdmission) l m :
  (∀ a, a ∈ l → ∃ c, pending0 !! key a = Some c ∧ exactEqual c a = true ∧ key c = key a ∧ wf (er_processEpoch (w_reg w')) c) →
  (set_Admitted true <$> l) ⊆ w_acked w' → m.2 ⊆ pending0 → (∀ k a, m.1 !! k = Some a → entry_ok w' k a) →
  (foldl admit_one m l).2 ⊆ pending0 ∧ ∀ k a, (foldl admit_one m l).1 !! k = Some a → entry_ok w' k a.
Proof.
  revert m. induction l as [|a l IH]; intros m Hl Hack Hm2 Hm1; simpl; [done|].
  apply IH; [intros b Hb; apply Hl; by right|set_solver|simpl; by etrans; [apply delete_subseteq|]|]. simpl.
  intros k b Hk. destruct (decide (key a = k)) as [<-|]; [|rewrite lookup_insert_ne in Hk by done; by apply Hm1].
  rewrite lookup_insert_eq in Hk. injection Hk as <-. destruct (m.2 !! key a) as [c|] eqn:Hc; [|by left]. simpl.
  destruct (Hl a (list_elem_of_here _ _)) as (c' & Hc' & Heq & Hkey & Hwf).
  pose proof (lookup_weaken _ _ _ _ Hc Hm2) as Hc2. assert (c' = c) as -> by congruence.
  right. split_and!; [done|by apply wf_Admitted|]. intros _. exists (set_Admitted true a). split; [apply Hack; by left|].
  apply exactEqual_eq in Heq. assert (set_Admitted true c = set_Admitted true a) as -> by (rewrite <-Heq; by destruct c). apply same_binding_refl.
Qed.

Lemma step_MarkAdmitted_ok w l r' res : world_ok w → Forall typed l → MarkAdmitted l (w_reg w) = (r', res) →
  world_ok (mkWorld r' (acknowledged_by res (set_Admitted true <$> l) w) (er_byKey (w_reg w) :: w_seen w) (w_replaced w)).
Proof.
  intros Hok Hl Hcall. set (w' := mkWorld _ _ _ _).
  assert (Hg : er_processEpoch r' = er_processEpoch (w_reg w) → grown w w') by (intros He; split_and!; [done|apply acknowledged_by_grows|done|done]).
  unfold MarkAdmitted in Hcall. destruct (er_closed (w_reg w)); [simplify_eq; apply (world_ok_kept w); by auto|].
  destruct (forallb _ l) eqn:Hall; [|simpl in Hcall; simplify_eq; apply (world_ok_kept w); by auto]. simpl in Hcall. injection Hcall as <- <-.
  assert (Hg' : grown w w') by by apply Hg. rewrite forallb_forall in Hall.
  destruct (admit_all_ok w' (er_pending (w_reg w)) l (er_byKey (w_reg w), er_pending (w_reg w))) as [Hpend Hkey]; simpl.
  - intros a Ha. specialize (Hall a (proj1 (list_elem_of_In _ _) Ha)). destruct (er_pending (w_reg w) !! key a) as [c|] eqn:Hc; [|done].
    destruct (wo_pending _ Hok _ _ Hc) as (? & ? & _). by exists c.
  - intros a Ha. apply elem_of_app. left. apply elem_of_filter_bool. split; [done|]. by apply list_elem_of_fmap in Ha as (b & -> & _).
  - done.
  - intros k a Hk. apply (entry_ok_grown w w' k a Hg'). by apply (wo_seen _ Hok _ (list_elem_of_here _ _)).
  - eapply (world_ok_published w w'); [done|reflexivity|done|exact Hkey| |by intros k a; eapply superseded_ok_grown; eauto].
    intros k a Hk. apply (wo_pending _ Hok). by eapply lookup_weaken.
Qed.

Lemma current_entry_ok w w' k a : world_ok w → grown w w' → er_byKey (w_reg w) !! k = Some a → entry_ok w' k a.
Proof. intros Hok Hg Hk. apply (entry_ok_grown w w' k a Hg). by apply (wo_seen _ Hok _ (list_elem_of_here _ _)). Qed.

Lemma step_Commit_ok w l r' res : world_ok w → Commit l (w_reg w) = (r', res) →
  world_ok (mkWorld r' (w_acked w) (er_byKey (w_reg w) :: w_seen w) (w_replaced w)).
Proof.
  intros Hok Hcall. set (w' := mkWorld _ _ _ _).
  assert (Hg : er_processEpoch r' = er_processEpoch (w_reg w) → grown w w') by (intros He; by split_and!).
  unfold Commit in Hcall. destruct (forallb ad_Admitted l) eqn:Hadm; [|simpl in Hcall; simplify_eq; apply (world_ok_kept w); by auto]. simpl in Hcall.
  destruct (er_closed (w_reg w)); [simplify_eq; apply (world_ok_kept w); by auto|]. set (next := foldl _ ∅ l) in *.
  destruct (forallb _ (range 37 next)) eqn:Hall; [|simpl in Hcall; simplify_eq; apply (world_ok_kept w); by auto]. simpl in Hcall. injection Hcall as <- <-.
  assert (Hg' : grown w w') by by apply Hg. rewrite forallb_forall in Hall, Hadm.
  eapply (world_ok_published w w'); [done|reflexivity|done| |done|by intros k a; eapply superseded_ok_grown; eauto].
  assert (Hnext : ∀ k a, next !! k = Some a → ad_Admitted a = true).
  { apply foldl_entries; [by intros ??; rewrite lookup_empty|]. intros m x k a Hx%list_elem_of_In.
    destruct (decide (key x = k)) as [<-|]; [rewrite lookup_insert_eq; intros [= <-]; right; by apply Hadm|rewrite lookup_insert_ne by done; by left]. }
  intros k a Hk. specialize (Hall (k, a)). simpl in Hall. rewrite <-list_elem_of_In, elem_of_range in Hall. specialize (Hall Hk).
  destruct (er_byKey (w_reg w) !! k) as [c|] eqn:Hc; [|done]. apply andb_true_iff in Hall as [Hca Heq%exactEqual_eq].
  rewrite (Hnext _ _ Hk), <-Hca, set_Admitted_self in Heq. subst c. by eapply current_entry_ok.
Qed.

Lemma step_Upsert_ok w a now r' res : world_ok w → typed a → Upsert a now (w_reg w) = (r', res) →
  world_ok (mkWorld r' (acknowledged_by res [a] w) (er_byKey (w_reg w) :: w_seen w) (w_replaced w)).
Proof.
  intros Hok Ht Hcall. set (w' := mkWorld _ _ _ _).
  assert (Hg : er_processEpoch r' = er_processEpoch (w_reg w) → grown w w') by (intros He; split_and!; [done|apply acknowledged_by_grows|done|done]).
  unfold Upsert in Hcall. destruct (Validate _ _ _) eqn:Hv; [simplify_eq; apply (world_ok_kept w); by auto|].
  destruct (String.eqb_spec (ad_EdgeProcessEpoch a) (er_processEpoch (w_reg w))) as [He|]; [|simpl in Hcall; simplify_eq; apply (world_ok_kept w); by auto].
  cbn [negb] in Hcall. destruct (er_closed (w_reg w)); [simplify_eq; apply (world_ok_kept w); by auto|].
  assert (Hcases : r' = w_reg w ∨ res = None ∧ r' = publishLocked (with_maps (w_reg w) false (<[key a := a]> (er_byKey (w_reg w))) (er_pending (w_reg w)) (er_superseded (w_reg w)))).
  { destruct (er_byKey (w_reg w) !! key a) as [c|]; [destruct (bool_decide _); [|destruct (_ <? _)%Z]|destruct (_ <=? _)%Z]; simplify_eq; auto. }
  destruct Hcases as [Hr|[Hres Hr]]; [apply (world_ok_kept w); simpl; [apply Hg; by rewrite Hr|done|done]|]. subst r' res.
  assert (Hg' : grown w w') by by apply Hg.
  eapply (world_ok_published w w'); [done|reflexivity|done| |apply Hok|by intros k b; eapply superseded_ok_grown; eauto].
  intros k b. destruct (decide (key a = k)) as [<-|]; [|rewrite lookup_insert_ne by done; by apply current_entry_ok].
  rewrite lookup_insert_eq. intros [= <-]. right. split_and!; [done|by eapply Validate_wf|]. intros Ha. exists a. simpl. rewrite Ha. simpl.
  split; [by left|apply same_binding_refl].
Qed.

Lemma step_Remove_ok w a r' res : world_ok w → Remove a (w_reg w) = (r', res) →
  world_ok (mkWorld r' (w_acked w) (er_byKey (w_reg w) :: w_seen w) (w_replaced w)).
Proof.
  intros Hok Hcall. set (w' := mkWorld _ _ _ _).
  assert (Hg : er_processEpoch r' = er_processEpoch (w_reg w) → grown w w') by (intros He; by split_and!).
  unfold Remove in Hcall. destruct (er_byKey (w_reg w) !! key a) as [c|]; [|simplify_eq; apply (world_ok_kept w); by auto].
  destruct (exactEqual c a); [|simpl in Hcall; simplify_eq; apply (world_ok_kept w); by auto]. simpl in Hcall. injection Hcall as <- <-.
  assert (Hg' : grown w w') by by apply Hg.
  eapply (world_ok_published w w'); [done|reflexivity|done| |apply Hok|by intros k b; eapply superseded_ok_grown; eauto].
  intros k b [_ Hk]%lookup_delete_Some. by eapply current_entry_ok.
Qed.

Lemma step_Close_ok w : world_ok w → world_ok (mkWorld (Close (w_reg w)) (w_acked w) (er_byKey (w_reg w) :: w_seen w) (w_replaced w)).
Proof.
  intros Hok. unfold Close. destruct (er_closed (w_reg w)); [apply (world_ok_kept w); [by split_and!|done|done]|].
  assert (Hg : grown w (mkWorld (publishLocked (with_maps (w_reg w) true (er_byKey (w_reg w)) (er_pending (w_reg w)) (er_superseded (w_reg w)))) (w_acked w)
    (er_byKey (w_reg w) :: w_seen w) (w_replaced w))) by by split_and!.
  eapply (world_ok_published w); [done|reflexivity|done|by intros k a; apply current_entry_ok|apply Hok|by intros k b; eapply superseded_ok_grown; eauto].
Qed.

Lemma admission_step_ok w w' : admission_step w w' → world_ok w → world_ok w'.
Proof.
  destruct 1; intros Hok; eauto using step_InstallPending_ok, step_MarkAdmitted_ok, step_Commit_ok, step_Upsert_ok, step_Remove_ok, step_Close_ok.
  by eapply step_Replace_ok.
Qed.

Lemma range_empty site {A} : range site (∅ : gmap string A) = [].
Proof. apply Permutation_nil_r. by rewrite range_perm, map_to_list_empty. Qed.

Lemma admission_reach_ok w : admission_reach w → world_ok w.
Proof.
  intros (node & epoch & maximum & r & Hnew & Hr).
  assert (Hok : world_ok (mkWorld r [] [] [])).
  { unfold NewExpectedAdmissionRegistry in Hnew. destruct (_ || _); [done|]. injection Hnew as <-.
    split; simpl; [split; intros i; simpl; by rewrite range_empty| |done|done].
    intros m [->|Hm]%elem_of_cons k a; [by rewrite lookup_empty|by apply elem_of_nil in Hm]. }
  clear Hnew. induction Hr as [|w w1 w2 Hstep _ IH]; [done|]. by eapply IH, admission_step_ok.
Qed.

(** ** Streams *)

(** The caller of a restricted preview was allowed exactly this stream, and still is. *)
Definition decided (d : PrivateAccessDecision) (a : ExpectedAdmission) (i : Identity) (now : Z) : Prop :=
  pd_Allowed d = true ∧ (now < pd_ExpiresAt d)%Z ∧ pd_ResourceID d = ad_PreviewID a ∧ pd_RouteID d = ad_RouteID a ∧ pd_OperationID d = ad_OperationID a ∧
  pd_CarrierSessionID d = id_SessionID i ∧ pd_RouteGeneration d = ad_RouteRevision a ∧ pd_ProcessGeneration d = id_ProcessGeneration i ∧
  pd_ConfigGeneration d = id_Generation i ∧ (pd_Protocol d = "http" ∨ pd_Protocol d = "tcp").

Lemma decision_decided d a i now : ad_Identity a = i → decision_matches d a now = true → decided d a i now.
Proof.
  intros <-. unfold decision_matches, decided, time.After. rewrite !andb_true_iff, !String.eqb_eq, !Z.eqb_eq, Z.ltb_lt, orb_true_iff, !String.eqb_eq. tauto.
Qed.

(** C16: an open edge authorizes a stream only under an admission that the server's acknowledgement covers: the admission is for the exact identity of
    the carrier and the route of the stream, it was acknowledged (with the same operation, machine key, attachment, lease and route
    generations), and it is current, or it was current until a pull replaced it by a newer attachment of the same machine for the same route and host name,
    less than 30 seconds ago (six hours for a runtime carrier's; pulls in between do not prolong this), and has not expired;
    for a private or team preview the caller holds an unexpired decision that allows exactly this preview, route, operation, session and generations. *)
Theorem streams_acknowledged w ctx now i open (Hreach : admission_reach w) (Hcall : AuthorizeStream (w_reg w) ctx now i open = None) :
  ∃ k a b, b ∈ w_acked w ∧ same_binding a b ∧ ad_Identity a = i ∧ ad_RouteID a = so_RouteID open ∧
    (er_byKey (w_reg w) !! k = Some a ∨
     er_superseded (w_reg w) !! k = Some a ∧ (now < ad_ExpiresAt a)%Z ∧ ∃ t, replaced_at w a t ∧ (now < t + limit a)%Z) ∧
    (restrictedPreviewAccess (ad_AccessMode a) = true → ∃ d, ac_decision ctx = Some d ∧ decided d a i now).
Proof.
  pose proof (admission_reach_ok w Hreach) as Hok.
  destruct (AuthorizeStream_None _ _ _ _ _ (wo_index _ Hok) Hcall) as (_ & Hv & _ & k & a & Hin & Ha & Hi & Hr & Hd).
  assert (Hd' : restrictedPreviewAccess (ad_AccessMode a) = true → ∃ d, ac_decision ctx = Some d ∧ decided d a i now).
  { intros (d & Hctx & Hm)%Hd. exists d. split; [done|]. by apply decision_decided. }
  destruct Hin as [Hk|[Hk Hexp]].
  - destruct (wo_seen _ Hok _ (list_elem_of_here _ _) k a Hk) as [->|(_ & _ & Hack)]; [by rewrite <-Hi in Hv|].
    destruct (Hack Ha) as (b & Hb & Hs). exists k, a, b. split_and!; auto.
  - destruct (wo_superseded _ Hok k a Hk) as (_ & _ & (b & Hb & Hs) & t & Ht). exists k, a, b. split_and!; auto.
    right. split_and!; [done|done|]. exists t. split; [done|]. destruct Ht as (? & ? & ? & ? & ? & ? & _ & _ & _ & _ & _ & Hle & _). lia.
Qed.

Lemma Replace_write_ok prior next now r r' : Replace_write prior next now r = (r', None) →
  index_ok r' ∧ er_byKey r' = next ∧ er_superseded r' = supersededBy prior (er_superseded r) next now.
Proof. unfold Replace_write. destruct (er_closed r); intros [= <-]. split; [apply publishLocked_index|done]. Qed.

Lemma Replace_read_entries r prior l now next k a : Replace_read r prior l now = inr next → next !! k = Some a → ∃ b v, b ∈ l ∧ a = set_Admitted v b.
Proof.
  unfold Replace_read. destruct (_ <? _)%Z; [done|]. intros Hp Hk.
  destruct (pulled_spec _ _ _ _ _ _ _ Hp k a Hk) as [He|(b & Hb & _ & _ & -> & _)]; [by rewrite lookup_empty in He|].
  destruct (carry_over_cases prior (id b)) as [v Hv]. exists b, v. by rewrite Hv.
Qed.

(** A withdrawal takes effect at once: after a pull was installed, a stream is authorized only for a route that the pull names, for the account and host
    the pull names; the identity is the one of the pull, or one whose attachment is older than the one of the pull.  A route that the pull drops
    or moves to another machine authorizes nothing from then on. *)
Theorem withdrawal_immediate r0 r r' prior l now next ctx now' i open
    (Hread : Replace_read r0 prior l now = inr next) (Hwrite : Replace_write prior next now r = (r', None))
    (Hcall : AuthorizeStream r' ctx now' i open = None) :
  ∃ b, b ∈ l ∧ ad_RouteID b = so_RouteID open ∧ id_AccountID (ad_Identity b) = id_AccountID i ∧ id_HostID (ad_Identity b) = id_HostID i ∧
    (ad_Identity b = i ∨ ∃ k a, er_superseded r' !! k = Some a ∧ ad_Identity a = i ∧ (ad_AttachmentGeneration a < ad_AttachmentGeneration b)%Z).
Proof.
  destruct (Replace_write_ok _ _ _ _ _ Hwrite) as (Hidx & Hkey & Hsup).
  destruct (AuthorizeStream_None _ _ _ _ _ Hidx Hcall) as (_ & _ & _ & k & a & [Hk|[Hk _]] & _ & Hi & Hr & _).
  - rewrite Hkey in Hk. destruct (Replace_read_entries _ _ _ _ _ _ _ Hread Hk) as (b & v & Hb & ->). simpl in *. exists b. subst i. auto 10.
  - pose proof Hk as Hk'. rewrite Hsup in Hk. destruct (supersededBy_held _ _ _ _ _ _ Hk) as (old & fresh & s & Ha & _ & Ht & Hrs & (k' & Hs) & _).
    destruct (Replace_read_entries _ _ _ _ _ _ _ Hread Hs) as (b & v & Hb & ->). simpl in *.
    destruct (takes_over_old _ _ Ht) as (_ & _ & Hacc & Hh & Hg). simpl in *.
    destruct (shortened_binding old fresh now) as [Hid [_ Hroute] _ [Hgen _]]. rewrite <-Ha in Hid, Hroute, Hgen.
    exists b. split_and!; [done|congruence|congruence|congruence|]. right. exists k, a. split_and!; [done|done|congruence].
Qed.

(** ** The lookup by identity *)

Lemma key_less_swo' : StrictWeakOrder key_less.
Proof.
  split; unfold not_after, key_less; intros.
  - by apply str_ltb_asym.
  - destruct (str_ltb (key z) (key x)) eqn:E; [|done]. destruct (str_ltb_trichotomy (key y) (key z)) as [?|[Heq|?]]; [| |congruence].
    + assert (str_ltb (key y) (key x) = true) by eauto using str_ltb_trans. congruence.
    + rewrite <-Heq in E. congruence.
Qed.

Lemma filter_perm {A} (f : A → bool) l l' : l ≡ₚ l' → List.filter f l ≡ₚ List.filter f l'.
Proof. induction 1; simpl; repeat case_match; eauto using Permutation_swap, Permutation_trans. Qed.

(** The admissions of an identity, by a scan of the whole registry. *)
Definition scan (r : ExpectedAdmissionRegistry) (i : Identity) : list ExpectedAdmission :=
  sort_by key_less (of_identity i (List.filter ad_Admitted (values (er_byKey r)))).

Lemma scan_agrees w i : world_ok w → default [] (er_byIdentity (w_reg w) !! i) = scan (w_reg w) i.
Proof.
  intros Hok. rewrite (proj1 (wo_index _ Hok)). unfold scan. apply sort_by_unique; [apply key_less_swo'| |].
  - intros a b. rewrite !elem_of_of_identity, !elem_of_filter_bool, elem_of_range_values, elem_of_values.
    intros [[[k Hk] _] _] [[[k' Hk'] _] _] Hab Hba.
    assert (Hkey : key a = key b).
    { unfold not_after, key_less in *. destruct (str_ltb_trichotomy (key a) (key b)) as [?|[?|?]]; congruence. }
    destruct (wo_seen _ Hok _ (list_elem_of_here _ _) _ _ Hk) as [->|(Ha & Hwf & _)], (wo_seen _ Hok _ (list_elem_of_here _ _) _ _ Hk') as [->|(Hb & Hwf' & _)]; [done| | |congruence].
    + pose proof (wf_route _ _ Hwf') as Hr. apply (separated_inj NULc "" "") in Hkey as [_ Hr']; [by rewrite <-Hr' in Hr|done|by apply wf_operation in Hwf'].
    + pose proof (wf_route _ _ Hwf) as Hr. apply separated_inj in Hkey as [_ Hr']; [by rewrite Hr' in Hr|by apply wf_operation in Hwf|done].
  - unfold of_identity. apply filter_perm, filter_perm, range_values.
Qed.

(** The index by identity, which is rebuilt with every change, answers as a scan of all admissions would: ForIdentity gives the
    admitted admissions of the identity in the order of their keys, whatever the order in which the maps are visited, and after them
    exactly the superseded ones of that identity that have not expired. *)
Theorem lookup_agrees_scan w i now (Hreach : admission_reach w) :
  ∃ held, ForIdentity (w_reg w) i now = scan (w_reg w) i ++ held ∧
    (∀ a, a ∈ scan (w_reg w) i ↔ ad_Admitted a = true ∧ ad_Identity a = i ∧ ∃ k, er_byKey (w_reg w) !! k = Some a) ∧
    (∀ a, a ∈ held ↔ ad_Identity a = i ∧ (now < ad_ExpiresAt a)%Z ∧ ∃ k, er_superseded (w_reg w) !! k = Some a).
Proof.
  pose proof (admission_reach_ok w Hreach) as Hok. exists (still_held (w_reg w) i now). unfold ForIdentity. rewrite <-scan_agrees by done.
  split_and!; [done|intros a; by apply elem_of_byIdentity, Hok|intros a; by apply elem_of_still_held, Hok].
Qed.

(** ** The identity of a peer *)

(** Whether a certificate with the key presents the admission. *)
Definition presents (cert : Certificate) (publicKey : string) (now : Z) (a : ExpectedAdmission) : Prop :=
  ad_MachineIdentityPublicKey a = base64.EncodeToString publicKey ∧
  ad_MachineIdentityThumbprint a = "sha256:" +:+ base64.EncodeToString (Sum256 publicKey) ∧
  ad_Admitted a = true ∧ (now < ad_ExpiresAt a)%Z ∧ MatchCarrierIdentityURN (URIs cert) (binding_of (ad_Identity a) (ad_EdgeProcessEpoch a)) = None.

Section scan.
Context (cert : Certificate) (publicKey : string) (now : Z).
#[local] Abbreviation scan_from := (peer_scan (base64.EncodeToString publicKey) ("sha256:" +:+ base64.EncodeToString (Sum256 publicKey)) (URIs cert) now).

(** One admission more: it is presented, and then the identity is the one found so far, or it is passed over. *)
Lemma peer_scan_cons a l found known live :
  (¬ presents cert publicKey now a ∧ ∃ known' live', scan_from found known live (a :: l) = scan_from found known' live' l) ∨
  (presents cert publicKey now a ∧
    (found = None ∨ found = Some (ad_Identity a)) ∧ scan_from found known live (a :: l) = scan_from (Some (ad_Identity a)) true true l) ∨
  (presents cert publicKey now a ∧ ∃ i, found = Some i ∧ i ≠ ad_Identity a ∧
    scan_from found known live (a :: l) = inl (conflict "certificate matches multiple carrier identities")).
Proof.
  cbn [peer_scan]. unfold presents.
  destruct (String.eqb_spec (ad_MachineIdentityPublicKey a) (base64.EncodeToString publicKey)) as [Hp|Hp]; cbn [negb orb]; [|left; split; [tauto|by eauto]].
  destruct (String.eqb_spec (ad_MachineIdentityThumbprint a) ("sha256:" +:+ base64.EncodeToString (Sum256 publicKey))) as [Ht|Ht]; cbn [negb]; [|left; split; [tauto|by eauto]].
  destruct (ad_Admitted a) eqn:Ha; cbn [negb orb]; [|left; split; [by intros (_ & _ & ? & _)|by eauto]].
  unfold time.After. destruct (Z.ltb_spec now (ad_ExpiresAt a)) as [Hx|Hx]; cbn [negb]; [|left; split; [lia|by eauto]].
  destruct (MatchCarrierIdentityURN _ _) as [e|] eqn:Hm; cbn [bad]; [left; split; [by intros (_ & _ & _ & _ & ?)|by eauto]|].
  right. destruct found as [i|]; [|left; by split_and!; auto]. case_bool_decide as Hi; [subst i; left; by split_and!; auto|].
  right. split; [done|]. exists i. by split_and!.
Qed.

Lemma peer_scan_found l : ∀ found known live f known' live', scan_from found known live l = inr (f, known', live') →
  (∀ i, f = Some i ↔ (found = Some i ∨ ∃ a, a ∈ l ∧ presents cert publicKey now a ∧ ad_Identity a = i)) ∧
  (∀ a, a ∈ l → presents cert publicKey now a → f = Some (ad_Identity a)).
Proof.
  induction l as [|a l IH]; intros found known live f known' live' Hres.
  - cbn in Hres. simplify_eq. split; [intros i; split; [by left|intros [?|(a & Ha & _)]; [done|by apply elem_of_nil in Ha]]|].
    intros a Ha. by apply elem_of_nil in Ha.
  - destruct (peer_scan_cons a l found known live) as [[Hnot (k1 & l1 & Heq)]|[(Hp & Hf & Heq)|(Hp & i & _ & _ & Heq)]]; rewrite Heq in Hres; [| |done].
    + destruct (IH _ _ _ _ _ _ Hres) as [H3 H4]. split; [intros i; rewrite H3; set_solver|]. intros b Hb Hpb. apply H4; [|done]. by apply elem_of_cons in Hb as [->|].
    + destruct (IH _ _ _ _ _ _ Hres) as [H3 H4].
      assert (Hfa : f = Some (ad_Identity a)) by (apply H3; by left). split.
      * intros i. rewrite H3. split; [intros [[= <-]|(b & Hb & Hrest)]; right; [by exists a; split; [left|]|exists b; split; [by right|done]]|].
        intros [Hi|(b & [->|Hb]%elem_of_cons & Hpb & <-)]; [destruct Hf; left; congruence|by left|right; by eauto].
      * intros b [->|Hb]%elem_of_cons Hpb; [done|by apply H4].
Qed.

Lemma peer_scan_conflict l : ∀ found known live e, scan_from found known live l = inl e →
  ∃ i a, a ∈ l ∧ presents cert publicKey now a ∧ i ≠ ad_Identity a ∧ (found = Some i ∨ ∃ b, b ∈ l ∧ presents cert publicKey now b ∧ ad_Identity b = i).
Proof.
  induction l as [|a l IH]; intros found known live e Hres; [done|].
  destruct (peer_scan_cons a l found known live) as [[Hnot (k1 & l1 & Heq)]|[(Hp & Hf & Heq)|(Hp & i & Hi & Hne & Heq)]]; rewrite Heq in Hres.
  - destruct (IH _ _ _ _ Hres) as (i & b & Hb & Hpb & Hne & Hor). exists i, b. split_and!; [by right|done|done|]. destruct Hor as [?|(c & Hc & ?)]; [by left|right; exists c; split; [by right|done]].
  - destruct (IH _ _ _ _ Hres) as (i & b & Hb & Hpb & Hne & Hor). exists i, b. split_and!; [by right|done|done|]. right.
    destruct Hor as [[= <-]|(c & Hc & ?)]; [exists a; by split; [left|]|exists c; split; [by right|done]].
  - exists i, a. split_and!; [by left|done|done|by left].
Qed.
End scan.
End spec.
