(* ===== verification/AdmissionPeer.v ===== *)
(** * The identity that a peer's certificate selects, and examples of the expected admissions *)
From S2P Require Import Prelude GoStd GoData GoNet GoEnc ConnProto Sessions StateErr Carrier Expected AdmissionSpec.

Section peer.
Context `{GoRuntime} `{GoFold} `{NetURL} `{SHA256}.

Lemma base64_inj s s' : base64.EncodeToString s = base64.EncodeToString s' → s = s'.
Proof. intros Heq. pose proof (base64.base64_Decode_Encode s) as Hs. rewrite Heq, base64.base64_Decode_Encode in Hs. by simplify_eq. Qed.

(** The URI of a certificate matches one binding, unless the hash collides. *)
Lemma MatchCarrierIdentityURN_inj uris b b' :
  MatchCarrierIdentityURN uris b = None → MatchCarrierIdentityURN uris b' = None →
  CarrierIdentityBinding_Validate b = None ∧ CarrierIdentityBinding_Validate b' = None ∧ Sum256 (binding_json b) = Sum256 (binding_json b').
Proof.
  assert (Huri : ∀ c, MatchCarrierIdentityURN uris c = None → CarrierIdentityBinding_Validate c = None ∧
    uris = [Some (CarrierIdentityURNPrefix +:+ base64.EncodeToString (Sum256 (binding_json c)))]).
  { intros c. unfold MatchCarrierIdentityURN, CarrierIdentityURN. destruct (CarrierIdentityBinding_Validate c); [done|].
    destruct uris as [|[u|] [|]]; try done. destruct (String.eqb_spec u (CarrierIdentityURNPrefix +:+ base64.EncodeToString (Sum256 (binding_json c)))) as [->|]; [|done]. done. }
  intros [Hv Hu]%Huri [Hv' Hu']%Huri. split_and!; [done|done|]. rewrite Hu in Hu'. injection Hu' as Hu'. by apply base64_inj in Hu'.
Qed.

(** Two admissions of different identities under one certificate: the hash collides. *)
Lemma presents_collision w cert publicKey now k k' a a' : world_ok w → (len publicKey =? PublicKeySize)%Z = true →
  er_byKey (w_reg w) !! k = Some a → er_byKey (w_reg w) !! k' = Some a' → presents cert publicKey now a → presents cert publicKey now a' →
  ad_Identity a ≠ ad_Identity a' → ∃ x y : string, x ≠ y ∧ Sum256 x = Sum256 y.
Proof.
  intros Hok Hlen Hk Hk' Hp Hp' Hne.
  assert (Hwf : ∀ k a, er_byKey (w_reg w) !! k = Some a → presents cert publicKey now a → wf (er_processEpoch (w_reg w)) a).
  { intros k0 a0 Hk0 Hp0. destruct (wo_seen _ Hok _ (list_elem_of_here _ _) _ _ Hk0) as [->|(_ & ? & _)]; [|done].
    destruct Hp0 as [Hpk _]. change (ad_MachineIdentityPublicKey ghost) with (base64.EncodeToString "") in Hpk. apply base64_inj in Hpk. rewrite <-Hpk in Hlen. vm_compute in Hlen. done. }
  pose proof (Hwf _ _ Hk Hp) as Ha. pose proof (Hwf _ _ Hk' Hp') as Ha'. destruct Hp as (_ & _ & _ & _ & Hm), Hp' as (_ & _ & _ & _ & Hm').
  destruct (MatchCarrierIdentityURN_inj _ _ _ Hm Hm') as (Hv & Hv' & Hsum). do 2 eexists. split; [|exact Hsum]. intros Heq.
  apply binding_json_inj in Heq; [|done|done|apply Ha|apply Ha'|apply Ha|apply Ha'].
  apply Hne. clear -Heq. destruct (ad_Identity a), (ad_Identity a'). unfold binding_of in Heq. simpl in Heq. congruence.
Qed.

(** The certificate of a peer is bound to an identity exactly when the registry is open, the certificate carries one Ed25519 key, some admitted and
    unexpired admission names that key and its thumbprint and the URI of the certificate, and all such admissions have that one identity;
    the order in which the map is visited does not matter.  A certificate is refused as ambiguous only when two different texts have
    the same SHA-256 hash. *)
Theorem peer_binding_exact w now peers (Hreach : admission_reach w) :
  (∀ i, PeerBinding (w_reg w) now peers = inr i ↔ er_closed (w_reg w) = false ∧ ∃ cert publicKey, peer_key peers = Some (cert, publicKey) ∧
    (∃ k a, er_byKey (w_reg w) !! k = Some a ∧ presents cert publicKey now a ∧ ad_Identity a = i) ∧
    ∀ k a, er_byKey (w_reg w) !! k = Some a → presents cert publicKey now a → ad_Identity a = i) ∧
  (PeerBinding (w_reg w) now peers = inl (conflict "certificate matches multiple carrier identities") → ∃ x y, x ≠ y ∧ Sum256 x = Sum256 y).
Proof.
  pose proof (admission_reach_ok w Hreach) as Hok. unfold PeerBinding.
  destruct (peer_key peers) as [[cert publicKey]|] eqn:Hkey; [|split; [split; [done|naive_solver]|done]].
  assert (Hlen : (len publicKey =? PublicKeySize)%Z = true).
  { unfold peer_key in Hkey. by repeat case_match; simplify_eq. }
  destruct (er_closed (w_reg w)); [split; [split; [done|naive_solver]|done]|].
  assert (Hin : ∀ a, a ∈ (range 40 (er_byKey (w_reg w))).*2 ↔ ∃ k, er_byKey (w_reg w) !! k = Some a) by apply elem_of_range_values.
  destruct (peer_scan _ _ _ _ _ _ _ _) as [e|[[f known] live]] eqn:Hscan.
  - apply peer_scan_conflict in Hscan as (i & a & [k Hk]%Hin & Hp & Hne & [?|(b & [k' Hk']%Hin & Hpb & Hi)]); [done|].
    split; [|intros _; eapply (presents_collision w _ _ _ k' k); eauto; congruence].
    intros j. split; [done|]. intros (_ & c & p & [= <- <-] & _ & Hall). destruct Hne. by rewrite <-Hi, (Hall _ _ Hk Hp), (Hall _ _ Hk' Hpb).
  - apply peer_scan_found in Hscan as [Hf Hall]. split; [|destruct f; done]. intros i.
    trans (f = Some i); [destruct f; naive_solver|]. rewrite Hf. split.
    + intros [?|(a & [k Hk]%Hin & Hp & Hi)]; [done|]. split; [done|]. exists cert, publicKey. split_and!; [done|by eauto|].
      intros k' a' Hk' Hp'. assert (H3 : f = Some (ad_Identity a)) by (apply Hall; [apply Hin; by eauto|done]).
      assert (H4 : f = Some (ad_Identity a')) by (apply Hall; [apply Hin; by eauto|done]). congruence.
    + intros (_ & c & p & [= <- <-] & (k & a & Hk & Hp & Hi) & _). right. exists a. split_and!; [apply Hin; by eauto|done|done].
Qed.
End peer.

(** ** A runtime carrier and its successor *)

#[local] Existing Instance eval_runtime.
#[local] Existing Instance eval_sha256.
#[local] Instance ex_fold : GoFold := {| unicode_EqualFold := String.eqb |}.

Definition ex_host : string := "agent.example.test".
#[local] Instance ex_agent_url : NetURL := {|
  url_Parse := λ s, if decide (s = "https://" +:+ ex_host) then Some (mkURL "https" "" false ex_host "" "" "" ex_host "" []) else None;
|}.

Definition ex_zeros : string := "0000000000000000000000000000000000000000000000000000000000000000".
Definition ex_machine_key : string := "0123456789abcdef0123456789abcdef".
Definition ex_epoch : string := "epoch_123".
Definition ex_time : Z := (1700000000 * time.Second)%Z.

Definition ex_identity (session : string) : Identity := mkIdentity "account_1" "host_1" "tunnel_1" "connector_1" session 1 1.

(** The runtime admission of a session, with the generation of its attachment. *)
Definition ex_admission (session route : string) (generation : Z) (admitted : bool) : ExpectedAdmission :=
  mkExpectedAdmission runtime_Schema "" "edge_1" "" "" "" "" (ex_identity session) 1 0 1 ("sha256:" +:+ ex_zeros) route ex_epoch ("sha256:" +:+ ex_zeros)
    "PEM" "" runtime_RouteKind ex_host 1 generation ("https://" +:+ ex_host) (ex_time + time.Hour)
    (base64.EncodeToString ex_machine_key) ("sha256:" +:+ base64.EncodeToString (Sum256 ex_machine_key)) admitted.

Definition ex_new : ExpectedAdmissionRegistry :=
  match NewExpectedAdmissionRegistry "edge_1" ex_epoch 0 with inr r => r | inl _ => mkExpectedAdmissionRegistry "" 0 "" true ∅ ∅ ∅ ∅ ∅ 0 end.

Definition ex_old : list ExpectedAdmission := [ex_admission "session_1" "route_1" 1 true].
Definition ex_next : list ExpectedAdmission := [ex_admission "session_2" "route_1" 2 true].
Definition ex_later : Z := (ex_time + 60 * time.Second)%Z.

(** The carrier of the first session is admitted; the worker is updated, and the second session takes over. *)
Definition ex_map_first := result ∅ (Replace_read ex_new (er_byKey ex_new) ex_old ex_time).
Definition ex_first : ExpectedAdmissionRegistry := (Replace_write (er_byKey ex_new) ex_map_first ex_time ex_new).1.
Definition ex_map_second := result ∅ (Replace_read ex_first (er_byKey ex_first) ex_next ex_later).
Definition ex_second : ExpectedAdmissionRegistry := (Replace_write (er_byKey ex_first) ex_map_second ex_later ex_first).1.
Definition ex_world : World := mkWorld ex_second (ex_next ++ ex_old) [er_byKey ex_first; er_byKey ex_new]
  [mkReplacement ex_later (er_byKey ex_first) ex_map_second; mkReplacement ex_time (er_byKey ex_new) ex_map_first].

Definition ex_open (session : string) : StreamOpen := mkStreamOpen ProtocolName ProtocolVersion "account_1" "tunnel_1" "connector_1" session 1 1 "route_1" "request_1" "http".
Definition ex_access : AccessContext := mkAccessContext (Some None) None.

Lemma ex_typed session route generation admitted : typed (ex_admission session route generation admitted).
Proof. by split. Qed.

Lemma ex_read_first : Replace_read ex_new (er_byKey ex_new) ex_old ex_time = inr ex_map_first.
Proof. apply result_inr. vm_compute. reflexivity. Qed.

Lemma ex_write_first : Replace_write (er_byKey ex_new) ex_map_first ex_time ex_new = (ex_first, None).
Proof. apply returned. vm_compute. reflexivity. Qed.

Lemma ex_read_second : Replace_read ex_first (er_byKey ex_first) ex_next ex_later = inr ex_map_second.
Proof. apply result_inr. vm_compute. reflexivity. Qed.

Lemma ex_write_second : Replace_write (er_byKey ex_first) ex_map_second ex_later ex_first = (ex_second, None).
Proof. apply returned. vm_compute. reflexivity. Qed.

Lemma ex_world_reach : admission_reach ex_world.
Proof.
  exists "edge_1", ex_epoch, 0%Z, ex_new. split; [reflexivity|].
  eapply rtc_l; [eapply (step_Replace (mkWorld ex_new [] [] []) (er_byKey ex_new) ex_old ex_time ex_map_first ex_first None);
    [apply list_elem_of_here|repeat constructor; apply ex_typed|apply ex_read_first|apply ex_write_first]|].
  eapply rtc_l; [eapply (step_Replace _ (er_byKey ex_first) ex_next ex_later ex_map_second ex_second None);
    [apply list_elem_of_here|repeat constructor; apply ex_typed|apply ex_read_second|apply ex_write_second]|].
  apply rtc_refl.
Qed.

(** The old carrier still serves its route, and so does the new one. *)
Lemma ex_authorized session : session ∈ ["session_1"; "session_2"] →
  AuthorizeStream ex_second ex_access ex_later (ex_identity session) (ex_open session) = None.
Proof. rewrite !elem_of_cons, elem_of_nil. intros [->|[->|[]]]; vm_compute; reflexivity. Qed.

Lemma streams_acknowledged_witness : ∃ k a b, b ∈ w_acked ex_world ∧ same_binding a b ∧ ad_Identity a = ex_identity "session_1" ∧
  ad_RouteID a = "route_1" ∧ (er_byKey ex_second !! k = Some a ∨
    er_superseded ex_second !! k = Some a ∧ (ex_later < ad_ExpiresAt a)%Z ∧ ∃ t, replaced_at ex_world a t ∧ (ex_later < t + limit a)%Z) ∧
  (restrictedPreviewAccess (ad_AccessMode a) = true → ∃ d, ac_decision ex_access = Some d ∧ decided d a (ex_identity "session_1") ex_later).
Proof.
  apply (streams_acknowledged ex_world ex_access ex_later (ex_identity "session_1") (ex_open "session_1") ex_world_reach).
  apply ex_authorized. by left.
Defined.

Lemma withdrawal_immediate_witness : ∃ b, b ∈ ex_next ∧ ad_RouteID b = "route_1" ∧ id_AccountID (ad_Identity b) = "account_1" ∧ id_HostID (ad_Identity b) = "host_1" ∧
  (ad_Identity b = ex_identity "session_1" ∨
   ∃ k a, er_superseded ex_second !! k = Some a ∧ ad_Identity a = ex_identity "session_1" ∧ (ad_AttachmentGeneration a < ad_AttachmentGeneration b)%Z).
Proof.
  apply (withdrawal_immediate ex_first ex_first ex_second (er_byKey ex_first) ex_next ex_later ex_map_second ex_access ex_later
    (ex_identity "session_1") (ex_open "session_1") ex_read_second ex_write_second).
  apply ex_authorized. by left.
Defined.

Lemma lookup_agrees_scan_witness : ForIdentity ex_second (ex_identity "session_2") ex_later = [ex_admission "session_2" "route_1" 2 true] ∧
  ∃ held, ForIdentity ex_second (ex_identity "session_1") ex_later = scan ex_second (ex_identity "session_1") ++ held ∧
    (∀ a, a ∈ scan ex_second (ex_identity "session_1") ↔ ad_Admitted a = true ∧ ad_Identity a = ex_identity "session_1" ∧ ∃ k, er_byKey ex_second !! k = Some a) ∧
    (∀ a, a ∈ held ↔ ad_Identity a = ex_identity "session_1" ∧ (ex_later < ad_ExpiresAt a)%Z ∧ ∃ k, er_superseded ex_second !! k = Some a).
Proof. split; [vm_compute; reflexivity|]. apply (lookup_agrees_scan ex_world (ex_identity "session_1") ex_later ex_world_reach). Defined.

(** The certificate of the second session. *)
Definition ex_peer : PeerCertificates :=
  [Some (mkCertificate (Some ex_machine_key) [Some (match CarrierIdentityURN (binding_of (ex_identity "session_2") ex_epoch) with inr u => u | inl _ => "" end)])].

Lemma peer_binding_exact_witness : PeerBinding ex_second ex_later ex_peer = inr (ex_identity "session_2") ∧
  (er_closed ex_second = false ∧ ∃ cert publicKey, peer_key ex_peer = Some (cert, publicKey) ∧
    (∃ k a, er_byKey ex_second !! k = Some a ∧ presents cert publicKey ex_later a ∧ ad_Identity a = ex_identity "session_2") ∧
    ∀ k a, er_byKey ex_second !! k = Some a → presents cert publicKey ex_later a → ad_Identity a = ex_identity "session_2").
Proof.
  assert (Hp : PeerBinding ex_second ex_later ex_peer = inr (ex_identity "session_2")) by (vm_compute; reflexivity).
  split; [exact Hp|]. apply (proj1 (peer_binding_exact ex_world ex_later ex_peer ex_world_reach)). exact Hp.
Defined.

(** ** What goes wrong *)

(** WaitForIdentity looks for admissions and takes the channel to wait on under two read locks: when the admission is published in between, it waits
    on a channel that the publication did not close, while the admission is there. *)
Theorem wait_loses_wakeup :
  Wait_look ex_new (ex_identity "session_1") ex_time = None ∧ Replace ex_old ex_time ex_new = (ex_first, None) ∧
  ∃ channel, Wait_channel ex_first = inr channel ∧ channel_closed ex_first channel = false ∧ Wait_look ex_first (ex_identity "session_1") ex_time ≠ None.
Proof.
  split_and!; [vm_compute; reflexivity|unfold Replace; rewrite ex_read_first; apply ex_write_first|].
  exists 1%nat. split_and!; [vm_compute; reflexivity|vm_compute; reflexivity|]. intros Hw. vm_compute in Hw. discriminate Hw.
Qed.

(** MarkAdmitted checks a list that names an admission twice, and then replaces the admission by an empty one. *)
Theorem mark_twice_forgets :
  let a := ex_admission "session_1" "route_1" 1 false in
  let r := (InstallPending [a] ex_time ex_new).1 in
  (MarkAdmitted [a; a] r).2 = None ∧ ForIdentity (MarkAdmitted [a] r).1 (ex_identity "session_1") ex_time ≠ [] ∧
  ForIdentity (MarkAdmitted [a; a] r).1 (ex_identity "session_1") ex_time = [].
Proof. split_and!; [vm_compute; reflexivity|intros Hw; vm_compute in Hw; discriminate Hw|vm_compute; reflexivity]. Qed.

(** Two pulls of one admission each leave two admissions in a registry whose maximum is one. *)
Theorem pending_over_maximum :
  ∃ r, NewExpectedAdmissionRegistry "edge_1" ex_epoch 1 = inr r ∧
  let r1 := (InstallPending [ex_admission "session_1" "route_1" 1 false] ex_time r).1 in
  let r2 := (InstallPending [ex_admission "session_1" "route_2" 1 false] ex_time r1) in
  r2.2 = None ∧ size (er_byKey r2.1) = 2%nat ∧ er_maximum r2.1 = 1%Z.
Proof. eexists. split; [reflexivity|]. split_and!; vm_compute; reflexivity. Qed.
