(* ===== verification/Durable.v ===== *)
(** * The durable admissions of an edge

    Models src/tunnel/internal/datacarrier/durable_admission.go: the registry of the route assignments of durable tunnels, keyed by the identity of
    the carrier, and the composition of several authorities.

    The conflict over a generation is given without the numbers its text holds. *)
From S2P Require Import Prelude GoStd GoData GoNet GoEnc ConnProto Sessions Carrier Expected.

Definition ErrDurableAdmissionInvalid := Sentinel "invalid durable carrier admission".
Definition ErrDurableAdmissionMissing := Sentinel "durable carrier admission is not expected".
Definition ErrDurableAdmissionConflict := Sentinel "durable carrier admission conflicts with current state".
Definition ErrDurableAdmissionExpired := Sentinel "durable carrier admission is expired".
Definition maxDurableAdmissions : Z := 4096.

Record DurableAdmission := mkDurableAdmission {
  du_Identity : Identity; du_EdgeNodeID : string; du_EdgeProcessEpoch : string; du_AssignmentID : string;
  du_RouteID : string; du_AssignmentGeneration : Z; du_RouteGeneration : Z; du_ConfigContentHash : string;
  du_MachineIdentityPublicKey : string; du_MachineIdentityThumbprint : string; du_State : string; du_ExpiresAt : Z;
}.

#[export] Instance DurableAdmission_eq_dec : EqDecision DurableAdmission.
Proof. solve_decision. Defined.

Definition validDurableContentHash (value : string) : bool :=
  (len value =? 71)%Z && strings.HasPrefix value "sha256:" && all_bytes is_hex (strings.TrimPrefix value "sha256:").

(** The states in which an assignment serves. *)
Definition usable (a : DurableAdmission) : bool := String.eqb (du_State a) "staged" || String.eqb (du_State a) "active".

Definition invalid (text : string) : CarrierError := Detail ErrDurableAdmissionInvalid text.

Definition sep : string := NUL.

Definition durableIdentityKey (i : Identity) : string :=
  id_AccountID i +:+ sep +:+ id_HostID i +:+ sep +:+ id_TunnelID i +:+ sep +:+ id_ConnectorID i +:+ sep +:+ id_SessionID i
  +:+ sep +:+ strconv.Itoa (id_ProcessGeneration i) +:+ sep +:+ strconv.Itoa (id_Generation i).

Definition assignmentFenceKey (a : DurableAdmission) : string :=
  id_AccountID (du_Identity a) +:+ sep +:+ id_HostID (du_Identity a) +:+ sep +:+ du_RouteID a +:+ sep +:+ du_AssignmentID a.

Record durableAdmissionEntry := mkDurableAdmissionEntry {
  de_identity : Identity; de_edgeProcessEpoch : string; de_machineIdentityPublicKey : string; de_machineIdentityThumbprint : string;
  de_byRoute : gmap string DurableAdmission;
}.

(** [dr_changed] is the channel Changed handed out since the last Replace, and [dr_made] the number of channels made. *)
Record DurableAdmissionRegistry := mkDurableAdmissionRegistry {
  dr_nodeID : string; dr_processEpoch : string; dr_maximum : Z; dr_closed : bool; dr_byID : gmap string durableAdmissionEntry;
  dr_changed : option nat; dr_made : nat;
}.

Definition NewDurableAdmissionRegistry (nodeID processEpoch : string) (maximumAdmissions : Z) : CarrierError + DurableAdmissionRegistry :=
  if bad_id nodeID || bad (ValidateOpaqueEpoch processEpoch) then inl ErrDurableAdmissionInvalid
  else let maximum := if (maximumAdmissions =? 0)%Z then maxDurableAdmissions else maximumAdmissions in
       if (maximum <? 1)%Z || (maxDurableAdmissions <? maximum)%Z then inl ErrDurableAdmissionInvalid
       else inr (mkDurableAdmissionRegistry nodeID processEpoch maximum false ∅ None 0).

Definition Changed (r : DurableAdmissionRegistry) : DurableAdmissionRegistry * nat :=
  match dr_changed r with
  | Some channel => (r, channel)
  | None => (mkDurableAdmissionRegistry (dr_nodeID r) (dr_processEpoch r) (dr_maximum r) (dr_closed r) (dr_byID r) (Some (dr_made r)) (S (dr_made r)), dr_made r)
  end.

Section durable.
Context `{GoRuntime} `{SHA256}.

Definition DurableAdmission_Validate (a : DurableAdmission) (nodeID processEpoch : string) (now : Z) : option CarrierError :=
  match Identity_Validate (du_Identity a) with
  | Some e => Some (carrierFailure ErrDurableAdmissionInvalid e)
  | None =>
      match first_failed
        [(negb (String.eqb (du_EdgeNodeID a) nodeID) || bad_id (du_EdgeNodeID a) || negb (String.eqb (du_EdgeProcessEpoch a) processEpoch)
            || bad (ValidateOpaqueEpoch (du_EdgeProcessEpoch a)), invalid "edge binding");
         (bad_id (du_AssignmentID a) || bad_id (du_RouteID a), invalid "route binding");
         ((du_AssignmentGeneration a =? 0)%Z || (du_RouteGeneration a =? 0)%Z || String.eqb (du_ConfigContentHash a) "", invalid "generations or config hash");
         (negb (usable a) && negb (String.eqb (du_State a) "draining") && negb (String.eqb (du_State a) "detached"), invalid "state");
         (negb (time.IsZero (du_ExpiresAt a)) && negb (time.After (du_ExpiresAt a) now), ErrDurableAdmissionExpired)] with
      | Some e => Some e
      | None =>
          match base64.DecodeString (du_MachineIdentityPublicKey a) with
          | None => Some (invalid "machine public key")
          | Some publicKey =>
              if negb (len publicKey =? PublicKeySize)%Z then Some (invalid "machine public key")
              else match IdentityThumbprint publicKey with
                   | inl _ => Some (Detail ErrDurableAdmissionConflict "machine key thumbprint")
                   | inr thumbprint =>
                       if negb (String.eqb thumbprint (du_MachineIdentityThumbprint a)) then Some (Detail ErrDurableAdmissionConflict "machine key thumbprint")
                       else if negb (validDurableContentHash (du_ConfigContentHash a)) then Some (invalid "config hash") else None
                   end
          end
      end
  end.

(** All admissions of the registry. *)
Definition all_admissions (byID : gmap string durableAdmissionEntry) : list DurableAdmission :=
  concat ((λ kv, (range 42 (de_byRoute kv.2)).*2) <$> range 41 byID).

(** currentGenerations[key]: the highest generation of the assignment. *)
Definition held_generation (current : list DurableAdmission) (fence : string) : Z :=
  foldr (λ a g, if String.eqb (assignmentFenceKey a) fence then Z.max (du_AssignmentGeneration a) g else g) 0%Z current.

Definition new_entry (a : DurableAdmission) : durableAdmissionEntry :=
  mkDurableAdmissionEntry (du_Identity a) (du_EdgeProcessEpoch a) (du_MachineIdentityPublicKey a) (du_MachineIdentityThumbprint a) ∅.

Definition other_material (e : durableAdmissionEntry) (a : DurableAdmission) : bool :=
  negb (String.eqb (de_machineIdentityPublicKey e) (du_MachineIdentityPublicKey a))
  || negb (String.eqb (de_machineIdentityThumbprint e) (du_MachineIdentityThumbprint a))
  || negb (String.eqb (de_edgeProcessEpoch e) (du_EdgeProcessEpoch a)).

Definition add_route (e : durableAdmissionEntry) (a : DurableAdmission) : durableAdmissionEntry :=
  mkDurableAdmissionEntry (de_identity e) (de_edgeProcessEpoch e) (de_machineIdentityPublicKey e) (de_machineIdentityThumbprint e)
    (<[du_RouteID a := a]> (de_byRoute e)).

(** The loop of Replace over the pull, with the admissions that are current. *)
Fixpoint durable_pulled (r : DurableAdmissionRegistry) (now : Z) (current : list DurableAdmission) (next : gmap string durableAdmissionEntry)
    (admissions : list DurableAdmission) : CarrierError + gmap string durableAdmissionEntry :=
  match admissions with
  | [] => inr next
  | a :: rest =>
      match DurableAdmission_Validate a (dr_nodeID r) (dr_processEpoch r) now with
      | Some e => inl e
      | None =>
          if (du_AssignmentGeneration a <? held_generation current (assignmentFenceKey a))%Z && negb (bool_decide (a ∈ current))
          then inl (Detail ErrDurableAdmissionConflict "assignment %s of route %s is at generation %d, held %d")
          else
            let k := durableIdentityKey (du_Identity a) in
            let add e := if bool_decide (is_Some (de_byRoute e !! du_RouteID a))
                         then inl (Detail ErrDurableAdmissionConflict "duplicate route assignment")
                         else durable_pulled r now current (<[k := add_route e a]> next) rest in
            match next !! k with
            | None => add (new_entry a)
            | Some e => if other_material e a then inl (Detail ErrDurableAdmissionConflict "identity has conflicting verifier material") else add e
            end
      end
  end.

(** Replace over the admissions it read under the read lock ... *)
Definition Durable_read (r : DurableAdmissionRegistry) (current : list DurableAdmission) (admissions : list DurableAdmission) (now : Z)
    : CarrierError + gmap string durableAdmissionEntry :=
  if (dr_maximum r <? Z.of_nat (length admissions))%Z then inl ErrDurableAdmissionConflict
  else match durable_pulled r now current ∅ admissions with
       | inl e => inl e
       | inr next => if (dr_maximum r <? Z.of_nat (size next))%Z then inl ErrDurableAdmissionConflict else inr next
       end.

(** ... and what it installs under the lock. *)
Definition Durable_write (next : gmap string durableAdmissionEntry) (r : DurableAdmissionRegistry) : DurableAdmissionRegistry * option CarrierError :=
  if dr_closed r then (r, Some ErrCarrierClosed)
  else (mkDurableAdmissionRegistry (dr_nodeID r) (dr_processEpoch r) (dr_maximum r) (dr_closed r) next None (dr_made r), None).

Definition Durable_Replace (admissions : list DurableAdmission) (now : Z) (r : DurableAdmissionRegistry) : DurableAdmissionRegistry * option CarrierError :=
  match Durable_read r (all_admissions (dr_byID r)) admissions now with
  | inl e => (r, Some e)
  | inr next => Durable_write next r
  end.

Definition durable_less (a b : DurableAdmission) : bool :=
  if negb (bool_decide (du_Identity a = du_Identity b)) then str_ltb (durableIdentityKey (du_Identity a)) (durableIdentityKey (du_Identity b))
  else str_ltb (du_RouteID a) (du_RouteID b).

Definition Durable_Snapshot (r : DurableAdmissionRegistry) : list DurableAdmission := sort_by durable_less (all_admissions (dr_byID r)).

(** The entry of an identity, when the registry is open. *)
Definition entry_of (r : DurableAdmissionRegistry) (identity : Identity) : option durableAdmissionEntry :=
  if dr_closed r then None
  else match dr_byID r !! durableIdentityKey identity with
       | Some e => if bool_decide (de_identity e = identity) then Some e else None
       | None => None
       end.

Definition HasIdentity (r : DurableAdmissionRegistry) (identity : Identity) : bool :=
  valid_identity identity && match entry_of r identity with Some e => existsb usable ((range 43 (de_byRoute e)).*2) | None => false end.

Definition Durable_ForIdentity (r : DurableAdmissionRegistry) (identity : Identity) : list DurableAdmission :=
  if negb (valid_identity identity) then []
  else match entry_of r identity with
       | Some e => sort_by (λ a b, str_ltb (du_RouteID a) (du_RouteID b)) (List.filter usable ((range 44 (de_byRoute e)).*2))
       | None => []
       end.

Definition MachineBinding (r : DurableAdmissionRegistry) (identity : Identity) : option (string * string) :=
  if negb (valid_identity identity) then None
  else match entry_of r identity with
       | Some e => if existsb usable ((range 45 (de_byRoute e)).*2) then Some (de_machineIdentityPublicKey e, de_machineIdentityThumbprint e) else None
       | None => None
       end.

(** The inner loop of PeerBinding, over the routes of an entry with the key of the peer. *)
Fixpoint durable_scan_routes (uris : list (option string)) (now : Z) (matched : option Identity) (live : bool) (l : list DurableAdmission)
    : CarrierError + (option Identity * bool) :=
  match l with
  | [] => inr (matched, live)
  | a :: l' =>
      if negb (usable a) || negb (time.IsZero (du_ExpiresAt a)) && negb (time.After (du_ExpiresAt a) now)
      then durable_scan_routes uris now matched live l'
      else if bad (MatchCarrierIdentityURN uris (binding_of (du_Identity a) (du_EdgeProcessEpoch a)))
      then durable_scan_routes uris now matched true l'
      else match matched with
           | Some found =>
               if bool_decide (found = du_Identity a) then durable_scan_routes uris now matched true l' else inl ErrDurableAdmissionConflict
           | None => durable_scan_routes uris now (Some (du_Identity a)) true l'
           end
  end.

Fixpoint durable_scan (encoded thumbprint : string) (uris : list (option string)) (now : Z) (matched : option Identity) (keyKnown live : bool)
    (l : list durableAdmissionEntry) : CarrierError + (option Identity * bool * bool) :=
  match l with
  | [] => inr (matched, keyKnown, live)
  | e :: l' =>
      if negb (String.eqb (de_machineIdentityPublicKey e) encoded) || negb (String.eqb (de_machineIdentityThumbprint e) thumbprint)
      then durable_scan encoded thumbprint uris now matched keyKnown live l'
      else match durable_scan_routes uris now matched live ((range 47 (de_byRoute e)).*2) with
           | inl err => inl err
           | inr (matched, live) => durable_scan encoded thumbprint uris now matched true live l'
           end
  end.

Definition Durable_PeerBinding (r : DurableAdmissionRegistry) (now : Z) (peers : PeerCertificates) : CarrierError + Identity :=
  match peer_key peers with
  | None => inl ErrDurableAdmissionMissing
  | Some (certificate, publicKey) =>
      match IdentityThumbprint publicKey with
      | inl _ => inl ErrDurableAdmissionMissing
      | inr thumbprint =>
          if dr_closed r then inl ErrCarrierClosed
          else match durable_scan (base64.EncodeToString publicKey) thumbprint (URIs certificate) now None false false ((range 46 (dr_byID r)).*2) with
               | inl e => inl e
               | inr (Some found, _, _) => inr found
               | inr (None, keyKnown, live) =>
                   inl (Causes [ErrDurableAdmissionMissing; Refused (refusal (negb (bool_decide (dr_byID r = ∅))) keyKnown live)])
               end
      end
  end.

Definition Durable_AuthorizeStream (r : DurableAdmissionRegistry) (ctx : Context) (identity : Identity) (open : StreamOpen) : option CarrierError :=
  match ctx with
  | None => Some ErrDurableAdmissionInvalid
  | Some (Some e) => Some (Protocol e)
  | Some None =>
      if negb (valid_identity identity) || negb (Identity_matches identity open) then Some ErrStreamIdentityMismatch
      else if dr_closed r then Some ErrCarrierClosed
      else match dr_byID r !! durableIdentityKey identity with
           | None => Some ErrDurableAdmissionMissing
           | Some e =>
               match de_byRoute e !! so_RouteID open with
               | None => Some ErrDurableAdmissionMissing
               | Some a => if usable a then None else Some ErrDurableAdmissionMissing
               end
           end
  end.

Definition Durable_Close (r : DurableAdmissionRegistry) : DurableAdmissionRegistry :=
  mkDurableAdmissionRegistry (dr_nodeID r) (dr_processEpoch r) (dr_maximum r) true ∅ (dr_changed r) (dr_made r).
End durable.

(** ** Several authorities *)

(** The results of the bindings, in order, until one succeeds; a nil binding is left out. *)
Fixpoint try_all {A} (failures : list CarrierError) (l : list (CarrierError + A)) : list CarrierError + A :=
  match l with [] => inl failures | inr a :: _ => inr a | inl e :: l' => try_all (failures ++ [e]) l' end.

(** The most specific refusal among the failures. *)
Definition best_refusal (failures : list CarrierError) : option CarrierRefusal :=
  foldl (λ best e,
    match as_refusal e with
    | Some r => match best with Some b => if (refusal_rank b <? refusal_rank r)%Z then Some r else best | None => Some r end
    | None => best
    end) None failures.

Definition AnyPeerBinding (results : list (CarrierError + Identity)) : CarrierError + Identity :=
  match try_all [] results with
  | inr identity' => inr identity'
  | inl [] => inl ErrDurableAdmissionMissing
  | inl failures =>
      inl (carrierFailure ErrDurableAdmissionMissing (Causes (match best_refusal failures with Some best => Refused best :: failures | None => failures end)))
  end.

Definition AnyAuthorizer (results : list (option CarrierError)) : option CarrierError :=
  match try_all [] ((λ o, match o with None => inr () | Some e => inl e end) <$> results) with
  | inr _ => None
  | inl [] => Some ErrDurableAdmissionMissing
  | inl failures => Some (carrierFailure ErrDurableAdmissionMissing (Causes failures))
  end.

Arguments DurableAdmission_Validate : simpl never.
