(* ===== verification/DurableSpec.v ===== *)
(** * What the durable admissions authorize

    The registry of Durable.v after any sequence of calls holds exactly the admissions of the last pull it accepted, an assignment never goes
    back to an older generation, and the refusal a composition reports is the most specific one. *)
From stdpp Require Import pretty.
From S2P Require Import Prelude GoStd GoData GoNet GoEnc ConnProto Sessions StateErr Carrier Expected AdmissionSpec Durable.

(** ** Keys *)

(** An identity as a Go value: its generations are uint64. *)
Definition typed_identity (i : Identity) : Prop := UInt64.in_range (id_ProcessGeneration i) ∧ UInt64.in_range (id_Generation i).

Lemma Itoa_NUL n : UInt64.in_range n → strings.free_of NULc (strconv.Itoa n) = true.
Proof. unfold UInt64.in_range. intros. apply strconv.Itoa_free; [lia|done]. Qed.

(** The key determines the identity. *)
Lemma durableIdentityKey_inj i j : valid_identity i = true → valid_identity j = true → typed_identity i → typed_identity j →
  durableIdentityKey i = durableIdentityKey j → i = j.
Proof.
  intros (Ha & Hh & Ht & Hc & Hs & _)%valid_identity_ids (Ha' & Hh' & Ht' & Hc' & Hs' & _)%valid_identity_ids [Hp Hg] [Hp' Hg'].
  unfold durableIdentityKey, sep, NUL, str.of_bytes. cbn [foldr String.append]. intros Heq.
  same_field Heq H1; [|by apply identifier_NUL..]. same_field Heq H2; [|by apply identifier_NUL..]. same_field Heq H3; [|by apply identifier_NUL..].
  same_field Heq H4; [|by apply identifier_NUL..]. same_field Heq H5; [|by apply identifier_NUL..]. same_field Heq H6; [|by apply Itoa_NUL..].
  apply Itoa_inj in H6, Heq. destruct i, j. simpl in *. by subst.
Qed.

(** The fence names the account, the host, the route and the assignment. *)
Lemma assignmentFenceKey_inj a b : valid_identity (du_Identity a) = true → valid_identity (du_Identity b) = true → bad_id (du_RouteID a) = false →
  bad_id (du_RouteID b) = false → assignmentFenceKey a = assignmentFenceKey b →
  id_AccountID (du_Identity a) = id_AccountID (du_Identity b) ∧ id_HostID (du_Identity a) = id_HostID (du_Identity b) ∧
  du_RouteID a = du_RouteID b ∧ du_AssignmentID a = du_AssignmentID b.
Proof.
  intros (Ha & Hh & _)%valid_identity_ids (Ha' & Hh' & _)%valid_identity_ids Hr Hr'.
  unfold assignmentFenceKey, sep, NUL, str.of_bytes. cbn [foldr String.append]. intros Heq.
  same_field Heq H1; [|by apply identifier_NUL..]. same_field Heq H2; [|by apply identifier_NUL..]. same_field Heq H3; [|by apply identifier_NUL..]. done.
Qed.

(** ** The map of a pull *)

Definition holds (m : gmap string durableAdmissionEntry) (a : DurableAdmission) : Prop :=
  ∃ e, m !! durableIdentityKey (du_Identity a) = Some e ∧ de_byRoute e !! du_RouteID a = Some a.

Record durable_entry_ok (k : string) (e : durableAdmissionEntry) : Prop := {
  deo_key : k = durableIdentityKey (de_identity e);
  deo_valid : valid_identity (de_identity e) = true ∧ typed_identity (de_identity e);
  deo_routes : ∀ rt a, de_byRoute e !! rt = Some a → du_RouteID a = rt ∧ du_Identity a = de_identity e ∧ bad_id rt = false;
}.

Definition map_ok (m : gmap string durableAdmissionEntry) : Prop := ∀ k e, m !! k = Some e → durable_entry_ok k e.

Section spec.
Context `{GoRuntime} `{SHA256}.

Lemma DurableAdmission_Validate_None a node epoch now : DurableAdmission_Validate a node epoch now = None →
  valid_identity (du_Identity a) = true ∧ bad_id (du_RouteID a) = false.
Proof.
  unfold DurableAdmission_Validate, valid_identity. destruct (Identity_Validate _); [done|]. intros Hv. split; [done|].
  destruct (first_failed _) eqn:Hf in Hv; [done|]. apply first_failed_None in Hf.
  apply Forall_cons in Hf as [_ Hf]. apply Forall_cons in Hf as [Hr _]. simpl in Hr. by apply orb_false_iff in Hr as [_ ?].
Qed.

Lemma add_route_ok m e a : map_ok m → valid_identity (du_Identity a) = true → bad_id (du_RouteID a) = false → typed_identity (du_Identity a) →
  (m !! durableIdentityKey (du_Identity a) = Some e ∨ m !! durableIdentityKey (du_Identity a) = None ∧ e = new_entry a) → de_byRoute e !! du_RouteID a = None →
  let m' := <[durableIdentityKey (du_Identity a) := add_route e a]> m in map_ok m' ∧ ∀ b, holds m' b ↔ holds m b ∨ b = a.
Proof.
  intros Hm Hv Hr Ht He Hnew m'.
  assert (Hid : de_identity e = du_Identity a ∧ ∀ rt b, de_byRoute e !! rt = Some b → du_RouteID b = rt ∧ du_Identity b = de_identity e ∧ bad_id rt = false).
  { destruct He as [He|[_ ->]]; [|split; [done|]; intros rt b; simpl; by rewrite lookup_empty].
    destruct (Hm _ _ He) as [Hk [Hv' Ht'] Hrt]. split; [|done]. symmetry. by apply durableIdentityKey_inj. }
  destruct Hid as [Hid Hrt].
  assert (Hadd : ∀ rt b, de_byRoute (add_route e a) !! rt = Some b ↔ (rt = du_RouteID a ∧ b = a) ∨ (rt ≠ du_RouteID a ∧ de_byRoute e !! rt = Some b)).
  { intros rt b. simpl. rewrite lookup_insert_Some. naive_solver. }
  split.
  - intros k e0. unfold m'. destruct (decide (k = durableIdentityKey (du_Identity a))) as [->|]; [|rewrite lookup_insert_ne by done; apply Hm].
    rewrite lookup_insert_eq. intros [= <-]. split; [by rewrite <-Hid|simpl; by rewrite Hid|]. intros rt b [[-> ->]|[_ Hb]]%Hadd; [done|by apply Hrt].
  - intros b. unfold holds, m'. destruct (decide (durableIdentityKey (du_Identity b) = durableIdentityKey (du_Identity a))) as [Hk|Hk].
    + rewrite Hk, lookup_insert_eq. split.
      * intros (e0 & [= <-] & Hb). apply Hadd in Hb as [[_ ->]|[_ Hb]]; [by right|]. left. exists e. split; [|done].
        destruct He as [He|[_ ->]]; [done|]. simpl in Hb. by rewrite lookup_empty in Hb.
      * intros [(e0 & He0 & Hb)| ->]; eexists; (split; [done|]); apply Hadd; [|by left].
        right. destruct He as [He|[He _]]; [|congruence]. rewrite He in He0. injection He0 as <-. split; [|done]. intros Hrt'. congruence.
    + rewrite lookup_insert_ne by congruence. split; [by left|intros [?| ->]; done].
Qed.

Lemma durable_pulled_ok r now current next l next' : map_ok next → Forall (λ a, typed_identity (du_Identity a)) l →
  durable_pulled r now current next l = inr next' → map_ok next' ∧ (∀ a, holds next' a ↔ holds next a ∨ a ∈ l) ∧
  ∀ a, a ∈ l → a ∈ current ∨ (held_generation current (assignmentFenceKey a) ≤ du_AssignmentGeneration a)%Z.
Proof.
  revert next. induction l as [|a l IH]; intros next Hm Hl; cbn [durable_pulled].
  - intros [= <-]. split_and!; [done|intros a; rewrite elem_of_nil; tauto|]. intros a Ha. by apply elem_of_nil in Ha.
  - destruct (DurableAdmission_Validate _ _ _ _) eqn:Hv; [done|]. apply DurableAdmission_Validate_None in Hv as [Hv Hr].
    apply Forall_cons in Hl as [Ht Hl].
    destruct (_ && _) eqn:Hfence; [done|].
    assert (Hgen : a ∈ current ∨ (held_generation current (assignmentFenceKey a) ≤ du_AssignmentGeneration a)%Z).
    { apply andb_false_iff in Hfence as [Hfence|Hfence]; [right; by apply Z.ltb_ge in Hfence|left]. by apply negb_false_iff, bool_decide_eq_true in Hfence. }
    assert (Hgo : ∀ e, (next !! durableIdentityKey (du_Identity a) = Some e ∨ next !! durableIdentityKey (du_Identity a) = None ∧ e = new_entry a) →
      (if bool_decide (is_Some (de_byRoute e !! du_RouteID a)) then inl (Detail ErrDurableAdmissionConflict "duplicate route assignment")
       else durable_pulled r now current (<[durableIdentityKey (du_Identity a) := add_route e a]> next) l) = inr next' →
      map_ok next' ∧ (∀ b, holds next' b ↔ holds next b ∨ b ∈ a :: l) ∧ ∀ b, b ∈ a :: l → b ∈ current ∨ (held_generation current (assignmentFenceKey b) ≤ du_AssignmentGeneration b)%Z).
    { intros e He. destruct (bool_decide (is_Some _)) eqn:Hdup; [done|]. apply bool_decide_eq_false in Hdup. rewrite <-eq_None_not_Some in Hdup.
      destruct (add_route_ok next e a Hm Hv Hr Ht He Hdup) as [Hm' Hh]. intros Hres. destruct (IH _ Hm' Hl Hres) as (H2 & H3 & H4).
      split_and!; [done|intros b; rewrite H3, Hh, elem_of_cons; tauto|]. intros b [->|Hb]%elem_of_cons; auto. }
    destruct (next !! durableIdentityKey (du_Identity a)) as [e|] eqn:Hnext; [destruct (other_material e a); [done|]|]; apply Hgo; auto.
Qed.

Lemma elem_of_all_admissions m a : map_ok m → a ∈ all_admissions m ↔ holds m a.
Proof.
  intros Hm. unfold all_admissions. rewrite list_elem_of_In, in_concat. setoid_rewrite <-list_elem_of_In. split.
  - intros (l & ([k e] & -> & Hk%elem_of_range)%list_elem_of_fmap & [rt Ha]%elem_of_range_values).
    destruct (Hm _ _ Hk) as [Hkey _ Hrt]. destruct (Hrt _ _ Ha) as (Hr & Hi & _). simpl in *. exists e. by rewrite Hi, <-Hkey, Hr.
  - intros (e & He & Ha). eexists. split; [apply list_elem_of_fmap; eexists (_, e); split; [done|by apply elem_of_range]|]. apply elem_of_range_values. by eauto.
Qed.

Lemma held_generation_le current fence a : a ∈ current → assignmentFenceKey a = fence → (du_AssignmentGeneration a ≤ held_generation current fence)%Z.
Proof.
  intros Ha <-. induction current as [|b l IH]; [by apply elem_of_nil in Ha|]. simpl. apply elem_of_cons in Ha as [<-|Ha].
  - rewrite String.eqb_refl. lia.
  - specialize (IH Ha). destruct (String.eqb _ _); lia.
Qed.

(** ** Runs *)

(** The registry with the admissions of the last pull it accepted. *)
Record DurableWorld := mkDurableWorld { dw_reg : DurableAdmissionRegistry; dw_last : list DurableAdmission }.

(** The calls that change the registry; [current] is what Replace read, possibly earlier. *)
Inductive durable_step : DurableWorld → DurableWorld → Prop :=
  | durable_Replaced w current l now next r' : Forall (λ a, typed_identity (du_Identity a)) l →
      Durable_read (dw_reg w) current l now = inr next → Durable_write next (dw_reg w) = (r', None) → durable_step w (mkDurableWorld r' l)
  | durable_Refused w l now r' e : Durable_Replace l now (dw_reg w) = (r', Some e) → durable_step w (mkDurableWorld r' (dw_last w))
  | durable_Closed w : durable_step w (mkDurableWorld (Durable_Close (dw_reg w)) [])
  | durable_Changed w : durable_step w (mkDurableWorld (Changed (dw_reg w)).1 (dw_last w)).

Definition durable_reach (w : DurableWorld) : Prop :=
  ∃ node epoch maximum r, NewDurableAdmissionRegistry node epoch maximum = inr r ∧ rtc durable_step (mkDurableWorld r []) w.

Definition durable_ok (w : DurableWorld) : Prop := map_ok (dr_byID (dw_reg w)) ∧ ∀ a, holds (dr_byID (dw_reg w)) a ↔ a ∈ dw_last w.

Lemma empty_ok : map_ok ∅ ∧ ∀ a, holds ∅ a ↔ a ∈ [].
Proof.
  split; [intros k e; by rewrite lookup_empty|]. intros a. unfold holds. rewrite elem_of_nil. setoid_rewrite lookup_empty. naive_solver.
Qed.

Lemma Durable_read_inr r current l now next : Durable_read r current l now = inr next → durable_pulled r now current ∅ l = inr next.
Proof. unfold Durable_read. destruct (_ <? _)%Z; [done|]. destruct (durable_pulled _ _ _ _ _) as [|m]; [done|]. by destruct (_ <? _)%Z. Qed.

Lemma Durable_write_inr next r r' : Durable_write next r = (r', None) → dr_byID r' = next ∧ dr_closed r = false ∧ dr_closed r' = false.
Proof. unfold Durable_write. destruct (dr_closed r); intros [= <-]. done. Qed.

Lemma Durable_Replace_refused l now r r' e : Durable_Replace l now r = (r', Some e) → r' = r.
Proof. unfold Durable_Replace, Durable_write. repeat case_match; naive_solver. Qed.

Lemma durable_reach_ok w : durable_reach w → durable_ok w.
Proof.
  intros (node & epoch & maximum & r & Hnew & Hr).
  assert (Hok : durable_ok (mkDurableWorld r [])).
  { unfold NewDurableAdmissionRegistry in Hnew. repeat case_match; try done; injection Hnew as <-; apply empty_ok. }
  clear Hnew. induction Hr as [|w w1 w2 Hstep _ IH]; [done|]. apply IH. clear IH.
  destruct Hstep as [w current l now next r' Hl Hread%Durable_read_inr (Hby & _)%Durable_write_inr|w l now r' e ->%Durable_Replace_refused|w|w].
  - destruct empty_ok as [He Hempty]. destruct (durable_pulled_ok _ _ _ _ _ _ He Hl Hread) as (Hm & Hh & _).
    unfold durable_ok. simpl. rewrite Hby. split; [done|]. intros a. rewrite Hh, Hempty, elem_of_nil. tauto.
  - done.
  - apply empty_ok.
  - unfold durable_ok, Changed. simpl. by destruct (dr_changed (dw_reg w)).
Qed.

Lemma entry_of_identity w i e : durable_ok w → valid_identity i = true → typed_identity i → dr_byID (dw_reg w) !! durableIdentityKey i = Some e → de_identity e = i.
Proof. intros [Hm _] Hv Ht He. destruct (Hm _ _ He) as [Hk [Hv' Ht'] _]. symmetry. by apply durableIdentityKey_inj. Qed.

(** The admissions of an identity and route. *)
Lemma durable_lookup w i rt a : durable_ok w → valid_identity i = true → typed_identity i →
  (∃ e, dr_byID (dw_reg w) !! durableIdentityKey i = Some e ∧ de_byRoute e !! rt = Some a) ↔ a ∈ dw_last w ∧ du_Identity a = i ∧ du_RouteID a = rt.
Proof.
  intros Hok Hv Ht. destruct Hok as [Hm Hl] eqn:E; clear E. rewrite <-Hl. unfold holds. split.
  - intros (e & He & Ha). pose proof (entry_of_identity w i e Hok Hv Ht He) as Hi. destruct (Hm _ _ He) as [_ _ Hrt].
    destruct (Hrt _ _ Ha) as (Hr & Hid & _). split_and!; [|congruence|done]. exists e. by rewrite Hid, Hi, Hr.
  - intros ((e & He & Ha) & <- & <-). by exists e.
Qed.

(** A durable registry authorizes a stream exactly when the last pull it accepted has a staged or active assignment of the stream's route to the exact
    identity of the carrier, the preface repeats that identity, and the registry is open; ForIdentity lists exactly the routes that can be
    authorized.  Pulls that were refused, and the order of maps, do not matter. *)
Theorem durable_authorize_exact w i (Hreach : durable_reach w) (Hi : typed_identity i) :
  (∀ ctx open, Durable_AuthorizeStream (dw_reg w) ctx i open = None ↔
    ctx = Some None ∧ valid_identity i = true ∧ Identity_matches i open = true ∧ dr_closed (dw_reg w) = false ∧
    ∃ a, a ∈ dw_last w ∧ du_Identity a = i ∧ du_RouteID a = so_RouteID open ∧ usable a = true) ∧
  (∀ a, a ∈ Durable_ForIdentity (dw_reg w) i ↔
    valid_identity i = true ∧ dr_closed (dw_reg w) = false ∧ a ∈ dw_last w ∧ du_Identity a = i ∧ usable a = true).
Proof.
  pose proof (durable_reach_ok w Hreach) as Hok. split.
  - intros ctx open. unfold Durable_AuthorizeStream. destruct ctx as [[e|]|]; [naive_solver| |naive_solver].
    destruct (valid_identity i) eqn:Hv; [|naive_solver]. destruct (Identity_matches i open); [|naive_solver]. cbn [negb orb].
    destruct (dr_closed (dw_reg w)); [naive_solver|]. pose proof (λ a, durable_lookup w i (so_RouteID open) a Hok Hv Hi) as Hl.
    destruct (dr_byID (dw_reg w) !! durableIdentityKey i) as [e|] eqn:He.
    + destruct (de_byRoute e !! so_RouteID open) as [a|] eqn:Ha.
      * pose proof (proj1 (Hl a) (ex_intro _ e (conj eq_refl Ha))) as (Hin & Hid & Hr).
        assert (Huniq : ∀ b, b ∈ dw_last w ∧ du_Identity b = i ∧ du_RouteID b = so_RouteID open → b = a) by (intros b (e' & [= <-] & Hb)%Hl; congruence).
        destruct (usable a) eqn:Hu; [naive_solver|]. split; [done|]. intros (_ & _ & _ & _ & b & Hb & Hbi & Hbr & Hbu). rewrite (Huniq b) in Hbu by done. congruence.
      * split; [done|]. intros (_ & _ & _ & _ & b & Hb & Hbi & Hbr & _). destruct (proj2 (Hl b)) as (e' & [= <-] & Hb'); [done|congruence].
    + split; [done|]. intros (_ & _ & _ & _ & b & Hb & Hbi & Hbr & _). by destruct (proj2 (Hl b)) as (e' & ? & _).
  - intros a. unfold Durable_ForIdentity, entry_of. destruct (valid_identity i) eqn:Hv; cbn [negb]; [|rewrite elem_of_nil; naive_solver].
    destruct (dr_closed (dw_reg w)); [rewrite elem_of_nil; naive_solver|]. pose proof (durable_lookup w i (du_RouteID a) a Hok Hv Hi) as Hl.
    destruct (dr_byID (dw_reg w) !! durableIdentityKey i) as [e|] eqn:He; [|rewrite elem_of_nil; naive_solver].
    rewrite bool_decide_true by by eapply entry_of_identity. rewrite elem_of_sort_by, elem_of_filter_bool, elem_of_range_values.
    destruct Hok as [Hm _]. destruct (Hm _ _ He) as [_ _ Hrt].
    split; [intros [[rt Ha] Hu]; destruct (Hrt _ _ Ha) as (<- & _); naive_solver|intros (_ & _ & Ha & Hai & Hu); naive_solver].
Qed.

(** Assignments are fenced: when a pull is accepted, each of its admissions either is one the registry holds, unchanged, or is at least at the
    generation of every admission it holds for the same assignment of the same route, account and host; a replay of an older generation
    is refused, and a refused pull leaves the registry as it was. *)
Theorem durable_fence w l now (Hreach : durable_reach w) (Hl : Forall (λ a, typed_identity (du_Identity a)) l) :
  match Durable_Replace l now (dw_reg w) with
  | (r', Some _) => r' = dw_reg w
  | (r', None) => ∀ a, a ∈ l → a ∈ dw_last w ∨ ∀ b, b ∈ dw_last w → du_RouteID b = du_RouteID a → du_AssignmentID b = du_AssignmentID a →
      id_AccountID (du_Identity b) = id_AccountID (du_Identity a) → id_HostID (du_Identity b) = id_HostID (du_Identity a) →
      (du_AssignmentGeneration b ≤ du_AssignmentGeneration a)%Z
  end.
Proof.
  destruct (durable_reach_ok w Hreach) as [Hm Hlast]. destruct (Durable_Replace l now (dw_reg w)) as [r' [e|]] eqn:Hcall; [by eapply Durable_Replace_refused|].
  unfold Durable_Replace in Hcall. destruct (Durable_read _ _ _ _) as [|next] eqn:Hread; [done|]. apply Durable_read_inr in Hread.
  destruct (durable_pulled_ok _ _ _ _ _ _ (proj1 empty_ok) Hl Hread) as (_ & _ & Hgen). intros a Ha.
  destruct (Hgen a Ha) as [Hcur|Hle]; [left; by apply Hlast, elem_of_all_admissions|]. right. intros b Hb Hr Has Hacc Hh.
  etrans; [|exact Hle]. apply held_generation_le; [by apply elem_of_all_admissions, Hlast|]. unfold assignmentFenceKey. congruence.
Qed.
End spec.

(** ** Several authorities *)

Lemma try_all_spec {A} (l : list (CarrierError + A)) fs :
  match try_all fs l with
  | inr a => ∃ l1 l2, l = l1 ++ inr a :: l2 ∧ ∀ x, x ∈ l1 → ∃ e, x = inl e
  | inl fs' => fs' = fs ++ omap (λ x, match x with inl e => Some e | inr _ => None end) l ∧ ∀ x, x ∈ l → ∃ e, x = inl e
  end.
Proof.
  revert fs. induction l as [|[e|a] l IH]; intros fs; simpl.
  - split; [by rewrite app_nil_r|]. intros x Hx. by apply elem_of_nil in Hx.
  - specialize (IH (fs ++ [e])). destruct (try_all _ l) as [fs'|a].
    + destruct IH as [-> Hall]. split; [by rewrite <-app_assoc|]. intros x [->|Hx]%elem_of_cons; eauto.
    + destruct IH as (l1 & l2 & -> & Hall). exists (inl e :: l1), l2. split; [done|]. intros x [->|Hx]%elem_of_cons; eauto.
  - exists [], l. split; [done|]. intros x Hx. by apply elem_of_nil in Hx.
Qed.

Definition rank (o : option CarrierRefusal) : Z := match o with Some r => refusal_rank r | None => 0 end.

Lemma rank_inj o o' : rank o = rank o' → o = o'.
Proof. destruct o as [[]|], o' as [[]|]; simpl; congruence. Qed.

(** The refusals are folded into the one of the highest rank. *)
Lemma best_refusal_rank failures : rank (best_refusal failures) = foldl Z.max 0%Z (rank ∘ as_refusal <$> failures).
Proof.
  unfold best_refusal. change 0%Z with (rank None). generalize (@None CarrierRefusal). induction failures as [|e l IH]; intros best; simpl; [done|].
  rewrite IH. f_equal. destruct (as_refusal e) as [r|]; simpl; [|destruct best as [[]|]; simpl; lia].
  destruct best as [b|]; simpl; [destruct (Z.ltb_spec (refusal_rank b) (refusal_rank r)); simpl; lia|destruct r; simpl; lia].
Qed.

Lemma foldl_max_spec l z : let m := foldl Z.max z l in (z ≤ m)%Z ∧ (∀ x, x ∈ l → (x ≤ m)%Z) ∧ (m = z ∨ m ∈ l).
Proof.
  revert z. induction l as [|x l IH]; intros z; simpl; [split_and!; [lia|intros x Hx; by apply elem_of_nil in Hx|by left]|].
  destruct (IH (Z.max z x)) as (H1 & H2 & H3). split_and!; [lia|intros y [->|Hy]%elem_of_cons; [lia|auto]|]. rewrite elem_of_cons.
  destruct H3 as [->|?]; [|by auto]. destruct (Z.max_spec z x) as [[_ ->]|[_ ->]]; auto.
Qed.

Lemma best_refusal_spec failures :
  (∀ e, e ∈ failures → (rank (as_refusal e) ≤ rank (best_refusal failures))%Z) ∧
  (best_refusal failures = None ∨ ∃ e, e ∈ failures ∧ as_refusal e = best_refusal failures).
Proof.
  pose proof (best_refusal_rank failures) as Hr. destruct (foldl_max_spec (rank ∘ as_refusal <$> failures) 0%Z) as (_ & Hle & Hin). simpl in *. rewrite <-Hr in Hle, Hin.
  split; [intros e He; apply Hle, list_elem_of_fmap; by eauto|]. destruct Hin as [Hz|(e & He & Hin)%list_elem_of_fmap]; [left; by apply (rank_inj _ None)|].
  right. exists e. split; [done|]. symmetry. by apply rank_inj.
Qed.

(** C17: a composition of authorities binds a peer to the first identity that one of them finds; when all refuse, the failure that is
    logged is the most specific of their refusals (stale identity before no live admission before unknown machine before no admissions),
    and it names a refusal whenever one of them does. *)
Theorem any_binding_reason results :
  match AnyPeerBinding results with
  | inr i => ∃ l1 l2, results = l1 ++ inr i :: l2 ∧ ∀ x, x ∈ l1 → ∃ e, x = inl e
  | inl err => (∀ x, x ∈ results → ∃ e, x = inl e) ∧ (results ≠ [] →
      (∃ e r, inl e ∈ results ∧ as_refusal e = Some r ∧ FailureReason err = RefusalCode r ∧
        ∀ e' r', inl e' ∈ results → as_refusal e' = Some r' → (refusal_rank r' ≤ refusal_rank r)%Z) ∨
      (∀ e, inl e ∈ results → as_refusal e = None) ∧ as_refusal err = None)
  end.
Proof.
  unfold AnyPeerBinding. pose proof (try_all_spec results []) as Hall. destruct (try_all [] results) as [fs|i]; [|done].
  destruct Hall as [Hfs Hall]. simpl in Hfs.
  assert (Hin : ∀ e, e ∈ fs ↔ inl e ∈ results).
  { intros e. rewrite Hfs, list_elem_of_omap. split; [intros ([e'|] & Hx & [= <-]); done|]. intros Hx. by exists (inl e). }
  destruct fs as [|e0 fs'] eqn:Hfs0.
  { split; [done|]. intros Hne. destruct results as [|x results]; [done|]. destruct (Hall x (list_elem_of_here _ _)) as [e ->].
    pose proof (proj2 (Hin e) (list_elem_of_here _ _)) as Hx. by apply elem_of_nil in Hx. }
  rewrite <-Hfs0 in *. clear Hfs0 e0 fs'. destruct (best_refusal_spec fs) as [Hmax Hbest]. split; [done|]. intros _.
  destruct (best_refusal fs) as [best|] eqn:Hb.
  - left. destruct Hbest as [?|(e & He & Hr)]; [done|]. exists e, best. split_and!; [by apply Hin|done|done|].
    intros e' r' He'%Hin Hr'. specialize (Hmax e' He'). by rewrite Hr' in Hmax.
  - assert (Hnone : ∀ e, e ∈ fs → as_refusal e = None).
    { intros e He. specialize (Hmax e He). simpl in Hmax. destruct (as_refusal e) as [[]|]; simpl in Hmax; [lia..|done]. }
    right. split; [intros e He; by apply Hnone, Hin|]. simpl. clear -Hnone. induction fs as [|e l IH]; [done|].
    rewrite (Hnone e) by by left. apply IH. intros e' He'. apply Hnone. by right.
Qed.

(** ** A tunnel with one route *)

#[local] Existing Instance eval_runtime.
#[local] Existing Instance eval_sha256.

Definition ex_durable_key : string := "0123456789abcdef0123456789abcdef".
Definition ex_carrier : Identity := mkIdentity "account_1" "host_1" "tunnel_1" "connector_1" "session_1" 1 1.

Definition ex_assignment (generation : Z) (state : string) : DurableAdmission :=
  mkDurableAdmission ex_carrier "edge_1" "epoch_123" "assignment_1" "route_1" generation 1
    "sha256:0000000000000000000000000000000000000000000000000000000000000000" (base64.EncodeToString ex_durable_key)
    (match IdentityThumbprint ex_durable_key with inr t => t | inl _ => "" end) state time.zero.

Definition ex_durable_new : DurableAdmissionRegistry := mkDurableAdmissionRegistry "edge_1" "epoch_123" maxDurableAdmissions false ∅ None 0.
Definition ex_pull : list DurableAdmission := [ex_assignment 2 "active"].
Definition ex_durable_map := result ∅ (Durable_read ex_durable_new [] ex_pull 0).
Definition ex_durable : DurableAdmissionRegistry := (Durable_write ex_durable_map ex_durable_new).1.
Definition ex_durable_world : DurableWorld := mkDurableWorld ex_durable ex_pull.

Lemma ex_carrier_typed : typed_identity ex_carrier.
Proof. by split. Qed.

Lemma ex_durable_typed generation state : Forall (λ a, typed_identity (du_Identity a)) [ex_assignment generation state].
Proof. constructor; [apply ex_carrier_typed|constructor]. Qed.

Lemma ex_durable_reach : durable_reach ex_durable_world.
Proof.
  exists "edge_1", "epoch_123", 0%Z, ex_durable_new. split; [reflexivity|]. eapply rtc_l; [|apply rtc_refl].
  eapply (durable_Replaced _ [] ex_pull 0 ex_durable_map ex_durable); [apply ex_durable_typed| |reflexivity].
  apply result_inr. vm_compute. reflexivity.
Qed.

Definition ex_durable_open : StreamOpen := mkStreamOpen ProtocolName ProtocolVersion "account_1" "tunnel_1" "connector_1" "session_1" 1 1 "route_1" "request_1" "http".

Lemma durable_authorize_exact_witness : Durable_AuthorizeStream ex_durable (Some None) ex_carrier ex_durable_open = None ∧
  (∀ a, a ∈ Durable_ForIdentity ex_durable ex_carrier ↔
    valid_identity ex_carrier = true ∧ dr_closed ex_durable = false ∧ a ∈ ex_pull ∧ du_Identity a = ex_carrier ∧ usable a = true).
Proof.
  destruct (durable_authorize_exact ex_durable_world ex_carrier ex_durable_reach ex_carrier_typed) as [Hauth Hfor]. split; [|exact Hfor].
  apply Hauth. split_and!; [reflexivity|vm_compute; reflexivity|vm_compute; reflexivity|vm_compute; reflexivity|].
  exists (ex_assignment 2 "active"). split_and!; [apply list_elem_of_here|reflexivity|reflexivity|reflexivity].
Defined.

(** A pull with the next generation is accepted, one with the generation before is refused. *)
Lemma durable_fence_witness :
  (Durable_Replace [ex_assignment 1 "active"] 0 ex_durable).2 ≠ None ∧
  match Durable_Replace [ex_assignment 3 "active"] 0 ex_durable with
  | (r', Some _) => r' = ex_durable
  | (r', None) => ∀ a, a ∈ [ex_assignment 3 "active"] → a ∈ ex_pull ∨ ∀ b, b ∈ ex_pull → du_RouteID b = du_RouteID a → du_AssignmentID b = du_AssignmentID a →
      id_AccountID (du_Identity b) = id_AccountID (du_Identity a) → id_HostID (du_Identity b) = id_HostID (du_Identity a) →
      (du_AssignmentGeneration b ≤ du_AssignmentGeneration a)%Z
  end.
Proof.
  split; [intros Hx; vm_compute in Hx; discriminate Hx|].
  apply (durable_fence ex_durable_world [ex_assignment 3 "active"] 0 ex_durable_reach). apply ex_durable_typed.
Defined.
