(* ===== verification/EdgeErr.v ===== *)
(** * The errors of the edge: src/tunnel/internal/edgeerrors

    An error with a fixed code, a message and a recovery hint, and the search for the code in a tree of causes.  Causes are
    trees here: an error value that occurs twice in one tree is visited twice. *)
From S2P Require Import Prelude GoStd.

Definition CodeConfigInvalid := "config_invalid".
Definition CodeCredentialReplayed := "credential_replayed".
Definition CodeCredentialInvalid := "credential_invalid".
Definition CodeCredentialMalformed := "credential_malformed".
Definition CodeCredentialKeyUnavailable := "credential_key_unavailable".
Definition CodeCredentialSignatureInvalid := "credential_signature_invalid".
Definition CodeCredentialRevocationUnavailable := "credential_revocation_unavailable".
Definition CodeCredentialExpired := "credential_expired".
Definition CodeCredentialNotYetValid := "credential_not_yet_valid".
Definition CodeBindingInvalid := "credential_binding_invalid".
Definition CodeGenerationStale := "connector_generation_stale".
Definition CodeRevoked := "credential_revoked".
Definition CodeRunIDInvalid := "run_id_invalid".
Definition CodeRunIDMismatch := "run_id_mismatch".
Definition CodeRunIDExpired := "run_id_expired".
Definition CodeRunIDRevoked := "run_id_revoked".
Definition CodeOperationConflict := "operation_conflict".
Definition CodeRouteConflict := "route_conflict".
Definition CodeRouteInvalid := "route_invalid".
Definition CodeRouteRevisionStale := "route_revision_stale".
Definition CodeServiceUnavailable := "service_unavailable".
Definition CodeStoreCapacity := "store_capacity_exceeded".

Definition Code_Valid (c : string) : bool :=
  bool_decide (c ∈ [CodeConfigInvalid; CodeCredentialReplayed; CodeCredentialInvalid; CodeCredentialMalformed; CodeCredentialKeyUnavailable;
    CodeCredentialSignatureInvalid; CodeCredentialRevocationUnavailable; CodeCredentialExpired; CodeCredentialNotYetValid; CodeBindingInvalid;
    CodeGenerationStale; CodeRevoked; CodeRunIDInvalid; CodeRunIDMismatch; CodeRunIDExpired; CodeRunIDRevoked; CodeOperationConflict; CodeRouteConflict;
    CodeRouteInvalid; CodeRouteRevisionStale; CodeServiceUnavailable; CodeStoreCapacity]).

(** An error of the package; one of another package, with the errors its Unwrap method returns. *)
#[local] Set Warnings "-register-all".
Inductive EdgeError :=
  | EdgeErr (Code Message Recovery : string) (Cause : option EdgeError)
  | OtherErr (msg : string)
  | WrapErr (msg : string) (cause : option EdgeError)
  | JoinErr (causes : list (option EdgeError)).

Definition New (code message recovery : string) : EdgeError := EdgeErr code message recovery None.
Definition Wrap (code message recovery : string) (cause : EdgeError) : EdgeError := EdgeErr code message recovery (Some cause).

(** What follows an error in the queue; a nil error is [None]. *)
Definition unwrap (pending : nat) (e : EdgeError) : list (option EdgeError) :=
  match e with
  | EdgeErr _ _ _ cause | WrapErr _ cause => [cause]
  | JoinErr causes => take (16 - pending) causes
  | OtherErr _ => []
  end.

(** The loop of CodeOf, at most [fuel] turns; the source allows sixteen. *)
Fixpoint CodeOf_loop (fuel : nat) (pending : list (option EdgeError)) : option string :=
  match fuel, pending with
  | O, _ | _, [] => None
  | S fuel', None :: pending' => CodeOf_loop fuel' pending'
  | S fuel', Some e :: pending' =>
      let more := CodeOf_loop fuel' (pending' ++ unwrap (length pending') e) in
      match e with
      | EdgeErr code _ _ _ => if Code_Valid code then Some code else more
      | _ => more
      end
  end.

Definition CodeOf (e : EdgeError) : option string := CodeOf_loop 16 [Some e].

(** The code that is found is one of the package's. *)
Lemma CodeOf_valid e code : CodeOf e = Some code → Code_Valid code = true.
Proof.
  unfold CodeOf. generalize 16%nat as fuel, [Some e] as pending. induction fuel as [|fuel IH]; intros [|[x|] pending]; simpl; try done; [|apply IH].
  destruct x; try apply IH. destruct (Code_Valid Code) eqn:Hc; [|apply IH]. by intros [= <-].
Qed.
