(* ===== verification/Admit.v ===== *)
(** * Admission of connectors: src/tunnel/internal/admission

    A connector presents a signed credential and the routes it hands off; it is admitted once per credential, and a retry of the same
    operation is answered with the same decision, which the journal keeps.

    The verifier of credentials and the control state are interfaces of the package: Admit gets what they answered.  encoding/json is the class [AdmissionJSON]. *)
From S2P Require Import Prelude GoStd GoData GoNet GoEnc EdgeErr Journal.

Definition audience : string := "paperboat-edge".

(** ^[a-z][a-z0-9_-]{0,127}$ *)
Definition idPattern (s : string) : bool :=
  match s with
  | String c s' => is_lower c && all_bytes (λ c, is_lower c || is_digit c || one_of "_-" c) s' && (len s' <=? 127)%Z
  | EmptyString => false
  end.

Record Claims := mkClaims {
  cl_KeyID : string; cl_Issuer : string; cl_Audience : string; cl_JTI : string; cl_CredentialClass : string; cl_Scopes : list string;
  cl_EnvironmentID : string; cl_MachineID : string; cl_InstallationGeneration : Z; cl_HelperID : string; cl_ConnectorID : string;
  cl_ConnectorGeneration : Z; cl_EdgePool : string; cl_EdgeNodeID : string; cl_RouteBinding : string; cl_AssignmentID : string;
  cl_IssuedAt : Z; cl_ExpiresAt : Z; cl_Revoked : bool;
}.

Record Route := mkRoute {
  rt_RouteID : string; rt_Revision : Z; rt_Kind : string; rt_PublicHost : string; rt_ProxyName : string; rt_TargetHost : string; rt_TargetPort : Z;
}.

#[export] Instance Route_eq_dec : EqDecision Route.
Proof. solve_decision. Defined.

(** admission.Request *)
Record AdmitRequest := mkAdmitRequest {
  aq_OperationID : string; aq_Credential : string; aq_Environment : string; aq_Machine : string; aq_Connector : string; aq_Generation : Z;
  aq_EdgePool : string; aq_EdgeNode : string; aq_Routes : list Route;
}.

Record RunID := mkRunID { ri_Value : string; ri_Generation : Z; ri_ExpiresAt : Z; ri_Revoked : bool }.

#[export] Instance RunID_eq_dec : EqDecision RunID.
Proof. solve_decision. Defined.

Record Response := mkResponse {
  rs_RunID : RunID; rs_Environment : string; rs_Machine : string; rs_Connector : string; rs_Generation : Z; rs_EdgeNode : string;
  rs_Routes : list Route; rs_RouteBinding : string;
}.

#[export] Instance Response_eq_dec : EqDecision Response.
Proof. solve_decision. Defined.

Record Current := mkCurrent { cu_Generation : Z; cu_EdgePool : string; cu_EdgeNode : string; cu_Revoked : bool }.

Definition invalid (message : string) : EdgeError := New CodeBindingInvalid message "request a fresh admission".

(** ** Run IDs: runid.go *)

(** [entropy] is what crypto/rand gave: 32 bytes, or an error. *)
Definition NewRunID (now : Z) (entropy : EdgeError + string) (generation expiresAt : Z) : EdgeError + RunID :=
  if (generation =? 0)%Z || negb (time.After expiresAt now)
  then inl (New CodeRunIDInvalid "run ID parameters are invalid" "request a fresh admission")
  else match entropy with
       | inl e => inl (Wrap CodeRunIDInvalid "run ID entropy unavailable" "retry admission" e)
       | inr raw => inr (mkRunID (base64.EncodeToString raw) generation expiresAt false)
       end.

Definition RunID_Resume (r : RunID) (value : string) (generation now : Z) : option EdgeError :=
  if String.eqb (ri_Value r) "" || (generation =? 0)%Z || (ri_Generation r =? 0)%Z
  then Some (New CodeRunIDInvalid "run ID is invalid" "request a fresh admission")
  else if ri_Revoked r then Some (New CodeRunIDRevoked "run ID is revoked" "request a fresh admission")
  else if negb (time.After (ri_ExpiresAt r) now) then Some (New CodeRunIDExpired "run ID is expired" "request a fresh admission")
  else if negb (generation =? ri_Generation r)%Z || negb (String.eqb value (ri_Value r))
  then Some (New CodeRunIDMismatch "run ID does not match the admitted generation" "request a fresh admission")
  else None.

(** ** Public hosts *)

Section hosts.
Context `{GoRuntime} `{IDNA}.

Definition host_label_ok (label : string) : bool :=
  match label with
  | EmptyString => false
  | String c _ =>
      (len label <=? 63)%Z && negb (Ascii.eqb c "-") && negb (str.HasSuffix label "-")
      && all_bytes (λ c, is_lower c || is_digit c || Ascii.eqb c "-") label
  end.

Definition normalizePublicHost (value : string) : option string :=
  if String.eqb value "" || (253 <? len value)%Z || negb (String.eqb (str.TrimSpace value) value)
     || str.ContainsAny value [47; 58; 64; 91; 93; 63; 35; 13; 10; 0]%N || strings.Contains value "_"
  then None
  else match ToASCII (ToLower (str.TrimSuffix value ".")) with
       | None => None
       | Some ascii =>
           if String.eqb ascii "" || (253 <? len ascii)%Z || net.ParseIP ascii || strings.Contains ascii ".." then None
           else if forallb host_label_ok (str.Split ascii ".") then Some ascii else None
       end.

Definition validPublicHost (value : string) : bool := match normalizePublicHost value with Some _ => true | None => false end.

(** The part of the test of a route that does not look at the others. *)
Definition route_ok (r : Route) : bool :=
  idPattern (rt_RouteID r) && idPattern (rt_ProxyName r) && negb (rt_Revision r =? 0)%Z
  && (String.eqb (rt_Kind r) "runtime_https_wss" || String.eqb (rt_Kind r) "preview_public_https_wss") && negb (rt_TargetPort r =? 0)%Z
  && (String.eqb (rt_TargetHost r) "127.0.0.1" || String.eqb (rt_TargetHost r) "::1").

Fixpoint routes_loop (seenHosts seenIDs seenProxies : list string) (routes : list Route) : bool :=
  match routes with
  | [] => true
  | r :: rest =>
      route_ok r && negb (bool_decide (rt_RouteID r ∈ seenIDs)) && negb (bool_decide (rt_ProxyName r ∈ seenProxies)) && validPublicHost (rt_PublicHost r)
      && match normalizePublicHost (rt_PublicHost r) with
         | None => false
         | Some host =>
             negb (bool_decide (host ∈ seenHosts)) && routes_loop (host :: seenHosts) (rt_RouteID r :: seenIDs) (rt_ProxyName r :: seenProxies) rest
         end
  end.

Definition validateRoutes (routes : list Route) : option EdgeError :=
  if (Z.of_nat (length routes) =? 0)%Z || (128 <? Z.of_nat (length routes))%Z then Some (invalid "route handoff is invalid")
  else if routes_loop [] [] [] routes then None else Some (invalid "route handoff is invalid").
End hosts.

(** ** Claims *)

Definition validateClaims (c : Claims) (r : AdmitRequest) (issuer : string) (now : Z) : option EdgeError :=
  if negb (String.eqb (cl_Issuer c) issuer) || negb (String.eqb (cl_Audience c) audience)
     || negb (String.eqb (cl_CredentialClass c) "connector_admission") || negb (bool_decide (cl_Scopes c = ["connector:admit"])) || String.eqb (cl_JTI c) ""
  then Some (invalid "credential claims are not valid")
  else if cl_Revoked c then Some (New CodeRevoked "admission is revoked" "request a fresh admission")
  else if negb (time.After (cl_ExpiresAt c) now) then Some (New CodeCredentialExpired "credential is expired" "request a fresh admission")
  else if negb (String.eqb (cl_EnvironmentID c) (aq_Environment r)) || negb (String.eqb (cl_MachineID c) (aq_Machine r))
     || negb (String.eqb (cl_ConnectorID c) (aq_Connector r)) || negb (cl_ConnectorGeneration c =? aq_Generation r)%Z
     || negb (String.eqb (cl_EdgePool c) (aq_EdgePool r)) || negb (String.eqb (cl_EdgeNodeID c) (aq_EdgeNode r))
  then Some (invalid "credential binding is invalid")
  else None.

(** ** Admit *)

(** The credential is not part of the JSON of a request. *)
Definition without_credential (r : AdmitRequest) : AdmitRequest :=
  mkAdmitRequest (aq_OperationID r) "" (aq_Environment r) (aq_Machine r) (aq_Connector r) (aq_Generation r) (aq_EdgePool r) (aq_EdgeNode r) (aq_Routes r).

(** Texts that JSON carries unchanged are UTF-8; times have years of four digits. *)
Definition json_texts (l : list string) : bool := forallb utf8.ValidString l.
Definition json_time (t : Z) : bool := (time.zero <=? t)%Z && (t <? 253402300800 * time.Second)%Z.

Definition route_texts (r : Route) : list string := [rt_RouteID r; rt_Kind r; rt_PublicHost r; rt_ProxyName r; rt_TargetHost r].
Definition request_plain (r : AdmitRequest) : bool :=
  json_texts ([aq_OperationID r; aq_Environment r; aq_Machine r; aq_Connector r; aq_EdgePool r; aq_EdgeNode r] ++ concat (route_texts <$> aq_Routes r)).
Definition response_plain (r : Response) : bool :=
  json_texts ([ri_Value (rs_RunID r); rs_Environment r; rs_Machine r; rs_Connector r; rs_EdgeNode r; rs_RouteBinding r] ++ concat (route_texts <$> rs_Routes r))
  && json_time (ri_ExpiresAt (rs_RunID r)).

(** json.Marshal of a request and of a response, and strictjson.Decode of a response. *)
Class AdmissionJSON := {
  json_Request : AdmitRequest → string;
  json_Response : Response → string;
  decode_Response : string → option Response;
  json_Request_inj : ∀ r r', request_plain r = true → request_plain r' = true → json_Request r = json_Request r' → without_credential r = without_credential r';
  decode_json_Response : ∀ r, response_plain r = true → decode_Response (json_Response r) = Some r;
}.

Inductive AdmitError := EdgeFailure (e : EdgeError) | JournalFailure (e : JournalError) | CorruptDecision.

Section admission.
Context `{GoRuntime} `{IDNA} `{SHA256} `{AdmissionJSON}.

Definition response_of (request : AdmitRequest) (claims : Claims) (runID : RunID) : Response :=
  mkResponse runID (aq_Environment request) (aq_Machine request) (aq_Connector request) (aq_Generation request) (aq_EdgeNode request) (aq_Routes request)
    (cl_RouteBinding claims).

(** What Admit asks of the control state. *)
Definition validateCurrent (current : Current) (request : AdmitRequest) (claims : Claims) : option EdgeError :=
  if cu_Revoked current then Some (New CodeRevoked "admission is revoked" "request a fresh admission")
  else if negb (cu_Generation current =? aq_Generation request)%Z || negb (cl_ConnectorGeneration claims =? cu_Generation current)%Z
  then Some (New CodeGenerationStale "connector generation is stale" "request a fresh admission")
  else if negb (String.eqb (cu_EdgePool current) (aq_EdgePool request)) || negb (String.eqb (cu_EdgeNode current) (aq_EdgeNode request))
  then Some (invalid "admission node binding is invalid") else None.

(** The request to the journal. *)
Definition operation_of (request : AdmitRequest) (claims : Claims) (runID : RunID) : Request :=
  mkRequest (aq_OperationID request) (cl_JTI claims) (json_Request request) (json_Response (response_of request claims runID))
    (cl_ExpiresAt claims + 60 * time.Second)%Z.

(** [verified] and [current] are what the verifier and the control state answer, [newRunID] makes the run ID. *)
Definition Admit (issuer : string) (now : Z) (verified : EdgeError + Claims) (current : EdgeError + Current) (newRunID : Z → Z → EdgeError + RunID)
    (request : AdmitRequest) (j : Journal) : Journal * (AdmitError + Response) :=
  if String.eqb issuer "" || String.eqb (aq_OperationID request) "" then (j, inl (EdgeFailure (invalid "admission request is invalid")))
  else match verified with
  | inl e =>
      (j, inl (EdgeFailure (match CodeOf e with
        | Some _ => e
        | None => Wrap CodeCredentialInvalid "credential verification failed" "request a fresh admission" e end)))
  | inr claims =>
      match validateClaims claims request issuer now with
      | Some e => (j, inl (EdgeFailure e))
      | None =>
          match current with
          | inl e => (j, inl (EdgeFailure (Wrap CodeCredentialInvalid "admission state unavailable" "retry after control state recovers" e)))
          | inr current =>
              match validateCurrent current request claims with
              | Some e => (j, inl (EdgeFailure e))
              | None =>
                  match validateRoutes (aq_Routes request) with
                  | Some e => (j, inl (EdgeFailure e))
                  | None =>
                      match newRunID (aq_Generation request) (cl_ExpiresAt claims) with
                      | inl e => (j, inl (EdgeFailure e))
                      | inr runID =>
                          match Consume j now (operation_of request claims runID) with
                          | (j', inl e) => (j', inl (JournalFailure e))
                          | (j', inr outcome) =>
                              match decode_Response (o_Decision outcome) with
                              | Some response => (j', inr response)
                              | None => (j', inl CorruptDecision)
                              end
                          end
                      end
                  end
              end
          end
      end
  end.
End admission.

Arguments validateClaims : simpl never.
Arguments validateCurrent : simpl never.
Arguments validateRoutes : simpl never.
