(* ===== verification/AdmitSpec.v ===== *)
(** * A credential admits once

    Any sequence of admissions and of clean-ups of the journal, with a clock that does not go back: what an admission rests on, and that one
    credential never admits two different things. *)
From S2P Require Import Prelude GoStd GoData GoNet GoEnc EdgeErr Journal Admit.

Section spec.
Context `{GoRuntime} `{IDNA} `{SHA256} `{AdmissionJSON}.
Context (issuer : string).

(** The test that the goal makes first. *)
Ltac case_if H := match goal with |- (if ?b then _ else _) = _ → _ => destruct b eqn:H end.

(** ** One call *)

(** What a successful admission has checked. *)
Record admissible (now : Z) (claims : Claims) (current : Current) (r : AdmitRequest) : Prop := {
  am_claims : validateClaims claims r issuer now = None;
  am_current : validateCurrent current r claims = None;
  am_routes : validateRoutes (aq_Routes r) = None;
}.

Lemma Admit_inr now verified current newRunID r j j' resp : Admit issuer now verified current newRunID r j = (j', inr resp) →
  ∃ claims cur runID o, verified = inr claims ∧ current = inr cur ∧ newRunID (aq_Generation r) (cl_ExpiresAt claims) = inr runID ∧
    admissible now claims cur r ∧ Consume j now (operation_of r claims runID) = (j', inr o) ∧ decode_Response (o_Decision o) = Some resp.
Proof.
  unfold Admit. destruct (_ || _); [done|]. destruct verified as [|claims]; [done|]. destruct (validateClaims _ _ _ _) eqn:Hc; [done|].
  destruct current as [|cur]; [done|]. destruct (validateCurrent _ _ _) eqn:Hcur; [done|]. destruct (validateRoutes _) eqn:Hr; [done|].
  destruct (newRunID _ _) as [|runID] eqn:Hrun; [done|]. destruct (Consume _ _ _) as [j1 [e|o]] eqn:Hcons; [done|].
  destruct (decode_Response _) as [x|] eqn:Hd; [|done]. intros [= <- <-]. exists claims, cur, runID, o. by repeat split.
Qed.

Lemma validateClaims_None c r now : validateClaims c r issuer now = None →
  cl_Issuer c = issuer ∧ cl_Audience c = audience ∧ cl_CredentialClass c = "connector_admission" ∧ cl_Scopes c = ["connector:admit"] ∧ cl_JTI c ≠ "" ∧
  cl_Revoked c = false ∧ (now < cl_ExpiresAt c)%Z ∧ cl_EnvironmentID c = aq_Environment r ∧ cl_MachineID c = aq_Machine r ∧
  cl_ConnectorID c = aq_Connector r ∧ cl_ConnectorGeneration c = aq_Generation r ∧ cl_EdgePool c = aq_EdgePool r ∧ cl_EdgeNodeID c = aq_EdgeNode r.
Proof.
  unfold validateClaims, time.After. case_if Ha; [done|]. case_if Hr; [done|]. case_if Hx; [done|]. case_if Hb; [done|]. intros _.
  apply negb_false_iff, Z.ltb_lt in Hx. to_prop. split_and!; by auto.
Qed.

Definition entry_for (q : Request) : entry := mkEntry (rq_OperationID q) (rq_JTI q) (Sum256 (rq_Canonical q)) (rq_Decision q) (rq_RetainUntil q).

(** An accepted request is in the journal afterwards: it was there with the same operation, credential and hash, or it is new. *)
Lemma Consume_inr j now q j' o : journal_ok j → Consume j now q = (j', inr o) → ∃ e, byOperation j' !! rq_OperationID q = Some e ∧
  e_jti e = rq_JTI q ∧ e_requestHash e = Sum256 (rq_Canonical q) ∧ e_decision e = o_Decision o ∧
  (j' = j ∨ e = entry_for q ∧ byOperation j !! rq_OperationID q = None ∧ j' = insert_entry j e).
Proof.
  intros Hj. unfold Consume. destruct (request_invalid now q); [done|].
  assert (Hdup : ∀ e, duplicate e q (Sum256 (rq_Canonical q)) = inr o →
    e_operationID e = rq_OperationID q ∧ e_jti e = rq_JTI q ∧ e_requestHash e = Sum256 (rq_Canonical q) ∧ e_decision e = o_Decision o).
  { intros e. unfold duplicate. destruct (_ || _) eqn:Hd; [done|]. rewrite !orb_false_iff, !negb_false_iff, !String.eqb_eq in Hd. intros [= <-]. tauto. }
  destruct (byOperation j !! rq_OperationID q) as [e|] eqn:Ho.
  - intros [= <- Hd]. destruct (Hdup _ Hd) as (_ & ? & ? & ?). exists e. by auto 10.
  - destruct (byJTI j !! rq_JTI q) as [e|] eqn:Hjti.
    + intros [= <- Hd]. destruct (Hdup _ Hd) as (Hop & _). destruct (jo_jti _ Hj _ _ Hjti) as [_ Hin]. congruence.
    + destruct (_ <=? _)%Z; [done|]. intros [= <- <-]. exists (entry_for q). simpl. rewrite lookup_insert_eq. by auto 10.
Qed.

(** ** Runs *)

(** An admission that was granted. *)
Record Granted := mkGranted { gr_now : Z; gr_claims : Claims; gr_current : Current; gr_request : AdmitRequest; gr_response : Response }.

Record AdmitWorld := mkAdmitWorld { aw_journal : Journal; aw_clock : Z; aw_log : list Granted }.

Definition granted (now : Z) (verified : EdgeError + Claims) (current : EdgeError + Current) (r : AdmitRequest) (res : AdmitError + Response) : list Granted :=
  match verified, current, res with inr c, inr cur, inr resp => [mkGranted now c cur r resp] | _, _, _ => [] end.

(** The issuer gives every credential its own JTI, so that the JTI determines when the credential expires. *)
Context (expiry : string → Z).

Inductive admit_step : AdmitWorld → AdmitWorld → Prop :=
  | step_admit w now verified current newRunID r j' res :
      (aw_clock w ≤ now)%Z → (∀ c, verified = inr c → cl_ExpiresAt c = expiry (cl_JTI c)) → request_plain r = true →
      (∀ c runID, verified = inr c → newRunID (aq_Generation r) (cl_ExpiresAt c) = inr runID → response_plain (response_of r c runID) = true) →
      Admit issuer now verified current newRunID r (aw_journal w) = (j', res) →
      admit_step w (mkAdmitWorld j' now (granted now verified current r res ++ aw_log w))
  | step_clean w now : (aw_clock w ≤ now)%Z → admit_step w (mkAdmitWorld (RemoveExpired (aw_journal w) now).1 now (aw_log w)).

Definition admit_reach (w : AdmitWorld) : Prop := ∃ maximum j start, NewJournal maximum = inr j ∧ rtc admit_step (mkAdmitWorld j start []) w.

(** Where an entry of the journal comes from. *)
Definition entry_made (e : entry) (r : AdmitRequest) (c : Claims) (runID : RunID) : Prop :=
  e = entry_for (operation_of r c runID) ∧ request_plain r = true ∧ response_plain (response_of r c runID) = true ∧ cl_ExpiresAt c = expiry (cl_JTI c).

(** The response is for the request. *)
Definition answers (resp : Response) (r : AdmitRequest) : Prop :=
  rs_Environment resp = aq_Environment r ∧ rs_Machine resp = aq_Machine r ∧ rs_Connector resp = aq_Connector r ∧ rs_Generation resp = aq_Generation r ∧
  rs_EdgeNode resp = aq_EdgeNode r ∧ rs_Routes resp = aq_Routes r.

(** Another request that was granted has the same hash. *)
Definition collides (log : list Granted) (g : Granted) : Prop :=
  ∃ g0, g0 ∈ log ∧ json_Request (gr_request g0) ≠ json_Request (gr_request g) ∧ Sum256 (json_Request (gr_request g0)) = Sum256 (json_Request (gr_request g)).

(** The entry that keeps the decision of a granted admission. *)
Definition kept (w : AdmitWorld) (g : Granted) : Prop :=
  ∃ e, byOperation (aw_journal w) !! e_operationID e = Some e ∧ e_jti e = cl_JTI (gr_claims g) ∧ decode_Response (e_decision e) = Some (gr_response g).

Record admit_ok (w : AdmitWorld) : Prop := {
  ao_journal : journal_ok (aw_journal w);
  ao_entries : ∀ k e, byOperation (aw_journal w) !! k = Some e → ∃ g runID, g ∈ aw_log w ∧ entry_made e (gr_request g) (gr_claims g) runID;
  ao_kept : ∀ g, g ∈ aw_log w → kept w g ∨ (expiry (cl_JTI (gr_claims g)) ≤ aw_clock w)%Z;
  ao_sound : ∀ g, g ∈ aw_log w → admissible (gr_now g) (gr_claims g) (gr_current g) (gr_request g) ∧ (answers (gr_response g) (gr_request g) ∨ collides (aw_log w) g);
  ao_once : ∀ g g', g ∈ aw_log w → g' ∈ aw_log w → cl_JTI (gr_claims g) = cl_JTI (gr_claims g') → gr_response g = gr_response g';
}.

(** A step that grants nothing and keeps what is not expired. *)
Lemma admit_ok_quiet w j' now : admit_ok w → (aw_clock w ≤ now)%Z → journal_ok j' →
  (∀ k e, byOperation j' !! k = Some e → byOperation (aw_journal w) !! k = Some e) →
  (∀ e, byOperation (aw_journal w) !! e_operationID e = Some e → byOperation j' !! e_operationID e = Some e ∨ (expiry (e_jti e) ≤ now)%Z) →
  admit_ok (mkAdmitWorld j' now (aw_log w)).
Proof.
  intros [Hj He Hk Hs Ho] Hle Hj' He' Hkeep. split; simpl; try done; [by eauto|]. intros g Hg.
  destruct (Hk g Hg) as [(e & Hin & Hjti & Hd)|Hx]; [|right; lia].
  destruct (Hkeep e Hin) as [Hin'|Hx]; [left; by exists e|right; by rewrite <-Hjti].
Qed.

Lemma step_clean_ok w now : admit_ok w → (aw_clock w ≤ now)%Z → admit_ok (mkAdmitWorld (RemoveExpired (aw_journal w) now).1 now (aw_log w)).
Proof.
  intros Hok Hle. apply admit_ok_quiet; try done.
  - apply RemoveExpired_ok, Hok.
  - intros k e. rewrite RemoveExpired_operation. destruct (byOperation (aw_journal w) !! k) as [e0|] eqn:Hk; simpl; [|done].
    by destruct (live now e0).
  - intros e Hin. rewrite RemoveExpired_operation, Hin. simpl. unfold live, time.Before. destruct (Z.ltb_spec now (e_retainUntil e)) as [|Hx]; [by left|right].
    destruct (ao_entries _ Hok _ _ Hin) as (g & runID & _ & -> & _ & _ & Hexp). simpl in *. unfold time.Second in Hx. lia.
Qed.

(** ** An admission *)

(** An error leaves the journal as it was. *)
Lemma Admit_inl now verified current newRunID r j j' e :
  (∀ c runID, verified = inr c → newRunID (aq_Generation r) (cl_ExpiresAt c) = inr runID → response_plain (response_of r c runID) = true) →
  Admit issuer now verified current newRunID r j = (j', inl e) → j' = j.
Proof.
  intros Hp. unfold Admit. destruct (_ || _); [by intros [= <-]|]. destruct verified as [|claims]; [by intros [= <-]|].
  destruct (validateClaims _ _ _ _); [by intros [= <-]|]. destruct current as [|cur]; [by intros [= <-]|].
  destruct (validateCurrent _ _ _); [by intros [= <-]|]. destruct (validateRoutes _); [by intros [= <-]|].
  destruct (newRunID _ _) as [|runID] eqn:Hn; [by intros [= <-]|]. unfold Consume. destruct (request_invalid _ _); [by intros [= <-]|].
  destruct (byOperation j !! _) as [x|]; [destruct (duplicate x _ _); [|destruct (decode_Response _)]; by intros [= <-]|].
  destruct (byJTI j !! _) as [x|]; [destruct (duplicate x _ _); [|destruct (decode_Response _)]; by intros [= <-]|].
  destruct (_ <=? _)%Z; [by intros [= <-]|]. simpl. by rewrite decode_json_Response by auto.
Qed.

Lemma admit_grant_ok w j' now g : admit_ok w → (aw_clock w ≤ now)%Z → journal_ok j' →
  (∀ k e, byOperation j' !! k = Some e → byOperation (aw_journal w) !! k = Some e ∨ ∃ runID, entry_made e (gr_request g) (gr_claims g) runID) →
  (∀ k e, byOperation (aw_journal w) !! k = Some e → byOperation j' !! k = Some e) →
  kept (mkAdmitWorld j' now (g :: aw_log w)) g → (now < expiry (cl_JTI (gr_claims g)))%Z →
  admissible (gr_now g) (gr_claims g) (gr_current g) (gr_request g) → (answers (gr_response g) (gr_request g) ∨ collides (g :: aw_log w) g) →
  admit_ok (mkAdmitWorld j' now (g :: aw_log w)).
Proof.
  intros [Hj He Hk Hs Ho] Hle Hj' He' Hkeep Hg Hlt Ha Hans.
  assert (Hk' : ∀ g', g' ∈ aw_log w → kept (mkAdmitWorld j' now (g :: aw_log w)) g' ∨ (expiry (cl_JTI (gr_claims g')) ≤ now)%Z).
  { intros g' Hin. destruct (Hk g' Hin) as [(e & Hin' & ?)|Hx]; [left; exists e; by auto|right; lia]. }
  assert (Hsame : ∀ g', g' ∈ aw_log w → cl_JTI (gr_claims g) = cl_JTI (gr_claims g') → gr_response g = gr_response g').
  { intros g' Hin Heq. destruct (Hk' g' Hin) as [(e' & Hin' & Hx' & Hd')|Hx]; [|rewrite <-Heq in Hx; lia]. destruct Hg as (e & Hin0 & Hj0 & Hd0).
    destruct (jo_operation _ Hj' _ _ Hin') as [_ Hb']. destruct (jo_operation _ Hj' _ _ Hin0) as [_ Hb]. congruence. }
  split; simpl; try done.
  - intros k e [Hin|[runID Hm]]%He'; [|exists g, runID; split; [left|done]]. destruct (He _ _ Hin) as (g0 & runID & Hg0 & Hm). exists g0, runID. split; [by right|done].
  - intros g' [->|Hin]%elem_of_cons; [by left|]. by apply Hk'.
  - intros g' [->|Hin]%elem_of_cons; [done|]. destruct (Hs _ Hin) as [? [?|(g0 & Hg0 & ?)]]; (split; [done|]); [by left|right].
    exists g0. split; [by right|done].
  - intros g1 g2 [->|Hin1]%elem_of_cons [->|Hin2]%elem_of_cons Heq; [done|by apply Hsame|symmetry; by apply Hsame|by apply Ho].
Qed.

(** The answer that the journal keeps is for the request, or the request that it was made for has the same hash. *)
Lemma made_answers e g0 runID0 g log : entry_made e (gr_request g0) (gr_claims g0) runID0 → g0 ∈ log → request_plain (gr_request g) = true →
  e_requestHash e = Sum256 (json_Request (gr_request g)) → decode_Response (e_decision e) = Some (gr_response g) →
  answers (gr_response g) (gr_request g) ∨ collides log g.
Proof.
  intros (-> & Hp0 & Hr0 & _) Hin Hp Hh Hd. simpl in *. rewrite decode_json_Response in Hd by done. injection Hd as Hd. rewrite <-Hd.
  destruct (decide (json_Request (gr_request g0) = json_Request (gr_request g))) as [Heq|Hne]; [left|right; by exists g0].
  apply json_Request_inj in Heq; [|done..]. injection Heq as H1' H2' H3' H4' H5' H6' H7' H8'. by repeat split.
Qed.

Lemma step_admit_ok w now verified current newRunID r j' res : admit_ok w →
  (aw_clock w ≤ now)%Z → (∀ c, verified = inr c → cl_ExpiresAt c = expiry (cl_JTI c)) → request_plain r = true →
  (∀ c runID, verified = inr c → newRunID (aq_Generation r) (cl_ExpiresAt c) = inr runID → response_plain (response_of r c runID) = true) →
  Admit issuer now verified current newRunID r (aw_journal w) = (j', res) →
  admit_ok (mkAdmitWorld j' now (granted now verified current r res ++ aw_log w)).
Proof.
  intros Hok Hle Hexp Hp Hrp Hadm. destruct res as [x|resp].
  { apply Admit_inl in Hadm as ->; [|done]. replace (granted _ _ _ _ _) with (@nil Granted) by by destruct verified, current.
    apply admit_ok_quiet; try done; [apply Hok|by left]. }
  destruct (Admit_inr _ _ _ _ _ _ _ _ Hadm) as (c & cur & runID & o & -> & -> & Hn & Ha & Hcons & Hd). simpl.
  pose proof (Consume_ok _ now (operation_of r c runID) (ao_journal _ Hok)) as Hj'. rewrite Hcons in Hj'. simpl in Hj'.
  destruct (Consume_inr _ _ _ _ _ (ao_journal _ Hok) Hcons) as (e & Hin & Hjti & Hh & Hdec & Hcase). simpl in Hjti, Hh, Hin. rewrite <-Hdec in Hd.
  destruct (validateClaims_None _ _ _ (am_claims _ _ _ _ Ha)) as (_ & _ & _ & _ & _ & _ & Hlt & _).
  assert (Hnew : ∀ k x, byOperation j' !! k = Some x → byOperation (aw_journal w) !! k = Some x ∨ ∃ runID, entry_made x r c runID).
  { intros k x Hx. destruct Hcase as [->|(-> & _ & ->)]; [by left|]. simpl in Hx. apply lookup_insert_Some in Hx as [[_ <-]|[_ ?]]; [right|by left].
    exists runID. repeat split; by auto. }
  pose proof (jo_operation _ Hj' _ _ Hin) as [Hop _]. apply admit_grant_ok; simpl; try done.
  - intros k x Hx. destruct Hcase as [->|(-> & Hno & ->)]; [done|]. simpl. rewrite lookup_insert_ne; [done|]. simpl in *. congruence.
  - exists e. simpl. by rewrite Hop.
  - by rewrite <-Hexp.
  - destruct (Hnew _ _ Hin) as [Hold|[run Hm]].
    + destruct (ao_entries _ Hok _ _ Hold) as (g0 & run0 & Hg0 & Hm). eapply (made_answers e g0 run0 (mkGranted now c cur r resp)); [exact Hm|by right|done..].
    + by eapply (made_answers e (mkGranted now c cur r resp) run (mkGranted now c cur r resp)); [exact Hm|left|..].
Qed.

Lemma admit_reach_ok w : admit_reach w → admit_ok w.
Proof.
  intros (maximum & j & start & Hn & Hsteps). assert (Hok : admit_ok (mkAdmitWorld j start [])).
  { split; simpl; try by intros ? ?%elem_of_nil.
    - by apply new_journal_ok in Hn as [? _].
    - intros k e. unfold NewJournal in Hn. destruct (_ <? _)%Z; [done|]. injection Hn as <-. simpl. by rewrite lookup_empty.
    - by intros g g' Hg%elem_of_nil. }
  clear Hn. induction Hsteps as [|? ? ? Hstep _ IH]; [done|]. apply IH. destruct Hstep; [by eapply step_admit_ok|by apply step_clean_ok].
Qed.
End spec.

(** ** The claims *)

Section claims.
Context `{GoRuntime} `{IDNA} `{SHA256} `{AdmissionJSON}.

(** The credential is a connector's for this edge, unrevoked and unexpired, and bound to the request. *)
Record credential_for (issuer : string) (now : Z) (c : Claims) (r : AdmitRequest) : Prop := {
  cr_issued : cl_Issuer c = issuer ∧ cl_Audience c = "paperboat-edge" ∧ cl_CredentialClass c = "connector_admission" ∧ cl_Scopes c = ["connector:admit"] ∧ cl_JTI c ≠ "";
  cr_valid : cl_Revoked c = false ∧ (now < cl_ExpiresAt c)%Z;
  cr_bound : cl_EnvironmentID c = aq_Environment r ∧ cl_MachineID c = aq_Machine r ∧ cl_ConnectorID c = aq_Connector r ∧
    cl_ConnectorGeneration c = aq_Generation r ∧ cl_EdgePool c = aq_EdgePool r ∧ cl_EdgeNodeID c = aq_EdgeNode r;
}.

(** The control state names the generation and the node of the request, and does not revoke it. *)
Record current_for (cu : Current) (r : AdmitRequest) : Prop := {
  cf_valid : cu_Revoked cu = false;
  cf_same : cu_Generation cu = aq_Generation r ∧ cu_EdgePool cu = aq_EdgePool r ∧ cu_EdgeNode cu = aq_EdgeNode r;
}.

(** A DNS name, not an address. *)
Definition dns_name (host : string) : Prop :=
  host ≠ "" ∧ (len host ≤ 253)%Z ∧ net.ParseIP host = false ∧ ∀ label, label ∈ str.Split host "." → host_label_ok label = true.

(** The routes have different identifiers, proxies and hosts, and lead to the machine itself. *)
Record handoff_ok (routes : list Route) : Prop := {
  ho_count : (1 ≤ length routes ≤ 128)%nat;
  ho_route : ∀ r, r ∈ routes → idPattern (rt_RouteID r) = true ∧ idPattern (rt_ProxyName r) = true ∧ rt_Revision r ≠ 0%Z ∧ rt_TargetPort r ≠ 0%Z ∧
    (rt_Kind r = "runtime_https_wss" ∨ rt_Kind r = "preview_public_https_wss") ∧ (rt_TargetHost r = "127.0.0.1" ∨ rt_TargetHost r = "::1");
  ho_ids : NoDup (rt_RouteID <$> routes);
  ho_proxies : NoDup (rt_ProxyName <$> routes);
  ho_hosts : ∃ hosts, Forall2 (λ r host, normalizePublicHost (rt_PublicHost r) = Some host ∧ dns_name host) routes hosts ∧ NoDup hosts;
}.

Lemma validateCurrent_None cu r c : validateCurrent cu r c = None → current_for cu r.
Proof.
  unfold validateCurrent. do 3 (match goal with |- (if ?b then _ else _) = _ → _ => destruct b eqn:?; [done|] end). intros _.
  to_prop. by split.
Qed.

Lemma normalizePublicHost_dns value host : normalizePublicHost value = Some host → dns_name host.
Proof.
  unfold normalizePublicHost. destruct (_ || _); [done|]. destruct (ToASCII _) as [ascii|]; [|done]. destruct (_ || _) eqn:Hc; [done|].
  destruct (forallb _ _) eqn:Hl; [|done]. intros [= <-]. rewrite !orb_false_iff, String.eqb_neq, Z.ltb_ge in Hc. destruct Hc as [[[Hne Hlen] Hip] _].
  rewrite forallb_forall in Hl. split_and!; [done|done|done|]. intros label Hin. by apply Hl, list_elem_of_In.
Qed.

Lemma routes_loop_ok routes : ∀ seenHosts seenIDs seenProxies, routes_loop seenHosts seenIDs seenProxies routes = true →
  (∀ r, r ∈ routes → route_ok r = true) ∧
  (NoDup (rt_RouteID <$> routes) ∧ ∀ r, r ∈ routes → rt_RouteID r ∉ seenIDs) ∧ (NoDup (rt_ProxyName <$> routes) ∧ ∀ r, r ∈ routes → rt_ProxyName r ∉ seenProxies) ∧
  ∃ hosts, Forall2 (λ r host, normalizePublicHost (rt_PublicHost r) = Some host ∧ dns_name host) routes hosts ∧ NoDup hosts ∧ ∀ h, h ∈ hosts → h ∉ seenHosts.
Proof.
  induction routes as [|r routes IH]; intros seenHosts seenIDs seenProxies; cbn [routes_loop].
  { intros _. assert (Hnil : ∀ (A : Type) (P : A → Prop) x, x ∈ [] → P x) by (intros A P x Hx; by apply elem_of_nil in Hx).
    split_and!; [apply Hnil|constructor|apply Hnil|constructor|apply Hnil|]. exists []. split_and!; [constructor..|apply Hnil]. }
  rewrite !andb_true_iff, !negb_true_iff, !bool_decide_eq_false. intros [[[[Hr Hid] Hpx] _] Hh].
  destruct (normalizePublicHost _) as [host|] eqn:Hn; [|done]. rewrite andb_true_iff, negb_true_iff, bool_decide_eq_false in Hh. destruct Hh as [Hhost Hrest].
  destruct (IH _ _ _ Hrest) as (Hall & [Hids Hids'] & [Hps Hps'] & hosts & Hhs & Hnd & Hhs'). split_and!.
  - intros x [->|Hx]%elem_of_cons; [done|by apply Hall].
  - apply NoDup_cons. split; [|done]. intros (x & Heq & Hx)%list_elem_of_fmap. apply (Hids' x Hx). rewrite <-Heq. left.
  - intros x [->|Hx]%elem_of_cons; [done|]. specialize (Hids' x Hx). set_solver.
  - apply NoDup_cons. split; [|done]. intros (x & Heq & Hx)%list_elem_of_fmap. apply (Hps' x Hx). rewrite <-Heq. left.
  - intros x [->|Hx]%elem_of_cons; [done|]. specialize (Hps' x Hx). set_solver.
  - exists (host :: hosts). split_and!; [constructor; [split; [done|by eapply normalizePublicHost_dns]|done]| |].
    + apply NoDup_cons. split; [|done]. intros Hin. apply (Hhs' _ Hin). left.
    + intros h [->|Hin]%elem_of_cons; [done|]. specialize (Hhs' h Hin). set_solver.
Qed.

Lemma validateRoutes_None routes : validateRoutes routes = None → handoff_ok routes.
Proof.
  unfold validateRoutes. destruct (_ || _) eqn:Hc; [done|]. destruct (routes_loop _ _ _ _) eqn:Hl; [|done]. intros _.
  destruct (routes_loop_ok _ _ _ _ Hl) as (Hall & [Hids _] & [Hps _] & hosts & Hhs & Hnd & _). split; try done.
  - rewrite orb_false_iff, Z.eqb_neq, Z.ltb_ge in Hc. lia.
  - intros r Hr%Hall. unfold route_ok in Hr. rewrite !andb_true_iff, !orb_true_iff, !negb_true_iff, !Z.eqb_neq, !String.eqb_eq in Hr. tauto.
  - by exists hosts.
Qed.

(** C18: whatever admissions are asked for, in whatever order and with clean-ups of the journal between them: every response that was ever given out was
    given for a request whose credential, as the verifier read it, was an unexpired and unrevoked connector credential for this issuer and edge, bound to exactly that environment, machine, connector,
    generation, pool and node; whose generation and node were those of the control state, which did not revoke it; and whose routes, 1 to 128, have different identifiers, proxies
    and host names, which are DNS names, and lead to the machine itself.  The response repeats what the request asked, unless
    the texts of two different requests that were granted have the same SHA-256; and all responses that were given for one JTI are the same.  Assumed: the clock does not go back, one JTI
    has one expiry, and what passes through JSON is UTF-8 with years of four digits. *)
Theorem admit_sound issuer expiry w g : admit_reach issuer expiry w → g ∈ aw_log w →
  credential_for issuer (gr_now g) (gr_claims g) (gr_request g) ∧ current_for (gr_current g) (gr_request g) ∧ handoff_ok (aq_Routes (gr_request g)) ∧
  (answers (gr_response g) (gr_request g) ∨ collides (aw_log w) g) ∧
  ∀ g', g' ∈ aw_log w → cl_JTI (gr_claims g') = cl_JTI (gr_claims g) → gr_response g' = gr_response g.
Proof.
  intros Hw%admit_reach_ok Hg. destruct (ao_sound _ _ _ Hw _ Hg) as [[Hc Hcu Hr] Ha].
  apply validateClaims_None in Hc as (? & ? & ? & ? & ? & ? & ? & ? & ? & ? & ? & ? & ?). split_and!; [by split|by eapply validateCurrent_None|by apply validateRoutes_None|done|].
  intros g' Hg' Hj. by apply (ao_once _ _ _ Hw).
Qed.
End claims.

(** ** An example *)

(** A JSON that can be evaluated: the bits of an encoding. *)
Fixpoint bits_of (p : positive) : string := match p with xH => "" | xO p => String "0" (bits_of p) | xI p => String "1" (bits_of p) end.
Fixpoint of_bits (s : string) : positive := match s with "" => xH | String c s => if Ascii.eqb c "0" then xO (of_bits s) else xI (of_bits s) end.

Lemma of_bits_of p : of_bits (bits_of p) = p.
Proof. induction p; simpl; congruence. Qed.

#[local] Instance Route_countable : Countable Route.
Proof.
  refine (inj_countable' (λ r, (rt_RouteID r, rt_Revision r, rt_Kind r, rt_PublicHost r, rt_ProxyName r, rt_TargetHost r, rt_TargetPort r))
    (λ t, let '(a, b, c, d, e, f, g) := t in mkRoute a b c d e f g) _). by intros [].
Defined.
#[local] Instance RunID_countable : Countable RunID.
Proof.
  refine (inj_countable' (λ r, (ri_Value r, ri_Generation r, ri_ExpiresAt r, ri_Revoked r)) (λ t, let '(a, b, c, d) := t in mkRunID a b c d) _). by intros [].
Defined.
#[local] Instance Response_countable : Countable Response.
Proof.
  refine (inj_countable' (λ r, (rs_RunID r, rs_Environment r, rs_Machine r, rs_Connector r, rs_Generation r, rs_EdgeNode r, rs_Routes r, rs_RouteBinding r))
    (λ t, let '(a, b, c, d, e, f, g, h) := t in mkResponse a b c d e f g h) _). by intros [].
Defined.

Definition request_tuple (r : AdmitRequest) :=
  (aq_OperationID r, aq_Environment r, aq_Machine r, aq_Connector r, aq_Generation r, aq_EdgePool r, aq_EdgeNode r, aq_Routes r).

Lemma eval_json_inj r r' : bits_of (encode (request_tuple r)) = bits_of (encode (request_tuple r')) → without_credential r = without_credential r'.
Proof.
  intros Heq. apply (f_equal of_bits) in Heq. rewrite !of_bits_of in Heq. apply (inj encode) in Heq. destruct r, r'; cbv in Heq |- *. congruence.
Qed.

Lemma eval_json_decode (r : Response) : decode (of_bits (bits_of (encode r))) = Some r.
Proof. rewrite of_bits_of. apply decode_encode. Qed.

Definition eval_json : AdmissionJSON := {|
  json_Request r := bits_of (encode (request_tuple r));
  json_Response r := bits_of (encode r);
  decode_Response s := decode (of_bits s);
  json_Request_inj r r' _ _ := eval_json_inj r r';
  decode_json_Response r _ := eval_json_decode r;
|}.
#[local] Existing Instances eval_runtime eval_idna eval_sha256 eval_json.

Definition sample_request : AdmitRequest :=
  mkAdmitRequest "op1" "cred" "env" "machine" "connector" 3 "pool" "node"
    [mkRoute "r1" 1 "runtime_https_wss" "app.example.com" "proxy" "127.0.0.1" 8080].
Definition sample_claims : Claims :=
  mkClaims "k" "issuer" audience "jti1" "connector_admission" ["connector:admit"] "env" "machine" 1 "helper" "connector" 3 "pool" "node" "binding" "assign"
    0 1000 false.
Definition sample_current : Current := mkCurrent 3 "pool" "node" false.
Definition sample_expiry (_ : string) : Z := 1000.

(** The sample credential is presented at a time, with other random bytes each time. *)
Definition sample_admit (w : AdmitWorld) (now : Z) (entropy : string) : AdmitWorld :=
  let '(j', res) := Admit "issuer" now (inr sample_claims) (inr sample_current) (NewRunID now (inr entropy)) sample_request (aw_journal w) in
  mkAdmitWorld j' now (granted now (inr sample_claims) (inr sample_current) sample_request res ++ aw_log w).

Lemma sample_admit_step w now entropy : (aw_clock w ≤ now)%Z → (now < 1000)%Z → utf8.ValidString (base64.EncodeToString entropy) = true →
  admit_step "issuer" sample_expiry w (sample_admit w now entropy).
Proof.
  intros Hle Hlt Hutf. unfold sample_admit. destruct (Admit _ _ _ _ _ _ _) as [j' res] eqn:E. eapply step_admit; [done| |done| |exact E].
  - by intros c [= <-].
  - intros c runID [= <-]. unfold NewRunID, time.After. simpl. rewrite (proj2 (Z.ltb_lt _ _)) by done. intros [= <-].
    unfold response_plain, json_texts. simpl. rewrite Hutf. by vm_compute.
Qed.

(** Presented twice. *)
Definition sample_world : AdmitWorld := sample_admit (sample_admit (mkAdmitWorld (mkJournal 10 ∅ ∅) 0 []) 100 "first") 200 "second".
Definition sample_response : Response :=
  mkResponse (mkRunID "Zmlyc3Q" 3 1000 false) "env" "machine" "connector" 3 "node" (aq_Routes sample_request) "binding".
Definition sample_granted (now : Z) : Granted := mkGranted now sample_claims sample_current sample_request sample_response.

Lemma sample_reach : admit_reach "issuer" sample_expiry sample_world.
Proof.
  exists 10%Z, (mkJournal 10 ∅ ∅), 0%Z. split; [done|]. eapply rtc_l; [|eapply rtc_once]; apply sample_admit_step; vm_compute; done.
Qed.

Lemma sample_log : aw_log sample_world = [sample_granted 200; sample_granted 100].
Proof. vm_compute. reflexivity. Qed.

Lemma admit_sound_witness : credential_for "issuer" 200 sample_claims sample_request ∧ gr_response (sample_granted 100) = gr_response (sample_granted 200).
Proof.
  assert (Hg : sample_granted 200 ∈ aw_log sample_world) by (rewrite sample_log; left).
  assert (Hg' : sample_granted 100 ∈ aw_log sample_world) by (rewrite sample_log; right; left).
  destruct (admit_sound "issuer" sample_expiry sample_world (sample_granted 200) sample_reach Hg) as (Hc & _ & _ & _ & Ho).
  split; [exact Hc|]. apply (Ho _ Hg'). reflexivity.
Defined.
