(* ===== verification/Handover.v ===== *)
(** * Handing the sockets of an edge process over to its replacement: src/tunnel/internal/handover

    A process keeps the set of its listening sockets; a replacement inherits them over a local packet socket, warms up, and takes over
    accepting once the serving process has released them.  This file has the set of sockets and the two sides of the exchange, and then runs them together.

    The kernel is not part of the source.  A kernel socket is a number, and an [os.File] is a pointer and the socket its descriptor
    refers to; what bind and listen answer is an argument.  Channels that are only ever closed are booleans.  A datagram is a message and the sockets it passes on. *)
From S2P Require Import Prelude GoStd GoData GoNet GoEnc.

Record File := mkFile { f_id : nat; f_socket : nat }.

#[export] Instance File_eq_dec : EqDecision File.
Proof. solve_decision. Defined.

(** ** The set of sockets: sockets.go *)

Record sockets := mkSockets {
  inherited : gmap string File; owned : gmap string File; tcp : gset nat;
  accept : bool; udp : bool; released : bool;
}.

Definition fresh : sockets := mkSockets ∅ ∅ ∅ true true false.

Definition key (network address : string) : string := network +:+ " " +:+ address.

(** A listener, with whether its own descriptor is still open. *)
Record listener := mkListener { l_key : string; l_file : option File; l_socket : nat; l_inner : bool; l_closed : bool }.
Record packetConn := mkPacketConn { pc_key : string; pc_file : option File; pc_socket : nat; pc_closed : bool }.

(** A process: its set, and the listeners and packet connections that its pointers lead to. *)
Record process := mkProcess { p_set : sockets; p_listeners : gmap nat listener; p_packets : gmap nat packetConn }.

Definition set_inherited (s : sockets) (m : gmap string File) : sockets := mkSockets m (owned s) (tcp s) (accept s) (udp s) (released s).
Definition set_owned (s : sockets) (m : gmap string File) : sockets := mkSockets (inherited s) m (tcp s) (accept s) (udp s) (released s).
Definition set_tcp (s : sockets) (t : gset nat) : sockets := mkSockets (inherited s) (owned s) t (accept s) (udp s) (released s).

Definition take (s : sockets) (k : string) : sockets * option File := (set_inherited s (delete k (inherited s)), inherited s !! k).

(** What the kernel answers to a listen: an error, or a socket; [Bound] has the pointer of the file that File made, [Unnamed] is a listener of
    another type, which has no file. *)
Inductive ListenAnswer := Failed | Unnamed (socket : nat) | Bound (socket : nat) (file : nat).

(** The inner listener and its file, from the inherited socket when there is one. *)
Definition open_socket (s : sockets) (k : string) (answer : ListenAnswer) : sockets * option (option File * nat) :=
  match take s k with
  | (s', Some file) => (s', match answer with Failed => None | _ => Some (Some file, f_socket file) end)
  | (s', None) => (s', match answer with Failed => None | Unnamed socket => Some (None, socket) | Bound socket file => Some (Some (mkFile file socket), socket) end)
  end.

Definition own (s : sockets) (k : string) (file : option File) : sockets :=
  match file with Some f => set_owned s (<[k := f]> (owned s)) | None => s end.

(** listen; [l] is the pointer of the new listener. *)
Definition listen (p : process) (k : string) (answer : ListenAnswer) (l : nat) : process :=
  match open_socket (p_set p) k answer with
  | (s, None) => mkProcess s (p_listeners p) (p_packets p)
  | (s, Some (file, socket)) =>
      let s := own s k file in
      mkProcess (set_tcp s ({[l]} ∪ tcp s)) (<[l := mkListener k file socket true false]> (p_listeners p)) (p_packets p)
  end.

Definition listenPacket (p : process) (k : string) (answer : ListenAnswer) (c : nat) : process :=
  match open_socket (p_set p) k answer with
  | (s, None) => mkProcess s (p_listeners p) (p_packets p)
  | (s, Some (file, socket)) => mkProcess (own s k file) (p_listeners p) (<[c := mkPacketConn k file socket false]> (p_packets p))
  end.

(** forget; the maps hold pointers, so files are compared by pointer. *)
Definition forget (s : sockets) (k : string) (file : option File) : sockets :=
  if bool_decide (f_id <$> owned s !! k = f_id <$> file) then set_owned s (delete k (owned s)) else s.

Definition with_closed (l : listener) : listener := mkListener (l_key l) (l_file l) (l_socket l) false true.

(** listener.Close, which does its work once. *)
Definition listener_Close (p : process) (l : nat) : process :=
  match p_listeners p !! l with
  | Some v =>
      if l_closed v then p
      else mkProcess (forget (set_tcp (p_set p) (tcp (p_set p) ∖ {[l]})) (l_key v) (l_file v)) (<[l := with_closed v]> (p_listeners p)) (p_packets p)
  | None => p
  end.

Definition packetConn_Close (p : process) (c : nat) : process :=
  match p_packets p !! c with
  | Some v =>
      if pc_closed v then p
      else mkProcess (forget (p_set p) (pc_key v) (pc_file v)) (p_listeners p) (<[c := mkPacketConn (pc_key v) (pc_file v) (pc_socket v) true]> (p_packets p))
  | None => p
  end.

Inductive AcceptResult := Blocked | Connection | ErrClosed | AcceptFailed.

(** listener.Accept: [closed_first] is the choice of the select when both channels are closed; [arrived] is whether a connection arrived. *)
Definition Accept (s : sockets) (l : listener) (closed_first arrived : bool) : AcceptResult :=
  if negb (accept s) && negb (l_closed l) then Blocked
  else if l_closed l && (negb (accept s) || closed_first) then ErrClosed
  else if l_inner l && arrived then Connection
  else if released s then (if l_closed l then ErrClosed else Blocked)
  else AcceptFailed.

Section snapshot.
Context `{GoRuntime}.

(** snapshot; range site 48. *)
Definition snapshot (s : sockets) : list (string * File) := range 48 (owned s).
End snapshot.

(** release, up to where it gives up the lock: the listeners that it is going to close. *)
Definition release_mark (s : sockets) : sockets * list nat :=
  if released s then (s, []) else (mkSockets (inherited s) (owned s) (tcp s) (accept s) (udp s) true, elements (tcp s)).

(** The rest of release closes one descriptor after the other. *)
Definition release_close (p : process) (l : nat) : process :=
  mkProcess (p_set p) (alter (λ v, mkListener (l_key v) (l_file v) (l_socket v) false (l_closed v)) l (p_listeners p)) (p_packets p).

(** ** Messages: protocol.go *)

Definition maxMessage : Z := Z.shiftl 256 10.
Definition certBatchBytes : Z := Z.shiftl 128 10.
Definition socketsPerSend : nat := 200.

Record message := mkMessage { m_Op : string; m_Epoch : string; m_Keys : list string; m_More : bool; m_Certs : list string }.

(** A message with the sockets that go with it. *)
Record Datagram := mkDatagram { d_message : message; d_rights : list nat }.

(** The size of a record in JSON: base64 in quotes. *)
Definition json_record_size (record : string) : Z := (2 + 4 * ((len record + 2) / 3))%Z.
Definition sum_size (f : string → Z) (l : list string) : Z := foldr (λ r n, (f r + n)%Z) 0%Z l.

Definition certificates_message (certs : list string) (more : bool) : message := mkMessage "certificates" "" [] more certs.

(** encoding/json: the size of a message, and a text after it was marshalled and unmarshalled.  A byte of a text takes six at most (an escape). *)
Class HandoverJSON := {
  json_size : message → Z;
  json_text : string → string;
  json_text_valid : ∀ s, utf8.ValidString s = true → json_text s = s;
  json_size_sockets : ∀ epoch keys more,
    (json_size (mkMessage "sockets" epoch keys more []) ≤ 49 + 6 * len epoch + sum_size (λ k, 6 * len k + 3) keys)%Z;
  json_size_certificates : ∀ certs more, Forall (λ r, r ≠ "") certs →
    json_size (certificates_message certs more) =
      (21 + (if more then 12 else 0) + match certs with [] => 0 | _ => 11 + sum_size json_record_size certs + (Z.of_nat (length certs) - 1) end)%Z;
}.

Section protocol.
Context `{GoRuntime} `{HandoverJSON}.

(** What the kernel makes of the sockets of a datagram: new descriptors. *)
Definition new_files (next : nat) (rights : list nat) : list File := imap (λ i socket, mkFile (next + i) socket) rights.

Definition json_message (m : message) : message :=
  mkMessage (json_text (m_Op m)) (json_text (m_Epoch m)) (json_text <$> m_Keys m) (m_More m) (m_Certs m).

(** receive of a datagram that arrived.  A message or a list of sockets that does not fit the buffers is malformed, and what did arrive is closed. *)
Definition receive (next : nat) (d : Datagram) : list File + message * list File :=
  let files := new_files next (firstn socketsPerSend (d_rights d)) in
  if (maxMessage <? json_size (d_message d))%Z || (socketsPerSend <? length (d_rights d))%nat then inl files
  else inr (json_message (d_message d), files).

Definition mapFiles (m : gmap string File) : list File := snd <$> range 49 m.

Definition add_files (m : gmap string File) (keys : list string) (files : list File) : gmap string File :=
  foldl (λ m kf, <[kf.1 := kf.2]> m) m (zip keys files).

(** What inherit has got when it stops reading: the files it closed, and the result. *)
Record Inheritance := mkInheritance { i_Epoch : string; i_Certificates : list string; i_inherited : gmap string File }.

(** The first loop of inherit.  The datagrams are those that arrive before the connection ends or the deadline passes. *)
Fixpoint inherit_sockets (next : nat) (inherited : gmap string File) (epoch : string) (arriving : list Datagram) :
    list File + gmap string File * string * nat * list Datagram :=
  match arriving with
  | [] => inl (mapFiles inherited)
  | d :: rest =>
      match receive next d with
      | inl files => inl (files ++ mapFiles inherited)
      | inr (m, files) =>
          if negb (String.eqb (m_Op m) "sockets") || String.eqb (m_Epoch m) "" || negb (length (m_Keys m) =? length files)%nat
             || (negb (String.eqb epoch "") && negb (String.eqb (m_Epoch m) epoch))
          then inl (files ++ mapFiles inherited)
          else
            let inherited := add_files inherited (m_Keys m) files in
            let next := (next + length files)%nat in
            if m_More m then inherit_sockets next inherited (m_Epoch m) rest else inr (inherited, m_Epoch m, next, rest)
      end
  end.

(** The second loop: the files that it closed, and the certificates. *)
Fixpoint inherit_certificates (next : nat) (certs : list string) (arriving : list Datagram) : list File * option (list string * list Datagram) :=
  match arriving with
  | [] => ([], None)
  | d :: rest =>
      match receive next d with
      | inl files => (files, None)
      | inr (m, files) =>
          if negb (String.eqb (m_Op m) "certificates") then (files, None)
          else if m_More m
          then let '(closed, r) := inherit_certificates (next + length files) (certs ++ m_Certs m) rest in (files ++ closed, r)
          else (files, Some (certs ++ m_Certs m, rest))
      end
  end.

(** inherit: the files that were closed, the inheritance unless it failed, and the datagrams not read yet. *)
Definition inherit (peer : bool) (next : nat) (arriving : list Datagram) : list File * option (Inheritance * list Datagram) :=
  if negb peer then ([], None)
  else match inherit_sockets next ∅ "" arriving with
  | inl closed => (closed, None)
  | inr (inherited, epoch, next, rest) =>
      match inherit_certificates next [] rest with
      | (closed, None) => (closed ++ mapFiles inherited, None)
      | (closed, Some (certs, rest)) => (closed, Some (mkInheritance epoch certs inherited, rest))
      end
  end.

(** The set of sockets of a process that inherited. *)
Definition inheriting (i : Inheritance) : sockets := mkSockets (i_inherited i) ∅ ∅ false false false.

(** Ready, once the old process has answered: the new set, and the files that are closed. *)
Definition take_over (s : sockets) : sockets * list File :=
  (mkSockets ∅ (owned s) (tcp s) true (udp s) (released s), mapFiles (inherited s)).

(** The goroutine of Ready, once receive returned. *)
Definition open_udp (s : sockets) : sockets := mkSockets (inherited s) (owned s) (tcp s) (accept s) true (released s).

(** ** The serving side *)

Definition slice {A} (l : list A) (i j : nat) : list A := firstn (j - i) (skipn i l).

(** The loop of offer that sends the sockets; [fuel] bounds the number of datagrams. *)
Fixpoint offer_sockets (fuel : nat) (epoch : string) (owned : list (string * File)) (start : nat) : list Datagram :=
  match fuel with
  | O => []
  | S fuel =>
      if (start =? 0)%nat || (start <? length owned)%nat
      then
        let end_ := Nat.min (start + socketsPerSend) (length owned) in
        let part := slice owned start end_ in
        mkDatagram (mkMessage "sockets" epoch (part.*1) (end_ <? length owned)%nat []) (f_socket <$> part.*2)
          :: offer_sockets fuel epoch owned (start + socketsPerSend)
      else []
  end.

(** The loop of sendCertificates. *)
Fixpoint certificate_batches (batch : list string) (size : Z) (records : list string) : list Datagram :=
  match records with
  | [] => [mkDatagram (certificates_message batch false) []]
  | record :: records =>
      if (certBatchBytes <? len record)%Z then certificate_batches batch size records
      else if (certBatchBytes <? size + len record)%Z
      then mkDatagram (certificates_message batch true) [] :: certificate_batches [record] (len record) records
      else certificate_batches (batch ++ [record]) (size + len record) records
  end.

Definition sendCertificates (records : list string) : list Datagram := certificate_batches [] 0 records.

(** Everything that offer sends before it waits for "ready". *)
Definition offer_messages (s : sockets) (epoch : string) (records : list string) : list Datagram :=
  offer_sockets (S (length (snapshot s))) epoch (snapshot s) 0 ++ sendCertificates records.

Definition plain_datagram (op : string) : Datagram := mkDatagram (mkMessage op "" [] false []) [].
End protocol.

(** * The handover transfers everything *)

(** Inserting the pairs of a list one after the other. *)
Definition insert_all {A} (l : list (string * A)) (m : gmap string A) : gmap string A := foldl (λ m kv, <[kv.1 := kv.2]> m) m l.

Lemma insert_all_fmap {A B} (f : A → B) l (m : gmap string A) : f <$> insert_all l m = insert_all (prod_map id f <$> l) (f <$> m).
Proof. revert m; induction l as [|[k x] l IH]; intros m; [done|]. simpl. by rewrite IH, fmap_insert. Qed.

Lemma insert_all_lookup {A} (l : list (string * A)) m k : NoDup l.*1 →
  insert_all l m !! k = match list_to_map (M := gmap string A) l !! k with Some x => Some x | None => m !! k end.
Proof.
  revert m; induction l as [|[k' x] l IH]; intros m Hnd; simpl; [by rewrite lookup_empty|]. apply NoDup_cons in Hnd as [Hk Hnd]. rewrite IH by done.
  destruct (decide (k' = k)) as [->|Hne].
  - rewrite !lookup_insert_eq. by rewrite (not_elem_of_list_to_map_1 (M := gmap string) l k Hk).
  - by rewrite !lookup_insert_ne.
Qed.

Section transfer.
Context `{GoRuntime} `{HandoverJSON}.

Lemma new_files_sockets next rights : f_socket <$> new_files next rights = rights.
Proof.
  unfold new_files. apply list_eq. intros i. rewrite list_lookup_fmap, list_lookup_imap. by destruct (rights !! i).
Qed.

Lemma new_files_length next rights : length (new_files next rights) = length rights.
Proof. apply length_imap. Qed.

Lemma insert_all_range n {A} (m : gmap string A) : insert_all (range n m) ∅ = m.
Proof.
  apply map_eq. intros k. rewrite insert_all_lookup by (rewrite range_perm; apply NoDup_fst_map_to_list). rewrite lookup_empty.
  destruct (list_to_map (M := gmap string A) (range n m) !! k) as [x|] eqn:E.
  - apply elem_of_list_to_map_2, elem_of_range in E. done.
  - destruct (m !! k) as [x|] eqn:Hk; [|done]. apply not_elem_of_list_to_map_2 in E. destruct E. apply list_elem_of_fmap. exists (k, x). split; [done|].
    by apply elem_of_range.
Qed.

(** ** Sockets *)

Lemma offer_sockets_step fuel epoch l start : (start = 0 ∨ start < length l)%nat →
  offer_sockets (S fuel) epoch l start =
    mkDatagram (mkMessage "sockets" epoch ((firstn socketsPerSend (skipn start l)).*1) (start + socketsPerSend <? length l)%nat [])
      (f_socket <$> (firstn socketsPerSend (skipn start l)).*2) :: offer_sockets fuel epoch l (start + socketsPerSend).
Proof.
  intros Hs. cbn [offer_sockets]. destruct (_ || _) eqn:Hg; [|apply orb_false_iff in Hg as [Hz Hl]; apply Nat.eqb_neq in Hz; apply Nat.ltb_ge in Hl; lia].
  assert (Hsl : slice l start (Nat.min (start + socketsPerSend) (length l)) = firstn socketsPerSend (skipn start l)).
  { unfold slice. destruct (Nat.le_gt_cases (start + socketsPerSend) (length l)).
    - rewrite Nat.min_l by done. f_equal. lia.
    - rewrite Nat.min_r by lia. rewrite !take_ge; [done| |]; rewrite length_drop; lia. }
  rewrite Hsl. do 3 f_equal.
  destruct (Nat.ltb_spec (start + socketsPerSend) (length l)); destruct (Nat.ltb_spec (Nat.min (start + socketsPerSend) (length l)) (length l)); lia || done.
Qed.

Lemma offer_sockets_end fuel epoch l start : (start ≠ 0)%nat → (length l ≤ start)%nat → offer_sockets fuel epoch l start = [].
Proof.
  intros Hz Hl. destruct fuel; [done|]. cbn [offer_sockets]. by rewrite (proj2 (Nat.eqb_neq _ _)), (proj2 (Nat.ltb_ge _ _)) by done.
Qed.

(** Every datagram of sockets fits the buffers of the receiver, and names in UTF-8 arrive as they were. *)
Definition sockets_fit (epoch : string) (l : list (string * File)) : Prop :=
  epoch ≠ "" ∧ utf8.ValidString epoch = true ∧ (∀ k, k ∈ l.*1 → utf8.ValidString k = true) ∧
  ∀ part more, part ⊆+ l.*1 → (length part ≤ socketsPerSend)%nat → (json_size (mkMessage "sockets" epoch part more []) ≤ maxMessage)%Z.

(** They do when the epoch and the names are UTF-8 and not long. *)
Definition names_plain (epoch : string) (owned : gmap string File) : Prop :=
  epoch ≠ "" ∧ utf8.ValidString epoch = true ∧ (len epoch ≤ 128)%Z ∧
  ∀ k f, owned !! k = Some f → utf8.ValidString k = true ∧ (len k ≤ 200)%Z.

Lemma sum_size_bound (f : string → Z) n l : (∀ k, k ∈ l → (f k ≤ n)%Z) → (sum_size f l ≤ n * Z.of_nat (length l))%Z.
Proof.
  induction l as [|k l IH]; intros Hl; simpl; [lia|]. pose proof (Hl k ltac:(left)). pose proof (IH (λ x Hx, Hl x ltac:(by right))). lia.
Qed.

Lemma names_plain_fit epoch s : names_plain epoch (owned s) → sockets_fit epoch (snapshot s).
Proof.
  intros (He & Hu & Hlen & Hnames).
  assert (Hk : ∀ k, k ∈ (snapshot s).*1 → utf8.ValidString k = true ∧ (len k ≤ 200)%Z).
  { intros k ([k' f] & -> & Hin)%list_elem_of_fmap. apply elem_of_range in Hin. by eapply Hnames. }
  split_and!; [done|done|intros k Hin; by apply Hk|]. intros part more Hsub Hn. etrans; [apply json_size_sockets|].
  assert (Hs : (sum_size (λ k, 6 * len k + 3) part ≤ 1203 * Z.of_nat (length part))%Z).
  { apply sum_size_bound. intros k Hin. destruct (Hk k) as [_ ?]; [by eapply elem_of_submseteq|lia]. }
  change maxMessage with 262144%Z. unfold socketsPerSend in Hn. lia.
Qed.

Lemma receive_sockets next epoch l part more : sockets_fit epoch l → part ⊆+ l → (length part ≤ socketsPerSend)%nat →
  receive next (mkDatagram (mkMessage "sockets" epoch part.*1 more []) (f_socket <$> part.*2)) =
    inr (mkMessage "sockets" epoch part.*1 more [], new_files next (f_socket <$> part.*2)).
Proof.
  intros (_ & Hu & Hk & Hfit) Hsub Hlen. unfold receive. cbn [d_message d_rights].
  rewrite (proj2 (Z.ltb_ge _ _)); [|apply Hfit; [by apply fmap_submseteq|by rewrite length_fmap]].
  rewrite (proj2 (Nat.ltb_ge _ _)) by (rewrite !length_fmap; lia). rewrite take_ge by (rewrite !length_fmap; lia). simpl. unfold json_message. simpl.
  rewrite !json_text_valid by done. do 3 f_equal. rewrite <-(list_fmap_id part.*1) at 2. apply list_fmap_ext. intros i k Hi. apply json_text_valid, Hk.
  apply list_elem_of_lookup_2 in Hi. eapply elem_of_submseteq; [done|by apply fmap_submseteq].
Qed.

Lemma add_files_sockets m next part :
  f_socket <$> add_files m part.*1 (new_files next (f_socket <$> part.*2)) = insert_all (prod_map id f_socket <$> part) (f_socket <$> m).
Proof.
  unfold add_files. change (foldl _ m ?l) with (insert_all l m). rewrite insert_all_fmap. f_equal. generalize (new_files_sockets next (f_socket <$> part.*2)).
  generalize (new_files next (f_socket <$> part.*2)). induction part as [|[k f] part IH]; intros [|g files] Hf; simplify_eq/=; [done|].
  rewrite IH by done. congruence.
Qed.

Lemma inherit_sockets_all fuel epoch l start next m epoch0 rest : sockets_fit epoch l → (start = 0 ∨ start < length l)%nat → (length l < start + fuel)%nat →
  (epoch0 = "" ∨ epoch0 = epoch) →
  ∃ m' next', inherit_sockets next m epoch0 (offer_sockets fuel epoch l start ++ rest) = inr (m', epoch, next', rest) ∧
    f_socket <$> m' = insert_all (prod_map id f_socket <$> skipn start l) (f_socket <$> m).
Proof.
  intros Hfit. revert start next m epoch0. induction fuel as [|fuel IH]; intros start next m epoch0 Hs Hf He; [lia|].
  rewrite offer_sockets_step by done. cbn [app inherit_sockets]. set (part := firstn socketsPerSend (skipn start l)).
  rewrite (receive_sockets _ _ l) by first [done|unfold part; rewrite ?length_take; lia|apply sublist_submseteq; etrans; [apply sublist_take|apply sublist_drop]].
  cbn [m_Op m_Epoch m_Keys m_More]. pose proof Hfit as (Hne & _). rewrite new_files_length, !length_fmap, Nat.eqb_refl, (proj2 (String.eqb_neq _ _) Hne). simpl.
  assert (Hep : negb (String.eqb epoch0 "") && negb (String.eqb epoch epoch0) = false).
  { destruct He as [-> | ->]; [done|]. by rewrite String.eqb_refl, andb_false_r. }
  rewrite Hep. destruct (Nat.ltb_spec (start + socketsPerSend) (length l)) as [Hmore|Hend].
  - destruct (IH (start + socketsPerSend)%nat (next + length part)%nat (add_files m part.*1 (new_files next (f_socket <$> part.*2))) epoch) as (m' & next' & -> & Hm');
      [lia|unfold socketsPerSend; lia|by right|].
    exists m', next'. split; [done|]. rewrite Hm', add_files_sockets. unfold insert_all. rewrite <-foldl_app, <-fmap_app. do 2 f_equal.
    rewrite <-(take_drop socketsPerSend (skipn start l)). by rewrite drop_drop.
  - eexists _, _. rewrite offer_sockets_end by (unfold socketsPerSend in *; lia). split; [done|]. rewrite add_files_sockets. do 2 f_equal. unfold part.
    apply take_ge. rewrite length_drop. lia.
Qed.

(** ** Certificates *)

Definition small (record : string) : bool := (len record <=? certBatchBytes)%Z.

Lemma record_size_bound record : (8 ≤ len record)%Z → (10 * (json_record_size record + 1) ≤ 19 * len record)%Z.
Proof. unfold json_record_size. intros Hl. Z.to_euclidean_division_equations. lia. Qed.

Definition records_size : list string → Z := sum_size len.

Lemma sum_size_app f l k : sum_size f (l ++ k) = (sum_size f l + sum_size f k)%Z.
Proof. induction l as [|x l IH]; simpl; [lia|]. rewrite IH. lia. Qed.

(** A batch that is not larger than certBatchBytes stays under maxMessage in JSON. *)
Lemma batch_fits batch more : Forall (λ r, (8 ≤ len r)%Z) batch → (records_size batch ≤ certBatchBytes)%Z →
  (json_size (certificates_message batch more) ≤ maxMessage)%Z.
Proof.
  intros Hall Hsz. rewrite json_size_certificates by (eapply Forall_impl; [exact Hall|]; by intros ? ? ->).
  assert (Hsum : (10 * (sum_size json_record_size batch + Z.of_nat (length batch)) ≤ 19 * records_size batch)%Z).
  { clear Hsz. induction Hall as [|r batch Hr _ IH]; [done|]. pose proof (record_size_bound r Hr). unfold records_size in *. simpl. lia. }
  change certBatchBytes with 131072%Z in *. change maxMessage with 262144%Z. destruct batch as [|r batch]; destruct more; lia.
Qed.

Lemma receive_certificates next batch more : Forall (λ r, (8 ≤ len r)%Z) batch → (records_size batch ≤ certBatchBytes)%Z →
  receive next (mkDatagram (certificates_message batch more) []) = inr (certificates_message batch more, []).
Proof.
  intros Hall Hsz. unfold receive. cbn [d_message d_rights length]. rewrite (proj2 (Z.ltb_ge _ _)) by by apply batch_fits. simpl.
  unfold json_message. simpl. by rewrite !json_text_valid.
Qed.

Lemma inherit_certificates_all records batch next certs rest : Forall (λ r, (8 ≤ len r)%Z) batch → Forall (λ r, (8 ≤ len r)%Z) records →
  (records_size batch ≤ certBatchBytes)%Z →
  inherit_certificates next certs (certificate_batches batch (records_size batch) records ++ rest) =
    ([], Some (certs ++ batch ++ List.filter small records, rest)).
Proof.
  revert batch certs. induction records as [|r records IH]; intros batch certs Hb Hr Hsz; cbn [certificate_batches].
  - cbn [app inherit_certificates]. rewrite receive_certificates by done. simpl. by rewrite app_nil_r.
  - apply Forall_cons in Hr as [Hr Hrs]. simpl List.filter. unfold small at 1. destruct (Z.ltb_spec certBatchBytes (len r)) as [Hbig|Hsmall].
    { rewrite (proj2 (Z.leb_gt _ _)) by done. by apply IH. }
    rewrite (proj2 (Z.leb_le _ _)) by done. destruct (Z.ltb_spec certBatchBytes (records_size batch + len r)) as [Hfull|Hroom].
    + cbn [app inherit_certificates]. rewrite receive_certificates by done. cbn [m_Op m_More m_Certs certificates_message length]. rewrite String.eqb_refl. simpl.
      replace (len r) with (records_size [r]) by (unfold records_size; simpl; lia). rewrite Nat.add_0_r.
      rewrite IH; [|by repeat constructor|done|unfold records_size; simpl; lia]. by rewrite <-app_assoc.
    + assert (Hsum : (records_size batch + len r)%Z = records_size (batch ++ [r])).
      { unfold records_size. rewrite sum_size_app. simpl. lia. }
      rewrite Hsum in *. rewrite IH; [by rewrite <-!app_assoc|apply Forall_app; by repeat constructor|done|done].
Qed.

Lemma batches_fit records batch d : Forall (λ r, (8 ≤ len r)%Z) batch → Forall (λ r, (8 ≤ len r)%Z) records → (records_size batch ≤ certBatchBytes)%Z →
  d ∈ certificate_batches batch (records_size batch) records → (json_size (d_message d) ≤ maxMessage)%Z.
Proof.
  revert batch. induction records as [|r records IH]; intros batch Hb Hr Hsz; cbn [certificate_batches].
  - rewrite list_elem_of_singleton. intros ->. by apply batch_fits.
  - apply Forall_cons in Hr as [Hr Hrs]. destruct (Z.ltb_spec certBatchBytes (len r)) as [Hbig|Hsmall]; [by apply IH|].
    destruct (Z.ltb_spec certBatchBytes (records_size batch + len r)) as [Hfull|Hroom].
    + intros [->|Hd]%elem_of_cons; [by apply batch_fits|]. replace (len r) with (records_size [r]) in Hd by (unfold records_size; simpl; lia).
      eapply IH; [| |idtac|exact Hd]; [by repeat constructor|done|unfold records_size; simpl; lia].
    + assert (Hsum : (records_size batch + len r)%Z = records_size (batch ++ [r])) by (unfold records_size; rewrite sum_size_app; simpl; lia).
      rewrite Hsum in *. apply IH; [apply Forall_app; by repeat constructor|done|done].
Qed.

Lemma offer_sockets_fit fuel epoch l start d : sockets_fit epoch l → d ∈ offer_sockets fuel epoch l start →
  (json_size (d_message d) ≤ maxMessage)%Z ∧ (length (d_rights d) ≤ socketsPerSend)%nat.
Proof.
  intros Hfit. revert start. induction fuel as [|fuel IH]; intros start; [by intros ?%elem_of_nil|].
  destruct (decide (start = 0 ∨ start < length l)%nat) as [Hs|Hs].
  - rewrite offer_sockets_step by done. intros [->|Hd]%elem_of_cons; [|by eapply IH]. cbn [d_message d_rights]. rewrite !length_fmap, length_take. split; [|lia].
    apply Hfit; [|rewrite length_fmap, length_take; lia]. apply sublist_submseteq. apply fmap_sublist. etrans; [apply sublist_take|apply sublist_drop].
  - rewrite offer_sockets_end by lia. by intros ?%elem_of_nil.
Qed.

(** ** Both *)

Lemma inherit_offered s epoch records next rest : sockets_fit epoch (snapshot s) → Forall (λ r, (8 ≤ len r)%Z) records →
  ∃ m, inherit true next (offer_messages s epoch records ++ rest) = ([], Some (mkInheritance epoch (List.filter small records) m, rest)) ∧
    f_socket <$> m = f_socket <$> owned s.
Proof.
  intros Hfit Hrec. unfold inherit, offer_messages. rewrite <-app_assoc. simpl negb.
  destruct (inherit_sockets_all (S (length (snapshot s))) epoch (snapshot s) 0 next ∅ "" (sendCertificates records ++ rest)) as (m & next' & -> & Hm);
    [done|by left|lia|by left|].
  unfold sendCertificates. change 0%Z with (records_size []). rewrite inherit_certificates_all by (done || constructor). exists m. split; [done|].
  rewrite Hm. unfold snapshot. rewrite drop_0. change (f_socket <$> ∅) with (f_socket <$> (∅ : gmap string File)). rewrite <-insert_all_fmap.
  by rewrite insert_all_range.
Qed.
End transfer.
