(* ===== verification/HandoverWorld.v ===== *)
(** * Two processes hand over

    The serving process and its replacement run side by side, each opening and closing sockets of its own meanwhile; either side may fail or
    exit at any point.  Once the new process accepts it is the serving process of the next handover, while the one it replaced, and those before, may still drain.  A process that starts
    when none answers binds sockets of its own and begins another run. *)
From S2P Require Import Prelude GoStd GoData GoNet GoEnc Handover.

(** ** A process by itself *)

(** The process has, or had, a descriptor of the socket. *)
Definition holds (p : process) (s : nat) : Prop :=
  (∃ k f, inherited (p_set p) !! k = Some f ∧ f_socket f = s) ∨ (∃ k f, owned (p_set p) !! k = Some f ∧ f_socket f = s) ∨
  (∃ l v, p_listeners p !! l = Some v ∧ l_socket v = s) ∨ ∃ c v, p_packets p !! c = Some v ∧ pc_socket v = s.

(** It has a listener on the socket whose descriptor is open. *)
Definition listens (p : process) (s : nat) : Prop := ∃ l v, p_listeners p !! l = Some v ∧ l_inner v = true ∧ l_socket v = s.

(** It accepts connections, or reads datagrams, on the socket. *)
Definition accepting (p : process) (s : nat) : Prop := accept (p_set p) = true ∧ listens p s.
Definition reading (p : process) (s : nat) : Prop := udp (p_set p) = true ∧ ∃ c v, p_packets p !! c = Some v ∧ pc_closed v = false ∧ pc_socket v = s.

(** What a process does by itself.  [n] has not been used for a socket or a pointer before. *)
Inductive proc_step (n : nat) (p : process) : process → Prop :=
  | do_listen k answer : answer ∈ [Failed; Unnamed n; Bound n n] → proc_step n p (listen p k answer n)
  | do_listenPacket k answer : answer ∈ [Failed; Unnamed n; Bound n n] → proc_step n p (listenPacket p k answer n)
  | do_Close l : proc_step n p (listener_Close p l)
  | do_packet_Close c : proc_step n p (packetConn_Close p c).

Definition exited (p : process) : process :=
  mkProcess (p_set p) (with_closed <$> p_listeners p) ((λ v, mkPacketConn (pc_key v) (pc_file v) (pc_socket v) true) <$> p_packets p).

(** A descriptor that is open is registered, and a listener that was not closed has its descriptor. *)
Definition sound (p : process) : Prop :=
  ∀ l v, p_listeners p !! l = Some v → (l_inner v = true → l ∈ tcp (p_set p)) ∧ (l_closed v = false → l_inner v = true).

Record bounded (n : nat) (p : process) : Prop := {
  bd_inherited : ∀ k f, inherited (p_set p) !! k = Some f → (f_socket f < n)%nat;
  bd_owned : ∀ k f, owned (p_set p) !! k = Some f → (f_socket f < n)%nat;
  bd_listener : ∀ l v, p_listeners p !! l = Some v → (l_socket v < n)%nat;
  bd_packet : ∀ c v, p_packets p !! c = Some v → (pc_socket v < n)%nat;
}.

(** What a step can do to the listeners. *)
Record grows (n : nat) (p p' : process) : Prop := {
  gr_accept : accept (p_set p') = accept (p_set p);
  gr_udp : udp (p_set p') = udp (p_set p);
  gr_released : released (p_set p') = released (p_set p);
  gr_inherited : inherited (p_set p') ⊆ inherited (p_set p);
  gr_owned : ∀ k f, owned (p_set p') !! k = Some f → owned (p_set p) !! k = Some f ∨ f_socket f = n ∨ inherited (p_set p) !! k = Some f;
  gr_listeners : ∀ l v', p_listeners p' !! l = Some v' →
    (∃ v, p_listeners p !! l = Some v ∧ l_socket v' = l_socket v ∧ (l_inner v' = true → l_inner v = true)) ∨
    l_socket v' = n%nat ∨ ∃ k f, inherited (p_set p) !! k = Some f ∧ f_socket f = l_socket v';
  gr_packets : ∀ c v', p_packets p' !! c = Some v' →
    (∃ v, p_packets p !! c = Some v ∧ pc_socket v' = pc_socket v) ∨ pc_socket v' = n ∨ ∃ k f, inherited (p_set p) !! k = Some f ∧ f_socket f = pc_socket v';
}.

Lemma grows_refl n p : grows n p p.
Proof. split; try done; by eauto 10. Qed.

(** The socket that a listen gets: the inherited one of its name, or a new one. *)
Lemma open_socket_spec s k answer n : answer ∈ [Failed; Unnamed n; Bound n n] → ∃ r, open_socket s k answer = (set_inherited s (delete k (inherited s)), r) ∧
  ∀ file socket, r = Some (file, socket) → (∃ f, inherited s !! k = Some f ∧ file = Some f ∧ f_socket f = socket) ∨
    socket = n ∧ (file = None ∨ ∃ f, file = Some f ∧ f_socket f = n).
Proof.
  intros Ha. unfold open_socket, take. destruct (inherited s !! k) as [f|]; eexists; (split; [done|]); intros file socket.
  - destruct answer; intros [= <- <-]; by eauto 10.
  - set_unfold in Ha. destruct Ha as [->|[->|[->|[]]]]; intros [= <- <-]; right; by eauto 10.
Qed.

Lemma owned_own s k file k' f : owned (own s k file) !! k' = Some f → owned s !! k' = Some f ∨ k' = k ∧ file = Some f.
Proof. destruct file as [g|]; simpl; [|by left]. rewrite lookup_insert_Some. intros [[-> ->]|[_ ?]]; by auto. Qed.

Lemma own_fields s k file : inherited (own s k file) = inherited s ∧ tcp (own s k file) = tcp s ∧ accept (own s k file) = accept s ∧ udp (own s k file) = udp s ∧
  released (own s k file) = released s.
Proof. by destruct file. Qed.

Lemma listen_grows p k answer n : answer ∈ [Failed; Unnamed n; Bound n n] → grows n p (listen p k answer n).
Proof.
  intros Ha. unfold listen. destruct (open_socket_spec (p_set p) k answer n Ha) as ([[file socket]|] & -> & Hspec); [|split; simpl; try done; [apply delete_subseteq|by eauto..]].
  specialize (Hspec _ _ eq_refl). pose proof (own_fields (set_inherited (p_set p) (delete k (inherited (p_set p)))) k file) as (Hi & Ht & Hac & Hu & Hr).
  split; simpl; rewrite ?Hi, ?Hac, ?Hu, ?Hr; simpl; try done; [apply delete_subseteq| | |].
  - intros k' f [?|[-> ->]]%owned_own; [by left|]. destruct Hspec as [(f' & ? & [= <-] & _)|[_ [?|(f' & [= <-] & ?)]]]; by auto.
  - intros l v'. rewrite lookup_insert_Some. intros [[<- <-]|[_ ?]]; [|by eauto]. right. destruct Hspec as [(f & ? & _ & ?)|[-> _]]; simpl; by eauto.
  - by eauto.
Qed.

Lemma listenPacket_grows p k answer n : answer ∈ [Failed; Unnamed n; Bound n n] → grows n p (listenPacket p k answer n).
Proof.
  intros Ha. unfold listenPacket. destruct (open_socket_spec (p_set p) k answer n Ha) as ([[file socket]|] & -> & Hspec); [|split; simpl; try done; [apply delete_subseteq|by eauto..]].
  specialize (Hspec _ _ eq_refl). pose proof (own_fields (set_inherited (p_set p) (delete k (inherited (p_set p)))) k file) as (Hi & Ht & Hac & Hu & Hr).
  split; simpl; rewrite ?Hi, ?Hac, ?Hu, ?Hr; simpl; try done; [apply delete_subseteq| |by eauto|].
  - intros k' f [?|[-> ->]]%owned_own; [by left|]. destruct Hspec as [(f' & ? & [= <-] & _)|[_ [?|(f' & [= <-] & ?)]]]; by auto.
  - intros c v'. rewrite lookup_insert_Some. intros [[<- <-]|[_ ?]]; [|by eauto]. right. destruct Hspec as [(f & ? & _ & ?)|[-> _]]; simpl; by eauto.
Qed.

Lemma forget_fields s k file : inherited (forget s k file) = inherited s ∧ tcp (forget s k file) = tcp s ∧ accept (forget s k file) = accept s ∧
  udp (forget s k file) = udp s ∧ released (forget s k file) = released s ∧ owned (forget s k file) ⊆ owned s.
Proof. unfold forget. case_bool_decide; simpl; split_and!; try done. apply delete_subseteq. Qed.

Lemma Close_grows n p l : grows n p (listener_Close p l).
Proof.
  unfold listener_Close. destruct (p_listeners p !! l) as [v|] eqn:Hl; [|apply grows_refl]. destruct (l_closed v); [apply grows_refl|].
  pose proof (forget_fields (set_tcp (p_set p) (tcp (p_set p) ∖ {[l]})) (l_key v) (l_file v)) as (Hi & _ & Ha & Hu & Hr & Ho).
  split; simpl; try by rewrite ?Hi, ?Ha, ?Hu, ?Hr.
  - intros k f Hk. left. by eapply lookup_weaken.
  - intros l' v'. rewrite lookup_insert_Some. intros [[<- <-]|[_ ?]]; left; [by exists v|by eauto].
  - by eauto.
Qed.

Lemma packet_Close_grows n p c : grows n p (packetConn_Close p c).
Proof.
  unfold packetConn_Close. destruct (p_packets p !! c) as [v|] eqn:Hc; [|apply grows_refl]. destruct (pc_closed v); [apply grows_refl|].
  pose proof (forget_fields (p_set p) (pc_key v) (pc_file v)) as (Hi & _ & Ha & Hu & Hr & Ho). split; simpl; try by rewrite ?Hi, ?Ha, ?Hu, ?Hr.
  - intros k f Hk. left. by eapply lookup_weaken.
  - by eauto.
  - intros c' v'. rewrite lookup_insert_Some. intros [[<- <-]|[_ ?]]; left; [by exists v|by eauto].
Qed.

Lemma proc_step_grows n p p' : proc_step n p p' → grows n p p'.
Proof. destruct 1; [by apply listen_grows|by apply listenPacket_grows|apply Close_grows|apply packet_Close_grows]. Qed.

Lemma proc_step_sound n p p' : sound p → proc_step n p p' → sound p'.
Proof.
  intros Hs. destruct 1 as [k answer Ha|k answer Ha|l|c].
  - unfold listen. destruct (open_socket_spec (p_set p) k answer n Ha) as ([[file socket]|] & -> & _); [|done].
    pose proof (own_fields (set_inherited (p_set p) (delete k (inherited (p_set p)))) k file) as (_ & Ht & _).
    intros l v. simpl. rewrite Ht, lookup_insert_Some. simpl. intros [[<- <-]|[_ Hl]]; [split; [set_solver|done]|].
    destruct (Hs _ _ Hl). split; [set_solver|done].
  - unfold listenPacket. destruct (open_socket_spec (p_set p) k answer n Ha) as ([[file socket]|] & -> & _); [|done].
    pose proof (own_fields (set_inherited (p_set p) (delete k (inherited (p_set p)))) k file) as (_ & Ht & _). intros l v. simpl. rewrite Ht. apply Hs.
  - unfold listener_Close. destruct (p_listeners p !! l) as [v|] eqn:Hl; [|done]. destruct (l_closed v); [done|].
    pose proof (forget_fields (set_tcp (p_set p) (tcp (p_set p) ∖ {[l]})) (l_key v) (l_file v)) as (_ & Ht & _).
    intros l' v'. simpl. rewrite Ht, lookup_insert_Some. simpl. intros [[<- <-]|[Hne Hl']]; [done|]. destruct (Hs _ _ Hl'). split; [set_solver|done].
  - unfold packetConn_Close. destruct (p_packets p !! c) as [v|]; [|done]. destruct (pc_closed v); [done|].
    pose proof (forget_fields (p_set p) (pc_key v) (pc_file v)) as (_ & Ht & _). intros l v'. simpl. rewrite Ht. apply Hs.
Qed.

Lemma grows_bounded n p p' : bounded n p → grows n p p' → bounded (S n) p'.
Proof.
  intros [Hi Ho Hl Hc] [_ _ _ Gi Go Gl Gc]. split.
  - intros k f Hk. apply Nat.lt_lt_succ_r, (Hi k). by eapply lookup_weaken.
  - intros k f Hk. destruct (Go _ _ Hk) as [Hk'|[->|Hk']]; [apply Nat.lt_lt_succ_r; by eapply Ho|lia|apply Nat.lt_lt_succ_r; by eapply Hi].
  - intros l v Hv. destruct (Gl _ _ Hv) as [(v0 & Hv0 & -> & _)|[->|(k & f & Hk & <-)]]; [apply Nat.lt_lt_succ_r; by eapply Hl|lia|apply Nat.lt_lt_succ_r; by eapply Hi].
  - intros c v Hv. destruct (Gc _ _ Hv) as [(v0 & Hv0 & ->)|[->|(k & f & Hk & <-)]]; [apply Nat.lt_lt_succ_r; by eapply Hc|lia|apply Nat.lt_lt_succ_r; by eapply Hi].
Qed.

Lemma grows_holds n p p' s : grows n p p' → holds p' s → holds p s ∨ s = n.
Proof.
  intros [_ _ _ Gi Go Gl Gc] [(k & f & Hk & <-)|[(k & f & Hk & <-)|[(l & v & Hl & <-)|(c & v & Hc & <-)]]].
  - left. left. exists k, f. split; [by eapply lookup_weaken|done].
  - destruct (Go _ _ Hk) as [Hk'|[->|Hk']]; [left; right; left; by eauto|by right|left; left; by eauto].
  - destruct (Gl _ _ Hl) as [(v0 & Hv0 & -> & _)|[->|(k & f & Hk & <-)]]; [left; right; right; left; by eauto|by right|left; left; by eauto].
  - destruct (Gc _ _ Hc) as [(v0 & Hv0 & ->)|[->|(k & f & Hk & <-)]]; [left; right; right; right; by eauto|by right|left; left; by eauto].
Qed.

(** A process that has nothing inherited listens on what it did before, or on a new socket. *)
Lemma grows_listens n p p' s : grows n p p' → inherited (p_set p) = ∅ → listens p' s → listens p s ∨ s = n.
Proof.
  intros [_ _ _ _ _ Gl _] Hi (l & v & Hl & Hv & <-). destruct (Gl _ _ Hl) as [(v0 & Hv0 & -> & Hin)|[->|(k & f & Hk & _)]]; [left|by right|by rewrite Hi, lookup_empty in Hk].
  exists l, v0. by auto.
Qed.

Lemma grows_inherited n p p' : grows n p p' → inherited (p_set p) = ∅ → inherited (p_set p') = ∅.
Proof. intros Hg Hi. pose proof (gr_inherited _ _ _ Hg) as Hsub. rewrite Hi in Hsub. by apply (anti_symm (⊆)), map_empty_subseteq. Qed.

Lemma bounded_mono n m p : bounded n p → (n ≤ m)%nat → bounded m p.
Proof. intros [Hi Ho Hl Hc] Hle. split; intros k f Hk; [pose proof (Hi _ _ Hk)|pose proof (Ho _ _ Hk)|pose proof (Hl _ _ Hk)|pose proof (Hc _ _ Hk)]; lia. Qed.

Lemma bounded_holds n p s : bounded n p → holds p s → (s < n)%nat.
Proof. intros [Hi Ho Hl Hc] [(k & f & Hk & <-)|[(k & f & Hk & <-)|[(l & v & Hv & <-)|(c & v & Hv & <-)]]]; eauto. Qed.

Lemma listens_holds p s : listens p s → holds p s.
Proof. intros (l & v & Hl & _ & <-). right. right. left. by eauto. Qed.

(** The goal assumes membership of a list of constants that does not have it. *)
Ltac not_in := let Hx := fresh in intros Hx; repeat (apply elem_of_cons in Hx as [Hx|Hx]; [discriminate|]); by apply elem_of_nil in Hx.

Definition shut (p : process) : Prop := (∀ l v, p_listeners p !! l = Some v → l_inner v = false) ∧ (∀ c v, p_packets p !! c = Some v → pc_closed v = true).

Lemma shut_listens p s : shut p → ¬ listens p s.
Proof. intros [Hx _] (l & v & Hl & Hv & _). specialize (Hx _ _ Hl). congruence. Qed.

Lemma shut_accepting p s : shut p → ¬ accepting p s.
Proof. intros [Hx _] (_ & l & v & Hl & Hv & _). specialize (Hx _ _ Hl). congruence. Qed.

Lemma shut_reading p s : shut p → ¬ reading p s.
Proof. intros [_ Hx] (_ & c & v & Hc & Hv & _). specialize (Hx _ _ Hc). congruence. Qed.

(** ** The world *)

(** Where the serving process is in its exchange, and where the replacement is. *)
Inductive OldPhase := OIdle | OHello | OWait | ORelease (listeners : list nat) | OReleased | OExited.
Inductive NewPhase := NNone | NDial | NWarm | NReady | NServing | NUDP | NGone.

(** A process that was replaced and may still drain: what it sent to its replacement that was not read, and whether its end of that connection is open. *)
Record Past := mkPast { pt_proc : process; pt_oph : OldPhase; pt_queue : list Datagram; pt_open : bool }.

(** [w_past] has the processes before the serving one, the latest first. *)
Record World := mkWorld {
  w_past : list Past; w_old : process; w_new : process; w_oph : OldPhase; w_nph : NewPhase;
  w_toNew : list Datagram; w_toOld : list Datagram; w_open : bool; w_next : nat;
}.

Definition new_process : process := mkProcess fresh ∅ ∅.
Definition start : World := mkWorld [] new_process new_process OIdle NNone [] [] false 0.

Section world.
Context `{GoRuntime} `{HandoverJSON}.

Inductive handover_step : World → World → Prop :=
  (** Each process opens and closes sockets. *)
  | old_acts past old old' new o n qn qo c next : o ≠ OExited → proc_step next old old' →
      handover_step (mkWorld past old new o n qn qo c next) (mkWorld past old' new o n qn qo c (S next))
  | new_acts past old new new' o n qn qo c next : n ∈ [NWarm; NReady; NServing; NUDP] → proc_step next new new' →
      handover_step (mkWorld past old new o n qn qo c next) (mkWorld past old new' o n qn qo c (S next))
  (** A replacement connects and says hello. *)
  | new_dials past old new n qn qo c next : n ∈ [NNone; NGone] →
      handover_step (mkWorld past old new OIdle n qn qo c next) (mkWorld past old new_process OHello NDial [] [plain_datagram "hello"] true next)
  (** offer sends the sockets and the certificates. *)
  | old_offers past old new n qn qo c next epoch records :
      names_plain epoch (owned (p_set old)) → Forall (λ r, (8 ≤ len r)%Z) records →
      handover_step (mkWorld past old new OHello n qn (plain_datagram "hello" :: qo) c next)
        (mkWorld past old new OWait n (qn ++ offer_messages (p_set old) epoch records) qo c next)
  (** offer fails, perhaps after sending some of it, and closes the connection. *)
  | old_fails past old new o n qn qo c next epoch records sent : o ∈ [OHello; OWait] → (o = OHello ∧ sent `prefix_of` offer_messages (p_set old) epoch records ∨ sent = []) →
      handover_step (mkWorld past old new o n qn qo c next) (mkWorld past old new OIdle n (qn ++ sent) qo false next)
  (** The replacement inherits. *)
  | new_inherits past old new o qn qo c next closed i rest : inherit true next qn = (closed, Some (i, rest)) →
      handover_step (mkWorld past old new o NDial qn qo c next)
        (mkWorld past old (mkProcess (inheriting i) ∅ ∅) o NWarm rest qo c (next + length (concat (d_rights <$> qn))))
  | new_is_ready past old new o qn qo c next :
      handover_step (mkWorld past old new o NWarm qn qo c next) (mkWorld past old new o NReady qn (qo ++ [plain_datagram "ready"]) c next)
  (** offer reads "ready" and releases; the reply may be lost. *)
  | old_releases past old new n qn qo c next :
      handover_step (mkWorld past old new OWait n qn (plain_datagram "ready" :: qo) c next)
        (mkWorld past (mkProcess (release_mark (p_set old)).1 (p_listeners old) (p_packets old)) new (ORelease (release_mark (p_set old)).2) n qn qo c next)
  | old_closes past old new l ls n qn qo c next :
      handover_step (mkWorld past old new (ORelease (l :: ls)) n qn qo c next) (mkWorld past (release_close old l) new (ORelease ls) n qn qo c next)
  | old_replies past old new n qn qo c next reply : reply ∈ [[]; [plain_datagram "released"]] →
      handover_step (mkWorld past old new (ORelease []) n qn qo c next) (mkWorld past old new OReleased n (qn ++ reply) qo c next)
  (** Ready reads "released". *)
  | new_takes_over past old new o qn qo c next :
      handover_step (mkWorld past old new o NReady (plain_datagram "released" :: qn) qo c next)
        (mkWorld past old (mkProcess (take_over (p_set new)).1 (p_listeners new) (p_packets new)) o NServing qn qo c next)
  (** The goroutine of Ready: a datagram, or the end of the connection. *)
  | new_opens_udp past old new o qn qo c next : qn ≠ [] ∨ c = false →
      handover_step (mkWorld past old new o NServing qn qo c next)
        (mkWorld past old (mkProcess (open_udp (p_set new)) (p_listeners new) (p_packets new)) o NUDP (tail qn) qo c next)
  (** The replacement gives up, or the old process exits. *)
  | new_fails past old new o n qn qo c next : n ∈ [NDial; NWarm; NReady; NServing; NUDP] → handover_step (mkWorld past old new o n qn qo c next) (mkWorld past old (exited new) o NGone qn qo c next)
  | old_exits past old new o n qn qo c next : handover_step (mkWorld past old new o n qn qo c next) (mkWorld past (exited old) new OExited n qn qo false next)
  (** The replacement has taken over and offers in its turn. *)
  | succession past old new o n qn qo c next : n ∈ [NServing; NUDP] →
      handover_step (mkWorld past old new o n qn qo c next) (mkWorld (mkPast old o qn c :: past) new new_process OIdle NNone [] [] false next)
  (** The processes before open and close sockets, and exit. *)
  | past_acts past old new o n qn qo c next i p p' : past !! i = Some p → pt_oph p ≠ OExited → proc_step next (pt_proc p) p' →
      handover_step (mkWorld past old new o n qn qo c next)
        (mkWorld (<[i := mkPast p' (pt_oph p) (pt_queue p) (pt_open p)]> past) old new o n qn qo c (S next))
  | past_exits past old new o n qn qo c next i p : past !! i = Some p →
      handover_step (mkWorld past old new o n qn qo c next) (mkWorld (<[i := mkPast (exited (pt_proc p)) OExited (pt_queue p) false]> past) old new o n qn qo c next)
  (** The goroutine of Ready, in a process that has become the serving one, and in one that was replaced meanwhile. *)
  | old_opens_udp past old new o n qn qo c next p : past !! 0%nat = Some p → o ≠ OExited → udp (p_set old) = false → pt_queue p ≠ [] ∨ pt_open p = false →
      handover_step (mkWorld past old new o n qn qo c next)
        (mkWorld (<[0%nat := mkPast (pt_proc p) (pt_oph p) (tail (pt_queue p)) (pt_open p)]> past) (mkProcess (open_udp (p_set old)) (p_listeners old) (p_packets old)) new o n qn qo c next)
  | past_opens_udp past old new o n qn qo c next i q p : past !! i = Some q → past !! S i = Some p → pt_oph q ≠ OExited → udp (p_set (pt_proc q)) = false →
      pt_queue p ≠ [] ∨ pt_open p = false →
      handover_step (mkWorld past old new o n qn qo c next)
        (mkWorld (<[i := mkPast (mkProcess (open_udp (p_set (pt_proc q))) (p_listeners (pt_proc q)) (p_packets (pt_proc q))) (pt_oph q) (pt_queue q) (pt_open q)]>
           (<[S i := mkPast (pt_proc p) (pt_oph p) (tail (pt_queue p)) (pt_open p)]> past)) old new o n qn qo c next).

Definition handover_reach : World → Prop := rtc handover_step start.

(** ** The invariant *)

Definition no_release (q : list Datagram) : Prop := Forall (λ d, d ≠ plain_datagram "released") q.

(** The listeners that the old process has open beside those it is about to close are on sockets that the new one does not have. *)
Definition private_but (old new : process) (ls : list nat) : Prop :=
  ∀ l v, p_listeners old !! l = Some v → l_inner v = true → l ∈ ls ∨ ¬ holds new (l_socket v).

(** The old process, by its phase. *)
Definition old_ok (old new : process) (o : OldPhase) : Prop :=
  match o with
  | OIdle | OHello | OWait => released (p_set old) = false ∧ sound old
  | ORelease ls => released (p_set old) = true ∧ private_but old new ls
  | OReleased => released (p_set old) = true ∧ private_but old new []
  | OExited => shut old
  end.

(** The sockets that the serving process and its replacement have, or are about to have. *)
Definition all_rights (q : list Datagram) : list nat := concat (d_rights <$> q).
Definition known (old new : process) (qn : list Datagram) (s : nat) : Prop := holds old s ∨ holds new s ∨ s ∈ all_rights qn.

(** The processes that were replaced: none listens on a socket that a later one has, and one reads datagrams only when the one before it has exited. *)
Record chain_ok (past : list Past) (old new : process) (qn : list Datagram) (next : nat) : Prop := {
  ch_process i p : past !! i = Some p → bounded next (pt_proc p) ∧ inherited (p_set (pt_proc p)) = ∅ ∧ (pt_oph p = OExited → shut (pt_proc p)) ∧
    (pt_oph p = OExited ∨ pt_open p = true ∧ pt_queue p = []);
  ch_apart i p s : past !! i = Some p → known old new qn s → ¬ listens (pt_proc p) s;
  ch_older i j p q s : (i < j)%nat → past !! i = Some p → past !! j = Some q → listens (pt_proc q) s → ¬ holds (pt_proc p) s;
  ch_udp i y p : (old :: (pt_proc <$> past)) !! i = Some y → past !! i = Some p → udp (p_set y) = true → pt_oph p = OExited;
}.

(** The new process, by its phase and what it has still to read: whether "released" can be among it, and where the old process can be. *)
Definition new_ok (new : process) (o : OldPhase) (n : NewPhase) (qn : list Datagram) (c : bool) : Prop :=
  match n with
  | NNone | NGone => shut new
  | NDial => shut new ∧ match o with
      | OHello => qn = []
      | OWait => ∃ s epoch records, names_plain epoch (owned s) ∧ Forall (λ r, (8 ≤ len r)%Z) records ∧ qn = offer_messages s epoch records
      | OIdle | OExited => no_release qn
      | _ => False end
  | NWarm | NReady => accept (p_set new) = false ∧ udp (p_set new) = false ∧ match o with
      | OWait | ORelease _ => qn = []
      | OReleased => qn = [] ∨ qn = [plain_datagram "released"]
      | OExited => no_release qn ∨ qn = [plain_datagram "released"]
      | OIdle => no_release qn
      | OHello => False end
  | NServing => qn = [] ∧ udp (p_set new) = false ∧ (o = OReleased ∧ c = true ∨ o = OExited)
  | NUDP => o = OExited
  end.

Record world_ok (w : World) : Prop := {
  wo_old_bound : bounded (w_next w) (w_old w);
  wo_new_bound : bounded (w_next w) (w_new w);
  wo_rights : Forall (λ d, Forall (λ s, s < w_next w)%nat (d_rights d)) (w_toNew w);
  wo_old_set : (w_oph w ≠ OExited → accept (p_set (w_old w)) = true) ∧ inherited (p_set (w_old w)) = ∅;
  wo_old : old_ok (w_old w) (w_new w) (w_oph w);
  wo_new : new_ok (w_new w) (w_oph w) (w_nph w) (w_toNew w) (w_open w);
  wo_new_sound : w_nph w ∈ [NWarm; NReady; NServing; NUDP] → released (p_set (w_new w)) = false ∧ sound (w_new w);
  wo_serving : w_nph w ∈ [NServing; NUDP] → accept (p_set (w_new w)) = true ∧ inherited (p_set (w_new w)) = ∅;
  wo_toOld : w_nph w ∈ [NNone; NDial; NWarm] → plain_datagram "ready" ∉ w_toOld w;
  wo_link : w_oph w ∈ [OHello; OWait; OReleased] ∨ (∃ ls, w_oph w = ORelease ls) → w_open w = true;
  wo_chain : chain_ok (w_past w) (w_old w) (w_new w) (w_toNew w) (w_next w);
}.

(** ** What is sent *)

Lemma offer_sockets_spec fuel epoch l start d : d ∈ offer_sockets fuel epoch l start → d ≠ plain_datagram "released" ∧ d_rights d ⊆ f_socket <$> l.*2.
Proof.
  revert start. induction fuel as [|fuel IH]; intros start; simpl; [by intros ?%elem_of_nil|]. destruct (_ || _); [|by intros ?%elem_of_nil].
  intros [->|Hin]%elem_of_cons; [|by eapply IH]. split; [by intros [=]|]. simpl. intros x (f & -> & Hf)%list_elem_of_fmap. apply list_elem_of_fmap. exists f. split; [done|].
  apply list_elem_of_fmap in Hf as (kf & -> & Hf). apply list_elem_of_fmap. exists kf. split; [done|]. unfold slice in Hf.
  eapply elem_of_sublist; [exact Hf|]. etrans; [apply sublist_take|apply sublist_drop].
Qed.

Lemma certificate_batches_spec records batch size d : d ∈ certificate_batches batch size records → d ≠ plain_datagram "released" ∧ d_rights d = [].
Proof.
  revert batch size. induction records as [|r records IH]; intros batch size; simpl.
  - rewrite list_elem_of_singleton. intros ->. by split.
  - destruct (_ <? _)%Z; [by eauto|]. destruct (_ <? _)%Z; [|by eauto]. intros [->|Hin]%elem_of_cons; [by split|by eauto].
Qed.

Lemma offer_messages_spec s epoch records d : d ∈ offer_messages s epoch records →
  d ≠ plain_datagram "released" ∧ ∀ x, x ∈ d_rights d → ∃ k f, owned s !! k = Some f ∧ f_socket f = x.
Proof.
  unfold offer_messages. intros [Hd|Hd]%elem_of_app.
  - apply offer_sockets_spec in Hd as [Hne Hsub]. split; [done|]. intros x Hx. apply Hsub in Hx. apply list_elem_of_fmap in Hx as (f & -> & Hf).
    apply list_elem_of_fmap in Hf as ([k f'] & -> & Hf). apply elem_of_range in Hf. by eauto.
  - apply certificate_batches_spec in Hd as [Hne Hr]. split; [done|]. rewrite Hr. by intros x ?%elem_of_nil.
Qed.

(** ** What is inherited *)

Lemma add_files_in m keys files k f : add_files m keys files !! k = Some f → m !! k = Some f ∨ f ∈ files.
Proof.
  revert m files. induction keys as [|k' keys IH]; intros m [|g files]; try by left. cbn. intros [Hm|Hf]%IH; [|right; by right].
  apply lookup_insert_Some in Hm as [[_ <-]|[_ ?]]; [right; left|by left].
Qed.

Lemma new_files_in next rights f : f ∈ new_files next rights → f_socket f ∈ rights.
Proof. intros Hf. rewrite <-(new_files_sockets next rights). apply list_elem_of_fmap. by exists f. Qed.

Lemma receive_in next d m files f : receive next d = inr (m, files) → f ∈ files → f_socket f ∈ d_rights d.
Proof.
  unfold receive. destruct (_ || _); [done|]. intros [= _ <-] Hf. apply new_files_in in Hf. eapply elem_of_sublist; [exact Hf|apply sublist_take].
Qed.

Lemma inherit_sockets_in next m epoch q m' epoch' next' rest : inherit_sockets next m epoch q = inr (m', epoch', next', rest) →
  (∀ k f, m' !! k = Some f → m !! k = Some f ∨ f_socket f ∈ all_rights q) ∧ rest `suffix_of` q ∧ rest ≠ q.
Proof.
  revert next m epoch. induction q as [|d q IH]; intros next m epoch; cbn [inherit_sockets]; [done|].
  destruct (receive next d) as [|[msg files]] eqn:Hr; [done|]. destruct (_ || _); [done|].
  assert (Hadd : ∀ k f, add_files m (m_Keys msg) files !! k = Some f → m !! k = Some f ∨ f_socket f ∈ all_rights (d :: q)).
  { intros k f [?|Hf]%add_files_in; [by left|right]. unfold all_rights. simpl. apply elem_of_app. left. by eapply receive_in. }
  destruct (m_More msg).
  - intros (Hin & [front ->] & Hne)%IH. split_and!.
    + intros k f Hk. destruct (Hin _ _ Hk) as [?|?]; [by apply Hadd|right]. unfold all_rights. simpl. apply elem_of_app. by right.
    + by exists (d :: front).
    + intros Heq. apply (f_equal length) in Heq. simpl in Heq. rewrite length_app in Heq. lia.
  - intros [= <- <- <- <-]. split_and!; [done|by exists [d]|]. intros Heq. apply (f_equal length) in Heq. simpl in Heq. lia.
Qed.

Lemma inherit_certificates_suffix next certs q closed certs' rest : inherit_certificates next certs q = (closed, Some (certs', rest)) → rest `suffix_of` q.
Proof.
  revert next certs closed. induction q as [|d q IH]; intros next certs closed; cbn [inherit_certificates]; [done|].
  destruct (receive next d) as [|[msg files]]; [done|]. destruct (negb _); [done|]. destruct (m_More msg); [|intros [= _ _ <-]; by exists [d]].
  destruct (inherit_certificates _ _ _) as [closed' r] eqn:Hi. intros [= _ ->]. apply IH in Hi as [front ->]. by exists (d :: front).
Qed.

Lemma inherit_in next q closed i rest : inherit true next q = (closed, Some (i, rest)) →
  (∀ k f, i_inherited i !! k = Some f → f_socket f ∈ all_rights q) ∧ rest `suffix_of` q ∧ q ≠ [].
Proof.
  unfold inherit. simpl. destruct (inherit_sockets next ∅ "" q) as [|[[[m epoch] next'] rest']] eqn:Hs; [done|].
  apply inherit_sockets_in in Hs as (Hin & Hsuf & Hne). destruct (inherit_certificates _ _ _) as [c [[certs r]|]] eqn:Hc; [|done].
  intros [= _ <- <-]. simpl. split_and!.
  - intros k f Hk. destruct (Hin _ _ Hk) as [Hx|]; [by rewrite lookup_empty in Hx|done].
  - etrans; [by eapply inherit_certificates_suffix|done].
  - intros ->. apply suffix_nil_inv in Hsuf as ->. done.
Qed.

(** ** The steps *)

Lemma private_but_old n old old' new ls : grows n old old' → inherited (p_set old) = ∅ → bounded n new → private_but old new ls → private_but old' new ls.
Proof.
  intros Hg Hi Hb Hp l v Hl Hv. destruct (gr_listeners _ _ _ Hg _ _ Hl) as [(v0 & Hl0 & -> & Hin)|[->|(k & f & Hk & _)]]; [by eauto| |by rewrite Hi, lookup_empty in Hk].
  right. intros Hh. eapply bounded_holds in Hh; [|done]. lia.
Qed.

Lemma private_but_new n old new new' ls : (∀ s, holds new' s → holds new s ∨ (n ≤ s)%nat) → bounded n old → private_but old new ls → private_but old new' ls.
Proof.
  intros Hg [_ _ Hb _] Hp l v Hl Hv. destruct (Hp _ _ Hl Hv) as [?|Hn]; [by left|right]. intros [?|?]%Hg; [done|]. pose proof (Hb _ _ Hl). lia.
Qed.

Lemma old_ok_new n old new new' o : (∀ s, holds new' s → holds new s ∨ (n ≤ s)%nat) → bounded n old → old_ok old new o → old_ok old new' o.
Proof. intros Hg Hb. destruct o; simpl; try done; intros [? ?]; split; try done; by eapply private_but_new. Qed.

Lemma rights_mono n m q : (n ≤ m)%nat → Forall (λ d, Forall (λ s, s < n)%nat (d_rights d)) q → Forall (λ d, Forall (λ s, s < m)%nat (d_rights d)) q.
Proof. intros Hle Hq. eapply Forall_impl; [exact Hq|]. intros d Hd. eapply Forall_impl; [exact Hd|]. simpl. lia. Qed.

Lemma shut_new_process : shut new_process.
Proof. split; intros ? ?; simpl; by rewrite lookup_empty. Qed.

Lemma bounded_new_process n : bounded n new_process.
Proof. split; intros ? ?; simpl; by rewrite lookup_empty. Qed.

Lemma holds_new_process s : ¬ holds new_process s.
Proof. by intros [(k & f & Hk & _)|[(k & f & Hk & _)|[(k & f & Hk & _)|(k & f & Hk & _)]]]; simpl in Hk; rewrite lookup_empty in Hk. Qed.

Lemma shut_exited p : shut (exited p).
Proof. split; intros ? v; simpl; rewrite lookup_fmap; by intros (v0 & _ & ->)%fmap_Some. Qed.

Lemma exited_bounded n p : bounded n p → bounded n (exited p).
Proof. intros [Hi Ho Hl Hc]. split; simpl; [done..| |]; intros l v; rewrite lookup_fmap; intros (v0 & Hv & ->)%fmap_Some; simpl; by eauto. Qed.

Lemma exited_holds p s : holds (exited p) s → holds p s.
Proof.
  intros [?|[?|[(l & v & Hl & <-)|(c & v & Hc & <-)]]]; [by left|by right; left|right; right; left|right; right; right].
  - simpl in Hl. rewrite lookup_fmap in Hl. apply fmap_Some in Hl as (v0 & Hv & ->). by exists l, v0.
  - simpl in Hc. rewrite lookup_fmap in Hc. apply fmap_Some in Hc as (v0 & Hv & ->). by exists c, v0.
Qed.

Lemma all_rights_app q q' s : s ∈ all_rights (q ++ q') ↔ s ∈ all_rights q ∨ s ∈ all_rights q'.
Proof. unfold all_rights. by rewrite fmap_app, concat_app, elem_of_app. Qed.

Lemma all_rights_elem q s : s ∈ all_rights q ↔ ∃ d, d ∈ q ∧ s ∈ d_rights d.
Proof.
  unfold all_rights. induction q as [|d q IH]; simpl; [split; [by intros ?%elem_of_nil|by intros (? & ?%elem_of_nil & _)]|].
  rewrite elem_of_app, IH. split; [intros [?|(d' & ? & ?)]; [exists d|exists d']|intros (d' & [->|?]%elem_of_cons & ?)]; rewrite ?elem_of_cons; by eauto.
Qed.

(** What the pair knows only grows by new sockets. *)
Lemma chain_change past old new qn next old' new' qn' next' : chain_ok past old new qn next →
  (∀ s, known old' new' qn' s → known old new qn s ∨ (next ≤ s)%nat) → udp (p_set old') = udp (p_set old) → (next ≤ next')%nat →
  chain_ok past old' new' qn' next'.
Proof.
  intros [Hp Ha Ho Hu] Hk Hudp Hle. split.
  - intros i p Hi. destruct (Hp _ _ Hi) as (? & ?). split; [by eapply bounded_mono|done].
  - intros i p s Hi [?|Hge]%Hk; [by eapply Ha|]. destruct (Hp _ _ Hi) as (Hb & _). intros Hl%listens_holds. eapply bounded_holds in Hl; [|done]. lia.
  - exact Ho.
  - intros [|i] y p; simpl; [|by apply (Hu (S i))]. intros [= <-]. rewrite Hudp. by apply (Hu 0%nat).
Qed.

Lemma chain_grow_old past old old' new qn next : grows next old old' → chain_ok past old new qn next → chain_ok past old' new qn (S next).
Proof.
  intros Hg Hc. eapply chain_change; [done| |by eapply gr_udp|lia]. intros s [Hs|Hs]; [|by left; right].
  destruct (grows_holds _ _ _ _ Hg Hs) as [?| ->]; [by left; left|by right].
Qed.

Lemma chain_grow_new past old new new' qn next : grows next new new' → chain_ok past old new qn next → chain_ok past old new' qn (S next).
Proof.
  intros Hg Hc. eapply chain_change; [done| |done|lia]. intros s [Hs|[Hs|Hs]]; [by left; left| |by left; right; right].
  destruct (grows_holds _ _ _ _ Hg Hs) as [?| ->]; [by left; right; left|by right].
Qed.

(** The pair knows no more than before. *)
Lemma chain_same past old new qn next old' new' qn' next' : chain_ok past old new qn next →
  (∀ s, holds old' s → holds old s) → (∀ s, holds new' s → known old new qn s) → (∀ s, s ∈ all_rights qn' → known old new qn s) →
  udp (p_set old') = udp (p_set old) → (next ≤ next')%nat → chain_ok past old' new' qn' next'.
Proof.
  intros Hc Ho Hn Hq Hu Hle. eapply chain_change; [done| |done|done]. intros s [?%Ho|[?%Hn|?%Hq]]; left; [by left|done..].
Qed.

(** A process of the chain opens and closes sockets, exits or opens UDP. *)
Lemma chain_past past old new qn next i p p' next' : chain_ok past old new qn next → past !! i = Some p →
  bounded next' (pt_proc p') → inherited (p_set (pt_proc p')) = ∅ → (pt_oph p' = OExited → shut (pt_proc p')) →
  (pt_oph p' = OExited ∨ pt_open p' = true ∧ pt_queue p' = []) → (pt_oph p = OExited → pt_oph p' = OExited) →
  (∀ s, listens (pt_proc p') s → listens (pt_proc p) s ∨ (next ≤ s)%nat) → (∀ s, holds (pt_proc p') s → holds (pt_proc p) s ∨ (next ≤ s)%nat) →
  (∀ s, known old new qn s → (s < next)%nat) →
  (udp (p_set (pt_proc p')) = true → udp (p_set (pt_proc p)) = true ∨ ∀ q, past !! S i = Some q → pt_oph q = OExited) → (next ≤ next')%nat →
  chain_ok (<[i := p']> past) old new qn next'.
Proof.
  intros [Hp Ha Ho Hu] Hi Hb Hin Hsh Hex Hoph Hli Hho Hkn Hud Hle.
  assert (Hlen := lookup_lt_Some _ _ _ Hi). split.
  - intros j q. rewrite list_lookup_insert_Some. intros [(<- & <- & _)|[_ Hj]]; [done|]. destruct (Hp _ _ Hj) as (? & ?). split; [by eapply bounded_mono|done].
  - intros j q s. rewrite list_lookup_insert_Some. intros [(<- & <- & _)|[_ Hj]] Hs; [|by eapply Ha]. intros [?|?]%Hli; [by eapply Ha|]. pose proof (Hkn _ Hs). lia.
  - intros j k q r s Hlt. rewrite !list_lookup_insert_Some. intros [(<- & <- & _)|[_ Hj]] [(<- & <- & _)|[_ Hk]] Hl Hh; [lia| | |by eapply (Ho j k)].
    + destruct (Hho _ Hh) as [?|?]; [by eapply (Ho i k)|]. destruct (Hp _ _ Hk) as (Hb' & _). apply listens_holds in Hl. eapply bounded_holds in Hl; [|done]. lia.
    + destruct (Hli _ Hl) as [?|?]; [by eapply (Ho j i)|]. destruct (Hp _ _ Hj) as (Hb' & _). eapply bounded_holds in Hh; [|done]. lia.
  - intros j y q Hy. rewrite list_lookup_insert_Some. intros [(<- & <- & _)|[Hne Hj]] Hudp.
    + apply Hoph, (Hu i y); [|done..]. destruct i as [|i]; [done|]. simpl in *. rewrite list_lookup_fmap, list_lookup_insert_ne in Hy by lia. by rewrite list_lookup_fmap.
    + destruct j as [|j]; [by eapply (Hu 0%nat)|]. simpl in Hy. rewrite list_lookup_fmap in Hy. destruct (decide (i = j)) as [->|Hji].
      * rewrite list_lookup_insert_eq in Hy by done. simplify_eq/=. destruct (Hud Hudp) as [?|Hq]; [|by apply Hq].
        eapply (Hu (S j)); [|done..]. simpl. by rewrite list_lookup_fmap, Hi.
      * rewrite list_lookup_insert_ne in Hy by done. eapply (Hu (S j)); [|done..]. simpl. by rewrite list_lookup_fmap.
Qed.

Lemma old_acts_ok past old old' new o n qn qo c next : o ≠ OExited → proc_step next old old' →
  world_ok (mkWorld past old new o n qn qo c next) → world_ok (mkWorld past old' new o n qn qo c (S next)).
Proof.
  intros Ho Hstep [Hob Hnb Hr [Hacc Hinh] Hold Hnew Hns Hser Hto Hlink Hch]. pose proof (proc_step_grows _ _ _ Hstep) as Hg. simpl in *.
  split; simpl; try done.
  - exact (grows_bounded _ _ _ Hob Hg).
  - eapply bounded_mono; [done|lia].
  - eapply rights_mono; [|done]. lia.
  - rewrite (gr_accept _ _ _ Hg). split; [done|by eapply grows_inherited].
  - destruct o; simpl in *; try done; destruct Hold as [Hrel Hx]; rewrite (gr_released _ _ _ Hg); (split; [done|]);
      first [by eapply proc_step_sound|by eapply private_but_old].
  - by eapply chain_grow_old.
Qed.

Lemma new_acts_ok past old new new' o n qn qo c next : n ∈ [NWarm; NReady; NServing; NUDP] → proc_step next new new' →
  world_ok (mkWorld past old new o n qn qo c next) → world_ok (mkWorld past old new' o n qn qo c (S next)).
Proof.
  intros Hn Hstep [Hob Hnb Hr Hset Hold Hnew Hns Hser Hto Hlink Hch]. pose proof (proc_step_grows _ _ _ Hstep) as Hg. simpl in *.
  destruct (Hns Hn) as [Hrel Hsound]. split; simpl; try done.
  - eapply bounded_mono; [done|lia].
  - exact (grows_bounded _ _ _ Hnb Hg).
  - eapply rights_mono; [|done]. lia.
  - eapply (old_ok_new next); [|done..]. intros s Hs. destruct (grows_holds _ _ _ _ Hg Hs) as [?| ->]; [by left|by right].
  - unfold new_ok in *. rewrite (gr_accept _ _ _ Hg), (gr_udp _ _ _ Hg). set_unfold in Hn. by destruct Hn as [->|[->|[->|[->|[]]]]].
  - intros _. rewrite (gr_released _ _ _ Hg). split; [done|]. by eapply proc_step_sound.
  - intros Hs. destruct (Hser Hs) as [Ha Hi]. rewrite (gr_accept _ _ _ Hg). split; [done|by eapply grows_inherited].
  - by eapply chain_grow_new.
Qed.

Lemma new_dials_ok past old new n qn qo c next : world_ok (mkWorld past old new OIdle n qn qo c next) →
  world_ok (mkWorld past old new_process OHello NDial [] [plain_datagram "hello"] true next).
Proof.
  intros [Hob Hnb Hr Hset Hold Hnew Hns Hser Hto Hlink Hch]. simpl in *. split; simpl; try done.
  - split; [by intros _; apply Hset|by apply Hset].
  - by intros _ [Hx|Hx%elem_of_nil]%elem_of_cons.
  - eapply chain_same; [exact Hch|done|by intros s ?%holds_new_process|by intros s ?%elem_of_nil|done|done].
Qed.

(** What offer sends has no "released" and only sockets of the process. *)
Lemma sent_ok s epoch records sent next old : sent `prefix_of` offer_messages s epoch records → s = p_set old → bounded next old →
  no_release sent ∧ Forall (λ d, Forall (λ s, s < next)%nat (d_rights d)) sent.
Proof.
  intros [rest Hpre] -> [_ Ho _ _]. split; apply Forall_forall; intros d Hd;
    assert (Hin : d ∈ offer_messages (p_set old) epoch records) by (rewrite Hpre; apply elem_of_app; by left); apply offer_messages_spec in Hin as [Hne Hsub]; [done|].
  apply Forall_forall. intros x Hx. destruct (Hsub _ Hx) as (k & f & Hk & <-). by eapply Ho.
Qed.

Lemma chain_sent past old new qn next epoch records sent : chain_ok past old new qn next → sent `prefix_of` offer_messages (p_set old) epoch records →
  chain_ok past old new (qn ++ sent) next.
Proof.
  intros Hch [rest Hpre]. eapply chain_same; [exact Hch|done|by intros s ?; right; left| |done|done].
  intros s [?|(d & Hd & Hs)%all_rights_elem]%all_rights_app; [by right; right|left; right; left]. apply (offer_messages_spec _ epoch records d); [|done].
  rewrite Hpre. apply elem_of_app. by left.
Qed.

Lemma old_offers_ok past old new n qn qo c next epoch records : names_plain epoch (owned (p_set old)) → Forall (λ r, (8 ≤ len r)%Z) records →
  world_ok (mkWorld past old new OHello n qn (plain_datagram "hello" :: qo) c next) →
  world_ok (mkWorld past old new OWait n (qn ++ offer_messages (p_set old) epoch records) qo c next).
Proof.
  intros Hfit Hrec [Hob Hnb Hr Hset Hold Hnew Hns Hser Hto Hlink Hch]. simpl in *.
  destruct (sent_ok (p_set old) epoch records _ next old (reflexivity _) eq_refl Hob) as [_ Hrights]. split; simpl; try done.
  - by apply Forall_app.
  - split; [by intros _; apply Hset|by apply Hset].
  - unfold new_ok in *. destruct n; try done; [|by destruct Hnew as (_ & _ & [])..|destruct Hnew as (_ & _ & [[[=] _]|[=]])]. destruct Hnew as [Hs ->]. split; [done|]. by exists (p_set old), epoch, records.
  - intros Hn Hin. apply (Hto Hn). by right.
  - intros _. apply Hlink. left. by left.
  - eapply chain_sent; [exact Hch|]. exists []. by rewrite app_nil_r.
Qed.

Lemma no_release_offered s epoch records : no_release (offer_messages s epoch records).
Proof. apply Forall_forall. intros d Hd. by apply offer_messages_spec in Hd as [? _]. Qed.

Lemma old_fails_ok past old new o n qn qo c next epoch records sent : o ∈ [OHello; OWait] →
  (o = OHello ∧ sent `prefix_of` offer_messages (p_set old) epoch records ∨ sent = []) →
  world_ok (mkWorld past old new o n qn qo c next) → world_ok (mkWorld past old new OIdle n (qn ++ sent) qo false next).
Proof.
  intros Ho Hsent [Hob Hnb Hr Hset Hold Hnew Hns Hser Hto Hlink Hch]. simpl in *.
  assert (Hs : no_release sent ∧ Forall (λ d, Forall (λ s, s < next)%nat (d_rights d)) sent).
  { destruct Hsent as [[_ Hp]| ->]; [by eapply sent_ok|by split; constructor]. }
  destruct Hs as [Hnr Hrights]. assert (Hhw : o = OHello ∨ o = OWait) by (set_unfold in Ho; naive_solver). split; simpl; try done.
  - by apply Forall_app.
  - split; [|by apply Hset]. intros _. apply Hset. destruct Hhw; congruence.
  - by destruct Hhw; subst.
  - unfold new_ok in *. destruct n; destruct Hhw; subst; try done; try (destruct Hnew as (_ & _ & [[[=] _]|[=]])); try (by destruct Hnew as (_ & _ & [])).
    + destruct Hnew as [? ->]. split; [done|]. by apply Forall_app.
    + destruct Hnew as (? & s & e & r & _ & _ & ->). split; [done|]. apply Forall_app. split; [apply no_release_offered|done].
    + destruct Hnew as (? & ? & ->). by split_and!.
    + destruct Hnew as (? & ? & ->). by split_and!.
  - intros [Hx|[ls [=]]]. revert Hx. not_in.
  - destruct Hsent as [[_ Hp]| ->]; [by eapply chain_sent|by rewrite app_nil_r].
Qed.

Lemma new_inherits_ok past old new o qn qo c next closed i rest : inherit true next qn = (closed, Some (i, rest)) →
  world_ok (mkWorld past old new o NDial qn qo c next) →
  world_ok (mkWorld past old (mkProcess (inheriting i) ∅ ∅) o NWarm rest qo c (next + length (concat (d_rights <$> qn)))).
Proof.
  intros Hinh [Hob Hnb Hr Hset Hold [Hshut Hnew] Hns Hser Hto Hlink Hch]. simpl in *. destruct (inherit_in _ _ _ _ _ Hinh) as (Hin & Hsuf & Hq).
  assert (Hrest : o = OWait → rest = []).
  { intros ->. destruct Hnew as (s & e & r & Hfit & Hrec & ->). destruct (inherit_offered s e r next [] (names_plain_fit _ _ Hfit) Hrec) as (m & Hm & _). rewrite app_nil_r in Hm. congruence. }
  split; simpl; try done.
  - eapply bounded_mono; [done|lia].
  - split; simpl; [|by intros ? ?; rewrite lookup_empty..]. intros k f Hk. specialize (Hin _ _ Hk). unfold all_rights in Hin.
    apply list_elem_of_In, in_concat in Hin as (rs & Hrs & Hx). apply list_elem_of_In, list_elem_of_fmap in Hrs as (d & -> & Hd). apply list_elem_of_In in Hx.
    rewrite Forall_forall in Hr. specialize (Hr _ Hd). rewrite Forall_forall in Hr. specialize (Hr _ Hx). lia.
  - destruct Hsuf as [front ->]. apply Forall_app in Hr as [_ Hr]. eapply rights_mono; [|done]. lia.
  - by destruct o.
  - split_and!; [done..|]. destruct Hsuf as [front ->]. destruct o; try done; [by apply Forall_app in Hnew as [_ ?]|by apply Hrest|].
    left. by apply Forall_app in Hnew as [_ ?].
  - not_in.
  - intros _. apply Hto. right. left.
  - eapply chain_same; [exact Hch|done| | |done|lia].
    + intros s [(k & f & Hk & <-)|[(k & f & Hk & _)|[(k & f & Hk & _)|(k & f & Hk & _)]]]; simpl in Hk; [right; right; by eapply Hin|by rewrite lookup_empty in Hk..].
    + intros s Hs. right. right. destruct Hsuf as [front ->]. apply all_rights_app. by right.
Qed.

Lemma new_is_ready_ok past old new o qn qo c next : world_ok (mkWorld past old new o NWarm qn qo c next) →
  world_ok (mkWorld past old new o NReady qn (qo ++ [plain_datagram "ready"]) c next).
Proof.
  intros [Hob Hnb Hr Hset Hold Hnew Hns Hser Hto Hlink Hch]. simpl in *. split; simpl; try done.
  - intros _. apply Hns. left.
  - not_in.
  - not_in.
Qed.

Lemma old_releases_ok past old new n qn qo c next : world_ok (mkWorld past old new OWait n qn (plain_datagram "ready" :: qo) c next) →
  world_ok (mkWorld past (mkProcess (release_mark (p_set old)).1 (p_listeners old) (p_packets old)) new (ORelease (release_mark (p_set old)).2) n qn qo c next).
Proof.
  intros [[Hob1 Hob2 Hob3 Hob4] Hnb Hr [Hacc Hinh] [Hrel Hsound] Hnew Hns Hser Hto Hlink Hch]. simpl in *. unfold release_mark. rewrite Hrel. simpl.
  specialize (Hacc ltac:(done)). split; simpl; try done.
  - split; [done|]. intros l v Hl Hv. left. simpl in Hl. apply elem_of_elements. by apply (Hsound l v).
  - unfold new_ok in *. destruct n; try done; [|destruct Hnew as (_ & _ & [[[=] _]|[=]])]. exfalso. apply Hto; [right; left|left].
  - intros Hn. exfalso. apply (Hto Hn). left.
  - intros _. apply Hlink. left. right. left.
  - eapply chain_same; [exact Hch|by intros s|by intros s ?; right; left|by intros s ?; right; right|done|done].
Qed.

Lemma old_closes_ok past old new l ls n qn qo c next : world_ok (mkWorld past old new (ORelease (l :: ls)) n qn qo c next) →
  world_ok (mkWorld past (release_close old l) new (ORelease ls) n qn qo c next).
Proof.
  intros [[Hob1 Hob2 Hob3 Hob4] Hnb Hr Hset [Hrel Hp] Hnew Hns Hser Hto Hlink Hch]. simpl in *.
  assert (Hl : ∀ l' v', p_listeners (release_close old l) !! l' = Some v' →
    ∃ v, p_listeners old !! l' = Some v ∧ l_socket v' = l_socket v ∧ (l_inner v' = true → l_inner v = true ∧ l' ≠ l)).
  { intros l' v'. simpl. rewrite lookup_alter_Some. intros [[<- (v & Hv & ->)]|[Hne Hv]]; [by exists v|]. exists v'. by split_and!. }
  split; simpl; try done.
  - split; try done. intros l' v' (v & Hv & -> & _)%Hl. by eauto.
  - split; [by intros _; apply Hset|by apply Hset].
  - split; [done|]. intros l' v' (v & Hv & -> & Hin)%Hl Hopen. destruct (Hin Hopen) as [Hi Hne]. destruct (Hp _ _ Hv Hi) as [[?|?]%elem_of_cons|?]; [done|by left|by right].
  - unfold new_ok in *. destruct n; try done. by destruct Hnew as (_ & _ & [[[=] _]|[=]]).
  - intros _. apply Hlink. right. by eauto.
  - eapply chain_same; [exact Hch| |by intros s ?; right; left|by intros s ?; right; right|done|done].
    intros s [?|[?|[(l' & v' & (v & Hv & -> & _)%Hl & <-)|?]]]; [by left|by right; left|right; right; left; by eauto|by right; right; right].
Qed.

Lemma old_replies_ok past old new n qn qo c next reply : reply ∈ [[]; [plain_datagram "released"]] → world_ok (mkWorld past old new (ORelease []) n qn qo c next) →
  world_ok (mkWorld past old new OReleased n (qn ++ reply) qo c next).
Proof.
  intros Hreply [Hob Hnb Hr Hset [Hrel Hp] Hnew Hns Hser Hto Hlink Hch]. simpl in *.
  assert (Hre : reply = [] ∨ reply = [plain_datagram "released"]) by (rewrite !elem_of_cons, elem_of_nil in Hreply; tauto).
  split; simpl; try done.
  - apply Forall_app. split; [done|]. destruct Hre as [->| ->]; repeat constructor.
  - split; [by intros _; apply Hset|by apply Hset].
  - unfold new_ok in *. destruct n; try done; try (by destruct Hnew as (_ & _ & [[[=] _]|[=]])); destruct Hnew as (? & ? & ->); (split_and!; [done..|exact Hre]).
  - intros _. apply Hlink. right. by eauto.
  - eapply chain_same; [exact Hch|done|by intros s ?; right; left| |done|done]. intros s [?|(d & Hd & Hs)%all_rights_elem]%all_rights_app; [by right; right|].
    destruct Hre as [->| ->]; [by apply elem_of_nil in Hd|]. apply list_elem_of_singleton in Hd as ->. by apply elem_of_nil in Hs.
Qed.

Lemma holds_take_over p s : holds (mkProcess (take_over (p_set p)).1 (p_listeners p) (p_packets p)) s → holds p s.
Proof. intros [(k & f & Hk & _)|[?|[?|?]]]; [simpl in Hk; by rewrite lookup_empty in Hk|by right; left|by right; right; left|by right; right; right]. Qed.

Lemma new_takes_over_ok past old new o qn qo c next : world_ok (mkWorld past old new o NReady (plain_datagram "released" :: qn) qo c next) →
  world_ok (mkWorld past old (mkProcess (take_over (p_set new)).1 (p_listeners new) (p_packets new)) o NServing qn qo c next).
Proof.
  intros [Hob [Hnb1 Hnb2 Hnb3 Hnb4] Hr Hset Hold (Hacc & Hudp & Hq) Hns Hser Hto Hlink Hch]. simpl in *. apply Forall_cons in Hr as [_ Hr].
  destruct (Hns ltac:(right; left)) as [Hrel Hsound].
  assert (Hend : qn = [] ∧ (o = OReleased ∨ o = OExited)).
  { destruct o; try done; [by apply Forall_cons in Hq as [? _]|destruct Hq as [|[= ->]]; by auto|destruct Hq as [[? _]%Forall_cons|[= ->]]; by auto]. }
  destruct Hend as [-> Ho]. split; simpl; try done.
  - eapply (old_ok_new next); [|done..]. intros s ?%holds_take_over. by left.
  - split_and!; [done..|]. destruct Ho as [->| ->]; [left|by right]. split; [done|]. apply Hlink. left. right. right. left.
  - not_in.
  - eapply chain_same; [exact Hch|done|intros s ?%holds_take_over; by right; left|by intros s ?%elem_of_nil|done|done].
Qed.

Lemma new_opens_udp_ok past old new o qn qo c next : qn ≠ [] ∨ c = false → world_ok (mkWorld past old new o NServing qn qo c next) →
  world_ok (mkWorld past old (mkProcess (open_udp (p_set new)) (p_listeners new) (p_packets new)) o NUDP (tail qn) qo c next).
Proof.
  intros Hc [Hob [Hnb1 Hnb2 Hnb3 Hnb4] Hr Hset Hold (Hq & Hudp & Ho) Hns Hser Hto Hlink Hch]. simpl in *. subst qn.
  assert (Ho' : o = OExited) by (destruct Ho as [[_ ->]|?]; [by destruct Hc|done]). subst o. split; simpl; try done.
  - intros _. apply Hns. right. right. left.
  - intros _. apply Hser. left.
  - not_in.
  - eapply chain_same; [exact Hch|done|by intros s ?; right; left|by intros s ?%elem_of_nil|done|done].
Qed.

Lemma new_fails_ok past old new o n qn qo c next : world_ok (mkWorld past old new o n qn qo c next) → world_ok (mkWorld past old (exited new) o NGone qn qo c next).
Proof.
  intros [Hob Hnb Hr Hset Hold Hnew Hns Hser Hto Hlink Hch]. simpl in *. split; simpl; try done.
  - by apply exited_bounded.
  - eapply (old_ok_new next); [|done..]. intros s ?%exited_holds. by left.
  - apply shut_exited.
  - not_in.
  - not_in.
  - not_in.
  - eapply chain_same; [exact Hch|done|intros s ?%exited_holds; by right; left|by intros s ?; right; right|done|done].
Qed.

Lemma old_exits_ok past old new o n qn qo c next : world_ok (mkWorld past old new o n qn qo c next) → world_ok (mkWorld past (exited old) new OExited n qn qo false next).
Proof.
  intros [Hob Hnb Hr Hset Hold Hnew Hns Hser Hto Hlink Hch]. simpl in *. split; simpl; try done.
  - by apply exited_bounded.
  - split; [done|by apply Hset].
  - apply shut_exited.
  - unfold new_ok in *. destruct n; try done.
    + destruct Hnew as [? Hq]. split; [done|]. destruct o; try done; [subst; apply Forall_nil_2|]. destruct Hq as (s & e & r & _ & _ & ->). apply no_release_offered.
    + destruct Hnew as (? & ? & Hq). split_and!; [done..|]. destruct o; try done; try (by left); try (subst; left; apply Forall_nil_2); destruct Hq as [->| ->]; [left; apply Forall_nil_2|by right].
    + destruct Hnew as (? & ? & Hq). split_and!; [done..|]. destruct o; try done; try (by left); try (subst; left; apply Forall_nil_2); destruct Hq as [->| ->]; [left; apply Forall_nil_2|by right].
    + destruct Hnew as (? & ? & _). split_and!; by auto.
  - intros [Hx|[ls [=]]]. revert Hx. not_in.
  - eapply chain_same; [exact Hch|by intros s ?%exited_holds|by intros s ?; right; left|by intros s ?; right; right|done|done].
Qed.

(** Once the replacement accepts, the serving process has nothing open that the replacement has. *)
Lemma serving_apart past old new o n qn qo c next s : n ∈ [NServing; NUDP] → world_ok (mkWorld past old new o n qn qo c next) →
  holds new s → ¬ listens old s.
Proof.
  intros Hn [Hob Hnb Hr Hset Hold Hnew Hns Hser Hto Hlink Hch] Hs Hl. simpl in *.
  assert (Ho : o = OReleased ∨ o = OExited) by (set_unfold in Hn; destruct Hn as [->|[->|[]]]; simpl in Hnew; naive_solver).
  destruct Ho as [-> | ->]; [|by eapply shut_listens]. destruct Hold as [_ Hp]. destruct Hl as (l & v & Hl & Hv & <-). by destruct (Hp _ _ Hl Hv) as [?%elem_of_nil|?].
Qed.

Lemma succession_chain past old new o n qn qo c next : n ∈ [NServing; NUDP] → world_ok (mkWorld past old new o n qn qo c next) →
  chain_ok (mkPast old o qn c :: past) new new_process [] next.
Proof.
  intros Hn Hok. pose proof (λ s, serving_apart _ _ _ _ _ _ _ _ _ s Hn Hok) as Hap. destruct Hok as [Hob Hnb Hr Hset Hold Hnew Hns Hser Hto Hlink [Hp Ha Ho Hu]]. simpl in *.
  assert (Hkn : ∀ s, known new new_process [] s → holds new s) by (by intros s [?|[?%holds_new_process|?%elem_of_nil]]). split.
  - intros [|i] p; simpl; [intros [= <-]|by apply Hp]. simpl. split; [done|]. split; [by apply Hset|]. split; [by intros ->|].
    set_unfold in Hn. destruct Hn as [->|[->|[]]]; simpl in Hnew; [|by left]. destruct Hnew as (-> & _ & [[_ ->]|?]); by auto.
  - intros [|i] p s; simpl; [intros [= <-] ?%Hkn; by apply Hap|intros Hi ?%Hkn]. apply (Ha i); [done|]. by right; left.
  - intros [|i] [|j] p q s Hlt; simpl; [lia| |lia|apply Ho; lia]. intros [= <-] Hj Hl Hh. eapply Ha; [done| |done]. by left.
  - intros [|i] y p; simpl; [|by apply Hu]. intros [= <-] [= <-] Hudp. simpl. set_unfold in Hn. destruct Hn as [->|[->|[]]]; simpl in Hnew; [|done].
    destruct Hnew as (_ & ? & _). congruence.
Qed.

Lemma succession_ok past old new o n qn qo c next : n ∈ [NServing; NUDP] → world_ok (mkWorld past old new o n qn qo c next) →
  world_ok (mkWorld (mkPast old o qn c :: past) new new_process OIdle NNone [] [] false next).
Proof.
  intros Hn Hok. pose proof (succession_chain _ _ _ _ _ _ _ _ _ Hn Hok) as Hch'. destruct Hok as [Hob Hnb Hr Hset Hold Hnew Hns Hser Hto Hlink Hch]. simpl in *.
  split; simpl; try done.
  - destruct (Hser Hn). by split.
  - apply Hns. right. right. by apply Hn.
  - by intros _ ?%elem_of_nil.
  - intros [Hx|[ls [=]]]. revert Hx. not_in.
Qed.

(** A step of the chain leaves the pair alone. *)
Lemma past_step_ok past past' old new o n qn qo c next next' : (next ≤ next')%nat → world_ok (mkWorld past old new o n qn qo c next) →
  chain_ok past' old new qn next' → world_ok (mkWorld past' old new o n qn qo c next').
Proof.
  intros Hle [Hob Hnb Hr Hset Hold Hnew Hns Hser Hto Hlink Hch] Hch'. simpl in *.
  split; simpl; try done; [by eapply bounded_mono|by eapply bounded_mono|by eapply rights_mono].
Qed.

Lemma known_bounded w s : world_ok w → known (w_old w) (w_new w) (w_toNew w) s → (s < w_next w)%nat.
Proof.
  intros Hok [Hs|[Hs|(d & Hd & Hs)%all_rights_elem]]; [exact (bounded_holds _ _ _ (wo_old_bound _ Hok) Hs)|exact (bounded_holds _ _ _ (wo_new_bound _ Hok) Hs)|].
  pose proof (wo_rights _ Hok) as Hr. rewrite Forall_forall in Hr. specialize (Hr _ Hd). rewrite Forall_forall in Hr. by apply Hr.
Qed.

Lemma past_acts_ok past old new o n qn qo c next i p p' : past !! i = Some p → pt_oph p ≠ OExited → proc_step next (pt_proc p) p' →
  world_ok (mkWorld past old new o n qn qo c next) →
  world_ok (mkWorld (<[i := mkPast p' (pt_oph p) (pt_queue p) (pt_open p)]> past) old new o n qn qo c (S next)).
Proof.
  intros Hi Ho Hstep Hok. pose proof (proc_step_grows _ _ _ Hstep) as Hg. pose proof (λ s, known_bounded _ s Hok) as Hkn. pose proof (wo_chain _ Hok) as Hch. simpl in *.
  destruct (ch_process _ _ _ _ _ Hch _ _ Hi) as (Hb & Hin & Hsh & Hex).
  eapply past_step_ok; [|exact Hok|]; [lia|]. eapply chain_past; [exact Hch|exact Hi|..]; simpl; try done; [by eapply grows_bounded|by eapply grows_inherited| | | |lia].
  - intros s Hs. destruct (grows_listens _ _ _ _ Hg Hin Hs) as [?| ->]; auto.
  - intros s Hs. destruct (grows_holds _ _ _ _ Hg Hs) as [?| ->]; auto.
  - rewrite (gr_udp _ _ _ Hg). by left.
Qed.

Lemma past_exits_ok past old new o n qn qo c next i p : past !! i = Some p → world_ok (mkWorld past old new o n qn qo c next) →
  world_ok (mkWorld (<[i := mkPast (exited (pt_proc p)) OExited (pt_queue p) false]> past) old new o n qn qo c next).
Proof.
  intros Hi Hok. pose proof (λ s, known_bounded _ s Hok) as Hkn. pose proof (wo_chain _ Hok) as Hch. simpl in *.
  destruct (ch_process _ _ _ _ _ Hch _ _ Hi) as (Hb & Hin & Hsh & Hex).
  eapply past_step_ok; [|exact Hok|]; [lia|]. eapply chain_past; [exact Hch|exact Hi|..]; simpl; try done; [by apply exited_bounded|intros; apply shut_exited|by left| | |by left].
  - intros s Hs. by apply shut_listens in Hs; [|apply shut_exited].
  - intros s ?%exited_holds. by left.
Qed.

(** The connection to a process that was replaced ends only when it exits. *)
Lemma chain_ended past old new qn next i p : chain_ok past old new qn next → past !! i = Some p → pt_queue p ≠ [] ∨ pt_open p = false → pt_oph p = OExited.
Proof. intros Hch Hi Hend. destruct (ch_process _ _ _ _ _ Hch _ _ Hi) as (_ & _ & _ & [?|[Hop Hq]]); [done|]. destruct Hend; congruence. Qed.

(** Reading what it sent changes nothing else. *)
Lemma chain_read past old new qn next i p : chain_ok past old new qn next → past !! i = Some p → pt_oph p = OExited → (∀ s, known old new qn s → (s < next)%nat) →
  chain_ok (<[i := mkPast (pt_proc p) (pt_oph p) (tail (pt_queue p)) (pt_open p)]> past) old new qn next.
Proof.
  intros Hch Hi Ho Hkn. destruct (ch_process _ _ _ _ _ Hch _ _ Hi) as (Hb & Hin & Hsh & _).
  eapply chain_past; [exact Hch|exact Hi|..]; simpl; try done; try (by left); intros s ?; by left.
Qed.

Lemma old_opens_udp_ok past old new o n qn qo c next p : past !! 0%nat = Some p → pt_queue p ≠ [] ∨ pt_open p = false →
  world_ok (mkWorld past old new o n qn qo c next) →
  world_ok (mkWorld (<[0%nat := mkPast (pt_proc p) (pt_oph p) (tail (pt_queue p)) (pt_open p)]> past) (mkProcess (open_udp (p_set old)) (p_listeners old) (p_packets old)) new o n qn qo c next).
Proof.
  intros Hp Hend Hok. pose proof (λ s, known_bounded _ s Hok) as Hkn. pose proof (wo_chain _ Hok) as Hch. simpl in *.
  pose proof (chain_ended _ _ _ _ _ _ _ Hch Hp Hend) as Hex. apply (past_step_ok past _ _ _ _ _ _ _ _ next); [done| |].
  - destruct Hok as [[Hob1 Hob2 Hob3 Hob4] Hnb Hr Hset Hold Hnew Hns Hser Hto Hlink _]. simpl in *. split; simpl; try done.
    destruct Hch as [Hp' Ha Ho Hu]. split; try done. intros [|i] y q; simpl; [|by apply (Hu (S i))]. intros _ Hq _. by simplify_eq.
  - destruct (chain_read _ _ _ _ _ _ _ Hch Hp Hex Hkn) as [Hp' Ha Ho Hu]. split; try done.
    intros [|i] y q; simpl; [|by apply (Hu (S i))]. intros _ Hq _. rewrite list_lookup_insert_eq in Hq by by eapply lookup_lt_Some. by simplify_eq.
Qed.

Lemma past_opens_udp_ok past old new o n qn qo c next i q p : past !! i = Some q → past !! S i = Some p → pt_oph q ≠ OExited →
  pt_queue p ≠ [] ∨ pt_open p = false → world_ok (mkWorld past old new o n qn qo c next) →
  world_ok (mkWorld (<[i := mkPast (mkProcess (open_udp (p_set (pt_proc q))) (p_listeners (pt_proc q)) (p_packets (pt_proc q))) (pt_oph q) (pt_queue q) (pt_open q)]>
    (<[S i := mkPast (pt_proc p) (pt_oph p) (tail (pt_queue p)) (pt_open p)]> past)) old new o n qn qo c next).
Proof.
  intros Hq Hp Hne Hend Hok. pose proof (λ s, known_bounded _ s Hok) as Hkn. pose proof (wo_chain _ Hok) as Hch. simpl in *.
  pose proof (chain_ended _ _ _ _ _ _ _ Hch Hp Hend) as Hex. pose proof (chain_read _ _ _ _ _ _ _ Hch Hp Hex Hkn) as Hch'.
  apply (past_step_ok past _ _ _ _ _ _ _ _ next); [done|done|]. destruct (ch_process _ _ _ _ _ Hch _ _ Hq) as ([Hb1 Hb2 Hb3 Hb4] & Hin & Hsh & Hx).
  eapply chain_past; [exact Hch'|by rewrite list_lookup_insert_ne by lia|..]; simpl; try done; try (intros s ?; by left).
  intros _. right. intros r Hr. rewrite list_lookup_insert_eq in Hr by by eapply lookup_lt_Some. by simplify_eq.
Qed.

Lemma start_ok : world_ok start.
Proof.
  split; simpl; try done.
  - by intros _ ?%elem_of_nil.
  - intros [Hx|[ls [=]]]. revert Hx. not_in.
Qed.

Lemma handover_reach_ok w : handover_reach w → world_ok w.
Proof.
  intros Hr. pattern w. eapply rtc_ind_r; [apply start_ok| |exact Hr]. clear w Hr. intros w w' _ Hstep Hok.
  destruct Hstep; [by eapply old_acts_ok|by eapply new_acts_ok|by eapply new_dials_ok|by eapply old_offers_ok|by eapply old_fails_ok|by eapply new_inherits_ok|
    by apply new_is_ready_ok|by apply old_releases_ok|by apply old_closes_ok|by apply old_replies_ok|by apply new_takes_over_ok|by apply new_opens_udp_ok|
    by eapply new_fails_ok|by eapply old_exits_ok|by eapply succession_ok|by eapply past_acts_ok|by apply past_exits_ok|by apply old_opens_udp_ok|
    by eapply past_opens_udp_ok].
Qed.
End world.
