(* ===== verification/HandoverRun.v ===== *)
(** * What the handover promises *)
From S2P Require Import Prelude GoStd GoData GoNet GoEnc Handover HandoverWorld.

Section claims.
Context `{GoRuntime} `{HandoverJSON}.

(** The processes, the latest first. *)
Definition processes (w : World) : list process := w_new w :: w_old w :: (pt_proc <$> w_past w).

Lemma pair_exclusive w s : world_ok w → ¬ (accepting (w_new w) s ∧ accepting (w_old w) s) ∧ ¬ (reading (w_new w) s ∧ reading (w_old w) s).
Proof.
  intros [_ _ _ _ Hold Hnew _ _ _ _ _]. assert (Hexit : w_oph w = OExited → shut (w_old w)) by (intros Ho; by rewrite Ho in Hold). split; intros [Hpnew Hpold].
  - destruct (w_nph w); simpl in Hnew; try by eapply shut_accepting.
    + by destruct Hnew as [?%(shut_accepting _ s) _].
    + destruct Hnew as (? & _), Hpnew. congruence.
    + destruct Hnew as (? & _), Hpnew. congruence.
    + destruct Hnew as (_ & _ & [[Ho _]|Ho]); [|by eapply shut_accepting; [apply Hexit|]]. rewrite Ho in Hold. destruct Hold as [_ Hp].
      destruct Hpold as (_ & l & v & Hl & Hv & <-). destruct (Hp _ _ Hl Hv) as [?%elem_of_nil|Hn]; [done|]. destruct Hpnew as (_ & ?%listens_holds). done.
    + eapply shut_accepting; [by apply Hexit|done].
  - destruct (w_nph w); simpl in Hnew; try by eapply shut_reading.
    + by destruct Hnew as [?%(shut_reading _ s) _].
    + destruct Hnew as (_ & ? & _), Hpnew. congruence.
    + destruct Hnew as (_ & ? & _), Hpnew. congruence.
    + destruct Hnew as (_ & ? & _), Hpnew. congruence.
    + eapply shut_reading; [by apply Hexit|done].
Qed.

Lemma older_apart w i j p q s : world_ok w → (i < j)%nat → processes w !! i = Some p → processes w !! j = Some q → ¬ (accepting p s ∧ accepting q s).
Proof.
  intros Hok Hlt Hi Hj [Hp Hq]. pose proof (wo_chain _ Hok) as [_ Ha Ho _]. destruct Hq as [Hacc Hlq]. destruct j as [|[|j]]; [lia| |].
  { destruct i as [|i]; [|lia]. simplify_eq/=. by apply (proj1 (pair_exclusive w s Hok)). }
  simpl in Hj. apply list_lookup_fmap_Some in Hj as (pj & -> & Hj). destruct Hp as [_ Hlp%listens_holds]. destruct i as [|[|i]]; simplify_eq/=.
  - eapply Ha; [exact Hj| |exact Hlq]. by right; left.
  - eapply Ha; [exact Hj| |exact Hlq]. by left.
  - apply list_lookup_fmap_Some in Hi as (pi & -> & Hi). eapply (Ho i j); [lia|done..].
Qed.

(** C22: through any number of handovers, each of which may begin while earlier processes still drain, with failures and exits at any point on every
    side and sockets opened and closed meanwhile, no two of all the processes accept connections on the same socket; and a process never reads
    datagrams from a socket that the one it replaced reads, though it may read one that an earlier process still reads (udp_read_twice).  A process that starts when none answers is another run. *)
Theorem handover_exclusive w s i j p q : handover_reach w → processes w !! i = Some p → processes w !! j = Some q →
  (i ≠ j → ¬ (accepting p s ∧ accepting q s)) ∧ (j = S i → ¬ (reading p s ∧ reading q s)).
Proof.
  intros Hok%handover_reach_ok Hi Hj. split.
  - intros Hne. destruct (Nat.lt_trichotomy i j) as [Hlt|[?|Hlt]]; [by eapply (older_apart w i j)|done|]. intros [Hp Hq]. by eapply (older_apart w j i).
  - intros ->. destruct i as [|i]; simplify_eq/=; [apply (pair_exclusive w s Hok)|]. intros [[Hudp _] Hq].
    pose proof (wo_chain _ Hok) as [Hpr _ _ Hu]. apply list_lookup_fmap_Some in Hj as (pj & -> & Hj). destruct (Hpr _ _ Hj) as (_ & _ & Hshut & _).
    eapply shut_reading; [apply Hshut|exact Hq]. by eapply Hu.
Qed.

(** Until it has read "ready" from a replacement, the serving process accepts on every listener it has not closed, whatever replacements did
    before: a connection that arrives is accepted. *)
Theorem handover_serves_until_ready w l v closed_first : handover_reach w → w_oph w ∈ [OIdle; OHello; OWait] → p_listeners (w_old w) !! l = Some v →
  l_closed v = false → Accept (p_set (w_old w)) v closed_first true = Connection.
Proof.
  intros Hr Ho Hl Hc. destruct (handover_reach_ok _ Hr) as [_ _ _ [Hset _] Hold _ _ _ _ _ _].
  assert (Hsound : sound (w_old w)) by (rewrite !elem_of_cons in Ho; destruct Ho as [Ho|[Ho|[Ho|Ho%elem_of_nil]]]; [rewrite Ho in Hold; by destruct Hold..|done]).
  assert (Hne : w_oph w ≠ OExited) by (intros Hx; rewrite Hx in Ho; revert Ho; not_in).
  pose proof (Hset Hne) as Ha. destruct (Hsound _ _ Hl) as [_ Hi]. unfold Accept. by rewrite Ha, Hc, (Hi Hc).
Qed.

(** C23: a replacement that reads what the serving process offers gets a descriptor of every one of its sockets under its name, its epoch and, in
    order, every certificate record of at most 128 KiB (a larger one is skipped); no descriptor is left over, and no message and no list of sockets exceeds the buffers of the receiver, however many sockets and
    records there are.  This is for an epoch that is UTF-8 of 1 to 128 bytes, names of sockets that are UTF-8 of at most 200 bytes, and records of at least 8 bytes each: a batch is limited
    by the bytes of its records and not by their number. *)
Theorem handover_complete s epoch records next : names_plain epoch (owned s) → Forall (λ r, (8 ≤ len r)%Z) records →
  (∃ m, inherit true next (offer_messages s epoch records) = ([], Some (mkInheritance epoch (List.filter (λ r, (len r <=? 128 * 1024)%Z) records) m, [])) ∧
    f_socket <$> m = f_socket <$> owned s) ∧
  ∀ d, d ∈ offer_messages s epoch records → (json_size (d_message d) ≤ 256 * 1024)%Z ∧ (length (d_rights d) ≤ 200)%nat.
Proof.
  intros Hfit%names_plain_fit Hrec. split.
  - destruct (inherit_offered s epoch records next [] Hfit Hrec) as (m & Hm & Hs). rewrite app_nil_r in Hm. by exists m.
  - intros d [Hd|Hd]%elem_of_app; [by eapply offer_sockets_fit|]. split; [apply (batches_fit records [] d); by (done || constructor)|].
    destruct (certificate_batches_spec _ _ _ _ Hd) as [_ ->]. simpl. lia.
Qed.
End claims.

(** ** A run *)

Definition eval_json_size (m : message) : Z :=
  (21 + (if m_More m then 12 else 0)
   + match m_Certs m with [] => 0 | c => 11 + sum_size json_record_size c + (Z.of_nat (length c) - 1) end
   + sum_size len (m_Keys m) + len (m_Epoch m))%Z.

Lemma eval_json_size_certificates certs more : eval_json_size (certificates_message certs more) =
  (21 + (if more then 12 else 0) + match certs with [] => 0 | _ => 11 + sum_size json_record_size certs + (Z.of_nat (length certs) - 1) end)%Z.
Proof. unfold eval_json_size. simpl. rewrite !Z.add_0_r. by destruct certs. Qed.

Lemma eval_json_size_sockets epoch keys more :
  (eval_json_size (mkMessage "sockets" epoch keys more []) ≤ 49 + 6 * len epoch + sum_size (λ k, 6 * len k + 3) keys)%Z.
Proof.
  unfold eval_json_size. cbn [m_More m_Certs m_Keys m_Epoch]. assert (Hk : (sum_size len keys ≤ sum_size (λ k, 6 * len k + 3) keys)%Z).
  { induction keys as [|k keys IH]; simpl; [lia|]. unfold len in *. lia. }
  unfold len in *. destruct more; lia.
Qed.

Definition eval_handover : HandoverJSON := {|
  json_size := eval_json_size;
  json_text s := s;
  json_text_valid _ _ := eq_refl;
  json_size_sockets := eval_json_size_sockets;
  json_size_certificates certs more _ := eval_json_size_certificates certs more;
|}.
#[local] Existing Instances eval_runtime eval_handover.

Definition sample_old : process := listen new_process "tcp a" (Bound 0 0) 0.
Definition sample_records : list string := ["certificate"].
Definition sample_offer : list Datagram := offer_messages (p_set sample_old) "epoch" sample_records.
Definition sample_file : File := mkFile 1 0.
Definition sample_inheritance : Inheritance := mkInheritance "epoch" sample_records {["tcp a" := sample_file]}.

Lemma sample_inherits : inherit true 1 sample_offer = ([], Some (sample_inheritance, [])).
Proof. vm_compute. reflexivity. Qed.

Lemma plain_names p k f : owned (p_set p) = {[k := f]} → utf8.ValidString k = true → (len k ≤ 200)%Z → names_plain "epoch" (owned (p_set p)).
Proof. intros -> Hu Hl. split; [done|]. split; [done|]. split; [by vm_compute|]. by intros k' f' [<- <-]%lookup_singleton_Some. Qed.

Lemma sample_plain : names_plain "epoch" (owned (p_set sample_old)).
Proof. by apply (plain_names _ "tcp a" (mkFile 0 0)); vm_compute. Qed.

(** The replacement has inherited the socket and listens on it, and says that it is ready. *)
Definition sample_new : process := listen (mkProcess (inheriting sample_inheritance) ∅ ∅) "tcp a" (Bound 2 2) 2.
Definition sample_warm : World := mkWorld [] sample_old sample_new OWait NReady [] [plain_datagram "ready"] true 3.

Lemma sample_warm_reach : handover_reach sample_warm.
Proof.
  unfold handover_reach, start, sample_warm.
  eapply rtc_l. { apply (old_acts _ _ sample_old); [done|]. apply do_listen. right. right. left. }
  eapply rtc_l. { apply new_dials. left. }
  eapply rtc_l. { apply (old_offers _ _ _ _ _ _ _ _ "epoch" sample_records); [exact sample_plain|]. repeat constructor. by vm_compute. }
  eapply rtc_l. { apply (new_inherits _ _ _ _ _ _ _ _ [] sample_inheritance []). exact sample_inherits. }
  eapply rtc_l. { apply (new_acts _ _ _ sample_new); [left|]. apply (do_listen _ _ "tcp a" (Bound 2 2)). right. right. left. }
  apply rtc_once. apply (new_is_ready _ _ _ _ _ []).
Qed.

(** The old process releases and the new one takes over. *)
Definition sample_released : process := release_close (mkProcess (release_mark (p_set sample_old)).1 (p_listeners sample_old) (p_packets sample_old)) 0.
Definition sample_taken : World :=
  mkWorld [] sample_released (mkProcess (take_over (p_set sample_new)).1 (p_listeners sample_new) (p_packets sample_new)) OReleased NServing [] [] true 3.

Lemma sample_mark : (release_mark (p_set sample_old)).2 = [0%nat].
Proof. vm_compute. reflexivity. Qed.

Lemma sample_taken_reach : handover_reach sample_taken.
Proof.
  unfold handover_reach; etrans; [exact sample_warm_reach|]. unfold sample_warm, sample_taken.
  eapply rtc_l. { apply old_releases. } rewrite sample_mark.
  eapply rtc_l. { apply old_closes. }
  eapply rtc_l. { apply (old_replies _ _ _ _ _ _ _ _ [plain_datagram "released"]). right. left. }
  apply rtc_once. apply new_takes_over.
Qed.

Lemma handover_exclusive_witness : accepting (w_new sample_taken) 0 ∧ ¬ accepting (w_old sample_taken) 0 ∧
  ¬ (reading (w_new sample_taken) 0 ∧ reading (w_old sample_taken) 0).
Proof.
  assert (Hnew : accepting (w_new sample_taken) 0).
  { split; [reflexivity|]. exists 2%nat, (mkListener "tcp a" (Some sample_file) 0 true false). split_and!; vm_compute; reflexivity. }
  destruct (handover_exclusive sample_taken 0 0 1 (w_new sample_taken) (w_old sample_taken) sample_taken_reach eq_refl eq_refl) as [Hx Hy].
  split; [exact Hnew|]. split; [|exact (Hy eq_refl)]. intros Hold. exact (Hx (Nat.neq_0_succ 0) (conj Hnew Hold)).
Defined.

Lemma handover_serves_until_ready_witness : Accept (p_set sample_old) (mkListener "tcp a" (Some (mkFile 0 0)) 0 true false) false true = Connection.
Proof.
  apply (handover_serves_until_ready sample_warm 0 _ false sample_warm_reach); [right; right; left|vm_compute; reflexivity|reflexivity].
Defined.

Lemma handover_complete_witness : ∃ m, inherit true 1 sample_offer = ([], Some (mkInheritance "epoch" sample_records m, [])).
Proof.
  destruct (handover_complete (p_set sample_old) "epoch" sample_records 1 sample_plain) as [(m & Hm & _) _]; [repeat constructor; vm_compute; discriminate|].
  exists m. exact Hm.
Defined.

(** ** Three gaps *)

(** A replacement that has said "ready" and gives up waiting for the answer exits; the serving process reads "ready" all the same and
    releases its sockets.  Then no process accepts. *)
Theorem handover_gap : ∃ w, handover_reach w ∧ w_oph w = OReleased ∧ w_nph w = NGone ∧ ∀ s, ¬ accepting (w_old w) s ∧ ¬ accepting (w_new w) s.
Proof.
  exists (mkWorld [] sample_released (exited sample_new) OReleased NGone [plain_datagram "released"] [] true 3). split_and!; try done.
  - unfold handover_reach; etrans; [exact sample_warm_reach|]. unfold sample_warm.
    eapply rtc_l. { apply new_fails. right. right. left. }
    eapply rtc_l. { apply old_releases. } rewrite sample_mark.
    eapply rtc_l. { apply old_closes. }
    apply rtc_once. apply (old_replies _ _ _ _ [] _ _ _ [plain_datagram "released"]). right. left.
  - intros s. split; [|apply shut_accepting, shut_exited]. simpl. intros (_ & l & v & Hl & Hv & _).
    assert (Hall : map_Forall (λ _ v, l_inner v = false) (p_listeners sample_released)).
    { apply (bool_decide_unpack _). vm_compute. exact I. }
    specialize (Hall _ _ Hl). simpl in Hall. congruence.
Qed.

(** A listener that the serving process opens after it has released still accepts in it. *)
Theorem listen_after_release : ∃ w, handover_reach w ∧ w_oph w = OReleased ∧ released (p_set (w_old w)) = true ∧ accepting (w_old w) 3.
Proof.
  exists (mkWorld [] (listen sample_released "tcp b" (Bound 3 3) 3) (w_new sample_taken) OReleased NServing [] [] true 4). split_and!; try done.
  - eapply rtc_r; [exact sample_taken_reach|]. apply old_acts; [done|]. apply do_listen. right. right. left.
  - split; [done|]. exists 3%nat, (mkListener "tcp b" (Some (mkFile 3 3)) 3 true false). by split_and!; vm_compute.
Qed.

(** A whole handover of a process that has one packet socket, after which the replacement reads that socket once it may. *)
Lemma udp_handover past old new0 n qn qo c next i new : n ∈ [NNone; NGone] → names_plain "epoch" (owned (p_set old)) →
  inherit true next (offer_messages (p_set old) "epoch" []) = ([], Some (i, [])) → (release_mark (p_set old)).2 = [] →
  let next' := (next + length (concat (d_rights <$> offer_messages (p_set old) "epoch" [])))%nat in
  new = listenPacket (mkProcess (inheriting i) ∅ ∅) "udp a" (Bound next' next') next' →
  rtc handover_step (mkWorld past old new0 OIdle n qn qo c next)
    (mkWorld past (mkProcess (release_mark (p_set old)).1 (p_listeners old) (p_packets old))
       (mkProcess (take_over (p_set new)).1 (p_listeners new) (p_packets new)) OReleased NServing [] [] true (S next')).
Proof.
  intros Hn Hplain Hi Hmark next' ->.
  eapply rtc_l. { by apply new_dials. }
  eapply rtc_l. { by apply (old_offers _ _ _ _ _ _ _ _ "epoch" []). }
  eapply rtc_l. { apply (new_inherits _ _ _ _ _ _ _ _ [] i []). exact Hi. }
  eapply rtc_l. { eapply (new_acts _ _ _ _ _ NWarm); [left|]. apply (do_listenPacket _ _ "udp a" (Bound next' next')). right. right. left. }
  eapply rtc_l. { apply (new_is_ready _ _ _ _ _ []). }
  eapply rtc_l. { apply old_releases. } rewrite Hmark.
  eapply rtc_l. { apply (old_replies _ _ _ _ _ _ _ _ [plain_datagram "released"]). right. left. }
  apply rtc_once. apply new_takes_over.
Qed.

Definition first_udp : process := listenPacket new_process "udp a" (Bound 0 0) 0.
Definition taken_over (socket_file : File) (n : nat) : process :=
  let new := listenPacket (mkProcess (inheriting (mkInheritance "epoch" [] {["udp a" := socket_file]})) ∅ ∅) "udp a" (Bound n n) n in
  mkProcess (take_over (p_set new)).1 (p_listeners new) (p_packets new).
Definition marked (p : process) : process := mkProcess (release_mark (p_set p)).1 (p_listeners p) (p_packets p).

Definition udp_world : World :=
  mkWorld [mkPast (marked first_udp) OReleased [] true] (exited (marked (taken_over (mkFile 1 0) 2)))
    (mkProcess (open_udp (p_set (taken_over (mkFile 3 0) 4))) (p_listeners (taken_over (mkFile 3 0) 4)) (p_packets (taken_over (mkFile 3 0) 4))) OExited NUDP [] [] false 5.

Lemma udp_world_reach : handover_reach udp_world.
Proof.
  unfold handover_reach, start, udp_world.
  eapply rtc_l. { apply (old_acts _ _ first_udp); [done|]. apply (do_listenPacket _ _ "udp a" (Bound 0 0)). right. right. left. }
  etrans. { eapply (udp_handover _ _ _ NNone _ _ _ _ (mkInheritance "epoch" [] {["udp a" := mkFile 1 0]}) _); [left| | | |reflexivity]; [|by vm_compute..].
    by apply (plain_names _ "udp a" (mkFile 0 0)); vm_compute. }
  eapply rtc_l. { apply succession. left. }
  etrans. { eapply (udp_handover _ _ _ NNone _ _ _ _ (mkInheritance "epoch" [] {["udp a" := mkFile 3 0]}) _); [left| | | |reflexivity]; [|by vm_compute..].
    by apply (plain_names _ "udp a" (mkFile 1 0)); vm_compute. }
  eapply rtc_l. { apply old_exits. }
  apply rtc_once. apply new_opens_udp. by right.
Qed.

(** A replacement waits only for the process before it to exit.  When that one exits first, while a process that it replaced still drains, two
    processes read datagrams from one socket. *)
Theorem udp_read_twice : ∃ w p, handover_reach w ∧ w_past w !! 0%nat = Some p ∧ reading (w_new w) 0 ∧ reading (pt_proc p) 0.
Proof.
  exists udp_world, (mkPast (marked first_udp) OReleased [] true). split; [exact udp_world_reach|]. split; [done|]. split; (split; [by vm_compute|]).
  - exists 4%nat, (mkPacketConn "udp a" (Some (mkFile 3 0)) 0 false). split_and!; vm_compute; reflexivity.
  - exists 0%nat, (mkPacketConn "udp a" (Some (mkFile 0 0)) 0 false). split_and!; vm_compute; reflexivity.
Qed.
