(* ===== verification/Edgeset.v ===== *)
(** * The edges of a workspace: src/server/internal/edgeset

    Each workspace has a stored set of edges.  choose keeps the members that are still there and fills the free places; the reconciler
    stores the result.  What the database answers to a query is an argument; the table of sets is the state. *)
From S2P Require Import Prelude GoStd GoData GoNet.

(** ** choose: select.go *)

Definition Size : nat := 2.

Record Candidate := mkCandidate { c_NodeID : string; c_FailureDomain : string }.

#[export] Instance Candidate_eq_dec : EqDecision Candidate.
Proof. solve_decision. Defined.

(** binary.BigEndian.Uint64 *)
Definition Uint64_be (s : string) : Z := fold_left (λ n c, (256 * n + Z.of_N (N_of_ascii c))%Z) (str.bytes s) 0%Z.

Definition nul : string := String "000" EmptyString.

(** The local variables of choose. *)
Record picking := mkPicking { pk_chosen : list string; pk_domains : gset string; pk_taken : gset string }.

Section choose.
Context `{SHA256}.

Definition score (scope node : string) : Z := Uint64_be (String.substring 0 8 (Sum256 (scope +:+ nul +:+ node))).

Definition candidate_less (scope : string) (a b : Candidate) : bool :=
  let si := score scope (c_NodeID a) in let sj := score scope (c_NodeID b) in
  if negb (si =? sj)%Z then (sj <? si)%Z else str_ltb (c_NodeID a) (c_NodeID b).

Definition domainOf (usable : list Candidate) : gmap string string := foldl (λ m c, <[c_NodeID c := c_FailureDomain c]> m) ∅ usable.

Definition pick (p : picking) (id domain : string) : picking :=
  mkPicking (pk_chosen p ++ [id]) (if String.eqb domain "" then pk_domains p else {[domain]} ∪ pk_domains p) ({[id]} ∪ pk_taken p).

Definition keep_one (domains : gmap string string) (retained : gset string) (size : nat) (p : picking) (id : string) : picking :=
  if bool_decide (id ∈ retained) && negb (bool_decide (id ∈ pk_taken p)) && (length (pk_chosen p) <? size)%nat
  then pick p id (default "" (domains !! id)) else p.

(** One pass over the ranked candidates.  Where the source returns from the function, a second pass does nothing either. *)
Fixpoint fill (size : nat) (distinct : bool) (p : picking) (ranked : list Candidate) : picking :=
  match ranked with
  | [] => p
  | c :: rest =>
      if (size <=? length (pk_chosen p))%nat then p
      else if bool_decide (c_NodeID c ∈ pk_taken p)
              || distinct && negb (String.eqb (c_FailureDomain c) "") && bool_decide (c_FailureDomain c ∈ pk_domains p)
      then fill size distinct p rest
      else fill size distinct (pick p (c_NodeID c) (c_FailureDomain c)) rest
  end.

Definition kept (current : list string) (retained : gset string) (usable : list Candidate) (size : nat) : picking :=
  foldl (keep_one (domainOf usable) retained size) (mkPicking [] ∅ ∅) current.

Definition choose (scope : string) (current : list string) (retained : gset string) (usable : list Candidate) (size : nat) : list string :=
  let ranked := sort_by (candidate_less scope) usable in
  pk_chosen (fill size false (fill size true (kept current retained usable size) ranked) ranked).

(** ** ReconcileScope: reconcile.go *)

Record Scope := mkScope { sc_Kind : string; sc_ID : string; sc_Account : string }.

(** A row of workspace_edge_sets, and the table by kind and ID. *)
Record EdgeSet := mkEdgeSet { es_mode : string; es_nodes : list string; es_generation : Z }.

(** What the database answers: the mode, the usable and the retained edges, and whether the write succeeds. *)
Record Answers := mkAnswers { an_mode : option string; an_usable : option (list Candidate); an_retained : option (list string); an_write : bool }.

Definition scope_invalid (s : Scope) : bool :=
  String.eqb (sc_ID s) "" || String.eqb (sc_Account s) "" || (negb (String.eqb (sc_Kind s) "account") && negb (String.eqb (sc_Kind s) "team")).

(** The members the new set starts from. *)
Definition starting (row : option EdgeSet) (mode : string) : list string :=
  match row with Some r => if String.eqb (es_mode r) mode then es_nodes r else [] | None => [] end.

Definition store (row : option EdgeSet) (mode : string) (chosen : list string) : EdgeSet :=
  mkEdgeSet mode chosen (match row with Some r => es_generation r + 1 | None => 1 end)%Z.

(** The table afterwards, and whether the set changed; [None] is an error, which rolls the transaction back. *)
Definition ReconcileScope (t : gmap (string * string) EdgeSet) (scope : Scope) (a : Answers) : gmap (string * string) EdgeSet * option bool :=
  if scope_invalid scope then (t, None)
  else match an_mode a with
  | None => (t, None)
  | Some mode =>
      let row := t !! (sc_Kind scope, sc_ID scope) in
      match an_usable a, an_retained a with
      | Some usable, Some retained =>
          let current := starting row mode in
          let chosen := choose (sc_Kind scope +:+ "/" +:+ sc_ID scope) current (list_to_set retained) usable Size in
          if (length chosen =? 0)%nat then (t, Some false)
          else if match row with Some r => String.eqb (es_mode r) mode && bool_decide (current = chosen) | None => false end then (t, Some false)
          else if an_write a then (<[(sc_Kind scope, sc_ID scope) := store row mode chosen]> t, Some true) else (t, None)
      | _, _ => (t, None)
      end
  end.

Definition EnsureTx (t : gmap (string * string) EdgeSet) (scope : Scope) (a : Answers) : gmap (string * string) EdgeSet * option unit :=
  match t !! (sc_Kind scope, sc_ID scope) with
  | Some _ => (t, Some tt)
  | None => let '(t', r) := ReconcileScope t scope a in (t', match r with Some _ => Some tt | None => None end)
  end.

(** ** ReconcileAll *)

Definition page : nat := 100.

(** One page of scopes, each in a transaction of its own: the table, the number of sets that changed, and whether all went well. *)
Fixpoint reconcile_page (t : gmap (string * string) EdgeSet) (answers : Scope → Answers) (changed : Z) (scopes : list Scope) : gmap (string * string) EdgeSet * Z * bool :=
  match scopes with
  | [] => (t, changed, true)
  | s :: rest =>
      match ReconcileScope t s (answers s) with
      | (_, None) => (t, changed, false)
      | (t', Some did) => reconcile_page t' answers (if did then changed + 1 else changed)%Z rest
      end
  end.

(** [query] answers scopesSQL: the scopes after a kind and an ID, at most so many. *)
Fixpoint reconcile_pages (fuel : nat) (t : gmap (string * string) EdgeSet) (answers : Scope → Answers) (query : string * string → nat → option (list Scope)) (changed : Z) (after : string * string) :
    option (gmap (string * string) EdgeSet * Z * bool) :=
  match fuel with
  | O => None
  | S fuel =>
      match query after page with
      | None => Some (t, changed, false)
      | Some scopes =>
          match reconcile_page t answers changed scopes with
          | (t', changed', false) => Some (t', changed', false)
          | (t', changed', true) =>
              if (length scopes <? page)%nat then Some (t', changed', true)
              else match last scopes with
                   | Some s => reconcile_pages fuel t' answers query changed' (sc_Kind s, sc_ID s)
                   | None => Some (t', changed', true)
                   end
          end
      end
  end.

Definition ReconcileAll (fuel : nat) (t : gmap (string * string) EdgeSet) (answers : Scope → Answers) (query : string * string → nat → option (list Scope)) : option (gmap (string * string) EdgeSet * Z * bool) :=
  reconcile_pages fuel t answers query 0 ("", "").
End choose.

(** * What choose and the reconciler promise *)

(** ** The passes *)

Record pick_ok (size : nat) (p : picking) : Prop := {
  po_nodup : NoDup (pk_chosen p);
  po_taken : ∀ id, id ∈ pk_taken p ↔ id ∈ pk_chosen p;
  po_size : (length (pk_chosen p) ≤ size)%nat;
}.

Lemma pick_pick_ok size p id domain : pick_ok size p → id ∉ pk_taken p → (length (pk_chosen p) < size)%nat → pick_ok size (pick p id domain).
Proof.
  intros [Hnd Ht Hs] Hid Hlt. split; simpl.
  - apply NoDup_app. split; [done|]. split; [|apply NoDup_singleton]. intros x Hx ->%list_elem_of_singleton. by apply Hid, Ht.
  - intros x. rewrite elem_of_union, elem_of_singleton, elem_of_app, list_elem_of_singleton, Ht. tauto.
  - rewrite length_app. simpl. lia.
Qed.

(** The domains that the members of a list add. *)
Definition known_domains (cs : list Candidate) : list string := List.filter (λ d, negb (String.eqb d "")) (c_FailureDomain <$> cs).

(** What a pass adds to the chosen. *)
Record filled (size : nat) (distinct : bool) (p p' : picking) (ranked cs : list Candidate) : Prop := {
  fi_ok : pick_ok size p';
  fi_chosen : pk_chosen p' = pk_chosen p ++ (c_NodeID <$> cs);
  fi_from : cs ⊆ ranked;
  fi_domains : ∀ d, d ∈ pk_domains p' ↔ d ∈ pk_domains p ∨ d ∈ known_domains cs;
  fi_distinct : distinct = true → NoDup (known_domains cs) ∧ ∀ d, d ∈ known_domains cs → d ∉ pk_domains p;
  fi_all : (length (pk_chosen p') < size)%nat → ∀ c, c ∈ ranked → c_NodeID c ∈ pk_chosen p' ∨ distinct = true ∧ c_FailureDomain c ≠ "" ∧ c_FailureDomain c ∈ pk_domains p';
}.

Lemma elem_of_known_domains d cs : d ∈ known_domains cs ↔ d ≠ "" ∧ ∃ c, c ∈ cs ∧ c_FailureDomain c = d.
Proof.
  unfold known_domains. rewrite list_elem_of_In, filter_In, <-list_elem_of_In, list_elem_of_fmap, negb_true_iff, String.eqb_neq. naive_solver.
Qed.

Lemma fill_filled size distinct ranked p : pick_ok size p → ∃ cs, filled size distinct p (fill size distinct p ranked) ranked cs.
Proof.
  revert p. induction ranked as [|c ranked IH]; intros p Hp; cbn [fill].
  { exists []. split; simpl; try done; [by rewrite app_nil_r|intros d; split; [by left|by intros [?|?%elem_of_nil]]|intros _; split; [constructor|by intros d ?%elem_of_nil]|
      by intros _ c ?%elem_of_nil]. }
  destruct (Nat.leb_spec size (length (pk_chosen p))) as [Hfull|Hroom].
  { exists []. split; simpl; try done; [by rewrite app_nil_r|intros x ?%elem_of_nil; done|intros d; split; [by left|by intros [?|?%elem_of_nil]]|
      intros _; split; [constructor|by intros d ?%elem_of_nil]|intros Hlt; lia]. }
  destruct (bool_decide (c_NodeID c ∈ pk_taken p) || distinct && negb (String.eqb (c_FailureDomain c) "") && bool_decide (c_FailureDomain c ∈ pk_domains p)) eqn:Hskip.
  - destruct (IH p Hp) as (cs & [Hok Hch Hfrom Hdom Hdis Hall]). exists cs. split; try done; [intros x Hx; right; by apply Hfrom|].
    intros Hlt x [->|Hx]%elem_of_cons; [|by apply Hall]. apply orb_true_iff in Hskip as [Ht|Hd].
    + left. rewrite Hch. apply elem_of_app. left. apply bool_decide_eq_true in Ht. by apply (po_taken _ _ Hp).
    + right. rewrite !andb_true_iff, negb_true_iff, String.eqb_neq, bool_decide_eq_true in Hd. destruct Hd as [[-> Hne] Hd]. split_and!; try done. apply Hdom. by left.
  - apply orb_false_iff in Hskip as [Ht%bool_decide_eq_false Hd]. destruct (IH (pick p (c_NodeID c) (c_FailureDomain c))) as (cs & [Hok Hch Hfrom Hdom Hdis Hall]);
      [by apply pick_pick_ok|]. exists (c :: cs).
    assert (Hadd : ∀ d, d ∈ known_domains (c :: cs) ↔ d ≠ "" ∧ d = c_FailureDomain c ∨ d ∈ known_domains cs).
    { intros d. rewrite !elem_of_known_domains. setoid_rewrite elem_of_cons. naive_solver. }
    assert (Hpick : ∀ d, d ∈ pk_domains (pick p (c_NodeID c) (c_FailureDomain c)) ↔ d ≠ "" ∧ d = c_FailureDomain c ∨ d ∈ pk_domains p).
    { intros d. simpl. destruct (String.eqb_spec (c_FailureDomain c) "") as [He|He]; rewrite ?elem_of_union, ?elem_of_singleton; naive_solver. }
    split; simpl; try done.
    + rewrite Hch. simpl. by rewrite <-app_assoc.
    + intros x [->|Hx]%elem_of_cons; [left|right; by apply Hfrom].
    + intros d. rewrite Hdom, Hpick, Hadd. tauto.
    + intros ->. destruct (Hdis eq_refl) as [Hnd Hout]. split.
      * unfold known_domains. simpl. destruct (String.eqb_spec (c_FailureDomain c) "") as [He|He]; simpl; [done|]. constructor; [|done].
        intros Hin. apply (Hout _ Hin), Hpick. by left.
      * intros d. rewrite Hadd. intros [[Hne ->]|Hin].
        -- destruct (String.eqb_spec (c_FailureDomain c) ""); simpl in Hd; [done|]. by apply bool_decide_eq_false in Hd.
        -- intros Hp'. apply (Hout _ Hin), Hpick. by right.
    + intros Hlt x [->|Hx]%elem_of_cons; [|by apply Hall]. left. rewrite Hch. apply elem_of_app. left. simpl. apply elem_of_app. right. left.
Qed.

(** ** The members that are kept *)

Section keep.
Context (domains : gmap string string) (retained : gset string) (size : nat).

(** The retained members in order, each once, as many as there is room for. *)
Definition retained_members (current : list string) : list string := firstn size (foldl (λ l id, if decide (id ∈ retained ∧ id ∉ l) then l ++ [id] else l) [] current).

Lemma keep_ok current p : pick_ok size p → pick_ok size (foldl (keep_one domains retained size) p current).
Proof.
  revert p. induction current as [|id current IH]; intros p Hp; simpl; [done|]. apply IH. unfold keep_one.
  destruct (_ && _) eqn:Hk; [|done]. rewrite !andb_true_iff, negb_true_iff, bool_decide_eq_false, Nat.ltb_lt in Hk. destruct Hk as [[_ Hid] Hlt]. by apply pick_pick_ok.
Qed.

Lemma keep_chosen current p l : pick_ok size p → pk_chosen p = firstn size l → NoDup l →
  pk_chosen (foldl (keep_one domains retained size) p current) =
    firstn size (foldl (λ l id, if decide (id ∈ retained ∧ id ∉ l) then l ++ [id] else l) l current).
Proof.
  revert p l. induction current as [|id current IH]; intros p l Hp Hl Hnd; simpl; [done|]. unfold keep_one at 2.
  destruct (decide (id ∈ retained ∧ id ∉ l)) as [[Hr Hn]|Hx].
  - assert (Hnd' : NoDup (l ++ [id])).
    { apply NoDup_app. split; [done|]. split; [|apply NoDup_singleton]. by intros x Hx' ->%list_elem_of_singleton. }
    assert (Hid : id ∉ pk_taken p) by (rewrite (po_taken _ _ Hp), Hl; intros Hin; apply Hn; eapply elem_of_sublist; [exact Hin|apply sublist_take]).
    rewrite (bool_decide_eq_true_2 _ Hr), (bool_decide_eq_false_2 _ Hid). simpl. destruct (Nat.ltb_spec (length (pk_chosen p)) size) as [Hlt|Hge].
    + apply IH; [by apply pick_pick_ok| |done]. simpl. rewrite Hl in *. rewrite length_take in Hlt. rewrite !take_ge; [done|rewrite length_app; simpl; lia|lia].
    + apply IH; [done| |done]. rewrite Hl in *. rewrite length_take in Hge. rewrite take_app_le by lia. done.
  - apply IH; [|idtac|done].
    + destruct (_ && _) eqn:Hk; [|done]. rewrite !andb_true_iff, negb_true_iff, bool_decide_eq_false, Nat.ltb_lt in Hk. destruct Hk as [[_ Hid] Hlt]. by apply pick_pick_ok.
    + destruct (_ && _) eqn:Hk; [|done]. exfalso. rewrite !andb_true_iff, negb_true_iff, bool_decide_eq_false, bool_decide_eq_true, Nat.ltb_lt in Hk.
      destruct Hk as [[Hr Hid] Hlt]. apply Hx. split; [done|]. intros Hin. apply Hid. rewrite (po_taken _ _ Hp), Hl.
      rewrite Hl, length_take in Hlt. rewrite take_ge by lia. done.
Qed.
End keep.

(** ** choose *)

Section choose.
Context `{SHA256}.

Lemma elem_of_domainOf usable id d : NoDup (c_NodeID <$> usable) → domainOf usable !! id = Some d ↔ mkCandidate id d ∈ usable.
Proof.
  unfold domainOf. intros Hnd. assert (Hgen : ∀ m : gmap string string, (∀ c, c ∈ usable → m !! c_NodeID c = None) →
    foldl (λ m c, <[c_NodeID c := c_FailureDomain c]> m) m usable !! id = Some d ↔ mkCandidate id d ∈ usable ∨ m !! id = Some d).
  { induction usable as [|c usable IH]; intros m Hm; simpl; [rewrite elem_of_nil; tauto|]. simpl in Hnd. apply NoDup_cons in Hnd as [Hc Hnd]. rewrite IH; [|done|].
    - rewrite elem_of_cons, lookup_insert_Some. specialize (Hm c (list_elem_of_here _ _)). destruct c as [i e]; simpl in *. split; [intros [?|[[-> ->]|[_ ?]]]; by auto|].
      intros [[[= -> ->]|?]|Hi]; [by auto..|]. right. right. split; [|done]. intros ->. congruence.
    - intros c' Hc'. rewrite lookup_insert_ne; [apply Hm; by right|]. intros Heq. apply Hc. rewrite Heq. by apply list_elem_of_fmap_2. }
  rewrite Hgen by (intros; apply lookup_empty). rewrite lookup_empty. naive_solver.
Qed.

Lemma kept_domains usable retained size current d : NoDup (c_NodeID <$> usable) → d ∈ pk_domains (kept current retained usable size) ↔
  d ≠ "" ∧ ∃ c, c ∈ usable ∧ c_NodeID c ∈ pk_chosen (kept current retained usable size) ∧ c_FailureDomain c = d.
Proof.
  intros Hnd. unfold kept. assert (Hgen : ∀ p, (d ∈ pk_domains p ↔ d ≠ "" ∧ ∃ id, id ∈ pk_chosen p ∧ domainOf usable !! id = Some d) →
    d ∈ pk_domains (foldl (keep_one (domainOf usable) retained size) p current) ↔
      d ≠ "" ∧ ∃ id, id ∈ pk_chosen (foldl (keep_one (domainOf usable) retained size) p current) ∧ domainOf usable !! id = Some d).
  { induction current as [|id current IH]; intros p Hp; simpl; [done|]. apply IH. unfold keep_one. destruct (_ && _); [|done]. simpl. clear IH.
    setoid_rewrite elem_of_app. setoid_rewrite list_elem_of_singleton.
    destruct (domainOf usable !! id) as [e|] eqn:He; simpl; [destruct (String.eqb_spec e "") as [->|Hne]|]; rewrite ?elem_of_union, ?elem_of_singleton, ?Hp; naive_solver. }
  rewrite Hgen by (simpl; rewrite elem_of_empty; setoid_rewrite elem_of_nil; naive_solver). split; intros [Hne Hx]; (split; [done|]).
  - destruct Hx as (id & Hid & Hd). apply elem_of_domainOf in Hd; [|done]. by exists (mkCandidate id d).
  - destruct Hx as ([id e] & Hc & Hid & He). simpl in *. subst e. exists id. split; [done|]. by apply elem_of_domainOf.
Qed.

Lemma nil_pick_ok size : pick_ok size (mkPicking [] ∅ ∅).
Proof. split; simpl; [constructor|intros id; by rewrite elem_of_nil, elem_of_empty|lia]. Qed.

(** The two passes of choose. *)
Lemma choose_passes scope current retained usable size : ∃ p1 cs1 cs2, let ranked := sort_by (candidate_less scope) usable in
  let p2 := fill size false p1 ranked in
  filled size true (kept current retained usable size) p1 ranked cs1 ∧ filled size false p1 p2 ranked cs2 ∧
  choose scope current retained usable size = pk_chosen p2 ∧ pk_chosen (kept current retained usable size) = retained_members retained size current.
Proof.
  set (ranked := sort_by (candidate_less scope) usable).
  destruct (fill_filled size true ranked (kept current retained usable size)) as [cs1 H1']; [apply keep_ok, nil_pick_ok|].
  destruct (fill_filled size false ranked _ (fi_ok _ _ _ _ _ _ H1')) as [cs2 H2'].
  exists (fill size true (kept current retained usable size) ranked), cs1, cs2. simpl. split_and!; try done.
  unfold kept, retained_members. apply keep_chosen; [apply nil_pick_ok|by destruct size|constructor].
Qed.

Lemma choose_spread scope current retained usable size : NoDup (c_NodeID <$> usable) → ∃ cs1 cs2,
  let keep := retained_members retained size current in let chosen := choose scope current retained usable size in
  chosen = keep ++ (c_NodeID <$> cs1) ++ (c_NodeID <$> cs2) ∧ NoDup chosen ∧ (length chosen ≤ size)%nat ∧ cs1 ⊆ usable ∧ cs2 ⊆ usable ∧
  ((length chosen < size)%nat → ∀ c, c ∈ usable → c_NodeID c ∈ chosen) ∧
  NoDup (known_domains cs1) ∧ (∀ c c', c ∈ cs1 → c' ∈ usable → c_NodeID c' ∈ keep → c_FailureDomain c ≠ "" → c_FailureDomain c' ≠ c_FailureDomain c) ∧
  (cs2 ≠ [] → ∀ c, c ∈ usable → c_NodeID c ∈ keep ++ (c_NodeID <$> cs1) ∨
    c_FailureDomain c ≠ "" ∧ ∃ c', c' ∈ usable ∧ c_NodeID c' ∈ keep ++ (c_NodeID <$> cs1) ∧ c_FailureDomain c' = c_FailureDomain c).
Proof.
  intros Hnd. destruct (choose_passes scope current retained usable size) as (p1 & cs1 & cs2 & F1 & F2 & -> & Hkeep). exists cs1, cs2. simpl.
  assert (Hin1 : cs1 ⊆ usable) by (intros c Hc; apply (fi_from _ _ _ _ _ _ F1) in Hc; by apply elem_of_sort_by in Hc).
  assert (Hin2 : cs2 ⊆ usable) by (intros c Hc; apply (fi_from _ _ _ _ _ _ F2) in Hc; by apply elem_of_sort_by in Hc).
  pose proof (kept_domains usable retained size current) as Hkd. destruct (fi_distinct _ _ _ _ _ _ F1 eq_refl) as [Hnd1 Hnew].
  split_and!; try done.
  - rewrite (fi_chosen _ _ _ _ _ _ F2), (fi_chosen _ _ _ _ _ _ F1), Hkeep. by rewrite app_assoc.
  - apply (po_nodup _ _ (fi_ok _ _ _ _ _ _ F2)).
  - apply (po_size _ _ (fi_ok _ _ _ _ _ _ F2)).
  - intros Hlt c Hc. destruct (fi_all _ _ _ _ _ _ F2 Hlt c) as [?|[? _]]; by rewrite ?elem_of_sort_by.
  - intros c c' Hc Hc' Hk Hne Heq. apply (Hnew (c_FailureDomain c)); [apply elem_of_known_domains; by eauto|]. apply Hkd; [done|]. split; [done|]. exists c'. by rewrite Hkeep.
  - intros Hcs c Hc. assert (Hlt : (length (pk_chosen p1) < size)%nat).
    { pose proof (po_size _ _ (fi_ok _ _ _ _ _ _ F2)) as Hsz. rewrite (fi_chosen _ _ _ _ _ _ F2), length_app, length_fmap in Hsz. destruct cs2; [done|]. simpl in Hsz. lia. }
    rewrite <-Hkeep, <-(fi_chosen _ _ _ _ _ _ F1). destruct (fi_all _ _ _ _ _ _ F1 Hlt c) as [?|(_ & Hne & Hd)]; [by rewrite elem_of_sort_by|by left|right]. split; [done|].
    apply (fi_domains _ _ _ _ _ _ F1) in Hd as [Hd|Hd].
    + apply Hkd in Hd as (_ & c' & ? & Hk & ?); [|done]. exists c'. split_and!; try done. rewrite (fi_chosen _ _ _ _ _ _ F1). apply elem_of_app. by left.
    + apply elem_of_known_domains in Hd as (_ & c' & Hc' & ?). exists c'. split_and!; [by apply Hin1| |done]. rewrite (fi_chosen _ _ _ _ _ _ F1). apply elem_of_app. right.
      by apply list_elem_of_fmap_2.
Qed.

(** ** Candidates that are not chosen do not matter *)

Lemma fill_grows size distinct ranked p id : id ∈ pk_chosen p → id ∈ pk_chosen (fill size distinct p ranked).
Proof.
  revert p. induction ranked as [|c ranked IH]; intros p Hid; cbn [fill]; [done|]. destruct (_ <=? _)%nat; [done|]. destruct (_ || _); [by apply IH|].
  apply IH. simpl. apply elem_of_app. by left.
Qed.

Lemma fill_full size distinct ranked p : (size ≤ length (pk_chosen p))%nat → fill size distinct p ranked = p.
Proof. intros Hf. destruct ranked; simpl; [done|]. by rewrite (proj2 (Nat.leb_le _ _)). Qed.

Definition without (id : string) (cs : list Candidate) : list Candidate := List.filter (λ c, negb (String.eqb (c_NodeID c) id)) cs.

Lemma fill_without size distinct ranked p id : id ∉ pk_chosen (fill size distinct p ranked) →
  fill size distinct p (without id ranked) = fill size distinct p ranked.
Proof.
  revert p. induction ranked as [|c ranked IH]; intros p; [done|]. simpl. destruct (Nat.leb_spec size (length (pk_chosen p))) as [Hf|Hr].
  - intros _. destruct (negb _); simpl; [by rewrite (proj2 (Nat.leb_le _ _))|by apply fill_full].
  - destruct (String.eqb_spec (c_NodeID c) id) as [Heq|Hne]; simpl.
    + destruct (_ || _); [by apply IH|]. intros Hn. exfalso. apply Hn, fill_grows. simpl. apply elem_of_app. right. rewrite Heq. left.
    + rewrite (proj2 (Nat.leb_gt _ _)) by done. destruct (_ || _); apply IH.
Qed.

Lemma keep_grows d retained size current p id : id ∈ pk_chosen p → id ∈ pk_chosen (foldl (keep_one d retained size) p current).
Proof.
  revert p. induction current as [|x current IH]; intros p Hid; simpl; [done|]. apply IH. unfold keep_one. destruct (_ && _); [|done]. simpl. apply elem_of_app. by left.
Qed.

Lemma keep_domains_ext d1 d2 retained size current p : (∀ id, id ∈ pk_chosen (foldl (keep_one d1 retained size) p current) → d1 !! id = d2 !! id) →
  foldl (keep_one d1 retained size) p current = foldl (keep_one d2 retained size) p current.
Proof.
  revert p. induction current as [|x current IH]; intros p; simpl; [done|]. intros Hext.
  assert (Heq : keep_one d1 retained size p x = keep_one d2 retained size p x).
  { unfold keep_one. destruct (_ && _) eqn:Hc; [|done]. rewrite (Hext x); [done|]. apply keep_grows. unfold keep_one. rewrite Hc. simpl. apply elem_of_app. right. left. }
  rewrite <-Heq. apply IH. done.
Qed.

#[local] Instance candidate_less_order scope : StrictWeakOrder (candidate_less scope).
Proof.
  unfold candidate_less. split.
  - intros x y. destruct (Z.eqb_spec (score scope (c_NodeID x)) (score scope (c_NodeID y))) as [E|E]; simpl.
    + rewrite E, Z.eqb_refl. simpl. apply str_ltb_asym.
    + rewrite (proj2 (Z.eqb_neq _ _)) by done. simpl. rewrite Z.ltb_lt, Z.ltb_ge. lia.
  - intros x y z. unfold not_after. set (a := score scope (c_NodeID x)). set (b := score scope (c_NodeID y)). set (c := score scope (c_NodeID z)).
    destruct (Z.eqb_spec b a), (Z.eqb_spec c b), (Z.eqb_spec c a); simpl; intros Hxy Hyz; rewrite ?Z.ltb_ge in *; try lia.
    destruct (str_ltb (c_NodeID z) (c_NodeID x)) eqn:E; [|done].
    destruct (str_ltb_trichotomy (c_NodeID x) (c_NodeID y)) as [Hl|[Heq|Hl]]; [|congruence|congruence].
    pose proof (str_ltb_trans _ _ _ E Hl). congruence.
Qed.

Lemma candidate_less_anti scope l x y : NoDup (c_NodeID <$> l) → x ∈ l → y ∈ l → not_after (candidate_less scope) x y → not_after (candidate_less scope) y x → x = y.
Proof.
  unfold not_after, candidate_less. intros Hnd Hx Hy. destruct (Z.eqb_spec (score scope (c_NodeID y)) (score scope (c_NodeID x))) as [E|E]; simpl.
  - rewrite E, Z.eqb_refl. simpl. intros H1' H2'. destruct (str_ltb_trichotomy (c_NodeID x) (c_NodeID y)) as [Hl|[Heq|Hl]]; [congruence| |congruence].
    apply list_elem_of_lookup in Hx as [i Hi]. apply list_elem_of_lookup in Hy as [j Hj]. assert (i = j) as ->; [|congruence].
    eapply NoDup_lookup; [exact Hnd|rewrite list_lookup_fmap, Hi; done|rewrite list_lookup_fmap, Hj; simpl; by rewrite Heq].
  - rewrite (proj2 (Z.eqb_neq (score scope (c_NodeID x)) _)) by done. simpl. rewrite !Z.ltb_ge. lia.
Qed.

Lemma sort_without scope id usable : NoDup (c_NodeID <$> usable) →
  sort_by (candidate_less scope) (without id usable) = without id (sort_by (candidate_less scope) usable).
Proof.
  intros Hnd. unfold without. assert (Hperm : ∀ l k : list Candidate, l ≡ₚ k → List.filter (λ c, negb (String.eqb (c_NodeID c) id)) l ≡ₚ List.filter (λ c, negb (String.eqb (c_NodeID c) id)) k).
  { induction 1; simpl; repeat destruct (negb _); eauto using Permutation. }
  apply (StronglySorted_unique_strong (not_after (candidate_less scope))).
  - intros x y Hx Hy. rewrite elem_of_sort_by in Hx. rewrite list_elem_of_In, filter_In, <-list_elem_of_In in Hx, Hy. destruct Hx as [Hx _], Hy as [Hy _].
    rewrite elem_of_sort_by in Hy. by eapply candidate_less_anti.
  - apply sort_by_sorted, _.
  - pose proof (sort_by_sorted (candidate_less scope) usable) as Hs. induction Hs as [|c l Hs IH Hc]; simpl; [constructor|]. destruct (negb _); [|done].
    constructor; [done|]. apply Forall_forall. intros x Hx. rewrite list_elem_of_In, filter_In, <-list_elem_of_In in Hx. destruct Hx as [Hx _].
    rewrite Forall_forall in Hc. by apply Hc.
  - rewrite sort_by_perm. apply Hperm. symmetry. apply sort_by_perm.
Qed.

Lemma without_NoDup id usable : NoDup (c_NodeID <$> usable) → NoDup (c_NodeID <$> without id usable).
Proof.
  induction usable as [|c usable IH]; simpl; [done|]. intros [Hc Hnd]%NoDup_cons. destruct (negb _); [|by apply IH]. simpl. constructor; [|by apply IH].
  intros (c' & Heq & Hc')%list_elem_of_fmap. apply Hc. rewrite Heq. apply list_elem_of_fmap_2. unfold without in Hc'.
  rewrite list_elem_of_In, filter_In, <-list_elem_of_In in Hc'. by destruct Hc'.
Qed.

Lemma domainOf_without id id' usable : NoDup (c_NodeID <$> usable) → id' ≠ id → domainOf (without id usable) !! id' = domainOf usable !! id'.
Proof.
  intros Hnd Hne. apply option_eq. intros d. rewrite !elem_of_domainOf by first [done|by apply without_NoDup]. unfold without.
  rewrite list_elem_of_In, filter_In, <-list_elem_of_In. simpl. rewrite negb_true_iff, String.eqb_neq. tauto.
Qed.

Lemma choose_without scope current retained usable size id : NoDup (c_NodeID <$> usable) → id ∉ choose scope current retained usable size →
  choose scope current retained (without id usable) size = choose scope current retained usable size.
Proof.
  unfold choose. intros Hnd Hid. rewrite sort_without by done. set (ranked := sort_by _ usable) in *.
  assert (Hkept : kept current retained (without id usable) size = kept current retained usable size).
  { unfold kept. symmetry. apply keep_domains_ext. intros id' Hid'. symmetry. apply domainOf_without; [done|]. intros ->. by apply Hid, fill_grows, fill_grows. }
  rewrite Hkept. rewrite (fill_without size true) by (intros Hx; by apply Hid, fill_grows). by rewrite fill_without.
Qed.

Lemma choose_perm scope current retained usable usable' size : NoDup (c_NodeID <$> usable) → usable ≡ₚ usable' →
  choose scope current retained usable size = choose scope current retained usable' size.
Proof.
  intros Hnd Hp. unfold choose. assert (Hnd' : NoDup (c_NodeID <$> usable')) by by rewrite <-Hp.
  rewrite (sort_by_unique (candidate_less scope) usable usable'); [|intros x y Hx Hy; rewrite <-Hp in Hy; by apply (candidate_less_anti scope usable)|done].
  assert (Hd : domainOf usable = domainOf usable'); [|unfold kept; by rewrite Hd].
  apply map_eq. intros id. apply option_eq. intros d. rewrite !elem_of_domainOf by done. by rewrite Hp.
Qed.

(** ** A set that is complete stays as it is *)

Lemma fill_taken size distinct ranked p : (∀ c, c ∈ ranked → c_NodeID c ∈ pk_taken p) → fill size distinct p ranked = p.
Proof.
  induction ranked as [|c ranked IH]; intros Hall; simpl; [done|]. destruct (_ <=? _)%nat; [done|]. rewrite (bool_decide_eq_true_2 _ (Hall c (list_elem_of_here _ _))). simpl.
  apply IH. intros x Hx. apply Hall. by right.
Qed.

Lemma retained_members_all retained size l : NoDup l → (length l ≤ size)%nat → (∀ id, id ∈ l → id ∈ retained) → retained_members retained size l = l.
Proof.
  intros Hnd Hlen Hret. unfold retained_members. assert (Hgen : ∀ k, NoDup (k ++ l) →
    foldl (λ l id, if decide (id ∈ retained ∧ id ∉ l) then l ++ [id] else l) k l = k ++ l).
  { clear Hlen Hnd. induction l as [|x l IH]; intros k Hk; simpl; [by rewrite app_nil_r|]. rewrite decide_True.
    - rewrite IH; [by rewrite <-app_assoc|intros id Hid; apply Hret; by right|by rewrite <-app_assoc].
    - split; [apply Hret; left|]. apply NoDup_app in Hk as (_ & Hd & _). intros Hx. apply (Hd _ Hx). left. }
  rewrite Hgen by done. simpl. by apply take_ge.
Qed.

Lemma choose_complete scope l retained usable size : NoDup l → (length l ≤ size)%nat → (∀ id, id ∈ l → id ∈ retained) →
  (length l = size ∨ ∀ c, c ∈ usable → c_NodeID c ∈ l) → choose scope l retained usable size = l.
Proof.
  intros Hnd Hlen Hret Hfull. unfold choose. set (p := kept l retained usable size).
  assert (Hch : pk_chosen p = l).
  { unfold p, kept. rewrite (keep_chosen _ _ _ _ _ []); [by apply retained_members_all|apply nil_pick_ok|by destruct size|constructor]. }
  assert (Hok : pick_ok size p) by (apply keep_ok, nil_pick_ok).
  assert (Hnone : ∀ distinct, fill size distinct p (sort_by (candidate_less scope) usable) = p).
  { intros distinct. destruct Hfull as [Heq|Hall]; [apply fill_full; rewrite Hch; lia|]. apply fill_taken. intros c Hc. rewrite elem_of_sort_by in Hc.
    rewrite (po_taken _ _ Hok), Hch. by apply Hall. }
  by rewrite !Hnone.
Qed.

(** ** The reconciler *)

Lemma retained_members_in retained size current id : id ∈ retained_members retained size current → id ∈ retained.
Proof.
  unfold retained_members. intros Hid. assert (Hin : id ∈ foldl (λ l id, if decide (id ∈ retained ∧ id ∉ l) then l ++ [id] else l) [] current)
    by (eapply elem_of_sublist; [exact Hid|apply sublist_take]). clear Hid. revert Hin.
  assert (Hgen : ∀ k, (id ∈ k → id ∈ retained) → id ∈ foldl (λ l id, if decide (id ∈ retained ∧ id ∉ l) then l ++ [id] else l) k current → id ∈ retained).
  { induction current as [|x current IH]; intros k Hk; simpl; [done|]. apply IH. case_decide as Hd; [|done]. intros [?| ->%list_elem_of_singleton]%elem_of_app; [by apply Hk|by destruct Hd]. }
  apply Hgen. by intros ?%elem_of_nil.
Qed.

Lemma choose_settles scope current retained usable size : NoDup (c_NodeID <$> usable) → (∀ c, c ∈ usable → c_NodeID c ∈ retained) →
  let chosen := choose scope current retained usable size in choose scope chosen retained usable size = chosen.
Proof.
  intros Hnd Hret. destruct (choose_spread scope current retained usable size Hnd) as (cs1 & cs2 & Heq & Hnd' & Hlen & Hin1 & Hin2 & Hall & _). simpl in *.
  apply choose_complete; try done.
  - rewrite Heq. intros id [Hid|[Hid|Hid]%elem_of_app]%elem_of_app; [by eapply retained_members_in|..]; apply list_elem_of_fmap in Hid as (c & -> & Hc); apply Hret; auto.
  - destruct (Nat.lt_ge_cases (length (choose scope current retained usable size)) size) as [Hlt|Hge]; [right; by apply Hall|left; lia].
Qed.
End choose.

(** ** All workspaces *)

Section pages.
Context `{SHA256}.

Definition scope_key (s : Scope) : string * string := (sc_Kind s, sc_ID s).

(** The query returns the first scopes after a key, in the order of the database. *)
Definition pages_of (all : list Scope) (query : string * string → nat → option (list Scope)) : Prop :=
  ∀ front s rest n, all = front ++ s :: rest → query (scope_key s) n = Some (firstn n rest).

Lemma reconcile_page_app t answers n l k t' n' : reconcile_page t answers n l = (t', n', true) →
  reconcile_page t answers n (l ++ k) = reconcile_page t' answers n' k.
Proof.
  revert t n. induction l as [|s l IH]; intros t n; simpl; [by intros [= <- <-]|]. destruct (ReconcileScope t s (answers s)) as [t1 [did|]]; [|done]. apply IH.
Qed.

Lemma reconcile_page_fails t answers n l k t' n' : reconcile_page t answers n l = (t', n', false) → reconcile_page t answers n (l ++ k) = (t', n', false).
Proof.
  revert t n. induction l as [|s l IH]; intros t n; simpl; [done|]. destruct (ReconcileScope t s (answers s)) as [t1 [did|]]; [|done]. apply IH.
Qed.

Lemma reconcile_pages_from all answers query front rest after t n fuel : pages_of all query → all = front ++ rest →
  (∀ n, query after n = Some (firstn n rest)) → (length rest < page * fuel)%nat →
  reconcile_pages fuel t answers query n after = Some (reconcile_page t answers n rest).
Proof.
  intros Hq. revert front rest after t n. induction fuel as [|fuel IH]; intros front rest after t n Hall Hafter Hfuel; [lia|]. cbn [reconcile_pages]. rewrite Hafter.
  replace (reconcile_page t answers n rest) with (reconcile_page t answers n (firstn page rest ++ skipn page rest)) by by rewrite take_drop.
  destruct (reconcile_page t answers n (firstn page rest)) as [[t1 n1] []] eqn:Hp; [|by rewrite (reconcile_page_fails _ _ _ _ _ _ _ Hp)].
  rewrite (reconcile_page_app _ _ _ _ _ _ _ Hp). destruct (Nat.ltb_spec (length (firstn page rest)) page) as [Hlt|Hge].
  - rewrite length_take in Hlt. rewrite drop_ge by lia. done.
  - destruct (last (firstn page rest)) as [s|] eqn:Hlast; [rewrite length_take in Hge|apply last_None in Hlast; rewrite Hlast in Hge; unfold page in Hge; simpl in Hge; lia].
    apply last_Some in Hlast as [init Hinit]. apply (IH (front ++ init ++ [s])).
    + rewrite Hall, <-Hinit, <-app_assoc, take_drop. done.
    + intros m. apply (Hq (front ++ init)). rewrite Hall. rewrite <-(take_drop page rest) at 1. rewrite Hinit, <-!app_assoc. done.
    + rewrite length_drop. lia.
Qed.
End pages.

(** ** The claims *)

Section claims.
Context `{SHA256}.

(** The set of a workspace has no edge twice and at most [size]; it begins with the members that are still retained, in their order; it leaves a place
    free only when every usable edge is in it; the edges of the first pass are in failure domains of their own, which no usable kept member
    has; and an edge whose domain is already used is added only when no usable edge outside those domains is left. *)
Theorem choose_correct scope current retained usable size : NoDup (c_NodeID <$> usable) → ∃ cs1 cs2,
  let keep := retained_members retained size current in let chosen := choose scope current retained usable size in
  chosen = keep ++ (c_NodeID <$> cs1) ++ (c_NodeID <$> cs2) ∧ NoDup chosen ∧ (length chosen ≤ size)%nat ∧ cs1 ⊆ usable ∧ cs2 ⊆ usable ∧
  ((length chosen < size)%nat → ∀ c, c ∈ usable → c_NodeID c ∈ chosen) ∧
  NoDup (known_domains cs1) ∧ (∀ c c', c ∈ cs1 → c' ∈ usable → c_NodeID c' ∈ keep → c_FailureDomain c ≠ "" → c_FailureDomain c' ≠ c_FailureDomain c) ∧
  (cs2 ≠ [] → ∀ c, c ∈ usable → c_NodeID c ∈ keep ++ (c_NodeID <$> cs1) ∨
    c_FailureDomain c ≠ "" ∧ ∃ c', c' ∈ usable ∧ c_NodeID c' ∈ keep ++ (c_NodeID <$> cs1) ∧ c_FailureDomain c' = c_FailureDomain c).
Proof. apply choose_spread. Qed.

(** The choice depends neither on the order in which the database lists the edges nor on any edge that was not chosen: when such an edge goes away
    the set is the same. *)
Theorem choose_stable scope current retained usable usable' size id : NoDup (c_NodeID <$> usable) → usable ≡ₚ usable' →
  id ∉ choose scope current retained usable size →
  choose scope current retained (without id usable') size = choose scope current retained usable size.
Proof.
  intros Hnd Hp Hid. rewrite (choose_perm _ _ _ _ _ _ Hnd Hp) in *. apply choose_without; [|done]. by rewrite <-Hp.
Qed.

(** Reconciling once is enough: a second call with the same answers of the database changes nothing, whatever the first one did; and a call that
    stores a set raises its generation by one, or makes it one. *)
Theorem reconcile_settles t scope a t' b usable retained : an_usable a = Some usable → an_retained a = Some retained → NoDup (c_NodeID <$> usable) →
  (∀ c, c ∈ usable → c_NodeID c ∈ retained) → ReconcileScope t scope a = (t', Some b) →
  ReconcileScope t' scope a = (t', Some false) ∧
  (b = true → ∃ r, t' !! scope_key scope = Some r ∧ es_nodes r ≠ [] ∧ (length (es_nodes r) ≤ Size)%nat ∧ NoDup (es_nodes r) ∧
    es_generation r = match t !! scope_key scope with Some r0 => es_generation r0 + 1 | None => 1 end)%Z.
Proof.
  unfold ReconcileScope, scope_key. intros Hu Hr Hnd Hret. rewrite Hu, Hr. destruct (scope_invalid scope) eqn:Hinv; [done|].
  destruct (an_mode a) as [mode|] eqn:Hm; [|done]. set (row := t !! _). set (name := (sc_Kind scope +:+ _)).
  destruct (length (choose name (starting row mode) (list_to_set retained) usable Size) =? 0)%nat eqn:Hempty.
  { intros [= <- <-]. fold row. by rewrite Hempty. }
  destruct (match row with Some r => _ | None => false end) eqn:Hsame.
  { intros [= <- <-]. fold row. by rewrite Hempty, Hsame. }
  destruct (an_write a) eqn:Hw; [|done]. intros [= <- <-]. rewrite lookup_insert_eq.
  assert (Hret' : ∀ c, c ∈ usable → c_NodeID c ∈ (list_to_set retained : gset string)) by (intros c Hc; rewrite elem_of_list_to_set; by apply Hret).
  cbn [starting store es_mode es_nodes]. rewrite String.eqb_refl, (choose_settles _ _ _ _ _ Hnd Hret'), Hempty, bool_decide_eq_true_2 by done. split; [done|].
  intros _. eexists. split; [done|]. simpl. destruct (choose_spread name (starting row mode) (list_to_set retained) usable Size Hnd) as (cs1 & cs2 & _ & Hnd' & Hlen & _).
  split_and!; try done. intros He. by rewrite He in Hempty.
Qed.

(** C25: ReconcileAll visits every workspace once, in order: with a query that pages through them it ends, and does what reconciling the whole
    list one after the other does, up to the first error. *)
Theorem reconcile_all_visits all answers query t fuel : pages_of all query → (∀ n, query ("", "") n = Some (firstn n all)) → (length all < page * fuel)%nat →
  ReconcileAll fuel t answers query = Some (reconcile_page t answers 0 all).
Proof. intros Hq H0 Hf. by apply (reconcile_pages_from all answers query [] all). Qed.
End claims.

(** ** Witnesses *)

#[local] Existing Instance eval_sha256.

Definition sample_edges : list Candidate := [mkCandidate "a1" "a"; mkCandidate "a2" "a"; mkCandidate "b1" "b"].

Lemma choose_correct_witness : NoDup (choose "w" ["gone"; "a2"] {["a2"]} sample_edges 2) ∧ choose "w" ["gone"; "a2"] {["a2"]} sample_edges 2 = ["a2"; "b1"].
Proof.
  split; [|vm_compute; reflexivity].
  destruct (choose_correct "w" ["gone"; "a2"] {["a2"]} sample_edges 2) as (cs1 & cs2 & _ & Hnd & _); [|exact Hnd].
  apply (bool_decide_unpack _). vm_compute. exact I.
Defined.

Lemma choose_stable_witness : choose "w" [] ∅ [mkCandidate "a2" "a"; mkCandidate "b1" "b"] 2 = choose "w" [] ∅ sample_edges 2.
Proof.
  change [mkCandidate "a2" "a"; mkCandidate "b1" "b"] with (without "a1" sample_edges).
  apply (choose_stable "w" [] ∅ sample_edges sample_edges 2 "a1"); [apply (bool_decide_unpack _); vm_compute; exact I|reflexivity|].
  apply (bool_decide_unpack _). vm_compute. exact I.
Defined.

Definition sample_answers : Answers := mkAnswers (Some "managed-only") (Some sample_edges) (Some ["a1"; "a2"; "b1"]) true.
Definition sample_scope : Scope := mkScope "team" "t1" "owner".

Lemma reconcile_settles_witness : let t := (ReconcileScope ∅ sample_scope sample_answers).1 in ReconcileScope t sample_scope sample_answers = (t, Some false).
Proof.
  refine (proj1 (reconcile_settles ∅ sample_scope sample_answers _ true sample_edges ["a1"; "a2"; "b1"] _ _ _ _ _)); try reflexivity.
  - apply (bool_decide_unpack _). vm_compute. exact I.
  - intros c Hc. unfold sample_edges in Hc. rewrite !elem_of_cons, elem_of_nil in Hc. destruct Hc as [->|[->|[->|[]]]]; apply (bool_decide_unpack _); vm_compute; exact I.
Defined.

Lemma reconcile_all_visits_witness : ReconcileAll 1 ∅ (λ _, sample_answers) (λ k n, Some (if decide (k = ("", "")) then firstn n [sample_scope] else []))
  = Some (reconcile_page ∅ (λ _, sample_answers) 0 [sample_scope]).
Proof.
  apply (reconcile_all_visits [sample_scope]); [|reflexivity|unfold page; simpl; lia].
  intros front s rest n Heq. destruct front as [|x [|y front]]; [|discriminate Heq|discriminate Heq]. injection Heq as <- <-. destruct n; reflexivity.
Defined.

(** A member that is retained but silent has no domain in choose: its replacement partner can be in the same failure domain although an edge in
    another one is usable. *)
Theorem silent_member_domain_unknown : choose "w" ["a1"] {["a1"]} [mkCandidate "z2" "a"; mkCandidate "b2" "b"] 2 = ["a1"; "z2"] ∧
  choose "w" ["a1"] {["a1"]} [mkCandidate "a1" "a"; mkCandidate "z2" "a"; mkCandidate "b2" "b"] 2 = ["a1"; "b2"].
Proof. split; vm_compute; reflexivity. Qed.
