(* ===== verification/Schedule.v ===== *)
(** * Waits and retries: src/shared/backoff, src/shared/reattach, src/shared/serverclock and the poll delay of src/shared/admission

    Durations are int64 nanoseconds with Go's wrap-around; what math/rand returns is an argument. *)
From S2P Require Import Prelude GoStd GoData.

(** ** backoff.go *)

(** rand.Int64N(d) is [r], with 0 ≤ r < d. *)
Definition Jitter (d r : Z) : Z := if (d <=? 0)%Z then 0%Z else Int64.wrap (Z.quot d 2 + r).

(** The doublings of Retry, [n - 1] at most. *)
Fixpoint retry_delay (n : nat) (delay maximum : Z) : Z :=
  match n with
  | O => delay
  | S n => if (0 <? delay)%Z && (delay <? maximum)%Z then retry_delay n (Int64.wrap (delay * 2)) maximum else delay
  end.

Definition Retry (n base maximum r : Z) : Z := Jitter (Z.min (retry_delay (Z.to_nat (n - 1)) base maximum) maximum) r.

(** ** reattach: recovery.go *)

Fixpoint backoff_loop (n : nat) (delay maximum : Z) : Z :=
  match n with
  | O => delay
  | S n => if (Z.quot maximum 2 <? delay)%Z then maximum else backoff_loop n (Int64.wrap (delay * 2)) maximum
  end.

Definition Backoff (initial maximum attempt : Z) : Z :=
  if (initial <=? 0)%Z || (maximum <=? 0)%Z then 0%Z
  else if (maximum <=? initial)%Z then maximum
  else backoff_loop (Z.to_nat (attempt - 1)) initial maximum.

Inductive RecoveryError := ErrExhausted | CallError (code : Z).

Record Policy := mkPolicy { po_Window : Z; po_Attempts : Z; po_Backoff : option (Z → Z); po_Retryable : option (Z → bool) }.

Record Recovery := mkRecovery { rv_deadline : Z; rv_policy : Policy; rv_remaining : Z; rv_used : Z }.

Definition NewRecovery (policy : Policy) : Recovery := mkRecovery time.zero policy (po_Attempts policy) 0.

(** What happens in one turn of the loop of Run: an error of the context when the turn begins, an error while waiting, and what the attempt returns. *)
Record Turn := mkTurn { tu_ctx : option Z; tu_wait : option Z; tu_attempt : option Z }.

(** The result of Run, with the attempts it made (the number that was used for each backoff). *)
Definition take_attempt (r : Recovery) : Recovery := mkRecovery (rv_deadline r) (rv_policy r) (rv_remaining r - 1) (rv_used r + 1).

Definition retryable (r : Recovery) (code : Z) : bool := match po_Retryable (rv_policy r) with Some f => f code | None => false end.

Fixpoint run_loop (fuel : nat) (r : Recovery) (turns : nat → Turn) (made : list Z) : Recovery * list Z * option RecoveryError :=
  match fuel with
  | O => (r, made, Some ErrExhausted)
  | S fuel =>
      if (rv_remaining r <=? 0)%Z then (r, made, Some ErrExhausted)
      else
        let turn := turns fuel in
        match tu_ctx turn with
        | Some e => (r, made, Some (CallError e))
        | None =>
            let r := take_attempt r in
            match (match po_Backoff (rv_policy r) with Some _ => tu_wait turn | None => None end) with
            | Some e => (r, made, Some (CallError e))
            | None =>
                let made := made ++ [rv_used r] in
                match tu_attempt turn with
                | None => (r, made, None)
                | Some e => if negb (retryable r e) || (rv_remaining r =? 0)%Z then (r, made, Some (CallError e)) else run_loop fuel r turns made
                end
            end
        end
  end.

(** Run; a turn is named by the attempts that are left after it. *)
Definition Run (r : Recovery) (turns : nat → Turn) : Recovery * list Z * option RecoveryError := run_loop (Z.to_nat (rv_remaining r)) r turns [].

Definition AfterFailure (r : Recovery) (now : Z) : Recovery :=
  if time.IsZero (rv_deadline r) && (0 <? po_Window (rv_policy r))%Z then mkRecovery (now + po_Window (rv_policy r))%Z (rv_policy r) (rv_remaining r) (rv_used r) else r.

(** The deadline that RequestContext sets. *)
Definition RequestDeadline (r : Recovery) : option Z := if time.IsZero (rv_deadline r) then None else Some (rv_deadline r).

(** ** admission: pollFailureDelay *)

Definition RevocationInterval : Z := time.Second.
Definition MaxPollBackoff : Z := (30 * time.Second)%Z.
Definition MaxPollRetryAfter : Z := (5 * (60 * time.Second))%Z.

(** [failed] is whether the lookup failed, [hint] its Retry-After; rand.N(base/2+1) is [r]. *)
Definition poll_base (failures : Z) : Z := Z.min (Int64.wrap (Z.shiftl RevocationInterval (Z.min (failures - 1) 16))) MaxPollBackoff.

Definition pollFailureDelay (failures : Z) (failed : bool) (hint : option Z) (r : Z) : Z :=
  if negb failed then 0%Z
  else
    let delay := if (1 <? failures)%Z then Int64.wrap (Z.quot (poll_base failures) 2 + r) else 0%Z in
    match hint with Some h => Z.max delay (Z.min h MaxPollRetryAfter) | None => delay end.

(** ** serverclock.go *)

Definition Threshold : Z := (60 * time.Second)%Z.
Definition maxRoundTrip : Z := (10 * time.Second)%Z.

(** Observe; [date] is the header when http.ParseTime reads it. *)
Definition Observe (offset : Z) (date : option Z) (sent received : Z) : Z :=
  let elapsed := time.Sub received sent in
  match date with
  | None => offset
  | Some server =>
      if (elapsed <? 0)%Z || (maxRoundTrip <? elapsed)%Z then offset
      else
        let delta := time.Sub (server + 500000000) (sent + Z.quot elapsed 2) in
        if (Z.abs delta <? Threshold)%Z then 0%Z else delta
  end.

Definition server_Now (offset now : Z) : Z := (now + offset)%Z.
Definition Until (offset now t : Z) : Z := time.Sub t (server_Now offset now).

(** ** The lemmas *)

Lemma retry_delay_exact n delay maximum : (0 < delay)%Z → (0 < maximum ≤ 2 ^ 62)%Z →
  Z.min (retry_delay n delay maximum) maximum = Z.min (delay * 2 ^ Z.of_nat n) maximum ∧ (0 < retry_delay n delay maximum)%Z.
Proof.
  revert delay. induction n as [|n IH]; intros delay Hd Hm; cbn [retry_delay]; [by rewrite Z.mul_1_r|]. rewrite (proj2 (Z.ltb_lt _ _) Hd). simpl.
  rewrite Nat2Z.inj_succ, Z.pow_succ_r by lia. assert (Hp : (1 ≤ 2 ^ Z.of_nat n)%Z) by (pose proof (Z.pow_pos_nonneg 2 (Z.of_nat n)); lia).
  destruct (Z.ltb_spec delay maximum) as [Hlt|Hge].
  - rewrite Int64.int64_wrap_id by (unfold Int64.in_range, Int64.min_value, Int64.max_value; lia). destruct (IH (delay * 2)%Z) as [-> ?]; [lia|done|]. split; [f_equal; lia|done].
  - split; [|done]. rewrite !Z.min_r; nia.
Qed.

Lemma Jitter_bounds d r : (0 < d ≤ 2 ^ 62)%Z → (0 ≤ r < d)%Z → (d / 2 ≤ Jitter d r < d / 2 + d)%Z.
Proof.
  intros Hd Hr. unfold Jitter. rewrite (proj2 (Z.leb_gt _ _)) by lia. rewrite Z.quot_div_nonneg by lia.
  assert (Hh : (0 ≤ d / 2 ≤ 2 ^ 61)%Z) by (Z.to_euclidean_division_equations; lia).
  rewrite Int64.int64_wrap_id by (unfold Int64.in_range, Int64.min_value, Int64.max_value; lia). lia.
Qed.

Lemma backoff_loop_exact n delay maximum : (0 < delay ≤ maximum)%Z → (maximum ≤ Int64.max_value)%Z →
  backoff_loop n delay maximum = Z.min (delay * 2 ^ Z.of_nat n) maximum.
Proof.
  revert delay. induction n as [|n IH]; intros delay Hd Hm; cbn [backoff_loop]; [rewrite Z.mul_1_r, Z.min_l; lia|].
  rewrite Nat2Z.inj_succ, Z.pow_succ_r by lia. assert (Hp : (1 ≤ 2 ^ Z.of_nat n)%Z) by (pose proof (Z.pow_pos_nonneg 2 (Z.of_nat n)); lia).
  rewrite Z.quot_div_nonneg by lia. destruct (Z.ltb_spec (maximum / 2) delay) as [Hlt|Hge].
  - rewrite Z.min_r; [done|]. assert (maximum < 2 * delay)%Z by (Z.to_euclidean_division_equations; lia). nia.
  - assert (2 * delay ≤ maximum)%Z by (Z.to_euclidean_division_equations; lia).
    rewrite Int64.int64_wrap_id by (unfold Int64.in_range, Int64.min_value; lia). rewrite IH by lia. f_equal. lia.
Qed.

(** ** The budget of a recovery *)

Definition recovery_ok (r : Recovery) : Prop := (rv_used r + Z.max 0 (rv_remaining r) = Z.max 0 (po_Attempts (rv_policy r)))%Z ∧ (0 ≤ rv_used r)%Z.

(** Consecutive numbers. *)
Definition count_up (from : Z) (n : nat) : list Z := (λ i, (from + 1 + Z.of_nat i)%Z) <$> seq 0 n.

Lemma count_up_S from n : count_up from (S n) = (from + 1)%Z :: count_up (from + 1) n.
Proof.
  unfold count_up. simpl. f_equal; [lia|]. rewrite <-seq_shift. change (List.map S (seq 0 n)) with (S <$> seq 0 n). rewrite <-list_fmap_compose. apply list_fmap_ext.
  intros i x _. simpl. lia.
Qed.

Lemma run_loop_spec fuel r turns made r' made' res : recovery_ok r → Z.to_nat (rv_remaining r) = fuel → run_loop fuel r turns made = (r', made', res) →
  recovery_ok r' ∧ rv_policy r' = rv_policy r ∧ rv_deadline r' = rv_deadline r ∧
  ∃ n, made' = made ++ count_up (rv_used r) n ∧ (rv_used r + Z.of_nat n ≤ rv_used r')%Z ∧ (rv_used r' ≤ rv_used r + Z.of_nat n + 1)%Z ∧
    (res = None → (0 < n)%nat) ∧ (res = Some ErrExhausted → (rv_remaining r ≤ 0)%Z).
Proof.
  revert r made. induction fuel as [|fuel IH]; intros r made Hok Hfuel; cbn [run_loop].
  { intros [= <- <- <-]. split_and!; try done. exists 0%nat. unfold count_up. simpl. rewrite app_nil_r. split_and!; try lia; try done. }
  rewrite (proj2 (Z.leb_gt _ _)) by lia. destruct (tu_ctx (turns fuel)) as [e|].
  { intros [= <- <- <-]. split_and!; try done. exists 0%nat. unfold count_up. simpl. rewrite app_nil_r. split_and!; try lia; try done. }
  assert (Hok' : recovery_ok (take_attempt r)) by (destruct Hok; unfold recovery_ok, take_attempt; simpl; lia).
  destruct (match po_Backoff _ with Some _ => _ | None => None end) as [e|].
  { intros [= <- <- <-]. split_and!; try done. exists 0%nat. unfold count_up. simpl. rewrite app_nil_r. split_and!; try lia; try done. }
  assert (Hstop : ∀ res, res ≠ Some ErrExhausted → (take_attempt r, made ++ [rv_used (take_attempt r)], res) = (r', made', res) → recovery_ok r' ∧ rv_policy r' = rv_policy r ∧ rv_deadline r' = rv_deadline r ∧
    ∃ n, made' = made ++ count_up (rv_used r) n ∧ (rv_used r + Z.of_nat n ≤ rv_used r')%Z ∧ (rv_used r' ≤ rv_used r + Z.of_nat n + 1)%Z ∧
      (res = None → (0 < n)%nat) ∧ (res = Some ErrExhausted → (rv_remaining r ≤ 0)%Z)).
  { intros res0 Hne [= <- <-]. split_and!; try done. exists 1%nat. rewrite count_up_S. unfold count_up. simpl. split_and!; try done; lia. }
  destruct (tu_attempt (turns fuel)) as [e|]; [|intros [= <- <- <-]; by apply Hstop].
  destruct (_ || _) eqn:Hcond; [intros [= <- <- <-]; by apply Hstop|]. apply orb_false_iff in Hcond as [_ Hrem%Z.eqb_neq].
  intros Hrun. apply IH in Hrun as (Ho & Hp & Hd & n & -> & Hle & Hge & Hn & Hx); [|done|simpl; lia].
  split_and!; try done. exists (S n). rewrite count_up_S, <-app_assoc. simpl in *. split_and!; try lia; [done|]. intros Hr. specialize (Hx Hr). lia.
Qed.

Lemma Run_spec r turns r' made res : recovery_ok r → Run r turns = (r', made, res) →
  recovery_ok r' ∧ rv_policy r' = rv_policy r ∧ rv_deadline r' = rv_deadline r ∧
  ∃ n, made = count_up (rv_used r) n ∧ (rv_used r + Z.of_nat n ≤ rv_used r')%Z ∧ (rv_used r' ≤ rv_used r + Z.of_nat n + 1)%Z ∧
    (res = None → (0 < n)%nat) ∧ (res = Some ErrExhausted → (rv_remaining r ≤ 0)%Z).
Proof. intros Hok. apply run_loop_spec; [done|lia]. Qed.

(** Several losses of the connection, each with its own recovery: the attempts they make. *)
Fixpoint recoveries (r : Recovery) (losses : list (Z * (nat → Turn))) : Recovery * list Z :=
  match losses with
  | [] => (r, [])
  | (now, turns) :: rest =>
      let '(r1, made, _) := Run (AfterFailure r now) turns in
      let '(r2, more) := recoveries r1 rest in (r2, made ++ more)
  end.

Lemma AfterFailure_ok r now : recovery_ok r → recovery_ok (AfterFailure r now) ∧ rv_policy (AfterFailure r now) = rv_policy r ∧ rv_used (AfterFailure r now) = rv_used r ∧
  (rv_deadline r ≠ time.zero → AfterFailure r now = r).
Proof.
  unfold AfterFailure. intros Hok. unfold time.IsZero. destruct (Z.eqb_spec (rv_deadline r) time.zero); simpl; [destruct (0 <? _)%Z|]; done.
Qed.

Definition increasing (l : list Z) (lo : Z) : Prop := StronglySorted Z.lt l ∧ Forall (λ n, (lo < n)%Z) l.

Lemma count_up_bounds from n : increasing (count_up from n) from ∧ Forall (λ x, (x ≤ from + Z.of_nat n)%Z) (count_up from n).
Proof.
  revert from. induction n as [|n IH]; intros from; [repeat constructor|]. rewrite count_up_S. destruct (IH (from + 1)%Z) as [[Hs Hlo] Hhi]. split; [split|].
  - by constructor.
  - constructor; [lia|]. eapply Forall_impl; [exact Hlo|]. simpl. lia.
  - constructor; [lia|]. eapply Forall_impl; [exact Hhi|]. simpl. lia.
Qed.

Lemma increasing_app l k a b : increasing l a → Forall (λ x, (x ≤ b)%Z) l → increasing k b → (a ≤ b)%Z → increasing (l ++ k) a.
Proof.
  intros [Hl Hla] Hlb [Hk Hkb] Hab. split.
  - induction Hl as [|x l Hs IH Hx]; simpl; [done|]. inversion Hlb; subst. inversion Hla; subst. constructor; [by apply IH|]. apply Forall_app. split; [done|].
    eapply Forall_impl; [exact Hkb|]. simpl. lia.
  - apply Forall_app. split; [done|]. eapply Forall_impl; [exact Hkb|]. simpl. lia.
Qed.

Lemma recoveries_spec losses r : recovery_ok r → recovery_ok (recoveries r losses).1 ∧ rv_policy (recoveries r losses).1 = rv_policy r ∧
  increasing (recoveries r losses).2 (rv_used r) ∧ Forall (λ n, (n ≤ rv_used (recoveries r losses).1)%Z) (recoveries r losses).2 ∧
  (rv_used r ≤ rv_used (recoveries r losses).1)%Z.
Proof.
  revert r. induction losses as [|[now turns] losses IH]; intros r Hok; simpl; [split_and!; try done; repeat constructor|].
  destruct (AfterFailure_ok r now Hok) as (Hok1 & Hp1 & Hu1 & _). destruct (Run (AfterFailure r now) turns) as [[r1 made] res] eqn:Hrun.
  destruct (Run_spec _ _ _ _ _ Hok1 Hrun) as (Hok2 & Hp2 & _ & n & -> & Hle & _). destruct (IH r1 Hok2) as (Hok3 & Hp3 & Hinc & Hall & Hmono).
  destruct (recoveries r1 losses) as [r2 more]. simpl in *. rewrite Hu1 in *. destruct (count_up_bounds (rv_used r) n) as [Hc1 Hc2]. split_and!; try done; try lia; try congruence.
  - eapply increasing_app; [done|exact (Forall_impl _ _ _ Hc2 (λ x Hx, Z.le_trans _ _ _ Hx Hle))|done|lia].
  - apply Forall_app. split; [|done]. eapply Forall_impl; [exact Hc2|]. simpl. lia.
Qed.

(** ** The claims *)

(** The wait before retry [n] is half of base·2^(n-1), capped at the maximum, plus a random part up to the whole: the doubling and the jitter never
    overflow, for any number of failures and any maximum up to 146 years. *)
Theorem retry_bounds n base maximum r : (0 < base)%Z → (0 < maximum ≤ 2 ^ 62)%Z →
  let d := Z.min (base * 2 ^ Z.max 0 (n - 1)) maximum in (0 ≤ r < d)%Z → (d / 2 ≤ Retry n base maximum r < d / 2 + d)%Z.
Proof.
  intros Hb Hm d Hr. destruct (retry_delay_exact (Z.to_nat (n - 1)) base maximum Hb Hm) as [Heq Hpos]. unfold Retry. rewrite Heq.
  replace (Z.of_nat (Z.to_nat (n - 1))) with (Z.max 0 (n - 1)) by lia. apply Jitter_bounds; [|done]. unfold d in *. lia.
Qed.

(** The backoff of a recovery is exactly initial·2^(attempt-1) capped at the maximum, without overflow for any int64 durations. *)
Theorem backoff_exact initial maximum attempt : (0 < initial)%Z → (0 < maximum ≤ Int64.max_value)%Z →
  Backoff initial maximum attempt = Z.min (initial * 2 ^ Z.max 0 (attempt - 1)) maximum.
Proof.
  intros Hi Hm. unfold Backoff. rewrite (proj2 (Z.leb_gt initial 0)), (proj2 (Z.leb_gt maximum 0)) by lia. simpl.
  assert (Hp : (1 ≤ 2 ^ Z.max 0 (attempt - 1))%Z) by (pose proof (Z.pow_pos_nonneg 2 (Z.max 0 (attempt - 1))); lia).
  destruct (Z.leb_spec maximum initial) as [Hle|Hlt]; [rewrite Z.min_r; [done|nia]|]. rewrite backoff_loop_exact by lia. f_equal. f_equal. f_equal. lia.
Qed.

(** However often the connection is lost and whatever the attempts return, all recoveries of an operation together make at most [Attempts]
    attempts, and each waits with the next number, so no loss restarts the budget or the backoff. *)
Theorem recovery_budget policy losses : let made := (recoveries (NewRecovery policy) losses).2 in
  (Z.of_nat (length made) ≤ Z.max 0 (po_Attempts policy))%Z ∧ StronglySorted Z.lt made ∧ Forall (λ n, (1 ≤ n ≤ po_Attempts policy)%Z) made.
Proof.
  intros made. assert (Hok : recovery_ok (NewRecovery policy)) by (unfold recovery_ok; simpl; lia).
  destruct (recoveries_spec losses _ Hok) as ([Hsum Hused] & Hp & [Hs Hlo] & Hhi & _). fold made in Hs, Hlo, Hhi. rewrite Hp in Hsum. simpl in *.
  assert (Hbound : Forall (λ n, (1 ≤ n ≤ po_Attempts policy)%Z) made).
  { apply Forall_forall. intros x Hx. rewrite Forall_forall in Hlo, Hhi. specialize (Hlo _ Hx). specialize (Hhi _ Hx). simpl in *. lia. }
  split; [|done]. assert (Hlen : ∀ l lo hi, StronglySorted Z.lt l → Forall (λ n, (lo < n ≤ hi)%Z) l → (lo ≤ hi)%Z → (Z.of_nat (length l) ≤ hi - lo)%Z).
  { induction l as [|x l IH]; intros lo hi Hl Hb Hle; simpl; [lia|]. apply StronglySorted_inv in Hl as [Hl Hx]. inversion Hb; subst.
    assert (Z.of_nat (length l) ≤ hi - x)%Z; [|lia]. apply IH; [done| |lia]. apply Forall_forall. intros y Hy. rewrite Forall_forall in *. specialize (Hx _ Hy). naive_solver lia. }
  pose proof (Hlen made 0%Z (Z.max 0 (po_Attempts policy)) Hs) as Hx. rewrite Z.sub_0_r in Hx. apply Hx; [|lia]. eapply Forall_impl; [exact Hbound|]. simpl. lia.
Qed.

(** The Date header of a response that was written at local time [t], when the server's clock is [skew] ahead. *)
Definition date_at (t skew : Z) : Z := ((t + skew) / time.Second * time.Second)%Z.

(** After a response that was written while its request was under way, the offset is the server's true skew up to half the round trip and half a
    second; or it is zero, and the skew is below the threshold up to the same error. *)
Theorem observe_accurate offset sent received t skew : (sent ≤ t ≤ received)%Z → (received - sent ≤ maxRoundTrip)%Z → (Z.abs skew ≤ 2 ^ 62)%Z →
  let error := ((received - sent) / 2 + 500000001)%Z in let o := Observe offset (Some (date_at t skew)) sent received in
  (Z.abs (o - skew) ≤ error)%Z ∨ o = 0%Z ∧ (Z.abs skew < Threshold + error)%Z.
Proof.
  intros Ht Hrt Hskew error o. unfold o, Observe, date_at, time.Sub, maxRoundTrip, Threshold, time.Second, Int64.min_value, Int64.max_value in *.
  rewrite (Z.max_r _ (Z.min _ _)), Z.min_r by lia. destruct (Z.ltb_spec (received - sent) 0) as [|_]; [lia|]. destruct (Z.ltb_spec (10 * 1000000000) (received - sent)) as [|_]; [lia|].
  simpl. rewrite Z.quot_div_nonneg by lia. unfold error. clear o error. set (e := (received - sent)%Z) in *.
  assert (He : (2 * (e / 2) ≤ e ≤ 2 * (e / 2) + 1)%Z) by (Z.to_euclidean_division_equations; lia).
  set (q := ((t + skew) / 1000000000 * 1000000000)%Z). assert (Hq : (q ≤ t + skew < q + 1000000000)%Z) by (unfold q; Z.to_euclidean_division_equations; lia).
  set (h := (e / 2)%Z) in *. clearbody q h. rewrite Z.max_r, Z.min_r by lia. destruct (Z.ltb_spec (Z.abs (q + 500000000 - (sent + h))) (60 * 1000000000)); [right|left]; lia.
Qed.

(** A poll that fails for the first time waits for the next tick, and later ones between half and the whole of the doubled interval, at most 30 s; a
    Retry-After lengthens the wait, to at most 5 minutes. *)
Theorem poll_delay_bounds failures hint r : (1 ≤ failures)%Z → (0 ≤ r ≤ poll_base failures / 2)%Z →
  let delay := pollFailureDelay failures true hint r in let base := Z.min (time.Second * 2 ^ (failures - 1)) MaxPollBackoff in
  (hint = None → failures = 1%Z → delay = 0%Z) ∧ (hint = None → (1 < failures)%Z → (base / 2 ≤ delay ≤ base)%Z) ∧
  (∀ h, hint = Some h → (Z.min h MaxPollRetryAfter ≤ delay)%Z) ∧ (0 ≤ delay ≤ Z.max MaxPollBackoff MaxPollRetryAfter)%Z.
Proof.
  intros Hf Hr delay base. assert (Hbase : poll_base failures = base ∧ (0 < base ≤ MaxPollBackoff)%Z).
  { unfold base, poll_base, RevocationInterval. rewrite Z.shiftl_mul_pow2 by lia. set (k := Z.min (failures - 1) 16).
    assert (Hk : (1 ≤ 2 ^ k ≤ 2 ^ 16)%Z) by (split; [pose proof (Z.pow_pos_nonneg 2 k); lia|apply Z.pow_le_mono_r; lia]).
    rewrite Int64.int64_wrap_id by (unfold Int64.in_range, Int64.min_value, Int64.max_value, time.Second; lia).
    destruct (Z.le_gt_cases (failures - 1) 16) as [Hle|Hgt].
    - replace k with (failures - 1)%Z in * by lia. unfold MaxPollBackoff, time.Second in *. lia.
    - replace k with 16%Z in * by lia. assert (2 ^ 16 ≤ 2 ^ (failures - 1))%Z by (apply Z.pow_le_mono_r; lia). unfold MaxPollBackoff, time.Second in *. lia. }
  destruct Hbase as [Hb Hpos]. rewrite Hb in Hr. clearbody base. unfold delay, pollFailureDelay. simpl. rewrite Hb.
  rewrite Z.quot_div_nonneg by lia. assert (Hhalf : (2 * (base / 2) ≤ base)%Z) by (Z.to_euclidean_division_equations; lia).
  rewrite Int64.int64_wrap_id by (unfold Int64.in_range, Int64.min_value, Int64.max_value, MaxPollBackoff, time.Second in *; lia).
  unfold MaxPollRetryAfter, MaxPollBackoff, time.Second in *.
  destruct (Z.ltb_spec 1 failures), hint as [h|]; split_and!; try (intros; simplify_eq); lia.
Qed.

(** ** Witnesses *)

Lemma retry_bounds_witness : (30000000000 ≤ Retry 1000 1000000000 60000000000 7 < 90000000000)%Z.
Proof. apply (retry_bounds 1000 1000000000 60000000000 7); vm_compute; split; congruence. Defined.

Lemma backoff_exact_witness : Backoff 100 Int64.max_value 80 = Int64.max_value.
Proof. rewrite (backoff_exact 100 Int64.max_value 80); [vm_compute; reflexivity|lia|unfold Int64.max_value; lia]. Defined.

Lemma observe_accurate_witness : let o := Observe 0 (Some (date_at 1000 90000000000)) 900 1100 in (Z.abs (o - 90000000000) ≤ 500000101)%Z ∨ o = 0%Z ∧ (90000000000 < Threshold + 500000101)%Z.
Proof. apply (observe_accurate 0 900 1100 1000 90000000000); unfold maxRoundTrip, time.Second; lia. Defined.

Lemma poll_delay_bounds_witness : (4000000000 ≤ pollFailureDelay 4 true None 5 ≤ 8000000000)%Z.
Proof.
  destruct (poll_delay_bounds 4 None 5) as (_ & Hx & _); [lia|vm_compute; split; congruence|]. apply (Hx eq_refl). lia.
Defined.
