(* ===== verification/Lifetime.v ===== *)
(** * The lifetime of admitted work: src/shared/admission

    A lease lives until it is closed, revoked or its parent ends; releases run once, Close waits for them and for the workers.  The goroutines
    that the calls start are steps of their own.  A context is its cause: the first one stays. *)
From S2P Require Import Prelude GoStd GoData.

Inductive Cause := Canceled | ErrRevoked | DeadlineExceeded | ErrExpired | ParentError (code : Z).

#[export] Instance Cause_eq_dec : EqDecision Cause.
Proof. solve_decision. Defined.

(** context.WithCancelCause: the first cause wins. *)
Definition cancel (c : Cause) (cause : option Cause) : option Cause := match cause with Some x => Some x | None => Some c end.

(** ** Leases: lifetime.go *)

Record Lease := mkLease { le_closed : bool; le_cause : option Cause; le_workers : Z; le_cleanups : list nat }.

(** Admit: the deadline on the server's clock, and the channel of revocations when there is one. *)
Definition Admit_lease (parent : option Cause) (expiresAt : Z) (until : Z → Z) (revoked : option bool) : Cause + Lease :=
  match parent with
  | Some e => inl e
  | None =>
      if negb (time.IsZero expiresAt) && (until expiresAt <=? 0)%Z then inl ErrExpired
      else match revoked with
           | Some true => inl ErrRevoked
           | Some false => inr (mkLease false None 1 [])
           | None => inr (mkLease false None 0 [])
           end
  end.

Definition Check_lease (l : Lease) : option Cause := le_cause l.
Definition cancel_lease (c : Cause) (l : Lease) : Lease := mkLease (le_closed l) (cancel c (le_cause l)) (le_workers l) (le_cleanups l).
Definition Revoke : Lease → Lease := cancel_lease ErrRevoked.

Definition start (l : Lease) : Lease * bool :=
  if le_closed l || bool_decide (is_Some (le_cause l)) then (l, false) else (mkLease (le_closed l) (le_cause l) (le_workers l + 1) (le_cleanups l), true).

(** The part of Close under the lock: the releases it is going to run. *)
Definition Close_begin (l : Lease) : Lease * list nat := (mkLease true (cancel Canceled (le_cause l)) (le_workers l) [], le_cleanups l).

Definition worker_done (l : Lease) : Lease := mkLease (le_closed l) (le_cause l) (le_workers l - 1) (le_cleanups l).

(** OnDone of release [id]: whether it is registered, or run at once. *)
Definition OnDone (l : Lease) (id : nat) : Lease * bool :=
  if le_closed l then (l, false) else (mkLease (le_closed l) (le_cause l) (le_workers l + 1) (le_cleanups l ++ [id]), true).

(** A lease with its releases (how often each has run), its workers, the releases each Close has still to run, and the calls of Close that have returned. *)
Record LeaseWorld := mkLeaseWorld {
  lw_lease : Lease; lw_runs : gmap nat nat; lw_stopped : gset nat; lw_workers : gset nat; lw_closing : gmap nat (list nat); lw_returned : gset nat;
}.

(** cleanup of release [id], which sync.Once guards. *)
Definition cleanup (w : LeaseWorld) (id : nat) : LeaseWorld :=
  match lw_runs w !! id with
  | Some O => mkLeaseWorld (worker_done (lw_lease w)) (<[id := 1%nat]> (lw_runs w)) (lw_stopped w) (lw_workers w) (lw_closing w) (lw_returned w)
  | _ => w
  end.

Definition with_lease (w : LeaseWorld) (l : Lease) : LeaseWorld := mkLeaseWorld l (lw_runs w) (lw_stopped w) (lw_workers w) (lw_closing w) (lw_returned w).

Inductive lease_step : LeaseWorld → LeaseWorld → Prop :=
  (** Revoke, a revocation, or the end of the parent. *)
  | ls_cancel w c : lease_step w (with_lease w (cancel_lease c (lw_lease w)))
  | ls_on_done w id : lw_runs w !! id = None →
      lease_step w (mkLeaseWorld (OnDone (lw_lease w) id).1 (<[id := if (OnDone (lw_lease w) id).2 then 0%nat else 1%nat]> (lw_runs w)) (lw_stopped w) (lw_workers w) (lw_closing w) (lw_returned w))
  (** The function that context.AfterFunc runs when the lease ends, unless stop came first. *)
  | ls_after_func w id : is_Some (le_cause (lw_lease w)) → id ∉ lw_stopped w → lease_step w (cleanup w id)
  | ls_start w k : k ∉ lw_workers w → (start (lw_lease w)).2 = true →
      lease_step w (mkLeaseWorld (start (lw_lease w)).1 (lw_runs w) (lw_stopped w) ({[k]} ∪ lw_workers w) (lw_closing w) (lw_returned w))
  | ls_worker_exits w k : k ∈ lw_workers w →
      lease_step w (mkLeaseWorld (worker_done (lw_lease w)) (lw_runs w) (lw_stopped w) (lw_workers w ∖ {[k]}) (lw_closing w) (lw_returned w))
  | ls_close w k : lw_closing w !! k = None →
      lease_step w (mkLeaseWorld (Close_begin (lw_lease w)).1 (lw_runs w) (lw_stopped w) (lw_workers w) (<[k := (Close_begin (lw_lease w)).2]> (lw_closing w)) (lw_returned w))
  (** Close runs the next release: stop, then cleanup. *)
  | ls_close_one w k id ids : lw_closing w !! k = Some (id :: ids) →
      lease_step w (cleanup (mkLeaseWorld (lw_lease w) (lw_runs w) ({[id]} ∪ lw_stopped w) (lw_workers w) (<[k := ids]> (lw_closing w)) (lw_returned w)) id)
  | ls_close_returns w k : lw_closing w !! k = Some [] → le_workers (lw_lease w) = 0%Z →
      lease_step w (mkLeaseWorld (lw_lease w) (lw_runs w) (lw_stopped w) (lw_workers w) (lw_closing w) ({[k]} ∪ lw_returned w)).

Definition lease_world (l : Lease) : LeaseWorld := mkLeaseWorld l ∅ ∅ (if (le_workers l =? 0)%Z then ∅ else {[0%nat]}) ∅ ∅.

Definition lease_reach (w : LeaseWorld) : Prop :=
  ∃ parent expiresAt until revoked l, Admit_lease parent expiresAt until revoked = inr l ∧ rtc lease_step (lease_world l) w.

(** ** The invariant *)

Definition pending (m : gmap nat nat) : gmap nat nat := filter (λ kv, kv.2 = 0%nat) m.

Record lease_ok (w : LeaseWorld) : Prop := {
  lo_count : le_workers (lw_lease w) = (Z.of_nat (size (lw_workers w)) + Z.of_nat (size (pending (lw_runs w))))%Z;
  lo_once : ∀ id n, lw_runs w !! id = Some n → (n ≤ 1)%nat;
  lo_closed : le_closed (lw_lease w) = true → is_Some (le_cause (lw_lease w));
  lo_returned : ∀ k, k ∈ lw_returned w → le_closed (lw_lease w) = true ∧ lw_workers w = ∅ ∧ pending (lw_runs w) = ∅;
  lo_closing : lw_closing w ≠ ∅ → le_closed (lw_lease w) = true;
}.

Lemma pending_insert_0 m id : m !! id = None → size (pending (<[id := 0%nat]> m)) = S (size (pending m)).
Proof.
  intros Hid. unfold pending. rewrite map_filter_insert_True by done. apply map_size_insert_None. apply map_lookup_filter_None_2. by left.
Qed.

Lemma pending_insert_1 m id : m !! id = None → pending (<[id := 1%nat]> m) = pending m.
Proof. intros Hid. unfold pending. rewrite map_filter_insert_False by done. by rewrite delete_id. Qed.

Lemma pending_run m id : m !! id = Some 0%nat → Z.of_nat (size (pending (<[id := 1%nat]> m))) = (Z.of_nat (size (pending m)) - 1)%Z.
Proof.
  intros Hid. unfold pending. rewrite map_filter_insert_False by done. rewrite map_filter_delete.
  assert (Hp : filter (λ kv : nat * nat, kv.2 = 0%nat) m !! id = Some 0%nat) by by apply map_lookup_filter_Some.
  rewrite map_size_delete_Some by (by eexists). pose proof (map_size_ne_0_lookup_2 _ _ (mk_is_Some _ _ Hp)). lia.
Qed.

Lemma pending_empty m id n : pending m = ∅ → m !! id = Some n → n ≠ 0%nat.
Proof. intros Hp Hid ->. assert (Hx : pending m !! id = Some 0%nat) by by apply map_lookup_filter_Some. by rewrite Hp, lookup_empty in Hx. Qed.

Lemma cleanup_ok w id : lease_ok w → lease_ok (cleanup w id).
Proof.
  intros [Hc Ho Hcl Hr Hcg]. unfold cleanup. destruct (lw_runs w !! id) as [[|n]|] eqn:Hid; [|done..]. split; simpl; try done.
  - rewrite pending_run by done. lia.
  - intros id' n. rewrite lookup_insert_Some. intros [[<- <-]|[_ ?]]; [done|by eapply Ho].
  - intros k Hk. destruct (Hr k Hk) as (_ & _ & Hp). by destruct (pending_empty _ _ _ Hp Hid).
Qed.

Lemma cancel_is_Some c cause : is_Some (cancel c cause).
Proof. destruct cause; by eexists. Qed.

Lemma lease_step_ok w w' : lease_ok w → lease_step w w' → lease_ok w'.
Proof.
  intros Hok. destruct 1 as [w c|w id Hid|w id _ _|w k Hk Hs|w k Hk|w k Hk|w k id ids Hk|w k Hk Hz].
  - destruct Hok as [Hc Ho Hcl Hr Hcg]. split; simpl; try done. intros _. apply cancel_is_Some.
  - destruct Hok as [Hc Ho Hcl Hr Hcg]. unfold OnDone. destruct (le_closed (lw_lease w)) eqn:Hclosed.
    + split; simpl; rewrite ?Hclosed, ?pending_insert_1 by done; try done.
      intros id' n. rewrite lookup_insert_Some. intros [[<- <-]|[_ ?]]; [done|by eapply Ho].
    + split; simpl; rewrite ?Hclosed; try done.
      * rewrite pending_insert_0 by done. lia.
      * intros id' n. rewrite lookup_insert_Some. intros [[<- <-]|[_ ?]]; [lia|by eapply Ho].
      * intros k Hk. by destruct (Hr k Hk).
  - by apply cleanup_ok.
  - destruct Hok as [Hc Ho Hcl Hr Hcg]. revert Hs. unfold start. destruct (le_closed (lw_lease w)) eqn:Hclosed; [done|]. simpl. destruct (bool_decide _); [done|]. intros _. split; simpl; try done.
    + rewrite size_union by set_solver. rewrite size_singleton. lia.
    + intros k' Hk'. by destruct (Hr k' Hk').
  - destruct Hok as [Hc Ho Hcl Hr Hcg]. split; simpl; try done.
    + assert (Hsz : (1 ≤ size (lw_workers w))%nat) by (apply Nat.neq_0_lt_0; intros Hx%size_empty_inv; set_solver). rewrite size_difference by set_solver. rewrite size_singleton. lia.
    + intros k' Hk'. destruct (Hr k' Hk') as (? & Hw & ?). rewrite Hw in Hk. set_solver.
  - destruct Hok as [Hc Ho Hcl Hr Hcg]. split; simpl; try done; [intros _; apply cancel_is_Some|]. intros k' Hk'. by destruct (Hr k' Hk') as (_ & ? & ?).
  - apply cleanup_ok. destruct Hok as [Hc Ho Hcl Hr Hcg]. split; simpl; try done. intros _. apply Hcg. intros Hx. by rewrite Hx, lookup_empty in Hk.
  - destruct Hok as [Hc Ho Hcl Hr Hcg]. split; simpl; try done. intros k' _. split; [apply Hcg; intros Hx; by rewrite Hx, lookup_empty in Hk|].
    split; [apply leibniz_equiv, size_empty_inv|apply map_size_empty_inv]; lia.
Qed.

Lemma lease_reach_ok w : lease_reach w → lease_ok w.
Proof.
  intros (parent & expiresAt & until & revoked & l & Hadm & Hsteps). assert (Hok : lease_ok (lease_world l)).
  { unfold Admit_lease in Hadm. destruct parent; [done|]. destruct (_ && _); [done|]. destruct revoked as [[]|]; try done; injection Hadm as <-; by split; simpl. }
  clear Hadm. induction Hsteps as [|? ? ? Hs _ IH]; [done|]. apply IH. by eapply lease_step_ok.
Qed.

(** Whatever happens to a lease, in whatever order and with however many calls of Close at once, no release runs twice; and once a call of Close has
    returned, every release ever registered has run exactly once and no worker is left. *)
Theorem lease_releases_once w : lease_reach w →
  (∀ id n, lw_runs w !! id = Some n → (n ≤ 1)%nat) ∧
  ∀ k, k ∈ lw_returned w → lw_workers w = ∅ ∧ is_Some (le_cause (lw_lease w)) ∧ ∀ id n, lw_runs w !! id = Some n → n = 1%nat.
Proof.
  intros Hr. destruct (lease_reach_ok _ Hr) as [_ Ho Hcl Hret _]. split; [done|]. intros k Hk. destruct (Hret k Hk) as (Hclosed & Hw & Hp).
  split_and!; [done|by apply Hcl|]. intros id n Hid. specialize (Ho _ _ Hid). pose proof (pending_empty _ _ _ Hp Hid). lia.
Qed.

(** ** Watch *)

(** The state that is watched: whether the work is allowed, and the number of the channel that its next change closes. *)
Record Authority := mkAuthority { au_allowed : bool; au_channel : nat }.

(** The goroutine of Watch: it has got a channel and is about to look, it waits for the channel, or it has ended. *)
Inductive Watcher := Looking (channel : nat) | Waiting (channel : nat) | WatchRevoked | WatchStopped.

Definition changes (a : Authority) : nat := au_channel a.
Definition change (a : Authority) (allowed : bool) : Authority := mkAuthority allowed (S (au_channel a)).
Definition closed_channel (a : Authority) (channel : nat) : bool := (channel <? au_channel a)%nat.

(** What the goroutine does next by itself; it waits where nothing changes. *)
Definition watch_next (a : Authority) (w : Watcher) : Watcher :=
  match w with
  | Looking channel => if au_allowed a then Waiting channel else WatchRevoked
  | Waiting channel => if closed_channel a channel then Looking (changes a) else Waiting channel
  | w => w
  end.

Inductive watch_step : Authority * Watcher → Authority * Watcher → Prop :=
  | ws_change a w allowed : watch_step (a, w) (change a allowed, w)
  | ws_next a w : watch_step (a, w) (a, watch_next a w)
  | ws_stop a c : watch_step (a, Waiting c) (a, WatchStopped).

(** Watch takes the channel before it looks. *)
Definition watch_reach (s : Authority * Watcher) : Prop := ∃ a, rtc watch_step (a, Looking (changes a)) s.

Definition watch_ok (s : Authority * Watcher) : Prop :=
  match s.2 with
  | Looking c => (c ≤ au_channel s.1)%nat
  | Waiting c => (c ≤ au_channel s.1)%nat ∧ (c = au_channel s.1 → au_allowed s.1 = true)
  | _ => True
  end.

Lemma watch_reach_ok s : watch_reach s → watch_ok s.
Proof.
  intros [a Hsteps]. remember (a, Looking (changes a)) as s0 eqn:Hs0. assert (Hok : watch_ok s0) by (subst s0; unfold watch_ok, changes; simpl; lia).
  clear Hs0. induction Hsteps as [|s1 s2 s3 Hstep _ IH]; [done|]. apply IH. clear IH. unfold watch_ok in *. destruct Hstep as [a' w allowed|a' w|a' c]; simpl in *; [| |done].
  - destruct w; simpl; try done; [lia|]. split; lia.
  - destruct w as [c|c| |]; simpl; try done.
    + destruct (au_allowed a') eqn:Ha; simpl; [|done]. split; [done|by intros _].
    + unfold closed_channel. destruct (Nat.ltb_spec c (au_channel a')); simpl; [unfold changes; lia|done].
Qed.

(** A withdrawal is never missed: however the state changed while the watch started or woke up, when the work is not allowed any more the watch
    notices within three of its own steps, and until it has ended it only waits while the work is allowed. *)
Theorem watch_not_missed a w : watch_reach (a, w) → au_allowed a = false → w ≠ WatchStopped → watch_next a (watch_next a (watch_next a w)) = WatchRevoked.
Proof.
  intros Hr Ha Hw. pose proof (watch_reach_ok _ Hr) as Hok. unfold watch_ok in Hok. simpl in Hok. destruct w as [c|c| |]; simpl; rewrite ?Ha; try done.
  destruct Hok as [Hle Hal]. unfold closed_channel. rewrite (proj2 (Nat.ltb_lt _ _)); [simpl; by rewrite Ha|]. destruct (Nat.eq_dec c (au_channel a)) as [->|]; [|lia].
  by rewrite Hal in Ha.
Qed.

(** ** Staging: staging.go *)

Record Staging := mkStaging {
  st_parent : option Cause; st_deadline : Z; st_lease : Lease; st_accepted : bool; st_callerStopped : bool; st_timer : option bool;
}.

(** Stage; the timer is there when there is a deadline, and its flag is whether it was stopped. *)
Definition Stage (parent : option Cause) (deadline : Z) (until : Z → Z) : Cause + Staging :=
  match parent with
  | Some e => inl e
  | None =>
      match Admit_lease None deadline until None with
      | inl e => inl e
      | inr lease => inr (mkStaging None deadline lease false false (if time.IsZero deadline then None else Some false))
      end
  end.

Definition set_st_lease (s : Staging) (l : Lease) : Staging := mkStaging (st_parent s) (st_deadline s) l (st_accepted s) (st_callerStopped s) (st_timer s).

(** The function that runs when the caller's context ends, and the one of the timer. *)
Definition caller_ends (s : Staging) : Staging :=
  match st_parent s with
  | Some e => if negb (st_callerStopped s) && negb (st_accepted s) then set_st_lease s (cancel_lease e (st_lease s)) else s
  | None => s
  end.

(** A function that has already started when stop is called still takes the lock afterwards. *)
Definition caller_late (s : Staging) : Staging :=
  match st_parent s with Some e => if negb (st_accepted s) then set_st_lease s (cancel_lease e (st_lease s)) else s | None => s end.

Definition timer_fires (s : Staging) : Staging := if negb (st_accepted s) then set_st_lease s (cancel_lease DeadlineExceeded (st_lease s)) else s.

Definition stop_bounds (s : Staging) : Staging := mkStaging (st_parent s) (st_deadline s) (st_lease s) (st_accepted s) true ((λ _, true) <$> st_timer s).

Definition Accept_error (s : Staging) (until : Z → Z) : option Cause :=
  match st_parent s with
  | Some e => Some e
  | None => match Check_lease (st_lease s) with
            | Some e => Some e
            | None => if negb (time.IsZero (st_deadline s)) && (until (st_deadline s) <=? 0)%Z then Some ErrExpired else None
            end
  end.

Definition Accept (s : Staging) (until : Z → Z) : Staging * option Cause :=
  let s := stop_bounds s in
  match Accept_error s until with
  | Some e => (set_st_lease s (cancel_lease e (st_lease s)), Some e)
  | None => (mkStaging (st_parent s) (st_deadline s) (st_lease s) true (st_callerStopped s) (st_timer s), None)
  end.

Definition Abort_staging (s : Staging) : Staging := let s := stop_bounds s in set_st_lease s (Close_begin (st_lease s)).1.

(** What the caller and the timer can do to a staging. *)
Inductive bound_step : Staging → Staging → Prop :=
  | bs_parent s e : st_parent s = None → bound_step s (mkStaging (Some e) (st_deadline s) (st_lease s) (st_accepted s) (st_callerStopped s) (st_timer s))
  | bs_caller s : bound_step s (caller_ends s)
  | bs_caller_late s : bound_step s (caller_late s)
  | bs_timer s : bound_step s (timer_fires s).

Lemma accepted_bounds s s' : rtc bound_step s s' → st_accepted s = true → st_accepted s' = true ∧ st_lease s' = st_lease s.
Proof.
  induction 1 as [|s1 s2 s3 Hstep _ IH]; intros Ha; [done|]. assert (Hone : st_accepted s2 = true ∧ st_lease s2 = st_lease s1).
  { destruct Hstep as [s e Hp|s|s|s]; simpl; try done; unfold caller_ends, caller_late, timer_fires; try (destruct (st_parent s)); rewrite ?Ha, ?andb_false_r; done. }
  destruct Hone as [Ha2 Hl]. destruct (IH Ha2) as [? ->]. done.
Qed.

(** Accept hands the lease over exactly when the caller is still there, the lease has not ended and the deadline has not passed; from then on neither the
    caller nor the timer can end it, even when their functions had already started.  When it refuses, the lease has ended. *)
Theorem staging_handoff s until s' r : Accept s until = (s', r) →
  (r = None ↔ st_parent s = None ∧ le_cause (st_lease s) = None ∧ (st_deadline s = time.zero ∨ (0 < until (st_deadline s))%Z)) ∧
  (r = None → ∀ s'', rtc bound_step s' s'' → le_cause (st_lease s'') = None) ∧ (r ≠ None → is_Some (le_cause (st_lease s'))).
Proof.
  unfold Accept. destruct (Accept_error (stop_bounds s) until) as [e|] eqn:He.
  - intros [= <- <-]. split_and!; [|done|intros _; apply cancel_is_Some]. split; [done|]. intros (Hp & Hc & Hd). exfalso. revert He. unfold Accept_error, Check_lease. simpl. rewrite Hp, Hc.
    unfold time.IsZero. destruct Hd as [->|Hd]; [by rewrite Z.eqb_refl|]. rewrite (proj2 (Z.leb_gt _ _) Hd). by rewrite andb_false_r.
  - intros [= <- <-]. revert He. unfold Accept_error, Check_lease. simpl. destruct (st_parent s) eqn:Hp; [done|]. destruct (le_cause (st_lease s)) eqn:Hc; [done|].
    unfold time.IsZero. destruct (_ && _) eqn:Hd; [done|]. intros _. split_and!; [|intros _ s'' Hsteps|done].
    + split; [|done]. intros _. split_and!; try done. apply andb_false_iff in Hd as [Hd|Hd]; [left; by apply negb_false_iff, Z.eqb_eq in Hd|right; by apply Z.leb_gt in Hd].
    + destruct (accepted_bounds _ _ Hsteps) as [_ ->]; [done|]. exact Hc.
Qed.

(** ** Witnesses *)

Lemma lease_releases_once_witness : ∃ w, lw_returned w = {[7%nat]} ∧ lw_runs w !! 1%nat = Some 1%nat ∧ lw_workers w = ∅.
Proof.
  set (l := mkLease false None 0 []).
  set (w1 := mkLeaseWorld (OnDone l 1).1 {[1%nat := 0%nat]} ∅ ∅ ∅ ∅).
  set (w2 := mkLeaseWorld (Close_begin (lw_lease w1)).1 (lw_runs w1) ∅ ∅ {[7%nat := [1%nat]]} ∅).
  set (w3 := cleanup (mkLeaseWorld (lw_lease w2) (lw_runs w2) ({[1%nat]} ∪ ∅) ∅ (<[7%nat := []]> {[7%nat := [1%nat]]}) ∅) 1).
  set (w4 := mkLeaseWorld (lw_lease w3) (lw_runs w3) (lw_stopped w3) (lw_workers w3) (lw_closing w3) ({[7%nat]} ∪ lw_returned w3)).
  assert (Hreach : lease_reach w4).
  { exists None, time.zero, (λ _, 0%Z), None, l. split; [reflexivity|].
    apply (rtc_l _ _ w1); [apply (ls_on_done (lease_world l) 1); reflexivity|]. apply (rtc_l _ _ w2); [apply (ls_close w1 7); reflexivity|].
    apply (rtc_l _ _ w3); [apply (ls_close_one w2 7 1 []); reflexivity|]. apply rtc_once. apply ls_close_returns; reflexivity. }
  exists w4. destruct (lease_releases_once w4 Hreach) as [_ Hret]. destruct (Hret 7%nat) as (Hw & _ & Hrun); [set_solver|].
  split; [apply leibniz_equiv; set_solver|]. split; [|exact Hw]. vm_compute. reflexivity.
Defined.

Lemma watch_not_missed_witness : let a := change (mkAuthority true 0) false in watch_next a (watch_next a (watch_next a (Waiting 0))) = WatchRevoked.
Proof.
  apply (watch_not_missed (change (mkAuthority true 0) false) (Waiting 0)); [|reflexivity|discriminate]. exists (mkAuthority true 0).
  eapply rtc_l; [apply ws_next|]. apply rtc_once. apply ws_change.
Defined.

Definition sample_staging : Staging := mkStaging None time.zero (mkLease false None 0 []) false false None.

Lemma staging_handoff_witness : le_cause (st_lease (caller_late (mkStaging (Some Canceled) time.zero (mkLease false None 0 []) true true None))) = None.
Proof.
  refine (proj1 (proj2 (staging_handoff sample_staging (λ _, 0%Z) (Accept sample_staging (λ _, 0%Z)).1 None _)) _ _ _); [reflexivity|reflexivity|].
  eapply rtc_l; [apply (bs_parent _ Canceled); reflexivity|]. apply rtc_once. apply bs_caller_late.
Defined.
