(* ===== verification/Certs.v ===== *)
(** * The certificates of an edge: src/tunnel/internal/tlscert

    A certificate is staged, made ready, activated and retired under a binding that fences it by domain, certificate and assignment generations; one
    certificate is active for each hostname.  Every operation runs under the registry's lock, so it is one step; entries are reached
    only through the registry's map, so they are values here.  Parsing and printing of X.509 and PEM are the class [X509]; a certificate that was wiped
    is [None]. *)
From S2P Require Import Prelude GoStd GoData GoNet GoEnc.

Inductive CertError :=
  | ErrInvalid | ErrCertificateInvalid (expired : bool) | ErrGenerationConflict | ErrHostnameConflict | ErrNotReady | ErrReplacementNotReady
  | ErrCertificateExpired | ErrCertificateMissing | ErrClosed | ErrContext | ErrDistributionInvalid | ErrDistributionAuth.

Inductive State := StateStaged | StateReady | StateActive | StateRetired | StateRevoked | StateExpired | StateFailed.

#[export] Instance State_eq_dec : EqDecision State.
Proof. solve_decision. Defined.

(** ** Bindings *)

Definition TargetDurableRoute : string := "durable_route".
Definition TargetPreviewLease : string := "preview_lease".
Definition TargetPlatformWildcard : string := "platform_wildcard".

Record CertificateTarget := mkTarget {
  t_Kind : string; t_DomainID : string; t_AccountID : string; t_TunnelID : string; t_RouteID : string; t_PreviewID : string;
  t_PreviewGeneration : Z; t_PreviewState : string; t_PreviewExpiresAt : Z;
}.

Definition normalizedKind (t : CertificateTarget) : string :=
  if negb (String.eqb (t_Kind t) "") then t_Kind t
  else if negb (String.eqb (t_PreviewID t) "") || negb (t_PreviewGeneration t =? 0)%Z then TargetPreviewLease else TargetDurableRoute.

Definition validIdentifier (value : string) : bool :=
  (3 <=? len value)%Z && (len value <=? 128)%Z && String.eqb (str.TrimSpace value) value && negb (str.ContainsAny value [13; 10; 0]%N)
  && all_bytes (λ c, is_alnum c || one_of "_-." c) value.

Definition validEpoch (value : string) : bool :=
  (8 <=? len value)%Z && (len value <=? 128)%Z && String.eqb (str.TrimSpace value) value && all_bytes (λ c, is_alnum c || one_of "_-" c) value.

Definition no_preview (t : CertificateTarget) : bool :=
  String.eqb (t_PreviewID t) "" && (t_PreviewGeneration t =? 0)%Z && String.eqb (t_PreviewState t) "" && time.IsZero (t_PreviewExpiresAt t).

Definition Target_Validate (t : CertificateTarget) : bool :=
  validIdentifier (t_DomainID t) && validIdentifier (t_AccountID t)
  && (if String.eqb (normalizedKind t) TargetDurableRoute
      then validIdentifier (t_TunnelID t) && (String.eqb (t_Kind t) "" || validIdentifier (t_RouteID t)) && no_preview t
      else if String.eqb (normalizedKind t) TargetPreviewLease
      then String.eqb (t_TunnelID t) "" && String.eqb (t_RouteID t) "" && validIdentifier (t_PreviewID t) && negb (t_PreviewGeneration t =? 0)%Z
           && String.eqb (t_PreviewState t) "active" && negb (time.IsZero (t_PreviewExpiresAt t))
      else if String.eqb (normalizedKind t) TargetPlatformWildcard
      then String.eqb (t_TunnelID t) "" && String.eqb (t_RouteID t) "" && no_preview t
      else false).

Definition nul : string := String "000" EmptyString.

Definition Target_Key (t : CertificateTarget) : string :=
  strings.Join [normalizedKind t; t_DomainID t; t_AccountID t; t_TunnelID t; t_RouteID t; t_PreviewID t; strconv.Itoa (t_PreviewGeneration t)] nul.

Record Binding := mkBinding {
  b_AccountID : string; b_TunnelID : string; b_DomainID : string; b_Hostname : string; b_TargetKind : string; b_RouteID : string; b_PreviewID : string;
  b_PreviewGeneration : Z; b_PreviewState : string; b_PreviewExpiresAt : Z; b_OnDemandLeaf : bool; b_DomainGeneration : Z; b_CertificateGeneration : Z;
  b_EdgeNodeID : string; b_EdgeProcessEpoch : string; b_AssignmentGeneration : Z;
}.

#[export] Instance Binding_eq_dec : EqDecision Binding.
Proof. solve_decision. Defined.

Definition Target (b : Binding) : CertificateTarget :=
  mkTarget (b_TargetKind b) (b_DomainID b) (b_AccountID b) (b_TunnelID b) (b_RouteID b) (b_PreviewID b) (b_PreviewGeneration b) (b_PreviewState b) (b_PreviewExpiresAt b).

Definition is_preview (b : Binding) : bool := String.eqb (normalizedKind (Target b)) TargetPreviewLease.

Definition sprint_bool (b : bool) : string := if b then "true" else "false".

Definition bindingKey (b : Binding) : string :=
  strings.Join [Target_Key (Target b); b_Hostname b; sprint_bool (b_OnDemandLeaf b); b_EdgeNodeID b; b_EdgeProcessEpoch b; strconv.Itoa (b_DomainGeneration b);
    strconv.Itoa (b_CertificateGeneration b); strconv.Itoa (b_AssignmentGeneration b)] nul.

Definition hostKey (host : string) (wildcard : bool) : string := if wildcard then "w:" +:+ host else "e:" +:+ host.

(** ** Host names *)

Definition dns_label (l : string) : bool :=
  match l with
  | EmptyString => false
  | String c _ =>
      (is_lower c || is_digit c) && all_bytes (λ c, is_lower c || is_digit c || Ascii.eqb c "-") l && negb (str.HasSuffix l "-") && (len l <=? 63)%Z
  end.

(** The regular expression dnsNamePattern: two labels or more. *)
Definition dnsNamePattern (s : string) : bool := (2 <=? length (str.Split s "."))%nat && forallb dns_label (str.Split s ".").

(** Both names are ASCII, where strings.EqualFold compares without regard to case. *)
Definition wildcardMatches (pattern host : string) : bool :=
  match strings.strip_prefix "*." pattern with
  | None => false
  | Some base =>
      let patternLabels := str.Split base "." in let hostLabels := str.Split host "." in
      if negb (length hostLabels =? S (length patternLabels))%nat then false
      else String.eqb (strings.ascii_lower (strings.Join (tail hostLabels) ".")) (strings.ascii_lower (strings.Join patternLabels "."))
  end.

Section certs.
Context `{GoRuntime} `{IDNA}.

Definition normalizeHostname (raw : string) : option (string * bool) :=
  let host := ToLower (str.TrimSuffix (str.TrimSpace raw) ".") in
  if String.eqb host "" || (253 <? len host)%Z || str.ContainsAny host [47; 58; 64; 63; 35; 13; 10; 0]%N then None
  else
    let wildcard := match strings.strip_prefix "*." host with Some _ => true | None => false end in
    let base := default host (strings.strip_prefix "*." host) in
    match ToASCII base with
    | None => None
    | Some ascii =>
        let base := ToLower (str.TrimSuffix ascii ".") in
        if strings.Contains base "*" || net.ParseIP base || negb (dnsNamePattern base) then None
        else if wildcard && (str.Count base "." <? 1)%Z then None
        else Some (if wildcard then "*." +:+ base else base, wildcard)
    end.

(** validate: the host and whether it is a wildcard, unless the binding is invalid. *)
Definition Binding_validate (b : Binding) : option (string * bool) :=
  if negb (Target_Validate (Target b)) || negb (validIdentifier (b_EdgeNodeID b)) || negb (validEpoch (b_EdgeProcessEpoch b)) then None
  else if (b_DomainGeneration b =? 0)%Z || (b_CertificateGeneration b =? 0)%Z || (b_AssignmentGeneration b =? 0)%Z then None
  else match normalizeHostname (b_Hostname b) with
       | None => None
       | Some (host, wildcard) =>
           if negb (String.eqb (b_Hostname b) host) || (b_OnDemandLeaf b && negb wildcard)
              || (String.eqb (normalizedKind (Target b)) TargetPlatformWildcard && (negb wildcard || b_OnDemandLeaf b))
           then None else Some (host, wildcard)
       end.
End certs.

(** ** Bundles *)

Definition defaultMaximumLifetime : Z := (90 * 24 * time.Hour)%Z.
Definition maxBundleBytes : Z := Z.shiftl 16 20.

Record Bundle := mkBundle { bu_CertificatePEM : string; bu_PrivateKeyPEM : string; bu_Issuer : string; bu_NotBefore : Z; bu_NotAfter : Z }.

(** tls.Certificate with its parsed leaf. *)
Record TLSCertificate := mkTLSCertificate { tc_Certificate : string; tc_PrivateKey : string; tc_Raw : string; tc_NotBefore : Z; tc_NotAfter : Z }.

(** tls.X509KeyPair with x509.ParseCertificate of the leaf, VerifyHostname of the leaf, and the PEM that ExportEncoded writes. *)
Class X509 := {
  X509KeyPair : string → string → option TLSCertificate;
  VerifyHostname : TLSCertificate → string → bool;
  pem_chain : TLSCertificate → string;
  pem_key : TLSCertificate → option string;
  X509KeyPair_pem : ∀ certPEM keyPEM c key, X509KeyPair certPEM keyPEM = Some c → pem_key c = Some key → X509KeyPair (pem_chain c) key = Some c;
}.

Section registry.
Context `{GoRuntime} `{IDNA} `{SHA256} `{X509}.

Definition validateBundle (bundle : Bundle) (hostname : string) (wildcard : bool) (now maxLifetime : Z) : CertError + TLSCertificate * string * Z * Z :=
  if String.eqb (bu_CertificatePEM bundle) "" || (maxBundleBytes <? len (bu_CertificatePEM bundle))%Z || String.eqb (bu_PrivateKeyPEM bundle) ""
     || (maxBundleBytes <? len (bu_PrivateKeyPEM bundle))%Z || String.eqb (str.TrimSpace (bu_Issuer bundle)) ""
  then inl (ErrCertificateInvalid false)
  else match X509KeyPair (bu_CertificatePEM bundle) (bu_PrivateKeyPEM bundle) with
       | None => inl (ErrCertificateInvalid false)
       | Some parsed =>
           if negb (time.After (tc_NotAfter parsed) now) || time.After (tc_NotBefore parsed) (now + 600 * time.Second) then inl (ErrCertificateInvalid true)
           else if (0 <? maxLifetime)%Z && (maxLifetime <? time.Sub (tc_NotAfter parsed) now)%Z then inl (ErrCertificateInvalid false)
           else if negb (VerifyHostname parsed (if wildcard then "paperboat." +:+ default hostname (strings.strip_prefix "*." hostname) else hostname))
           then inl (ErrCertificateInvalid false)
           else if (negb (time.IsZero (bu_NotBefore bundle)) && negb (bu_NotBefore bundle =? tc_NotBefore parsed)%Z)
                   || (negb (time.IsZero (bu_NotAfter bundle)) && negb (bu_NotAfter bundle =? tc_NotAfter parsed)%Z)
           then inl (ErrCertificateInvalid false)
           else inr (parsed, Sum256 (tc_Raw parsed), tc_NotBefore parsed, tc_NotAfter parsed)
       end.

(** ** The registry *)

Record entry := mkEntry {
  e_binding : Binding; e_hostname : string; e_wildcard : bool; e_state : State; e_fingerprint : string; e_issuer : string; e_notBefore : Z; e_notAfter : Z;
  e_activatedAt : Z; e_retiredAt : Z; e_revokedAt : Z; e_certificate : option TLSCertificate;
}.

Record Registry := mkRegistry { maxLife : Z; closed : bool; entries : gmap string entry; active : gmap string string }.

Definition NewRegistry (maximum : Z) : Registry :=
  mkRegistry (if (maximum <=? 0)%Z || (defaultMaximumLifetime <? maximum)%Z then defaultMaximumLifetime else maximum) false ∅ ∅.

Definition set_entries (r : Registry) (m : gmap string entry) : Registry := mkRegistry (maxLife r) (closed r) m (active r).
Definition set_active (r : Registry) (m : gmap string string) : Registry := mkRegistry (maxLife r) (closed r) (entries r) m.

Definition set_state (e : entry) (s : State) : entry :=
  mkEntry (e_binding e) (e_hostname e) (e_wildcard e) s (e_fingerprint e) (e_issuer e) (e_notBefore e) (e_notAfter e) (e_activatedAt e) (e_retiredAt e) (e_revokedAt e) (e_certificate e).
Definition wipeTLSCertificate (e : entry) : entry :=
  mkEntry (e_binding e) (e_hostname e) (e_wildcard e) (e_state e) (e_fingerprint e) (e_issuer e) (e_notBefore e) (e_notAfter e) (e_activatedAt e) (e_retiredAt e) (e_revokedAt e) None.
Definition set_activatedAt (e : entry) (t : Z) : entry :=
  mkEntry (e_binding e) (e_hostname e) (e_wildcard e) (e_state e) (e_fingerprint e) (e_issuer e) (e_notBefore e) (e_notAfter e) t (e_retiredAt e) (e_revokedAt e) (e_certificate e).
Definition set_retiredAt (e : entry) (t : Z) : entry :=
  mkEntry (e_binding e) (e_hostname e) (e_wildcard e) (e_state e) (e_fingerprint e) (e_issuer e) (e_notBefore e) (e_notAfter e) (e_activatedAt e) t (e_revokedAt e) (e_certificate e).

Definition entry_hostKey (e : entry) : string := hostKey (e_hostname e) (e_wildcard e).
Definition is_active (e : entry) : bool := bool_decide (e_state e = StateActive).

(** The certificate, or the preview lease it belongs to, has expired. *)
Definition lapsed (notAfter : Z) (b : Binding) (now : Z) : bool :=
  negb (time.After notAfter now) || (is_preview b && negb (time.After (b_PreviewExpiresAt b) now)).

(** expireLocked; range site 50. *)
Definition expire_one (now : Z) (r : Registry) (ke : string * entry) : Registry :=
  let '(k, e) := ke in
  if negb (is_active e) || negb (lapsed (e_notAfter e) (e_binding e) now) then r
  else mkRegistry (maxLife r) (closed r) (<[k := wipeTLSCertificate (set_state e StateExpired)]> (entries r)) (delete (entry_hostKey e) (active r)).

Definition expireLocked (r : Registry) (now : Z) : Registry := foldl (expire_one now) r (range 50 (entries r)).

Definition currentDomainActiveLocked (r : Registry) (domainID hostname : string) (wildcard : bool) : option entry :=
  match active r !! hostKey hostname wildcard with
  | None => None
  | Some key => match entries r !! key with
                | Some e => if is_active e && String.eqb (b_DomainID (e_binding e)) domainID then Some e else None
                | None => None
                end
  end.

(** The fences that a binding must pass when another certificate is active: older generations, and the same generation with other bytes or on the same
    process. *)
Definition fenced (previous : entry) (b : Binding) (fingerprint : string) : bool :=
  let p := e_binding previous in
  (b_DomainGeneration b <? b_DomainGeneration p)%Z || (b_CertificateGeneration b <? b_CertificateGeneration p)%Z
  || ((b_DomainGeneration b =? b_DomainGeneration p)%Z && (b_AssignmentGeneration b <? b_AssignmentGeneration p)%Z)
  || ((b_DomainGeneration b =? b_DomainGeneration p)%Z && (b_CertificateGeneration b =? b_CertificateGeneration p)%Z && negb (String.eqb (e_fingerprint previous) fingerprint))
  || ((b_CertificateGeneration b =? b_CertificateGeneration p)%Z && String.eqb (b_EdgeNodeID p) (b_EdgeNodeID b) && String.eqb (b_EdgeProcessEpoch p) (b_EdgeProcessEpoch b)
      && (negb (is_preview b) || String.eqb (Target_Key (Target p)) (Target_Key (Target b)) || negb (String.eqb (e_fingerprint previous) fingerprint))).

Definition zero_fingerprint : string := String.concat "" (repeat nul 32).

Definition mismatch (expected : option string) (fingerprint : string) : bool :=
  match expected with Some x => negb (String.eqb x zero_fingerprint) && negb (String.eqb x fingerprint) | None => false end.

(** A candidate that the new certificate replaces before it was ever active. *)
Definition superseded (b : Binding) (host : string) (wildcard : bool) (e : entry) : bool :=
  String.eqb (b_DomainID (e_binding e)) (b_DomainID b) && String.eqb (e_hostname e) host && Bool.eqb (e_wildcard e) wildcard
  && String.eqb (b_EdgeNodeID (e_binding e)) (b_EdgeNodeID b) && String.eqb (b_EdgeProcessEpoch (e_binding e)) (b_EdgeProcessEpoch b)
  && match e_state e with StateActive | StateRetired | StateRevoked => false | _ => true end
  && (b_CertificateGeneration (e_binding e) <? b_CertificateGeneration b)%Z.

(** stage; the two loops are range sites 51 and 52. *)
Definition stage (r : Registry) (ctx : bool) (now : Z) (b : Binding) (bundle : Bundle) (expected : option string) : Registry * option CertError :=
  if ctx then (r, Some ErrContext)
  else match Binding_validate b with
  | None => (r, Some ErrInvalid)
  | Some (host, wildcard) =>
      if is_preview b && negb (time.After (b_PreviewExpiresAt b) now) then (r, Some ErrCertificateExpired)
      else match validateBundle bundle host wildcard now (maxLife r) with
      | inl e => (r, Some e)
      | inr (parsed, fingerprint, notBefore, notAfter) =>
          if mismatch expected fingerprint then (r, Some ErrGenerationConflict)
          else if closed r then (r, Some ErrClosed)
          else
            let key := bindingKey b in
            let r := expireLocked r now in
            if existsb (λ ke : string * entry, is_active ke.2 && String.eqb (e_hostname ke.2) host && negb (String.eqb ke.1 key)
                               && negb (String.eqb (b_DomainID (e_binding ke.2)) (b_DomainID b))) (range 51 (entries r))
            then (r, Some ErrHostnameConflict)
            else match entries r !! key with
            | Some existing =>
                if negb (bool_decide (e_binding existing = b)) then (r, Some ErrGenerationConflict)
                else match e_state existing with
                     | StateActive | StateStaged | StateReady =>
                         if String.eqb (e_fingerprint existing) fingerprint && (e_notAfter existing =? notAfter)%Z then (r, None) else (r, Some ErrGenerationConflict)
                     | _ => (r, Some ErrGenerationConflict)
                     end
            | None =>
                if match currentDomainActiveLocked r (b_DomainID b) host wildcard with Some current => fenced current b fingerprint | None => false end
                then (r, Some ErrGenerationConflict)
                else
                  let rest := foldl (λ m (ke : string * entry), if superseded b host wildcard ke.2 then delete ke.1 m else m) (entries r) (range 52 (entries r)) in
                  let created := mkEntry b host wildcard StateStaged fingerprint (bu_Issuer bundle) notBefore notAfter time.zero time.zero time.zero (Some parsed) in
                  (set_entries r (<[key := created]> rest), None)
            end
      end
  end.

(** What markReady and activate do with an entry that has expired. *)
Definition expire_entry (r : Registry) (key : string) (e : entry) : Registry :=
  let r := set_entries r (<[key := wipeTLSCertificate (set_state e StateExpired)]> (entries r)) in
  if bool_decide (active r !! entry_hostKey e = Some key) then set_active r (delete (entry_hostKey e) (active r)) else r.

Definition markReady (r : Registry) (ctx : bool) (now : Z) (b : Binding) (expected : option string) : Registry * option CertError :=
  if ctx then (r, Some ErrContext)
  else match Binding_validate b with
  | None => (r, Some ErrInvalid)
  | Some _ =>
      if closed r then (r, Some ErrClosed)
      else match entries r !! bindingKey b with
      | None => (r, Some ErrGenerationConflict)
      | Some e =>
          if negb (bool_decide (e_binding e = b)) then (r, Some ErrGenerationConflict)
          else if mismatch expected (e_fingerprint e) then (r, Some ErrGenerationConflict)
          else if lapsed (e_notAfter e) b now then (expire_entry r (bindingKey b) e, Some ErrCertificateExpired)
          else match e_state e with
               | StateReady | StateActive => (r, None)
               | StateStaged => (set_entries r (<[bindingKey b := set_state e StateReady]> (entries r)), None)
               | _ => (r, Some ErrNotReady)
               end
      end
  end.

(** The previous certificate of the hostname becomes retired, or is dropped when the new one has the same bytes for a renewed preview. *)
Definition retire_previous (r : Registry) (previousKey : string) (b : Binding) (fingerprint : string) (now : Z) : Registry :=
  match entries r !! previousKey with
  | Some previous =>
      if is_active previous then
        if (b_CertificateGeneration (e_binding previous) =? b_CertificateGeneration b)%Z && is_preview (e_binding previous) && String.eqb (e_fingerprint previous) fingerprint
        then set_entries r (delete previousKey (entries r))
        else set_entries r (<[previousKey := set_retiredAt (set_state previous StateRetired) now]> (entries r))
      else r
  | None => r
  end.

Definition activate (r : Registry) (ctx : bool) (now : Z) (b : Binding) (expected : option string) : Registry * option CertError :=
  if ctx then (r, Some ErrContext)
  else match Binding_validate b with
  | None => (r, Some ErrInvalid)
  | Some _ =>
      if closed r then (r, Some ErrClosed)
      else match entries r !! bindingKey b with
      | None => (r, Some ErrGenerationConflict)
      | Some e =>
          if negb (bool_decide (e_binding e = b)) then (r, Some ErrGenerationConflict)
          else if mismatch expected (e_fingerprint e) then (r, Some ErrGenerationConflict)
          else if lapsed (e_notAfter e) b now then (expire_entry r (bindingKey b) e, Some ErrCertificateExpired)
          else match e_state e with
               | StateActive => (r, None)
               | StateReady =>
                   let other := match active r !! entry_hostKey e with Some k => if String.eqb k (bindingKey b) then None else Some k | None => None end in
                   if match other with Some k => match entries r !! k with Some previous => fenced previous b (e_fingerprint e) | None => false end | None => false end
                   then (r, Some ErrGenerationConflict)
                   else
                     let r := match other with Some k => retire_previous r k b (e_fingerprint e) now | None => r end in
                     (mkRegistry (maxLife r) (closed r) (<[bindingKey b := set_activatedAt (set_state e StateActive) now]> (entries r)) (<[entry_hostKey e := bindingKey b]> (active r)), None)
               | _ => (r, Some ErrNotReady)
               end
      end
  end.

Definition retire (r : Registry) (ctx : bool) (b : Binding) (expected : option string) : Registry * option CertError :=
  if ctx then (r, Some ErrContext)
  else match Binding_validate b with
  | None => (r, Some ErrInvalid)
  | Some _ =>
      match entries r !! bindingKey b with
      | None => (r, None)
      | Some e =>
          if negb (bool_decide (e_binding e = b)) then (r, None)
          else if mismatch expected (e_fingerprint e) then (r, Some ErrGenerationConflict)
          else match e_state e with
               | StateRetired => (set_entries r (delete (bindingKey b) (entries r)), None)
               | StateRevoked | StateExpired => (r, None)
               | _ =>
                   if is_active e && bool_decide (active r !! entry_hostKey e = Some (bindingKey b)) then (r, Some ErrReplacementNotReady)
                   else (set_entries r (delete (bindingKey b) (entries r)), None)
               end
      end
  end.

Definition revoke (r : Registry) (ctx : bool) (b : Binding) (expected : option string) : Registry * option CertError :=
  if ctx then (r, Some ErrContext)
  else match Binding_validate b with
  | None => (r, Some ErrInvalid)
  | Some _ =>
      match entries r !! bindingKey b with
      | None => (r, None)
      | Some e =>
          if negb (bool_decide (e_binding e = b)) then (r, None)
          else if mismatch expected (e_fingerprint e) then (r, Some ErrGenerationConflict)
          else
            let r := if bool_decide (active r !! entry_hostKey e = Some (bindingKey b)) then set_active r (delete (entry_hostKey e) (active r)) else r in
            (set_entries r (delete (bindingKey b) (entries r)), None)
      end
  end.

(** Close; the maps are replaced by empty ones. *)
Definition Close (r : Registry) : Registry := if closed r then r else mkRegistry (maxLife r) true ∅ ∅.

(** ** Serving *)

(** range site 53. *)
Definition expiredForHostLocked (r : Registry) (host : string) : bool :=
  existsb (λ ke : string * entry, bool_decide (e_state ke.2 = StateExpired)
    && ((String.eqb (e_hostname ke.2) host && negb (e_wildcard ke.2)) || (e_wildcard ke.2 && wildcardMatches (e_hostname ke.2) host))) (range 53 (entries r)).

Definition wildcardActiveKeyLocked (r : Registry) (host : string) : option string :=
  let labels := str.Split host "." in
  if (length labels <? 3)%nat then None else active r !! hostKey ("*." +:+ strings.Join (tail labels) ".") true.

(** range site 54. *)
Definition onDemandWildcardActiveLocked (r : Registry) (host : string) : bool :=
  existsb (λ ke : string * entry, is_active ke.2 && e_wildcard ke.2 && b_OnDemandLeaf (e_binding ke.2)
    && bool_decide (active r !! hostKey (e_hostname ke.2) true = Some ke.1) && wildcardMatches (e_hostname ke.2) host) (range 54 (entries r)).

Definition missing (r : Registry) (host : string) : CertError := if expiredForHostLocked r host then ErrCertificateExpired else ErrCertificateMissing.

Definition activeCertificateLocked (r : Registry) (key : option string) (host : string) (now : Z) : Registry * (CertError + TLSCertificate) :=
  match (k ← key; e ← entries r !! k; Some (k, e)) with
  | Some (k, e) =>
      if negb (is_active e) then (r, inl (missing r host))
      else if negb (time.After (e_notAfter e) now)
      then (mkRegistry (maxLife r) (closed r) (<[k := set_state e StateExpired]> (entries r)) (delete (entry_hostKey e) (active r)), inl ErrCertificateExpired)
      else match e_certificate e with Some c => (r, inr c) | None => (r, inr (mkTLSCertificate "" "" "" 0 0)) end
  | None => (r, inl (missing r host))
  end.

Definition GetCertificate (r : Registry) (serverName : string) (now : Z) : Registry * (CertError + TLSCertificate) :=
  match normalizeHostname serverName with
  | None | Some (_, true) => (r, inl ErrCertificateMissing)
  | Some (host, false) =>
      if closed r then (r, inl ErrClosed)
      else
        let r := expireLocked r now in
        match active r !! hostKey host false with
        | Some key => activeCertificateLocked r (Some key) host now
        | None =>
            if onDemandWildcardActiveLocked r host then (r, inl (missing r host))
            else activeCertificateLocked r (wildcardActiveKeyLocked r host) host now
        end
  end.

Definition WildcardCertificate (r : Registry) (serverName : string) (now : Z) : Registry * (CertError + TLSCertificate) :=
  match normalizeHostname serverName with
  | None | Some (_, true) => (r, inl ErrCertificateMissing)
  | Some (host, false) =>
      if closed r then (r, inl ErrClosed)
      else let r := expireLocked r now in activeCertificateLocked r (wildcardActiveKeyLocked r host) host now
  end.

Definition RequiresExactCertificate (r : Registry) (hostname : string) (now : Z) : Registry * bool :=
  match normalizeHostname hostname with
  | None | Some (_, true) => (r, false)
  | Some (host, false) =>
      if closed r then (r, false)
      else
        let r := expireLocked r now in
        match (k ← active r !! hostKey host false; entries r !! k) with
        | Some e => if is_active e then (r, false) else (r, onDemandWildcardActiveLocked r host)
        | None => (r, onDemandWildcardActiveLocked r host)
        end
  end.

(** ** Distribution: distribution.go *)

Record DistributionEnvelope := mkEnvelope {
  de_CertificateID : string; de_Fingerprint : string; de_Binding : Binding; de_Bundle : Bundle; de_Proof : string; de_IssuedAt : Z; de_ExpiresAt : Z;
}.

(** The receiver's node, its epoch and the largest message. *)
Record Receiver := mkReceiver { rc_nodeID : string; rc_processEpoch : string; rc_maximumMessage : Z }.

Definition NewDistributionReceiver (nodeID processEpoch : string) (maximum : Z) : CertError + Receiver :=
  if negb (validIdentifier nodeID) || negb (validEpoch processEpoch) then inl ErrDistributionInvalid
  else inr (mkReceiver nodeID processEpoch (if (maximum <=? 0)%Z || (Z.shiftl 32 20 <? maximum)%Z then Z.shiftl 16 20 else maximum)).

(** [verified] is what the authenticator answers. *)
Definition authenticate (rc : Receiver) (ctx : bool) (now : Z) (verified : bool) (d : DistributionEnvelope) : option CertError :=
  let b := de_Binding d in
  if negb (validIdentifier (de_CertificateID d)) then Some ErrDistributionInvalid
  else if ctx then Some ErrContext
  else if negb (String.eqb (b_EdgeNodeID b) (rc_nodeID rc)) || negb (String.eqb (b_EdgeProcessEpoch b) (rc_processEpoch rc))
          || (b_CertificateGeneration b =? 0)%Z || (b_AssignmentGeneration b =? 0)%Z || (b_DomainGeneration b =? 0)%Z
  then Some ErrGenerationConflict
  else if (rc_maximumMessage rc <? len (bu_CertificatePEM (de_Bundle d)))%Z || (rc_maximumMessage rc <? len (bu_PrivateKeyPEM (de_Bundle d)))%Z
          || (Z.shiftl 64 10 <? len (de_Proof d))%Z || (len (de_Proof d) =? 0)%Z || time.IsZero (de_ExpiresAt d) || negb (time.After (de_ExpiresAt d) now)
          || time.IsZero (de_IssuedAt d) || (600 * time.Second <? time.Sub (de_ExpiresAt d) (de_IssuedAt d))%Z
  then Some ErrDistributionInvalid
  else if negb verified then Some ErrDistributionAuth else None.

Definition distributionFingerprint (value : string) : option string := if String.eqb value zero_fingerprint then None else Some value.

(** An authenticated action on the registry. *)
Definition authenticated (rc : Receiver) (r : Registry) (ctx : bool) (now : Z) (verified : bool) (d : DistributionEnvelope)
    (action : Registry → Registry * option CertError) : Registry * option CertError :=
  match authenticate rc ctx now verified d with Some e => (r, Some e) | None => action r end.

Definition Receiver_Stage rc r ctx now verified d : Registry * option CertError :=
  authenticated rc r ctx now verified d (λ r, stage r ctx now (de_Binding d) (de_Bundle d) (distributionFingerprint (de_Fingerprint d))).

Definition StageAndReady rc r ctx now verified d : Registry * option CertError :=
  authenticated rc r ctx now verified d (λ r,
    match stage r ctx now (de_Binding d) (de_Bundle d) (distributionFingerprint (de_Fingerprint d)) with
    | (r, Some e) => (r, Some e)
    | (r, None) => markReady r ctx now (de_Binding d) (distributionFingerprint (de_Fingerprint d))
    end).

Definition Receiver_Ready rc r ctx now verified d : Registry * option CertError :=
  authenticated rc r ctx now verified d (λ r, markReady r ctx now (de_Binding d) (distributionFingerprint (de_Fingerprint d))).
Definition Receiver_Activate rc r ctx now verified d : Registry * option CertError :=
  authenticated rc r ctx now verified d (λ r, activate r ctx now (de_Binding d) (distributionFingerprint (de_Fingerprint d))).
Definition Receiver_Retire rc r ctx now verified d : Registry * option CertError :=
  authenticated rc r ctx now verified d (λ r, retire r ctx (de_Binding d) (distributionFingerprint (de_Fingerprint d))).
Definition Receiver_Revoke rc r ctx now verified d : Registry * option CertError :=
  authenticated rc r ctx now verified d (λ r, revoke r ctx (de_Binding d) (distributionFingerprint (de_Fingerprint d))).

(** ** Handover: handover.go *)

(** The record of an active entry, when its key can be written; a certificate that was wiped has none. *)
Definition export_one (e : entry) : option (Binding * Bundle) :=
  c ← e_certificate e; key ← pem_key c; Some (e_binding e, mkBundle (pem_chain c) key (e_issuer e) (e_notBefore e) (e_notAfter e)).

(** ExportEncoded; range site 55.  The records are kept decoded: JSON carries them unchanged. *)
Definition Export (r : Registry) (now : Z) : CertError + list (Binding * Bundle) :=
  if closed r then inl ErrClosed
  else match mapM (λ ke : string * entry, export_one ke.2) (List.filter (λ ke : string * entry, is_active ke.2 && time.After (e_notAfter ke.2) now) (range 55 (entries r))) with
       | Some records => inr records
       | None => inl (ErrCertificateInvalid false)
       end.

Definition importDropReason (e : CertError) : string :=
  match e with
  | ErrCertificateExpired | ErrCertificateInvalid true => "expired"
  | ErrGenerationConflict | ErrHostnameConflict => "conflict"
  | ErrCertificateInvalid false => "invalid"
  | ErrContext => "canceled"
  | _ => "other"
  end.

Definition importOne (r : Registry) (ctx : bool) (now : Z) (nodeID epoch : string) (item : Binding * Bundle) : Registry * string :=
  let '(b, bundle) := item in
  if negb (String.eqb (b_EdgeNodeID b) nodeID) || negb (String.eqb (b_EdgeProcessEpoch b) epoch) then (r, "other_process")
  else match stage r ctx now b bundle None with
  | (r, Some e) => (r, importDropReason e)
  | (r, None) =>
      match markReady r ctx now b None with
      | (r, Some e) => (r, importDropReason e)
      | (r, None) => match activate r ctx now b None with (r, Some e) => (r, importDropReason e) | (r, None) => (r, "") end
      end
  end.

(** ImportEncoded: the registry, how many were imported, and the reasons of those that were dropped. *)
Fixpoint Import (r : Registry) (ctx : bool) (now : Z) (nodeID epoch : string) (records : list (Binding * Bundle)) : Registry * nat * list string :=
  match records with
  | [] => (r, 0%nat, [])
  | item :: rest =>
      let '(r, reason) := importOne r ctx now nodeID epoch item in
      let '(r, imported, dropped) := Import r ctx now nodeID epoch rest in
      if String.eqb reason "" then (r, S imported, dropped) else (r, imported, reason :: dropped)
  end.
End registry.

Arguments expire_one : simpl never.
Arguments expireLocked : simpl never.
Arguments Binding_validate : simpl never.
Arguments validateBundle : simpl never.
