(* ===== verification/CertsSpec.v ===== *)
(** * The certificate registry keeps its invariant *)
From S2P Require Import Prelude GoStd GoData GoNet GoEnc Certs.

Section spec.
Context `{GoRuntime} `{IDNA} `{SHA256} `{X509}.

(** The test that the goal makes first. *)
Ltac case_if H := match goal with |- (if ?b then _ else _) = _ → _ => destruct b eqn:H end.

(** ** The invariant *)

(** The certificate that an entry serves. *)
Definition holds_certificate (e : entry) : Prop :=
  ∃ c, e_certificate e = Some c ∧ e_fingerprint e = Sum256 (tc_Raw c) ∧ e_notBefore e = tc_NotBefore c ∧ e_notAfter e = tc_NotAfter c ∧
    VerifyHostname c (if e_wildcard e then "paperboat." +:+ default (e_hostname e) (strings.strip_prefix "*." (e_hostname e)) else e_hostname e) = true ∧
    (∃ certPEM keyPEM, X509KeyPair certPEM keyPEM = Some c) ∧ str.TrimSpace (e_issuer e) ≠ "".

Definition live_state (s : State) : bool := match s with StateStaged | StateReady | StateActive | StateRetired => true | _ => false end.

(** What every entry satisfies under its key. *)
Record entry_ok (k : string) (e : entry) : Prop := {
  eo_key : bindingKey (e_binding e) = k;
  eo_valid : Binding_validate (e_binding e) = Some (e_hostname e, e_wildcard e);
  eo_certificate : live_state (e_state e) = true → holds_certificate e;
}.

Record cert_ok (r : Registry) : Prop := {
  co_entries : ∀ k e, entries r !! k = Some e → entry_ok k e;
  co_active : ∀ hk k, active r !! hk = Some k → ∃ e, entries r !! k = Some e ∧ e_state e = StateActive ∧ entry_hostKey e = hk;
  co_registered : ∀ k e, entries r !! k = Some e → e_state e = StateActive → active r !! entry_hostKey e = Some k;
  co_closed : closed r = true → entries r = ∅ ∧ active r = ∅;
}.

Lemma NewRegistry_ok maximum : cert_ok (NewRegistry maximum).
Proof. split; simpl; try done; intros ? ?; by rewrite lookup_empty. Qed.

(** ** Expiry *)

Definition expires (now : Z) (e : entry) : bool := is_active e && lapsed (e_notAfter e) (e_binding e) now.
Definition expired_entry (now : Z) (e : entry) : entry := if expires now e then wipeTLSCertificate (set_state e StateExpired) else e.

Lemma expire_one_spec now r k e : expire_one now r (k, e) =
  if expires now e then mkRegistry (maxLife r) (closed r) (<[k := wipeTLSCertificate (set_state e StateExpired)]> (entries r)) (delete (entry_hostKey e) (active r)) else r.
Proof. unfold expire_one, expires. by destruct (is_active e), (lapsed _ _ _). Qed.

Lemma expire_fold now l r : NoDup l.*1 → (∀ k e, (k, e) ∈ l → entries r !! k = Some e) →
  let r' := foldl (expire_one now) r l in
  maxLife r' = maxLife r ∧ closed r' = closed r ∧
  (∀ k, entries r' !! k = if decide (k ∈ l.*1) then expired_entry now <$> entries r !! k else entries r !! k) ∧
  (∀ hk k, active r' !! hk = Some k ↔ active r !! hk = Some k ∧ ∀ k' e, (k', e) ∈ l → expires now e = true → entry_hostKey e ≠ hk).
Proof.
  revert r. induction l as [|[k0 e0] l IH]; intros r Hnd Hin; simpl.
  { split_and!; try done. intros hk k. split; [|by intros [? _]]. intros ?. split; [done|]. by intros ? ? ?%elem_of_nil. }
  apply NoDup_cons in Hnd as [Hk0 Hnd]. rewrite expire_one_spec.
  assert (Hin0 : entries r !! k0 = Some e0) by (apply Hin; left).
  assert (Hrest : ∀ k e, (k, e) ∈ l → k ≠ k0) by (intros k e Hke ->; apply Hk0; apply list_elem_of_fmap; by exists (k0, e)).
  assert (Hold : ∀ k e, (k, e) ∈ l → entries r !! k = Some e) by (intros k e Hke; apply Hin; by right).
  destruct (expires now e0) eqn:Hx.
  - destruct (IH (mkRegistry (maxLife r) (closed r) (<[k0 := wipeTLSCertificate (set_state e0 StateExpired)]> (entries r)) (delete (entry_hostKey e0) (active r)))) as (H1' & H2' & He & Ha);
      [done|intros k e Hke; simpl; rewrite lookup_insert_ne; [by apply Hold|symmetry; by eapply Hrest]|]. simpl in *. split_and!; try done.
    + intros k. rewrite He. destruct (decide (k = k0)) as [->|Hne].
      * rewrite decide_False by done. rewrite decide_True by set_solver. rewrite lookup_insert_eq, Hin0. simpl. unfold expired_entry. by rewrite Hx.
      * rewrite lookup_insert_ne by done. repeat case_decide; set_solver.
    + intros hk k. rewrite Ha, lookup_delete_Some. split.
      * intros [[Hne Hk] Hall]. split; [done|]. intros k' e [[= -> ->]|Hke]%elem_of_cons; [done|by eapply Hall].
      * intros [Hk Hall]. split_and!; [eapply (Hall k0 e0); [left|done]|done|]. intros k' e Hke. eapply Hall. by right.
  - destruct (IH r) as (H1' & H2' & He & Ha); [done|done|]. simpl in *. split_and!; try done.
    + intros k. rewrite He. destruct (decide (k = k0)) as [->|Hne].
      * rewrite decide_False by done. rewrite decide_True by set_solver. rewrite Hin0. simpl. unfold expired_entry. by rewrite Hx.
      * repeat case_decide; set_solver.
    + intros hk k. rewrite Ha. split; intros [Hk Hall]; (split; [done|]).
      * intros k' e [[= -> ->]|Hke]%elem_of_cons; [congruence|by eapply Hall].
      * intros k' e Hke. eapply Hall. by right.
Qed.

Lemma expireLocked_spec r now : let r' := expireLocked r now in maxLife r' = maxLife r ∧ closed r' = closed r ∧
  (∀ k, entries r' !! k = expired_entry now <$> entries r !! k) ∧
  (∀ hk k, active r' !! hk = Some k ↔ active r !! hk = Some k ∧ ∀ k' e, entries r !! k' = Some e → expires now e = true → entry_hostKey e ≠ hk).
Proof.
  unfold expireLocked. destruct (expire_fold now (range 50 (entries r)) r) as (H1' & H2' & He & Ha).
  - rewrite range_perm. apply NoDup_fst_map_to_list.
  - intros k e. by rewrite elem_of_range.
  - split_and!; try done.
    + intros k. rewrite He. case_decide as Hk; [done|]. destruct (entries r !! k) as [e|] eqn:Hke; [|done]. destruct Hk. apply list_elem_of_fmap. exists (k, e). by rewrite elem_of_range.
    + intros hk k. rewrite Ha. by setoid_rewrite elem_of_range.
Qed.

Lemma expired_entry_binding now e : e_binding (expired_entry now e) = e_binding e ∧ e_hostname (expired_entry now e) = e_hostname e ∧
  e_wildcard (expired_entry now e) = e_wildcard e.
Proof. unfold expired_entry. by destruct (expires now e). Qed.

Lemma entry_ok_expired k e now : entry_ok k e → entry_ok k (expired_entry now e).
Proof. intros [Hk Hv Hc]. unfold expired_entry. destruct (expires now e); by split. Qed.

Lemma expired_entry_active now e : e_state (expired_entry now e) = StateActive → expired_entry now e = e ∧ expires now e = false.
Proof. unfold expired_entry. by destruct (expires now e). Qed.

Lemma expireLocked_ok r now : cert_ok r → cert_ok (expireLocked r now).
Proof.
  intros [He Ha Hr Hc]. destruct (expireLocked_spec r now) as (_ & Hcl & Hen & Hac). split.
  - intros k e. rewrite Hen. intros (e0 & Hk & ->)%fmap_Some. apply entry_ok_expired. by apply He.
  - intros hk k [Hk Hall]%Hac. destruct (Ha _ _ Hk) as (e & Hke & Hst & Hhk). exists e. rewrite Hen, Hke. simpl. unfold expired_entry.
    destruct (expires now e) eqn:Hx; [|done]. by destruct (Hall _ _ Hke Hx).
  - intros k e. rewrite Hen. intros (e0 & Hk & ->)%fmap_Some Hst. destruct (expired_entry_active _ _ Hst) as [Heq Hx]. rewrite Heq in *. apply Hac.
    pose proof (Hr _ _ Hk Hst) as Hk'. split; [done|]. intros k1 e1 Hk1 Hx1 Heq1.
    assert (Hst1 : e_state e1 = StateActive) by (unfold expires, is_active in Hx1; apply andb_true_iff in Hx1 as [Hx1 _]; by apply bool_decide_eq_true in Hx1).
    pose proof (Hr _ _ Hk1 Hst1) as Hk1'. rewrite Heq1 in Hk1'. assert (k1 = k) as -> by congruence. congruence.
  - rewrite Hcl. intros Hclosed. destruct (Hc Hclosed) as [He0 Ha0]. split; apply map_eq; intros k; rewrite lookup_empty; [by rewrite Hen, He0, lookup_empty|].
    destruct (active (expireLocked r now) !! k) as [x|] eqn:Hx; [|done]. apply Hac in Hx as [Hx _]. by rewrite Ha0, lookup_empty in Hx.
Qed.

(** After the expiry no active entry has lapsed. *)
Lemma expireLocked_fresh r now k e : entries (expireLocked r now) !! k = Some e → e_state e = StateActive → lapsed (e_notAfter e) (e_binding e) now = false.
Proof.
  destruct (expireLocked_spec r now) as (_ & _ & Hen & _). rewrite Hen. intros (e0 & Hk & ->)%fmap_Some Hst. destruct (expired_entry_active _ _ Hst) as [Heq Hx]. rewrite Heq in *.
  unfold expires, is_active in Hx. by rewrite bool_decide_eq_true_2 in Hx.
Qed.

(** ** Changes of one entry *)

(** A change of the entry under [k] that keeps it inactive. *)
Lemma set_inactive_ok r k e e' : cert_ok r → entries r !! k = Some e → e_state e ≠ StateActive → entry_ok k e' → e_state e' ≠ StateActive →
  cert_ok (set_entries r (<[k := e']> (entries r))).
Proof.
  intros [He Ha Hr Hc] Hk Hst Hok Hst'. split; simpl.
  - intros k1 e1. rewrite lookup_insert_Some. intros [[<- <-]|[_ ?]]; by auto.
  - intros hk k1 Hk1. destruct (Ha _ _ Hk1) as (e1 & Hke & Hs1 & Hhk). exists e1. split; [|done]. rewrite lookup_insert_ne; [done|]. intros ->. congruence.
  - intros k1 e1. rewrite lookup_insert_Some. intros [[<- <-]|[_ ?]]; [done|by auto].
  - intros Hcl. destruct (Hc Hcl) as [He0 _]. by rewrite He0, lookup_empty in Hk.
Qed.

(** Entries that are not active may be deleted. *)
Lemma delete_inactive_ok r m : cert_ok r → m ⊆ entries r → (∀ k e, entries r !! k = Some e → e_state e = StateActive → m !! k = Some e) → cert_ok (set_entries r m).
Proof.
  intros [He Ha Hr Hc] Hsub Hkeep. split; simpl.
  - intros k e Hk. apply He. by eapply lookup_weaken.
  - intros hk k Hk. destruct (Ha _ _ Hk) as (e & Hke & Hs & Hhk). exists e. split; [by apply Hkeep|done].
  - intros k e Hk. apply Hr. by eapply lookup_weaken.
  - intros Hcl. destruct (Hc Hcl) as [He0 Ha0]. rewrite He0 in Hsub. split; [by apply (anti_symm (⊆)), map_empty_subseteq|done].
Qed.

(** An active entry leaves the registry of active ones together with its state. *)
Lemma deactivate_ok r k e m : cert_ok r → entries r !! k = Some e → (∀ k' e', m !! k' = Some e' → entry_ok k' e') →
  (∀ k', k' ≠ k → m !! k' = entries r !! k') → (∀ e', m !! k = Some e' → e_state e' ≠ StateActive) →
  cert_ok (mkRegistry (maxLife r) (closed r) m (if bool_decide (active r !! entry_hostKey e = Some k) then delete (entry_hostKey e) (active r) else active r)).
Proof.
  intros [He Ha Hr Hc] Hk Hm Hother Hst.
  assert (Hac : ∀ hk k', (if bool_decide (active r !! entry_hostKey e = Some k) then delete (entry_hostKey e) (active r) else active r) !! hk = Some k' ↔
    active r !! hk = Some k' ∧ k' ≠ k).
  { intros hk k'. case_bool_decide as Hx; [rewrite lookup_delete_Some|]; split.
    - intros [Hne Hk']. split; [done|]. intros ->. destruct (Ha _ _ Hk') as (e1 & Hk1 & _ & <-). congruence.
    - intros [Hk' Hne]. split; [|done]. intros <-. congruence.
    - intros Hk'. split; [done|]. intros ->. destruct (Ha _ _ Hk') as (e1 & Hk1 & _ & <-). congruence.
    - by intros [? _]. }
  split; simpl.
  - done.
  - intros hk k' [Hk' Hne]%Hac. destruct (Ha _ _ Hk') as (e1 & Hke & ?). exists e1. by rewrite Hother.
  - intros k' e' Hk' Hs'. apply Hac. destruct (decide (k' = k)) as [->|Hne]; [by destruct (Hst _ Hk')|]. rewrite Hother in Hk' by done. split; [by apply Hr|done].
  - intros Hcl. destruct (Hc Hcl) as [He0 _]. by rewrite He0, lookup_empty in Hk.
Qed.

Lemma entry_ok_wipe k e s : entry_ok k e → live_state s = false → entry_ok k (wipeTLSCertificate (set_state e s)).
Proof. intros [Hk Hv Hc] Hs. split; simpl; [done..|]. by rewrite Hs. Qed.

Lemma entry_ok_state k e s : entry_ok k e → live_state (e_state e) = true → entry_ok k (set_state e s).
Proof. intros [Hk Hv Hc] Hs. split; simpl; [done..|]. intros _. by apply Hc. Qed.

Lemma expire_entry_ok r k e : cert_ok r → entries r !! k = Some e → cert_ok (expire_entry r k e).
Proof.
  intros Hok Hk. unfold expire_entry. simpl.
  pose proof (deactivate_ok r k e (<[k := wipeTLSCertificate (set_state e StateExpired)]> (entries r)) Hok Hk) as Hd.
  case_bool_decide; (apply Hd; [|intros k' Hne; by rewrite lookup_insert_ne|intros e'; rewrite lookup_insert_eq; by intros [= <-]]);
    (intros k' e'; rewrite lookup_insert_Some; intros [[<- <-]|[_ Hk']]; [apply entry_ok_wipe; [|done]|]; by apply (co_entries _ Hok)).
Qed.

(** ** The operations *)

Lemma validateBundle_holds bundle host wildcard now life parsed fp nb na : validateBundle bundle host wildcard now life = inr (parsed, fp, nb, na) →
  fp = Sum256 (tc_Raw parsed) ∧ nb = tc_NotBefore parsed ∧ na = tc_NotAfter parsed ∧ (now < na)%Z ∧ str.TrimSpace (bu_Issuer bundle) ≠ "" ∧
  VerifyHostname parsed (if wildcard then "paperboat." +:+ default host (strings.strip_prefix "*." host) else host) = true ∧
  X509KeyPair (bu_CertificatePEM bundle) (bu_PrivateKeyPEM bundle) = Some parsed.
Proof.
  unfold validateBundle. case_if Hb; [done|]. destruct (X509KeyPair _ _) as [c|]; [|done]. case_if Ht; [done|]. case_if Hl; [done|].
  case_if Hv; [done|]. case_if Hn; [done|]. intros [= <- <- <- <-]. apply negb_false_iff in Hv.
  apply orb_false_iff in Hb as [_ Hi]. apply String.eqb_neq in Hi. apply orb_false_iff in Ht as [Ht _]. apply negb_false_iff, Z.ltb_lt in Ht. by split_and!.
Qed.

Definition drop_superseded (b : Binding) (host : string) (wildcard : bool) (m : gmap string entry) : gmap string entry :=
  foldl (λ m (ke : string * entry), if superseded b host wildcard ke.2 then delete ke.1 m else m) m (range 52 m).

Lemma drop_superseded_spec b host wildcard m : drop_superseded b host wildcard m ⊆ m ∧
  ∀ k e, m !! k = Some e → e_state e = StateActive → drop_superseded b host wildcard m !! k = Some e.
Proof.
  unfold drop_superseded. assert (Hgen : ∀ l (m0 : gmap string entry), foldl (λ m (ke : string * entry), if superseded b host wildcard ke.2 then delete ke.1 m else m) m0 l ⊆ m0 ∧
    ∀ k e, m0 !! k = Some e → (∀ e', (k, e') ∈ l → e' = e) → e_state e = StateActive →
      foldl (λ m (ke : string * entry), if superseded b host wildcard ke.2 then delete ke.1 m else m) m0 l !! k = Some e).
  { induction l as [|[k0 e0] l IH]; intros m0; simpl; [done|]. destruct (superseded b host wildcard e0) eqn:Hsup.
    - destruct (IH (delete k0 m0)) as [Hs Hk]. split; [etrans; [done|apply delete_subseteq]|]. intros k e Hke Hl Hst. apply Hk; [|intros e' He'; apply Hl; by right|done].
      rewrite lookup_delete_ne; [done|]. intros ->. rewrite (Hl e0 (list_elem_of_here _ _)) in Hsup. unfold superseded in Hsup. rewrite Hst in Hsup. by rewrite andb_false_r in Hsup.
    - destruct (IH m0) as [Hs Hk]. split; [done|]. intros k e Hke Hl Hst. apply Hk; [done|intros e' He'; apply Hl; by right|done]. }
  destruct (Hgen (range 52 m) m) as [Hs Hk]. split; [done|]. intros k e Hke Hst. apply Hk; [done| |done]. intros e'. rewrite elem_of_range. congruence.
Qed.

Lemma cert_stage_ok r ctx now b bundle expected : cert_ok r → cert_ok (stage r ctx now b bundle expected).1.
Proof.
  intros Hok. unfold stage. destruct ctx; [done|]. destruct (Binding_validate b) as [[host wildcard]|] eqn:Hv; [|done]. destruct (_ && _); [done|].
  destruct (validateBundle _ _ _ _ _) as [|[[[parsed fp] nb] na]] eqn:Hb; [done|]. destruct (mismatch _ _); [done|]. destruct (closed r) eqn:Hcl; [done|].
  pose proof (expireLocked_ok r now Hok) as Hok'. set (r' := expireLocked r now) in *. destruct (existsb _ _); [done|].
  destruct (entries r' !! bindingKey b) as [existing|] eqn:Hk.
  { destruct (negb _); [done|]. destruct (e_state existing); try done; by destruct (_ && _). }
  destruct (match currentDomainActiveLocked _ _ _ _ with Some _ => _ | None => _ end); [done|]. simpl.
  destruct (drop_superseded_spec b host wildcard (entries r')) as [Hsub Hkeep]. fold (drop_superseded b host wildcard (entries r')).
  pose proof (delete_inactive_ok r' _ Hok' Hsub Hkeep) as [He Ha Hr Hc]. simpl in *.
  assert (Hnone : drop_superseded b host wildcard (entries r') !! bindingKey b = None).
  { destruct (drop_superseded b host wildcard (entries r') !! bindingKey b) as [x|] eqn:Hx; [|done]. eapply lookup_weaken in Hx; [|exact Hsub]. congruence. }
  destruct (validateBundle_holds _ _ _ _ _ _ _ _ _ Hb) as (-> & -> & -> & _ & Hi & Hh & Hp). split; simpl.
  - intros k e. rewrite lookup_insert_Some. intros [[<- <-]|[_ ?]]; [|by auto]. split; simpl; [done..|]. intros _. exists parsed. simpl. split_and!; try done. by eauto.
  - intros hk k Hk1. destruct (Ha _ _ Hk1) as (e1 & Hke & ?). exists e1. split; [|done]. rewrite lookup_insert_ne; [done|]. intros <-. congruence.
  - intros k e. rewrite lookup_insert_Some. intros [[<- <-]|[_ ?]]; [done|by auto].
  - intros Hx. destruct (expireLocked_spec r now) as (_ & Hcl' & _). fold r' in Hcl'. congruence.
Qed.

Lemma markReady_ok r ctx now b expected : cert_ok r → cert_ok (markReady r ctx now b expected).1.
Proof.
  intros Hok. unfold markReady. destruct ctx; [done|]. destruct (Binding_validate b); [|done]. destruct (closed r); [done|].
  destruct (entries r !! bindingKey b) as [e|] eqn:Hk; [|done]. destruct (negb _); [done|]. destruct (mismatch _ _); [done|].
  destruct (lapsed _ _ _); [by apply expire_entry_ok|]. destruct (e_state e) eqn:Hst; try done. simpl. eapply set_inactive_ok; [done|exact Hk|by rewrite Hst| |done].
  apply entry_ok_state; [by apply (co_entries _ Hok)|by rewrite Hst].
Qed.

(** The registry after the previous certificate of the name was retired: nothing is active under the name. *)
Lemma retire_previous_ok r hk k b fp now : cert_ok r → active r !! hk = Some k →
  cert_ok (set_active (retire_previous r k b fp now) (delete hk (active r))) ∧ maxLife (retire_previous r k b fp now) = maxLife r ∧
  closed (retire_previous r k b fp now) = closed r ∧ active (retire_previous r k b fp now) = active r ∧
  ∀ k', k' ≠ k → entries (retire_previous r k b fp now) !! k' = entries r !! k'.
Proof.
  intros Hok Hk. destruct (co_active _ Hok _ _ Hk) as (e & Hke & Hst & Hhk). unfold retire_previous. rewrite Hke. unfold is_active. rewrite bool_decide_eq_true_2 by done. subst hk.
  pose proof (deactivate_ok r k e) as Hd. rewrite bool_decide_eq_true_2 in Hd by done. pose proof (co_entries _ Hok) as He. destruct (_ && _); simpl; split_and!; try done.
  - apply Hd; try done; simpl; [intros k' e' [_ Hk']%lookup_delete_Some; by apply He|intros k' Hne; by rewrite lookup_delete_ne|intros e'; by rewrite lookup_delete_eq].
  - intros k' Hne. by rewrite lookup_delete_ne.
  - apply Hd; try done; simpl; [|intros k' Hne; by rewrite lookup_insert_ne|intros e'; rewrite lookup_insert_eq; by intros [= <-]].
    intros k' e'. rewrite lookup_insert_Some. intros [[<- <-]|[_ ?]]; [|by apply He]. destruct (He _ _ Hke) as [H1' H2' H3']. split; simpl; [done..|]. intros _. apply H3'. by rewrite Hst.
  - intros k' Hne. by rewrite lookup_insert_ne.
Qed.

Lemma activate_free_ok r k e now : cert_ok r → entries r !! k = Some e → e_state e = StateReady → active r !! entry_hostKey e = None →
  cert_ok (mkRegistry (maxLife r) (closed r) (<[k := set_activatedAt (set_state e StateActive) now]> (entries r)) (<[entry_hostKey e := k]> (active r))).
Proof.
  intros [He Ha Hr Hc] Hk Hst Hfree. split; simpl.
  - intros k' e'. rewrite lookup_insert_Some. intros [[<- <-]|[_ ?]]; [|by auto]. destruct (He _ _ Hk) as [H1' H2' H3']. split; simpl; [done..|]. intros _. apply H3'. by rewrite Hst.
  - intros hk k'. rewrite lookup_insert_Some. intros [[<- <-]|[Hne Hk']].
    + eexists. by rewrite lookup_insert_eq.
    + destruct (Ha _ _ Hk') as (e' & Hke & Hs' & Hhk). exists e'. split; [|done]. rewrite lookup_insert_ne; [done|]. intros <-. congruence.
  - intros k' e'. rewrite lookup_insert_Some. intros [[<- <-]|[Hne Hk']] Hs'; [by rewrite lookup_insert_eq|]. rewrite lookup_insert_ne; [by auto|].
    intros Heq. pose proof (Hr _ _ Hk' Hs'). congruence.
  - intros Hcl. destruct (Hc Hcl) as [He0 _]. by rewrite He0, lookup_empty in Hk.
Qed.

(** The other certificate that is active for the name. *)
Definition other_active (r : Registry) (b : Binding) (e : entry) : option string :=
  match active r !! entry_hostKey e with Some k => if String.eqb k (bindingKey b) then None else Some k | None => None end.

(** What a successful activation does. *)
Definition activated (r : Registry) (b : Binding) (e : entry) (now : Z) : Registry :=
  let r := match other_active r b e with Some k => retire_previous r k b (e_fingerprint e) now | None => r end in
  mkRegistry (maxLife r) (closed r) (<[bindingKey b := set_activatedAt (set_state e StateActive) now]> (entries r)) (<[entry_hostKey e := bindingKey b]> (active r)).

Lemma activated_ok r b e now : cert_ok r → entries r !! bindingKey b = Some e → e_state e = StateReady → cert_ok (activated r b e now).
Proof.
  intros Hok Hk Hst. unfold activated, other_active. destruct (active r !! entry_hostKey e) as [k|] eqn:Hhk; [|by apply activate_free_ok].
  destruct (String.eqb_spec k (bindingKey b)) as [->|Hne].
  { destruct (co_active _ Hok _ _ Hhk) as (e' & Hk' & Hs' & _). congruence. }
  destruct (retire_previous_ok r (entry_hostKey e) k b (e_fingerprint e) now Hok Hhk) as (Hok' & Hml & Hcl & Hact & Hother).
  pose proof (activate_free_ok _ (bindingKey b) e now Hok') as Hfin. simpl in Hfin. rewrite Hact. rewrite <-(insert_delete_eq (active r) (entry_hostKey e)).
  apply Hfin; [rewrite Hother; [done|congruence]|done|apply lookup_delete_eq].
Qed.

(** The cases of activate. *)
Lemma activate_cases r ctx now b expected r' res : activate r ctx now b expected = (r', res) →
  r' = r ∨ (∃ e, entries r !! bindingKey b = Some e ∧ e_binding e = b ∧ lapsed (e_notAfter e) b now = true ∧ r' = expire_entry r (bindingKey b) e) ∨
  (∃ e, entries r !! bindingKey b = Some e ∧ e_binding e = b ∧ lapsed (e_notAfter e) b now = false ∧ e_state e = StateReady ∧
    (∀ k previous, other_active r b e = Some k → entries r !! k = Some previous → fenced previous b (e_fingerprint e) = false) ∧
    r' = activated r b e now ∧ res = None).
Proof.
  unfold activate. destruct ctx; [intros [= <- <-]; by left|]. destruct (Binding_validate b); [|intros [= <- <-]; by left]. destruct (closed r); [intros [= <- <-]; by left|].
  destruct (entries r !! bindingKey b) as [e|] eqn:Hk; [|intros [= <- <-]; by left]. destruct (negb (bool_decide (e_binding e = b))) eqn:Hb; [intros [= <- <-]; by left|].
  apply negb_false_iff, bool_decide_eq_true in Hb. destruct (mismatch _ _); [intros [= <- <-]; by left|]. destruct (lapsed _ _ _) eqn:Hl.
  { intros [= <- <-]. right. left. by exists e. }
  destruct (e_state e) eqn:Hst; try (intros [= <- <-]; by left). fold (other_active r b e).
  destruct (match other_active r b e with Some k => match entries r !! k with Some previous => _ | None => false end | None => false end) eqn:Hf; [intros [= <- <-]; by left|].
  intros [= <- <-]. right. right. exists e. split_and!; try done. intros k previous Ho Hp. by rewrite Ho, Hp in Hf.
Qed.

Lemma activate_ok r ctx now b expected : cert_ok r → cert_ok (activate r ctx now b expected).1.
Proof.
  intros Hok. destruct (activate r ctx now b expected) as [r' res] eqn:Ha.
  destruct (activate_cases _ _ _ _ _ _ _ Ha) as [->|[(e & Hk & _ & _ & ->)|(e & Hk & _ & _ & Hst & _ & -> & _)]]; [done|by apply expire_entry_ok|by apply activated_ok].
Qed.

Lemma delete_one_ok r k e : cert_ok r → entries r !! k = Some e → e_state e ≠ StateActive → cert_ok (set_entries r (delete k (entries r))).
Proof.
  intros Hok Hk Hst. apply delete_inactive_ok; [done|apply delete_subseteq|]. intros k' e' Hk' Hs'. rewrite lookup_delete_ne; [done|]. intros ->. congruence.
Qed.

(** The cases of retire: it only ever drops an entry that is not active. *)
Lemma retire_cases r ctx b expected : cert_ok r → (retire r ctx b expected).1 = r ∨
  ∃ e, entries r !! bindingKey b = Some e ∧ e_state e ≠ StateActive ∧ (retire r ctx b expected).1 = set_entries r (delete (bindingKey b) (entries r)).
Proof.
  intros Hok. unfold retire. destruct ctx; [by left|]. destruct (Binding_validate b); [|by left]. destruct (entries r !! bindingKey b) as [e|] eqn:Hk; [|by left].
  destruct (negb _); [by left|]. destruct (mismatch _ _); [by left|]. unfold is_active. destruct (e_state e) eqn:Hst; try by left.
  - right. exists e. rewrite Hst. by split_and!.
  - right. exists e. rewrite Hst. by split_and!.
  - rewrite bool_decide_eq_true_2 by done. rewrite bool_decide_eq_true_2; [by left|]. by apply (co_registered _ Hok).
  - right. exists e. rewrite Hst. by split_and!.
  - right. exists e. rewrite Hst. by split_and!.
Qed.

Lemma cert_retire_ok r ctx b expected : cert_ok r → cert_ok (retire r ctx b expected).1.
Proof. intros Hok. destruct (retire_cases r ctx b expected Hok) as [->|(e & Hk & Hst & ->)]; [done|by eapply delete_one_ok]. Qed.

Lemma revoke_ok r ctx b expected : cert_ok r → cert_ok (revoke r ctx b expected).1.
Proof.
  intros Hok. unfold revoke. destruct ctx; [done|]. destruct (Binding_validate b); [|done]. destruct (entries r !! bindingKey b) as [e|] eqn:Hk; [|done].
  destruct (negb _); [done|]. destruct (mismatch _ _); [done|]. simpl. pose proof (deactivate_ok r (bindingKey b) e (delete (bindingKey b) (entries r)) Hok Hk) as Hd.
  assert (Hfin : cert_ok (mkRegistry (maxLife r) (closed r) (delete (bindingKey b) (entries r)) (if bool_decide (active r !! entry_hostKey e = Some (bindingKey b)) then delete (entry_hostKey e) (active r) else active r))).
  { apply Hd; [intros k' e' [_ Hk']%lookup_delete_Some; by apply (co_entries _ Hok)|intros k' Hne; by rewrite lookup_delete_ne|intros e'; by rewrite lookup_delete_eq]. }
  by case_bool_decide.
Qed.

Lemma cert_Close_ok r : cert_ok r → cert_ok (Close r).
Proof. intros Hok. unfold Close. destruct (closed r); [done|]. split; simpl; try done; intros ? ?; by rewrite lookup_empty. Qed.

Lemma activeCertificateLocked_ok r key host now : cert_ok r → (∀ k e, entries r !! k = Some e → e_state e = StateActive → lapsed (e_notAfter e) (e_binding e) now = false) →
  (activeCertificateLocked r key host now).1 = r.
Proof.
  intros Hok Hfresh. unfold activeCertificateLocked. destruct key as [k|]; simpl; [|done]. destruct (entries r !! k) as [e|] eqn:Hk; simpl; [|done].
  unfold is_active. destruct (bool_decide (e_state e = StateActive)) eqn:Hst; simpl; [|done]. apply bool_decide_eq_true in Hst. specialize (Hfresh _ _ Hk Hst). unfold lapsed in Hfresh.
  apply orb_false_iff in Hfresh as [Hn _]. rewrite Hn. by destruct (e_certificate e).
Qed.

(** ** Runs *)

Inductive cert_op :=
  | OStage (ctx : bool) (b : Binding) (bundle : Bundle) (expected : option string)
  | OReady (ctx : bool) (b : Binding) (expected : option string)
  | OActivate (ctx : bool) (b : Binding) (expected : option string)
  | ORetire (ctx : bool) (b : Binding) (expected : option string)
  | ORevoke (ctx : bool) (b : Binding) (expected : option string)
  | OGet (name : string) | OWildcard (name : string) | ORequires (name : string) | OClose.

Definition run_op (r : Registry) (now : Z) (op : cert_op) : Registry :=
  match op with
  | OStage ctx b bundle expected => (stage r ctx now b bundle expected).1
  | OReady ctx b expected => (markReady r ctx now b expected).1
  | OActivate ctx b expected => (activate r ctx now b expected).1
  | ORetire ctx b expected => (retire r ctx b expected).1
  | ORevoke ctx b expected => (revoke r ctx b expected).1
  | OGet name => (GetCertificate r name now).1
  | OWildcard name => (WildcardCertificate r name now).1
  | ORequires name => (RequiresExactCertificate r name now).1
  | OClose => Close r
  end.

(** Any operations at any times. *)
Definition run_ops (r : Registry) (ops : list (Z * cert_op)) : Registry := foldl (λ r op, run_op r op.1 op.2) r ops.

(** The calls that serve only expire. *)
Lemma serving_expires r name now : cert_ok r →
  ((GetCertificate r name now).1 = r ∨ (GetCertificate r name now).1 = expireLocked r now) ∧
  ((WildcardCertificate r name now).1 = r ∨ (WildcardCertificate r name now).1 = expireLocked r now) ∧
  ((RequiresExactCertificate r name now).1 = r ∨ (RequiresExactCertificate r name now).1 = expireLocked r now).
Proof.
  intros Hok. pose proof (expireLocked_ok r now Hok) as Hok'. pose proof (expireLocked_fresh r now) as Hf.
  unfold GetCertificate, WildcardCertificate, RequiresExactCertificate. destruct (normalizeHostname name) as [[host []]|]; simpl; [by auto| |by auto].
  destruct (closed r); simpl; [by auto|]. split_and!; right.
  - destruct (active _ !! _); [by apply activeCertificateLocked_ok|]. destruct (onDemandWildcardActiveLocked _ _); [done|by apply activeCertificateLocked_ok].
  - by apply activeCertificateLocked_ok.
  - destruct (_ ≫= _); [|done]. by destruct (is_active _).
Qed.

Lemma run_op_ok r now op : cert_ok r → cert_ok (run_op r now op).
Proof.
  intros Hok. destruct op; simpl; [by apply cert_stage_ok|by apply markReady_ok|by apply activate_ok|by apply cert_retire_ok|by apply revoke_ok|..|by apply cert_Close_ok];
    destruct (serving_expires r name now Hok) as (Hg & Hw & Hq).
  - destruct Hg as [->| ->]; [done|by apply expireLocked_ok].
  - destruct Hw as [->| ->]; [done|by apply expireLocked_ok].
  - destruct Hq as [->| ->]; [done|by apply expireLocked_ok].
Qed.

Lemma run_ops_ok r ops : cert_ok r → cert_ok (run_ops r ops).
Proof. unfold run_ops. revert r. induction ops as [|[now op] ops IH]; intros r Hok; simpl; [done|]. apply IH. by apply run_op_ok. Qed.

(** ** Continuity *)

(** The certificate that is active for a name, with its generations at least those of [e]. *)
Definition covered (r : Registry) (hk : string) (e : entry) : Prop :=
  ∃ k' e', active r !! hk = Some k' ∧ entries r !! k' = Some e' ∧ e_state e' = StateActive ∧
    (b_DomainGeneration (e_binding e) ≤ b_DomainGeneration (e_binding e'))%Z ∧ (b_CertificateGeneration (e_binding e) ≤ b_CertificateGeneration (e_binding e'))%Z.

Lemma covered_same r hk k e : active r !! hk = Some k → entries r !! k = Some e → e_state e = StateActive → covered r hk e.
Proof. intros. exists k, e. split_and!; try done; lia. Qed.

(** The same certificate stays active for the name. *)
Definition keeps (r : Registry) (hk k : string) (e : entry) : Prop := active r !! hk = Some k ∧ entries r !! k = Some e.

Lemma keeps_covered r hk k e : keeps r hk k e → e_state e = StateActive → covered r hk e.
Proof. intros [? ?]. by apply (covered_same r hk k). Qed.

Lemma expireLocked_covers r now hk k e : cert_ok r → active r !! hk = Some k → entries r !! k = Some e → lapsed (e_notAfter e) (e_binding e) now = false →
  active (expireLocked r now) !! hk = Some k ∧ entries (expireLocked r now) !! k = Some e.
Proof.
  intros Hok Hk He Hl. destruct (expireLocked_spec r now) as (_ & _ & Hen & Hac). assert (Hx : expires now e = false) by (unfold expires; by rewrite Hl, andb_false_r).
  split; [|rewrite Hen, He; simpl; unfold expired_entry; by rewrite Hx]. apply Hac. split; [done|]. intros k' e' Hk' Hx' Heq.
  assert (Hst' : e_state e' = StateActive) by (unfold expires, is_active in Hx'; apply andb_true_iff in Hx' as [Hx' _]; by apply bool_decide_eq_true in Hx').
  pose proof (co_registered _ Hok _ _ Hk' Hst') as Hr. rewrite Heq in Hr. assert (k' = k) as -> by congruence. congruence.
Qed.

Lemma expire_entry_covers r kb eb hk k e : entries r !! kb = Some eb → active r !! hk = Some k → entries r !! k = Some e → k ≠ kb →
  active (expire_entry r kb eb) !! hk = Some k ∧ entries (expire_entry r kb eb) !! k = Some e.
Proof.
  intros Hb Hk He Hne. unfold expire_entry. case_bool_decide as Hx; simpl in *; rewrite lookup_insert_ne by done; (split; [|done]); [|done].
  rewrite lookup_delete_ne; [done|]. intros <-. congruence.
Qed.

Lemma stage_keeps r ctx now b bundle expected hk k e : cert_ok r → keeps r hk k e → e_state e = StateActive →
  lapsed (e_notAfter e) (e_binding e) now = false → keeps (stage r ctx now b bundle expected).1 hk k e.
Proof.
  intros Hok Hkeep Hst Hl. pose proof Hkeep as [Hk He]. unfold stage. destruct ctx; [done|]. destruct (Binding_validate b) as [[host wildcard]|]; [|done].
  destruct (_ && _); [done|]. destruct (validateBundle _ _ _ _ _) as [|[[[parsed fp] nb] na]]; [done|]. destruct (mismatch _ _); [done|]. destruct (closed r); [done|].
  pose proof (expireLocked_covers r now hk k e Hok Hk He Hl) as Hkeep'. set (r' := expireLocked r now) in *. pose proof Hkeep' as [Hk' He'].
  destruct (existsb _ _); [done|]. destruct (entries r' !! bindingKey b) as [existing|] eqn:Hx.
  { destruct (negb _); [done|]. destruct (e_state existing); try done; by destruct (_ && _). }
  destruct (match currentDomainActiveLocked _ _ _ _ with Some _ => _ | None => _ end); [done|]. simpl. fold (drop_superseded b host wildcard (entries r')).
  destruct (drop_superseded_spec b host wildcard (entries r')) as [_ Hdrop]. split; simpl; [done|]. rewrite lookup_insert_ne; [by apply Hdrop|]. intros <-. congruence.
Qed.

Lemma markReady_keeps r ctx now b expected hk k e : keeps r hk k e → e_state e = StateActive →
  lapsed (e_notAfter e) (e_binding e) now = false → keeps (markReady r ctx now b expected).1 hk k e.
Proof.
  intros Hkeep Hst Hl. pose proof Hkeep as [Hk He]. unfold markReady. destruct ctx; [done|]. destruct (Binding_validate b); [|done]. destruct (closed r); [done|].
  destruct (entries r !! bindingKey b) as [eb|] eqn:Hb; [|done]. destruct (negb (bool_decide (e_binding eb = b))) eqn:Hbind; [done|]. apply negb_false_iff, bool_decide_eq_true in Hbind.
  destruct (mismatch _ _); [done|]. destruct (lapsed (e_notAfter eb) b now) eqn:Hlb.
  { apply expire_entry_covers; try done. intros ->. congruence. }
  destruct (e_state eb) eqn:Hsb; try done. split; simpl; [done|]. rewrite lookup_insert_ne; [done|]. intros <-. congruence.
Qed.

(** An activation for another name. *)
Lemma activated_keeps r b eb now hk k e : cert_ok r → keeps r hk k e → k ≠ bindingKey b → entry_hostKey eb ≠ hk → keeps (activated r b eb now) hk k e.
Proof.
  intros Hok [Hk He] Hne Hhk. unfold keeps, activated, other_active. simpl. rewrite !lookup_insert_ne by congruence. destruct (active r !! entry_hostKey eb) as [k1|] eqn:Hk1; [|done].
  destruct (String.eqb k1 (bindingKey b)); [done|]. destruct (retire_previous_ok r (entry_hostKey eb) k1 b (e_fingerprint eb) now Hok Hk1) as (_ & _ & _ & Hact & Hother).
  rewrite Hact. split; [done|]. rewrite Hother; [done|]. intros ->. destruct (co_active _ Hok _ _ Hk) as (e1 & H1' & _ & H3'). destruct (co_active _ Hok _ _ Hk1) as (e2 & H4' & _ & H5'). congruence.
Qed.

Lemma activated_covers r b eb now hk k e : cert_ok r → active r !! hk = Some k → entries r !! k = Some e → e_state e = StateActive →
  entries r !! bindingKey b = Some eb → e_binding eb = b → e_state eb = StateReady →
  (∀ k previous, other_active r b eb = Some k → entries r !! k = Some previous → fenced previous b (e_fingerprint eb) = false) → covered (activated r b eb now) hk e.
Proof.
  intros Hok Hk He Hst Hb Hbind Hsb Hfence. assert (Hne : k ≠ bindingKey b) by (intros ->; congruence).
  destruct (decide (entry_hostKey eb = hk)) as [<-|Hhk].
  - unfold covered, activated, other_active in *. rewrite Hk in *. rewrite (proj2 (String.eqb_neq _ _) Hne) in *. specialize (Hfence k e eq_refl He). eexists _, _. simpl. rewrite !lookup_insert_eq. split_and!; try done; simpl; rewrite ?Hbind.
    + unfold fenced in Hfence. rewrite !orb_false_iff, !Z.ltb_ge in Hfence. lia.
    + unfold fenced in Hfence. rewrite !orb_false_iff, !Z.ltb_ge in Hfence. lia.
  - apply (keeps_covered _ hk k e); [|done]. by apply activated_keeps.
Qed.

Lemma activate_covers r ctx now b expected hk k e : cert_ok r → active r !! hk = Some k → entries r !! k = Some e → e_state e = StateActive →
  lapsed (e_notAfter e) (e_binding e) now = false → covered (activate r ctx now b expected).1 hk e.
Proof.
  intros Hok Hk He Hst Hl. destruct (activate r ctx now b expected) as [r' res] eqn:Ha. simpl.
  destruct (activate_cases _ _ _ _ _ _ _ Ha) as [->|[(eb & Hb & Hbind & Hlb & ->)|(eb & Hb & Hbind & _ & Hsb & Hf & -> & _)]]; [by apply (covered_same _ hk k)| |by eapply activated_covers].
  assert (Hne : k ≠ bindingKey b) by (intros ->; congruence). destruct (expire_entry_covers r _ eb hk k e Hb Hk He Hne). by apply (covered_same _ hk k).
Qed.

Lemma revoke_covers r ctx b expected hk k e : cert_ok r → active r !! hk = Some k → entries r !! k = Some e → e_state e = StateActive →
  e_binding e ≠ b → covered (revoke r ctx b expected).1 hk e.
Proof.
  intros Hok Hk He Hst Hneb. pose proof (covered_same r hk k e Hk He Hst) as Hsame. unfold revoke. destruct ctx; [done|]. destruct (Binding_validate b); [|done].
  destruct (entries r !! bindingKey b) as [eb|] eqn:Hb; [|done]. destruct (negb (bool_decide (e_binding eb = b))) eqn:Hbind; [done|]. apply negb_false_iff, bool_decide_eq_true in Hbind.
  destruct (mismatch _ _); [done|]. assert (Hne : k ≠ bindingKey b) by (intros ->; congruence). apply (covered_same _ hk k); simpl; try done.
  - case_bool_decide as Hx; simpl; [|done]. rewrite lookup_delete_ne; [done|]. intros <-. congruence.
  - by case_bool_decide; simpl; rewrite lookup_delete_ne.
Qed.
End spec.
