(* ===== verification/CertsRun.v ===== *)
(** * What the certificates promise: what is served, that a name stays served, and that a handover keeps it *)
From S2P Require Import Prelude GoStd GoData GoNet GoEnc Certs CertsSpec.

Section claims.
Context `{GoRuntime} `{IDNA} `{SHA256} `{X509}.

Lemma hostKey_inj h1 w1 h2 w2 : hostKey h1 w1 = hostKey h2 w2 → h1 = h2 ∧ w1 = w2.
Proof. unfold hostKey. destruct w1, w2; intros [=]; by subst. Qed.

Lemma activeCertificateLocked_inr r key host now r' c : cert_ok r → activeCertificateLocked r key host now = (r', inr c) →
  ∃ k e, key = Some k ∧ entries r !! k = Some e ∧ e_state e = StateActive ∧ e_certificate e = Some c.
Proof.
  intros Hok. unfold activeCertificateLocked. destruct key as [k|]; simpl; [|done]. destruct (entries r !! k) as [e|] eqn:Hk; simpl; [|done].
  unfold is_active. destruct (bool_decide (e_state e = StateActive)) eqn:Hst; simpl; [|done]. apply bool_decide_eq_true in Hst. destruct (negb _); [done|].
  destruct (eo_certificate _ _ (co_entries _ Hok _ _ Hk)) as (c' & Hc & _); [by rewrite Hst|]. rewrite Hc. intros [= _ <-]. by exists k, e.
Qed.

(** What has not lapsed is unexpired, and so is its lease. *)
Lemma unlapsed notAfter b now : lapsed notAfter b now = false → (now < notAfter)%Z ∧ (is_preview b = true → (now < b_PreviewExpiresAt b)%Z).
Proof.
  unfold lapsed, time.After. rewrite orb_false_iff, negb_false_iff, Z.ltb_lt, andb_false_iff, negb_false_iff, Z.ltb_lt. intros [? [Hp|?]]; (split; [done|]); [by rewrite Hp|done].
Qed.

(** No active on-demand wildcard covers the name. *)
Lemma no_ondemand r host : cert_ok r → onDemandWildcardActiveLocked r host = false → ∀ k e, entries r !! k = Some e → e_state e = StateActive →
  e_wildcard e = true → b_OnDemandLeaf (e_binding e) = true → wildcardMatches (e_hostname e) host = false.
Proof.
  intros Hok Hod k e Hk Hs Hw Ho. destruct (wildcardMatches _ _) eqn:Hm; [|done]. rewrite <-Hod. symmetry. apply existsb_exists. exists (k, e).
  split; [by apply list_elem_of_In, elem_of_range|]. cbn [fst snd]. unfold is_active. pose proof (co_registered _ Hok _ _ Hk Hs) as Hreg.
  unfold entry_hostKey in Hreg. rewrite Hw in Hreg. by rewrite Hs, Hw, Ho, Hreg, Hm, !bool_decide_true.
Qed.

(** C24: after any operations at any times, the certificate that is served for a name belongs to an active entry with a valid binding; neither the certificate nor the preview lease that
    it belongs to has expired, and its fingerprint is the entry's.  The entry is for exactly the name, and then x509 verified the certificate for that name when it was staged; or it is the wildcard one label
    above, and then the certificate was verified for the label paperboat in place of the first one, the name has at least three labels and no active certificate of its own, and no active on-demand wildcard covers it. *)
Theorem certificate_served maximum ops name now r' c : let r := run_ops (NewRegistry maximum) ops in GetCertificate r name now = (r', inr c) →
  ∃ host k e, normalizeHostname name = Some (host, false) ∧ entries r' !! k = Some e ∧ e_state e = StateActive ∧ (now < tc_NotAfter c)%Z ∧
    (is_preview (e_binding e) = true → (now < b_PreviewExpiresAt (e_binding e))%Z) ∧
    e_certificate e = Some c ∧ e_fingerprint e = Sum256 (tc_Raw c) ∧ Binding_validate (e_binding e) = Some (e_hostname e, e_wildcard e) ∧
    (e_hostname e = host ∧ e_wildcard e = false ∧ VerifyHostname c host = true ∨
     let base := strings.Join (tail (str.Split host ".")) "." in
     e_hostname e = "*." +:+ base ∧ e_wildcard e = true ∧ VerifyHostname c ("paperboat." +:+ base) = true ∧ (3 ≤ length (str.Split host "."))%nat ∧
     (∀ k' e', entries r' !! k' = Some e' → e_state e' = StateActive → ¬ (e_hostname e' = host ∧ e_wildcard e' = false)) ∧
     (∀ k' e', entries r' !! k' = Some e' → e_state e' = StateActive → e_wildcard e' = true → b_OnDemandLeaf (e_binding e') = true →
        wildcardMatches (e_hostname e') host = false)).
Proof.
  intros r. assert (Hok : cert_ok r) by (apply run_ops_ok, NewRegistry_ok). clearbody r. unfold GetCertificate. destruct (normalizeHostname name) as [[host []]|] eqn:Hn; [done| |done].
  destruct (closed r); [done|]. pose proof (expireLocked_ok r now Hok) as Hok'. pose proof (expireLocked_fresh r now) as Hf. set (r1 := expireLocked r now) in *. intros Hget.
  assert (Hcase : ∃ key, activeCertificateLocked r1 key host now = (r', inr c) ∧
    (key = active r1 !! hostKey host false ∨ key = wildcardActiveKeyLocked r1 host ∧ active r1 !! hostKey host false = None ∧ onDemandWildcardActiveLocked r1 host = false)).
  { destruct (active r1 !! hostKey host false) as [key|] eqn:Hk; [by eauto|]. destruct (onDemandWildcardActiveLocked r1 host); [done|]. by eauto 10. }
  destruct Hcase as (key & Hac & Hkey). pose proof (activeCertificateLocked_ok r1 key host now Hok' Hf) as Hr. rewrite Hac in Hr. simpl in Hr. subst r'.
  destruct (activeCertificateLocked_inr _ _ _ _ _ _ Hok' Hac) as (k & e & -> & Hke & Hst & Hc). destruct (co_entries _ Hok' _ _ Hke) as [_ Hv Hcert].
  destruct Hcert as (c' & Hc' & Hfp & _ & Hna & Hver & _); [by rewrite Hst|]. assert (c' = c) as -> by congruence.
  destruct (unlapsed _ _ _ (Hf _ _ Hke Hst)) as [Hlive Hlease]. exists host, k, e. split_and!; try done; [by rewrite <-Hna|].
  assert (Hname : ∀ h w, active r1 !! hostKey h w = Some k → e_hostname e = h ∧ e_wildcard e = w).
  { intros h w Hh. destruct (co_active _ Hok' _ _ Hh) as (e' & Hke' & _ & Hhk). assert (e' = e) as -> by congruence. by apply hostKey_inj. }
  destruct Hkey as [Hk|(Hk & Hnone & Hod)].
  - left. destruct (Hname host false) as [Hh Hw]; [done|]. rewrite Hw, Hh in Hver. by split_and!.
  - right. unfold wildcardActiveKeyLocked in Hk. destruct (Nat.ltb_spec (length (str.Split host ".")) 3) as [|Hlen]; [done|]. cbv zeta.
    destruct (Hname ("*." +:+ strings.Join (tail (str.Split host ".")) ".") true) as [Hh Hw]; [done|]. rewrite Hw, Hh in Hver.
    split_and!; [done|done|exact Hver|done| |by apply no_ondemand].
    intros k' e' Hk' Hs' [Hh' Hw']. pose proof (co_registered _ Hok' _ _ Hk' Hs') as Hreg. unfold entry_hostKey in Hreg. congruence.
Qed.

(** The operation takes the certificate away on purpose. *)
Definition withdraws (op : cert_op) (b : Binding) : bool := match op with ORevoke _ b' _ => bool_decide (b' = b) | OClose => true | _ => false end.

(** A name that is served stays served: whatever operation comes next, unless it revokes the certificate of that name or closes the registry, and unless
    the certificate has lapsed, a certificate is active for the name afterwards, and its domain and certificate generations are not older. *)
Theorem certificate_continuity maximum ops now op hk k e : let r := run_ops (NewRegistry maximum) ops in
  active r !! hk = Some k → entries r !! k = Some e → lapsed (e_notAfter e) (e_binding e) now = false → withdraws op (e_binding e) = false → covered (run_op r now op) hk e.
Proof.
  intros r. assert (Hok : cert_ok r) by (apply run_ops_ok, NewRegistry_ok). clearbody r. intros Hk He Hl Hw. destruct (co_active _ Hok _ _ Hk) as (e' & He' & Hst & _). assert (e' = e) as -> by congruence.
  assert (Hkeep : keeps r hk k e) by done. pose proof (expireLocked_covers r now hk k e Hok Hk He Hl) as Hexp.
  destruct op as [ctx b bundle x|ctx b x|ctx b x|ctx b x|ctx b x|name|name|name|]; simpl in *; [..|done].
  - by eapply keeps_covered; [apply stage_keeps|].
  - by eapply keeps_covered; [apply markReady_keeps|].
  - by eapply activate_covers.
  - destruct (retire_cases r ctx b x Hok) as [->|(eb & Hb & Hs & ->)]; [by eapply keeps_covered|]. apply (covered_same _ hk k); simpl; try done. rewrite lookup_delete_ne; [done|].
    intros <-. congruence.
  - eapply revoke_covers; try done. apply bool_decide_eq_false in Hw. congruence.
  - destruct (serving_expires r name now Hok) as ([->| ->] & _ & _); by eapply keeps_covered.
  - destruct (serving_expires r name now Hok) as (_ & [->| ->] & _); by eapply keeps_covered.
  - destruct (serving_expires r name now Hok) as (_ & _ & [->| ->]); by eapply keeps_covered.
Qed.

(** ** Handover *)

(** The operations keep the bindings of the entries, the lifetime limit and whether the registry is closed. *)
Definition same_bindings (b : Binding) (r r' : Registry) : Prop :=
  maxLife r' = maxLife r ∧ closed r' = closed r ∧
  ∀ k x', entries r' !! k = Some x' → e_binding x' = b ∨ ∃ x, entries r !! k = Some x ∧ e_binding x = e_binding x'.

Lemma same_bindings_refl b r : same_bindings b r r.
Proof. split_and!; by eauto. Qed.

Lemma same_bindings_trans b r1 r2 r3 : same_bindings b r1 r2 → same_bindings b r2 r3 → same_bindings b r1 r3.
Proof.
  intros (M1 & C1 & B1) (M2 & C2 & B2). split_and!; [congruence..|]. intros k x3 [?|(x2 & Hx2 & Heq)]%B2; [by left|]. destruct (B1 _ _ Hx2) as [?|(x1 & ? & ?)]; [left; congruence|right].
  exists x1. split; [done|congruence].
Qed.

(** An update of one entry that keeps its binding. *)
Lemma same_bindings_insert b r k x x' a : entries r !! k = Some x → e_binding x' = e_binding x → same_bindings b r (mkRegistry (maxLife r) (closed r) (<[k := x']> (entries r)) a).
Proof. intros Hk Hb. split_and!; try done. intros k1 x1. simpl. rewrite lookup_insert_Some. intros [[<- <-]|[_ ?]]; right; by eauto. Qed.

Lemma same_bindings_expire b r now : same_bindings b r (expireLocked r now).
Proof.
  destruct (expireLocked_spec r now) as (Hm & Hc & He & _). split_and!; try done. intros k x'. rewrite He. intros (x & Hx & ->)%fmap_Some. right. exists x. split; [done|].
  by destruct (expired_entry_binding now x).
Qed.

Lemma stage_bindings r ctx now b bundle x : same_bindings b r (stage r ctx now b bundle x).1.
Proof.
  pose proof (same_bindings_refl b r) as Hrefl. pose proof (same_bindings_expire b r now) as Hexp. unfold stage. destruct ctx; [done|]. destruct (Binding_validate b) as [[host wildcard]|]; [|done].
  destruct (_ && _); [done|]. destruct (validateBundle _ _ _ _ _) as [|[[[parsed fp] nb] na]]; [done|]. destruct (mismatch _ _); [done|]. destruct (closed r); [done|].
  set (r' := expireLocked r now) in *. destruct (existsb _ _); [done|]. destruct (entries r' !! bindingKey b) as [existing|].
  { destruct (negb _); [done|]. destruct (e_state existing); try done; by destruct (_ && _). }
  destruct (match currentDomainActiveLocked _ _ _ _ with Some _ => _ | None => _ end); [done|]. simpl. fold (drop_superseded b host wildcard (entries r')).
  destruct (drop_superseded_spec b host wildcard (entries r')) as [Hsub _]. eapply same_bindings_trans; [exact Hexp|]. split_and!; try done. intros k e'. simpl. rewrite lookup_insert_Some.
  intros [[<- <-]|[_ Hk]]; [by left|right]. exists e'. split; [by eapply lookup_weaken|done].
Qed.

Lemma expire_entry_bindings b r k e : entries r !! k = Some e → same_bindings b r (expire_entry r k e).
Proof. intros Hk. unfold expire_entry. case_bool_decide; simpl; by eapply (same_bindings_insert b r k e). Qed.

Lemma markReady_bindings r ctx now b x : same_bindings b r (markReady r ctx now b x).1.
Proof.
  pose proof (same_bindings_refl b r) as Hrefl. unfold markReady. destruct ctx; [done|]. destruct (Binding_validate b); [|done]. destruct (closed r); [done|].
  destruct (entries r !! bindingKey b) as [e|] eqn:Hk; [|done]. destruct (negb _); [done|]. destruct (mismatch _ _); [done|]. destruct (lapsed _ _ _); [by apply expire_entry_bindings|].
  destruct (e_state e); try done. simpl. by eapply (same_bindings_insert b r (bindingKey b) e).
Qed.

Lemma retire_previous_bindings b' r k b fp now : same_bindings b' r (retire_previous r k b fp now).
Proof.
  unfold retire_previous. destruct (entries r !! k) as [e|] eqn:Hk; [|apply same_bindings_refl]. destruct (is_active e); [|apply same_bindings_refl]. destruct (_ && _); simpl.
  - split_and!; try done. intros k1 x1. simpl. rewrite lookup_delete_Some. intros [_ ?]. by eauto.
  - by eapply (same_bindings_insert b' r k e).
Qed.

Lemma activate_bindings r ctx now b x : same_bindings b r (activate r ctx now b x).1.
Proof.
  destruct (activate r ctx now b x) as [r' res] eqn:Ha. simpl.
  destruct (activate_cases _ _ _ _ _ _ _ Ha) as [->|[(e & Hk & _ & _ & ->)|(e & Hk & Hb & _ & _ & _ & -> & _)]]; [apply same_bindings_refl|by apply expire_entry_bindings|].
  unfold activated. set (r1 := match other_active r b e with Some k => _ | None => r end).
  assert (H1' : same_bindings b r r1) by (unfold r1; destruct (other_active r b e); [apply retire_previous_bindings|apply same_bindings_refl]).
  eapply same_bindings_trans; [exact H1'|]. split_and!; try done. intros k1 x1. simpl. rewrite lookup_insert_Some. intros [[<- <-]|[_ ?]]; [by left|right; by eauto].
Qed.

Lemma importOne_bindings r ctx now node epoch b bundle : same_bindings b r (importOne r ctx now node epoch (b, bundle)).1.
Proof.
  unfold importOne. destruct (_ || _); [apply same_bindings_refl|]. pose proof (stage_bindings r ctx now b bundle None) as H1'. destruct (stage r ctx now b bundle None) as [r1 [e1|]]; simpl in *; [done|].
  pose proof (markReady_bindings r1 ctx now b None) as H2'. destruct (markReady r1 ctx now b None) as [r2 [e2|]]; simpl in *; [by eapply same_bindings_trans|].
  pose proof (activate_bindings r2 ctx now b None) as H3'. destruct (activate r2 ctx now b None) as [r3 [e3|]]; simpl in *; (eapply same_bindings_trans; [|exact H3']); by eapply same_bindings_trans.
Qed.

Lemma importOne_ok r ctx now node epoch item : cert_ok r → cert_ok (importOne r ctx now node epoch item).1.
Proof.
  intros Hok. destruct item as [b bundle]. unfold importOne. destruct (_ || _); [done|]. pose proof (cert_stage_ok r ctx now b bundle None Hok) as H1'. destruct (stage r ctx now b bundle None) as [r1 [e1|]]; simpl in *; [done|].
  pose proof (markReady_ok r1 ctx now b None H1') as H2'. destruct (markReady r1 ctx now b None) as [r2 [e2|]]; simpl in *; [done|].
  pose proof (activate_ok r2 ctx now b None H2') as H3'. by destruct (activate r2 ctx now b None) as [r3 [e3|]].
Qed.

(** A valid binding is for its own name, and the name says whether it is a wildcard. *)
Lemma validate_host b host wildcard : Binding_validate b = Some (host, wildcard) → b_Hostname b = host ∧ normalizeHostname host = Some (host, wildcard).
Proof.
  unfold Binding_validate. destruct (_ || _); [done|]. destruct (_ || _); [done|]. destruct (normalizeHostname (b_Hostname b)) as [[h w]|] eqn:Hn; [|done].
  destruct (_ || _) eqn:Hc; [done|]. intros [= <- <-]. rewrite !orb_false_iff, negb_false_iff, String.eqb_eq in Hc. destruct Hc as [[Hh _] _]. by rewrite Hh in Hn.
Qed.

(** What a new registry accepts of an exported entry: its time has not come to an end, and its PEM is not too large. *)
Record acceptable (life now : Z) (e : entry) (c : TLSCertificate) (key : string) : Prop := {
  ac_lapsed : lapsed (e_notAfter e) (e_binding e) now = false;
  ac_before : (e_notBefore e ≤ now + 600 * time.Second)%Z;
  ac_life : (time.Sub (e_notAfter e) now ≤ life)%Z;
  ac_chain : (0 < len (pem_chain c) ≤ maxBundleBytes)%Z;
  ac_key : (0 < len key ≤ maxBundleBytes)%Z;
}.

Lemma len_nonempty s : (0 < len s)%Z → String.eqb s "" = false.
Proof. by destruct s. Qed.

Lemma exported_bundle_valid life now e c key : holds_certificate e → e_certificate e = Some c → pem_key c = Some key → acceptable life now e c key →
  validateBundle (mkBundle (pem_chain c) key (e_issuer e) (e_notBefore e) (e_notAfter e)) (e_hostname e) (e_wildcard e) now life =
    inr (c, e_fingerprint e, e_notBefore e, e_notAfter e).
Proof.
  intros (c' & Hc' & Hfp & Hnb & Hna & Hver & (cp & kp & Hparse) & Hiss) Hc Hkey [Hl Hb Hlife Hch Hk]. assert (c' = c) as -> by congruence.
  unfold validateBundle. cbn [bu_CertificatePEM bu_PrivateKeyPEM bu_Issuer bu_NotBefore bu_NotAfter].
  rewrite (len_nonempty _ (proj1 Hch)), (len_nonempty _ (proj1 Hk)), (proj2 (Z.ltb_ge _ _) (proj2 Hch)), (proj2 (Z.ltb_ge _ _) (proj2 Hk)), (proj2 (String.eqb_neq _ _) Hiss). cbn [orb].
  rewrite (X509KeyPair_pem _ _ _ _ Hparse Hkey). unfold lapsed in Hl. apply orb_false_iff in Hl as [Hl _]. rewrite <-Hna, Hl, <-Hnb. unfold time.After at 1. rewrite (proj2 (Z.ltb_ge _ _) Hb). cbn [negb orb].
  rewrite (proj2 (Z.ltb_ge _ _) Hlife), andb_false_r, Hver, !Z.eqb_refl. cbn [negb]. rewrite !andb_false_r, Hfp. done.
Qed.

(** Importing an entry for a name that the registry does not have yet. *)
Lemma importOne_fresh r now node epoch e c key : cert_ok r → closed r = false → holds_certificate e → e_certificate e = Some c → pem_key c = Some key →
  Binding_validate (e_binding e) = Some (e_hostname e, e_wildcard e) → b_EdgeNodeID (e_binding e) = node → b_EdgeProcessEpoch (e_binding e) = epoch →
  acceptable (maxLife r) now e c key → (∀ k x, entries r !! k = Some x → e_hostname x ≠ e_hostname e) → entries r !! bindingKey (e_binding e) = None →
  let r' := (importOne r false now node epoch (e_binding e, mkBundle (pem_chain c) key (e_issuer e) (e_notBefore e) (e_notAfter e))).1 in
  ∃ e', keeps r' (entry_hostKey e) (bindingKey (e_binding e)) e' ∧ e_state e' = StateActive ∧ e_binding e' = e_binding e ∧ e_notAfter e' = e_notAfter e ∧
    e_fingerprint e' = e_fingerprint e ∧ e_certificate e' = Some c.
Proof.
  intros Hok Hcl Hhold Hc Hkey Hv Hnode Hepoch Hacc Hfresh Hnone. set (b := e_binding e) in *. unfold importOne. rewrite Hnode, Hepoch, !String.eqb_refl. simpl negb. cbn [orb].
  pose proof (ac_lapsed _ _ _ _ _ Hacc) as Hl. fold b in Hl. assert (Hpre : is_preview b && negb (time.After (b_PreviewExpiresAt b) now) = false) by (unfold lapsed in Hl; by apply orb_false_iff in Hl as [_ ?]).
  destruct (expireLocked_spec r now) as (Hml & Hcl' & Hen & Hact). pose proof (expireLocked_ok r now Hok) as Hok1.
  assert (Hfresh1 : ∀ k x, entries (expireLocked r now) !! k = Some x → e_hostname x ≠ e_hostname e).
  { intros k x. rewrite Hen. intros (x0 & Hx0 & ->)%fmap_Some. destruct (expired_entry_binding now x0) as (_ & -> & _). by apply (Hfresh k). }
  assert (Hnone1 : entries (expireLocked r now) !! bindingKey b = None) by (rewrite Hen, Hnone; done).
  assert (Hfree : ∀ w, active (expireLocked r now) !! hostKey (e_hostname e) w = None).
  { intros w. destruct (active (expireLocked r now) !! hostKey (e_hostname e) w) as [k|] eqn:Hk; [|done]. destruct (co_active _ Hok1 _ _ Hk) as (x & Hx & _ & [Hh _]%hostKey_inj). by destruct (Hfresh1 _ _ Hx). }
  set (created := mkEntry b (e_hostname e) (e_wildcard e) StateStaged (e_fingerprint e) (e_issuer e) (e_notBefore e) (e_notAfter e) time.zero time.zero time.zero (Some c)).
  set (rest := drop_superseded b (e_hostname e) (e_wildcard e) (entries (expireLocked r now))).
  assert (Hstage : stage r false now b (mkBundle (pem_chain c) key (e_issuer e) (e_notBefore e) (e_notAfter e)) None = (set_entries (expireLocked r now) (<[bindingKey b := created]> rest), None)).
  { unfold stage. rewrite Hv, Hpre, (exported_bundle_valid (maxLife r)) by done. simpl. rewrite Hcl. rewrite Hnone1. unfold currentDomainActiveLocked. rewrite Hfree.
    destruct (existsb _ _) eqn:Hex; [|done]. exfalso. apply existsb_exists in Hex as ([k x] & Hin & Hx). apply list_elem_of_In, elem_of_range in Hin. simpl in Hx. rewrite !andb_true_iff, String.eqb_eq in Hx.
    destruct Hx as [[[_ Hh] _] _]. by destruct (Hfresh1 _ _ Hin). }
  rewrite Hstage. set (r1 := set_entries (expireLocked r now) (<[bindingKey b := created]> rest)).
  assert (Hlook : ∀ x, entries (set_entries r1 (<[bindingKey b := x]> (entries r1))) !! bindingKey b = Some x) by (intros x; simpl; by rewrite lookup_insert_eq).
  unfold markReady. rewrite Hv. change (closed r1) with (closed (expireLocked r now)). rewrite Hcl', Hcl. change (entries r1) with (<[bindingKey b := created]> rest). rewrite lookup_insert_eq.
  cbn [e_binding created]. rewrite bool_decide_eq_true_2 by done. simpl negb. cbn [mismatch]. change (e_notAfter created) with (e_notAfter e). rewrite Hl. cbn [e_state created].
  unfold activate. rewrite Hv. cbn [closed set_entries]. change (closed r1) with (closed (expireLocked r now)). rewrite Hcl', Hcl. cbn [entries set_entries]. rewrite lookup_insert_eq.
  cbn [e_binding set_state]. rewrite bool_decide_eq_true_2 by done. simpl negb. cbn [mismatch]. change (e_notAfter (set_state created StateReady)) with (e_notAfter e). rewrite Hl. cbn [e_state set_state].
  change (entry_hostKey (set_state created StateReady)) with (hostKey (e_hostname e) (e_wildcard e)). cbn [active set_entries r1]. rewrite Hfree. simpl.
  eexists. split; [split; simpl; by rewrite lookup_insert_eq|]. by split_and!.
Qed.

#[local] Arguments stage : simpl never.
#[local] Arguments markReady : simpl never.
#[local] Arguments activate : simpl never.

(** Importing an entry for another name. *)
Lemma importOne_keeps r now node epoch b bundle hk k e : cert_ok r → keeps r hk k e → e_state e = StateActive → lapsed (e_notAfter e) (e_binding e) now = false →
  k ≠ bindingKey b → (∀ host w, Binding_validate b = Some (host, w) → hostKey host w ≠ hk) → keeps (importOne r false now node epoch (b, bundle)).1 hk k e.
Proof.
  intros Hok Hkeep Hst Hl Hne Hhk. unfold importOne. destruct (_ || _); [done|].
  pose proof (cert_stage_ok r false now b bundle None Hok) as Hok1. pose proof (stage_keeps r false now b bundle None hk k e Hok Hkeep Hst Hl) as Hk1. destruct (stage r false now b bundle None) as [r1 [x1|]]; simpl in *; [done|].
  pose proof (markReady_ok r1 false now b None Hok1) as Hok2. pose proof (markReady_keeps r1 false now b None hk k e Hk1 Hst Hl) as Hk2. destruct (markReady r1 false now b None) as [r2 [x2|]]; simpl in *; [done|].
  destruct (activate r2 false now b None) as [r3 res] eqn:Ha. assert (Hk3 : keeps r3 hk k e); [|by destruct res].
  destruct (activate_cases _ _ _ _ _ _ _ Ha) as [->|[(eb & Hb & Hbind & Hlb & ->)|(eb & Hb & Hbind & _ & Hsb & _ & -> & _)]]; [done|by destruct Hk2; apply expire_entry_covers|].
  apply activated_keeps; try done. destruct (co_entries _ Hok2 _ _ Hb) as [_ Hv _]. rewrite Hbind in Hv. by apply Hhk.
Qed.

#[local] Arguments importOne : simpl never.

Definition import_all (now : Z) (node epoch : string) (r : Registry) (records : list (Binding * Bundle)) : Registry :=
  foldl (λ r item, (importOne r false now node epoch item).1) r records.

Lemma Import_import_all now node epoch records r : (Import r false now node epoch records).1.1 = import_all now node epoch r records.
Proof.
  revert r. induction records as [|item records IH]; intros r; [done|]. cbn [Import]. unfold import_all. cbn [foldl]. destruct (importOne r false now node epoch item) as [r1 reason]. simpl.
  specialize (IH r1). unfold import_all in IH. rewrite <-IH. destruct (Import r1 false now node epoch records) as [[r2 n] dropped]. simpl. by destruct (String.eqb reason "").
Qed.

(** The records of a list of entries. *)
Definition records_of (l : list (string * entry)) (records : list (Binding * Bundle)) : Prop := Forall2 (λ ke rec, export_one ke.2 = Some rec) l records.

Lemma export_one_Some e rec : export_one e = Some rec → ∃ c key, e_certificate e = Some c ∧ pem_key c = Some key ∧
  rec = (e_binding e, mkBundle (pem_chain c) key (e_issuer e) (e_notBefore e) (e_notAfter e)).
Proof. unfold export_one. destruct (e_certificate e) as [c|]; simpl; [|done]. destruct (pem_key c) as [key|] eqn:Hk; simpl; [|done]. intros [= <-]. by exists c, key. Qed.

Lemma import_all_from now node epoch l records r : records_of l records → cert_ok r →
  let r' := import_all now node epoch r records in cert_ok r' ∧ maxLife r' = maxLife r ∧ closed r' = closed r ∧
  ∀ k x, entries r' !! k = Some x → (∃ ke, ke ∈ l ∧ e_binding x = e_binding ke.2) ∨ ∃ x0, entries r !! k = Some x0 ∧ e_binding x0 = e_binding x.
Proof.
  intros Hrec. revert r. induction Hrec as [|[k0 e0] rec l records Hex _ IH]; intros r Hok; [split_and!; by eauto|]. unfold import_all. cbn [foldl].
  destruct (export_one_Some _ _ Hex) as (c & key & _ & _ & ->). simpl in *. set (r1 := (importOne r false now node epoch _).1).
  assert (Hok1 : cert_ok r1) by by apply importOne_ok. destruct (importOne_bindings r false now node epoch (e_binding e0) (mkBundle (pem_chain c) key (e_issuer e0) (e_notBefore e0) (e_notAfter e0))) as (Hm & Hc & Hb).
  fold r1 in Hm, Hc, Hb. destruct (IH r1 Hok1) as (Hok2 & Hm2 & Hc2 & Hfrom). fold (import_all now node epoch r1 records). split_and!; [done|congruence..|].
  intros k x Hx. destruct (Hfrom _ _ Hx) as [(ke & Hke & Heq)|(x1 & Hx1 & Heq)]; [left; exists ke; split; [by right|done]|].
  destruct (Hb _ _ Hx1) as [Hbx|(x0 & Hx0 & Heq0)]; [left; exists (k0, e0); split; [left|simpl; congruence]|right; exists x0; split; [done|congruence]].
Qed.

Lemma import_all_keeps now node epoch l records r hk k e : records_of l records → cert_ok r → keeps r hk k e → e_state e = StateActive → lapsed (e_notAfter e) (e_binding e) now = false →
  (∀ ke, ke ∈ l → k ≠ bindingKey (e_binding ke.2) ∧ ∀ host w, Binding_validate (e_binding ke.2) = Some (host, w) → hostKey host w ≠ hk) →
  keeps (import_all now node epoch r records) hk k e.
Proof.
  intros Hrec. revert r. induction Hrec as [|[k0 e0] rec l records Hex _ IH]; intros r Hok Hkeep Hst Hl Hall; [done|]. unfold import_all. cbn [foldl].
  destruct (export_one_Some _ _ Hex) as (c & key & _ & _ & ->). simpl in *. destruct (Hall (k0, e0) (list_elem_of_here _ _)) as [Hne Hhk]. simpl in Hne, Hhk. apply IH; try done.
  - by apply importOne_ok.
  - by apply importOne_keeps.
  - intros ke Hke. apply Hall. by right.
Qed.

(** The entries that are exported: each is active, under its own name. *)
Lemma Export_records r now records : Export r now = inr records → ∃ l, records_of l records ∧ NoDup l.*1 ∧
  ∀ k e, (k, e) ∈ l ↔ entries r !! k = Some e ∧ e_state e = StateActive ∧ (now < e_notAfter e)%Z.
Proof.
  unfold Export. destruct (closed r); [done|]. set (l := List.filter _ (range 55 (entries r))). destruct (mapM _ l) as [rs|] eqn:Hm; [|done]. intros [= <-]. exists l. split_and!.
  - by apply mapM_Some in Hm.
  - unfold l. assert (Hnd : NoDup (range 55 (entries r)).*1) by (rewrite range_perm; apply NoDup_fst_map_to_list). revert Hnd. generalize (range 55 (entries r)). induction l0 as [|[k e] l0 IH]; simpl; [done|].
    intros [Hk Hnd]%NoDup_cons. destruct (_ && _); simpl; [|by apply IH]. constructor; [|by apply IH]. intros ([k' e'] & Heq & Hin)%list_elem_of_fmap. simpl in Heq. subst k'. apply Hk.
    apply list_elem_of_fmap. exists (k, e'). split; [done|]. apply list_elem_of_In, filter_In in Hin as [Hin _]. by apply list_elem_of_In.
  - intros k e. unfold l. rewrite list_elem_of_In, filter_In, <-list_elem_of_In, elem_of_range. simpl. unfold is_active, time.After. by rewrite andb_true_iff, bool_decide_eq_true, Z.ltb_lt.
Qed.

(** A handover keeps the certificates: for every name that has an active certificate, exporting the registry of the serving process and importing the records
    into the empty registry of its replacement, which has the same node and epoch, makes the very same certificate active for that name, as long as it has not
    lapsed and a new registry would still accept it; whatever becomes of the others. *)
Theorem certificates_survive_handover maximum ops now records now' maximum' node epoch hk k e c key : let r := run_ops (NewRegistry maximum) ops in
  Export r now = inr records → active r !! hk = Some k → entries r !! k = Some e → b_EdgeNodeID (e_binding e) = node → b_EdgeProcessEpoch (e_binding e) = epoch →
  e_certificate e = Some c → pem_key c = Some key → (now ≤ now')%Z → acceptable (maxLife (NewRegistry maximum')) now' e c key →
  let r' := (Import (NewRegistry maximum') false now' node epoch records).1.1 in
  ∃ e', active r' !! hk = Some k ∧ entries r' !! k = Some e' ∧ e_state e' = StateActive ∧ e_binding e' = e_binding e ∧ e_fingerprint e' = e_fingerprint e ∧ e_certificate e' = Some c.
Proof.
  intros r. assert (Hok : cert_ok r) by (apply run_ops_ok, NewRegistry_ok). clearbody r. intros Hexp Hk He Hnode Hepoch Hc Hkey Hle Hacc. rewrite Import_import_all.
  destruct (co_active _ Hok _ _ Hk) as (e0 & He0 & Hst & Hhk). assert (e0 = e) as -> by congruence. clear He0. destruct (co_entries _ Hok _ _ He) as [Hbk Hv Hhold].
  destruct (Export_records _ _ _ Hexp) as (l & Hrec & Hnd & Hl). assert (Hin : (k, e) ∈ l).
  { apply Hl. split_and!; try done. pose proof (ac_lapsed _ _ _ _ _ Hacc) as Hx. unfold lapsed in Hx. apply orb_false_iff in Hx as [Hx _]. apply negb_false_iff, Z.ltb_lt in Hx. lia. }
  apply list_elem_of_split in Hin as (l1 & l2 & ->). rewrite fmap_app in Hnd. simpl in Hnd. apply Forall2_app_inv_l in Hrec as (rec1 & rec2' & Hrec1 & Hrec2' & ->).
  apply Forall2_cons_inv_l in Hrec2' as (rec & rec2 & Hrec & Hrec2 & ->).
  assert (Hothers : ∀ ke, ke ∈ l1 ∨ ke ∈ l2 → k ≠ bindingKey (e_binding ke.2) ∧ ∀ host w, Binding_validate (e_binding ke.2) = Some (host, w) → hostKey host w ≠ hk).
  { intros [k1 e1] Hke. assert (Hl1 : (k1, e1) ∈ l1 ++ (k, e) :: l2) by (rewrite elem_of_app, elem_of_cons; tauto). apply Hl in Hl1 as (Hk1 & Hs1 & _).
    assert (Hne : k1 ≠ k).
    { intros ->. apply NoDup_app in Hnd as (_ & Hd1 & Hd2). apply NoDup_cons in Hd2 as [Hd2 _]. destruct Hke as [Hke|Hke]; apply (list_elem_of_fmap_2 fst) in Hke; simpl in Hke; [|done].
      apply (Hd1 _ Hke). left. }
    destruct (co_entries _ Hok _ _ Hk1) as [Hbk1 Hv1 _]. simpl. split; [congruence|]. intros host w. rewrite Hv1. intros [= <- <-] Heq. pose proof (co_registered _ Hok _ _ Hk1 Hs1) as Hr1. unfold entry_hostKey in Hr1. congruence. }
  unfold import_all. rewrite foldl_app. cbn [foldl]. fold (import_all now' node epoch (NewRegistry maximum') rec1). set (r1 := import_all now' node epoch (NewRegistry maximum') rec1).
  destruct (import_all_from now' node epoch l1 rec1 (NewRegistry maximum') Hrec1 (NewRegistry_ok _)) as (Hok1 & Hm1 & Hc1 & Hfrom). fold r1 in Hok1, Hm1, Hc1, Hfrom.
  assert (Hbinds : ∀ k1 x, entries r1 !! k1 = Some x → ∃ ke, ke ∈ l1 ∧ e_binding x = e_binding ke.2).
  { intros k1 x Hx. destruct (Hfrom _ _ Hx) as [?|(x0 & Hx0 & _)]; [done|]. change ((∅ : gmap string entry) !! k1 = Some x0) in Hx0; by rewrite lookup_empty in Hx0. }
  destruct (export_one_Some _ _ Hrec) as (c' & key' & Hc' & Hkey' & ->). simpl in Hc'. assert (c' = c) as -> by congruence. assert (key' = key) as -> by congruence.
  destruct (importOne_fresh r1 now' node epoch e c key) as (e' & Hkeep & Hst' & Hb' & Hna' & Hfp' & Hcert'); try done.
  - by apply Hhold; rewrite Hst.
  - by rewrite Hm1.
  - intros k1 x Hx Hhost. destruct (Hbinds _ _ Hx) as (ke & Hke & Hbx). destruct (Hothers ke (or_introl Hke)) as [_ Hne]. destruct (co_entries _ Hok1 _ _ Hx) as [_ Hvx _]. rewrite Hbx in Hvx.
    apply (Hne _ _ Hvx). rewrite <-Hhk. unfold entry_hostKey. rewrite <-Hhost. f_equal. apply validate_host in Hvx as [_ Hn1]. apply validate_host in Hv as [_ Hn2]. rewrite Hhost in Hn1. congruence.
  - destruct (entries r1 !! bindingKey (e_binding e)) as [x|] eqn:Hx; [|done]. destruct (Hbinds _ _ Hx) as (ke & Hke & Hbx). destruct (Hothers ke (or_introl Hke)) as [Hne _].
    destruct (co_entries _ Hok1 _ _ Hx) as [Hkx _ _]. congruence.
  - set (r2 := (importOne r1 false now' node epoch _).1) in *. rewrite Hhk, Hbk in Hkeep.
    assert (Hfin : keeps (import_all now' node epoch r2 rec2) hk k e').
    { eapply import_all_keeps; [exact Hrec2|by apply importOne_ok|done|done|rewrite Hna', Hb'; apply (ac_lapsed _ _ _ _ _ Hacc)|]. intros ke Hke. apply Hothers. by right. }
    exists e'. destruct Hfin as [? ?]. by split_and!.
Qed.
End claims.

(** ** Examples *)

(** A certificate whose bytes are its name, which is valid from 100 to 10^15. *)
Definition eval_x509 : X509.
Proof.
  refine {| X509KeyPair cert key := if String.eqb cert "" then None else Some (mkTLSCertificate cert key cert 100 (10 ^ 15));
            VerifyHostname c host := String.eqb (tc_Raw c) host; pem_chain c := tc_Certificate c; pem_key c := Some (tc_PrivateKey c) |}.
  intros cert key c key'. destruct (String.eqb cert "") eqn:He; [done|]. intros [= <-] [= <-]. simpl. by rewrite He.
Defined.

#[local] Existing Instances eval_runtime eval_idna eval_sha256 eval_x509.

Definition ex_binding (domain : string) (certificate : Z) : Binding :=
  mkBinding "account-1" "tunnel-1" domain "app.example.com" "durable_route" "route-1" "" 0 "" time.zero false 1 certificate "node-1" "epoch-0001" 1.
Definition ex_bundle (key : string) : Bundle := mkBundle "app.example.com" key "issuer" time.zero time.zero.
Definition ex_install (domain : string) (certificate : Z) : list (Z * cert_op) :=
  [(200, OStage false (ex_binding domain certificate) (ex_bundle "key") None); (201, OReady false (ex_binding domain certificate) None);
   (202, OActivate false (ex_binding domain certificate) None)]%Z.
Definition ex_registry : Registry := run_ops (NewRegistry 0) (ex_install "domain-1" 1).
Definition ex_entry : entry :=
  mkEntry (ex_binding "domain-1" 1) "app.example.com" false StateActive (pad 32 "app.example.com") "issuer" 100 (10 ^ 15) 202 time.zero time.zero
    (Some (mkTLSCertificate "app.example.com" "key" "app.example.com" 100 (10 ^ 15))).

Lemma certificate_served_witness : ∃ r' c, GetCertificate ex_registry "App.example.com." 300 = (r', inr c) ∧
  ∃ host k e, normalizeHostname "App.example.com." = Some (host, false) ∧ entries r' !! k = Some e ∧ e_state e = StateActive ∧ (300 < tc_NotAfter c)%Z.
Proof.
  destruct (GetCertificate ex_registry "App.example.com." 300) as [r' [e|c]] eqn:Hg; [exfalso; revert Hg; vm_compute; discriminate|]. exists r', c. split; [reflexivity|].
  destruct (certificate_served 0 (ex_install "domain-1" 1) "App.example.com." 300 r' c Hg) as (host & k & e & Hn & Hk & Hs & Hc & _).
  exists host, k, e. exact (conj Hn (conj Hk (conj Hs Hc))).
Defined.

Lemma certificate_continuity_witness : covered (run_op ex_registry 400 (ORetire false (ex_binding "domain-1" 1) None)) "e:app.example.com" ex_entry.
Proof.
  apply (certificate_continuity 0 (ex_install "domain-1" 1) 400 (ORetire false (ex_binding "domain-1" 1) None) "e:app.example.com" (bindingKey (ex_binding "domain-1" 1)) ex_entry);
    vm_compute; reflexivity.
Defined.

Lemma certificates_survive_handover_witness : ∃ records, Export ex_registry 500 = inr records ∧
  let r' := (Import (NewRegistry 0) false 600 "node-1" "epoch-0001" records).1.1 in
  ∃ e', active r' !! "e:app.example.com" = Some (bindingKey (ex_binding "domain-1" 1)) ∧ entries r' !! bindingKey (ex_binding "domain-1" 1) = Some e' ∧
    e_state e' = StateActive.
Proof.
  destruct (Export ex_registry 500) as [e|records] eqn:Hx; [exfalso; revert Hx; vm_compute; discriminate|]. exists records. split; [reflexivity|].
  destruct (certificates_survive_handover 0 (ex_install "domain-1" 1) 500 records 600 0 "node-1" "epoch-0001" "e:app.example.com" (bindingKey (ex_binding "domain-1" 1)) ex_entry
    (mkTLSCertificate "app.example.com" "key" "app.example.com" 100 (10 ^ 15)) "key" Hx) as (e' & Ha & He & Hs & _);
    [vm_compute; reflexivity..|lia|split; vm_compute; intuition congruence|].
  exists e'. exact (conj Ha (conj He Hs)).
Defined.

(** The conflict of host names is checked when a certificate is staged, not when it is activated: two domains that stage a certificate for the same name before
    either is active may both activate, and the second takes the name from the first. *)
Theorem hostname_taken_over : let stageBoth := [(200, OStage false (ex_binding "domain-1" 1) (ex_bundle "key") None); (200, OStage false (ex_binding "domain-2" 2) (ex_bundle "other") None)]%Z in
  let ready := [(201, OReady false (ex_binding "domain-1" 1) None); (201, OReady false (ex_binding "domain-2" 2) None); (202, OActivate false (ex_binding "domain-1" 1) None)]%Z in
  let r := run_ops (NewRegistry 0) (stageBoth ++ ready) in
  active r !! "e:app.example.com" = Some (bindingKey (ex_binding "domain-1" 1)) ∧
  active (activate r false 203 (ex_binding "domain-2" 2) None).1 !! "e:app.example.com" = Some (bindingKey (ex_binding "domain-2" 2)) ∧
  (stage (run_ops (NewRegistry 0) (ex_install "domain-1" 1)) false 203 (ex_binding "domain-2" 2) (ex_bundle "other") None).2 = Some ErrHostnameConflict.
Proof. vm_compute. by split_and!. Qed.
