(* ===== verification/StrictJSON.v ===== *)
(** * Bounded JSON without repeated names: src/tunnel/internal/strictjson

    Validate reads the tokens of encoding/json's decoder, which is a parameter, and decides whether they are one value whose nesting is bounded and whose objects
    have distinct names. *)
From S2P Require Import Prelude GoStd GoEnc.

(** json.Token: a delimiter, a string, or another scalar (a number, a boolean or null). *)
Inductive token := TDelim (c : ascii) | TString (s : string) | TScalar.

(** The tokens that json.Decoder gives for some bytes, and whether they end at the end of the input and not in an error.  More answers whether the next
    token is there and does not close an array or an object; where the tokens end, Token fails, whatever More answered. *)
Class JSONDecoder := { json_tokens : string → list token * bool }.

Definition open_object : token := TDelim "{".
Definition close_object : token := TDelim "}".
Definition open_array : token := TDelim "[".
Definition close_array : token := TDelim "]".

Definition More (ts : list token) : bool :=
  match ts with TDelim c :: _ => negb (Ascii.eqb c "]") && negb (Ascii.eqb c "}") | _ :: _ => true | [] => false end.

(** The token that has to come next. *)
Definition closing (c : ascii) (ts : list token) : option (list token) :=
  match ts with TDelim c' :: ts' => if Ascii.eqb c' c then Some ts' else None | _ => None end.

(** consumeValue: what is left after one value; the loops of an object and of an array are functions of their own.  Every call gets less fuel. *)
Fixpoint consumeValue (fuel : nat) (depth maximumDepth : Z) (ts : list token) : option (list token) :=
  match fuel with
  | O => None
  | S fuel =>
      if (maximumDepth <? depth)%Z then None
      else match ts with
      | [] => None
      | TDelim c :: ts => if Ascii.eqb c "{" then consumeMembers fuel depth maximumDepth [] ts
                          else if Ascii.eqb c "[" then consumeElements fuel depth maximumDepth ts else None
      | _ :: ts => Some ts
      end
  end
with consumeMembers (fuel : nat) (depth maximumDepth : Z) (seen : list string) (ts : list token) : option (list token) :=
  match fuel with
  | O => None
  | S fuel =>
      if More ts then
        match ts with
        | TString key :: ts =>
            if bool_decide (key ∈ seen) then None
            else ts ← consumeValue fuel (depth + 1) maximumDepth ts; consumeMembers fuel depth maximumDepth (key :: seen) ts
        | _ => None
        end
      else closing "}" ts
  end
with consumeElements (fuel : nat) (depth maximumDepth : Z) (ts : list token) : option (list token) :=
  match fuel with
  | O => None
  | S fuel =>
      if More ts then ts ← consumeValue fuel (depth + 1) maximumDepth ts; consumeElements fuel depth maximumDepth ts
      else closing "]" ts
  end.

Section decode.
Context `{JSONDecoder}.

(** Of two calls within each other one reads a token, so twice their number is enough ([Validate_exact]). *)
Definition Validate (data : string) (maximumDepth : Z) : bool :=
  if (len data =? 0)%Z || (maximumDepth <? 1)%Z then false
  else let '(ts, eof) := json_tokens data in
       match consumeValue (S (2 * length ts)) 0 maximumDepth ts with Some [] => eof | _ => false end.

(** Decode of a value; [decode] is Decode of the decoder without unknown fields: the value, and whether the input ends after it. *)
Definition Decode {A} (decode : string → option (A * bool)) (data : string) (maximumDepth : Z) : option A :=
  if Validate data maximumDepth then match decode data with Some (a, true) => Some a | _ => None end else None.

(** [unmarshal] is json.Unmarshal. *)
Definition DecodeResponse {A} (unmarshal : string → option A) (data : string) (maximumDepth : Z) : option A :=
  if Validate data maximumDepth then unmarshal data else None.
End decode.

(** ** Values *)

#[local] Set Warnings "-register-all".
Inductive value := Scalar (t : token) | Object (members : list (string * value)) | Array (elements : list value).

Fixpoint tokens_of (v : value) : list token :=
  match v with
  | Scalar t => [t]
  | Object ms => open_object :: concat (map (λ kv : string * value, let (k, v) := kv in TString k :: tokens_of v) ms) ++ [close_object]
  | Array vs => open_array :: concat (map tokens_of vs) ++ [close_array]
  end.

(** A value at a depth: no deeper than allowed, scalars are scalars, and the names of an object are distinct. *)
Inductive acceptable (maximum : Z) : Z → value → Prop :=
  | acceptable_scalar d t : (d ≤ maximum)%Z → (∀ c, t ≠ TDelim c) → acceptable maximum d (Scalar t)
  | acceptable_object d ms : (d ≤ maximum)%Z → NoDup ms.*1 → (∀ k v, (k, v) ∈ ms → acceptable maximum (d + 1) v) → acceptable maximum d (Object ms)
  | acceptable_array d vs : (d ≤ maximum)%Z → (∀ v, v ∈ vs → acceptable maximum (d + 1) v) → acceptable maximum d (Array vs).

Definition member_tokens (kv : string * value) : list token := TString kv.1 :: tokens_of kv.2.

Lemma tokens_Object ms : tokens_of (Object ms) = open_object :: concat (map member_tokens ms) ++ [close_object].
Proof. simpl. do 2 f_equal. f_equal. apply map_ext. by intros []. Qed.

Lemma closing_Some c ts rest : closing c ts = Some rest → ts = TDelim c :: rest.
Proof. destruct ts as [|[c'| |] ts]; simpl; try done. destruct (Ascii.eqb_spec c' c) as [->|]; [|done]. by intros [= ->]. Qed.

(** What is consumed is a value. *)
Lemma consume_sound fuel maximum :
  (∀ d ts rest, consumeValue fuel d maximum ts = Some rest → ∃ v, ts = tokens_of v ++ rest ∧ acceptable maximum d v) ∧
  (∀ d seen ts rest, consumeMembers fuel d maximum seen ts = Some rest →
     ∃ ms, ts = concat (map member_tokens ms) ++ close_object :: rest ∧ NoDup ms.*1 ∧ (∀ k, k ∈ seen → k ∉ ms.*1) ∧ ∀ k v, (k, v) ∈ ms → acceptable maximum (d + 1) v) ∧
  (∀ d ts rest, consumeElements fuel d maximum ts = Some rest →
     ∃ vs, ts = concat (map tokens_of vs) ++ close_array :: rest ∧ ∀ v, v ∈ vs → acceptable maximum (d + 1) v).
Proof.
  induction fuel as [|fuel (IHv & IHm & IHe)]; [by split_and!|]. split_and!.
  - intros d ts rest. simpl. destruct (Z.ltb_spec maximum d) as [|Hd]; [done|]. destruct ts as [|[c|s|] ts]; [done| | |].
    + destruct (Ascii.eqb_spec c "{") as [->|]; [|destruct (Ascii.eqb_spec c "[") as [->|]; [|done]].
      * intros (ms & -> & Hnd & _ & Hall)%IHm. exists (Object ms). rewrite tokens_Object. simpl. split; [by rewrite <-app_assoc|by constructor].
      * intros (vs & -> & Hall)%IHe. exists (Array vs). simpl. split; [by rewrite <-app_assoc|by constructor].
    + intros [= ->]. exists (Scalar (TString s)). by repeat constructor.
    + intros [= ->]. exists (Scalar TScalar). by repeat constructor.
  - intros d seen ts rest. simpl. destruct (More ts) eqn:Hmore.
    + destruct ts as [|[c|key|] ts]; try done. case_bool_decide as Hseen; [done|]. destruct (consumeValue fuel (d + 1) maximum ts) as [ts'|] eqn:Hv; simpl; [|done].
      apply IHv in Hv as (v & -> & Hv). intros (ms & -> & Hnd & Hfresh & Hall)%IHm. exists ((key, v) :: ms). simpl. split_and!.
      * by rewrite <-!app_assoc.
      * constructor; [|done]. apply Hfresh. left.
      * intros k Hk. rewrite not_elem_of_cons. split; [by intros ->|]. apply Hfresh. by right.
      * intros k v'. rewrite elem_of_cons. intros [[= -> ->]|Hin]; [done|by eapply Hall].
    + intros ->%closing_Some. exists []. simpl. split_and!; [done|constructor|by intros k _ ?%not_elem_of_nil|by intros k v ?%not_elem_of_nil].
  - intros d ts rest. simpl. destruct (More ts) eqn:Hmore.
    + destruct (consumeValue fuel (d + 1) maximum ts) as [ts'|] eqn:Hv; simpl; [|done]. apply IHv in Hv as (v & -> & Hv). intros (vs & -> & Hall)%IHe. exists (v :: vs). simpl.
      split; [by rewrite <-app_assoc|]. intros v'. rewrite elem_of_cons. intros [->|Hin]; [done|by apply Hall].
    + intros ->%closing_Some. exists []. simpl. split; [done|by intros v ?%not_elem_of_nil].
Qed.

Lemma More_value maximum d v rest : acceptable maximum d v → More (tokens_of v ++ rest) = true.
Proof. intros Hv. destruct Hv as [d t _ Ht|d ms|d vs]; [|done..]. simpl. destruct t as [c| |]; [by destruct (Ht c)|done..]. Qed.

(** The loops, for members and elements that are consumed one by one. *)
Lemma consume_members maximum d ms : NoDup ms.*1 →
  (∀ k v, (k, v) ∈ ms → acceptable maximum (d + 1) v ∧ ∀ fuel rest, (2 * length (tokens_of v ++ rest) < fuel)%nat → consumeValue fuel (d + 1) maximum (tokens_of v ++ rest) = Some rest) →
  ∀ fuel seen rest, (∀ k, k ∈ seen → k ∉ ms.*1) → (S (2 * length (concat (map member_tokens ms) ++ close_object :: rest)) < fuel)%nat →
  consumeMembers fuel d maximum seen (concat (map member_tokens ms) ++ close_object :: rest) = Some rest.
Proof.
  intros Hnd. induction ms as [|[k v] ms IH]; intros Hall [|fuel] seen rest Hseen Hfuel; simpl in *; try lia; [done|]. rewrite <-app_assoc in *.
  apply NoDup_cons in Hnd as [Hk Hnd]. rewrite bool_decide_eq_false_2 by (intros Hin; apply (Hseen _ Hin); left). destruct (Hall k v (list_elem_of_here _ _)) as [_ Hv].
  rewrite !length_app in Hfuel. rewrite Hv by (rewrite !length_app; lia). simpl. apply IH; [done|intros k' v' Hin; apply (Hall k'); by right| |].
  - intros k'. rewrite elem_of_cons. intros [->|Hin]; [done|]. intros Hms. apply (Hseen _ Hin). by right.
  - rewrite !length_app. lia.
Qed.

Lemma consume_elements maximum d vs :
  (∀ v, v ∈ vs → acceptable maximum (d + 1) v ∧ ∀ fuel rest, (2 * length (tokens_of v ++ rest) < fuel)%nat → consumeValue fuel (d + 1) maximum (tokens_of v ++ rest) = Some rest) →
  ∀ fuel rest, (S (2 * length (concat (map tokens_of vs) ++ close_array :: rest)) < fuel)%nat → consumeElements fuel d maximum (concat (map tokens_of vs) ++ close_array :: rest) = Some rest.
Proof.
  induction vs as [|v vs IH]; intros Hall [|fuel] rest Hfuel; simpl in *; try lia; [done|]. rewrite <-app_assoc in *. destruct (Hall v (list_elem_of_here _ _)) as [Hok Hv].
  rewrite (More_value _ _ _ _ Hok). assert (Hpos : (0 < length (tokens_of v))%nat) by (destruct v; simpl; lia). rewrite !length_app in Hfuel.
  rewrite Hv by (rewrite !length_app; lia). simpl. apply (IH (λ v Hin, Hall v (list_elem_of_further _ _ _ Hin)) fuel). rewrite !length_app. lia.
Qed.

(** An acceptable value is consumed. *)
Lemma consume_complete maximum d v : acceptable maximum d v →
  ∀ fuel rest, (2 * length (tokens_of v ++ rest) < fuel)%nat → consumeValue fuel d maximum (tokens_of v ++ rest) = Some rest.
Proof.
  induction 1 as [d t Hd Ht|d ms Hd Hnd Hall IH|d vs Hd Hall IH]; intros [|fuel] rest Hfuel; try lia.
  - simpl. rewrite (proj2 (Z.ltb_ge _ _) Hd). by destruct t as [c| |]; [destruct (Ht c)|..].
  - rewrite tokens_Object in *. simpl in *. rewrite (proj2 (Z.ltb_ge _ _) Hd). rewrite <-app_assoc in *. simpl in *. apply consume_members; [done| |by intros k ?%not_elem_of_nil|lia].
    intros k v Hin. split; [by eapply Hall|by eapply IH].
  - simpl in *. rewrite (proj2 (Z.ltb_ge _ _) Hd). rewrite <-app_assoc in *. simpl in *. apply consume_elements; [|lia]. intros v Hin. split; [by apply Hall|by apply IH].
Qed.

(** C26: Validate accepts exactly the inputs whose tokens are those of one value that is nested no deeper than allowed and in which no object
    repeats a name, up to the end of the input. *)
Theorem Validate_exact `{JSONDecoder} data maximum : Validate data maximum = true ↔
  (0 < len data ∧ 1 ≤ maximum)%Z ∧ ∃ v, json_tokens data = (tokens_of v, true) ∧ acceptable maximum 0 v.
Proof.
  unfold Validate. assert (Hlen : (0 ≤ len data)%Z) by (unfold len; lia). destruct (Z.eqb_spec (len data) 0), (Z.ltb_spec maximum 1); cbn [orb]; try (split; [done|lia]).
  destruct (json_tokens data) as [ts eof]. split.
  - destruct (consumeValue _ 0 maximum ts) as [[|]|] eqn:Hc; try done. intros ->. split; [lia|]. apply (proj1 (consume_sound _ _)) in Hc as (v & -> & Hv). exists v. by rewrite app_nil_r.
  - intros (_ & v & [= -> ->] & Hv). pose proof (consume_complete _ _ _ Hv (S (2 * length (tokens_of v))) []) as Hc. rewrite app_nil_r in Hc. by rewrite Hc by lia.
Qed.
