(* ===== verification/Auth.v ===== *)
(** * Credentials of connectors and of helper access: src/tunnel/internal/auth

    A snapshot holds the signing keys that the edge trusts, what the server revoked, and the channels of those who wait for the revocation of a credential; a verifier
    checks the signature and the claims of a credential against it.  Every method of the snapshot runs under its lock, so it is one step; Verify reads the keys
    and the revocations in two steps, between which the snapshot may change, so it gets the two answers as functions.  The struct decoding of encoding/json is the class
    [CredentialJSON] and the signature check the class [Ed25519]. *)
From S2P Require Import Prelude GoStd GoData GoNet GoEnc StrictJSON EdgeErr ConnProto Journal Admit.

(** ** base64.RawURLEncoding.DecodeString, which does not look at the unused bits of the last group *)

Fixpoint groups_any (l : list N) : option string :=
  match l with
  | [] => Some EmptyString
  | [_] => None
  | [a; b] => Some (String (ascii_of_N (a * 4 + b / 16)) EmptyString)
  | [a; b; c] => Some (String (ascii_of_N (a * 4 + b / 16)) (String (ascii_of_N ((b mod 16) * 16 + c / 4)) EmptyString))
  | a :: b :: c :: d :: l' =>
      r ← groups_any l';
      Some (String (ascii_of_N (a * 4 + b / 16)) (String (ascii_of_N ((b mod 16) * 16 + c / 4)) (String (ascii_of_N ((c mod 4) * 64 + d)) r)))
  end.

Definition DecodeString_any (s : string) : option string := base64.sextets s ≫= groups_any.

Definition decodeCredentialSegment (encoded : string) : option string :=
  match DecodeString_any encoded with
  | Some decoded => if String.eqb (base64.EncodeToString decoded) encoded then Some decoded else None
  | None => None
  end.

(** ** Documents *)

Record header := mkHeader { h_Algorithm : string; h_KeyID : string; h_Type : string }.

Record fileTransferPolicy := mkFileTransferPolicy {
  fp_Revision : string; fp_MaxFileBytes : Z; fp_MaxBatchFiles : Z; fp_MaxBatchBytes : Z; fp_MaxConcurrentTransfers : Z; fp_RetentionSeconds : Z;
  fp_DeliveryTimeoutSeconds : Z; fp_MaxPendingSpoolBytes : Z;
}.

(** The claims that the package reads; the others are decoded and not used. *)
Record claims := mkCredentialClaims {
  c_WorkspaceID : string; c_ActorAccountID : string; c_AssignmentID : string; c_BrowserAttachmentID : string; c_BrowserPublicKeySHA256 : string;
  c_PolicyGeneration : Z; c_Issuer : string; c_Audience : string; c_Subject : string; c_JTI : string; c_IssuedAt : Z; c_Expires : Z; c_Scope : list string;
  c_CredentialClass : string; c_EnvironmentID : string; c_MachineID : string; c_InstallationGeneration : Z; c_SourceMachineID : string; c_HelperID : string;
  c_ConnectorID : string; c_ConnectorGeneration : Z; c_EdgePool : string; c_EdgeNodeID : string; c_RouteBinding : string;
  c_FileTransferPolicy : option fileTransferPolicy; c_AccountID : string; c_UserID : string; c_CLIClientSessionID : string; c_SessionID : string;
  c_OwnerSessionKind : string; c_ExpectedGeneration : Z;
}.

Record jwk := mkJwk { k_KeyType : string; k_Curve : string; k_Use : string; k_Algorithm : string; k_KeyID : string; k_X : string }.
Record jwksDocument := mkJwks { jw_Keys : list jwk; jw_WithdrawnKeyIDs : list string }.

Record connectorGeneration := mkConnectorGeneration { cg_Machine : string; cg_Connector : string; cg_Generation : Z }.

#[export] Instance connectorGeneration_eq_dec : EqDecision connectorGeneration.
Proof. solve_decision. Defined.
#[export] Instance connectorGeneration_countable : Countable connectorGeneration.
Proof.
  refine (inj_countable' (λ g, (cg_Machine g, cg_Connector g, cg_Generation g)) (λ '(m, c, n), mkConnectorGeneration m c n) _). by intros [].
Defined.

Record RevocationDocument := mkRevocations {
  rd_JTIs : list string; rd_Environments : list string; rd_Connectors : list connectorGeneration; rd_KeyIDs : list string;
}.

(** Decode of the four structs, without unknown fields. *)
Class CredentialJSON := {
  decode_header : string → option (header * bool);
  decode_claims : string → option (claims * bool);
  decode_jwks : string → option (jwksDocument * bool);
  decode_revocations : string → option (RevocationDocument * bool);
}.

(** ** The snapshot *)

Inductive SnapshotError := ErrSnapshotInvalid | ErrSnapshotCapacity.

Definition maxSnapshotBytes : Z := Z.shiftl 1 20.
Definition maxSnapshotJSONDepth : Z := 64.
Definition maximumRevocationWatchers : Z := 8192.

(** The channels that were closed are part of the state; a watcher's owner and its channel have the same number. *)
Record Snapshot := mkSnapshot {
  sn_keys : gmap string string; sn_revokedJTI : gset string; sn_revokedEnvironment : gset string; sn_revokedKey : gset string;
  sn_revokedConnector : gset connectorGeneration; sn_maxAge : Z; sn_updatedAt : Z; sn_watchers : gmap nat Claims; sn_closed : gset nat; sn_next : nat;
}.

Definition NewSnapshot : Snapshot := mkSnapshot ∅ ∅ ∅ ∅ ∅ 0 time.zero ∅ ∅ 0.

Definition set_watchers (s : Snapshot) (w : gmap nat Claims) (closed : gset nat) (next : nat) : Snapshot :=
  mkSnapshot (sn_keys s) (sn_revokedJTI s) (sn_revokedEnvironment s) (sn_revokedKey s) (sn_revokedConnector s) (sn_maxAge s) (sn_updatedAt s) w closed next.

(** The clock that is configured is the one that every call reads. *)
Definition ConfigureRevocationFreshness (s : Snapshot) (maxAge : Z) : Snapshot :=
  mkSnapshot (sn_keys s) (sn_revokedJTI s) (sn_revokedEnvironment s) (sn_revokedKey s) (sn_revokedConnector s) maxAge (sn_updatedAt s) (sn_watchers s) (sn_closed s) (sn_next s).

(** One key of the document; [None] refuses the document. *)
Definition add_key (next : gmap string string) (item : jwk) : option (gmap string string) :=
  if negb (String.eqb (k_KeyType item) "OKP") || negb (String.eqb (k_Curve item) "Ed25519") || negb (String.eqb (k_Use item) "sig")
     || negb (String.eqb (k_Algorithm item) "EdDSA") || String.eqb (k_KeyID item) "" || (128 <? len (k_KeyID item))%Z
  then None
  else match DecodeString_any (k_X item) with
       | None => None
       | Some raw =>
           if negb (len raw =? PublicKeySize)%Z || negb (String.eqb (base64.EncodeToString raw) (k_X item)) || bool_decide (is_Some (next !! k_KeyID item)) then None
           else Some (<[k_KeyID item := raw]> next)
       end.

Fixpoint add_keys (next : gmap string string) (items : list jwk) : option (gmap string string) :=
  match items with [] => Some next | item :: rest => next ← add_key next item; add_keys next rest end.

Definition withdrawn_id_ok (id : string) : bool := negb (String.eqb id "") && (len id <=? 128)%Z.

Section snapshot.
Context `{JSONDecoder} `{CredentialJSON}.

Definition ReplaceJWKS (s : Snapshot) (data : string) : Snapshot * option SnapshotError :=
  if (len data =? 0)%Z || (maxSnapshotBytes <? len data)%Z then (s, Some ErrSnapshotInvalid)
  else match Decode decode_jwks data maxSnapshotJSONDepth with
  | None => (s, Some ErrSnapshotInvalid)
  | Some document =>
      if (length (jw_Keys document) =? 0)%nat || (128 <? length (jw_Keys document))%nat then (s, Some ErrSnapshotInvalid)
      else match add_keys ∅ (jw_Keys document) with
      | None => (s, Some ErrSnapshotInvalid)
      | Some next =>
          if (128 <? length (jw_WithdrawnKeyIDs document))%nat || negb (forallb withdrawn_id_ok (jw_WithdrawnKeyIDs document)) then (s, Some ErrSnapshotInvalid)
          else
            let next := foldl (λ m id, delete id m) next (jw_WithdrawnKeyIDs document) in
            if (size next =? 0)%nat then (s, Some ErrSnapshotInvalid)
            else (mkSnapshot next (sn_revokedJTI s) (sn_revokedEnvironment s) (sn_revokedKey s) (sn_revokedConnector s) (sn_maxAge s) (sn_updatedAt s) (sn_watchers s) (sn_closed s)
                    (sn_next s), None)
      end
  end.

Definition Key (s : Snapshot) (keyID : string) : option string := sn_keys s !! keyID.

Definition revokedLocked (s : Snapshot) (c : Claims) : bool :=
  bool_decide (cl_JTI c ∈ sn_revokedJTI s) || bool_decide (cl_EnvironmentID c ∈ sn_revokedEnvironment s)
  || bool_decide (mkConnectorGeneration (cl_MachineID c) (cl_ConnectorID c) (cl_ConnectorGeneration c) ∈ sn_revokedConnector s) || bool_decide (cl_KeyID c ∈ sn_revokedKey s).

Definition connector_ok (g : connectorGeneration) : bool := negb (String.eqb (cg_Machine g) "") && negb (String.eqb (cg_Connector g) "") && negb (cg_Generation g =? 0)%Z.

Definition document_ok (d : RevocationDocument) : bool :=
  forallb (λ s, negb (String.eqb s "")) (rd_JTIs d) && forallb (λ s, negb (String.eqb s "")) (rd_Environments d) && forallb connector_ok (rd_Connectors d)
  && forallb (λ s, negb (String.eqb s "")) (rd_KeyIDs d).

Context `{GoRuntime}.

(** The loop over the watchers; range site 56. *)
Definition close_revoked (s : Snapshot) : Snapshot :=
  foldl (λ s (w : nat * Claims), if revokedLocked s w.2 then set_watchers s (delete w.1 (sn_watchers s)) ({[w.1]} ∪ sn_closed s) (sn_next s) else s) s (range 56 (sn_watchers s)).

Definition ReplaceRevocations (s : Snapshot) (now : Z) (data : string) : Snapshot * option SnapshotError :=
  if (len data =? 0)%Z || (maxSnapshotBytes <? len data)%Z then (s, Some ErrSnapshotInvalid)
  else match Decode decode_revocations data maxSnapshotJSONDepth with
  | None => (s, Some ErrSnapshotInvalid)
  | Some d =>
      if (10000 <? Z.of_nat (length (rd_JTIs d) + length (rd_Environments d) + length (rd_Connectors d) + length (rd_KeyIDs d)))%Z || negb (document_ok d)
      then (s, Some ErrSnapshotInvalid)
      else (close_revoked (mkSnapshot (sn_keys s) (list_to_set (rd_JTIs d)) (list_to_set (rd_Environments d)) (list_to_set (rd_KeyIDs d)) (list_to_set (rd_Connectors d))
              (sn_maxAge s) now (sn_watchers s) (sn_closed s) (sn_next s)), None)
  end.

Definition revocationsFreshLocked (s : Snapshot) (now : Z) : bool :=
  if (sn_maxAge s <=? 0)%Z then true
  else if time.IsZero (sn_updatedAt s) then false
  else negb (time.Before now (sn_updatedAt s)) && (time.Sub now (sn_updatedAt s) <=? sn_maxAge s)%Z.

(** [None] is ErrSnapshotInvalid. *)
Definition Revoked (s : Snapshot) (now : Z) (c : Claims) : option bool := if negb (revocationsFreshLocked s now) then None else Some (revokedLocked s c).

(** Watch: the channel; the registration has the channel's number, which is what the release function forgets. *)
Definition Watch (s : Snapshot) (now : Z) (c : Claims) : Snapshot * (SnapshotError + nat) :=
  if String.eqb (cl_JTI c) "" || String.eqb (cl_EnvironmentID c) "" || String.eqb (cl_KeyID c) "" then (s, inl ErrSnapshotInvalid)
  else if negb (revocationsFreshLocked s now) then (s, inl ErrSnapshotInvalid)
  else if revokedLocked s c then (set_watchers s (sn_watchers s) ({[sn_next s]} ∪ sn_closed s) (S (sn_next s)), inr (sn_next s))
  else if (maximumRevocationWatchers <=? Z.of_nat (size (sn_watchers s)))%Z then (s, inl ErrSnapshotCapacity)
  else (set_watchers s (<[sn_next s := c]> (sn_watchers s)) (sn_closed s) (S (sn_next s)), inr (sn_next s)).

Definition release (s : Snapshot) (owner : nat) : Snapshot := set_watchers s (delete owner (sn_watchers s)) (sn_closed s) (sn_next s).
End snapshot.

(** The errors and sources that a verifier sees. *)
Definition snapshot_invalid : EdgeError := OtherErr "credential trust snapshot is invalid".
Definition key_source (s : Snapshot) (keyID : string) : EdgeError + string := match Key s keyID with Some key => inr key | None => inl snapshot_invalid end.
Definition revocation_source (s : Snapshot) (now : Z) (c : Claims) : EdgeError + bool := match Revoked s now c with Some revoked => inr revoked | None => inl snapshot_invalid end.

(** ** The verifier *)

Definition maxCredentialBytes : Z := 8192.

Record Verifier := mkVerifier { v_Issuer : string; v_NodeID : string; v_ClockSkew : Z }.

Definition invalid_credential : EdgeError := New CodeCredentialInvalid "credential is invalid" "request a fresh admission".

(** The expected scopes, each once; [None] when one is empty or repeated. *)
Fixpoint scopes_wanted (remaining : gset string) (expected : list string) : option (gset string) :=
  match expected with
  | [] => Some remaining
  | scope :: rest => if String.eqb scope "" || bool_decide (scope ∈ remaining) then None else scopes_wanted ({[scope]} ∪ remaining) rest
  end.

Fixpoint scopes_left (remaining : gset string) (actual : list string) : option (gset string) :=
  match actual with
  | [] => Some remaining
  | scope :: rest => if bool_decide (scope ∈ remaining) then scopes_left (remaining ∖ {[scope]}) rest else None
  end.

Definition exactScopes (actual expected : list string) : bool :=
  if negb (length actual =? length expected)%nat then false
  else match scopes_wanted ∅ expected with
       | None => false
       | Some remaining => match scopes_left remaining actual with Some rest => bool_decide (rest = ∅) | None => false end
       end.

Definition validFileTransferPolicy (policy : option fileTransferPolicy) : bool :=
  match policy with
  | None => false
  | Some p =>
      negb (String.eqb (fp_Revision p) "") && (0 <? fp_MaxFileBytes p)%Z && (fp_MaxFileBytes p <=? Z.shiftl 50 20)%Z && (0 <? fp_MaxBatchFiles p)%Z && (fp_MaxBatchFiles p <=? 10)%Z
      && (fp_MaxFileBytes p <=? fp_MaxBatchBytes p)%Z && (fp_MaxBatchBytes p <=? Z.shiftl 500 20)%Z && (0 <? fp_MaxConcurrentTransfers p)%Z && (fp_MaxConcurrentTransfers p <=? 2)%Z
      && (0 <? fp_RetentionSeconds p)%Z && (0 <? fp_DeliveryTimeoutSeconds p)%Z && (fp_MaxBatchBytes p <=? fp_MaxPendingSpoolBytes p)%Z
  end.

(** time.Unix(sec, 0): the seconds since year 1 wrap around. *)
Definition Unix (sec : Z) : Z := time.Unix (Int64.wrap (sec + 62135596800) - 62135596800) 0.

Definition header_ok (h : header) : bool :=
  String.eqb (h_Algorithm h) "EdDSA" && String.eqb (h_Type h) "paperboat-credential+jwt" && negb (String.eqb (h_KeyID h) "") && (len (h_KeyID h) <=? 128)%Z.

(** The times of a credential: the difference is an int64. *)
Definition lifetime_ok (c : claims) : bool := (c_IssuedAt c <? c_Expires c)%Z && (Int64.wrap (c_Expires c - c_IssuedAt c) <=? 300)%Z.

Definition fresh_admission (code message : string) : EdgeError := New code message "request a fresh admission".
Definition key_unavailable (cause : option EdgeError) : EdgeError :=
  EdgeErr CodeCredentialKeyUnavailable "credential signing key is unavailable" "retry after key synchronization" cause.
Definition revocation_unavailable (cause : EdgeError) : EdgeError :=
  Wrap CodeCredentialRevocationUnavailable "credential revocation state is unavailable" "retry after revocation synchronization" cause.

Section verifier.
Context `{GoRuntime} `{JSONDecoder} `{CredentialJSON} `{Ed25519}.

(** strictJSON *)
Definition strictHeader (data : string) : option header := Decode decode_header data maxSnapshotJSONDepth.
Definition strictClaims (data : string) : option claims := Decode decode_claims data maxSnapshotJSONDepth.

(** The checks of a signed credential; each refusal has a number, which Verify and verifySigned turn into their errors. *)
Inductive signed_failure := BadStructure | BadHeaderEncoding | BadHeader | NoKey (cause : option EdgeError) | BadSignature | BadPayloadEncoding | BadPayload.

Definition check_signed (key : string → EdgeError + string) (token : string) : signed_failure + header * claims :=
  match str.Split token "." with
  | [p0; p1; p2] =>
      if String.eqb p0 "" || String.eqb p1 "" || String.eqb p2 "" then inl BadStructure
      else match decodeCredentialSegment p0 with
      | None => inl BadHeaderEncoding
      | Some headerBytes =>
          match strictHeader headerBytes with
          | None => inl BadHeader
          | Some h =>
              if negb (header_ok h) then inl BadHeader
              else match key (h_KeyID h) with
              | inl e => inl (NoKey (Some e))
              | inr k =>
                  if negb (len k =? PublicKeySize)%Z then inl (NoKey None)
                  else match decodeCredentialSegment p2 with
                  | None => inl BadSignature
                  | Some signature =>
                      if negb (ed25519_Verify k (p0 +:+ "." +:+ p1) signature) then inl BadSignature
                      else match decodeCredentialSegment p1 with
                      | None => inl BadPayloadEncoding
                      | Some payload => match strictClaims payload with None => inl BadPayload | Some c => inr (h, c) end
                      end
                  end
              end
          end
      end
  | _ => inl BadStructure
  end.

Definition verifySigned (key : string → EdgeError + string) (token : string) : EdgeError + header * claims :=
  match check_signed key token with inl (NoKey cause) => inl (key_unavailable cause) | inl _ => inl invalid_credential | inr hc => inr hc end.

Definition signed_error (f : signed_failure) : EdgeError :=
  match f with
  | BadStructure => fresh_admission CodeCredentialMalformed "credential structure is invalid"
  | BadHeaderEncoding => fresh_admission CodeCredentialMalformed "credential header is malformed"
  | BadHeader => fresh_admission CodeCredentialMalformed "credential header is invalid"
  | NoKey cause => key_unavailable cause
  | BadSignature => fresh_admission CodeCredentialSignatureInvalid "credential signature is invalid"
  | BadPayloadEncoding | BadPayload => fresh_admission CodeCredentialMalformed "credential payload is malformed"
  end.

Definition routeBinding_ok (value : string) : bool :=
  match base64.DecodeString value with Some raw => (len raw =? 32)%Z && String.eqb (base64.EncodeToString raw) value | None => false end.

Definition admission_claims_ok (v : Verifier) (c : claims) : bool :=
  String.eqb (c_Issuer c) (v_Issuer v) && String.eqb (c_Audience c) "paperboat-edge" && negb (String.eqb (c_Subject c) "") && negb (String.eqb (c_JTI c) "")
  && String.eqb (c_CredentialClass c) "connector_admission" && bool_decide (c_Scope c = ["connector:admit"]) && negb (String.eqb (c_EnvironmentID c) "")
  && negb (String.eqb (c_MachineID c) "") && (1 <=? c_InstallationGeneration c)%Z && negb (String.eqb (c_ConnectorID c) "") && negb (c_ConnectorGeneration c =? 0)%Z
  && negb (String.eqb (c_EdgePool c) "") && negb (String.eqb (c_EdgeNodeID c) "") && routeBinding_ok (c_RouteBinding c) && validFileTransferPolicy (c_FileTransferPolicy c)
  && lifetime_ok c.

Definition admission_claims (h : header) (c : claims) (revoked : bool) : Claims :=
  mkClaims (h_KeyID h) (c_Issuer c) (c_Audience c) (c_JTI c) (c_CredentialClass c) (c_Scope c) (c_EnvironmentID c) (c_MachineID c) (c_InstallationGeneration c) ""
    (c_ConnectorID c) (c_ConnectorGeneration c) (c_EdgePool c) (c_EdgeNodeID c) (c_RouteBinding c) "" time.zero (Unix (c_Expires c)) revoked.

Definition verifier_ok (v : Verifier) : bool := negb (String.eqb (v_Issuer v) "") && (0 <=? v_ClockSkew v)%Z && (v_ClockSkew v <=? 60 * time.Second)%Z.

(** Verify; [revoked] is [None] when no revocations are configured. *)
Definition Verify (v : Verifier) (key : string → EdgeError + string) (revoked : option (Claims → EdgeError + bool)) (now : Z) (token : string) : EdgeError + Claims :=
  if negb (verifier_ok v) then inl (New CodeServiceUnavailable "credential verifier is unavailable" "retry after edge recovery")
  else if (len token =? 0)%Z || (maxCredentialBytes <? len token)%Z then inl (fresh_admission CodeCredentialMalformed "credential size is invalid")
  else match check_signed key token with
  | inl f => inl (signed_error f)
  | inr (h, c) =>
      if negb (admission_claims_ok v c) then inl (fresh_admission CodeBindingInvalid "credential claims are invalid")
      else if time.After (Unix (c_IssuedAt c)) (now + v_ClockSkew v)%Z
      then inl (New CodeCredentialNotYetValid "credential is not yet valid" "synchronize clocks and request a fresh admission")
      else if negb (time.After (Unix (c_Expires c)) now) then inl (fresh_admission CodeCredentialExpired "credential is expired")
      else match revoked with
           | None => inr (admission_claims h c false)
           | Some revoked => match revoked (admission_claims h c false) with
                             | inl e => inl (revocation_unavailable e)
                             | inr r => inr (admission_claims h c r)
                             end
           end
  end.

(** ** Helper access *)

(** The scope that a class of credentials has to have, or no access. *)
Definition wanted_scopes (c : claims) : option (list string) :=
  if String.eqb (c_CredentialClass c) "browser_terminal_operation" then
    Some (if exactScopes (c_Scope c) ["terminal:view"] then ["terminal:view"] else if exactScopes (c_Scope c) ["terminal:control"] then ["terminal:control"] else ["terminal:operate"])
  else if String.eqb (c_CredentialClass c) "terminal_operation" then Some ["terminal:operate"]
  else if String.eqb (c_CredentialClass c) "file_transfer" then Some ["file:transfer"]
  else if String.eqb (c_CredentialClass c) "inbox_list" then Some ["inbox:list"]
  else if String.eqb (c_CredentialClass c) "inbox_read" then Some ["inbox:read"]
  else if String.eqb (c_CredentialClass c) "inbox_delete" then Some ["inbox:delete"]
  else if String.eqb (c_CredentialClass c) "preview_launch" then
    if negb (String.eqb (c_OwnerSessionKind c) "local_lease") && negb (String.eqb (c_OwnerSessionKind c) "foreground") && negb (String.eqb (c_OwnerSessionKind c) "lazy_runtime")
    then None else Some ["preview:launch"]
  else None.

Definition is_terminal (c : claims) : bool := String.eqb (c_CredentialClass c) "terminal_operation" || String.eqb (c_CredentialClass c) "browser_terminal_operation".
Definition is_browser (c : claims) : bool := String.eqb (c_CredentialClass c) "browser_terminal_operation".

Definition guestRead (c : claims) : bool :=
  is_browser c && String.eqb (c_ActorAccountID c) "" && (bool_decide (c_Scope c = ["terminal:view"]) || bool_decide (c_Scope c = ["terminal:control"])).

Definition terminal_ok (c : claims) : bool :=
  negb (String.eqb (c_WorkspaceID c) "") && (len (c_WorkspaceID c) <=? 128)%Z && String.eqb (str.TrimSpace (c_WorkspaceID c)) (c_WorkspaceID c)
  && negb (str.ContainsAny (c_WorkspaceID c) [0; 13; 10]%N)
  && (guestRead c || (negb (String.eqb (c_ActorAccountID c) "") && String.eqb (c_ActorAccountID c) (c_UserID c))).

Definition requiresClientSession (c : claims) : bool :=
  negb (String.eqb (c_CredentialClass c) "preview_launch") && negb (is_browser c) && negb (strings.HasPrefix (c_CredentialClass c) "inbox_").

Definition browser_ok (c : claims) : bool :=
  match base64.DecodeString (c_BrowserPublicKeySHA256 c) with Some digest => (len digest =? 32)%Z | None => false end
  && negb (String.eqb (c_BrowserAttachmentID c) "") && negb (String.eqb (c_SessionID c) "") && (1 <=? c_ExpectedGeneration c)%Z && (1 <=? c_PolicyGeneration c)%Z
  && String.eqb (c_CLIClientSessionID c) "" && String.eqb (c_SourceMachineID c) "" && String.eqb (c_AccountID c) (c_UserID c) && String.eqb (c_Subject c) (c_UserID c).

Definition helper_claims_ok (v : Verifier) (c : claims) (wantScopes : list string) (now : Z) : bool :=
  String.eqb (c_Issuer c) (v_Issuer v) && String.eqb (c_Audience c) "paperboat-machine" && negb (String.eqb (c_Subject c) "") && negb (String.eqb (c_JTI c) "")
  && exactScopes (c_Scope c) wantScopes && negb (String.eqb (c_EnvironmentID c) "") && negb (String.eqb (c_MachineID c) "")
  && negb (String.eqb (c_CredentialClass c) "file_transfer" && String.eqb (c_SourceMachineID c) "")
  && negb (String.eqb (c_CredentialClass c) "terminal_operation" && String.eqb (c_SessionID c) "") && negb (String.eqb (c_UserID c) "")
  && negb (requiresClientSession c && String.eqb (c_CLIClientSessionID c) "") && lifetime_ok c && negb (time.After (Unix (c_IssuedAt c)) (now + v_ClockSkew v)%Z)
  && time.After (Unix (c_Expires c)) now.

Definition helper_claims (h : header) (c : claims) (revoked : bool) : Claims :=
  mkClaims (h_KeyID h) (c_Issuer c) (c_Audience c) (c_JTI c) (c_CredentialClass c) (c_Scope c) (c_EnvironmentID c) (c_MachineID c) (c_InstallationGeneration c) (c_HelperID c)
    (c_ConnectorID c) (c_ConnectorGeneration c) (c_EdgePool c) (c_EdgeNodeID c) "" (c_AssignmentID c) (Unix (c_IssuedAt c)) (Unix (c_Expires c)) revoked.

Definition VerifyHelperAccess (v : Verifier) (key : string → EdgeError + string) (revoked : option (Claims → EdgeError + bool)) (now : Z) (token : string) : EdgeError + Claims :=
  if negb (verifier_ok v) || (len token =? 0)%Z || (maxCredentialBytes <? len token)%Z then inl invalid_credential
  else match verifySigned key token with
  | inl e => inl e
  | inr (h, c) =>
      match wanted_scopes c with
      | None => inl invalid_credential
      | Some wantScopes =>
          if is_terminal c && negb (terminal_ok c) then inl invalid_credential
          else if is_browser c && negb (browser_ok c) then inl invalid_credential
          else if negb (helper_claims_ok v c wantScopes now) then inl invalid_credential
          else match revoked with
               | None => inr (helper_claims h c false)
               | Some revoked => match revoked (helper_claims h c false) with
                                 | inl e => inl (revocation_unavailable e)
                                 | inr r => inr (helper_claims h c r)
                                 end
               end
      end
  end.
End verifier.

Arguments admission_claims_ok : simpl never.
Arguments helper_claims_ok : simpl never.
Arguments check_signed : simpl never.
