(* ===== verification/AuthSpec.v ===== *)
(** * What a credential shows, and when a revocation is seen *)
From S2P Require Import Prelude GoStd GoData GoNet GoEnc StrictJSON EdgeErr ConnProto Journal Admit AdmitSpec Auth.

(** ** Segments *)

Lemma groups_any_strict l s : base64.groups l = Some s → groups_any l = Some s.
Proof.
  revert s. induction l as [l IH] using (induction_ltof1 _ (@length N)). intros s. destruct l as [|a [|b [|c [|d l]]]]; simpl; try done.
  - by destruct (_ =? _)%N.
  - by destruct (_ =? _)%N.
  - destruct (base64.groups l) as [r|] eqn:Hr; simpl; [|done]. intros [= <-]. rewrite (IH l) with (s := r); [done| |done]. unfold ltof. simpl. lia.
Qed.

(** A segment is decoded only when it is the encoding of what was decoded. *)
Lemma decodeCredentialSegment_iff e raw : decodeCredentialSegment e = Some raw ↔ e = base64.EncodeToString raw.
Proof.
  unfold decodeCredentialSegment. split.
  - destruct (DecodeString_any e) as [d|]; [|done]. destruct (String.eqb_spec (base64.EncodeToString d) e) as [<-|]; [|done]. by intros [= ->].
  - intros ->. assert (Hd : DecodeString_any (base64.EncodeToString raw) = Some raw).
    { pose proof (base64.base64_Decode_Encode raw) as Hd. unfold base64.DecodeString in Hd. unfold DecodeString_any, base64.sextets. destruct (mapM _ _) as [l|]; [|done]. simpl in *.
      by apply groups_any_strict. }
    by rewrite Hd, String.eqb_refl.
Qed.

Lemma Split_cons s c : ∃ a l, str.Split s c = a :: l.
Proof. destruct s as [|d s]; simpl; [by eauto|]. destruct (Ascii.eqb d c); [by eauto|]. destruct (str.Split s c); by eauto. Qed.

Lemma concat_cons sep a b l : String.concat sep (a :: b :: l) = a +:+ sep +:+ String.concat sep (b :: l).
Proof. done. Qed.

(** Joining what was split gives the text back. *)
Lemma Join_Split s c : strings.Join (str.Split s c) (String c EmptyString) = s.
Proof.
  unfold strings.Join. induction s as [|d s IH]; [done|]. cbn [str.Split]. destruct (Split_cons s c) as (a & l & Hs). rewrite Hs in *. destruct (Ascii.eqb_spec d c) as [->|].
  - rewrite concat_cons, IH. done.
  - destruct l as [|b l]; [simpl in *; congruence|]. rewrite concat_cons in *. simpl. f_equal. exact IH.
Qed.

Lemma Split_free s c : Forall (λ p, strings.free_of c p = true) (str.Split s c).
Proof.
  induction s as [|d s IH]; simpl; [by repeat constructor|]. destruct (Ascii.eqb d c) eqn:Hd; [by constructor|]. destruct (str.Split s c) as [|a l]; [constructor; [simpl; by rewrite Hd|done]|].
  inversion_clear IH. constructor; [simpl; rewrite Hd; by simpl|done].
Qed.

(** ** Scopes *)

Lemma scopes_wanted_spec remaining expected r : scopes_wanted remaining expected = Some r ↔
  NoDup expected ∧ ("" ∉ expected) ∧ (∀ s, s ∈ expected → s ∉ remaining) ∧ r = list_to_set expected ∪ remaining.
Proof.
  revert remaining. induction expected as [|s l IH]; intros remaining; simpl.
  - split; [intros [= <-]; split_and!; [constructor|apply not_elem_of_nil|by intros ? ?%not_elem_of_nil|set_solver]|intros (_ & _ & _ & ->); f_equal; set_solver].
  - destruct (String.eqb_spec s "") as [->|Hs]; simpl; [split; [done|intros (_ & He & _); destruct He; left]|]. case_bool_decide as Hin.
    + split; [done|]. intros (_ & _ & Hr & _). by destruct (Hr s (list_elem_of_here _ _)).
    + rewrite IH, NoDup_cons. split.
      * intros (Hnd & He & Hr & ->). split_and!; [intros Hl; apply (Hr _ Hl); set_solver|done|rewrite not_elem_of_cons; by split|set_solver|set_solver].
      * intros ((Hl & Hnd) & He & Hr & ->). rewrite not_elem_of_cons in He. split_and!; [done|by destruct He|set_solver|set_solver].
Qed.

Lemma scopes_left_spec remaining actual r : scopes_left remaining actual = Some r ↔ NoDup actual ∧ (∀ s, s ∈ actual → s ∈ remaining) ∧ r = remaining ∖ list_to_set actual.
Proof.
  revert remaining. induction actual as [|s l IH]; intros remaining; simpl.
  - split; [intros [= <-]; split_and!; [constructor|by intros ? ?%not_elem_of_nil|set_solver]|intros (_ & _ & ->); f_equal; set_solver].
  - case_bool_decide as Hin.
    + rewrite IH, NoDup_cons. split.
      * intros (Hnd & Hr & ->). split_and!; [intros Hl; specialize (Hr _ Hl); set_solver|done|set_solver|set_solver].
      * intros ((Hl & Hnd) & Hr & ->). split_and!; [done| |set_solver]. intros s' Hs'. rewrite elem_of_difference, elem_of_singleton. split; [set_solver|by intros ->].
    + split; [done|]. intros (_ & Hr & _). by destruct Hin; apply Hr; left.
Qed.

(** exactScopes compares two lists as sets; the expected one is never empty-named or repeated. *)
Lemma exactScopes_spec actual expected : exactScopes actual expected = true ↔ NoDup expected ∧ ("" ∉ expected) ∧ actual ≡ₚ expected.
Proof.
  unfold exactScopes. destruct (Nat.eqb_spec (length actual) (length expected)) as [Hlen|Hlen]; simpl; [|split; [done|intros (_ & _ & Hp); by apply Permutation_length in Hp]].
  destruct (scopes_wanted ∅ expected) as [r|] eqn:Hw.
  - apply scopes_wanted_spec in Hw as (Hnd & He & _ & ->). destruct (scopes_left _ actual) as [r'|] eqn:Hl.
    + apply scopes_left_spec in Hl as (Hnda & Hsub & ->). case_bool_decide as Hemp.
      * split; [|done]. intros _. split_and!; try done. apply NoDup_Permutation; try done. intros s. split; [intros Hs; specialize (Hsub _ Hs); set_solver|set_solver].
      * split; [done|]. intros (_ & _ & Hp). destruct Hemp. apply set_eq. intros s. rewrite elem_of_difference, elem_of_union, !elem_of_list_to_set, Hp. set_solver.
    + split; [done|]. intros (_ & _ & Hp). assert (Hs : is_Some (scopes_left (list_to_set expected ∪ ∅) actual)); [|rewrite Hl in Hs; by destruct Hs].
      eexists. apply scopes_left_spec. split_and!; [by rewrite Hp| |reflexivity]. intros s. rewrite Hp. set_solver.
  - split; [done|]. intros (Hnd & He & _). assert (Hs : is_Some (scopes_wanted ∅ expected)); [|rewrite Hw in Hs; by destruct Hs]. eexists. apply scopes_wanted_spec.
    split_and!; [done|done|set_solver|reflexivity].
Qed.

(** ** Signed tokens *)

Lemma char_of_dot n : Ascii.eqb (base64.char_of n) "." = false.
Proof.
  assert (Hall : forallb (λ n, negb (Ascii.eqb (base64.char_of n) ".")) (N.of_nat <$> seq 0 64) = true) by reflexivity. rewrite forallb_forall in Hall.
  destruct (decide (n < 64)%N) as [Hn|Hn].
  - apply negb_true_iff, Hall, list_elem_of_In, list_elem_of_fmap. exists (N.to_nat n). rewrite elem_of_seq. split; lia.
  - unfold base64.char_of. rewrite !(proj2 (N.ltb_ge _ _)), (proj2 (N.eqb_neq _ _)) by lia. done.
Qed.

Lemma Encode_free s : strings.free_of "." (base64.EncodeToString s) = true.
Proof.
  induction s as [|a|a b|a b c s IH] using base64.three_bytes; cbn [base64.EncodeToString base64.put foldr strings.free_of]; rewrite ?char_of_dot; by rewrite ?IH.
Qed.

Lemma Split_one p c : strings.free_of c p = true → str.Split p c = [p].
Proof. induction p as [|d p IH]; simpl; [done|]. destruct (Ascii.eqb d c); [done|]. intros Hp. by rewrite IH. Qed.

Lemma Split_app p c rest : strings.free_of c p = true → str.Split (p +:+ String c rest) c = p :: str.Split rest c.
Proof.
  induction p as [|d p IH]; simpl; [by rewrite Ascii.eqb_refl|]. destruct (Ascii.eqb d c); [done|]. intros Hp. by rewrite IH.
Qed.

Lemma Encode_nonempty s : s ≠ "" → String.eqb (base64.EncodeToString s) "" = false.
Proof. destruct s as [|a [|b [|c s]]]; [done|..]; done. Qed.

Section verifier.
Context `{GoRuntime} `{JSONDecoder} `{CredentialJSON} `{Ed25519}.

(** The token is the canonical encoding of a header, a payload and a signature, and the signature is that of a known key. *)
Definition signed_by (key : string → EdgeError + string) (token : string) (h : header) (c : claims) : Prop :=
  ∃ hb pb sb k, hb ≠ "" ∧ pb ≠ "" ∧ sb ≠ "" ∧
    token = base64.EncodeToString hb +:+ "." +:+ base64.EncodeToString pb +:+ "." +:+ base64.EncodeToString sb ∧
    strictHeader hb = Some h ∧ header_ok h = true ∧ key (h_KeyID h) = inr k ∧ len k = PublicKeySize ∧
    ed25519_Verify k (base64.EncodeToString hb +:+ "." +:+ base64.EncodeToString pb) sb = true ∧ strictClaims pb = Some c.

Lemma check_signed_iff key token h c : check_signed key token = inr (h, c) ↔ signed_by key token h c.
Proof.
  unfold check_signed, signed_by. split.
  - destruct (str.Split token ".") as [|p0 [|p1 [|p2 [|]]]] eqn:Hs; try done. assert (Htok : token = p0 +:+ "." +:+ p1 +:+ "." +:+ p2) by (rewrite <-(Join_Split token "."), Hs; done).
    destruct (String.eqb_spec p0 ""), (String.eqb_spec p1 ""), (String.eqb_spec p2 ""); cbn [orb]; try done.
    destruct (decodeCredentialSegment p0) as [hb|] eqn:E0; [|done]. destruct (strictHeader hb) as [h'|] eqn:Eh; [|done]. destruct (header_ok h') eqn:Hh; cbn [negb]; [|done].
    destruct (key (h_KeyID h')) as [|k] eqn:Ek; [done|]. destruct (Z.eqb_spec (len k) PublicKeySize); cbn [negb]; [|done]. destruct (decodeCredentialSegment p2) as [sb|] eqn:E2; [|done].
    destruct (ed25519_Verify k _ sb) eqn:Ev; cbn [negb]; [|done]. destruct (decodeCredentialSegment p1) as [pb|] eqn:E1; [|done]. destruct (strictClaims pb) as [c'|] eqn:Ec; [|done]. intros [= -> ->].
    apply decodeCredentialSegment_iff in E0, E1, E2. subst p0 p1 p2. exists hb, pb, sb, k. split_and!; try done; by intros ->.
  - intros (hb & pb & sb & k & Hhb & Hpb & Hsb & -> & Eh & Hh & Ek & Hk & Ev & Ec).
    assert (Hdot : ∀ s, "." +:+ s = String "." s) by done. rewrite !(Hdot (_ +:+ _)), (Hdot (base64.EncodeToString sb)), !(Split_app _ _ _ (Encode_free _)), (Split_one _ _ (Encode_free _)).
    rewrite !Encode_nonempty by done. cbn [orb]. rewrite !(proj2 (decodeCredentialSegment_iff _ _) eq_refl), Eh, Hh. cbn [negb]. rewrite Ek, (proj2 (Z.eqb_eq _ _) Hk). cbn [negb].
    rewrite Ev. cbn [negb]. by rewrite Ec.
Qed.

(** The answer of the revocations, if there are any. *)
Definition answers_revoked (revoked : option (Claims → EdgeError + bool)) (c : Claims) (r : bool) : Prop :=
  match revoked with None => r = false | Some f => f c = inr r end.

Lemma Verify_iff v key revoked now token cl : Verify v key revoked now token = inr cl ↔
  verifier_ok v = true ∧ (0 < len token ≤ maxCredentialBytes)%Z ∧ ∃ h c r, signed_by key token h c ∧ admission_claims_ok v c = true ∧
    (Unix (c_IssuedAt c) ≤ now + v_ClockSkew v)%Z ∧ (now < Unix (c_Expires c))%Z ∧ answers_revoked revoked (admission_claims h c false) r ∧ cl = admission_claims h c r.
Proof.
  assert (Hlen : (0 ≤ len token)%Z) by (unfold len; lia). unfold Verify. destruct (verifier_ok v); cbn [negb]; [|split; [done|intros (? & _); done]].
  destruct (Z.eqb_spec (len token) 0), (Z.ltb_spec maxCredentialBytes (len token)); cbn [orb]; try (split; [done|intros (_ & ? & _); lia]). split.
  - destruct (check_signed key token) as [|[h c]] eqn:Hs; [done|]. apply check_signed_iff in Hs. destruct (admission_claims_ok v c) eqn:Hc; cbn [negb]; [|done].
    destruct (time.After (Unix (c_IssuedAt c)) _) eqn:Hi; [done|]. destruct (time.After (Unix (c_Expires c)) now) eqn:He; cbn [negb]; [|done]. apply Z.ltb_ge in Hi. apply Z.ltb_lt in He.
    intros Hr. split; [done|]. split; [lia|]. destruct revoked as [f|]; [destruct (f _) as [|r] eqn:Hf; [done|]|]; injection Hr as <-; exists h, c; eexists; by split_and!.
  - intros (_ & _ & h & c & r & Hs & Hc & Hi & He & Hr & ->). apply check_signed_iff in Hs. rewrite Hs, Hc. cbn [negb]. unfold time.After. rewrite (proj2 (Z.ltb_ge _ _) Hi), (proj2 (Z.ltb_lt _ _) He).
    cbn [negb]. destruct revoked as [f|]; simpl in Hr; [by rewrite Hr|by subst r].
Qed.
End verifier.

(** ** Trust *)

Lemma lifetime_bounded c : lifetime_ok c = true → (0 ≤ c_IssuedAt c)%Z → Int64.in_range (c_Expires c) → (0 < c_Expires c - c_IssuedAt c ≤ 300)%Z.
Proof.
  unfold lifetime_ok, Int64.in_range, Int64.min_value, Int64.max_value. rewrite andb_true_iff, Z.ltb_lt, Z.leb_le. intros [Hlt Hw] Hi He.
  rewrite Int64.int64_wrap_id in Hw; [lia|]. unfold Int64.in_range, Int64.min_value, Int64.max_value. lia.
Qed.

Lemma revokedLocked_false s c : revokedLocked s c = false ↔ (cl_JTI c ∉ sn_revokedJTI s) ∧ (cl_EnvironmentID c ∉ sn_revokedEnvironment s) ∧
  (mkConnectorGeneration (cl_MachineID c) (cl_ConnectorID c) (cl_ConnectorGeneration c) ∉ sn_revokedConnector s) ∧ (cl_KeyID c ∉ sn_revokedKey s).
Proof. unfold revokedLocked. rewrite !orb_false_iff, !bool_decide_eq_false. tauto. Qed.

Section trust.
Context `{GoRuntime} `{IDNA} `{SHA256} `{AdmissionJSON} `{JSONDecoder} `{CredentialJSON} `{Ed25519}.

(** C19: a connector is admitted only with a credential that the server signed: the token is the canonical encoding of a header, a payload and a signature that verifies
    under a key which the snapshot trusted when it was read; the payload names the request's environment, machine, connector, generation, pool and node; it is
    unexpired, and lives at most 300 seconds when it was issued after 1970; and when the revocations were read they were fresh and revoked neither its identifier nor its environment,
    connector generation or key.  The two readings may see different snapshots. *)
Theorem admitted_trusted issuer now v s1 s2 now2 nowv current newRunID request j j' response :
  Admit issuer now (Verify v (key_source s1) (Some (revocation_source s2 now2)) nowv (aq_Credential request)) current newRunID request j = (j', inr response) →
  ∃ hb pb sb k h c, aq_Credential request = base64.EncodeToString hb +:+ "." +:+ base64.EncodeToString pb +:+ "." +:+ base64.EncodeToString sb ∧
    strictHeader hb = Some h ∧ sn_keys s1 !! h_KeyID h = Some k ∧ ed25519_Verify k (base64.EncodeToString hb +:+ "." +:+ base64.EncodeToString pb) sb = true ∧
    strictClaims pb = Some c ∧ c_Issuer c = v_Issuer v ∧ c_EnvironmentID c = aq_Environment request ∧ c_MachineID c = aq_Machine request ∧ c_ConnectorID c = aq_Connector request ∧
    c_ConnectorGeneration c = aq_Generation request ∧ c_EdgePool c = aq_EdgePool request ∧ c_EdgeNodeID c = aq_EdgeNode request ∧
    (nowv < Unix (c_Expires c))%Z ∧ (now < Unix (c_Expires c))%Z ∧ ((0 ≤ c_IssuedAt c)%Z → Int64.in_range (c_Expires c) → (c_Expires c - c_IssuedAt c ≤ 300)%Z) ∧
    revocationsFreshLocked s2 now2 = true ∧ (c_JTI c ∉ sn_revokedJTI s2) ∧ (c_EnvironmentID c ∉ sn_revokedEnvironment s2) ∧
    (mkConnectorGeneration (c_MachineID c) (c_ConnectorID c) (c_ConnectorGeneration c) ∉ sn_revokedConnector s2) ∧ (h_KeyID h ∉ sn_revokedKey s2).
Proof.
  intros (cl & cur & runID & o & Hv & _ & _ & [Hcl _ _] & _)%Admit_inr. apply validateClaims_None in Hcl as (_ & _ & _ & _ & _ & Hrev & Hexp & Henv & Hmach & Hcon & Hgen & Hpool & Hnode).
  apply Verify_iff in Hv as (_ & _ & h & c & r & (hb & pb & sb & k & _ & _ & _ & Htok & Hh & _ & Hk & _ & Hsig & Hc) & Hok & _ & Hvexp & Hr & ->). simpl in *. subst r.
  unfold key_source, Key in Hk. destruct (sn_keys s1 !! h_KeyID h) as [k'|] eqn:Hkey; [|done]. injection Hk as ->. unfold revocation_source, Revoked in Hr.
  destruct (revocationsFreshLocked s2 now2) eqn:Hfresh; [|done]. simpl in Hr. injection Hr as Hr. apply revokedLocked_false in Hr as (? & ? & ? & ?). simpl in *.
  unfold admission_claims_ok in Hok. rewrite !andb_true_iff in Hok. destruct_and! Hok. exists hb, pb, sb, k, h, c. split_and!; try done; [by apply String.eqb_eq|].
  intros Hi He. by apply lifetime_bounded.
Qed.
End trust.

(** ** Helper access *)

(** The scopes of each class of helper credentials. *)
Definition helper_access : list (string * string) :=
  [("browser_terminal_operation", "terminal:view"); ("browser_terminal_operation", "terminal:control"); ("browser_terminal_operation", "terminal:operate");
   ("terminal_operation", "terminal:operate"); ("file_transfer", "file:transfer"); ("inbox_list", "inbox:list"); ("inbox_read", "inbox:read"); ("inbox_delete", "inbox:delete");
   ("preview_launch", "preview:launch")].

Section helper.
Context `{GoRuntime} `{JSONDecoder} `{CredentialJSON} `{Ed25519}.

Lemma exactScopes_single l s : exactScopes l [s] = true → l = [s].
Proof. rewrite exactScopes_spec. intros (_ & _ & Hp). by apply Permutation_singleton_r in Hp. Qed.

Lemma wanted_scopes_table c want : wanted_scopes c = Some want → exactScopes (c_Scope c) want = true → ∃ s, c_Scope c = [s] ∧ (c_CredentialClass c, s) ∈ helper_access.
Proof.
  assert (Hin : ∀ cl s, existsb (λ p : string * string, String.eqb p.1 cl && String.eqb p.2 s) helper_access = true → (cl, s) ∈ helper_access).
  { intros cl s ([a b] & Hab & Heq)%existsb_exists. simpl in Heq. rewrite andb_true_iff, !String.eqb_eq in Heq. destruct Heq as [-> ->]. by apply list_elem_of_In. }
  unfold wanted_scopes. repeat match goal with |- context [String.eqb (c_CredentialClass c) ?x] => destruct (String.eqb_spec (c_CredentialClass c) x) as [->|_] end; try done.
  all: repeat match goal with |- context [if ?b then _ else _] => destruct b eqn:?; try done end; intros [= <-] Hs; apply exactScopes_single in Hs; rewrite Hs; eexists; (split; [reflexivity|]); by apply Hin.
Qed.

(** Helper access is granted only by a signed credential for a machine whose scope is the one of its class, by the table above, and which is not a connector's: no token is
    accepted both here and for the admission of a connector.  A credential for a terminal names the user it acts for, unless it is a guest's that only views or
    controls a browser terminal, and one for files names the machine they come from. *)
Theorem helper_access_sound v key revoked now token cl : VerifyHelperAccess v key revoked now token = inr cl →
  (∃ h c r, signed_by key token h c ∧ cl = helper_claims h c r ∧ answers_revoked revoked (helper_claims h c false) r ∧ c_Issuer c = v_Issuer v ∧ c_Audience c = "paperboat-machine" ∧
    (now < Unix (c_Expires c))%Z ∧ (∃ s, c_Scope c = [s] ∧ (c_CredentialClass c, s) ∈ helper_access) ∧
    (is_terminal c = true → c_ActorAccountID c ≠ "" ∧ c_ActorAccountID c = c_UserID c ∨
       is_browser c = true ∧ c_ActorAccountID c = "" ∧ (c_Scope c = ["terminal:view"] ∨ c_Scope c = ["terminal:control"])) ∧
    (c_CredentialClass c = "file_transfer" → c_SourceMachineID c ≠ "")) ∧
  ∀ v' revoked' now' cl', Verify v' key revoked' now' token ≠ inr cl'.
Proof.
  unfold VerifyHelperAccess. destruct (_ || _); [done|]. unfold verifySigned. destruct (check_signed key token) as [f|[h c]] eqn:Hs; [by destruct f|].
  destruct (wanted_scopes c) as [want|] eqn:Hw; [|done]. destruct (is_terminal c && negb (terminal_ok c)) eqn:Ht; [done|]. destruct (is_browser c && negb (browser_ok c)); [done|].
  destruct (helper_claims_ok v c want now) eqn:Hok; simpl; [|done]. unfold helper_claims_ok in Hok. rewrite !andb_true_iff in Hok. destruct_and! Hok. intros Hres. split.
  - assert (∃ r, cl = helper_claims h c r ∧ answers_revoked revoked (helper_claims h c false) r) as (r & -> & Hr).
    { destruct revoked as [f|]; [destruct (f _) as [|r] eqn:Hf; [done|]|]; injection Hres as <-; by eexists. }
    exists h, c, r. split_and!; try done.
    + by apply check_signed_iff.
    + by apply String.eqb_eq.
    + by apply String.eqb_eq.
    + by apply Z.ltb_lt.
    + by eapply wanted_scopes_table.
    + intros Hterm. rewrite Hterm in Ht. simpl in Ht. apply negb_false_iff in Ht. unfold terminal_ok, guestRead in Ht. rewrite !andb_true_iff, orb_true_iff, !andb_true_iff, orb_true_iff in Ht.
      destruct Ht as [_ [[[Hb Ha] Hscope]|[Ha Hu]]].
      * rewrite String.eqb_eq in Ha. rewrite !bool_decide_eq_true in Hscope. by right.
      * rewrite String.eqb_eq in Hu. apply negb_true_iff, String.eqb_neq in Ha. by left.
    + intros Hf Hsrc. rewrite Hf, Hsrc in *. done.
  - intros v' revoked' now' cl' (_ & _ & h' & c' & r' & Hs' & Hok' & _)%Verify_iff. apply check_signed_iff in Hs'. rewrite Hs in Hs'. injection Hs' as <- <-.
    unfold admission_claims_ok in Hok'. rewrite !andb_true_iff, !String.eqb_eq in Hok'. destruct_and! Hok'. rewrite !String.eqb_eq in *. congruence.
Qed.
End helper.
