(* ===== verification/AuthWatch.v ===== *)
(** * Waiting for a revocation: the snapshot over any sequence of calls *)
From S2P Require Import Prelude GoStd GoData GoNet GoEnc StrictJSON EdgeErr ConnProto Journal Admit AdmitSpec Auth AuthSpec.

(** What a document revokes. *)
Definition revokes (d : RevocationDocument) (c : Claims) : Prop :=
  cl_JTI c ∈ rd_JTIs d ∨ cl_EnvironmentID c ∈ rd_Environments d ∨
  mkConnectorGeneration (cl_MachineID c) (cl_ConnectorID c) (cl_ConnectorGeneration c) ∈ rd_Connectors d ∨ cl_KeyID c ∈ rd_KeyIDs d.

(** The snapshot, the documents it accepted, oldest first, the channels that Watch gave out, each with its claims and the number of documents accepted before,
    and those whose release function ran. *)
Record WatchWorld := mkWatchWorld { ww_snapshot : Snapshot; ww_docs : list RevocationDocument; ww_handed : gmap nat (Claims * nat); ww_released : gset nat }.

(** The documents that a channel has to report: the one in force when it was made, and those after it. *)
Definition concerns (docs : list RevocationDocument) (before : nat) : list RevocationDocument := drop (pred before) docs.

Section watch.
Context `{GoRuntime} `{JSONDecoder} `{CredentialJSON}.

Inductive watch_world_step : WatchWorld → WatchWorld → Prop :=
  | ws_jwks s docs handed released data : watch_world_step (mkWatchWorld s docs handed released) (mkWatchWorld (ReplaceJWKS s data).1 docs handed released)
  | ws_configure s docs handed released maxAge : watch_world_step (mkWatchWorld s docs handed released) (mkWatchWorld (ConfigureRevocationFreshness s maxAge) docs handed released)
  | ws_accepted s docs handed released now data d s' : Decode decode_revocations data maxSnapshotJSONDepth = Some d → ReplaceRevocations s now data = (s', None) →
      watch_world_step (mkWatchWorld s docs handed released) (mkWatchWorld s' (docs ++ [d]) handed released)
  | ws_refused s docs handed released now data s' e : ReplaceRevocations s now data = (s', Some e) →
      watch_world_step (mkWatchWorld s docs handed released) (mkWatchWorld s' docs handed released)
  | ws_watch s docs handed released now c s' id : Watch s now c = (s', inr id) →
      watch_world_step (mkWatchWorld s docs handed released) (mkWatchWorld s' docs (<[id := (c, length docs)]> handed) released)
  | ws_watch_refused s docs handed released now c s' e : Watch s now c = (s', inl e) →
      watch_world_step (mkWatchWorld s docs handed released) (mkWatchWorld s' docs handed released)
  | ws_release s docs handed released id : is_Some (handed !! id) →
      watch_world_step (mkWatchWorld s docs handed released) (mkWatchWorld (release s id) docs handed ({[id]} ∪ released)).

Definition watch_world_reach (w : WatchWorld) : Prop := rtc watch_world_step (mkWatchWorld NewSnapshot [] ∅ ∅) w.

(** ** Bounds of the keys *)

Definition keys_ok (m : gmap string string) : Prop := (size m ≤ 128)%nat ∧ ∀ id k, m !! id = Some k → id ≠ "" ∧ (len id ≤ 128)%Z ∧ len k = PublicKeySize.

Lemma add_keys_ok items m m' : add_keys m items = Some m' → (∀ id k, m !! id = Some k → id ≠ "" ∧ (len id ≤ 128)%Z ∧ len k = PublicKeySize) →
  (size m' ≤ size m + length items)%nat ∧ ∀ id k, m' !! id = Some k → id ≠ "" ∧ (len id ≤ 128)%Z ∧ len k = PublicKeySize.
Proof.
  revert m. induction items as [|item items IH]; intros m; simpl; [intros [= <-] Hm; split; [lia|done]|]. destruct (add_key m item) as [m1|] eqn:Ha; simpl; [|done].
  intros Hadd Hm. unfold add_key in Ha. destruct (_ || _) eqn:Hc; [done|]. rewrite !orb_false_iff, Z.ltb_ge, String.eqb_neq in Hc. destruct Hc as [[_ Hid] Hlen].
  destruct (DecodeString_any _) as [raw|]; [|done]. destruct (_ || _) eqn:Hr; [done|]. rewrite !orb_false_iff, negb_false_iff, Z.eqb_eq in Hr. destruct Hr as [[Hraw _] _]. injection Ha as <-.
  destruct (IH _ Hadd) as [Hsize Hall].
  - intros id k. rewrite lookup_insert_Some. intros [[<- <-]|[_ ?]]; [done|by apply Hm].
  - split; [|done]. rewrite map_size_insert in Hsize. destruct (m !! k_KeyID item); simpl in Hsize; lia.
Qed.

Lemma foldl_delete_subseteq (l : list string) (m : gmap string string) : foldl (λ m id, delete id m) m l ⊆ m.
Proof. revert m. induction l as [|id l IH]; intros m; simpl; [done|]. etrans; [apply IH|apply delete_subseteq]. Qed.

Lemma ReplaceJWKS_fields s data : let s' := (ReplaceJWKS s data).1 in
  sn_revokedJTI s' = sn_revokedJTI s ∧ sn_revokedEnvironment s' = sn_revokedEnvironment s ∧ sn_revokedKey s' = sn_revokedKey s ∧ sn_revokedConnector s' = sn_revokedConnector s ∧
  sn_watchers s' = sn_watchers s ∧ sn_closed s' = sn_closed s ∧ sn_next s' = sn_next s ∧ (keys_ok (sn_keys s) → keys_ok (sn_keys s')).
Proof.
  unfold ReplaceJWKS. destruct (_ || _); [by simpl; split_and!; auto|]. destruct (Decode _ _ _) as [d|]; [|by simpl; split_and!; auto]. destruct ((length (jw_Keys d) =? 0)%nat || _) eqn:Hl; [by simpl; split_and!; auto|].
  destruct (add_keys ∅ (jw_Keys d)) as [next|] eqn:Ha; [|by simpl; split_and!; auto]. destruct ((128 <? length (jw_WithdrawnKeyIDs d))%nat || _); [by simpl; split_and!; auto|]. destruct (size _ =? 0)%nat; [by simpl; split_and!; auto|]. simpl. split_and!; try done. intros _. rewrite !orb_false_iff, Nat.ltb_ge in Hl.
  destruct (add_keys_ok _ _ _ Ha) as [Hsize Hall]; [by intros id k; rewrite lookup_empty|]. rewrite map_size_empty in Hsize.
  pose proof (foldl_delete_subseteq (jw_WithdrawnKeyIDs d) next) as Hsub. split; [|intros id k Hk; apply Hall; by eapply lookup_weaken].
  apply map_subseteq_size in Hsub. lia.
Qed.

(** ** The loop over the watchers *)

Lemma close_revoked_spec s : let s' := close_revoked s in
  sn_keys s' = sn_keys s ∧ sn_revokedJTI s' = sn_revokedJTI s ∧ sn_revokedEnvironment s' = sn_revokedEnvironment s ∧ sn_revokedKey s' = sn_revokedKey s ∧
  sn_revokedConnector s' = sn_revokedConnector s ∧ sn_next s' = sn_next s ∧
  (∀ id c, sn_watchers s' !! id = Some c ↔ sn_watchers s !! id = Some c ∧ revokedLocked s c = false) ∧
  ∀ id, id ∈ sn_closed s' ↔ id ∈ sn_closed s ∨ ∃ c, sn_watchers s !! id = Some c ∧ revokedLocked s c = true.
Proof.
  unfold close_revoked. assert (Hgen : ∀ l s0, (∀ c, revokedLocked s0 c = revokedLocked s c) →
    let s' := foldl (λ s (w : nat * Claims), if revokedLocked s w.2 then set_watchers s (delete w.1 (sn_watchers s)) ({[w.1]} ∪ sn_closed s) (sn_next s) else s) s0 l in
    sn_keys s' = sn_keys s0 ∧ sn_revokedJTI s' = sn_revokedJTI s0 ∧ sn_revokedEnvironment s' = sn_revokedEnvironment s0 ∧ sn_revokedKey s' = sn_revokedKey s0 ∧
    sn_revokedConnector s' = sn_revokedConnector s0 ∧ sn_next s' = sn_next s0 ∧
    (∀ id c, sn_watchers s' !! id = Some c ↔ sn_watchers s0 !! id = Some c ∧ ∀ c', (id, c') ∈ l → revokedLocked s c' = false) ∧
    ∀ id, id ∈ sn_closed s' ↔ id ∈ sn_closed s0 ∨ ∃ c, (id, c) ∈ l ∧ revokedLocked s c = true).
  { induction l as [|[i c0] l IH]; intros s0 Hs0; simpl.
    - split_and!; try done; intros; [split; [intros ?; split; [done|by intros c' ?%not_elem_of_nil]|by intros [? _]]|split; [by left|intros [?|(c & ?%not_elem_of_nil & _)]; done]].
    - rewrite Hs0. destruct (revokedLocked s c0) eqn:Hr.
      + destruct (IH (set_watchers s0 (delete i (sn_watchers s0)) ({[i]} ∪ sn_closed s0) (sn_next s0)) Hs0) as (? & ? & ? & ? & ? & ? & Hw & Hc). split_and!; try done; intros id.
        * intros c. rewrite Hw. simpl. rewrite lookup_delete_Some. split.
          -- intros [[Hne ?] Hl]. split; [done|]. intros c'. rewrite elem_of_cons. intros [[= -> ->]|?]; [done|by apply Hl].
          -- intros [? Hl]. split; [split; [|done]|].
             ++ intros ->. specialize (Hl c0 (list_elem_of_here _ _)). congruence.
             ++ intros c' Hin. apply Hl. by right.
        * rewrite Hc. simpl. rewrite elem_of_union, elem_of_singleton. setoid_rewrite elem_of_cons. split.
          -- intros [[->|?]|(c & ? & ?)]; [right; exists c0; split; [by left|done]|by left|right; exists c; split; [by right|done]].
          -- intros [?|(c & [[= -> ->]|?] & ?)]; [left; by right|left; by left|right; by exists c].
      + destruct (IH s0 Hs0) as (? & ? & ? & ? & ? & ? & Hw & Hc). split_and!; try done; intros id.
        * intros c. rewrite Hw. setoid_rewrite elem_of_cons. split.
          -- intros [? Hl]. split; [done|]. intros c' [[= -> ->]|?]; [done|by apply Hl].
          -- intros [? Hl]. split; [done|]. intros c' ?. apply Hl. by right.
        * rewrite Hc. setoid_rewrite elem_of_cons. split.
          -- intros [?|(c & ? & ?)]; [by left|right; exists c; split; [by right|done]].
          -- intros [?|(c & [[= -> ->]|?] & ?)]; [by left|congruence|right; by exists c]. }
  destruct (Hgen (range 56 (sn_watchers s)) s (λ _, eq_refl)) as (? & ? & ? & ? & ? & ? & Hw & Hc). split_and!; try done; intros id.
  - intros c. rewrite Hw. setoid_rewrite elem_of_range. split; [intros [? Hl]; split; [done|by apply Hl]|]. intros [Hk Hr]. split; [done|]. intros c' Hk'. congruence.
  - rewrite Hc. by setoid_rewrite elem_of_range.
Qed.

(** The snapshot holds the last document that was accepted. *)
Definition in_force (s : Snapshot) (docs : list RevocationDocument) : Prop := ∀ c, revokedLocked s c = true ↔ ∃ d, last docs = Some d ∧ revokes d c.

Lemma revokedLocked_sets keys d maxAge at_ w closed next c :
  revokedLocked (mkSnapshot keys (list_to_set (rd_JTIs d)) (list_to_set (rd_Environments d)) (list_to_set (rd_KeyIDs d)) (list_to_set (rd_Connectors d)) maxAge at_ w closed next) c = true ↔
  revokes d c.
Proof. unfold revokedLocked, revokes. simpl. rewrite !orb_true_iff, !bool_decide_eq_true, !elem_of_list_to_set. tauto. Qed.

(** ** The invariant *)

Record watch_ok (w : WatchWorld) : Prop := {
  wo_force : in_force (ww_snapshot w) (ww_docs w);
  wo_keys : keys_ok (sn_keys (ww_snapshot w));
  wo_size : (Z.of_nat (size (sn_watchers (ww_snapshot w))) ≤ maximumRevocationWatchers)%Z;
  wo_next : ∀ id, (sn_next (ww_snapshot w) ≤ id)%nat → ww_handed w !! id = None ∧ sn_watchers (ww_snapshot w) !! id = None ∧ (id ∉ sn_closed (ww_snapshot w)) ∧ id ∉ ww_released w;
  wo_before : ∀ id c n, ww_handed w !! id = Some (c, n) → (n ≤ length (ww_docs w))%nat;
  wo_open : ∀ id c, sn_watchers (ww_snapshot w) !! id = Some c → (id ∉ sn_closed (ww_snapshot w)) ∧ (id ∉ ww_released w) ∧
    ∃ n, ww_handed w !! id = Some (c, n) ∧ ∀ d, d ∈ concerns (ww_docs w) n → ¬ revokes d c;
  wo_closed : ∀ id, id ∈ sn_closed (ww_snapshot w) → ∃ c n d, ww_handed w !! id = Some (c, n) ∧ d ∈ concerns (ww_docs w) n ∧ revokes d c;
  wo_handed : ∀ id c n, ww_handed w !! id = Some (c, n) → is_Some (sn_watchers (ww_snapshot w) !! id) ∨ id ∈ sn_closed (ww_snapshot w) ∨ id ∈ ww_released w;
}.

(** The documents that concern a channel, when another one is accepted. *)
Lemma concerns_snoc docs d n : (n ≤ length docs)%nat → concerns (docs ++ [d]) n = concerns docs n ++ [d].
Proof. intros Hn. unfold concerns. apply drop_app_le. lia. Qed.

Lemma concerns_length docs d : d ∈ concerns docs (length docs) → last docs = Some d.
Proof.
  unfold concerns. destruct docs as [|x docs _] using rev_ind; [by intros ?%not_elem_of_nil|]. rewrite length_app, Nat.add_comm. simpl. rewrite drop_app_length, last_snoc.
  by intros ->%list_elem_of_singleton.
Qed.

Lemma concerns_last docs d : last docs = Some d → d ∈ concerns docs (length docs).
Proof.
  unfold concerns. destruct docs as [|x docs _] using rev_ind; [done|]. rewrite last_snoc. intros [= ->]. rewrite length_app, Nat.add_comm. simpl. rewrite drop_app_length. left.
Qed.

(** A step that leaves the revocations and the watchers alone. *)
Lemma watch_ok_same s s' docs handed released : watch_ok (mkWatchWorld s docs handed released) → (∀ c, revokedLocked s' c = revokedLocked s c) → keys_ok (sn_keys s') →
  sn_watchers s' = sn_watchers s → sn_closed s' = sn_closed s → sn_next s' = sn_next s → watch_ok (mkWatchWorld s' docs handed released).
Proof.
  intros [Hf Hk Hsz Hn Hb Ho Hc Hh] Hr Hk' Hw Hcl Hnx. simpl in *. split; simpl; rewrite ?Hw, ?Hcl, ?Hnx; try done. intros c. by rewrite Hr.
Qed.

Lemma accepted_ok s docs handed released now data d s' : Decode decode_revocations data maxSnapshotJSONDepth = Some d → ReplaceRevocations s now data = (s', None) →
  watch_ok (mkWatchWorld s docs handed released) → watch_ok (mkWatchWorld s' (docs ++ [d]) handed released).
Proof.
  intros Hd Hrep [Hf Hk Hsz Hn Hb Ho Hc Hh]. simpl in *. unfold ReplaceRevocations in Hrep. destruct (_ || _) in Hrep; [done|]. rewrite Hd in Hrep. destruct (_ || _) in Hrep; [done|].
  set (s1 := mkSnapshot _ _ _ _ _ _ _ _ _ _) in Hrep. injection Hrep as <-. destruct (close_revoked_spec s1) as (Ek & E1 & E2 & E3 & E4 & En & Hw & Hcl).
  assert (Hrev : ∀ c, revokedLocked s1 c = true ↔ revokes d c) by (intros c; apply revokedLocked_sets). set (s2 := close_revoked s1) in *.
  assert (Hrev2 : ∀ c, revokedLocked s2 c = revokedLocked s1 c) by (intros c; unfold revokedLocked; by rewrite E1, E2, E3, E4). change (sn_watchers s1) with (sn_watchers s) in Hw, Hcl.
  change (sn_closed s1) with (sn_closed s) in Hcl. split; simpl.
  - intros c. rewrite Hrev2, Hrev, last_snoc. split; [intros ?; by exists d|by intros (d' & [= ->] & ?)].
  - by rewrite Ek.
  - assert (Hsub : sn_watchers s2 ⊆ sn_watchers s) by (apply map_subseteq_spec; intros id c Hid; by apply Hw in Hid as [? _]). apply map_subseteq_size in Hsub. lia.
  - intros id. rewrite En. intros Hid. destruct (Hn id Hid) as (? & Hnw & Hnc & ?). split_and!; [done| | |done].
    + destruct (sn_watchers s2 !! id) as [c|] eqn:E; [|done]. apply Hw in E as [E _]. congruence.
    + rewrite Hcl. intros [?|(c & E & _)]; [done|congruence].
  - intros id c n Hid. rewrite length_app. simpl. specialize (Hb _ _ _ Hid). lia.
  - intros id c [Hid Hr]%Hw. destruct (Ho _ _ Hid) as (? & ? & n & Hn' & Hall). split_and!; [|done|].
    + rewrite Hcl. intros [?|(c' & E & Ht)]; [done|congruence].
    + exists n. split; [done|]. intros d'. rewrite concerns_snoc by (by eapply Hb). rewrite elem_of_app, list_elem_of_singleton. intros [?| ->]; [by apply Hall|]. rewrite <-Hrev. congruence.
  - intros id [Hid|(c & Hid & Hr)]%Hcl.
    + destruct (Hc _ Hid) as (c & n & d' & Hid' & Hin & Hr'). exists c, n, d'. split_and!; try done. rewrite concerns_snoc by (by eapply Hb). apply elem_of_app. by left.
    + destruct (Ho _ _ Hid) as (_ & _ & n & Hn' & _). exists c, n, d. split_and!; [done| |by apply Hrev]. rewrite concerns_snoc by (by eapply Hb). apply elem_of_app. right. left.
  - intros id c n Hid. destruct (Hh _ _ _ Hid) as [[c' Hw']|[?|?]]; [|right; left; rewrite Hcl; by left|by right; right]. destruct (revokedLocked s1 c') eqn:Hr.
    + right. left. rewrite Hcl. right. by exists c'.
    + left. exists c'. by apply Hw.
Qed.

Lemma watch_ok_watch s docs handed released now c s' id : Watch s now c = (s', inr id) →
  watch_ok (mkWatchWorld s docs handed released) → watch_ok (mkWatchWorld s' docs (<[id := (c, length docs)]> handed) released).
Proof.
  intros Hwatch [Hf Hk Hsz Hn Hb Ho Hc Hh]. simpl in *. unfold Watch in Hwatch. destruct (_ || _) in Hwatch; [done|]. destruct (negb _); [done|].
  destruct (Hn (sn_next s) (le_n _)) as (Hfresh & Hwf & Hcf & Hrf). assert (Hother : ∀ i, is_Some (handed !! i) → i ≠ sn_next s) by (intros i [? Hi] ->; congruence).
  destruct (revokedLocked s c) eqn:Hr.
  - injection Hwatch as <- <-. destruct (proj1 (Hf c) Hr) as (d & Hlast & Hd). split; simpl; try done.
    + intros i Hi. destruct (Hn i) as (? & ? & ? & ?); [lia|]. rewrite lookup_insert_ne by lia. split_and!; try done. rewrite elem_of_union, elem_of_singleton. intros [->|?]; [lia|done].
    + intros i c' n. rewrite lookup_insert_Some. intros [[_ [= _ <-]]|[_ ?]]; [done|by eapply Hb].
    + intros i c' Hi. destruct (Ho _ _ Hi) as (Hni & ? & n & Hin & ?). rewrite elem_of_union, elem_of_singleton. split_and!; [|done|].
      * intros [->|?]; [congruence|done].
      * exists n. rewrite lookup_insert_ne by (intros <-; congruence). done.
    + intros i. rewrite elem_of_union, elem_of_singleton. intros [->|Hi].
      * exists c, (length docs), d. rewrite lookup_insert_eq. split_and!; [done|by apply concerns_last|done].
      * destruct (Hc _ Hi) as (c' & n & d' & Hin & ? & ?). exists c', n, d'. rewrite lookup_insert_ne by (intros <-; congruence). done.
    + intros i c' n. rewrite lookup_insert_Some, elem_of_union, elem_of_singleton. intros [[<- _]|[_ Hi]]; [right; left; by left|].
      destruct (Hh _ _ _ Hi) as [?|[?|?]]; [by left|right; left; by right|by right; right].
  - destruct (Z.leb_spec maximumRevocationWatchers (Z.of_nat (size (sn_watchers s)))) as [|Hlt]; [done|]. injection Hwatch as <- <-. split; simpl; try done.
    + rewrite map_size_insert_None by done. lia.
    + intros i Hi. destruct (Hn i) as (? & ? & ? & ?); [lia|]. rewrite !lookup_insert_ne by lia. by split_and!.
    + intros i c' n. rewrite lookup_insert_Some. intros [[_ [= _ <-]]|[_ ?]]; [done|by eapply Hb].
    + intros i c'. rewrite lookup_insert_Some. intros [[<- <-]|[Hne Hi]].
      * split_and!; [done|done|]; exists (length docs); rewrite lookup_insert_eq; split; [done|]; intros d Hd%concerns_length Hrd; assert (revokedLocked s c = true) by (apply Hf; by exists d); congruence.
      * destruct (Ho _ _ Hi) as (? & ? & n & Hin & ?). split_and!; [done|done|]. exists n. by rewrite lookup_insert_ne by done.
    + intros i Hi. destruct (Hc _ Hi) as (c' & n & d' & Hin & ? & ?). exists c', n, d'. rewrite lookup_insert_ne by (intros <-; congruence). done.
    + intros i c' n. rewrite lookup_insert_Some. intros [[<- _]|[Hne Hi]]; [left; rewrite lookup_insert_eq; by eexists|].
      destruct (Hh _ _ _ Hi) as [?|[?|?]]; [left; by rewrite lookup_insert_ne by done|by right; left|by right; right].
Qed.

Lemma release_ok s docs handed released id : is_Some (handed !! id) → watch_ok (mkWatchWorld s docs handed released) → watch_ok (mkWatchWorld (release s id) docs handed ({[id]} ∪ released)).
Proof.
  intros [x Hid] [Hf Hk Hsz Hn Hb Ho Hc Hh]. simpl in *. split; simpl; try done.
  - assert (Hsub : delete id (sn_watchers s) ⊆ sn_watchers s) by apply delete_subseteq. apply map_subseteq_size in Hsub. lia.
  - intros i Hi. destruct (Hn i Hi) as (? & ? & ? & ?). split_and!; try done; [by rewrite lookup_delete_None; right|]. rewrite elem_of_union, elem_of_singleton. intros [->|?]; [congruence|done].
  - intros i c. rewrite lookup_delete_Some. intros [Hne Hi]. destruct (Ho _ _ Hi) as (? & ? & ?). split_and!; try done. rewrite elem_of_union, elem_of_singleton. by intros [->|?].
  - intros i c n Hi. rewrite elem_of_union, elem_of_singleton. destruct (decide (i = id)) as [->|Hne]; [right; right; by left|].
    destruct (Hh _ _ _ Hi) as [?|[?|?]]; [left; by rewrite lookup_delete_ne by done|by right; left|right; right; by right].
Qed.

Lemma Watch_refused s now c s' e : Watch s now c = (s', inl e) → s' = s.
Proof.
  unfold Watch. destruct (_ || _); [by intros [= <- _]|]. destruct (negb _); [by intros [= <- _]|]. destruct (revokedLocked s c); [done|]. destruct (_ <=? _)%Z; [by intros [= <- _]|done].
Qed.

Lemma ReplaceRevocations_refused s now data s' e : ReplaceRevocations s now data = (s', Some e) → s' = s.
Proof. unfold ReplaceRevocations. destruct (_ || _); [by intros [= <- _]|]. destruct (Decode _ _ _) as [d|]; [|by intros [= <- _]]. by destruct (_ || _); intros [= <- _]. Qed.

Lemma watch_world_reach_ok w : watch_world_reach w → watch_ok w.
Proof.
  unfold watch_world_reach. assert (Hok : watch_ok (mkWatchWorld NewSnapshot [] ∅ ∅)).
  { split; simpl; try done; try (intros *; by rewrite lookup_empty).
    - intros c. unfold revokedLocked. simpl. split; [|by intros (d & ? & _)]. rewrite !orb_true_iff, !bool_decide_eq_true, !elem_of_empty. tauto.
    - split; [vm_compute; lia|]. intros id k. by rewrite lookup_empty. }
  revert Hok. generalize (mkWatchWorld NewSnapshot [] ∅ ∅). intros w0 Hok Hsteps. induction Hsteps as [|w0 w1 w2 Hstep _ IH]; [done|]. apply IH.
  destruct Hstep as [s docs h r data|s docs h r maxAge|s docs h r now data d s' Hd Hr|s docs h r now data s' e Hr|s docs h r now c s' id Hw|s docs h r now c s' e Hw|s docs h r id Hid].
  - destruct (ReplaceJWKS_fields s data) as (E1 & E2 & E3 & E4 & E5 & E6 & E7 & Hk). eapply watch_ok_same; [exact Hok| |by apply Hk, Hok|done..].
    intros c. unfold revokedLocked. by rewrite E1, E2, E3, E4.
  - eapply watch_ok_same; [exact Hok|done|apply Hok|done..].
  - by eapply accepted_ok.
  - by apply ReplaceRevocations_refused in Hr as ->.
  - by eapply watch_ok_watch.
  - by apply Watch_refused in Hw as ->.
  - by apply release_ok.
Qed.

(** C20: whoever watches a credential is told of its revocation, and only then: over any calls of the snapshot, a channel that Watch gave out and that was not released is
    closed exactly when the document that was in force when it was made, or one that was accepted later, revokes the credential's identifier, environment, connector generation or key.
    Meanwhile the keys are at most 128, each under a short name and of the right length, and the watchers at most 8192. *)
Theorem revocation_watched w id c n : watch_world_reach w → ww_handed w !! id = Some (c, n) → id ∉ ww_released w →
  (id ∈ sn_closed (ww_snapshot w) ↔ ∃ d, d ∈ concerns (ww_docs w) n ∧ revokes d c) ∧ keys_ok (sn_keys (ww_snapshot w)) ∧
  (Z.of_nat (size (sn_watchers (ww_snapshot w))) ≤ maximumRevocationWatchers)%Z.
Proof.
  intros Hw%watch_world_reach_ok Hid Hrel. split_and!; [|apply Hw..]. split.
  - intros Hc. destruct (wo_closed _ Hw _ Hc) as (c' & n' & d & Hid' & ? & ?). assert (c' = c ∧ n' = n) as [-> ->] by (split; congruence). by exists d.
  - intros (d & Hd & Hr). destruct (wo_handed _ Hw _ _ _ Hid) as [[c' Ho]|[?|?]]; [|done|done]. destruct (wo_open _ Hw _ _ Ho) as (_ & _ & n' & Hid' & Hall).
    assert (c' = c ∧ n' = n) as [-> ->] by (split; congruence). by destruct (Hall d Hd).
Qed.
End watch.

(** ** Examples *)

Definition ex_policy : fileTransferPolicy := mkFileTransferPolicy "1" 10 1 10 1 60 60 10.

(** The claims of a connector's credential, with its times. *)
Definition ex_claims (issuedAt expires : Z) : claims :=
  mkCredentialClaims "" "" "" "" "" 0 "issuer" "paperboat-edge" "sub" "jti1" issuedAt expires ["connector:admit"] "connector_admission" "env" "machine" 1 "" "" "connector" 3 "pool" "node"
    (base64.EncodeToString (pad 32 "route")) (Some ex_policy) "" "" "" "" "" 0.
Definition ex_helper : claims :=
  mkCredentialClaims "workspace" "user" "" "" "" 0 "issuer" "paperboat-machine" "sub" "jti2" 1000 1200 ["terminal:operate"] "terminal_operation" "env" "machine" 1 "" "" "" 0 "" ""
    "" None "" "user" "cli" "session" "" 0.
Definition ex_documents : RevocationDocument := mkRevocations ["jti1"] [] [] [].

Definition eval_credentials : CredentialJSON := {|
  decode_header s := if String.eqb s "h" then Some (mkHeader "EdDSA" "key-1" "paperboat-credential+jwt", true) else None;
  decode_claims s := if String.eqb s "a" then Some (ex_claims 1000 1200, true) else if String.eqb s "w" then Some (ex_claims (-2 ^ 63) (2 ^ 62), true)
                     else if String.eqb s "t" then Some (ex_helper, true) else None;
  decode_jwks s := Some (mkJwks [mkJwk "OKP" "Ed25519" "sig" "EdDSA" "key-1" (base64.EncodeToString (pad 32 "k"))] [], true);
  decode_revocations s := if String.eqb s "r" then Some (ex_documents, true) else Some (mkRevocations [] [] [] [], true);
|}.
Definition eval_decoder : JSONDecoder := {| json_tokens s := ([TScalar], true) |}.
Definition eval_signatures : Ed25519 := {| ed25519_Verify k m s := String.eqb s "sig" |}.

#[local] Existing Instances eval_runtime eval_idna eval_sha256 eval_json eval_credentials eval_decoder eval_signatures.

Definition ex_verifier : Verifier := mkVerifier "issuer" "node" (30 * time.Second).
Definition ex_token (payload : string) : string := base64.EncodeToString "h" +:+ "." +:+ base64.EncodeToString payload +:+ "." +:+ base64.EncodeToString "sig".
Definition ex_request : AdmitRequest :=
  mkAdmitRequest "op1" (ex_token "a") "env" "machine" "connector" 3 "pool" "node" [mkRoute "r1" 1 "runtime_https_wss" "app.example.com" "proxy" "127.0.0.1" 8080].

(** Keys and an empty document of revocations; a channel for the connector's credential; then the document that revokes it. *)
Definition ex_trusting : Snapshot := (ReplaceRevocations (ReplaceJWKS NewSnapshot "keys").1 (1000 * time.Second) "none").1.
Definition ex_admission : Claims := admission_claims (mkHeader "EdDSA" "key-1" "paperboat-credential+jwt") (ex_claims 1000 1200) false.
Definition ex_watching : Snapshot := (Watch ex_trusting (1001 * time.Second) ex_admission).1.
Definition ex_revoked : Snapshot := (ReplaceRevocations ex_watching (1002 * time.Second) "r").1.

Definition ex_now : Z := (1100 * time.Second)%Z.
Definition ex_admit : Journal * (AdmitError + Response) :=
  Admit "issuer" ex_now (Verify ex_verifier (key_source ex_trusting) (Some (revocation_source ex_trusting ex_now)) ex_now (aq_Credential ex_request)) (inr (mkCurrent 3 "pool" "node" false))
    (NewRunID ex_now (inr "run")) ex_request (mkJournal 10 ∅ ∅).

Lemma admitted_trusted_witness : ∃ k, sn_keys ex_trusting !! "key-1" = Some k.
Proof.
  assert (Hok : match ex_admit.2 with inr _ => true | inl _ => false end = true) by (vm_compute; reflexivity).
  destruct ex_admit as [j' [e|resp]] eqn:Ha; [discriminate|].
  destruct (admitted_trusted _ _ _ _ _ _ _ _ _ _ _ _ _ Ha) as (hb & pb & sb & k & h & c & Htok & Hh & Hk & _). exists k.
  assert (Hkid : h_KeyID h = "key-1").
  { revert Hh. unfold strictHeader, Decode. destruct (Validate _ _); [|discriminate]. simpl. destruct (String.eqb hb "h"); [|discriminate]. intros [= <-]. reflexivity. }
  rewrite <-Hkid. exact Hk.
Defined.

Lemma helper_access_sound_witness : ∃ cl, VerifyHelperAccess ex_verifier (key_source ex_trusting) None (1100 * time.Second) (ex_token "t") = inr cl ∧
  ∀ v revoked now cl', Verify v (key_source ex_trusting) revoked now (ex_token "t") ≠ inr cl'.
Proof.
  destruct (VerifyHelperAccess ex_verifier (key_source ex_trusting) None (1100 * time.Second) (ex_token "t")) as [e|cl] eqn:Hv; [exfalso; revert Hv; vm_compute; discriminate|].
  exists cl. split; [reflexivity|]. exact (proj2 (helper_access_sound _ _ _ _ _ _ Hv)).
Defined.

Lemma ex_watch_reach : watch_world_reach (mkWatchWorld ex_revoked [mkRevocations [] [] [] []; ex_documents] (<[0%nat := (ex_admission, 1%nat)]> ∅) ∅).
Proof.
  eapply rtc_l; [apply (ws_jwks NewSnapshot [] ∅ ∅ "keys")|]. eapply rtc_l; [eapply (ws_accepted _ _ _ _ (1000 * time.Second) "none" (mkRevocations [] [] [] []) ex_trusting); reflexivity|].
  eapply rtc_l; [eapply (ws_watch _ _ _ _ (1001 * time.Second) ex_admission ex_watching 0); reflexivity|].
  eapply rtc_l; [eapply (ws_accepted _ _ _ _ (1002 * time.Second) "r" ex_documents ex_revoked); reflexivity|]. apply rtc_refl.
Qed.

Lemma revocation_watched_witness : 0%nat ∈ sn_closed ex_revoked.
Proof.
  apply (proj1 (revocation_watched _ 0%nat ex_admission 1%nat ex_watch_reach (lookup_insert_eq _ _ _) (not_elem_of_empty _))). exists ex_documents. split; [right; left|left; left].
Defined.

(** The difference of the two times of a credential is an int64: one that is issued early enough lives longer than 300 seconds. *)
Theorem lifetime_wraps : let c := ex_claims (-2 ^ 63) (2 ^ 62) in
  Verify ex_verifier (key_source ex_trusting) None (1100 * time.Second) (ex_token "w") = inr (admission_claims (mkHeader "EdDSA" "key-1" "paperboat-credential+jwt") c false) ∧
  (300 < c_Expires c - c_IssuedAt c)%Z ∧ Int64.in_range (c_Expires c) ∧ Int64.in_range (c_IssuedAt c).
Proof. vm_compute. by split_and!. Qed.
