(* ===== verification/Store.v ===== *)
(** * The state file of an edge: src/tunnel/internal/store and restoreState of cmd/paperboat-tunnel

    The journal, the counters and the queue of pending reports are saved together: written to a temporary file that is synced and renamed over the state
    file.  The file system is modelled as far as the package relies on it: a directory whose changes a crash may undo until the directory is synced, and
    files whose content a crash may replace by anything until the file is synced.  encoding/json is the class [StoreJSON]. *)
From S2P Require Import Prelude GoStd GoData GoNet GoEnc Journal Counters ReportQueue.

Definition CurrentVersion : Z := 1.
Definition maxFileBytes : Z := Z.shiftl 16 20.
Definition maxStateBytes : Z := (maxFileBytes - 1024)%Z.

Inductive StoreError := ErrCorrupt | ErrUnsafe | ErrVersion | ErrNotExist | ErrEncode | ErrIO (what : string).

Record State := mkState { st_Version : Z; st_CounterEpoch : string; st_Operations : list Record_; st_Counters : list CounterRecord; st_PendingUsage : list Report }.

Record envelope := mkEnvelope { en_Version : Z; en_Checksum : string; en_State : string }.

(** The texts that JSON carries as text; the others are bytes, which it carries in base64. *)
Definition key_texts (k : Key) : list string := [Authority k; Node k; Epoch k; Environment k; Route k; Direction k].
Definition state_plain (s : State) : bool :=
  forallb utf8.ValidString (st_CounterEpoch s :: concat ((λ r, [rc_OperationID r; rc_JTI r; rc_RequestHash r]) <$> st_Operations s)
    ++ concat ((λ c, key_texts (c_Key c)) <$> st_Counters s) ++ concat ((λ r, r_OperationID r :: key_texts (r_Key r)) <$> st_PendingUsage s)).

(** json.Marshal, which fails for times that RFC 3339 cannot express, and Decode up to the end of the input without unknown fields. *)
Class StoreJSON := {
  json_State : State → option string;
  decode_State : string → option State;
  json_Envelope : envelope → string;
  decode_Envelope : string → option envelope;
  decode_json_State : ∀ s b, json_State s = Some b → state_plain s = true → decode_State b = Some s;
  decode_json_Envelope : ∀ sum s b, json_State s = Some b → utf8.ValidString sum = true →
    decode_Envelope (json_Envelope (mkEnvelope CurrentVersion sum b)) = Some (mkEnvelope CurrentVersion sum b);
  json_Envelope_len : ∀ sum b, (len (json_Envelope (mkEnvelope CurrentVersion sum b)) ≤ len b + 6 * len sum + 128)%Z;
}.

(** ** The file system *)

(** A file: its content, whether the content is on the disk, and whether it is a regular file that only its owner can read. *)
Record inode := mkInode { in_content : string; in_synced : bool; in_private : bool }.

(** The directory as it is now comes first, then the ones a crash may bring back; file contents are found by number. *)
Record Disk := mkDisk { d_inodes : gmap nat inode; d_now : gmap string nat; d_before : list (gmap string nat) }.

Definition change_dir (d : Disk) (dir : gmap string nat) : Disk := mkDisk (d_inodes d) dir (d_now d :: d_before d).
Definition set_inode (d : Disk) (n : nat) (i : inode) : Disk := mkDisk (<[n := i]> (d_inodes d)) (d_now d) (d_before d).

(** os.CreateTemp makes a private file under a name that is not in use. *)
Definition create_temp (d : Disk) (name : string) : Disk * nat :=
  let n := fresh (dom (d_inodes d)) in (change_dir (set_inode d n (mkInode "" false true)) (<[name := n]> (d_now d)), n).
Definition write_file (d : Disk) (n : nat) (data : string) : Disk := set_inode d n (mkInode data false true).
Definition sync_file (d : Disk) (n : nat) : Disk :=
  match d_inodes d !! n with Some i => set_inode d n (mkInode (in_content i) true (in_private i)) | None => d end.
Definition rename (d : Disk) (from to : string) : Disk :=
  match d_now d !! from with Some n => change_dir d (<[to := n]> (delete from (d_now d))) | None => d end.
Definition remove (d : Disk) (name : string) : Disk := match d_now d !! name with Some _ => change_dir d (delete name (d_now d)) | None => d end.
Definition sync_dir (d : Disk) : Disk := mkDisk (d_inodes d) (d_now d) [].

(** After a crash the directory is one of those since it was last synced; a file that was not synced may hold anything. *)
Definition crash (d d' : Disk) : Prop :=
  d_before d' = [] ∧ (d_now d' = d_now d ∨ d_now d' ∈ d_before d) ∧
  ∀ n i, d_inodes d !! n = Some i → ∃ i', d_inodes d' !! n = Some i' ∧ in_private i' = in_private i ∧ (in_synced i = true → in_content i' = in_content i) ∧ in_synced i' = true.

Section store.
Context `{GoRuntime} `{SHA256} `{StoreJSON}.

Definition state_ok (s : State) : bool :=
  (st_Version s =? CurrentVersion)%Z && negb (String.eqb (st_CounterEpoch s) "") && (Z.of_nat (length (st_Operations s)) <=? 100000)%Z
  && (Z.of_nat (length (st_Counters s)) <=? 100000)%Z && (Z.of_nat (length (st_PendingUsage s)) <=? 100000)%Z.

(** How the system calls of a Save end: the name of the temporary file, and how much of the payload is written. *)
Record Answers := mkAnswers {
  an_mkdir : bool; an_create : option string; an_chmod : bool; an_written : nat; an_sync : bool; an_close : bool; an_rename : bool; an_open : bool; an_syncdir : bool;
  an_remove : bool;
}.

(** What the state is written as. *)
Definition encode_state (s : State) : StoreError + string :=
  if negb (state_ok s) then inl ErrCorrupt
  else match json_State s with
  | None => inl ErrEncode
  | Some stateBytes =>
      if (maxStateBytes <? len stateBytes)%Z then inl ErrCorrupt
      else inr (json_Envelope (mkEnvelope CurrentVersion (hex.EncodeToString (Sum256 stateBytes)) stateBytes))
  end.

(** Save: the disks that it goes through, the last one at the end, and its error.  The temporary file is removed whatever happens; after the rename there is no such name.  The directory is taken to be there: that MkdirAll makes it for a
    first save, and that a crash may lose the new directory, whose own parent is not synced, is left out. *)
Definition Save (path : string) (s : State) (a : Answers) (d : Disk) : list Disk * option StoreError :=
  if String.eqb path "" then ([d], Some ErrCorrupt)
  else match encode_state s with
  | inl e => ([d], Some e)
  | inr payload =>
      if negb (an_mkdir a) then ([d], Some (ErrIO "create edge store directory"))
      else match an_create a with
      | None => ([d], Some (ErrIO "create edge store temporary file"))
      | Some temporary =>
          let cleanup (ds : list Disk) (d : Disk) (e : option StoreError) := (ds ++ [d; if an_remove a then remove d temporary else d], e) in
          let '(d1, n) := create_temp d temporary in
          if negb (an_chmod a) then cleanup [d] d1 (Some (ErrIO "set edge store permissions"))
          else
            let d2 := write_file d1 n (String.substring 0 (an_written a) payload) in
            if negb (an_written a =? String.length payload)%nat then cleanup [d; d1] d2 (Some (ErrIO "write edge store"))
            else if negb (an_sync a) then cleanup [d; d1] d2 (Some (ErrIO "sync edge store"))
            else
              let d3 := sync_file d2 n in
              if negb (an_close a) then cleanup [d; d1; d2] d3 (Some (ErrIO "close edge store"))
              else if negb (an_rename a) then cleanup [d; d1; d2] d3 (Some (ErrIO "replace edge store"))
              else
                let d4 := rename d3 temporary path in
                if negb (an_open a) then cleanup [d; d1; d2; d3] d4 (Some (ErrIO "open edge store directory"))
                else if negb (an_syncdir a) then cleanup [d; d1; d2; d3] d4 (Some (ErrIO "sync edge store directory"))
                else cleanup [d; d1; d2; d3; d4] (sync_dir d4) None
      end
  end.

(** strictJSON: the bytes are exactly those that the value is written as. *)
Definition strict_State (data : string) : option State :=
  match decode_State data with
  | Some s => match json_State s with Some b => if String.eqb b data then Some s else None | None => None end
  | None => None
  end.
Definition strict_Envelope (data : string) : option envelope :=
  match decode_Envelope data with Some e => if String.eqb (json_Envelope e) data then Some e else None | None => None end.

(** What the bytes of a state file mean. *)
Definition decode_file (payload : string) : StoreError + State :=
  if (maxFileBytes <? len payload)%Z then inl ErrCorrupt
  else match strict_Envelope payload with
  | None => inl ErrCorrupt
  | Some wrapped =>
      if negb (en_Version wrapped =? CurrentVersion)%Z then inl ErrVersion
      else if negb (String.eqb (en_Checksum wrapped) (hex.EncodeToString (Sum256 (en_State wrapped)))) then inl ErrCorrupt
      else match strict_State (en_State wrapped) with Some s => if state_ok s then inr s else inl ErrCorrupt | None => inl ErrCorrupt end
  end.

(** Load, when the system calls do not fail. *)
Definition Load (path : string) (d : Disk) : StoreError + State :=
  match d_now d !! path with
  | None => inl ErrNotExist
  | Some n => match d_inodes d !! n with
              | None => inl ErrNotExist
              | Some i => if negb (in_private i) then inl ErrUnsafe else decode_file (in_content i)
              end
  end.

(** ** Restarting: restoreState of main.go *)

Inductive RestoreError := LoadFailed (e : StoreError) | JournalFailed (e : JournalError) | QueueFailed (e : QueueError).

Definition restore_from (saved : State) (now : Z) : RestoreError + Journal * Counters * Queue :=
  match Restore (st_Operations saved) 4096 with
  | inl e => inl (JournalFailed e)
  | inr j => match RestoreQueue (st_PendingUsage saved) 4096 (Z.shiftl 64 20) with
             | inl e => inl (QueueFailed e)
             | inr q => inr (j, RestoreCounters (st_Counters saved) now, q)
             end
  end.

Definition restoreState (path : string) (d : Disk) (now : Z) : RestoreError + Journal * Counters * Queue :=
  match Load path d with
  | inl ErrNotExist =>
      match NewJournal 4096, NewQueue 4096 (Z.shiftl 64 20) with
      | inr j, inr q => inr (j, NewCounters, q)
      | inl e, _ => inl (JournalFailed e)
      | _, inl e => inl (QueueFailed e)
      end
  | inl e => inl (LoadFailed e)
  | inr saved => restore_from saved now
  end.

(** The state that main.go saves: snapshotState. *)
Definition snapshotState (epoch : string) (j : Journal) (c : Counters) (q : Queue) : State :=
  mkState CurrentVersion epoch (Journal.Snapshot j) (Counters.Snapshot c) (QueueState q).
End store.

(** * The state of an edge survives crashes *)

(** ** Hexadecimal text is plain *)

Lemma nibble_small n : (n < 16)%N → (N_of_ascii (hex.nibble n) < 128)%N.
Proof. intros Hn. unfold hex.nibble. destruct (n <? 10)%N eqn:E; rewrite N_ascii_embedding; apply N.ltb_lt in E || apply N.ltb_ge in E; lia. Qed.

Lemma valid_small fuel l : (length l ≤ fuel)%nat → Forall (λ c, (N_of_ascii c < 128)%N) l → utf8.valid fuel l = true.
Proof.
  revert l. induction fuel as [|fuel IH]; intros [|c l] Hl Hall; simpl in *; try done; try lia. inversion_clear Hall as [|? ? Hc Hrest].
  rewrite (proj2 (N.ltb_lt _ _)) by done. apply IH; [lia|done].
Qed.

Lemma hex_small s : Forall (λ c, (N_of_ascii c < 128)%N) (str.bytes (hex.EncodeToString s)).
Proof.
  induction s as [|c s IH]; simpl; [constructor|]. pose proof (N_ascii_bounded c). repeat constructor; [apply nibble_small..|done].
  - apply N.Div0.div_lt_upper_bound; lia.
  - apply N.mod_lt. lia.
Qed.

Lemma hex_length s : String.length (hex.EncodeToString s) = (2 * String.length s)%nat.
Proof. induction s as [|c s IH]; simpl; [done|]. rewrite IH. lia. Qed.

Lemma length_bytes s : length (str.bytes s) = String.length s.
Proof. induction s; simpl; congruence. Qed.

Lemma hex_plain s : utf8.ValidString (hex.EncodeToString s) = true.
Proof. apply valid_small; [by rewrite length_bytes|apply hex_small]. Qed.

Section spec.
Context `{GoRuntime} `{SHA256} `{StoreJSON}.

(** What is written is read back. *)
Lemma decode_encoded s payload : encode_state s = inr payload → state_plain s = true → decode_file payload = inr s.
Proof.
  unfold encode_state. destruct (state_ok s) eqn:Hok; simpl; [|done]. destruct (json_State s) as [b|] eqn:Hb; [|done]. destruct (Z.ltb_spec maxStateBytes (len b)) as [|Hlen]; [done|].
  intros [= <-] Hp. unfold decode_file. set (sum := hex.EncodeToString (Sum256 b)). assert (Hsum : len sum = 64%Z) by (unfold sum, len; rewrite hex_length, Sum256_length; done).
  pose proof (json_Envelope_len sum b) as Hl. rewrite Hsum in Hl. unfold maxStateBytes in Hlen.
  rewrite (proj2 (Z.ltb_ge _ _)) by lia. unfold strict_Envelope.
  assert (Hval : utf8.ValidString sum = true) by apply hex_plain. rewrite (decode_json_Envelope _ _ _ Hb Hval), String.eqb_refl. cbn [en_Version en_Checksum en_State]. rewrite Z.eqb_refl. cbn [negb]. fold sum. rewrite String.eqb_refl. cbn [negb].
  unfold strict_State. by rewrite (decode_json_State _ _ Hb Hp), Hb, String.eqb_refl, Hok.
Qed.

(** ** What the disk holds *)

Definition dirs (d : Disk) : list (gmap string nat) := d_now d :: d_before d.

(** Wherever the state file is found, it is complete, on the disk, and one of [log]; there may be none until a save succeeded. *)
Definition store_ok (path : string) (log : list State) (acked : bool) (d : Disk) : Prop :=
  ∀ dir, dir ∈ dirs d → (dir !! path = None ∧ acked = false) ∨
    ∃ n i s, dir !! path = Some n ∧ d_inodes d !! n = Some i ∧ in_synced i = true ∧ in_private i = true ∧ s ∈ log ∧ decode_file (in_content i) = inr s.

Lemma store_ok_weaken path log log' acked d : store_ok path log acked d → log ⊆ log' → store_ok path log' acked d.
Proof. intros Hok Hsub dir Hdir. destruct (Hok dir Hdir) as [?|(n & i & s & ? & ? & ? & ? & ? & ?)]; [by left|right]. exists n, i, s. split_and!; try done. by apply Hsub. Qed.

(** Changes that leave the synced files and the name of the state file alone. *)
Lemma store_ok_quiet path log acked d d' : store_ok path log acked d →
  (∀ m i, d_inodes d !! m = Some i → in_synced i = true → d_inodes d' !! m = Some i) →
  (∀ dir, dir ∈ dirs d' → ∃ dir0, dir0 ∈ dirs d ∧ dir !! path = dir0 !! path) → store_ok path log acked d'.
Proof.
  intros Hok Hin Hdirs dir Hdir. destruct (Hdirs _ Hdir) as (dir0 & Hdir0 & ->). destruct (Hok _ Hdir0) as [?|(n & i & s & Hn & Hi & Hs & ? & ? & ?)]; [by left|right].
  exists n, i, s. split_and!; try done. by apply Hin.
Qed.

Lemma remove_ok path log acked d name : name ≠ path → store_ok path log acked d → store_ok path log acked (remove d name).
Proof.
  intros Hne Hok. unfold remove. destruct (d_now d !! name); [|done]. eapply store_ok_quiet; [exact Hok|done|]. intros dir. unfold dirs. simpl. rewrite !elem_of_cons.
  intros [->|[->|?]]; [|by eexists (d_now d); split; [left|]|by eexists dir; split; [right|]]. exists (d_now d). split; [left|]. by rewrite lookup_delete_ne.
Qed.

Lemma crash_ok path log acked d d' : crash d d' → store_ok path log acked d → store_ok path log acked d'.
Proof.
  intros (Hb & Hnow & Hin) Hok dir. unfold dirs. rewrite Hb, list_elem_of_singleton. intros ->. assert (Hd : d_now d' ∈ dirs d) by (unfold dirs; rewrite elem_of_cons; naive_solver).
  destruct (Hok _ Hd) as [?|(n & i & s & Hn & Hi & Hs & Hp & Hlog & Hc)]; [by left|right]. destruct (Hin _ _ Hi) as (i' & Hi' & Hp' & Hc' & Hs'). exists n, i', s.
  rewrite Hp', (Hc' Hs). by split_and!.
Qed.

Lemma substring_all s : String.substring 0 (String.length s) s = s.
Proof. induction s as [|c s IH]; simpl; [done|]. by rewrite IH. Qed.

(** A new file beside the state file, written in part or as a whole, and synced. *)
Lemma temporary_ok path log acked d t k payload : t ≠ path → store_ok path log acked d →
  let n := fresh (dom (d_inodes d)) in let d1 := change_dir (set_inode d n (mkInode "" false true)) (<[t := n]> (d_now d)) in
  let d2 := write_file d1 n (String.substring 0 k payload) in let d3 := sync_file d2 n in
  store_ok path log acked d1 ∧ store_ok path log acked d2 ∧
  (k = String.length payload → store_ok path log acked d3 ∧ d_inodes d3 !! n = Some (mkInode payload true true) ∧ d_now d3 = <[t := n]> (d_now d)).
Proof.
  intros Hne Hok n d1 d2 d3. assert (Hn : d_inodes d !! n = None) by (apply not_elem_of_dom, is_fresh).
  assert (Hok1 : store_ok path log acked d1).
  { eapply store_ok_quiet; [exact Hok|intros m i Hm _; simpl; rewrite lookup_insert_ne; [done|congruence]|]. intros dir. unfold dirs. simpl. rewrite !elem_of_cons.
    intros [->|[->|?]]; [|by exists (d_now d); split; [left|]|by exists dir; split; [right|]]. exists (d_now d). split; [left|]. by rewrite lookup_insert_ne. }
  assert (Hok2 : store_ok path log acked d2).
  { eapply store_ok_quiet; [exact Hok1| |by intros dir ?; exists dir]. intros m i. simpl. rewrite lookup_insert_Some. intros [[<- <-]|[Hm ?]]; [done|]. intros _. by rewrite !lookup_insert_ne. }
  split_and!; [done|done|]. intros Hk. assert (Hfile : d_inodes d2 !! n = Some (mkInode payload false true)) by (simpl; by rewrite lookup_insert_eq, Hk, substring_all).
  unfold d3, sync_file. rewrite Hfile. simpl. rewrite lookup_insert_eq. split_and!; [|done|done]. eapply store_ok_quiet; [exact Hok2| |by intros dir ?; exists dir]. intros m i Hm Hi. simpl.
  destruct (decide (m = n)) as [->|?]; [rewrite Hfile in Hm; by injection Hm as <-|]. rewrite (lookup_insert_ne _ n m) by done. exact Hm.
Qed.

(** The synced file takes the place of the state file; syncing the directory makes it the only one. *)
Lemma renamed_ok path log acked d t n payload s : store_ok path log acked d → d_inodes d !! n = Some (mkInode payload true true) → d_now d !! t = Some n → decode_file payload = inr s → s ∈ log →
  store_ok path log acked (rename d t path) ∧ store_ok path log acked (sync_dir (rename d t path)) ∧ store_ok path [s] true (sync_dir (rename d t path)).
Proof.
  intros Hok Hfile Ht Hdec Hin. unfold rename. rewrite Ht.
  assert (Hnew : ∀ (log' : list State) (acked' : bool), s ∈ log' → let dir := <[path := n]> (delete t (d_now d)) in (dir !! path = None ∧ acked' = false) ∨
    ∃ n i s, dir !! path = Some n ∧ d_inodes d !! n = Some i ∧ in_synced i = true ∧ in_private i = true ∧ s ∈ log' ∧ decode_file (in_content i) = inr s).
  { intros log' acked' Hs. right. exists n, (mkInode payload true true), s. rewrite lookup_insert_eq. by split_and!. }
  split_and!; intros dir; unfold dirs, sync_dir; simpl.
  - rewrite elem_of_cons. intros [->|Hdir]; [by apply Hnew|]. by apply Hok.
  - intros ->%list_elem_of_singleton. by apply Hnew.
  - intros ->%list_elem_of_singleton. apply Hnew. left.
Qed.

(** Every disk that a save goes through; the last one, when the save succeeds, holds only the new state. *)
Lemma Save_ok path log acked d s a ds e : state_plain s = true → (∀ t, an_create a = Some t → t ≠ path) → store_ok path log acked d →
  Save path s a d = (ds, e) → (∀ d', d' ∈ ds → store_ok path (s :: log) acked d') ∧ ∃ d', last ds = Some d' ∧ (e = None → store_ok path [s] true d').
Proof.
  intros Hplain Htemp Hok. assert (Hok0 : store_ok path (s :: log) acked d) by (eapply store_ok_weaken; [exact Hok|]; intros x ?; by right).
  assert (Hone : ∀ err, ([d], Some err) = (ds, e) → (∀ d', d' ∈ ds → store_ok path (s :: log) acked d') ∧ ∃ d', last ds = Some d' ∧ (e = None → store_ok path [s] true d')).
  { intros err [= <- <-]. split; [by intros d' ->%list_elem_of_singleton|by exists d]. }
  unfold Save. destruct (String.eqb path ""); [apply Hone|]. destruct (encode_state s) as [err|payload] eqn:Henc; [apply Hone|]. destruct (an_mkdir a); simpl; [|apply Hone].
  destruct (an_create a) as [t|]; [|apply Hone]. specialize (Htemp t eq_refl) as Hne. destruct (temporary_ok path (s :: log) acked d t (an_written a) payload Hne Hok0) as (Hok1 & Hok2 & Hok3).
  set (n := fresh (dom (d_inodes d))) in *. set (d1 := change_dir _ _) in *. set (d2 := write_file d1 n _) in *. set (d3 := sync_file d2 n) in *.
  assert (Hclean : ∀ (l : list Disk) dl err, Forall (store_ok path (s :: log) acked) (dl :: l) → (err = None → store_ok path [s] true dl) →
    (l ++ [dl; if an_remove a then remove dl t else dl], err) = (ds, e) →
    (∀ d', d' ∈ ds → store_ok path (s :: log) acked d') ∧ ∃ d', last ds = Some d' ∧ (e = None → store_ok path [s] true d')).
  { intros l dl err [Hdl Hl]%Forall_cons Herr [= <- <-]. split.
    - rewrite Forall_forall in Hl. intros d'. rewrite elem_of_app, !elem_of_cons, elem_of_nil. intros [?|[->|[->|[]]]]; [by apply Hl|done|]. destruct (an_remove a); [by apply remove_ok|done].
    - exists (if an_remove a then remove dl t else dl). rewrite last_app. simpl. split; [done|]. intros He. destruct (an_remove a); [apply remove_ok; [done|]|]; by apply Herr. }
  destruct (an_chmod a); simpl; [|by apply (Hclean [d] d1); [rewrite !Forall_cons, Forall_nil; tauto|]].
  destruct (Nat.eqb_spec (an_written a) (String.length payload)) as [Hall|]; simpl; [|by apply (Hclean [d; d1] d2); [rewrite !Forall_cons, Forall_nil; tauto|]]. destruct (Hok3 Hall) as (Hd3 & Hfile & Hnow).
  destruct (an_sync a); simpl; [|by apply (Hclean [d; d1] d2); [rewrite !Forall_cons, Forall_nil; tauto|]]. destruct (an_close a); simpl; [|by apply (Hclean [d; d1; d2] d3); [rewrite !Forall_cons, Forall_nil; tauto|]].
  destruct (an_rename a); simpl; [|by apply (Hclean [d; d1; d2] d3); [rewrite !Forall_cons, Forall_nil; tauto|]].
  destruct (renamed_ok path (s :: log) acked d3 t n payload s Hd3 Hfile) as (Hd4 & Hd5 & Hnew); [by rewrite Hnow, lookup_insert_eq|by apply decode_encoded|left|]. set (d4 := rename d3 t path) in *.
  destruct (an_open a); simpl; [|by apply (Hclean [d; d1; d2; d3] d4); [rewrite !Forall_cons, Forall_nil; tauto|]]. destruct (an_syncdir a); simpl; [|by apply (Hclean [d; d1; d2; d3] d4); [rewrite !Forall_cons, Forall_nil; tauto|]].
  apply (Hclean [d; d1; d2; d3; d4] (sync_dir d4)); [rewrite !Forall_cons, Forall_nil; tauto|done].
Qed.

(** ** Runs *)

(** What main.go saves: the epoch, the journal, the counters and the queue. *)
Record Saved := mkSaved { sv_epoch : string; sv_journal : Journal; sv_counters : Counters; sv_queue : Queue }.
Definition state_of (x : Saved) : State := snapshotState (sv_epoch x) (sv_journal x) (sv_counters x) (sv_queue x).

(** A state that can be saved and restored: the journal and the queue are as their operations leave them, with the limits of main.go. *)
Record saved_ok (x : Saved) : Prop := {
  so_plain : state_plain (state_of x) = true;
  so_journal : journal_ok (sv_journal x); so_max : maxEntries (sv_journal x) = 4096%Z;
  so_retain : ∀ k e, byOperation (sv_journal x) !! k = Some e → (0 < e_retainUntil e)%Z;
  so_queue : queue_ok (sv_queue x); so_reports : maxReports (sv_queue x) = 4096%Z; so_bytes : maxBytes (sv_queue x) = Z.shiftl 64 20;
}.

(** The disk, what was saved or attempted since the last save that succeeded, that one included, and whether one succeeded. *)
Record StoreWorld := mkStoreWorld { sw_disk : Disk; sw_log : list Saved; sw_acked : bool }.

Definition temp_ok (path : string) (a : Answers) : Prop := ∀ t, an_create a = Some t → t ≠ path.

(** A save that ends, one that a crash cuts off at any point, and a crash between saves. *)
Inductive store_step (path : string) : StoreWorld → StoreWorld → Prop :=
  | step_saved w x a ds d' : saved_ok x → temp_ok path a → Save path (state_of x) a (sw_disk w) = (ds, None) → last ds = Some d' →
      store_step path w (mkStoreWorld d' [x] true)
  | step_failed w x a ds d' e : saved_ok x → temp_ok path a → Save path (state_of x) a (sw_disk w) = (ds, Some e) → last ds = Some d' →
      store_step path w (mkStoreWorld d' (x :: sw_log w) (sw_acked w))
  | step_cut_off w x a ds e d' d'' : saved_ok x → temp_ok path a → Save path (state_of x) a (sw_disk w) = (ds, e) → d' ∈ ds → crash d' d'' →
      store_step path w (mkStoreWorld d'' (x :: sw_log w) (sw_acked w))
  | step_crash w d' : crash (sw_disk w) d' → store_step path w (mkStoreWorld d' (sw_log w) (sw_acked w)).

Definition store_reach (path : string) (w : StoreWorld) : Prop := ∃ d, d_now d !! path = None ∧ d_before d = [] ∧ rtc (store_step path) (mkStoreWorld d [] false) w.

Lemma store_reach_ok path w : store_reach path w → store_ok path (state_of <$> sw_log w) (sw_acked w) (sw_disk w) ∧ Forall saved_ok (sw_log w).
Proof.
  intros (d & Hd & Hb & Hsteps). assert (Hinit : store_ok path (state_of <$> []) false d ∧ Forall saved_ok []).
  { split; [|constructor]. intros dir. unfold dirs. rewrite Hb, list_elem_of_singleton. intros ->. by left. }
  revert Hinit. change (store_ok path (state_of <$> sw_log (mkStoreWorld d [] false)) (sw_acked (mkStoreWorld d [] false)) (sw_disk (mkStoreWorld d [] false)) ∧ Forall saved_ok (sw_log (mkStoreWorld d [] false)) →
    store_ok path (state_of <$> sw_log w) (sw_acked w) (sw_disk w) ∧ Forall saved_ok (sw_log w)).
  induction Hsteps as [|w0 w1 w2 Hstep _ IH]; [done|]. intros [Hok Hall]. apply IH. clear IH.
  destruct Hstep as [w x a ds d' Hx Ht Hs Hl|w x a ds d' e Hx Ht Hs Hl|w x a ds e d' d'' Hx Ht Hs Hin Hc|w d' Hc]; simpl.
  1-3: destruct (Save_ok path _ _ _ _ _ _ _ (so_plain _ Hx) Ht Hok Hs) as [Hds (dl & Hdl & Hlast)].
  - assert (dl = d') as -> by congruence. split; [by apply Hlast|by constructor].
  - split; [|by constructor]. apply Hds. rewrite last_Some in Hl. destruct Hl as (l & ->). apply elem_of_app. right. left.
  - split; [|by constructor]. eapply crash_ok; [exact Hc|by apply Hds].
  - split; [by eapply crash_ok|done].
Qed.

Lemma restore_saved x now : saved_ok x → restore_from (state_of x) now =
  inr (sv_journal x, RestoreCounters (Counters.Snapshot (sv_counters x)) now, mkQueue ∅ (maxReports (sv_queue x)) (maxBytes (sv_queue x)) (bytes (sv_queue x)) (pending (sv_queue x)) (order (sv_queue x))).
Proof.
  intros [Hp Hj Hm Hr Hq Hmr Hmb]. unfold restore_from. simpl.
  pose proof (snapshot_roundtrip (sv_journal x) Hj ltac:(rewrite Hm; lia) Hr) as Hjr. pose proof (queue_roundtrip (sv_queue x) Hq ltac:(rewrite Hmr; lia) ltac:(rewrite Hmb; vm_compute; congruence)) as Hqr.
  rewrite Hm in Hjr. rewrite Hmr, Hmb in *. by rewrite Hjr, Hqr.
Qed.

(** C21: an edge restarts with what it saved: whatever saves succeeded, failed or were cut off by a crash at any point, and however often, restarting restores
    exactly the journal and the queue of pending reports of the last save that succeeded, or of one attempted after it; only while no save has ever succeeded may it start empty.  In
    particular the state file is never read half-written. *)
Theorem state_survives path w now : store_reach path w →
  (∃ x, x ∈ sw_log w ∧ restoreState path (sw_disk w) now = inr (sv_journal x, RestoreCounters (Counters.Snapshot (sv_counters x)) now,
     mkQueue ∅ (maxReports (sv_queue x)) (maxBytes (sv_queue x)) (bytes (sv_queue x)) (pending (sv_queue x)) (order (sv_queue x)))) ∨
  (sw_acked w = false ∧ restoreState path (sw_disk w) now = inr (mkJournal 4096 ∅ ∅, NewCounters, mkQueue ∅ 4096 (Z.shiftl 64 20) 0 ∅ [])).
Proof.
  intros [Hok Hall]%store_reach_ok. unfold restoreState, Load. destruct (Hok (d_now (sw_disk w)) (list_elem_of_here _ _)) as [[Hn Hacked]|(n & i & s & Hn & Hi & _ & Hp & Hs & Hdec)].
  - right. by rewrite Hn.
  - left. rewrite Hn, Hi, Hp. simpl. rewrite Hdec. apply list_elem_of_fmap in Hs as (x & -> & Hx). exists x. split; [done|]. apply restore_saved. rewrite Forall_forall in Hall. by apply Hall.
Qed.
End spec.

(** ** An example *)

#[local] Instance Record_eq_dec : EqDecision Record_.
Proof. solve_decision. Defined.
#[local] Instance CounterRecord_eq_dec : EqDecision CounterRecord.
Proof. solve_decision. Defined.
#[local] Instance Report_eq_dec : EqDecision Report.
Proof. solve_decision. Defined.
#[local] Instance State_eq_dec : EqDecision State.
Proof. solve_decision. Defined.
#[local] Existing Instances eval_runtime eval_sha256.

Definition ex_saved : Saved := mkSaved "epoch" (mkJournal 4096 ∅ ∅) NewCounters (mkQueue ∅ 4096 (Z.shiftl 64 20) 0 ∅ []).

(** A JSON of one state, whose file is its checksum. *)
Definition eval_store_json : StoreJSON.
Proof.
  refine {| json_State s := if decide (s = state_of ex_saved) then Some "state" else None; decode_State b := if String.eqb b "state" then Some (state_of ex_saved) else None;
            json_Envelope e := en_Checksum e; decode_Envelope p := Some (mkEnvelope CurrentVersion p "state") |}.
  - intros s b. destruct (decide _) as [->|]; [|done]. by intros [= <-].
  - intros sum s b. destruct (decide _); [|done]. by intros [= <-].
  - intros sum b. simpl. unfold len. lia.
Defined.
#[local] Existing Instance eval_store_json.

Lemma ex_saved_ok : saved_ok ex_saved.
Proof.
  split; try done. split; simpl; try done.
  - constructor.
  - intros id. rewrite lookup_empty. split; [by intros ?%elem_of_nil|by intros [? ?]].
Qed.

(** A save that succeeds, one that a crash cuts off after the temporary file was written in part. *)
Definition ex_answers (written : nat) : Answers := mkAnswers true (Some ".edge-state-1") true written true true true true true true.
Definition ex_disk : Disk := mkDisk ∅ ∅ [].
Definition ex_saved_disk : Disk := default ex_disk (last (Save "state" (state_of ex_saved) (ex_answers 64) ex_disk).1).
Definition ex_cut : list Disk := (Save "state" (state_of ex_saved) (ex_answers 3) ex_saved_disk).1.
Definition ex_cut_disk : Disk := default ex_disk (ex_cut !! 2%nat).

(** The disk after the crash: the temporary file is there, with other bytes. *)
Definition ex_after : Disk := mkDisk ((λ i, mkInode (if in_synced i then in_content i else "junk") true (in_private i)) <$> d_inodes ex_cut_disk) (d_now ex_cut_disk) [].

Lemma ex_store_reach : store_reach "state" (mkStoreWorld ex_after [ex_saved; ex_saved] true).
Proof.
  exists ex_disk. split; [done|]. split; [done|]. eapply rtc_l; [|eapply rtc_once].
  - eapply (step_saved _ (mkStoreWorld ex_disk [] false) ex_saved (ex_answers 64)); [apply ex_saved_ok|by intros t [= <-]|vm_compute; reflexivity|vm_compute; reflexivity].
  - eapply (step_cut_off _ (mkStoreWorld ex_saved_disk [ex_saved] true) ex_saved (ex_answers 3) ex_cut _ ex_cut_disk); [apply ex_saved_ok|by intros t [= <-]|apply surjective_pairing| |].
    + apply list_elem_of_lookup. exists 2%nat. vm_compute. reflexivity.
    + split; [done|]. split; [by left|]. intros n i Hi. simpl. rewrite lookup_fmap, Hi. simpl. eexists. split; [done|]. split; [done|]. split; [by intros ->|done].
Qed.

Lemma state_survives_witness : ∃ x, x ∈ [ex_saved; ex_saved] ∧ ∃ c q, restoreState "state" ex_after 0 = inr (sv_journal x, c, q).
Proof.
  destruct (state_survives "state" _ 0 ex_store_reach) as [(x & Hx & Hr)|[Ha _]]; [|discriminate Ha]. exists x. split; [exact Hx|]. eexists _, _. exact Hr.
Defined.
