(* ===== verification/History.v ===== *)
(** * The output history of a terminal: src/cli/internal/hostruntime/history

    Output is kept as a bounded run of events with consecutive sequence numbers, and replayed from any of them.  The bytes of an event lie in a buffer that
    is counted by references and goes back to a pool when the last reference is released, so buffers, their owners and the pools are modelled as a heap: an event is a window into a
    buffer, and what it reads depends on the heap.  A pool gives any of its elements or a new one.  A method that holds the lock is one step, and so is Release: who brings
    the count to zero is the only one left.  Sequence numbers are uint64; the one addition that could exceed them is refused by the code, so they are integers here, except in Restore. *)
From S2P Require Import Prelude GoStd.

Inductive HistoryError := ErrInvalidLimit | ErrInvalidCursor | ErrSequenceFull | GapError (RequestedSequence EarliestSequence LatestSequence : Z).

(** A slice of a buffer. *)
Record window := mkWindow { w_buf : nat; w_off : nat; w_len : nat }.

Record Event := mkEvent { ev_Channel : Z; ev_StartSequence : Z; ev_EndSequence : Z; ev_Data : window; ev_owner : option nat }.

Definition no_data : window := mkWindow 0 0 0.
Definition zeroEvent : Event := mkEvent 0 0 0 no_data None.

(** ** The heap *)

Record ownedBuffer := mkOwner { ob_data : window; ob_refs : Z; ob_pool : bool }.

(** The contents of the buffers, the owners, and the two pools. *)
Record Heap := mkHeap { hp_buffers : gmap nat (list ascii); hp_owners : gmap nat ownedBuffer; hp_bufferPool : list nat; hp_ownerPool : list nat }.

Definition set_buffers (m : Heap) (b : gmap nat (list ascii)) : Heap := mkHeap b (hp_owners m) (hp_bufferPool m) (hp_ownerPool m).
Definition set_owners (m : Heap) (o : gmap nat ownedBuffer) : Heap := mkHeap (hp_buffers m) o (hp_bufferPool m) (hp_ownerPool m).

Definition read (m : Heap) (w : window) : list ascii := take (w_len w) (drop (w_off w) (default [] (hp_buffers m !! w_buf w))).

(** Pool.Get: the element at [pick], or a new one when there is none. *)
Definition pool_get (pool : list nat) (pick : nat) (new : nat) : nat * list nat := match pool !! pick with Some b => (b, delete pick pool) | None => (new, pool) end.

Definition new_buffer (m : Heap) : nat := fresh (dom (hp_buffers m)).
Definition new_owner (m : Heap) : nat := fresh (dom (hp_owners m)).

Definition AcquireBuffer (m : Heap) (pick : nat) : Heap * nat :=
  let '(b, pool) := pool_get (hp_bufferPool m) pick (new_buffer m) in
  (mkHeap (<[b := default [] (hp_buffers m !! b)]> (hp_buffers m)) (hp_owners m) pool (hp_ownerPool m), b).

Definition ReleaseBuffer (m : Heap) (b : nat) : Heap := mkHeap (hp_buffers m) (hp_owners m) (b :: hp_bufferPool m) (hp_ownerPool m).

Definition Retain (m : Heap) (e : Event) : Heap :=
  match ev_owner e with
  | None => m
  | Some o => match hp_owners m !! o with Some ob => set_owners m (<[o := mkOwner (ob_data ob) (ob_refs ob + 1) (ob_pool ob)]> (hp_owners m)) | None => m end
  end.

Definition Release (m : Heap) (e : Event) : Heap :=
  match ev_owner e with
  | None => m
  | Some o =>
      match hp_owners m !! o with
      | None => m
      | Some ob =>
          if (ob_refs ob - 1 =? 0)%Z
          then let m := if ob_pool ob then ReleaseBuffer m (w_buf (ob_data ob)) else m in
               mkHeap (hp_buffers m) (<[o := mkOwner no_data 0 false]> (hp_owners m)) (hp_bufferPool m) (o :: hp_ownerPool m)
          else set_owners m (<[o := mkOwner (ob_data ob) (ob_refs ob - 1) (ob_pool ob)]> (hp_owners m))
      end
  end.

(** append([]byte(nil), data...): a buffer of its own, outside the pool. *)
Definition clone (m : Heap) (data : list ascii) : Heap * window := (set_buffers m (<[new_buffer m := data]> (hp_buffers m)), mkWindow (new_buffer m) 0 (length data)).

Definition cloneEvent (m : Heap) (e : Event) : Heap * Event :=
  let '(m, w) := clone m (read m (ev_Data e)) in (m, mkEvent (ev_Channel e) (ev_StartSequence e) (ev_EndSequence e) w None).

(** ** The history *)

(** The slice of events, of which those before [head] were dropped. *)
Record History := mkHistory { hi_maxBytes : Z; hi_bytes : Z; hi_earliest : Z; hi_latest : Z; hi_events : list Event; hi_head : nat; hi_acks : gmap string Z }.

Definition minCompactEvents : nat := 64.

Definition New (maxBytes : Z) : HistoryError + History := if (maxBytes =? 0)%Z then inl ErrInvalidLimit else inr (mkHistory maxBytes 0 0 0 [] 0 ∅).

Definition live (h : History) : list Event := drop (hi_head h) (hi_events h).

(** The events of a stored session. *)
Fixpoint restore_events (m : Heap) (h : History) (events : list Event) : Heap * (HistoryError + History) :=
  match events with
  | [] => (m, inr h)
  | e :: rest =>
      if negb (ev_StartSequence e =? hi_latest h)%Z || negb (UInt64.wrap (ev_EndSequence e - ev_StartSequence e) =? Z.of_nat (w_len (ev_Data e)))%Z then (m, inl ErrInvalidCursor)
      else let '(m, e') := cloneEvent m e in
           restore_events m (mkHistory (hi_maxBytes h) (hi_bytes h + Z.of_nat (w_len (ev_Data e))) (hi_earliest h) (ev_EndSequence e) (hi_events h ++ [e']) (hi_head h) (hi_acks h)) rest
  end.

Definition Restore (m : Heap) (maxBytes earliest latest : Z) (events : list Event) : Heap * (HistoryError + History) :=
  match New maxBytes with
  | inl e => (m, inl e)
  | inr h =>
      if (latest <? earliest)%Z then (m, inl ErrInvalidCursor)
      else match restore_events m (mkHistory maxBytes 0 earliest earliest [] 0 ∅) events with
           | (m, inl e) => (m, inl e)
           | (m, inr h) => if negb (hi_latest h =? latest)%Z || (maxBytes <? hi_bytes h)%Z then (m, inl ErrInvalidCursor) else (m, inr h)
           end
  end.

(** The loop of compactLocked; [n] is at least the number of live events. *)
Fixpoint drop_oldest (n : nat) (m : Heap) (h : History) : Heap * History :=
  match n with
  | O => (m, h)
  | S n =>
      if (hi_maxBytes h <? hi_bytes h)%Z then
        match hi_events h !! hi_head h with
        | Some e =>
            drop_oldest n (Release m e)
              (mkHistory (hi_maxBytes h) (hi_bytes h - Z.of_nat (w_len (ev_Data e))) (ev_EndSequence e) (hi_latest h) (<[hi_head h := zeroEvent]> (hi_events h)) (S (hi_head h)) (hi_acks h))
        | None => (m, h)
        end
      else (m, h)
  end.

Definition compactLocked (m : Heap) (h : History) : Heap * History :=
  let '(m, h) := drop_oldest (length (hi_events h) - hi_head h) m h in
  if (hi_head h =? length (hi_events h))%nat then (m, mkHistory (hi_maxBytes h) (hi_bytes h) (hi_latest h) (hi_latest h) [] 0 (hi_acks h))
  else if (minCompactEvents <=? hi_head h)%nat && (length (hi_events h) / 2 <? hi_head h)%nat
  then (m, mkHistory (hi_maxBytes h) (hi_bytes h) (hi_earliest h) (hi_latest h) (drop (hi_head h) (hi_events h)) 0 (hi_acks h))
  else (m, h).

(** appendOwned; [data] is a window of the caller's buffer, [pick] the owner that the pool gives. *)
Definition appendOwned (m : Heap) (h : History) (channel : Z) (data : window) (pooled producerReference : bool) (pick : nat) : Heap * History * (HistoryError + Event) :=
  if (w_len data =? 0)%nat
  then (if pooled then ReleaseBuffer m (w_buf data) else m, h, inr (mkEvent channel (hi_latest h) (hi_latest h) no_data None))
  else if (UInt64.max_value - hi_latest h <? Z.of_nat (w_len data))%Z then (if pooled then ReleaseBuffer m (w_buf data) else m, h, inl ErrSequenceFull)
  else
    let '(o, pool) := pool_get (hp_ownerPool m) pick (new_owner m) in
    let m := mkHeap (hp_buffers m) (<[o := mkOwner data (if producerReference then 2 else 1) pooled]> (hp_owners m)) (hp_bufferPool m) pool in
    let event := mkEvent channel (hi_latest h) (hi_latest h + Z.of_nat (w_len data)) data (Some o) in
    let h := mkHistory (hi_maxBytes h) (hi_bytes h + Z.of_nat (w_len data)) (hi_earliest h) (ev_EndSequence event) (hi_events h ++ [event]) (hi_head h) (hi_acks h) in
    let '(m, h) := compactLocked m h in (m, h, inr event).

Definition AppendBuffer (m : Heap) (h : History) (channel : Z) (data : window) (pick : nat) : Heap * History * (HistoryError + Event) := appendOwned m h channel data true true pick.

Definition AppendOwned (m : Heap) (h : History) (channel : Z) (data : list ascii) (pick : nat) : Heap * History * (HistoryError + Event) :=
  let '(m, w) := clone m data in appendOwned m h channel w false false pick.

Definition Append (m : Heap) (h : History) (channel : Z) (data : list ascii) (pick : nat) : Heap * History * (HistoryError + Event) :=
  match AppendOwned m h channel data pick with
  | (m, h, inr e) => let '(m, e) := cloneEvent m e in (m, h, inr e)
  | (m, h, inl e) => (m, h, inl e)
  end.

Definition SetLimit (m : Heap) (h : History) (maxBytes : Z) : Heap * History * option HistoryError :=
  if (maxBytes =? 0)%Z then (m, h, Some ErrInvalidLimit)
  else let '(m, h) := compactLocked m (mkHistory maxBytes (hi_bytes h) (hi_earliest h) (hi_latest h) (hi_events h) (hi_head h) (hi_acks h)) in (m, h, None).

Definition Clear (m : Heap) (h : History) : Heap * History * Z :=
  (foldl Release m (live h), mkHistory (hi_maxBytes h) 0 (hi_latest h) (hi_latest h) [] 0 (hi_acks h), hi_latest h).

Record Replay := mkReplay { rp_From : Z; rp_To : Z; rp_Earliest : Z; rp_Latest : Z; rp_Events : list Event }.

(** The part of an event from [start] to [end_]. *)
Definition part (e : Event) (start end_ : Z) : Event :=
  mkEvent (ev_Channel e) start end_ (mkWindow (w_buf (ev_Data e)) (w_off (ev_Data e) + Z.to_nat (start - ev_StartSequence e)) (Z.to_nat (end_ - start))) (ev_owner e).

Fixpoint replay_loop (byteLimit from : Z) (events : list Event) (remaining : Z) (m : Heap) (result : Replay) : Heap * Replay :=
  match events with
  | [] => (m, result)
  | e :: rest =>
      if (ev_EndSequence e <=? from)%Z then replay_loop byteLimit from rest remaining m result
      else
        let start := Z.max from (ev_StartSequence e) in
        let end_ := if (0 <? byteLimit)%Z && (remaining <? ev_EndSequence e - start)%Z then (start + remaining)%Z else ev_EndSequence e in
        if (start <? end_)%Z then
          let m := Retain m e in
          let result := mkReplay (rp_From result) end_ (rp_Earliest result) (rp_Latest result) (rp_Events result ++ [part e start end_]) in
          if (0 <? byteLimit)%Z then
            if (remaining - (end_ - start) =? 0)%Z then (m, result) else replay_loop byteLimit from rest (remaining - (end_ - start)) m result
          else replay_loop byteLimit from rest remaining m result
        else replay_loop byteLimit from rest remaining m result
  end.

Definition ReplayOwned (m : Heap) (h : History) (from byteLimit : Z) : Heap * (HistoryError + Replay) :=
  if (from <? hi_earliest h)%Z then (m, inl (GapError from (hi_earliest h) (hi_latest h)))
  else if (hi_latest h <? from)%Z then (m, inl ErrInvalidCursor)
  else let '(m, r) := replay_loop byteLimit from (live h) byteLimit m (mkReplay from from (hi_earliest h) (hi_latest h) []) in (m, inr r).

(** Replay: the events are copied and released. *)
Fixpoint clone_events (m : Heap) (events : list Event) : Heap * list Event :=
  match events with
  | [] => (m, [])
  | e :: rest => let '(m, e') := cloneEvent m e in let '(m, rest') := clone_events (Release m e) rest in (m, e' :: rest')
  end.

Definition ReplayCopied (m : Heap) (h : History) (from byteLimit : Z) : Heap * (HistoryError + Replay) :=
  match ReplayOwned m h from byteLimit with
  | (m, inl e) => (m, inl e)
  | (m, inr r) => let '(m, events) := clone_events m (rp_Events r) in (m, inr (mkReplay (rp_From r) (rp_To r) (rp_Earliest r) (rp_Latest r) events))
  end.

Definition Acknowledge (h : History) (attachmentID : string) (nextSequence : Z) : History * option HistoryError :=
  if String.eqb attachmentID "" || (hi_latest h <? nextSequence)%Z || (nextSequence <? default 0 (hi_acks h !! attachmentID))%Z then (h, Some ErrInvalidCursor)
  else (mkHistory (hi_maxBytes h) (hi_bytes h) (hi_earliest h) (hi_latest h) (hi_events h) (hi_head h) (<[attachmentID := nextSequence]> (hi_acks h)), None).

Definition Forget (h : History) (attachmentID : string) : History :=
  mkHistory (hi_maxBytes h) (hi_bytes h) (hi_earliest h) (hi_latest h) (hi_events h) (hi_head h) (delete attachmentID (hi_acks h)).

Definition Acknowledged (h : History) (attachmentID : string) : option Z := hi_acks h !! attachmentID.
Definition Bounds (h : History) : Z * Z * Z := (hi_earliest h, hi_latest h, hi_bytes h).
