(* ===== verification/HistorySpec.v ===== *)
(** * Buffers are not reused while they are referenced *)
From S2P Require Import Prelude GoStd History.

(** How many of the events are references to an owner. *)
Definition owned_by (o : nat) (e : Event) : bool := bool_decide (ev_owner e = Some o).
Definition refs (l : list Event) (o : nat) : Z := Z.of_nat (length (List.filter (owned_by o) l)).

Lemma refs_cons e l o : refs (e :: l) o = ((if owned_by o e then 1 else 0) + refs l o)%Z.
Proof. unfold refs. simpl. destruct (owned_by o e); simpl; lia. Qed.

Lemma refs_perm l l' o : l ≡ₚ l' → refs l o = refs l' o.
Proof. intros Hp. unfold refs. f_equal. induction Hp; simpl; repeat case_match; simpl; congruence. Qed.

Lemma refs_nonneg l o : (0 ≤ refs l o)%Z.
Proof. unfold refs. lia. Qed.

Lemma refs_pos l o e : e ∈ l → ev_owner e = Some o → (1 ≤ refs l o)%Z.
Proof.
  intros Hin Ho. apply elem_of_Permutation in Hin as (l' & Hp). rewrite (refs_perm _ _ o Hp), refs_cons. unfold owned_by. rewrite bool_decide_eq_true_2 by done. pose proof (refs_nonneg l' o). lia.
Qed.

Lemma refs_zero l o e : refs l o = 0%Z → e ∈ l → ev_owner e ≠ Some o.
Proof. intros Hz Hin Ho. pose proof (refs_pos _ _ _ Hin Ho). lia. Qed.

(** ** The heap

    [prod] are the buffers that producers fill, [l] the references that are counted. *)
Definition active (m : Heap) (o : nat) (ob : ownedBuffer) : Prop := hp_owners m !! o = Some ob ∧ o ∉ hp_ownerPool m.
Definition free_buffers (m : Heap) (prod : list nat) : list nat := hp_bufferPool m ++ prod.

Record heap_ok (m : Heap) (prod : list nat) (l : list Event) : Prop := {
  ho_free : NoDup (free_buffers m prod);
  ho_dom : ∀ b, b ∈ free_buffers m prod → is_Some (hp_buffers m !! b);
  ho_pool : NoDup (hp_ownerPool m);
  ho_pooled : ∀ o, o ∈ hp_ownerPool m → is_Some (hp_owners m !! o) ∧ refs l o = 0%Z;
  ho_owner : ∀ o ob, active m o ob → ob_refs ob = refs l o ∧ (1 ≤ ob_refs ob)%Z ∧ (w_buf (ob_data ob) ∉ free_buffers m prod) ∧ is_Some (hp_buffers m !! w_buf (ob_data ob));
  ho_event : ∀ e, e ∈ l → (w_buf (ev_Data e) ∉ free_buffers m prod) ∧ is_Some (hp_buffers m !! w_buf (ev_Data e)) ∧
    ∀ o, ev_owner e = Some o → ∃ ob, active m o ob ∧ w_buf (ob_data ob) = w_buf (ev_Data e);
  ho_sole : ∀ o ob, active m o ob → ob_pool ob = true →
    (∀ e, e ∈ l → w_buf (ev_Data e) = w_buf (ob_data ob) → ev_owner e = Some o) ∧ (∀ o' ob', active m o' ob' → w_buf (ob_data ob') = w_buf (ob_data ob) → o' = o);
}.

Lemma heap_ok_perm m prod l l' : l ≡ₚ l' → heap_ok m prod l → heap_ok m prod l'.
Proof.
  intros Hp [H1 H2 H3 H4 H5 H6 H7]. split; try done.
  - intros o Ho. rewrite <-(refs_perm _ _ o Hp). by apply H4.
  - intros o ob Ho. rewrite <-(refs_perm _ _ o Hp). by apply H5.
  - intros e. rewrite <-Hp. apply H6.
  - intros o ob Ho Hpool. destruct (H7 _ _ Ho Hpool) as [Ha Hb]. split; [|done]. intros e. rewrite <-Hp. apply Ha.
Qed.

(** Only the buffers of producers are written, so what a reference reads stays. *)
Lemma Release_buffers m e : hp_buffers (Release m e) = hp_buffers m.
Proof. unfold Release. destruct (ev_owner e) as [o|]; [|done]. destruct (hp_owners m !! o) as [ob|]; [|done]. destruct (_ =? _)%Z; [|done]. by destruct (ob_pool ob). Qed.

Lemma Retain_buffers m e : hp_buffers (Retain m e) = hp_buffers m.
Proof. unfold Retain. destruct (ev_owner e) as [o|]; [|done]. by destruct (hp_owners m !! o). Qed.

(** An owner whose count changes and stays positive. *)
Lemma active_update m o ob ob' o1 ob1 : hp_owners m !! o = Some ob → active (set_owners m (<[o := ob']> (hp_owners m))) o1 ob1 ↔ (o1 = o ∧ ob1 = ob' ∧ o ∉ hp_ownerPool m) ∨ (o1 ≠ o ∧ active m o1 ob1).
Proof.
  intros Ho. unfold active. simpl. rewrite lookup_insert_Some. split.
  - intros [[[<- <-]|[Hne ?]] Hn]; [by left|right]. split; [congruence|done].
  - intros [(-> & -> & ?)|(Hne & ? & ?)]; [split; [by left|done]|split; [right; split; [congruence|done]|done]].
Qed.

Lemma count_changed m prod l l' o ob ob' : heap_ok m prod l → active m o ob → ob_data ob' = ob_data ob → ob_pool ob' = ob_pool ob → ob_refs ob' = refs l' o → (1 ≤ refs l' o)%Z →
  (∀ o1, o1 ≠ o → refs l' o1 = refs l o1) → (∀ e, e ∈ l' → ∃ e0, e0 ∈ l ∧ ev_owner e = ev_owner e0 ∧ w_buf (ev_Data e) = w_buf (ev_Data e0)) →
  heap_ok (set_owners m (<[o := ob']> (hp_owners m))) prod l'.
Proof.
  intros [H1 H2 H3 H4 H5 H6 H7] Ha Hd Hp Hr Hpos Hother Hsub. pose proof (active_update m o ob ob') as Hact. specialize (Hact) as Hact'. split; try done.
  - intros o1 Ho1. assert (o1 ≠ o) by (intros ->; by destruct Ha). destruct (H4 _ Ho1) as [[x Hx] Hz]. simpl. split; [rewrite lookup_insert_ne by done; by eexists|]. by rewrite Hother.
  - intros o1 ob1 [(-> & -> & _)|(Hne & Ho1)]%(Hact _ _ (proj1 Ha)).
    + rewrite Hd. destruct (H5 _ _ Ha) as (_ & _ & ? & ?). split_and!; try done; congruence || lia.
    + rewrite Hother by done. by apply H5.
  - intros e He. destruct (Hsub _ He) as (e0 & He0 & Hoe & Hbe). destruct (H6 _ He0) as (? & ? & Hown). rewrite Hbe. split_and!; try done. intros o1. rewrite Hoe. intros Ho1.
    destruct (Hown _ Ho1) as (ob1 & Hact1 & Hb1). destruct (decide (o1 = o)) as [->|Hne].
    + exists ob'. split; [apply (Hact _ _ (proj1 Ha)); left; by destruct Ha|]. rewrite Hd. destruct Ha as [Ha _], Hact1 as [Hact1 _]. congruence.
    + exists ob1. split; [apply (Hact _ _ (proj1 Ha)); by right|done].
  - assert (Hold : ∀ o1 ob1, active (set_owners m (<[o := ob']> (hp_owners m))) o1 ob1 → ∃ ob0, active m o1 ob0 ∧ ob_data ob1 = ob_data ob0 ∧ ob_pool ob1 = ob_pool ob0).
    { intros o1 ob1 [(-> & -> & _)|(Hne & Ho1)]%(Hact _ _ (proj1 Ha)); [by exists ob|by exists ob1]. }
    intros o1 ob1 (ob0 & Hact0 & Hd0 & Hp0)%Hold Hpool. rewrite Hd0. rewrite Hp0 in Hpool. destruct (H7 _ _ Hact0 Hpool) as [Hev Hown]. split.
    + intros e He Hb. destruct (Hsub _ He) as (e0 & He0 & -> & Hbe). apply Hev; [done|congruence].
    + intros o2 ob2 (ob3 & Hact3 & Hd3 & _)%Hold. rewrite Hd3. by apply Hown.
Qed.

(** One more reference to what is referenced already, perhaps to a part of it. *)
Lemma Retain_ok m prod l e e' : heap_ok m prod l → e ∈ l → ev_owner e' = ev_owner e → w_buf (ev_Data e') = w_buf (ev_Data e) → heap_ok (Retain m e) prod (e' :: l).
Proof.
  intros Hok He Ho Hb. assert (Hsub : ∀ e1, e1 ∈ e' :: l → ∃ e0, e0 ∈ l ∧ ev_owner e1 = ev_owner e0 ∧ w_buf (ev_Data e1) = w_buf (ev_Data e0)).
  { intros e1. rewrite elem_of_cons. intros [->|?]; [by exists e|by exists e1]. }
  unfold Retain. destruct (ev_owner e) as [o|] eqn:Hoe.
  - destruct (ho_event _ _ _ Hok _ He) as (_ & _ & Hown). destruct (Hown _ Hoe) as (ob & Ha & _). rewrite (proj1 Ha). destruct (ho_owner _ _ _ Hok _ _ Ha) as (Hr & Hpos & _).
    eapply count_changed; [exact Hok|exact Ha|done|done| | | |exact Hsub]; simpl; rewrite ?refs_cons; unfold owned_by; rewrite ?Ho.
    + rewrite bool_decide_eq_true_2 by done. lia.
    + rewrite bool_decide_eq_true_2 by done. lia.
    + intros o1 Hne. rewrite refs_cons. unfold owned_by. rewrite bool_decide_eq_false_2; [lia|congruence].
  - assert (Hrefs : ∀ o, refs (e' :: l) o = refs l o) by (intros o; rewrite refs_cons; unfold owned_by; rewrite Ho, bool_decide_eq_false_2 by done; lia).
    destruct Hok as [H1 H2 H3 H4 H5 H6 H7]. split; try done.
    + intros o. rewrite Hrefs. apply H4.
    + intros o ob. rewrite Hrefs. apply H5.
    + intros e1 (e0 & He0 & -> & ->)%Hsub. by apply H6.
    + intros o ob Ha Hp. destruct (H7 _ _ Ha Hp) as [Hev Hown]. split; [|done]. intros e1 (e0 & He0 & -> & ->)%Hsub. by apply Hev.
Qed.

(** A reference less; the last one frees the buffer. *)
Lemma Release_ok m prod e l : heap_ok m prod (e :: l) → heap_ok (Release m e) prod l.
Proof.
  intros Hok. unfold Release. destruct (ev_owner e) as [o|] eqn:Hoe.
  - destruct (ho_event _ _ _ Hok e (list_elem_of_here _ _)) as (_ & _ & Hown). destruct (Hown _ Hoe) as (ob & Ha & Hbuf). rewrite (proj1 Ha). destruct (ho_owner _ _ _ Hok _ _ Ha) as (Hr & Hpos & Hnf & Hdom).
    assert (Hrefs : refs (e :: l) o = (1 + refs l o)%Z) by (rewrite refs_cons; unfold owned_by; by rewrite bool_decide_eq_true_2).
    assert (Hother : ∀ o1, o1 ≠ o → refs l o1 = refs (e :: l) o1) by (intros o1 Hne; rewrite refs_cons; unfold owned_by; rewrite bool_decide_eq_false_2; [lia|congruence]).
    destruct (Z.eqb_spec (ob_refs ob - 1) 0) as [Hz|Hz].
    + assert (Hzero : refs l o = 0%Z) by lia. set (m1 := if ob_pool ob then _ else m).
      assert (Hpool1 : hp_ownerPool m1 = hp_ownerPool m ∧ hp_owners m1 = hp_owners m ∧ hp_buffers m1 = hp_buffers m) by (unfold m1; by destruct (ob_pool ob)). destruct Hpool1 as (E1 & E2 & E3).
      assert (Hfree1 : ∀ b, b ∈ free_buffers m1 prod ↔ b ∈ free_buffers m prod ∨ (ob_pool ob = true ∧ b = w_buf (ob_data ob))).
      { intros b. unfold m1, free_buffers. destruct (ob_pool ob); simpl; [rewrite elem_of_cons; naive_solver|naive_solver]. }
      rewrite E1, E2, E3. destruct Hok as [H1 H2 H3 H4 H5 H6 H7].
      assert (Hact : ∀ o1 ob1, active (mkHeap (hp_buffers m) (<[o := mkOwner no_data 0 false]> (hp_owners m)) (hp_bufferPool m1) (o :: hp_ownerPool m)) o1 ob1 ↔ o1 ≠ o ∧ active m o1 ob1).
      { intros o1 ob1. unfold active. simpl. rewrite not_elem_of_cons. split; [intros [Hl [Hne ?]]; rewrite lookup_insert_ne in Hl by congruence; done|intros (Hne & ? & ?); by rewrite lookup_insert_ne by congruence]. }
      split; simpl.
      * unfold free_buffers in *. simpl. unfold m1. destruct (ob_pool ob); simpl; [|done]. by constructor.
      * intros b Hb. change (hp_bufferPool m1 ++ prod) with (free_buffers m1 prod) in Hb. apply Hfree1 in Hb as [?|[_ ->]]; [by apply H2|done].
      * constructor; [by destruct Ha|done].
      * intros o1. rewrite elem_of_cons. intros [->|Ho1]; [rewrite lookup_insert_eq; by split; [eexists|]|]. assert (o1 ≠ o) by (intros ->; by destruct Ha).
        destruct (H4 _ Ho1) as [[x Hx] Hzx]. rewrite lookup_insert_ne by done. split; [by eexists|]. by rewrite Hother.
      * intros o1 ob1 [Hne Ha1]%Hact. rewrite Hother by done. destruct (H5 _ _ Ha1) as (? & ? & Hnf1 & ?). split_and!; try done. change (w_buf (ob_data ob1) ∉ free_buffers m1 prod).
        rewrite Hfree1. intros [?|[Hp Hb]]; [done|]. destruct (H7 _ _ Ha Hp) as [_ Hsole]. by destruct Hne; eapply Hsole.
      * intros e1 He1. destruct (H6 e1 ltac:(by right)) as (Hnf1 & ? & Hown1). split_and!; [|done|].
        -- change (w_buf (ev_Data e1) ∉ free_buffers m1 prod). rewrite Hfree1. intros [?|[Hp Hb]]; [done|]. destruct (H7 _ _ Ha Hp) as [Hsole _].
           assert (ev_owner e1 = Some o) by (apply Hsole; [by right|done]). by eapply refs_zero.
        -- intros o1 Ho1. destruct (Hown1 _ Ho1) as (ob1 & Ha1 & Hb1). exists ob1. split; [|done]. apply Hact. split; [|done]. intros ->. by eapply refs_zero.
      * intros o1 ob1 [Hne Ha1]%Hact Hp1. destruct (H7 _ _ Ha1 Hp1) as [Hev Ho1]. split; [intros e1 He1; apply Hev; by right|]. intros o2 ob2 [_ Ha2]%Hact. by apply Ho1.
    + eapply count_changed; [exact Hok|exact Ha|done|done|simpl; lia|lia|exact Hother|]. intros e1 He1. exists e1. split; [by right|done].
  - assert (Hrefs : ∀ o, refs (e :: l) o = refs l o) by (intros o; rewrite refs_cons; unfold owned_by; rewrite Hoe, bool_decide_eq_false_2 by done; lia).
    destruct Hok as [H1 H2 H3 H4 H5 H6 H7]. split; try done.
    + intros o. rewrite <-Hrefs. apply H4.
    + intros o ob. rewrite <-Hrefs. apply H5.
    + intros e1 He1. apply H6. by right.
    + intros o ob Ha Hp. destruct (H7 _ _ Ha Hp) as [Hev Hown]. split; [|done]. intros e1 He1. apply Hev. by right.
Qed.

Lemma new_buffer_fresh m : hp_buffers m !! new_buffer m = None.
Proof. unfold new_buffer. apply not_elem_of_dom, is_fresh. Qed.

Lemma new_owner_fresh m : hp_owners m !! new_owner m = None.
Proof. unfold new_owner. apply not_elem_of_dom, is_fresh. Qed.

(** Changes of buffers and of the free ones only. *)
Lemma heap_ok_buffers m m' prod prod' l : heap_ok m prod l → hp_owners m' = hp_owners m → hp_ownerPool m' = hp_ownerPool m → (∀ b, is_Some (hp_buffers m !! b) → is_Some (hp_buffers m' !! b)) →
  NoDup (free_buffers m' prod') → (∀ b, b ∈ free_buffers m' prod' → is_Some (hp_buffers m' !! b) ∧ (b ∈ free_buffers m prod ∨ hp_buffers m !! b = None)) → heap_ok m' prod' l.
Proof.
  intros [H1 H2 H3 H4 H5 H6 H7] Eo Ep Hdom Hnd Hfree. assert (Hact : ∀ o ob, active m' o ob ↔ active m o ob) by (intros; unfold active; by rewrite Eo, Ep).
  assert (Hnot : ∀ b, (b ∉ free_buffers m prod) → is_Some (hp_buffers m !! b) → b ∉ free_buffers m' prod') by (intros b Hb [x Hx] [_ [?|?]]%Hfree; [done|congruence]).
  split; rewrite ?Eo, ?Ep; try done.
  - intros b Hb. by apply Hfree.
  - intros o ob Ha%Hact. destruct (H5 _ _ Ha) as (? & ? & ? & ?). split_and!; try done; [by apply Hnot|by apply Hdom].
  - intros e He. destruct (H6 _ He) as (? & ? & Hown). split_and!; [by apply Hnot|by apply Hdom|]. intros o Ho. destruct (Hown _ Ho) as (ob & ? & ?). exists ob. by rewrite Hact.
  - intros o ob Ha%Hact Hp. destruct (H7 _ _ Ha Hp) as [? Hown]. split; [done|]. intros o' ob' Ha'%Hact. by apply Hown.
Qed.

Lemma heap_ok_producing m prod prod' l : prod ≡ₚ prod' → heap_ok m prod l → heap_ok m prod' l.
Proof.
  intros Hp Hok. assert (Hf : free_buffers m prod' ≡ₚ free_buffers m prod) by (unfold free_buffers; by rewrite Hp). eapply heap_ok_buffers; [exact Hok|done|done|done|rewrite Hf; apply Hok|].
  intros b. rewrite Hf. intros Hb. split; [by apply (ho_dom _ _ _ Hok)|by left].
Qed.

Lemma pool_get_perm pool pick new b pool' : pool_get pool pick new = (b, pool') → (pool ≡ₚ b :: pool') ∨ (b = new ∧ pool' = pool).
Proof.
  unfold pool_get. destruct (pool !! pick) as [x|] eqn:Hx; intros [= <- <-]; [left|by right]. by apply delete_Permutation.
Qed.

Lemma Acquire_ok m pick m' b prod l : AcquireBuffer m pick = (m', b) → heap_ok m prod l →
  heap_ok m' (b :: prod) l ∧ (∀ w, is_Some (hp_buffers m !! w_buf w) → read m' w = read m w).
Proof.
  unfold AcquireBuffer. destruct (pool_get _ _ _) as [b' pool'] eqn:Hg. intros [= <- <-] Hok.
  assert (Hread : ∀ w, is_Some (hp_buffers m !! w_buf w) → read (mkHeap (<[b' := default [] (hp_buffers m !! b')]> (hp_buffers m)) (hp_owners m) pool' (hp_ownerPool m)) w = read m w).
  { intros w [x Hx]. unfold read. simpl. destruct (decide (w_buf w = b')) as [->|Hne]; [by rewrite lookup_insert_eq|by rewrite lookup_insert_ne by done]. }
  assert (Hmem : ∀ b, is_Some (hp_buffers m !! b) → is_Some (<[b' := default [] (hp_buffers m !! b')]> (hp_buffers m) !! b)) by (intros b ?; rewrite lookup_insert_is_Some'; by right).
  split; [|done]. pose proof (ho_free _ _ _ Hok) as Hnd. pose proof (ho_dom _ _ _ Hok) as Hdom. destruct (pool_get_perm _ _ _ _ _ Hg) as [Hp|[-> ->]].
  - assert (Hp' : pool' ++ b' :: prod ≡ₚ free_buffers m prod) by (unfold free_buffers; rewrite Hp; symmetry; apply Permutation_middle).
    eapply heap_ok_buffers; [exact Hok|done|done|done|unfold free_buffers; simpl; by rewrite Hp'|]. unfold free_buffers at 1. simpl. intros b. rewrite Hp'. intros Hb. split; [by apply Hmem, Hdom|by left].
  - assert (Hnew : hp_buffers m !! new_buffer m = None) by (apply new_buffer_fresh). eapply heap_ok_buffers; [exact Hok|done|done|done| |].
    + unfold free_buffers. simpl. rewrite <-Permutation_middle. constructor; [|done]. intros Hb%Hdom. rewrite Hnew in Hb. by destruct Hb.
    + unfold free_buffers at 1. simpl. intros b. rewrite <-Permutation_middle, elem_of_cons. intros [->|Hb]; [split; [rewrite lookup_insert_is_Some'; by left|by right]|split; [by apply Hmem, Hdom|by left]].
Qed.

(** A producer fills its buffer: no reference reads it. *)
Lemma fill_ok m prod l b data : heap_ok m prod l → b ∈ prod → heap_ok (set_buffers m (<[b := data]> (hp_buffers m))) prod l ∧
  (∀ e, e ∈ l → read (set_buffers m (<[b := data]> (hp_buffers m))) (ev_Data e) = read m (ev_Data e)).
Proof.
  intros Hok Hb. split.
  - eapply heap_ok_buffers; [exact Hok|done|done| |apply Hok|]; simpl.
    + intros b' ?. rewrite lookup_insert_is_Some'. by right.
    + intros b' Hb'. split; [|by left]. rewrite lookup_insert_is_Some'. right. by apply (ho_dom _ _ _ Hok).
  - intros e He. destruct (ho_event _ _ _ Hok _ He) as (Hnf & _). unfold read. simpl. rewrite lookup_insert_ne; [done|]. intros ->. apply Hnf. unfold free_buffers. apply elem_of_app. by right.
Qed.

Lemma ReleaseBuffer_ok m b prod l : heap_ok m (b :: prod) l → heap_ok (ReleaseBuffer m b) prod l.
Proof.
  intros Hok. assert (Hp : free_buffers (ReleaseBuffer m b) prod ≡ₚ free_buffers m (b :: prod)) by (unfold free_buffers; simpl; apply Permutation_middle).
  eapply heap_ok_buffers; [exact Hok|done|done|done|rewrite Hp; apply Hok|]. intros b'. rewrite Hp. intros Hb. split; [by apply (ho_dom _ _ _ Hok)|by left].
Qed.

(** A buffer that nobody references and that is not free. *)
Definition unused (m : Heap) (prod : list nat) (l : list Event) (b : nat) : Prop :=
  is_Some (hp_buffers m !! b) ∧ (b ∉ free_buffers m prod) ∧ (∀ e, e ∈ l → w_buf (ev_Data e) ≠ b) ∧ ∀ o ob, active m o ob → w_buf (ob_data ob) ≠ b.

Lemma producing_unused m b prod l : heap_ok m (b :: prod) l → heap_ok m prod l ∧ unused m prod l b.
Proof.
  intros Hok. assert (Hp : free_buffers m (b :: prod) ≡ₚ b :: free_buffers m prod) by (unfold free_buffers; symmetry; apply Permutation_middle).
  pose proof (ho_free _ _ _ Hok) as Hnd. rewrite Hp in Hnd. apply NoDup_cons in Hnd as [Hb Hnd]. split.
  - eapply heap_ok_buffers; [exact Hok|done|done|done|done|]. intros b' Hb'. assert (b' ∈ free_buffers m (b :: prod)) by (rewrite Hp; by right). split; [by apply (ho_dom _ _ _ Hok)|by left].
  - assert (Hin : b ∈ free_buffers m (b :: prod)) by (rewrite Hp; left). split_and!; [by apply (ho_dom _ _ _ Hok)|done| |].
    + intros e He <-. by destruct (ho_event _ _ _ Hok _ He).
    + intros o ob Ha <-. by destruct (ho_owner _ _ _ Hok _ _ Ha) as (_ & _ & ? & _).
Qed.

Lemma clone_ok m prod l data m' w : clone m data = (m', w) → heap_ok m prod l → heap_ok m' prod l ∧ unused m' prod l (w_buf w) ∧ read m' w = data ∧
  (∀ w', is_Some (hp_buffers m !! w_buf w') → read m' w' = read m w').
Proof.
  unfold clone. intros [= <- <-] Hok. assert (Hnew : hp_buffers m !! new_buffer m = None) by (apply new_buffer_fresh).
  assert (Hne : ∀ b, is_Some (hp_buffers m !! b) → b ≠ new_buffer m) by (intros b [x Hx] ->; congruence).
  unfold unused. split_and!.
  - eapply heap_ok_buffers; [exact Hok|done|done|intros b ?; simpl; rewrite lookup_insert_is_Some'; by right|apply Hok|]. intros b Hb. split; [simpl; rewrite lookup_insert_is_Some'; right; by apply (ho_dom _ _ _ Hok)|by left].
  - simpl. rewrite lookup_insert_eq. by eexists.
  - intros Hb. by destruct (Hne _ (ho_dom _ _ _ Hok _ Hb)).
  - intros e He. apply Hne. by destruct (ho_event _ _ _ Hok _ He) as (_ & ? & _).
  - intros o ob Ha. apply Hne. by destruct (ho_owner _ _ _ Hok _ _ Ha) as (_ & _ & _ & ?).
  - unfold read. simpl. rewrite lookup_insert_eq. simpl. by rewrite drop_0, firstn_all.
  - intros w' Hw. unfold read. simpl. by rewrite lookup_insert_ne by (symmetry; by apply Hne).
Qed.

(** A new owner of an unused buffer, with one reference or two. *)
Lemma own_ok m prod l data pooled (k : nat) pick o pool e : heap_ok m prod l → unused m prod l (w_buf data) → (1 ≤ k)%nat → pool_get (hp_ownerPool m) pick (new_owner m) = (o, pool) →
  ev_owner e = Some o → w_buf (ev_Data e) = w_buf data →
  heap_ok (mkHeap (hp_buffers m) (<[o := mkOwner data (Z.of_nat k) pooled]> (hp_owners m)) (hp_bufferPool m) pool) prod (replicate k e ++ l).
Proof.
  intros [H1 H2 H3 H4 H5 H6 H7] (Hdom & Hnf & Hev & Hown) Hk Hg Hoe Hb.
  assert (Hpool : (o ∉ pool) ∧ NoDup pool ∧ (∀ o1, o1 ≠ o → o1 ∈ hp_ownerPool m ↔ o1 ∈ pool) ∧ refs l o = 0%Z ∧ (hp_owners m !! o = None ∨ o ∈ hp_ownerPool m)).
  { destruct (pool_get_perm _ _ _ _ _ Hg) as [Hp|[-> ->]].
    - rewrite Hp in H3. apply NoDup_cons in H3 as [? ?]. split_and!; try done; [intros o1 ?; rewrite Hp, elem_of_cons; naive_solver|apply H4; rewrite Hp; left|right; rewrite Hp; left].
    - assert (Hnew : hp_owners m !! new_owner m = None) by (apply new_owner_fresh). split_and!; try done; [intros Hin; destruct (H4 _ Hin) as [[x Hx] _]; congruence| |by left].
      destruct (Z.eqb_spec (refs l (new_owner m)) 0) as [|Hne]; [done|]. unfold refs in Hne. destruct (List.filter _ l) as [|x ?] eqn:Hf; [done|].
      assert (Hx : x ∈ l ∧ ev_owner x = Some (new_owner m)).
      { assert (Hin : In x (List.filter (owned_by (new_owner m)) l)) by (rewrite Hf; by left). apply filter_In in Hin as [Hin Hx]. apply bool_decide_eq_true in Hx. by rewrite list_elem_of_In. }
      destruct Hx as [Hx Hox]. destruct (H6 _ Hx) as (_ & _ & Hown'). destruct (Hown' _ Hox) as (ob & [? _] & _). congruence. }
  destruct Hpool as (Hop & Hndp & Hsame & Hzero & Hwas).
  assert (Hact : ∀ o1 ob1, active (mkHeap (hp_buffers m) (<[o := mkOwner data (Z.of_nat k) pooled]> (hp_owners m)) (hp_bufferPool m) pool) o1 ob1 ↔
    (o1 = o ∧ ob1 = mkOwner data (Z.of_nat k) pooled) ∨ (o1 ≠ o ∧ active m o1 ob1)).
  { intros o1 ob1. unfold active. simpl. destruct (decide (o1 = o)) as [->|Hne]; [rewrite lookup_insert_eq; naive_solver|]. rewrite lookup_insert_ne by done. rewrite <-(Hsame _ Hne). naive_solver. }
  assert (Hrefs : ∀ o1, refs (replicate k e ++ l) o1 = ((if decide (o1 = o) then Z.of_nat k else 0) + refs l o1)%Z).
  { intros o1. clear -Hoe. induction k as [|k IH]; simpl; [by destruct (decide _)|]. rewrite refs_cons, IH. unfold owned_by. destruct (decide (o1 = o)) as [->|Hne].
    - rewrite bool_decide_eq_true_2 by done. lia.
    - rewrite bool_decide_eq_false_2 by congruence. lia. }
  assert (Hin : ∀ e1, e1 ∈ replicate k e ++ l ↔ e1 = e ∨ e1 ∈ l).
  { intros e1. rewrite elem_of_app, elem_of_replicate. split; [intros [[-> _]|?]; by auto|intros [->|?]; [left; split; [done|lia]|by right]]. }
  assert (Hnew : ∀ ob1, active m o ob1 → False) by (intros ob1 [Hl Hn]; destruct Hwas; [congruence|done]). split; try done.
  - intros o1 Ho1. simpl in Ho1. assert (o1 ≠ o) by congruence. rewrite Hrefs, decide_False by done. simpl. rewrite lookup_insert_ne by done. apply H4. by apply Hsame.
  - intros o1 ob1 [[-> ->]|[Hne Ha]]%Hact; rewrite Hrefs; [rewrite decide_True by done; simpl; split_and!; try done; lia|rewrite decide_False by done]. destruct (H5 _ _ Ha) as (? & ? & ? & ?). split_and!; try done; lia.
  - intros e1 [->|He1]%Hin.
    + rewrite Hb. split_and!; try done. intros o1. rewrite Hoe. intros [= <-]. eexists. split; [apply Hact; by left|done].
    + destruct (H6 _ He1) as (? & ? & Ho1). split_and!; try done. intros o1 Hoe1. destruct (Ho1 _ Hoe1) as (ob1 & Ha & ?). exists ob1. split; [|done]. apply Hact. right. split; [|done]. intros ->. by eapply Hnew.
  - intros o1 ob1 [[-> ->]|[Hne Ha]]%Hact Hp; simpl.
    + split; [intros e1 [->|He1]%Hin Hbe; [done|by destruct (Hev _ He1)]|]. intros o2 ob2 [[-> ->]|[Hne Ha]]%Hact Hbo; [done|by destruct (Hown _ _ Ha)].
    + destruct (H7 _ _ Ha Hp) as [He Ho]. split; [intros e1 [->|He1]%Hin Hbe; [|by apply He]|].
      * destruct (Hown _ _ Ha). congruence.
      * intros o2 ob2 [[-> ->]|[Hne2 Ha2]]%Hact Hbo; [destruct (Hown _ _ Ha); simpl in Hbo; congruence|by eapply Ho].
Qed.

(** * What a history keeps: its events read the output, and its bounds *)

(** The bytes of the output from one sequence number to another; [base] is the number of its first byte. *)
Definition slice (base : Z) (stream : list ascii) (s e : Z) : list ascii := take (Z.to_nat (e - s)) (drop (Z.to_nat (s - base)) stream).

(** An event reads the bytes that its numbers say. *)
Definition reads (m : Heap) (base : Z) (stream : list ascii) (e : Event) : Prop :=
  (base ≤ ev_StartSequence e ≤ ev_EndSequence e)%Z ∧ (ev_EndSequence e ≤ base + Z.of_nat (length stream))%Z ∧
  w_len (ev_Data e) = Z.to_nat (ev_EndSequence e - ev_StartSequence e) ∧ read m (ev_Data e) = slice base stream (ev_StartSequence e) (ev_EndSequence e).

(** Events that follow each other. *)
Fixpoint chain (s : Z) (l : list Event) (e : Z) : Prop :=
  match l with [] => s = e | x :: l => ev_StartSequence x = s ∧ (s ≤ ev_EndSequence x)%Z ∧ chain (ev_EndSequence x) l e end.

Lemma chain_le s l e : chain s l e → (s ≤ e)%Z.
Proof. revert s. induction l as [|x l IH]; intros s; simpl; [lia|]. intros (_ & ? & ?%IH). lia. Qed.

Lemma chain_app s l1 l2 e : chain s (l1 ++ l2) e ↔ ∃ t, chain s l1 t ∧ chain t l2 e.
Proof. revert s. induction l1 as [|x l1 IH]; intros s; simpl; [naive_solver|]. rewrite IH. naive_solver. Qed.

Lemma slice_app base stream more s e : (base ≤ s ≤ e)%Z → (e ≤ base + Z.of_nat (length stream))%Z → slice base (stream ++ more) s e = slice base stream s e.
Proof. intros. unfold slice. rewrite drop_app_le by lia. rewrite take_app_le; [done|]. rewrite length_drop. lia. Qed.

Lemma slice_new base stream more : slice base (stream ++ more) (base + Z.of_nat (length stream)) (base + Z.of_nat (length stream) + Z.of_nat (length more)) = more.
Proof. unfold slice. rewrite drop_app_length' by lia. rewrite firstn_all2; [done|lia]. Qed.

Lemma slice_slice base stream s e s' e' : (base ≤ s ≤ s')%Z → (s' ≤ e' ≤ e)%Z → take (Z.to_nat (e' - s')) (drop (Z.to_nat (s' - s)) (slice base stream s e)) = slice base stream s' e'.
Proof.
  intros. unfold slice. rewrite skipn_firstn_comm, drop_drop, take_take. f_equal; [lia|]. f_equal. lia.
Qed.

Lemma slice_join base stream a b c : (base ≤ a ≤ b)%Z → (b ≤ c)%Z → slice base stream a b ++ slice base stream b c = slice base stream a c.
Proof.
  intros. unfold slice. replace (Z.to_nat (c - a)) with (Z.to_nat (b - a) + Z.to_nat (c - b))%nat by lia. rewrite <-take_take_drop, drop_drop. do 3 f_equal. lia.
Qed.

Lemma reads_heap m m' base stream e : reads m base stream e → read m' (ev_Data e) = read m (ev_Data e) → reads m' base stream e.
Proof. intros (? & ? & ? & ?) Hr. unfold reads. by rewrite Hr. Qed.

Lemma reads_app m base stream more e : reads m base stream e → reads m base (stream ++ more) e.
Proof. intros ([? ?] & ? & ? & Hr). unfold reads. rewrite length_app, slice_app by lia. split_and!; try done; lia. Qed.

Lemma part_reads m base stream e s t : reads m base stream e → (ev_StartSequence e ≤ s ≤ t)%Z → (t ≤ ev_EndSequence e)%Z → reads m base stream (part e s t).
Proof.
  intros ([? ?] & ? & Hl & Hr) Hs Ht. unfold reads. simpl. split_and!; try done; try lia. rewrite <-(slice_slice base stream (ev_StartSequence e) (ev_EndSequence e)) by lia.
  rewrite <-Hr. unfold read. simpl. rewrite skipn_firstn_comm, drop_drop, take_take. f_equal. rewrite Hl. lia.
Qed.

(** ** The history *)

Record history_ok (base : Z) (stream : list ascii) (h : History) : Prop := {
  hk_head : (hi_head h ≤ length (hi_events h))%nat;
  hk_chain : chain (hi_earliest h) (live h) (hi_latest h);
  hk_bytes : hi_bytes h = (hi_latest h - hi_earliest h)%Z;
  hk_base : (0 ≤ base ≤ hi_earliest h)%Z;
  hk_latest : hi_latest h = (base + Z.of_nat (length stream))%Z;
  hk_full : (hi_latest h ≤ UInt64.max_value)%Z;
  hk_max : (0 < hi_maxBytes h)%Z;
}.

(** The limits that compactLocked restores: the bytes that are kept, and the dropped part of the slice. *)
Definition bounded (h : History) : Prop := (hi_bytes h ≤ hi_maxBytes h)%Z ∧ ((hi_head h < minCompactEvents)%nat ∨ (hi_head h ≤ length (hi_events h) / 2)%nat).

(** The heap, the events that are kept, and the other references. *)
Record all_ok (base : Z) (stream : list ascii) (m : Heap) (h : History) (prod : list nat) (held : list Event) : Prop := {
  ao_history : history_ok base stream h;
  ao_heap : heap_ok m prod (live h ++ held);
  ao_reads : ∀ e, e ∈ live h → reads m base stream e;
}.

(** What is written in a buffer stays, unless a producer fills it. *)
Definition grows (m m' : Heap) : Prop := hp_buffers m ⊆ hp_buffers m'.

Lemma grows_read m m' w : grows m m' → is_Some (hp_buffers m !! w_buf w) → read m' w = read m w.
Proof. intros Hg [x Hx]. unfold read. rewrite Hx. by rewrite (lookup_weaken _ _ _ _ Hx Hg). Qed.

Lemma kept_reads m m' prod l base stream e : heap_ok m prod l → e ∈ l → grows m m' → reads m base stream e → reads m' base stream e.
Proof. intros Hok He Hg Hr. eapply reads_heap; [done|]. apply grows_read; [done|]. by destruct (ho_event _ _ _ Hok _ He) as (_ & ? & _). Qed.

Lemma live_cons h e : hi_events h !! hi_head h = Some e → live h = e :: drop (S (hi_head h)) (hi_events h).
Proof. intros He. unfold live. by apply drop_S. Qed.

Lemma Release_read m e w : read (Release m e) w = read m w.
Proof. unfold read. by rewrite Release_buffers. Qed.

Lemma drop_oldest_ok base stream n m h prod held m' h' : (length (hi_events h) - hi_head h ≤ n)%nat → all_ok base stream m h prod held → drop_oldest n m h = (m', h') →
  all_ok base stream m' h' prod held ∧ (hi_bytes h' ≤ hi_maxBytes h')%Z ∧ hi_latest h' = hi_latest h ∧ hi_maxBytes h' = hi_maxBytes h ∧ hi_acks h' = hi_acks h.
Proof.
  revert m h. induction n as [|n IH]; intros m h Hn Hok; simpl.
  - intros [= <- <-]. split_and!; try done. destruct Hok as [[Hh Hc Hb ? ? ? ?] _ _]. assert (Hl : live h = []) by (unfold live; apply drop_ge; lia). rewrite Hl in Hc. simpl in Hc. lia.
  - destruct (Z.ltb_spec (hi_maxBytes h) (hi_bytes h)) as [Hlt|]; [|by intros [= <- <-]]. destruct Hok as [[Hh Hc Hb ? ? ? ?] Hheap Hr]. destruct (hi_events h !! hi_head h) as [e|] eqn:He.
    + pose proof (live_cons _ _ He) as Hl. rewrite Hl in Hheap, Hr, Hc. simpl in Hheap, Hc. destruct Hc as (Hs & Hle & Hc). destruct (Hr e ltac:(left)) as (_ & _ & Hlen & _).
      assert (Hlive : drop (S (hi_head h)) (<[hi_head h := zeroEvent]> (hi_events h)) = drop (S (hi_head h)) (hi_events h)) by (apply drop_insert_lt; lia).
      intros Hd. apply IH in Hd; [|simpl; rewrite length_insert; lia|].
      * destruct Hd as (? & ? & ? & ? & ?). by split_and!.
      * split; [|unfold live; simpl; rewrite Hlive; by apply Release_ok|].
        -- split; unfold live; simpl; rewrite ?Hlive, ?length_insert; try done; [apply lookup_lt_Some in He; lia| |]; rewrite ?Hlen; lia.
        -- unfold live. simpl. rewrite Hlive. intros x Hx. eapply reads_heap; [apply Hr; simpl; by right|]. apply Release_read.
    + intros [= <- <-]. apply lookup_ge_None in He. assert (Hl : live h = []) by (unfold live; apply drop_ge; lia). rewrite Hl in Hc. simpl in Hc. lia.
Qed.

Lemma compactLocked_ok base stream m h prod held m' h' : all_ok base stream m h prod held → compactLocked m h = (m', h') →
  all_ok base stream m' h' prod held ∧ bounded h' ∧ hi_latest h' = hi_latest h ∧ hi_maxBytes h' = hi_maxBytes h ∧ hi_acks h' = hi_acks h.
Proof.
  intros Hok. unfold compactLocked. destruct (drop_oldest _ m h) as [m1 h1] eqn:Hd. destruct (drop_oldest_ok _ _ _ _ _ _ _ _ _ (le_n _) Hok Hd) as (Hok1 & Hmax & Hlat & Hmb & Hack).
  destruct (Nat.eqb_spec (hi_head h1) (length (hi_events h1))) as [Heq|Hne].
  - intros [= <- <-]. destruct Hok1 as [[Hh Hc Hb ? ? ? ?] Hheap Hr]. assert (Hl : live h1 = []) by (unfold live; apply drop_ge; lia). rewrite Hl in *. simpl in Hc. split_and!; try done.
    + split; [|done|done]. split; simpl; try done; lia.
    + simpl. unfold bounded. simpl. split; [lia|left; unfold minCompactEvents; lia].
  - destruct (Nat.leb_spec minCompactEvents (hi_head h1)), (Nat.ltb_spec (length (hi_events h1) / 2) (hi_head h1)); simpl; intros [= <- <-]; split_and!; try done; try (unfold bounded; split; [done|]; by auto).
    + destruct Hok1 as [[Hh Hc Hb ? ? ? ?] Hheap Hr]. split; [split; simpl; try done; lia|done|done].
    + unfold bounded. simpl. split; [done|left; unfold minCompactEvents; lia].
Qed.

(** ** Appending *)

(** The references after an append: those of the producer come first. *)
Definition own (e : Event) (held : list Event) : list Event := match ev_owner e with Some _ => e :: held | None => held end.
Definition appended (r : HistoryError + Event) (data stream : list ascii) : list ascii := match r with inr _ => stream ++ data | inl _ => stream end.

(** The event that an append gives reads what was appended. *)
Definition append_answer (m : Heap) (base : Z) (stream : list ascii) (latest : Z) (data : list ascii) (r : HistoryError + Event) : Prop :=
  match r with
  | inr e => reads m base (stream ++ data) e ∧ ev_StartSequence e = latest ∧ ev_EndSequence e = (latest + Z.of_nat (length data))%Z
  | inl err => err = ErrSequenceFull ∧ (UInt64.max_value < latest + Z.of_nat (length data))%Z
  end.

Lemma reads_new m base stream data e : (0 ≤ base)%Z → ev_StartSequence e = (base + Z.of_nat (length stream))%Z → ev_EndSequence e = (ev_StartSequence e + Z.of_nat (length data))%Z →
  w_len (ev_Data e) = length data → read m (ev_Data e) = data → reads m base (stream ++ data) e.
Proof.
  intros Hb Hs He Hl Hr. unfold reads. rewrite length_app, Hr, He, Hs, slice_new. split_and!; try done; lia.
Qed.

Lemma append_history base stream h data e : history_ok base stream h → (hi_latest h + Z.of_nat (length data) ≤ UInt64.max_value)%Z → ev_StartSequence e = hi_latest h →
  ev_EndSequence e = (hi_latest h + Z.of_nat (length data))%Z →
  let h' := mkHistory (hi_maxBytes h) (hi_bytes h + Z.of_nat (length data)) (hi_earliest h) (ev_EndSequence e) (hi_events h ++ [e]) (hi_head h) (hi_acks h) in
  history_ok base (stream ++ data) h' ∧ live h' = live h ++ [e].
Proof.
  intros [Hh Hc Hb ? Hl ? ?] Hfull Hs He. assert (Hlive : drop (hi_head h) (hi_events h ++ [e]) = live h ++ [e]) by (unfold live; by rewrite drop_app_le).
  simpl. split; [|done]. split; unfold live; simpl; rewrite ?Hlive, ?He, ?length_app; simpl; try done; try lia.
  apply chain_app. exists (hi_latest h). split; [done|]. simpl. rewrite He. split_and!; [done|lia|done].
Qed.

Lemma drop_oldest_buffers n m h m' h' : drop_oldest n m h = (m', h') → hp_buffers m' = hp_buffers m.
Proof.
  revert m h. induction n as [|n IH]; intros m h; simpl; [by intros [= <- <-]|]. destruct (_ <? _)%Z; [|by intros [= <- <-]]. destruct (_ !! _); [|by intros [= <- <-]].
  intros ->%IH. apply Release_buffers.
Qed.

Lemma compactLocked_buffers m h m' h' : compactLocked m h = (m', h') → hp_buffers m' = hp_buffers m.
Proof. unfold compactLocked. destruct (drop_oldest _ _ _) as [m1 h1] eqn:Hd. apply drop_oldest_buffers in Hd. repeat case_match; by intros [= <- <-]. Qed.

(** What is needed of the buffer that is appended. *)
Definition appendable (base : Z) (stream : list ascii) (m : Heap) (h : History) (prod : list nat) (held : list Event) (data : window) (pooled : bool) : Prop :=
  w_len data = length (read m data) ∧
  if pooled then all_ok base stream m h (w_buf data :: prod) held else all_ok base stream m h prod held ∧ unused m prod (live h ++ held) (w_buf data).

Lemma appendable_unused base stream m h prod held data pooled : appendable base stream m h prod held data pooled → all_ok base stream m h prod held ∧ unused m prod (live h ++ held) (w_buf data).
Proof.
  intros [_ Hp]. destruct pooled; [|done]. destruct Hp as [? Hheap ?]. destruct (producing_unused _ _ _ _ Hheap). by split.
Qed.

Lemma appendable_refused base stream m h prod held data (pooled : bool) : appendable base stream m h prod held data pooled →
  all_ok base stream (if pooled then ReleaseBuffer m (w_buf data) else m) h prod held.
Proof.
  intros [_ Hp]. destruct pooled; [|by destruct Hp]. destruct Hp as [? Hheap Hr]. split; [done|by apply ReleaseBuffer_ok|done].
Qed.

Lemma appendOwned_ok base stream m h ch data pooled producer pick prod held m' h' r : appendable base stream m h prod held data pooled → bounded h →
  appendOwned m h ch data pooled producer pick = (m', h', r) →
  all_ok base (appended r (read m data) stream) m' h' prod (match r with inr e => if producer then own e held else held | inl _ => held end) ∧ bounded h' ∧
  hp_buffers m' = hp_buffers m ∧ append_answer m' base stream (hi_latest h) (read m data) r.
Proof.
  intros Ha Hbd. pose proof (appendable_refused _ _ _ _ _ _ _ _ Ha) as Href. destruct (appendable_unused _ _ _ _ _ _ _ _ Ha) as [[Hhist Hheap Hr] Hun]. destruct Ha as [Hlen _].
  assert (Hsame : hp_buffers (if pooled then ReleaseBuffer m (w_buf data) else m) = hp_buffers m) by (by destruct pooled).
  pose proof (hk_latest _ _ _ Hhist) as Hlat. pose proof (hk_base _ _ _ Hhist) as Hbase. unfold appendOwned. destruct (Nat.eqb_spec (w_len data) 0) as [Hz|Hnz].
  { intros [= <- <- <-]. assert (Hnil : read m data = []) by (apply nil_length_inv; lia). unfold append_answer. rewrite Hnil. simpl. rewrite app_nil_r. unfold own. simpl. split_and!; try done; [by destruct producer| |lia].
    replace stream with (stream ++ []) at 1 by apply app_nil_r. apply reads_new; simpl; try done; lia. }
  destruct (Z.ltb_spec (UInt64.max_value - hi_latest h) (Z.of_nat (w_len data))) as [Hf|Hf].
  { intros [= <- <- <-]. simpl. split_and!; try done. lia. }
  destruct (pool_get _ _ _) as [o pool] eqn:Hg. set (e := mkEvent _ _ _ _ _). destruct (compactLocked _ _) as [m2 h2] eqn:Hc. intros [= <- <- <-].
  pose proof (own_ok m prod (live h ++ held) data pooled (if producer then 2 else 1)%nat pick o pool e Hheap Hun ltac:(by destruct producer; lia) Hg eq_refl eq_refl) as Hown.
  destruct (append_history base stream h (read m data) e Hhist ltac:(lia) eq_refl ltac:(simpl; lia)) as [Hhist' Hlive]. rewrite <-Hlen in Hhist', Hlive.
  assert (Hread : reads m base (stream ++ read m data) e) by (apply reads_new; simpl; done || lia).
  pose proof (compactLocked_buffers _ _ _ _ Hc) as Hbuf. simpl in Hbuf. eapply (compactLocked_ok base (stream ++ read m data) _ _ prod (if producer then e :: held else held)) in Hc as (Hok & Hb2 & _).
  - split_and!; try done. split_and!; try done; [|simpl; lia]. eapply reads_heap; [exact Hread|]. unfold read. by rewrite Hbuf.
  - split; [exact Hhist'| |].
    + rewrite Hlive. replace (if producer then 2 else 1)%Z with (Z.of_nat (if producer then 2 else 1)%nat) by (by destruct producer). eapply heap_ok_perm; [|exact Hown].
      destruct producer; simpl; rewrite <-app_assoc; simpl; rewrite <-Permutation_middle; [|done]. by rewrite <-Permutation_middle.
    + rewrite Hlive. intros x. rewrite elem_of_app, list_elem_of_singleton. intros [Hx| ->]; [|exact Hread].
      apply reads_app. by apply Hr.
Qed.

(** * What a history replays, over any calls and any use of its references

    The references of the world are those that producers, viewers and the writer of the session hold; each may be kept for any time, in whole or in part. *)

#[local] Arguments cloneEvent : simpl never.
#[local] Arguments clone : simpl never.

(** ** Copies *)

Lemma unowned_ok m prod l e : heap_ok m prod l → unused m prod l (w_buf (ev_Data e)) → ev_owner e = None → heap_ok m prod (e :: l).
Proof.
  intros [H1 H2 H3 H4 H5 H6 H7] (Hdom & Hnf & Hev & Hown) Ho. assert (Hrefs : ∀ o, refs (e :: l) o = refs l o) by (intros o; rewrite refs_cons; unfold owned_by; rewrite Ho, bool_decide_eq_false_2 by done; lia).
  split; try done.
  - intros o. rewrite Hrefs. apply H4.
  - intros o ob. rewrite Hrefs. apply H5.
  - intros x. rewrite elem_of_cons. intros [->|Hx]; [|by apply H6]. split_and!; try done. by rewrite Ho.
  - intros o ob Ha Hp. destruct (H7 _ _ Ha Hp) as [He ?]. split; [|done]. intros x. rewrite elem_of_cons. intros [->|Hx] Hb; [by destruct (Hown _ _ Ha)|by apply He].
Qed.

Lemma kept_dom m prod l e : heap_ok m prod l → e ∈ l → is_Some (hp_buffers m !! w_buf (ev_Data e)).
Proof. intros Hok He. by destruct (ho_event _ _ _ Hok _ He) as (_ & ? & _). Qed.

Lemma clone_grows m data m' w : clone m data = (m', w) → grows m m'.
Proof. unfold clone. intros [= <- <-]. apply insert_subseteq, new_buffer_fresh. Qed.

Lemma grows_same m m' : hp_buffers m' = hp_buffers m → grows m m'.
Proof. unfold grows. by intros ->. Qed.

Lemma grows_trans m m' m'' : grows m m' → grows m' m'' → grows m m''.
Proof. unfold grows. by intros ->. Qed.

Lemma cloneEvent_ok base stream m prod l e m' e' : cloneEvent m e = (m', e') → heap_ok m prod l → reads m base stream e →
  heap_ok m' prod (e' :: l) ∧ grows m m' ∧ reads m' base stream e' ∧ ev_owner e' = None ∧ ev_StartSequence e' = ev_StartSequence e ∧ ev_EndSequence e' = ev_EndSequence e.
Proof.
  unfold cloneEvent. destruct (clone m _) as [m1 w] eqn:Hc. intros [= <- <-] Hok (H1 & H2 & Hw & Hr). destruct (clone_ok _ _ _ _ _ _ Hc Hok) as (Hok1 & Hun & Hrd & Hsame).
  assert (Hlen : w_len w = length (read m (ev_Data e))) by (unfold clone in Hc; by injection Hc as <- <-). split_and!; try done; [by apply unowned_ok|by eapply clone_grows|].
  unfold reads. simpl. rewrite Hrd, Hlen, Hr. split_and!; try done; try lia. unfold slice. rewrite length_take, length_drop. lia.
Qed.

Lemma Append_ok base stream m h ch data pick prod held m' h' r : all_ok base stream m h prod held → bounded h → Append m h ch data pick = (m', h', r) →
  all_ok base (appended r data stream) m' h' prod (match r with inr e => e :: held | inl _ => held end) ∧ bounded h' ∧ grows m m' ∧ append_answer m' base stream (hi_latest h) data r.
Proof.
  intros [Hhist Hheap Hr] Hbd. unfold Append, AppendOwned. destruct (clone m data) as [m1 w] eqn:Hc. destruct (clone_ok _ _ _ _ _ _ Hc Hheap) as (Hheap1 & Hun & Hrd & _). pose proof (clone_grows _ _ _ _ Hc) as Hg1.
  assert (Hlen : w_len w = length data) by (unfold clone in Hc; by injection Hc as <- <-). assert (Ha : appendable base stream m1 h prod held w false).
  { split; [by rewrite Hrd|]. split; [|done]. split; [done|done|]. intros e He. eapply kept_reads; [exact Hheap|apply elem_of_app; by left|done|by apply Hr]. }
  destruct (appendOwned _ _ _ _ _ _ _) as [[m2 h2] [err|e]] eqn:Hap; destruct (appendOwned_ok _ _ _ _ _ _ _ _ _ _ _ _ _ _ Ha Hbd Hap) as (Hok & Hb & Hbuf & Hans); rewrite Hrd in *;
    pose proof (grows_trans _ _ _ Hg1 (grows_same _ _ Hbuf)) as Hg2.
  { by intros [= <- <- <-]. }
  destruct (cloneEvent m2 e) as [m3 e'] eqn:Hce. intros [= <- <- <-]. destruct Hok as [Hhist2 Hheap2 Hr2], Hans as (Hre & Hs & He). simpl in *.
  destruct (cloneEvent_ok _ _ _ _ _ _ _ _ Hce Hheap2 Hre) as (Hheap3 & Hg3 & Hr3 & _ & Hs' & He'). split_and!; [|done|by eapply grows_trans|done|by rewrite Hs'|by rewrite He'].
  split; [done|eapply heap_ok_perm; [|exact Hheap3]; apply Permutation_middle|]. intros x Hx. eapply kept_reads; [exact Hheap2|apply elem_of_app; by left|done|by apply Hr2].
Qed.

(** ** The limit, and clearing *)

Lemma SetLimit_ok base stream m h n prod held m' h' r : all_ok base stream m h prod held → bounded h → (0 ≤ n)%Z → SetLimit m h n = (m', h', r) →
  all_ok base stream m' h' prod held ∧ bounded h' ∧ grows m m'.
Proof.
  intros [[? ? ? ? ? ? ?] Hheap Hr] Hbd Hn. unfold SetLimit. destruct (Z.eqb_spec n 0); [intros [= <- <- <-]; split_and!; [done..|by apply grows_same]|]. destruct (compactLocked _ _) as [m1 h1] eqn:Hc. intros [= <- <- <-].
  pose proof (compactLocked_buffers _ _ _ _ Hc) as Hbuf. eapply (compactLocked_ok base stream) in Hc as (? & ? & _); [split_and!; try done; by apply grows_same|]. split; [split; simpl; done || lia|done|done].
Qed.

Lemma releases_ok m prod l held : heap_ok m prod (l ++ held) → heap_ok (foldl Release m l) prod held ∧ hp_buffers (foldl Release m l) = hp_buffers m.
Proof.
  revert m. induction l as [|e l IH]; intros m; simpl; [done|]. intros H%Release_ok. destruct (IH _ H) as [? ->]. split; [done|]. apply Release_buffers.
Qed.

Lemma Clear_ok base stream m h prod held m' h' r : all_ok base stream m h prod held → Clear m h = (m', h', r) → all_ok base stream m' h' prod held ∧ bounded h' ∧ grows m m'.
Proof.
  intros [[? Hchain ? ? ? ? ?] Hheap Hr]. unfold Clear. destruct (releases_ok _ _ _ _ Hheap) as [Hh Hb]. intros [= <- <- <-]. pose proof (chain_le _ _ _ Hchain). split_and!; [|split; [simpl; lia|left; simpl; unfold minCompactEvents; lia]|by apply grows_same].
  split; [split; simpl; try done; lia|done|]. unfold live. simpl. intros e He. by apply elem_of_nil in He.
Qed.

(** ** Replay *)

(** How far a replay goes. *)
Definition replay_end (limit from latest : Z) : Z := if (0 <? limit)%Z then Z.min latest (from + limit) else latest.

(** What is true of the events that were collected so far. *)
Record replaying (base : Z) (stream : list ascii) (from : Z) (m0 m : Heap) (prod : list nat) (l : list Event) (r : Replay) : Prop := {
  ry_heap : heap_ok m prod (rp_Events r ++ l);
  ry_same : hp_buffers m = hp_buffers m0;
  ry_reads : ∀ e, e ∈ rp_Events r → reads m base stream e;
  ry_chain : chain from (rp_Events r) (rp_To r);
}.

Lemma replaying_step base stream from m0 m prod l r e t : replaying base stream from m0 m prod l r → e ∈ l → reads m0 base stream e → (ev_StartSequence e ≤ rp_To r)%Z → (rp_To r ≤ t ≤ ev_EndSequence e)%Z →
  replaying base stream from m0 (Retain m e) prod l (mkReplay (rp_From r) t (rp_Earliest r) (rp_Latest r) (rp_Events r ++ [part e (rp_To r) t])).
Proof.
  intros [Hh Hm Hr Hc] He Hre Hs Ht. assert (Hin : e ∈ rp_Events r ++ l) by (apply elem_of_app; by right). assert (Hp : (rp_Events r ++ [part e (rp_To r) t]) ++ l ≡ₚ part e (rp_To r) t :: rp_Events r ++ l) by (rewrite <-app_assoc; symmetry; apply Permutation_middle).
  split; simpl.
  - eapply heap_ok_perm; [symmetry; exact Hp|]. by eapply Retain_ok.
  - by rewrite Retain_buffers.
  - intros x. rewrite elem_of_app, list_elem_of_singleton. intros Hx. eapply (reads_heap m); [|unfold read; by rewrite Retain_buffers]. destruct Hx as [Hx| ->]; [by apply Hr|]. apply part_reads; [|lia|lia].
    eapply reads_heap; [exact Hre|]. unfold read. by rewrite Hm.
  - apply chain_app. exists (rp_To r). split; [done|]. simpl. lia.
Qed.

Lemma replay_loop_ok base stream limit from m0 prod l latest : (from ≤ latest)%Z → ∀ events s remaining m r m' r', chain s events latest → (∀ e, e ∈ events → e ∈ l ∧ reads m0 base stream e) → replaying base stream from m0 m prod l r →
  rp_To r = Z.max from s → ((0 < limit)%Z → remaining = (limit - (rp_To r - from))%Z ∧ (0 < remaining)%Z) → replay_loop limit from events remaining m r = (m', r') →
  replaying base stream from m0 m' prod l r' ∧ rp_To r' = replay_end limit from latest ∧ rp_From r' = rp_From r ∧ rp_Earliest r' = rp_Earliest r ∧ rp_Latest r' = rp_Latest r.
Proof.
  intros Hfrom. induction events as [|e events IH]; intros s remaining m r m' r' Hc Hin Hr Hto Hrem; simpl in *.
  { intros [= <- <-]. split_and!; try done. unfold replay_end. destruct (Z.ltb_spec 0 limit) as [Hl|]; [destruct (Hrem Hl)|]; lia. }
  destruct Hc as (Hs & Hle & Hc). assert (Hin' : ∀ x, x ∈ events → x ∈ l ∧ reads m0 base stream x) by (intros x Hx; apply Hin; by right). pose proof (chain_le _ _ _ Hc) as Hlat.
  destruct (Z.leb_spec (ev_EndSequence e) from); [apply (IH _ _ _ _ _ _ Hc Hin' Hr); [lia|done]|]. rewrite Hs. rewrite <-Hto.
  set (t := if (0 <? limit)%Z && _ then _ else _).
  assert (Ht : (rp_To r ≤ t ≤ ev_EndSequence e)%Z ∧ ((0 < limit)%Z → (t = ev_EndSequence e ∧ t - rp_To r ≤ remaining ∨ t = rp_To r + remaining)%Z) ∧ ((limit ≤ 0)%Z → t = ev_EndSequence e)).
  { unfold t. destruct (Z.ltb_spec 0 limit) as [Hl|]; simpl; [|lia]. destruct (Hrem Hl). destruct (Z.ltb_spec remaining (ev_EndSequence e - rp_To r)); lia. }
  clearbody t. destruct Ht as (Hb & Hpos & Hneg). destruct (Z.ltb_spec (rp_To r) t) as [Hlt|Hge].
  - destruct (Hin e (list_elem_of_here _ _)) as [Hel Hre]. pose proof (replaying_step _ _ _ _ _ _ _ _ e t Hr Hel Hre ltac:(lia) Hb) as Hr'. destruct (Z.ltb_spec 0 limit) as [Hl|Hl].
    + destruct (Hrem Hl) as [Hrm Hrp]. specialize (Hpos Hl). destruct (Z.eqb_spec (remaining - (t - rp_To r)) 0) as [Hz|Hz].
      * intros [= <- <-]. split_and!; try done. simpl. unfold replay_end. rewrite (proj2 (Z.ltb_lt _ _) Hl). lia.
      * intros Hloop. apply (IH _ _ _ _ _ _ Hc Hin' Hr') in Hloop as (? & ? & ? & ? & ?); [done|simpl; lia|simpl; lia].
    + specialize (Hneg Hl). intros Hloop. apply (IH _ _ _ _ _ _ Hc Hin' Hr') in Hloop as (? & ? & ? & ? & ?); [done|simpl; lia|simpl; lia].
  - apply (IH _ _ _ _ _ _ Hc Hin' Hr); [|done]. destruct (Z.ltb_spec 0 limit) as [Hl|Hl]; [destruct (Hrem Hl); specialize (Hpos Hl)|specialize (Hneg Hl)]; lia.
Qed.

Lemma chain_output base stream m l s e : chain s l e → (base ≤ s)%Z → (∀ x, x ∈ l → reads m base stream x) → concat (map (λ x, read m (ev_Data x)) l) = slice base stream s e.
Proof.
  revert s. induction l as [|x l IH]; intros s; simpl.
  - intros <- Hs _. unfold slice. by rewrite Z.sub_diag.
  - intros (<- & Hle & Hc) Hs Hr. rewrite (IH _ Hc); [|lia|intros y Hy; apply Hr; by right]. destruct (Hr x (list_elem_of_here _ _)) as (_ & _ & _ & ->). apply slice_join; [lia|by eapply chain_le].
Qed.

(** What a replay gives: the output from the number asked for, as far as the limit allows, in order and complete; an error exactly when that number is not kept. *)
Definition replay_answer (m : Heap) (base : Z) (stream : list ascii) (earliest latest from limit : Z) (r : HistoryError + Replay) : Prop :=
  match r with
  | inr rp => (earliest ≤ from ≤ latest)%Z ∧ rp_From rp = from ∧ rp_To rp = replay_end limit from latest ∧ rp_Earliest rp = earliest ∧ rp_Latest rp = latest ∧
      chain from (rp_Events rp) (rp_To rp) ∧ concat (map (λ e, read m (ev_Data e)) (rp_Events rp)) = slice base stream from (rp_To rp)
  | inl err => ((from < earliest)%Z ∧ err = GapError from earliest latest) ∨ ((latest < from)%Z ∧ err = ErrInvalidCursor)
  end.

Definition replay_refs (r : HistoryError + Replay) : list Event := match r with inr rp => rp_Events rp | inl _ => [] end.

(** A replay that the heap carries: the references are counted and read the output. *)
Definition replayed (base : Z) (stream : list ascii) (m m' : Heap) (h : History) (prod : list nat) (held : list Event) (from limit : Z) (r : HistoryError + Replay) : Prop :=
  all_ok base stream m' h prod (replay_refs r ++ held) ∧ grows m m' ∧ (∀ e, e ∈ replay_refs r → reads m' base stream e) ∧ replay_answer m' base stream (hi_earliest h) (hi_latest h) from limit r.

Lemma refs_first (l x held : list Event) : l ++ x ++ held ≡ₚ x ++ l ++ held.
Proof. rewrite !app_assoc. f_equiv. apply Permutation_app_comm. Qed.

Lemma ReplayOwned_ok base stream m h from limit prod held m' r : all_ok base stream m h prod held → ReplayOwned m h from limit = (m', r) → replayed base stream m m' h prod held from limit r.
Proof.
  intros Hok. pose proof Hok as [Hhist Hheap Hr]. assert (Hnil : ∀ e, e ∈ [] → reads m base stream e) by (intros e He; by apply elem_of_nil in He). unfold ReplayOwned, replayed.
  destruct (Z.ltb_spec from (hi_earliest h)); [intros [= <- <-]; split_and!; try done; [by apply grows_same|by left]|].
  destruct (Z.ltb_spec (hi_latest h) from); [intros [= <- <-]; split_and!; try done; [by apply grows_same|by right]|]. destruct (replay_loop _ _ _ _ _ _) as [m1 r1] eqn:Hl. intros [= <- <-]. pose proof Hhist as [? Hc ? Hbase ? ? ?].
  eapply (replay_loop_ok base stream limit from m prod (live h ++ held) (hi_latest h)) in Hl as ([Hh1 Hm Hr1 Hc1] & Hto & Hf & He & Hlat); try done; simpl in *.
  - assert (Hg : grows m m1) by (by apply grows_same). split_and!; try done; try lia.
    + split; [done|eapply heap_ok_perm; [apply refs_first|done]|]. intros e Hin. eapply kept_reads; [exact Hheap|apply elem_of_app; by left|done|by apply Hr].
    + apply chain_output; [done|lia|done].
  - intros e Hin. split; [apply elem_of_app; by left|by apply Hr].
  - lia.
  - lia.
Qed.

Lemma clone_events_cons m e events m1 e' m2 rest : cloneEvent m e = (m1, e') → clone_events (Release m1 e) events = (m2, rest) → clone_events m (e :: events) = (m2, e' :: rest).
Proof. intros H1 H2. change (clone_events m (e :: events)) with (let '(m, e') := cloneEvent m e in let '(m, rest') := clone_events (Release m e) events in (m, e' :: rest')). by rewrite H1, H2. Qed.

Lemma clone_events_ok base stream prod events : ∀ l m m' events', clone_events m events = (m', events') → heap_ok m prod (events ++ l) → (∀ e, e ∈ events → reads m base stream e) →
  heap_ok m' prod (events' ++ l) ∧ grows m m' ∧ (∀ e, e ∈ events' → reads m' base stream e) ∧ (∀ s t, chain s events t → chain s events' t).
Proof.
  induction events as [|e events IH]; intros l m m' events'; [intros [= <- <-]; split; [done|]; split; [by apply grows_same|done]|]. destruct (cloneEvent m e) as [m1 e'] eqn:Hc. destruct (clone_events (Release m1 e) events) as [m2 rest'] eqn:Hcs.
  rewrite (clone_events_cons _ _ _ _ _ _ _ Hc Hcs). intros [= <- <-] Hok Hr. simpl in Hok. destruct (cloneEvent_ok base stream _ _ _ _ _ _ Hc Hok (Hr e (list_elem_of_here _ _))) as (Hok1 & Hg1 & Hr1 & _ & Hs & He).
  assert (Hok2 : heap_ok (Release m1 e) prod (events ++ e' :: l)).
  { apply Release_ok. eapply heap_ok_perm; [|exact Hok1]. rewrite <-Permutation_middle. apply perm_swap. }
  pose proof (grows_trans _ _ _ Hg1 (grows_same _ _ (Release_buffers m1 e))) as Hg2. assert (Hr2 : ∀ x, x ∈ events → reads (Release m1 e) base stream x).
  { intros x Hx. eapply kept_reads; [exact Hok|right; apply elem_of_app; by left|done|]. apply Hr. by right. }
  destruct (IH _ _ _ _ Hcs Hok2 Hr2) as (Hok3 & Hg3 & Hr3 & Hch). split_and!.
  - eapply heap_ok_perm; [|exact Hok3]. symmetry. apply Permutation_middle.
  - by eapply grows_trans.
  - intros x. rewrite elem_of_cons. intros [->|Hx]; [|by apply Hr3]. eapply kept_reads; [exact Hok2|apply elem_of_app; right; left|done|]. eapply reads_heap; [exact Hr1|apply Release_read].
  - intros s t (? & ? & ?). simpl. rewrite Hs, He. split_and!; try done. by apply Hch.
Qed.

Lemma ReplayCopied_ok base stream m h from limit prod held m' r : all_ok base stream m h prod held → ReplayCopied m h from limit = (m', r) → replayed base stream m m' h prod held from limit r.
Proof.
  intros Hok. unfold ReplayCopied. destruct (ReplayOwned _ _ _ _) as [m1 [err|rp]] eqn:Hro; pose proof (ReplayOwned_ok _ _ _ _ _ _ _ _ _ _ Hok Hro) as Hrep.
  { by intros [= <- <-]. }
  destruct Hrep as ([Hhist1 Hheap1 Hr1] & Hg1 & Hre & Hans), (clone_events m1 (rp_Events rp)) as [m2 events] eqn:Hc. intros [= <- <-].
  destruct (clone_events_ok base stream prod _ (live h ++ held) _ _ _ Hc) as (Hok2 & Hg2 & Hr2 & Hch); [eapply heap_ok_perm; [apply refs_first|done]|done|]. simpl in *.
  destruct Hans as (? & ? & ? & ? & ? & Hc1 & _). unfold replayed. simpl. split_and!; try done; try lia.
  - split; [done|eapply heap_ok_perm; [apply refs_first|done]|]. intros e Hin. eapply kept_reads; [exact Hheap1|apply elem_of_app; by left|done|by apply Hr1].
  - by eapply grows_trans.
  - by apply Hch.
  - apply chain_output; [by apply Hch|pose proof (hk_base _ _ _ Hhist1); lia|done].
Qed.
