(* ===== verification/HistorySessions.v ===== *)
(** * Any number of histories that share the pools

    The world holds the histories of the sessions, the buffers that their producers fill and the references that are held outside the histories.  The bytes of a session's output, and the
    number of the first of them, are recorded beside its history; the code has neither.  A history starts as Restore gives it (New is the case of no events). *)
From S2P Require Import Prelude GoStd History HistorySpec.

#[local] Arguments cloneEvent : simpl never.
#[local] Arguments clone : simpl never.

(** ** Restore *)

(** An event that was read from the store: a Go slice, and numbers of 64 bits. *)
Definition stored (m : Heap) (e : Event) : Prop := length (read m (ev_Data e)) = w_len (ev_Data e) ∧ (0 ≤ ev_StartSequence e ≤ UInt64.max_value)%Z ∧ (0 ≤ ev_EndSequence e ≤ UInt64.max_value)%Z.

Lemma slice_kept m m' w : grows m m' → length (read m w) = w_len w → read m' w = read m w.
Proof.
  intros Hg Hl. destruct (hp_buffers m !! w_buf w) as [x|] eqn:Hx; [apply grows_read; [done|by eexists]|]. assert (Hz : w_len w = 0%nat) by (rewrite <-Hl; unfold read; rewrite Hx; simpl; by rewrite drop_nil, take_nil).
  unfold read. by rewrite Hz.
Qed.

(** How many bytes more than its numbers say a history would count; it can only grow while events are restored. *)
Definition excess (h : History) : Z := (hi_bytes h + hi_earliest h - hi_latest h)%Z.

Lemma wrapped_length s e n : (0 ≤ s ≤ UInt64.max_value)%Z → (0 ≤ e ≤ UInt64.max_value)%Z → UInt64.wrap (e - s) = n → (n = e - s ∨ n = e - s + 2 ^ 64)%Z.
Proof.
  unfold UInt64.wrap, UInt64.max_value. intros Hs He <-. destruct (Z.le_gt_cases s e); [left; apply Z.mod_small; lia|right].
  rewrite <-(Z_mod_plus_full (e - s) 1). apply Z.mod_small. lia.
Qed.

Lemma restore_excess events : ∀ m h m' h', Forall (λ e, 0 ≤ ev_StartSequence e ≤ UInt64.max_value ∧ 0 ≤ ev_EndSequence e ≤ UInt64.max_value)%Z events → restore_events m h events = (m', inr h') →
  (excess h ≤ excess h')%Z ∧ hi_earliest h' = hi_earliest h ∧ hi_maxBytes h' = hi_maxBytes h ∧ hi_head h' = hi_head h.
Proof.
  induction events as [|e events IH]; intros m h m' h'; cbn [restore_events]; [intros _ [= <- <-]; split_and!; done || lia|]. rewrite Forall_cons. intros [[Hs He] Hf].
  destruct (Z.eqb_spec (ev_StartSequence e) (hi_latest h)) as [Heq|]; [|done]. destruct (Z.eqb_spec (UInt64.wrap (ev_EndSequence e - ev_StartSequence e)) (Z.of_nat (w_len (ev_Data e)))) as [Hw|]; [|done].
  cbn [negb orb]. destruct (cloneEvent m e) as [m1 e']. intros (Hx & ? & ? & ?)%IH; [|done]. simpl in *. split_and!; try done. unfold excess in *. simpl in Hx. destruct (wrapped_length _ _ _ Hs He Hw); lia.
Qed.

Lemma restore_events_ok base prod held events : ∀ m h stream m' h', all_ok base stream m h prod held → Forall (stored m) events → restore_events m h events = (m', inr h') → (excess h' < 2 ^ 64)%Z →
  all_ok base (stream ++ concat (map (λ e, read m (ev_Data e)) events)) m' h' prod held ∧ grows m m'.
Proof.
  induction events as [|e events IH]; intros m h stream m' h' Hok Hst; cbn [restore_events]; [intros [= <- <-] _; simpl; rewrite app_nil_r; split; [done|by apply grows_same]|].
  apply Forall_cons in Hst as [(Hlen & Hs & He) Hst]. destruct (Z.eqb_spec (ev_StartSequence e) (hi_latest h)) as [Heq|]; [|done].
  destruct (Z.eqb_spec (UInt64.wrap (ev_EndSequence e - ev_StartSequence e)) (Z.of_nat (w_len (ev_Data e)))) as [Hw|]; [|done]. cbn [negb orb]. destruct (cloneEvent m e) as [m1 e'] eqn:Hc. intros Hres Hex.
  assert (Hst1 : Forall (λ e, 0 ≤ ev_StartSequence e ≤ UInt64.max_value ∧ 0 ≤ ev_EndSequence e ≤ UInt64.max_value)%Z events) by (eapply Forall_impl; [exact Hst|]; by intros x (_ & ? & ?)).
  destruct (restore_excess _ _ _ _ _ Hst1 Hres) as (Hgrow & _). unfold excess in Hgrow at 1. simpl in Hgrow. destruct Hok as [Hhist Hheap Hr]. pose proof (hk_bytes _ _ _ Hhist) as Hbytes.
  assert (Hsum : Z.of_nat (w_len (ev_Data e)) = (ev_EndSequence e - ev_StartSequence e)%Z) by (destruct (wrapped_length _ _ _ Hs He Hw); [done|lia]).
  pose proof (hk_base _ _ _ Hhist). pose proof (hk_latest _ _ _ Hhist). pose proof (hk_chain _ _ _ Hhist) as Hle%chain_le.
  assert (Hre : reads m base (stream ++ read m (ev_Data e)) e) by (apply reads_new; try done; lia).
  destruct (cloneEvent_ok _ _ _ _ _ _ _ _ Hc Hheap Hre) as (Hheap1 & Hg1 & Hr1 & _ & Hs1 & He1).
  destruct (append_history base stream h (read m (ev_Data e)) e' Hhist ltac:(rewrite Hlen; lia) ltac:(congruence) ltac:(rewrite He1, Hlen; lia)) as [Hh1 Hl1]. rewrite He1, Hlen in Hh1, Hl1.
  apply (IH _ _ (stream ++ read m (ev_Data e))) in Hres as [Hok2 Hg2]; [| |eapply Forall_impl; [exact Hst|]|done].
  - simpl. rewrite app_assoc. split; [|by eapply grows_trans]. replace (map (λ e, read m (ev_Data e)) events) with (map (λ e, read m1 (ev_Data e)) events); [done|].
    apply map_ext_in. intros x Hx. apply slice_kept; [done|]. apply list_elem_of_In in Hx. by destruct (proj1 (Forall_forall _ _) Hst x Hx).
  - split; [exact Hh1|rewrite Hl1; eapply heap_ok_perm; [|exact Hheap1]; rewrite <-app_assoc; apply Permutation_middle|]. rewrite Hl1. intros x. rewrite elem_of_app, list_elem_of_singleton. intros [Hx| ->]; [|done].
    apply reads_app. eapply kept_reads; [exact Hheap|apply elem_of_app; by left|done|by apply Hr].
  - intros x (Hlx & Hsx & Hex'). unfold stored. by rewrite (slice_kept _ _ _ Hg1 Hlx).
Qed.

(** Restore accepts only events that follow each other, even when the numbers could wrap: what is more than the numbers say would exceed the limit. *)
Lemma Restore_ok m maxBytes earliest latest events prod held m' h : heap_ok m prod held → Forall (stored m) events → (0 ≤ maxBytes ≤ UInt64.max_value)%Z → (0 ≤ earliest)%Z → (latest ≤ UInt64.max_value)%Z →
  Restore m maxBytes earliest latest events = (m', inr h) →
  all_ok earliest (concat (map (λ e, read m (ev_Data e)) events)) m' h prod held ∧ bounded h ∧ grows m m' ∧ hi_earliest h = earliest ∧ hi_latest h = latest ∧ hi_maxBytes h = maxBytes.
Proof.
  intros Hheap Hst Hmax He Hl. unfold Restore, New. destruct (Z.eqb_spec maxBytes 0); [done|]. destruct (Z.ltb_spec latest earliest); [done|]. set (h0 := mkHistory _ _ _ _ _ _ _).
  destruct (restore_events m h0 events) as [m1 [err|h1]] eqn:Hres; [done|]. destruct (Z.eqb_spec (hi_latest h1) latest) as [Hlat|]; [|done]. destruct (Z.ltb_spec maxBytes (hi_bytes h1)) as [|Hb]; [done|]. intros [= <- <-].
  assert (Hst1 : Forall (λ e, 0 ≤ ev_StartSequence e ≤ UInt64.max_value ∧ 0 ≤ ev_EndSequence e ≤ UInt64.max_value)%Z events) by (eapply Forall_impl; [exact Hst|]; by intros x (_ & ? & ?)).
  destruct (restore_excess _ _ _ _ _ Hst1 Hres) as (_ & Hearl & Hmb & Hhd). simpl in *.
  destruct (restore_events_ok earliest prod held events m h0 [] m1 h1) as [Hok Hg]; [|done|done| |split_and!; try done].
  - split; [split; simpl; try done; lia|done|]. unfold live. simpl. intros e Hin. by apply elem_of_nil in Hin.
  - unfold excess. unfold UInt64.max_value in *. lia.
  - split; [congruence|left; rewrite Hhd; unfold minCompactEvents; lia].
Qed.

(** ** The world *)

Record Session := mkSession { ss_history : History; ss_base : Z; ss_output : list ascii }.
Record HWorld := mkHWorld { hw_heap : Heap; hw_sessions : gmap string Session; hw_producing : list nat; hw_held : list (string * Event) }.

Definition emptyWorld : HWorld := mkHWorld (mkHeap ∅ ∅ [] []) ∅ [] [].

Definition named (k : string) (l : list Event) : list (string * Event) := map (pair k) l.

(** A session whose history and output changed. *)
Definition put (w : HWorld) (m : Heap) (k : string) (s : Session) (prod : list nat) (held : list (string * Event)) : HWorld := mkHWorld m (<[k := s]> (hw_sessions w)) prod held.

Inductive history_step (w : HWorld) : HWorld → Prop :=
| step_acquire pick m' b : AcquireBuffer (hw_heap w) pick = (m', b) → history_step w (mkHWorld m' (hw_sessions w) (b :: hw_producing w) (hw_held w))
| step_fill b data : b ∈ hw_producing w → history_step w (mkHWorld (set_buffers (hw_heap w) (<[b := data]> (hp_buffers (hw_heap w)))) (hw_sessions w) (hw_producing w) (hw_held w))
| step_return b prod : hw_producing w ≡ₚ b :: prod → history_step w (mkHWorld (ReleaseBuffer (hw_heap w) b) (hw_sessions w) prod (hw_held w))
| step_restore k maxBytes earliest latest events m' h : hw_sessions w !! k = None → Forall (stored (hw_heap w)) events → (0 ≤ maxBytes ≤ UInt64.max_value)%Z → (0 ≤ earliest)%Z → (latest ≤ UInt64.max_value)%Z →
    Restore (hw_heap w) maxBytes earliest latest events = (m', inr h) →
    history_step w (put w m' k (mkSession h earliest (concat (map (λ e, read (hw_heap w) (ev_Data e)) events))) (hw_producing w) (hw_held w))
| step_buffer k s channel data prod pick m' h' r : hw_sessions w !! k = Some s → hw_producing w ≡ₚ w_buf data :: prod → w_len data = length (read (hw_heap w) data) →
    AppendBuffer (hw_heap w) (ss_history s) channel data pick = (m', h', r) →
    history_step w (put w m' k (mkSession h' (ss_base s) (appended r (read (hw_heap w) data) (ss_output s))) prod (named k (match r with inr e => own e [] | inl _ => [] end) ++ hw_held w))
| step_append k s channel data pick m' h' r : hw_sessions w !! k = Some s → Append (hw_heap w) (ss_history s) channel data pick = (m', h', r) →
    history_step w (put w m' k (mkSession h' (ss_base s) (appended r data (ss_output s))) (hw_producing w) (named k (match r with inr e => [e] | inl _ => [] end) ++ hw_held w))
| step_limit k s n m' h' r : hw_sessions w !! k = Some s → (0 ≤ n)%Z → SetLimit (hw_heap w) (ss_history s) n = (m', h', r) →
    history_step w (put w m' k (mkSession h' (ss_base s) (ss_output s)) (hw_producing w) (hw_held w))
| step_clear k s m' h' latest : hw_sessions w !! k = Some s → Clear (hw_heap w) (ss_history s) = (m', h', latest) →
    history_step w (put w m' k (mkSession h' (ss_base s) (ss_output s)) (hw_producing w) (hw_held w))
| step_replay k s from limit m' r : hw_sessions w !! k = Some s → ReplayOwned (hw_heap w) (ss_history s) from limit = (m', r) →
    history_step w (put w m' k s (hw_producing w) (named k (replay_refs r) ++ hw_held w))
| step_copy k s from limit m' r : hw_sessions w !! k = Some s → ReplayCopied (hw_heap w) (ss_history s) from limit = (m', r) →
    history_step w (put w m' k s (hw_producing w) (named k (replay_refs r) ++ hw_held w))
| step_acknowledge k s id next h' r : hw_sessions w !! k = Some s → Acknowledge (ss_history s) id next = (h', r) →
    history_step w (put w (hw_heap w) k (mkSession h' (ss_base s) (ss_output s)) (hw_producing w) (hw_held w))
| step_forget k s id : hw_sessions w !! k = Some s → history_step w (put w (hw_heap w) k (mkSession (Forget (ss_history s) id) (ss_base s) (ss_output s)) (hw_producing w) (hw_held w))
| step_retain k e start end_ : (k, e) ∈ hw_held w → (ev_StartSequence e ≤ start ≤ end_)%Z → (end_ ≤ ev_EndSequence e)%Z →
    history_step w (mkHWorld (Retain (hw_heap w) e) (hw_sessions w) (hw_producing w) ((k, part e start end_) :: hw_held w))
| step_release k e held : hw_held w ≡ₚ (k, e) :: held → history_step w (mkHWorld (Release (hw_heap w) e) (hw_sessions w) (hw_producing w) held).

(** ** The invariant *)

Definition kept (sessions : gmap string Session) : list Event := concat (map (λ p, live (ss_history p.2)) (map_to_list sessions)).

Definition session_ok (m : Heap) (s : Session) : Prop :=
  history_ok (ss_base s) (ss_output s) (ss_history s) ∧ bounded (ss_history s) ∧ ∀ e, e ∈ live (ss_history s) → reads m (ss_base s) (ss_output s) e.

Record world_ok (w : HWorld) : Prop := {
  wo_heap : heap_ok (hw_heap w) (hw_producing w) (kept (hw_sessions w) ++ map snd (hw_held w));
  wo_session : ∀ k s, hw_sessions w !! k = Some s → session_ok (hw_heap w) s;
  wo_held : ∀ k e, (k, e) ∈ hw_held w → ∃ s, hw_sessions w !! k = Some s ∧ reads (hw_heap w) (ss_base s) (ss_output s) e;
}.

Lemma kept_insert k s ss : ss !! k = None → kept (<[k := s]> ss) ≡ₚ live (ss_history s) ++ kept ss.
Proof. intros Hk. unfold kept. rewrite (map_to_list_insert _ _ _ Hk). done. Qed.

Lemma kept_focus k s ss : ss !! k = Some s → kept ss ≡ₚ live (ss_history s) ++ kept (delete k ss).
Proof. intros Hk. rewrite <-kept_insert by apply lookup_delete_eq. by rewrite insert_delete_id. Qed.

Lemma kept_put k s ss : kept (<[k := s]> ss) ≡ₚ live (ss_history s) ++ kept (delete k ss).
Proof. rewrite <-kept_insert by apply lookup_delete_eq. by rewrite insert_delete_eq. Qed.

Lemma kept_elem k s ss e : ss !! k = Some s → e ∈ live (ss_history s) → e ∈ kept ss.
Proof. intros Hk He. rewrite (kept_focus _ _ _ Hk). apply elem_of_app. by left. Qed.

Lemma focus w k s : world_ok w → hw_sessions w !! k = Some s →
  all_ok (ss_base s) (ss_output s) (hw_heap w) (ss_history s) (hw_producing w) (kept (delete k (hw_sessions w)) ++ map snd (hw_held w)) ∧ bounded (ss_history s).
Proof.
  intros [Hh Hs _] Hk. destruct (Hs _ _ Hk) as (? & ? & ?). split; [|done]. split; [done| |done]. eapply heap_ok_perm; [|exact Hh]. by rewrite (kept_focus _ _ _ Hk), app_assoc.
Qed.

(** The session of a step changes; what the others keep, and what is held, is read as before. *)
Lemma refocus w k s m' h' output' prod' refs' : world_ok w → (∀ s0, hw_sessions w !! k = Some s0 → ss_base s0 = ss_base s ∧ ∃ more, output' = ss_output s0 ++ more) →
  all_ok (ss_base s) output' m' h' prod' (refs' ++ kept (delete k (hw_sessions w)) ++ map snd (hw_held w)) → bounded h' → grows (hw_heap w) m' → (∀ e, e ∈ refs' → reads m' (ss_base s) output' e) →
  world_ok (put w m' k (mkSession h' (ss_base s) output') prod' (named k refs' ++ hw_held w)).
Proof.
  intros Hw Hsame [Hhist Hheap Hr] Hb Hg Hrefs. pose proof Hw as [Hh0 Hs0 Hheld0]. split; simpl.
  - eapply heap_ok_perm; [|exact Hheap]. rewrite kept_put, map_app. unfold named. rewrite map_map, map_id. simpl. rewrite <-app_assoc. f_equiv. apply refs_first.
  - intros k1 s1. destruct (decide (k1 = k)) as [->|Hne].
    + rewrite lookup_insert_eq. intros [= <-]. by split_and!.
    + rewrite lookup_insert_ne by done. intros Hk1. destruct (Hs0 _ _ Hk1) as (? & ? & Hread). split_and!; try done. intros e He. eapply kept_reads; [exact Hh0| |exact Hg|by apply Hread]. apply elem_of_app. left. by eapply kept_elem.
  - intros k1 e. rewrite elem_of_app. intros [Hin|Hin].
    + unfold named in Hin. apply list_elem_of_fmap in Hin as (x & [= -> ->] & Hx). rewrite lookup_insert_eq. eexists. split; [done|]. by apply Hrefs.
    + destruct (Hheld0 _ _ Hin) as (s1 & Hk1 & Hread). assert (Hread' : reads m' (ss_base s1) (ss_output s1) e).
      { eapply kept_reads; [exact Hh0| |exact Hg|done]. apply elem_of_app. right. apply list_elem_of_fmap. by exists (k1, e). }
      destruct (decide (k1 = k)) as [->|Hne]; [|exists s1; by rewrite lookup_insert_ne by done]. rewrite lookup_insert_eq. eexists. split; [done|]. simpl. destruct (Hsame _ Hk1) as (<- & more & ->). by apply reads_app.
Qed.

(** The sessions do not change, and what is referenced is read as before. *)
Lemma world_others w m' prod' held' : world_ok w → heap_ok m' prod' (kept (hw_sessions w) ++ map snd held') →
  (∀ e, e ∈ kept (hw_sessions w) ++ map snd (hw_held w) → read m' (ev_Data e) = read (hw_heap w) (ev_Data e)) →
  (∀ k e, (k, e) ∈ held' → (k, e) ∈ hw_held w ∨ ∃ s, hw_sessions w !! k = Some s ∧ reads (hw_heap w) (ss_base s) (ss_output s) e ∧ read m' (ev_Data e) = read (hw_heap w) (ev_Data e)) →
  world_ok (mkHWorld m' (hw_sessions w) prod' held').
Proof.
  intros [Hh Hs Hheld] Hheap Hread Hsub. split; [done| |]; simpl.
  - intros k s Hk. destruct (Hs _ _ Hk) as (? & ? & Hr). split_and!; try done. intros e He. eapply reads_heap; [by apply Hr|]. apply Hread, elem_of_app. left. by eapply kept_elem.
  - intros k e [Hin|(s & Hk & Hr & Heq)]%Hsub.
    + destruct (Hheld _ _ Hin) as (s & Hk & Hr). exists s. split; [done|]. eapply reads_heap; [done|]. apply Hread, elem_of_app. right. apply list_elem_of_fmap. by exists (k, e).
    + exists s. split; [done|]. by eapply reads_heap.
Qed.

Lemma world_same w k s m' h' output' prod' refs' : world_ok w → hw_sessions w !! k = Some s → (∃ more, output' = ss_output s ++ more) →
  all_ok (ss_base s) output' m' h' prod' (refs' ++ kept (delete k (hw_sessions w)) ++ map snd (hw_held w)) → bounded h' → grows (hw_heap w) m' → (∀ e, e ∈ refs' → reads m' (ss_base s) output' e) →
  world_ok (put w m' k (mkSession h' (ss_base s) output') prod' (named k refs' ++ hw_held w)).
Proof. intros Hw Hk Hmore. apply refocus; [done|]. intros s0. rewrite Hk. intros [= <-]. done. Qed.

Lemma appended_more r data output : ∃ more, appended r data output = output ++ more.
Proof. destruct r; simpl; [exists []; by rewrite app_nil_r|by eexists]. Qed.

Lemma acks_all_ok base stream m h acks prod held : all_ok base stream m h prod held →
  all_ok base stream m (mkHistory (hi_maxBytes h) (hi_bytes h) (hi_earliest h) (hi_latest h) (hi_events h) (hi_head h) acks) prod held.
Proof. intros [[? ? ? ? ? ? ?] Hh Hr]. split; [by split|done|done]. Qed.

Lemma no_refs m base stream e : e ∈ @nil Event → reads m base stream e.
Proof. intros He. by apply elem_of_nil in He. Qed.

(** The lock is held: a step of one session. *)
Lemma world_ok_buffer w k s channel data prod pick m' h' r : world_ok w → hw_sessions w !! k = Some s → hw_producing w ≡ₚ w_buf data :: prod → w_len data = length (read (hw_heap w) data) →
  AppendBuffer (hw_heap w) (ss_history s) channel data pick = (m', h', r) →
  world_ok (put w m' k (mkSession h' (ss_base s) (appended r (read (hw_heap w) data) (ss_output s))) prod (named k (match r with inr e => own e [] | inl _ => [] end) ++ hw_held w)).
Proof.
  intros Hw Hk Hp Hl Ha. destruct (focus _ _ _ Hw Hk) as [[Hhist Hheap Hr] Hb]. unfold AppendBuffer in Ha.
  assert (Hap : appendable (ss_base s) (ss_output s) (hw_heap w) (ss_history s) prod (kept (delete k (hw_sessions w)) ++ map snd (hw_held w)) data true).
  { split; [done|]. split; [done| |done]. eapply heap_ok_producing; [exact Hp|done]. }
  destruct (appendOwned_ok _ _ _ _ _ _ _ _ _ _ _ _ _ _ Hap Hb Ha) as (Hok & Hb' & Hbuf & Hans). apply world_same; try done; [apply appended_more| |by apply grows_same|].
  - destruct r as [err|e]; [done|]. unfold own in *. by destruct (ev_owner e).
  - intros x. destruct r as [err|e]; [apply no_refs|]. destruct Hans as [Hre _]. unfold own. destruct (ev_owner e); [|apply no_refs]. rewrite list_elem_of_singleton. by intros ->.
Qed.

Lemma world_ok_append w k s channel data pick m' h' r : world_ok w → hw_sessions w !! k = Some s → Append (hw_heap w) (ss_history s) channel data pick = (m', h', r) →
  world_ok (put w m' k (mkSession h' (ss_base s) (appended r data (ss_output s))) (hw_producing w) (named k (match r with inr e => [e] | inl _ => [] end) ++ hw_held w)).
Proof.
  intros Hw Hk Ha. destruct (focus _ _ _ Hw Hk) as [Hok Hb]. destruct (Append_ok _ _ _ _ _ _ _ _ _ _ _ _ Hok Hb Ha) as (Hok' & Hb' & Hg & Hans). apply world_same; try done; [apply appended_more|by destruct r|].
  intros x. destruct r as [err|e]; [apply no_refs|]. destruct Hans as [Hre _]. rewrite list_elem_of_singleton. by intros ->.
Qed.

Lemma world_ok_replayed w k s from limit m' r : world_ok w → hw_sessions w !! k = Some s →
  replayed (ss_base s) (ss_output s) (hw_heap w) m' (ss_history s) (hw_producing w) (kept (delete k (hw_sessions w)) ++ map snd (hw_held w)) from limit r →
  world_ok (put w m' k s (hw_producing w) (named k (replay_refs r) ++ hw_held w)).
Proof.
  intros Hw Hk (Hok & Hg & Hr & _). destruct (focus _ _ _ Hw Hk) as [_ Hb]. destruct s as [h base output]. apply (world_same w k (mkSession h base output)); try done. exists []. by rewrite app_nil_r.
Qed.

Lemma more_nil (output : list ascii) : ∃ more, output = output ++ more.
Proof. exists []. by rewrite app_nil_r. Qed.

(** A step of a session that gives no reference. *)
Lemma world_ok_quiet w k s m' h' : world_ok w → hw_sessions w !! k = Some s →
  all_ok (ss_base s) (ss_output s) m' h' (hw_producing w) (kept (delete k (hw_sessions w)) ++ map snd (hw_held w)) → bounded h' → grows (hw_heap w) m' →
  world_ok (put w m' k (mkSession h' (ss_base s) (ss_output s)) (hw_producing w) (hw_held w)).
Proof. intros Hw Hk Hok Hb Hg. apply (world_same w k s m' h' (ss_output s) (hw_producing w) []); try done; [apply more_nil|apply no_refs]. Qed.

Lemma world_ok_restore w k maxBytes earliest latest events m' h : world_ok w → hw_sessions w !! k = None → Forall (stored (hw_heap w)) events → (0 ≤ maxBytes ≤ UInt64.max_value)%Z → (0 ≤ earliest)%Z →
  (latest ≤ UInt64.max_value)%Z → Restore (hw_heap w) maxBytes earliest latest events = (m', inr h) →
  world_ok (put w m' k (mkSession h earliest (concat (map (λ e, read (hw_heap w) (ev_Data e)) events))) (hw_producing w) (hw_held w)).
Proof.
  intros Hw Hk Hst Hmax He Hl Hres. destruct (Restore_ok _ _ _ _ _ (hw_producing w) (kept (delete k (hw_sessions w)) ++ map snd (hw_held w)) _ _ ltac:(rewrite delete_id by done; apply Hw) Hst Hmax He Hl Hres) as (Hok & Hb & Hg & _).
  apply (refocus w k (mkSession h earliest []) m' h _ (hw_producing w) []); try done; [intros s0; by rewrite Hk|apply no_refs].
Qed.

Lemma world_ok_retain w k e start end_ : world_ok w → (k, e) ∈ hw_held w → (ev_StartSequence e ≤ start ≤ end_)%Z → (end_ ≤ ev_EndSequence e)%Z →
  world_ok (mkHWorld (Retain (hw_heap w) e) (hw_sessions w) (hw_producing w) ((k, part e start end_) :: hw_held w)).
Proof.
  intros Hw Hin Hs He. assert (Hsame : ∀ x, read (Retain (hw_heap w) e) x = read (hw_heap w) x) by (intros x; unfold read; by rewrite Retain_buffers). apply world_others; try done.
  - simpl. eapply heap_ok_perm; [apply Permutation_middle|]. apply Retain_ok; [apply Hw| |done|done]. apply elem_of_app. right. apply list_elem_of_fmap. by exists (k, e).
  - intros k1 e1. rewrite elem_of_cons. intros [[= -> ->]|?]; [right|by left]. destruct (wo_held _ Hw _ _ Hin) as (s & Hk & Hr). exists s. split_and!; [done|by apply part_reads|done].
Qed.

Lemma world_ok_release w k e held : world_ok w → hw_held w ≡ₚ (k, e) :: held → world_ok (mkHWorld (Release (hw_heap w) e) (hw_sessions w) (hw_producing w) held).
Proof.
  intros Hw Hp. apply world_others; try done.
  - apply Release_ok. eapply heap_ok_perm; [|apply Hw]. assert (Hm : map snd (hw_held w) ≡ₚ e :: map snd held) by (rewrite Hp; done). rewrite Hm. symmetry. apply Permutation_middle.
  - intros x _. apply Release_read.
  - intros k1 e1 Hin. left. rewrite Hp. by right.
Qed.

Lemma history_step_ok w w' : world_ok w → history_step w w' → world_ok w'.
Proof.
  intros Hw []; eauto using world_ok_restore, world_ok_buffer, world_ok_append, world_ok_retain, world_ok_release.
  - destruct (Acquire_ok _ _ _ _ (hw_producing w) (kept (hw_sessions w) ++ map snd (hw_held w)) H (wo_heap _ Hw)) as [Hh Hr]. apply world_others; try done; [|by auto]. intros e He. apply Hr. by eapply kept_dom; [apply Hw|].
  - destruct (fill_ok _ _ _ b data (wo_heap _ Hw) H) as [Hh Hr]. apply world_others; try done. by auto.
  - apply world_others; try done; [|by auto]. apply ReleaseBuffer_ok. eapply heap_ok_producing; [exact H|apply Hw].
  - destruct (focus _ _ _ Hw H) as [Hok Hb]. destruct (SetLimit_ok _ _ _ _ _ _ _ _ _ _ Hok Hb H0 H1) as (? & ? & ?). by apply world_ok_quiet.
  - destruct (focus _ _ _ Hw H) as [Hok Hb]. destruct (Clear_ok _ _ _ _ _ _ _ _ _ Hok H0) as (? & ? & ?). by apply world_ok_quiet.
  - destruct (focus _ _ _ Hw H) as [Hok Hb]. eapply world_ok_replayed; [done|done|]. by eapply ReplayOwned_ok.
  - destruct (focus _ _ _ Hw H) as [Hok Hb]. eapply world_ok_replayed; [done|done|]. by eapply ReplayCopied_ok.
  - destruct (focus _ _ _ Hw H) as [Hok Hb]. unfold Acknowledge in H0. destruct (_ || _) in H0; injection H0 as <- <-; apply world_ok_quiet; try done; try (by apply grows_same). by apply acks_all_ok.
  - destruct (focus _ _ _ Hw H) as [Hok Hb]. apply world_ok_quiet; try done; try (by apply grows_same). by apply acks_all_ok.
Qed.

Lemma emptyWorld_ok : world_ok emptyWorld.
Proof.
  split; simpl.
  - unfold kept. rewrite map_to_list_empty. simpl. split; unfold active, free_buffers; simpl; try (by constructor); intros x; try (intros Hin; by apply elem_of_nil in Hin); intros y [Hl _]; by rewrite lookup_empty in Hl.
  - intros k s Hk. by rewrite lookup_empty in Hk.
  - intros k e Hin. by apply elem_of_nil in Hin.
Qed.

Lemma history_reachable w : rtc history_step emptyWorld w → world_ok w.
Proof. intros Hr. generalize emptyWorld_ok. induction Hr as [|x y z Hs _ IH]; [done|]. intros Hx. apply IH. by eapply history_step_ok. Qed.

(** The numbers of a session's bytes stay. *)
Lemma history_step_output w w' k s : history_step w w' → hw_sessions w !! k = Some s → ∃ s', hw_sessions w' !! k = Some s' ∧ ss_base s' = ss_base s ∧ ∃ more, ss_output s' = ss_output s ++ more.
Proof.
  assert (Hput : ∀ m k0 s0 s1 prod held, hw_sessions w !! k0 = Some s0 → ss_base s1 = ss_base s0 → (∃ more, ss_output s1 = ss_output s0 ++ more) → hw_sessions w !! k = Some s →
    ∃ s', hw_sessions (put w m k0 s1 prod held) !! k = Some s' ∧ ss_base s' = ss_base s ∧ ∃ more, ss_output s' = ss_output s ++ more).
  { intros m k0 s0 s1 prod held H0 Hb Ho Hk. simpl. destruct (decide (k = k0)) as [->|Hne]; [rewrite lookup_insert_eq; exists s1; rewrite H0 in Hk; by injection Hk as <-|].
    rewrite lookup_insert_ne by done. exists s. split_and!; try done. apply more_nil. }
  assert (Hsame : ∀ m prod held, hw_sessions w !! k = Some s → ∃ s', hw_sessions (mkHWorld m (hw_sessions w) prod held) !! k = Some s' ∧ ss_base s' = ss_base s ∧ ∃ more, ss_output s' = ss_output s ++ more).
  { intros. exists s. split_and!; try done. apply more_nil. }
  intros [] Hk; eauto using more_nil, appended_more. simpl. exists s. rewrite lookup_insert_ne by congruence. split_and!; try done. apply more_nil.
Qed.

Lemma history_steps_output w w' k s : rtc history_step w w' → hw_sessions w !! k = Some s → ∃ s', hw_sessions w' !! k = Some s' ∧ ss_base s' = ss_base s ∧ ∃ more, ss_output s' = ss_output s ++ more.
Proof.
  intros Hr. revert s. induction Hr as [w|w w1 w' Hs _ IH]; intros s Hk; [exists s; split_and!; try done; apply more_nil|]. destruct (history_step_output _ _ _ _ Hs Hk) as (s1 & Hk1 & Hb1 & x & Hx).
  destruct (IH _ Hk1) as (s2 & Hk2 & Hb2 & y & Hy). exists s2. split_and!; [done|congruence|]. exists (x ++ y). by rewrite Hy, Hx, app_assoc.
Qed.

(** ** What the sessions rely on *)

(** C37: a replay of a session's history gives exactly the output from the sequence number asked for to the end, or as far as the byte limit reaches, in order and without a gap; it is refused exactly when
    the number is not kept any more (a gap, with the bounds that are kept) or not reached yet.  This holds after any calls on any number of sessions that share the buffer pools, whoever holds references. *)
Theorem history_replay_exact w k s from limit m' r : rtc history_step emptyWorld w → hw_sessions w !! k = Some s →
  ReplayOwned (hw_heap w) (ss_history s) from limit = (m', r) ∨ ReplayCopied (hw_heap w) (ss_history s) from limit = (m', r) →
  replay_answer m' (ss_base s) (ss_output s) (hi_earliest (ss_history s)) (hi_latest (ss_history s)) from limit r.
Proof.
  intros Hw%history_reachable Hk Hr. destruct (focus _ _ _ Hw Hk) as [Hok _]. destruct Hr as [Hr|Hr]; [apply (ReplayOwned_ok _ _ _ _ _ _ _ _ _ _ Hok) in Hr as (_ & _ & _ & ?)|apply (ReplayCopied_ok _ _ _ _ _ _ _ _ _ _ Hok) in Hr as (_ & _ & _ & ?)]; done.
Qed.

(** C38: the bytes of a reference do not change while it is held: whatever is appended, replayed, compacted, cleared or released meanwhile, by any session, it reads the part of its own session's output that its
    sequence numbers name.  A buffer that is referenced is neither filled again nor given to another producer. *)
Theorem history_references_stable w w' k e : rtc history_step emptyWorld w → rtc history_step w w' → (k, e) ∈ hw_held w → (k, e) ∈ hw_held w' →
  read (hw_heap w') (ev_Data e) = read (hw_heap w) (ev_Data e) ∧
  ∃ s, hw_sessions w' !! k = Some s ∧ read (hw_heap w') (ev_Data e) = slice (ss_base s) (ss_output s) (ev_StartSequence e) (ev_EndSequence e).
Proof.
  intros Hw Hww Hin Hin'. assert (Hok' : world_ok w') by (apply history_reachable; by etrans). apply history_reachable in Hw as Hok. destruct (wo_held _ Hok _ _ Hin) as (s & Hk & ([? ?] & Hle & _ & Hr)).
  destruct (wo_held _ Hok' _ _ Hin') as (s' & Hk' & (_ & _ & _ & Hr')). destruct (history_steps_output _ _ _ _ Hww Hk) as (s1 & Hk1 & Hb & more & Ho). rewrite Hk' in Hk1. injection Hk1 as <-.
  split; [|by exists s']. by rewrite Hr', Hr, Ho, Hb, slice_app by done.
Qed.

(** C39: a history keeps no more bytes than its limit, counts them exactly, never runs past the last sequence number, and its slice of events is at most twice the events that are kept, and 64. *)
Theorem history_bounds w k s : rtc history_step emptyWorld w → hw_sessions w !! k = Some s → let h := ss_history s in
  Bounds h = (hi_earliest h, ss_base s + Z.of_nat (length (ss_output s)), hi_latest h - hi_earliest h)%Z ∧ (0 ≤ hi_earliest h ≤ hi_latest h)%Z ∧ (hi_latest h ≤ UInt64.max_value)%Z ∧
  (hi_latest h - hi_earliest h ≤ hi_maxBytes h)%Z ∧ (length (hi_events h) ≤ 2 * length (live h) + minCompactEvents)%nat.
Proof.
  intros Hw%history_reachable Hk h. destruct (wo_session _ Hw _ _ Hk) as ([Hh Hc Hb Hbase Hl ? ?] & [Hm Hhd] & _). unfold Bounds, h in *. rewrite <-Hl, <-Hb. pose proof (chain_le _ _ _ Hc). split_and!; try done; try lia.
  unfold live, minCompactEvents in *. rewrite length_drop. pose proof (Nat.div_mod_eq (length (hi_events (ss_history s))) 2). pose proof (Nat.mod_upper_bound (length (hi_events (ss_history s))) 2). lia.
Qed.

(** A session with a limit of four bytes: two appends of three bytes; the first event is dropped while its producer still holds it, and its buffer is not given to the next one. *)
Definition buffer_of (w : HWorld) : nat := hd 0%nat (hw_producing w).
Definition filled (w : HWorld) (pick : nat) (data : list ascii) : HWorld :=
  let '(m, b) := AcquireBuffer (hw_heap w) pick in mkHWorld (set_buffers m (<[b := data]> (hp_buffers m))) (hw_sessions w) (b :: hw_producing w) (hw_held w).
Definition emitted (w : HWorld) (k : string) (n : nat) : HWorld :=
  match hw_sessions w !! k with
  | None => w
  | Some s =>
      let data := mkWindow (buffer_of w) 0 n in
      let '(m, h, r) := AppendBuffer (hw_heap w) (ss_history s) 1 data 0 in
      put w m k (mkSession h (ss_base s) (appended r (read (hw_heap w) data) (ss_output s))) (tl (hw_producing w)) (named k (match r with inr e => own e [] | inl _ => [] end) ++ hw_held w)
  end.
Definition opened (w : HWorld) (k : string) (limit : Z) : HWorld :=
  match Restore (hw_heap w) limit 0 0 [] with (m, inr h) => put w m k (mkSession h 0 []) (hw_producing w) (hw_held w) | _ => w end.

Lemma filled_step w pick data : rtc history_step w (filled w pick data).
Proof.
  unfold filled. destruct (AcquireBuffer (hw_heap w) pick) as [m b] eqn:Ha. eapply rtc_l; [by eapply step_acquire|]. apply rtc_once. apply (step_fill (mkHWorld m (hw_sessions w) (b :: hw_producing w) (hw_held w))). simpl. left.
Qed.

Lemma emitted_step w k n b prod : hw_producing w = b :: prod → (n ≤ length (default [] (hp_buffers (hw_heap w) !! b)))%nat → rtc history_step w (emitted w k n).
Proof.
  intros Hp Hn. unfold emitted, buffer_of. rewrite Hp. simpl. destruct (hw_sessions w !! k) as [s|] eqn:Hk; [|done]. destruct (AppendBuffer _ _ _ _ _) as [[m h] r] eqn:Ha. apply rtc_once. eapply step_buffer; [done|by rewrite Hp| |done].
  unfold read. simpl. rewrite drop_0, length_take. lia.
Qed.

Lemma opened_step w k limit : hw_sessions w !! k = None → (0 ≤ limit ≤ UInt64.max_value)%Z → rtc history_step w (opened w k limit).
Proof.
  intros Hk Hl. unfold opened. destruct (Restore _ _ _ _ _) as [m [err|h]] eqn:Hr; [done|]. apply rtc_once. eapply (step_restore w k limit 0 0 []); try done.
Qed.

Definition demo_session (w : HWorld) : Session := default (mkSession (mkHistory 0 0 0 0 [] 0 ∅) 0 []) (hw_sessions w !! "s").
Definition demo1 : HWorld := emitted (filled (opened emptyWorld "s" 4) 0 ["a"; "b"; "c"]%char) "s" 3.
Definition demo2 : HWorld := emitted (filled demo1 0 ["d"; "e"; "f"; "g"]%char) "s" 3.
Definition demo_first : Event := mkEvent 1 0 3 (mkWindow 0 0 3) (Some 0%nat).

Lemma demo1_reached : rtc history_step emptyWorld demo1.
Proof.
  etrans; [apply (opened_step emptyWorld "s" 4); [done|unfold UInt64.max_value; lia]|]. etrans; [apply filled_step|]. eapply emitted_step; [vm_compute; reflexivity|vm_compute; lia].
Qed.

Lemma demo2_reached : rtc history_step demo1 demo2.
Proof. etrans; [apply filled_step|]. eapply emitted_step; [vm_compute; reflexivity|vm_compute; lia]. Qed.

Lemma demo2_session : hw_sessions demo2 !! "s" = Some (demo_session demo2).
Proof. vm_compute. reflexivity. Qed.

Lemma history_replay_exact_witness :
  ∃ m' r, ReplayOwned (hw_heap demo2) (ss_history (demo_session demo2)) 4 1 = (m', r) ∧ concat (map (λ e, read m' (ev_Data e)) (replay_refs r)) = ["e"]%char ∧
    replay_answer m' 0 ["a"; "b"; "c"; "d"; "e"; "f"]%char 3 6 4 1 r.
Proof.
  eexists _, _. split; [vm_compute; reflexivity|]. split; [vm_compute; reflexivity|].
  exact (history_replay_exact demo2 "s" (demo_session demo2) 4 1 _ _ ltac:(etrans; [apply demo1_reached|apply demo2_reached]) demo2_session ltac:(left; vm_compute; reflexivity)).
Defined.

Lemma history_references_stable_witness : read (hw_heap demo2) (ev_Data demo_first) = ["a"; "b"; "c"]%char.
Proof.
  destruct (history_references_stable demo1 demo2 "s" demo_first demo1_reached demo2_reached ltac:(vm_compute; left) ltac:(vm_compute; right; left)) as [-> _]. vm_compute. reflexivity.
Defined.

Lemma history_bounds_witness : Bounds (ss_history (demo_session demo2)) = (3, 6, 3)%Z ∧ (hi_latest (ss_history (demo_session demo2)) - hi_earliest (ss_history (demo_session demo2)) ≤ 4)%Z.
Proof.
  destruct (history_bounds demo2 "s" (demo_session demo2) ltac:(etrans; [apply demo1_reached|apply demo2_reached]) demo2_session) as (_ & _ & _ & H & _). split; [vm_compute; reflexivity|]. exact H.
Defined.
