(* ===== verification/Terminal.v ===== *)
(** * What a terminal's output leaves unfinished, and the modes it has set: src/cli/internal/hostruntime/session, screen_continuation.go and terminal_modes.go

    Bytes are numbers from 0 to 255.  What the output leaves unfinished is stated against a grammar of control functions and characters ([piece], [leaves]) that does not mention the code's machine. *)
From S2P Require Import Prelude GoStd.

(** ** The unfinished suffix of the output *)

Inductive screenMode := screenGround | screenEscape | screenEscapeIntermediate | screenCSI | screenString | screenStringEscape.

Record screenContinuation := mkScreen { sc_mode : screenMode; sc_utf8Left : Z; sc_stringOSC : bool; sc_overflow : bool; sc_pending : list Z }.

Definition maxScreenContinuation : nat := Z.to_nat 65536.

Definition reset : screenContinuation := mkScreen screenGround 0 false false [].

Definition append (s : screenContinuation) (value : Z) : screenContinuation :=
  if sc_overflow s then s
  else if (length (sc_pending s) =? maxScreenContinuation)%nat then mkScreen (sc_mode s) (sc_utf8Left s) (sc_stringOSC s) true []
  else mkScreen (sc_mode s) (sc_utf8Left s) (sc_stringOSC s) false (sc_pending s ++ [value]).

Definition with_mode (s : screenContinuation) (m : screenMode) : screenContinuation := mkScreen m (sc_utf8Left s) (sc_stringOSC s) (sc_overflow s) (sc_pending s).
Definition with_string (s : screenContinuation) (osc : bool) : screenContinuation := mkScreen screenString (sc_utf8Left s) osc (sc_overflow s) (sc_pending s).
Definition with_utf8 (s : screenContinuation) (n : Z) : screenContinuation := mkScreen (sc_mode s) n (sc_stringOSC s) (sc_overflow s) (sc_pending s).

Definition between (lo v hi : Z) : bool := ((lo <=? v) && (v <=? hi))%Z.
(** CAN and SUB, which end any control string. *)
Definition cancels (v : Z) : bool := ((v =? 24) || (v =? 26))%Z.

(** The switch over the mode. *)
Definition consume_mode (s : screenContinuation) (value : Z) : screenContinuation :=
  match sc_mode s with
  | screenGround =>
      if (value =? 27)%Z then append (with_mode s screenEscape) value
      else if between 194 value 244 then append (with_utf8 s (if (240 <=? value)%Z then 3 else if (224 <=? value)%Z then 2 else 1)) value
      else s
  | screenEscape =>
      let s := append s value in
      if (value =? 91)%Z then with_mode s screenCSI
      else if (value =? 93)%Z then with_string s true
      else if bool_decide (value ∈ [80; 95; 94; 88]%Z) then with_string s false
      else if between 32 value 47 then with_mode s screenEscapeIntermediate else reset
  | screenEscapeIntermediate =>
      let s := append s value in
      if (48 <=? value)%Z || cancels value then reset else s
  | screenCSI =>
      if (value =? 27)%Z then append (with_mode reset screenEscape) value
      else let s := append s value in if between 64 value 126 || cancels value then reset else s
  | screenString =>
      let s := append s value in
      if (sc_stringOSC s && (value =? 7)%Z) || cancels value then reset
      else if (value =? 27)%Z then with_mode s screenStringEscape else s
  | screenStringEscape =>
      let s := append s value in
      if (value =? 92)%Z || cancels value then reset
      else if (value =? 27)%Z then s else with_mode s screenString
  end.

Definition consume (s : screenContinuation) (value : Z) : screenContinuation :=
  if negb (sc_utf8Left s =? 0)%Z then
    if between 128 value 191 then
      let s := append s value in
      let s := with_utf8 s (sc_utf8Left s - 1) in
      if (sc_utf8Left s =? 0)%Z then reset else s
    else consume_mode reset value
  else consume_mode s value.

Definition feed (s : screenContinuation) (data : list Z) : screenContinuation := foldl consume s data.

(** ** The modes *)

Record TerminalModes := mkModes { tm_AlternateScreen : bool; tm_MouseClick : bool; tm_MouseDrag : bool; tm_MouseMotion : bool; tm_MouseURXVT : bool; tm_MouseSGR : bool; tm_FocusEvents : bool; tm_BracketedPaste : bool }.

Definition no_modes : TerminalModes := mkModes false false false false false false false false.

(** The bytes of a string. *)
Fixpoint str (s : string) : list Z := match s with EmptyString => [] | String c s => Z.of_N (Ascii.N_of_ascii c) :: str s end.

Definition ResumeSequence (m : TerminalModes) : list Z :=
  concat (map (λ item : bool * string, if item.1 then [27; 91; 63]%Z ++ str item.2 ++ [104]%Z else [])
    [(tm_AlternateScreen m, "1049"); (tm_MouseClick m, "1000"); (tm_MouseDrag m, "1002"); (tm_MouseMotion m, "1003"); (tm_MouseURXVT m, "1015"); (tm_MouseSGR m, "1006");
     (tm_BracketedPaste m, "2004"); (tm_FocusEvents m, "1004")]).

Record terminalModeTracker := mkTracker { tt_modes : TerminalModes; tt_tail : list Z }.

Definition Reset : terminalModeTracker := mkTracker no_modes [].

(** bytes.Split with a separator of one byte. *)
Fixpoint Split (sep : Z) (l : list Z) : list (list Z) :=
  match l with
  | [] => [[]]
  | c :: l => if (c =? sep)%Z then [] :: Split sep l else match Split sep l with [] => [[c]] | w :: ws => (c :: w) :: ws end
  end.

Definition set_one (enabled : bool) (m : TerminalModes) (value : list Z) : TerminalModes :=
  let 'mkModes alt click drag motion urxvt sgr focus paste := m in
  if bool_decide (value ∈ [str "47"; str "1047"; str "1049"]) then mkModes enabled click drag motion urxvt sgr focus paste
  else if bool_decide (value = str "1000") then mkModes alt enabled drag motion urxvt sgr focus paste
  else if bool_decide (value = str "1002") then mkModes alt click enabled motion urxvt sgr focus paste
  else if bool_decide (value = str "1003") then mkModes alt click drag enabled urxvt sgr focus paste
  else if bool_decide (value = str "1015") then mkModes alt click drag motion enabled sgr focus paste
  else if bool_decide (value = str "1006") then mkModes alt click drag motion urxvt enabled focus paste
  else if bool_decide (value = str "1004") then mkModes alt click drag motion urxvt sgr enabled paste
  else if bool_decide (value = str "2004") then mkModes alt click drag motion urxvt sgr focus enabled
  else m.

Definition setPrivate (m : TerminalModes) (params : list Z) (enabled : bool) : TerminalModes := foldl (set_one enabled) m (Split 59 params).

(** bytes.IndexByte of ESC, and what follows it. *)
Fixpoint from_escape (data : list Z) : option (list Z) :=
  match data with [] => None | c :: l => if (c =? 27)%Z then Some data else from_escape l end.

(** The parameters of a control sequence, its final byte, and the rest. *)
Fixpoint final (l : list Z) : option (list Z * Z * list Z) :=
  match l with
  | [] => None
  | c :: l => if between 64 c 126 then Some ([], c, l) else match final l with Some (p, f, r) => Some (c :: p, f, r) | None => None end
  end.

Definition maxTail : nat := 64.

(** A control sequence that is complete. *)
Definition apply_sequence (m : TerminalModes) (params : list Z) (f : Z) : TerminalModes :=
  match params with q :: ps => if ((f =? 104) || (f =? 108))%Z && (q =? 63)%Z then setPrivate m ps (f =? 104)%Z else m | [] => m end.

(** The loop of Consume; every turn takes bytes off [data], so its length is enough fuel. *)
Fixpoint consume_loop (fuel : nat) (m : TerminalModes) (data : list Z) : terminalModeTracker :=
  match fuel with
  | O => mkTracker m []
  | S fuel =>
      match from_escape data with
      | None => mkTracker m []
      | Some [] => mkTracker m []
      | Some [c] => mkTracker m [c]
      | Some (c :: d :: l) =>
          if (d =? 99)%Z then consume_loop fuel no_modes l
          else if negb (d =? 91)%Z then consume_loop fuel m l
          else match final l with
               | None => mkTracker m (if (length (c :: d :: l) <=? maxTail)%nat then c :: d :: l else [])
               | Some (params, f, rest) => consume_loop fuel (apply_sequence m params f) rest
               end
      end
  end.

Definition Consume (t : terminalModeTracker) (data : list Z) : terminalModeTracker :=
  let data := tt_tail t ++ data in consume_loop (length data) (tt_modes t) data.

(** * Restoring a screen in the middle of a sequence, and resuming the modes *)

(** ** What a terminal reads as one

    The grammar of control functions (ECMA-48), characters in UTF-8 and other bytes, without reference to how they are recognized.  An ESC within a control sequence abandons it, and so does a byte that cannot continue a character.
    In two places it is the grammar that the code goes by and not a terminal's: an ESC after an ESC ends the function, and one among intermediate bytes is passed over (escape_after_escape). *)

Definition lead (v : Z) : bool := between 194 v 244.
Definition trail (v : Z) : bool := between 128 v 191.
Definition trails (v : Z) : nat := if (240 <=? v)%Z then 3 else if (224 <=? v)%Z then 2 else 1.

(** The introducers of OSC, DCS, APC, PM and SOS. *)
Definition introducer (v : Z) : bool := bool_decide (v ∈ [93; 80; 95; 94; 88]%Z).
Definition intermediate (v : Z) : bool := between 32 v 47.
(** Parameters and intermediate bytes of a control sequence, and its end. *)
Definition csi_final (v : Z) : bool := between 64 v 126 || cancels v.
Definition csi_inner (v : Z) : bool := negb (csi_final v) && negb (v =? 27)%Z.
Definition escape_final (v : Z) : bool := (48 <=? v)%Z || cancels v.

(** Bytes of a control string, with every ESC that is not part of its terminator. *)
Inductive body (osc : bool) : list Z → Prop :=
| body_nil : body osc []
| body_byte b v : body osc b → v ≠ 27%Z → cancels v = false → (osc = true → v ≠ 7%Z) → body osc (b ++ [v])
| body_escape b n v : body osc b → v ≠ 27%Z → v ≠ 92%Z → cancels v = false → body osc (b ++ replicate (S n) 27%Z ++ [v]).

(** ST, CAN or SUB, and BEL for OSC. *)
Inductive string_end (osc : bool) : list Z → Prop :=
| end_cancel v : cancels v = true → string_end osc [v]
| end_bell : osc = true → string_end osc [7%Z]
| end_escape n v : v = 92%Z ∨ cancels v = true → string_end osc (replicate (S n) 27%Z ++ [v]).

Inductive piece : list Z → Prop :=
| piece_byte v : v ≠ 27%Z → lead v = false → piece [v]
| piece_character v cs : lead v = true → Forall (λ c, trail c = true) cs → length cs = trails v → piece (v :: cs)
| piece_escape v : v ≠ 91%Z → introducer v = false → intermediate v = false → piece [27; v]%Z
| piece_intermediate i is_ f : intermediate i = true → Forall (λ v, escape_final v = false) is_ → escape_final f = true → piece ([27; i]%Z ++ is_ ++ [f])
| piece_csi ps f : Forall (λ v, csi_inner v = true) ps → csi_final f = true → piece ([27; 91]%Z ++ ps ++ [f])
| piece_string k b t : introducer k = true → body (k =? 93)%Z b → string_end (k =? 93)%Z t → piece ([27; k]%Z ++ b ++ t).

(** What is abandoned when [v] follows. *)
Inductive abandoned (v : Z) : list Z → Prop :=
| abandoned_csi ps : v = 27%Z → Forall (λ v, csi_inner v = true) ps → abandoned v ([27; 91]%Z ++ ps)
| abandoned_character c cs : lead c = true → Forall (λ c, trail c = true) cs → (length cs < trails c)%nat → trail v = false → abandoned v (c :: cs).

(** Output that is complete when [next] follows. *)
Inductive whole : list Z → option Z → Prop :=
| whole_nil next : whole [] next
| whole_unit data u next : whole data (head u) → piece u → whole (data ++ u) next
| whole_abandoned data u v : whole data (head u) → abandoned v u → whole (data ++ u) (Some v).

(** The beginning of one. *)
Definition unfinished (l : list Z) : Prop := l ≠ [] ∧ ∃ rest, rest ≠ [] ∧ piece (l ++ rest).

(** [l] is what the output leaves unfinished. *)
Definition leaves (data l : list Z) : Prop := ∃ before, data = before ++ l ∧ whole before (head l) ∧ (l = [] ∨ unfinished l).

(** ** The tracker without its bound *)

Record tracker := mkTrack { tk_mode : screenMode; tk_utf8 : Z; tk_osc : bool; tk_kept : list Z }.
Definition ground : tracker := mkTrack screenGround 0 false [].

Definition track_mode (s : tracker) (v : Z) : tracker :=
  let 'mkTrack m n osc l := s in
  match m with
  | screenGround => if (v =? 27)%Z then mkTrack screenEscape n osc (l ++ [v]) else if lead v then mkTrack m (Z.of_nat (trails v)) osc (l ++ [v]) else s
  | screenEscape =>
      if (v =? 91)%Z then mkTrack screenCSI n osc (l ++ [v]) else if introducer v then mkTrack screenString n (v =? 93)%Z (l ++ [v])
      else if intermediate v then mkTrack screenEscapeIntermediate n osc (l ++ [v]) else ground
  | screenEscapeIntermediate => if escape_final v then ground else mkTrack m n osc (l ++ [v])
  | screenCSI => if (v =? 27)%Z then mkTrack screenEscape 0 false [v] else if csi_final v then ground else mkTrack m n osc (l ++ [v])
  | screenString => if (osc && (v =? 7)%Z) || cancels v then ground else mkTrack (if (v =? 27)%Z then screenStringEscape else screenString) n osc (l ++ [v])
  | screenStringEscape => if (v =? 92)%Z || cancels v then ground else mkTrack (if (v =? 27)%Z then screenStringEscape else screenString) n osc (l ++ [v])
  end.

Definition track_byte (s : tracker) (v : Z) : tracker :=
  if (tk_utf8 s =? 0)%Z then track_mode s v
  else if trail v then (if (tk_utf8 s - 1 =? 0)%Z then ground else mkTrack (tk_mode s) (tk_utf8 s - 1) (tk_osc s) (tk_kept s ++ [v])) else track_mode ground v.

Definition run (s : tracker) (data : list Z) : tracker := foldl track_byte s data.

(** The bound forgets what is too long. *)
Record follows (s : screenContinuation) (t : tracker) : Prop := {
  fw_mode : sc_mode s = tk_mode t;
  fw_utf8 : sc_utf8Left s = tk_utf8 t;
  fw_osc : sc_stringOSC s = tk_osc t;
  fw_kept : (length (tk_kept t) ≤ maxScreenContinuation)%nat → sc_overflow s = false ∧ sc_pending s = tk_kept t;
  fw_over : (maxScreenContinuation < length (tk_kept t))%nat → sc_overflow s = true;
}.

Lemma follows_reset : follows reset ground.
Proof. split; simpl; try done. lia. Qed.

Lemma follows_append s t v : follows s t → follows (append s v) (mkTrack (tk_mode t) (tk_utf8 t) (tk_osc t) (tk_kept t ++ [v])).
Proof.
  intros [H1 H2 H3 H4 H5]. unfold append. destruct (Nat.lt_ge_cases maxScreenContinuation (length (tk_kept t))) as [Hl|Hl].
  - rewrite (H5 Hl). split; simpl; try done; rewrite length_app; simpl; [lia|]. intros _. by apply H5.
  - destruct (H4 Hl) as [-> ->]. destruct (Nat.eqb_spec (length (tk_kept t)) maxScreenContinuation) as [He|]; split; simpl; try done; rewrite length_app; simpl; lia || done.
Qed.

Lemma follows_state s t m n osc l : follows s (mkTrack (tk_mode t) (tk_utf8 t) (tk_osc t) l) → follows (mkScreen m n osc (sc_overflow s) (sc_pending s)) (mkTrack m n osc l).
Proof. intros [H1 H2 H3 H4 H5]. by split. Qed.

Lemma follows_mode s t v : follows s t → follows (consume_mode s v) (track_mode t v).
Proof.
  intros Hf. pose proof (follows_append s t v Hf) as Ha. pose proof Hf as [H1 H2 H3 _ _]. destruct t as [m n osc l]. simpl in *. unfold consume_mode, track_mode. rewrite H1.
  assert (Hs : ∀ m', follows (with_mode (append s v) m') (mkTrack m' n osc (l ++ [v]))).
  { intros m'. pose proof (follows_state _ (mkTrack m n osc l) m' n osc _ Ha) as Hx. destruct Ha as [_ A2 A3 _ _]. simpl in *. unfold with_mode. by rewrite A2, A3. }
  destruct m.
  - destruct (v =? 27)%Z; [|destruct (lead v) eqn:Hl; unfold lead in Hl; rewrite Hl; [|done]].
    + apply (follows_append (with_mode s screenEscape) (mkTrack screenEscape n osc l)). destruct Hf. by split.
    + apply (follows_append (with_utf8 s _) (mkTrack screenGround (Z.of_nat (trails v)) osc l)). destruct Hf. split; try done. simpl. unfold trails. by destruct (240 <=? v)%Z, (224 <=? v)%Z.
  - unfold introducer, intermediate. destruct (Z.eqb_spec v 91); [apply Hs|]. destruct (Z.eqb_spec v 93) as [->|].
    + pose proof (follows_state _ (mkTrack screenEscape n osc l) screenString n true _ Ha) as Hx. destruct Ha as [_ A2 _ _ _]. simpl in *. unfold with_string. by rewrite A2.
    + destruct (bool_decide (v ∈ [80; 95; 94; 88]%Z)) eqn:Hb.
      * apply bool_decide_eq_true in Hb. rewrite bool_decide_eq_true_2 by (by right). pose proof (follows_state _ (mkTrack screenEscape n osc l) screenString n false _ Ha) as Hx. destruct Ha as [_ A2 _ _ _]. simpl in *. unfold with_string. by rewrite A2.
      * apply bool_decide_eq_false in Hb. rewrite bool_decide_eq_false_2 by (intros [?|?]%elem_of_cons; done). destruct (between 32 v 47); [apply Hs|apply follows_reset].
  - unfold escape_final. destruct (_ || _); [apply follows_reset|exact Ha].
  - destruct (Z.eqb_spec v 27) as [->|]; [apply (follows_append (with_mode reset screenEscape) (mkTrack screenEscape 0 false [])); by split; simpl; try lia|]. unfold csi_final. destruct (_ || _); [apply follows_reset|exact Ha].
  - rewrite (fw_osc _ _ Ha). simpl. destruct (osc && _ || _); [apply follows_reset|]. destruct (v =? 27)%Z; [apply Hs|exact Ha].
  - destruct (_ || _); [apply follows_reset|]. destruct (v =? 27)%Z; [exact Ha|apply Hs].
Qed.

Lemma follows_byte s t v : follows s t → follows (consume s v) (track_byte t v).
Proof.
  intros Hf. unfold consume, track_byte. rewrite (fw_utf8 _ _ Hf). destruct (Z.eqb_spec (tk_utf8 t) 0); simpl; [by apply follows_mode|]. unfold trail. destruct (between 128 v 191); [|exact (follows_mode reset ground v follows_reset)].
  pose proof (follows_append s t v Hf) as Ha. rewrite (fw_utf8 _ _ Ha). simpl. destruct (_ =? 0)%Z; [apply follows_reset|]. pose proof (follows_state _ t (tk_mode t) (tk_utf8 t - 1) (tk_osc t) _ Ha) as Hx. destruct Ha as [A1 A2 A3 _ _]. simpl in *. unfold with_utf8. by rewrite A1, A3.
Qed.

Lemma follows_feed data : follows (feed reset data) (run ground data).
Proof. unfold feed, run. induction data as [|v data IH] using rev_ind; [apply follows_reset|]. rewrite !foldl_app. simpl. by apply follows_byte. Qed.

(** ** The tracker keeps what is unfinished *)

Fixpoint keeps (s : tracker) (l : list Z) : Prop := match l with [] => True | v :: l => tk_kept (track_byte s v) = tk_kept s ++ [v] ∧ keeps (track_byte s v) l end.

Lemma keeps_app l1 : ∀ s l2, keeps s (l1 ++ l2) ↔ keeps s l1 ∧ keeps (run s l1) l2.
Proof. induction l1 as [|v l1 IH]; intros s l2; simpl; [tauto|]. rewrite IH. tauto. Qed.

Lemma keeps_kept l : ∀ s, keeps s l → tk_kept (run s l) = tk_kept s ++ l.
Proof. induction l as [|v l IH]; intros s; simpl; [by rewrite app_nil_r|]. intros [Hv Hl]. rewrite IH, Hv, <-app_assoc by done. done. Qed.

(** Read from the ground, the bytes are all kept, and leave the tracker in this mode. *)
Definition reads_to (l : list Z) (m : screenMode) (n : Z) (osc : bool) : Prop := keeps ground l ∧ run ground l = mkTrack m n osc l.

Lemma reads_snoc l m n osc v m' n' osc' : reads_to l m n osc → track_byte (mkTrack m n osc l) v = mkTrack m' n' osc' (l ++ [v]) → reads_to (l ++ [v]) m' n' osc'.
Proof. intros [Hk Hr] Ht. split; [apply keeps_app; split; [done|]; rewrite Hr; simpl; by rewrite Ht|]. unfold run in *. by rewrite foldl_app, Hr. Qed.

Lemma trails_bounds v : (1 ≤ trails v ≤ 3)%nat.
Proof. unfold trails. repeat case_match; lia. Qed.

Lemma lead_not_escape v : lead v = true → v ≠ 27%Z.
Proof. unfold lead, between. intros [?%Z.leb_le _]%andb_true_iff. lia. Qed.

Lemma reads_character c cs : lead c = true → Forall (λ v, trail v = true) cs → (length cs < trails c)%nat → reads_to (c :: cs) screenGround (Z.of_nat (trails c) - Z.of_nat (length cs)) false.
Proof.
  intros Hc. induction cs as [|v cs IH] using rev_ind; intros Hcs Hl.
  - apply (reads_snoc [] screenGround 0 false c); [by split|]. unfold track_byte. simpl. destruct (Z.eqb_spec c 27); [by apply lead_not_escape in Hc|]. rewrite Hc. f_equal. lia.
  - rewrite Forall_app, Forall_singleton in Hcs. destruct Hcs as [Hcs Hv]. rewrite length_app in *. simpl in Hl. change (c :: cs ++ [v]) with ((c :: cs) ++ [v]). eapply reads_snoc; [apply IH; [done|lia]|]. unfold track_byte. simpl tk_utf8. rewrite (proj2 (Z.eqb_neq _ _)), Hv by lia.
    rewrite (proj2 (Z.eqb_neq _ _)) by lia. simpl. f_equal. lia.
Qed.

Lemma reads_escape : reads_to [27%Z] screenEscape 0 false.
Proof. by split. Qed.

Lemma intermediate_bounds i : intermediate i = true → (32 ≤ i ≤ 47)%Z.
Proof. unfold intermediate, between. rewrite andb_true_iff, !Z.leb_le. done. Qed.

Lemma introducer_cases k : introducer k = true → k = 93%Z ∨ k = 80%Z ∨ k = 95%Z ∨ k = 94%Z ∨ k = 88%Z.
Proof. unfold introducer. rewrite bool_decide_eq_true. rewrite !elem_of_cons, elem_of_nil. tauto. Qed.

Lemma reads_intermediate i is_ : intermediate i = true → Forall (λ v, escape_final v = false) is_ → reads_to ([27; i]%Z ++ is_) screenEscapeIntermediate 0 false.
Proof.
  intros Hi. pose proof (intermediate_bounds i Hi) as Hb. induction is_ as [|v l IH] using rev_ind; intros Hl.
  - apply (reads_snoc [27%Z] screenEscape 0 false i); [apply reads_escape|]. unfold track_byte. simpl. rewrite (proj2 (Z.eqb_neq _ _)) by lia. destruct (introducer i) eqn:Hk; [apply introducer_cases in Hk; lia|]. by rewrite Hi.
  - rewrite Forall_app, Forall_singleton in Hl. destruct Hl as [Hl Hv]. rewrite app_assoc. eapply reads_snoc; [by apply IH|]. unfold track_byte. simpl. by rewrite Hv.
Qed.

Lemma reads_csi ps : Forall (λ v, csi_inner v = true) ps → reads_to ([27; 91]%Z ++ ps) screenCSI 0 false.
Proof.
  induction ps as [|v l IH] using rev_ind; intros Hl; [by apply (reads_snoc [27%Z] screenEscape 0 false 91%Z)|]. rewrite Forall_app, Forall_singleton in Hl. destruct Hl as [Hl Hv]. rewrite app_assoc. eapply reads_snoc; [by apply IH|].
  unfold csi_inner in Hv. apply andb_true_iff in Hv as [H1%negb_true_iff H2%negb_true_iff]. unfold track_byte. simpl. by rewrite H1, H2.
Qed.

Lemma reads_escapes k b osc n : reads_to ([27; k]%Z ++ b) screenString 0 osc → reads_to ([27; k]%Z ++ b ++ replicate (S n) 27%Z) screenStringEscape 0 osc.
Proof.
  intros Hb. induction n as [|n IH].
  - rewrite app_assoc. eapply reads_snoc; [exact Hb|]. unfold track_byte. simpl. unfold cancels. simpl. by rewrite andb_false_r.
  - replace (replicate (S (S n)) 27%Z) with (replicate (S n) 27%Z ++ [27%Z]) by by rewrite <-replicate_cons_app. rewrite !app_assoc. eapply reads_snoc; [rewrite <-app_assoc; exact IH|]. unfold track_byte. done.
Qed.

Lemma reads_body k b : introducer k = true → body (k =? 93)%Z b → reads_to ([27; k]%Z ++ b) screenString 0 (k =? 93)%Z.
Proof.
  intros Hk. induction 1 as [|b v _ IH Hv Hc Hbell|b n v _ IH H1 H2 H3].
  - apply (reads_snoc [27%Z] screenEscape 0 false k); [apply reads_escape|]. unfold track_byte. simpl. rewrite Hk. destruct (Z.eqb_spec k 91) as [->|]; done.
  - rewrite app_assoc. eapply reads_snoc; [exact IH|]. unfold track_byte. simpl. rewrite Hc, orb_false_r, (proj2 (Z.eqb_neq _ _) Hv). destruct (k =? 93)%Z eqn:Ek; simpl; [|done]. by rewrite (proj2 (Z.eqb_neq _ _) (Hbell eq_refl)).
  - rewrite !app_assoc. eapply reads_snoc; [rewrite <-app_assoc; by apply reads_escapes|]. unfold track_byte. simpl. by rewrite (proj2 (Z.eqb_neq _ _) H2), H3, (proj2 (Z.eqb_neq _ _) H1).
Qed.

(** A piece is kept up to its last byte, after which nothing is. *)
Lemma piece_reads u : piece u → ∃ pre f, u = pre ++ [f] ∧ keeps ground pre ∧ track_byte (run ground pre) f = ground.
Proof.
  destruct 1 as [v H1 H2|v cs H1 H2 H3|v H1 H2 H3|i l f H1 H2 H3|ps f H1 H2|k b t Hk Hb Ht].
  - exists [], v. split_and!; try done. unfold track_byte. simpl. by rewrite (proj2 (Z.eqb_neq _ _) H1), H2.
  - pose proof (trails_bounds v). destruct cs as [|f cs _] using rev_ind; [simpl in *; lia|]. rewrite Forall_app, Forall_singleton in H2. destruct H2 as [H2 Hf]. rewrite length_app in H3. simpl in H3.
    destruct (reads_character v cs H1 H2 ltac:(lia)) as [Hk Hr]. exists (v :: cs), f. split_and!; try done. rewrite Hr. unfold track_byte. simpl tk_utf8. rewrite (proj2 (Z.eqb_neq _ _)), Hf by lia. by rewrite (proj2 (Z.eqb_eq _ _)) by lia.
  - exists [27%Z], v. split_and!; try done. unfold track_byte. simpl. by rewrite (proj2 (Z.eqb_neq _ _) H1), H2, H3.
  - destruct (reads_intermediate i l H1 H2) as [Hk Hr]. exists ([27; i]%Z ++ l), f. split_and!; [by rewrite <-app_assoc|done|]. rewrite Hr. unfold track_byte. simpl. by rewrite H3.
  - destruct (reads_csi ps H1) as [Hk Hr]. exists ([27; 91]%Z ++ ps), f. split_and!; [by rewrite <-app_assoc|done|]. rewrite Hr. unfold track_byte. simpl. destruct (Z.eqb_spec f 27) as [->|]; [done|]. by rewrite H2.
  - pose proof (reads_body k b Hk Hb) as Hrb. destruct Ht as [v Hv|Ho|n v Hv].
    + destruct Hrb as [Hp Hr]. exists ([27; k]%Z ++ b), v. split_and!; [by rewrite <-app_assoc|done|]. rewrite Hr. unfold track_byte. simpl. by rewrite Hv, orb_true_r.
    + destruct Hrb as [Hp Hr]. exists ([27; k]%Z ++ b), 7%Z. split_and!; [by rewrite <-app_assoc|done|]. rewrite Hr, Ho. done.
    + destruct (reads_escapes k b _ n Hrb) as [Hp Hr]. exists ([27; k]%Z ++ b ++ replicate (S n) 27%Z), v. split_and!; [by rewrite <-!app_assoc|done|]. rewrite Hr. unfold track_byte. simpl. destruct Hv as [->| ->]; [done|by rewrite orb_true_r].
Qed.

Lemma piece_run u : piece u → run ground u = ground.
Proof. intros (pre & f & -> & _ & Hf)%piece_reads. unfold run in *. by rewrite foldl_app. Qed.

Lemma unfinished_run l : unfinished l → tk_kept (run ground l) = l.
Proof.
  intros [_ (rest & Hne & (pre & f & Heq & Hk & _)%piece_reads)]. destruct rest as [|f' rest _] using rev_ind; [done|]. rewrite app_assoc in Heq. apply app_inj_2 in Heq as [<- _]; [|done]. apply keeps_app in Hk as [Hk _]. by rewrite (keeps_kept _ _ Hk).
Qed.

Lemma abandoned_run v u : abandoned v u → u ≠ [] ∧ track_byte (run ground u) v = track_byte ground v.
Proof.
  destruct 1 as [ps -> Hps|c cs Hc Hcs Hl Hv]; (split; [done|]).
  - destruct (reads_csi ps Hps) as [_ ->]. done.
  - destruct (reads_character c cs Hc Hcs Hl) as [_ ->]. unfold track_byte at 1. simpl tk_utf8. rewrite (proj2 (Z.eqb_neq _ _)), Hv by lia. done.
Qed.

Lemma run_app s l1 l2 : run s (l1 ++ l2) = run (run s l1) l2.
Proof. apply foldl_app. Qed.

Lemma piece_nonempty u : piece u → u ≠ [].
Proof. intros (pre & f & -> & _)%piece_reads. by destruct pre. Qed.

(** After output that is complete, the tracker goes on as from the ground. *)
Lemma whole_run data next : whole data next → (next = None → run ground data = ground) ∧ ∀ v, next = Some v → track_byte (run ground data) v = track_byte ground v.
Proof.
  induction 1 as [next|data u next _ IH Hu|data u v _ IH Hu]; [done| |].
  - assert (Hrun : run ground (data ++ u) = ground); [|by rewrite Hrun]. pose proof (piece_nonempty u Hu). pose proof (piece_run u Hu) as Hr. destruct u as [|w u]; [done|]. rewrite run_app. simpl in *. by rewrite (proj2 IH w eq_refl).
  - destruct (abandoned_run _ _ Hu) as [Hne Hr]. split; [done|]. intros w [= <-]. destruct u as [|c u]; [done|]. rewrite run_app. simpl in *. by rewrite (proj2 IH c eq_refl).
Qed.

Lemma leaves_run data l : leaves data l → run ground data = run ground l ∧ tk_kept (run ground l) = l.
Proof.
  intros (before & -> & Hw & Hl). destruct (whole_run _ _ Hw) as [H1 H2]. destruct l as [|v l]; [rewrite app_nil_r; split; [by apply H1|done]|]. destruct Hl as [|Hl]; [done|]. split; [|by apply unfinished_run].
  rewrite run_app. simpl. by rewrite (H2 v eq_refl).
Qed.

(** *** All output leaves something *)

Inductive shape : tracker → Prop :=
| shape_ground : shape ground
| shape_character c cs : lead c = true → Forall (λ v, trail v = true) cs → (length cs < trails c)%nat → shape (mkTrack screenGround (Z.of_nat (trails c) - Z.of_nat (length cs)) false (c :: cs))
| shape_escape : shape (mkTrack screenEscape 0 false [27%Z])
| shape_intermediate i is_ : intermediate i = true → Forall (λ v, escape_final v = false) is_ → shape (mkTrack screenEscapeIntermediate 0 false ([27; i]%Z ++ is_))
| shape_csi ps : Forall (λ v, csi_inner v = true) ps → shape (mkTrack screenCSI 0 false ([27; 91]%Z ++ ps))
| shape_string k b : introducer k = true → body (k =? 93)%Z b → shape (mkTrack screenString 0 (k =? 93)%Z ([27; k]%Z ++ b))
| shape_string_escape k b n : introducer k = true → body (k =? 93)%Z b → shape (mkTrack screenStringEscape 0 (k =? 93)%Z ([27; k]%Z ++ b ++ replicate (S n) 27%Z)).

Lemma shape_unfinished t : shape t → tk_kept t = [] ∨ unfinished (tk_kept t).
Proof.
  destruct 1 as [|c cs H1 H2 H3| |i l H1 H2|ps H1|k b Hk Hb|k b n Hk Hb]; simpl; [by left|right; (split; [done|])..].
  - exists (replicate (trails c - length cs) 128%Z). split; [destruct (trails c - length cs)%nat eqn:E; [lia|done]|]. apply (piece_character c (cs ++ _)); [done| |rewrite length_app, length_replicate; lia]. apply Forall_app. split; [done|]. by apply Forall_replicate.
  - exists [99%Z]. split; [done|]. by apply piece_escape.
  - exists [48%Z]. split; [done|]. by apply (piece_intermediate i l 48).
  - exists [64%Z]. split; [done|]. by apply (piece_csi ps 64).
  - exists [24%Z]. split; [done|]. apply (piece_string k b [24%Z]); [done|done|by constructor].
  - exists [92%Z]. split; [done|]. simpl. rewrite <-app_assoc. apply (piece_string k b (replicate (S n) 27%Z ++ [92%Z])); [done|done|]. constructor. by left.
Qed.

(** What comes before is complete. *)
Definition settled (before : list Z) (t : tracker) : Prop := whole before (head (tk_kept t)) ∧ (tk_kept t = [] → ∀ next, whole before next).

Definition extends (before : list Z) (t : tracker) (v : Z) (t' : tracker) : Prop := ∃ before', before' ++ tk_kept t' = before ++ tk_kept t ++ [v] ∧ settled before' t' ∧ shape t'.

Lemma extend_kept before t v t' : settled before t → tk_kept t' = tk_kept t ++ [v] → shape t' → extends before t v t'.
Proof. intros [H1 H2] Hk Hs. exists before. rewrite Hk. split; [done|]. split; [|done]. split; rewrite Hk; [destruct (tk_kept t); [by apply H2|done]|by destruct (tk_kept t)]. Qed.

Lemma extend_piece before t v : settled before t → piece (tk_kept t ++ [v]) → extends before t v ground.
Proof.
  intros [H1 H2] Hu. exists (before ++ tk_kept t ++ [v]). split; [by rewrite app_nil_r|]. assert (Hw : ∀ next, whole (before ++ tk_kept t ++ [v]) next).
  { intros next. apply whole_unit; [|done]. destruct (tk_kept t); [by apply H2|done]. }
  split; [by split|constructor].
Qed.

Lemma extend_abandoned before t v t' : settled before t → abandoned v (tk_kept t) → extends (before ++ tk_kept t) ground v t' → extends before t v t'.
Proof. intros [H1 _] Ha (before' & He & Hs). exists before'. rewrite He. simpl. by rewrite <-app_assoc. Qed.

Lemma settled_abandoned before t v : settled before t → abandoned v (tk_kept t) → whole (before ++ tk_kept t) (Some v).
Proof. intros [H1 _] Ha. by apply whole_abandoned. Qed.

(** From the ground. *)
Lemma extend_ground before v : whole before (Some v) → extends before ground v (track_byte ground v).
Proof.
  intros Hw. unfold track_byte. simpl. destruct (Z.eqb_spec v 27) as [->|Hv]; [|destruct (lead v) eqn:Hl].
  - exists before. split; [done|]. split; [by split|apply shape_escape].
  - exists before. split; [done|]. split; [by split|]. pose proof (shape_character v [] Hl (Forall_nil_2 _)) as Hs. simpl in Hs. rewrite Z.sub_0_r in Hs. apply Hs. pose proof (trails_bounds v). lia.
  - exists (before ++ [v]). split; [simpl; by rewrite app_nil_r|]. assert (Hx : ∀ next, whole (before ++ [v]) next) by (intros next; apply whole_unit; [done|by apply piece_byte]). split; [by split|apply shape_ground].
Qed.

Lemma extend_string before k b n v (es : list Z) m : introducer k = true → body (k =? 93)%Z b → es = replicate n 27%Z → m = (if (n =? 0)%nat then screenString else screenStringEscape) →
  let t := mkTrack m 0 (k =? 93)%Z ([27; k]%Z ++ b ++ es) in settled before t → extends before t v (track_byte t v).
Proof.
  intros Hk Hb -> -> t Hset. assert (Hend : ∀ e, string_end (k =? 93)%Z e → replicate n 27%Z ++ [v] = e → extends before t v ground).
  { intros e He Heq. apply extend_piece; [done|]. unfold t. simpl. rewrite <-app_assoc, Heq. by apply (piece_string k b e). }
  assert (Hesc : v = 27%Z → extends before t v (mkTrack screenStringEscape 0 (k =? 93)%Z (tk_kept t ++ [v]))).
  { intros ->. apply extend_kept; [done|done|]. unfold t. simpl. rewrite <-app_assoc. replace (replicate n 27%Z ++ [27%Z]) with (replicate (S n) 27%Z) by apply replicate_S_end. by apply shape_string_escape. }
  destruct n as [|n].
  - unfold track_byte, t. simpl. destruct ((k =? 93)%Z && (v =? 7)%Z || cancels v) eqn:Hc; [|destruct (Z.eqb_spec v 27) as [->|Hv]; [by apply Hesc|]].
    + apply orb_true_iff in Hc as [[Ho ->%Z.eqb_eq]%andb_true_iff|Hc]; [apply (Hend [7%Z]); [by apply end_bell|done]|apply (Hend [v]); [by apply end_cancel|done]].
    + apply orb_false_iff in Hc as [Ho Hc]. apply extend_kept; [done|done|]. simpl. rewrite app_nil_r. apply (shape_string k (b ++ [v])); [done|]. apply body_byte; [done|done|done|]. intros Hk'. rewrite Hk' in Ho. simpl in Ho. by apply Z.eqb_neq in Ho.
  - unfold track_byte, t. simpl. destruct ((v =? 92)%Z || cancels v) eqn:Hc; [|destruct (Z.eqb_spec v 27) as [->|Hv]; [by apply Hesc|]].
    + apply (Hend (replicate (S n) 27%Z ++ [v])); [|done]. apply end_escape. apply orb_true_iff in Hc as [?%Z.eqb_eq|?]; by auto.
    + apply orb_false_iff in Hc as [Hv' Hc]. apply extend_kept; [done|done|]. simpl. pose proof (shape_string k (b ++ replicate (S n) 27%Z ++ [v]) Hk) as Hs. simpl in Hs. rewrite <-app_assoc. apply Hs. apply (body_escape _ b n v); [done|done|by apply Z.eqb_neq|done].
Qed.

Lemma extend_byte before t v : shape t → settled before t → extends before t v (track_byte t v).
Proof.
  intros Hs Hset. destruct Hs as [|c cs H1 H2 H3| |i l H1 H2|ps H1|k b Hk Hb|k b n Hk Hb].
  - apply extend_ground. by apply (proj2 Hset).
  - unfold track_byte. simpl tk_utf8. rewrite (proj2 (Z.eqb_neq _ _)) by lia. destruct (trail v) eqn:Hv.
    + assert (Hcs : Forall (λ c, trail c = true) (cs ++ [v])) by (apply Forall_app; by repeat constructor). destruct (Z.eqb_spec (Z.of_nat (trails c) - Z.of_nat (length cs) - 1) 0).
      * apply extend_piece; [done|]. simpl. apply piece_character; [done|done|rewrite length_app; simpl; lia].
      * apply extend_kept; [done|done|]. simpl. pose proof (shape_character c (cs ++ [v]) H1 Hcs) as Hs. rewrite length_app in Hs. simpl in Hs. replace (Z.of_nat (trails c) - Z.of_nat (length cs) - 1)%Z with (Z.of_nat (trails c) - Z.of_nat (length cs + 1))%Z by lia. apply Hs. lia.
    + assert (Ha : abandoned v (c :: cs)) by by apply abandoned_character. eapply extend_abandoned; [done|exact Ha|]. apply (extend_ground _ v). by apply (settled_abandoned before _ v Hset).
  - unfold track_byte. simpl. destruct (Z.eqb_spec v 91) as [->|Hv]; [|destruct (introducer v) eqn:Hk; [|destruct (intermediate v) eqn:Hi]].
    + apply extend_kept; [done|done|]. by apply (shape_csi []).
    + apply extend_kept; [done|done|]. apply (shape_string v []); [done|constructor].
    + apply extend_kept; [done|done|]. by apply (shape_intermediate v []).
    + apply extend_piece; [done|]. by apply piece_escape.
  - unfold track_byte. simpl. destruct (escape_final v) eqn:Hv.
    + apply extend_piece; [done|]. by apply (piece_intermediate i l v).
    + apply extend_kept; [done|done|]. apply (shape_intermediate i (l ++ [v])); [done|]. apply Forall_app. by repeat constructor.
  - unfold track_byte. simpl. destruct (Z.eqb_spec v 27) as [->|Hv]; [|destruct (csi_final v) eqn:Hf].
    + assert (Ha : abandoned 27 ([27; 91]%Z ++ ps)) by by apply abandoned_csi. eapply extend_abandoned; [done|exact Ha|]. apply (extend_ground _ 27%Z). by apply (settled_abandoned before _ _ Hset).
    + apply extend_piece; [done|]. by apply (piece_csi ps v).
    + apply extend_kept; [done|done|]. apply (shape_csi (ps ++ [v])). apply Forall_app. split; [done|]. constructor; [|done]. unfold csi_inner. by rewrite Hf, (proj2 (Z.eqb_neq _ _) Hv).
  - pose proof (extend_string before k b 0 v [] screenString Hk Hb eq_refl eq_refl) as He. simpl in He. rewrite app_nil_r in He. by apply He.
  - by apply (extend_string before k b (S n) v (replicate (S n) 27%Z) screenStringEscape Hk Hb eq_refl eq_refl).
Qed.

Lemma leaves_exists data : leaves data (tk_kept (run ground data)).
Proof.
  assert (Hinv : ∃ before, data = before ++ tk_kept (run ground data) ∧ settled before (run ground data) ∧ shape (run ground data)).
  { induction data as [|v data IH] using rev_ind.
    - exists []. split; [done|]. split; [split; [apply whole_nil|intros _ next; apply whole_nil]|apply shape_ground].
    - destruct IH as (before & Hd & Hset & Hs). destruct (extend_byte before _ v Hs Hset) as (before' & He & Hset' & Hs'). exists before'. rewrite run_app. simpl. split; [|done]. rewrite He, app_assoc. by rewrite <-Hd. }
  destruct Hinv as (before & Hd & [Hw _] & Hs). exists before. split; [done|]. split; [done|]. by apply shape_unfinished.
Qed.

Lemma leaves_unique data l : leaves data l → l = tk_kept (run ground data).
Proof. intros [-> Hk]%leaves_run. done. Qed.

(** C33: of what the terminal was sent, the bytes after the last complete control function, character or other byte are kept beside a serialized screen, from the ESC or the first byte of the function or character that is unfinished;
    for any output there is just one such remainder; if it is longer than 64 KiB the tracker says so.  A terminal that reads only these bytes is in the middle of the same thing: whatever follows leaves unfinished
    what it would leave after all of the output. *)
Theorem continuation_restores data : (exists! l, leaves data l) ∧ ∀ l, leaves data l →
  (if (length l <=? maxScreenContinuation)%nat then sc_overflow (feed reset data) = false ∧ sc_pending (feed reset data) = l else sc_overflow (feed reset data) = true) ∧
  ∀ more rest, leaves (l ++ more) rest ↔ leaves (data ++ more) rest.
Proof.
  split; [eexists; split; [apply leaves_exists|intros l' Hl'; symmetry; by apply leaves_unique]|]. intros l Hl. destruct (leaves_run data l Hl) as [Hr Hk]. split.
  - destruct (follows_feed data) as [_ _ _ H1 H2]. rewrite Hr, Hk in *.  destruct (Nat.leb_spec (length l) maxScreenContinuation); [by apply H1|by apply H2].
  - intros more rest. assert (Heq : run ground (l ++ more) = run ground (data ++ more)) by by rewrite !run_app, Hr.
    split; intros ->%leaves_unique; [rewrite Heq|rewrite <-Heq]; apply leaves_exists.
Qed.

(** An OSC string that is cut after a wide character: what is kept starts at its ESC. *)
Lemma continuation_restores_witness : let data := [27; 91; 72; 27; 93; 48; 59; 226; 130]%Z in leaves data [27; 93; 48; 59; 226; 130]%Z ∧ sc_pending (feed reset data) = [27; 93; 48; 59; 226; 130]%Z.
Proof.
  intros data. assert (Hl : leaves data [27; 93; 48; 59; 226; 130]%Z) by exact (leaves_exists data). split; [exact Hl|]. destruct (continuation_restores data) as [_ Hc]. exact (proj2 (proj1 (Hc _ Hl))).
Defined.

(** A terminal begins a sequence at any ESC; the code takes an ESC that follows one for the end of a function, and does not keep the control sequence that it begins. *)
Theorem escape_after_escape : sc_pending (feed reset [27; 91; 51]%Z) = [27; 91; 51]%Z ∧ sc_pending (feed reset [27; 27; 91; 51]%Z) = [].
Proof. by split. Qed.

(** ** The modes, byte by byte *)

Inductive seqState := SGround | SEsc | SCsi (params : list Z).

(** One byte of the output: ESC c resets the terminal, a control sequence ends with its final byte. *)
Definition track (st : TerminalModes * seqState) (c : Z) : TerminalModes * seqState :=
  match st.2 with
  | SGround => (st.1, if (c =? 27)%Z then SEsc else SGround)
  | SEsc => if (c =? 99)%Z then (no_modes, SGround) else (st.1, if (c =? 91)%Z then SCsi [] else SGround)
  | SCsi p => if between 64 c 126 then (apply_sequence st.1 p c, SGround) else (st.1, SCsi (p ++ [c]))
  end.

Definition tracked (m : TerminalModes) (data : list Z) : TerminalModes * seqState := foldl track (m, SGround) data.

(** The bytes of a sequence that has begun. *)
Definition begun (s : seqState) : list Z := match s with SGround => [] | SEsc => [27]%Z | SCsi p => [27; 91]%Z ++ p end.

Lemma from_escape_None data m : from_escape data = None → tracked m data = (m, SGround).
Proof. unfold tracked. induction data as [|c data IH]; simpl; [done|]. unfold track at 2. simpl. destruct (c =? 27)%Z; [discriminate|]. apply IH. Qed.

Lemma from_escape_Some data m l : from_escape data = Some l → ∃ l', l = 27%Z :: l' ∧ (length l' < length data)%nat ∧ tracked m data = foldl track (m, SEsc) l'.
Proof.
  unfold tracked. induction data as [|c data IH]; simpl; [done|]. unfold track at 2. simpl. destruct (Z.eqb_spec c 27) as [->|]; [intros [= <-]; exists data; split_and!; [done|lia|done]|]. intros (l' & ? & ? & ?)%IH. exists l'. split_and!; [done|lia|done].
Qed.

Lemma csi_params l m p : match final l with
  | Some (ps, f, r) => (length r < length l)%nat ∧ foldl track (m, SCsi p) l = tracked (apply_sequence m (p ++ ps) f) r
  | None => foldl track (m, SCsi p) l = (m, SCsi (p ++ l)) end.
Proof.
  revert p. induction l as [|c l IH]; intros p; simpl; [by rewrite app_nil_r|]. unfold track at 2 4. simpl. destruct (between 64 c 126); [rewrite app_nil_r; split; [lia|done]|].
  specialize (IH (p ++ [c])). destruct (final l) as [[[ps f] r]|]; rewrite <-app_assoc in IH; simpl in IH; [|done]. destruct IH. split; [lia|done].
Qed.

(** The tail that Consume keeps: a sequence that is too long is forgotten. *)
Definition kept_tail (s : seqState) : list Z := if (length (begun s) <=? maxTail)%nat then begun s else [].

Lemma consume_loop_tracked fuel : ∀ m data, (length data ≤ fuel)%nat → consume_loop fuel m data = mkTracker (tracked m data).1 (kept_tail (tracked m data).2).
Proof.
  induction fuel as [|fuel IH]; intros m data Hf; simpl; [destruct data; simpl in *; [done|lia]|]. destruct (from_escape data) as [l|] eqn:He; [|by rewrite from_escape_None].
  destruct (from_escape_Some _ m _ He) as (l' & -> & Hl & ->). destruct l' as [|d l]; [done|]. simpl in *. unfold track at 2 4. simpl. destruct (d =? 99)%Z; [apply IH; lia|].
  destruct (d =? 91)%Z eqn:Ed; simpl; [|apply IH; lia]. apply Z.eqb_eq in Ed as ->. pose proof (csi_params l m []) as Hc. destruct (final l) as [[[ps f] r]|].
  - destruct Hc as [Hr ->]. apply IH. lia.
  - rewrite Hc. done.
Qed.

Lemma tracked_begun m s : (∀ p, s = SCsi p → final p = None) → tracked m (begun s) = (m, s).
Proof. destruct s as [| |p]; intros Hp; try done. pose proof (csi_params p m []) as Hc. rewrite (Hp p eq_refl) in Hc. exact Hc. Qed.

Lemma final_snoc p c : final p = None → between 64 c 126 = false → final (p ++ [c]) = None.
Proof. induction p as [|d p IH]; simpl; [by intros _ ->|]. destruct (between 64 d 126); [done|]. destruct (final p) as [[[? ?] ?]|]; [done|]. intros _ Hc. by rewrite IH. Qed.

Lemma tracked_open m data p : (tracked m data).2 = SCsi p → final p = None.
Proof.
  revert p. induction data as [|c data IH] using rev_ind; intros p; [done|]. unfold tracked in *. rewrite foldl_app. simpl. unfold track at 1. destruct (foldl track (m, SGround) data) as [m' s]. simpl in *. destruct s as [| |q].
  - by destruct (_ =? _)%Z.
  - destruct (c =? 99)%Z; [done|]. destruct (c =? 91)%Z; [|done]. by intros [= <-].
  - destruct (between 64 c 126) eqn:E; [done|]. intros [= <-]. apply final_snoc; [by apply IH|done].
Qed.

Lemma tracked_app m data more : tracked (tracked m data).1 (begun (tracked m data).2 ++ more) = tracked m (data ++ more).
Proof.
  unfold tracked at 1. rewrite foldl_app. change (foldl track ((tracked m data).1, SGround) (begun (tracked m data).2)) with (tracked (tracked m data).1 (begun (tracked m data).2)).
  rewrite tracked_begun by (intros p; apply tracked_open). unfold tracked. rewrite foldl_app. by destruct (foldl track (m, SGround) data).
Qed.

(** C34: however the output is cut into reads, the modes are those of the whole output, as long as no sequence that a read cuts is longer than 64 bytes. *)
Theorem modes_any_reads chunks : (∀ n, (length (begun (tracked no_modes (concat (take n chunks))).2) ≤ maxTail)%nat) →
  foldl Consume Reset chunks = mkTracker (tracked no_modes (concat chunks)).1 (begun (tracked no_modes (concat chunks)).2).
Proof.
  induction chunks as [|c chunks IH] using rev_ind; intros Hs; [done|]. rewrite foldl_app, concat_app. simpl. rewrite app_nil_r, IH; [|intros n; destruct (decide (n ≤ length chunks)%nat); [specialize (Hs n); by rewrite take_app_le in Hs by done|]].
  - unfold Consume. simpl. rewrite consume_loop_tracked, tracked_app by done. specialize (Hs (length (chunks ++ [c]))). rewrite take_ge, concat_app in Hs by done. simpl in Hs. rewrite app_nil_r in Hs.
    unfold kept_tail. by rewrite (proj2 (Nat.leb_le _ _) Hs).
  - specialize (Hs (length chunks)). rewrite take_app_length in Hs. by rewrite take_ge by lia.
Qed.

(** A terminal that receives the resume sequence of some modes has just these modes. *)
Theorem modes_resume m : Consume Reset (ResumeSequence m) = mkTracker m [].
Proof. destruct m as [[] [] [] [] [] [] [] []]; vm_compute; reflexivity. Qed.

Lemma modes_any_reads_witness : tt_modes (foldl Consume Reset [[27; 91]; [63; 49; 48; 48]; [50; 104; 65]]%Z) = mkModes false false true false false false false false.
Proof.
  rewrite (modes_any_reads [[27; 91]; [63; 49; 48; 48]; [50; 104; 65]]%Z); [vm_compute; reflexivity|]. intros n. do 4 (destruct n as [|n]; [vm_compute; lia|]). vm_compute. lia.
Defined.
