(* ===== verification/WindowSizes.v ===== *)
(** * Which window sets the size of a terminal: src/cli/internal/hostruntime/session, window_size.go and active_writers.go (Sizing has a changed size applied)

    Times are nanoseconds of the host's clock, zero for the zero time. *)
From S2P Require Import Prelude GoStd.

Record Dimensions := mkDimensions { d_Columns : Z; d_Rows : Z }.

Record sizeWindow := mkWin { sw_lastInput : Z; sw_attached : bool; sw_detachedAt : Z; sw_size : Dimensions; sw_order : Z; sw_active : Z }.

Record windowSizes := mkSizes { ws_windows : gmap string sizeWindow; ws_next : Z }.

Definition sizeWindowRetention : Z := 600000000000.

Definition newWindowSizes : windowSizes := mkSizes ∅ 0.

Definition sized_dimensions (d : Dimensions) : bool := negb (d_Columns d =? 0)%Z && negb (d_Rows d =? 0)%Z.

Section sizes.
Context `{GoRuntime}.

(** A window that was detached for too long. *)
Definition forgotten (now : Z) (w : sizeWindow) : bool := negb (sw_attached w) && (sizeWindowRetention <? now - sw_detachedAt w)%Z.

Definition forget_detached (ws : gmap string sizeWindow) (now : Z) : gmap string sizeWindow :=
  foldl (λ ws p, if forgotten now p.2 then delete p.1 ws else ws) ws (range 57 ws).

Definition attach (w : windowSizes) (id : string) (size : Dimensions) (now : Z) : windowSizes :=
  let ws := forget_detached (ws_windows w) now in
  let '(win, next) := match ws !! id with Some win => (win, ws_next w) | None => (mkWin 0 false 0 (mkDimensions 0 0) (UInt64.wrap (ws_next w + 1)) 0, UInt64.wrap (ws_next w + 1)) end in
  mkSizes (<[id := mkWin (sw_lastInput win) true (sw_detachedAt win) (if sized_dimensions size then size else sw_size win) (sw_order win) (sw_active win)]> ws) next.

Definition detach (w : windowSizes) (id : string) (now : Z) : windowSizes :=
  match ws_windows w !! id with
  | Some win => mkSizes (<[id := mkWin (sw_lastInput win) false now (sw_size win) (sw_order win) (sw_active win)]> (ws_windows w)) (ws_next w)
  | None => w
  end.

Definition report (w : windowSizes) (id : string) (size : Dimensions) : windowSizes :=
  if negb (sized_dimensions size) then w
  else match ws_windows w !! id with
       | Some win => if sw_attached win then mkSizes (<[id := mkWin (sw_lastInput win) true (sw_detachedAt win) size (sw_order win) (sw_active win)]> (ws_windows w)) (ws_next w) else w
       | None => w
       end.

(** Whether the first window ranks above the second. *)
Definition latest (a : sizeWindow) (aid : string) (b : sizeWindow) (bid : string) : bool :=
  if (sw_active b <? sw_active a)%Z then true
  else if (sw_active a <? sw_active b)%Z then false
  else if (sw_active a =? 0)%Z && negb (sw_order a =? sw_order b)%Z then (sw_order a <? sw_order b)%Z
  else str_ltb aid bid.

Definition eligible (sized : bool) (w : sizeWindow) : bool := sw_attached w && (negb sized || sized_dimensions (sw_size w)).

Definition rank_step (sized : bool) (best : option (string * sizeWindow)) (p : string * sizeWindow) : option (string * sizeWindow) :=
  if eligible sized p.2 then match best with None => Some p | Some b => if latest p.2 p.1 b.2 b.1 then Some p else best end else best.

Definition rankLocked (w : windowSizes) (sized : bool) : option (string * sizeWindow) := foldl (rank_step sized) None (range 58 (ws_windows w)).

Definition rank_id (r : option (string * sizeWindow)) : string := match r with Some p => p.1 | None => "" end.

Definition touch (w : windowSizes) (id : string) (at_ : Z) : windowSizes * bool :=
  match ws_windows w !! id with
  | None => (w, false)
  | Some win =>
      if negb (sw_attached win) || negb (sw_active win <? at_)%Z then (w, false)
      else
        let w' := mkSizes (<[id := mkWin (sw_lastInput win) (sw_attached win) (sw_detachedAt win) (sw_size win) (sw_order win) at_]> (ws_windows w)) (ws_next w) in
        (w', negb (String.eqb (rank_id (rankLocked w false)) (rank_id (rankLocked w' false))) || negb (String.eqb (rank_id (rankLocked w true)) (rank_id (rankLocked w' true))))
  end.

Definition controller (w : windowSizes) : string * option Dimensions :=
  (rank_id (rankLocked w false), match rankLocked w true with Some (sizer, best) => if String.eqb sizer "" then None else Some (sw_size best) | None => None end).

Definition noteInput (w : windowSizes) (id : string) (at_ : Z) : windowSizes :=
  match ws_windows w !! id with
  | Some win => if sw_attached win then mkSizes (<[id := mkWin at_ true (sw_detachedAt win) (sw_size win) (sw_order win) (sw_active win)]> (ws_windows w)) (ws_next w) else w
  | None => w
  end.

Definition inputTime (w : windowSizes) (id : string) : Z := match ws_windows w !! id with Some win => sw_lastInput win | None => 0 end.
End sizes.

(** * The window that was last active sets the size *)

(** ** The order of windows *)

Abbreviation pwin := (string * sizeWindow)%type.
Definition above (p q : pwin) : bool := latest p.2 p.1 q.2 q.1.

Lemma above_trans p q r : above p q = true → above q r = true → above p r = true.
Proof.
  unfold above, latest. repeat (match goal with |- context [(?a <? ?b)%Z] => destruct (Z.ltb_spec a b) end); try done; try lia;
    repeat (match goal with |- context [(?a =? ?b)%Z] => destruct (Z.eqb_spec a b) end); simpl; try done; try lia; apply str_ltb_trans.
Qed.

Lemma above_total p q : p.1 ≠ q.1 → above p q = negb (above q p).
Proof.
  intros Hne. unfold above, latest. destruct (Z.ltb_spec (sw_active q.2) (sw_active p.2)), (Z.ltb_spec (sw_active p.2) (sw_active q.2)); try done; try lia.
  assert (Hstr : str_ltb p.1 q.1 = negb (str_ltb q.1 p.1)).
  { destruct (str_ltb_trichotomy p.1 q.1) as [Hl|[Heq|Hl]]; [|done|]; by rewrite Hl, (str_ltb_asym _ _ Hl). }
  destruct (Z.eqb_spec (sw_active p.2) 0), (Z.eqb_spec (sw_active q.2) 0), (Z.eqb_spec (sw_order p.2) (sw_order q.2)), (Z.eqb_spec (sw_order q.2) (sw_order p.2)); simpl; try done; try lia.
Qed.

(** The best of a list of windows. *)
Definition best_of (sized : bool) (l : list pwin) (r : option pwin) : Prop :=
  match r with
  | Some p => p ∈ l ∧ eligible sized p.2 = true ∧ ∀ q, q ∈ l → eligible sized q.2 = true → q = p ∨ above p q = true
  | None => ∀ q, q ∈ l → eligible sized q.2 = false
  end.

Lemma rank_fold sized l : NoDup l.*1 → best_of sized l (foldl (rank_step sized) None l).
Proof.
  induction l as [|p l IH] using rev_ind; intros Hnd; simpl; [intros q Hq; by apply elem_of_nil in Hq|]. rewrite fmap_app in Hnd. apply NoDup_app in Hnd as (Hnd & Hdis & _). specialize (IH Hnd). rewrite foldl_app. simpl.
  set (b := foldl _ None l) in *. clearbody b. unfold rank_step. destruct (eligible sized p.2) eqn:He.
  - assert (Hp : ∀ q, q ∈ l → q.1 ≠ p.1) by (intros q Hq Heq; apply (Hdis q.1); [by apply list_elem_of_fmap_2|rewrite Heq; simpl; left]).
    destruct b as [b|]; simpl in *.
    + destruct IH as (Hb & Heb & Hbest). pose proof (above_total p b) as Ht. specialize (Ht ltac:(intros Heq; by apply (Hp b))). unfold above in Ht at 1. destruct (latest p.2 p.1 b.2 b.1) eqn:El; simpl.
      * split_and!; [apply elem_of_app; right; left|done|]. intros q. rewrite elem_of_app, list_elem_of_singleton. intros [Hq| ->] Heq; [|by left]. right. destruct (Hbest _ Hq Heq) as [->|?]; [done|by eapply above_trans].
      * split_and!; [apply elem_of_app; by left|done|]. intros q. rewrite elem_of_app, list_elem_of_singleton. intros [Hq| ->] Heq; [by apply Hbest|]. right. by destruct (above b p).
    + split_and!; [apply elem_of_app; right; left|done|]. intros q. rewrite elem_of_app, list_elem_of_singleton. intros [Hq| ->] Heq; [|by left]. by rewrite (IH _ Hq) in Heq.
  - destruct b as [b|]; simpl in *.
    + destruct IH as (Hb & Heb & Hbest). split_and!; [apply elem_of_app; by left|done|]. intros q. rewrite elem_of_app, list_elem_of_singleton. intros [Hq| ->] Heq; [by apply Hbest|congruence].
    + intros q. rewrite elem_of_app, list_elem_of_singleton. intros [Hq| ->]; [by apply IH|done].
Qed.

Section spec.
Context `{GoRuntime}.

Lemma range_fst_NoDup site (m : gmap string sizeWindow) : NoDup (range site m).*1.
Proof. rewrite range_perm. apply NoDup_fst_map_to_list. Qed.

Lemma rank_best w sized : best_of sized (map_to_list (ws_windows w)) (rankLocked w sized).
Proof.
  pose proof (rank_fold sized _ (range_fst_NoDup 58 (ws_windows w))) as Hb. unfold rankLocked. destruct (foldl _ None _) as [p|]; simpl in *; setoid_rewrite range_perm in Hb; done.
Qed.

Lemma best_unique sized l r r' : NoDup l.*1 → best_of sized l r → best_of sized l r' → r = r'.
Proof.
  intros Hnd Hr Hr'. destruct r as [p|], r' as [q|]; simpl in *; [|destruct Hr as (Hp & He & _); rewrite (Hr' _ Hp) in He; done|destruct Hr' as (Hp & He & _); rewrite (Hr _ Hp) in He; done|done].
  destruct Hr as (Hp & Hep & Hbp), Hr' as (Hq & Heq & Hbq). destruct (Hbp _ Hq Heq) as [->|Hpq]; [done|]. destruct (Hbq _ Hp Hep) as [->|Hqp]; [done|].
  destruct (decide (p.1 = q.1)) as [Hk|Hk]; [|rewrite (above_total _ _ Hk), Hqp in Hpq; done]. f_equal. destruct p as [k p], q as [k' q]. simpl in *. subst k'.
  apply list_elem_of_lookup in Hp as [i Hi], Hq as [j Hj]. assert (i = j) as ->; [|congruence]. eapply NoDup_lookup; [exact Hnd| |]; rewrite list_lookup_fmap, ?Hi, ?Hj; done.
Qed.

Lemma rank_is w sized r : best_of sized (map_to_list (ws_windows w)) r → rankLocked w sized = r.
Proof. intros Hr. eapply best_unique; [apply NoDup_fst_map_to_list|apply rank_best|done]. Qed.

Lemma best_lookup w sized k win : rankLocked w sized = Some (k, win) →
  ws_windows w !! k = Some win ∧ eligible sized win = true ∧ ∀ k' win', ws_windows w !! k' = Some win' → eligible sized win' = true → k' = k ∨ latest win k win' k' = true.
Proof.
  intros Hr. pose proof (rank_best w sized) as Hb. rewrite Hr in Hb. destruct Hb as (Hin & He & Hbest). apply elem_of_map_to_list in Hin. split_and!; [done|done|]. intros k' win' Hk' He'.
  destruct (Hbest (k', win')) as [[= -> ->]|?]; [by apply elem_of_map_to_list|done|by left|by right].
Qed.

Lemma rank_intro w sized k win : ws_windows w !! k = Some win → eligible sized win = true →
  (∀ k' win', ws_windows w !! k' = Some win' → eligible sized win' = true → k' = k ∨ latest win k win' k' = true) → rankLocked w sized = Some (k, win).
Proof.
  intros Hk He Hb. apply rank_is. split_and!; [by apply elem_of_map_to_list|done|]. intros [k' win'] Hq%elem_of_map_to_list Heq. destruct (Hb _ _ Hq Heq) as [->|?]; [left; congruence|by right].
Qed.

(** What is forgotten is not attached. *)
Lemma forget_fold now l : ∀ ws : gmap string sizeWindow, NoDup l.*1 → (∀ k win, (k, win) ∈ l → ws !! k = Some win) →
  ∀ k, foldl (λ ws p, if forgotten now p.2 then delete p.1 ws else ws) ws l !! k = match ws !! k with Some win => if forgotten now win && existsb (String.eqb k) l.*1 then None else Some win | None => None end.
Proof.
  induction l as [|[k0 w0] l IH]; intros ws Hnd Hl k; simpl; [destruct (ws !! k); [by rewrite andb_false_r|done]|].
  apply NoDup_cons in Hnd as [Hn Hnd]. assert (Hk0 : ws !! k0 = Some w0) by (apply Hl; left).
  assert (Hl' : ∀ k win, (k, win) ∈ l → k ≠ k0) by (intros k1 win Hin ->; apply Hn, list_elem_of_fmap; by exists (k0, win)). destruct (forgotten now w0) eqn:Hf.
  - rewrite IH; [|done|intros k1 win Hin; rewrite lookup_delete_ne by (symmetry; by eapply Hl'); apply Hl; by right]. destruct (String.eqb_spec k k0) as [->|Hne]; simpl.
    + by rewrite lookup_delete_eq, Hk0, Hf.
    + by rewrite lookup_delete_ne by done.
  - rewrite IH; [|done|intros k1 win Hin; apply Hl; by right]. destruct (String.eqb_spec k k0) as [->|Hne]; simpl; [by rewrite Hk0, Hf|done].
Qed.

Lemma forget_lookup ws now k : forget_detached ws now !! k = match ws !! k with Some win => if forgotten now win then None else Some win | None => None end.
Proof.
  unfold forget_detached. rewrite forget_fold; [|apply range_fst_NoDup|intros k' win Hin; by apply elem_of_range in Hin]. destruct (ws !! k) as [win|] eqn:Hk; [|done].
  replace (existsb (String.eqb k) (range 57 ws).*1) with true; [by rewrite andb_true_r|]. symmetry. apply existsb_exists. exists k. split; [|apply String.eqb_refl].
  apply list_elem_of_In, list_elem_of_fmap. exists (k, win). split; [done|by apply elem_of_range].
Qed.

(** ** Reconnecting *)

(** What happens to the windows without typing or focus. *)
Inductive wop := WAttach (id : string) (size : Dimensions) (now : Z) | WDetach (id : string) (now : Z) | WReport (id : string) (size : Dimensions) | WInput (id : string) (at_ : Z).

Definition run_wop (w : windowSizes) (o : wop) : windowSizes :=
  match o with WAttach id size now => attach w id size now | WDetach id now => detach w id now | WReport id size => report w id size | WInput id at_ => noteInput w id at_ end.

(** Calls that leave a window alone, and attach only windows that are attached in [w] or new in it, before a time. *)
Definition others (w : windowSizes) (id : string) (before : Z) (o : wop) : Prop :=
  match o with
  | WAttach k _ now => k ≠ id ∧ (now ≤ before)%Z ∧ ∀ win, ws_windows w !! k = Some win → sw_attached win = true
  | WDetach k _ | WReport k _ | WInput k _ => k ≠ id
  end.

Definition sizes_wf (w : windowSizes) : Prop := (0 ≤ ws_next w)%Z ∧ ∀ k win, ws_windows w !! k = Some win → (0 ≤ sw_active win)%Z ∧ (sw_order win ≤ ws_next w)%Z.

(** The activity and order that a window of the time of [w] has, or a new one. *)
Definition as_before (w : windowSizes) (order : Z) (k : string) (win1 : sizeWindow) : Prop :=
  (∃ win0, ws_windows w !! k = Some win0 ∧ sw_active win1 = sw_active win0 ∧ sw_order win1 = sw_order win0) ∨ (sw_active win1 = 0%Z ∧ (order < sw_order win1)%Z ∧ ws_next w < sw_order win1)%Z.

Record away (w : windowSizes) (id : string) (win : sizeWindow) (t1 : Z) (n : nat) (w1 : windowSizes) : Prop := {
  aw_id : ∃ win1, ws_windows w1 !! id = Some win1 ∧ sw_attached win1 = false ∧ sw_detachedAt win1 = t1 ∧ sw_active win1 = sw_active win ∧ sw_order win1 = sw_order win;
  aw_other : ∀ k win1, k ≠ id → ws_windows w1 !! k = Some win1 → as_before w (sw_order win) k win1 ∧ (sw_attached win1 = true → ∀ win0, ws_windows w !! k = Some win0 → sw_attached win0 = true);
  aw_next : (ws_next w ≤ ws_next w1 ≤ ws_next w + Z.of_nat n)%Z;
}.

(** A window that changes, with the activity and the order it had. *)
Lemma away_update w id win t1 n n' w1 k win1 win2 : away w id win t1 n w1 → (n ≤ n')%nat → k ≠ id → ws_windows w1 !! k = Some win1 → sw_active win2 = sw_active win1 → sw_order win2 = sw_order win1 →
  (sw_attached win2 = true → sw_attached win1 = true) → away w id win t1 n' (mkSizes (<[k := win2]> (ws_windows w1)) (ws_next w1)).
Proof.
  intros [H1 H2 H3] Hn Hk Hw Ha Ho Hatt. split; simpl; [rewrite lookup_insert_ne by done; done| |lia]. intros k' w' Hk'. destruct (decide (k' = k)) as [->|Hne]; [|rewrite lookup_insert_ne by done; by apply H2].
  rewrite lookup_insert_eq. intros [= <-]. destruct (H2 _ _ Hk Hw) as [Hb Hat]. unfold as_before. rewrite Ha, Ho. split; [done|]. intros ?. apply Hat. by apply Hatt.
Qed.

Lemma away_mono w id win t1 n n' w1 : (n ≤ n')%nat → away w id win t1 n w1 → away w id win t1 n' w1.
Proof. intros Hn [? ? ?]. split; [done|done|lia]. Qed.

Lemma away_step w id win t1 n w1 o : sizes_wf w → ws_windows w !! id = Some win → (ws_next w + Z.of_nat n < UInt64.max_value)%Z → others w id (t1 + sizeWindowRetention) o → away w id win t1 n w1 → away w id win t1 (S n) (run_wop w1 o).
Proof.
  intros [Hn0 Hwf] Hid Hmax Ho Haw. destruct o as [k size now|k now|k size|k at_]; simpl in *.
  - destruct Ho as (Hk & Hnow & Hatt). unfold attach. destruct (Hwf _ _ Hid) as [_ Hord]. destruct Haw as [(win1 & Hw1 & Ha1 & Hd1 & Hact1 & Hord1) H2 H3].
    assert (Hkeep : forget_detached (ws_windows w1) now !! id = Some win1) by (rewrite forget_lookup, Hw1; unfold forgotten; rewrite Hd1; destruct (Z.ltb_spec sizeWindowRetention (now - t1)); [lia|by rewrite andb_false_r]).
    assert (Hsub : ∀ k' win', forget_detached (ws_windows w1) now !! k' = Some win' → ws_windows w1 !! k' = Some win') by (intros k' win'; rewrite forget_lookup; destruct (ws_windows w1 !! k'); [|done]; by destruct (forgotten now _)).
    destruct (forget_detached (ws_windows w1) now !! k) as [wk|] eqn:Hfk.
    + split; simpl; [rewrite lookup_insert_ne by done; by exists win1| |lia]. intros k' w' Hk'. destruct (decide (k' = k)) as [->|Hne]; [|rewrite lookup_insert_ne by done; intros Hl; apply H2; [done|by apply Hsub]].
      rewrite lookup_insert_eq. intros [= <-]. destruct (H2 _ _ Hk (Hsub _ _ Hfk)) as [Hb _]. split; [exact Hb|]. intros _ win0 Hw0. by apply (Hatt _ Hw0).
    + assert (Hwrap : UInt64.wrap (ws_next w1 + 1) = (ws_next w1 + 1)%Z) by (apply UInt64.uint64_wrap_id; unfold UInt64.in_range; lia). rewrite Hwrap. split; simpl; [rewrite lookup_insert_ne by done; by exists win1| |lia].
      intros k' w' Hk'. destruct (decide (k' = k)) as [->|Hne]; [|rewrite lookup_insert_ne by done; intros Hl; apply H2; [done|by apply Hsub]].
      rewrite lookup_insert_eq. intros [= <-]. split; [|intros _ win0 Hw0; by apply (Hatt _ Hw0)]. right. simpl. split_and!; [done|lia|lia].
  - unfold detach. destruct (ws_windows w1 !! k) as [wk|] eqn:Hwk; [|by eapply away_mono; [|exact Haw]; lia]. by eapply away_update; [exact Haw|lia|done|done|done|done|].
  - unfold report. destruct (negb _); [by eapply away_mono; [|exact Haw]; lia|]. destruct (ws_windows w1 !! k) as [wk|] eqn:Hwk; [|by eapply away_mono; [|exact Haw]; lia].
    destruct (sw_attached wk) eqn:Hat; [|by eapply away_mono; [|exact Haw]; lia]. by eapply away_update; [exact Haw|lia|done|done|done|done|].
  - unfold noteInput. destruct (ws_windows w1 !! k) as [wk|] eqn:Hwk; [|by eapply away_mono; [|exact Haw]; lia].
    destruct (sw_attached wk) eqn:Hat; [|by eapply away_mono; [|exact Haw]; lia]. by eapply away_update; [exact Haw|lia|done|done|done|done|].
Qed.

Lemma away_run w id win t1 ops : ∀ n w1, sizes_wf w → ws_windows w !! id = Some win → (ws_next w + Z.of_nat (n + length ops) < UInt64.max_value)%Z → Forall (others w id (t1 + sizeWindowRetention)) ops → away w id win t1 n w1 →
  away w id win t1 (n + length ops) (foldl run_wop w1 ops).
Proof.
  induction ops as [|o ops IH]; intros n w1 Hwf Hid Hmax Ho Haw; simpl in *; [by rewrite Nat.add_0_r|]. apply Forall_cons in Ho as [Ho Hos]. rewrite <-Nat.add_succ_comm. apply IH; try done; [lia|]. by apply away_step; [| |lia| |].
Qed.

Lemma latest_keys a aid b bid a' b' : sw_active a' = sw_active a → sw_order a' = sw_order a → sw_active b' = sw_active b → sw_order b' = sw_order b → latest a' aid b' bid = latest a aid b bid.
Proof. intros H1 H2 H3 H4. unfold latest. by rewrite H1, H2, H3, H4. Qed.

(** C35: a window that controls, and reconnects within ten minutes, controls again: whatever other windows attached, detached or reported meanwhile, as long as none of them was active and none that was away before comes back. *)
Theorem reconnect_keeps_control w id win t1 ops t2 size : sizes_wf w → rankLocked w false = Some (id, win) → (ws_next w + Z.of_nat (length ops) < UInt64.max_value)%Z →
  Forall (others w id (t1 + sizeWindowRetention)) ops → (t2 ≤ t1 + sizeWindowRetention)%Z → id ≠ "" → (controller (attach (foldl run_wop (detach w id t1) ops) id size t2)).1 = id.
Proof.
  intros Hwf Hr Hmax Hops Ht Hid. destruct (best_lookup _ _ _ _ Hr) as (Hw & He & Hbest). set (w1 := foldl run_wop _ ops).
  assert (Haw : away w id win t1 (length ops) w1).
  { apply (away_run w id win t1 ops 0); try done. unfold detach. rewrite Hw. split; simpl; [rewrite lookup_insert_eq; eexists; done| |lia]. intros k win1 Hk. rewrite lookup_insert_ne by done. intros Hl. split; [left; by exists win1|]. intros ? win0 Hw0. congruence. }
  destruct Haw as [(win1 & Hw1 & Ha1 & Hd1 & Hact1 & Hord1) H2 H3]. unfold controller. simpl. unfold attach.
  assert (Hkeep : forget_detached (ws_windows w1) t2 !! id = Some win1) by (rewrite forget_lookup, Hw1; unfold forgotten; rewrite Hd1; destruct (Z.ltb_spec sizeWindowRetention (t2 - t1)); [lia|by rewrite andb_false_r]).
  rewrite Hkeep. erewrite rank_intro; [done|simpl; apply lookup_insert_eq|done|]. intros k' win' Hk' He'. simpl in Hk'. destruct (decide (k' = id)) as [->|Hne]; [by left|right]. rewrite lookup_insert_ne in Hk' by done.
  assert (Hl : ws_windows w1 !! k' = Some win') by (revert Hk'; rewrite forget_lookup; destruct (ws_windows w1 !! k'); [|done]; by destruct (forgotten t2 _)).
  destruct (H2 _ _ Hne Hl) as [[(win0 & Hw0 & Ha0 & Ho0)|(Ha0 & Ho0 & _)] Hatt].
  - destruct (Hbest _ _ Hw0) as [?|Hlt]; [unfold eligible in *; rewrite (Hatt ltac:(by destruct (sw_attached win')) _ Hw0); done|done|]. by rewrite <-Hlt; apply latest_keys.
  - destruct Hwf as [_ Hwf]. destruct (Hwf _ _ Hw) as [Hact _]. unfold latest. simpl. rewrite Hact1, Hord1, Ha0.
    destruct (Z.ltb_spec 0 (sw_active win)); [done|]. destruct (Z.ltb_spec (sw_active win) 0); [lia|]. destruct (Z.eqb_spec (sw_active win) 0); [|lia]. destruct (Z.eqb_spec (sw_order win) (sw_order win')); [lia|]. simpl. apply Z.ltb_lt. lia.
Qed.

(** The window that is touched last controls. *)
Theorem touch_takes_control w id win at_ : ws_windows w !! id = Some win → sw_attached win = true → id ≠ "" → (∀ k win', ws_windows w !! k = Some win' → (sw_active win' < at_)%Z) → (controller (touch w id at_).1).1 = id.
Proof.
  intros Hw Ha Hid Hall. unfold touch. rewrite Hw, Ha. pose proof (Hall _ _ Hw) as Hlt. destruct (Z.ltb_spec (sw_active win) at_); [|lia]. simpl. erewrite rank_intro; [done|simpl; apply lookup_insert_eq|done|].
  intros k' win' Hk' _. simpl in Hk'. destruct (decide (k' = id)) as [->|Hne]; [by left|right]. rewrite lookup_insert_ne in Hk' by done. unfold latest. simpl. destruct (Z.ltb_spec (sw_active win') at_); [done|]. specialize (Hall _ _ Hk'). lia.
Qed.
End spec.

(** The answer does not depend on the order in which the map is visited. *)
Theorem controller_order_irrelevant (R1 R2 : GoRuntime) w : @controller R1 w = @controller R2 w.
Proof.
  assert (Hr : ∀ sized, @rankLocked R1 w sized = @rankLocked R2 w sized) by (intros sized; apply (@rank_is R1), (@rank_best R2)). unfold controller. by rewrite !Hr.
Qed.

Definition demo_windows : windowSizes := let '(w, _) := @touch eval_runtime (@attach eval_runtime (@attach eval_runtime newWindowSizes "a" (mkDimensions 80 24) 1) "b" (mkDimensions 100 30) 2) "b" 5 in w.

Lemma demo_windows_wf : sizes_wf demo_windows.
Proof.
  split; [vm_compute; discriminate|]. intros k win Hk. assert (Hin : (k, win) ∈ map_to_list (ws_windows demo_windows)) by (by apply elem_of_map_to_list). revert Hin. vm_compute map_to_list.
  rewrite !elem_of_cons, elem_of_nil. intros [[= -> ->]|[[= -> ->]|[]]]; vm_compute; split; discriminate.
Qed.

Lemma reconnect_keeps_control_witness : (@controller eval_runtime (@attach eval_runtime (foldl (@run_wop eval_runtime) (@detach demo_windows "b" 10) [WAttach "c" (mkDimensions 0 0) 11; WDetach "a" 12]) "b" (mkDimensions 90 20) 13)).1 = "b".
Proof.
  eapply (@reconnect_keeps_control eval_runtime demo_windows "b" _ 10 [WAttach "c" (mkDimensions 0 0) 11; WDetach "a" 12] 13 (mkDimensions 90 20)).
  - apply demo_windows_wf.
  - vm_compute. reflexivity.
  - vm_compute. reflexivity.
  - rewrite !Forall_cons, Forall_nil. split_and!; try done.
  - unfold sizeWindowRetention. lia.
  - discriminate.
Defined.
