(* ===== verification/Sizing.v ===== *)
(** * Having a changed size applied: src/cli/internal/hostruntime/session, window_size_manager.go and resize and applyWindowSizeLocked of manager_input.go

    A change of the windows that is noticed stores the generation it is for (sizeGeneration), sets sizeDirty and, unless a worker runs (sizeApplying), starts one.  A worker clears the flag, takes the locks, and has the terminal take the
    size of the window that controls then; while the terminal takes it the lock of the session (opMu) is released.  A client's own resize applies the size itself.  Each access of an atomic and each taking or releasing of a lock is a step
    of one of any number of threads.  What the size rule answers (WindowSizes.controller) is a value, which some operations change without notice: pruning, an attach that fails, a restart that drops guests. *)
From S2P Require Import Prelude.

(** Who runs applyWindowSizeLocked: the worker, with the generation it expects, or a call of Manager.resize. *)
Inductive Applier := Worker (expected : Z) | Call.
#[export] Instance Applier_eq_dec : EqDecision Applier.
Proof. solve_decision. Defined.

Section sizing.
Context {Size : Type} `{!EqDecision Size}.

(** What a session's threads share.  A process is known by the generation it was launched in, which begins (starting) before it is published; the terminal's own size is that of the current process. *)
Record Shared := mkShared {
  dirty : bool; applying : bool; sizeGeneration : Z; generation : Z; starting : bool; process : option Z; live : option Z; retiring : bool; opMu : bool; resizeMu : bool;
  rule : option Size; command : Size; terminal : Size;
}.

Definition set_dirty s b := mkShared b (applying s) (sizeGeneration s) (generation s) (starting s) (process s) (live s) (retiring s) (opMu s) (resizeMu s) (rule s) (command s) (terminal s).
Definition set_applying s b := mkShared (dirty s) b (sizeGeneration s) (generation s) (starting s) (process s) (live s) (retiring s) (opMu s) (resizeMu s) (rule s) (command s) (terminal s).
Definition set_sizeGeneration s g := mkShared (dirty s) (applying s) g (generation s) (starting s) (process s) (live s) (retiring s) (opMu s) (resizeMu s) (rule s) (command s) (terminal s).
Definition set_process s g b p l t := mkShared (dirty s) (applying s) (sizeGeneration s) g b p l (retiring s) (opMu s) (resizeMu s) (rule s) (command s) t.
Definition set_retiring s := mkShared (dirty s) (applying s) (sizeGeneration s) (generation s) (starting s) (process s) (live s) true (opMu s) (resizeMu s) (rule s) (command s) (terminal s).
Definition set_opMu s b := mkShared (dirty s) (applying s) (sizeGeneration s) (generation s) (starting s) (process s) (live s) (retiring s) b (resizeMu s) (rule s) (command s) (terminal s).
Definition set_resizeMu s b := mkShared (dirty s) (applying s) (sizeGeneration s) (generation s) (starting s) (process s) (live s) (retiring s) (opMu s) b (rule s) (command s) (terminal s).
Definition set_rule s v := mkShared (dirty s) (applying s) (sizeGeneration s) (generation s) (starting s) (process s) (live s) (retiring s) (opMu s) (resizeMu s) v (command s) (terminal s).
Definition set_command s d := mkShared (dirty s) (applying s) (sizeGeneration s) (generation s) (starting s) (process s) (live s) (retiring s) (opMu s) (resizeMu s) (rule s) d (terminal s).
Definition set_terminal s d := mkShared (dirty s) (applying s) (sizeGeneration s) (generation s) (starting s) (process s) (live s) (retiring s) (opMu s) (resizeMu s) (rule s) (command s) d.

(** Where a thread is: what it does next.  TLive: noteWindowActivity, after a touch that changed who controls; [locked]: in applyWindowSizeObservedLocked, whose caller holds opMu. *)
Inductive Pc :=
| TLive
| TGen (locked : bool) (g : Z)
| TSet (locked : bool)
| TSwap (locked : bool)
| TUnlock
| WClear
| WGen
| ALockResize (a : Applier)
| ALockOp (a : Applier)
| AApply (a : Applier)
| AResize (a : Applier) (p g : Z) (d : Size)
| ACommit (a : Applier) (p g : Z) (d : Size) (resized : bool)
| AUnlock (a : Applier)
| AUnlockResize (a : Applier)
| WDone
| WLook
| WSwap.

#[local] Instance Pc_eq_dec : EqDecision Pc.
Proof. solve_decision. Defined.

(** What a step finds outside: whether a call is let through, and what the rule answers after its report or touch; whether the process takes the size. *)
Record Outcome := mkOutcome { oc_rule : option (option Size); oc_resized : bool }.

(** applyWindowSizeLocked up to process.Resize. *)
Definition applyWindowSizeLocked (s : Shared) (a : Applier) : Shared * list Pc :=
  match process s, rule s with
  | Some p, Some d => if decide (command s = d) then (s, [AUnlock a]) else (set_opMu s false, [AResize a p (generation s) d])
  | _, _ => (s, [AUnlock a])
  end.

(** One access by the thread at [pc], which goes on at the result, with the worker that it starts; None when it waits for a lock. *)
Definition access (s : Shared) (pc : Pc) (o : Outcome) : option (Shared * list Pc) :=
  match pc with
  | TLive => Some (s, match live s with Some g => [TGen false g] | None => [] end)
  | TGen locked g => Some (set_sizeGeneration s g, [TSet locked])
  | TSet locked => Some (set_dirty s true, [TSwap locked])
  | TSwap locked => Some (set_applying s true, (if applying s then [] else [WClear]) ++ if locked then [TUnlock] else [])
  | TUnlock => Some (set_opMu s false, [])
  | WClear => Some (set_dirty s false, [WGen])
  | WGen => Some (s, [ALockResize (Worker (sizeGeneration s))])
  | ALockResize a => if resizeMu s then None else Some (set_resizeMu s true, [ALockOp a])
  | ALockOp a => if opMu s then None else Some (set_opMu s true, [AApply a])
  | AApply (Worker g) => Some (if (generation s =? g)%Z then applyWindowSizeLocked s (Worker g) else (s, [AUnlock (Worker g)]))
  | AApply Call => Some (match oc_rule o, process s with Some v, Some _ => applyWindowSizeLocked (set_rule s v) Call | _, _ => (s, [AUnlock Call]) end)
  | AResize a p g d => Some (if oc_resized o && bool_decide (process s = Some p) then set_terminal s d else s, [ACommit a p g d (oc_resized o)])
  | ACommit a p g d resized =>
      if opMu s then None
      else Some (set_opMu (if bool_decide (process s = Some p) && (generation s =? g)%Z && resized && negb (retiring s) then set_command s d else s) true, [AUnlock a])
  | AUnlock a => Some (set_opMu s false, [AUnlockResize a])
  | AUnlockResize a => Some (set_resizeMu s false, match a with Worker _ => [WDone] | Call => [] end)
  | WDone => Some (set_applying s false, [WLook])
  | WLook => Some (s, if dirty s then [WSwap] else [])
  | WSwap => Some (set_applying s true, if applying s then [] else [WClear])
  end.

Record SizeState := mkSizeState { sz_shared : Shared; sz_threads : list Pc }.

(** The process does not take the size. *)
Definition fails (pc : Pc) (o : Outcome) : bool := match pc with AResize _ _ _ _ => negb (oc_resized o) | _ => false end.

Inductive size_work (failed : bool) (s : SizeState) : SizeState → Prop :=
| work_access pc rest o sh pcs : sz_threads s ≡ₚ pc :: rest → access (sz_shared s) pc o = Some (sh, pcs) → fails pc o = failed → size_work failed s (mkSizeState sh (pcs ++ rest)).

(** A change that is noticed: of an operation that attaches or detaches a window, with opMu, or by input of another window than the one that controls. *)
Inductive size_change (v : option Size) (s : SizeState) : SizeState → Prop :=
| change_observed : opMu (sz_shared s) = false → size_change v s (mkSizeState (set_opMu (set_rule (sz_shared s) v) true) (TGen true (generation (sz_shared s)) :: sz_threads s))
| change_touched : size_change v s (mkSizeState (set_rule (sz_shared s) v) (TLive :: sz_threads s)).

(** What happens without notice: to the windows, and to the process. *)
Inductive size_other (s : SizeState) : SizeState → Prop :=
| other_windows v : opMu (sz_shared s) = false → size_other s (mkSizeState (set_rule (sz_shared s) v) (sz_threads s))
| other_closing : opMu (sz_shared s) = false →
    size_other s (mkSizeState (set_process (sz_shared s) (generation (sz_shared s)) (starting (sz_shared s)) (process (sz_shared s)) None (terminal (sz_shared s))) (sz_threads s))
| other_exit : opMu (sz_shared s) = false → size_other s (mkSizeState (set_process (sz_shared s) (generation (sz_shared s)) false None None (terminal (sz_shared s))) (sz_threads s))
| other_running : opMu (sz_shared s) = false → process (sz_shared s) = None → size_other s (mkSizeState (set_process (sz_shared s) (generation (sz_shared s) + 1) true None None (terminal (sz_shared s))) (sz_threads s))
| other_launched : opMu (sz_shared s) = false → starting (sz_shared s) = true →
    size_other s (mkSizeState (set_process (sz_shared s) (generation (sz_shared s)) false (Some (generation (sz_shared s))) (Some (generation (sz_shared s))) (command (sz_shared s))) (sz_threads s))
| other_retiring : size_other s (mkSizeState (set_retiring (sz_shared s)) (sz_threads s)).

(** A step after which a change that was noticed before is still on its way: a noticed change, a client's resize that begins, an access of a thread. *)
Inductive size_calm (s : SizeState) : SizeState → Prop :=
| calm_change v s' : size_change v s s' → size_calm s s'
| calm_call : size_calm s (mkSizeState (sz_shared s) (ALockResize Call :: sz_threads s))
| calm_work s' : size_work false s s' → size_calm s s'.

Inductive size_step (s : SizeState) : SizeState → Prop :=
| step_calm s' : size_calm s s' → size_step s s'
| step_failed s' : size_work true s s' → size_step s s'
| step_other s' : size_other s s' → size_step s s'.

(** A session that was just started. *)
Definition size_start (g : Z) (d : Size) : SizeState := mkSizeState (mkShared false false 0 g false (Some g) (Some g) false false false None d d) [].

(** ** What holds throughout *)

(** A worker that has won sizeApplying. *)
Definition is_worker (a : Applier) : bool := match a with Worker _ => true | Call => false end.
Definition running (pc : Pc) : bool :=
  match pc with
  | WClear | WGen | WDone => true
  | ALockResize a | ALockOp a | AApply a | AResize a _ _ _ | ACommit a _ _ _ _ | AUnlock a | AUnlockResize a => is_worker a
  | _ => false
  end.
(** Who holds opMu, and who resizeMu. *)
Definition holds_op (pc : Pc) : bool := match pc with TGen b _ | TSet b | TSwap b => b | TUnlock | AApply _ | AUnlock _ => true | _ => false end.
Definition holds_resize (pc : Pc) : bool := match pc with ALockOp _ | AApply _ | AResize _ _ _ _ | ACommit _ _ _ _ _ | AUnlock _ | AUnlockResize _ => true | _ => false end.

Definition number (f : Pc → bool) (l : list Pc) : nat := sum_list_with (λ pc, if f pc then 1 else 0)%nat l.
Definition one (b : bool) : nat := if b then 1 else 0.

Lemma number_perm f l l' : l ≡ₚ l' → number f l = number f l'.
Proof. unfold number. induction 1; simpl; lia. Qed.

Lemma number_in f pc l : pc ∈ l → f pc = true → (1 ≤ number f l)%nat.
Proof. unfold number. induction 1 as [|? ? ? ? IH]; simpl; intros Hf; [rewrite Hf; lia|]. specialize (IH Hf). lia. Qed.

Lemma number_none f pc l : number f l = 0%nat → pc ∈ l → f pc = false.
Proof. intros Hn Hin. destruct (f pc) eqn:Hf; [|done]. pose proof (number_in f pc l Hin Hf). lia. Qed.

Lemma number_pos f l : (1 ≤ number f l)%nat → ∃ pc, pc ∈ l ∧ f pc = true.
Proof. unfold number. induction l as [|pc l IH]; simpl; [lia|]. destruct (f pc) eqn:Hf; [intros _; exists pc; split; [left|done]|]. intros (x & Hx & Hfx)%IH. exists x. split; [by right|done]. Qed.

(** The locks and the worker. *)
Record counted (s : Shared) (l : list Pc) : Prop := {
  ct_worker : number running l = one (applying s);
  ct_op : number holds_op l = one (opMu s);
  ct_resize : number holds_resize l = one (resizeMu s);
}.

Lemma counted_apply s a rest s' pcs : counted s (AApply a :: rest) → applyWindowSizeLocked s a = (s', pcs) → counted s' (pcs ++ rest).
Proof.
  intros [H1 H2 H3]. unfold applyWindowSizeLocked, number in *. simpl in *.
  destruct (process s), (rule s); [case_decide|..]; intros [= <- <-]; split; unfold number; simpl; lia || (destruct (opMu s); simpl in *; lia).
Qed.

Lemma counted_access s pc o rest s' pcs : counted s (pc :: rest) → access s pc o = Some (s', pcs) → counted s' (pcs ++ rest).
Proof.
  intros Hc Ha. assert (Hcase : (∃ a, pc = AApply a) ∨ ∀ a, pc ≠ AApply a) by (destruct pc; (by left; eexists) || by right). destruct Hcase as [[a ->]|Hna].
  - assert (Hskip : counted s ([AUnlock a] ++ rest)) by (destruct Hc; by split). destruct a as [g|]; simpl in Ha; injection Ha as Ha.
    + destruct (generation s =? g)%Z; [by eapply counted_apply|by injection Ha as <- <-].
    + destruct (oc_rule o) as [v|]; [destruct (process s)|]; [|by injection Ha as <- <-..]. eapply counted_apply; [|exact Ha]. destruct Hc. by split.
  - destruct Hc as [H1 H2 H3]. unfold number in *. destruct pc as [|b g|b|b| | | |a|a|a|a p g d|a p g d r|a|a| | |]; simpl in *; try (by destruct (Hna a));
      repeat case_match; simplify_eq; split; unfold number; simpl in *; try done; try lia; repeat match goal with b : bool |- _ => destruct b | a : Applier |- _ => destruct a end; simpl in *; try done; try lia;
      destruct (applying s), (opMu s), (resizeMu s); simpl in *; done || lia.
Qed.

Definition in_flight (pc : Pc) : Prop := match pc with AResize _ _ _ _ | ACommit _ _ _ _ _ => True | _ => False end.

(** What is under way was read from the generation that the process was launched in. *)
Definition flight_ok (s : Shared) (pc : Pc) : Prop :=
  match pc with AResize _ p g _ | ACommit _ p g _ _ => g = p ∧ (p ≤ generation s)%Z ∧ (starting s = true → p < generation s)%Z | _ => True end.

(** The processes, and what is under way to them. *)
Record flying (s : Shared) (l : list Pc) : Prop := {
  fl_process p : process s = Some p → p = generation s ∧ starting s = false;
  fl_flight pc : pc ∈ l → flight_ok s pc;
  fl_taken a p g d : ACommit a p g d true ∈ l → process s = Some p → terminal s = d;
  fl_terminal p : process s = Some p → retiring s = false → terminal s = command s ∨ ∃ a g d, ACommit a p g d true ∈ l;
}.

Lemma flying_same s s' l l' : generation s' = generation s → starting s' = starting s → process s' = process s → retiring s' = retiring s → terminal s' = terminal s → command s' = command s →
  (∀ pc, in_flight pc → pc ∈ l' ↔ pc ∈ l) → flying s l → flying s' l'.
Proof.
  intros E1 E2 E3 E4 E5 E6 Hl [H1 H2 H3 H4]. split; rewrite ?E1, ?E2, ?E3, ?E4, ?E5, ?E6; [done| | |].
  - intros pc Hin. unfold flight_ok. rewrite E1, E2. destruct pc; try done; (apply Hl in Hin; [|exact I]); by apply H2 in Hin.
  - intros a p g d Hin%Hl; [|exact I]. by apply (H3 a p g d).
  - intros p Hp Hr. destruct (H4 p Hp Hr) as [|(a & g & d & Hin)]; [by left|right]. exists a, g, d. by apply (Hl (ACommit a p g d true) I).
Qed.

Ltac same_flights := let pc := fresh "pc" in intros pc; rewrite ?elem_of_app, ?elem_of_cons, ?elem_of_nil; destruct pc; simpl; try done; naive_solver.

Lemma flying_apply s a rest s' pcs : flying s (AApply a :: rest) → applyWindowSizeLocked s a = (s', pcs) → flying s' (pcs ++ rest).
Proof.
  intros Hf. unfold applyWindowSizeLocked. destruct (process s) as [p|] eqn:Hp, (rule s) as [d|]; [case_decide|..]; intros [= <- <-]; simpl; try (eapply flying_same; [..|exact Hf]; try done; same_flights).
  pose proof Hf as [H1 H2 H3 H4]. destruct (H1 _ Hp) as [Hg Hs]. split; simpl; [done| | |].
  - intros pc [->|Hin]%elem_of_cons; [unfold flight_ok; simpl; split_and!; [done|lia|congruence]|]. apply (H2 pc). by right.
  - intros a' p' g' d' [|Hin]%elem_of_cons; [done|]. apply (H3 a' p' g'). by right.
  - intros p' Hp' Hr. destruct (H4 _ Hp' Hr) as [|(a' & g' & d' & [|Hin]%elem_of_cons)]; [by left|done|right]. exists a', g', d'. by right.
Qed.

Lemma flying_resize s a p g d rest ok : number holds_resize (AResize a p g d :: rest) = one (resizeMu s) → flying s (AResize a p g d :: rest) →
  flying (if ok && bool_decide (process s = Some p) then set_terminal s d else s) (ACommit a p g d ok :: rest).
Proof.
  intros Hn [H1 H2 H3 H4]. assert (Hother : ∀ a' p' g' d' r, ACommit a' p' g' d' r ∉ rest) by (intros a' p' g' d' r Hin; pose proof (number_in holds_resize _ _ Hin eq_refl); unfold number in *; simpl in Hn; destruct (resizeMu s); simpl in Hn; lia).
  assert (H2' : ∀ pc, pc ∈ ACommit a p g d ok :: rest → flight_ok s pc).
  { intros pc [->|Hin]%elem_of_cons; [apply (H2 (AResize a p g d)); left|apply H2; by right]. }
  destruct (ok && _) eqn:Hok; split; simpl; try done.
  - intros a' p' g' d' [[= -> -> -> -> _]|Hin]%elem_of_cons; [done|by apply Hother in Hin].
  - intros p' Hp' Hr. apply andb_true_iff in Hok as [-> Hp%bool_decide_eq_true]. right. assert (p' = p) as -> by congruence. exists a, g, d. left.
  - intros a' p' g' d' [[= -> -> -> -> <-]|Hin]%elem_of_cons; [|by apply Hother in Hin]. intros Hp. simpl in Hok. by rewrite bool_decide_eq_true_2 in Hok.
  - intros p' Hp' Hr. destruct (H4 _ Hp' Hr) as [|(a' & g' & d' & [|Hin]%elem_of_cons)]; [by left|done|by apply Hother in Hin].
Qed.

Lemma flying_commit s a p g d r rest : flying s (ACommit a p g d r :: rest) →
  flying (set_opMu (if bool_decide (process s = Some p) && (generation s =? g)%Z && r && negb (retiring s) then set_command s d else s) true) (AUnlock a :: rest).
Proof.
  intros [H1 H2 H3 H4]. assert (H2' : ∀ pc, pc ∈ AUnlock a :: rest → flight_ok s pc).
  { intros pc [->|Hin]%elem_of_cons; [done|apply H2; by right]. }
  assert (H3' : ∀ a' p' g' d', ACommit a' p' g' d' true ∈ AUnlock a :: rest → process s = Some p' → terminal s = d') by (intros a' p' g' d' [|Hin]%elem_of_cons; [done|apply (H3 a' p' g'); by right]).
  destruct (_ && _) eqn:Hc; split; simpl; try done.
  - intros p' Hp' Hr. rewrite !andb_true_iff in Hc. destruct Hc as [[[Hp%bool_decide_eq_true _] ->] _]. left. apply (H3 a p g d); [left|done].
  - intros p' Hp' Hr. destruct (H4 _ Hp' Hr) as [|(a' & g' & d' & [[= -> -> -> -> <-]|Hin]%elem_of_cons)]; [by left| |right; exists a', g', d'; by right].
    destruct (H1 _ Hp') as [-> _]. destruct (H2 _ ltac:(left)) as [-> _]. by rewrite bool_decide_eq_true_2, Z.eqb_refl, Hr in Hc.
Qed.

Lemma flying_access s pc o rest s' pcs : counted s (pc :: rest) → flying s (pc :: rest) → access s pc o = Some (s', pcs) → flying s' (pcs ++ rest).
Proof.
  intros Hc Hf Ha. destruct pc as [|b g|b|b| | | |a|a|[g|]|a p g d|a p g d r|a|a| | |]; simpl in Ha; try (repeat case_match; simplify_eq; (eapply flying_same; [..|exact Hf]; try done; same_flights)).
  - injection Ha as Ha. destruct (generation s =? g)%Z; [by eapply flying_apply|]. injection Ha as <- <-. eapply flying_same; [..|exact Hf]; try done; same_flights.
  - injection Ha as Ha. destruct (oc_rule o) as [v|]; [destruct (process s) eqn:Hp|]; [|injection Ha as <- <-; (eapply flying_same; [..|exact Hf]; try done; same_flights)..]. eapply flying_apply; [|exact Ha]. eapply flying_same; [..|exact Hf]; try done.
  - injection Ha as <- <-. apply flying_resize; [by destruct Hc|done].
  - destruct (opMu s); [done|]. injection Ha as <- <-. by apply flying_commit.
Qed.

Definition size_ok (s : SizeState) : Prop := counted (sz_shared s) (sz_threads s) ∧ flying (sz_shared s) (sz_threads s).

Lemma counted_perm s l l' : l ≡ₚ l' → counted s l → counted s l'.
Proof. intros Hl [? ? ?]. split; by rewrite <-(number_perm _ _ _ Hl). Qed.

Lemma flying_perm s l l' : l ≡ₚ l' → flying s l → flying s l'.
Proof. intros Hl. apply flying_same; try done. intros pc _. by rewrite Hl. Qed.

Lemma size_work_ok b s s' : size_ok s → size_work b s s' → size_ok s'.
Proof. intros [Hc Hf] [pc rest o sh pcs Hp Ha _]. apply (counted_perm _ _ _ Hp) in Hc. apply (flying_perm _ _ _ Hp) in Hf. split; simpl; [by eapply counted_access|by eapply flying_access]. Qed.

Lemma size_change_ok v s s' : size_ok s → size_change v s s' → size_ok s'.
Proof.
  intros [[H1 H2 H3] Hf] [Hop|]; (split; simpl; [split; unfold number in *; simpl; rewrite ?Hop in *; simpl in *; lia|eapply flying_same; [..|exact Hf]; try done; same_flights]).
Qed.

(** The generation goes on, or ceases to begin. *)
Lemma flight_later s s' (l : list Pc) : (generation s ≤ generation s')%Z → (starting s' = true → generation s < generation s')%Z → (∀ pc, pc ∈ l → flight_ok s pc) → ∀ pc, pc ∈ l → flight_ok s' pc.
Proof. intros H1 H2 Hl pc Hin. specialize (Hl _ Hin). unfold flight_ok in *. destruct pc; try done; destruct Hl as (-> & H3 & _); split_and!; [done|lia|intros Hs%H2; lia|done|lia|intros Hs%H2; lia]. Qed.

Lemma size_other_ok s s' : size_ok s → size_other s s' → size_ok s'.
Proof.
  intros [[H1 H2 H3] [F1 F2 F3 F4]] Ho. split; [destruct Ho; by split|]. destruct Ho as [v Hop|Hop|Hop|Hop Hp|Hop Hs|]; split; simpl; try done.
  - by apply (flight_later (sz_shared s)).
  - apply (flight_later (sz_shared s)); simpl; [lia|lia|done].
  - by intros p [= <-].
  - by apply (flight_later (sz_shared s)).
  - intros a p g d Hin [= <-]. destruct (F2 _ Hin) as (_ & _ & Hlt). specialize (Hlt Hs). lia.
  - intros p _ _. by left.
Qed.

Lemma size_calm_ok s s' : size_ok s → size_calm s s' → size_ok s'.
Proof.
  intros Hok [v s1 Hs| |s1 Hs]; [by eapply size_change_ok| |by eapply size_work_ok]. destruct Hok as [[H1 H2 H3] Hf]. split; [by split|]. simpl. eapply flying_same; [..|exact Hf]; try done. same_flights.
Qed.

Lemma size_step_ok s s' : size_ok s → size_step s s' → size_ok s'.
Proof. intros Hok [s1 Hs|s1 Hs|s1 Hs]; [by eapply size_calm_ok|by eapply size_work_ok|by eapply size_other_ok]. Qed.

Lemma size_reach_ok g d s : rtc size_step (size_start g d) s → size_ok s.
Proof.
  intros Hr. assert (Hs : size_ok (size_start g d)).
  { split; [done|]. split; simpl; [by intros p [= <-]|by intros pc ?%elem_of_nil|by intros a p g' d' ?%elem_of_nil|by left]. }
  generalize Hs. clear Hs. induction Hr as [|x y z Hs _ IH]; [done|]. intros Hx. apply IH. by eapply size_step_ok.
Qed.

(** ** What a noticed change leaves to be done *)

(** The size that a thread is having the current process take. *)
Definition brings (s : Shared) (pc : Pc) : option Size := match pc with AResize _ p _ d | ACommit _ p _ d true => if (p =? generation s)%Z then Some d else None | _ => None end.

(** What was applied, or will be by who is at it. *)
Definition settled (s : Shared) (l : list Pc) (d : Size) : Prop := (∀ pc d', pc ∈ l → brings s pc = Some d' → d' = d) ∧ ((∀ pc, pc ∈ l → brings s pc = None) → command s = d).

(** Will apply what the rule gives then, or have a worker look; or looks at the flag. *)
Definition early (s : Shared) (pc : Pc) : bool :=
  match pc with TLive | TGen _ _ | TSet _ | WGen => true | ALockResize (Worker g) | ALockOp (Worker g) | AApply (Worker g) => (g =? generation s)%Z | _ => false end.
Definition later (pc : Pc) : bool := match pc with TSwap _ | WLook | WSwap => true | _ => running pc end.
Definition pending (s : Shared) (l : list Pc) : Prop := (∃ pc, pc ∈ l ∧ early s pc = true) ∨ (dirty s = true ∧ ∃ pc, pc ∈ l ∧ later pc = true).

Definition announces (pc : Pc) : bool := match pc with TLive | TGen _ _ => true | _ => false end.

Record noticed (s : Shared) (l : list Pc) : Prop := {
  nt_process : process s = Some (generation s);
  nt_live : live s = Some (generation s);
  nt_retiring : retiring s = false;
  nt_fresh b g : TGen b g ∈ l → g = generation s;
  nt_generation : sizeGeneration s = generation s ∨ ∃ pc, pc ∈ l ∧ announces pc = true;
  nt_rule d : rule s = Some d → settled s l d ∨ pending s l;
}.

(** Who holds resizeMu is alone at a process. *)
Lemma alone s pc rest : counted s (pc :: rest) → holds_resize pc = true → ∀ x, x ∈ rest → brings s x = None.
Proof.
  intros [_ _ H3] Hpc x Hin. destruct (holds_resize x) eqn:Hx; [|by destruct x]. pose proof (number_in _ _ _ Hin Hx). unfold number in *. simpl in H3. rewrite Hpc in H3. destruct (resizeMu s); simpl in H3; lia.
Qed.

Lemma brings_generation s s' pc : generation s' = generation s → brings s' pc = brings s pc.
Proof. intros E. unfold brings. by rewrite E. Qed.

(** A step of a thread that has nothing under way. *)
Lemma settled_step s s' pc pcs rest d : generation s' = generation s → command s' = command s → brings s pc = None → Forall (λ x, brings s x = None) pcs → settled s (pc :: rest) d → settled s' (pcs ++ rest) d.
Proof.
  intros E1 E2 Hpc Hpcs [H1 H2]. rewrite Forall_forall in Hpcs. split.
  - intros x d'. rewrite (brings_generation s) by done. intros [Hin|Hin]%elem_of_app Hb; [by rewrite (Hpcs _ Hin) in Hb|]. apply (H1 x d'); [by right|done].
  - rewrite E2. intros Hn. apply H2. intros x [->|Hin]%elem_of_cons; [done|]. rewrite <-(brings_generation s s') by done. apply Hn, elem_of_app. by right.
Qed.

Lemma pending_rest s s' pc pcs rest : generation s' = generation s → (dirty s = true → dirty s' = true) → (early s pc = true ∨ dirty s = true ∧ later pc = true → pending s' (pcs ++ rest)) → pending s (pc :: rest) → pending s' (pcs ++ rest).
Proof.
  intros E1 E2 Hpc [(x & [->|Hin]%elem_of_cons & Hx)|(Hd & x & [->|Hin]%elem_of_cons & Hx)]; [by apply Hpc; left|left|by apply Hpc; right|right].
  - exists x. split; [apply elem_of_app; by right|]. unfold early in *. by rewrite E1.
  - split; [by apply E2|]. exists x. split; [apply elem_of_app; by right|done].
Qed.

(** A thread that leaves the work to the worker. *)
Lemma worker_later s l : number running l = one true → dirty s = true → pending s l.
Proof. intros Hn Hd. destruct (number_pos running l) as (x & Hin & Hx); [rewrite Hn; done|]. right. split; [done|]. exists x. split; [done|]. unfold later. by destruct x. Qed.

Lemma pending_head_early s pc l : early s pc = true → pending s (pc :: l).
Proof. intros Hx. left. exists pc. split; [left|done]. Qed.
Lemma pending_head_later s pc l : dirty s = true → later pc = true → pending s (pc :: l).
Proof. intros Hd Hx. right. split; [done|]. exists pc. split; [left|done]. Qed.

(** Having read the rule. *)
Lemma apply_settles s a rest s' pcs d : counted s (AApply a :: rest) → process s = Some (generation s) → applyWindowSizeLocked s a = (s', pcs) → rule s' = Some d → settled s' (pcs ++ rest) d.
Proof.
  intros Hc Hp Ha Hr. pose proof (alone _ _ _ Hc eq_refl) as Hrest. unfold applyWindowSizeLocked in Ha. rewrite Hp in Ha. destruct (rule s) as [d0|] eqn:Hs; [case_decide as Hd|]; injection Ha as <- <-; simpl in Hr; try congruence; assert (d0 = d) as -> by congruence.
  - split; [|done]. intros x d' [->|Hin]%elem_of_cons; [done|]. by rewrite (Hrest _ Hin).
  - split.
    + intros x d' [->|Hin]%elem_of_cons; simpl; [rewrite Z.eqb_refl; congruence|]. rewrite (brings_generation s), (Hrest _ Hin) by done. done.
    + intros Hn. specialize (Hn (AResize a (generation s) (generation s) d) ltac:(left)). simpl in Hn. by rewrite Z.eqb_refl in Hn.
Qed.

Lemma settled_commit s a p g d0 r rest d : counted s (ACommit a p g d0 r :: rest) → flight_ok s (ACommit a p g d0 r) → process s = Some (generation s) → retiring s = false → settled s (ACommit a p g d0 r :: rest) d →
  settled (set_opMu (if bool_decide (process s = Some p) && (generation s =? g)%Z && r && negb (retiring s) then set_command s d0 else s) true) (AUnlock a :: rest) d.
Proof.
  intros Hc (-> & _) Hp Hr [H1 H2]. pose proof (alone _ _ _ Hc eq_refl) as Hrest. rewrite Hp, Hr. specialize (H1 (ACommit a p p d0 r) d0 ltac:(left)). simpl in H1.
  destruct (Z.eqb_spec p (generation s)) as [->|Hne], r; simpl; rewrite ?andb_false_r; simpl.
  - rewrite bool_decide_eq_true_2, Z.eqb_refl by done. simpl. split; [|by rewrite H1]. intros x d' [->|Hin]%elem_of_cons; [done|]. rewrite (brings_generation s), (Hrest _ Hin) by done. done.
  - split; [intros x d' [->|Hin]%elem_of_cons; [done|]; rewrite (brings_generation s), (Hrest _ Hin) by done; done|]. intros _. apply H2. intros x [->|Hin]%elem_of_cons; [done|by apply Hrest].
  - rewrite bool_decide_eq_false_2 by congruence. simpl. split; [intros x d' [->|Hin]%elem_of_cons; [done|]; rewrite (brings_generation s), (Hrest _ Hin) by done; done|]. intros _. apply H2. intros x [->|Hin]%elem_of_cons; [simpl; by rewrite (proj2 (Z.eqb_neq _ _) Hne)|by apply Hrest].
  - split; [intros x d' [->|Hin]%elem_of_cons; [done|]; rewrite (brings_generation s), (Hrest _ Hin) by done; done|]. intros _. apply H2. intros x [->|Hin]%elem_of_cons; [done|by apply Hrest].
Qed.

Lemma access_keeps s pc o s' pcs : access s pc o = Some (s', pcs) → generation s' = generation s ∧ process s' = process s ∧ live s' = live s ∧ retiring s' = retiring s.
Proof. destruct pc as [|b g|b|b| | | |a|a|[g|]|a p g d|a p g d r|a|a| | |]; simpl; unfold applyWindowSizeLocked; intros Ha; repeat case_match; simplify_eq; done. Qed.

Lemma settled_resize s a p g d0 (rest : list Pc) d : settled s (AResize a p g d0 :: rest) d → settled (if bool_decide (process s = Some p) then set_terminal s d0 else s) (ACommit a p g d0 true :: rest) d.
Proof.
  intros [H1 H2]. set (s' := if bool_decide _ then _ else s). assert (E : generation s' = generation s ∧ command s' = command s) by (unfold s'; by destruct (bool_decide _)). destruct E as [E1 E2]. split.
  - intros x d' [->|Hin]%elem_of_cons Hb; rewrite (brings_generation s) in Hb by done; [apply (H1 (AResize a p g d0)); [left|done]|apply (H1 x); [by right|done]].
  - rewrite E2. intros Hn. apply H2. intros x [->|Hin]%elem_of_cons; [specialize (Hn (ACommit a p g d0 true) ltac:(left))|specialize (Hn x ltac:(by right))]; by rewrite (brings_generation s) in Hn by done.
Qed.

(** What a noticed change leaves to be done is done or left to another. *)
Lemma pending_access s pc o rest s' pcs : counted s (pc :: rest) → (∀ a, pc ≠ AApply a) → (pc = WGen → sizeGeneration s = generation s ∨ ∃ x, x ∈ rest ∧ announces x = true) → live s = Some (generation s) →
  access s pc o = Some (s', pcs) → pending s (pc :: rest) → pending s' (pcs ++ rest).
Proof.
  intros Hc Hna Hg Hlive Ha. destruct (access_keeps _ _ _ _ _ Ha) as (E1 & _). pose proof (counted_access _ _ _ _ _ _ Hc Ha) as Hc'. intros Hp.
  destruct (decide (pc = WClear)) as [->|Hclear]; [injection Ha as <- <-; by apply pending_head_early|].
  eapply pending_rest; [exact E1| | |exact Hp]; clear Hp.
  { destruct pc as [|b g|b|b| | | |a|a|a|a p g d|a p g d r|a|a| | |]; simpl in Ha; try (by destruct (Hna a)); repeat case_match; by simplify_eq. }
  intros Hx. destruct pc as [|b g|b|b| | | |a|a|a|a p g d|a p g d r|a|a| | |]; simpl in Ha; try (by destruct (Hna a)).
  - rewrite Hlive in Ha. injection Ha as <- <-. by apply pending_head_early.
  - injection Ha as <- <-. by apply pending_head_early.
  - injection Ha as <- <-. by apply pending_head_later.
  - destruct Hx as [|[Hd _]]; [done|]. injection Ha as <- <-. apply worker_later; [by destruct Hc'|done].
  - by destruct Hx as [|[]].
  - done.
  - injection Ha as <- <-. destruct (Hg eq_refl) as [Heq|(x & Hin & Hx')]; [apply pending_head_early; simpl; by rewrite Heq, Z.eqb_refl|]. left. exists x. split; [by right|by destruct x].
  - destruct (resizeMu s); [done|]. injection Ha as <- <-. destruct Hx as [He|[Hd Hl]]; [by apply pending_head_early; destruct a|by apply pending_head_later].
  - destruct (opMu s); [done|]. injection Ha as <- <-. destruct Hx as [He|[Hd Hl]]; [by apply pending_head_early; destruct a|by apply pending_head_later].
  - injection Ha as <- <-. destruct Hx as [|[Hd Hl]]; [done|]. apply pending_head_later; [by destruct (_ && _)|done].
  - destruct (opMu s); [done|]. injection Ha as <- <-. destruct Hx as [|[Hd Hl]]; [done|]. apply pending_head_later; [by destruct (_ && _)|done].
  - injection Ha as <- <-. destruct Hx as [|[Hd Hl]]; [done|]. by apply pending_head_later.
  - injection Ha as <- <-. destruct Hx as [|[Hd Hl]]; [done|]. destruct a; [by apply pending_head_later|done].
  - injection Ha as <- <-. destruct Hx as [|[Hd Hl]]; [done|]. by apply pending_head_later.
  - destruct Hx as [|[Hd Hl]]; [done|]. rewrite Hd in Ha. injection Ha as <- <-. by apply pending_head_later.
  - destruct Hx as [|[Hd Hl]]; [done|]. injection Ha as <- <-. apply worker_later; [by destruct Hc'|done].
Qed.

Lemma rule_access s pc o rest s' pcs d : counted s (pc :: rest) → flying s (pc :: rest) → noticed s (pc :: rest) → access s pc o = Some (s', pcs) → fails pc o = false → rule s' = Some d → settled s' (pcs ++ rest) d ∨ pending s' (pcs ++ rest).
Proof.
  intros Hc Hf [N1 N2 N3 N4 N5 N6] Ha Hfail Hr. destruct (access_keeps _ _ _ _ _ Ha) as (E1 & _).
  assert (Hcase : (∃ a, pc = AApply a) ∨ ∀ a, pc ≠ AApply a) by (destruct pc; (by left; eexists) || by right). destruct Hcase as [[a ->]|Hna].
  - assert (Hskip : (∀ g, a = Worker g → (generation s =? g)%Z = false) → rule s = Some d → settled s ([AUnlock a] ++ rest) d ∨ pending s ([AUnlock a] ++ rest)).
    { intros Ha' Hr'. destruct (N6 _ Hr') as [Hs|Hp]; [left; eapply settled_step; [..|exact Hs]; by repeat constructor|right]. eapply pending_rest; [..|exact Hp]; try done. intros [He|[Hd Hl]]; [|by apply pending_head_later]. destruct a; [|done]. simpl in He. by rewrite Z.eqb_sym, (Ha' _ eq_refl) in He. }
    destruct a as [g|]; simpl in Ha; injection Ha as Ha.
    + destruct (generation s =? g)%Z eqn:Hg; [left; by eapply apply_settles|]. injection Ha as <- <-. apply Hskip; [congruence|done].
    + rewrite N1 in Ha. destruct (oc_rule o) as [v|]; [|injection Ha as <- <-; by apply Hskip]. left. eapply (apply_settles (set_rule s v)); [|done|exact Ha|done]. by destruct Hc; split.
  - assert (Hrule : rule s' = rule s).
    { destruct pc as [|b g|b|b| | | |a|a|a|a p g d'|a p g d' r|a|a| | |]; simpl in Ha; try (by destruct (Hna a)); repeat case_match; by simplify_eq. }
    rewrite Hrule in Hr. destruct (N6 _ Hr) as [Hs|Hp]; [left|right; eapply pending_access; [exact Hc|done| |done|exact Ha|exact Hp]].
    + destruct pc as [|b g|b|b| | | |a|a|a|a p g d'|a p g d' r|a|a| | |]; simpl in Ha; try (by destruct (Hna a)); try (repeat case_match; simplify_eq; eapply settled_step; [..|exact Hs]; try done; by repeat constructor).
      * injection Ha as <- <-. simpl in Hfail. apply negb_false_iff in Hfail. rewrite Hfail. by apply settled_resize.
      * destruct (opMu s); [done|]. injection Ha as <- <-. apply settled_commit; try done. apply (fl_flight _ _ Hf). left.
    + intros ->. destruct N5 as [|(x & [->|Hin]%elem_of_cons & Hx)]; [by left|done|right; by exists x].
Qed.

Lemma noticed_access s pc o rest s' pcs : counted s (pc :: rest) → flying s (pc :: rest) → noticed s (pc :: rest) → access s pc o = Some (s', pcs) → fails pc o = false → noticed s' (pcs ++ rest).
Proof.
  intros Hc Hf Hn Ha Hfail. pose proof Hn as [N1 N2 N3 N4 N5 N6]. destruct (access_keeps _ _ _ _ _ Ha) as (E1 & E2 & E3 & E4). split; rewrite ?E1, ?E2, ?E3, ?E4; try done.
  - intros b g [Hin|Hin]%elem_of_app; [|apply (N4 b); by right]. destruct pc as [|b' g'|b'|b'| | | |a|a|[g'|]|a p g' d'|a p g' d' r|a|a| | |]; simpl in Ha; unfold applyWindowSizeLocked in Ha; repeat case_match; simplify_eq; set_solver.
  - destruct N5 as [Hg|(x & [->|Hin]%elem_of_cons & Hx)]; [|destruct pc; try done; simpl in Ha|right; exists x; split; [apply elem_of_app; by right|done]].
    + assert (Hsg : sizeGeneration s' = sizeGeneration s ∨ ∃ b g, pc = TGen b g) by (destruct pc as [|b' g'|b'|b'| | | |a|a|[g'|]|a p g' d'|a p g' d' r|a|a| | |]; simpl in Ha; unfold applyWindowSizeLocked in Ha; repeat case_match; simplify_eq; first [by left|right; by do 2 eexists]).
      destruct Hsg as [->|(b & g & ->)]; [by left|]. injection Ha as <- <-. left. simpl. apply (N4 b). left.
    + rewrite N2 in Ha. injection Ha as <- <-. right. eexists. split; [left|done].
    + injection Ha as <- <-. left. simpl. apply (N4 locked). left.
  - intros d. by apply (rule_access s pc o).
Qed.

Lemma noticed_perm s l l' : l ≡ₚ l' → noticed s l → noticed s l'.
Proof. intros Hl [N1 N2 N3 N4 N5 N6]. unfold settled, pending in *. split; unfold settled, pending; try done; by setoid_rewrite <-Hl. Qed.

Definition steady (s : SizeState) : Prop :=
  process (sz_shared s) = Some (generation (sz_shared s)) ∧ live (sz_shared s) = Some (generation (sz_shared s)) ∧ retiring (sz_shared s) = false ∧ ∀ b g, TGen b g ∈ sz_threads s → g = generation (sz_shared s).

Lemma change_noticed v s s' : steady s → size_change v s s' → noticed (sz_shared s') (sz_threads s').
Proof.
  intros (S1 & S2 & S3 & S4) [Hop|]; split; simpl; try done.
  - intros b g [[= -> ->]|Hin]%elem_of_cons; [done|by eapply S4].
  - right. eexists. split; [left|done].
  - right. by apply pending_head_early.
  - intros b g [|Hin]%elem_of_cons; [done|by eapply S4].
  - right. eexists. split; [left|done].
  - right. by apply pending_head_early.
Qed.

Lemma noticed_calm s s' : size_ok s → noticed (sz_shared s) (sz_threads s) → size_calm s s' → noticed (sz_shared s') (sz_threads s').
Proof.
  intros [Hc Hf] Hn [v s1 Hs| |s1 [pc rest o sh pcs Hp Ha Hfail]].
  - eapply change_noticed; [|exact Hs]. by destruct Hn.
  - destruct Hn as [N1 N2 N3 N4 N5 N6]. split; simpl; try done.
    + intros b g [|Hin]%elem_of_cons; [done|by eapply N4].
    + destruct N5 as [|(x & Hin & Hx)]; [by left|right; exists x; split; [by right|done]].
    + intros d Hd. destruct (N6 _ Hd) as [[H1 H2]|[(x & Hin & Hx)|(Hdi & x & Hin & Hx)]]; [left|right; left; exists x; split; [by right|done]|right; right; split; [done|]; exists x; split; [by right|done]].
      split; [intros x d' [->|Hin]%elem_of_cons; [done|by apply H1]|intros Hnone; apply H2; intros x Hin; apply Hnone; by right].
  - simpl. eapply noticed_access; [by eapply counted_perm|by eapply flying_perm|by eapply noticed_perm|done|done].
Qed.

(** ** Every thread comes to an end *)

(** Each turn of a worker needs the flag, and a change sets it once. *)
Definition weight (dirty : bool) (pc : Pc) : nat :=
  match pc with
  | TLive => 2
  | TGen _ _ => 1
  | TSet _ => 0
  | TSwap _ => 15
  | TUnlock => 1
  | WClear => if dirty then 1 else 12
  | WGen => if dirty then 12 else 11
  | ALockResize _ => if dirty then 11 else 10
  | ALockOp _ => if dirty then 10 else 9
  | AApply _ => if dirty then 9 else 8
  | AResize _ _ _ _ => if dirty then 8 else 7
  | ACommit _ _ _ _ _ => if dirty then 7 else 6
  | AUnlock _ => if dirty then 6 else 5
  | AUnlockResize _ => if dirty then 5 else 4
  | WDone => if dirty then 4 else 3
  | WLook => if dirty then 3 else 2
  | WSwap => if dirty then 2 else 13
  end.

Definition changes (pc : Pc) : bool := match pc with TLive | TGen _ _ | TSet _ => true | _ => false end.
Definition sets (s : SizeState) : nat := (2 * number changes (sz_threads s) + one (dirty (sz_shared s)))%nat.
Definition load (s : SizeState) : nat := sum_list_with (weight (dirty (sz_shared s))) (sz_threads s).

Lemma load_perm (f : Pc → nat) l l' : l ≡ₚ l' → sum_list_with f l = sum_list_with f l'.
Proof. induction 1; simpl; lia. Qed.

Lemma size_work_decreases b s s' : size_work b s s' → (sets s' < sets s)%nat ∨ (sets s' = sets s ∧ (load s' < load s)%nat).
Proof.
  intros [pc rest o sh pcs Hp Ha _]. unfold sets, load. rewrite (number_perm _ _ _ Hp), (load_perm _ _ _ Hp). simpl. unfold number.
  assert (Hd : (pc = WClear ∧ dirty sh = false) ∨ (∃ b, pc = TSet b ∧ dirty sh = true) ∨ dirty sh = dirty (sz_shared s)).
  { destruct pc as [|b' g'|b'|b'| | | |a|a|[g'|]|a p g' d'|a p g' d' r|a|a| | |]; simpl in Ha; unfold applyWindowSizeLocked in Ha; repeat case_match; simplify_eq; naive_solver. }
  destruct Hd as [[-> Hd]|[(b' & -> & Hd)|Hd]]; [simpl in Ha; injection Ha as <- <-; simpl; destruct (dirty (sz_shared s)); simpl; lia|simpl in Ha; injection Ha as <- <-; simpl; destruct (dirty (sz_shared s)); simpl; lia|].
  rewrite Hd. destruct pc as [|b' g'|b'|b'| | | |a|a|[g'|]|a p g' d'|a p g' d' r|a|a| | |]; simpl in Ha; unfold applyWindowSizeLocked in Ha; repeat case_match; simplify_eq; simpl in *; destruct (dirty (sz_shared s)); simpl in *; simplify_eq; simpl; lia.
Qed.

Lemma size_work_terminates s : Acc (λ s2 s1, ∃ b, size_work b s1 s2) s.
Proof.
  remember (sets s) as n eqn:Hn. revert s Hn. induction (lt_wf n) as [n _ IHn]. intros s Hn. remember (load s) as k eqn:Hk. revert s Hn Hk. induction (lt_wf k) as [k _ IHk]. intros s Hn Hk. constructor. intros s' [b Hs].
  destruct (size_work_decreases _ _ _ Hs) as [Hlt|[Heq Hlt]]; [by eapply IHn; [|done]; lia|]. by eapply IHk; [|lia|done]; lia.
Qed.

(** Who holds opMu can go on, then who holds resizeMu, then anyone. *)
Lemma work_of s pc : pc ∈ sz_threads s → access (sz_shared s) pc (mkOutcome None true) ≠ None → ∃ s', size_work false s s'.
Proof.
  intros (rest & Hp)%elem_of_Permutation Ha. destruct (access _ _ _) as [[sh pcs]|] eqn:Hacc; [|done]. eexists. eapply work_access; [exact Hp|exact Hacc|by destruct pc].
Qed.

Lemma size_progress s : size_ok s → sz_threads s ≠ [] → ∃ s', size_work false s s'.
Proof.
  intros [[H1 H2 H3] _] Hne. destruct (opMu (sz_shared s)) eqn:Hop.
  - destruct (number_pos holds_op (sz_threads s)) as (pc & Hin & Hh); [rewrite H2; done|]. apply (work_of s pc Hin). destruct pc as [|b g|b|b| | | |a|a|[g|]|a p g d|a p g d r|a|a| | |]; done.
  - destruct (resizeMu (sz_shared s)) eqn:Hre.
    + destruct (number_pos holds_resize (sz_threads s)) as (pc & Hin & Hh); [rewrite H3; done|]. apply (work_of s pc Hin). destruct pc as [|b g|b|b| | | |a|a|[g|]|a p g d|a p g d r|a|a| | |]; try done; simpl; by rewrite Hop.
    + destruct (sz_threads s) as [|pc rest] eqn:Ht; [done|]. apply (work_of s pc); [rewrite Ht; left|]. destruct pc as [|b g|b|b| | | |a|a|[g|]|a p g d|a p g d r|a|a| | |]; try done; simpl; by rewrite ?Hop, ?Hre.
Qed.

(** C36: a change of the rule's answer that is noticed (a window attaches or detaches, or another window is typed in) is not lost: if from then on the process of the generation runs, it takes the sizes it is given, the host does not retire,
    and the windows change only with notice or by a client's own resize, then as soon as no thread is under way the terminal has the size that the rule gives, and the session has recorded it, however often the windows changed since and
    whatever had gone wrong before.  Only input of an earlier generation must not be about to store its generation then.  Threads that are under way can always go on, whatever happened, and without further changes they come to an end. *)
Theorem size_change_applied g d0 s0 v s1 s : rtc size_step (size_start g d0) s0 → steady s0 → size_change v s0 s1 → rtc size_calm s1 s →
  (sz_threads s = [] → ∀ d, rule (sz_shared s) = Some d → terminal (sz_shared s) = d ∧ command (sz_shared s) = d) ∧
  (∀ s2, rtc size_step (size_start g d0) s2 → (sz_threads s2 ≠ [] → ∃ s', size_work false s2 s') ∧ Acc (λ s2 s1, ∃ b, size_work b s1 s2) s2).
Proof.
  intros Hr Hsteady Hc Hcalm. split.
  - assert (Hs : size_ok s ∧ noticed (sz_shared s) (sz_threads s)).
    { assert (H0 : size_ok s1 ∧ noticed (sz_shared s1) (sz_threads s1)) by (split; [eapply size_change_ok; [by eapply size_reach_ok|exact Hc]|by eapply change_noticed]).
      clear Hr Hsteady Hc. induction Hcalm as [|x y z Hs _ IH]; [done|]. apply IH. destruct H0 as [Hok Hn]. split; [by eapply size_calm_ok|by eapply noticed_calm]. }
    destruct Hs as [[_ Hf] Hn]. intros Hnil d Hd. rewrite Hnil in *. destruct (nt_rule _ _ Hn _ Hd) as [[_ H2]|[(x & Hin & _)|(_ & x & Hin & _)]]; [|by apply elem_of_nil in Hin..].
    assert (Hcmd : command (sz_shared s) = d) by (apply H2; by intros x ?%elem_of_nil). split; [|done]. destruct (fl_terminal _ _ Hf _ (nt_process _ _ Hn) (nt_retiring _ _ Hn)) as [->|(a & g' & d' & Hin)]; [done|by apply elem_of_nil in Hin].
  - intros s2 Hs2. split; [intros Hne; eapply size_progress; [by eapply size_reach_ok|done]|apply size_work_terminates].
Qed.

(** ** Runs *)

(** The threads at these places of the list go on in turn. *)
Fixpoint drive (s : SizeState) (turns : list nat) : option SizeState :=
  match turns with
  | [] => Some s
  | i :: turns =>
      match sz_threads s !! i with
      | None => None
      | Some pc => match access (sz_shared s) pc (mkOutcome None true) with Some (sh, pcs) => drive (mkSizeState sh (pcs ++ delete i (sz_threads s))) turns | None => None end
      end
  end.

Lemma drive_calm turns : ∀ s s', drive s turns = Some s' → rtc size_calm s s'.
Proof.
  induction turns as [|i turns IH]; intros s s'; simpl; [by intros [= ->]|]. destruct (sz_threads s !! i) as [pc|] eqn:Hi; [|done]. destruct (access _ _ _) as [[sh pcs]|] eqn:Ha; [|done]. intros Hd%IH. eapply rtc_l; [|exact Hd].
  apply calm_work. eapply work_access; [by apply delete_Permutation|exact Ha|by destruct pc].
Qed.

Lemma calm_step s s' : rtc size_calm s s' → rtc size_step s s'.
Proof. apply rtc_subrel. intros x y. apply step_calm. Qed.

Lemma drive_step turns s s' s'' : drive s turns = Some s' → rtc size_step s' s'' → rtc size_step s s''.
Proof. intros Hd%drive_calm Hr. etrans; [by apply calm_step|exact Hr]. Qed.
End sizing.
Arguments Shared : clear implicits.
Arguments Pc : clear implicits.
Arguments SizeState : clear implicits.

(** Columns and rows. *)
Abbreviation cells := (Z * Z)%type.

(** A window attaches; while the terminal takes its size another one is typed in. *)
Definition size_before : SizeState cells := size_start 1 (80, 24)%Z.
Definition size_attached : SizeState cells := mkSizeState (set_opMu (set_rule (sz_shared size_before) (Some (100, 30)%Z)) true) [TGen true 1].
Definition size_mid : SizeState cells := Eval vm_compute in default size_before (drive size_attached [0; 0; 0; 1; 0; 0; 0; 0; 0]%nat).
Definition size_typed : SizeState cells := mkSizeState (set_rule (sz_shared size_mid) (Some (120, 40)%Z)) (TLive :: sz_threads size_mid).
Definition size_end : SizeState cells := Eval vm_compute in default size_before (drive size_typed (replicate 22 0%nat)).

Lemma size_attached_end : rtc size_calm size_attached size_end.
Proof.
  etrans; [apply (drive_calm [0; 0; 0; 1; 0; 0; 0; 0; 0]%nat _ size_mid); reflexivity|]. eapply rtc_l; [eapply calm_change, (change_touched (Some (120, 40)%Z))|]. apply (drive_calm (replicate 22 0%nat)). reflexivity.
Qed.

Lemma size_change_applied_witness : rule (sz_shared size_end) = Some (120, 40)%Z ∧ terminal (sz_shared size_end) = (120, 40)%Z ∧ command (sz_shared size_end) = (120, 40)%Z.
Proof.
  split; [reflexivity|].
  apply (proj1 (size_change_applied 1 (80, 24)%Z size_before (Some (100, 30)%Z) size_attached size_end (rtc_refl _ _) ltac:(split_and!; try reflexivity; intros b g Hin; inversion Hin) (change_observed (Some (100, 30)%Z) size_before eq_refl) size_attached_end)); reflexivity.
Defined.

(** A window that is pruned with its attachment, or dropped with a restart: the terminal keeps the size of a window that is gone. *)
Definition size_gone : SizeState cells := mkSizeState (set_rule (sz_shared size_end) (Some (100, 30)%Z)) [].

Theorem unnoticed_change_kept : rtc size_step size_before size_gone ∧ sz_threads size_gone = [] ∧ live (sz_shared size_gone) = Some 1%Z ∧ rule (sz_shared size_gone) = Some (100, 30)%Z ∧ terminal (sz_shared size_gone) = (120, 40)%Z.
Proof.
  split; [|done]. eapply rtc_l; [eapply step_calm, calm_change, (change_observed (Some (100, 30)%Z)); reflexivity|]. etrans; [apply calm_step, size_attached_end|]. apply rtc_once, step_other, (other_windows size_end). reflexivity.
Qed.

(** Input of a process that exits meanwhile: it stores that generation after a window has attached to the next one, and the worker passes the change of that window over. *)
Definition late_restarted : SizeState cells := mkSizeState (set_process (sz_shared size_before) 2 false (Some 2%Z) (Some 2%Z) (80, 24)%Z) [TGen false 1].
Definition late_attached : SizeState cells := mkSizeState (set_opMu (set_rule (sz_shared late_restarted) (Some (100, 30)%Z)) true) [TGen true 2; TGen false 1].
Definition late_end : SizeState cells := Eval vm_compute in default size_before (drive late_attached ([0; 0; 0; 1; 1; 1; 1] ++ replicate 19 0)%nat).

Lemma late_attached_reached : rtc size_step size_before late_attached.
Proof.
  eapply rtc_l; [eapply step_calm, calm_change, (change_touched (Some (120, 40)%Z))|]. apply (drive_step [0%nat] _ (mkSizeState (set_rule (sz_shared size_before) (Some (120, 40)%Z)) [TGen false 1])); [reflexivity|].
  eapply rtc_l; [apply step_other, (other_windows _ None); reflexivity|]. eapply rtc_l; [apply step_other, other_exit; reflexivity|]. eapply rtc_l; [apply step_other, other_running; reflexivity|].
  eapply rtc_l; [apply step_other, other_launched; reflexivity|]. simpl. apply rtc_once, step_calm. eapply calm_change. apply (change_observed (Some (100, 30)%Z) late_restarted). reflexivity.
Qed.

Theorem late_input_hides_change : rtc size_step size_before late_end ∧ sz_threads late_end = [] ∧ live (sz_shared late_end) = Some (generation (sz_shared late_end)) ∧ rule (sz_shared late_end) = Some (100, 30)%Z ∧ terminal (sz_shared late_end) = (80, 24)%Z.
Proof. split; [|done]. etrans; [apply late_attached_reached|]. apply (drive_step ([0; 0; 0; 1; 1; 1; 1] ++ replicate 19 0)%nat _ late_end); reflexivity. Qed.
