(* ===== verification/Input.v ===== *)
(** * Terminal input, written once and in order: src/cli/internal/hostruntime/session, input.go and state.go

    A write of input is three steps between which the lock is released: reserving its identity, writing to the terminal, and recording what was written.  SHA-256 is a parameter.  What the terminal takes of a write,
    and whether an interrupt stops it, is any answer; the byte of an interrupt that overtakes what is queued (Manager.Interrupt) reaches the terminal outside of this, and its write in turn goes to a stand-in, which is not told apart. *)
From S2P Require Import Prelude GoStd GoData.

(** ** The life cycle of a session *)

Inductive State := Creating | Running | Exited | Restarting | Closing | Closed | Deleted.

#[export] Instance State_eq_dec : EqDecision State.
Proof. solve_decision. Defined.

Definition transitions (from : State) : list State :=
  match from with
  | Creating => [Running; Exited; Closed]
  | Running => [Exited; Closing; Restarting]
  | Exited => [Restarting; Closing; Deleted]
  | Restarting => [Running; Exited; Closed]
  | Closing => [Closed]
  | Closed => [Restarting; Deleted]
  | Deleted => []
  end.

Record Lifecycle := mkLifecycle { lc_state : State; lc_generation : Z }.

Definition NewLifecycle : Lifecycle := mkLifecycle Creating 0.

(** RecoverLifecycle of a state the map has. *)
Definition RecoverLifecycle (state : State) (generation : Z) : option Lifecycle :=
  if (bool_decide (state = Creating) && negb (generation =? 0)%Z) || (bool_decide (state ∈ [Running; Exited; Restarting; Closing]) && (generation =? 0)%Z) then None else Some (mkLifecycle state generation).

Definition Transition (l : Lifecycle) (to : State) : option Lifecycle :=
  if negb (bool_decide (to ∈ transitions (lc_state l))) then None
  else Some (mkLifecycle to (if bool_decide (to = Running) && (bool_decide (lc_state l = Creating) || bool_decide (lc_state l = Restarting)) then UInt64.wrap (lc_generation l + 1) else lc_generation l)).

(** ** The journal of input *)

Inductive InputStatus := InputAccepted | InputDuplicate | InputRejected | InputUncertain.
#[export] Instance InputStatus_eq_dec : EqDecision InputStatus.
Proof. solve_decision. Defined.

Inductive InputError := ErrInvalidInput | ErrInputConflict | ErrInputSequence | ErrInputUncertain | StaleGenerationError (CurrentGeneration : Z) | ErrInputUnknown | ErrInputJournalFull.

Record InputKey := mkKey { ik_ClientID : string; ik_AttachmentID : string; ik_Generation : Z; ik_InputSequence : Z; ik_InputID : string }.

#[export] Instance InputKey_eq_dec : EqDecision InputKey.
Proof. solve_decision. Defined.
#[export] Instance InputKey_countable : Countable InputKey.
Proof.
  apply (inj_countable' (λ k, (ik_ClientID k, ik_AttachmentID k, ik_Generation k, ik_InputSequence k, ik_InputID k)) (λ '(c, a, g, s, i), mkKey c a g s i)). by intros [].
Defined.

Record InputDecision := mkDecision { id_Status : InputStatus; id_InputSequence : Z; id_BytesWritten : Z; id_WriteError : string; id_hash : string }.

Record inputCursor := mkCursor { cu_clientID : string; cu_attachmentID : string; cu_generation : Z }.

#[export] Instance inputCursor_eq_dec : EqDecision inputCursor.
Proof. solve_decision. Defined.
#[export] Instance inputCursor_countable : Countable inputCursor.
Proof. apply (inj_countable' (λ k, (cu_clientID k, cu_attachmentID k, cu_generation k)) (λ '(c, a, g), mkCursor c a g)). by intros []. Defined.

Record InputJournal := mkInputs { ij_current : Z; ij_max : Z; ij_decisions : gmap InputKey InputDecision; ij_last : gmap inputCursor Z }.

Definition NewBoundedInputJournal (generation max : Z) : InputJournal := mkInputs generation max ∅ ∅.

Definition InputDecisionWindow : Z := 256.

(** SetGeneration: the loops delete entries of the maps they range over, in any order. *)
Definition SetGeneration (j : InputJournal) (generation : Z) : InputJournal :=
  mkInputs generation (ij_max j) (filter (λ p, ik_Generation p.1 = generation) (ij_decisions j)) (filter (λ p, cu_generation p.1 = generation) (ij_last j)).

Definition normalizeInputKey (key : InputKey) : InputKey * bool :=
  if negb (ik_InputSequence key =? 0)%Z then (mkKey (ik_ClientID key) (ik_AttachmentID key) (ik_Generation key) (ik_InputSequence key) "", false) else (key, true).

Definition publicDecision (d : InputDecision) : InputDecision := mkDecision (id_Status d) (id_InputSequence d) (id_BytesWritten d) (id_WriteError d) "".

Definition with_status (d : InputDecision) (s : InputStatus) : InputDecision := mkDecision s (id_InputSequence d) (id_BytesWritten d) (id_WriteError d) (id_hash d).

Definition cursor_of (key : InputKey) : inputCursor := mkCursor (ik_ClientID key) (ik_AttachmentID key) (ik_Generation key).
Definition with_sequence (key : InputKey) (n : Z) : InputKey := mkKey (ik_ClientID key) (ik_AttachmentID key) (ik_Generation key) n (ik_InputID key).

Definition forgetBeforeWindowLocked (key : InputKey) (decisions : gmap InputKey InputDecision) : gmap InputKey InputDecision :=
  if (InputDecisionWindow <? ik_InputSequence key)%Z then delete (with_sequence key (ik_InputSequence key - InputDecisionWindow)) decisions else decisions.

(** Input that is not next to the last of its cursor, or follows one whose fate is unknown, is refused. *)
Definition out_of_order (j : InputJournal) (key : InputKey) : option InputError :=
  if (ik_InputSequence key =? 0)%Z then None
  else
    let last := default 0%Z (ij_last j !! cursor_of key) in
    if (last =? 0)%Z then None
    else
      if match ij_decisions j !! mkKey (ik_ClientID key) (ik_AttachmentID key) (ik_Generation key) last "" with Some previous => bool_decide (id_Status previous = InputUncertain) | None => false end then Some ErrInputUncertain
      else if negb (ik_InputSequence key =? UInt64.wrap (last + 1))%Z then Some ErrInputSequence else None.

(** What reserving gives: an answer, or the identity is reserved and the data is to be written. *)
Inductive Reserved := Answer (r : InputError + InputDecision) | Reserve (key : InputKey) (hash : string).

Section journal.
Context `{SHA256}.

(** The part of Write before the terminal is written; [writer] tells whether there is one. *)
Definition Write_reserve (j : InputJournal) (key : InputKey) (data : string) (writer : bool) : InputJournal * Reserved :=
  let '(key, legacy) := normalizeInputKey key in
  if String.eqb (ik_ClientID key) "" || String.eqb (ik_AttachmentID key) "" || (ik_Generation key =? 0)%Z || ((ik_InputSequence key =? 0)%Z && String.eqb (ik_InputID key) "") || negb writer
  then (j, Answer (inl ErrInvalidInput))
  else
    let hash := Sum256 data in
    match ij_decisions j !! key with
    | Some previous =>
        if negb (String.eqb (id_hash previous) hash) then (j, Answer (inl ErrInputConflict))
        else (j, Answer (inr (publicDecision (if legacy && bool_decide (id_Status previous = InputAccepted) then with_status previous InputDuplicate else previous))))
    | None =>
        if (ij_max j <=? Z.of_nat (size (ij_decisions j)))%Z then (j, Answer (inl ErrInputJournalFull))
        else if negb (ik_Generation key =? ij_current j)%Z then (j, Answer (inl (StaleGenerationError (ij_current j))))
        else match out_of_order j key with
             | Some e => (j, Answer (inl e))
             | None =>
                 let decisions := <[key := mkDecision InputUncertain (ik_InputSequence key) 0 "" hash]> (ij_decisions j) in
                 if negb (ik_InputSequence key =? 0)%Z
                 then (mkInputs (ij_current j) (ij_max j) (forgetBeforeWindowLocked key decisions) (<[cursor_of key := ik_InputSequence key]> (ij_last j)), Reserve key hash)
                 else (mkInputs (ij_current j) (ij_max j) decisions (ij_last j), Reserve key hash)
             end
    end.

(** What the terminal answers to a write of [len] bytes: how many it took, and an error (pty.ErrInterrupted or another). *)
Inductive WriteErr := NoError | Interrupted | Failed.

Definition decide_write (key : InputKey) (hash : string) (len n : Z) (err : WriteErr) : InputDecision :=
  let status := if (n =? len)%Z then InputAccepted else if (n =? 0)%Z then InputRejected else InputUncertain in
  match err with
  | NoError => mkDecision status (ik_InputSequence key) n "" hash
  | Interrupted => mkDecision InputAccepted (ik_InputSequence key) n "interrupted" hash
  | Failed => mkDecision (if (0 <? n)%Z && (n <? len)%Z then InputUncertain else status) (ik_InputSequence key) n "pty_write_failed" hash
  end.

(** The part of Write after it. *)
Definition Write_record (j : InputJournal) (key : InputKey) (hash : string) (d : InputDecision) : InputJournal * InputDecision :=
  (match ij_decisions j !! key with
   | Some current => if String.eqb (id_hash current) hash then mkInputs (ij_current j) (ij_max j) (<[key := d]> (ij_decisions j)) (ij_last j) else j
   | None => j
   end, publicDecision d).

Definition Query (j : InputJournal) (key : InputKey) : InputError + InputDecision :=
  match ij_decisions j !! (normalizeInputKey key).1 with Some d => inr (publicDecision d) | None => inl ErrInputUnknown end.

(** Admit, of the journal. *)
Definition Admissible (j : InputJournal) (key : InputKey) : option InputError :=
  let key := (normalizeInputKey key).1 in
  match ij_decisions j !! key with
  | Some _ => None
  | None => if (ij_max j <=? Z.of_nat (size (ij_decisions j)))%Z then Some ErrInputJournalFull else out_of_order j key
  end.

Definition Restore (j : InputJournal) (key : InputKey) (hash : string) (status : InputStatus) (bytesWritten : Z) (errorCode : string) : InputJournal * option InputError :=
  let key := (normalizeInputKey key).1 in
  if negb (String.length hash =? 32)%nat || String.eqb (ik_ClientID key) "" || String.eqb (ik_AttachmentID key) "" || ((ik_InputSequence key =? 0)%Z && String.eqb (ik_InputID key) "") || (ik_Generation key =? 0)%Z
  then (j, Some ErrInvalidInput)
  else if bool_decide (status = InputDuplicate) then (j, Some ErrInvalidInput)
  else match ij_decisions j !! key with
       | Some _ => (j, Some ErrInputConflict)
       | None =>
           if (ij_max j <=? Z.of_nat (size (ij_decisions j)))%Z then (j, Some ErrInputJournalFull)
           else (mkInputs (ij_current j) (ij_max j) (<[key := mkDecision status (ik_InputSequence key) bytesWritten errorCode hash]> (ij_decisions j))
                   (if negb (ik_InputSequence key =? 0)%Z && (default 0 (ij_last j !! cursor_of key) <? ik_InputSequence key)%Z then <[cursor_of key := ik_InputSequence key]> (ij_last j) else ij_last j), None)
       end.

Definition LastSequence (j : InputJournal) (clientID attachmentID : string) (generation : Z) : Z := default 0%Z (ij_last j !! mkCursor clientID attachmentID generation).
End journal.

(** * Input reaches the terminal once and in order, and a retry gets the recorded answer

    The world holds the journal, the writes whose identity is reserved, those that the terminal has answered and that are not recorded yet, those that are, and what the terminal was given, in order.  Any number of
    writes run at once; the generation of the process moves on at any time.  The journal starts with what Restore took from the store. *)

Section world.
Context `{SHA256}.

(** A write that the terminal was given: its data, the bytes that it took, and its error. *)
Record Written := mkWritten { wr_key : InputKey; wr_data : string; wr_n : Z; wr_err : WriteErr }.

Definition len (data : string) : Z := Z.of_nat (String.length data).
Definition outcome (e : Written) : InputDecision := decide_write (wr_key e) (Sum256 (wr_data e)) (len (wr_data e)) (wr_n e) (wr_err e).

Record IWorld := mkIWorld { iw_journal : InputJournal; iw_flight : list (InputKey * string); iw_answered : list Written; iw_recorded : list Written; iw_terminal : list Written; iw_before : list InputKey }.

Inductive input_step (w : IWorld) : IWorld → Prop :=
| input_reserve key data j' k h : (0 ≤ ik_InputSequence key ≤ UInt64.max_value)%Z → Write_reserve (iw_journal w) key data true = (j', Reserve k h) →
    input_step w (mkIWorld j' ((k, data) :: iw_flight w) (iw_answered w) (iw_recorded w) (iw_terminal w) (iw_before w))
| input_write k data rest n err : iw_flight w ≡ₚ (k, data) :: rest → (0 ≤ n ≤ len data)%Z →
    input_step w (mkIWorld (iw_journal w) rest (mkWritten k data n err :: iw_answered w) (iw_recorded w) (iw_terminal w ++ [mkWritten k data n err]) (iw_before w))
| input_record e rest j' d : iw_answered w ≡ₚ e :: rest → Write_record (iw_journal w) (wr_key e) (Sum256 (wr_data e)) (outcome e) = (j', d) →
    input_step w (mkIWorld j' (iw_flight w) rest (e :: iw_recorded w) (iw_terminal w) (iw_before w))
| input_generation g : (ij_current (iw_journal w) < g)%Z → input_step w (mkIWorld (SetGeneration (iw_journal w) g) (iw_flight w) (iw_answered w) (iw_recorded w) (iw_terminal w) (iw_before w)).

(** What the store held: of generations up to the current one. *)
Record StoredInput := mkStored { si_key : InputKey; si_hash : string; si_status : InputStatus; si_bytes : Z; si_error : string }.
Definition restore_one (p : InputJournal * list InputKey) (s : StoredInput) : InputJournal * list InputKey :=
  match Restore p.1 (si_key s) (si_hash s) (si_status s) (si_bytes s) (si_error s) with (j, None) => (j, (normalizeInputKey (si_key s)).1 :: p.2) | (j, Some _) => (j, p.2) end.

Definition input_start (generation max : Z) (stored : list StoredInput) : IWorld :=
  let '(j, before) := foldl restore_one (NewBoundedInputJournal generation max, []) stored in mkIWorld j [] [] [] [] before.

Definition stored_ok (generation : Z) (s : StoredInput) : Prop := (0 ≤ ik_InputSequence (si_key s) ≤ UInt64.max_value)%Z ∧ (ik_Generation (si_key s) ≤ generation)%Z.

(** ** The invariant *)

Definition sequenced (k : InputKey) : Prop := ik_InputSequence k ≠ 0%Z.

(** The journal knows that an identity was used. *)
Definition known (j : InputJournal) (k : InputKey) : Prop :=
  (0 ≤ ik_InputSequence k ≤ UInt64.max_value)%Z ∧ (sequenced k → ik_InputID k = "") ∧ (ik_Generation k ≤ ij_current j)%Z ∧
  (ik_Generation k = ij_current j → if (ik_InputSequence k =? 0)%Z then is_Some (ij_decisions j !! k) else ∃ l, ij_last j !! cursor_of k = Some l ∧ (ik_InputSequence k ≤ l)%Z).

(** A write whose fate is not recorded, or recorded as unknown, is the last of its cursor and stops the next one. *)
Definition blocking (j : InputJournal) (k : InputKey) : Prop :=
  sequenced k → ik_Generation k = ij_current j → ij_last j !! cursor_of k = Some (ik_InputSequence k) ∧ ∃ d, ij_decisions j !! k = Some d ∧ id_Status d = InputUncertain.

(** Whether a decision of this identity is still in the window. *)
Definition in_window (j : InputJournal) (k : InputKey) : Prop := ik_Generation k = ij_current j ∧ (sequenced k → ∀ l, ij_last j !! cursor_of k = Some l → (l - InputDecisionWindow < ik_InputSequence k)%Z).

Definition keys (l : list Written) : list InputKey := map wr_key l.
Definition progress (w : IWorld) : list InputKey := map fst (iw_flight w) ++ keys (iw_answered w).
Definition used (w : IWorld) : list InputKey := iw_before w ++ keys (iw_terminal w) ++ map fst (iw_flight w).

(** The entries that stop the next one of their cursor. *)
Definition blocker (w : IWorld) (k : InputKey) : Prop := k ∈ progress w ∨ ∃ e, e ∈ iw_terminal w ∧ wr_key e = k ∧ id_Status (outcome e) = InputUncertain.

(** An entry of the terminal comes before an identity of the same cursor, and its fate is known. *)
Definition precedes (e : Written) (k : InputKey) : Prop :=
  sequenced k → sequenced (wr_key e) → cursor_of (wr_key e) = cursor_of k → (ik_InputSequence (wr_key e) < ik_InputSequence k)%Z ∧ id_Status (outcome e) ≠ InputUncertain.

Record input_ok (w : IWorld) : Prop := {
  io_split : iw_terminal w ≡ₚ iw_answered w ++ iw_recorded w;
  io_used : NoDup (used w);
  io_known : ∀ k, k ∈ used w → known (iw_journal w) k;
  io_last : ∀ c l, ij_last (iw_journal w) !! c = Some l → (0 < l ≤ UInt64.max_value)%Z;
  io_progress : ∀ k k', k ∈ progress w → k' ∈ progress w → sequenced k → sequenced k' → cursor_of k = cursor_of k' → k = k';
  io_blocking : ∀ k, blocker w k → blocking (iw_journal w) k;
  io_flight : ∀ k data, (k, data) ∈ iw_flight w → in_window (iw_journal w) k → ∃ d, ij_decisions (iw_journal w) !! k = Some d ∧ id_hash d = Sum256 data;
  io_answered : ∀ e, e ∈ iw_answered w → in_window (iw_journal w) (wr_key e) → ∃ d, ij_decisions (iw_journal w) !! wr_key e = Some d ∧ id_hash d = Sum256 (wr_data e);
  io_recorded : ∀ e, e ∈ iw_recorded w → in_window (iw_journal w) (wr_key e) → ij_decisions (iw_journal w) !! wr_key e = Some (outcome e);
  io_after : ∀ e k, e ∈ iw_terminal w → k ∈ map fst (iw_flight w) → precedes e k;
  io_order : ∀ i i' e e', iw_terminal w !! i = Some e → iw_terminal w !! i' = Some e' → (i < i')%nat → precedes e (wr_key e');
}.

(** ** Reserving *)

Lemma normal_key key : let k := (normalizeInputKey key).1 in ik_InputSequence k = ik_InputSequence key ∧ (sequenced k → ik_InputID k = "").
Proof. unfold normalizeInputKey, sequenced. destruct (Z.eqb_spec (ik_InputSequence key) 0); simpl; by split. Qed.

Lemma normal_generation key : ik_Generation (normalizeInputKey key).1 = ik_Generation key.
Proof. unfold normalizeInputKey. by destruct (_ =? _)%Z. Qed.

Record reserved (j j' : InputJournal) (k : InputKey) (hash : string) : Prop := {
  rv_new : ij_decisions j !! k = None;
  rv_generation : ik_Generation k = ij_current j;
  rv_current : ij_current j' = ij_current j;
  rv_order : sequenced k → ∀ l, ij_last j !! cursor_of k = Some l → l ≠ 0%Z → ik_InputSequence k = UInt64.wrap (l + 1) ∧ ∀ d, ij_decisions j !! mkKey (ik_ClientID k) (ik_AttachmentID k) (ik_Generation k) l "" = Some d → id_Status d ≠ InputUncertain;
  rv_last : ∀ c, ij_last j' !! c = if bool_decide (sequenced k ∧ c = cursor_of k) then Some (ik_InputSequence k) else ij_last j !! c;
  rv_own : ij_decisions j' !! k = Some (mkDecision InputUncertain (ik_InputSequence k) 0 "" hash);
  rv_other : ∀ k' d, ij_decisions j !! k' = Some d → (cursor_of k' = cursor_of k → sequenced k → ik_InputSequence k' ≠ (ik_InputSequence k - InputDecisionWindow)%Z ∨ ik_InputSequence k' = 0%Z) → ij_decisions j' !! k' = Some d;
}.

Lemma out_of_order_None j k : out_of_order j k = None → sequenced k → ∀ l, ij_last j !! cursor_of k = Some l → l ≠ 0%Z →
  ik_InputSequence k = UInt64.wrap (l + 1) ∧ ∀ d, ij_decisions j !! mkKey (ik_ClientID k) (ik_AttachmentID k) (ik_Generation k) l "" = Some d → id_Status d ≠ InputUncertain.
Proof.
  unfold out_of_order, sequenced. intros Ho Hs l Hl Hn. destruct (Z.eqb_spec (ik_InputSequence k) 0); [done|]. rewrite Hl in Ho. simpl in Ho. destruct (Z.eqb_spec l 0); [done|].
  destruct (ij_decisions j !! _) as [d|] eqn:Hd.
  - destruct (bool_decide_reflect (id_Status d = InputUncertain)); [done|]. destruct (Z.eqb_spec (ik_InputSequence k) (UInt64.wrap (l + 1))); [|done]. split; [done|]. intros d'. congruence.
  - destruct (Z.eqb_spec (ik_InputSequence k) (UInt64.wrap (l + 1))); [|done]. split; [done|]. intros d'. congruence.
Qed.

Lemma Write_reserve_spec j key data j' k h : (0 ≤ ik_InputSequence key ≤ UInt64.max_value)%Z → Write_reserve j key data true = (j', Reserve k h) →
  (0 ≤ ik_InputSequence k ≤ UInt64.max_value)%Z ∧ (sequenced k → ik_InputID k = "") ∧ h = Sum256 data ∧ reserved j j' k h.
Proof.
  intros Hrange. unfold Write_reserve. pose proof (normal_key key) as [Hseq Hid]. destruct (normalizeInputKey key) as [k0 legacy]. simpl in *. match goal with |- (if ?b then _ else _) = _ → _ => destruct b end; [done|]. destruct (ij_decisions j !! k0) as [prev|] eqn:Hk; [by destruct (negb _)|].
  destruct (_ <=? _)%Z; [done|]. destruct (Z.eqb_spec (ik_Generation k0) (ij_current j)) as [Hg|]; [|done]. simpl. destruct (out_of_order j k0) eqn:Ho; [done|]. destruct (Z.eqb_spec (ik_InputSequence k0) 0) as [Hz|Hz]; simpl; intros [= <- <- <-]; (split; [lia|split; [done|split; [done|]]]).
  - split; simpl; try done; [intros c; rewrite bool_decide_eq_false_2; [done|by intros [? _]]|apply lookup_insert_eq|]. intros k' d Hd _. rewrite lookup_insert_ne; [done|congruence].
  - split; simpl; try done.
    + by apply out_of_order_None.
    + intros c. destruct (decide (c = cursor_of k0)) as [->|Hne]; [by rewrite lookup_insert_eq, bool_decide_eq_true_2|]. rewrite lookup_insert_ne by done. rewrite bool_decide_eq_false_2; [done|]. by intros [_ ?].
    + unfold forgetBeforeWindowLocked. destruct (_ <? _)%Z; [|apply lookup_insert_eq]. rewrite lookup_delete_ne; [apply lookup_insert_eq|]. intros Heq. apply (f_equal ik_InputSequence) in Heq. unfold InputDecisionWindow in Heq. simpl in Heq. lia.
    + intros k' d Hd Hkeep. unfold forgetBeforeWindowLocked. destruct (Z.ltb_spec InputDecisionWindow (ik_InputSequence k0)) as [Hw|]; [|rewrite lookup_insert_ne; [done|congruence]]. rewrite lookup_delete_ne; [rewrite lookup_insert_ne; [done|congruence]|].
      intros <-. simpl in Hkeep. destruct (Hkeep eq_refl Hz); lia.
Qed.

Lemma next_sequence l n : (0 < l ≤ UInt64.max_value)%Z → n = UInt64.wrap (l + 1) → n ≠ 0%Z → n = (l + 1)%Z.
Proof.
  unfold UInt64.wrap, UInt64.max_value. intros Hl -> Hn. destruct (decide (l + 1 < 2 ^ 64)%Z); [apply Z.mod_small; lia|]. replace (l + 1)%Z with (2 ^ 64)%Z in * by lia. by rewrite Z.mod_same in Hn.
Qed.

Lemma key_eq k : ik_InputID k = "" → mkKey (ik_ClientID k) (ik_AttachmentID k) (ik_Generation k) (ik_InputSequence k) "" = k.
Proof. destruct k. simpl. by intros ->. Qed.

Lemma cursor_generation k k' : cursor_of k = cursor_of k' → ik_ClientID k = ik_ClientID k' ∧ ik_AttachmentID k = ik_AttachmentID k' ∧ ik_Generation k = ik_Generation k'.
Proof. unfold cursor_of. by intros [=]. Qed.

Section reserve.
Context (w : IWorld) (j' : InputJournal) (k : InputKey) (data : string) (Hok : input_ok w) (Hrange : (0 ≤ ik_InputSequence k ≤ UInt64.max_value)%Z) (Hid : sequenced k → ik_InputID k = "")
  (Hres : reserved (iw_journal w) j' k (Sum256 data)).

(** The sequence that is reserved is beyond all that were used. *)
Lemma reserve_beyond k' : k' ∈ used w → sequenced k → sequenced k' → cursor_of k' = cursor_of k → (ik_InputSequence k' < ik_InputSequence k)%Z.
Proof.
  intros Hin Hs Hs' Hc. destruct (io_known _ Hok _ Hin) as (_ & _ & _ & Hk). destruct (cursor_generation _ _ Hc) as (_ & _ & Hg). rewrite Hg in Hk. specialize (Hk (rv_generation _ _ _ _ Hres)).
  destruct (Z.eqb_spec (ik_InputSequence k') 0); [done|]. destruct Hk as (l & Hl & Hle). pose proof (io_last _ Hok _ _ Hl) as Hpos. rewrite Hc in Hl.
  destruct (rv_order _ _ _ _ Hres Hs _ Hl ltac:(lia)) as [Hn _]. pose proof (next_sequence l _ Hpos Hn Hs). lia.
Qed.

Lemma reserve_fresh : k ∉ used w.
Proof.
  intros Hin. destruct (decide (ik_InputSequence k = 0%Z)) as [Hz|Hz]; [|pose proof (reserve_beyond k Hin Hz Hz eq_refl); lia]. destruct (io_known _ Hok _ Hin) as (_ & _ & _ & Hk). specialize (Hk (rv_generation _ _ _ _ Hres)).
  rewrite Hz in Hk. simpl in Hk. rewrite (rv_new _ _ _ _ Hres) in Hk. by destruct Hk.
Qed.

Lemma reserve_unblocked k' : k' ∈ used w → blocker w k' → sequenced k → sequenced k' → cursor_of k' = cursor_of k → False.
Proof.
  intros Hin Hb Hs Hs' Hc. destruct (cursor_generation _ _ Hc) as (Hc1 & Hc2 & Hg). destruct (io_blocking _ Hok _ Hb Hs') as (Hl & d & Hd & Hu); [rewrite Hg; apply Hres|].
  rewrite Hc in Hl. destruct (rv_order _ _ _ _ Hres Hs _ Hl Hs') as [_ Hn]. apply (Hn d); [|done]. rewrite <-Hc1, <-Hc2, <-Hg. rewrite key_eq; [done|]. by destruct (io_known _ Hok _ Hin) as (_ & ? & _); auto.
Qed.

Lemma reserve_last_other c : (sequenced k → c ≠ cursor_of k) → ij_last j' !! c = ij_last (iw_journal w) !! c.
Proof. intros Hc. rewrite (rv_last _ _ _ _ Hres), bool_decide_eq_false_2; [done|]. intros [Hs ->]. by apply Hc. Qed.

Lemma reserve_last_own : sequenced k → ij_last j' !! cursor_of k = Some (ik_InputSequence k).
Proof. intros Hs. by rewrite (rv_last _ _ _ _ Hres), bool_decide_eq_true_2. Qed.

Lemma reserve_window k' : in_window j' k' → in_window (iw_journal w) k'.
Proof.
  intros [Hg Hl]. split; [by rewrite <-(rv_current _ _ _ _ Hres)|]. intros Hs l Hlast. destruct (decide (sequenced k ∧ cursor_of k' = cursor_of k)) as [[Hsk Hc]|Hn].
  - specialize (Hl Hs (ik_InputSequence k)). rewrite Hc in Hl. specialize (Hl (reserve_last_own Hsk)). pose proof (io_last _ Hok _ _ Hlast) as Hpos. rewrite Hc in Hlast.
    destruct (rv_order _ _ _ _ Hres Hsk _ Hlast ltac:(lia)) as [Hnx _]. pose proof (next_sequence l _ Hpos Hnx Hsk). lia.
  - apply (Hl Hs l). rewrite reserve_last_other; [done|]. intros Hsk Hc. by apply Hn.
Qed.

Lemma reserve_kept k' d : in_window j' k' → ij_decisions (iw_journal w) !! k' = Some d → ij_decisions j' !! k' = Some d.
Proof.
  intros [_ Hl] Hd. apply (rv_other _ _ _ _ Hres _ _ Hd). intros Hc Hs. destruct (decide (ik_InputSequence k' = 0%Z)) as [|Hz]; [by right|left]. specialize (Hl Hz (ik_InputSequence k)). rewrite Hc in Hl. specialize (Hl (reserve_last_own Hs)). lia.
Qed.

Lemma reserve_known k' : k' ∈ used w → known j' k'.
Proof.
  intros Hin. destruct (io_known _ Hok _ Hin) as (Hr & Hi & Hg & Hk). unfold known. rewrite (rv_current _ _ _ _ Hres). split_and!; try done; try lia. intros Hgk. specialize (Hk Hgk).
  destruct (Z.eqb_spec (ik_InputSequence k') 0) as [Hz|Hz].
  - destruct Hk as [d Hd]. exists d. apply (rv_other _ _ _ _ Hres _ _ Hd). by right.
  - destruct Hk as (l & Hl & Hle). destruct (decide (sequenced k ∧ cursor_of k' = cursor_of k)) as [[Hsk Hc]|Hn].
    + rewrite Hc. exists (ik_InputSequence k). split; [by apply reserve_last_own|]. pose proof (reserve_beyond k' Hin Hsk Hz Hc). lia.
    + exists l. rewrite reserve_last_other; [done|]. intros Hsk Hc. by apply Hn.
Qed.

Lemma reserve_own_known : known j' k.
Proof.
  unfold known. rewrite (rv_current _ _ _ _ Hres), (rv_generation _ _ _ _ Hres). split_and!; try done; try lia. intros _. destruct (Z.eqb_spec (ik_InputSequence k) 0) as [Hz|Hz]; [rewrite (rv_own _ _ _ _ Hres); by eexists|].
  exists (ik_InputSequence k). split; [by apply reserve_last_own|done].
Qed.

Lemma reserve_blocking k' : k' ∈ used w → blocker w k' → blocking j' k'.
Proof.
  intros Hin Hb Hs. rewrite (rv_current _ _ _ _ Hres). intros Hg. destruct (io_blocking _ Hok _ Hb Hs Hg) as (Hl & d & Hd & Hu). assert (Hne : sequenced k → cursor_of k' ≠ cursor_of k) by (intros Hsk Hc; by eapply reserve_unblocked).
  split; [by rewrite reserve_last_other|]. exists d. split; [|done]. apply (rv_other _ _ _ _ Hres _ _ Hd). intros Hc Hsk. by destruct (Hne Hsk).
Qed.
End reserve.

Lemma blocker_used w k : input_ok w → blocker w k → k ∈ used w.
Proof.
  intros Hok [Hp|(e & He & <- & _)]; unfold used; rewrite !elem_of_app.
  - unfold progress in Hp. apply elem_of_app in Hp as [?|Hp]; [by right; right|]. right. left. unfold keys in *. rewrite (io_split _ Hok), map_app. apply elem_of_app. by left.
  - right. left. unfold keys. by apply list_elem_of_fmap_2.
Qed.

Lemma terminal_used w e : e ∈ iw_terminal w → wr_key e ∈ used w.
Proof. intros He. unfold used. rewrite !elem_of_app. right. left. unfold keys. by apply list_elem_of_fmap_2. Qed.

Lemma input_reserve_ok w key data j' k h : input_ok w → (0 ≤ ik_InputSequence key ≤ UInt64.max_value)%Z → Write_reserve (iw_journal w) key data true = (j', Reserve k h) →
  input_ok (mkIWorld j' ((k, data) :: iw_flight w) (iw_answered w) (iw_recorded w) (iw_terminal w) (iw_before w)).
Proof.
  intros Hok Hrange (Hr & Hid & -> & Hres)%Write_reserve_spec; [|done]. pose proof (reserve_fresh w j' k data Hok Hres) as Hnew.
  assert (Hused : ∀ w', w' = mkIWorld j' ((k, data) :: iw_flight w) (iw_answered w) (iw_recorded w) (iw_terminal w) (iw_before w) → used w' ≡ₚ k :: used w).
  { intros w' ->. unfold used. simpl. rewrite !app_assoc. symmetry. apply Permutation_middle. }
  specialize (Hused _ eq_refl). pose proof Hok as [Hsp Hu Hkn Hla Hpr Hbl Hfl Han Hre Haf Hor].
  assert (Hprog : ∀ k', k' ∈ progress w → k' ∈ used w ∧ blocker w k') by (intros k' Hk'; assert (blocker w k') by (by left); split; [by apply blocker_used|done]).
  split; simpl.
  - done.
  - rewrite Hused. by constructor.
  - intros k'. rewrite Hused, elem_of_cons. intros [->|Hin]; [by eapply reserve_own_known|by eapply reserve_known].
  - intros c l. rewrite (rv_last _ _ _ _ Hres). case_bool_decide as Hc; [|apply Hla]. intros [= <-]. destruct Hc as [Hs _]. unfold sequenced in Hs. lia.
  - unfold progress. simpl. intros k1 k2. rewrite !elem_of_cons. change (map fst (iw_flight w) ++ keys (iw_answered w)) with (progress w). intros [->|H1] [->|H2] Hs1 Hs2 Hc; [done| | |by apply Hpr].
    + destruct (Hprog _ H2). exfalso. by eapply (reserve_unblocked w j' k data Hok Hres k2).
    + destruct (Hprog _ H1). exfalso. by eapply (reserve_unblocked w j' k data Hok Hres k1).
  - intros k' Hb. assert (k' = k ∨ blocker w k') as [->|Hb'].
    { destruct Hb as [Hp|?]; [|right; by right]. unfold progress in Hp. simpl in Hp. apply elem_of_cons in Hp as [->|?]; [by left|right; by left]. }
    + intros Hs _. split; [by eapply reserve_last_own|]. exists (mkDecision InputUncertain (ik_InputSequence k) 0 "" (Sum256 data)). split; [apply Hres|done].
    + eapply reserve_blocking; [done|done|by apply blocker_used|done].
  - intros k' data'. rewrite elem_of_cons. intros [[= -> ->]|Hin] Hw; [eexists; split; [apply Hres|done]|]. destruct (Hfl _ _ Hin) as (d & Hd & Hh); [by eapply reserve_window|]. exists d. split; [by eapply reserve_kept|done].
  - intros e He Hw. destruct (Han _ He) as (d & Hd & Hh); [by eapply reserve_window|]. exists d. split; [by eapply reserve_kept|done].
  - intros e He Hw. eapply reserve_kept; [done|done|]. apply Hre; [done|by eapply reserve_window].
  - intros e k' He. rewrite elem_of_cons. intros [->|Hin]; [|by apply Haf]. intros Hs Hse Hc. pose proof (terminal_used w e He) as Hue. split; [by eapply reserve_beyond|]. intros Hun. eapply (reserve_unblocked w j' k data Hok Hres (wr_key e)); try done. right. by exists e.
  - done.
Qed.

(** ** The other steps *)

Lemma input_write_ok w k data rest n err : input_ok w → iw_flight w ≡ₚ (k, data) :: rest →
  input_ok (mkIWorld (iw_journal w) rest (mkWritten k data n err :: iw_answered w) (iw_recorded w) (iw_terminal w ++ [mkWritten k data n err]) (iw_before w)).
Proof.
  intros [Hsp Hu Hkn Hla Hpr Hbl Hfl Han Hre Haf Hor] Hf. set (e := mkWritten k data n err). set (w' := mkIWorld _ _ _ _ _ _).
  assert (Hfk : map fst (iw_flight w) ≡ₚ k :: map fst rest) by (by rewrite Hf).
  assert (Hused : used w' ≡ₚ used w) by (unfold used, w'; simpl; unfold keys; rewrite map_app, Hfk; simpl; by rewrite <-!app_assoc).
  assert (Hprog : progress w' ≡ₚ progress w) by (unfold progress, w'; simpl; rewrite Hfk; simpl; symmetry; apply Permutation_middle).
  assert (Hk : k ∈ map fst (iw_flight w)) by (rewrite Hfk; left).
  assert (Hkd : (k, data) ∈ iw_flight w) by (rewrite Hf; left).
  split; simpl.
  - rewrite Hsp. symmetry. apply Permutation_cons_append.
  - by rewrite Hused.
  - intros k'. rewrite Hused. apply Hkn.
  - done.
  - intros k1 k2. rewrite !Hprog. apply Hpr.
  - intros k' Hb. apply Hbl. destruct Hb as [Hp|(e' & He' & <- & Hun)]; [left; by rewrite <-Hprog|]. simpl in He'. apply elem_of_app in He' as [He'|He']; [right; by exists e'|]. apply list_elem_of_singleton in He' as ->. left. unfold progress. apply elem_of_app. by left.
  - intros k' data' Hin. apply Hfl. rewrite Hf. by right.
  - intros e'. rewrite elem_of_cons. intros [->|He']; [by apply Hfl|by apply Han].
  - done.
  - intros e' k'. rewrite elem_of_app, list_elem_of_singleton. intros [He'| ->] Hk'; [apply Haf; [done|rewrite Hfk; by right]|]. intros Hs Hse Hc.
    assert (k = k') as <-; [|exfalso].
    { apply Hpr; try done; unfold progress; apply elem_of_app; left; [done|rewrite Hfk; by right]. }
    unfold used in Hu. rewrite Hfk in Hu. rewrite !app_assoc in Hu. apply NoDup_app in Hu as (_ & _ & Hnd). apply NoDup_cons in Hnd as [Hn _]. done.
  - intros i i' e1 e2 H1 H2 Hlt. destruct (decide (i' < length (iw_terminal w))%nat) as [Hi|Hi].
    + rewrite lookup_app_l in H1, H2 by lia. by eapply Hor.
    + rewrite lookup_app_r in H2 by lia. apply list_lookup_singleton_Some in H2 as [Hi0 <-]. rewrite lookup_app_l in H1 by lia. apply Haf; [by eapply list_elem_of_lookup_2|done].
Qed.

Lemma recorded_spec j k h d j' d' : Write_record j k h d = (j', d') →
  ij_current j' = ij_current j ∧ ij_last j' = ij_last j ∧ (∀ k', k' ≠ k → ij_decisions j' !! k' = ij_decisions j !! k') ∧
  (∀ x, ij_decisions j !! k = Some x → ij_decisions j' !! k = if String.eqb (id_hash x) h then Some d else Some x) ∧ (ij_decisions j !! k = None → ij_decisions j' !! k = None).
Proof.
  unfold Write_record. intros [= <- <-]. destruct (ij_decisions j !! k) as [x|] eqn:Hx; [|done]. destruct (String.eqb (id_hash x) h) eqn:Hh; simpl; split_and!; try done.
  - intros k' Hk'. by rewrite lookup_insert_ne.
  - intros y [= <-]. rewrite Hh. apply lookup_insert_eq.
  - intros y [= <-]. by rewrite Hh.
Qed.

Lemma input_record_ok w e rest j' d : input_ok w → iw_answered w ≡ₚ e :: rest → Write_record (iw_journal w) (wr_key e) (Sum256 (wr_data e)) (outcome e) = (j', d) →
  input_ok (mkIWorld j' (iw_flight w) rest (e :: iw_recorded w) (iw_terminal w) (iw_before w)).
Proof.
  intros [Hsp Hu Hkn Hla Hpr Hbl Hfl Han Hre Haf Hor] Ha (Hcur & Hlast & Hoth & Hown & Hnone)%recorded_spec. set (w' := mkIWorld _ _ _ _ _ _).
  assert (Hea : e ∈ iw_answered w) by (rewrite Ha; left).
  assert (Hterm : keys (iw_terminal w) ≡ₚ wr_key e :: keys rest ++ keys (iw_recorded w)) by (unfold keys; rewrite Hsp, Ha; simpl; by rewrite map_app).
  assert (Hnd : NoDup ((wr_key e :: keys rest ++ keys (iw_recorded w)) ++ map fst (iw_flight w))) by (unfold used in Hu; apply NoDup_app in Hu as (_ & _ & Hu); by rewrite <-Hterm).
  simpl in Hnd. apply NoDup_cons in Hnd as [Hne _]. rewrite !elem_of_app in Hne.
  assert (Hwin : ∀ k, in_window j' k ↔ in_window (iw_journal w) k) by (intros k; unfold in_window; by rewrite Hcur, Hlast).
  assert (Hsub : ∀ k, is_Some (ij_decisions (iw_journal w) !! k) → is_Some (ij_decisions j' !! k)).
  { intros k [x Hx]. destruct (decide (k = wr_key e)) as [->|Hk]; [rewrite (Hown _ Hx); by case_match|rewrite Hoth by done; by eexists]. }
  split; simpl.
  - rewrite Hsp, Ha. simpl. apply Permutation_middle.
  - done.
  - intros k Hk. destruct (Hkn _ Hk) as (H1 & H2 & H3 & H4). unfold known. rewrite Hcur, Hlast. split_and!; try done; try lia. intros Hg. specialize (H4 Hg). destruct (_ =? _)%Z; [by apply Hsub|done].
  - by rewrite Hlast.
  - assert (Hin : ∀ k, k ∈ progress w' → k ∈ progress w) by (intros k; unfold progress, w', keys; simpl; rewrite Ha; simpl; rewrite !elem_of_app, elem_of_cons; tauto). intros k1 k2 H1%Hin H2%Hin. by apply Hpr.
  - intros k Hb Hs. rewrite Hcur, Hlast. intros Hg.
    assert (Hb' : blocker w k).
    { destruct Hb as [Hp|?]; [left|by right]. unfold progress, w', keys in *. simpl in Hp. rewrite Ha. simpl. rewrite !elem_of_app, elem_of_cons in *. tauto. }
    destruct (Hbl _ Hb' Hs Hg) as (Hl & x & Hx & Hun). split; [done|]. destruct (decide (k = wr_key e)) as [->|Hk]; [|exists x; by rewrite Hoth by done].
    rewrite (Hown _ Hx). case_match eqn:Hh; [|by exists x]. exists (outcome e). split; [done|]. destruct Hb as [Hp|(e' & He' & Hke & Hun')].
    + exfalso. apply Hne. unfold progress, w' in Hp. simpl in Hp. apply elem_of_app in Hp. tauto.
    + assert (e' = e) as ->; [|done]. change (e' ∈ iw_terminal w) in He'. rewrite Hsp, Ha in He'. simpl in He'. apply elem_of_cons in He' as [->|He']; [done|]. exfalso. apply Hne. left. rewrite <-Hke. unfold keys. rewrite <-elem_of_app, <-map_app. by apply list_elem_of_fmap_2.
  - intros k data Hin Hw%Hwin. destruct (Hfl _ _ Hin Hw) as (x & Hx & Hh). exists x. rewrite Hoth; [done|]. intros ->. apply Hne. right. apply list_elem_of_fmap. by exists (wr_key e, data).
  - intros e' He' Hw%Hwin. destruct (Han e') as (x & Hx & Hh); [rewrite Ha; by right|done|]. exists x. rewrite Hoth; [done|]. intros Heq. apply Hne. left. left. rewrite <-Heq. unfold keys. by apply list_elem_of_fmap_2.
  - intros e'. rewrite elem_of_cons. intros [->|He'] Hw%Hwin.
    + destruct (Han _ Hea Hw) as (x & Hx & Hh). rewrite (Hown _ Hx), Hh, String.eqb_refl. done.
    + rewrite Hoth; [by apply Hre|]. intros Heq. apply Hne. left. right. rewrite <-Heq. unfold keys. by apply list_elem_of_fmap_2.
  - done.
  - done.
Qed.

Lemma input_generation_ok w g : input_ok w → (ij_current (iw_journal w) < g)%Z →
  input_ok (mkIWorld (SetGeneration (iw_journal w) g) (iw_flight w) (iw_answered w) (iw_recorded w) (iw_terminal w) (iw_before w)).
Proof.
  intros Hok Hg. pose proof Hok as [Hsp Hu Hkn Hla Hpr Hbl Hfl Han Hre Haf Hor].
  assert (Hold : ∀ k, k ∈ used w → ik_Generation k ≠ g) by (intros k (_ & _ & ? & _)%Hkn; lia).
  assert (Hprog : ∀ k, k ∈ progress w → k ∈ used w) by (intros k Hk; apply blocker_used; [done|by left]).
  split; simpl; try done.
  - intros k Hk. destruct (Hkn _ Hk) as (? & ? & ? & _). unfold known. simpl. split_and!; try done; try lia.
  - intros c l Hl. apply map_lookup_filter_Some in Hl as [Hl _]. by eapply Hla.
  - intros k Hb _ Heq. by destruct (Hold k (blocker_used w k Hok Hb)).
  - intros k data Hin [Heq _]. destruct (Hold k); [|done]. apply Hprog. unfold progress. apply elem_of_app. left. apply list_elem_of_fmap. by exists (k, data).
  - intros e He [Heq _]. destruct (Hold (wr_key e)); [|done]. apply Hprog. unfold progress, keys. apply elem_of_app. right. by apply list_elem_of_fmap_2.
  - intros e He [Heq _]. destruct (Hold (wr_key e)); [|done]. apply terminal_used. rewrite Hsp. apply elem_of_app. by right.
Qed.

Lemma input_step_ok w w' : input_ok w → input_step w w' → input_ok w'.
Proof. intros Hok []; eauto using input_reserve_ok, input_write_ok, input_record_ok, input_generation_ok. Qed.

(** ** Recovery, and what the clients rely on *)

Lemma Restore_spec j key hash status n err j' : Restore j key hash status n err = (j', None) → let k := (normalizeInputKey key).1 in
  ij_decisions j !! k = None ∧ ij_current j' = ij_current j ∧ ij_decisions j' = <[k := mkDecision status (ik_InputSequence k) n err hash]> (ij_decisions j) ∧
  ij_last j' = if negb (ik_InputSequence k =? 0)%Z && (default 0 (ij_last j !! cursor_of k) <? ik_InputSequence k)%Z then <[cursor_of k := ik_InputSequence k]> (ij_last j) else ij_last j.
Proof.
  unfold Restore. simpl. match goal with |- (if ?b then _ else _) = _ → _ => destruct b end; [done|]. case_match; [done|]. destruct (ij_decisions j !! _); [done|]. destruct (_ <=? _)%Z; [done|]. by intros [= <-].
Qed.

Lemma Restore_refused j key hash status n err j' e : Restore j key hash status n err = (j', Some e) → j' = j.
Proof. unfold Restore. simpl. repeat case_match; intros [=]; congruence. Qed.

Definition restored_ok (generation : Z) (p : InputJournal * list InputKey) : Prop :=
  ij_current p.1 = generation ∧ NoDup p.2 ∧ (∀ k, k ∈ p.2 → known p.1 k ∧ is_Some (ij_decisions p.1 !! k)) ∧ ∀ c l, ij_last p.1 !! c = Some l → (0 < l ≤ UInt64.max_value)%Z.

Lemma restore_one_ok generation p s : stored_ok generation s → restored_ok generation p → restored_ok generation (restore_one p s).
Proof.
  intros [Hr Hg] (Hcur & Hnd & Hk & Hl). unfold restore_one. destruct p as [j before]. simpl in *. destruct (Restore j _ _ _ _ _) as [j' [e|]] eqn:He; simpl.
  { by rewrite (Restore_refused _ _ _ _ _ _ _ _ He). }
  destruct (Restore_spec _ _ _ _ _ _ _ He) as (Hnew & Hc' & Hd' & Hl'). destruct (normal_key (si_key s)) as [Hseq Hid].
  pose proof (normal_generation (si_key s)) as Hgen. set (k := (normalizeInputKey (si_key s)).1) in *. clearbody k.
  assert (Hlast : ∀ c, ij_last j !! c = ij_last j' !! c ∨ (c = cursor_of k ∧ ij_last j' !! c = Some (ik_InputSequence k) ∧ ik_InputSequence k ≠ 0%Z ∧ (default 0 (ij_last j !! c) < ik_InputSequence k)%Z)).
  { intros c. rewrite Hl'. destruct (Z.eqb_spec (ik_InputSequence k) 0); simpl; [by left|]. destruct (Z.ltb_spec (default 0%Z (ij_last j !! cursor_of k)) (ik_InputSequence k)); [|by left].
    destruct (decide (c = cursor_of k)) as [->|]; [right; by rewrite lookup_insert_eq|left; by rewrite lookup_insert_ne]. }
  assert (Hown : ik_InputSequence k ≠ 0%Z → ∃ l, ij_last j' !! cursor_of k = Some l ∧ (ik_InputSequence k ≤ l)%Z).
  { intros Hz. rewrite Hl'. destruct (Z.eqb_spec (ik_InputSequence k) 0); [done|]. simpl. destruct (Z.ltb_spec (default 0%Z (ij_last j !! cursor_of k)) (ik_InputSequence k)); [rewrite lookup_insert_eq; by eexists|].
    destruct (ij_last j !! cursor_of k) as [l|]; simpl in *; [by exists l|]. exists 0%Z. lia. }
  unfold restored_ok. simpl. rewrite Hc'. split_and!; try done.
  - constructor; [|done]. intros Hin. destruct (Hk _ Hin) as [_ Hs]. rewrite Hnew in Hs. by destruct Hs.
  - intros k'. rewrite elem_of_cons. intros [->|Hin].
    + split; [|rewrite Hd', lookup_insert_eq; by eexists]. unfold known. rewrite Hc'. split_and!; try done; try lia. intros _. destruct (Z.eqb_spec (ik_InputSequence k) 0); [rewrite Hd', lookup_insert_eq; by eexists|by apply Hown].
    + destruct (Hk _ Hin) as [(H1 & H2 & H3 & H4) Hs]. assert (Hs' : is_Some (ij_decisions j' !! k')) by (rewrite Hd', lookup_insert_is_Some'; by right). split; [|done]. unfold known. rewrite Hc'. split_and!; try done; try lia.
      intros Hg'. specialize (H4 Hg'). destruct (ik_InputSequence k' =? 0)%Z; [done|]. destruct H4 as (l & Hll & Hle). destruct (Hlast (cursor_of k')) as [<-|(_ & -> & _ & Hlt)]; [by exists l|]. rewrite Hll in Hlt. simpl in Hlt. eexists. split; [done|lia].
  - intros c l Hc. destruct (Hlast c) as [Heq|(_ & Heq & Hz & _)]; rewrite Hc in Heq; [by eapply Hl|]. injection Heq as ->. lia.
Qed.

Lemma input_start_ok generation max stored : Forall (stored_ok generation) stored → input_ok (input_start generation max stored).
Proof.
  intros Hst. unfold input_start. assert (Hr : restored_ok generation (foldl restore_one (NewBoundedInputJournal generation max, []) stored)).
  { assert (H0 : restored_ok generation (NewBoundedInputJournal generation max, [])).
    { split_and!; simpl; [done|constructor|intros k Hk; by apply elem_of_nil in Hk|]. intros c l Hc. by rewrite lookup_empty in Hc. }
    revert H0. generalize (NewBoundedInputJournal generation max, @nil InputKey). induction Hst as [|s stored Hs _ IH]; intros p Hp; simpl; [done|]. apply IH. by apply restore_one_ok. }
  destruct (foldl restore_one _ _) as [j before]. destruct Hr as (Hcur & Hnd & Hk & Hl). simpl in *.
  split; simpl; try done; try (by intros ? Hin; apply elem_of_nil in Hin); try (by intros ? ? Hin; apply elem_of_nil in Hin).
  - unfold used. simpl. by rewrite app_nil_r.
  - intros k. unfold used. simpl. rewrite app_nil_r. intros Hin. by apply Hk.
  - intros k [Hp|(e & He & _)]; [by apply elem_of_nil in Hp|by apply elem_of_nil in He].
Qed.

Lemma input_reach_ok generation max stored w : Forall (stored_ok generation) stored → rtc input_step (input_start generation max stored) w → input_ok w.
Proof.
  intros Hst Hr. generalize (input_start_ok generation max stored Hst). clear Hst. induction Hr as [|x y z Hs _ IH]; [done|]. intros Hx. apply IH. by eapply input_step_ok.
Qed.

(** C32: no input is given to the terminal twice: an identity that was written, or restored from the store, is not written again, whatever is retried, in whatever order, across changes of the generation.  Of the input that has a
    sequence number, that of one client, attachment and generation is written in the order of its numbers, and once the terminal took only a part of a write and no interrupt stopped it, nothing of that cursor follows.  A write that an
    interrupt stopped is final, and later input follows it (input_after_interrupt).  Input without a number, which goes by an ID, has no order. *)
Theorem input_once_in_order generation max stored w : Forall (stored_ok generation) stored → rtc input_step (input_start generation max stored) w →
  NoDup (iw_before w ++ keys (iw_terminal w)) ∧
  ∀ i i' e e', iw_terminal w !! i = Some e → iw_terminal w !! i' = Some e' → (i < i')%nat → cursor_of (wr_key e) = cursor_of (wr_key e') → sequenced (wr_key e) → sequenced (wr_key e') →
    (ik_InputSequence (wr_key e) < ik_InputSequence (wr_key e'))%Z ∧ (wr_err e = Interrupted ∨ wr_n e = len (wr_data e) ∨ wr_n e = 0%Z).
Proof.
  intros Hst Hr. pose proof (input_reach_ok _ _ _ _ Hst Hr) as [_ Hu _ _ _ _ _ _ _ _ Hor]. split.
  - unfold used in Hu. rewrite app_assoc in Hu. by apply NoDup_app in Hu as [? _].
  - intros i i' e e' H1 H2 Hlt Hc Hs Hs'. destruct (Hor _ _ _ _ H1 H2 Hlt Hs' Hs Hc) as [? Hun]. split; [done|]. unfold outcome, decide_write in Hun.
    destruct (Z.eqb_spec (wr_n e) (len (wr_data e))); [by auto|]. destruct (Z.eqb_spec (wr_n e) 0); [by auto|]. destruct (wr_err e); [done|by auto|]. simpl in Hun. by destruct (_ && _).
Qed.

(** A retry of recorded input, with the same data, is answered from the journal with the recorded outcome and writes nothing; with other data it is refused. *)
Theorem input_retry_answered generation max stored w e data : Forall (stored_ok generation) stored → rtc input_step (input_start generation max stored) w → e ∈ iw_recorded w → in_window (iw_journal w) (wr_key e) →
  sequenced (wr_key e) → ik_ClientID (wr_key e) ≠ "" → ik_AttachmentID (wr_key e) ≠ "" → ik_Generation (wr_key e) ≠ 0%Z →
  Query (iw_journal w) (wr_key e) = inr (publicDecision (outcome e)) ∧
  Write_reserve (iw_journal w) (wr_key e) data true = (iw_journal w, Answer (if String.eqb (Sum256 (wr_data e)) (Sum256 data) then inr (publicDecision (outcome e)) else inl ErrInputConflict)).
Proof.
  intros Hst Hr He Hw Hs Hc Ha Hg. pose proof (input_reach_ok _ _ _ _ Hst Hr) as Hok. pose proof (io_recorded _ Hok _ He Hw) as Hd.
  assert (Hid : ik_InputID (wr_key e) = ""). { destruct (io_known _ Hok (wr_key e)) as (_ & Hid & _); [apply terminal_used; rewrite (io_split _ Hok); apply elem_of_app; by right|by apply Hid]. }
  assert (Hn : normalizeInputKey (wr_key e) = (wr_key e, false)).
  { unfold normalizeInputKey. destruct (Z.eqb_spec (ik_InputSequence (wr_key e)) 0); [done|]. simpl. by rewrite <-Hid; destruct (wr_key e). }
  assert (Hh : id_hash (outcome e) = Sum256 (wr_data e)) by (unfold outcome, decide_write; by destruct (wr_err e)). split.
  - unfold Query. rewrite Hn. simpl. by rewrite Hd.
  - unfold Write_reserve. rewrite Hn. destruct (String.eqb_spec (ik_ClientID (wr_key e)) ""); [done|]. destruct (String.eqb_spec (ik_AttachmentID (wr_key e)) ""); [done|]. destruct (Z.eqb_spec (ik_Generation (wr_key e)) 0); [done|].
    destruct (Z.eqb_spec (ik_InputSequence (wr_key e)) 0); [done|]. simpl. rewrite Hd, Hh. by destruct (String.eqb _ _).
Qed.
End world.

(** ** Examples *)

#[local] Existing Instance eval_sha256.

(** One write from start to end. *)
Definition written_with (err : WriteErr) (w : IWorld) (key : InputKey) (data : string) (n : Z) : IWorld :=
  match Write_reserve (iw_journal w) key data true with
  | (j, Reserve k h) =>
      let e := mkWritten k data n err in
      mkIWorld (Write_record j k (Sum256 data) (outcome e)).1 (iw_flight w) (iw_answered w) (e :: iw_recorded w) (iw_terminal w ++ [e]) (iw_before w)
  | (_, Answer _) => w
  end.

Definition written := written_with NoError.

Lemma written_step err w key data n : (0 ≤ ik_InputSequence key ≤ UInt64.max_value)%Z → (0 ≤ n ≤ len data)%Z → rtc input_step w (written_with err w key data n).
Proof.
  intros Hr Hn. unfold written_with. destruct (Write_reserve _ _ _ _) as [j [a|k h]] eqn:Hw; [done|]. eapply rtc_l; [by eapply input_reserve|]. eapply rtc_l; [by apply (input_write _ k data (iw_flight w) n err)|]. apply rtc_once. simpl.
  eapply (input_record (mkIWorld j (iw_flight w) (mkWritten k data n err :: iw_answered w) (iw_recorded w) (iw_terminal w ++ [mkWritten k data n err]) (iw_before w))); [done|]. apply surjective_pairing.
Qed.

Definition demo_stored : StoredInput := mkStored (mkKey "client" "window" 2 4 "") "0123456789abcdef0123456789abcdef" InputAccepted 1 "".
Definition demo_input : IWorld := written (written (input_start 2 100 [demo_stored]) (mkKey "client" "window" 2 5 "") "ls" 2) (mkKey "client" "window" 2 6 "") "q" 1.

Lemma demo_stored_ok : Forall (stored_ok 2) [demo_stored].
Proof. rewrite Forall_cons, Forall_nil. split; [|done]. unfold stored_ok, UInt64.max_value. simpl. lia. Qed.

Lemma demo_input_reached : rtc input_step (input_start 2 100 [demo_stored]) demo_input.
Proof. unfold demo_input. etrans; apply written_step; unfold UInt64.max_value, len; simpl; lia. Qed.

Lemma input_once_in_order_witness : keys (iw_terminal demo_input) = [mkKey "client" "window" 2 5 ""; mkKey "client" "window" 2 6 ""] ∧ NoDup (iw_before demo_input ++ keys (iw_terminal demo_input)).
Proof.
  split; [vm_compute; reflexivity|]. exact (proj1 (input_once_in_order 2 100 [demo_stored] demo_input demo_stored_ok demo_input_reached)).
Defined.

(** An interrupt stops a paste of which the terminal took two bytes, and the next input is written. *)
Definition demo_paste : IWorld := written (written_with Interrupted (input_start 2 100 [demo_stored]) (mkKey "client" "window" 2 5 "") "paste" 2) (mkKey "client" "window" 2 6 "") "q" 1.

Lemma input_after_interrupt : rtc input_step (input_start 2 100 [demo_stored]) demo_paste ∧
  iw_terminal demo_paste = [mkWritten (mkKey "client" "window" 2 5 "") "paste" 2 Interrupted; mkWritten (mkKey "client" "window" 2 6 "") "q" 1 NoError].
Proof. split; [unfold demo_paste; etrans; apply written_step; unfold UInt64.max_value, len; simpl; lia|vm_compute; reflexivity]. Qed.

Definition demo_entry : Written := mkWritten (mkKey "client" "window" 2 5 "") "ls" 2 NoError.

Lemma input_retry_answered_witness : (Write_reserve (iw_journal demo_input) (wr_key demo_entry) "rm" true).2 = Answer (inl ErrInputConflict).
Proof.
  rewrite (proj2 (input_retry_answered 2 100 [demo_stored] demo_input demo_entry "rm" demo_stored_ok demo_input_reached ltac:(vm_compute; right; left)
    ltac:(split; [vm_compute; reflexivity|]; intros _ l; vm_compute; intros [= <-]; reflexivity) ltac:(discriminate) ltac:(discriminate) ltac:(discriminate) ltac:(discriminate))). vm_compute. reflexivity.
Defined.

(** ** A journal fills up with the windows that have gone *)

(** [n] keys typed in one window, one input each. *)
Fixpoint typed (j : InputJournal) (attachment : string) (n : nat) : InputJournal :=
  match n with
  | O => j
  | S n =>
      let j := typed j attachment n in
      match Write_reserve j (mkKey "client" attachment 1 (Z.of_nat (S n)) "") "a" true with
      | (j, Reserve k h) => (Write_record j k h (decide_write k h 1 1 NoError)).1
      | (j, Answer _) => j
      end
  end.

(** With a limit of 258 decisions: a window that wrote 257 inputs leaves 256 of them for good, another window can write two, and the first input of a third is refused; what a window left behind goes only with the
    generation. *)
Theorem gone_windows_fill_journal : let j := typed (typed (NewBoundedInputJournal 1 258) "one" 257) "two" 2 in
  size (ij_decisions j) = 258%nat ∧ (Write_reserve j (mkKey "client" "three" 1 1 "") "a" true).2 = Answer (inl ErrInputJournalFull).
Proof. vm_compute. split; reflexivity. Qed.
