(* ===== verification/Fanout.v ===== *)
(** * Sending a terminal's output to its viewers: src/cli/internal/hostruntime/session, fanout.go

    One ring of events serves all attachments; each has a cursor into the output and the number up to which output is queued for it.  The ring holds references to events (History), so the heap
    is passed along.  A call that holds the lock is one step; a wait is one turn of its loop, which ends with an event, an error, or waiting at the attachment's channel.  The channels hold one token at most: the channel of an
    attachment goes by its lease, which is never given twice.  The error text of PublishOwned is left out. *)
From S2P Require Import Prelude GoStd History.

Inductive AttachmentState := Attaching | Attached | Detached | Evicted.
#[export] Instance AttachmentState_eq_dec : EqDecision AttachmentState.
Proof. solve_decision. Defined.

Inductive FanoutError := ErrAttachmentExists | ErrAttachmentUnknown | ErrAttachmentEvicted | ErrAttachmentLagged | ErrOutputOrder | ErrInvalidQueueLimit | ErrResourceLimit | ErrInvalidTransition.

Record Eviction := mkEviction { vc_AttachmentID : string; vc_QueuedBytes : Z; vc_Reason : string }.

Record attachmentCursor := mkAC { ac_lease : Z; ac_state : AttachmentState; ac_receiveOutput : bool; ac_backpressure : bool; ac_owner : bool; ac_lagged : bool; ac_progressAt : Z; ac_maxBytes : Z; ac_queuedBytes : Z;
  ac_evictedBytes : Z; ac_cursor : Z; ac_enqueuedEnd : Z; ac_hasCursor : bool }.

Record Fanout := mkFanout { fo_lastLease : Z; fo_attachments : gmap string attachmentCursor; fo_ringEnd : Z; fo_minimum : Z; fo_haveMinimum : bool; fo_atMinimum : Z; fo_active : gset string; fo_ring : list Event;
  fo_room : bool; fo_tokens : gset Z }.

Definition NewFanout : Fanout := mkFanout 0 ∅ 0 0 false 0 ∅ [] false ∅.

(** ** Field updates *)

Definition set_attachments (f : Fanout) (a : gmap string attachmentCursor) : Fanout :=
  mkFanout (fo_lastLease f) a (fo_ringEnd f) (fo_minimum f) (fo_haveMinimum f) (fo_atMinimum f) (fo_active f) (fo_ring f) (fo_room f) (fo_tokens f).
Definition set_active (f : Fanout) (a : gset string) : Fanout :=
  mkFanout (fo_lastLease f) (fo_attachments f) (fo_ringEnd f) (fo_minimum f) (fo_haveMinimum f) (fo_atMinimum f) a (fo_ring f) (fo_room f) (fo_tokens f).
Definition set_ring (f : Fanout) (ring : list Event) (ringEnd : Z) : Fanout :=
  mkFanout (fo_lastLease f) (fo_attachments f) ringEnd (fo_minimum f) (fo_haveMinimum f) (fo_atMinimum f) (fo_active f) ring (fo_room f) (fo_tokens f).
Definition set_minimum (f : Fanout) (minimum : Z) (have : bool) (at_ : Z) : Fanout :=
  mkFanout (fo_lastLease f) (fo_attachments f) (fo_ringEnd f) minimum have at_ (fo_active f) (fo_ring f) (fo_room f) (fo_tokens f).
Definition set_room (f : Fanout) (b : bool) : Fanout :=
  mkFanout (fo_lastLease f) (fo_attachments f) (fo_ringEnd f) (fo_minimum f) (fo_haveMinimum f) (fo_atMinimum f) (fo_active f) (fo_ring f) b (fo_tokens f).
Definition put_cursor (f : Fanout) (id : string) (c : attachmentCursor) : Fanout := set_attachments f (<[id := c]> (fo_attachments f)).

(** notify of an attachment's channel. *)
Definition notify (f : Fanout) (lease : Z) : Fanout :=
  mkFanout (fo_lastLease f) (fo_attachments f) (fo_ringEnd f) (fo_minimum f) (fo_haveMinimum f) (fo_atMinimum f) (fo_active f) (fo_ring f) (fo_room f) ({[lease]} ∪ fo_tokens f).
Definition notify_room (f : Fanout) : Fanout := set_room f true.

(** cursor, enqueuedEnd, hasCursor and queuedBytes. *)
Definition queue (c : attachmentCursor) (cursor enqueuedEnd : Z) (has : bool) (queued : Z) : attachmentCursor :=
  mkAC (ac_lease c) (ac_state c) (ac_receiveOutput c) (ac_backpressure c) (ac_owner c) (ac_lagged c) (ac_progressAt c) (ac_maxBytes c) queued (ac_evictedBytes c) cursor enqueuedEnd has.
Definition with_lagged (c : attachmentCursor) (b : bool) : attachmentCursor :=
  mkAC (ac_lease c) (ac_state c) (ac_receiveOutput c) (ac_backpressure c) (ac_owner c) b (ac_progressAt c) (ac_maxBytes c) (ac_queuedBytes c) (ac_evictedBytes c) (ac_cursor c) (ac_enqueuedEnd c) (ac_hasCursor c).
Definition with_pace (c : attachmentCursor) (pace owner : bool) (progressAt : Z) : attachmentCursor :=
  mkAC (ac_lease c) (ac_state c) (ac_receiveOutput c) pace owner (ac_lagged c) progressAt (ac_maxBytes c) (ac_queuedBytes c) (ac_evictedBytes c) (ac_cursor c) (ac_enqueuedEnd c) (ac_hasCursor c).
Definition evict (c : attachmentCursor) : attachmentCursor :=
  mkAC (ac_lease c) Evicted (ac_receiveOutput c) (ac_backpressure c) (ac_owner c) (ac_lagged c) (ac_progressAt c) (ac_maxBytes c) 0 (ac_queuedBytes c) (ac_cursor c) (ac_enqueuedEnd c) (ac_hasCursor c).

Definition attached (c : attachmentCursor) : bool := bool_decide (ac_state c = Attached).

Section fanout.
Context `{GoRuntime}.

(** ** The ring *)

Definition validOutputEvent (e : Event) : bool :=
  (ev_StartSequence e <=? ev_EndSequence e)%Z && (UInt64.wrap (ev_EndSequence e - ev_StartSequence e) =? Z.of_nat (w_len (ev_Data e)))%Z && negb (w_len (ev_Data e) =? 0)%nat.

Definition eventAtLocked (ring : list Event) (sequence : Z) : option Event :=
  let index := sort.Search (length ring) (λ i, match ring !! i with Some e => (sequence <? ev_EndSequence e)%Z | None => false end) in
  match ring !! index with Some e => if (sequence <? ev_StartSequence e)%Z then None else Some e | None => None end.

(** bytes.Equal of the part of [a] that [b] covers with [b]'s data. *)
Definition same_bytes (m : Heap) (a b : Event) : bool :=
  bool_decide (take (Z.to_nat (ev_EndSequence b - ev_StartSequence b)) (drop (Z.to_nat (ev_StartSequence b - ev_StartSequence a)) (read m (ev_Data a))) = read m (ev_Data b)).

Definition covers (m : Heap) (a b : Event) : bool :=
  (ev_StartSequence a <=? ev_StartSequence b)%Z && (ev_EndSequence b <=? ev_EndSequence a)%Z && (ev_Channel a =? ev_Channel b)%Z && same_bytes m a b.

(** The loop over the ring: whether the event is there already, or the first that it replaces. *)
Fixpoint scan (m : Heap) (event : Event) (ring : list Event) : option (option nat) :=
  match ring with
  | [] => None
  | existing :: rest =>
      if covers m existing event then Some None
      else if covers m event existing then Some (Some 0%nat)
      else match scan m event rest with Some (Some i) => Some (Some (S i)) | r => r end
  end.

Definition ring_less (a b : Event) : bool :=
  if (ev_StartSequence a =? ev_StartSequence b)%Z then (ev_EndSequence b <? ev_EndSequence a)%Z else (ev_StartSequence a <? ev_StartSequence b)%Z.

(** insertEventLocked; each turn removes an event of the ring, so one more than its length is enough fuel. *)
Fixpoint insert_loop (fuel : nat) (m : Heap) (ring : list Event) (ringEnd : Z) (event : Event) : Heap * list Event * Z :=
  match fuel with
  | O => (m, ring, ringEnd)
  | S fuel =>
      if (ringEnd <=? ev_StartSequence event)%Z then (Retain m event, ring ++ [event], ev_EndSequence event)
      else match scan m event ring with
           | Some None => (m, ring, ringEnd)
           | Some (Some i) => insert_loop fuel (match ring !! i with Some existing => Release m existing | None => m end) (delete i ring) ringEnd event
           | None => (Retain m event, sort_by ring_less (ring ++ [event]), Z.max ringEnd (ev_EndSequence event))
           end
  end.

Definition insertEventLocked (m : Heap) (f : Fanout) (event : Event) : Heap * Fanout :=
  let '(m, ring, ringEnd) := insert_loop (S (length (fo_ring f))) m (fo_ring f) (fo_ringEnd f) event in (m, set_ring f ring ringEnd).

(** The minimum of the attached cursors, and how many are on it. *)
Definition minimum_step (acc : Z * bool * Z) (c : attachmentCursor) : Z * bool * Z :=
  let '(minimum, have, at_) := acc in
  if negb (attached c) || negb (ac_hasCursor c) then acc
  else if negb have || (ac_cursor c <? minimum)%Z then (ac_cursor c, true, 1%Z)
  else if (ac_cursor c =? minimum)%Z then (minimum, have, (at_ + 1)%Z) else acc.

(** The events at the front that all have read. *)
Fixpoint drop_read (m : Heap) (ring : list Event) (minimum : Z) : Heap * list Event :=
  match ring with e :: rest => if (ev_EndSequence e <=? minimum)%Z then drop_read (Release m e) rest minimum else (m, ring) | [] => (m, ring) end.

Definition compactLocked (m : Heap) (f : Fanout) : Heap * Fanout :=
  let '(minimum, have, at_) := foldl (λ acc p, minimum_step acc p.2) (0%Z, false, 0%Z) (range 59 (fo_attachments f)) in
  let f := set_minimum f minimum have at_ in
  if negb have then (foldl Release m (fo_ring f), set_ring f [] 0)
  else let '(m, ring) := drop_read m (fo_ring f) minimum in
       (m, set_ring f ring (if (length ring =? 0)%nat && negb (length (fo_ring f) =? 0)%nat then 0%Z else fo_ringEnd f)).

Definition compactAfterAdvanceLocked (m : Heap) (f : Fanout) (previous : Z) : Heap * Fanout :=
  if negb (fo_haveMinimum f) || negb (previous =? fo_minimum f)%Z then (m, f)
  else
    let f := set_minimum f (fo_minimum f) (fo_haveMinimum f) (fo_atMinimum f - 1) in
    if (0 <? fo_atMinimum f)%Z then (m, f) else compactLocked m f.

(** ** Attachments *)

Definition attach (f : Fanout) (id : string) (maxPendingBytes : Z) (receiveOutput backpressure : bool) (now : Z) : Fanout * option FanoutError :=
  if String.eqb id "" || (maxPendingBytes =? 0)%Z then (f, Some ErrInvalidQueueLimit)
  else if match fo_attachments f !! id with Some c => attached c | None => false end then (f, Some ErrAttachmentExists)
  else if (fo_lastLease f =? UInt64.max_value)%Z then (f, Some ErrResourceLimit)
  else
    let lease := (fo_lastLease f + 1)%Z in
    (mkFanout lease (<[id := mkAC lease Attached receiveOutput backpressure false false now maxPendingBytes 0 0 0 0 false]> (fo_attachments f)) (fo_ringEnd f) (fo_minimum f) (fo_haveMinimum f) (fo_atMinimum f)
       ({[id]} ∪ fo_active f) (fo_ring f) (fo_room f) (fo_tokens f), None).

Definition Attach (f : Fanout) (id : string) (maxPendingBytes now : Z) : Fanout * option FanoutError := attach f id maxPendingBytes true false now.

(** The second lock of AttachBackpressured. *)
Definition set_owner (f : Fanout) (id : string) : Fanout :=
  match fo_attachments f !! id with Some c => put_cursor f id (with_pace c (ac_backpressure c) true (ac_progressAt c)) | None => f end.

Definition AttachControl (f : Fanout) (id : string) (maxPendingBytes now : Z) : Fanout * option FanoutError := attach f id maxPendingBytes false false now.

Definition SetController (f : Fanout) (id : string) (now : Z) : Fanout :=
  let target := fo_attachments f !! id in
  if match target with Some c => ac_backpressure c | None => false end then f
  else
    let f := set_attachments f ((λ c, with_pace c false (ac_owner c) (ac_progressAt c)) <$> fo_attachments f) in
    let f := match target with Some c => if attached c && ac_owner c then put_cursor f id (with_pace c true true now) else f | None => f end in
    notify_room f.

(** One turn of WaitRoom: whether an attachment that paces has no room. *)
Definition room_full (f : Fanout) (size stall now : Z) : bool :=
  existsb (λ p, attached p.2 && ac_backpressure p.2 && (UInt64.wrap (ac_maxBytes p.2 - ac_queuedBytes p.2) <? size)%Z && (now - ac_progressAt p.2 <? stall)%Z) (range 60 (fo_attachments f)).

Definition Detach (m : Heap) (f : Fanout) (id : string) : Heap * Fanout * option FanoutError :=
  match fo_attachments f !! id with
  | None => (m, f, Some ErrAttachmentUnknown)
  | Some c =>
      if negb (bool_decide (ac_state c = Attached)) && negb (bool_decide (ac_state c = Evicted)) then (m, f, Some ErrInvalidTransition)
      else
        let f := notify (set_active f (fo_active f ∖ {[id]})) (ac_lease c) in
        let '(m, f) := compactLocked m (set_attachments f (delete id (fo_attachments f))) in (m, f, None)
  end.

Definition Count (f : Fanout) : nat := length (List.filter (λ p : string * attachmentCursor, attached p.2) (range 61 (fo_attachments f))).
Definition IsAttached (f : Fanout) (id : string) : bool := bool_decide (id ∈ fo_active f).
Definition attachmentLease (f : Fanout) (id : string) : Z := match fo_attachments f !! id with Some c => ac_lease c | None => 0 end.

Definition SkipTo (m : Heap) (f : Fanout) (id : string) (nextSequence : Z) : Heap * Fanout * option FanoutError :=
  match fo_attachments f !! id with
  | None => (m, f, Some ErrAttachmentUnknown)
  | Some c =>
      if negb (attached c) then (m, f, Some ErrAttachmentUnknown)
      else if negb (ac_receiveOutput c) then
        let '(m, f) := compactLocked m (put_cursor f id (queue c nextSequence nextSequence true 0)) in (m, f, None)
      else if ac_hasCursor c && ((nextSequence <? ac_cursor c)%Z || (ac_enqueuedEnd c <? nextSequence)%Z) then (m, f, Some ErrOutputOrder)
      else
        let enqueuedEnd := if ac_hasCursor c then ac_enqueuedEnd c else nextSequence in
        let f := put_cursor f id (queue c nextSequence enqueuedEnd true (UInt64.wrap (enqueuedEnd - nextSequence))) in
        let '(m, f) := if ac_hasCursor c then compactAfterAdvanceLocked m f (ac_cursor c) else compactLocked m f in (m, f, None)
  end.

(** ** Publishing *)

(** What an event does to one attachment. *)
Definition publish_one (event : Event) (c : attachmentCursor) : attachmentCursor :=
  let size := Z.of_nat (w_len (ev_Data event)) in
  if (UInt64.wrap (ac_maxBytes c - ac_queuedBytes c) <? size)%Z then
    if negb (ac_backpressure c) then with_lagged (queue c (ev_EndSequence event) (ev_EndSequence event) true 0) true else evict c
  else queue c (if ac_hasCursor c then ac_cursor c else ev_StartSequence event) (ev_EndSequence event) true (UInt64.wrap (ac_queuedBytes c + size)).

Definition publish_step (event : Event) (acc : Fanout * list Eviction) (p : string * attachmentCursor) : Fanout * list Eviction :=
  let '(f, evictions) := acc in
  let '(id, c) := p in
  if negb (attached c) || negb (ac_receiveOutput c) then acc
  else
    let c' := publish_one event c in
    let f := notify (put_cursor f id c') (ac_lease c) in
    if attached c' then (f, evictions) else (set_active f (fo_active f ∖ {[id]}), evictions ++ [mkEviction id (ac_queuedBytes c) "slow_consumer"]).

Definition out_of_step (event : Event) (c : attachmentCursor) : bool := attached c && ac_receiveOutput c && ac_hasCursor c && negb (ac_enqueuedEnd c =? ev_StartSequence event)%Z.

Definition PublishOwned (m : Heap) (f : Fanout) (event : Event) : Heap * Fanout * (FanoutError + list Eviction) :=
  if negb (validOutputEvent event) then (m, f, inl ErrOutputOrder)
  else if existsb (λ p, out_of_step event p.2) (range 62 (fo_attachments f)) then (m, f, inl ErrOutputOrder)
  else
    let '(m, f) := insertEventLocked m f event in
    let '(f, evictions) := foldl (publish_step event) (f, []) (range 63 (fo_attachments f)) in
    let '(m, f) := compactLocked m f in (m, f, inr evictions).

Definition EnqueueOwned (m : Heap) (f : Fanout) (id : string) (event : Event) : Heap * Fanout * (FanoutError + option Eviction) :=
  if negb (validOutputEvent event) then (m, f, inl ErrOutputOrder)
  else match fo_attachments f !! id with
  | None => (m, f, inl ErrAttachmentUnknown)
  | Some c =>
      if bool_decide (ac_state c = Evicted) then (m, f, inl ErrAttachmentEvicted)
      else if negb (attached c) then (m, f, inl ErrInvalidTransition)
      else if ac_hasCursor c && negb (ac_enqueuedEnd c =? ev_StartSequence event)%Z then (m, f, inl ErrOutputOrder)
      else
        let size := Z.of_nat (w_len (ev_Data event)) in
        if (UInt64.wrap (ac_maxBytes c - ac_queuedBytes c) <? size)%Z then
          let f := notify (set_active (put_cursor f id (evict c)) (fo_active f ∖ {[id]})) (ac_lease c) in
          let '(m, f) := compactLocked m f in (m, f, inr (Some (mkEviction id (ac_queuedBytes c) "slow_consumer")))
        else
          let '(m, f) := insertEventLocked m f event in
          let c' := queue c (if ac_hasCursor c then ac_cursor c else ev_StartSequence event) (ev_EndSequence event) true (UInt64.wrap (ac_queuedBytes c + size)) in
          (m, notify (put_cursor f id c') (ac_lease c), inr None)
  end.

(** Publish and Enqueue: the data is copied before; the event keeps its owner, if any. *)
Definition copy_data (m : Heap) (e : Event) : Heap * Event :=
  let '(m, w) := clone m (read m (ev_Data e)) in (m, mkEvent (ev_Channel e) (ev_StartSequence e) (ev_EndSequence e) w (ev_owner e)).
Definition Publish (m : Heap) (f : Fanout) (e : Event) : Heap * Fanout * (FanoutError + list Eviction) := let '(m, e) := copy_data m e in PublishOwned m f e.
Definition Enqueue (m : Heap) (f : Fanout) (id : string) (e : Event) : Heap * Fanout * (FanoutError + option Eviction) := let '(m, e) := copy_data m e in EnqueueOwned m f id e.

(** ** Reading *)

(** How a turn of a reader ends; it waits at the channel of a lease. *)
Inductive Turn := Fails (e : FanoutError) | Gives (e : Event) | Waits (lease : Z).

(** The checks that the readers share. *)
Definition reading (f : Fanout) (id : string) : FanoutError + attachmentCursor :=
  match fo_attachments f !! id with
  | None => inl ErrAttachmentUnknown
  | Some c =>
      if bool_decide (ac_state c = Evicted) then inl ErrAttachmentEvicted
      else if negb (attached c) then inl ErrInvalidTransition
      else if ac_lagged c then inl ErrAttachmentLagged else inr c
  end.

(** The answer that was due is given once. *)
Definition unlag (f : Fanout) (id : string) (e : FanoutError) : Fanout :=
  match e, fo_attachments f !! id with ErrAttachmentLagged, Some c => put_cursor f id (with_lagged c false) | _, _ => f end.

(** event.Data[offset:] *)
Definition rest_of (e : Event) (start : Z) : Event :=
  let offset := Z.to_nat (start - ev_StartSequence e) in
  mkEvent (ev_Channel e) start (ev_EndSequence e) (mkWindow (w_buf (ev_Data e)) (w_off (ev_Data e) + offset) (w_len (ev_Data e) - offset)) (ev_owner e).

(** A cursor that moves on, and what it frees. *)
Definition advance (m : Heap) (f : Fanout) (id : string) (c : attachmentCursor) (to now : Z) : Heap * Fanout :=
  let c' := with_pace (queue c to (ac_enqueuedEnd c) (ac_hasCursor c) (UInt64.wrap (ac_queuedBytes c - (to - ac_cursor c)))) (ac_backpressure c) (ac_owner c) now in
  compactAfterAdvanceLocked m (put_cursor f id c') (ac_cursor c).

(** waitNextFromLease, one turn; [lease] is zero when any will do. *)
Definition waitNextFromLease (m : Heap) (f : Fanout) (id : string) (from lease now : Z) : Heap * Fanout * Turn :=
  if match fo_attachments f !! id with Some c => negb (lease =? 0)%Z && negb (ac_lease c =? lease)%Z | None => false end then (m, f, Fails ErrAttachmentUnknown)
  else match reading f id with
  | inl e => (m, unlag f id e, Fails e)
  | inr c =>
      let '(m, f) := if ac_hasCursor c && (ac_cursor c <? from)%Z && (from <=? ac_enqueuedEnd c)%Z then let '(m, f) := advance m f id c from now in (m, notify_room f) else (m, f) in
      match fo_attachments f !! id with
      | None => (m, f, Fails ErrAttachmentUnknown)
      | Some c =>
          if ac_hasCursor c && (ac_cursor c <? ac_enqueuedEnd c)%Z then
            match eventAtLocked (fo_ring f) (ac_cursor c) with
            | None => (m, f, Fails ErrOutputOrder)
            | Some event => (Retain m event, f, Gives (rest_of event (ac_cursor c)))
            end
          else (m, f, Waits (ac_lease c))
      end
  end.

Definition WaitNextFrom (m : Heap) (f : Fanout) (id : string) (from now : Z) : Heap * Fanout * Turn := waitNextFromLease m f id from 0 now.

(** WaitNextOwned, one turn. *)
Definition WaitNextOwned (m : Heap) (f : Fanout) (id : string) (now : Z) : Heap * Fanout * Turn :=
  match reading f id with
  | inl e => (m, unlag f id e, Fails e)
  | inr c =>
      if ac_hasCursor c && (ac_cursor c <? ac_enqueuedEnd c)%Z then
        match eventAtLocked (fo_ring f) (ac_cursor c) with
        | None => (m, f, Fails ErrOutputOrder)
        | Some event =>
            let retained := rest_of event (ac_cursor c) in
            let '(m, f) := advance (Retain m event) f id c (ev_EndSequence event) now in (m, notify_room f, Gives retained)
        end
      else (m, f, Waits (ac_lease c))
  end.

(** WaitNext, one turn: the data is copied and the reference released. *)
Definition WaitNext (m : Heap) (f : Fanout) (id : string) (now : Z) : Heap * Fanout * Turn :=
  match WaitNextOwned m f id now with
  | (m, f, Gives e) => let '(m, w) := clone m (read m (ev_Data e)) in (Release m e, f, Gives (mkEvent (ev_Channel e) (ev_StartSequence e) (ev_EndSequence e) w (ev_owner e)))
  | r => r
  end.

Definition Next (m : Heap) (f : Fanout) (id : string) (now : Z) : Heap * Fanout * (FanoutError + option Event) :=
  match reading f id with
  | inl e => (m, unlag f id e, inl e)
  | inr c =>
      if negb (ac_hasCursor c) || (ac_enqueuedEnd c <=? ac_cursor c)%Z then (m, f, inr None)
      else match eventAtLocked (fo_ring f) (ac_cursor c) with
           | None => (m, f, inl ErrOutputOrder)
           | Some event =>
               let '(m, w) := clone m (read m (ev_Data (rest_of event (ac_cursor c)))) in
               let '(m, f) := advance m f id c (ev_EndSequence event) now in
               (m, notify_room f, inr (Some (mkEvent (ev_Channel event) (ac_cursor c) (ev_EndSequence event) w None)))
           end
  end.

Definition Status (f : Fanout) (id : string) : FanoutError + (AttachmentState * Z) :=
  match fo_attachments f !! id with
  | None => inl ErrAttachmentUnknown
  | Some c => inr (ac_state c, if bool_decide (ac_state c = Evicted) then ac_evictedBytes c else ac_queuedBytes c)
  end.

(** Release, of the fanout of a stopped session. *)
Definition ReleaseRead (m : Heap) (f : Fanout) : Heap * Fanout := compactLocked m f.
End fanout.
