(* ===== verification/FanoutSpec.v ===== *)
(** * The ring of a fanout holds what its viewers still need *)
From S2P Require Import Prelude GoStd History HistorySpec Fanout.

(** ** Chunks of output

    The output was appended in chunks; an event of the ring is the end of one of them. *)
Record Chunk := mkChunk { ch_channel : Z; ch_start : Z; ch_end : Z }.

Definition ends_chunk (c : Chunk) (e : Event) : Prop := ev_Channel e = ch_channel c ∧ (ch_start c ≤ ev_StartSequence e < ev_EndSequence e)%Z ∧ ev_EndSequence e = ch_end c.

(** Chunks that follow each other. *)
Fixpoint chunks_from (s : Z) (l : list Chunk) (e : Z) : Prop := match l with [] => s = e | c :: l => ch_start c = s ∧ (s ≤ ch_end c)%Z ∧ chunks_from (ch_end c) l e end.

Lemma chunks_bounds s l e c : chunks_from s l e → c ∈ l → (s ≤ ch_start c ≤ ch_end c)%Z ∧ (ch_end c ≤ e)%Z.
Proof.
  revert s. induction l as [|x l IH]; intros s; simpl; [intros _ Hc; by apply elem_of_nil in Hc|]. intros (<- & Hle & Hl). assert (Hmore : ∀ s l e, chunks_from s l e → (s ≤ e)%Z).
  { clear. intros s l. revert s. induction l as [|x l IH]; intros s e; simpl; [lia|]. intros (_ & ? & ?%IH). lia. }
  rewrite elem_of_cons. intros [->|Hc]; [apply Hmore in Hl; lia|]. destruct (IH _ Hl Hc). lia.
Qed.

Lemma chunks_disjoint s l e c c' : chunks_from s l e → c ∈ l → c' ∈ l → c = c' ∨ (ch_end c ≤ ch_start c')%Z ∨ (ch_end c' ≤ ch_start c)%Z.
Proof.
  revert s. induction l as [|x l IH]; intros s; simpl; [intros _ Hc; by apply elem_of_nil in Hc|]. intros (Hs & Hle & Hl). rewrite !elem_of_cons. intros [->|Hc] [->|Hc'].
  - by left.
  - destruct (chunks_bounds _ _ _ _ Hl Hc'). right. left. lia.
  - destruct (chunks_bounds _ _ _ _ Hl Hc). right. right. lia.
  - by eapply IH.
Qed.

Lemma chunks_snoc s l e c : chunks_from s l e → ch_start c = e → (e ≤ ch_end c)%Z → chunks_from s (l ++ [c]) (ch_end c).
Proof. revert s. induction l as [|x l IH]; intros s; simpl; [intros -> -> ?; by split|]. intros (? & ? & ?) ? ?. split_and!; try done. by apply IH. Qed.

(** ** The order of the ring *)

Lemma sorted_lookup {A} (R : A → A → Prop) l i j x y : StronglySorted R l → l !! i = Some x → l !! j = Some y → (i < j)%nat → R x y.
Proof.
  intros Hs. revert i j. induction Hs as [|z l Hs IH Hz]; intros i j; [done|]. destruct i as [|i], j as [|j]; simpl; try lia.
  - intros [= <-] Hj _. by apply (proj1 (Forall_forall _ _) Hz), list_elem_of_lookup_2 with j.
  - intros Hi Hj ?. apply (IH i j); [done|done|lia].
Qed.

Definition event_start_le (a b : Event) : Prop := (ev_StartSequence a ≤ ev_StartSequence b)%Z.

#[export] Instance ring_less_swo : StrictWeakOrder ring_less.
Proof.
  split; unfold not_after, ring_less.
  - intros x y. destruct (Z.eqb_spec (ev_StartSequence x) (ev_StartSequence y)), (Z.eqb_spec (ev_StartSequence y) (ev_StartSequence x)); try lia; rewrite Z.ltb_lt, Z.ltb_ge; lia.
  - intros x y z. destruct (Z.eqb_spec (ev_StartSequence y) (ev_StartSequence x)), (Z.eqb_spec (ev_StartSequence z) (ev_StartSequence y)), (Z.eqb_spec (ev_StartSequence z) (ev_StartSequence x)); rewrite !Z.ltb_ge; lia.
Qed.

Lemma not_after_start a b : not_after ring_less a b → event_start_le a b.
Proof. unfold not_after, ring_less, event_start_le. destruct (Z.eqb_spec (ev_StartSequence b) (ev_StartSequence a)); [lia|]. rewrite Z.ltb_ge. lia. Qed.

Section ring.
Context (base : Z) (output : list ascii) (first latest : Z) (chunks : list Chunk) (Hchunks : chunks_from first chunks latest).

(** An event of the ring: the end of a chunk, which reads the output. *)
Definition ring_event (m : Heap) (e : Event) : Prop := (∃ c, c ∈ chunks ∧ ends_chunk c e) ∧ reads m base output e.

Record ring_ok (m : Heap) (ring : list Event) (ringEnd : Z) : Prop := {
  ro_events : ∀ e, e ∈ ring → ring_event m e;
  ro_distinct : NoDup (map ev_EndSequence ring);
  ro_sorted : StronglySorted event_start_le ring;
  ro_end : ∀ e, e ∈ ring → (ev_EndSequence e ≤ ringEnd)%Z;
}.

(** Two events end the same chunk, or are apart. *)
Lemma ring_events_apart m a b : ring_event m a → ring_event m b → ev_EndSequence a = ev_EndSequence b ∨ (ev_EndSequence a ≤ ev_StartSequence b)%Z ∨ (ev_EndSequence b ≤ ev_StartSequence a)%Z.
Proof.
  intros [(c & Hc & Hca & Hs & He) _] [(c' & Hc' & Hca' & Hs' & He') _]. destruct (chunks_disjoint _ _ _ _ _ Hchunks Hc Hc') as [<-|[?|?]]; lia.
Qed.

Lemma same_end_channel m a b : ring_event m a → ring_event m b → ev_EndSequence a = ev_EndSequence b → ev_Channel a = ev_Channel b.
Proof.
  intros [(c & Hc & Hca & Hs & He) _] [(c' & Hc' & Hca' & Hs' & He') _] Heq. destruct (chunks_disjoint _ _ _ _ _ Hchunks Hc Hc') as [<-|[?|?]]; [congruence|lia|lia].
Qed.

(** The longer of two ends of a chunk covers the other. *)
Lemma covers_longer m a b : ring_event m a → ring_event m b → ev_EndSequence a = ev_EndSequence b → (ev_StartSequence a ≤ ev_StartSequence b)%Z → covers m a b = true.
Proof.
  intros Ha Hb He Hs. unfold covers. rewrite (same_end_channel _ _ _ Ha Hb He), Z.eqb_refl. rewrite (proj2 (Z.leb_le _ _) Hs), (proj2 (Z.leb_le (ev_EndSequence b) (ev_EndSequence a))) by lia. simpl. unfold same_bytes. apply bool_decide_eq_true_2.
  destruct Ha as [_ ([? ?] & ? & _ & ->)], Hb as [_ ([? ?] & ? & _ & ->)]. apply slice_slice; lia.
Qed.

Lemma covers_inv m a b : covers m a b = true → (ev_StartSequence a ≤ ev_StartSequence b)%Z ∧ (ev_EndSequence b ≤ ev_EndSequence a)%Z.
Proof. unfold covers. rewrite !andb_true_iff, !Z.leb_le. tauto. Qed.

(** What a scan finds. *)
Lemma scan_spec m e ring : match scan m e ring with
  | Some None => ∃ x, x ∈ ring ∧ covers m x e = true
  | Some (Some i) => ∃ x, ring !! i = Some x ∧ covers m e x = true
  | None => ∀ x, x ∈ ring → covers m x e = false ∧ covers m e x = false end.
Proof.
  induction ring as [|x ring IH]; simpl; [intros x Hx; by apply elem_of_nil in Hx|]. destruct (covers m x e) eqn:H1; [exists x; split; [left|done]|]. destruct (covers m e x) eqn:H2; [by exists x|].
  destruct (scan m e ring) as [[i|]|]; [done| |].
  - destruct IH as (y & ? & ?). exists y. split; [by right|done].
  - intros y. rewrite elem_of_cons. intros [->|?]; [done|by apply IH].
Qed.

(** Every number that some event holds. *)
Definition held_by (ring : list Event) (n : Z) : Prop := ∃ e, e ∈ ring ∧ (ev_StartSequence e ≤ n < ev_EndSequence e)%Z.

Lemma sorted_ends m ring : (∀ e, e ∈ ring → ring_event m e) → NoDup (map ev_EndSequence ring) → StronglySorted event_start_le ring → StronglySorted (λ a b, (ev_EndSequence a ≤ ev_StartSequence b)%Z) ring.
Proof.
  intros He Hnd Hs. induction Hs as [|x ring Hs IH Hx]; [constructor|]. simpl in Hnd. apply NoDup_cons in Hnd as [Hn Hnd]. constructor; [apply IH; [intros e ?; apply He; by right|done]|].
  apply Forall_forall. intros y Hy. pose proof (proj1 (Forall_forall _ _) Hx y Hy) as Hle. unfold event_start_le in Hle. destruct (ring_events_apart m x y) as [Heq|[?|?]]; [apply He; left|apply He; by right| |done|].
  - destruct Hn. rewrite Heq. by apply list_elem_of_fmap_2.
  - destruct (He x (list_elem_of_here _ _)) as [(c & _ & _ & ? & _) _]. destruct (He y ltac:(by right)) as [(c' & _ & _ & ? & _) _]. lia.
Qed.

Lemma eventAt_found m ring ringEnd n : ring_ok m ring ringEnd → held_by ring n → ∃ e, eventAtLocked ring n = Some e ∧ e ∈ ring ∧ (ev_StartSequence e ≤ n < ev_EndSequence e)%Z.
Proof.
  intros [He Hnd Hs _] (x & Hx & Hn). pose proof (sorted_ends m ring He Hnd Hs) as Hse. set (t := λ i, match ring !! i with Some e => (n <? ev_EndSequence e)%Z | None => false end).
  assert (Hmono : ∀ a b, (a ≤ b < length ring)%nat → t a = true → t b = true).
  { intros a b Hab. unfold t. destruct (lookup_lt_is_Some_2 ring a ltac:(lia)) as [ea Ha], (lookup_lt_is_Some_2 ring b ltac:(lia)) as [eb Hb]. rewrite Ha, Hb, !Z.ltb_lt. intros Hlt. destruct (decide (a = b)) as [->|Hne]; [congruence|].
    pose proof (sorted_lookup _ _ a b _ _ Hse Ha Hb ltac:(lia)) as Hle. destruct (He eb ltac:(by eapply list_elem_of_lookup_2)) as [(c & _ & _ & ? & _) _]. simpl in Hle. lia. }
  destruct (sort.Search_spec (length ring) t Hmono) as (H1 & H2 & H3). apply list_elem_of_lookup in Hx as [i Hi]. pose proof (lookup_lt_Some _ _ _ Hi) as Hil. unfold eventAtLocked. fold t. set (j := sort.Search (length ring) t) in *.
  assert (Hti : t i = true) by (unfold t; rewrite Hi; apply Z.ltb_lt; lia). assert (Hji : (j ≤ i)%nat) by (destruct (decide (j ≤ i)%nat); [done|rewrite H2 in Hti; [done|lia]]).
  assert (j = i) as ->.
  { destruct (decide (j = i)) as [|Hne]; [done|]. assert (Htj : t j = true) by (apply H3; lia). unfold t in Htj. destruct (lookup_lt_is_Some_2 ring j ltac:(lia)) as [ej Hj]. rewrite Hj in Htj. apply Z.ltb_lt in Htj.
    pose proof (sorted_lookup _ _ j i _ _ Hse Hj Hi ltac:(lia)) as Hle. simpl in Hle. lia. }
  rewrite Hi. destruct (Z.ltb_spec n (ev_StartSequence x)); [lia|]. exists x. split_and!; [done|by eapply list_elem_of_lookup_2|lia|lia].
Qed.

(** ** Inserting *)

Lemma ring_event_buffers m m' e : hp_buffers m' = hp_buffers m → ring_event m e → ring_event m' e.
Proof. intros Hb [Hc Hr]. split; [done|]. eapply reads_heap; [done|]. unfold read. by rewrite Hb. Qed.

Lemma ring_ok_buffers m m' ring ringEnd : hp_buffers m' = hp_buffers m → ring_ok m ring ringEnd → ring_ok m' ring ringEnd.
Proof. intros Hb [H1 H2 H3 H4]. split; try done. intros e He. eapply ring_event_buffers; [done|by apply H1]. Qed.

Lemma elem_of_deleted {A} (l : list A) i y : y ∈ delete i l → y ∈ l.
Proof. revert i. induction l as [|x l IH]; intros [|i]; simpl; try done; [by right|]. rewrite !elem_of_cons. intros [->|?%IH]; [by left|by right]. Qed.

Lemma sorted_delete {A} (R : A → A → Prop) l i : StronglySorted R l → StronglySorted R (delete i l).
Proof.
  intros Hs. revert i. induction Hs as [|x l Hs IH Hx]; intros i; [destruct i; constructor|]. destruct i as [|i]; simpl; [done|]. constructor; [apply IH|]. apply Forall_forall. intros y Hy%elem_of_deleted. by apply (proj1 (Forall_forall _ _) Hx).
Qed.

Lemma sorted_weaken {A} (R R' : A → A → Prop) l : (∀ x y, R x y → R' x y) → StronglySorted R l → StronglySorted R' l.
Proof. intros HR. induction 1 as [|x l Hs IH Hx]; constructor; [done|]. eapply Forall_impl; [exact Hx|by auto]. Qed.

Lemma ring_ok_delete m ring ringEnd i x : ring !! i = Some x → ring_ok m ring ringEnd → ring_ok m (delete i ring) ringEnd.
Proof.
  intros Hi [H1 H2 H3 H4]. pose proof (delete_Permutation _ _ _ Hi) as Hp. assert (Hsub : ∀ y, y ∈ delete i ring → y ∈ ring) by (intros y Hy; rewrite Hp; by right). split.
  - intros e He. by apply H1, Hsub.
  - rewrite Hp in H2. simpl in H2. by apply NoDup_cons in H2 as [_ ?].
  - by apply sorted_delete.
  - intros e He. by apply H4, Hsub.
Qed.

Lemma ring_ok_append m ring ringEnd e : ring_ok m ring ringEnd → ring_event m e → (ringEnd ≤ ev_StartSequence e)%Z → ring_ok m (ring ++ [e]) (ev_EndSequence e).
Proof.
  intros [H1 H2 H3 H4] He Hle. assert (Hne : (ev_StartSequence e < ev_EndSequence e)%Z) by (destruct He as [(c & _ & _ & ? & _) _]; lia).
  assert (Hst : ∀ x, x ∈ ring → (ev_StartSequence x < ev_EndSequence x)%Z) by (intros x Hx; destruct (H1 x Hx) as [(c & _ & _ & ? & _) _]; lia). split.
  - intros x. rewrite elem_of_app, list_elem_of_singleton. intros [?| ->]; [by apply H1|done].
  - rewrite map_app. apply NoDup_app. split_and!; [done| |simpl; apply NoDup_singleton]. intros n (x & -> & Hx)%list_elem_of_fmap. simpl. rewrite list_elem_of_singleton. specialize (H4 x Hx). lia.
  - apply StronglySorted_app_2; [|done|by repeat constructor]. intros x y Hx. rewrite list_elem_of_singleton. intros ->. unfold event_start_le. specialize (H4 x Hx). specialize (Hst x Hx). lia.
  - intros x. rewrite elem_of_app, list_elem_of_singleton. intros [Hx| ->]; [specialize (H4 x Hx); lia|done].
Qed.

Lemma ring_ok_sort m ring ringEnd e : ring_ok m ring ringEnd → ring_event m e → (∀ x, x ∈ ring → covers m x e = false ∧ covers m e x = false) → ring_ok m (sort_by ring_less (ring ++ [e])) (Z.max ringEnd (ev_EndSequence e)).
Proof.
  intros [H1 H2 H3 H4] He Hn. assert (Hev : ∀ x, x ∈ ring ++ [e] → ring_event m x) by (intros x; rewrite elem_of_app, list_elem_of_singleton; intros [?| ->]; [by apply H1|done]). split.
  - intros x. rewrite elem_of_sort_by. apply Hev.
  - rewrite (sort_by_perm ring_less), map_app. apply NoDup_app. split_and!; [done| |simpl; apply NoDup_singleton]. intros n (x & -> & Hx)%list_elem_of_fmap. simpl. rewrite list_elem_of_singleton. intros Heq. destruct (Hn x Hx) as [Hc1 Hc2].
    destruct (Z.le_ge_cases (ev_StartSequence x) (ev_StartSequence e)) as [Hle|Hle]; [by rewrite (covers_longer m x e (H1 x Hx) He) in Hc1 by lia|by rewrite (covers_longer m e x He (H1 x Hx)) in Hc2 by lia].
  - apply (sorted_weaken (not_after ring_less)); [apply not_after_start|apply sort_by_sorted, _].
  - intros x. rewrite elem_of_sort_by, elem_of_app, list_elem_of_singleton. intros [Hx| ->]; [specialize (H4 x Hx)|]; lia.
Qed.

Lemma insert_loop_ok prod L e : e ∈ L → ∀ fuel m ring ringEnd m' ring' ringEnd', (length ring < fuel)%nat → ring_ok m ring ringEnd → ring_event m e → heap_ok m prod (ring ++ L) → insert_loop fuel m ring ringEnd e = (m', ring', ringEnd') →
  ring_ok m' ring' ringEnd' ∧ heap_ok m' prod (ring' ++ L) ∧ hp_buffers m' = hp_buffers m ∧ (∀ n, held_by ring n ∨ (ev_StartSequence e ≤ n < ev_EndSequence e)%Z → held_by ring' n) ∧ ∀ x, x ∈ ring' → x ∈ ring ∨ x = e.
Proof.
  intros HeL. induction fuel as [|fuel IH]; intros m ring ringEnd m' ring' ringEnd' Hf Hok He Hh; simpl; [lia|].
  assert (Hret : ∀ l, l ≡ₚ ring ++ [e] → heap_ok (Retain m e) prod (l ++ L)).
  { intros l Hl. eapply heap_ok_perm; [|apply (Retain_ok _ _ (ring ++ L) e e Hh); [apply elem_of_app; by right|done|done]]. rewrite Hl, <-app_assoc. simpl. apply Permutation_middle. }
  assert (Hheld : ∀ l n, l ≡ₚ ring ++ [e] → held_by ring n ∨ (ev_StartSequence e ≤ n < ev_EndSequence e)%Z → held_by l n).
  { intros l n Hl [(x & Hx & ?)|?]; [exists x; rewrite Hl; split; [apply elem_of_app; by left|done]|exists e; rewrite Hl; split; [apply elem_of_app; right; left|done]]. }
  assert (Hmem : ∀ l x, l ≡ₚ ring ++ [e] → x ∈ l → x ∈ ring ∨ x = e) by (intros l x Hl; rewrite Hl, elem_of_app, list_elem_of_singleton; done).
  destruct (Z.leb_spec ringEnd (ev_StartSequence e)) as [Hle|Hgt].
  { intros [= <- <- <-]. split_and!; [eapply ring_ok_buffers; [apply Retain_buffers|by eapply ring_ok_append]|by apply Hret|apply Retain_buffers|by eauto|by eauto]. }
  pose proof (scan_spec m e ring) as Hscan. destruct (scan m e ring) as [[i|]|].
  - destruct Hscan as (x & Hi & Hc). rewrite Hi. pose proof (delete_Permutation _ _ _ Hi) as Hp. intros Hins. apply IH in Hins as (Hok' & Hh' & Hb' & Hhe' & Hin').
    + rewrite Release_buffers in Hb'. split_and!; try done.
      * intros n [(y & Hy & Hn)|Hn]; [|apply Hhe'; by right]. apply Hhe'. rewrite Hp in Hy. apply elem_of_cons in Hy as [->|Hy]; [right; apply covers_inv in Hc; lia|left; by exists y].
      * intros y [Hy| ->]%Hin'; [left; rewrite Hp; by right|by right].
    + pose proof (lookup_lt_Some _ _ _ Hi). rewrite length_delete by (by eexists). lia.
    + eapply ring_ok_buffers; [apply Release_buffers|by eapply ring_ok_delete].
    + eapply ring_event_buffers; [apply Release_buffers|done].
    + apply Release_ok. eapply heap_ok_perm; [|exact Hh]. exact (Permutation_app_tail L Hp).
  - destruct Hscan as (x & Hx & Hc). intros [= <- <- <-]. split_and!; try done; [|by left]. intros n [?|Hn]; [done|]. exists x. split; [done|]. apply covers_inv in Hc. lia.
  - intros [= <- <- <-]. assert (Hp := sort_by_perm ring_less (ring ++ [e])). split_and!; [eapply ring_ok_buffers; [apply Retain_buffers|by apply ring_ok_sort]|by apply Hret|apply Retain_buffers|by eauto|by eauto].
Qed.

(** ** Compaction *)

Lemma drop_read_ok prod L minimum ring : ∀ m m' ring', drop_read m ring minimum = (m', ring') → heap_ok m prod (ring ++ L) →
  heap_ok m' prod (ring' ++ L) ∧ hp_buffers m' = hp_buffers m ∧ (∃ k, ring' = drop k ring) ∧ (∀ n, (minimum ≤ n)%Z → held_by ring n → held_by ring' n).
Proof.
  induction ring as [|e ring IH]; intros m m' ring'; simpl; [intros [= <- <-] Hh; split_and!; try done; by exists 0%nat|]. destruct (Z.leb_spec (ev_EndSequence e) minimum) as [Hle|].
  - intros Hd Hh. apply Release_ok in Hh. destruct (IH _ _ _ Hd Hh) as (Hh' & Hb & (k & Hk) & Hn). rewrite Release_buffers in Hb. split_and!; try done; [by exists (S k)|]. intros n Hmin (x & Hx & ?). apply Hn; [done|]. apply elem_of_cons in Hx as [->|Hx]; [lia|by exists x].
  - intros [= <- <-] Hh. split_and!; try done. by exists 0%nat.
Qed.

Lemma ring_ok_drop m ring ringEnd k : ring_ok m ring ringEnd → ring_ok m (drop k ring) ringEnd.
Proof.
  intros [H1 H2 H3 H4]. assert (Hin : ∀ x, x ∈ drop k ring → x ∈ ring) by (intros x Hx; rewrite <-(take_drop k ring); apply elem_of_app; by right). split.
  - intros e He. by apply H1, Hin.
  - rewrite <-(take_drop k ring), map_app in H2. by apply NoDup_app in H2 as (_ & _ & ?).
  - rewrite <-(take_drop k ring) in H3. by apply StronglySorted_app_1_r in H3.
  - intros e He. by apply H4, Hin.
Qed.

Lemma ring_ok_nil m ringEnd : ring_ok m [] ringEnd.
Proof. split; [intros e He; by apply elem_of_nil in He|constructor|constructor|intros e He; by apply elem_of_nil in He]. Qed.
End ring.

(** * The cursors of a fanout: the ring covers what is queued for each viewer *)

Section spec.
Context `{GoRuntime} (base : Z) (output : list ascii) (first latest : Z) (chunks : list Chunk) (Hchunks : chunks_from first chunks latest).

(** A number at which a chunk ends, or the output begins. *)
Definition mark (n : Z) : Prop := n = first ∨ ∃ c, c ∈ chunks ∧ ch_end c = n.

Lemma latest_mark : mark latest.
Proof.
  unfold mark. clear -Hchunks. revert first Hchunks. induction chunks as [|c l IH]; intros s; simpl; [by left|]. intros (_ & _ & Hl). right. destruct (IH _ Hl) as [->|(c' & ? & ?)]; [exists c; split; [left|done]|exists c'; split; [by right|done]].
Qed.

(** An event that reaches beyond a number before a mark ends before the mark. *)
Lemma ends_before_mark m e n p : ring_event base output chunks m e → (ev_StartSequence e ≤ n < ev_EndSequence e)%Z → (first ≤ n < p)%Z → mark p → (ev_EndSequence e ≤ p)%Z.
Proof.
  intros [(c & Hc & _ & Hs & He) _] Hn Hp [->|(c' & Hc' & <-)]; [lia|]. destruct (chunks_disjoint _ _ _ _ _ Hchunks Hc Hc') as [->|[Hd|Hd]]; [lia| |lia]. destruct (chunks_bounds _ _ _ _ Hchunks Hc'). lia.
Qed.

(** ** Cursors *)

Record cursor_ok (ring : list Event) (c : attachmentCursor) : Prop := {
  co_max : (0 < ac_maxBytes c ≤ UInt64.max_value)%Z;
  co_queued : (0 ≤ ac_queuedBytes c ≤ ac_maxBytes c)%Z;
  co_none : ac_hasCursor c = false → ac_queuedBytes c = 0%Z;
  co_receives : ac_hasCursor c = true → ac_receiveOutput c = true →
    (first ≤ ac_cursor c ≤ ac_enqueuedEnd c)%Z ∧ (ac_enqueuedEnd c ≤ latest)%Z ∧ ac_queuedBytes c = (ac_enqueuedEnd c - ac_cursor c)%Z ∧ mark (ac_enqueuedEnd c) ∧ ∀ n, (ac_cursor c ≤ n < ac_enqueuedEnd c)%Z → held_by ring n;
  co_control : ac_hasCursor c = true → ac_receiveOutput c = false → ac_cursor c = ac_enqueuedEnd c ∧ ac_queuedBytes c = 0%Z;
}.

Record fan_ok (m : Heap) (f : Fanout) : Prop := {
  fk_ring : ring_ok base output chunks m (fo_ring f) (fo_ringEnd f);
  fk_cursor : ∀ id c, fo_attachments f !! id = Some c → attached c = true → cursor_ok (fo_ring f) c;
  fk_lease : ∀ id c, fo_attachments f !! id = Some c → (0 < ac_lease c ≤ fo_lastLease f)%Z;
  fk_unique : ∀ id id' c c', fo_attachments f !! id = Some c → fo_attachments f !! id' = Some c' → ac_lease c = ac_lease c' → id = id';
  fk_last : (0 ≤ fo_lastLease f)%Z;
}.

(** A ring that covers as much serves as well. *)
Lemma cursor_ok_ring ring ring' c : (ac_hasCursor c = true → ∀ n, (ac_cursor c ≤ n)%Z → held_by ring n → held_by ring' n) → cursor_ok ring c → cursor_ok ring' c.
Proof. intros Hr [? ? ? Hc ?]. split; try done. intros Hh Ho. destruct (Hc Hh Ho) as (? & ? & ? & ? & Hn). split_and!; try done; try lia. intros n Hln. apply Hr; [done|lia|by apply Hn]. Qed.

Lemma fan_ok_put m f id c c' : fan_ok m f → fo_attachments f !! id = Some c → ac_lease c' = ac_lease c → (attached c' = true → cursor_ok (fo_ring f) c') → fan_ok m (put_cursor f id c').
Proof.
  intros [H1 H2 H3 H4 H5] Hc Hl Hc'. split; simpl; try done.
  - intros id1 c1. rewrite lookup_insert_Some. intros [[<- <-]|[Hne ?]]; [done|by eapply H2].
  - intros id1 c1. rewrite lookup_insert_Some. intros [[<- <-]|[Hne ?]]; [rewrite Hl|]; by eapply H3.
  - intros id1 id2 c1 c2. rewrite !lookup_insert_Some. intros [[<- <-]|[Hne1 H1']] [[<- <-]|[Hne2 H2']] Heq; [done| | |by eapply H4]; rewrite Hl in Heq; by eapply H4.
Qed.

(** Only the ring and what compaction remembers changes. *)
Definition same_viewers (f f' : Fanout) : Prop :=
  fo_lastLease f' = fo_lastLease f ∧ fo_attachments f' = fo_attachments f ∧ fo_active f' = fo_active f ∧ fo_room f' = fo_room f ∧ fo_tokens f' = fo_tokens f.

(** The minimum is below every cursor that is attached. *)
Lemma minimum_fold l : ∀ acc, let '(minimum, have, _) := foldl minimum_step acc l in
  (acc.1.2 = true → have = true ∧ (minimum ≤ acc.1.1)%Z) ∧ (∀ c, c ∈ l → attached c = true → ac_hasCursor c = true → have = true ∧ (minimum ≤ ac_cursor c)%Z).
Proof.
  induction l as [|c l IH]; intros [[mn hv] at_]; [simpl; split; [intros ->; split; [done|lia]|intros c Hc; by apply elem_of_nil in Hc]|].
  cbn [foldl fst snd]. specialize (IH (minimum_step (mn, hv, at_) c)). destruct (foldl minimum_step (minimum_step (mn, hv, at_) c) l) as [[mn' hv'] at']. destruct IH as [IH1 IH2].
  assert (Hstep : (hv = true → (minimum_step (mn, hv, at_) c).1.2 = true ∧ ((minimum_step (mn, hv, at_) c).1.1 ≤ mn)%Z) ∧
    (attached c = true → ac_hasCursor c = true → (minimum_step (mn, hv, at_) c).1.2 = true ∧ ((minimum_step (mn, hv, at_) c).1.1 ≤ ac_cursor c)%Z)).
  { unfold minimum_step. destruct (attached c), (ac_hasCursor c); simpl; try (split; [intros ->; split; [done|lia]|done]). destruct hv; simpl; [|split; [done|intros; split; [done|lia]]].
    destruct (Z.ltb_spec (ac_cursor c) mn); simpl; [split; intros; split; done || lia|]. destruct (Z.eqb_spec (ac_cursor c) mn); simpl; split; intros; split; done || lia. }
  destruct Hstep as [Hs1 Hs2]. split.
  - intros Hh. destruct (Hs1 Hh) as [Hx Hy]. destruct (IH1 Hx). split; [done|lia].
  - intros c'. rewrite elem_of_cons. intros [->|Hin] Ha Hh; [|by apply IH2]. destruct (Hs2 Ha Hh) as [Hx Hy]. destruct (IH1 Hx). split; [done|lia].
Qed.

Lemma compact_ok m f prod L m' f' : compactLocked m f = (m', f') → fan_ok m f → heap_ok m prod (fo_ring f ++ L) →
  fan_ok m' f' ∧ heap_ok m' prod (fo_ring f' ++ L) ∧ hp_buffers m' = hp_buffers m ∧ same_viewers f f' ∧ ∀ x, x ∈ fo_ring f' → x ∈ fo_ring f.
Proof.
  intros Hc [H1 H2 H3 H4 H5] Hh. unfold compactLocked in Hc. set (l := range 59 (fo_attachments f)) in *. assert (Hl : foldl (λ acc p, minimum_step acc p.2) (0%Z, false, 0%Z) l = foldl minimum_step (0%Z, false, 0%Z) (map snd l)).
  { generalize (0%Z, false, 0%Z). clear. induction l as [|p l IH]; intros acc; simpl; [done|apply IH]. }
  rewrite Hl in Hc. pose proof (minimum_fold (map snd l) (0%Z, false, 0%Z)) as Hmin. destruct (foldl minimum_step _ _) as [[minimum have] at_]. destruct Hmin as [_ Hmin].
  assert (Hall : ∀ id c, fo_attachments f !! id = Some c → attached c = true → ac_hasCursor c = true → have = true ∧ (minimum ≤ ac_cursor c)%Z).
  { intros id c Hid. apply Hmin. apply list_elem_of_fmap. exists (id, c). split; [done|]. by apply elem_of_range. }
  destruct have; simpl in Hc.
  - destruct (drop_read m (fo_ring f) minimum) as [m1 ring1] eqn:Hd. injection Hc as <- <-. destruct (drop_read_ok prod L minimum _ _ _ _ Hd Hh) as (Hh1 & Hb & (k & Hk) & Hn).
    assert (Hin : ∀ x, x ∈ ring1 → x ∈ fo_ring f) by (intros x; rewrite Hk; intros Hx; rewrite <-(take_drop k (fo_ring f)); apply elem_of_app; by right).
    split_and!; try done. split; simpl; try done.
    + eapply ring_ok_buffers; [exact Hb|]. pose proof (ring_ok_drop base output chunks _ _ _ k H1) as Hro. rewrite <-Hk in Hro. destruct Hro as [R1 R2 R3 R4]. split; try done. destruct (_ && _) eqn:Hz; [|done]. apply andb_true_iff in Hz as [Hz _]. apply Nat.eqb_eq, nil_length_inv in Hz as ->.
      intros e He. by apply elem_of_nil in He.
    + intros id c Hid Ha. eapply cursor_ok_ring; [|by eapply H2]. intros Hhc n Hcn Hheld. apply Hn; [|done]. destruct (Hall _ _ Hid Ha Hhc). lia.
  - injection Hc as <- <-. destruct (releases_ok _ _ _ _ Hh) as [Hh1 Hb]. split_and!; try done; [|intros x Hx; by apply elem_of_nil in Hx]. split; simpl; try done; [apply ring_ok_nil|].
    intros id c Hid Ha. destruct (H2 _ _ Hid Ha) as [? ? ? Hr ?]. split; try done. intros Hhc. destruct (Hall _ _ Hid Ha Hhc) as [? _]. done.
Qed.

(** What every call keeps: the fanout is well formed and its references are counted; [L] are the other references. *)
Record kept_ok (m : Heap) (prod : list nat) (L : list Event) (m' : Heap) (f' : Fanout) : Prop := {
  kk_fan : fan_ok m' f';
  kk_heap : heap_ok m' prod (fo_ring f' ++ L);
  kk_buffers : hp_buffers m' = hp_buffers m;
}.

Lemma fan_ok_minimum m f a b c : fan_ok m f → fan_ok m (set_minimum f a b c).
Proof. intros [? ? ? ? ?]. by split. Qed.

Lemma advance_compact_ok m f prod L previous m' f' : compactAfterAdvanceLocked m f previous = (m', f') → fan_ok m f → heap_ok m prod (fo_ring f ++ L) → kept_ok m prod L m' f' ∧ same_viewers f f' ∧ ∀ x, x ∈ fo_ring f' → x ∈ fo_ring f.
Proof.
  unfold compactAfterAdvanceLocked. intros Hc Hok Hh. destruct (_ || _) in Hc; [injection Hc as <- <-; split; [by split|done]|]. destruct (0 <? _)%Z in Hc; [injection Hc as <- <-; split; [split; [by apply fan_ok_minimum|done|done]|done]|].
  destruct (compact_ok _ _ _ _ _ _ Hc (fan_ok_minimum _ _ _ _ _ Hok) Hh) as (? & ? & ? & ? & ?). split; [by split|done].
Qed.

Lemma insert_ok m f prod L e m' f' : insertEventLocked m f e = (m', f') → fan_ok m f → heap_ok m prod (fo_ring f ++ L) → e ∈ L → ring_event base output chunks m e →
  kept_ok m prod L m' f' ∧ same_viewers f f' ∧ (∀ n, held_by (fo_ring f) n ∨ (ev_StartSequence e ≤ n < ev_EndSequence e)%Z → held_by (fo_ring f') n) ∧ ∀ x, x ∈ fo_ring f' → x ∈ fo_ring f ∨ x = e.
Proof.
  unfold insertEventLocked. intros Hi [H1 H2 H3 H4 H5] Hh HeL Hev. destruct (insert_loop _ _ _ _ _) as [[m1 ring1] end1] eqn:Hl. injection Hi as <- <-.
  destruct (insert_loop_ok base output first latest chunks Hchunks prod L e HeL _ _ _ _ _ _ _ (Nat.lt_succ_diag_r _) H1 Hev Hh Hl) as (Hr & Hh1 & Hb & Hheld & Hin).
  split_and!; try done. split; try done. split; simpl; try done. intros id c Hid Ha. eapply cursor_ok_ring; [|by eapply H2]. intros _ n _ Hn. apply Hheld. by left.
Qed.

Lemma room_left c : (0 < ac_maxBytes c ≤ UInt64.max_value)%Z → (0 ≤ ac_queuedBytes c ≤ ac_maxBytes c)%Z → UInt64.wrap (ac_maxBytes c - ac_queuedBytes c) = (ac_maxBytes c - ac_queuedBytes c)%Z.
Proof. intros. apply UInt64.uint64_wrap_id. unfold UInt64.in_range. lia. Qed.

(** Output that is put at the end of a queue with room for it. *)
Lemma queue_more_ok ring c e : cursor_ok ring c → (ac_maxBytes c - ac_queuedBytes c >= Z.of_nat (w_len (ev_Data e)))%Z → ac_receiveOutput c = true → Z.of_nat (w_len (ev_Data e)) = (ev_EndSequence e - ev_StartSequence e)%Z →
  (ac_hasCursor c = true → ac_enqueuedEnd c = ev_StartSequence e) → (first ≤ ev_StartSequence e)%Z → mark (ev_EndSequence e) → (ev_EndSequence e ≤ latest)%Z → (∀ n, (ev_StartSequence e ≤ n < ev_EndSequence e)%Z → held_by ring n) →
  cursor_ok ring (queue c (if ac_hasCursor c then ac_cursor c else ev_StartSequence e) (ev_EndSequence e) true (UInt64.wrap (ac_queuedBytes c + Z.of_nat (w_len (ev_Data e))))).
Proof.
  intros [Hm Hq Hn Hr _] Hroom Hro Hlen Hend Hf Hmk Hle Hheld. assert (Hw : UInt64.wrap (ac_queuedBytes c + Z.of_nat (w_len (ev_Data e))) = (ac_queuedBytes c + Z.of_nat (w_len (ev_Data e)))%Z) by (apply UInt64.uint64_wrap_id; unfold UInt64.in_range; lia).
  rewrite Hw. split; simpl; try done; try lia; [|by rewrite Hro]. intros _ _. destruct (ac_hasCursor c) eqn:Hhc.
  - specialize (Hend eq_refl). destruct (Hr eq_refl Hro) as (? & ? & Hqq & _ & Hh). split_and!; try done; try lia. intros n Hln. destruct (decide (n < ac_enqueuedEnd c)%Z); [apply Hh; lia|apply Hheld; lia].
  - rewrite Hn by done. split_and!; try done; try lia.
Qed.

(** A cursor that moves forward within its queue. *)
Lemma move_ok ring c to now : cursor_ok ring c → ac_hasCursor c = true → ac_receiveOutput c = true → (ac_cursor c ≤ to ≤ ac_enqueuedEnd c)%Z →
  cursor_ok ring (with_pace (queue c to (ac_enqueuedEnd c) (ac_hasCursor c) (UInt64.wrap (ac_queuedBytes c - (to - ac_cursor c)))) (ac_backpressure c) (ac_owner c) now).
Proof.
  intros [Hm Hq Hn Hr Hc] Hh Ho Hto. destruct (Hr Hh Ho) as (? & ? & Hqq & Hmk & Hheld). assert (Hw : UInt64.wrap (ac_queuedBytes c - (to - ac_cursor c)) = (ac_queuedBytes c - (to - ac_cursor c))%Z) by (apply UInt64.uint64_wrap_id; unfold UInt64.in_range; lia).
  rewrite Hw. split; simpl; try done; try lia; try (rewrite Hh; done).
  - intros _ _. split_and!; try done; try lia. intros n ?. apply Hheld. lia.
  - intros _. rewrite Ho. done.
Qed.

Lemma advance_ok m f prod L id c to now m' f' : advance m f id c to now = (m', f') → fan_ok m f → heap_ok m prod (fo_ring f ++ L) → fo_attachments f !! id = Some c → attached c = true → ac_hasCursor c = true → ac_receiveOutput c = true →
  (ac_cursor c ≤ to ≤ ac_enqueuedEnd c)%Z →
  kept_ok m prod L m' f' ∧ fo_attachments f' = <[id := with_pace (queue c to (ac_enqueuedEnd c) (ac_hasCursor c) (UInt64.wrap (ac_queuedBytes c - (to - ac_cursor c)))) (ac_backpressure c) (ac_owner c) now]> (fo_attachments f) ∧
  fo_lastLease f' = fo_lastLease f ∧ fo_active f' = fo_active f ∧ fo_tokens f' = fo_tokens f ∧ ∀ x, x ∈ fo_ring f' → x ∈ fo_ring f.
Proof.
  unfold advance. intros Hc Hok Hh Hid Ha Hhc Hro Hto. apply (advance_compact_ok _ _ prod L) in Hc as (Hk & (Hl & Hat & Hact & _ & Htok) & Hin); [split_and!; try done| |done].
  eapply fan_ok_put; [done|done|done|]. intros _. apply move_ok; try done. by eapply fk_cursor.
Qed.

(** ** Publishing *)

Definition published (e : Event) (c : attachmentCursor) : attachmentCursor := if attached c && ac_receiveOutput c then publish_one e c else c.

Lemma publish_fold e l : ∀ f ev, NoDup l.*1 → (∀ id c, (id, c) ∈ l → fo_attachments f !! id = Some c) → let '(f', _) := foldl (publish_step e) (f, ev) l in
  fo_ring f' = fo_ring f ∧ fo_ringEnd f' = fo_ringEnd f ∧ fo_lastLease f' = fo_lastLease f ∧
  (∀ id, fo_attachments f' !! id = match fo_attachments f !! id with Some c => Some (if existsb (String.eqb id) l.*1 then published e c else c) | None => None end) ∧
  fo_tokens f ⊆ fo_tokens f' ∧ (∀ id c, (id, c) ∈ l → attached c = true → ac_receiveOutput c = true → ac_lease c ∈ fo_tokens f') ∧ (∀ t, t ∈ fo_tokens f' → t ∈ fo_tokens f ∨ ∃ id c, (id, c) ∈ l ∧ ac_lease c = t).
Proof.
  induction l as [|[id0 c0] l IH]; intros f ev Hnd Hl.
  { simpl. split_and!; try done; [intros id; by destruct (fo_attachments f !! id)|intros id c Hc; by apply elem_of_nil in Hc|by left]. }
  cbn [foldl]. rewrite fmap_cons in Hnd. apply NoDup_cons in Hnd as [Hn Hnd]. cbn [fst] in Hn. assert (H0 : fo_attachments f !! id0 = Some c0) by (apply Hl; left).
  assert (Hne : ∀ id c, (id, c) ∈ l → id ≠ id0) by (intros id c Hin ->; apply Hn, list_elem_of_fmap; by exists (id0, c)).
  assert (Hstep : ∃ f1 ev1, publish_step e (f, ev) (id0, c0) = (f1, ev1) ∧ fo_ring f1 = fo_ring f ∧ fo_ringEnd f1 = fo_ringEnd f ∧ fo_lastLease f1 = fo_lastLease f ∧
    fo_attachments f1 = <[id0 := published e c0]> (fo_attachments f) ∧ fo_tokens f ⊆ fo_tokens f1 ∧ (attached c0 = true → ac_receiveOutput c0 = true → ac_lease c0 ∈ fo_tokens f1) ∧ (∀ t, t ∈ fo_tokens f1 → t ∈ fo_tokens f ∨ t = ac_lease c0)).
  { unfold publish_step, published. destruct (attached c0) eqn:Ha, (ac_receiveOutput c0) eqn:Hr; simpl; try (eexists _, _; split; [done|]; split_and!; try done; [by rewrite insert_id|by left]).
    destruct (attached (publish_one e c0)); eexists _, _; (split; [done|]); simpl; split_and!; try done; set_solver. }
  destruct Hstep as (f1 & ev1 & -> & Hring & Hend & Hlast & Hatt & Htok & Htok0 & Htok1). specialize (IH f1 ev1 Hnd).
  assert (Hl1 : ∀ id c, (id, c) ∈ l → fo_attachments f1 !! id = Some c) by (intros id c Hin; rewrite Hatt, lookup_insert_ne by (symmetry; by eapply Hne); apply Hl; by right).
  specialize (IH Hl1). destruct (foldl (publish_step e) (f1, ev1) l) as [f2 ev2]. destruct IH as (I1 & I2 & I3 & I4 & I5 & I6 & I7). rewrite fmap_cons. split_and!; try congruence.
  - intros id. rewrite I4, Hatt. cbn [existsb fst]. destruct (String.eqb_spec id id0) as [->|Hid]; [|by rewrite lookup_insert_ne]. rewrite lookup_insert_eq, H0. simpl. f_equal. destruct (existsb (String.eqb id0) l.*1) eqn:Hx; [|done].
    apply existsb_exists in Hx as (y & Hy & Heq). apply String.eqb_eq in Heq as <-. apply list_elem_of_In in Hy. done.
  - set_solver.
  - intros id c. rewrite elem_of_cons. intros [[= -> ->]|Hin] Ha Hr; [apply I5; by apply Htok0|by eapply I6].
  - intros t Ht. destruct (I7 t Ht) as [Ht1|(id & c & Hin & <-)]; [destruct (Htok1 t Ht1) as [?| ->]; [by left|right; exists id0, c0; split; [left|done]]|right; exists id, c; split; [by right|done]].
Qed.

Lemma publish_one_same e c : ac_lease (publish_one e c) = ac_lease c ∧ ac_receiveOutput (publish_one e c) = ac_receiveOutput c ∧ ac_maxBytes (publish_one e c) = ac_maxBytes c.
Proof. unfold publish_one. destruct (_ <? _)%Z; [by destruct (negb _)|done]. Qed.

Lemma published_same e c : ac_lease (published e c) = ac_lease c ∧ ac_receiveOutput (published e c) = ac_receiveOutput c ∧ ac_maxBytes (published e c) = ac_maxBytes c.
Proof. unfold published. destruct (_ && _); [apply publish_one_same|done]. Qed.

Lemma publish_one_ok ring c e : cursor_ok ring c → attached c = true → ac_receiveOutput c = true → Z.of_nat (w_len (ev_Data e)) = (ev_EndSequence e - ev_StartSequence e)%Z → (ac_hasCursor c = true → ac_enqueuedEnd c = ev_StartSequence e) →
  (first ≤ ev_StartSequence e)%Z → mark (ev_EndSequence e) → (ev_EndSequence e ≤ latest)%Z → (∀ n, (ev_StartSequence e ≤ n < ev_EndSequence e)%Z → held_by ring n) → attached (publish_one e c) = true →
  cursor_ok ring (publish_one e c) ∧ ac_hasCursor (publish_one e c) = true ∧ ac_enqueuedEnd (publish_one e c) = ev_EndSequence e ∧
  (ac_lagged (publish_one e c) = true ∨ (ac_lagged (publish_one e c) = ac_lagged c ∧ ac_cursor (publish_one e c) = if ac_hasCursor c then ac_cursor c else ev_StartSequence e)).
Proof.
  intros Hok Ha Hr Hlen Hend Hf Hmk Hle Hheld Ha'. pose proof Hok as [Hm Hq _ _ _]. unfold publish_one in *. rewrite (room_left c Hm Hq) in *. destruct (Z.ltb_spec (ac_maxBytes c - ac_queuedBytes c) (Z.of_nat (w_len (ev_Data e)))) as [Hlt|Hge].
  - destruct (ac_backpressure c); simpl in *; [done|]. split_and!; try done; try (by left). split; simpl; try done; try lia; try (by rewrite Hr). intros _ _. split_and!; try done; try lia.
  - split_and!; try done; try (by right). by apply queue_more_ok; try done; lia.
Qed.

Lemma PublishOwned_ok m f prod L e m' f' r : PublishOwned m f e = (m', f', r) → fan_ok m f → heap_ok m prod (fo_ring f ++ L) → e ∈ L → ring_event base output chunks m e → (ev_EndSequence e ≤ UInt64.max_value)%Z → (0 ≤ base)%Z → (first ≤ ev_StartSequence e)%Z → ev_EndSequence e = latest →
  (∀ id c, fo_attachments f !! id = Some c → attached c = true → ac_receiveOutput c = true → ac_hasCursor c = true → ac_enqueuedEnd c = ev_StartSequence e) →
  (∃ evictions, r = inr evictions) ∧ kept_ok m prod L m' f' ∧ fo_attachments f' = published e <$> fo_attachments f ∧ fo_lastLease f' = fo_lastLease f ∧ fo_tokens f ⊆ fo_tokens f' ∧
  (∀ id c, fo_attachments f !! id = Some c → attached c = true → ac_receiveOutput c = true → ac_lease c ∈ fo_tokens f') ∧ (∀ x, x ∈ fo_ring f' → x ∈ fo_ring f ∨ x = e).
Proof.
  intros Hp Hok Hh HeL Hev Hmax Hb0 Hf Hlat Hstep. unfold PublishOwned in Hp. destruct Hev as [Hch Hrd]. pose proof Hrd as ([Hs0 Hs] & _ & Hlen & _). pose proof Hch as (ch & Hcin & _ & Hse & Hce).
  assert (Hlz : Z.of_nat (w_len (ev_Data e)) = (ev_EndSequence e - ev_StartSequence e)%Z) by (rewrite Hlen; lia).
  assert (Hv : validOutputEvent e = true).
  { unfold validOutputEvent. rewrite (UInt64.uint64_wrap_id (ev_EndSequence e - ev_StartSequence e)), Hlz, Z.eqb_refl by (unfold UInt64.in_range; lia). rewrite (proj2 (Z.leb_le _ _)) by lia. destruct (Nat.eqb_spec (w_len (ev_Data e)) 0); [lia|done]. }
  rewrite Hv in Hp. simpl in Hp. assert (Hx : existsb (λ p : string * attachmentCursor, out_of_step e p.2) (range 62 (fo_attachments f)) = false).
  { apply not_true_is_false. rewrite existsb_exists. intros ([id c] & Hin & Ho). apply list_elem_of_In, elem_of_range in Hin. unfold out_of_step in Ho. simpl in Ho. rewrite !andb_true_iff in Ho. destruct Ho as [[[? ?] ?] Ho]. rewrite (Hstep id c) in Ho by done. by rewrite Z.eqb_refl in Ho. }
  rewrite Hx in Hp. destruct (insertEventLocked m f e) as [m1 f1] eqn:Hi. destruct (insert_ok _ _ _ _ _ _ _ Hi Hok Hh HeL (conj Hch Hrd)) as ([Hok1 Hh1 Hb1] & (Hl1 & Ha1 & _ & _ & Ht1) & Hheld & Hin1).
  pose proof (publish_fold e (range 63 (fo_attachments f1)) f1 []) as Hfold. specialize (Hfold ltac:(rewrite range_perm; apply NoDup_fst_map_to_list) ltac:(intros id c Hin; by apply elem_of_range in Hin)).
  destruct (foldl (publish_step e) (f1, []) (range 63 (fo_attachments f1))) as [f2 ev2]. destruct Hfold as (F1 & F2 & F3 & F4 & F5 & F6 & _). destruct (compactLocked m1 f2) as [m3 f3] eqn:Hc. injection Hp as <- <- <-.
  assert (Hatt : fo_attachments f2 = published e <$> fo_attachments f).
  { apply map_eq. intros id. rewrite F4, lookup_fmap, Ha1. destruct (fo_attachments f !! id) as [c|] eqn:Hid; [|done]. simpl. f_equal. replace (existsb (String.eqb id) _) with true; [done|]. symmetry. apply existsb_exists. exists id. split; [|apply String.eqb_refl].
    apply list_elem_of_In, list_elem_of_fmap. exists (id, c). split; [done|]. apply elem_of_range. congruence. }
  assert (Hok2 : fan_ok m1 f2).
  { destruct Hok1 as [G1 G2 G3 G4 G5]. split; rewrite ?F1, ?F2, ?F3, ?Hatt; try done.
    - intros id c'. rewrite lookup_fmap_Some. intros (c & <- & Hid) Ha'. assert (Hid1 : fo_attachments f1 !! id = Some c) by congruence. unfold published in *. destruct (attached c) eqn:Ha; simpl in *; [|congruence].
      specialize (G2 id c Hid1 Ha). destruct (ac_receiveOutput c) eqn:Hr; [|done]. apply publish_one_ok; try done; [by intros; eapply Hstep|right; by exists ch|lia|]. intros n Hn. apply Hheld. by right.
    - intros id c'. rewrite lookup_fmap_Some. intros (c & <- & Hid). destruct (published_same e c) as (-> & _). apply (G3 id). congruence.
    - intros id id' c1 c2. rewrite !lookup_fmap_Some. intros (x1 & <- & H1) (x2 & <- & H2). destruct (published_same e x1) as (-> & _), (published_same e x2) as (-> & _). apply G4; congruence. }
  rewrite <-F1 in Hh1. destruct (compact_ok _ _ _ _ _ _ Hc Hok2 Hh1) as (Hok3 & Hh3 & Hb3 & (Hl3 & Ha3 & _ & _ & Ht3) & Hin3). split_and!.
  - by eexists.
  - split; [done|done|congruence].
  - congruence.
  - congruence.
  - rewrite Ht3, <-Ht1. done.
  - intros id c Hid Ha Hr. rewrite Ht3. eapply (F6 id); try done. apply elem_of_range. congruence.
  - intros x Hx3%Hin3. rewrite F1 in Hx3. by apply Hin1.
Qed.

(** ** Joining and leaving *)

Lemma compact_kept m f prod L m' f' : compactLocked m f = (m', f') → fan_ok m f → heap_ok m prod (fo_ring f ++ L) → kept_ok m prod L m' f' ∧ same_viewers f f' ∧ ∀ x, x ∈ fo_ring f' → x ∈ fo_ring f.
Proof. intros Hc Hok Hh. destruct (compact_ok _ _ _ _ _ _ Hc Hok Hh) as (? & ? & ? & ? & ?). split; [by split|done]. Qed.

(** What a new viewer starts with. *)
Lemma fresh_cursor_ok ring lease receive pace now maxBytes : (0 < maxBytes ≤ UInt64.max_value)%Z → cursor_ok ring (mkAC lease Attached receive pace false false now maxBytes 0 0 0 0 false).
Proof. intros Hm. by split; simpl; try done; try lia. Qed.

Lemma attach_ok m f id maxBytes receive pace now f' r : attach f id maxBytes receive pace now = (f', r) → fan_ok m f → (0 ≤ maxBytes ≤ UInt64.max_value)%Z →
  fan_ok m f' ∧ fo_ring f' = fo_ring f ∧ fo_tokens f' = fo_tokens f ∧
  match r with
  | Some _ => f' = f
  | None => (∀ c, fo_attachments f !! id = Some c → attached c = false) ∧ (0 < maxBytes)%Z ∧ fo_lastLease f' = (fo_lastLease f + 1)%Z ∧
      fo_attachments f' = <[id := mkAC (fo_lastLease f + 1) Attached receive pace false false now maxBytes 0 0 0 0 false]> (fo_attachments f)
  end.
Proof.
  unfold attach. intros Ha Hok Hm. destruct (String.eqb id "" || (maxBytes =? 0)%Z) eqn:Hz; [by injection Ha as <- <-|]. apply orb_false_iff in Hz as [_ Hz]. apply Z.eqb_neq in Hz.
  destruct (match fo_attachments f !! id with Some c => attached c | None => false end) eqn:Hex; [by injection Ha as <- <-|]. destruct (Z.eqb_spec (fo_lastLease f) UInt64.max_value); [by injection Ha as <- <-|]. injection Ha as <- <-.
  destruct Hok as [H1 H2 H3 H4 H5]. split_and!; try done; try lia; [|intros c Hc; by rewrite Hc in Hex]. split; simpl; try done; try lia.
  - intros id1 c1. rewrite lookup_insert_Some. intros [[<- <-]|[Hne ?]]; [intros _; apply fresh_cursor_ok; lia|by eapply H2].
  - intros id1 c1. rewrite lookup_insert_Some. intros [[<- <-]|[Hne Hc]]; [simpl; lia|]. apply H3 in Hc. lia.
  - intros id1 id2 c1 c2. rewrite !lookup_insert_Some. intros [[<- <-]|[Hne1 Hc1]] [[<- <-]|[Hne2 Hc2]]; simpl; try done; [apply H3 in Hc2; lia|apply H3 in Hc1; lia|by eapply H4].
Qed.

Lemma fan_ok_delete m f id t : fan_ok m f → fan_ok m (set_attachments (notify (set_active f (fo_active f ∖ {[id]})) t) (delete id (fo_attachments f))).
Proof.
  intros [H1 H2 H3 H4 H5]. split; simpl; try done.
  - intros id1 c1 [_ Hc]%lookup_delete_Some. by eapply H2.
  - intros id1 c1 [_ Hc]%lookup_delete_Some. by eapply H3.
  - intros id1 id2 c1 c2 [_ Hc]%lookup_delete_Some [_ Hc']%lookup_delete_Some. by eapply H4.
Qed.

Lemma Detach_kept m f prod L id m' f' r : Detach m f id = (m', f', r) → fan_ok m f → heap_ok m prod (fo_ring f ++ L) →
  kept_ok m prod L m' f' ∧ fo_lastLease f' = fo_lastLease f ∧ (∀ x, x ∈ fo_ring f' → x ∈ fo_ring f) ∧ fo_tokens f ⊆ fo_tokens f' ∧
  match r with
  | Some _ => f' = f
  | None => ∃ c, fo_attachments f !! id = Some c ∧ fo_attachments f' = delete id (fo_attachments f) ∧ fo_tokens f' = {[ac_lease c]} ∪ fo_tokens f
  end.
Proof.
  unfold Detach. intros Hd Hok Hh. destruct (fo_attachments f !! id) as [c|] eqn:Hid; [|injection Hd as <- <- <-; split_and!; done]. destruct (negb _ && negb _) in Hd; [injection Hd as <- <- <-; split_and!; done|].
  destruct (compactLocked _ _) as [m1 f1] eqn:Hc in Hd. injection Hd as <- <- <-. destruct (compact_kept _ _ prod L _ _ Hc (fan_ok_delete _ _ id (ac_lease c) Hok) Hh) as ([? ? ?] & (Hl & Ha & _ & _ & Ht) & Hin). simpl in *.
  split_and!; try done; [rewrite Ht; set_solver|]. by exists c.
Qed.

(** Pacing does not touch what is queued. *)
Lemma cursor_ok_pace ring c pace owner at_ : cursor_ok ring c → cursor_ok ring (with_pace c pace owner at_).
Proof. intros [? ? ? ? ?]. by split. Qed.

Lemma set_owner_ok m f id : fan_ok m f → fan_ok m (set_owner f id).
Proof. intros Hok. unfold set_owner. destruct (fo_attachments f !! id) as [c|] eqn:Hc; [|done]. eapply fan_ok_put; [done|done|done|]. intros Ha. apply cursor_ok_pace. by eapply fk_cursor. Qed.

Lemma SetController_ok m f id now : fan_ok m f → fan_ok m (SetController f id now).
Proof.
  intros Hok. unfold SetController. destruct (match fo_attachments f !! id with Some c => ac_backpressure c | None => false end); [done|]. set (f1 := set_attachments f _).
  assert (Hok1 : fan_ok m f1).
  { destruct Hok as [H1 H2 H3 H4 H5]. split; simpl; try done.
    - intros id1 c1. rewrite lookup_fmap_Some. intros (c & <- & Hc) Ha. apply cursor_ok_pace. by eapply H2.
    - intros id1 c1. rewrite lookup_fmap_Some. intros (c & <- & Hc). exact (H3 _ _ Hc).
    - intros id1 id2 c1 c2. rewrite !lookup_fmap_Some. intros (c & <- & Hc) (c' & <- & Hc'). exact (H4 _ _ _ _ Hc Hc'). }
  assert (Hroom : ∀ g, fan_ok m g → fan_ok m (notify_room g)) by (intros g [? ? ? ? ?]; by split). apply Hroom. destruct (fo_attachments f !! id) as [c|] eqn:Hc; [|done]. destruct (attached c && ac_owner c) eqn:Ha; [|done].
  apply andb_true_iff in Ha as [Ha _]. eapply (fan_ok_put m f1 id); [done|unfold f1; simpl; rewrite lookup_fmap, Hc; done|done|]. intros _. apply cursor_ok_pace. exact (fk_cursor _ _ Hok _ _ Hc Ha).
Qed.

(** A viewer that takes a screen has nothing queued before it. *)
Lemma skipped_ok ring c n : cursor_ok ring c → mark n → (first ≤ n ≤ latest)%Z → cursor_ok ring (queue c n n true 0).
Proof. intros [? ? ? ? ?] Hm Hn. split; simpl; try done; try lia. intros _ _. split_and!; try done; try lia. Qed.

Lemma SkipTo_ok m f prod L id m' f' r : SkipTo m f id latest = (m', f', r) → fan_ok m f → heap_ok m prod (fo_ring f ++ L) → (0 ≤ first ≤ latest)%Z → (latest ≤ UInt64.max_value)%Z →
  (∀ c, fo_attachments f !! id = Some c → attached c = true → ac_receiveOutput c = true → ac_hasCursor c = true → ac_enqueuedEnd c = latest) →
  kept_ok m prod L m' f' ∧ fo_lastLease f' = fo_lastLease f ∧ (∀ x, x ∈ fo_ring f' → x ∈ fo_ring f) ∧ fo_tokens f' = fo_tokens f ∧
  match r with
  | Some e => f' = f ∧ e = ErrAttachmentUnknown
  | None => ∃ c, fo_attachments f !! id = Some c ∧ attached c = true ∧ fo_attachments f' = <[id := queue c latest latest true 0]> (fo_attachments f)
  end.
Proof.
  unfold SkipTo. intros Hs Hok Hh Hf Hl Hend. destruct (fo_attachments f !! id) as [c|] eqn:Hid; [|injection Hs as <- <- <-; split_and!; done]. destruct (attached c) eqn:Ha; simpl in Hs; [|injection Hs as <- <- <-; split_and!; done].
  pose proof (fk_cursor _ _ Hok _ _ Hid Ha) as Hco. assert (Hok1 : fan_ok m (put_cursor f id (queue c latest latest true 0))).
  { eapply fan_ok_put; [done|done|done|]. intros _. apply skipped_ok; [done|apply latest_mark|lia]. }
  destruct (ac_receiveOutput c) eqn:Hr; simpl in Hs.
  - assert (Hskip : ac_hasCursor c && ((latest <? ac_cursor c)%Z || (ac_enqueuedEnd c <? latest)%Z) = false).
    { destruct (ac_hasCursor c) eqn:Hhc; [|done]. rewrite (Hend c) by done. destruct (co_receives _ _ Hco Hhc Hr) as (? & ? & _). rewrite (proj2 (Z.ltb_ge _ _)) by lia. by rewrite Z.ltb_irrefl. }
    rewrite Hskip in Hs. assert (He : (if ac_hasCursor c then ac_enqueuedEnd c else latest) = latest) by (destruct (ac_hasCursor c) eqn:Hhc; [by apply Hend|done]). rewrite He, Z.sub_diag in Hs. change (UInt64.wrap 0) with 0%Z in Hs.
    destruct (ac_hasCursor c); [destruct (compactAfterAdvanceLocked _ _ _) as [m1 f1] eqn:Hc; apply (advance_compact_ok _ _ prod L) in Hc as ([? ? ?] & (Hla & Ha1 & _ & _ & Ht) & Hin)|
      destruct (compactLocked _ _) as [m1 f1] eqn:Hc; apply (compact_kept _ _ prod L) in Hc as ([? ? ?] & (Hla & Ha1 & _ & _ & Ht) & Hin)]; try done; injection Hs as <- <- <-; simpl in *; (split_and!; try done; by exists c).
  - destruct (compactLocked _ _) as [m1 f1] eqn:Hc. apply (compact_kept _ _ prod L) in Hc as ([? ? ?] & (Hla & Ha1 & _ & _ & Ht) & Hin); try done; injection Hs as <- <- <-; simpl in *; (split_and!; try done; by exists c).
Qed.

Lemma valid_event m e : reads m base output e → (ev_StartSequence e < ev_EndSequence e)%Z → (0 ≤ base)%Z → (ev_EndSequence e ≤ UInt64.max_value)%Z → validOutputEvent e = true ∧ Z.of_nat (w_len (ev_Data e)) = (ev_EndSequence e - ev_StartSequence e)%Z.
Proof.
  intros ([? ?] & _ & Hlen & _) Hlt Hb Hm. assert (Hlz : Z.of_nat (w_len (ev_Data e)) = (ev_EndSequence e - ev_StartSequence e)%Z) by (rewrite Hlen; lia). split; [|done].
  unfold validOutputEvent. rewrite UInt64.uint64_wrap_id, Hlz, Z.eqb_refl by (unfold UInt64.in_range; lia). rewrite (proj2 (Z.leb_le _ _)) by lia. destruct (Nat.eqb_spec (w_len (ev_Data e)) 0); [lia|done].
Qed.

(** An event of the replay of a new viewer. *)
Lemma EnqueueOwned_ok m f prod L id c e m' f' r : EnqueueOwned m f id e = (m', f', r) → fan_ok m f → heap_ok m prod (fo_ring f ++ L) → e ∈ L → ring_event base output chunks m e → (ev_EndSequence e ≤ UInt64.max_value)%Z → (0 ≤ base)%Z →
  (first ≤ ev_StartSequence e)%Z → (ev_EndSequence e ≤ latest)%Z → fo_attachments f !! id = Some c → attached c = true → ac_receiveOutput c = true → (ac_hasCursor c = true → ac_enqueuedEnd c = ev_StartSequence e) →
  (ev_EndSequence e - (if ac_hasCursor c then ac_cursor c else ev_StartSequence e) ≤ ac_maxBytes c)%Z →
  r = inr None ∧ kept_ok m prod L m' f' ∧ fo_lastLease f' = fo_lastLease f ∧ (∀ x, x ∈ fo_ring f' → x ∈ fo_ring f ∨ x = e) ∧ fo_tokens f' = {[ac_lease c]} ∪ fo_tokens f ∧
  ∃ q, fo_attachments f' = <[id := queue c (if ac_hasCursor c then ac_cursor c else ev_StartSequence e) (ev_EndSequence e) true q]> (fo_attachments f).
Proof.
  unfold EnqueueOwned. intros He Hok Hh HeL Hev Hmax Hb Hf Hl Hid Ha Hr Hend Hroom. pose proof Hev as [(ch & Hcin & _ & Hse & Hce) Hrd]. destruct (valid_event m e Hrd ltac:(lia) Hb Hmax) as [Hv Hlen]. rewrite Hv, Hid in He. simpl in He.
  assert (Hst : bool_decide (ac_state c = Evicted) = false) by (apply bool_decide_eq_false_2; apply bool_decide_eq_true_1 in Ha; congruence). rewrite Hst, Ha in He. simpl in He.
  pose proof (fk_cursor _ _ Hok _ _ Hid Ha) as Hco. assert (Hstep : ac_hasCursor c && negb (ac_enqueuedEnd c =? ev_StartSequence e)%Z = false) by (destruct (ac_hasCursor c); [rewrite (Hend eq_refl), Z.eqb_refl|]; done).
  rewrite Hstep in He. pose proof Hco as [Hm Hq Hn Hrc _]. rewrite (room_left c Hm Hq) in He. assert (Hfit : (ac_maxBytes c - ac_queuedBytes c >= Z.of_nat (w_len (ev_Data e)))%Z).
  { destruct (ac_hasCursor c) eqn:Hhc; [destruct (Hrc eq_refl Hr) as (_ & _ & ? & _); rewrite (Hend eq_refl) in *|rewrite Hn by done]; lia. }
  rewrite (proj2 (Z.ltb_ge _ _)) in He by lia. destruct (insertEventLocked m f e) as [m1 f1] eqn:Hi. destruct (insert_ok _ _ _ _ _ _ _ Hi Hok Hh HeL Hev) as ([Hok1 Hh1 Hb1] & (Hl1 & Ha1 & _ & _ & Ht1) & Hheld & Hin1). injection He as <- <- <-. split_and!; try done; simpl.
  - split; [|done|done]. assert (Hput : fan_ok m1 (put_cursor f1 id (queue c (if ac_hasCursor c then ac_cursor c else ev_StartSequence e) (ev_EndSequence e) true (UInt64.wrap (ac_queuedBytes c + Z.of_nat (w_len (ev_Data e))))))).
    { eapply fan_ok_put; [done|by rewrite Ha1|done|]. intros _. apply queue_more_ok; try done; [by eapply fk_cursor; [| rewrite Ha1|]|right; by exists ch|]. intros n Hn'. apply Hheld. by right. }
    destruct Hput as [? ? ? ? ?]. by split.
  - by rewrite Ht1.
  - eexists. by rewrite Ha1.
Qed.

(** ** Reading *)

(** What a reader may do to its viewer: the cursor moves on within the queue, and an answer that was due is given. *)
Record moved (c c' : attachmentCursor) : Prop := {
  mv_lease : ac_lease c' = ac_lease c;
  mv_state : ac_state c' = ac_state c;
  mv_receive : ac_receiveOutput c' = ac_receiveOutput c;
  mv_max : ac_maxBytes c' = ac_maxBytes c;
  mv_has : ac_hasCursor c' = ac_hasCursor c;
  mv_end : ac_enqueuedEnd c' = ac_enqueuedEnd c;
  mv_lagged : ac_lagged c' = true → ac_lagged c = true;
  mv_cursor : (ac_cursor c ≤ ac_cursor c')%Z;
}.

Definition moves (f f' : Fanout) (id : string) : Prop := fo_attachments f' = fo_attachments f ∨ ∃ c c', fo_attachments f !! id = Some c ∧ fo_attachments f' = <[id := c']> (fo_attachments f) ∧ moved c c'.

Definition turn_refs (t : Turn) : list Event := match t with Gives e => [e] | _ => [] end.

(** What a turn of a reader answers; [fits] are the viewers it is for. *)
Definition turn_ok (m' : Heap) (f f' : Fanout) (id : string) (fits : attachmentCursor → Prop) (t : Turn) : Prop :=
  match t with
  | Fails err => err ≠ ErrOutputOrder ∧ (f' = f ∨ err = ErrAttachmentLagged) ∧ ∀ c, fo_attachments f !! id = Some c → attached c = true → fits c → ac_lagged c = true ∧ err = ErrAttachmentLagged
  | Gives e => ∃ c c', fo_attachments f !! id = Some c ∧ fo_attachments f' !! id = Some c' ∧ attached c = true ∧ fits c ∧ ac_lagged c = false ∧ ac_hasCursor c = true ∧ ac_receiveOutput c = true ∧
      (ac_cursor c ≤ ev_StartSequence e < ev_EndSequence e)%Z ∧ (ev_EndSequence e ≤ ac_enqueuedEnd c)%Z ∧ (ac_cursor c' ≤ ev_EndSequence e)%Z ∧ reads m' base output e
  | Waits l => ∃ c c', fo_attachments f !! id = Some c ∧ fo_attachments f' !! id = Some c' ∧ attached c = true ∧ fits c ∧ ac_lagged c = false ∧ l = ac_lease c ∧ (ac_hasCursor c' = true → (ac_enqueuedEnd c' ≤ ac_cursor c')%Z)
  end.

(** Without an event the cursor goes no further than the reader says. *)
Definition turn_still (f f' : Fanout) (id : string) (from : Z) (t : Turn) : Prop :=
  match t with Gives _ => True | _ => ∀ c c', fo_attachments f !! id = Some c → fo_attachments f' !! id = Some c' → (ac_cursor c' ≤ Z.max (ac_cursor c) from)%Z end.

Record read_ok (m : Heap) (f : Fanout) (prod : list nat) (L : list Event) (id : string) (from : Z) (fits : attachmentCursor → Prop) (m' : Heap) (f' : Fanout) (t : Turn) : Prop := {
  ra_fan : fan_ok m' f';
  ra_heap : heap_ok m' prod (fo_ring f' ++ turn_refs t ++ L);
  ra_grows : grows m m';
  ra_last : fo_lastLease f' = fo_lastLease f;
  ra_tokens : fo_tokens f' = fo_tokens f;
  ra_ring : ∀ x, x ∈ fo_ring f' → x ∈ fo_ring f;
  ra_moves : moves f f' id;
  ra_turn : turn_ok m' f f' id fits t;
  ra_still : turn_still f f' id from t;
}.

Lemma still_same f id from t : turn_still f f id from t.
Proof. assert (Hs : ∀ c c', fo_attachments f !! id = Some c → fo_attachments f !! id = Some c' → (ac_cursor c' ≤ Z.max (ac_cursor c) from)%Z) by (intros c c' Hc Hc'; rewrite Hc in Hc'; injection Hc' as <-; lia). by destruct t. Qed.

Lemma reading_inr f id c : reading f id = inr c → fo_attachments f !! id = Some c ∧ attached c = true ∧ ac_lagged c = false.
Proof.
  unfold reading. destruct (fo_attachments f !! id) as [c0|]; [|done]. destruct (bool_decide _); [done|]. destruct (attached c0) eqn:Ha; [|done]. simpl. destruct (ac_lagged c0) eqn:Hl; [done|]. by intros [= <-].
Qed.

(** A reader that is refused. *)
Lemma same_grows m : grows m m.
Proof. by apply grows_same. Qed.

Lemma refused_ok m f prod L id from fits err : reading f id = inl err → fan_ok m f → heap_ok m prod (fo_ring f ++ L) → read_ok m f prod L id from fits m (unlag f id err) (Fails err).
Proof.
  unfold reading, unlag. intros Hr Hok Hh. destruct (fo_attachments f !! id) as [c|] eqn:Hid; [|injection Hr as <-; split; try done; [apply same_grows|by left|split_and!; try done; [by left|congruence]|apply still_same]].
  destruct (bool_decide (ac_state c = Evicted)) eqn:He.
  { injection Hr as <-. split; try done; [apply same_grows|by left| |apply still_same]. split_and!; try done; [by left|]. intros c0 Hc Ha. rewrite Hid in Hc. injection Hc as <-. apply bool_decide_eq_true_1 in He. apply bool_decide_eq_true_1 in Ha. congruence. }
  destruct (attached c) eqn:Ha; simpl in Hr; [|injection Hr as <-; split; try done; [apply same_grows|by left|split_and!; try done; [by left|intros c0 Hc Ha0; congruence]|apply still_same]]. destruct (ac_lagged c) eqn:Hl; [|done]. injection Hr as <-.
  assert (Hm : moved c (with_lagged c false)) by (split; try done; simpl; lia). assert (Hok1 : fan_ok m (put_cursor f id (with_lagged c false))).
  { eapply fan_ok_put; [done|done|done|]. intros _. destruct (fk_cursor _ _ Hok _ _ Hid Ha) as [? ? ? ? ?]. by split. }
  split; try done; [apply same_grows|by right; exists c, (with_lagged c false)| |intros c0 c1 Hc0; simpl; rewrite lookup_insert_eq, Hid in *; injection Hc0 as <-; intros [= <-]; simpl; lia]. split_and!; try done; [by right|]. intros c0 Hc _ _. rewrite Hid in Hc. by injection Hc as <-.
Qed.

(** The event a reader needs is there. *)
Lemma next_found m f id c : fan_ok m f → fo_attachments f !! id = Some c → attached c = true → ac_hasCursor c = true → (ac_cursor c < ac_enqueuedEnd c)%Z → (0 ≤ first)%Z →
  ac_receiveOutput c = true ∧ ∃ e, eventAtLocked (fo_ring f) (ac_cursor c) = Some e ∧ e ∈ fo_ring f ∧ ring_event base output chunks m e ∧ (ev_StartSequence e ≤ ac_cursor c < ev_EndSequence e)%Z ∧ (ev_EndSequence e ≤ ac_enqueuedEnd c)%Z.
Proof.
  intros Hok Hid Ha Hh Hlt H0. pose proof (fk_cursor _ _ Hok _ _ Hid Ha) as Hco. destruct (ac_receiveOutput c) eqn:Hr; [|destruct (co_control _ _ Hco Hh Hr); lia]. split; [done|].
  destruct (co_receives _ _ Hco Hh Hr) as (? & ? & _ & Hmk & Hheld). destruct (eventAt_found base output first latest chunks Hchunks m _ _ (ac_cursor c) (fk_ring _ _ Hok) ltac:(apply Hheld; lia)) as (e & He & Hin & Hse).
  pose proof (ro_events _ _ _ _ _ _ (fk_ring _ _ Hok) _ Hin) as Hev. exists e. split_and!; try done; try lia. eapply ends_before_mark; [done|exact Hse| |done]. lia.
Qed.

Lemma rest_of_part m e s : reads m base output e → (ev_StartSequence e ≤ s ≤ ev_EndSequence e)%Z → rest_of e s = part e s (ev_EndSequence e).
Proof. intros ([? ?] & _ & Hlen & _) Hs. unfold rest_of, part. do 2 f_equal. rewrite Hlen. lia. Qed.

(** A reference to the rest of an event of the ring. *)
Lemma retained_ok m f prod L e s : fan_ok m f → heap_ok m prod (fo_ring f ++ L) → e ∈ fo_ring f → reads m base output e → (ev_StartSequence e ≤ s ≤ ev_EndSequence e)%Z →
  fan_ok (Retain m e) f ∧ heap_ok (Retain m e) prod (fo_ring f ++ rest_of e s :: L) ∧ reads (Retain m e) base output (rest_of e s).
Proof.
  intros [H1 H2 H3 H4 H5] Hh Hin Hr Hs. split_and!.
  - split; try done. eapply ring_ok_buffers; [apply Retain_buffers|done].
  - eapply heap_ok_perm; [apply Permutation_middle|]. apply Retain_ok; [done|apply elem_of_app; by left|done|done].
  - rewrite (rest_of_part m) by done. eapply reads_heap; [apply part_reads; [exact Hr|lia|lia]|]. unfold read. by rewrite Retain_buffers.
Qed.

Lemma fan_ok_room m f : fan_ok m f → fan_ok m (notify_room f).
Proof. intros [? ? ? ? ?]. by split. Qed.

Lemma advanced_moved c to now : (ac_cursor c ≤ to)%Z → moved c (with_pace (queue c to (ac_enqueuedEnd c) (ac_hasCursor c) (UInt64.wrap (ac_queuedBytes c - (to - ac_cursor c)))) (ac_backpressure c) (ac_owner c) now).
Proof. intros. by split. Qed.

Lemma WaitNextOwned_ok m f prod L id from now m' f' t : WaitNextOwned m f id now = (m', f', t) → fan_ok m f → heap_ok m prod (fo_ring f ++ L) → (0 ≤ first)%Z → read_ok m f prod L id from (λ _, True) m' f' t.
Proof.
  unfold WaitNextOwned. intros Hw Hok Hh H0. destruct (reading f id) as [err|c] eqn:Hr; [injection Hw as <- <- <-; by apply refused_ok|]. destruct (reading_inr _ _ _ Hr) as (Hid & Ha & Hl).
  destruct (ac_hasCursor c && (ac_cursor c <? ac_enqueuedEnd c)%Z) eqn:Hp.
  - apply andb_true_iff in Hp as [Hhc Hlt%Z.ltb_lt]. destruct (next_found m f id c Hok Hid Ha Hhc Hlt H0) as (Hro & e & He & Hin & [Hch Hrd] & Hse & Hend). rewrite He in Hw. destruct (advance _ _ _ _ _ _) as [m1 f1] eqn:Had. injection Hw as <- <- <-.
    destruct (retained_ok m f prod L e (ac_cursor c) Hok Hh Hin Hrd ltac:(lia)) as (Hok1 & Hh1 & Hre). destruct (advance_ok _ _ prod (rest_of e (ac_cursor c) :: L) _ _ _ _ _ _ Had Hok1 Hh1 Hid Ha Hhc Hro ltac:(lia)) as ([Hok2 Hh2 Hb2] & Hat & Hla & _ & Htk & Hin2).
    split; try done.
    + by apply fan_ok_room.
    + apply grows_same. simpl. by rewrite Hb2, Retain_buffers.
    + right. eexists c, _. split_and!; [done|exact Hat|apply advanced_moved; lia].
    + simpl. eexists c, _. split_and!; try done; try lia; [by rewrite Hat, lookup_insert_eq|simpl; lia|]. eapply reads_heap; [exact Hre|]. unfold read. by rewrite Hb2.
  - injection Hw as <- <- <-. split; try done; [apply same_grows|by left| |apply still_same]. exists c, c. split_and!; try done. intros Hhc. rewrite Hhc in Hp. simpl in Hp. by apply Z.ltb_ge in Hp.
Qed.

Definition fits_lease (lease : Z) (c : attachmentCursor) : Prop := lease = 0%Z ∨ ac_lease c = lease.

(** Where a reader that asks from a number goes on. *)
Definition asked_from (c : attachmentCursor) (from : Z) : Z := if (ac_cursor c <? from)%Z && (from <=? ac_enqueuedEnd c)%Z then from else ac_cursor c.

Lemma asked_ok m f prod L id c from now m1 f1 : fan_ok m f → heap_ok m prod (fo_ring f ++ L) → fo_attachments f !! id = Some c → attached c = true →
  (if ac_hasCursor c && (ac_cursor c <? from)%Z && (from <=? ac_enqueuedEnd c)%Z then let '(m, f) := advance m f id c from now in (m, notify_room f) else (m, f)) = (m1, f1) →
  kept_ok m prod L m1 f1 ∧ fo_lastLease f1 = fo_lastLease f ∧ fo_tokens f1 = fo_tokens f ∧ (∀ x, x ∈ fo_ring f1 → x ∈ fo_ring f) ∧
  ∃ c1, fo_attachments f1 = <[id := c1]> (fo_attachments f) ∧ moved c c1 ∧ (ac_cursor c1 ≤ Z.max (ac_cursor c) from)%Z ∧ (ac_hasCursor c = true → ac_cursor c1 = asked_from c from).
Proof.
  intros Hok Hh Hid Ha Hadv. assert (Hsame : fo_attachments f = <[id := c]> (fo_attachments f)) by (by rewrite insert_id).
  assert (Hrefl : moved c c) by (split; done || lia). destruct (ac_hasCursor c) eqn:Hhc; simpl in Hadv; [|injection Hadv as <- <-; split_and!; try done; exists c; split_and!; try done; lia]. unfold asked_from.
  destruct (Z.ltb_spec (ac_cursor c) from) as [Hlt|]; simpl in Hadv; [|injection Hadv as <- <-; split_and!; try done; exists c; split_and!; try done; lia]. destruct (Z.leb_spec from (ac_enqueuedEnd c)) as [Hle|]; simpl in Hadv; [|injection Hadv as <- <-; split_and!; try done; exists c; split_and!; try done; lia].
  pose proof (fk_cursor _ _ Hok _ _ Hid Ha) as Hco. destruct (ac_receiveOutput c) eqn:Hro; [|destruct (co_control _ _ Hco Hhc Hro); lia].
  destruct (advance m f id c from now) as [m2 f2] eqn:Had. injection Hadv as <- <-. destruct (advance_ok _ _ prod L _ _ _ _ _ _ Had Hok Hh Hid Ha Hhc Hro ltac:(lia)) as ([Hok2 Hh2 Hb2] & Hat & Hla & _ & Htk & Hin2).
  split_and!; try done; [split; [by apply fan_ok_room|done|done]|]. eexists. split_and!; [exact Hat|apply advanced_moved; lia|simpl; lia|done].
Qed.

Lemma waitNextFromLease_ok m f prod L id from lease now m' f' t : waitNextFromLease m f id from lease now = (m', f', t) → fan_ok m f → heap_ok m prod (fo_ring f ++ L) → (0 ≤ first)%Z →
  read_ok m f prod L id from (fits_lease lease) m' f' t ∧ ∀ e c, t = Gives e → fo_attachments f !! id = Some c → ev_StartSequence e = asked_from c from.
Proof.
  unfold waitNextFromLease. intros Hw Hok Hh H0. destruct (match fo_attachments f !! id with Some c => _ | None => false end) eqn:Hlease in Hw.
  { injection Hw as <- <- <-. split; [|done]. split; try done; [apply same_grows|by left| |apply still_same]. split_and!; try done; [by left|]. intros c Hc Ha. rewrite Hc in Hlease. apply andb_true_iff in Hlease as [H1%negb_true_iff%Z.eqb_neq H2%negb_true_iff%Z.eqb_neq]. intros [?|?]; congruence. }
  destruct (reading f id) as [err|c] eqn:Hr; [injection Hw as <- <- <-; split; [by apply refused_ok|done]|]. destruct (reading_inr _ _ _ Hr) as (Hid & Ha & Hl).
  assert (Hfit : fits_lease lease c).
  { rewrite Hid in Hlease. unfold fits_lease. destruct (Z.eqb_spec lease 0); [by left|]. right. simpl in Hlease. by apply negb_false_iff, Z.eqb_eq in Hlease. }
  destruct (if ac_hasCursor c && _ && _ then _ else _) as [m1 f1] eqn:Hadv. destruct (asked_ok m f prod L id c from now m1 f1 Hok Hh Hid Ha Hadv) as ([Hok1 Hh1 Hb1] & Hla & Htk & Hin1 & c1 & Hat & Hmv & Hmx & Hcur).
  assert (Hid1 : fo_attachments f1 !! id = Some c1) by (by rewrite Hat, lookup_insert_eq). rewrite Hid1 in Hw. pose proof Hmv as [M1 M2 M3 M4 M5 M6 M7 M8]. assert (Ha1 : attached c1 = true) by (unfold attached in *; by rewrite M2).
  destruct (ac_hasCursor c1 && (ac_cursor c1 <? ac_enqueuedEnd c1)%Z) eqn:Hp.
  - apply andb_true_iff in Hp as [Hhc Hlt%Z.ltb_lt]. destruct (next_found m1 f1 id c1 Hok1 Hid1 Ha1 Hhc Hlt H0) as (Hro & e & He & Hin & [Hch Hrd] & Hse & Hend). rewrite He in Hw. injection Hw as <- <- <-.
    destruct (retained_ok m1 f1 prod L e (ac_cursor c1) Hok1 Hh1 Hin Hrd ltac:(lia)) as (Hok2 & Hh2 & Hre). split.
    + split; try done; [apply grows_same; by rewrite Retain_buffers|right; by exists c, c1|]. simpl. exists c, c1. split_and!; try done; try lia; [congruence|congruence].
    + intros e' c' [= <-] Hc'. rewrite Hid in Hc'. injection Hc' as <-. simpl. apply Hcur. congruence.
  - injection Hw as <- <- <-. split; [|done]. split; try done; [by apply grows_same|right; by exists c, c1| |intros c0 c2 Hc0 Hc2; rewrite Hid in Hc0; rewrite Hid1 in Hc2; injection Hc0 as <-; injection Hc2 as <-; done]. exists c, c1. split_and!; try done. intros Hhc. rewrite Hhc in Hp. simpl in Hp. by apply Z.ltb_ge in Hp.
Qed.

(** A poll is a turn that does not wait. *)
Definition poll_turn (f : Fanout) (id : string) (r : FanoutError + option Event) : Turn := match r with inl e => Fails e | inr (Some e) => Gives e | inr None => Waits (attachmentLease f id) end.

Lemma fan_ok_grows m m' f prod L : fan_ok m f → heap_ok m prod (fo_ring f ++ L) → grows m m' → fan_ok m' f.
Proof.
  intros [[R1 R2 R3 R4] H2 H3 H4 H5] Hh Hg. split; try done. split; try done. intros e He. destruct (R1 e He) as [? Hr]. split; [done|]. eapply kept_reads; [exact Hh|apply elem_of_app; by left|done|done].
Qed.

Lemma Next_ok m f prod L id from now m' f' r : Next m f id now = (m', f', r) → fan_ok m f → heap_ok m prod (fo_ring f ++ L) → (0 ≤ first)%Z → read_ok m f prod L id from (λ _, True) m' f' (poll_turn f id r).
Proof.
  unfold Next. intros Hw Hok Hh H0. destruct (reading f id) as [err|c] eqn:Hr; [injection Hw as <- <- <-; by apply refused_ok|]. destruct (reading_inr _ _ _ Hr) as (Hid & Ha & Hl).
  destruct (negb (ac_hasCursor c) || (ac_enqueuedEnd c <=? ac_cursor c)%Z) eqn:Hp.
  - injection Hw as <- <- <-. split; try done; [apply same_grows|by left| |apply still_same]. exists c, c. split_and!; try done; [unfold attachmentLease; by rewrite Hid|]. intros Hhc. rewrite Hhc in Hp. simpl in Hp. by apply Z.leb_le in Hp.
  - apply orb_false_iff in Hp as [Hhc%negb_false_iff Hlt%Z.leb_gt]. destruct (next_found m f id c Hok Hid Ha Hhc Hlt H0) as (Hro & e & He & Hin & [Hch Hrd] & Hse & Hend). rewrite He in Hw.
    destruct (clone m _) as [m1 w] eqn:Hc in Hw. destruct (advance _ _ _ _ _ _) as [m2 f2] eqn:Had. injection Hw as <- <- <-. destruct (clone_ok _ _ _ _ _ _ Hc Hh) as (Hh1 & Hun & Hcl & _). pose proof (clone_grows _ _ _ _ Hc) as Hg.
    assert (Hr1 : reads m base output (rest_of e (ac_cursor c))) by (rewrite (rest_of_part m) by (done || lia); apply part_reads; [done|lia|lia]). set (e1 := mkEvent (ev_Channel e) (ac_cursor c) (ev_EndSequence e) w None).
    assert (Hr2 : reads m1 base output e1).
    { destruct Hr1 as (H1 & H2 & Hlen & Hsl). assert (Hwl : w_len w = length (read m (ev_Data (rest_of e (ac_cursor c))))) by (unfold clone in Hc; by injection Hc as <- <-). unfold reads. simpl in *. rewrite Hcl. split_and!; try done; try lia.
      rewrite Hwl, Hsl. unfold slice. rewrite length_take, length_drop. lia. }
    pose proof (unowned_ok _ _ _ e1 Hh1 Hun eq_refl) as Hh1'. assert (Hh2 : heap_ok m1 prod (fo_ring f ++ e1 :: L)) by (eapply heap_ok_perm; [apply Permutation_middle|exact Hh1']). pose proof (fan_ok_grows _ _ _ _ _ Hok Hh Hg) as Hok1.
    destruct (advance_ok _ _ prod (e1 :: L) _ _ _ _ _ _ Had Hok1 Hh2 Hid Ha Hhc Hro ltac:(lia)) as ([Hok2 Hh3 Hb2] & Hat & Hla & _ & Htk & Hin2). split; try done.
    + by apply fan_ok_room.
    + eapply grows_trans; [exact Hg|by apply grows_same].
    + right. eexists c, _. split_and!; [done|exact Hat|apply advanced_moved; lia].
    + simpl. eexists c, _. split_and!; try done; try lia; [by rewrite Hat, lookup_insert_eq|simpl; lia|]. eapply reads_heap; [exact Hr2|]. unfold read. by rewrite Hb2.
Qed.
End spec.

(** ** More output *)

Lemma fan_ok_more base output more first latest latest' chunks chunks' m f : (∀ c, c ∈ chunks → c ∈ chunks') → (latest ≤ latest')%Z → fan_ok base output first latest chunks m f → fan_ok base (output ++ more) first latest' chunks' m f.
Proof.
  intros Hsub Hl [[R1 R2 R3 R4] H2 H3 H4 H5]. split; try done.
  - split; try done. intros e He. destruct (R1 e He) as [(c & ? & ?) ?]. split; [exists c; split; [by apply Hsub|done]|by apply reads_app].
  - intros id c Hid Ha. destruct (H2 id c Hid Ha) as [C1 C2 C3 C4 C5]. split; try done. intros Hh Hr. destruct (C4 Hh Hr) as (? & ? & ? & Hm & ?). split_and!; try done; try lia. destruct Hm as [?|(x & ? & ?)]; [by left|right; exists x; split; [by apply Hsub|done]].
Qed.

Lemma fan_ok_new base output first latest chunks m : fan_ok base output first latest chunks m NewFanout.
Proof. split; simpl; try (intros *; by rewrite lookup_empty); [apply ring_ok_nil|lia]. Qed.

(** ** A browser's cursor keeps the ring *)

Section pins.
Context `{GoRuntime} (m : Heap).

(** One byte of output after the other. *)
Definition byte_event (i : nat) : Event := mkEvent 1 (Z.of_nat i) (Z.of_nat i + 1) (mkWindow 0 i 1) None.

Definition publish_bytes (f : Fanout) (n : nat) : Heap * Fanout := foldl (λ acc i, (PublishOwned acc.1 acc.2 (byte_event i)).1) (m, f) (seq 0 n).

(** A browser that is attached and has taken one screen, at the start of the output. *)
Definition with_browser (bytes now : Z) : Fanout := (SkipTo m (AttachControl NewFanout "b" bytes now).1 "b" 0).1.2.

Lemma range_single site (id : string) (c : attachmentCursor) : range site ({[id := c]} : gmap string attachmentCursor) = [(id, c)].
Proof. apply Permutation_singleton_r. rewrite range_perm. by rewrite map_to_list_singleton. Qed.

Lemma publish_pinned f c n : fo_attachments f = {["b" := c]} → attached c = true → ac_receiveOutput c = false → ac_hasCursor c = true → ac_cursor c = 0%Z → fo_ring f = map byte_event (seq 0 n) → fo_ringEnd f = Z.of_nat n → (Z.of_nat n < UInt64.max_value)%Z →
  ∃ f', (PublishOwned m f (byte_event n)).1 = (m, f') ∧ fo_attachments f' = {["b" := c]} ∧ fo_ring f' = map byte_event (seq 0 (S n)) ∧ fo_ringEnd f' = Z.of_nat (S n).
Proof.
  intros Hat Ha Hr Hh Hc Hring Hend Hn. unfold PublishOwned. assert (Hv : validOutputEvent (byte_event n) = true).
  { unfold validOutputEvent. simpl. rewrite (proj2 (Z.leb_le _ _)) by lia. replace (Z.of_nat n + 1 - Z.of_nat n)%Z with 1%Z by lia. done. }
  rewrite Hv, Hat, range_single. simpl. unfold out_of_step. simpl. rewrite Ha, Hr. simpl. unfold insertEventLocked. rewrite Hring, Hend. simpl. rewrite (proj2 (Z.leb_le _ _)) by lia. simpl. rewrite Hat, range_single. simpl. rewrite Ha, Hr. simpl.
  unfold compactLocked. simpl. rewrite Hat, range_single. simpl. unfold minimum_step. rewrite Ha, Hh, Hc. simpl. destruct n as [|n]; simpl.
  - eexists. split; [done|]. simpl. by rewrite Hat.
  - eexists. split; [done|]. simpl. rewrite Hat. split_and!; [done| |lia]. f_equal. change ([byte_event (S n)]) with (map byte_event [S n]). rewrite <-map_app, <-seq_S. done.
Qed.

(** While a browser is attached that took a screen, the ring of its session keeps every event, though nobody is going to read any of them: the cursor of a viewer that gets no output from the fanout stays where its screen was. *)
Theorem control_pins_ring bytes now n : (0 < bytes)%Z → (Z.of_nat n < UInt64.max_value)%Z → let f := (publish_bytes (with_browser bytes now) n).2 in
  fo_ring f = map byte_event (seq 0 n) ∧ ∃ c, fo_attachments f = {["b" := c]} ∧ ac_receiveOutput c = false ∧ ac_queuedBytes c = 0%Z.
Proof.
  intros Hb Hn f. assert (Hstart : ∃ c, fo_attachments (with_browser bytes now) = {["b" := c]} ∧ attached c = true ∧ ac_receiveOutput c = false ∧ ac_hasCursor c = true ∧ ac_cursor c = 0%Z ∧ ac_queuedBytes c = 0%Z ∧ fo_ring (with_browser bytes now) = [] ∧ fo_ringEnd (with_browser bytes now) = 0%Z).
  { unfold with_browser, AttachControl, attach. simpl. rewrite (proj2 (Z.eqb_neq _ _)) by lia. simpl. rewrite lookup_empty. simpl. unfold SkipTo. simpl. rewrite lookup_insert_eq. simpl. unfold compactLocked. simpl. rewrite insert_insert_eq, insert_empty, range_single. simpl. eexists. split_and!; try done. }
  destruct Hstart as (c & Hat & Ha & Hr & Hh & Hc & Hq & Hring & Hend).
  assert (Hind : ∀ i, (i ≤ n)%nat → ∃ f', publish_bytes (with_browser bytes now) i = (m, f') ∧ fo_attachments f' = {["b" := c]} ∧ fo_ring f' = map byte_event (seq 0 i) ∧ fo_ringEnd f' = Z.of_nat i).
  { induction i as [|i IH]; intros Hi; [by eexists|]. destruct (IH ltac:(lia)) as (f1 & H1 & Hat1 & Hr1 & He1). destruct (publish_pinned f1 c i Hat1 Ha Hr Hh Hc Hr1 He1 ltac:(lia)) as (f2 & H2 & ? & ? & ?). exists f2. split_and!; try done.
    unfold publish_bytes in *. rewrite seq_S, foldl_app, H1. simpl. exact H2. }
  destruct (Hind n (le_n _)) as (f' & Hf & Hat' & Hr' & _). unfold f. rewrite Hf. simpl. split; [done|]. by exists c.
Qed.
End pins.
