(* ===== verification/Attach.v ===== *)
(** * Attaching to a session: src/cli/internal/hostruntime/session, manager_attach.go, attachLocked

    The caller holds the session's lock.  The snapshot of the result is left out; the clock gives the time. *)
From S2P Require Import Prelude GoStd History Fanout HistorySpec.

Definition initialReplayBytes : Z := 65536.

Definition attachmentReplayLimit (attachmentBytes : Z) : Z :=
  let limit := (attachmentBytes / 2)%Z in
  let limit := if (limit =? 0)%Z then 1%Z else limit in
  if (initialReplayBytes <? limit)%Z then initialReplayBytes else limit.

Inductive AttachError := ErrManagerStopped | FanoutErr (e : FanoutError) | HistoryErr (e : HistoryError).

Record AttachResult := mkAttachResult { ar_AttachmentLease : Z; ar_Replay : Replay; ar_FirstAttachment : bool }.

Section attach.
Context `{GoRuntime}.

(** The replay of attachLocked: from the number asked for, or the newest part when that is too long. *)
Definition attach_replay (m : Heap) (h : History) (fromSequence attachmentBytes : Z) : Heap * (HistoryError + Replay) :=
  let replayLimit := attachmentReplayLimit attachmentBytes in
  match ReplayOwned m h fromSequence replayLimit with
  | (m, inl err) => (m, inl err)
  | (m, inr replay) =>
      if (rp_To replay <? rp_Latest replay)%Z then
        let boundary := UInt64.wrap (rp_Latest replay - replayLimit) in
        let boundary := if (boundary <? rp_Earliest replay)%Z then rp_Earliest replay else boundary in
        ReplayOwned (foldl Release m (rp_Events replay)) h boundary replayLimit
      else (m, inr replay)
  end.

(** Attach or AttachBackpressured. *)
Definition enter (f : Fanout) (id : string) (attachmentBytes : Z) (backpressure : bool) (now : Z) : Fanout * option FanoutError :=
  match attach f id attachmentBytes true false now with
  | (f, None) => (if backpressure then set_owner f id else f, None)
  | r => r
  end.

(** The loop over the events of the replay. *)
Fixpoint enqueue_all (m : Heap) (f : Fanout) (id : string) (events : list Event) : Heap * Fanout * option FanoutError :=
  match events with
  | [] => (m, f, None)
  | e :: rest =>
      match EnqueueOwned m f id e with
      | (m, f, inr None) => enqueue_all m f id rest
      | (m, f, inr (Some _)) => (m, f, Some ErrAttachmentEvicted)
      | (m, f, inl err) => (m, f, Some err)
      end
  end.

(** cloneReplay *)
Fixpoint cloneReplay (m : Heap) (events : list Event) : Heap * list Event :=
  match events with
  | [] => (m, [])
  | e :: rest => let '(m, e') := cloneEvent m e in let '(m, rest') := cloneReplay m rest in (m, e' :: rest')
  end.

Definition attachLocked (retiring : bool) (MaxAttachments AttachmentBytes : Z) (m : Heap) (h : History) (f : Fanout) (id : string) (fromSequence : Z) (controlOnly backpressure : bool) (now : Z) :
    Heap * History * Fanout * (AttachError + AttachResult) :=
  if retiring then (m, h, f, inl ErrManagerStopped)
  else
    let firstAttachment := (Count f =? 0)%nat in
    if (MaxAttachments <=? Z.of_nat (Count f))%Z then (m, h, f, inl (FanoutErr ErrResourceLimit))
    else if controlOnly then
      match AttachControl f id AttachmentBytes now with
      | (f, Some err) => (m, h, f, inl (FanoutErr err))
      | (f, None) =>
          match Acknowledge h id (hi_latest h) with
          | (h, Some err) => let '(m, f, _) := Detach m f id in (m, h, f, inl (HistoryErr err))
          | (h, None) => (m, h, f, inr (mkAttachResult (attachmentLease f id) (mkReplay (hi_latest h) (hi_latest h) (hi_earliest h) (hi_latest h) []) firstAttachment))
          end
      end
    else
      match attach_replay m h fromSequence AttachmentBytes with
      | (m, inl err) => (m, h, f, inl (HistoryErr err))
      | (m, inr replay) =>
          match enter f id AttachmentBytes backpressure now with
          | (f, Some err) => (foldl Release m (rp_Events replay), h, f, inl (FanoutErr err))
          | (f, None) =>
              match enqueue_all m f id (rp_Events replay) with
              | (m, f, Some err) => let '(m, f, _) := Detach (foldl Release m (rp_Events replay)) f id in (m, h, f, inl (FanoutErr err))
              | (m, f, None) =>
                  let '(m, events) := cloneReplay m (rp_Events replay) in
                  (foldl Release m (rp_Events replay), h, f,
                    inr (mkAttachResult (attachmentLease f id) (mkReplay (rp_From replay) (rp_To replay) (rp_Earliest replay) (rp_Latest replay) events) firstAttachment))
              end
          end
      end.
End attach.

(** * The replay of a new viewer ends with the session's output *)

(** The events of a replay are parts of those that are kept; one that stops before the end of its event is the last. *)
Definition part_of (l : list Event) (to : Z) (x : Event) : Prop := ∃ e s t, e ∈ l ∧ x = part e s t ∧ (ev_StartSequence e ≤ s < t)%Z ∧ (t ≤ ev_EndSequence e)%Z ∧ (t = ev_EndSequence e ∨ t = to).

Lemma part_of_more e l to x : part_of l to x → part_of (e :: l) to x.
Proof. intros (e' & s & t & ? & ?). exists e', s, t. split; [by right|done]. Qed.

Lemma replay_loop_parts limit from events : ∀ remaining m r m' r', replay_loop limit from events remaining m r = (m', r') → ∀ x, x ∈ rp_Events r' → x ∈ rp_Events r ∨ part_of events (rp_To r') x.
Proof.
  induction events as [|e events IH]; intros remaining m r m' r'; cbn [replay_loop]; [intros [= <- <-]; by left|]. assert (Hmore : ∀ rem m1 r1, replay_loop limit from events rem m1 r1 = (m', r') → ∀ x, x ∈ rp_Events r' → x ∈ rp_Events r1 ∨ part_of (e :: events) (rp_To r') x).
  { intros rem m1 r1 Hl x Hx. destruct (IH _ _ _ _ _ Hl x Hx) as [?|?]; [by left|right; by apply part_of_more]. }
  destruct (ev_EndSequence e <=? from)%Z; [by apply Hmore|]. set (start := Z.max from (ev_StartSequence e)). set (t := if (0 <? limit)%Z && _ then _ else _). destruct (Z.ltb_spec start t) as [Hlt|]; [|by apply Hmore].
  assert (Ht : t = ev_EndSequence e ∨ (0 < limit)%Z ∧ (remaining < ev_EndSequence e - start)%Z ∧ t = (start + remaining)%Z).
  { unfold t. destruct (Z.ltb_spec 0 limit); simpl; [|by left]. destruct (Z.ltb_spec remaining (ev_EndSequence e - start)); [by right|by left]. }
  assert (Hs : (ev_StartSequence e ≤ start)%Z) by (unfold start; lia). clearbody start t.
  assert (Hsnoc : t = ev_EndSequence e → ∀ rem m1, replay_loop limit from events rem m1 (mkReplay (rp_From r) t (rp_Earliest r) (rp_Latest r) (rp_Events r ++ [part e start t])) = (m', r') → ∀ x, x ∈ rp_Events r' → x ∈ rp_Events r ∨ part_of (e :: events) (rp_To r') x).
  { intros Hte rem m1 Hl x Hx. destruct (Hmore _ _ _ Hl x Hx) as [Hin|?]; [|by right]. simpl in Hin. apply elem_of_app in Hin as [?| ->%list_elem_of_singleton]; [by left|]. right. exists e, start, t. split_and!; [left|done|lia|lia|lia|by left]. }
  destruct (Z.ltb_spec 0 limit) as [Hl|Hl]; [|intros Hr; eapply Hsnoc; [lia|exact Hr]]. destruct (Z.eqb_spec (remaining - (t - start)) 0) as [Hz|Hz].
  - intros [= <- <-] x. simpl. rewrite elem_of_app, list_elem_of_singleton. intros [?| ->]; [by left|]. right. exists e, start, t. split_and!; [left|done|lia|lia| |by right]. destruct Ht as [->|(? & ? & ->)]; lia.
  - intros Hr. eapply Hsnoc; [destruct Ht as [?|(? & ? & ->)]; [done|lia]|exact Hr].
Qed.

(** An event that ends one that is kept. *)
Definition ends_live (h : History) (x : Event) : Prop := ∃ e, e ∈ live h ∧ ev_Channel x = ev_Channel e ∧ (ev_StartSequence e ≤ ev_StartSequence x < ev_EndSequence x)%Z ∧ ev_EndSequence x = ev_EndSequence e.

Lemma chain_bound s l e x : chain s l e → x ∈ l → (s ≤ ev_StartSequence x)%Z ∧ (ev_EndSequence x ≤ e)%Z.
Proof.
  revert s. induction l as [|y l IH]; intros s; simpl; [intros _ Hx; by apply elem_of_nil in Hx|]. intros (Hs & Hle & Hc). pose proof (chain_le _ _ _ Hc). rewrite elem_of_cons. intros [->|Hx]; [lia|]. destruct (IH _ Hc Hx). lia.
Qed.

Lemma ReplayOwned_ends base stream m h from limit m' r : history_ok base stream h → ReplayOwned m h from limit = (m', inr r) → rp_To r = hi_latest h → ∀ x, x ∈ rp_Events r → ends_live h x.
Proof.
  intros Hh. unfold ReplayOwned. destruct (_ <? _)%Z; [done|]. destruct (_ <? _)%Z; [done|]. destruct (replay_loop _ _ _ _ _ _) as [m1 r1] eqn:Hl. intros [= <- <-] Hto x Hx.
  destruct (replay_loop_parts _ _ _ _ _ _ _ _ Hl x Hx) as [Hn|(e & s & t & He & -> & Hs & Ht & Hend)]; [by apply elem_of_nil in Hn|]. exists e. destruct (chain_bound _ _ _ _ (hk_chain _ _ _ Hh) He). simpl. split_and!; try done; try lia.
Qed.

Lemma replay_limit_bounds bytes : (0 ≤ bytes)%Z → (0 < attachmentReplayLimit bytes)%Z ∧ ((0 < bytes)%Z → (attachmentReplayLimit bytes ≤ bytes)%Z).
Proof.
  intros Hb. unfold attachmentReplayLimit, initialReplayBytes. assert (Hd : (2 * (bytes / 2) ≤ bytes)%Z) by (apply Z.mul_div_le; lia). assert (Hp : (0 ≤ bytes / 2)%Z) by (apply Z.div_pos; lia).
  set (limit := if (_ =? 0)%Z then _ else _). assert (Hlim : (limit = 1 ∨ limit = bytes / 2 ∧ 0 < limit)%Z) by (unfold limit; destruct (Z.eqb_spec (bytes / 2) 0); [by left|right; lia]).
  clearbody limit. simpl. destruct (Z.ltb_spec 65536 limit); lia.
Qed.

(** What attachLocked replays: from some number that is kept to the end of the output, and no more than the queue holds. *)
Definition replays_tail (base : Z) (stream : list ascii) (m : Heap) (h : History) (bytes : Z) (rp : Replay) : Prop :=
  (hi_earliest h ≤ rp_From rp)%Z ∧ (hi_latest h - rp_From rp ≤ attachmentReplayLimit bytes)%Z ∧ rp_To rp = hi_latest h ∧ rp_Latest rp = hi_latest h ∧ chain (rp_From rp) (rp_Events rp) (hi_latest h) ∧
  ∀ x, x ∈ rp_Events rp → ends_live h x ∧ reads m base stream x.

Lemma attach_replay_ok base stream m h prod held from bytes m' r : all_ok base stream m h prod held → attach_replay m h from bytes = (m', r) → (0 ≤ bytes)%Z → (0 ≤ hi_earliest h)%Z → (hi_latest h ≤ UInt64.max_value)%Z →
  all_ok base stream m' h prod (replay_refs r ++ held) ∧ grows m m' ∧
  match r with inr rp => replays_tail base stream m' h bytes rp | inl _ => (from < hi_earliest h)%Z ∨ (hi_latest h < from)%Z end.
Proof.
  intros Hok Har Hb He Hl. unfold attach_replay in Har. destruct (ReplayOwned m h from _) as [m1 [err|rp]] eqn:Hr; destruct (ReplayOwned_ok _ _ _ _ _ _ _ _ _ _ Hok Hr) as (Hok1 & Hg1 & Hre & Hans).
  { injection Har as <- <-. split_and!; try done. simpl in Hans. destruct Hans as [[? _]|[? _]]; [by left|by right]. }
  pose proof (replay_limit_bounds bytes Hb) as [Hpos _]. destruct Hans as (Hrange & Hf & Hto & Hea & Hla & Hch & _). simpl in *. rewrite Hto, Hla in Har. pose proof (ao_history _ _ _ _ _ _ Hok) as Hhist.
  destruct (Z.ltb_spec (replay_end (attachmentReplayLimit bytes) from (hi_latest h)) (hi_latest h)) as [Hlt|Hge].
  - unfold replay_end in Hlt. rewrite (proj2 (Z.ltb_lt _ _) Hpos) in Hlt. destruct Hok1 as [Hh1 Hheap1 Hr1].
    destruct (releases_ok m1 prod (rp_Events rp) (live h ++ held)) as [Hheap2 Hb2]; [eapply heap_ok_perm; [apply refs_first|done]|]. assert (Hok2 : all_ok base stream (foldl Release m1 (rp_Events rp)) h prod held).
    { split; [done|done|]. intros e Hin. eapply reads_heap; [by apply Hr1|]. unfold read. by rewrite Hb2. }
    rewrite Hea, (UInt64.uint64_wrap_id (hi_latest h - attachmentReplayLimit bytes)) in Har by (unfold UInt64.in_range; lia). set (b := if (_ <? _)%Z then _ else _) in Har.
    assert (Hbd : (hi_earliest h ≤ b ≤ hi_latest h)%Z ∧ (hi_latest h - b ≤ attachmentReplayLimit bytes)%Z) by (unfold b; destruct (Z.ltb_spec (hi_latest h - attachmentReplayLimit bytes) (hi_earliest h)); lia). clearbody b.
    destruct (ReplayOwned_ok _ _ _ _ _ _ _ _ _ _ Hok2 Har) as (Hok3 & Hg3 & Hre3 & Hans3). split_and!; [done|eapply grows_trans; [exact Hg1|]; eapply grows_trans; [by apply grows_same|done]|].
    destruct r as [err|rp3]; [simpl in Hans3; destruct Hans3 as [[? _]|[? _]]; lia|]. destruct Hans3 as (_ & Hf3 & Hto3 & _ & Hla3 & Hch3 & _). simpl in *. unfold replay_end in Hto3. rewrite (proj2 (Z.ltb_lt _ _) Hpos) in Hto3.
    assert (Hto4 : rp_To rp3 = hi_latest h) by lia. rewrite <-Hf3, Hto4 in Hch3. unfold replays_tail. split_and!; try done; try lia. intros x Hx. split; [by eapply ReplayOwned_ends|by apply Hre3].
  - injection Har as <- <-. unfold replay_end in *. rewrite (proj2 (Z.ltb_lt _ _) Hpos) in *. assert (Hto' : rp_To rp = hi_latest h) by lia. rewrite Hto', <-Hf in Hch. split_and!; try done. unfold replays_tail. split_and!; try done; try lia. intros x Hx. split; [by eapply ReplayOwned_ends|by apply Hre].
Qed.
