(* ===== verification/FanoutWorld.v ===== *)
(** * A session's output and its viewers

    The history of one session, among all that share the buffers, and the fanout that its output goes to.  Whoever appends, attaches, detaches or takes a screen holds the session's lock, so these exclude each other;
    readers, any number of them for one viewer, the rule of the window that paces, and everything that others do with the buffers may come in between any two steps.  Recorded beside the code's state: the chunks in which the output was
    appended, where the last answer to a viewer ended, and which readers wait at which channel.  A reader may ask from anywhere and its answer may be lost; it may give up while it waits, and may come back while another reader of its viewer waits. *)
From S2P Require Import Prelude GoStd History HistorySpec HistorySessions Fanout FanoutSpec Attach.

(** ** What a history keeps *)

Lemma drop_oldest_live n : ∀ m h m' h', drop_oldest n m h = (m', h') → ∀ e, e ∈ live h' → e ∈ live h.
Proof.
  induction n as [|n IH]; intros m h m' h'; cbn [drop_oldest]; [by intros [= <- <-]|]. destruct (_ <? _)%Z; [|by intros [= <- <-]]. destruct (hi_events h !! hi_head h) as [x|] eqn:Hx; [|by intros [= <- <-]].
  intros Hd e He. apply (IH _ _ _ _ Hd) in He. rewrite (live_cons _ _ Hx). right. unfold live in He. simpl in He. by rewrite drop_insert_lt in He by lia.
Qed.

Lemma compact_live m h m' h' : History.compactLocked m h = (m', h') → ∀ e, e ∈ live h' → e ∈ live h.
Proof.
  unfold History.compactLocked. destruct (drop_oldest _ _ _) as [m1 h1] eqn:Hd. pose proof (drop_oldest_live _ _ _ _ _ Hd) as Hl. destruct (_ =? _)%nat; [intros [= <- <-] e He; by apply elem_of_nil in He|].
  destruct (_ && _); intros [= <- <-]; done.
Qed.

(** An event that an append may have added. *)
Definition newest (h h' : History) (channel : Z) (e : Event) : Prop := ev_Channel e = channel ∧ ev_StartSequence e = hi_latest h ∧ ev_EndSequence e = hi_latest h'.

Lemma compact_latest m h m' h' : History.compactLocked m h = (m', h') → hi_latest h' = hi_latest h.
Proof.
  assert (Hd : ∀ n m h m' h', drop_oldest n m h = (m', h') → hi_latest h' = hi_latest h).
  { clear. induction n as [|n IH]; intros m h m' h'; cbn [drop_oldest]; [by intros [= <- <-]|]. destruct (_ <? _)%Z; [|by intros [= <- <-]]. destruct (hi_events h !! hi_head h); [|by intros [= <- <-]]. by intros ->%IH. }
  unfold History.compactLocked. destruct (drop_oldest _ _ _) as [m1 h1] eqn:H1. apply Hd in H1. repeat case_match; by intros [= <- <-].
Qed.

Lemma appendOwned_live m h channel data pooled producer pick m' h' r : (hi_head h ≤ length (hi_events h))%nat → appendOwned m h channel data pooled producer pick = (m', h', r) → ∀ e, e ∈ live h' → e ∈ live h ∨ newest h h' channel e.
Proof.
  intros Hhd. unfold appendOwned. destruct (_ =? _)%nat; [intros [= <- <- <-]; by left|]. destruct (_ <? _)%Z; [intros [= <- <- <-]; by left|]. destruct (pool_get _ _ _) as [o pool]. destruct (History.compactLocked _ _) as [m1 h1] eqn:Hc.
  intros [= <- <- <-] e He. pose proof (compact_latest _ _ _ _ Hc) as Hl. apply (compact_live _ _ _ _ Hc) in He. unfold live in *. simpl in *. rewrite drop_app_le in He by done. apply elem_of_app in He as [?| ->%list_elem_of_singleton]; [by left|].
  right. unfold newest. simpl. by rewrite Hl.
Qed.

Lemma Append_live m h channel data pick m' h' r : (hi_head h ≤ length (hi_events h))%nat → Append m h channel data pick = (m', h', r) → ∀ e, e ∈ live h' → e ∈ live h ∨ newest h h' channel e.
Proof.
  intros Hhd. unfold Append, AppendOwned. destruct (clone m data) as [m1 w]. destruct (appendOwned _ _ _ _ _ _ _) as [[m2 h2] [err|x]] eqn:Ha; [intros [= <- <- <-]; by eapply appendOwned_live|]. destruct (cloneEvent m2 x) as [m3 x']. intros [= <- <- <-]. by eapply appendOwned_live.
Qed.

(** A step of the histories that does not add to a session's output adds no event to it. *)
Lemma history_step_live w w' k s s' : world_ok w → history_step w w' → hw_sessions w !! k = Some s → hw_sessions w' !! k = Some s' → hi_latest (ss_history s') = hi_latest (ss_history s) →
  ∀ e, e ∈ live (ss_history s') → (ev_StartSequence e < ev_EndSequence e)%Z → e ∈ live (ss_history s).
Proof.
  intros Hw Hstep Hk Hk' Hlat e He Hne. assert (Hhd : (hi_head (ss_history s) ≤ length (hi_events (ss_history s)))%nat) by (destruct (wo_session _ Hw _ _ Hk) as ([? _ _ _ _ _ _] & _); done).
  assert (Hnew : ∀ ch, newest (ss_history s) (ss_history s') ch e → False) by (intros ch (_ & ? & ?); lia).
  assert (Hput : ∀ k0 s0 s1, hw_sessions w !! k0 = Some s0 → <[k0 := s1]> (hw_sessions w) !! k = Some s' → k0 = k ∧ s0 = s ∧ s1 = s' ∨ s' = s).
  { intros k0 s0 s1 H0. rewrite lookup_insert_Some. intros [[-> ->]|[? ?]]; [left; split_and!; congruence|right; congruence]. }
  destruct Hstep; simpl in Hk'; try (rewrite Hk in Hk'; by injection Hk' as <-).
  - apply lookup_insert_Some in Hk' as [[-> _]|[_ Hk']]; [congruence|]. rewrite Hk in Hk'. by injection Hk' as <-.
  - destruct (Hput _ _ _ H Hk') as [(-> & -> & <-)|<-]; [|done]. simpl in *. destruct (appendOwned_live _ _ _ _ _ _ _ _ _ _ Hhd H2 e He) as [?|?]; [done|by destruct (Hnew channel)].
  - destruct (Hput _ _ _ H Hk') as [(-> & -> & <-)|<-]; [|done]. simpl in *. destruct (Append_live _ _ _ _ _ _ _ _ Hhd H0 e He) as [?|?]; [done|by destruct (Hnew channel)].
  - destruct (Hput _ _ _ H Hk') as [(-> & -> & <-)|<-]; [|done]. simpl in *. unfold SetLimit in H1. destruct (_ =? _)%Z; [by injection H1 as <- <- <-|]. destruct (History.compactLocked _ _) as [m1 h1] eqn:Hc. injection H1 as <- <- <-.
    by apply (compact_live _ _ _ _ Hc) in He.
  - destruct (Hput _ _ _ H Hk') as [(-> & -> & <-)|<-]; [|done]. unfold Clear in H0. injection H0 as <- <- <-. by apply elem_of_nil in He.
  - destruct (Hput _ _ _ H Hk') as [(-> & -> & <-)|<-]; done.
  - destruct (Hput _ _ _ H Hk') as [(-> & -> & <-)|<-]; done.
  - destruct (Hput _ _ _ H Hk') as [(-> & -> & <-)|<-]; [|done]. unfold Acknowledge in H0. destruct (_ || _) in H0; injection H0 as <- <-; done.
  - destruct (Hput _ _ _ H Hk') as [(-> & -> & <-)|<-]; done.
Qed.

(** ** The world *)

(** What whoever holds the session's lock is about to do. *)
Inductive Busy := Idle | Publishing (e : Event) | Replayed (bytes from : Z) (events : list Event) | Entering (id : string) (todo entered : list Event).

Definition busy_refs (b : Busy) : list Event := match b with Idle => [] | Publishing e => [e] | Replayed _ _ events => events | Entering _ todo entered => todo ++ entered end.

Record VWorld := mkVW { vw_world : HWorld; vw_fan : Fanout; vw_busy : Busy; vw_chunks : list Chunk; vw_got : gmap Z Z; vw_waiting : gmap (Z * nat) bool }.

Definition in_world (w : HWorld) (m : Heap) (held : list (string * Event)) : HWorld := mkHWorld m (hw_sessions w) (hw_producing w) held.

(** Where the answers to the readers of a viewer end: what was asked beyond them is not kept. *)
Definition got_asked (f : Fanout) (id : string) (from : Z) (got : gmap Z Z) : gmap Z Z :=
  match got !! attachmentLease f id with Some n => if (n <? from)%Z then delete (attachmentLease f id) got else got | None => got end.

(** The same, and who waits, after a turn of the reader [r].  A reader that waits is marked once another has taken the token of its channel. *)
Definition got_after (f : Fanout) (id : string) (t : Turn) (got : gmap Z Z) : gmap Z Z :=
  match t with Gives e => <[attachmentLease f id := ev_EndSequence e]> got | Fails ErrAttachmentLagged => delete (attachmentLease f id) got | _ => got end.
Definition waiting_after (t : Turn) (r : nat) (waiting : gmap (Z * nat) bool) : gmap (Z * nat) bool := match t with Waits l => <[(l, r) := false]> waiting | _ => waiting end.
Definition passed_by (l : Z) (waiting : gmap (Z * nat) bool) : gmap (Z * nat) bool := map_imap (λ x taken, Some (taken || bool_decide (x.1 = l))) waiting.

(** A reader takes the token of its channel. *)
Definition take_token (f : Fanout) (l : Z) : Fanout :=
  mkFanout (fo_lastLease f) (fo_attachments f) (fo_ringEnd f) (fo_minimum f) (fo_haveMinimum f) (fo_atMinimum f) (fo_active f) (fo_ring f) (fo_room f) (fo_tokens f ∖ {[l]}).

Definition chunk_of (e : Event) : Chunk := mkChunk (ev_Channel e) (ev_StartSequence e) (ev_EndSequence e).

(** A session's fanout when it is made; what the history has already came in the chunks that it keeps. *)
Definition no_viewers (w : HWorld) (s : Session) : VWorld := mkVW w NewFanout Idle (map chunk_of (live (ss_history s))) ∅ ∅.

Section world.
Context `{GoRuntime} (k : string).

(** The references of the fanout and of the lock's holder are among those that are held. *)
Definition refs_are (v : VWorld) (rest : list (string * Event)) : Prop := hw_held (vw_world v) ≡ₚ named k (fo_ring (vw_fan v) ++ busy_refs (vw_busy v)) ++ rest.

(** The world after a call on the fanout: [own] are the references of the lock's holder, [rest] those of others. *)
Definition after_call (v : VWorld) (m : Heap) (f : Fanout) (own : list Event) (rest : list (string * Event)) : HWorld := in_world (vw_world v) m (named k (fo_ring f ++ own) ++ rest).

Inductive viewer_step (v : VWorld) : VWorld → Prop :=
| v_elsewhere w' s s' rest : history_step (vw_world v) w' → hw_sessions (vw_world v) !! k = Some s → hw_sessions w' !! k = Some s' → ss_output s' = ss_output s → hw_held w' ≡ₚ named k (fo_ring (vw_fan v) ++ busy_refs (vw_busy v)) ++ rest →
    viewer_step v (mkVW w' (vw_fan v) (vw_busy v) (vw_chunks v) (vw_got v) (vw_waiting v))
| v_capture s channel data prod pick m' h' e : vw_busy v = Idle → hw_sessions (vw_world v) !! k = Some s → hw_producing (vw_world v) ≡ₚ w_buf data :: prod → w_len data = length (read (hw_heap (vw_world v)) data) → (0 < w_len data)%nat →
    AppendBuffer (hw_heap (vw_world v)) (ss_history s) channel data pick = (m', h', inr e) →
    viewer_step v (mkVW (put (vw_world v) m' k (mkSession h' (ss_base s) (ss_output s ++ read (hw_heap (vw_world v)) data)) prod (named k (own e []) ++ hw_held (vw_world v))) (vw_fan v) (Publishing e)
      (vw_chunks v ++ [mkChunk channel (ev_StartSequence e) (ev_EndSequence e)]) (vw_got v) (vw_waiting v))
| v_resize s channel data pick m' h' e : vw_busy v = Idle → hw_sessions (vw_world v) !! k = Some s → data ≠ [] → Append (hw_heap (vw_world v)) (ss_history s) channel data pick = (m', h', inr e) →
    viewer_step v (mkVW (put (vw_world v) m' k (mkSession h' (ss_base s) (ss_output s ++ data)) (hw_producing (vw_world v)) (named k [e] ++ hw_held (vw_world v))) (vw_fan v) (Publishing e)
      (vw_chunks v ++ [mkChunk channel (ev_StartSequence e) (ev_EndSequence e)]) (vw_got v) (vw_waiting v))
| v_publish e rest m' f' r : vw_busy v = Publishing e → refs_are v rest → PublishOwned (hw_heap (vw_world v)) (vw_fan v) e = (m', f', r) →
    viewer_step v (mkVW (after_call v m' f' [] ((k, e) :: rest)) f' Idle (vw_chunks v) (vw_got v) (vw_waiting v))
| v_replay s from bytes m' rp : vw_busy v = Idle → hw_sessions (vw_world v) !! k = Some s → (0 ≤ bytes ≤ UInt64.max_value)%Z → attach_replay (hw_heap (vw_world v)) (ss_history s) from bytes = (m', inr rp) →
    viewer_step v (mkVW (in_world (vw_world v) m' (named k (rp_Events rp) ++ hw_held (vw_world v))) (vw_fan v) (Replayed bytes (rp_From rp) (rp_Events rp)) (vw_chunks v) (vw_got v) (vw_waiting v))
| v_refused bytes from events : vw_busy v = Replayed bytes from events → viewer_step v (mkVW (vw_world v) (vw_fan v) Idle (vw_chunks v) (vw_got v) (vw_waiting v))
| v_enter bytes from events id pace now f' : vw_busy v = Replayed bytes from events → enter (vw_fan v) id bytes pace now = (f', None) →
    viewer_step v (mkVW (vw_world v) f' (Entering id events []) (vw_chunks v) (vw_got v) (vw_waiting v))
| v_enqueue id e todo entered rest m' f' : vw_busy v = Entering id (e :: todo) entered → refs_are v rest → EnqueueOwned (hw_heap (vw_world v)) (vw_fan v) id e = (m', f', inr None) →
    viewer_step v (mkVW (after_call v m' f' (todo ++ e :: entered) rest) f' (Entering id todo (e :: entered)) (vw_chunks v) (vw_got v) (vw_waiting v))
| v_entered id entered : vw_busy v = Entering id [] entered → viewer_step v (mkVW (vw_world v) (vw_fan v) Idle (vw_chunks v) (vw_got v) (vw_waiting v))
| v_control id bytes now f' : vw_busy v = Idle → (0 ≤ bytes ≤ UInt64.max_value)%Z → AttachControl (vw_fan v) id bytes now = (f', None) → viewer_step v (mkVW (vw_world v) f' Idle (vw_chunks v) (vw_got v) (vw_waiting v))
| v_detach id rest m' f' r : vw_busy v = Idle → refs_are v rest → Detach (hw_heap (vw_world v)) (vw_fan v) id = (m', f', r) →
    viewer_step v (mkVW (after_call v m' f' [] rest) f' Idle (vw_chunks v) (vw_got v) (vw_waiting v))
| v_screen s id rest m' f' r : vw_busy v = Idle → hw_sessions (vw_world v) !! k = Some s → refs_are v rest → SkipTo (hw_heap (vw_world v)) (vw_fan v) id (hi_latest (ss_history s)) = (m', f', r) →
    viewer_step v (mkVW (after_call v m' f' [] rest) f' Idle (vw_chunks v) (match r with None => <[attachmentLease (vw_fan v) id := hi_latest (ss_history s)]> (vw_got v) | Some _ => vw_got v end) (vw_waiting v))
| v_controller id now : viewer_step v (mkVW (vw_world v) (SetController (vw_fan v) id now) (vw_busy v) (vw_chunks v) (vw_got v) (vw_waiting v))
| v_compact rest m' f' : refs_are v rest → ReleaseRead (hw_heap (vw_world v)) (vw_fan v) = (m', f') →
    viewer_step v (mkVW (after_call v m' f' (busy_refs (vw_busy v)) rest) f' (vw_busy v) (vw_chunks v) (vw_got v) (vw_waiting v))
| v_read id r from lease now rest m' f' t : (∀ l, vw_waiting v !! (l, r) = None) → refs_are v rest → waitNextFromLease (hw_heap (vw_world v)) (vw_fan v) id from lease now = (m', f', t) →
    viewer_step v (mkVW (after_call v m' f' (busy_refs (vw_busy v)) (named k (turn_refs t) ++ rest)) f' (vw_busy v) (vw_chunks v) (got_after (vw_fan v) id t (got_asked (vw_fan v) id from (vw_got v))) (waiting_after t r (vw_waiting v)))
| v_take id r now rest m' f' t : (∀ l, vw_waiting v !! (l, r) = None) → refs_are v rest → WaitNextOwned (hw_heap (vw_world v)) (vw_fan v) id now = (m', f', t) →
    viewer_step v (mkVW (after_call v m' f' (busy_refs (vw_busy v)) (named k (turn_refs t) ++ rest)) f' (vw_busy v) (vw_chunks v) (got_after (vw_fan v) id t (vw_got v)) (waiting_after t r (vw_waiting v)))
| v_poll id now rest m' f' r : refs_are v rest → Next (hw_heap (vw_world v)) (vw_fan v) id now = (m', f', r) →
    viewer_step v (mkVW (after_call v m' f' (busy_refs (vw_busy v)) (named k (turn_refs (poll_turn (vw_fan v) id r)) ++ rest)) f' (vw_busy v) (vw_chunks v) (got_after (vw_fan v) id (poll_turn (vw_fan v) id r) (vw_got v)) (vw_waiting v))
| v_lost id c n n' : fo_attachments (vw_fan v) !! id = Some c → vw_got v !! ac_lease c = Some n → (ac_cursor c ≤ n' ≤ n)%Z →
    viewer_step v (mkVW (vw_world v) (vw_fan v) (vw_busy v) (vw_chunks v) (<[ac_lease c := n']> (vw_got v)) (vw_waiting v))
| v_wake l r : is_Some (vw_waiting v !! (l, r)) → l ∈ fo_tokens (vw_fan v) →
    viewer_step v (mkVW (vw_world v) (take_token (vw_fan v) l) (vw_busy v) (vw_chunks v) (vw_got v) (delete (l, r) (passed_by l (vw_waiting v))))
| v_cancel l r : viewer_step v (mkVW (vw_world v) (vw_fan v) (vw_busy v) (vw_chunks v) (vw_got v) (delete (l, r) (vw_waiting v))).
End world.

(** * What the viewers of a session rely on *)

Lemma refs_first' {A} (x l rest : list A) : x ++ l ++ rest ≡ₚ l ++ x ++ rest.
Proof. rewrite !app_assoc. f_equiv. apply Permutation_app_comm. Qed.

Section run.
Context `{GoRuntime} (k : string) (first : Z).

(** ** The buffers *)

(** The references are counted, the ring is what the viewers need, and the lock's holder has ends of chunks. *)
Record buffers_ok (w : HWorld) (f : Fanout) (own : list Event) (chunks : list Chunk) (s : Session) : Prop := {
  bo_world : world_ok w;
  bo_session : hw_sessions w !! k = Some s;
  bo_refs : ∃ rest, hw_held w ≡ₚ named k (fo_ring f ++ own) ++ rest;
  bo_first : (0 ≤ ss_base s ≤ first)%Z;
  bo_chunks : chunks_from first chunks (hi_latest (ss_history s));
  bo_live : ∀ e, e ∈ live (ss_history s) → (ev_StartSequence e < ev_EndSequence e)%Z → chunk_of e ∈ chunks;
  bo_fan : fan_ok (ss_base s) (ss_output s) first (hi_latest (ss_history s)) chunks (hw_heap w) f;
  bo_own : ∀ x, x ∈ own → ∃ c, c ∈ chunks ∧ ends_chunk c x;
}.

Lemma named_in l x : (k, x) ∈ named k l ↔ x ∈ l.
Proof. unfold named. rewrite list_elem_of_fmap. split; [intros (y & [= ->] & ?); done|intros ?; by exists x]. Qed.

Lemma named_in_inv l k1 x : (k1, x) ∈ named k l → k1 = k ∧ x ∈ l.
Proof. unfold named. rewrite list_elem_of_fmap. by intros (y & [= -> ->] & ?). Qed.

Lemma named_snd l : map snd (named k l) = l.
Proof. unfold named. rewrite map_map. apply map_id. Qed.

(** The heap as the calls on the fanout need it. *)
Lemma refs_heap w own rest : world_ok w → hw_held w ≡ₚ named k own ++ rest → heap_ok (hw_heap w) (hw_producing w) (own ++ kept (hw_sessions w) ++ map snd rest).
Proof.
  intros Hw Hp. eapply heap_ok_perm; [|apply Hw]. assert (Hm : map snd (hw_held w) ≡ₚ own ++ map snd rest) by (rewrite Hp, map_app, named_snd; done). rewrite Hm. apply refs_first.
Qed.

(** References of the session's output are read as before. *)
Lemma own_reads w own rest s x : world_ok w → hw_sessions w !! k = Some s → hw_held w ≡ₚ named k own ++ rest → x ∈ own → reads (hw_heap w) (ss_base s) (ss_output s) x.
Proof.
  intros Hw Hk Hp Hx. destruct (wo_held _ Hw k x) as (s1 & Hk1 & Hr); [rewrite Hp; apply elem_of_app; left; by apply named_in|]. congruence.
Qed.

Lemma world_refs w own own' rest rest' s m' : world_ok w → hw_sessions w !! k = Some s → hw_held w ≡ₚ named k own ++ rest → heap_ok m' (hw_producing w) (own' ++ kept (hw_sessions w) ++ map snd rest') → grows (hw_heap w) m' →
  (∀ x, x ∈ own' → reads m' (ss_base s) (ss_output s) x) → (∀ k1 e, (k1, e) ∈ rest' → (k1, e) ∈ hw_held w ∨ k1 = k ∧ reads m' (ss_base s) (ss_output s) e) → world_ok (in_world w m' (named k own' ++ rest')).
Proof.
  intros Hw Hk Hp Hh Hg Hown Hrest. pose proof Hw as [Hh0 Hs0 Hheld0]. split; simpl.
  - eapply heap_ok_perm; [|exact Hh]. rewrite map_app, named_snd. symmetry. apply refs_first.
  - intros k1 s1 Hk1. destruct (Hs0 _ _ Hk1) as (? & ? & Hr). split_and!; try done. intros e He. eapply kept_reads; [exact Hh0|apply elem_of_app; left; by eapply kept_elem|done|by apply Hr].
  - intros k1 e. rewrite elem_of_app. intros [[-> He]%named_in_inv|He]; [exists s; split; [done|by apply Hown]|]. destruct (Hrest _ _ He) as [Hin|[-> Hr]]; [|by exists s].
    destruct (Hheld0 _ _ Hin) as (s1 & Hk1 & Hr). exists s1. split; [done|]. eapply kept_reads; [exact Hh0|apply elem_of_app; right; apply list_elem_of_fmap; by exists (k1, e)|done|done].
Qed.

(** A call on the fanout. *)
Lemma buffers_call w f own chunks s rest m' f' own' rest' : buffers_ok w f own chunks s → hw_held w ≡ₚ named k (fo_ring f ++ own) ++ rest → fan_ok (ss_base s) (ss_output s) first (hi_latest (ss_history s)) chunks m' f' →
  heap_ok m' (hw_producing w) (fo_ring f' ++ own' ++ kept (hw_sessions w) ++ map snd rest') → grows (hw_heap w) m' → (∀ x, x ∈ own' → x ∈ own) →
  (∀ k1 e, (k1, e) ∈ rest' → (k1, e) ∈ hw_held w ∨ k1 = k ∧ reads m' (ss_base s) (ss_output s) e) → buffers_ok (in_world w m' (named k (fo_ring f' ++ own') ++ rest')) f' own' chunks s.
Proof.
  intros [Hw Hk _ H1 H2 H3 H4 H5] Hp Hfan Hh Hg Hsub Hrest. split; try done; [|by exists rest'|by auto]. eapply world_refs; try done; [by rewrite <-app_assoc|].
  intros x. rewrite elem_of_app. intros [Hx|Hx]; [by apply (ro_events _ _ _ _ _ _ (fk_ring _ _ _ _ _ _ _ Hfan)) in Hx as [_ ?]|]. eapply kept_reads; [apply (refs_heap _ _ _ Hw Hp)| |exact Hg|eapply own_reads; try done]; rewrite ?elem_of_app; [left; right|right]; by apply Hsub.
Qed.

(** The heap of another world in which the same is held. *)
Lemma fan_ok_reads base output first' latest chunks m m' f : fan_ok base output first' latest chunks m f → (∀ x, x ∈ fo_ring f → reads m' base output x) → fan_ok base output first' latest chunks m' f.
Proof. intros [[R1 R2 R3 R4] H2 H3 H4 H5] Hr. split; try done. split; try done. intros e He. destruct (R1 e He). split; [done|by apply Hr]. Qed.

Lemma buffers_elsewhere w w' f own chunks s s' rest : buffers_ok w f own chunks s → history_step w w' → hw_sessions w' !! k = Some s' → ss_output s' = ss_output s → hw_held w' ≡ₚ named k (fo_ring f ++ own) ++ rest →
  buffers_ok w' f own chunks s' ∧ hi_latest (ss_history s') = hi_latest (ss_history s).
Proof.
  intros [Hw Hk _ H1 H2 H3 H4 H5] Hstep Hk' Ho Hp. pose proof (history_step_ok _ _ Hw Hstep) as Hw'. destruct (history_step_output _ _ _ _ Hstep Hk) as (s1 & Hk1 & Hb & _). rewrite Hk' in Hk1. injection Hk1 as <-.
  destruct (wo_session _ Hw _ _ Hk) as ([_ _ _ _ L1 _ _] & _). destruct (wo_session _ Hw' _ _ Hk') as ([_ _ _ _ L2 _ _] & _). assert (Hlat : hi_latest (ss_history s') = hi_latest (ss_history s)) by (rewrite L1, L2, Hb, Ho; done).
  split; [|done]. split; rewrite ?Hlat, ?Hb, ?Ho; try done; [by exists rest| |].
  - intros e He Hne. apply H3; [|done]. exact (history_step_live _ _ _ _ _ Hw Hstep Hk Hk' Hlat e He Hne).
  - eapply fan_ok_reads; [exact H4|]. intros x Hx. rewrite <-Hb, <-Ho. eapply own_reads; try done. apply elem_of_app. by left.
Qed.

(** More output: it is a chunk of its own, which its producer publishes. *)
Lemma buffers_append w w' f chunks s s' channel data e : buffers_ok w f [] chunks s → world_ok w' → hw_sessions w' !! k = Some s' → hw_held w' = named k [e] ++ hw_held w → ss_base s' = ss_base s → ss_output s' = ss_output s ++ data → data ≠ [] →
  (∀ x, x ∈ live (ss_history s') → x ∈ live (ss_history s) ∨ newest (ss_history s) (ss_history s') channel x) → newest (ss_history s) (ss_history s') channel e →
  buffers_ok w' f [e] (chunks ++ [mkChunk channel (ev_StartSequence e) (ev_EndSequence e)]) s'.
Proof.
  intros [Hw Hk (rest & Hp) H1 H2 H3 H4 _] Hw' Hk' Hheld Hb Ho Hne Hlive (Hce & Hse & Hee). rewrite app_nil_r in Hp. destruct (wo_session _ Hw _ _ Hk) as ([_ _ _ _ L1 _ _] & _). destruct (wo_session _ Hw' _ _ Hk') as ([_ _ _ _ L2 _ _] & _).
  assert (Hlat : (hi_latest (ss_history s) < hi_latest (ss_history s'))%Z) by (rewrite L1, L2, Hb, Ho, length_app; destruct data; simpl; [done|lia]).
  assert (Hrefs : hw_held w' ≡ₚ named k (fo_ring f ++ [e]) ++ rest) by (rewrite Hheld, Hp; unfold named; rewrite !map_app, <-app_assoc; apply refs_first'). split; rewrite ?Hb; try done.
  - by exists rest.
  - rewrite <-Hee. apply chunks_snoc with (hi_latest (ss_history s)); simpl; [done|done|lia].
  - intros x Hx Hxe. apply elem_of_app. destruct (Hlive x Hx) as [?|(? & ? & ?)]; [left; by apply H3|right]. unfold chunk_of. apply list_elem_of_singleton. congruence.
  - rewrite Ho. eapply fan_ok_reads; [eapply fan_ok_more; [| |exact H4]; [intros c ?; apply elem_of_app; by left|lia]|]. intros x Hx. rewrite <-Hb, <-Ho. eapply own_reads; try done. apply elem_of_app. by left.
  - intros x ->%list_elem_of_singleton. eexists. split; [apply elem_of_app; right; by left|]. unfold ends_chunk. simpl. split_and!; try done; lia.
Qed.

Lemma appendOwned_newest m h channel data pooled producer pick m' h' e : appendOwned m h channel data pooled producer pick = (m', h', inr e) → (0 < w_len data)%nat → newest h h' channel e ∧ own e [] = [e].
Proof.
  unfold appendOwned. intros Ha Hl. destruct (Nat.eqb_spec (w_len data) 0); [lia|]. destruct (_ <? _)%Z; [done|]. destruct (pool_get _ _ _) as [o pool]. destruct (History.compactLocked _ _) as [m1 h1] eqn:Hc. injection Ha as <- <- <-.
  apply compact_latest in Hc. unfold newest. simpl in *. by rewrite Hc.
Qed.

Lemma Append_newest m h channel data pick m' h' e : Append m h channel data pick = (m', h', inr e) → data ≠ [] → newest h h' channel e.
Proof.
  unfold Append, AppendOwned. intros Ha Hne. destruct (clone m data) as [m1 x] eqn:Hc. destruct (appendOwned _ _ _ _ _ _ _) as [[m2 h2] [err|y]] eqn:Hap; [done|]. assert (Hl : (0 < w_len x)%nat) by (unfold clone in Hc; injection Hc as <- <-; simpl; destruct data; [done|simpl; lia]).
  destruct (appendOwned_newest _ _ _ _ _ _ _ _ _ _ Hap Hl) as [(? & ? & ?) _]. unfold cloneEvent in Ha. destruct (clone m2 _) as [m3 z]. injection Ha as <- <- <-. by split_and!.
Qed.

Lemma head_bound w s : world_ok w → hw_sessions w !! k = Some s → (hi_head (ss_history s) ≤ length (hi_events (ss_history s)))%nat.
Proof. intros Hw Hk. by destruct (wo_session _ Hw _ _ Hk) as ([? _ _ _ _ _ _] & _). Qed.

Lemma buffers_capture w f chunks s channel data prod pick m' h' e : buffers_ok w f [] chunks s → hw_producing w ≡ₚ w_buf data :: prod → w_len data = length (read (hw_heap w) data) → (0 < w_len data)%nat →
  AppendBuffer (hw_heap w) (ss_history s) channel data pick = (m', h', inr e) → let s' := mkSession h' (ss_base s) (ss_output s ++ read (hw_heap w) data) in
  buffers_ok (put w m' k s' prod (named k (own e []) ++ hw_held w)) f [e] (chunks ++ [mkChunk channel (ev_StartSequence e) (ev_EndSequence e)]) s' ∧ newest (ss_history s) h' channel e.
Proof.
  intros Hok Hp Hl Hl0 Ha s'. pose proof (bo_world _ _ _ _ _ Hok) as Hw. pose proof (bo_session _ _ _ _ _ Hok) as Hk. destruct (appendOwned_newest _ _ _ _ _ _ _ _ _ _ Ha Hl0) as [Hn Hown]. split; [|done].
  apply (buffers_append w _ f chunks s s' channel (read (hw_heap w) data)); try done.
  - exact (world_ok_buffer w k s channel data prod pick m' h' (inr e) Hw Hk Hp Hl Ha).
  - simpl. by rewrite lookup_insert_eq.
  - simpl. by rewrite Hown.
  - intros Hnil. rewrite Hnil in Hl. simpl in Hl. lia.
  - simpl. eapply appendOwned_live; [by eapply head_bound|exact Ha].
Qed.

Lemma buffers_resize w f chunks s channel data pick m' h' e : buffers_ok w f [] chunks s → data ≠ [] → Append (hw_heap w) (ss_history s) channel data pick = (m', h', inr e) → let s' := mkSession h' (ss_base s) (ss_output s ++ data) in
  buffers_ok (put w m' k s' (hw_producing w) (named k [e] ++ hw_held w)) f [e] (chunks ++ [mkChunk channel (ev_StartSequence e) (ev_EndSequence e)]) s' ∧ newest (ss_history s) h' channel e.
Proof.
  intros Hok Hne Ha s'. pose proof (bo_world _ _ _ _ _ Hok) as Hw. pose proof (bo_session _ _ _ _ _ Hok) as Hk. pose proof (Append_newest _ _ _ _ _ _ _ _ Ha Hne) as Hn. split; [|done].
  apply (buffers_append w _ f chunks s s' channel data); try done.
  - exact (world_ok_append w k s channel data pick m' h' (inr e) Hw Hk Ha).
  - simpl. by rewrite lookup_insert_eq.
  - simpl. eapply Append_live; [by eapply head_bound|exact Ha].
Qed.

(** The replay of a new viewer. *)
Lemma buffers_replay w f chunks s from bytes m' rp : buffers_ok w f [] chunks s → (0 ≤ bytes ≤ UInt64.max_value)%Z → attach_replay (hw_heap w) (ss_history s) from bytes = (m', inr rp) →
  buffers_ok (in_world w m' (named k (rp_Events rp) ++ hw_held w)) f (rp_Events rp) chunks s ∧ chain (rp_From rp) (rp_Events rp) (hi_latest (ss_history s)) ∧ (hi_latest (ss_history s) - rp_From rp ≤ attachmentReplayLimit bytes)%Z.
Proof.
  intros Hok Hb Ha. pose proof Hok as [Hw Hk (rest & Hp) H1 H2 H3 H4 _]. rewrite app_nil_r in Hp. destruct (focus _ _ _ Hw Hk) as [Hall Hbd]. pose proof Hall as [Hhist _ _]. pose proof Hhist as [_ _ _ ? _ ? _].
  destruct (attach_replay_ok _ _ _ _ _ _ _ _ _ _ Hall Ha ltac:(lia) ltac:(lia) ltac:(done)) as (Hall' & Hg & (Hf & Hlim & _ & _ & Hch & Hev)). simpl in Hall'. split; [|done].
  assert (Hrefs : named k (rp_Events rp) ++ hw_held w ≡ₚ named k (fo_ring f ++ rp_Events rp) ++ rest) by (rewrite Hp; unfold named; rewrite !map_app, <-app_assoc; apply refs_first').
  assert (Hw' : world_ok (in_world w m' (named k (rp_Events rp) ++ hw_held w))).
  { pose proof (world_same w k s m' (ss_history s) (ss_output s) (hw_producing w) (rp_Events rp) Hw Hk (more_nil _) Hall' Hbd Hg (λ e He, proj2 (Hev e He))) as Hput. unfold put in Hput. replace (<[k := _]> (hw_sessions w)) with (hw_sessions w) in Hput; [done|].
    symmetry. apply insert_id. rewrite Hk. by destruct s. }
  split; try done; [by exists rest| |].
  - eapply fan_ok_reads; [exact H4|]. intros x Hx. eapply own_reads; [exact Hw'|done|exact Hrefs|]. apply elem_of_app. by left.
  - intros x Hx. destruct (Hev x Hx) as [(e & He & Hc & Hs & Hee) _]. exists (chunk_of e). split; [apply H3; [done|lia]|]. unfold ends_chunk. simpl. split_and!; try done; lia.
Qed.

(** ** The viewers *)

Definition entering (b : Busy) (id : string) : Prop := match b with Entering id' _ _ => id' = id | _ => False end.

(** Up to where output is queued: an event that was appended is queued when it is published. *)
Definition queued_to (b : Busy) (latest : Z) : Z := match b with Publishing e => ev_StartSequence e | _ => latest end.

Definition busy_ok (latest : Z) (b : Busy) (f : Fanout) : Prop :=
  match b with
  | Idle => True
  | Publishing e => ev_EndSequence e = latest
  | Replayed bytes from events => (0 ≤ bytes ≤ UInt64.max_value)%Z ∧ chain from events latest ∧ ((0 < bytes)%Z → (latest - from ≤ bytes)%Z)
  | Entering id todo _ => ∃ c from, fo_attachments f !! id = Some c ∧ attached c = true ∧ ac_receiveOutput c = true ∧ chain from todo latest ∧ (ac_hasCursor c = true → ac_enqueuedEnd c = from) ∧
      (latest - (if ac_hasCursor c then ac_cursor c else from) ≤ ac_maxBytes c)%Z
  end.

Record viewers_ok (latest : Z) (b : Busy) (f : Fanout) (got : gmap Z Z) (waiting : gmap (Z * nat) bool) : Prop := {
  vo_busy : busy_ok latest b f;
  vo_ends : ∀ id c, fo_attachments f !! id = Some c → attached c = true → ac_receiveOutput c = true → ac_hasCursor c = true → ¬ entering b id → ac_enqueuedEnd c = queued_to b latest;
  vo_got : ∀ id c n, fo_attachments f !! id = Some c → attached c = true → ac_lagged c = false → got !! ac_lease c = Some n → ac_hasCursor c = true ∧ (ac_cursor c ≤ n ≤ ac_enqueuedEnd c)%Z;
  vo_old : ∀ l n, got !! l = Some n → (l ≤ fo_lastLease f)%Z;
  vo_waiting : ∀ l r, waiting !! (l, r) = Some false → l ∉ fo_tokens f → ∃ id c, fo_attachments f !! id = Some c ∧ ac_lease c = l ∧ attached c = true ∧ ac_lagged c = false ∧ (ac_hasCursor c = true → (ac_enqueuedEnd c ≤ ac_cursor c)%Z);
}.

Lemma moved_refl c : moved c c.
Proof. split; done || lia. Qed.

Lemma moved_attached c c' : moved c c' → attached c' = attached c.
Proof. intros Hm. unfold attached. by rewrite (mv_state _ _ Hm). Qed.

(** Viewers whose cursors moved on within their queues. *)
Lemma viewers_moved latest b f f' got got' waiting : viewers_ok latest b f got waiting → fo_lastLease f' = fo_lastLease f → fo_tokens f ⊆ fo_tokens f' →
  (∀ id c, fo_attachments f !! id = Some c → ∃ c', fo_attachments f' !! id = Some c' ∧ moved c c') → (∀ id c', fo_attachments f' !! id = Some c' → is_Some (fo_attachments f !! id)) →
  (∀ id c c' n, fo_attachments f !! id = Some c → fo_attachments f' !! id = Some c' → attached c = true → ac_lagged c' = false → got' !! ac_lease c = Some n → ac_hasCursor c = true ∧ (ac_cursor c' ≤ n ≤ ac_enqueuedEnd c)%Z) →
  (∀ l n, got' !! l = Some n → (l ≤ fo_lastLease f)%Z) → viewers_ok latest b f' got' waiting.
Proof.
  intros [V1 V2 V3 V4 V5] Hla Htk Hfw Hbw Hgot Hold.
  assert (Hback : ∀ id c', fo_attachments f' !! id = Some c' → ∃ c, fo_attachments f !! id = Some c ∧ moved c c').
  { intros id c' Hc'. destruct (Hbw _ _ Hc') as [c Hc]. destruct (Hfw _ _ Hc) as (c1 & Hc1 & Hm). exists c. split; [done|]. congruence. }
  split.
  - destruct b as [|e|bytes from events|id todo entered]; try done. destruct V1 as (c & from & Hc & Ha & Hr & Hch & He & Hmax). destruct (Hfw _ _ Hc) as (c' & Hc' & Hm). pose proof Hm as [M1 M2 M3 M4 M5 M6 M7 M8].
    exists c', from. rewrite (moved_attached _ _ Hm), M3, M4, M5, M6. split_and!; try done. destruct (ac_hasCursor c); lia.
  - intros id c' Hc' Ha Hr Hh Hn. destruct (Hback _ _ Hc') as (c & Hc & Hm). pose proof Hm as [M1 M2 M3 M4 M5 M6 M7 M8]. rewrite M6. apply (V2 id); try congruence. by rewrite <-(moved_attached _ _ Hm).
  - intros id c' n Hc' Ha Hl Hg. destruct (Hback _ _ Hc') as (c & Hc & Hm). pose proof Hm as [M1 M2 M3 M4 M5 M6 M7 M8]. rewrite M5, M6. apply (Hgot id c c' n); try congruence. by rewrite <-(moved_attached _ _ Hm).
  - intros l n Hg. rewrite Hla. by eapply Hold.
  - intros l r Hw Hn. destruct (V5 l r Hw ltac:(set_solver)) as (id & c & Hc & Hle & Ha & Hl & Hq). destruct (Hfw _ _ Hc) as (c' & Hc' & Hm). pose proof Hm as [M1 M2 M3 M4 M5 M6 M7 M8]. exists id, c'. split_and!; try congruence.
    + by rewrite (moved_attached _ _ Hm).
    + destruct (ac_lagged c') eqn:Hl'; [|done]. by rewrite M7 in Hl.
    + rewrite M5, M6. intros Hh. specialize (Hq Hh). lia.
Qed.

Lemma viewers_same latest b f f' got waiting : viewers_ok latest b f got waiting → fo_lastLease f' = fo_lastLease f → fo_attachments f' = fo_attachments f → fo_tokens f ⊆ fo_tokens f' → viewers_ok latest b f' got waiting.
Proof.
  intros Hv Hl Ha Ht. apply (viewers_moved latest b f f' got got waiting Hv Hl Ht).
  - intros id c Hc. exists c. rewrite Ha. split; [done|apply moved_refl].
  - rewrite Ha. intros id c' ->. by eexists.
  - rewrite Ha. intros id c c' n Hc Hc' Hat Hlag Hg. rewrite Hc in Hc'. injection Hc' as <-. by eapply vo_got.
  - intros l n. by eapply vo_old.
Qed.

(** A turn of a reader. *)
Lemma viewers_read m f prod L id from fits m' f' t base output chunks latest b got waiting : read_ok base output first latest chunks m f prod L id from fits m' f' t → viewers_ok latest b f got waiting →
  (∀ n, got !! attachmentLease f id = Some n → (from ≤ n)%Z) → viewers_ok latest b f' (got_after f id t got) waiting.
Proof.
  intros [Hfan _ _ Hla Htk _ Hmv Hturn Hstill] Hv Hfrom. pose proof Hv as [_ _ V3 V4 _].
  assert (Hids : ∀ id1 c c', fo_attachments f !! id1 = Some c → fo_attachments f' !! id1 = Some c' → id1 ≠ id → c' = c).
  { intros id1 c c' Hc Hc' Hne. destruct Hmv as [->|(x & x' & _ & -> & _)] in Hc'; [congruence|]. rewrite lookup_insert_ne in Hc' by done. congruence. }
  assert (Hfw : ∀ id1 c, fo_attachments f !! id1 = Some c → ∃ c', fo_attachments f' !! id1 = Some c' ∧ moved c c').
  { intros id1 c Hc. destruct Hmv as [->|(x & x' & Hx & -> & Hm)]; [exists c; split; [done|apply moved_refl]|]. destruct (decide (id1 = id)) as [->|Hne]; [|exists c; rewrite lookup_insert_ne by done; split; [done|apply moved_refl]].
    exists x'. rewrite lookup_insert_eq. split; [done|]. congruence. }
  assert (Hbw : ∀ id1 c', fo_attachments f' !! id1 = Some c' → is_Some (fo_attachments f !! id1)).
  { intros id1 c' Hc'. destruct Hmv as [->|(x & x' & Hx & -> & Hm)] in Hc'; [by eexists|]. apply lookup_insert_Some in Hc' as [[<- _]|[_ ?]]; by eexists. }
  assert (Huniq : ∀ id1 c c0, fo_attachments f !! id1 = Some c → fo_attachments f !! id = Some c0 → ac_lease c = ac_lease c0 → id1 = id).
  { intros id1 c c0 Hc Hc0 Heq. destruct (Hfw _ _ Hc) as (c1 & H1 & M1), (Hfw _ _ Hc0) as (c2 & H2 & M2). apply (fk_unique _ _ _ _ _ _ _ Hfan id1 id c1 c2 H1 H2). by rewrite (mv_lease _ _ M1), (mv_lease _ _ M2). }
  apply (viewers_moved latest b f f' got _ waiting Hv Hla); try done; [by rewrite Htk| |].
  - intros id1 c c' n Hc Hc' Ha Hl Hg. destruct (decide (id1 = id)) as [->|Hne].
    + assert (Hle : attachmentLease f id = ac_lease c) by (unfold attachmentLease; by rewrite Hc). unfold got_after in Hg. rewrite Hle in Hg, Hfrom. destruct t as [err|e|l]; simpl in Hturn, Hstill.
      * destruct Hturn as (_ & Hf' & _). specialize (Hstill _ _ Hc Hc'). assert (Hd : f' = f ∨ delete (ac_lease c) got !! ac_lease c = Some n) by (destruct Hf' as [?| ->]; [by left|by right]).
        destruct Hd as [->|Hd]; [|by rewrite lookup_delete_eq in Hd]. rewrite Hc in Hc'. injection Hc' as <-. apply (V3 id); try done. destruct err; try done. by rewrite lookup_delete_eq in Hg.
      * destruct Hturn as (x & x' & Hx & Hx' & _ & _ & _ & Hh & _ & Hs & He & Hcur & _). rewrite lookup_insert_eq in Hg. injection Hg as <-. rewrite Hc in Hx. injection Hx as <-. rewrite Hc' in Hx'. injection Hx' as <-. split; [done|lia].
      * destruct Hturn as (x & x' & Hx & Hx' & _ & _ & Hlx & _). rewrite Hc in Hx. injection Hx as <-. destruct (V3 id c n Hc Ha Hlx Hg) as [Hh Hn]. specialize (Hstill _ _ Hc Hc'). specialize (Hfrom _ Hg). split; [done|lia].
    + rewrite (Hids _ _ _ Hc Hc' Hne) in *. apply (V3 id1); try done. unfold got_after in Hg. assert (Hne' : ∀ c0, fo_attachments f !! id = Some c0 → ac_lease c0 ≠ ac_lease c) by (intros c0 Hc0 Heq; by destruct Hne; eapply Huniq).
      destruct t as [err|e|l]; [destruct err; try done; by apply lookup_delete_Some in Hg as [_ ?]| |done]. simpl in Hturn. destruct Hturn as (x & x' & Hx & _). rewrite lookup_insert_ne in Hg; [done|]. unfold attachmentLease. rewrite Hx. by apply Hne'.
  - intros l n Hg. unfold got_after in Hg. destruct t as [err|e|l']; [destruct err; try (by eapply V4); apply lookup_delete_Some in Hg as [_ ?]; by eapply V4| |by eapply V4].
    apply lookup_insert_Some in Hg as [[<- _]|[_ ?]]; [|by eapply V4]. simpl in Hturn. destruct Hturn as (x & x' & Hx & Hx' & _). unfold attachmentLease. rewrite Hx. destruct (Hfw _ _ Hx) as (c1 & H1 & M1). rewrite <-(mv_lease _ _ M1), <-Hla. eapply (fk_lease _ _ _ _ _ _ _ Hfan _ _ H1).
Qed.

(** Whoever waits after a turn has nothing to read. *)
Lemma viewers_wait m f prod L id from fits m' f' t r base output chunks latest b got waiting : read_ok base output first latest chunks m f prod L id from fits m' f' t → viewers_ok latest b f' got waiting →
  viewers_ok latest b f' got (waiting_after t r waiting).
Proof.
  intros [_ _ _ _ _ _ Hmv Hturn _] [V1 V2 V3 V4 V5]. split; try done. intros l r1 Hl Hn. destruct t as [err|e|l']; try (by eapply V5). simpl in *. apply lookup_insert_Some in Hl as [[[= -> ->] _]|[_ Hl]]; [|by eapply V5].
  destruct Hturn as (c & c' & Hc & Hc' & Ha & _ & Hlag & -> & Hq). assert (Hm : moved c c').
  { destruct Hmv as [Heq|(x & x' & Hx & Heq & Hm)]; rewrite Heq in Hc'; [rewrite Hc in Hc'; injection Hc' as <-; apply moved_refl|]. rewrite lookup_insert_eq in Hc'. congruence. }
  exists id, c'. split_and!; try done; [by apply mv_lease|by rewrite (moved_attached _ _ Hm)|]. destruct (ac_lagged c') eqn:Hl'; [|done]. by rewrite (mv_lagged _ _ Hm) in Hlag.
Qed.

(** Less is recorded of the answers. *)
Lemma viewers_forget latest b f got got' waiting : got' ⊆ got → viewers_ok latest b f got waiting → viewers_ok latest b f got' waiting.
Proof. intros Hsub [V1 V2 V3 V4 V5]. split; try done; [intros id c n Hc Ha Hl Hg; eapply V3; try done|intros l n Hg; eapply V4]; by eapply lookup_weaken. Qed.

Lemma got_asked_spec f id from got : got_asked f id from got ⊆ got ∧ ∀ n, got_asked f id from got !! attachmentLease f id = Some n → (from ≤ n)%Z.
Proof.
  unfold got_asked. destruct (got !! attachmentLease f id) as [n|] eqn:Hg; [|split; [done|]; by rewrite Hg].
  destruct (Z.ltb_spec n from); [|split; [done|]; rewrite Hg; by intros ? [= <-]]. split; [apply delete_subseteq|]. by rewrite lookup_delete_eq.
Qed.

(** An answer is lost: the viewer has what it confirmed, and perhaps more. *)
Lemma viewers_lost base output chunks m latest b f id c n n' got waiting : viewers_ok latest b f got waiting → fan_ok base output first latest chunks m f → fo_attachments f !! id = Some c → got !! ac_lease c = Some n →
  (ac_cursor c ≤ n' ≤ n)%Z → viewers_ok latest b f (<[ac_lease c := n']> got) waiting.
Proof.
  intros [V1 V2 V3 V4 V5] Hfan Hc Hg Hn. split; try done.
  - intros id1 c1 n1 Hc1 Ha Hl. rewrite lookup_insert_Some. intros [[Hle <-]|[_ Hg1]]; [|by eapply V3]. assert (id1 = id) as -> by (by eapply (fk_unique _ _ _ _ _ _ _ Hfan)).
    rewrite Hc in Hc1. injection Hc1 as <-. destruct (V3 id c n Hc Ha Hl Hg). split; [done|lia].
  - intros l n1. rewrite lookup_insert_Some. intros [[<- _]|[_ ?]]; by eapply V4.
Qed.

Lemma publish_one_cases e c : attached c = true → let c' := publish_one e c in
  attached c' = false ∨ (attached c' = true ∧ ac_hasCursor c' = true ∧ ac_enqueuedEnd c' = ev_EndSequence e ∧ (ac_lagged c' = true ∨ (ac_lagged c' = ac_lagged c ∧ ac_cursor c' = if ac_hasCursor c then ac_cursor c else ev_StartSequence e))).
Proof. intros Ha. unfold publish_one. destruct (_ <? _)%Z; [destruct (ac_backpressure c); simpl; [by left|right; split_and!; try done; by left]|right; split_and!; try done; by right]. Qed.

Lemma viewers_publish latest e f f' got waiting : viewers_ok latest (Publishing e) f got waiting → (ev_StartSequence e ≤ ev_EndSequence e)%Z → fo_lastLease f' = fo_lastLease f → fo_attachments f' = published e <$> fo_attachments f → fo_tokens f ⊆ fo_tokens f' →
  (∀ id c, fo_attachments f !! id = Some c → attached c = true → ac_receiveOutput c = true → ac_lease c ∈ fo_tokens f') → viewers_ok latest Idle f' got waiting.
Proof.
  intros [V1 V2 V3 V4 V5] Hle Hla Hat Htk Hnote. simpl in V1.
  assert (Hc' : ∀ id c', fo_attachments f' !! id = Some c' → attached c' = true → ∃ c, fo_attachments f !! id = Some c ∧ c' = published e c ∧ attached c = true).
  { intros id c'. rewrite Hat, lookup_fmap_Some. intros (c & <- & Hc) Ha. exists c. split_and!; try done. unfold published in Ha. destruct (attached c) eqn:Hx; [done|]. simpl in Ha. congruence. }
  split; [done| | | |].
  - intros id c' H1 Ha Hr Hh _. destruct (Hc' _ _ H1 Ha) as (c & Hc & -> & Ha0). destruct (published_same e c) as (_ & Hr' & _). rewrite Hr' in Hr. unfold published in *. rewrite Ha0, Hr in *. simpl in *.
    destruct (publish_one_cases e c Ha0) as [?|(_ & _ & -> & _)]; [congruence|done].
  - intros id c' n H1 Ha Hl Hg. destruct (Hc' _ _ H1 Ha) as (c & Hc & -> & Ha0). destruct (published_same e c) as (Hle' & _ & _). rewrite Hle' in Hg. unfold published in *. rewrite Ha0 in *. simpl in *. destruct (ac_receiveOutput c) eqn:Hr; [|by eapply V3].
    destruct (publish_one_cases e c Ha0) as [?|(_ & Hh' & He' & [?|[Hl' Hcur]])]; [congruence|congruence|]. rewrite Hl' in Hl. destruct (V3 id c n Hc Ha0 Hl Hg) as [Hh Hn]. rewrite Hh in Hcur. specialize (V2 id c Hc Ha0 Hr Hh (λ x, x)). simpl in V2. split; [done|lia].
  - intros l n. rewrite Hla. apply V4.
  - intros l r Hw Hn. destruct (V5 l r Hw ltac:(set_solver)) as (id & c & Hc & <- & Ha & Hl & Hq). destruct (ac_receiveOutput c) eqn:Hr; [by destruct Hn; eapply Hnote|]. exists id, c. rewrite Hat, lookup_fmap, Hc. simpl. unfold published. rewrite Hr, andb_false_r. by split_and!.
Qed.

(** A new viewer, whose lease nobody has. *)
Lemma viewers_new latest b b' f f' id c0 got waiting : viewers_ok latest b f got waiting → (∀ c, fo_attachments f !! id = Some c → attached c = false) → fo_lastLease f' = (fo_lastLease f + 1)%Z → fo_attachments f' = <[id := c0]> (fo_attachments f) → fo_tokens f' = fo_tokens f →
  ac_lease c0 = (fo_lastLease f + 1)%Z → ac_hasCursor c0 = false → queued_to b latest = queued_to b' latest → (∀ id1, id1 ≠ id → ¬ entering b' id1 → ¬ entering b id1) → busy_ok latest b' f' → viewers_ok latest b' f' got waiting.
Proof.
  intros [V1 V2 V3 V4 V5] Hfree Hla Hat Htk Hl0 Hh0 Hq Hent Hbusy. split; [done| | | |].
  - intros id1 c. rewrite Hat, lookup_insert_Some. intros [[<- <-]|[Hne Hc]]; [congruence|]. rewrite <-Hq. intros Ha Hr Hh Hn. apply (V2 id1); try done. by apply Hent.
  - intros id1 c n. rewrite Hat, lookup_insert_Some. intros [[<- <-]|[Hne Hc]]; [|by apply (V3 id1)]. intros _ _ Hg. apply V4 in Hg. lia.
  - intros l n Hg%V4. lia.
  - intros l r Hw. rewrite Htk. intros Hn. destruct (V5 l r Hw Hn) as (id1 & c & Hc & Hl & Ha & Hx). exists id1, c. rewrite Hat, lookup_insert_ne; [done|]. intros <-. by rewrite (Hfree _ Hc) in Ha.
Qed.

Lemma viewers_owner latest b f id got waiting : viewers_ok latest b f got waiting → viewers_ok latest b (set_owner f id) got waiting.
Proof.
  intros Hv. unfold set_owner. destruct (fo_attachments f !! id) as [c0|] eqn:H0; [|done]. apply (viewers_moved latest b f _ got got waiting Hv); try done; simpl.
  - intros id1 c Hc. destruct (decide (id1 = id)) as [->|Hne]; [rewrite lookup_insert_eq; eexists; split; [done|]; rewrite H0 in Hc; injection Hc as <-; by split|]. rewrite lookup_insert_ne by done. exists c. split; [done|apply moved_refl].
  - intros id1 c'. rewrite lookup_insert_Some. intros [[<- _]|[_ ?]]; by eexists.
  - intros id1 c c' n Hc. rewrite lookup_insert_Some. intros [[<- <-]|[_ Hc']] Ha Hl Hg; [|rewrite Hc in Hc'; injection Hc' as <-; by eapply vo_got]. rewrite H0 in Hc. injection Hc as <-. simpl in *. by eapply vo_got.
  - intros l n. by eapply vo_old.
Qed.

Lemma viewers_controller latest b f id now got waiting : viewers_ok latest b f got waiting → viewers_ok latest b (SetController f id now) got waiting.
Proof.
  intros Hv. unfold SetController. destruct (match fo_attachments f !! id with Some c => ac_backpressure c | None => false end); [done|]. set (paced := λ c, with_pace c false (ac_owner c) (ac_progressAt c)). set (f1 := match fo_attachments f !! id with Some c => _ | None => _ end).
  assert (Hpace : ∀ id1, fo_attachments f1 !! id1 = paced <$> fo_attachments f !! id1 ∨ ∃ c, fo_attachments f !! id1 = Some c ∧ fo_attachments f1 !! id1 = Some (with_pace c true true now)).
  { intros id1. unfold f1. destruct (fo_attachments f !! id) as [c|] eqn:Hc; [|left; apply lookup_fmap]. destruct (attached c && ac_owner c); [|left; apply lookup_fmap]. simpl. destruct (decide (id1 = id)) as [->|Hne]; [right; exists c; by rewrite lookup_insert_eq|]. rewrite lookup_insert_ne by done. left. apply lookup_fmap. }
  assert (Hsame : ∀ id1 c c', fo_attachments f !! id1 = Some c → fo_attachments f1 !! id1 = Some c' → ∃ p o a, c' = with_pace c p o a).
  { intros id1 c c' Hc Hc'. destruct (Hpace id1) as [He|(x & Hx & He)]; rewrite He in Hc'; [rewrite Hc in Hc'; injection Hc' as <-; by eexists _, _, _|]. rewrite Hc in Hx. injection Hx as <-. injection Hc' as <-. by eexists _, _, _. }
  assert (Hlast : fo_lastLease f1 = fo_lastLease f ∧ fo_tokens f1 = fo_tokens f) by (unfold f1; destruct (fo_attachments f !! id); [destruct (_ && _)|]; done). destruct Hlast as [Hla Htk].
  apply (viewers_moved latest b f _ got got waiting Hv); simpl; [done|by rewrite Htk| | | |].
  - intros id1 c Hc. destruct (Hpace id1) as [He|(x & Hx & He)]; rewrite He; [rewrite Hc; eexists; split; [done|]; by split|]. rewrite Hc in Hx. injection Hx as <-. eexists. split; [done|]. by split.
  - intros id1 c' Hc'. destruct (Hpace id1) as [He|(x & Hx & He)]; [|by eexists]. rewrite He in Hc'. apply fmap_Some in Hc' as (x & Hx & _). by eexists.
  - intros id1 c c' n Hc Hc' Ha Hl Hg. destruct (Hsame _ _ _ Hc Hc') as (p & o & a & ->). simpl in *. by eapply vo_got.
  - intros l n. by eapply vo_old.
Qed.

(** One more event of the replay is queued for the new viewer. *)
Lemma viewers_enqueue latest id e todo entered f f' c q got waiting : viewers_ok latest (Entering id (e :: todo) entered) f got waiting → fo_lastLease f' = fo_lastLease f → fo_tokens f' = {[ac_lease c]} ∪ fo_tokens f → fo_attachments f !! id = Some c →
  fo_attachments f' = <[id := queue c (if ac_hasCursor c then ac_cursor c else ev_StartSequence e) (ev_EndSequence e) true q]> (fo_attachments f) → viewers_ok latest (Entering id todo (e :: entered)) f' got waiting.
Proof.
  intros [V1 V2 V3 V4 V5] Hla Htk Hc Hat. destruct V1 as (c0 & from & Hc0 & Ha & Hr & (Hs & Hle & Hch) & He & Hmax). rewrite Hc in Hc0. injection Hc0 as <-. split; [| | | |].
  - exists (queue c (if ac_hasCursor c then ac_cursor c else ev_StartSequence e) (ev_EndSequence e) true q), (ev_EndSequence e). rewrite Hat, lookup_insert_eq. simpl. rewrite Hs. by split_and!.
  - intros id1 c1. rewrite Hat, lookup_insert_Some. simpl. intros [[<- <-]|[Hne Hc1]]; [done|]. intros. by apply (V2 id1).
  - intros id1 c1 n. rewrite Hat, lookup_insert_Some. intros [[<- <-]|[Hne Hc1]]; [|by apply (V3 id1)]. intros Ha1 Hl Hg. simpl in *. destruct (V3 id c n Hc Ha Hl Hg) as [Hh Hn]. rewrite Hh in *. specialize (He eq_refl). split; [done|lia].
  - intros l n. rewrite Hla. apply V4.
  - intros l r Hw. rewrite Htk. intros Hn. destruct (V5 l r Hw ltac:(set_solver)) as (id1 & c1 & Hc1 & Hl & Hx). exists id1, c1. rewrite Hat, lookup_insert_ne; [done|]. intros <-. rewrite Hc in Hc1. injection Hc1 as <-. set_solver.
Qed.

Lemma viewers_entered latest id entered f got waiting : viewers_ok latest (Entering id [] entered) f got waiting → viewers_ok latest Idle f got waiting.
Proof.
  intros [V1 V2 V3 V4 V5]. split; try done. intros id1 c Hc Ha Hr Hh _. destruct (decide (id1 = id)) as [->|Hne]; [|apply (V2 id1); try done; simpl; congruence].
  destruct V1 as (c0 & from & Hc0 & _ & _ & Hch & He & _). rewrite Hc in Hc0. injection Hc0 as <-. simpl in *. rewrite (He Hh). done.
Qed.

Lemma viewers_detach latest f f' id c got waiting : viewers_ok latest Idle f got waiting → fo_lastLease f' = fo_lastLease f → fo_attachments f !! id = Some c → fo_attachments f' = delete id (fo_attachments f) → fo_tokens f' = {[ac_lease c]} ∪ fo_tokens f → viewers_ok latest Idle f' got waiting.
Proof.
  intros [V1 V2 V3 V4 V5] Hla Hc Hat Htk. split; [done| | | |].
  - intros id1 c1. rewrite Hat, lookup_delete_Some. intros [_ ?]. by apply V2.
  - intros id1 c1 n. rewrite Hat, lookup_delete_Some. intros [_ ?]. by apply V3 with (id := id1).
  - intros l n. rewrite Hla. apply V4.
  - intros l r Hw. rewrite Htk. intros Hn. destruct (V5 l r Hw ltac:(set_solver)) as (id1 & c1 & Hc1 & Hl & Hx). exists id1, c1. rewrite Hat, lookup_delete_ne; [done|]. intros <-. rewrite Hc in Hc1. injection Hc1 as <-. set_solver.
Qed.

Lemma viewers_screen base output chunks m latest f f' id c got waiting : viewers_ok latest Idle f got waiting → fan_ok base output first latest chunks m f → fo_lastLease f' = fo_lastLease f → fo_attachments f !! id = Some c → fo_attachments f' = <[id := queue c latest latest true 0]> (fo_attachments f) →
  fo_tokens f' = fo_tokens f → viewers_ok latest Idle f' (<[attachmentLease f id := latest]> got) waiting.
Proof.
  intros [V1 V2 V3 V4 V5] Hfan Hla Hc Hat Htk. assert (Hle : attachmentLease f id = ac_lease c) by (unfold attachmentLease; by rewrite Hc). split; [done| | | |].
  - intros id1 c1. rewrite Hat, lookup_insert_Some. intros [[<- <-]|[Hne Hc1]]; [done|]. by apply V2.
  - intros id1 c1 n. rewrite Hat, lookup_insert_Some, Hle. intros [[<- <-]|[Hne Hc1]]; [simpl; rewrite lookup_insert_eq; intros _ _ [= <-]; split; [done|lia]|].
    rewrite lookup_insert_ne; [by apply (V3 id1)|]. intros Heq. destruct Hne. eapply (fk_unique _ _ _ _ _ _ _ Hfan); [exact Hc|exact Hc1|done].
  - intros l n. rewrite Hla, Hle, lookup_insert_Some. intros [[<- _]|[_ ?]]; [|by eapply V4]. apply (fk_lease _ _ _ _ _ _ _ Hfan _ _ Hc).
  - intros l r Hw. rewrite Htk. intros Hn. destruct (V5 l r Hw Hn) as (id1 & c1 & Hc1 & Hl & Ha & Hlag & Hq). destruct (decide (id1 = id)) as [->|Hne].
    + rewrite Hc in Hc1. injection Hc1 as <-. exists id. eexists. rewrite Hat, lookup_insert_eq. by split_and!.
    + exists id1, c1. rewrite Hat, lookup_insert_ne by done. by split_and!.
Qed.

Lemma viewers_wake latest b f l r got waiting : viewers_ok latest b f got waiting → viewers_ok latest b (take_token f l) got (delete (l, r) (passed_by l waiting)).
Proof.
  intros [V1 V2 V3 V4 V5]. split; try done. intros l1 r1 Hw Hn. simpl in Hn. apply lookup_delete_Some in Hw as [_ Hw]. unfold passed_by in Hw. rewrite map_lookup_imap in Hw. apply bind_Some in Hw as (taken & Hw & [= Ht]).
  apply orb_false_iff in Ht as [-> Ht]. apply bool_decide_eq_false in Ht. simpl in Ht. apply (V5 l1 r1); set_solver.
Qed.

Lemma viewers_cancel latest b f l r got waiting : viewers_ok latest b f got waiting → viewers_ok latest b f got (delete (l, r) waiting).
Proof. intros [V1 V2 V3 V4 V5]. split; try done. intros l1 r1 [_ Hw]%lookup_delete_Some. by apply (V5 l1 r1). Qed.
End run.
