(* ===== verification/FanoutViewers.v ===== *)
(** * Every viewer gets the session's output, in order, and hears of it *)
From S2P Require Import Prelude GoStd History HistorySpec HistorySessions Fanout FanoutSpec Attach FanoutWorld.

Section viewers.
Context `{GoRuntime} (k : string) (first : Z).

Definition sees (v : VWorld) (s : Session) : Prop :=
  buffers_ok k first (vw_world v) (vw_fan v) (busy_refs (vw_busy v)) (vw_chunks v) s ∧ viewers_ok (hi_latest (ss_history s)) (vw_busy v) (vw_fan v) (vw_got v) (vw_waiting v).

Lemma sees_latest w f own chunks s : buffers_ok k first w f own chunks s → (0 ≤ first ≤ hi_latest (ss_history s))%Z ∧ (hi_latest (ss_history s) ≤ UInt64.max_value)%Z.
Proof.
  intros [Hw Hk _ H1 H2 _ _ _]. destruct (wo_session _ Hw _ _ Hk) as ([_ _ _ _ _ ? _] & _). assert (Hle : (first ≤ hi_latest (ss_history s))%Z); [|lia]. clear -H2. revert first H2. induction chunks as [|c l IH]; simpl; [lia|]. intros x (_ & ? & ?%IH). lia.
Qed.

(** What the lock's holder has is an end of a chunk. *)
Lemma own_event w f own chunks s x : buffers_ok k first w f own chunks s → x ∈ own →
  ring_event (ss_base s) (ss_output s) chunks (hw_heap w) x ∧ (first ≤ ev_StartSequence x < ev_EndSequence x)%Z ∧ (ev_EndSequence x ≤ hi_latest (ss_history s))%Z.
Proof.
  intros [Hw Hk (rest & Hp) H1 H2 _ _ H5] Hx. destruct (H5 x Hx) as (c & Hc & Hends). destruct (chunks_bounds _ _ _ _ H2 Hc). pose proof Hends as (_ & ? & ?). split_and!; try lia. split; [by exists c|]. eapply own_reads; try done. apply elem_of_app. by right.
Qed.

Lemma calls_heap v s rest : sees v s → refs_are k v rest → heap_ok (hw_heap (vw_world v)) (hw_producing (vw_world v)) (fo_ring (vw_fan v) ++ busy_refs (vw_busy v) ++ kept (hw_sessions (vw_world v)) ++ map snd rest).
Proof. intros [Hb _] Hr. rewrite app_assoc. apply (refs_heap k); [apply Hb|done]. Qed.

Lemma sees_held v rest x : refs_are k v rest → x ∈ rest → x ∈ hw_held (vw_world v).
Proof. unfold refs_are. intros -> Hx. apply elem_of_app. by right. Qed.

(** ** Publishing and attaching *)

Lemma sees_publish v s e rest m' f' r : sees v s → vw_busy v = Publishing e → refs_are k v rest → PublishOwned (hw_heap (vw_world v)) (vw_fan v) e = (m', f', r) →
  sees (mkVW (after_call k v m' f' [] ((k, e) :: rest)) f' Idle (vw_chunks v) (vw_got v) (vw_waiting v)) s ∧ ∃ evictions, r = inr evictions.
Proof.
  intros Hs He Hrefs Hp. pose proof (calls_heap _ _ _ Hs Hrefs) as Hheap. destruct Hs as [Hb Hv]. pose proof (sees_latest _ _ _ _ _ Hb) as [Hf Hmax]. pose proof Hb as [Hw Hk _ Hbase Hch _ Hfan _]. rewrite He in *. simpl in Hheap.
  destruct (own_event _ _ _ _ _ e Hb ltac:(by left)) as (Hev & Hse & Hel). pose proof Hv as [V1 V2 _ _ _]. simpl in V1.
  destruct (PublishOwned_ok _ _ _ _ _ Hch _ _ _ (e :: kept (hw_sessions (vw_world v)) ++ map snd rest) _ _ _ _ Hp Hfan Hheap ltac:(by left) Hev ltac:(lia) ltac:(lia) ltac:(lia) V1) as (Hr & [Hfan' Hheap' Hbuf] & Hat & Hla & Htk & Hnote & Hring).
  { intros id c Hc Ha Hro Hh. apply (V2 id); try done. simpl. tauto. }
  split; [|done]. split.
  - unfold after_call. unfold refs_are in Hrefs. rewrite He in Hrefs. eapply (buffers_call k first); try done; [|by apply grows_same|by intros x Hx; apply elem_of_nil in Hx|].
    + eapply heap_ok_perm; [|exact Hheap']. simpl. apply Permutation_app_head, Permutation_middle.
    + intros k1 x. rewrite elem_of_cons. intros [[= -> ->]|Hx]; [right|left; rewrite Hrefs; apply elem_of_app; by right]. split; [done|]. destruct Hev as [_ Hrd]. eapply reads_heap; [done|]. unfold read. by rewrite Hbuf.
  - simpl. eapply viewers_publish; try done. lia.
Qed.

Lemma sees_enqueue v s id e todo entered rest m' f' r : sees v s → vw_busy v = Entering id (e :: todo) entered → refs_are k v rest → EnqueueOwned (hw_heap (vw_world v)) (vw_fan v) id e = (m', f', r) →
  sees (mkVW (after_call k v m' f' (todo ++ e :: entered) rest) f' (Entering id todo (e :: entered)) (vw_chunks v) (vw_got v) (vw_waiting v)) s ∧ r = inr None.
Proof.
  intros Hs He Hrefs Hp. pose proof (calls_heap _ _ _ Hs Hrefs) as Hheap. destruct Hs as [Hb Hv]. pose proof (sees_latest _ _ _ _ _ Hb) as [Hf Hmax]. pose proof Hb as [Hw Hk _ Hbase Hch _ Hfan _]. rewrite He in *. simpl in Hheap.
  destruct (own_event _ _ _ _ _ e Hb ltac:(by left)) as (Hev & Hse & Hel). pose proof (vo_busy _ _ _ _ _ Hv) as (c & from & Hc & Ha & Hro & (Hs & Hle & Hch') & Hend & Hroom).
  destruct (EnqueueOwned_ok _ _ _ _ _ Hch _ _ _ (e :: (todo ++ entered) ++ kept (hw_sessions (vw_world v)) ++ map snd rest) _ c _ _ _ _ Hp Hfan Hheap ltac:(by left) Hev ltac:(lia) ltac:(lia) ltac:(lia) Hel Hc Ha Hro) as (Hr & [Hfan' Hheap' Hbuf] & Hla & Hring & Htk & q & Hat).
  { intros Hh. rewrite (Hend Hh). done. }
  { pose proof (chain_le _ _ _ Hch'). destruct (ac_hasCursor c); lia. }
  split; [|done]. split.
  - unfold after_call. unfold refs_are in Hrefs. rewrite He in Hrefs. eapply (buffers_call k first); try done; [|by apply grows_same| |].
    + eapply heap_ok_perm; [|exact Hheap']. apply Permutation_app_head. exact (Permutation_app_tail _ (Permutation_middle todo entered e)).
    + intros x. simpl. rewrite !elem_of_app, !elem_of_cons, elem_of_app. tauto.
    + intros k1 x Hx. left. rewrite Hrefs. apply elem_of_app. by right.
  - simpl. eapply viewers_enqueue; done.
Qed.

Lemma sees_fan v s f' b : sees v s → fo_ring f' = fo_ring (vw_fan v) → fan_ok (ss_base s) (ss_output s) first (hi_latest (ss_history s)) (vw_chunks v) (hw_heap (vw_world v)) f' → (∀ x, x ∈ busy_refs b → x ∈ busy_refs (vw_busy v)) → (∃ rest, hw_held (vw_world v) ≡ₚ named k (fo_ring f' ++ busy_refs b) ++ rest) →
  viewers_ok (hi_latest (ss_history s)) b f' (vw_got v) (vw_waiting v) → sees (mkVW (vw_world v) f' b (vw_chunks v) (vw_got v) (vw_waiting v)) s.
Proof. intros [[Hw Hk _ H1 H2 H3 _ H5] _] Hr Hfan Hsub Href Hv. split; [|done]. split; simpl; try done. by auto. Qed.

Lemma sees_refs v s : sees v s → ∃ rest, refs_are k v rest.
Proof. intros [[_ _ (rest & Hp) _ _ _ _ _] _]. by exists rest. Qed.

(** Nobody has the lock any more; what its holder had is left to others. *)
Lemma sees_idle v s : sees v s → viewers_ok (hi_latest (ss_history s)) Idle (vw_fan v) (vw_got v) (vw_waiting v) → sees (mkVW (vw_world v) (vw_fan v) Idle (vw_chunks v) (vw_got v) (vw_waiting v)) s.
Proof.
  intros Hs Hv. destruct (sees_refs _ _ Hs) as [rest Hr]. apply (sees_fan v s (vw_fan v) Idle Hs); try done; [by apply Hs|intros x Hx; by apply elem_of_nil in Hx|]. exists (named k (busy_refs (vw_busy v)) ++ rest). unfold refs_are in Hr. rewrite Hr. unfold named. simpl. by rewrite app_nil_r, map_app, <-app_assoc.
Qed.

Lemma sees_new v s id bytes receive now f' b : sees v s → attach (vw_fan v) id bytes receive false now = (f', None) → (0 ≤ bytes ≤ UInt64.max_value)%Z → busy_refs b = busy_refs (vw_busy v) →
  queued_to (vw_busy v) (hi_latest (ss_history s)) = queued_to b (hi_latest (ss_history s)) → (∀ id1, id1 ≠ id → ¬ entering b id1 → ¬ entering (vw_busy v) id1) →
  ((0 < bytes)%Z → fo_attachments f' !! id = Some (mkAC (fo_lastLease (vw_fan v) + 1) Attached receive false false false now bytes 0 0 0 0 false) → busy_ok (hi_latest (ss_history s)) b f') →
  sees (mkVW (vw_world v) f' b (vw_chunks v) (vw_got v) (vw_waiting v)) s.
Proof.
  intros Hs Ha Hb Hrefs Hq Hent Hbusy. destruct (sees_refs _ _ Hs) as [rest Hr]. pose proof (bo_fan _ _ _ _ _ _ _ (proj1 Hs)) as Hfan. destruct (attach_ok _ _ _ _ _ _ _ _ _ _ _ _ _ _ Ha Hfan Hb) as (Hfan' & Hring & Htk & Hfree & Hpos & Hla & Hat).
  apply (sees_fan v s f' b Hs); try done; [by rewrite Hrefs|exists rest; rewrite Hring, Hrefs; exact Hr|]. eapply viewers_new; [apply Hs|exact Hfree|exact Hla|exact Hat|done|done|done|done|done|]. apply Hbusy; [done|]. by rewrite Hat, lookup_insert_eq.
Qed.

Lemma sees_enter v s bytes from events id pace now f' : sees v s → vw_busy v = Replayed bytes from events → enter (vw_fan v) id bytes pace now = (f', None) → sees (mkVW (vw_world v) f' (Entering id events []) (vw_chunks v) (vw_got v) (vw_waiting v)) s.
Proof.
  intros Hs He Hen. unfold enter in Hen. destruct (attach _ _ _ _ _ _) as [f1 [err|]] eqn:Ha; [done|]. injection Hen as <-. pose proof (vo_busy _ _ _ _ _ (proj2 Hs)) as Hbusy. rewrite He in Hbusy. destruct Hbusy as (Hb & Hch & Hroom).
  assert (Hnew : sees (mkVW (vw_world v) f1 (Entering id events []) (vw_chunks v) (vw_got v) (vw_waiting v)) s).
  { apply (sees_new v s id bytes true now f1 _ Hs Ha Hb); rewrite ?He; try done; [simpl; by rewrite app_nil_r|simpl; tauto|]. intros Hpos Hid. eexists _, from. split_and!; [exact Hid|done|done|done|done|simpl; by apply Hroom]. }
  destruct pace; [|done]. apply (sees_fan _ _ (set_owner f1 id) (Entering id events []) Hnew); try done.
  - simpl. unfold set_owner. by destruct (fo_attachments f1 !! id).
  - apply set_owner_ok. apply (bo_fan _ _ _ _ _ _ _ (proj1 Hnew)).
  - destruct (sees_refs _ _ Hnew) as [rest Hr]. exists rest. unfold set_owner. destruct (fo_attachments f1 !! id); exact Hr.
  - apply viewers_owner, Hnew.
Qed.

(** ** The other calls *)

Lemma sees_call v s rest m' f' rest' got waiting : sees v s → refs_are k v rest → fan_ok (ss_base s) (ss_output s) first (hi_latest (ss_history s)) (vw_chunks v) m' f' →
  heap_ok m' (hw_producing (vw_world v)) (fo_ring f' ++ busy_refs (vw_busy v) ++ kept (hw_sessions (vw_world v)) ++ map snd rest') → grows (hw_heap (vw_world v)) m' →
  (∀ k1 e, (k1, e) ∈ rest' → (k1, e) ∈ hw_held (vw_world v) ∨ k1 = k ∧ reads m' (ss_base s) (ss_output s) e) → viewers_ok (hi_latest (ss_history s)) (vw_busy v) f' got waiting →
  sees (mkVW (after_call k v m' f' (busy_refs (vw_busy v)) rest') f' (vw_busy v) (vw_chunks v) got waiting) s.
Proof. intros [Hb _] Hr Hfan Hh Hg Hrest Hv. split; [|done]. by eapply (buffers_call k first). Qed.

Lemma sees_reader v s rest id r from fits m' f' t got waiting : sees v s → refs_are k v rest → read_ok (ss_base s) (ss_output s) first (hi_latest (ss_history s)) (vw_chunks v) (hw_heap (vw_world v)) (vw_fan v) (hw_producing (vw_world v))
    (busy_refs (vw_busy v) ++ kept (hw_sessions (vw_world v)) ++ map snd rest) id from fits m' f' t →
  got ⊆ vw_got v → (∀ n, got !! attachmentLease (vw_fan v) id = Some n → (from ≤ n)%Z) → waiting = waiting_after t r (vw_waiting v) ∨ waiting = vw_waiting v →
  sees (mkVW (after_call k v m' f' (busy_refs (vw_busy v)) (named k (turn_refs t) ++ rest)) f' (vw_busy v) (vw_chunks v) (got_after (vw_fan v) id t got) waiting) s.
Proof.
  intros Hs Hr Hok Hsub Hfrom Hwait. pose proof Hok as [Hfan Hh Hg _ _ _ _ Hturn _]. eapply sees_call; [done|done|done| |done| |].
  - eapply heap_ok_perm; [|exact Hh]. apply Permutation_app_head. rewrite map_app, named_snd, !(app_assoc (busy_refs _)). apply refs_first'.
  - intros k1 e. rewrite elem_of_app. intros [[-> He]%named_in_inv|He]; [right|left; by eapply sees_held]. split; [done|]. destruct t as [err|x|l]; simpl in He; try (by apply elem_of_nil in He). apply list_elem_of_singleton in He as ->. by destruct Hturn as (_ & _ & _ & _ & _ & _ & _ & _ & _ & _ & _ & _ & ?).
  - pose proof (viewers_read _ _ _ _ _ _ _ _ _ _ _ _ _ _ _ _ _ _ Hok (viewers_forget _ _ _ _ _ _ Hsub (proj2 Hs)) Hfrom) as Hv. destruct Hwait as [-> | ->]; [by eapply viewers_wait|done].
Qed.

Lemma viewers_appended latest latest' e f got waiting : viewers_ok latest Idle f got waiting → ev_StartSequence e = latest → ev_EndSequence e = latest' → viewers_ok latest' (Publishing e) f got waiting.
Proof. intros [_ V2 V3 V4 V5] Hs He. split; try done. intros id c Hc Ha Hr Hh _. simpl. rewrite Hs. apply (V2 id); try done. simpl. tauto. Qed.

Lemma sees_step v s v' : sees v s → viewer_step k v v' → ∃ s', sees v' s'.
Proof.
  intros Hs Hstep. pose proof Hs as [Hb Hv]. pose proof (sees_latest _ _ _ _ _ Hb) as [Hf Hmax]. pose proof Hb as [Hw Hk _ Hbase Hch _ Hfan _]. destruct Hstep as [w' s1 s' rest H1 H2 H3 H4 H5|s1 channel data prod pick m' h' e H1 H2 H3 H4 H5 H6|s1 channel data pick m' h' e H1 H2 H3 H4|e rest m' f' r H1 H2 H3|
    s1 from bytes m' rp H1 H2 H3 H4|bytes from events H1|bytes from events id pace now f' H1 H2|id e todo entered rest m' f' H1 H2 H3|id entered H1|id bytes now f' H1 H2 H3|id rest m' f' r H1 H2 H3|s1 id rest m' f' r H1 H2 H3 H4|id now|rest m' f' H1 H2|
    id r from lease now rest m' f' t H1 H2 H3|id r now rest m' f' t H1 H2 H3|id now rest m' f' r H1 H2|id c n n' H1 H2 H3|l r H1 H2|l r].
  - rewrite Hk in H2. injection H2 as <-. exists s'. destruct (buffers_elsewhere k first _ _ _ _ _ _ _ _ Hb H1 H3 H4 H5) as [Hb' Hlat]. split; simpl; [done|]. by rewrite Hlat.
  - rewrite Hk in H2. injection H2 as <-. rewrite H1 in *. destruct (buffers_capture k first _ _ _ _ _ _ _ _ _ _ _ Hb H3 H4 H5 H6) as [Hb' (Hc & Hse & Hee)]. eexists. split; [exact Hb'|]. simpl. by eapply viewers_appended.
  - rewrite Hk in H2. injection H2 as <-. rewrite H1 in *. destruct (buffers_resize k first _ _ _ _ _ _ _ _ _ _ Hb H3 H4) as [Hb' (Hc & Hse & Hee)]. eexists. split; [exact Hb'|]. simpl. by eapply viewers_appended.
  - exists s. by eapply sees_publish.
  - rewrite Hk in H2. injection H2 as <-. exists s. rewrite H1 in *. destruct (buffers_replay k first _ _ _ _ _ _ _ _ Hb H3 H4) as (Hb' & Hch' & Hlim). split; [exact Hb'|]. simpl. destruct Hv as [_ V2 V3 V4 V5]. split; [|exact V2|exact V3|exact V4|exact V5]. split; [done|]. split; [done|]. intros Hpos. destruct (replay_limit_bounds bytes ltac:(lia)) as [_ Hl]. specialize (Hl Hpos). lia.
  - exists s. apply sees_idle; [done|]. rewrite H1 in Hv. destruct Hv as [_ V2 V3 V4 V5]. by split.
  - exists s. by eapply sees_enter.
  - exists s. by eapply sees_enqueue.
  - exists s. apply sees_idle; [done|]. rewrite H1 in Hv. by eapply viewers_entered.
  - exists s. apply (sees_new v s id bytes false now f' Idle Hs H3 H2); rewrite ?H1; done.
  - exists s. pose proof (calls_heap _ _ _ Hs H2) as Hheap. rewrite H1 in *. simpl in Hheap. destruct (Detach_kept _ _ _ _ _ Hch _ _ _ _ _ _ _ _ H3 Hfan Hheap) as ([Hfan' Hheap' Hbuf] & Hla & Hring & Htk & Hr).
    pose proof (sees_call v s rest m' f' rest (vw_got v) (vw_waiting v) Hs H2 Hfan') as Hcall. rewrite H1 in Hcall. apply Hcall; [done|by apply grows_same|intros k1 e He; left; by eapply sees_held|].
    destruct r as [err|]; [by rewrite Hr|]. destruct Hr as (c & Hc & Hat & Ht). by eapply viewers_detach.
  - rewrite Hk in H2. injection H2 as <-. exists s. pose proof (calls_heap _ _ _ Hs H3) as Hheap. rewrite H1 in *. simpl in Hheap.
    destruct (SkipTo_ok _ _ _ _ _ Hch _ _ _ _ _ _ _ _ H4 Hfan Hheap ltac:(lia) Hmax) as ([Hfan' Hheap' Hbuf] & Hla & Hring & Htk & Hr).
    { intros c Hc Ha Hro Hh. apply (vo_ends _ _ _ _ _ Hv id); try done. simpl. tauto. }
    pose proof (sees_call v s rest m' f' rest (match r with None => <[attachmentLease (vw_fan v) id := hi_latest (ss_history s)]> (vw_got v) | Some _ => vw_got v end) (vw_waiting v) Hs H3 Hfan') as Hcall. rewrite H1 in Hcall.
    apply Hcall; [done|by apply grows_same|intros k1 e He; left; by eapply sees_held|]. destruct r as [err|]; [destruct Hr as [-> _]; done|]. destruct Hr as (c & Hc & Ha & Hat). by eapply viewers_screen.
  - exists s. destruct (sees_refs _ _ Hs) as [rest Hr]. assert (Hring : fo_ring (SetController (vw_fan v) id now) = fo_ring (vw_fan v)) by (unfold SetController; repeat case_match; done).
    apply (sees_fan v s _ (vw_busy v) Hs); try done; [by apply SetController_ok|exists rest; rewrite Hring; exact Hr|by apply viewers_controller].
  - exists s. pose proof (calls_heap _ _ _ Hs H1) as Hheap. destruct (compact_kept _ _ _ _ _ _ _ _ _ _ _ H2 Hfan Hheap) as ([Hfan' Hheap' Hbuf] & (Hla & Hat & _ & _ & Htk) & Hring).
    eapply sees_call; try done; [by apply grows_same|intros k1 e He; left; by eapply sees_held|]. eapply viewers_same; try done. by rewrite Htk.
  - exists s. pose proof (calls_heap _ _ _ Hs H2) as Hheap. destruct (waitNextFromLease_ok _ _ _ _ _ Hch _ _ _ _ _ _ _ _ _ _ _ H3 Hfan Hheap ltac:(lia)) as [Hok _].
    destruct (got_asked_spec (vw_fan v) id from (vw_got v)). eapply sees_reader; try done. by left.
  - exists s. pose proof (calls_heap _ _ _ Hs H2) as Hheap. pose proof (WaitNextOwned_ok _ _ _ _ _ Hch _ _ _ _ _ (default 0%Z (vw_got v !! attachmentLease (vw_fan v) id)) _ _ _ _ H3 Hfan Hheap ltac:(lia)) as Hok. eapply sees_reader; try done; [|by left].
    intros n ->. done.
  - exists s. pose proof (calls_heap _ _ _ Hs H1) as Hheap. pose proof (Next_ok _ _ _ _ _ Hch _ _ _ _ _ (default 0%Z (vw_got v !! attachmentLease (vw_fan v) id)) _ _ _ _ H2 Hfan Hheap ltac:(lia)) as Hok.
    eapply (sees_reader _ _ _ _ 0%nat); try done; [|by right]. intros n ->. done.
  - exists s. split; [exact Hb|]. by eapply viewers_lost.
  - exists s. destruct (sees_refs _ _ Hs) as [rest Hr]. split; [|by apply viewers_wake]. destruct Hb as [B1 B2 B3 B4 B5 B6 [F1 F2 F3 F4 F5] B8]. by split.
  - exists s. split; [exact Hb|by apply viewers_cancel].
Qed.
End viewers.

(** ** Reachable states *)

Lemma chunks_of_chain s l e : chain s l e → chunks_from s (map chunk_of l) e.
Proof. revert s. induction l as [|x l IH]; intros s; simpl; [done|]. intros (? & ? & ?). split_and!; try done. by apply IH. Qed.

Lemma sees_start k w s : world_ok w → hw_sessions w !! k = Some s → sees k (hi_earliest (ss_history s)) (no_viewers w s) s.
Proof.
  intros Hw Hk. destruct (wo_session _ Hw _ _ Hk) as ([_ Hc _ Hb _ _ _] & _). split; simpl.
  - split; simpl; try done; [by exists (hw_held w)|by apply chunks_of_chain|intros e He _; by apply list_elem_of_fmap_2|apply fan_ok_new|intros x Hx; by apply elem_of_nil in Hx].
  - split; simpl; try done; intros *; by rewrite ?lookup_empty.
Qed.

Lemma sees_reachable `{GoRuntime} k w s0 v : rtc history_step emptyWorld w → hw_sessions w !! k = Some s0 → rtc (viewer_step k) (no_viewers w s0) v → ∃ s, sees k (hi_earliest (ss_history s0)) v s.
Proof.
  intros Hw%history_reachable Hk Hsteps. assert (Hinv : ∀ x y, rtc (viewer_step k) x y → (∃ s, sees k (hi_earliest (ss_history s0)) x s) → ∃ s, sees k (hi_earliest (ss_history s0)) y s).
  { induction 1 as [|x y z Hs _ IH]; [done|]. intros [s Hx]. apply IH. by eapply sees_step. }
  apply (Hinv _ _ Hsteps). exists s0. by apply sees_start.
Qed.

Section claims.
Context `{GoRuntime} (k : string) (w : HWorld) (s0 : Session) (v : VWorld).

(** C27: a viewer's output has no gap and no repetition.  Whatever publishes, attaches, detaches, resizes, paces and reads meanwhile: a viewer that asks from where its last answer ended gets the bytes of the session's output that follow, in
    an event that starts there; or it waits, and then it has had all that is queued for it (all the output, when nothing is being published or replayed); or it is told that it fell behind and needs a screen, when its queue had overflowed. *)
Theorem viewer_output_exact s id c n now m' f' t : rtc history_step emptyWorld w → hw_sessions w !! k = Some s0 → rtc (viewer_step k) (no_viewers w s0) v → hw_sessions (vw_world v) !! k = Some s →
  fo_attachments (vw_fan v) !! id = Some c → attached c = true → vw_got v !! ac_lease c = Some n → waitNextFromLease (hw_heap (vw_world v)) (vw_fan v) id n (ac_lease c) now = (m', f', t) →
  match t with
  | Gives e => ev_StartSequence e = n ∧ (n < ev_EndSequence e)%Z ∧ read m' (ev_Data e) = slice (ss_base s) (ss_output s) n (ev_EndSequence e)
  | Waits l => l = ac_lease c ∧ n = ac_enqueuedEnd c ∧ (vw_busy v = Idle → ac_receiveOutput c = true → n = (ss_base s + Z.of_nat (length (ss_output s)))%Z)
  | Fails err => err = ErrAttachmentLagged ∧ ac_lagged c = true
  end.
Proof.
  intros Hw Hk Hv Hs Hc Ha Hn Hread. destruct (sees_reachable _ _ _ _ Hw Hk Hv) as [s1 Hsees]. destruct (sees_refs _ _ _ _ Hsees) as [rest Hr]. pose proof (calls_heap _ _ _ _ _ Hsees Hr) as Hheap. destruct Hsees as [Hb Hview].
  pose proof (sees_latest _ _ _ _ _ _ _ Hb) as [Hf _]. pose proof Hb as [Hwok Hs1 _ _ Hch _ Hfan _]. rewrite Hs in Hs1. injection Hs1 as <-. destruct (wo_session _ Hwok _ _ Hs) as ([_ _ _ _ Hlat _ _] & _).
  destruct (waitNextFromLease_ok _ _ _ _ _ Hch _ _ _ _ _ _ _ _ _ _ _ Hread Hfan Hheap ltac:(lia)) as [[_ _ _ _ _ _ _ Hturn Hstill] Hstart]. destruct t as [err|e|l]; simpl in Hturn, Hstill.
  - destruct Hturn as (_ & _ & Hlag). destruct (Hlag c Hc Ha ltac:(by right)). done.
  - destruct Hturn as (x & x' & Hx & _ & _ & _ & Hl & Hh & _ & Hse & He & _ & (_ & _ & _ & Hrd)). rewrite Hc in Hx. injection Hx as <-. destruct (vo_got _ _ _ _ _ Hview id c n Hc Ha Hl Hn) as [_ Hcn].
    assert (Hsn : ev_StartSequence e = n) by (rewrite (Hstart e c eq_refl Hc); unfold asked_from; destruct (Z.ltb_spec (ac_cursor c) n), (Z.leb_spec n (ac_enqueuedEnd c)); simpl; lia). rewrite Hsn in *. split_and!; [done|lia|done].
  - destruct Hturn as (x & x' & Hx & Hx' & _ & _ & Hl & -> & Hq). rewrite Hc in Hx. injection Hx as <-. destruct (vo_got _ _ _ _ _ Hview id c n Hc Ha Hl Hn) as [Hh Hcn]. specialize (Hstill _ _ Hc Hx').
    assert (Hmv : ac_hasCursor x' = true ∧ ac_enqueuedEnd x' = ac_enqueuedEnd c).
    { destruct (waitNextFromLease_ok _ _ _ _ _ Hch _ _ _ _ _ _ _ _ _ _ _ Hread Hfan Hheap ltac:(lia)) as [[_ _ _ _ _ _ Hm _ _] _]. destruct Hm as [Hm|(y & y' & Hy & Hm & Hmv)]; rewrite Hm in Hx'; [rewrite Hc in Hx'; injection Hx' as <-; done|].
      rewrite lookup_insert_eq in Hx'. injection Hx' as <-. rewrite Hc in Hy. injection Hy as <-. rewrite (mv_has _ _ Hmv), (mv_end _ _ Hmv). done. }
    destruct Hmv as [Hh' He']. specialize (Hq Hh'). rewrite He' in Hq. assert (Hne : n = ac_enqueuedEnd c) by lia. split_and!; try done. intros Hi Hro. rewrite Hne, (vo_ends _ _ _ _ _ Hview id c Hc Ha Hro Hh) by (rewrite Hi; simpl; tauto). rewrite Hi. simpl. done.
Qed.

(** C28: the numbers of the output are always in step: publishing an event that was appended never fails, the replay of a new viewer is queued whole, without an error or an eviction, whatever readers do meanwhile, and a reader, a poll
    or a screen never finds the output out of order, or an event missing from the ring. *)
Theorem output_in_step : rtc history_step emptyWorld w → hw_sessions w !! k = Some s0 → rtc (viewer_step k) (no_viewers w s0) v → let m := hw_heap (vw_world v) in let f := vw_fan v in
  match vw_busy v with
  | Publishing e => ∃ evictions, (PublishOwned m f e).2 = inr evictions
  | Entering id (e :: _) _ => (EnqueueOwned m f id e).2 = inr None
  | Idle => ∀ s id, hw_sessions (vw_world v) !! k = Some s → (SkipTo m f id (hi_latest (ss_history s))).2 ≠ Some ErrOutputOrder
  | _ => True
  end ∧ ∀ id now, (∀ from lease, (waitNextFromLease m f id from lease now).2 ≠ Fails ErrOutputOrder) ∧ (WaitNextOwned m f id now).2 ≠ Fails ErrOutputOrder ∧ (Next m f id now).2 ≠ inl ErrOutputOrder.
Proof.
  intros Hw Hk Hv m f. destruct (sees_reachable _ _ _ _ Hw Hk Hv) as [s Hsees]. destruct (sees_refs _ _ _ _ Hsees) as [rest Hr]. pose proof (calls_heap _ _ _ _ _ Hsees Hr) as Hheap. pose proof Hsees as [Hb Hview].
  pose proof (sees_latest _ _ _ _ _ _ _ Hb) as [Hf Hmax]. pose proof Hb as [Hwok Hs _ _ Hch _ Hfan _]. split.
  - destruct (vw_busy v) as [|e|bytes from events|id [|e todo] entered] eqn:Hbusy; try done.
    + intros s1 id Hs1. rewrite Hs in Hs1. injection Hs1 as <-. destruct (SkipTo m f id _) as [[m' f'] r] eqn:Hsk. rewrite app_nil_l in Hheap. destruct (SkipTo_ok _ _ _ _ _ Hch _ _ _ _ _ _ _ _ Hsk Hfan Hheap Hf Hmax) as (_ & _ & _ & _ & Hres).
      { intros c Hc Ha Hro Hh. apply (vo_ends _ _ _ _ _ Hview id); try done. simpl. tauto. }
      simpl. destruct r as [err|]; [|done]. destruct Hres as [_ ->]. done.
    + destruct (PublishOwned m f e) as [[m' f'] r] eqn:Hp. by destruct (sees_publish _ _ _ _ _ _ _ _ _ Hsees Hbusy Hr Hp).
    + destruct (EnqueueOwned m f id e) as [[m' f'] r] eqn:Hp. by destruct (sees_enqueue _ _ _ _ _ _ _ _ _ _ _ _ Hsees Hbusy Hr Hp).
  - intros id now. split_and!.
    + intros from lease. destruct (waitNextFromLease m f id from lease now) as [[m' f'] t] eqn:Hread. destruct (waitNextFromLease_ok _ _ _ _ _ Hch _ _ _ _ _ _ _ _ _ _ _ Hread Hfan Hheap ltac:(lia)) as [[_ _ _ _ _ _ _ Hturn _] _]. destruct t; simpl; try done. destruct Hturn as [Hne _]. congruence.
    + destruct (WaitNextOwned m f id now) as [[m' f'] t] eqn:Hread. destruct (WaitNextOwned_ok _ _ _ _ _ Hch _ _ _ _ _ 0 _ _ _ _ Hread Hfan Hheap ltac:(lia)) as [_ _ _ _ _ _ _ Hturn _]. destruct t; simpl; try done. destruct Hturn as [Hne _]. congruence.
    + destruct (Next m f id now) as [[m' f'] r] eqn:Hread. destruct (Next_ok _ _ _ _ _ Hch _ _ _ _ _ 0 _ _ _ _ Hread Hfan Hheap ltac:(lia)) as [_ _ _ _ _ _ _ Hturn _]. destruct r as [err|[e|]]; simpl; try done. destruct Hturn as [Hne _]. congruence.
Qed.

(** C29: no wake-up is lost.  A reader that waits at a channel that is empty, and past which no other reader of the same viewer has taken a wake-up since it began to wait, is the reader of a viewer that is attached, has not fallen behind, and has
    had everything that is queued for it, which is all the output when nothing is being published or replayed; so output, an eviction, a lost queue or a detach always reaches a reader of its viewer, and the only one when there is one.  When a reader that gave up
    still waits beside the one that replaced it, it may take the wake-up of both: wakeup_taken. *)
Theorem no_lost_wakeup s l r : rtc history_step emptyWorld w → hw_sessions w !! k = Some s0 → rtc (viewer_step k) (no_viewers w s0) v → hw_sessions (vw_world v) !! k = Some s → vw_waiting v !! (l, r) = Some false → l ∉ fo_tokens (vw_fan v) →
  ∃ id c, fo_attachments (vw_fan v) !! id = Some c ∧ ac_lease c = l ∧ attached c = true ∧ ac_lagged c = false ∧
    (ac_hasCursor c = true → ac_cursor c = ac_enqueuedEnd c ∧ (vw_busy v = Idle → ac_receiveOutput c = true → ac_cursor c = (ss_base s + Z.of_nat (length (ss_output s)))%Z)).
Proof.
  intros Hw Hk Hv Hs Hl Hn. destruct (sees_reachable _ _ _ _ Hw Hk Hv) as [s1 [Hb Hview]]. pose proof Hb as [Hwok Hs1 _ _ Hch _ Hfan _]. rewrite Hs in Hs1. injection Hs1 as <-. destruct (wo_session _ Hwok _ _ Hs) as ([_ _ _ _ Hlat _ _] & _).
  destruct (vo_waiting _ _ _ _ _ Hview l r Hl Hn) as (id & c & Hc & Hle & Ha & Hlag & Hq). exists id, c. split_and!; try done. intros Hh. specialize (Hq Hh). pose proof (fk_cursor _ _ _ _ _ _ _ Hfan _ _ Hc Ha) as Hco.
  assert (Heq : ac_cursor c = ac_enqueuedEnd c) by (destruct (ac_receiveOutput c) eqn:Hr; [destruct (co_receives _ _ _ _ _ Hco Hh Hr) as (? & _); lia|by destruct (co_control _ _ _ _ _ Hco Hh Hr)]).
  split; [done|]. intros Hi Hr. rewrite Heq, (vo_ends _ _ _ _ _ Hview id c Hc Ha Hr Hh) by (rewrite Hi; simpl; tauto). rewrite Hi. done.
Qed.
End claims.

(** ** A viewer that reads two pieces of output *)

Definition vfill (v : VWorld) (data : list ascii) : VWorld := mkVW (filled (vw_world v) 0 data) (vw_fan v) (vw_busy v) (vw_chunks v) (vw_got v) (vw_waiting v).

Definition vjoin (v : VWorld) (id : string) : VWorld :=
  match enter (vw_fan v) id 10 true 0 with (f, None) => mkVW (vw_world v) f Idle (vw_chunks v) (vw_got v) (vw_waiting v) | _ => v end.

Definition vcapture (v : VWorld) (n : nat) : VWorld :=
  let w := vw_world v in
  let data := mkWindow (buffer_of w) 0 n in
  let s := demo_session w in
  match AppendBuffer (hw_heap w) (ss_history s) 1 data 0 with
  | (m, h, inr e) => mkVW (put w m "s" (mkSession h (ss_base s) (ss_output s ++ read (hw_heap w) data)) (tl (hw_producing w)) (named "s" (own e []) ++ hw_held w)) (vw_fan v) (Publishing e)
      (vw_chunks v ++ [mkChunk 1 (ev_StartSequence e) (ev_EndSequence e)]) (vw_got v) (vw_waiting v)
  | _ => v
  end.

Section demo.
#[local] Existing Instance eval_runtime.

Definition vpublish (v : VWorld) (rest : list (string * Event)) : VWorld :=
  match vw_busy v with
  | Publishing e => let '(m, f, _) := PublishOwned (hw_heap (vw_world v)) (vw_fan v) e in mkVW (after_call "s" v m f [] (("s", e) :: rest)) f Idle (vw_chunks v) (vw_got v) (vw_waiting v)
  | _ => v
  end.

Definition vread (v : VWorld) (id : string) (r : nat) (from : Z) (rest : list (string * Event)) : VWorld :=
  let '(m, f, t) := waitNextFromLease (hw_heap (vw_world v)) (vw_fan v) id from 0 0 in
  mkVW (after_call "s" v m f (busy_refs (vw_busy v)) (named "s" (turn_refs t) ++ rest)) f (vw_busy v) (vw_chunks v) (got_after (vw_fan v) id t (got_asked (vw_fan v) id from (vw_got v))) (waiting_after t r (vw_waiting v)).

Definition vwake (v : VWorld) (l : Z) (r : nat) : VWorld := mkVW (vw_world v) (take_token (vw_fan v) l) (vw_busy v) (vw_chunks v) (vw_got v) (delete (l, r) (passed_by l (vw_waiting v))).

Lemma vfill_step v data s rest : hw_sessions (vw_world v) !! "s" = Some s → refs_are "s" v rest → rtc (viewer_step "s") v (vfill v data).
Proof.
  intros Hs Hr. unfold vfill, filled. destruct (AcquireBuffer (hw_heap (vw_world v)) 0) as [m b] eqn:Ha. set (w1 := mkHWorld m (hw_sessions (vw_world v)) (b :: hw_producing (vw_world v)) (hw_held (vw_world v))).
  eapply rtc_l; [apply (v_elsewhere "s" v w1 s s rest); try done; by eapply step_acquire|]. apply rtc_once. eapply (v_elsewhere "s" (mkVW w1 _ _ _ _ _) _ s s rest); try done. apply (step_fill w1). simpl. left.
Qed.

Lemma vcapture_step v n b prod : vw_busy v = Idle → hw_sessions (vw_world v) !! "s" = Some (demo_session (vw_world v)) → hw_producing (vw_world v) = b :: prod → (0 < n ≤ length (default [] (hp_buffers (hw_heap (vw_world v)) !! b)))%nat →
  rtc (viewer_step "s") v (vcapture v n).
Proof.
  intros Hi Hs Hp Hn. unfold vcapture, buffer_of. rewrite Hp. simpl. destruct (AppendBuffer _ _ _ _ _) as [[m h] [err|e]] eqn:Ha; [done|]. apply rtc_once. eapply (v_capture "s" v); try done; [by rewrite Hp| |simpl; lia].
  unfold read. simpl. rewrite drop_0, length_take. lia.
Qed.

Lemma vpublish_step v rest : refs_are "s" v rest → rtc (viewer_step "s") v (vpublish v rest).
Proof. intros Hr. unfold vpublish. destruct (vw_busy v) as [|e| |] eqn:Hb; try done. destruct (PublishOwned _ _ _) as [[m f] r] eqn:Hp. apply rtc_once. by eapply v_publish. Qed.

Lemma vread_step v id r from rest : (∀ l, vw_waiting v !! (l, r) = None) → refs_are "s" v rest → rtc (viewer_step "s") v (vread v id r from rest).
Proof. intros Hw Hr. unfold vread. destruct (waitNextFromLease _ _ _ _ _ _) as [[m f] t] eqn:Hp. apply rtc_once. by eapply v_read. Qed.

(** It does not wait yet. *)
Lemma not_waiting (r : nat) (w : gmap (Z * nat) bool) : bool_decide (map_Forall (λ (x : Z * nat) (_ : bool), x.2 ≠ r) w) = true → ∀ l : Z, w !! (l, r) = None.
Proof. intros Hw%bool_decide_eq_true_1 l. destruct (w !! (l, r)) as [b|] eqn:Hl; [|done]. by destruct (Hw _ _ Hl). Qed.

(** A viewer joins before there is any output: its replay is empty. *)
Lemma vjoin_step v id s rp : vw_busy v = Idle → hw_sessions (vw_world v) !! "s" = Some s → attach_replay (hw_heap (vw_world v)) (ss_history s) 0 10 = (hw_heap (vw_world v), inr rp) → rp_Events rp = [] → rtc (viewer_step "s") v (vjoin v id).
Proof.
  intros Hi Hs Ha He. unfold vjoin. destruct (enter _ _ _ _ _) as [f [err|]] eqn:Hen; [done|]. set (v1 := mkVW (in_world (vw_world v) (hw_heap (vw_world v)) (named "s" (rp_Events rp) ++ hw_held (vw_world v))) (vw_fan v) (Replayed 10 (rp_From rp) (rp_Events rp)) (vw_chunks v) (vw_got v) (vw_waiting v)).
  assert (Hw : in_world (vw_world v) (hw_heap (vw_world v)) (named "s" (rp_Events rp) ++ hw_held (vw_world v)) = vw_world v) by (rewrite He; by destruct (vw_world v)).
  eapply rtc_l; [apply (v_replay "s" v s 0 10 (hw_heap (vw_world v)) rp); try done; unfold UInt64.max_value; lia|]. eapply rtc_l; [by eapply (v_enter "s" v1)|]. simpl. rewrite Hw, He. apply rtc_once. by eapply (v_entered "s" (mkVW (vw_world v) f (Entering id [] []) _ _ _)).
Qed.

Definition demo_w0 : HWorld := opened emptyWorld "s" 100.
Definition demo_v0 : VWorld := no_viewers demo_w0 (demo_session demo_w0).

(** The first piece is about to be published; it was read; the second was published. *)
Definition demo_v1 : VWorld := vcapture (vfill (vjoin demo_v0 "a") ["a"; "b"; "c"]%char) 3.
Definition demo_v2 : VWorld := vread (vpublish demo_v1 []) "a" 0 0 (tl (hw_held (vw_world (vpublish demo_v1 [])))).
Definition demo_v3 : VWorld := vpublish (vcapture (vfill demo_v2 ["d"; "e"]%char) 2) (tl (hw_held (vw_world demo_v2))).

(** The reader finds a token that came with the first piece, and then waits. *)
Definition demo_v4 : VWorld := vwake (vread demo_v2 "a" 0 3 (tl (hw_held (vw_world demo_v2)))) 1 0.
Definition demo_v5 : VWorld := vread demo_v4 "a" 0 3 (hw_held (vw_world demo_v4)).

(** Its poll is given up, and another asks and waits too; the second piece comes, and the first takes the token and the piece. *)
Definition demo_v6 : VWorld := vread demo_v5 "a" 1 3 (hw_held (vw_world demo_v5)).
Definition demo_v7 : VWorld := vpublish (vcapture (vfill demo_v6 ["d"; "e"]%char) 2) (hw_held (vw_world demo_v6)).
Definition demo_v8 : VWorld := vwake demo_v7 1 0.
Definition demo_v9 : VWorld := vread demo_v8 "a" 0 3 (tl (hw_held (vw_world demo_v8))).

Lemma demo_w0_reached : rtc history_step emptyWorld demo_w0.
Proof. apply opened_step; [done|unfold UInt64.max_value; lia]. Qed.

Lemma demo_w0_session : hw_sessions demo_w0 !! "s" = Some (demo_session demo_w0).
Proof. vm_compute. reflexivity. Qed.

Lemma demo_v1_reached : rtc (viewer_step "s") demo_v0 demo_v1.
Proof.
  etrans; [apply (vjoin_step demo_v0 "a" (demo_session demo_w0) (mkReplay 0 0 0 0 [])); vm_compute; reflexivity|]. etrans; [apply (vfill_step (vjoin demo_v0 "a") ["a"; "b"; "c"]%char (demo_session demo_w0) []); vm_compute; reflexivity|]. eapply vcapture_step; [vm_compute; reflexivity..|vm_compute; lia].
Qed.

Lemma demo_v2_reached : rtc (viewer_step "s") demo_v0 demo_v2.
Proof.
  etrans; [apply demo_v1_reached|]. etrans; [apply (vpublish_step _ []); vm_compute; reflexivity|]. apply vread_step; [apply not_waiting|]; vm_compute; reflexivity.
Qed.

Lemma demo_v3_reached : rtc (viewer_step "s") demo_v0 demo_v3.
Proof.
  etrans; [apply demo_v2_reached|]. etrans; [apply (vfill_step demo_v2 ["d"; "e"]%char (demo_session (vw_world demo_v2)) (tl (hw_held (vw_world demo_v2)))); vm_compute; reflexivity|]. etrans; [eapply (vcapture_step _ 2); [vm_compute; reflexivity..|vm_compute; lia]|]. apply vpublish_step. vm_compute. apply perm_swap.
Qed.

Lemma demo_v5_reached : rtc (viewer_step "s") demo_v0 demo_v5.
Proof.
  etrans; [apply demo_v2_reached|]. etrans; [apply (vread_step _ "a" 0 3 (tl (hw_held (vw_world demo_v2)))); [apply not_waiting|]; vm_compute; reflexivity|].
  eapply rtc_l; [apply (v_wake "s" _ 1 0); [vm_compute; by eexists|apply (bool_decide_eq_true_1 _); vm_compute; reflexivity]|]. apply vread_step; [apply not_waiting|]; vm_compute; reflexivity.
Qed.

Lemma demo_v6_reached : rtc (viewer_step "s") demo_v0 demo_v6.
Proof. etrans; [apply demo_v5_reached|]. apply (vread_step _ "a" 1 3 (hw_held (vw_world demo_v5))); [apply not_waiting|]; vm_compute; reflexivity. Qed.

Lemma demo_v7_reached : rtc (viewer_step "s") demo_v0 demo_v7.
Proof.
  etrans; [apply demo_v6_reached|]. etrans; [apply (vfill_step demo_v6 ["d"; "e"]%char (demo_session (vw_world demo_v6)) (hw_held (vw_world demo_v6))); vm_compute; reflexivity|].
  etrans; [eapply (vcapture_step _ 2); [vm_compute; reflexivity..|vm_compute; lia]|]. apply vpublish_step. vm_compute. reflexivity.
Qed.

Lemma demo_v9_reached : rtc (viewer_step "s") demo_v0 demo_v9.
Proof.
  etrans; [apply demo_v7_reached|]. eapply rtc_l; [apply (v_wake "s" demo_v7 1 0); [vm_compute; by eexists|apply (bool_decide_eq_true_1 _); vm_compute; reflexivity]|].
  apply (vread_step demo_v8 "a" 0 3); [apply not_waiting|]; vm_compute; reflexivity.
Qed.

(** A reader that was given up takes the wake-up, and its answer is lost: the reader that replaced it waits at an empty channel for output that is queued, until more comes. *)
Theorem wakeup_taken : ∃ v c, rtc (viewer_step "s") demo_v0 v ∧ vw_busy v = Idle ∧ map_to_list (vw_waiting v) = [((1%Z, 1%nat), true)] ∧ (1%Z ∉ fo_tokens (vw_fan v)) ∧ fo_attachments (vw_fan v) !! "a" = Some c ∧
  ac_lease c = 1%Z ∧ vw_got v !! 1%Z = Some 3%Z ∧ ac_enqueuedEnd c = 5%Z.
Proof.
  destruct (fo_attachments (vw_fan demo_v9) !! "a") as [c|] eqn:Hc; [|vm_compute in Hc; discriminate]. pose proof Hc as Hv. vm_compute in Hv. injection Hv as Hv.
  exists (mkVW (vw_world demo_v9) (vw_fan demo_v9) (vw_busy demo_v9) (vw_chunks demo_v9) (<[ac_lease c := 3%Z]> (vw_got demo_v9)) (vw_waiting demo_v9)), c. split.
  - eapply rtc_r; [apply demo_v9_reached|]. eapply (v_lost "s" _ "a" c 5); [exact Hc|by rewrite <-Hv; vm_compute|rewrite <-Hv; simpl; lia].
  - cbn [vw_fan vw_busy vw_got vw_waiting]. split; [vm_compute; reflexivity|]. split; [vm_compute; reflexivity|]. split; [apply (bool_decide_eq_true_1 _); vm_compute; reflexivity|].
    split; [exact Hc|]. rewrite <-Hv. cbn [ac_lease ac_enqueuedEnd]. split; [done|]. split; [apply lookup_insert_eq|done].
Qed.

Lemma viewer_output_exact_witness : ∃ m' f' e, waitNextFromLease (hw_heap (vw_world demo_v3)) (vw_fan demo_v3) "a" 3 1 0 = (m', f', Gives e) ∧ ev_StartSequence e = 3%Z ∧ read m' (ev_Data e) = ["d"; "e"]%char.
Proof.
  eexists _, _, _. split; [vm_compute; reflexivity|]. destruct (fo_attachments (vw_fan demo_v3) !! "a") as [c|] eqn:Hc; [|vm_compute in Hc; discriminate]. vm_compute in Hc. injection Hc as Hc. assert (Hl : ac_lease c = 1%Z) by (by rewrite <-Hc).
  pose proof (viewer_output_exact "s" demo_w0 (demo_session demo_w0) demo_v3 (demo_session (vw_world demo_v3)) "a" c 3 0 _ _ _ demo_w0_reached demo_w0_session demo_v3_reached ltac:(vm_compute; reflexivity) ltac:(rewrite <-Hc; vm_compute; reflexivity) ltac:(rewrite <-Hc; reflexivity) ltac:(rewrite Hl; vm_compute; reflexivity) ltac:(rewrite Hl; vm_compute; reflexivity)) as (Hs & _ & Hr).
  split; [exact Hs|]. etrans; [exact Hr|]. vm_compute. reflexivity.
Defined.

Lemma output_in_step_witness : ∃ e evictions, vw_busy demo_v1 = Publishing e ∧ (PublishOwned (hw_heap (vw_world demo_v1)) (vw_fan demo_v1) e).2 = inr evictions.
Proof.
  eexists. destruct (output_in_step "s" demo_w0 (demo_session demo_w0) demo_v1 demo_w0_reached demo_w0_session demo_v1_reached) as [Hp _]. destruct Hp as [evictions Hp]. exists evictions. split; [vm_compute; reflexivity|exact Hp].
Defined.

Lemma no_lost_wakeup_witness : ∃ id c, fo_attachments (vw_fan demo_v5) !! id = Some c ∧ ac_lease c = 1%Z ∧ attached c = true ∧ ac_lagged c = false ∧
  (ac_hasCursor c = true → ac_cursor c = ac_enqueuedEnd c ∧ (vw_busy demo_v5 = Idle → ac_receiveOutput c = true → ac_cursor c = 3%Z)).
Proof.
  destruct (no_lost_wakeup "s" demo_w0 (demo_session demo_w0) demo_v5 (demo_session (vw_world demo_v5)) 1 0 demo_w0_reached demo_w0_session demo_v5_reached ltac:(vm_compute; reflexivity) ltac:(vm_compute; reflexivity) ltac:(apply (bool_decide_eq_true_1 _); vm_compute; reflexivity)) as (id & c & Hc).
  assert (Hend : (ss_base (demo_session (vw_world demo_v5)) + Z.of_nat (length (ss_output (demo_session (vw_world demo_v5)))))%Z = 3%Z) by (vm_compute; reflexivity). rewrite Hend in Hc. by exists id, c.
Defined.
End demo.
