(* ===== verification/Participants.v ===== *)
(** * Who may use an attachment: src/cli/internal/hostruntime/session, manager_attach.go, resume.go, attachment_lease.go

    A session's participants with their attachments, and the secrets with which one moves to another connection.  Each call holds the session's lock and is one step.  The readings of the clock in one call are one time, [now]; a zero time is [None].  Left
    out: the snapshot of an answer, the flags that have a changed size applied (WindowSizes), and the lookup of the session.  The bytes of a new secret and of the serialized screen are given. *)
From S2P Require Import Prelude GoStd Terminal WindowSizes History HistorySpec Fanout FanoutSpec Attach.

Record Participant := mkParticipant { pa_SourceMachineID : string; pa_AttachmentID : string; pa_AccountID : string; pa_ClientID : string; pa_Role : string; pa_ConnectedAt : option Z; pa_Browser : bool; pa_Dimensions : Dimensions }.

Record attachmentResume := mkResume { rs_secret : list Z; rs_resource : string; rs_failures : Z }.

Record managedSession := mkManaged { mg_history : History; mg_fanout : Fanout; mg_participants : gmap string Participant; mg_resumes : gmap string attachmentResume; mg_sizes : windowSizes; mg_generation : Z }.

(** m.config and m.retiring. *)
Record Config := mkConfig { cf_retiring : bool; cf_MaxAttachments : Z; cf_AttachmentBytes : Z }.

Inductive SessionError := ErrInvalidInput | ErrStaleGeneration | StaleGenerationError (current : Z) | AttachErr (e : AttachError).

Definition maxResumeFailures : Z := 3.
Definition MaxTerminalScreenCheckpointBytes : Z := 4194304.

Record ResumeRequest := mkRequest { rq_AttachmentID : string; rq_AccountID : string; rq_ClientID : string; rq_Resource : string; rq_Standing : bool; rq_Secret : list Z; rq_FromSequence : Z }.

Record ActiveWriter := mkWriter { aw_ClientID : string; aw_MachineID : string; aw_LastInput : Z }.

(** ** Field updates *)

Definition set_fanout (s : managedSession) (f : Fanout) : managedSession := mkManaged (mg_history s) f (mg_participants s) (mg_resumes s) (mg_sizes s) (mg_generation s).
Definition set_history (s : managedSession) (h : History) : managedSession := mkManaged h (mg_fanout s) (mg_participants s) (mg_resumes s) (mg_sizes s) (mg_generation s).
Definition set_participants (s : managedSession) (p : gmap string Participant) : managedSession := mkManaged (mg_history s) (mg_fanout s) p (mg_resumes s) (mg_sizes s) (mg_generation s).
Definition set_resumes (s : managedSession) (r : gmap string attachmentResume) : managedSession := mkManaged (mg_history s) (mg_fanout s) (mg_participants s) r (mg_sizes s) (mg_generation s).
Definition set_sizes (s : managedSession) (w : windowSizes) : managedSession := mkManaged (mg_history s) (mg_fanout s) (mg_participants s) (mg_resumes s) w (mg_generation s).

Definition validParticipant (p : Participant) (expectedGeneration : Z) : bool :=
  let validRole := String.eqb (pa_Role p) "owner" || String.eqb (pa_Role p) "viewer" || String.eqb (pa_Role p) "interactive" in
  if String.eqb (pa_AttachmentID p) "" || negb validRole then false
  else if negb (String.eqb (pa_Role p) "owner") || negb (expectedGeneration =? 0)%Z then negb (String.eqb (pa_AccountID p) "") && negb (String.eqb (pa_ClientID p) "")
  else true.

Definition controllingOwner (p : Participant) : bool := negb (String.eqb (pa_Role p) "viewer") && negb (pa_Browser p).

Section participants.
Context `{GoRuntime} (cfg : Config).

Definition removeParticipantLocked (s : managedSession) (id : string) (now : Z) : managedSession :=
  mkManaged (Forget (mg_history s) id) (mg_fanout s) (delete id (mg_participants s)) (delete id (mg_resumes s)) (WindowSizes.detach (mg_sizes s) id now) (mg_generation s).

(** applyWindowSizeObservedLocked *)
Definition applyWindowSize (s : managedSession) (now : Z) : managedSession := set_fanout s (SetController (mg_fanout s) (controller (mg_sizes s)).1 now).

Definition registerWindowLocked (s : managedSession) (p : Participant) (now : Z) : managedSession :=
  if String.eqb (pa_Role p) "viewer" then s else applyWindowSize (set_sizes s (WindowSizes.attach (mg_sizes s) (pa_AttachmentID p) (pa_Dimensions p) now)) now.

(** A fanout's Detach, on the session; whether it succeeded. *)
Definition detach_fanout (m : Heap) (s : managedSession) (id : string) : Heap * managedSession * option FanoutError :=
  let '(m, f, r) := Detach m (mg_fanout s) id in (m, set_fanout s f, r).

Definition prune_one (now : Z) (acc : Heap * managedSession) (id : string) : Heap * managedSession :=
  let '(m, s) := acc in
  match Status (mg_fanout s) id with
  | inr (state, _) => if bool_decide (state = Attached) then (m, s) else let '(m, s, _) := detach_fanout m s id in (m, removeParticipantLocked s id now)
  | inl _ => (m, removeParticipantLocked s id now)
  end.

Definition pruneParticipantsLocked (m : Heap) (s : managedSession) (now : Z) : Heap * managedSession := foldl (prune_one now) (m, s) (range 64 (mg_participants s)).*1.

(** attachLocked, on the session. *)
Definition attach_session (m : Heap) (s : managedSession) (id : string) (from : Z) (controlOnly backpressure : bool) (now : Z) : Heap * managedSession * (SessionError + AttachResult) :=
  let '(m, h, f, r) := attachLocked (cf_retiring cfg) (cf_MaxAttachments cfg) (cf_AttachmentBytes cfg) m (mg_history s) (mg_fanout s) id from controlOnly backpressure now in
  (m, set_fanout (set_history s h) f, match r with inl e => inl (AttachErr e) | inr a => inr a end).

(** The participant is entered when the attachment was. *)
Definition enter_participant (r : Heap * managedSession * (SessionError + AttachResult)) (p : Participant) (now : Z) : Heap * managedSession * (SessionError + AttachResult) :=
  match r with
  | (m, s, inr a) => (m, registerWindowLocked (set_participants s (<[pa_AttachmentID p := p]> (mg_participants s))) p now, inr a)
  | _ => r
  end.

Definition refused_participant (s : managedSession) (p : Participant) (expectedGeneration : Z) : option SessionError :=
  if negb (validParticipant p expectedGeneration) then Some ErrInvalidInput
  else if match pa_ConnectedAt p with None => true | Some _ => false end then Some ErrInvalidInput
  else if (negb (expectedGeneration =? 0)%Z && negb (expectedGeneration =? mg_generation s)%Z) || (negb (String.eqb (pa_Role p) "owner") && (expectedGeneration =? 0)%Z) then Some (StaleGenerationError (mg_generation s))
  else None.

(** The same client takes its own attachment over. *)
Definition take_over (m : Heap) (s : managedSession) (p : Participant) (now : Z) : Heap * managedSession :=
  match mg_participants s !! pa_AttachmentID p with
  | Some old =>
      if String.eqb (pa_AccountID old) (pa_AccountID p) && String.eqb (pa_ClientID old) (pa_ClientID p) then
        match detach_fanout m s (pa_AttachmentID p) with (m, s, None) => (m, removeParticipantLocked s (pa_AttachmentID p) now) | (m, s, Some _) => (m, s) end
      else (m, s)
  | None => (m, s)
  end.

Definition attachParticipantLocked (m : Heap) (s : managedSession) (p : Participant) (fromSequence expectedGeneration now : Z) : Heap * managedSession * (SessionError + AttachResult) :=
  match refused_participant s p expectedGeneration with
  | Some e => (m, s, inl e)
  | None =>
      let '(m, s) := pruneParticipantsLocked m s now in
      let '(m, s) := take_over m s p now in
      let from := if (fromSequence =? 0)%Z then hi_earliest (mg_history s) else fromSequence in
      enter_participant (attach_session m s (pa_AttachmentID p) from (pa_Browser p) (controllingOwner p) now) p now
  end.

Definition AttachLiveParticipantAtGeneration (m : Heap) (s : managedSession) (p : Participant) (expectedGeneration now : Z) : Heap * managedSession * (SessionError + AttachResult) :=
  let latest := hi_latest (mg_history s) in
  match refused_participant s p expectedGeneration with
  | Some e => (m, s, inl e)
  | None =>
      let '(m, s) := pruneParticipantsLocked m s now in
      enter_participant (attach_session m s (pa_AttachmentID p) latest (pa_Browser p) (controllingOwner p) now) p now
  end.

(** Attach and AttachLive. *)
Definition Manager_Attach (m : Heap) (s : managedSession) (id : string) (from now : Z) : Heap * managedSession * (SessionError + AttachResult) := attach_session m s id from false false now.
Definition AttachLive (m : Heap) (s : managedSession) (id : string) (now : Z) : Heap * managedSession * (SessionError + AttachResult) := attach_session m s id (hi_latest (mg_history s)) false false now.

(** Manager.Detach; the others check who asks first. *)
Definition Manager_Detach (m : Heap) (s : managedSession) (id : string) (now : Z) : Heap * managedSession * option SessionError :=
  match detach_fanout m s id with
  | (m, s, None) => (m, applyWindowSize (removeParticipantLocked s id now) now, None)
  | (m, s, Some e) => (m, s, Some (AttachErr (FanoutErr e)))
  end.

Definition AttachmentOwnedBy (s : managedSession) (id accountID clientID : string) : bool :=
  match mg_participants s !! id with Some p => String.eqb (pa_AccountID p) accountID && String.eqb (pa_ClientID p) clientID | None => false end.

Definition DetachParticipantAtGeneration (m : Heap) (s : managedSession) (id accountID clientID : string) (expectedGeneration now : Z) : Heap * managedSession * option SessionError :=
  if (expectedGeneration =? 0)%Z || negb (mg_generation s =? expectedGeneration)%Z || negb (AttachmentOwnedBy s id accountID clientID) then (m, s, Some ErrStaleGeneration)
  else Manager_Detach m s id now.

Definition DetachAttachment (m : Heap) (s : managedSession) (id : string) (lease now : Z) : Heap * managedSession * option SessionError :=
  if (lease =? 0)%Z then (m, s, Some ErrInvalidInput)
  else if negb (attachmentLease (mg_fanout s) id =? lease)%Z then (m, s, None)
  else Manager_Detach m s id now.

(** ** Resuming *)

Definition IssueResume (s : managedSession) (id : string) (lease : Z) (resource : string) (secret : list Z) : managedSession * (SessionError + list Z) :=
  match mg_participants s !! id with
  | None => (s, inl ErrInvalidInput)
  | Some p =>
      if (lease =? 0)%Z || String.eqb resource "" || negb (attachmentLease (mg_fanout s) id =? lease)%Z || negb (String.eqb (pa_Role p) "owner") || pa_Browser p || String.eqb (pa_AccountID p) "" || String.eqb (pa_ClientID p) "" then (s, inl ErrInvalidInput)
      else (set_resumes s (<[id := mkResume secret resource 0]> (mg_resumes s)), inr secret)
  end.

(** Whether a request proves the secret for the participant. *)
Definition proves (record : attachmentResume) (p : Participant) (q : ResumeRequest) : bool :=
  bool_decide (rs_secret record = rq_Secret q) && String.eqb (pa_AccountID p) (rq_AccountID q) && String.eqb (pa_ClientID p) (rq_ClientID q) && (rq_Standing q || String.eqb (rq_Resource q) (rs_resource record)).

Definition ResumeAttachment (m : Heap) (s : managedSession) (q : ResumeRequest) (now : Z) : Heap * managedSession * (SessionError + AttachResult) :=
  match mg_resumes s !! rq_AttachmentID q, mg_participants s !! rq_AttachmentID q with
  | Some record, Some p =>
      let s := set_resumes s (delete (rq_AttachmentID q) (mg_resumes s)) in
      if proves record p q then attachParticipantLocked m s p (rq_FromSequence q) 0 now
      else
        let failures := (rs_failures record + 1)%Z in
        (m, if (failures <? maxResumeFailures)%Z then set_resumes s (<[rq_AttachmentID q := mkResume (rs_secret record) (rs_resource record) failures]> (mg_resumes s)) else s, inl ErrInvalidInput)
  | _, _ => (m, s, inl ErrInvalidInput)
  end.

(** ** Screens, acknowledgements and writers *)

(** BrowserScreenAttachment; [screen] is the serialized screen, if there is one. *)
Definition BrowserScreenAttachment (m : Heap) (s : managedSession) (screen : option (list Z)) (continuation : screenContinuation) (id accountID clientID : string) (expectedGeneration : Z) : Heap * managedSession * (SessionError + list Z * Z) :=
  match screen with
  | None => (m, s, inl ErrInvalidInput)
  | Some serialized =>
      if (expectedGeneration =? 0)%Z || negb (mg_generation s =? expectedGeneration)%Z || negb (AttachmentOwnedBy s id accountID clientID) then (m, s, inl ErrInvalidInput)
      else match Status (mg_fanout s) id with
      | inl _ => (m, s, inl ErrInvalidInput)
      | inr (state, _) =>
          if negb (bool_decide (state = Attached)) then (m, s, inl ErrInvalidInput)
          else if sc_overflow continuation then (m, s, inl (AttachErr (FanoutErr ErrResourceLimit)))
          else
            let checkpoint := serialized ++ sc_pending continuation in
            if (MaxTerminalScreenCheckpointBytes <? Z.of_nat (length checkpoint))%Z then (m, s, inl (AttachErr (FanoutErr ErrResourceLimit)))
            else
              let latest := hi_latest (mg_history s) in
              match SkipTo m (mg_fanout s) id latest with
              | (m, f, Some e) => (m, set_fanout s f, inl (AttachErr (FanoutErr e)))
              | (m, f, None) =>
                  match Acknowledge (mg_history s) id latest with
                  | (h, Some e) => (m, set_history (set_fanout s f) h, inl (AttachErr (HistoryErr e)))
                  | (h, None) => (m, set_history (set_fanout s f) h, inr (checkpoint, latest))
                  end
              end
      end
  end.

Definition acknowledgeAtGeneration (s : managedSession) (id : string) (nextSequence expectedGeneration : Z) : managedSession * option SessionError :=
  if negb (expectedGeneration =? 0)%Z && negb (mg_generation s =? expectedGeneration)%Z then (s, Some (StaleGenerationError (mg_generation s)))
  else match Status (mg_fanout s) id with
  | inr (Attached, _) =>
      if match Acknowledged (mg_history s) id with Some acked => (nextSequence <? acked)%Z | None => false end then (s, None)
      else let '(h, r) := Acknowledge (mg_history s) id nextSequence in (set_history s h, match r with Some e => Some (AttachErr (HistoryErr e)) | None => None end)
  | _ => (s, Some ErrInvalidInput)
  end.

Definition ActiveWriters (s : managedSession) : list ActiveWriter :=
  concat (map (λ p : string * Participant, if String.eqb (pa_Role p.2) "viewer" || negb (IsAttached (mg_fanout s) p.1) then [] else [mkWriter (pa_ClientID p.2) (pa_SourceMachineID p.2) (inputTime (mg_sizes s) p.1)]) (range 65 (mg_participants s))).

(** A restart keeps the owners only. *)
Definition drop_guests (m : Heap) (s : managedSession) (now : Z) : Heap * managedSession :=
  foldl (λ acc p, if String.eqb (pa_Role p.2) "owner" then acc else let '(m, s, _) := detach_fanout acc.1 acc.2 p.1 in (m, removeParticipantLocked s p.1 now)) (m, s) (range 66 (mg_participants s)).
End participants.

(** * Attachments are their participants' own *)

(** ** What the calls on a fanout leave alone *)

Section kept.
Context `{GoRuntime}.

Lemma compact_attachments m f : fo_attachments (Fanout.compactLocked m f).2 = fo_attachments f.
Proof. unfold Fanout.compactLocked. destruct (foldl _ _ _) as [[mn hv] at_]. destruct (negb hv); [done|]. by destruct (drop_read _ _ _). Qed.

Lemma advance_attachments m f previous : fo_attachments (compactAfterAdvanceLocked m f previous).2 = fo_attachments f.
Proof. unfold compactAfterAdvanceLocked. destruct (_ || _); [done|]. destruct (_ <? _)%Z; [done|]. by rewrite compact_attachments. Qed.

Lemma Detach_others m f id id' : id' ≠ id → fo_attachments (Detach m f id).1.2 !! id' = fo_attachments f !! id'.
Proof.
  intros Hne. unfold Detach. destruct (fo_attachments f !! id) as [c|]; [|done]. destruct (negb _ && negb _); [done|]. destruct (Fanout.compactLocked _ _) as [m1 f1] eqn:Hc. apply (f_equal snd) in Hc. apply (f_equal fo_attachments) in Hc. rewrite compact_attachments in Hc. simpl in *. rewrite <-Hc. by rewrite lookup_delete_ne.
Qed.

Lemma SkipTo_others m f id n id' : id' ≠ id → fo_attachments (SkipTo m f id n).1.2 !! id' = fo_attachments f !! id'.
Proof.
  intros Hne. unfold SkipTo. destruct (fo_attachments f !! id) as [c|]; [|done]. destruct (negb (attached c)); [done|]. destruct (negb (ac_receiveOutput c)).
  { destruct (Fanout.compactLocked _ _) as [m1 f1] eqn:Hc. apply (f_equal snd), (f_equal fo_attachments) in Hc. rewrite compact_attachments in Hc. simpl in *. rewrite <-Hc. by rewrite lookup_insert_ne. }
  destruct (_ && _); [done|]. destruct (ac_hasCursor c).
  - destruct (compactAfterAdvanceLocked _ _ _) as [m1 f1] eqn:Hc. apply (f_equal snd), (f_equal fo_attachments) in Hc. rewrite advance_attachments in Hc. simpl in *. rewrite <-Hc. by rewrite lookup_insert_ne.
  - destruct (Fanout.compactLocked _ _) as [m1 f1] eqn:Hc. apply (f_equal snd), (f_equal fo_attachments) in Hc. rewrite compact_attachments in Hc. simpl in *. rewrite <-Hc. by rewrite lookup_insert_ne.
Qed.

Lemma insert_attachments m f e : fo_attachments (insertEventLocked m f e).2 = fo_attachments f.
Proof. unfold insertEventLocked. by destruct (insert_loop _ _ _ _ _) as [[m1 ring] e1]. Qed.

Lemma EnqueueOwned_others m f id e id' : id' ≠ id → fo_attachments (EnqueueOwned m f id e).1.2 !! id' = fo_attachments f !! id'.
Proof.
  intros Hne. unfold EnqueueOwned. destruct (negb _); [done|]. destruct (fo_attachments f !! id) as [c|]; [|done]. destruct (bool_decide _); [done|]. destruct (negb _); [done|]. destruct (_ && _); [done|]. destruct (_ <? _)%Z.
  - destruct (Fanout.compactLocked _ _) as [m1 f1] eqn:Hc. apply (f_equal snd), (f_equal fo_attachments) in Hc. rewrite compact_attachments in Hc. simpl in *. rewrite <-Hc. by rewrite lookup_insert_ne.
  - destruct (insertEventLocked m f e) as [m1 f1] eqn:Hi. apply (f_equal snd), (f_equal fo_attachments) in Hi. rewrite insert_attachments in Hi. simpl in *. rewrite <-Hi. by rewrite lookup_insert_ne.
Qed.

Lemma enqueue_all_others id id' events : id' ≠ id → ∀ m f, fo_attachments (enqueue_all m f id events).1.2 !! id' = fo_attachments f !! id'.
Proof.
  intros Hne. induction events as [|e events IH]; intros m f; cbn [enqueue_all]; [done|]. pose proof (EnqueueOwned_others m f id e id' Hne) as He. destruct (EnqueueOwned m f id e) as [[m1 f1] [err|[ev|]]]; simpl in *; try done. by rewrite IH.
Qed.

Lemma attach_others f id bytes receive pace now id' : id' ≠ id → fo_attachments (Fanout.attach f id bytes receive pace now).1 !! id' = fo_attachments f !! id'.
Proof. intros Hne. unfold Fanout.attach. destruct (_ || _); [done|]. destruct (match fo_attachments f !! id with Some c => _ | None => _ end); [done|]. destruct (_ =? _)%Z; [done|]. simpl. by rewrite lookup_insert_ne. Qed.

Lemma enter_others f id bytes pace now id' : id' ≠ id → fo_attachments (enter f id bytes pace now).1 !! id' = fo_attachments f !! id'.
Proof.
  intros Hne. unfold enter. pose proof (attach_others f id bytes true false now id' Hne) as Ha. destruct (Fanout.attach _ _ _ _ _ _) as [f1 [err|]]; simpl in *; [done|]. destruct pace; [|done]. unfold set_owner. destruct (fo_attachments f1 !! id); [|done]. simpl. by rewrite lookup_insert_ne.
Qed.

(** An attachment that is attached is not entered again. *)
Lemma attach_exists f id bytes receive pace now c : fo_attachments f !! id = Some c → attached c = true → ∃ e, Fanout.attach f id bytes receive pace now = (f, Some e).
Proof. intros Hc Ha. unfold Fanout.attach. destruct (_ || _); [by eexists|]. rewrite Hc, Ha. by eexists. Qed.

Lemma attachLocked_kept retiring max bytes m h f id from control pace now id' c : fo_attachments f !! id' = Some c → attached c = true →
  let '(_, _, f', r) := attachLocked retiring max bytes m h f id from control pace now in fo_attachments f' !! id' = Some c ∧ (id = id' → ∃ e, r = inl e).
Proof.
  intros Hc Ha. unfold attachLocked. destruct retiring; [split; [done|by eexists]|]. destruct (_ <=? _)%Z; [split; [done|by eexists]|]. destruct (decide (id = id')) as [->|Hne].
  - destruct control.
    + unfold AttachControl. destruct (attach_exists f id' bytes false false now c Hc Ha) as [e ->]. split; [done|by eexists].
    + destruct (attach_replay m h from bytes) as [m1 [err|rp]]; [split; [done|by eexists]|]. unfold enter. destruct (attach_exists f id' bytes true false now c Hc Ha) as [e ->]. split; [done|by eexists].
  - assert (Hne' : id' ≠ id) by done. destruct control.
    + unfold AttachControl. pose proof (attach_others f id bytes false false now id' Hne') as H1. destruct (Fanout.attach _ _ _ _ _ _) as [f1 [err|]]; simpl in H1; [split; [congruence|done]|]. destruct (Acknowledge h id (hi_latest h)) as [h1 [err|]]; [|split; [congruence|done]].
      pose proof (Detach_others m f1 id id' Hne') as H2. destruct (Detach m f1 id) as [[m2 f2] r2]. simpl in H2. split; [congruence|done].
    + destruct (attach_replay m h from bytes) as [m1 [err|rp]]; [done|]. pose proof (enter_others f id bytes pace now id' Hne') as H1. destruct (enter f id bytes pace now) as [f1 [err|]]; simpl in H1; [split; [congruence|done]|].
      pose proof (enqueue_all_others id id' (rp_Events rp) Hne' m1 f1) as H2. destruct (enqueue_all m1 f1 id (rp_Events rp)) as [[m2 f2] [err|]]; simpl in H2; [|destruct (cloneReplay m2 (rp_Events rp)) as [m3 events]; split; [congruence|done]].
      pose proof (Detach_others (foldl Release m2 (rp_Events rp)) f2 id id' Hne') as H3. destruct (Detach _ f2 id) as [[m3 f3] r3]. simpl in H3. split; [congruence|done].
Qed.

(** The rule of the window that paces changes nothing else. *)
Definition paced (c c' : attachmentCursor) : Prop := ∃ pace owner at_, c' = with_pace c pace owner at_.

Lemma paced_refl c : paced c c.
Proof. exists (ac_backpressure c), (ac_owner c), (ac_progressAt c). by destruct c. Qed.

Lemma SetController_paced f id now id' c : fo_attachments f !! id' = Some c → ∃ c', fo_attachments (SetController f id now) !! id' = Some c' ∧ paced c c'.
Proof.
  intros Hc. unfold SetController. destruct (match fo_attachments f !! id with Some c => ac_backpressure c | None => false end); [exists c; split; [done|apply paced_refl]|].
  assert (Hmap : ((λ c, with_pace c false (ac_owner c) (ac_progressAt c)) <$> fo_attachments f) !! id' = Some (with_pace c false (ac_owner c) (ac_progressAt c))) by (by rewrite lookup_fmap, Hc).
  destruct (fo_attachments f !! id) as [t|] eqn:Ht; [destruct (attached t && ac_owner t)|]; simpl; try (eexists; split; [exact Hmap|by eexists _, _, _]).
  destruct (decide (id' = id)) as [->|Hne]; [rewrite lookup_insert_eq; eexists; split; [done|]; rewrite Hc in Ht; injection Ht as <-; by eexists _, _, _|]. rewrite lookup_insert_ne by done. eexists. split; [exact Hmap|by eexists _, _, _].
Qed.

(** *** What is queued *)

(** What the ring has from [n] on is still there: an event, or one with the same bytes that covers it. *)
Definition still_queued (m : Heap) (ring ring' : list Event) (n : Z) : Prop :=
  ∀ e, e ∈ ring → (n < ev_EndSequence e)%Z → ∃ x, x ∈ ring' ∧ (x = e ∨ covers m x e = true).

Definition keeps (n : Z) (m : Heap) (f : Fanout) (m' : Heap) (f' : Fanout) : Prop := hp_buffers m' = hp_buffers m ∧ still_queued m (fo_ring f) (fo_ring f') n.

(** An attachment that is attached has its cursor at [n]. *)
Definition reader_at (f : Fanout) (id : string) (n : Z) : Prop := ∃ c, fo_attachments f !! id = Some c ∧ attached c = true ∧ ac_hasCursor c = true ∧ ac_cursor c = n.

Lemma covers_buffers m m' a b : hp_buffers m' = hp_buffers m → covers m' a b = covers m a b.
Proof. intros Hb. unfold covers, same_bytes, read. by rewrite Hb. Qed.

Lemma covers_trans m a b c : covers m a b = true → covers m b c = true → covers m a c = true.
Proof.
  unfold covers, same_bytes. rewrite !andb_true_iff, !Z.leb_le, !Z.eqb_eq, !bool_decide_eq_true. intros [[[H1 H2] H3] H4] [[[H5 H6] H7] H8]. split; [split; [lia|congruence]|].
  rewrite <-H8, <-H4, skipn_firstn_comm, firstn_firstn, skipn_skipn.
  destruct (Z.le_gt_cases (ev_StartSequence c) (ev_EndSequence c)); [f_equal; [|f_equal]; lia|]. by replace (Z.to_nat (ev_EndSequence c - ev_StartSequence c)) with 0%nat by lia.
Qed.

Lemma still_refl m ring n : still_queued m ring ring n.
Proof. intros e He _. exists e. by auto. Qed.

Lemma still_trans m r1 r2 r3 n : still_queued m r1 r2 n → still_queued m r2 r3 n → still_queued m r1 r3 n.
Proof.
  intros H1 H2 e He Hn. destruct (H1 e He Hn) as (x & Hx & Hxe). assert (Hnx : (n < ev_EndSequence x)%Z) by (destruct Hxe as [->|Hc]; [done|apply covers_inv in Hc; lia]).
  destruct (H2 x Hx Hnx) as (y & Hy & Hyx). exists y. split; [done|]. destruct Hxe as [->|Hxe]; [done|]. right. destruct Hyx as [->|Hyx]; [done|by eapply covers_trans].
Qed.

Lemma still_buffers m m' ring ring' n : hp_buffers m' = hp_buffers m → still_queued m' ring ring' n → still_queued m ring ring' n.
Proof. intros Hb Hs e He Hn. destruct (Hs e He Hn) as (x & Hx & Hxe). exists x. by rewrite <-(covers_buffers m m'). Qed.

Lemma keeps_ring n m f m' f' : hp_buffers m' = hp_buffers m → fo_ring f' = fo_ring f → keeps n m f m' f'.
Proof. intros Hb Hr. split; [done|]. rewrite Hr. apply still_refl. Qed.

Lemma keeps_trans n m1 f1 m2 f2 m3 f3 : keeps n m1 f1 m2 f2 → keeps n m2 f2 m3 f3 → keeps n m1 f1 m3 f3.
Proof. intros [B1 S1] [B2 S2]. split; [congruence|]. eapply still_trans; [exact S1|]. by eapply still_buffers. Qed.

Lemma releases_buffers l : ∀ m, hp_buffers (foldl Release m l) = hp_buffers m.
Proof. induction l as [|e l IH]; intros m; cbn [foldl]; [done|]. by rewrite IH, Release_buffers. Qed.

Lemma drop_read_keeps minimum ring : ∀ m m' ring', drop_read m ring minimum = (m', ring') → hp_buffers m' = hp_buffers m ∧ ∀ e, e ∈ ring → (minimum < ev_EndSequence e)%Z → e ∈ ring'.
Proof.
  induction ring as [|x ring IH]; intros m m' ring'; simpl; [by intros [= <- <-]|]. destruct (Z.leb_spec (ev_EndSequence x) minimum) as [Hle|].
  - intros (Hb & Hin)%IH. rewrite Release_buffers in Hb. split; [done|]. intros e [->|He]%elem_of_cons Hm; [lia|by apply Hin].
  - by intros [= <- <-].
Qed.

Lemma compact_keeps m f id n m' f' : reader_at f id n → Fanout.compactLocked m f = (m', f') → keeps n m f m' f'.
Proof.
  intros (c & Hc & Ha & Hh & <-). unfold Fanout.compactLocked. set (l := range 59 (fo_attachments f)).
  assert (Hl : foldl (λ acc p, minimum_step acc p.2) (0%Z, false, 0%Z) l = foldl minimum_step (0%Z, false, 0%Z) (map snd l)).
  { generalize (0%Z, false, 0%Z). clear. induction l as [|p l IH]; intros acc; simpl; [done|apply IH]. }
  rewrite Hl. pose proof (minimum_fold (map snd l) (0%Z, false, 0%Z)) as Hmin. destruct (foldl minimum_step _ _) as [[minimum have] at_]. destruct Hmin as [_ Hmin].
  destruct (Hmin c) as [-> Hle]; [apply list_elem_of_fmap; exists (id, c); split; [done|by apply elem_of_range]|done|done|]. simpl.
  destruct (drop_read m (fo_ring f) minimum) as [m1 ring1] eqn:Hd. intros [= <- <-]. destruct (drop_read_keeps _ _ _ _ _ Hd) as [Hb Hin]. split; [done|]. intros e He Hn. exists e. split; [apply Hin; [done|lia]|by left].
Qed.

Lemma advance_keeps m f id n previous m' f' : reader_at f id n → compactAfterAdvanceLocked m f previous = (m', f') → keeps n m f m' f'.
Proof.
  intros Hr. unfold compactAfterAdvanceLocked. destruct (_ || _); [intros [= <- <-]; by apply keeps_ring|]. destruct (_ <? _)%Z; [intros [= <- <-]; by apply keeps_ring|].
  apply (compact_keeps m (set_minimum f _ _ _) id n); exact Hr.
Qed.

Lemma insert_loop_keeps m0 e : ∀ fuel m ring ringEnd m' ring' ringEnd', (length ring < fuel)%nat → hp_buffers m = hp_buffers m0 → insert_loop fuel m ring ringEnd e = (m', ring', ringEnd') →
  hp_buffers m' = hp_buffers m0 ∧ ∀ y, y ∈ e :: ring → ∃ x, x ∈ ring' ∧ (x = y ∨ covers m0 x y = true).
Proof.
  induction fuel as [|fuel IH]; intros m ring ringEnd m' ring' ringEnd' Hf Hb; simpl; [lia|]. destruct (_ <=? _)%Z.
  { intros [= <- <- <-]. rewrite Retain_buffers. split; [done|]. intros y Hy. exists y. split; [|by left]. rewrite elem_of_app, list_elem_of_singleton. apply elem_of_cons in Hy as [->|?]; by auto. }
  pose proof (scan_spec m e ring) as Hscan. destruct (scan m e ring) as [[i|]|].
  - destruct Hscan as (x & Hi & Hc). rewrite Hi. rewrite (covers_buffers _ _ _ _ Hb) in Hc. intros Hins. apply IH in Hins as [Hb' Hin]; [|pose proof (lookup_lt_Some _ _ _ Hi); rewrite length_delete by (by eexists); lia|by rewrite Release_buffers].
    split; [done|]. intros y Hy. assert (Hcase : y ∈ e :: delete i ring ∨ y = x).
    { apply elem_of_cons in Hy as [->|Hy]; [left; left|]. rewrite (delete_Permutation _ _ _ Hi) in Hy. apply elem_of_cons in Hy as [->|Hy]; [by right|left; by right]. }
    destruct Hcase as [?| ->]; [by apply Hin|]. destruct (Hin e ltac:(left)) as (z & Hz & Hze). exists z. split; [done|right]. destruct Hze as [->|Hze]; [done|by eapply covers_trans].
  - destruct Hscan as (x & Hx & Hc). rewrite (covers_buffers _ _ _ _ Hb) in Hc. intros [= <- <- <-]. split; [done|]. intros y [->|Hy]%elem_of_cons; [exists x; by auto|exists y; by auto].
  - intros [= <- <- <-]. rewrite Retain_buffers. split; [done|]. intros y Hy. exists y. split; [|by left]. rewrite (sort_by_perm ring_less (ring ++ [e])), elem_of_app, list_elem_of_singleton. apply elem_of_cons in Hy as [->|?]; by auto.
Qed.

Lemma insert_keeps n m f e m' f' : insertEventLocked m f e = (m', f') → keeps n m f m' f'.
Proof.
  unfold insertEventLocked. destruct (insert_loop _ _ _ _ _) as [[m1 ring] e1] eqn:Hi. intros [= <- <-]. destruct (insert_loop_keeps m _ _ _ _ _ _ _ _ ltac:(apply Nat.lt_succ_diag_r) eq_refl Hi) as [Hb Hin].
  split; [done|]. intros y Hy _. apply Hin. by right.
Qed.

Lemma Detach_keeps m f id id' n : id' ≠ id → reader_at f id' n → keeps n m f (Detach m f id).1.1 (Detach m f id).1.2.
Proof.
  intros Hne (c' & Hc' & Hr). unfold Detach. destruct (fo_attachments f !! id) as [c|]; [|by apply keeps_ring]. destruct (negb _ && negb _); [by apply keeps_ring|]. destruct (Fanout.compactLocked _ _) as [m1 f1] eqn:Hc.
  apply (compact_keeps _ _ id' n) in Hc; [exact Hc|]. exists c'. simpl. by rewrite lookup_delete_ne.
Qed.

Lemma SkipTo_keeps m f id to id' n : id' ≠ id → reader_at f id' n → keeps n m f (SkipTo m f id to).1.1 (SkipTo m f id to).1.2.
Proof.
  intros Hne (c' & Hc' & Hr). unfold SkipTo. destruct (fo_attachments f !! id) as [c|]; [|by apply keeps_ring]. destruct (negb (attached c)); [by apply keeps_ring|].
  assert (Hput : ∀ x, reader_at (put_cursor f id x) id' n) by (intros x; exists c'; simpl; by rewrite lookup_insert_ne).
  destruct (negb (ac_receiveOutput c)); [|destruct (_ && _); [by apply keeps_ring|]; destruct (ac_hasCursor c)].
  - destruct (Fanout.compactLocked _ _) as [m1 f1] eqn:Hc. by apply (compact_keeps _ _ id' n) in Hc.
  - destruct (compactAfterAdvanceLocked _ _ _) as [m1 f1] eqn:Hc. by apply (advance_keeps _ _ id' n) in Hc.
  - destruct (Fanout.compactLocked _ _) as [m1 f1] eqn:Hc. by apply (compact_keeps _ _ id' n) in Hc.
Qed.

Lemma EnqueueOwned_keeps m f id e id' n : id' ≠ id → reader_at f id' n → keeps n m f (EnqueueOwned m f id e).1.1 (EnqueueOwned m f id e).1.2.
Proof.
  intros Hne (c' & Hc' & Hr). unfold EnqueueOwned. destruct (negb _); [by apply keeps_ring|]. destruct (fo_attachments f !! id) as [c|]; [|by apply keeps_ring]. destruct (bool_decide _); [by apply keeps_ring|]. destruct (negb _); [by apply keeps_ring|].
  destruct (_ && _); [by apply keeps_ring|]. destruct (_ <? _)%Z.
  - destruct (Fanout.compactLocked _ _) as [m1 f1] eqn:Hc. apply (compact_keeps _ _ id' n) in Hc; [exact Hc|]. exists c'. simpl. by rewrite lookup_insert_ne.
  - destruct (insertEventLocked m f e) as [m1 f1] eqn:Hi. exact (insert_keeps n _ _ _ _ _ Hi).
Qed.

Lemma reader_others f f' id' n : fo_attachments f' !! id' = fo_attachments f !! id' → reader_at f id' n → reader_at f' id' n.
Proof. intros He (c & Hc & Hr). exists c. by rewrite He. Qed.

Lemma enqueue_all_keeps id id' n events : id' ≠ id → ∀ m f, reader_at f id' n → keeps n m f (enqueue_all m f id events).1.1 (enqueue_all m f id events).1.2.
Proof.
  intros Hne. induction events as [|e events IH]; intros m f Hr; cbn [enqueue_all]; [by apply keeps_ring|]. pose proof (EnqueueOwned_others m f id e id' Hne) as He. pose proof (EnqueueOwned_keeps m f id e id' n Hne Hr) as Hk.
  destruct (EnqueueOwned m f id e) as [[m1 f1] [err|[ev|]]]; simpl in *; try done. eapply keeps_trans; [exact Hk|]. apply IH. by eapply reader_others.
Qed.

Lemma replay_loop_buffers limit from events : ∀ remaining m r, hp_buffers (replay_loop limit from events remaining m r).1 = hp_buffers m.
Proof. induction events as [|e events IH]; intros remaining m r; cbn [replay_loop]; [done|]. repeat case_match; rewrite ?IH; simpl; by rewrite ?Retain_buffers. Qed.

Lemma ReplayOwned_buffers m h from limit : hp_buffers (ReplayOwned m h from limit).1 = hp_buffers m.
Proof.
  unfold ReplayOwned. destruct (_ <? _)%Z; [done|]. destruct (_ <? _)%Z; [done|]. pose proof (replay_loop_buffers limit from (live h) limit m (mkReplay from from (hi_earliest h) (hi_latest h) [])) as Hb. by destruct (replay_loop _ _ _ _ _ _).
Qed.

Lemma attach_replay_buffers m h from bytes : hp_buffers (attach_replay m h from bytes).1 = hp_buffers m.
Proof.
  unfold attach_replay. pose proof (ReplayOwned_buffers m h from (attachmentReplayLimit bytes)) as Hb. destruct (ReplayOwned m h from _) as [m1 [err|rp]]; simpl in *; [done|]. destruct (_ <? _)%Z; [|done].
  by rewrite ReplayOwned_buffers, releases_buffers.
Qed.

Lemma cloneReplay_grows events : ∀ m, HistorySpec.grows m (cloneReplay m events).1.
Proof.
  induction events as [|e events IH]; intros m; cbn [cloneReplay]; [by apply grows_same|]. unfold cloneEvent. destruct (clone m _) as [m1 w] eqn:Hc. specialize (IH m1). destruct (cloneReplay m1 events) as [m2 rest]. simpl in *. eapply grows_trans; [by eapply clone_grows|exact IH].
Qed.

Lemma enter_ring f id bytes pace now : fo_ring (enter f id bytes pace now).1 = fo_ring f.
Proof. unfold enter, Fanout.attach. destruct (_ || _); [done|]. destruct (match fo_attachments f !! id with Some c => _ | None => _ end); [done|]. destruct (_ =? _)%Z; [done|]. destruct pace; [|done]. unfold set_owner. by destruct (_ !! _). Qed.

Lemma SetController_ring f id now : fo_ring (SetController f id now) = fo_ring f.
Proof. unfold SetController. destruct (match fo_attachments f !! id with Some c => _ | None => _ end); [done|]. destruct (fo_attachments f !! id) as [c|]; [|done]. by destruct (_ && _). Qed.

(** Attaching somebody else, or trying to attach again, leaves what is queued. *)
Definition grows_and_keeps (n : Z) (m : Heap) (f : Fanout) (m' : Heap) (f' : Fanout) : Prop := HistorySpec.grows m m' ∧ still_queued m (fo_ring f) (fo_ring f') n.

Lemma keeps_grows n m f m' f' : keeps n m f m' f' → grows_and_keeps n m f m' f'.
Proof. intros [Hb Hs]. split; [|done]. unfold HistorySpec.grows. by rewrite Hb. Qed.

Lemma output_keeps_then n m1 f1 m2 f2 m3 f3 : keeps n m1 f1 m2 f2 → grows_and_keeps n m2 f2 m3 f3 → grows_and_keeps n m1 f1 m3 f3.
Proof. intros [B1 S1] [B2 S2]. split; [unfold HistorySpec.grows in *; by rewrite <-B1|]. eapply still_trans; [exact S1|]. by eapply still_buffers. Qed.

Lemma attachLocked_keeps retiring max bytes m h f id from control pace now id' n : reader_at f id' n →
  let '(m', _, f', _) := attachLocked retiring max bytes m h f id from control pace now in grows_and_keeps n m f m' f'.
Proof.
  intros Hr. assert (Hself : ∀ m', hp_buffers m' = hp_buffers m → grows_and_keeps n m f m' f) by (intros m' Hb; by apply keeps_grows, keeps_ring).
  unfold attachLocked. destruct retiring; [by apply Hself|]. destruct (_ <=? _)%Z; [by apply Hself|]. destruct control.
  - unfold AttachControl. destruct (decide (id = id')) as [->|Hne].
    { destruct Hr as (c & Hc & Ha & _). destruct (attach_exists f id' bytes false false now c Hc Ha) as [e ->]. by apply Hself. }
    pose proof (attach_others f id bytes false false now id' (not_eq_sym Hne)) as Ho. assert (Hring : fo_ring (Fanout.attach f id bytes false false now).1 = fo_ring f).
    { unfold Fanout.attach. destruct (_ || _); [done|]. destruct (match fo_attachments f !! id with Some c => _ | None => _ end); [done|]. by destruct (_ =? _)%Z. }
    destruct (Fanout.attach _ _ _ _ _ _) as [f1 [err|]]; simpl in *; [by apply keeps_grows, keeps_ring|]. destruct (Acknowledge h id (hi_latest h)) as [h1 [err|]]; [|by apply keeps_grows, keeps_ring].
    pose proof (Detach_keeps m f1 id id' n (not_eq_sym Hne) (reader_others _ _ _ _ Ho Hr)) as Hk. destruct (Detach m f1 id) as [[m2 f2] r2]. apply keeps_grows. eapply keeps_trans; [|exact Hk]. by apply keeps_ring.
  - pose proof (attach_replay_buffers m h from bytes) as Hb. destruct (attach_replay m h from bytes) as [m1 [err|rp]]; simpl in Hb; [by apply Hself|]. destruct (decide (id = id')) as [->|Hne].
    { unfold enter. destruct Hr as (c & Hc & Ha & _). destruct (attach_exists f id' bytes true false now c Hc Ha) as [e ->]. apply Hself. by rewrite releases_buffers. }
    pose proof (enter_others f id bytes pace now id' (not_eq_sym Hne)) as Ho. pose proof (enter_ring f id bytes pace now) as Hring. destruct (enter f id bytes pace now) as [f1 [err|]]; simpl in *.
    { apply keeps_grows, keeps_ring; [by rewrite releases_buffers|done]. }
    pose proof (reader_others _ _ _ _ Ho Hr) as Hr1. pose proof (enqueue_all_keeps id id' n (rp_Events rp) (not_eq_sym Hne) m1 f1 Hr1) as Hk. pose proof (enqueue_all_others id id' (rp_Events rp) (not_eq_sym Hne) m1 f1) as Ho2.
    assert (H1 : keeps n m f m1 f1) by by apply keeps_ring. destruct (enqueue_all m1 f1 id (rp_Events rp)) as [[m2 f2] [err|]]; simpl in *.
    + assert (H3 : keeps n m2 f2 (foldl Release m2 (rp_Events rp)) f2) by (apply keeps_ring; [apply releases_buffers|done]).
      pose proof (Detach_keeps (foldl Release m2 (rp_Events rp)) f2 id id' n (not_eq_sym Hne) (reader_others _ _ _ _ Ho2 Hr1)) as H4. destruct (Detach _ f2 id) as [[m3 f3] r3]. apply keeps_grows.
      eapply keeps_trans; [exact H1|]. eapply keeps_trans; [exact Hk|]. by eapply keeps_trans.
    + pose proof (cloneReplay_grows (rp_Events rp) m2) as Hg. destruct (cloneReplay m2 (rp_Events rp)) as [m3 events]. simpl in Hg. eapply output_keeps_then; [exact H1|]. eapply output_keeps_then; [exact Hk|].
      split; [|apply still_refl]. unfold HistorySpec.grows in *. by rewrite releases_buffers.
Qed.
End kept.

(** ** Participants and their secrets *)

Section alone.
Context `{GoRuntime} (cfg : Config).

(** Every participant is left with its secret, or gone with it. *)
Definition left_or_gone (s s' : managedSession) : Prop := ∀ id, (mg_participants s' !! id = mg_participants s !! id ∧ mg_resumes s' !! id = mg_resumes s !! id) ∨ (mg_participants s' !! id = None ∧ mg_resumes s' !! id = None).

(** An attachment that is attached stays as it is, with its participant. *)
Definition stays (s s' : managedSession) (id : string) (c : attachmentCursor) : Prop :=
  (∃ c', fo_attachments (mg_fanout s') !! id = Some c' ∧ paced c c') ∧ mg_participants s' !! id = mg_participants s !! id ∧ mg_resumes s' !! id = mg_resumes s !! id.

Lemma left_refl s : left_or_gone s s.
Proof. intros id. by left. Qed.

Lemma left_trans s1 s2 s3 : left_or_gone s1 s2 → left_or_gone s2 s3 → left_or_gone s1 s3.
Proof. intros H1 H2 id. destruct (H2 id) as [[-> ->]|?]; [|by right]. apply H1. Qed.

Lemma paced_attached c c' : paced c c' → attached c' = attached c.
Proof. by intros (p & o & a & ->). Qed.

Lemma paced_trans c1 c2 c3 : paced c1 c2 → paced c2 c3 → paced c1 c3.
Proof. intros (p & o & a & ->) (p' & o' & a' & ->). by exists p', o', a'. Qed.

Lemma stays_refl s id c : fo_attachments (mg_fanout s) !! id = Some c → stays s s id c.
Proof. intros Hc. split; [exists c; split; [done|apply paced_refl]|done]. Qed.

Lemma stays_trans s1 s2 s3 id c : stays s1 s2 id c → (∀ c', fo_attachments (mg_fanout s2) !! id = Some c' → paced c c' → stays s2 s3 id c') → stays s1 s3 id c.
Proof.
  intros [(c2 & H2 & P2) (E1 & E2)] Hnext. destruct (Hnext c2 H2 P2) as [(c3 & H3 & P3) (E3 & E4)]. split; [exists c3; split; [done|by eapply paced_trans]|]. by rewrite E3, E4.
Qed.

Lemma remove_left s id now : left_or_gone s (removeParticipantLocked s id now).
Proof. intros id'. simpl. destruct (decide (id' = id)) as [->|Hne]; [right; by rewrite !lookup_delete_eq|left; by rewrite !lookup_delete_ne]. Qed.

Lemma remove_stays s id now id' c : id' ≠ id → fo_attachments (mg_fanout s) !! id' = Some c → stays s (removeParticipantLocked s id now) id' c.
Proof. intros Hne Hc. split; [exists c; split; [done|apply paced_refl]|]. simpl. by rewrite !lookup_delete_ne. Qed.

Lemma detach_fanout_spec m s id m' s' r : detach_fanout m s id = (m', s', r) → left_or_gone s s' ∧ ∀ id' c, id' ≠ id → fo_attachments (mg_fanout s) !! id' = Some c → stays s s' id' c.
Proof.
  unfold detach_fanout. pose proof (λ id', Detach_others m (mg_fanout s) id id') as Hd. destruct (Detach _ _ _) as [[m1 f1] r1]. intros [= <- <- <-]. split; [intros id'; by left|]. intros id' c Hne Hc. split; [exists c; simpl in *; rewrite Hd by done; split; [done|apply paced_refl]|done].
Qed.

Lemma apply_size_left s now : left_or_gone s (applyWindowSize s now).
Proof. intros id. by left. Qed.

Lemma apply_size_stays s now id c : fo_attachments (mg_fanout s) !! id = Some c → stays s (applyWindowSize s now) id c.
Proof. intros Hc. split; [|done]. simpl. by apply SetController_paced. Qed.

Definition present (s : managedSession) (id : string) : Prop := ∃ c, fo_attachments (mg_fanout s) !! id = Some c ∧ attached c = true.

Lemma prune_one_spec now m s id m' s' : prune_one now (m, s) id = (m', s') → left_or_gone s s' ∧ (∀ id' c, fo_attachments (mg_fanout s) !! id' = Some c → attached c = true → stays s s' id' c) ∧ (mg_participants s' !! id = None ∨ present s' id).
Proof.
  unfold prune_one. unfold Status. destruct (fo_attachments (mg_fanout s) !! id) as [c0|] eqn:H0.
  - destruct (bool_decide (ac_state c0 = Attached)) eqn:Hb.
    + intros [= <- <-]. split_and!; [apply left_refl|intros id' c Hc _; by apply stays_refl|right; by exists c0].
    + destruct (detach_fanout m s id) as [[m1 s1] r] eqn:Hd. intros [= <- <-]. destruct (detach_fanout_spec _ _ _ _ _ _ Hd) as [Hl Hs]. split_and!; [eapply left_trans; [done|apply remove_left]| |left; simpl; by rewrite lookup_delete_eq].
      intros id' c Hc Ha. assert (Hne : id' ≠ id) by (intros ->; rewrite H0 in Hc; injection Hc as <-; unfold attached in Ha; congruence). eapply stays_trans; [by apply Hs|]. intros c' Hc' _. by apply remove_stays.
  - intros [= <- <-]. split_and!; [apply remove_left| |left; simpl; by rewrite lookup_delete_eq]. intros id' c Hc Ha. apply remove_stays; [congruence|done].
Qed.

Lemma stays_present s s' id c : stays s s' id c → attached c = true → present s' id.
Proof. intros [(c' & Hc & Hp) _] Ha. exists c'. split; [done|]. by rewrite (paced_attached _ _ Hp). Qed.

Lemma prune_fold now l : ∀ m s m' s', foldl (prune_one now) (m, s) l = (m', s') → left_or_gone s s' ∧ (∀ id' c, fo_attachments (mg_fanout s) !! id' = Some c → attached c = true → stays s s' id' c) ∧ ∀ id, id ∈ l → mg_participants s' !! id = None ∨ present s' id.
Proof.
  induction l as [|x l IH]; intros m s m' s'; cbn [foldl]; [intros [= <- <-]; split_and!; [apply left_refl|intros; by apply stays_refl|intros id Hid; by apply elem_of_nil in Hid]|].
  destruct (prune_one now (m, s) x) as [m1 s1] eqn:H1. intros Hf. destruct (prune_one_spec _ _ _ _ _ _ H1) as (L1 & S1 & D1). destruct (IH _ _ _ _ Hf) as (L2 & S2 & D2). split_and!.
  - by eapply left_trans.
  - intros id' c Hc Ha. eapply stays_trans; [by apply S1|]. intros c' Hc' Hp. apply S2; [done|]. by rewrite (paced_attached _ _ Hp).
  - intros id. rewrite elem_of_cons. intros [->|Hid]; [|by apply D2]. destruct D1 as [Hn|(c & Hc & Ha)]; [left; destruct (L2 x) as [[-> _]|[? _]]; done|right; eapply stays_present; [by apply S2|done]].
Qed.

Lemma prune_spec m s now m' s' : pruneParticipantsLocked m s now = (m', s') → left_or_gone s s' ∧ (∀ id' c, fo_attachments (mg_fanout s) !! id' = Some c → attached c = true → stays s s' id' c) ∧ ∀ id p, mg_participants s' !! id = Some p → present s' id.
Proof.
  unfold pruneParticipantsLocked. intros Hf. destruct (prune_fold _ _ _ _ _ _ Hf) as (L & S & D). split_and!; try done. intros id p Hp. assert (Hin : id ∈ (range 64 (mg_participants s)).*1).
  { destruct (L id) as [[E _]|[E _]]; [|congruence]. rewrite Hp in E. apply list_elem_of_fmap. exists (id, p). split; [done|]. by apply elem_of_range. }
  destruct (D id Hin) as [Hn|?]; [congruence|done].
Qed.

Lemma attach_session_spec m s id from control pace now m' s' r : attach_session cfg m s id from control pace now = (m', s', r) →
  mg_participants s' = mg_participants s ∧ mg_resumes s' = mg_resumes s ∧ (∀ id' c, fo_attachments (mg_fanout s) !! id' = Some c → attached c = true → stays s s' id' c) ∧ (present s id → ∃ e, r = inl e).
Proof.
  unfold attach_session. pose proof (λ id' c, attachLocked_kept (cf_retiring cfg) (cf_MaxAttachments cfg) (cf_AttachmentBytes cfg) m (mg_history s) (mg_fanout s) id from control pace now id' c) as Hk.
  destruct (attachLocked _ _ _ _ _ _ _ _ _ _ _) as [[[m1 h1] f1] r1]. intros [= <- <- <-]. simpl. split_and!; try done.
  - intros id' c Hc Ha. destruct (Hk id' c Hc Ha) as [H1 _]. split; [exists c; split; [done|apply paced_refl]|done].
  - intros (c & Hc & Ha). destruct (Hk id c Hc Ha) as [_ H2]. destruct (H2 eq_refl) as [e ->]. by eexists.
Qed.

Lemma take_over_spec m s p now m' s' : take_over m s p now = (m', s') → left_or_gone s s' ∧
  (∀ id' c q, mg_participants s !! id' = Some q → (pa_AccountID q, pa_ClientID q) ≠ (pa_AccountID p, pa_ClientID p) → fo_attachments (mg_fanout s) !! id' = Some c → stays s s' id' c) ∧
  (∀ id' c, id' ≠ pa_AttachmentID p → fo_attachments (mg_fanout s) !! id' = Some c → stays s s' id' c) ∧
  ((∀ id q, mg_participants s !! id = Some q → present s id) → ∀ q, mg_participants s' !! pa_AttachmentID p = Some q → present s' (pa_AttachmentID p)).
Proof.
  unfold take_over. assert (Hsame : (m, s) = (m', s') → left_or_gone s s' ∧ (∀ id' c q, mg_participants s !! id' = Some q → (pa_AccountID q, pa_ClientID q) ≠ (pa_AccountID p, pa_ClientID p) → fo_attachments (mg_fanout s) !! id' = Some c → stays s s' id' c) ∧
    (∀ id' c, id' ≠ pa_AttachmentID p → fo_attachments (mg_fanout s) !! id' = Some c → stays s s' id' c) ∧ ((∀ id q, mg_participants s !! id = Some q → present s id) → ∀ q, mg_participants s' !! pa_AttachmentID p = Some q → present s' (pa_AttachmentID p))).
  { intros [= <- <-]. split_and!; [apply left_refl|intros; by apply stays_refl|intros; by apply stays_refl|intros Hall q Hq; by eapply Hall]. }
  destruct (mg_participants s !! pa_AttachmentID p) as [old|] eqn:Hold; [|done]. destruct (String.eqb_spec (pa_AccountID old) (pa_AccountID p)) as [Ea|], (String.eqb_spec (pa_ClientID old) (pa_ClientID p)) as [Ec|]; simpl; try done.
  destruct (detach_fanout m s (pa_AttachmentID p)) as [[m1 s1] [e|]] eqn:Hd; destruct (detach_fanout_spec _ _ _ _ _ _ Hd) as [Hl Hst].
  - intros [= <- <-]. assert (Hf : s1 = s).
    { unfold detach_fanout in Hd. destruct (Detach m (mg_fanout s) (pa_AttachmentID p)) as [[m2 f2] r2] eqn:Hdd. injection Hd as <- <- ->. unfold Detach in Hdd. destruct (fo_attachments (mg_fanout s) !! pa_AttachmentID p); [destruct (negb _ && negb _) in Hdd; [|by destruct (Fanout.compactLocked _ _) in Hdd]|]; injection Hdd as <- <-; by destruct s. }
    subst s1. split_and!; [done|intros; by apply stays_refl|intros; by apply stays_refl|intros Hall q Hq; by eapply Hall].
  - intros [= <- <-]. assert (Hother : ∀ id' c, id' ≠ pa_AttachmentID p → fo_attachments (mg_fanout s) !! id' = Some c → stays s (removeParticipantLocked s1 (pa_AttachmentID p) now) id' c).
    { intros id' c Hne Hc. eapply stays_trans; [by apply Hst|]. intros c' Hc' _. by apply remove_stays. }
    split_and!; [eapply left_trans; [done|apply remove_left]| |done|intros _ q; simpl; by rewrite lookup_delete_eq].
    intros id' c q Hq Hne Hc. apply Hother; [|done]. intros ->. rewrite Hold in Hq. injection Hq as <-. congruence.
Qed.
End alone.

(** ** Calls *)

Inductive Call :=
| CAttachParticipant (p : Participant) (from generation : Z) | CAttachLiveParticipant (p : Participant) (generation : Z) | CAttach (id : string) (from : Z) | CAttachLive (id : string)
| CDetach (id : string) | CDetachParticipant (id account client : string) (generation : Z) | CDetachAttachment (id : string) (lease : Z)
| CIssue (id : string) (lease : Z) (resource : string) (secret : list Z) | CResume (q : ResumeRequest)
| CScreen (screen : option (list Z)) (continuation : screenContinuation) (id account client : string) (generation : Z) | CAcknowledge (id : string) (next generation : Z) | CDropGuests.

(** The account and the client in whose name a call is made, when it names them. *)
Definition caller (c : Call) : option (string * string) :=
  match c with
  | CAttachParticipant p _ _ | CAttachLiveParticipant p _ => Some (pa_AccountID p, pa_ClientID p)
  | CDetachParticipant _ account client _ | CScreen _ _ _ account client _ => Some (account, client)
  | CResume q => Some (rq_AccountID q, rq_ClientID q)
  | _ => None
  end.

(** What is recorded of secrets: that one was given out, a wrong attempt, and a use. *)
Inductive Logged := Issued (id account client resource : string) (secret : list Z) | Wrong (id : string) | Used (id : string).
#[export] Instance Logged_eq_dec : EqDecision Logged.
Proof. solve_decision. Defined.

Definition entry_id (x : Logged) : string := match x with Issued id _ _ _ _ | Wrong id | Used id => id end.
Definition wrongs (id : string) (l : list Logged) : Z := Z.of_nat (length (List.filter (λ x, bool_decide (x = Wrong id)) l)).

Section calls.
Context `{GoRuntime} (cfg : Config).

Definition run_call (m : Heap) (s : managedSession) (c : Call) (now : Z) : Heap * managedSession :=
  match c with
  | CAttachParticipant p from generation => (attachParticipantLocked cfg m s p from generation now).1
  | CAttachLiveParticipant p generation => (AttachLiveParticipantAtGeneration cfg m s p generation now).1
  | CAttach id from => (Manager_Attach cfg m s id from now).1
  | CAttachLive id => (AttachLive cfg m s id now).1
  | CDetach id => (Manager_Detach m s id now).1
  | CDetachParticipant id account client generation => (DetachParticipantAtGeneration m s id account client generation now).1
  | CDetachAttachment id lease => (DetachAttachment m s id lease now).1
  | CIssue id lease resource secret => (m, (IssueResume s id lease resource secret).1)
  | CResume q => (ResumeAttachment cfg m s q now).1
  | CScreen screen continuation id account client generation => (BrowserScreenAttachment m s screen continuation id account client generation).1
  | CAcknowledge id next generation => (m, (acknowledgeAtGeneration s id next generation).1)
  | CDropGuests => drop_guests m s now
  end.

Definition log_call (s : managedSession) (c : Call) (log : list Logged) : list Logged :=
  match c with
  | CIssue id lease resource secret =>
      match mg_participants s !! id, (IssueResume s id lease resource secret).2 with Some p, inr _ => log ++ [Issued id (pa_AccountID p) (pa_ClientID p) resource secret] | _, _ => log end
  | CResume q =>
      match mg_resumes s !! rq_AttachmentID q, mg_participants s !! rq_AttachmentID q with
      | Some r, Some p => log ++ [if proves r p q then Used (rq_AttachmentID q) else Wrong (rq_AttachmentID q)]
      | _, _ => log
      end
  | _ => log
  end.

(** Any calls, at any times; whatever else happens to the session leaves participants and secrets alone. *)
Inductive session_step : Heap * managedSession * list Logged → Heap * managedSession * list Logged → Prop :=
| ss_call m s log c now : session_step (m, s, log) ((run_call m s c now).1, (run_call m s c now).2, log_call s c log)
| ss_other m s log m' h f sizes generation : session_step (m, s, log) (m', mkManaged h f (mg_participants s) (mg_resumes s) sizes generation, log).

Definition new_session (m : Heap) (h : History) : Heap * managedSession * list Logged := (m, mkManaged h NewFanout ∅ ∅ newWindowSizes 0, []).

(** *** Entering a participant *)

Lemma register_left s p now : left_or_gone s (registerWindowLocked s p now).
Proof. unfold registerWindowLocked. destruct (String.eqb _ _); [apply left_refl|]. intros id. by left. Qed.

Lemma register_stays s p now id c : fo_attachments (mg_fanout s) !! id = Some c → stays s (registerWindowLocked s p now) id c.
Proof. intros Hc. unfold registerWindowLocked. destruct (String.eqb _ _); [by apply stays_refl|]. by apply (apply_size_stays (set_sizes s _)). Qed.

(** An attempt to attach after a state in which the participants are present: who was there keeps the attachment. *)
Lemma enter_spec m s p from control pace now m' s' r : enter_participant (attach_session cfg m s (pa_AttachmentID p) from control pace now) p now = (m', s', r) →
  (∀ id c, fo_attachments (mg_fanout s) !! id = Some c → attached c = true → (∃ c', fo_attachments (mg_fanout s') !! id = Some c' ∧ paced c c') ∧ mg_participants s' !! id = mg_participants s !! id ∧ mg_resumes s' !! id = mg_resumes s !! id) ∧
  (left_or_gone s s' ∨ (∃ a, r = inr a) ∧ ¬ present s (pa_AttachmentID p) ∧ left_or_gone (set_participants s (<[pa_AttachmentID p := p]> (mg_participants s))) s').
Proof.
  destruct (attach_session cfg m s (pa_AttachmentID p) from control pace now) as [[m1 s1] r1] eqn:Ha. destruct (attach_session_spec _ _ _ _ _ _ _ _ _ _ _ Ha) as (E1 & E2 & Hst & Hex). unfold enter_participant. destruct r1 as [e|a].
  - intros [= <- <- <-]. split; [exact Hst|left]. intros id. left. by rewrite E1, E2.
  - intros [= <- <- <-]. assert (Hnp : ¬ present s (pa_AttachmentID p)) by (intros Hp; by destruct (Hex Hp)). split.
    + intros id c Hc Hat. assert (Hne : id ≠ pa_AttachmentID p) by (intros ->; apply Hnp; by exists c). destruct (Hst id c Hc Hat) as [(c1 & H1 & P1) (R1 & R2)].
      destruct (register_stays (set_participants s1 (<[pa_AttachmentID p := p]> (mg_participants s1))) p now id c1 H1) as [(c2 & H2 & P2) (R3 & R4)]. split_and!; [exists c2; split; [done|by eapply paced_trans]| |].
      * rewrite R3. simpl. rewrite lookup_insert_ne by done. by rewrite E1.
      * rewrite R4. simpl. by rewrite E2.
    + right. split_and!; [by eexists|done|]. intros id. destruct (register_left (set_participants s1 (<[pa_AttachmentID p := p]> (mg_participants s1))) p now id) as [[-> ->]|?]; [left|by right]. simpl. by rewrite E1, E2.
Qed.

Lemma attachParticipant_spec m s p from generation now m' s' r : attachParticipantLocked cfg m s p from generation now = (m', s', r) →
  (∀ id c q, mg_participants s !! id = Some q → (pa_AccountID q, pa_ClientID q) ≠ (pa_AccountID p, pa_ClientID p) → fo_attachments (mg_fanout s) !! id = Some c → attached c = true →
    (∃ c', fo_attachments (mg_fanout s') !! id = Some c' ∧ paced c c') ∧ mg_participants s' !! id = Some q) ∧
  (left_or_gone s s' ∨ ∃ s1, left_or_gone s s1 ∧ mg_participants s1 !! pa_AttachmentID p = None ∧ left_or_gone (set_participants s1 (<[pa_AttachmentID p := p]> (mg_participants s1))) s').
Proof.
  unfold attachParticipantLocked. destruct (refused_participant s p generation); [intros [= <- <- <-]; split; [intros id c q Hq _ Hc _; split; [exists c; split; [done|apply paced_refl]|done]|left; apply left_refl]|].
  destruct (pruneParticipantsLocked m s now) as [m1 s1] eqn:Hp. destruct (prune_spec _ _ _ _ _ Hp) as (L1 & S1 & D1). destruct (take_over m1 s1 p now) as [m2 s2] eqn:Ht. destruct (take_over_spec _ _ _ _ _ _ Ht) as (L2 & S2 & S2' & D2). intros He.
  destruct (enter_spec _ _ _ _ _ _ _ _ _ _ He) as (S3 & Hcase). split.
  - intros id c q Hq Hne Hc Ha. destruct (S1 id c Hc Ha) as [(c1 & H1 & P1) (R1 & _)]. rewrite Hq in R1. destruct (S2 id c1 q R1 Hne H1) as [(c2 & H2 & P2) (R2 & _)]. rewrite R1 in R2.
    destruct (S3 id c2 H2) as ((c3 & H3 & P3) & R3 & _); [by rewrite (paced_attached _ _ P2), (paced_attached _ _ P1)|]. split; [exists c3; split; [done|]|congruence]. eapply paced_trans; [|done]. by eapply paced_trans.
  - destruct Hcase as [L3|(_ & Hnp & L3)]; [left; eapply left_trans; [done|by eapply left_trans]|right]. exists s2. split_and!; [by eapply left_trans| |done].
    destruct (mg_participants s2 !! pa_AttachmentID p) as [q|] eqn:Hq; [|done]. destruct Hnp. by eapply D2.
Qed.

Lemma attachLive_spec m s p generation now m' s' r : AttachLiveParticipantAtGeneration cfg m s p generation now = (m', s', r) →
  (∀ id c, fo_attachments (mg_fanout s) !! id = Some c → attached c = true → (∃ c', fo_attachments (mg_fanout s') !! id = Some c' ∧ paced c c') ∧ mg_participants s' !! id = mg_participants s !! id) ∧
  (left_or_gone s s' ∨ ∃ s1, left_or_gone s s1 ∧ mg_participants s1 !! pa_AttachmentID p = None ∧ left_or_gone (set_participants s1 (<[pa_AttachmentID p := p]> (mg_participants s1))) s').
Proof.
  unfold AttachLiveParticipantAtGeneration. destruct (refused_participant s p generation); [intros [= <- <- <-]; split; [intros id c Hc _; split; [exists c; split; [done|apply paced_refl]|done]|left; apply left_refl]|].
  destruct (pruneParticipantsLocked m s now) as [m1 s1] eqn:Hp. destruct (prune_spec _ _ _ _ _ Hp) as (L1 & S1 & D1). intros He. destruct (enter_spec _ _ _ _ _ _ _ _ _ _ He) as (S3 & Hcase). split.
  - intros id c Hc Ha. destruct (S1 id c Hc Ha) as [(c1 & H1 & P1) (R1 & _)]. destruct (S3 id c1 H1) as ((c3 & H3 & P3) & R3 & _); [by rewrite (paced_attached _ _ P1)|]. split; [exists c3; split; [done|by eapply paced_trans]|congruence].
  - destruct Hcase as [L3|(_ & Hnp & L3)]; [left; by eapply left_trans|right]. exists s1. split_and!; try done. destruct (mg_participants s1 !! pa_AttachmentID p) as [q|] eqn:Hq; [|done]. destruct Hnp. by eapply D1.
Qed.

Lemma Manager_Detach_spec m s id now m' s' r : Manager_Detach m s id now = (m', s', r) → left_or_gone s s' ∧ ∀ id' c, id' ≠ id → fo_attachments (mg_fanout s) !! id' = Some c → stays s s' id' c.
Proof.
  unfold Manager_Detach. destruct (detach_fanout m s id) as [[m1 s1] [e|]] eqn:Hd; destruct (detach_fanout_spec _ _ _ _ _ _ Hd) as [L1 S1]; intros [= <- <- <-]; [done|]. split.
  - eapply left_trans; [done|]. eapply left_trans; [apply (remove_left s1 id now)|apply apply_size_left].
  - intros id' c Hne Hc. eapply stays_trans; [by apply S1|]. intros c1 H1 _. eapply stays_trans; [by apply (remove_stays s1 id now)|]. intros c2 H2 _. by apply apply_size_stays.
Qed.

Lemma stranger_stays m s c now id p cur account client : mg_participants s !! id = Some p → fo_attachments (mg_fanout s) !! id = Some cur → attached cur = true → caller c = Some (account, client) → (account, client) ≠ (pa_AccountID p, pa_ClientID p) →
  let s' := (run_call m s c now).2 in mg_participants s' !! id = Some p ∧ ∃ pace owner at_, fo_attachments (mg_fanout s') !! id = Some (with_pace cur pace owner at_).
Proof.
  intros Hp Hc Ha Hcall Hne. assert (Hstay : ∀ s', stays s s' id cur → mg_participants s' !! id = Some p ∧ ∃ pace owner at_, fo_attachments (mg_fanout s') !! id = Some (with_pace cur pace owner at_)).
  { intros s' [(c' & Hc' & (a & b & d & ->)) (E & _)]. split; [congruence|by eauto]. }
  assert (Hself : stays s s id cur) by (by apply stays_refl). assert (Hown : ∀ id', AttachmentOwnedBy s id' account client = true → id' ≠ id).
  { intros id' Hown ->. unfold AttachmentOwnedBy in Hown. rewrite Hp in Hown. apply andb_true_iff in Hown as [<-%String.eqb_eq <-%String.eqb_eq]. done. }
  destruct c; simpl in Hcall; try done; injection Hcall as <- <-; simpl.
  - destruct (attachParticipantLocked _ _ _ _ _ _ _) as [[m' s'] r] eqn:Hr. destruct (attachParticipant_spec _ _ _ _ _ _ _ _ _ Hr) as [Hs _]. destruct (Hs id cur p Hp ltac:(congruence) Hc Ha) as [(c' & Hc' & (a & b & d & ->)) E]. split; [done|by eauto].
  - destruct (AttachLiveParticipantAtGeneration _ _ _ _ _ _) as [[m' s'] r] eqn:Hr. destruct (attachLive_spec _ _ _ _ _ _ _ _ Hr) as [Hs _]. destruct (Hs id cur Hc Ha) as [(c' & Hc' & (a & b & d & ->)) E]. split; [by rewrite <-Hp|by eauto].
  - unfold DetachParticipantAtGeneration. destruct (_ || _) eqn:Hg; [by apply Hstay|]. apply orb_false_iff in Hg as [_ Hg%negb_false_iff]. destruct (Manager_Detach m s id0 now) as [[m' s'] r] eqn:Hd. destruct (Manager_Detach_spec _ _ _ _ _ _ _ Hd) as [_ Hs]. apply Hstay, Hs; [|done]. apply not_eq_sym. by apply Hown.
  - unfold ResumeAttachment. destruct (mg_resumes s !! rq_AttachmentID q) as [record|]; [|by apply Hstay]. destruct (mg_participants s !! rq_AttachmentID q) as [p'|] eqn:Hp'; [|by apply Hstay]. destruct (proves record p' q) eqn:Hv.
    + unfold proves in Hv. rewrite !andb_true_iff in Hv. destruct Hv as [[[_ Ea%String.eqb_eq] Ec%String.eqb_eq] _]. destruct (attachParticipantLocked _ _ _ _ _ _ _) as [[m' s'] r] eqn:Hr. destruct (attachParticipant_spec _ _ _ _ _ _ _ _ _ Hr) as [Hs _].
      destruct (Hs id cur p Hp ltac:(congruence) Hc Ha) as [(c' & Hc' & (a & b & d & ->)) E]. split; [done|by eauto].
    + destruct (_ <? _)%Z; simpl; (split; [done|]); apply (Hstay s Hself).
  - unfold BrowserScreenAttachment. destruct screen as [serialized|]; [|by apply Hstay]. destruct (_ || _) eqn:Hg; [by apply Hstay|]. apply orb_false_iff in Hg as [_ Hg%negb_false_iff]. apply Hown in Hg. destruct (Status _ _) as [e|[state q]]; [by apply Hstay|].
    destruct (negb _); [by apply Hstay|]. destruct (sc_overflow _); [by apply Hstay|]. destruct (_ <? _)%Z; [by apply Hstay|]. pose proof (SkipTo_others m (mg_fanout s) id0 (hi_latest (mg_history s)) id (not_eq_sym Hg)) as Hk.
    destruct (SkipTo _ _ _ _) as [[m1 f1] [e|]]; simpl in Hk; [apply Hstay; split; [exists cur; split; [simpl; congruence|apply paced_refl]|done]|]. destruct (Acknowledge _ _ _) as [h1 [e|]]; apply Hstay; (split; [exists cur; split; [simpl; congruence|apply paced_refl]|done]).
Qed.

(** *** What is queued for it *)

Lemma stays_reader s s' id c : stays s s' id c → attached c = true → ac_hasCursor c = true → reader_at (mg_fanout s') id (ac_cursor c).
Proof. intros [(c' & Hc' & Hp) _] Ha Hh. exists c'. rewrite (paced_attached _ _ Hp). destruct Hp as (p & o & a & ->). by split_and!. Qed.

Lemma reader_stays s s' id n : reader_at (mg_fanout s) id n → (∀ c, fo_attachments (mg_fanout s) !! id = Some c → attached c = true → stays s s' id c) → reader_at (mg_fanout s') id n.
Proof. intros (c & Hc & Ha & Hh & <-) Hs. by eapply stays_reader; [apply Hs|..]. Qed.

Lemma detach_fanout_keeps m s id m' s' r id' n : id' ≠ id → reader_at (mg_fanout s) id' n → detach_fanout m s id = (m', s', r) → keeps n m (mg_fanout s) m' (mg_fanout s').
Proof. intros Hne Hr. unfold detach_fanout. pose proof (Detach_keeps m (mg_fanout s) id id' n Hne Hr) as Hk. destruct (Detach _ _ _) as [[m1 f1] r1]. by intros [= <- <- <-]. Qed.

Lemma prune_one_keeps now m s id m' s' id' n : reader_at (mg_fanout s) id' n → prune_one now (m, s) id = (m', s') → keeps n m (mg_fanout s) m' (mg_fanout s').
Proof.
  intros Hr. unfold prune_one, Status. destruct (fo_attachments (mg_fanout s) !! id) as [c0|] eqn:H0; [|intros [= <- <-]; by apply keeps_ring].
  destruct (bool_decide (ac_state c0 = Attached)) eqn:Hb; [intros [= <- <-]; by apply keeps_ring|]. destruct (detach_fanout m s id) as [[m1 s1] r] eqn:Hd. intros [= <- <-].
  assert (Hne : id' ≠ id) by (intros ->; destruct Hr as (c & Hc & Ha & _); rewrite H0 in Hc; injection Hc as <-; unfold attached in Ha; congruence). exact (detach_fanout_keeps _ _ _ _ _ _ _ _ Hne Hr Hd).
Qed.

Lemma prune_keeps m s now m' s' id' n : reader_at (mg_fanout s) id' n → pruneParticipantsLocked m s now = (m', s') → keeps n m (mg_fanout s) m' (mg_fanout s').
Proof.
  unfold pruneParticipantsLocked. generalize ((range 64 (mg_participants s)).*1). intros l. revert m s. induction l as [|x l IH]; intros m s Hr; cbn [foldl]; [intros [= <- <-]; by apply keeps_ring|].
  destruct (prune_one now (m, s) x) as [m1 s1] eqn:H1. intros Hf. destruct (prune_one_spec _ _ _ _ _ _ H1) as (_ & S1 & _). eapply keeps_trans; [by eapply prune_one_keeps|]. apply (IH m1 s1); [|done]. by eapply reader_stays; [exact Hr|apply S1].
Qed.

Lemma take_over_keeps m s p now m' s' id q n : mg_participants s !! id = Some q → (pa_AccountID q, pa_ClientID q) ≠ (pa_AccountID p, pa_ClientID p) → reader_at (mg_fanout s) id n → take_over m s p now = (m', s') →
  keeps n m (mg_fanout s) m' (mg_fanout s').
Proof.
  intros Hq Hne Hr. unfold take_over. destruct (mg_participants s !! pa_AttachmentID p) as [old|] eqn:Hold; [|intros [= <- <-]; by apply keeps_ring].
  destruct (String.eqb_spec (pa_AccountID old) (pa_AccountID p)) as [Ea|], (String.eqb_spec (pa_ClientID old) (pa_ClientID p)) as [Ec|]; simpl; try (intros [= <- <-]; by apply keeps_ring).
  assert (Hid : id ≠ pa_AttachmentID p) by (intros ->; rewrite Hold in Hq; injection Hq as <-; congruence). destruct (detach_fanout m s (pa_AttachmentID p)) as [[m1 s1] [e|]] eqn:Hd; intros [= <- <-]; exact (detach_fanout_keeps _ _ _ _ _ _ _ _ Hid Hr Hd).
Qed.

Lemma enter_keeps m s p from control pace now m' s' r id n : reader_at (mg_fanout s) id n → enter_participant (attach_session cfg m s (pa_AttachmentID p) from control pace now) p now = (m', s', r) →
  grows_and_keeps n m (mg_fanout s) m' (mg_fanout s').
Proof.
  intros Hr. unfold enter_participant, attach_session. pose proof (attachLocked_keeps (cf_retiring cfg) (cf_MaxAttachments cfg) (cf_AttachmentBytes cfg) m (mg_history s) (mg_fanout s) (pa_AttachmentID p) from control pace now id n Hr) as Hk.
  destruct (attachLocked _ _ _ _ _ _ _ _ _ _ _) as [[[m1 h1] f1] [e|a]]; intros [= <- <- _]; [exact Hk|]. unfold registerWindowLocked. destruct (String.eqb _ _); [exact Hk|]. destruct Hk as [Hg Hs]. split; [done|]. simpl. by rewrite SetController_ring.
Qed.

Lemma attachParticipant_keeps m s p from generation now m' s' r id q n : mg_participants s !! id = Some q → (pa_AccountID q, pa_ClientID q) ≠ (pa_AccountID p, pa_ClientID p) → reader_at (mg_fanout s) id n →
  attachParticipantLocked cfg m s p from generation now = (m', s', r) → grows_and_keeps n m (mg_fanout s) m' (mg_fanout s').
Proof.
  intros Hq Hne Hr. unfold attachParticipantLocked. destruct (refused_participant s p generation); [intros [= <- <- <-]; by apply keeps_grows, keeps_ring|].
  destruct (pruneParticipantsLocked m s now) as [m1 s1] eqn:Hp. destruct (prune_spec _ _ _ _ _ Hp) as (_ & S1 & _). destruct (take_over m1 s1 p now) as [m2 s2] eqn:Ht. destruct (take_over_spec _ _ _ _ _ _ Ht) as (_ & S2 & _). intros He.
  assert (Hq1 : mg_participants s1 !! id = Some q) by (destruct Hr as (c & Hc & Ha & _); destruct (S1 id c Hc Ha) as [_ [E _]]; congruence).
  pose proof (reader_stays _ _ _ _ Hr (S1 id)) as Hr1. assert (Hr2 : reader_at (mg_fanout s2) id n) by (eapply reader_stays; [exact Hr1|intros c Hc _; by eapply S2]).
  eapply output_keeps_then; [by eapply prune_keeps|]. eapply output_keeps_then; [by eapply take_over_keeps|]. by eapply enter_keeps.
Qed.

Lemma attachLive_keeps m s p generation now m' s' r id n : reader_at (mg_fanout s) id n → AttachLiveParticipantAtGeneration cfg m s p generation now = (m', s', r) → grows_and_keeps n m (mg_fanout s) m' (mg_fanout s').
Proof.
  intros Hr. unfold AttachLiveParticipantAtGeneration. destruct (refused_participant s p generation); [intros [= <- <- <-]; by apply keeps_grows, keeps_ring|].
  destruct (pruneParticipantsLocked m s now) as [m1 s1] eqn:Hp. destruct (prune_spec _ _ _ _ _ Hp) as (_ & S1 & _). intros He. eapply output_keeps_then; [by eapply prune_keeps|]. eapply enter_keeps; [|exact He]. by eapply reader_stays; [exact Hr|apply S1].
Qed.

Lemma Manager_Detach_keeps m s id now m' s' r id' n : id' ≠ id → reader_at (mg_fanout s) id' n → Manager_Detach m s id now = (m', s', r) → keeps n m (mg_fanout s) m' (mg_fanout s').
Proof.
  intros Hne Hr. unfold Manager_Detach. destruct (detach_fanout m s id) as [[m1 s1] [e|]] eqn:Hd; pose proof (detach_fanout_keeps _ _ _ _ _ _ _ _ Hne Hr Hd) as Hk; intros [= <- <- <-]; [done|].
  eapply keeps_trans; [exact Hk|]. apply keeps_ring; [done|]. simpl. by rewrite SetController_ring.
Qed.

Lemma not_own s id p account client id' : mg_participants s !! id = Some p → (account, client) ≠ (pa_AccountID p, pa_ClientID p) → AttachmentOwnedBy s id' account client = true → id ≠ id'.
Proof. intros Hp Hne Hown ->. unfold AttachmentOwnedBy in Hown. rewrite Hp in Hown. apply andb_true_iff in Hown as [<-%String.eqb_eq <-%String.eqb_eq]. done. Qed.

Lemma stranger_keeps m s c now id p n account client : mg_participants s !! id = Some p → reader_at (mg_fanout s) id n → caller c = Some (account, client) → (account, client) ≠ (pa_AccountID p, pa_ClientID p) →
  grows_and_keeps n m (mg_fanout s) (run_call m s c now).1 (mg_fanout (run_call m s c now).2).
Proof.
  intros Hp Hr Hcall Hne. assert (Hsame : ∀ s', fo_ring (mg_fanout s') = fo_ring (mg_fanout s) → grows_and_keeps n m (mg_fanout s) m (mg_fanout s')) by (intros s' Hs; by apply keeps_grows, keeps_ring).
  pose proof (not_own s id p account client) as Hown. destruct c; simpl in Hcall; try done; injection Hcall as <- <-; simpl.
  - destruct (attachParticipantLocked _ _ _ _ _ _ _) as [[m' s'] r] eqn:Ha. eapply attachParticipant_keeps; [exact Hp|exact (not_eq_sym Hne)|done|exact Ha].
  - destruct (AttachLiveParticipantAtGeneration _ _ _ _ _ _) as [[m' s'] r] eqn:Ha. by eapply attachLive_keeps.
  - unfold DetachParticipantAtGeneration. destruct (_ || _) eqn:Hg; [by apply Hsame|]. apply orb_false_iff in Hg as [_ Hg%negb_false_iff]. destruct (Manager_Detach m s id0 now) as [[m' s'] r] eqn:Hd. apply keeps_grows. eapply Manager_Detach_keeps; [|done|exact Hd]. by eapply Hown.
  - unfold ResumeAttachment. destruct (mg_resumes s !! rq_AttachmentID q) as [record|]; [|by apply Hsame]. destruct (mg_participants s !! rq_AttachmentID q) as [p'|] eqn:Hp'; [|by apply Hsame]. destruct (proves record p' q) eqn:Hv; [|destruct (_ <? _)%Z; by apply Hsame].
    unfold proves in Hv. rewrite !andb_true_iff in Hv. destruct Hv as [[[_ Ea%String.eqb_eq] Ec%String.eqb_eq] _]. destruct (attachParticipantLocked _ _ _ _ _ _ _) as [[m' s'] r] eqn:Ha.
    eapply (attachParticipant_keeps m (set_resumes s _)); [exact Hp|rewrite Ea, Ec; exact (not_eq_sym Hne)|done|exact Ha].
  - unfold BrowserScreenAttachment. destruct screen as [serialized|]; [|by apply Hsame]. destruct (_ || _) eqn:Hg; [by apply Hsame|]. apply orb_false_iff in Hg as [_ Hg%negb_false_iff]. destruct (Status _ _) as [e|[state q]]; [by apply Hsame|].
    destruct (negb _); [by apply Hsame|]. destruct (sc_overflow _); [by apply Hsame|]. destruct (_ <? _)%Z; [by apply Hsame|].
    pose proof (SkipTo_keeps m (mg_fanout s) id0 (hi_latest (mg_history s)) id n (Hown _ Hp Hne Hg) Hr) as Hk. destruct (SkipTo _ _ _ _) as [[m1 f1] [e|]]; [by apply keeps_grows|]. destruct (Acknowledge _ _ _) as [h1 [e|]]; by apply keeps_grows.
Qed.

(** C31: an attachment that is attached belongs to its participant: a call in the name of another account or client (attaching under the same name, detaching, resuming, taking a screen) neither detaches nor replaces it, nor does it change its lease or its
    cursor, and its participant stays entered; at most the window that paces changes.  What is queued for it stays queued: every event of the ring that ends after its cursor is still there, or one that covers it with the same bytes is, and no
    buffer that there was is changed. *)
Theorem attachment_isolated m s c now id p cur account client : mg_participants s !! id = Some p → fo_attachments (mg_fanout s) !! id = Some cur → attached cur = true → caller c = Some (account, client) → (account, client) ≠ (pa_AccountID p, pa_ClientID p) →
  let m' := (run_call m s c now).1 in let s' := (run_call m s c now).2 in
  mg_participants s' !! id = Some p ∧ (∃ pace owner at_, fo_attachments (mg_fanout s') !! id = Some (with_pace cur pace owner at_)) ∧
  (ac_hasCursor cur = true → hp_buffers m ⊆ hp_buffers m' ∧ ∀ e, e ∈ fo_ring (mg_fanout s) → (ac_cursor cur < ev_EndSequence e)%Z → ∃ x, x ∈ fo_ring (mg_fanout s') ∧ (x = e ∨ covers m x e = true)).
Proof.
  intros Hp Hc Ha Hcall Hne m' s'. destruct (stranger_stays m s c now id p cur account client Hp Hc Ha Hcall Hne) as [H1 H2]. split; [exact H1|]. split; [exact H2|].
  intros Hh. by eapply (stranger_keeps m s c now id p); [exact Hp|exists cur| |].
Qed.

(** *** Secrets *)

(** A secret that was given out stands: since then no other was given out for the attachment, it was not used, and there were so many wrong attempts. *)
Definition stands (log : list Logged) (id : string) (p : Participant) (r : attachmentResume) : Prop :=
  ∃ pre post, log = pre ++ Issued id (pa_AccountID p) (pa_ClientID p) (rs_resource r) (rs_secret r) :: post ∧ (∀ x, x ∈ post → entry_id x = id → x = Wrong id) ∧ wrongs id post = rs_failures r ∧ (rs_failures r < maxResumeFailures)%Z.

Definition secrets_ok (s : managedSession) (log : list Logged) : Prop := ∀ id r, mg_resumes s !! id = Some r → ∃ p, mg_participants s !! id = Some p ∧ stands log id p r.

Lemma secrets_left s s' log : secrets_ok s log → left_or_gone s s' → secrets_ok s' log.
Proof. intros Hok Hl id r Hr. destruct (Hl id) as [[E1 E2]|[_ E2]]; [|congruence]. rewrite E2 in Hr. destruct (Hok id r Hr) as (p & Hp & Hs). exists p. by rewrite E1. Qed.

Lemma secrets_enter s p log : secrets_ok s log → mg_participants s !! pa_AttachmentID p = None → secrets_ok (set_participants s (<[pa_AttachmentID p := p]> (mg_participants s))) log.
Proof. intros Hok Hn id r Hr. simpl in *. destruct (Hok id r Hr) as (q & Hq & Hs). exists q. rewrite lookup_insert_ne by congruence. done. Qed.

Lemma wrongs_app id l l' : wrongs id (l ++ l') = (wrongs id l + wrongs id l')%Z.
Proof. unfold wrongs. rewrite List.filter_app, length_app. lia. Qed.

Lemma stands_other log id p r x : stands log id p r → entry_id x ≠ id → stands (log ++ [x]) id p r.
Proof.
  intros (pre & post & -> & Hpost & Hw & Hf) Hx. exists pre, (post ++ [x]). split_and!; [by rewrite <-app_assoc| | |done].
  - intros y. rewrite elem_of_app, list_elem_of_singleton. intros [Hy| ->]; [by apply Hpost|done].
  - rewrite wrongs_app, Hw. unfold wrongs. simpl. rewrite bool_decide_eq_false_2 by (intros ->; done). simpl. lia.
Qed.

Lemma stands_wrong log id p r : stands log id p r → (rs_failures r + 1 < maxResumeFailures)%Z → stands (log ++ [Wrong id]) id p (mkResume (rs_secret r) (rs_resource r) (rs_failures r + 1)).
Proof.
  intros (pre & post & -> & Hpost & Hw & Hf) Hlt. exists pre, (post ++ [Wrong id]). split_and!; [by rewrite <-app_assoc| | |done].
  - intros y. rewrite elem_of_app, list_elem_of_singleton. intros [Hy| ->]; [by apply Hpost|done].
  - rewrite wrongs_app, Hw. unfold wrongs. simpl. rewrite bool_decide_eq_true_2 by done. simpl. lia.
Qed.

(** The secret of an attachment is dropped, and something is recorded of it. *)
Lemma secrets_drop s id log x : secrets_ok s log → entry_id x = id → secrets_ok (set_resumes s (delete id (mg_resumes s))) (log ++ [x]).
Proof. intros Hok Hx id' r. simpl. rewrite lookup_delete_Some. intros [Hne Hr]. destruct (Hok id' r Hr) as (p & Hp & Hs). exists p. split; [done|]. apply stands_other; [done|congruence]. Qed.

(** The secret of an attachment is set. *)
Lemma secrets_set s id log x p r : secrets_ok s log → entry_id x = id → mg_participants s !! id = Some p → stands (log ++ [x]) id p r → secrets_ok (set_resumes s (<[id := r]> (mg_resumes s))) (log ++ [x]).
Proof.
  intros Hok Hx Hp Hs id' r'. simpl. rewrite lookup_insert_Some. intros [[<- <-]|[Hne Hr]]; [by exists p|]. destruct (Hok id' r' Hr) as (q & Hq & Hs'). exists q. split; [done|]. apply stands_other; [done|congruence].
Qed.

Lemma secrets_entered s s' p log : secrets_ok s log → left_or_gone s s' ∨ (∃ s1, left_or_gone s s1 ∧ mg_participants s1 !! pa_AttachmentID p = None ∧ left_or_gone (set_participants s1 (<[pa_AttachmentID p := p]> (mg_participants s1))) s') → secrets_ok s' log.
Proof. intros Hok [Hl|(s1 & L1 & Hn & L2)]; [by eapply secrets_left|]. eapply secrets_left; [|exact L2]. apply secrets_enter; [by eapply secrets_left|done]. Qed.

Lemma drop_guests_left m s now : left_or_gone s (drop_guests m s now).2.
Proof.
  unfold drop_guests. generalize (range 66 (mg_participants s)). intros l. revert m s. induction l as [|p l IH]; intros m s; cbn [foldl]; [apply left_refl|]. destruct (String.eqb (pa_Role p.2) "owner"); [apply IH|]. cbn [fst snd].
  destruct (detach_fanout m s p.1) as [[m1 s1] r] eqn:Hd. destruct (detach_fanout_spec _ _ _ _ _ _ Hd) as [L1 _]. eapply left_trans; [exact L1|]. eapply left_trans; [apply (remove_left s1 p.1 now)|apply IH].
Qed.

Lemma secrets_resume m s q log now : secrets_ok s log → secrets_ok (ResumeAttachment cfg m s q now).1.2 (log_call s (CResume q) log).
Proof.
  intros Hok. unfold ResumeAttachment. simpl. destruct (mg_resumes s !! rq_AttachmentID q) as [record|] eqn:Hr; [|done]. destruct (mg_participants s !! rq_AttachmentID q) as [p|] eqn:Hp; [|done]. destruct (proves record p q).
  - destruct (attachParticipantLocked _ _ _ _ _ _ _) as [[m' s'] r] eqn:Ha. destruct (attachParticipant_spec _ _ _ _ _ _ _ _ _ Ha) as [_ Hc]. eapply secrets_entered; [|exact Hc]. by apply secrets_drop.
  - simpl. destruct (Hok _ _ Hr) as (p' & Hp' & Hs). rewrite Hp in Hp'. injection Hp' as <-. destruct (Z.ltb_spec (rs_failures record + 1) maxResumeFailures); [|by apply secrets_drop].
    pose proof (secrets_set s (rq_AttachmentID q) log (Wrong (rq_AttachmentID q)) p _ Hok eq_refl Hp (stands_wrong _ _ _ _ Hs ltac:(done))) as Hset. unfold set_resumes in *. simpl. by rewrite insert_delete_eq.
Qed.

Lemma secrets_step m s log m' s' log' : session_step (m, s, log) (m', s', log') → secrets_ok s log → secrets_ok s' log'.
Proof.
  intros Hstep Hok. inversion Hstep as [m0 s0 log0 c now|]; subst; [|done]. destruct c; simpl.
  - destruct (attachParticipantLocked _ _ _ _ _ _ _) as [[m' s'] r] eqn:Ha. destruct (attachParticipant_spec _ _ _ _ _ _ _ _ _ Ha) as [_ Hc]. by eapply secrets_entered.
  - destruct (AttachLiveParticipantAtGeneration _ _ _ _ _ _) as [[m' s'] r] eqn:Ha. destruct (attachLive_spec _ _ _ _ _ _ _ _ Ha) as [_ Hc]. by eapply secrets_entered.
  - eapply secrets_left; [exact Hok|]. unfold Manager_Attach. destruct (attach_session _ _ _ _ _ _ _ _) as [[m' s'] r] eqn:Ha. destruct (attach_session_spec _ _ _ _ _ _ _ _ _ _ _ Ha) as (E1 & E2 & _). intros id'. left. simpl. by rewrite E1, E2.
  - eapply secrets_left; [exact Hok|]. unfold AttachLive. destruct (attach_session _ _ _ _ _ _ _ _) as [[m' s'] r] eqn:Ha. destruct (attach_session_spec _ _ _ _ _ _ _ _ _ _ _ Ha) as (E1 & E2 & _). intros id'. left. simpl. by rewrite E1, E2.
  - eapply secrets_left; [exact Hok|]. destruct (Manager_Detach m s id now) as [[m' s'] r] eqn:Hd. by destruct (Manager_Detach_spec _ _ _ _ _ _ _ Hd).
  - eapply secrets_left; [exact Hok|]. unfold DetachParticipantAtGeneration. destruct (_ || _); [apply left_refl|]. destruct (Manager_Detach m s id now) as [[m' s'] r] eqn:Hd. by destruct (Manager_Detach_spec _ _ _ _ _ _ _ Hd).
  - eapply secrets_left; [exact Hok|]. unfold DetachAttachment. destruct (_ =? _)%Z; [apply left_refl|]. destruct (negb _); [apply left_refl|]. destruct (Manager_Detach m s id now) as [[m' s'] r] eqn:Hd. by destruct (Manager_Detach_spec _ _ _ _ _ _ _ Hd).
  - unfold IssueResume. destruct (mg_participants s !! id) as [p|] eqn:Hp; [|done]. destruct (_ || _); [done|]. simpl. eapply secrets_set; [done|done|done|]. exists log, []. split_and!; try done. intros x Hx. by apply elem_of_nil in Hx.
  - apply (secrets_resume m s q log now Hok).
  - eapply secrets_left; [exact Hok|]. unfold BrowserScreenAttachment. destruct screen as [serialized|]; [|apply left_refl]. destruct (_ || _); [apply left_refl|]. destruct (Status _ _) as [e|[state n]]; [apply left_refl|]. destruct (negb _); [apply left_refl|]. destruct (sc_overflow _); [apply left_refl|]. destruct (_ <? _)%Z; [apply left_refl|].
    destruct (SkipTo _ _ _ _) as [[m1 f1] [e|]]; [intros id'; by left|]. destruct (Acknowledge _ _ _) as [h1 [e|]]; intros id'; by left.
  - eapply secrets_left; [exact Hok|]. unfold acknowledgeAtGeneration. destruct (_ && _); [apply left_refl|]. destruct (Status _ _) as [e|[state n]]; [apply left_refl|]. destruct state; try apply left_refl. destruct (match Acknowledged _ _ with Some _ => _ | None => _ end); [apply left_refl|]. destruct (Acknowledge _ _ _) as [h1 r1]. intros id'. by left.
  - eapply secrets_left; [exact Hok|]. apply drop_guests_left.
Qed.

(** C30: an attachment is resumed only with its secret.  Over any calls and whatever else happens to the session: when ResumeAttachment attaches, the secret that it was given is the last one that IssueResume gave out for this attachment, to the same account and
    client; that secret was not used before, there were at most two wrong attempts since it was given out, and the request is for the same resource or admitted by a standing rule. *)
Theorem resume_once m0 h m s log q now m' s' a : rtc session_step (new_session m0 h) (m, s, log) → ResumeAttachment cfg m s q now = (m', s', inr a) →
  ∃ pre post resource, log = pre ++ Issued (rq_AttachmentID q) (rq_AccountID q) (rq_ClientID q) resource (rq_Secret q) :: post ∧ (rq_Standing q = true ∨ resource = rq_Resource q) ∧
    (∀ x, x ∈ post → entry_id x = rq_AttachmentID q → x = Wrong (rq_AttachmentID q)) ∧ (wrongs (rq_AttachmentID q) post ≤ 2)%Z.
Proof.
  intros Hsteps Hr. assert (Hok : secrets_ok s log).
  { assert (Hinv : ∀ x y, rtc session_step x y → secrets_ok x.1.2 x.2 → secrets_ok y.1.2 y.2).
    { induction 1 as [|[[m1 s1] l1] [[m2 s2] l2] z Hs _ IH]; [done|]. intros Hx. apply IH. by eapply secrets_step. }
    apply (Hinv _ _ Hsteps). intros id r Hx. simpl in Hx. by rewrite lookup_empty in Hx. }
  unfold ResumeAttachment in Hr. destruct (mg_resumes s !! rq_AttachmentID q) as [record|] eqn:Hrec; [|done]. destruct (mg_participants s !! rq_AttachmentID q) as [p|] eqn:Hp; [|done]. destruct (proves record p q) eqn:Hv; [|done].
  destruct (Hok _ _ Hrec) as (p' & Hp' & pre & post & -> & Hpost & Hw & Hf). rewrite Hp in Hp'. injection Hp' as <-. unfold proves in Hv. rewrite !andb_true_iff in Hv. destruct Hv as [[[Hs%bool_decide_eq_true_1 Ea%String.eqb_eq] Ec%String.eqb_eq] Hres].
  exists pre, post, (rs_resource record). unfold maxResumeFailures in Hf. rewrite <-Hs, <-Ea, <-Ec, Hw. split_and!; [done| |done|lia]. apply orb_true_iff in Hres as [->|Hres%String.eqb_eq]; [by left|by right].
Qed.
End calls.

(** ** An owner that resumes, and a stranger *)

Section demo.
#[local] Existing Instance eval_runtime.

Definition demo_cfg : Config := mkConfig false 4 1000.
Definition demo_heap : Heap := mkHeap ∅ ∅ [] [].
Definition demo_history : History := mkHistory 100 0 0 0 [] 0 ∅.
Definition demo_owner : Participant := mkParticipant "m" "a" "ann" "laptop" "owner" (Some 5%Z) false (mkDimensions 80 24).
Definition demo_stranger : Participant := mkParticipant "m" "a" "eve" "phone" "owner" (Some 6%Z) false (mkDimensions 80 24).
Definition demo_request (secret : list Z) : ResumeRequest := mkRequest "a" "ann" "laptop" "res" false secret 0.

Definition demo_call (x : Heap * managedSession * list Logged) (c : Call) : Heap * managedSession * list Logged :=
  ((run_call demo_cfg x.1.1 x.1.2 c 7).1, (run_call demo_cfg x.1.1 x.1.2 c 7).2, log_call x.1.2 c x.2).

Definition demo_calls : list Call := [CAttachParticipant demo_owner 0 0; CIssue "a" 1 "res" [1; 2; 3]%Z; CResume (demo_request [9; 9]%Z)].
Definition demo_state : Heap * managedSession * list Logged := foldl demo_call (new_session demo_heap demo_history) demo_calls.

Lemma demo_calls_run calls : ∀ x, rtc (session_step demo_cfg) x (foldl demo_call x calls).
Proof. induction calls as [|c calls IH]; intros [[m s] log]; cbn [foldl]; [done|]. eapply rtc_l; [apply (ss_call demo_cfg m s log c 7)|apply IH]. Qed.

Lemma demo_state_reached : rtc (session_step demo_cfg) (new_session demo_heap demo_history) (demo_state.1.1, demo_state.1.2, demo_state.2).
Proof. pose proof (demo_calls_run demo_calls (new_session demo_heap demo_history)) as Hr. fold demo_state in Hr. by destruct demo_state as [[m s] log]. Qed.

Lemma resume_once_witness : ∃ m' s' a, ResumeAttachment demo_cfg demo_state.1.1 demo_state.1.2 (demo_request [1; 2; 3]%Z) 8 = (m', s', inr a) ∧
  ∃ pre post resource, demo_state.2 = pre ++ Issued "a" "ann" "laptop" resource [1; 2; 3]%Z :: post ∧ (wrongs "a" post ≤ 2)%Z.
Proof.
  assert (Hr : ∃ m' s' a, ResumeAttachment demo_cfg demo_state.1.1 demo_state.1.2 (demo_request [1; 2; 3]%Z) 8 = (m', s', inr a)) by (eexists _, _, _; vm_compute; reflexivity). destruct Hr as (m' & s' & a & Hr). exists m', s', a. split; [exact Hr|].
  destruct (resume_once demo_cfg demo_heap demo_history demo_state.1.1 demo_state.1.2 demo_state.2 (demo_request [1; 2; 3]%Z) 8 m' s' a) as (pre & post & resource & Hlog & _ & _ & Hw); [exact demo_state_reached|exact Hr|].
  exists pre, post, resource. split; [exact Hlog|exact Hw].
Defined.

(** Output is queued for the owner. *)
Definition demo_output : Heap := mkHeap {[0%nat := ["a"; "b"; "c"]%char]} ∅ [] [].
Definition demo_event : Event := mkEvent 1 0 3 (mkWindow 0 0 3) None.
Definition demo_queued : managedSession := set_fanout demo_state.1.2 (PublishOwned demo_output (mg_fanout demo_state.1.2) demo_event).1.2.

Lemma attachment_isolated_witness : ∃ cur, fo_attachments (mg_fanout demo_queued) !! "a" = Some cur ∧
  let s' := (run_call demo_cfg demo_output demo_queued (CAttachParticipant demo_stranger 0 0) 8).2 in
  (∃ pace owner at_, fo_attachments (mg_fanout s') !! "a" = Some (with_pace cur pace owner at_)) ∧ ∃ x, x ∈ fo_ring (mg_fanout s') ∧ (x = demo_event ∨ covers demo_output x demo_event = true).
Proof.
  assert (Hc : ∃ cur, fo_attachments (mg_fanout demo_queued) !! "a" = Some cur ∧ attached cur = true ∧ ac_hasCursor cur = true ∧ ac_cursor cur = 0%Z) by (eexists; split_and!; vm_compute; reflexivity). destruct Hc as (cur & Hc & Ha & Hh & H0).
  assert (Hring : demo_event ∈ fo_ring (mg_fanout demo_queued)).
  { assert (He : fo_ring (mg_fanout demo_queued) = [demo_event]) by (vm_compute; reflexivity). rewrite He. left. }
  destruct (attachment_isolated demo_cfg demo_output demo_queued (CAttachParticipant demo_stranger 0 0) 8 "a" demo_owner cur "eve" "phone") as (_ & Hs & Hq); [vm_compute; reflexivity|exact Hc|exact Ha|reflexivity|discriminate|].
  destruct (Hq Hh) as [_ Hx]. exists cur. split; [exact Hc|]. split; [exact Hs|]. apply (Hx demo_event Hring). rewrite H0. reflexivity.
Defined.
End demo.
